(* ===== verification/_CoqProject ===== *)
-Q . S2P
Prelude.v
BitArray.v
Tsb.v
TsbRep.v
TsbInit.v
TsbSpec.v
TsbPerm.v
Fifo.v
ResultQ.v
ResultQSpec.v
ResultQFifo.v
Serializers.v
QueueDemo.v
RqDest.v
IngresQ.v
QueueImage.v
QueueXfer.v
QueueXferSpec.v
GSFilter.v
GSFilterSpec.v
GSFilterNode.v
GSFilterThm.v
Csv.v
CsvSpec.v
CsvSafe.v
Eddy.v
EddyLoop.v
EddySpec.v
EddyRoute.v
EddyGSF.v
EddyInv.v
EddyAnswer.v
EddyServe.v
EddySource.v
EddyPlan.v
EddyPlanSpec.v
EddyRemove.v
EddyDemo.v
EddyPlanDemo.v
Hash.v
Stem.v
StemSpec.v
FStem.v
FStemRing.v
FStemWindow.v
FStemProbe.v
FStemJoin.v
FStemAnswer.v
FStemDemo.v
EddyModules.v
EddyJoin.v
EddyJoinSpec.v
EddyJoinAnswer.v
EddyJoinServe.v
EddyJoinDemo.v
Window.v
WindowSpec.v
FAgg.v
FAggEddy.v
FAggLists.v
FAggSpec.v
FAggStep.v
FAggThm.v
FAggAnswer.v
FAggStream.v
FAggLate.v
FAggDemo.v
Events.v
EventsMem.v
EventsInv.v
EventsStep.v
EventsRead.v
EventsThm.v
EventsRun.v
EventsTwo.v
EventsAnswer.v
EventsWait.v
EventsAlone.v
EventsDemo.v
