(* ===== verification/Prelude.v ===== *)
(** * TelegraphCQ: a verification development

    TelegraphCQ is a server for continuous queries over data streams, built on
    PostgreSQL 7.3.  The development models its own machinery, the code under
    [src/src/backend] that PostgreSQL does not have, and proves what each part
    promises to the parts around it.  PostgreSQL's catalog, types, storage and
    processes are parameters or are left out (see the end).

    ** The program and its parts

    Sources push lines of text to a wrapper process, whose _wrappers_ turn them
    into tuples.  Tuples travel through _element queues_ in shared memory to the
    back end, which runs one executor for all the queries: the _eddy_.  It takes
    a tuple from a source, gives it the operators of that source to visit, and
    routes it from operator to operator until no query is interested any more or
    it is complete for some of them; then it is projected and put into the
    _result queue_ of each of these queries, where the client's process finds it.
    Operators are shared by all the queries: a _grouped selection filter_ holds
    all the predicates on one expression, a _state module_ the recent tuples of
    one stream, which tuples of other streams are joined with.  Three sets of
    bits in each tuple say which operators it may visit, which it has visited,
    and which queries are done with it.  New queries are _planned_ into the
    running eddy, old ones removed.  _Flux_ spreads an operator over machines: a
    producer keeps what it sent in a _transient skew buffer_ until the replicas
    have acknowledged it, and whole queues are moved over sockets.

    ** The files

    Each file has one Module (or a few), and opens with a comment that says what
    it holds.  Paths are relative to [src/src/backend]; definitions carry the
    names of the C functions they translate.

    Foundations.
    - [Prelude]: outcomes of C code ([cres]), machine integers, loops, lists and
      finite sets of naturals, hint databases and tactics.
    - [BitArray] ([lib/bit.c]): arrays of bits as lists of bytes; [bits_of] reads
      one as a set.  Everything that carries lineage is stated through it.
    - [Hash] ([access/hash/hashfunc.c], [executor/nodeHash.c]): the hash of keys.

    Queues.
    - [Fifo]: the interface [Fifo], a class with laws, through which clients see a
      queue, and the theorem on any interleaving proved from the laws alone.
    - [ResultQ], [ResultQSpec], [ResultQFifo] ([rqueue/resultq.c]): the ring of
      bytes in shared memory with its locks; its refinement of a list of elements;
      its instance of [Fifo], and its limits.
    - [Serializers] ([rqueue/rqdest.c], [planq.c], [controlq.c]): instances of
      [Serializer] for results, tuples and commands, with their round trips.
    - [QueueImage], [QueueXfer], [QueueXferSpec] ([resultq.c],
      [telegraphcq/fluxroutines.c]): a queue sent over a socket that splits writes
      and reads as it likes.
    - [RqDest] ([rqueue/rqdest.c]): the queues of the clients, and delivery of a
      tuple to a set of them, proved against [Fifo].
    - [IngresQ] ([rqueue/ingresq.c]): the table of shared, counted queues.
    - [QueueDemo]: the theorems at a concrete queue.

    Sources.
    - [Csv], [CsvSpec], [CsvSafe] ([utils/telegraphcq/csv.c]): the wrapper for
      lines of comma separated values.

    Grouped selection filters.
    - [GSFilter], [GSFilterSpec], [GSFilterNode], [GSFilterThm]
      ([executor/nodeGSFilter.c], [nodes/nodeFuncs.c]): search trees and lists of
      predicates, the pruned evaluation, registration and removal.

    State modules.
    - [Stem], [StemSpec] ([executor/nodeSteM.c], [intermediateTuple.c]): one hash
      table, built and probed.
    - [FStem], [FStemRing], [FStemWindow], [FStemProbe], [FStemJoin],
      [FStemAnswer] ([executor/nodeFSteM.c], [nodeCQEddy.c]): a ring of them that
      covers a window of the stream, as an operator of the eddy; [FStemDemo]: the
      theorems at concrete tuples.

    The eddy.
    - [Eddy], [EddyLoop] ([executor/nodeCQEddy.c], [nodeEddy.c],
      [nodeScanModule.c]): state, module stack, routing policies, sources, output,
      removal of queries.  Operators are an interface, the class [Fjord] with
      the laws [ModuleLaws] of [EddySpec].
    - [EddySpec], [EddyRoute]: the exploration of a tuple as a relation, and the
      loop as its implementation, for any operators that meet the laws.
    - [EddyGSF]: grouped selection filters meet the laws.
    - [EddyInv], [EddyAnswer], [EddyServe], [EddySource]: the invariant of a
      running eddy, and which queries get a tuple.
    - [EddyPlan], [EddyPlanSpec], [EddyRemove] ([optimizer/plan/eddy.c]): planning
      predicates into the eddy, and taking queries out of it.
    - [EddyDemo], [EddyPlanDemo]: the theorems at concrete eddies.
    - [EddyModules]: filters and FSteMs side by side, as the eddy calls them.
    - [EddyJoin], [EddyJoinSpec], [EddyJoinAnswer], [EddyJoinServe]: plans with
      joins; the combinations a query is to get; that the exploration sends these;
      the whole way of a tuple from its stream to the queries.  [EddyJoinDemo]: an
      eddy with a join.

    Windowed aggregates.
    - [Window], [WindowSpec] ([telegraphcq/window.c], [utils/adt/timestamp.c]):
      windows over timestamps and their numbers, slices, times of day.
    - [FAgg], [FAggLists] ([executor/nodeFAgg.c]): the operator that feeds the
      tuples of each window to an aggregation plan; its linked lists and groups
      against the list of entries they stand for.
    - [FAggEddy] ([nodeCQEddy.c]): an eddy with an FAgg, and its rounds.
    - [FAggSpec]: which windows are answered when, and with which tuples.
      [FAggStep], [FAggThm], [FAggAnswer], [FAggStream]: the calls of the operator,
      the rounds of the eddy, the theorems.  [FAggLate]: a tuple that is late;
      [FAggDemo]: the theorems at concrete streams.

    Event aggregates.
    - [Events] ([executor/nodeFEventAgg.c]): the operator for patterns of events, a
      tree whose nodes have lists of entries at addresses of the heap, and a cache
      of base tuples with pin counts.  The allocator [Palloc] is a parameter that
      may use an address again.
    - [EventsMem], [EventsInv], [EventsStep], [EventsThm]: the invariant of that
      store, that every function keeps it, and that a call is safe and ends.
    - [EventsRead], [EventsRun]: events as values, streams of calls, and the class
      [Simulates] of abstract machines over values that describe an operator.
    - [EventsTwo], [EventsAnswer]: [BOTH], [FOLLOWS], [PRECEDES] over two streams.
      [EventsWait], [EventsAlone]: [NOTFOLLOWS] and [NOTPRECEDES].  [EventsDemo]: the
      theorems at concrete streams, and an allocator that makes the operator miss a
      pair.

    Flux.
    - [Tsb], [TsbRep], [TsbInit], [TsbSpec], [TsbPerm] ([executor/tsb.c]): the
      transient skew buffer on its linked structure, the lists it stands for, and
      its operations against these lists.

    ** How code is modelled

    A C function becomes a function to [cres]: its results together with the new
    state, or the way it stops: [elog] at level ERROR, a failed [Assert], an
    access C leaves undefined, a call that waits for another process, or a loop
    whose fuel is used up.  Pointers that are shared or relinked are locations in
    a store ([Tsb], [Stem], [Events]) or addresses ([ResultQ]); a structure that has one
    owner is a value ([GSFilter]'s trees, tuples in flight in [Eddy]); the buffer
    of [Csv] is kept with its contents, since the code writes zero bytes into it
    and searches for them.  Integers are [Z]; where the code relies on their width
    ([Hash], [QueueImage], the lengths in [Serializers], the [int] counters of
    [IngresQ], the timestamps and times of day of [Window]) the wrap-around is
    written out, or an overflow is an undefined outcome; [long] has 64 bits.  A
    write behind the end of a bit array gives an array that no theorem accepts as
    one.  Whether [memcpy] copes with overlapping regions is a parameter of [Csv],
    and its theorems hold for both answers.  Doubles that only
    steer a policy go through a class of operations without laws, so no theorem
    depends on rounding; those that number windows go through the same class with
    the laws [ExactDouble], which IEEE doubles meet for integers of that size.

    Loops on counters are structural.  The others have fuel, and a theorem that
    the fuel is enough: walks over the lists of [Tsb] take as much as there are
    locations; [Csv]'s column loop as many steps as the buffer has bytes; the
    iterator of [RqDest] one per query number; the probing loops of [FStem] a
    bound on the number of stored tuples; serving timeouts in [Events], which can
    ask for further ones, ends by a lexicographic measure.  The loop of the eddy is shown to end
    by [eddy_explores], with a fuel that the theorem produces, because an
    exploration visits each operator at most once on every path and operators
    answer with finitely many tuples.

    ** What is proved

    - Delivery.  [eddy_serves_tuple]: a tuple taken from a source is delivered
      exactly once to each query of the source all of whose predicates hold on it,
      and to no other.  It rests on [eddy_explores] (the loop implements the
      exploration, for every routing policy and all random answers), on
      [ProcessNextGSFilter_evaluates] (the pruned walk decides what evaluating the
      predicates one by one would), and on [resultqdest_delivers].  Planning
      ([add_filter_to_matching_gsf_plans]) and removal ([remove_query_forgets],
      [ProcessRemoveQueryGSF_removes], where no query has a predicate twice)
      keep the invariant of the filters and masks it assumes; the bit of a dropped
      filter may stay among the operators of a source.  [GSFilter_refines_registry]:
      registrations but inequalities and duplicates, and removals, in any order.
      [BitArray_ops_refine_sets]: the lineage of tuples is set algebra.
    - Joins.  [SteM_refines_list] and [FSteM_refines_segments]: hash tables and
      rings of them behave as lists of tuples; [FSteM_keeps_window],
      [FSteM_bounds_age]: nothing in the window is lost, nothing much older kept;
      [out_tuple_routes]: where a joined tuple goes next and for which queries.
      [eddy_serves_join_queries]: each query that joins streams is sent exactly the
      combinations of a new tuple with stored ones that satisfy it, in whatever
      order the operators are visited, where each query uses all the FSteMs of its
      streams; [filter_query_gets_joined_tuples]: a query without joins may be sent
      them too.
    - Windows.  [window_numbers], [live_at_window_ends]: the arithmetic of windows
      is that of their begins and ends.  [aggregates_answer_windows]: the operator
      has sent the results for the window ends so far, each on the tuples of the
      current windows; [aggregates_catch_up]: timeouts bring it up to the clock (both
      for streams whose windows overlap from the start, without which an assertion
      fails);
      [stream_windows_aggregated]: over one stream, window by window;
      [late_tuple_fails]: what a late tuple does.
    - Events.  [event_calls_safe]: for any pattern a call ends, raises no error and
      neither leaks nor uses freed memory.  [event_pairs_reported]: for pairs of two
      streams, that the results are right, in order and none twice whatever the
      allocator does, and all there are if it does not give an address again;
      [events_not_followed], [events_not_preceded]: for patterns of two streams,
      that the results are exactly those of the meaning, whenever they are asked
      for; [event_lost_at_deadline]: the case in which one is lost.
    - Queues.  [resultq_trace], [enqueue_elt_refines], [dequeue_elt_refines]: the
      ring is a bounded first-in first-out queue; [queue_crosses_socket]: it
      arrives whole; [receive_queue_b_completes_or_spins]: when a blocking
      reception ends.
    - Input.  [csv_frames_lines]: the rows do not depend on how the network cut the
      bytes; [csv_next_safe]: no input makes the wrapper leave its buffer; but for the
      copies of overlapping regions, which both theorems name.
    - The skew buffer.  [append_result_TSB_fifo], [head_TSB_fifo],
      [put_ack_TSB_spec], [reset_cursors_TSB_spec], [ack_all_TSB_spec],
      [permute_tsb_parts_correct] over the invariant that
      [init_TSB_establishes].
    - Errors.  Some theorems state where the code departs from its intent:
      [oversized_element_wedges], [add_query_to_gsf_wrong_inequality],
      [ProcessRemoveQueryGSF_leaves_duplicates],
      [add_filter_to_matching_gsf_swaps_operands],
      [AddWindowFSteM_compares_with_first],
      [filter_query_gets_joined_tuples].

    Theorems with hypotheses have a witness, [<name>_witness], that applies them
    to concrete data by computation.

    ** Not modelled

    - In the files above: logging, memory contexts and the freeing of memory (but
      [freed] of [Tsb], which counts), static plans and operator precedence
      (options that are off), the disk partitions of the SteMs (compiled out),
      sources with bindings (index probes through wrappers), and the control and
      plan queues that the eddy reads between tuples.
    - The wrapper clearinghouse, load shedding with its summaries
      ([telegraphcq/triageq.c], [histogram.c], [wavelet.c]), the Flux producers and
      consumers, and the older operators ([nodeSQEddy.c], [nodeASteM.c]) remain to
      be done; they would come in this order: Flux, the clearinghouse, triage.
    - Of event aggregates the meaning is stated for patterns of two streams; for
      nested patterns there is safety only.
    - Concurrency between processes is present only through locks that block:
      critical sections are taken as atomic, as the spin locks of the code make
      them.
    - PostgreSQL itself: the parser, the base executor, the catalog, storage,
      transactions, types and clients. *)

From stdpp Require Export prelude gmap list numbers strings.
From Stdlib Require Export ZArith Lia.

(** ** Outcomes of C code

    A C function either returns, or stops in one of the ways that matter to
    the callers modelled here: [elog] at level ERROR or above (control leaves
    the function), a failing [Assert] (the sources are configured with
    [USE_ASSERT_CHECKING]), or an access C leaves undefined (a null or dangling
    pointer, an index outside an array).  [Blocks] is a call that waits for
    another process, and [Diverge] the answer of a fuelled loop whose fuel ran
    out. *)
Inductive cfail : Type :=
  | Elog (msg : string)
  | AssertFail
  | Undefined
  | Blocks
  | Diverge.

Inductive cres (A : Type) : Type :=
  | Ok (a : A)
  | Fail (e : cfail).
Arguments Ok {A} _.
Arguments Fail {A} _.

#[global] Instance cfail_eq : EqDecision cfail.
Proof. solve_decision. Defined.
#[global] Instance cres_eq {A} `{EqDecision A} : EqDecision (cres A).
Proof. solve_decision. Defined.

Definition cbind {A B : Type} (m : cres A) (k : A → cres B) : cres B :=
  match m with
  | Ok a => k a
  | Fail e => Fail e
  end.

(** An access that C leaves undefined when the location does not exist. *)
Definition access {A : Type} (o : option A) : cres A :=
  match o with
  | Some a => Ok a
  | None => Fail Undefined
  end.

Definition cassert (b : bool) : cres unit := if b then Ok tt else Fail AssertFail.

Declare Scope tcq_scope.
Delimit Scope tcq_scope with tcq.
Notation "'let!' x ':=' c 'in' k" := (cbind c (fun x => k))
  (at level 200, x pattern, c at level 200, k at level 200, right associativity)
  : tcq_scope.
Open Scope tcq_scope.

Lemma Ok_inj {A} (a b : A) : Ok a = Ok b → a = b.
Proof. by injection 1. Qed.

Lemma cbind_Ok {A B} (m : cres A) (k : A → cres B) b :
  cbind m k = Ok b ↔ ∃ a, m = Ok a ∧ k a = Ok b.
Proof. destruct m; naive_solver. Qed.

Lemma access_Ok {A} (o : option A) a : access o = Ok a ↔ o = Some a.
Proof. destruct o; naive_solver. Qed.

(** [cinv] takes apart every hypothesis that says a composed computation
    returned. *)
Ltac cinv :=
  repeat match goal with
  | H : cbind _ _ = Ok _ |- _ => apply cbind_Ok in H as (? & ? & ?)
  | H : access _ = Ok _ |- _ => apply access_Ok in H
  | H : Ok _ = Ok _ |- _ => injection H as H; subst
  | H : Fail _ = Ok _ |- _ => discriminate H
  | H : cassert ?b = Ok _ |- _ => destruct b eqn:?; [clear H | discriminate H]
  | H : _ ∧ _ |- _ => destruct H
  end.

(** ** Counted loops

    [for_loop n body st] is [for (i = 0; i < n; i++) st = body i st];
    [for_all n p] is a loop that returns false at the first [i] with [p i]
    false, and [find_lt n p] one that returns the first [i] with [p i] true. *)
Fixpoint for_loop {S : Type} (n : nat) (body : nat → S → S) (st : S) : S :=
  match n with
  | O => st
  | Datatypes.S n' => body n' (for_loop n' body st)
  end.

Fixpoint for_all (n : nat) (p : nat → bool) : bool :=
  match n with
  | O => true
  | S n' => if for_all n' p then p n' else false
  end.

Fixpoint find_lt (n : nat) (p : nat → bool) : option nat :=
  match n with
  | O => None
  | S n' =>
      match find_lt n' p with
      | Some i => Some i
      | None => if p n' then Some n' else None
      end
  end.

(** The loop rule: an invariant indexed by the counter. *)
Lemma for_loop_ind {S : Type} (I : nat → S → Prop) body n st :
  I 0 st → (∀ j s, j < n → I j s → I (Datatypes.S j) (body j s)) →
  I n (for_loop n body st).
Proof.
  induction n as [|n IH]; intros H0 Hs; simpl; [done|].
  apply Hs; [lia|]. apply IH; [done|]. intros; apply Hs; auto; lia.
Qed.

Lemma for_loop_ext {S : Type} (f g : nat → S → S) n st :
  (∀ j s, j < n → f j s = g j s) → for_loop n f st = for_loop n g st.
Proof. induction n as [|n IH]; intros H; simpl; [done|]. rewrite H, IH; auto. Qed.

Lemma for_all_true n p : for_all n p = true ↔ ∀ i, i < n → p i = true.
Proof.
  induction n as [|n IH]; simpl; [split; [lia|done]|].
  destruct (for_all n p).
  - split; [|intros H; apply H; lia]. intros Hn i Hi.
    destruct (decide (i = n)) as [->|]; [done|]. apply IH; [done|lia].
  - split; [done|]. intros H. apply IH. intros; apply H; lia.
Qed.

Lemma for_all_false n p : for_all n p = false ↔ ∃ i, i < n ∧ p i = false.
Proof.
  induction n as [|n IH]; simpl.
  - split; [done|]. intros (?&?&?); lia.
  - destruct (for_all n p); split.
    + intros H. exists n. split; [lia|done].
    + intros (i&Hi&Hp). destruct (decide (i = n)) as [->|]; [done|].
      discriminate (proj2 IH). exists i. split; [lia|done].
    + intros _. destruct IH as [IH _]. destruct (IH eq_refl) as (i&?&?). exists i; split; [lia|done].
    + done.
Qed.

Lemma find_lt_aux n p j : j < n → p j = true → ∃ k, find_lt n p = Some k.
Proof.
  induction n as [|n IH]; [lia|]. intros Hj Hp. simpl.
  destruct (find_lt n p) as [k|] eqn:Hk; [by exists k|].
  destruct (decide (j = n)) as [->|]; [rewrite Hp; by exists n|].
  destruct IH as [k Hk']; [lia|done|congruence].
Qed.

Lemma find_lt_Some n p i :
  find_lt n p = Some i ↔ i < n ∧ p i = true ∧ ∀ j, j < i → p j = false.
Proof.
  revert i. induction n as [|n IH]; intros i; simpl.
  - split; [done|]. intros (?&?&?); lia.
  - destruct (find_lt n p) as [k|] eqn:Hk.
    + split.
      * intros [= <-]. destruct (proj1 (IH k) eq_refl) as (?&?&?). split; [lia|done].
      * intros (Hi&Hp&Hmin). destruct (proj1 (IH k) eq_refl) as (?&Hpk&Hk').
        destruct (lt_eq_lt_dec i k) as [[?| ->]|?]; [|done|].
        -- rewrite Hk' in Hp by lia. done.
        -- rewrite Hmin in Hpk by lia. done.
    + assert (∀ j, j < n → p j = false) as Hn.
      { intros j Hj. destruct (p j) eqn:Hpj; [|done]. exfalso.
        destruct (find_lt_aux n p j Hj Hpj) as [k Hk']. congruence. }
      destruct (p n) eqn:Hpn; split.
      * intros [= <-]. split; [lia|]. done.
      * intros (Hi&Hp&Hmin). f_equal. destruct (decide (i = n)); [done|].
        rewrite Hn in Hp by lia. done.
      * done.
      * intros (Hi&Hp&Hmin). destruct (decide (i = n)) as [->|]; [congruence|].
        rewrite Hn in Hp by lia. done.
Qed.

Lemma find_lt_None n p : find_lt n p = None ↔ ∀ j, j < n → p j = false.
Proof.
  split.
  - intros H j Hj. destruct (p j) eqn:Hp; [|done].
    destruct (find_lt_aux n p j Hj Hp). congruence.
  - intros H. destruct (find_lt n p) as [i|] eqn:E; [|done].
    apply find_lt_Some in E as (Hi&Hp&_). rewrite H in Hp; done.
Qed.

Lemma list_eq_lookup_total_1 {A} `{Inhabited A} (l1 l2 : list A) i :
  l1 !! i = l2 !! i → l1 !!! i = l2 !!! i.
Proof. rewrite !list_lookup_total_alt. by intros ->. Qed.

(** A loop that stores [f i] in cell [i] of an array: the cells below the bound
    that exist are overwritten, the others kept. *)
Lemma for_loop_fill {A : Type} (f : nat → A) n (l : list A) j :
  for_loop n (λ i r, <[i := f i]> r) l !! j
  = if decide (j < n) then (λ _, f j) <$> l !! j else l !! j.
Proof.
  induction n as [|n IH]; simpl; [by destruct (decide (j < 0)); [lia|]|].
  assert (length (for_loop n (λ i r, <[i:=f i]> r) l) = length l) as Hlen.
  { clear IH. induction n as [|n IHn]; simpl; [done|]. by rewrite length_insert. }
  destruct (decide (j = n)) as [->|Hne].
  - destruct (decide (n < S n)); [|lia]. destruct (l !! n) as [x|] eqn:E; simpl.
    + apply list_lookup_insert_eq. rewrite Hlen. by eapply lookup_lt_Some.
    + apply lookup_ge_None in E. rewrite list_insert_ge by lia. apply lookup_ge_None. lia.
  - rewrite list_lookup_insert_ne by done. rewrite IH.
    repeat case_decide; try lia; done.
Qed.

Lemma for_loop_fill_length {A : Type} (f : nat → A) n (l : list A) :
  length (for_loop n (λ i r, <[i := f i]> r) l) = length l.
Proof. induction n as [|n IH]; simpl; [done|]. by rewrite length_insert. Qed.

(** The in-place form: each cell is replaced by a function of its old value, and
    the loop computes what the out-of-place form computes. *)
Lemma for_loop_self {A : Type} `{Inhabited A} (f : nat → A → A) n (l : list A) :
  for_loop n (λ i r, <[i := f i (r !!! i)]> r) l
  = for_loop n (λ i r, <[i := f i (l !!! i)]> r) l.
Proof.
  induction n as [|n IH]; simpl; [done|]. rewrite IH. f_equal. f_equal.
  apply list_eq_lookup_total_1. rewrite for_loop_fill.
  by destruct (decide (n < n)); [lia|].
Qed.

(** ** Machine integers and bytes *)
Local Open Scope Z_scope.

(** A [w]-bit unsigned value; [wrap w] is C's conversion to that type. *)
Definition wrap (w : Z) (x : Z) : Z := x mod 2 ^ w.

Definition is_byte (x : Z) : Prop := 0 <= x < 256.

Lemma is_byte_testbit x i : is_byte x → 8 <= i → Z.testbit x i = false.
Proof.
  intros Hx Hi. unfold is_byte in Hx. change 256 with (2 ^ 8) in Hx.
  rewrite <- (Z.mod_small x (2 ^ 8)) by lia. apply Z.mod_pow2_bits_high. lia.
Qed.

Lemma is_byte_bits x : 0 <= x → (∀ i, 8 <= i → Z.testbit x i = false) → is_byte x.
Proof.
  intros H0 H. split; [done|].
  destruct (Z.eq_dec x 0) as [->|]; [lia|].
  apply Z.log2_lt_pow2 with (b := 8); [lia|].
  destruct (Z_lt_ge_dec (Z.log2 x) 8) as [|Hge]; [done|].
  specialize (H (Z.log2 x) ltac:(lia)). rewrite Z.bit_log2 in H by lia. done.
Qed.

(** Two bytes with the same eight bits are equal. *)
Lemma byte_ext x y :
  is_byte x → is_byte y → (∀ i, 0 <= i < 8 → Z.testbit x i = Z.testbit y i) → x = y.
Proof.
  intros Hx Hy H. apply Z.bits_inj'. intros i Hi.
  destruct (Z_lt_ge_dec i 8); [apply H; lia|].
  rewrite !is_byte_testbit; auto; lia.
Qed.
