(* ===== verification/BitArray.v ===== *)
(** * Bit arrays ([src/src/backend/lib/bit.c], [src/src/include/utils/bit.h])

    A [BitArray] is a pointer to [bits8] cells; bit [i] lives in byte [i / 8] at
    position [7 - i mod 8] (the first bit of a byte is its most significant
    one).  The model is the list of the bytes, each a [Z] between 0 and 255.
    Writing a bit outside the array, which C leaves undefined, leaves no array:
    the result is the empty list, which is well formed for no size but 0, so that
    nothing is known of what follows.  Every theorem bounds the indices that are
    read by the length of the array; a byte that does not exist reads as 0.  A function that writes through a pointer returns the
    new contents of that array; since each loop reads cell [idx] of its sources
    before it writes cell [idx] of its target and no other, the functions behave
    the same when the target is one of the sources, as their callers use them. *)

From S2P Require Import Prelude.

Create HintDb bits.

Module Bit.

Abbreviation BitArray := (list Z).

Definition BITS_PER_BYTE : nat := 8.
Definition BAMIN (n : nat) : nat := n / BITS_PER_BYTE.
Definition BAEXT (n : nat) : nat := if decide (n mod BITS_PER_BYTE = 0) then 0 else 1.
Definition BASIZE (n : nat) : nat := BAMIN n + BAEXT n.

(** [1 << (BITS_PER_BYTE - 1 - (bitIndex % BITS_PER_BYTE))] *)
Definition mask (bitIndex : nat) : Z :=
  Z.shiftl 1 (Z.of_nat (BITS_PER_BYTE - 1 - bitIndex mod BITS_PER_BYTE)).

(** [palloc] does not clear the memory it returns: [garbage] is what it held. *)
Definition BitArrayCreate (garbage : nat → Z) (size : nat) : BitArray :=
  garbage <$> seq 0 (BASIZE size).

Definition BitArrayAnd (left right res : BitArray) (num : nat) : BitArray :=
  for_loop (BASIZE num) (λ idx r, <[idx := Z.land (left !!! idx) (right !!! idx)]> r) res.

Definition BitArrayAndSelf (left right : BitArray) (num : nat) : BitArray :=
  for_loop (BASIZE num) (λ idx l, <[idx := Z.land (l !!! idx) (right !!! idx)]> l) left.

Definition BitArrayOr (left right res : BitArray) (num : nat) : BitArray :=
  for_loop (BASIZE num) (λ idx r, <[idx := Z.lor (left !!! idx) (right !!! idx)]> r) res.

Definition BitArrayOrSelf (left right : BitArray) (num : nat) : BitArray :=
  for_loop (BASIZE num) (λ idx l, <[idx := Z.lor (l !!! idx) (right !!! idx)]> l) left.

(** [~b] is computed as an [int] and stored in eight bits. *)
Definition not8 (b : Z) : Z := wrap 8 (Z.lnot b).

Definition BitArrayNot (to from : BitArray) (num : nat) : BitArray :=
  for_loop (BASIZE num) (λ idx r, <[idx := not8 (from !!! idx)]> r) to.

Definition BitArrayNotSelf (left : BitArray) (num : nat) : BitArray :=
  for_loop (BASIZE num) (λ idx l, <[idx := not8 (l !!! idx)]> l) left.

Definition BitArrayEqual (src dest : BitArray) (num : nat) : bool :=
  for_all (BASIZE num) (λ idx, Z.eqb (src !!! idx) (dest !!! idx)).

Definition BitArrayContained (big small : BitArray) (num : nat) : bool :=
  for_all (BASIZE num) (λ idx, Z.eqb (Z.land (small !!! idx) (big !!! idx)) (small !!! idx)).

(** [bitArray[k] = b].  Outside the array this is undefined in C; here it leaves no
    byte at all, which is no array of bits ([wf]), so that every theorem on a
    written array needs the index to be inside. *)
Definition write_byte (bitArray : BitArray) (k : nat) (b : Z) : BitArray :=
  if decide (k < length bitArray) then <[k := b]> bitArray else [].

Definition BitArraySetBit (bitArray : BitArray) (bitIndex : nat) : BitArray :=
  let k := bitIndex / BITS_PER_BYTE in
  write_byte bitArray k (Z.lor (bitArray !!! k) (mask bitIndex)).

Definition BitArrayClearBit (bitArray : BitArray) (bitIndex : nat) : BitArray :=
  let k := bitIndex / BITS_PER_BYTE in
  write_byte bitArray k (Z.land (bitArray !!! k) (Z.lnot (mask bitIndex))).

Definition BitArrayBitIsSet (bitArray : BitArray) (bitIndex : nat) : bool :=
  negb (Z.eqb (Z.land (bitArray !!! (bitIndex / BITS_PER_BYTE)) (mask bitIndex)) 0).

Definition BitArraySetAll (bitArray : BitArray) (numElements : nat) : BitArray :=
  for_loop numElements (λ i b, BitArraySetBit b i) bitArray.

Definition BitArrayClearAll (bitArray : BitArray) (numElements : nat) : BitArray :=
  for_loop numElements (λ i b, BitArrayClearBit b i) bitArray.

Definition BitArrayRealClearAll (bitArray : BitArray) (numElements : nat) : BitArray :=
  for_loop (BASIZE numElements) (λ idx b, <[idx := 0%Z]> b) bitArray.

Definition BitArrayIsAnySet (bitArray : BitArray) (numElements : nat) : bool :=
  negb (for_all (BASIZE numElements) (λ i, Z.eqb (bitArray !!! i) 0)).

Definition BitArrayIsAnyCleared (bitArray : BitArray) (numElements : nat) : bool :=
  negb (for_all (BASIZE numElements) (λ i, Z.eqb (bitArray !!! i) 255)).

Definition BitArrayNumSet (bitArray : BitArray) (numElements : nat) : nat :=
  for_loop numElements (λ i num, if BitArrayBitIsSet bitArray i then S num else num) 0.

(** [memcpy(tgt, src, BASIZE(num))] *)
Definition BitArrayClone (tgt src : BitArray) (num : nat) : BitArray :=
  for_loop (BASIZE num) (λ idx t, <[idx := src !!! idx]> t) tgt.

(** The scan of one byte, most significant bit first, and of the bytes; [set]
    is [8 * i] when byte [i] is looked at. *)
Definition first_in_byte (b : Z) : option nat :=
  find_lt BITS_PER_BYTE
    (λ j, negb (Z.eqb (Z.land b (Z.shiftl 1 (Z.of_nat (BITS_PER_BYTE - (j + 1))))) 0)).

Fixpoint first_bit_from (ba : BitArray) (i n : nat) (set : Z) : Z :=
  match n with
  | O => (-1)%Z
  | S n' =>
      let b := ba !!! i in
      if Z.eqb b 0 then first_bit_from ba (S i) n' (set + Z.of_nat BITS_PER_BYTE)
      else match first_in_byte b with
           | Some j => (set + Z.of_nat j)%Z
           | None => first_bit_from ba (S i) n' (set + Z.of_nat BITS_PER_BYTE)
           end
  end.

Definition BitArrayFirstBit (ba : BitArray) (num : nat) : Z :=
  first_bit_from ba 0 (BASIZE num) 0.

(** Bytes of a little-endian 64-bit [Word_t], least significant first. *)
Definition SIZEOF_WORD_T : nat := 8.

Fixpoint le_word (l : list Z) : Z :=
  match l with
  | [] => 0
  | b :: l' => (b + 256 * le_word l')%Z
  end.

Definition GetBitArrayAsWord_t (ba : BitArray) (num : nat) : cres Z :=
  let! _ := cassert (num <=? BITS_PER_BYTE * SIZEOF_WORD_T)%nat in
  let numbytes := BASIZE num in
  Ok (if decide (numbytes = SIZEOF_WORD_T)
      then le_word (take SIZEOF_WORD_T ba)
      else le_word (((λ i, ba !!! i) <$> seq 0 numbytes)
                    ++ replicate (SIZEOF_WORD_T - numbytes) 0%Z)).

(** [J1S] sets a bit of a Judy1 array, a set of words. *)
Definition GetBitArrayAsJudy1 (ba : BitArray) (num : nat) : gset nat :=
  for_loop num (λ i j, if BitArrayBitIsSet ba i then {[i]} ∪ j else j) ∅.

(** ** Properties *)

(** An array of [n] bits: its bytes are there and are bytes. *)
Definition wf (n : nat) (ba : BitArray) : Prop := length ba = BASIZE n ∧ Forall is_byte ba.

Lemma BASIZE_bound n : n ≤ 8 * BASIZE n < n + 8.
Proof.
  unfold BASIZE, BAMIN, BAEXT, BITS_PER_BYTE.
  pose proof (Nat.div_mod_eq n 8). pose proof (Nat.mod_upper_bound n 8).
  case_decide; lia.
Qed.

Lemma BASIZE_mul8 k : BASIZE (8 * k) = k.
Proof. pose proof (BASIZE_bound (8 * k)). lia. Qed.

Lemma byte_index n i : i < n → i / BITS_PER_BYTE < BASIZE n.
Proof.
  intros Hi. pose proof (BASIZE_bound n). unfold BITS_PER_BYTE.
  apply Nat.Div0.div_lt_upper_bound. lia.
Qed.

Lemma mask_pow i : mask i = (2 ^ Z.of_nat (7 - i mod 8))%Z.
Proof. unfold mask. rewrite Z.shiftl_1_l. done. Qed.

(** The reading of one bit, as a test of the byte that holds it. *)
Lemma land_pow2_test b k : (0 <= k)%Z →
  negb (Z.eqb (Z.land b (2 ^ k)) 0) = Z.testbit b k.
Proof.
  intros Hk. destruct (Z.testbit b k) eqn:Hb.
  - apply negb_true_iff, Z.eqb_neq. intros H0.
    assert (Z.testbit (Z.land b (2 ^ k)) k = true) as Ht
      by (rewrite Z.land_spec, Hb, Z.pow2_bits_true; done).
    rewrite H0, Z.bits_0 in Ht. done.
  - apply negb_false_iff, Z.eqb_eq. apply Z.bits_inj'. intros n Hn.
    rewrite Z.land_spec, Z.pow2_bits_eqb, Z.bits_0 by done.
    destruct (Z.eqb_spec k n) as [->|]; [by rewrite Hb | apply andb_false_r].
Qed.

Lemma BitIsSet_testbit ba i :
  BitArrayBitIsSet ba i = Z.testbit (ba !!! (i / 8)) (Z.of_nat (7 - i mod 8)).
Proof. unfold BitArrayBitIsSet. rewrite mask_pow. apply land_pow2_test. lia. Qed.

(** Bit [j] of byte [k], counted from the least significant, is bit
    [8 * k + (7 - j)] of the array. *)
Lemma testbit_BitIsSet ba k j : j < 8 →
  Z.testbit (ba !!! k) (Z.of_nat j) = BitArrayBitIsSet ba (8 * k + (7 - j)).
Proof.
  intros Hj. rewrite BitIsSet_testbit.
  rewrite (Nat.mul_comm 8 k), Nat.div_add_l, (Nat.div_small (7 - j)) by lia.
  rewrite Nat.add_0_r, Nat.add_comm, Nat.Div0.mod_add, Nat.mod_small by lia.
  do 2 f_equal. lia.
Qed.

Lemma total_byte ba k : Forall is_byte ba → is_byte (ba !!! k).
Proof.
  intros H. rewrite list_lookup_total_alt. destruct (ba !! k) as [b|] eqn:E; simpl; [|done].
  by eapply Forall_lookup_1.
Qed.
#[local] Hint Resolve total_byte : core.

(** Bytes that agree on their eight bits of the array are equal. *)
Lemma byte_bits_ext a b k :
  Forall is_byte a → Forall is_byte b →
  (∀ i, 8 * k ≤ i < 8 * k + 8 → BitArrayBitIsSet a i = BitArrayBitIsSet b i) →
  a !!! k = b !!! k.
Proof.
  intros Ha Hb H. apply byte_ext; auto. intros i Hi.
  rewrite <- (Z2Nat.id i) by lia. rewrite !testbit_BitIsSet by lia. apply H. lia.
Qed.

(** *** Pointwise operations on bytes *)

Lemma fill_total (f : nat → Z) n (l : list Z) k : n ≤ length l →
  for_loop n (λ i r, <[i := f i]> r) l !!! k = if decide (k < n) then f k else l !!! k.
Proof.
  intros Hn. rewrite !list_lookup_total_alt, for_loop_fill. case_decide; [|done].
  destruct (lookup_lt_is_Some_2 l k) as [x ->]; [lia|done].
Qed.

Lemma fill_bytes (f : nat → Z) n (l : list Z) :
  (∀ i, i < n → is_byte (f i)) → Forall is_byte l →
  Forall is_byte (for_loop n (λ i r, <[i := f i]> r) l).
Proof.
  intros Hf Hl. apply Forall_lookup. intros i x. rewrite for_loop_fill.
  case_decide; [|by apply Forall_lookup_1].
  destruct (l !! i); [|done]. intros [= <-]. by apply Hf.
Qed.

Lemma fill_bit (f : nat → Z) n (l : list Z) num i :
  n = BASIZE num → n ≤ length l → i < num →
  BitArrayBitIsSet (for_loop n (λ i r, <[i := f i]> r) l) i
  = Z.testbit (f (i / 8)) (Z.of_nat (7 - i mod 8)).
Proof.
  intros -> Hl Hi. rewrite BitIsSet_testbit, fill_total by done.
  rewrite decide_True; [done|]. by apply byte_index.
Qed.

Lemma land_byte x y : is_byte x → is_byte (Z.land x y).
Proof.
  intros Hx. apply is_byte_bits.
  - apply Z.land_nonneg. unfold is_byte in Hx. lia.
  - intros i Hi. by rewrite Z.land_spec, is_byte_testbit.
Qed.

Lemma lor_byte x y : is_byte x → is_byte y → is_byte (Z.lor x y).
Proof.
  intros Hx Hy. apply is_byte_bits.
  - apply Z.lor_nonneg. unfold is_byte in *. lia.
  - intros i Hi. by rewrite Z.lor_spec, !is_byte_testbit.
Qed.

Lemma not8_byte x : is_byte (not8 x).
Proof. unfold not8, wrap, is_byte. change 256%Z with (2 ^ 8)%Z. apply Z.mod_pos_bound. lia. Qed.

Lemma not8_testbit x i : (0 <= i < 8)%Z → Z.testbit (not8 x) i = negb (Z.testbit x i).
Proof. intros Hi. unfold not8, wrap. rewrite Z.mod_pow2_bits_low, Z.lnot_spec by lia. done. Qed.

Lemma mask_byte i : is_byte (mask i).
Proof.
  rewrite mask_pow. split; [lia|]. change 256%Z with (2 ^ 8)%Z. apply Z.pow_lt_mono_r; lia.
Qed.
#[local] Hint Resolve land_byte lor_byte not8_byte mask_byte : core.

Section ops.
Context (num : nat).
Implicit Types (a b res : BitArray).

Lemma And_bit a b res i : BASIZE num ≤ length res → i < num →
  BitArrayBitIsSet (BitArrayAnd a b res num) i
  = BitArrayBitIsSet a i && BitArrayBitIsSet b i.
Proof.
  intros Hl Hi. unfold BitArrayAnd. rewrite (fill_bit _ _ _ num) by done.
  by rewrite Z.land_spec, !BitIsSet_testbit.
Qed.

Lemma Or_bit a b res i : BASIZE num ≤ length res → i < num →
  BitArrayBitIsSet (BitArrayOr a b res num) i
  = BitArrayBitIsSet a i || BitArrayBitIsSet b i.
Proof.
  intros Hl Hi. unfold BitArrayOr. rewrite (fill_bit _ _ _ num) by done.
  by rewrite Z.lor_spec, !BitIsSet_testbit.
Qed.

Lemma Not_bit a res i : BASIZE num ≤ length res → i < num →
  BitArrayBitIsSet (BitArrayNot res a num) i = negb (BitArrayBitIsSet a i).
Proof.
  intros Hl Hi. unfold BitArrayNot. rewrite (fill_bit _ _ _ num) by done.
  by rewrite not8_testbit, BitIsSet_testbit by lia.
Qed.

Lemma Clone_bit a res i : BASIZE num ≤ length res → i < num →
  BitArrayBitIsSet (BitArrayClone res a num) i = BitArrayBitIsSet a i.
Proof.
  intros Hl Hi. unfold BitArrayClone. rewrite (fill_bit _ _ _ num) by done.
  by rewrite BitIsSet_testbit.
Qed.

Lemma RealClearAll_bit a i : BASIZE num ≤ length a → i < num →
  BitArrayBitIsSet (BitArrayRealClearAll a num) i = false.
Proof.
  intros Hl Hi. unfold BitArrayRealClearAll. rewrite (fill_bit _ _ _ num) by done.
  apply Z.bits_0.
Qed.

(** The in-place functions compute what the three-operand ones compute. *)
Lemma AndSelf_And a b : BitArrayAndSelf a b num = BitArrayAnd a b a num.
Proof. apply (for_loop_self (λ i x, Z.land x (b !!! i))). Qed.
Lemma OrSelf_Or a b : BitArrayOrSelf a b num = BitArrayOr a b a num.
Proof. apply (for_loop_self (λ i x, Z.lor x (b !!! i))). Qed.
Lemma NotSelf_Not a : BitArrayNotSelf a num = BitArrayNot a a num.
Proof. apply (for_loop_self (λ _ x, not8 x)). Qed.

Lemma And_wf a b res : Forall is_byte a → wf num res → wf num (BitArrayAnd a b res num).
Proof.
  intros Ha [Hl Hr]. split; [by unfold BitArrayAnd; rewrite for_loop_fill_length|].
  apply fill_bytes; auto.
Qed.
Lemma Or_wf a b res : Forall is_byte a → Forall is_byte b → wf num res →
  wf num (BitArrayOr a b res num).
Proof.
  intros Ha Hb [Hl Hr]. split; [by unfold BitArrayOr; rewrite for_loop_fill_length|].
  apply fill_bytes; auto.
Qed.
Lemma Not_wf a res : wf num res → wf num (BitArrayNot res a num).
Proof.
  intros [Hl Hr]. split; [by unfold BitArrayNot; rewrite for_loop_fill_length|].
  apply fill_bytes; auto.
Qed.
Lemma Clone_wf a res : Forall is_byte a → wf num res → wf num (BitArrayClone res a num).
Proof.
  intros Ha [Hl Hr]. split; [by unfold BitArrayClone; rewrite for_loop_fill_length|].
  apply fill_bytes; auto.
Qed.
Lemma RealClearAll_wf a : wf num a → wf num (BitArrayRealClearAll a num).
Proof.
  intros [Hl Hr]. split; [by unfold BitArrayRealClearAll; rewrite for_loop_fill_length|].
  by apply fill_bytes.
Qed.
End ops.

(** *** Single bits *)

Lemma split_index i j : i / 8 = j / 8 → 7 - i mod 8 = 7 - j mod 8 → i = j.
Proof.
  pose proof (Nat.div_mod_eq i 8). pose proof (Nat.div_mod_eq j 8).
  pose proof (Nat.mod_upper_bound i 8). pose proof (Nat.mod_upper_bound j 8). lia.
Qed.

Lemma SetBit_bit ba i j : i / 8 < length ba →
  BitArrayBitIsSet (BitArraySetBit ba i) j = bool_decide (i = j) || BitArrayBitIsSet ba j.
Proof.
  intros Hi. rewrite !BitIsSet_testbit. unfold BitArraySetBit, write_byte. change BITS_PER_BYTE with 8. rewrite (decide_True (P := i / 8 < length ba)) by done.
  destruct (decide (i / 8 = j / 8)) as [Hb|Hb].
  - rewrite <- Hb, list_lookup_total_insert_eq by done.
    rewrite Z.lor_spec, mask_pow, Z.pow2_bits_eqb by lia. rewrite orb_comm. f_equal.
    case_bool_decide as Hij; [subst; apply Z.eqb_refl|].
    apply Z.eqb_neq. intros Hm. apply Hij, split_index; [done|lia].
  - rewrite list_lookup_total_insert_ne by done.
    rewrite bool_decide_eq_false_2; [done|]. by intros ->.
Qed.

Lemma ClearBit_bit ba i j : i / 8 < length ba →
  BitArrayBitIsSet (BitArrayClearBit ba i) j = negb (bool_decide (i = j)) && BitArrayBitIsSet ba j.
Proof.
  intros Hi. rewrite !BitIsSet_testbit. unfold BitArrayClearBit, write_byte. change BITS_PER_BYTE with 8. rewrite (decide_True (P := i / 8 < length ba)) by done.
  destruct (decide (i / 8 = j / 8)) as [Hb|Hb].
  - rewrite <- Hb, list_lookup_total_insert_eq by done.
    rewrite Z.land_spec, Z.lnot_spec, mask_pow, Z.pow2_bits_eqb by lia.
    rewrite andb_comm. do 2 f_equal.
    case_bool_decide as Hij; [subst; apply Z.eqb_refl|].
    apply Z.eqb_neq. intros Hm. apply Hij, split_index; [done|lia].
  - rewrite list_lookup_total_insert_ne by done.
    rewrite bool_decide_eq_false_2; [done|]. by intros ->.
Qed.

Lemma write_byte_wf n ba i b : i < n → is_byte b → wf n ba → wf n (write_byte ba (i / BITS_PER_BYTE) b).
Proof.
  intros Hi Hb [Hl Hf]. unfold write_byte. rewrite decide_True by (rewrite Hl; by apply byte_index).
  split; [by rewrite length_insert|]. by apply Forall_insert.
Qed.
Lemma SetBit_wf n ba i : i < n → wf n ba → wf n (BitArraySetBit ba i).
Proof. intros Hi Hw. apply write_byte_wf; [done| |done]. destruct Hw. auto. Qed.
Lemma ClearBit_wf n ba i : i < n → wf n ba → wf n (BitArrayClearBit ba i).
Proof. intros Hi Hw. apply write_byte_wf; [done| |done]. destruct Hw. auto. Qed.
#[export] Hint Resolve And_wf Or_wf Not_wf Clone_wf RealClearAll_wf SetBit_wf ClearBit_wf : bits.

Lemma SetAll_wf n ba : wf n ba → wf n (BitArraySetAll ba n).
Proof. intros H. apply (for_loop_ind (λ _ b, wf n b)); [done|]. intros i b Hi Hb. by apply SetBit_wf. Qed.
Lemma ClearAll_wf n ba : wf n ba → wf n (BitArrayClearAll ba n).
Proof. intros H. apply (for_loop_ind (λ _ b, wf n b)); [done|]. intros i b Hi Hb. by apply ClearBit_wf. Qed.
#[export] Hint Resolve SetAll_wf ClearAll_wf : bits.

Lemma wf_index n ba i : wf n ba → i < n → i / 8 < length ba.
Proof. intros [-> _]. apply byte_index. Qed.

Lemma SetAll_bit n ba j : wf n ba →
  BitArrayBitIsSet (BitArraySetAll ba n) j = bool_decide (j < n) || BitArrayBitIsSet ba j.
Proof.
  intros Hwf. unfold BitArraySetAll.
  cut (wf n (for_loop n (λ i b, BitArraySetBit b i) ba) ∧
       BitArrayBitIsSet (for_loop n (λ i b, BitArraySetBit b i) ba) j
       = bool_decide (j < n) || BitArrayBitIsSet ba j); [tauto|].
  refine (for_loop_ind (λ k b, wf n b ∧ BitArrayBitIsSet b j
           = bool_decide (j < k) || BitArrayBitIsSet ba j) _ n ba _ _); [done|].
  intros k b Hk [Hb Hj]. split; [eauto with bits|].
  rewrite SetBit_bit by (by eapply wf_index). rewrite Hj.
  repeat case_bool_decide; try lia; done.
Qed.

Lemma ClearAll_bit n ba j : wf n ba →
  BitArrayBitIsSet (BitArrayClearAll ba n) j = negb (bool_decide (j < n)) && BitArrayBitIsSet ba j.
Proof.
  intros Hwf. unfold BitArrayClearAll.
  cut (wf n (for_loop n (λ i b, BitArrayClearBit b i) ba) ∧
       BitArrayBitIsSet (for_loop n (λ i b, BitArrayClearBit b i) ba) j
       = negb (bool_decide (j < n)) && BitArrayBitIsSet ba j); [tauto|].
  refine (for_loop_ind (λ k b, wf n b ∧ BitArrayBitIsSet b j
           = negb (bool_decide (j < k)) && BitArrayBitIsSet ba j) _ n ba _ _); [done|].
  intros k b Hk [Hb Hj]. split; [eauto with bits|].
  rewrite ClearBit_bit by (by eapply wf_index). rewrite Hj.
  repeat case_bool_decide; try lia; done.
Qed.

(** *** The sets that arrays represent *)

(** The bits below [num] that are set. *)
Definition bits_of (num : nat) (ba : BitArray) : gset nat :=
  list_to_set (filter (λ i, BitArrayBitIsSet ba i = true) (seq 0 num)).

Lemma elem_of_bits_of num ba i : i ∈ bits_of num ba ↔ i < num ∧ BitArrayBitIsSet ba i = true.
Proof.
  unfold bits_of. rewrite elem_of_list_to_set, list_elem_of_filter, elem_of_seq. naive_solver lia.
Qed.

Definition below (num : nat) : gset nat := set_seq 0 num.

Lemma elem_of_below num i : i ∈ below num ↔ i < num.
Proof. unfold below. rewrite elem_of_set_seq. lia. Qed.

Lemma bits_of_below num ba : bits_of num ba ⊆ below num.
Proof. intros i. rewrite elem_of_bits_of, elem_of_below. tauto. Qed.

(** Proves that two sets of bits are the same by looking at one index. *)
Ltac bitset :=
  apply set_eq; intros ?i;
  rewrite ?elem_of_difference, ?elem_of_union, ?elem_of_intersection, ?elem_of_singleton,
    ?elem_of_below, ?elem_of_bits_of, ?elem_of_empty.

Section sets.
Context (num : nat) (a b res : BitArray).
Context (Ha : wf num a) (Hb : wf num b) (Hres : wf num res).

Lemma And_set : bits_of num (BitArrayAnd a b res num) = bits_of num a ∩ bits_of num b.
Proof.
  bitset. destruct (decide (i < num)); [|tauto].
  rewrite And_bit, andb_true_iff by (destruct Hres; lia). tauto.
Qed.
Lemma Or_set : bits_of num (BitArrayOr a b res num) = bits_of num a ∪ bits_of num b.
Proof.
  bitset. destruct (decide (i < num)); [|tauto].
  rewrite Or_bit, orb_true_iff by (destruct Hres; lia). tauto.
Qed.
Lemma Not_set : bits_of num (BitArrayNot res a num) = below num ∖ bits_of num a.
Proof.
  bitset. destruct (decide (i < num)); [|tauto].
  rewrite Not_bit, negb_true_iff by (destruct Hres; lia).
  destruct (BitArrayBitIsSet a i); naive_solver.
Qed.
Lemma Clone_set : bits_of num (BitArrayClone res a num) = bits_of num a.
Proof.
  bitset. destruct (decide (i < num)); [|tauto].
  rewrite Clone_bit by (destruct Hres; lia). tauto.
Qed.
Lemma RealClearAll_set : bits_of num (BitArrayRealClearAll a num) = ∅.
Proof.
  bitset. split; [|done]. intros [Hi Ht].
  rewrite RealClearAll_bit in Ht by (destruct Ha; lia). done.
Qed.
Lemma SetAll_set : bits_of num (BitArraySetAll a num) = below num.
Proof. bitset. rewrite SetAll_bit by done. case_bool_decide; naive_solver. Qed.
Lemma ClearAll_set : bits_of num (BitArrayClearAll a num) = ∅.
Proof. bitset. rewrite ClearAll_bit by done. case_bool_decide; naive_solver. Qed.
Lemma SetBit_set i : i < num → bits_of num (BitArraySetBit a i) = {[i]} ∪ bits_of num a.
Proof.
  intros Hi. apply set_eq. intros j. rewrite elem_of_union, elem_of_singleton, !elem_of_bits_of.
  rewrite SetBit_bit by (by eapply wf_index).
  case_bool_decide; naive_solver.
Qed.
Lemma ClearBit_set i : i < num → bits_of num (BitArrayClearBit a i) = bits_of num a ∖ {[i]}.
Proof.
  intros Hi. apply set_eq. intros j.
  rewrite elem_of_difference, elem_of_singleton, !elem_of_bits_of.
  rewrite ClearBit_bit by (by eapply wf_index).
  case_bool_decide; naive_solver.
Qed.
End sets.

(** Equal bytes, for arrays that use all their bits. *)
Lemma wf_ext k a b : wf (8 * k) a → wf (8 * k) b → bits_of (8 * k) a = bits_of (8 * k) b → a = b.
Proof.
  intros [Hla Ha] [Hlb Hb] H. apply list_eq_same_length with (BASIZE (8 * k)); [lia|lia|].
  intros i x y Hi Hx Hy. rewrite BASIZE_mul8 in Hi.
  apply list_lookup_total_correct in Hx as <-. apply list_lookup_total_correct in Hy as <-.
  apply byte_bits_ext; auto. intros j Hj.
  assert (j ∈ bits_of (8 * k) a ↔ j ∈ bits_of (8 * k) b) as He by (by rewrite H).
  rewrite !elem_of_bits_of in He.
  destruct (BitArrayBitIsSet a j), (BitArrayBitIsSet b j); naive_solver lia.
Qed.

Lemma byte_zero_bits a k : Forall is_byte a →
  Z.eqb (a !!! k) 0 = true ↔ ∀ j, 8 * k ≤ j < 8 * k + 8 → BitArrayBitIsSet a j = false.
Proof.
  intros Ha. rewrite Z.eqb_eq. split.
  - intros H0 j Hj. replace j with (8 * k + (7 - (7 - (j - 8 * k)))) by lia.
    rewrite <- testbit_BitIsSet, H0 by lia. apply Z.bits_0.
  - intros H. apply byte_ext; [by apply total_byte|done|]. intros i Hi.
    rewrite <- (Z2Nat.id i) by lia. rewrite testbit_BitIsSet, H by lia. by rewrite Z.bits_0.
Qed.

Lemma byte_full_bits a k : Forall is_byte a →
  Z.eqb (a !!! k) 255 = true ↔ ∀ j, 8 * k ≤ j < 8 * k + 8 → BitArrayBitIsSet a j = true.
Proof.
  intros Ha. rewrite Z.eqb_eq.
  assert (∀ i, (0 <= i < 8)%Z → Z.testbit 255 i = true) as Hfull.
  { intros i Hi. change 255%Z with (Z.ones 8). rewrite Z.ones_spec_low; [done|lia]. }
  split.
  - intros H0 j Hj. replace j with (8 * k + (7 - (7 - (j - 8 * k)))) by lia.
    rewrite <- testbit_BitIsSet, H0 by lia. apply Hfull. lia.
  - intros H. apply byte_ext; [by apply total_byte|done|]. intros i Hi. rewrite Hfull by lia.
    rewrite <- (Z2Nat.id i) by lia. rewrite testbit_BitIsSet, H by lia. done.
Qed.

Lemma index_in_byte j : 8 * (j / 8) ≤ j < 8 * (j / 8) + 8.
Proof. pose proof (Nat.div_mod_eq j 8). pose proof (Nat.mod_upper_bound j 8). lia. Qed.

Section predicates.
Context (k : nat) (a b : BitArray).
Context (Ha : wf (8 * k) a) (Hb : wf (8 * k) b).

Lemma Equal_eq : BitArrayEqual a b (8 * k) = true ↔ a = b.
Proof.
  unfold BitArrayEqual. rewrite for_all_true. destruct Ha as [Hla ?], Hb as [Hlb ?].
  split; [|intros ->; intros; apply Z.eqb_refl].
  intros H'. apply list_eq_same_length with (BASIZE (8 * k)); [lia|lia|].
  intros i x y Hi Hx Hy.
  apply list_lookup_total_correct in Hx as <-. apply list_lookup_total_correct in Hy as <-.
  apply Z.eqb_eq, H'. done.
Qed.

Lemma Equal_set : BitArrayEqual a b (8 * k) = true ↔ bits_of (8 * k) a = bits_of (8 * k) b.
Proof. rewrite Equal_eq. split; [by intros ->|by apply wf_ext]. Qed.

Lemma Contained_set : BitArrayContained a b (8 * k) = true ↔ bits_of (8 * k) b ⊆ bits_of (8 * k) a.
Proof.
  unfold BitArrayContained. rewrite for_all_true, BASIZE_mul8.
  destruct Ha as [Hla Hba], Hb as [Hlb Hbb]. split.
  - intros H j. rewrite !elem_of_bits_of. intros [Hj Ht]. split; [done|].
    specialize (H (j / 8) ltac:(apply Nat.Div0.div_lt_upper_bound; lia)). apply Z.eqb_eq in H.
    rewrite BitIsSet_testbit in Ht |- *. rewrite <- H, Z.land_spec in Ht.
    apply andb_true_iff in Ht. tauto.
  - intros H i Hi. apply Z.eqb_eq. apply byte_ext; auto. intros j Hj.
    rewrite Z.land_spec. rewrite <- (Z2Nat.id j) by lia. rewrite !testbit_BitIsSet by lia.
    set (q := 8 * i + (7 - Z.to_nat j)).
    destruct (BitArrayBitIsSet b q) eqn:Eb; [|done]. simpl.
    apply (proj1 (elem_of_bits_of (8 * k) a q)). apply H. rewrite elem_of_bits_of.
    split; [unfold q; lia|done].
Qed.

End predicates.

Section occupancy.
Context (k : nat) (a : BitArray) (Ha : wf (8 * k) a).

Lemma IsAnySet_set : BitArrayIsAnySet a (8 * k) = true ↔ bits_of (8 * k) a ≠ ∅.
Proof.
  unfold BitArrayIsAnySet. rewrite negb_true_iff, <- not_true_iff_false, for_all_true.
  rewrite BASIZE_mul8. destruct Ha as [_ Hba]. f_equiv.
  setoid_rewrite (byte_zero_bits a _ Hba). split.
  - intros H. bitset. split; [|done]. intros [Hi Ht].
    rewrite (H (i / 8)) in Ht; [done| |apply index_in_byte].
    apply Nat.Div0.div_lt_upper_bound; lia.
  - intros H i Hi j Hj. destruct (BitArrayBitIsSet a j) eqn:E; [|done]. exfalso.
    assert (j ∈ bits_of (8 * k) a) as Hin by (apply elem_of_bits_of; split; [lia|done]).
    rewrite H in Hin. set_solver.
Qed.

Lemma IsAnyCleared_set : BitArrayIsAnyCleared a (8 * k) = true ↔ bits_of (8 * k) a ≠ below (8 * k).
Proof.
  unfold BitArrayIsAnyCleared. rewrite negb_true_iff, <- not_true_iff_false, for_all_true.
  rewrite BASIZE_mul8. destruct Ha as [_ Hba]. f_equiv.
  setoid_rewrite (byte_full_bits a _ Hba). split.
  - intros H. bitset. split; [tauto|]. intros Hi. split; [done|].
    apply (H (i / 8)); [|apply index_in_byte]. apply Nat.Div0.div_lt_upper_bound; lia.
  - intros H i Hi j Hj. apply (proj1 (elem_of_bits_of (8 * k) a j)). rewrite H.
    apply elem_of_below. lia.
Qed.
End occupancy.

Lemma NumSet_size n ba : BitArrayNumSet ba n = size (bits_of n ba).
Proof.
  unfold BitArrayNumSet. induction n as [|n IH]; simpl; [done|].
  assert (bits_of (S n) ba = if BitArrayBitIsSet ba n then {[n]} ∪ bits_of n ba else bits_of n ba) as ->.
  { apply set_eq. intros i. destruct (BitArrayBitIsSet ba n) eqn:E.
    - rewrite elem_of_union, elem_of_singleton, !elem_of_bits_of. split.
      + intros [Hi Ht]. destruct (decide (i = n)); [by left|]. right. split; [lia|done].
      + intros [->|[Hi Ht]]; split; first [lia|done].
    - rewrite !elem_of_bits_of. split; intros [Hi Ht]; (split; [|done]); [|lia].
      destruct (decide (i = n)) as [->|]; [congruence|lia]. }
  rewrite IH. destruct (BitArrayBitIsSet ba n); [|done].
  rewrite size_union, size_singleton; [done|].
  intros i. rewrite elem_of_singleton, elem_of_bits_of. lia.
Qed.

Lemma AsJudy1_set n ba : GetBitArrayAsJudy1 ba n = bits_of n ba.
Proof.
  unfold GetBitArrayAsJudy1. apply set_eq. intros i. rewrite elem_of_bits_of.
  induction n as [|n IH]; simpl; [split; [done|lia]|].
  destruct (BitArrayBitIsSet ba n) eqn:E.
  - rewrite elem_of_union, elem_of_singleton, IH. split.
    + intros [->|[]]; split; first [lia|done].
    + intros [? ?]. destruct (decide (i = n)); [by left|right; split; [lia|done]].
  - rewrite IH. split; intros [? ?]; (split; [|done]); [lia|].
    destruct (decide (i = n)) as [->|]; [congruence|lia].
Qed.

(** *** First set bit *)

Lemma first_in_byte_spec ba k :
  match first_in_byte (ba !!! k) with
  | Some j => j < 8 ∧ BitArrayBitIsSet ba (8 * k + j) = true
              ∧ ∀ j', j' < j → BitArrayBitIsSet ba (8 * k + j') = false
  | None => ∀ j, j < 8 → BitArrayBitIsSet ba (8 * k + j) = false
  end.
Proof.
  assert (∀ j, j < 8 →
    negb (Z.eqb (Z.land (ba !!! k) (Z.shiftl 1 (Z.of_nat (BITS_PER_BYTE - (j + 1))))) 0)
    = BitArrayBitIsSet ba (8 * k + j)) as Hbit.
  { intros j Hj. rewrite Z.shiftl_1_l, land_pow2_test by lia.
    change BITS_PER_BYTE with 8. rewrite testbit_BitIsSet by lia. f_equal. lia. }
  unfold first_in_byte. destruct (find_lt _ _) as [j|] eqn:E.
  - apply find_lt_Some in E as (Hj & Hs & Hmin). change BITS_PER_BYTE with 8 in Hj.
    rewrite Hbit in Hs by done. split; [done|]. split; [done|].
    intros j' Hj'. rewrite <- Hbit by lia. by apply Hmin.
  - intros j Hj. rewrite <- Hbit by done. apply (proj1 (find_lt_None _ _) E). done.
Qed.

Lemma first_bit_from_spec ba i n :
  Forall is_byte ba →
  (first_bit_from ba i n (Z.of_nat (8 * i)) = (-1)%Z
     ∧ ∀ j, 8 * i ≤ j < 8 * (i + n) → BitArrayBitIsSet ba j = false)
  ∨ ∃ m, first_bit_from ba i n (Z.of_nat (8 * i)) = Z.of_nat m
     ∧ 8 * i ≤ m < 8 * (i + n) ∧ BitArrayBitIsSet ba m = true
     ∧ ∀ j, 8 * i ≤ j < m → BitArrayBitIsSet ba j = false.
Proof.
  intros Hba. revert i. induction n as [|n IH]; intros i; cbn [first_bit_from].
  { left. split; [done|]. lia. }
  replace (Z.of_nat (8 * i) + Z.of_nat BITS_PER_BYTE)%Z with (Z.of_nat (8 * S i))
    by (change BITS_PER_BYTE with 8; lia).
  assert ((∀ j, 8 * i ≤ j < 8 * i + 8 → BitArrayBitIsSet ba j = false) →
    first_bit_from ba (S i) n (Z.of_nat (8 * S i)) = (-1)%Z
      ∧ (∀ j, 8 * i ≤ j < 8 * (i + S n) → BitArrayBitIsSet ba j = false)
    ∨ ∃ m, first_bit_from ba (S i) n (Z.of_nat (8 * S i)) = Z.of_nat m
      ∧ 8 * i ≤ m < 8 * (i + S n) ∧ BitArrayBitIsSet ba m = true
      ∧ ∀ j, 8 * i ≤ j < m → BitArrayBitIsSet ba j = false) as Hskip.
  { intros H0. destruct (IH (S i)) as [[-> H]|(m & -> & Hm & Hs & Hmin)]; [left|right].
    - split; [done|]. intros j Hj. destruct (decide (j < 8 * i + 8)); [apply H0|apply H]; lia.
    - exists m. split; [done|]. split; [lia|]. split; [done|].
      intros j Hj. destruct (decide (j < 8 * i + 8)); [apply H0|apply Hmin]; lia. }
  destruct (Z.eqb (ba !!! i) 0) eqn:E0.
  { apply Hskip. by apply byte_zero_bits. }
  pose proof (first_in_byte_spec ba i) as Hf. destruct (first_in_byte (ba !!! i)) as [j|].
  - right. exists (8 * i + j). destruct Hf as (Hj & Hs & Hmin).
    split; [lia|]. split; [lia|]. split; [done|]. intros j' Hj'.
    replace j' with (8 * i + (j' - 8 * i)) by lia. apply Hmin. lia.
  - apply Hskip. intros j Hj. replace j with (8 * i + (j - 8 * i)) by lia. apply Hf. lia.
Qed.

(** *** Arrays as machine words *)

Lemma le_word_bound l : Forall is_byte l → (0 <= le_word l < 256 ^ Z.of_nat (length l))%Z.
Proof.
  induction 1 as [|b l Hb Hl IH]; [done|]. cbn [le_word length].
  rewrite Nat2Z.inj_succ, Z.pow_succ_r by lia. unfold is_byte in Hb. lia.
Qed.

Lemma le_word_inj l1 l2 :
  Forall is_byte l1 → Forall is_byte l2 → length l1 = length l2 →
  le_word l1 = le_word l2 → l1 = l2.
Proof.
  intros H1. revert l2. induction H1 as [|b1 l1 Hb1 Hl1 IH]; intros [|b2 l2] H2 Hlen Hw; try done.
  apply Forall_cons in H2 as [Hb2 Hl2]. cbn [le_word] in Hw. unfold is_byte in *.
  pose proof (le_word_bound l1 Hl1). pose proof (le_word_bound l2 Hl2).
  assert (b1 = b2) as -> by lia. f_equal. apply IH; [done| |lia]. simpl in Hlen. lia.
Qed.

Lemma total_seq (l : list Z) n : n = length l → (λ i, l !!! i) <$> seq 0 n = l.
Proof.
  intros ->. apply list_eq. intros i. rewrite list_lookup_fmap.
  destruct (decide (i < length l)) as [Hi|Hi].
  - rewrite lookup_seq_lt by done. simpl. symmetry. by apply list_lookup_lookup_total_lt.
  - rewrite lookup_seq_ge by lia. simpl. symmetry. apply lookup_ge_None. lia.
Qed.

Lemma AsWord_value ba num : wf num ba → num ≤ 64 →
  GetBitArrayAsWord_t ba num = Ok (le_word (ba ++ replicate (8 - BASIZE num) 0%Z)).
Proof.
  intros [Hl _] Hn. unfold GetBitArrayAsWord_t.
  change (BITS_PER_BYTE * SIZEOF_WORD_T) with 64. change SIZEOF_WORD_T with 8.
  rewrite (proj2 (Nat.leb_le _ _) Hn). simpl. f_equal. case_decide as Hd.
  - rewrite take_ge by lia. rewrite Hd. by rewrite app_nil_r.
  - by rewrite total_seq.
Qed.

(** ** Main properties *)

(** [ba] is an array of [num] bits whose set bits are [X]. *)
Definition represents (num : nat) (ba : BitArray) (X : gset nat) : Prop := wf num ba ∧ bits_of num ba = X.

(** C39: the bit-array operations compute set algebra.  Reading an array of
    [num] bits as the set of its set bits, AND, OR and NOT (with a separate
    target or in place) are intersection, union and complement, clone copies,
    the clearing functions give the empty set, set-all the full one, and setting
    or clearing a bit below [num] adds or removes exactly that one; and the
    result is an array of [num] bits again, with every cell within eight bits,
    the complement included, whose operand C widens to a negative [int]. *)
Theorem BitArray_ops_refine_sets num a b res A B :
  represents num a A → represents num b B → wf num res →
  represents num (BitArrayAnd a b res num) (A ∩ B)
  ∧ represents num (BitArrayAndSelf a b num) (A ∩ B)
  ∧ represents num (BitArrayOr a b res num) (A ∪ B)
  ∧ represents num (BitArrayOrSelf a b num) (A ∪ B)
  ∧ represents num (BitArrayNot res a num) (below num ∖ A)
  ∧ represents num (BitArrayNotSelf a num) (below num ∖ A)
  ∧ represents num (BitArrayClone res a num) A
  ∧ represents num (BitArrayRealClearAll a num) ∅
  ∧ represents num (BitArrayClearAll a num) ∅
  ∧ represents num (BitArraySetAll a num) (below num)
  ∧ ∀ i, i < num →
      represents num (BitArraySetBit a i) ({[i]} ∪ A)
      ∧ represents num (BitArrayClearBit a i) (A ∖ {[i]}).
Proof.
  intros [Ha <-] [Hb <-] Hr. rewrite AndSelf_And, OrSelf_Or, NotSelf_Not.
  pose proof (proj2 Ha). pose proof (proj2 Hb).
  unfold represents. repeat match goal with |- _ ∧ _ => split | |- ∀ _, _ => intros ? end;
    first [by apply And_set | by apply Or_set | by apply Not_set | by apply Clone_set
          | by apply RealClearAll_set | by apply ClearAll_set | by apply SetAll_set
          | by apply SetBit_set | by apply ClearBit_set
          | by apply And_wf | by apply Or_wf | by apply Not_wf | by apply Clone_wf
          | by apply RealClearAll_wf | by apply ClearAll_wf | by apply SetAll_wf
          | by apply SetBit_wf | by apply ClearBit_wf ].
Qed.

Lemma BitArray_ops_refine_sets_witness :
  represents 16 (BitArrayAnd [129; 7] [1; 255] [0; 0] 16)%Z {[7; 13; 14; 15]}.
Proof.
  destruct (BitArray_ops_refine_sets 16 [129; 7]%Z [1; 255]%Z [0; 0]%Z {[0; 7; 13; 14; 15]} (below 16 ∖ below 7)) as [[Hw E] _].
  - split; [split; [reflexivity|repeat constructor; done]|vm_compute; reflexivity].
  - split; [split; [reflexivity|repeat constructor; done]|vm_compute; reflexivity].
  - split; [reflexivity|]. repeat constructor; done.
  - split; [exact Hw|]. transitivity (({[0; 7; 13; 14; 15]} : gset nat) ∩ (below 16 ∖ below 7)); [exact E|vm_compute; reflexivity].
Defined.

(** On arrays that fill their bytes (the sizes the program uses, 64, 96 and
    128, do), the tests decide the set relations: equality, containment,
    emptiness and fullness; and the count is the size of the set. *)
Theorem BitArray_tests_decide k a b :
  wf (8 * k) a → wf (8 * k) b →
  (BitArrayEqual a b (8 * k) = true ↔ bits_of (8 * k) a = bits_of (8 * k) b)
  ∧ (BitArrayContained a b (8 * k) = true ↔ bits_of (8 * k) b ⊆ bits_of (8 * k) a)
  ∧ (BitArrayIsAnySet a (8 * k) = true ↔ bits_of (8 * k) a ≠ ∅)
  ∧ (BitArrayIsAnyCleared a (8 * k) = true ↔ bits_of (8 * k) a ≠ below (8 * k))
  ∧ BitArrayNumSet a (8 * k) = size (bits_of (8 * k) a)
  ∧ GetBitArrayAsJudy1 a (8 * k) = bits_of (8 * k) a.
Proof.
  intros Ha Hb.
  split_and!; [by apply Equal_set | by apply Contained_set | by apply IsAnySet_set
    | by apply IsAnyCleared_set | apply NumSet_size | apply AsJudy1_set].
Qed.

Lemma BitArray_tests_decide_witness : bits_of 8 [3%Z] ⊆ bits_of 8 [7%Z].
Proof.
  apply (BitArray_tests_decide 1 [7%Z] [3%Z]); try (split; [reflexivity|repeat constructor; done]).
  reflexivity.
Defined.

(** The byte-wise tests count the padding of an array whose size is not a
    multiple of eight: after all of its [num] bits are set, [IsAnyCleared] still
    answers true, against its description "true iff any bit in the bit array is
    cleared". *)
Theorem BitArrayIsAnyCleared_counts_padding num a :
  wf num a → bits_of (8 * BASIZE num) a = ∅ → num mod 8 ≠ 0 →
  bits_of num (BitArraySetAll a num) = below num
  ∧ BitArrayIsAnyCleared (BitArraySetAll a num) num = true.
Proof.
  intros Hwf H0 Hm. split; [by apply SetAll_set|].
  pose proof (BASIZE_bound num) as HB.
  assert (num < 8 * BASIZE num) as Hlt.
  { destruct (decide (num = 8 * BASIZE num)) as [E|]; [|lia].
    rewrite E, Nat.mul_comm, Nat.Div0.mod_mul in Hm. done. }
  assert (wf num (BitArraySetAll a num)) as [Hl Hb] by eauto with bits.
  unfold BitArrayIsAnyCleared. rewrite negb_true_iff, for_all_false.
  exists (num / 8). pose proof (index_in_byte num). split; [lia|].
  rewrite <- not_true_iff_false, byte_full_bits by done. intros Hf.
  specialize (Hf num ltac:(lia)). rewrite SetAll_bit in Hf by done.
  rewrite bool_decide_eq_false_2 in Hf by lia. simpl in Hf.
  assert (num ∈ bits_of (8 * BASIZE num) a) as Hin by (by apply elem_of_bits_of).
  rewrite H0 in Hin. set_solver.
Qed.

Lemma BitArrayIsAnyCleared_counts_padding_witness :
  BitArrayIsAnyCleared (BitArraySetAll [0%Z] 5) 5 = true.
Proof.
  apply (BitArrayIsAnyCleared_counts_padding 5 [0%Z]).
  - split; [reflexivity|repeat constructor; done].
  - vm_compute. reflexivity.
  - vm_compute. done.
Defined.

(** [BitArrayFirstBit] returns the least set bit, or -1 when none is set. *)
Theorem BitArrayFirstBit_least k ba :
  wf (8 * k) ba →
  (BitArrayFirstBit ba (8 * k) = (-1)%Z ∧ bits_of (8 * k) ba = ∅)
  ∨ ∃ m, BitArrayFirstBit ba (8 * k) = Z.of_nat m ∧ m ∈ bits_of (8 * k) ba
         ∧ ∀ j, j ∈ bits_of (8 * k) ba → m ≤ j.
Proof.
  intros [Hl Hb]. unfold BitArrayFirstBit. rewrite BASIZE_mul8.
  destruct (first_bit_from_spec ba 0 k Hb) as [[E H]|(m & E & Hm & Hs & Hmin)]; [left|right].
  - split; [exact E|]. bitset. split; [|done]. intros [Hi Ht]. rewrite H in Ht by lia. done.
  - exists m. split; [exact E|]. split; [apply elem_of_bits_of; split; [lia|done]|].
    intros j. rewrite elem_of_bits_of. intros [Hj Ht].
    destruct (decide (m ≤ j)); [done|]. rewrite Hmin in Ht by lia. done.
Qed.

Lemma BitArrayFirstBit_least_witness : BitArrayFirstBit [0; 20]%Z 16 = 11%Z.
Proof.
  destruct (BitArrayFirstBit_least 2 [0; 20]%Z) as [[E _]|(m & E & Hin & _)].
  - split; [reflexivity|repeat constructor; done].
  - vm_compute in E. discriminate.
  - exact eq_refl.
Defined.

(** The word made of an array of at most 64 bits determines the array, and
    fits 64 bits, so two source signatures never share a key of the routing
    tables; a longer array fails the assertion. *)
Theorem GetBitArrayAsWord_injective num a b :
  wf num a → wf num b →
  if decide (num ≤ 64)
  then ∃ wa wb, GetBitArrayAsWord_t a num = Ok wa ∧ GetBitArrayAsWord_t b num = Ok wb
         ∧ (0 <= wa < 2 ^ 64)%Z ∧ (wa = wb ↔ a = b)
  else GetBitArrayAsWord_t a num = Fail AssertFail.
Proof.
  intros Ha Hb. case_decide as Hn.
  - do 2 eexists. split; [by apply AsWord_value|]. split; [by apply AsWord_value|].
    destruct Ha as [Hla Hba], Hb as [Hlb Hbb]. pose proof (BASIZE_bound num).
    assert (∀ c, length c = BASIZE num → Forall is_byte c →
      Forall is_byte (c ++ replicate (8 - BASIZE num) 0%Z)
      ∧ length (c ++ replicate (8 - BASIZE num) 0%Z) = 8) as Hpad.
    { intros c Hc Hcb. split; [|rewrite length_app, length_replicate; lia].
      apply Forall_app. split; [done|]. by apply Forall_replicate. }
    destruct (Hpad a Hla Hba) as [Hpa Hpal]. destruct (Hpad b Hlb Hbb) as [Hpb Hpbl].
    split; [pose proof (le_word_bound _ Hpa) as Hbd; rewrite Hpal in Hbd; exact Hbd|].
    split; [|by intros ->]. intros E. apply le_word_inj in E; [|done|done|lia].
    by apply app_inv_tail in E.
  - unfold GetBitArrayAsWord_t. change (BITS_PER_BYTE * SIZEOF_WORD_T) with 64.
    rewrite (proj2 (Nat.leb_gt num 64)) by lia. done.
Qed.

Lemma GetBitArrayAsWord_injective_witness : GetBitArrayAsWord_t [1; 2]%Z 16 = Ok 513%Z.
Proof.
  pose proof (GetBitArrayAsWord_injective 16 [1; 2]%Z [1; 2]%Z) as H.
  destruct (decide (16 ≤ 64)) as [Hd|Hd]; [|lia].
  destruct H as (wa & wb & E & _); try (split; [reflexivity|repeat constructor; done]).
  exact eq_refl.
Defined.

End Bit.
