(* ===== verification/Tsb.v ===== *)
(** * The transient skew buffer ([src/src/backend/executor/tsb.c], [tsb.h])

    The TSB holds, per partition, a doubly linked list of entries that a Flux
    producer keeps until every replica has acknowledged them.  The list of a
    partition ends in a sentinel ([table[p]], mask -1) that the next entry
    fills; five cursors per partition point into the list.  Entries come from a
    pool linked through a free list, and one spare entry per partition
    ([last_ents]) lets a full buffer make progress.

    The model keeps the pointers.  Entries live in a store [ents] from locations
    to records, a pointer is [option nat] ([None] is NULL), reading through NULL
    or a location that does not exist is [Undefined], as is an index outside a
    per-partition array.  The union [data] of a result is its 64-bit word (0 is
    the null tuple pointer), and [freed] lists the tuples given to
    [heap_freetuple], in order.  Log messages and the debugging [sleep] calls
    have no effect on the state and are left out. *)

From S2P Require Import Prelude.

Module TSBuf.
Local Open Scope Z_scope.

(** [ResultType] and [result] of [rqdest.h]. *)
Inductive ResultType : Type :=
  | RESULT_DONE | RESULT_ERROR | RESULT_HEAPTUPLE | RESULT_FPRODSYNC
  | RESULT_FCONSSYNC | RESULT_FPRODALIVE | RESULT_PAUSEACK.

#[export] Instance ResultType_eq_dec : EqDecision ResultType.
Proof. solve_decision. Defined.

Record result : Type := mkResult { r_type : ResultType; r_data : Z }.

Definition TSB_PRODUCED : Z := 1.
Definition TSB_PRIMARY : Z := 2.
Definition TSB_SECONDARY : Z := 4.
Definition PUNCTUATION : Z := -100.

Record TSB_Entry : Type := mkEntry {
  next : option nat;
  prev : option nat;
  seqnum : Z;
  htup : Z;
  rtup : result;
  dmask : Z
}.

Record TSB : Type := mkTSB {
  max_size : Z;
  size : Z;
  num_parts : Z;
  counts : list Z;
  table : list (option nat);
  prod_ack : list (option nat);
  prim_ack : list (option nat);
  sec_ack : list (option nat);
  p_head : list (option nat);
  s_head : list (option nat);
  f_head : option nat;
  f_tail : option nat;
  last_ents : list (option nat);
  shouldFree : bool;
  ents : gmap nat TSB_Entry;
  freed : list Z
}.

(** ** Field updates *)
Definition with_next (e : TSB_Entry) (x : option nat) : TSB_Entry :=
  mkEntry x (prev e) (seqnum e) (htup e) (rtup e) (dmask e).
Definition with_prev (e : TSB_Entry) (x : option nat) : TSB_Entry :=
  mkEntry (next e) x (seqnum e) (htup e) (rtup e) (dmask e).
Definition with_rtup (e : TSB_Entry) (x : result) : TSB_Entry :=
  mkEntry (next e) (prev e) (seqnum e) (htup e) x (dmask e).
Definition with_dmask (e : TSB_Entry) (x : Z) : TSB_Entry :=
  mkEntry (next e) (prev e) (seqnum e) (htup e) (rtup e) x.
Definition with_seqnum (e : TSB_Entry) (x : Z) : TSB_Entry :=
  mkEntry (next e) (prev e) x (htup e) (rtup e) (dmask e).

(** The five cursors of a partition. *)
Inductive cursor : Type := ProdAck | PrimAck | SecAck | PHead | SHead.

#[export] Instance cursor_eq_dec : EqDecision cursor.
Proof. solve_decision. Defined.

Definition get_cur (s : TSB) (c : cursor) : list (option nat) :=
  match c with
  | ProdAck => prod_ack s | PrimAck => prim_ack s | SecAck => sec_ack s
  | PHead => p_head s | SHead => s_head s
  end.

Definition with_cur (s : TSB) (c : cursor) (l : list (option nat)) : TSB :=
  match c with
  | ProdAck => mkTSB (max_size s) (size s) (num_parts s) (counts s) (table s) l (prim_ack s)
      (sec_ack s) (p_head s) (s_head s) (f_head s) (f_tail s) (last_ents s) (shouldFree s) (ents s) (freed s)
  | PrimAck => mkTSB (max_size s) (size s) (num_parts s) (counts s) (table s) (prod_ack s) l
      (sec_ack s) (p_head s) (s_head s) (f_head s) (f_tail s) (last_ents s) (shouldFree s) (ents s) (freed s)
  | SecAck => mkTSB (max_size s) (size s) (num_parts s) (counts s) (table s) (prod_ack s)
      (prim_ack s) l (p_head s) (s_head s) (f_head s) (f_tail s) (last_ents s) (shouldFree s) (ents s) (freed s)
  | PHead => mkTSB (max_size s) (size s) (num_parts s) (counts s) (table s) (prod_ack s)
      (prim_ack s) (sec_ack s) l (s_head s) (f_head s) (f_tail s) (last_ents s) (shouldFree s) (ents s) (freed s)
  | SHead => mkTSB (max_size s) (size s) (num_parts s) (counts s) (table s) (prod_ack s)
      (prim_ack s) (sec_ack s) (p_head s) l (f_head s) (f_tail s) (last_ents s) (shouldFree s) (ents s) (freed s)
  end.
Definition with_size (s : TSB) (x : Z) : TSB :=
  mkTSB (max_size s) x (num_parts s) (counts s) (table s) (prod_ack s) (prim_ack s) (sec_ack s)
      (p_head s) (s_head s) (f_head s) (f_tail s) (last_ents s) (shouldFree s) (ents s) (freed s).
Definition with_counts (s : TSB) (x : list Z) : TSB :=
  mkTSB (max_size s) (size s) (num_parts s) x (table s) (prod_ack s) (prim_ack s) (sec_ack s)
      (p_head s) (s_head s) (f_head s) (f_tail s) (last_ents s) (shouldFree s) (ents s) (freed s).
Definition with_table (s : TSB) (x : list (option nat)) : TSB :=
  mkTSB (max_size s) (size s) (num_parts s) (counts s) x (prod_ack s) (prim_ack s) (sec_ack s)
      (p_head s) (s_head s) (f_head s) (f_tail s) (last_ents s) (shouldFree s) (ents s) (freed s).
Definition with_free (s : TSB) (hd tl : option nat) : TSB :=
  mkTSB (max_size s) (size s) (num_parts s) (counts s) (table s) (prod_ack s) (prim_ack s)
      (sec_ack s) (p_head s) (s_head s) hd tl (last_ents s) (shouldFree s) (ents s) (freed s).
Definition with_last (s : TSB) (x : list (option nat)) : TSB :=
  mkTSB (max_size s) (size s) (num_parts s) (counts s) (table s) (prod_ack s) (prim_ack s)
      (sec_ack s) (p_head s) (s_head s) (f_head s) (f_tail s) x (shouldFree s) (ents s) (freed s).
Definition with_ents (s : TSB) (x : gmap nat TSB_Entry) : TSB :=
  mkTSB (max_size s) (size s) (num_parts s) (counts s) (table s) (prod_ack s) (prim_ack s)
      (sec_ack s) (p_head s) (s_head s) (f_head s) (f_tail s) (last_ents s) (shouldFree s) x (freed s).
Definition with_freed (s : TSB) (x : list Z) : TSB :=
  mkTSB (max_size s) (size s) (num_parts s) (counts s) (table s) (prod_ack s) (prim_ack s)
      (sec_ack s) (p_head s) (s_head s) (f_head s) (f_tail s) (last_ents s) (shouldFree s) (ents s) x.

(** ** Memory access *)
Definition load (s : TSB) (p : option nat) : cres TSB_Entry :=
  match p with
  | Some l => access (ents s !! l)
  | None => Fail Undefined
  end.

Definition store (s : TSB) (p : option nat) (f : TSB_Entry → TSB_Entry) : cres TSB :=
  match p with
  | Some l =>
      let! e := access (ents s !! l) in
      Ok (with_ents s (<[l := f e]> (ents s)))
  | None => Fail Undefined
  end.

(** [arr[part_no]], and [arr[part_no] = x] where the cell exists. *)
Definition cell {A : Type} (l : list A) (part_no : nat) : cres A := access (l !! part_no).

(** ** Allocation *)

(** The fields that [alloc_entry] resets; the result stays what it was. *)
Definition fresh (e : TSB_Entry) : TSB_Entry :=
  mkEntry None None (-1) (htup e) (rtup e) (-1).

Definition alloc_entry (tsb : TSB) : cres (option nat * TSB) :=
  match f_tail tsb with
  | None => Ok (None, tsb)
  | Some rentry =>
      let! tsb1 :=
        if decide (f_head tsb = f_tail tsb) then Ok (with_free tsb None None)
        else let! e := load tsb (f_tail tsb) in
             Ok (with_free tsb (f_head tsb) (next e)) in
      let tsb2 := with_size tsb1 (size tsb1 + 1) in
      let! tsb3 := store tsb2 (Some rentry) fresh in
      Ok (Some rentry, tsb3)
  end.

Definition alloc_entry_w_last (tsb : TSB) (part_no : nat) : cres (option nat * TSB) :=
  let! (rentry, tsb1) := alloc_entry tsb in
  match rentry with
  | Some l => Ok (Some l, tsb1)
  | None =>
      let! last := cell (last_ents tsb1) part_no in
      match last with
      | Some l =>
          let! tsb2 := store tsb1 (Some l) fresh in
          Ok (Some l, with_last tsb2 (<[part_no := None]> (last_ents tsb2)))
      | None => Ok (None, tsb1)
      end
  end.

Definition free_entry (tsb : TSB) (entry : option nat) : cres TSB :=
  let! tsb1 := store tsb entry (λ e, with_next e (f_tail tsb)) in
  let tsb2 := with_free tsb1 (f_head tsb1) entry in
  let tsb3 := match f_head tsb2 with
              | None => with_free tsb2 (f_tail tsb2) (f_tail tsb2)
              | Some _ => tsb2
              end in
  Ok (with_size tsb3 (size tsb3 - 1)).

Definition free_entry_w_last (tsb : TSB) (entry : option nat) (part_no : nat) : cres TSB :=
  let! last := cell (last_ents tsb) part_no in
  match last with
  | Some _ => free_entry tsb entry
  | None => Ok (with_last tsb (<[part_no := entry]> (last_ents tsb)))
  end.

Definition return_last_ent_TSB (tsb : TSB) (part_no : nat) : cres TSB :=
  let! last := cell (last_ents tsb) part_no in
  let! tsb1 := free_entry tsb last in
  Ok (with_last tsb1 (<[part_no := None]> (last_ents tsb1))).

(** [tentry->rtup.data.tuple = NULL] after the tuple was freed, when the entry
    holds one. *)
Definition drop_tuple (tsb : TSB) (tentry : option nat) : cres TSB :=
  let! e := load tsb tentry in
  if decide (r_type (rtup e) = RESULT_HEAPTUPLE ∧ r_data (rtup e) ≠ 0) then
    let tsb1 := if shouldFree tsb then with_freed tsb (freed tsb ++ [r_data (rtup e)]) else tsb in
    store tsb1 tentry (λ e, with_rtup e (mkResult (r_type (rtup e)) 0))
  else Ok tsb.

Definition unlink (tsb : TSB) (tentry : option nat) : cres TSB :=
  let! e := load tsb tentry in
  let! tsb1 := match prev e with
               | Some p => store tsb (Some p) (λ pe, with_next pe (next e))
               | None => Ok tsb
               end in
  let! e1 := load tsb1 tentry in
  match next e1 with
  | Some n => store tsb1 (Some n) (λ ne, with_prev ne (prev e1))
  | None => Ok tsb1
  end.

Definition del_entry (tsb : TSB) (part_no : nat) (tentry : option nat) : cres TSB :=
  let! tsb1 := drop_tuple tsb tentry in
  let! tsb2 := unlink tsb1 tentry in
  let! tsb3 := free_entry_w_last tsb2 tentry part_no in
  let! n := cell (counts tsb3) part_no in
  let tsb4 := with_counts tsb3 (<[part_no := n - 1]> (counts tsb3)) in
  if n - 1 <? 0 then Fail (Elog "Waited for a while, exiting.") else Ok tsb4.

(** ** Construction

    The pool is one array of [max + nparts] entries (locations [0 ..]) followed
    by the array of the spare entries; [garbage] is what [palloc] left there.
    [table] and the cursors are allocated and then filled by the loop. *)
Definition pool (garbage : nat → TSB_Entry) (m n : nat) : gmap nat TSB_Entry :=
  list_to_map ((λ i, (i, if decide (i < m)%nat
                         then with_next (garbage i)
                                (if decide (i = 0%nat) then None else Some (i - 1)%nat)
                         else garbage i)) <$> seq 0 (m + n)).

Definition init_part (m i : nat) (st : cres TSB) : cres TSB :=
  let! tsb := st in
  let! (tentry, tsb1) := alloc_entry tsb in
  let t := with_table tsb1 (table tsb1 ++ [tentry]) in
  let t := with_cur t PHead (p_head t ++ [tentry]) in
  let t := with_cur t SHead (s_head t ++ [tentry]) in
  let t := with_cur t ProdAck (prod_ack t ++ [tentry]) in
  let t := with_cur t PrimAck (prim_ack t ++ [tentry]) in
  let t := with_cur t SecAck (sec_ack t ++ [tentry]) in
  let t := with_last t (last_ents t ++ [Some (m + i)%nat]) in
  Ok (with_counts t (counts t ++ [0])).

Definition init_TSB (garbage : nat → TSB_Entry) (nparts max : nat) : cres TSB :=
  let m := (max + nparts)%nat in
  if decide (m = 0%nat) then Fail Undefined
  else
    for_loop nparts (init_part m)
      (Ok (mkTSB (Z.of_nat m) 0 (Z.of_nat nparts) [] [] [] [] [] [] []
             (Some 0%nat) (Some (m - 1)%nat) [] true (pool garbage m nparts) [])).

(** ** Adding entries *)

(** The sentinel [pentry] becomes the new entry and [tentry] the new sentinel. *)
Definition push_entry (tsb : TSB) (part_no : nat) (tentry : option nat)
    (fill : TSB_Entry → TSB_Entry) : cres TSB :=
  let! pentry := cell (table tsb) part_no in
  let! tsb1 := store tsb pentry (λ e, with_next (fill e) tentry) in
  let! tsb2 := store tsb1 tentry (λ e, with_prev e pentry) in
  let tsb3 := with_table tsb2 (<[part_no := tentry]> (table tsb2)) in
  let! n := cell (counts tsb3) part_no in
  Ok (with_counts tsb3 (<[part_no := n + 1]> (counts tsb3))).

Definition fill_with (r : result) (seq mask : Z) (e : TSB_Entry) : TSB_Entry :=
  with_dmask (with_seqnum (with_rtup e r) seq) mask.

Definition insert_marker_end_TSB (tsb : TSB) (r : result) (part_no : nat) : cres (bool * TSB) :=
  let! (tentry, tsb1) := alloc_entry tsb in
  match tentry with
  | None => Ok (false, tsb1)
  | Some _ =>
      let! tsb2 := push_entry tsb1 part_no tentry (fill_with r PUNCTUATION TSB_PRODUCED) in
      Ok (true, tsb2)
  end.

Definition append_result_TSB (tsb : TSB) (r : result) (seq_no mask : Z) (part_no : nat)
    : cres (bool * TSB) :=
  let! (tentry, tsb1) := alloc_entry_w_last tsb part_no in
  match tentry with
  | None => Ok (false, tsb1)
  | Some _ =>
      let! tsb2 := push_entry tsb1 part_no tentry (fill_with r seq_no mask) in
      Ok (true, tsb2)
  end.

(** One of the two branches of [insert_marker_start_TSB]: the marker goes in
    front of the head, and the ack cursor is bumped back when it was there. *)
Definition marker_before (tsb : TSB) (part_no : nat) (tentry : option nat) (head ack : cursor)
    : cres (option nat * option nat * TSB) :=
  let! h := cell (get_cur tsb head) part_no in
  let! he := load tsb h in
  let! a := cell (get_cur tsb ack) part_no in
  let tsb1 := if decide (a = h)
              then with_cur tsb ack (<[part_no := tentry]> (get_cur tsb ack)) else tsb in
  let tsb2 := with_cur tsb1 head (<[part_no := tentry]> (get_cur tsb1 head)) in
  let! n := cell (counts tsb2) part_no in
  Ok (prev he, h, with_counts tsb2 (<[part_no := n + 1]> (counts tsb2))).

Definition has_bit (mask bit : Z) : bool := negb (Z.land mask bit =? 0).

Definition insert_marker_start_TSB (tsb : TSB) (r : result) (part_no : nat) (mask : Z)
    : cres (bool * TSB) :=
  let! (tentry, tsb1) := alloc_entry tsb in
  match tentry with
  | None => Ok (false, tsb1)
  | Some _ =>
      let! tsb2 := store tsb1 tentry
        (λ e, with_dmask (with_seqnum e PUNCTUATION)
                (Z.lor (Z.lor TSB_PRODUCED TSB_PRIMARY) TSB_SECONDARY)) in
      let! (ba1, tsb3) :=
        if has_bit mask TSB_PRIMARY
        then let! (b, a, t) := marker_before tsb2 part_no tentry PHead PrimAck in
             Ok (Some (b, a), t)
        else Ok (None, tsb2) in
      let! (ba2, tsb4) :=
        if has_bit mask TSB_SECONDARY
        then let! (b, a, t) := marker_before tsb3 part_no tentry SHead SecAck in
             Ok (Some (b, a), t)
        else Ok (ba1, tsb3) in
      match ba2 with
      | None => Fail Undefined
      | Some (b_entry, a_entry) =>
          let! tsb5 := match b_entry with
                       | Some _ => store tsb4 b_entry (λ e, with_next e tentry)
                       | None => Ok tsb4
                       end in
          let! tsb6 := store tsb5 tentry (λ e, with_prev e b_entry) in
          let! tsb7 := match a_entry with
                       | Some _ => store tsb6 a_entry (λ e, with_prev e tentry)
                       | None => Ok tsb6
                       end in
          let! tsb8 := store tsb7 tentry
            (λ e, with_rtup (with_dmask (with_next e a_entry)
                               (Z.land (dmask e) (Z.lnot mask))) r) in
          Ok (true, tsb8)
      end
  end.

(** ** Acknowledgements *)

(** The fields of a [TupleTableSlot] that [put_ack_TSB] uses. *)
Record slot : Type := mkSlot { val : Z; ttc_shouldFree : bool }.

Definition TupIsNull (sl : option slot) : bool :=
  match sl with
  | None => true
  | Some s => val s =? 0
  end.

Definition clear_slot (sl : option slot) : option slot := (λ _, mkSlot 0 false) <$> sl.

Definition slot_val (sl : option slot) : Z := from_option val 0 sl.

Definition ack_cursor (mask : Z) : option cursor :=
  if mask =? TSB_PRODUCED then Some ProdAck
  else if mask =? TSB_PRIMARY then Some PrimAck
  else if mask =? TSB_SECONDARY then Some SecAck
  else None.

Definition head_cursor (mask : Z) : option cursor :=
  if mask =? TSB_PRIMARY then Some PHead
  else if mask =? TSB_SECONDARY then Some SHead
  else None.

(** The loop that marks entries and advances the cursor. *)
Fixpoint ack_loop (fuel : nat) (tsb : TSB) (sl : option slot) (seqno : Z) (part_no : nat)
    (c : cursor) (mask fmask : Z) (found : bool) : cres (TSB * option slot * bool) :=
  match fuel with
  | O => Fail Diverge
  | S fuel' =>
      let! cur := cell (get_cur tsb c) part_no in
      let! e := load tsb cur in
      if (0 <=? dmask e) && (seqnum e <=? seqno) then
        let hit := seqnum e =? seqno in
        let found' := found || hit in
        let take_slot := hit && negb (TupIsNull sl) in
        let e1 := if take_slot
                  then with_rtup e (mkResult RESULT_HEAPTUPLE (slot_val sl)) else e in
        let sl' := if take_slot then clear_slot sl else sl in
        let e2 := with_dmask e1 (Z.lor (dmask e1) mask) in
        let! tsb1 := store tsb cur (λ _, e2) in
        let tsb2 := with_cur tsb1 c (<[part_no := next e2]> (get_cur tsb1 c)) in
        let! tsb3 := if Z.land (dmask e2) fmask =? fmask
                     then del_entry tsb2 part_no cur else Ok tsb2 in
        ack_loop fuel' tsb3 sl' seqno part_no c mask fmask found'
      else Ok (tsb, sl, found)
  end.

(** Every round moves the cursor one entry along a list without repetitions, so
    one round per entry of the store and one more are enough. *)
Definition chain_fuel (tsb : TSB) : nat := S (base.size (ents tsb)).

Definition put_ack_TSB (tsb : TSB) (sl : option slot) (seqno : Z) (part_no : nat)
    (mask fmask : Z) : cres (bool * TSB * option slot) :=
  match ack_cursor mask with
  | None => Ok (false, tsb, sl)
  | Some c =>
      let! (tsb1, sl1, found) :=
        ack_loop (chain_fuel tsb) tsb sl seqno part_no c mask fmask false in
      let! cur := cell (get_cur tsb1 c) part_no in
      let! e := load tsb1 cur in
      if (dmask e <? 0) && negb found then
        let! (tentry, tsb2) := alloc_entry_w_last tsb1 part_no in
        match tentry with
        | None => Ok (false, tsb2, sl1)
        | Some _ =>
            let! tsb3 := push_entry tsb2 part_no tentry
              (fill_with (mkResult RESULT_HEAPTUPLE (slot_val sl1)) seqno mask) in
            let! cur' := cell (get_cur tsb3 c) part_no in
            let! e' := load tsb3 cur' in
            Ok (true, with_cur tsb3 c (<[part_no := next e']> (get_cur tsb3 c)), clear_slot sl1)
        end
      else Ok (true, tsb1, sl1)
  end.

(** ** Cursors *)

(** [TSB_PRIM_PART_EMPTY] and [TSB_SEC_PART_EMPTY]: the head is at the sentinel. *)
Definition part_empty (tsb : TSB) (head : cursor) (part_no : nat) : cres bool :=
  let! h := cell (get_cur tsb head) part_no in
  let! e := load tsb h in
  Ok (dmask e <? 0).

Definition get_head_TSB (tsb : TSB) (sl : slot) (part_no : nat) (mask : Z) : cres slot :=
  match head_cursor mask with
  | None => Ok (mkSlot (val sl) false)
  | Some c =>
      let! empty := part_empty tsb c part_no in
      if empty then Ok (mkSlot (val sl) false)
      else let! h := cell (get_cur tsb c) part_no in
           let! e := load tsb h in
           Ok (mkSlot (r_data (rtup e)) false)
  end.

Definition get_head_TSB_r (tsb : TSB) (r : result) (part_no : nat) (mask : Z) : cres result :=
  match head_cursor mask with
  | None => Ok r
  | Some c =>
      let! empty := part_empty tsb c part_no in
      if empty then Ok r
      else let! h := cell (get_cur tsb c) part_no in
           let! e := load tsb h in
           Ok (rtup e)
  end.

Definition get_unack_seqno_TSB (tsb : TSB) (part_no : nat) (mask : Z) : cres Z :=
  match ack_cursor mask with
  | None => Ok (-1)
  | Some c =>
      let! a := cell (get_cur tsb c) part_no in
      let! e := load tsb a in
      Ok (if dmask e <? 0 then -1 else seqnum e)
  end.

Definition advance_head_TSB (tsb : TSB) (part_no : nat) (mask : Z) : cres TSB :=
  match head_cursor mask with
  | None => Ok tsb
  | Some c =>
      let! empty := part_empty tsb c part_no in
      if empty then Ok tsb
      else let! h := cell (get_cur tsb c) part_no in
           let! e := load tsb h in
           Ok (with_cur tsb c (<[part_no := next e]> (get_cur tsb c)))
  end.

(** [dst[part_no] = src[part_no]] between two cursor arrays. *)
Definition copy_cur (tsb : TSB) (part_no : nat) (dst src : cursor) : cres TSB :=
  let! x := cell (get_cur tsb src) part_no in
  let! _ := cell (get_cur tsb dst) part_no in
  Ok (with_cur tsb dst (<[part_no := x]> (get_cur tsb dst))).

Definition reset_head_TSB (tsb : TSB) (part_no : nat) (mask : Z) : cres TSB :=
  if mask =? TSB_PRIMARY then copy_cur tsb part_no PHead PrimAck
  else if mask =? TSB_SECONDARY then copy_cur tsb part_no SHead SecAck
  else Ok tsb.

Definition reset_ack_TSB (tsb : TSB) (part_no : nat) (mask : Z) : cres TSB :=
  if mask =? TSB_PRIMARY then copy_cur tsb part_no PrimAck SecAck
  else if mask =? TSB_SECONDARY then copy_cur tsb part_no SecAck PrimAck
  else Ok tsb.

(** Unmarks the entries from [entry] to the sentinel. *)
Fixpoint unmark_loop (fuel : nat) (tsb : TSB) (entry : option nat) (mask : Z) : cres TSB :=
  match fuel with
  | O => Fail Diverge
  | S fuel' =>
      let! e := load tsb entry in
      if dmask e =? -1 then Ok tsb
      else let! tsb1 := store tsb entry (λ e, with_dmask e (Z.land (dmask e) (Z.lnot mask))) in
           unmark_loop fuel' tsb1 (next e) mask
  end.

Definition reset_cursors_TSB (tsb : TSB) (part_no : nat) (mask : Z) : cres TSB :=
  let! tsb1 := reset_ack_TSB tsb part_no mask in
  match (if mask =? TSB_PRODUCED then None else ack_cursor mask) with
  | None => Fail Undefined
  | Some c =>
      let! entry := cell (get_cur tsb1 c) part_no in
      let! tsb2 := unmark_loop (chain_fuel tsb1) tsb1 entry mask in
      reset_head_TSB tsb2 part_no mask
  end.

(** [while (seqno != -1)] of [ack_all_TSB]. *)
Fixpoint ack_all_loop (fuel : nat) (tsb : TSB) (seqno : Z) (partno : nat) (mask del_mask : Z)
    : cres TSB :=
  if seqno =? -1 then Ok tsb
  else match fuel with
       | O => Fail Diverge
       | S fuel' =>
           let! (_, tsb1, _) := put_ack_TSB tsb None seqno partno mask del_mask in
           let! seqno' := get_unack_seqno_TSB tsb1 partno mask in
           ack_all_loop fuel' tsb1 seqno' partno mask del_mask
       end.

Definition ack_all_TSB (tsb : TSB) (partno : nat) (mask del_mask : Z) : cres TSB :=
  let! seqno := get_unack_seqno_TSB tsb partno mask in
  let! tsb1 := ack_all_loop (chain_fuel tsb) tsb seqno partno mask del_mask in
  reset_head_TSB tsb1 partno mask.

(** [while (seqno != -1)] of [ack_to_marker_TSB], with the test whether the ack
    cursor has met the head. *)
Fixpoint ack_to_marker_loop (fuel : nat) (tsb : TSB) (seqno : Z) (crossed : bool) (partno : nat)
    (mask del_mask : Z) (ack head : cursor) : cres TSB :=
  if seqno =? -1 then Ok tsb
  else if (seqno =? PUNCTUATION) && crossed then Ok tsb
  else match fuel with
       | O => Fail Diverge
       | S fuel' =>
           let! (_, tsb1, _) := put_ack_TSB tsb None seqno partno mask del_mask in
           let! seqno' := get_unack_seqno_TSB tsb1 partno mask in
           let! a := cell (get_cur tsb1 ack) partno in
           let! h := cell (get_cur tsb1 head) partno in
           ack_to_marker_loop fuel' tsb1 seqno' (crossed || bool_decide (a = h)) partno
             mask del_mask ack head
       end.

Definition ack_to_marker_TSB (tsb : TSB) (partno : nat) (mask del_mask : Z) : cres TSB :=
  match (if mask =? TSB_PRIMARY then Some (PrimAck, PHead)
         else if mask =? TSB_SECONDARY then Some (SecAck, SHead) else None) with
  | None => Fail Undefined
  | Some (ack, head) =>
      let! seqno := get_unack_seqno_TSB tsb partno mask in
      let! a := cell (get_cur tsb ack) partno in
      let! h := cell (get_cur tsb head) partno in
      let! tsb1 := ack_to_marker_loop (chain_fuel tsb) tsb seqno (bool_decide (a = h)) partno
                     mask del_mask ack head in
      reset_head_TSB tsb1 partno mask
  end.

(** ** Chains and permutation of partitions *)

Fixpoint chain_len (fuel : nat) (step : TSB_Entry → option nat) (tsb : TSB) (t : option nat)
    : cres Z :=
  match t with
  | None => Ok 0
  | Some _ =>
      match fuel with
      | O => Fail Diverge
      | S fuel' =>
          let! e := load tsb t in
          if dmask e =? -1 then Ok 0
          else let! n := chain_len fuel' step tsb (step e) in Ok (n + 1)
      end
  end.

Definition chain_len_prev (tsb : TSB) (t : option nat) : cres Z :=
  chain_len (chain_fuel tsb) prev tsb t.
Definition chain_len_next (tsb : TSB) (t : option nat) : cres Z :=
  chain_len (chain_fuel tsb) next tsb t.

(** [tmp = l[a]; l[a] = l[b]; l[b] = tmp] *)
Definition swap_cells {A : Type} (l : list A) (a b : nat) : cres (list A) :=
  let! x := cell l a in
  let! y := cell l b in
  Ok (<[b := x]> (<[a := y]> l)).

Definition swap_tsb_part (tsb : TSB) (a b : nat) : cres TSB :=
  let! c := swap_cells (counts tsb) a b in
  let! tb := swap_cells (table tsb) a b in
  let! pa := swap_cells (prod_ack tsb) a b in
  let! pr := swap_cells (prim_ack tsb) a b in
  let! sa := swap_cells (sec_ack tsb) a b in
  let! ph := swap_cells (p_head tsb) a b in
  let! sh := swap_cells (s_head tsb) a b in
  let! le := swap_cells (last_ents tsb) a b in
  Ok (mkTSB (max_size tsb) (size tsb) (num_parts tsb) c tb pa pr sa ph sh
        (f_head tsb) (f_tail tsb) le (shouldFree tsb) (ents tsb) (freed tsb)).

(** [while (i != dloc)]: one cycle of the permutation.  Each round puts one
    partition in its place, so [num_parts] rounds are enough. *)
Fixpoint permute_while (fuel : nat) (tsb : TSB) (perm_map curr_idx : list nat) (i : nat)
    : cres (TSB * list nat) :=
  let! ci := cell curr_idx i in
  let! dloc := cell perm_map ci in
  if decide (i = dloc) then Ok (tsb, curr_idx)
  else match fuel with
       | O => Fail Diverge
       | S fuel' =>
           let! tsb1 := swap_tsb_part tsb i dloc in
           let! curr1 := swap_cells curr_idx i dloc in
           permute_while fuel' tsb1 perm_map curr1 i
       end.

Definition permute_tsb_parts (tsb : TSB) (perm_map : list nat) : cres TSB :=
  let n := Z.to_nat (num_parts tsb) in
  let! (tsb', _) :=
    for_loop n
      (λ i st, let! (t, curr_idx) := st in permute_while n t perm_map curr_idx i)
      (Ok (tsb, seq 0 n)) in
  Ok tsb'.

End TSBuf.
