(* ===== verification/TsbRep.v ===== *)
(** * Representation of the transient skew buffer

    What the pointer structure of [Tsb] stands for: each partition is a list of
    items, the pool is a list of free entries, and no entry is in two places.
    The lemmas say that the building blocks of [tsb.c] (allocation, release,
    entering, marking, unlinking and deleting an entry, the acknowledgement
    loop) move entries between these lists and keep everything else. *)

From S2P Require Import Prelude Tsb.

Module TSBRep.
Import TSBuf.
Local Open Scope Z_scope.

(** What a partition holds is a list of items, each with the location of its
    entry, and the location of the sentinel. *)
Notation item := (Z * Z * result)%type (only parsing).
Definition item_of (e : TSB_Entry) : item := (seqnum e, dmask e, rtup e).
Notation part := (list (nat * item) * nat)%type (only parsing).

Definition ids (l : list (nat * item)) : list nat := l.*1.
Definition locs (p : part) : list nat := ids p.1 ++ [p.2].

(** The location a list starts at when [nx] follows it, and the one it ends at
    when [pv] precedes it. *)
Definition first (l : list (nat * item)) (nx : nat) : nat :=
  match l with
  | [] => nx
  | x :: _ => x.1
  end.

Fixpoint lastp (pv : option nat) (l : list (nat * item)) : option nat :=
  match l with
  | [] => pv
  | x :: l' => lastp (Some x.1) l'
  end.

(** A doubly linked fragment between [pv] and [nx]. *)
Fixpoint dfrag (h : gmap nat TSB_Entry) (pv : option nat) (l : list (nat * item)) (nx : nat) : Prop :=
  match l with
  | [] => True
  | (x, d) :: l' =>
      (∃ e, h !! x = Some e ∧ prev e = pv ∧ next e = Some (first l' nx)
            ∧ item_of e = d ∧ 0 <= dmask e)
      ∧ dfrag h (Some x) l' nx
  end.

Definition sentinel (h : gmap nat TSB_Entry) (pv : option nat) (t : nat) : Prop :=
  ∃ e, h !! t = Some e ∧ prev e = pv ∧ next e = None ∧ dmask e = -1 ∧ seqnum e = -1.

Definition chain (h : gmap nat TSB_Entry) (p : part) : Prop :=
  dfrag h None p.1 p.2 ∧ sentinel h (lastp None p.1) p.2.

(** The free list, from [f_tail] along [next]. *)
Fixpoint flist (h : gmap nat TSB_Entry) (l : list nat) : Prop :=
  match l with
  | [] => True
  | x :: l' => (∃ e, h !! x = Some e ∧ next e = head l') ∧ flist h l'
  end.

Definition spares (s : TSB) : list nat := omap id (last_ents s).

Record ghost : Type := mkGhost { gfree : list nat; gparts : list part }.

Definition all_locs (s : TSB) (g : ghost) (own : list nat) : list nat :=
  own ++ gfree g ++ concat (locs <$> gparts g) ++ spares s.

(** The structural invariant.  [own] are the entries taken out of every
    structure, in the middle of an operation. *)
Record shape (s : TSB) (g : ghost) (own : list nat) : Prop := {
  sh_free : flist (ents s) (gfree g);
  sh_ftail : f_tail s = head (gfree g);
  sh_fhead : f_head s = last (gfree g);
  sh_size : size s + Z.of_nat (length (gfree g)) = max_size s;
  sh_chain : ∀ k p, gparts g !! k = Some p → chain (ents s) p ∧ table s !! k = Some (Some p.2);
  sh_num : num_parts s = Z.of_nat (length (gparts g));
  sh_last : length (last_ents s) = length (gparts g);
  sh_nodup : NoDup (all_locs s g own);
  sh_dom : ∀ x, x ∈ all_locs s g own → is_Some (ents s !! x)
}.

Definition counts_ok (s : TSB) (g : ghost) : Prop :=
  ∀ k p, gparts g !! k = Some p → counts s !! k = Some (Z.of_nat (length p.1)).

(** Every cursor points into the chain of its partition. *)
Definition cursors_ok (s : TSB) (g : ghost) : Prop :=
  ∀ c k p, gparts g !! k = Some p → ∃ x, get_cur s c !! k = Some (Some x) ∧ x ∈ locs p.

Definition inv (s : TSB) (g : ghost) : Prop := shape s g [] ∧ counts_ok s g ∧ cursors_ok s g.

(** *** Lists of entries under updates of the store *)

Lemma first_app l1 l2 nx : first (l1 ++ l2) nx = first l1 (first l2 nx).
Proof. by destruct l1. Qed.

Lemma lastp_app pv l1 l2 : lastp pv (l1 ++ l2) = lastp (lastp pv l1) l2.
Proof. revert pv. induction l1 as [|x l1 IH]; intros pv; simpl; [done|]. apply IH. Qed.

Lemma lastp_cases pv l : lastp pv l = pv ∧ l = [] ∨ ∃ l' x, l = l' ++ [x] ∧ lastp pv l = Some x.1.
Proof.
  destruct l as [|x l _] using rev_ind; [by left|]. right. exists l, x.
  by rewrite lastp_app.
Qed.

Lemma dfrag_app h pv l1 l2 nx :
  dfrag h pv (l1 ++ l2) nx ↔ dfrag h pv l1 (first l2 nx) ∧ dfrag h (lastp pv l1) l2 nx.
Proof.
  revert pv. induction l1 as [|[x d] l1 IH]; intros pv; simpl; [tauto|].
  rewrite IH, first_app. tauto.
Qed.

Lemma dfrag_frame h pv l nx x e : x ∉ ids l → dfrag h pv l nx → dfrag (<[x:=e]> h) pv l nx.
Proof.
  revert pv. induction l as [|[y d] l IH]; intros pv Hx; simpl; [done|].
  unfold ids in Hx. rewrite fmap_cons, not_elem_of_cons in Hx. simpl in Hx. destruct Hx as [Hne Hx].
  intros [(e' & He & H) Hr]. split; [|by apply IH].
  exists e'. by rewrite lookup_insert_ne.
Qed.

Lemma sentinel_frame h pv t x e : x ≠ t → sentinel h pv t → sentinel (<[x:=e]> h) pv t.
Proof. intros Hx (e' & He & H). exists e'. by rewrite lookup_insert_ne. Qed.

Lemma chain_frame h p x e : x ∉ locs p → chain h p → chain (<[x:=e]> h) p.
Proof.
  unfold locs. rewrite not_elem_of_app, list_elem_of_singleton. intros [H1 H2] [Hf Hs].
  split; [by apply dfrag_frame|by apply sentinel_frame].
Qed.

Lemma flist_frame h l x e : x ∉ l → flist h l → flist (<[x:=e]> h) l.
Proof.
  induction l as [|y l IH]; simpl; [done|]. rewrite not_elem_of_cons. intros [Hne Hx].
  intros [(e' & He & H) Hr]. split; [|by apply IH]. exists e'. by rewrite lookup_insert_ne.
Qed.

(** Redirecting the end of a fragment, and its start. *)
Lemma dfrag_set_next h pv l x d nx nx' e :
  x ∉ ids l → h !! x = Some e → dfrag h pv (l ++ [(x, d)]) nx →
  dfrag (<[x := with_next e (Some nx')]> h) pv (l ++ [(x, d)]) nx'.
Proof.
  intros Hx He. rewrite !dfrag_app. simpl. intros [H1 [(e' & He' & Hp & Hn & Hi & Hd) _]].
  split; [by apply dfrag_frame|]. split; [|done].
  rewrite He in He'. injection He' as <-.
  exists (with_next e (Some nx')). rewrite lookup_insert_eq. done.
Qed.

Lemma dfrag_set_prev h pv pv' x d l nx e :
  x ∉ ids l → h !! x = Some e → dfrag h pv ((x, d) :: l) nx →
  dfrag (<[x := with_prev e pv']> h) pv' ((x, d) :: l) nx.
Proof.
  simpl. intros Hx He [(e' & He' & Hp & Hn & Hi & Hd) Hr].
  rewrite He in He'. injection He' as <-.
  split; [|by apply dfrag_frame]. exists (with_prev e pv'). by rewrite lookup_insert_eq.
Qed.

Lemma sentinel_set_prev h pv pv' t e :
  h !! t = Some e → sentinel h pv t → sentinel (<[t := with_prev e pv']> h) pv' t.
Proof.
  intros He (e' & He' & Hp & Hn & Hd & Hs). rewrite He in He'. injection He' as <-.
  exists (with_prev e pv'). by rewrite lookup_insert_eq.
Qed.

(** Changing the contents of one item in place. *)
Lemma dfrag_set_item h pv l1 l2 x d d' nx e e' :
  x ∉ ids l1 → x ∉ ids l2 → h !! x = Some e →
  prev e' = prev e → next e' = next e → item_of e' = d' → 0 <= dmask e' →
  dfrag h pv (l1 ++ (x, d) :: l2) nx → dfrag (<[x := e']> h) pv (l1 ++ (x, d') :: l2) nx.
Proof.
  intros H1 H2 He Hp Hn Hi Hd. rewrite !dfrag_app. simpl.
  intros [Hf [(e0 & He0 & Hp0 & Hn0 & Hi0 & Hd0) Hr]].
  rewrite He in He0. injection He0 as <-.
  split; [by apply dfrag_frame|]. split; [|by apply dfrag_frame].
  exists e'. rewrite lookup_insert_eq. by rewrite Hp, Hn.
Qed.

(** *** Frames: structures only depend on the entries at their locations *)

Lemma dfrag_agree h h' pv l nx :
  (∀ y, y ∈ ids l → h' !! y = h !! y) → dfrag h pv l nx → dfrag h' pv l nx.
Proof.
  revert pv. induction l as [|[y d] l IH]; intros pv Ha; simpl; [done|].
  intros [(e & He & H) Hr]. split; [exists e; rewrite Ha; [done|by left]|].
  apply IH; [|done]. intros z Hz. apply Ha. by right.
Qed.

Lemma chain_agree h h' p : (∀ y, y ∈ locs p → h' !! y = h !! y) → chain h p → chain h' p.
Proof.
  intros Ha [Hf (e & He & H)]. split.
  - eapply dfrag_agree; [|done]. intros y Hy. apply Ha. apply elem_of_app. by left.
  - exists e. rewrite Ha; [done|]. apply elem_of_app. right. by left.
Qed.

Lemma flist_agree h h' l : (∀ y, y ∈ l → h' !! y = h !! y) → flist h l → flist h' l.
Proof.
  induction l as [|y l IH]; simpl; [done|]. intros Ha [(e & He & H) Hr].
  split; [exists e; rewrite Ha; [done|by left]|]. apply IH; [|done].
  intros z Hz. apply Ha. by right.
Qed.

Lemma NoDup_concat_disjoint {A} (L : list (list A)) j k a b x :
  NoDup (concat L) → L !! j = Some a → L !! k = Some b → j ≠ k → x ∈ a → x ∉ b.
Proof.
  revert j k. induction L as [|l L IH]; intros j k Hnd Hj Hk Hne Hx; [done|].
  simpl in Hnd. apply NoDup_app in Hnd as (H1 & H2 & H3).
  assert (∀ i c y, L !! i = Some c → y ∈ c → y ∈ concat L) as Hin.
  { intros i c y Hi Hy. apply list_elem_of_In, in_concat. exists c. split; apply list_elem_of_In;
      [by eapply list_elem_of_lookup_2|done]. }
  destruct j as [|j], k as [|k]; simpl in Hj, Hk; simplify_eq.
  - intros Hb. eapply H2; [done|]. by eapply Hin.
  - intros Hb. eapply H2; [done|]. by eapply Hin.
  - eapply (IH j k); eauto.
Qed.

(** Permutations of concatenations, by counting occurrences. *)
Ltac perm :=
  let z := fresh "z" in
  apply (Permutation_count_occ Nat.eq_dec); intros z;
  repeat match goal with
  | H : _ ≡ₚ _ |- _ => apply (Permutation_count_occ Nat.eq_dec) with (x := z) in H
  end;
  repeat match goal with
  | H : context [count_occ _ (_ ++ _) _] |- _ => rewrite count_occ_app in H
  | H : context [count_occ _ (_ :: _) _] |- _ => cbn [count_occ] in H
  | |- context [count_occ _ (_ ++ _) _] => rewrite count_occ_app
  | |- context [count_occ _ (_ :: _) _] => cbn [count_occ]
  | |- context [count_occ _ [] _] => cbn [count_occ]
  end; repeat case_match; lia.

(** The locations of one partition, taken out of the whole. *)
Definition others (k : nat) (g : ghost) : list nat := concat (locs <$> delete k (gparts g)).

Lemma concat_perm {A} (L1 L2 : list (list A)) : L1 ≡ₚ L2 → concat L1 ≡ₚ concat L2.
Proof.
  induction 1; simpl; [done|by f_equiv| |by etrans].
  rewrite !app_assoc. f_equiv. apply Permutation_app_comm.
Qed.

Lemma parts_locs (L : list part) k p :
  L !! k = Some p → concat (locs <$> L) ≡ₚ locs p ++ concat (locs <$> delete k L).
Proof.
  intros Hk. change (locs p ++ concat (locs <$> delete k L))
    with (concat (locs <$> (p :: delete k L))).
  apply concat_perm, fmap_Permutation. by apply delete_Permutation.
Qed.

Lemma delete_insert_list (L : list part) k p : delete k (<[k:=p]> L) = delete k L.
Proof. revert k. induction L as [|x L IH]; intros [|k]; simpl; try done. by rewrite IH. Qed.

Section change.
Context (s s' : TSB) (g : ghost) (own : list nat).
Context (Hshape : shape s g own).

Lemma own_fresh x : x ∈ own →
  x ∉ gfree g ∧ x ∉ spares s ∧ ∀ k p, gparts g !! k = Some p → x ∉ locs p.
Proof.
  intros Hx. pose proof (sh_nodup _ _ _ Hshape) as Hnd. unfold all_locs in Hnd.
  apply NoDup_app in Hnd as (_ & Hd & _). specialize (Hd x Hx).
  rewrite !not_elem_of_app in Hd. destruct Hd as (H1 & H2 & H3). split; [done|]. split; [done|].
  intros k p Hk Hin. apply H2. rewrite (parts_locs _ k p) by done. apply elem_of_app. by left.
Qed.

Lemma part_fresh k p x : gparts g !! k = Some p → x ∈ locs p →
  x ∉ gfree g ∧ x ∉ spares s ∧ (∀ j q, j ≠ k → gparts g !! j = Some q → x ∉ locs q).
Proof.
  intros Hk Hx. pose proof (sh_nodup _ _ _ Hshape) as Hnd. unfold all_locs in Hnd.
  apply NoDup_app in Hnd as (_ & _ & Hnd). apply NoDup_app in Hnd as (_ & Hd & Hnd).
  apply NoDup_app in Hnd as (Hnd & Hd2 & _).
  assert (x ∈ concat (locs <$> gparts g)) as Hc.
  { rewrite (parts_locs _ k p) by done. apply elem_of_app. by left. }
  split; [|split].
  - intros Hf. specialize (Hd x Hf). rewrite not_elem_of_app in Hd. tauto.
  - by apply Hd2.
  - intros j q Hne Hj.
    eapply (NoDup_concat_disjoint (locs <$> gparts g) k j (locs p) (locs q));
      [done|by rewrite list_lookup_fmap, Hk|by rewrite list_lookup_fmap, Hj|congruence|done].
Qed.

Lemma part_nodup k p : gparts g !! k = Some p → NoDup (locs p).
Proof.
  intros Hk. pose proof (sh_nodup _ _ _ Hshape) as Hnd. unfold all_locs in Hnd.
  rewrite (parts_locs _ k p Hk) in Hnd.
  apply NoDup_app in Hnd as (_ & _ & Hnd). apply NoDup_app in Hnd as (_ & _ & Hnd).
  apply NoDup_app in Hnd as (Hnd & _ & _). by apply NoDup_app in Hnd as (Hnd & _ & _).
Qed.

(** An operation that only touches owned entries and one partition, and only
    moves locations between the two, keeps the shape. *)
Lemma shape_change_part own' k p p' :
  gparts g !! k = Some p →
  f_tail s' = f_tail s → f_head s' = f_head s → size s' = size s → max_size s' = max_size s →
  num_parts s' = num_parts s → last_ents s' = last_ents s →
  (∀ y, y ∉ own → y ∉ locs p → ents s' !! y = ents s !! y) →
  (∀ y, is_Some (ents s !! y) → is_Some (ents s' !! y)) →
  chain (ents s') p' → table s' = <[k := Some p'.2]> (table s) →
  own ++ locs p ≡ₚ own' ++ locs p' →
  shape s' (mkGhost (gfree g) (<[k:=p']> (gparts g))) own'.
Proof.
  intros Hk E1 E2 E3 E4 E5 E6 Hag Hdom Hch Htb Hperm.
  assert (all_locs s' (mkGhost (gfree g) (<[k:=p']> (gparts g))) own' ≡ₚ all_locs s g own) as Hall.
  { unfold all_locs, spares. rewrite E6. simpl.
    rewrite (parts_locs (<[k:=p']> (gparts g)) k p')
      by (apply list_lookup_insert_eq; by eapply lookup_lt_Some).
    rewrite (parts_locs (gparts g) k p) by done. rewrite delete_insert_list.
    perm. }
  destruct (sh_chain _ _ _ Hshape k p Hk) as [Hch0 Htb0].
  split; simpl; try (rewrite ?E1, ?E2, ?E3, ?E4; apply Hshape).
  - eapply flist_agree; [|apply Hshape]. intros y Hy. apply Hag.
    + intros Ho. by apply own_fresh in Ho as (?&_).
    + intros Ho. by destruct (part_fresh k p y Hk Ho) as (?&_).
  - intros j q Hj. destruct (decide (j = k)) as [->|Hne].
    + rewrite list_lookup_insert_eq in Hj by (by eapply lookup_lt_Some). injection Hj as <-.
      split; [done|]. rewrite Htb. apply list_lookup_insert_eq. by eapply lookup_lt_Some.
    + rewrite list_lookup_insert_ne in Hj by done.
      destruct (sh_chain _ _ _ Hshape j q Hj) as [Hc Ht]. split.
      * eapply chain_agree; [|exact Hc]. intros y Hy. apply Hag.
        -- intros Ho. apply own_fresh in Ho as (_&_&Ho). by apply (Ho j q).
        -- intros Ho. destruct (part_fresh k p y Hk Ho) as (_&_&Ho'). by apply (Ho' j q).
      * rewrite Htb, list_lookup_insert_ne by done. done.
  - rewrite E5, length_insert. apply Hshape.
  - rewrite E6, length_insert. apply Hshape.
  - rewrite Hall. apply Hshape.
  - intros y. rewrite Hall. intros Hy. apply Hdom. by apply Hshape.
Qed.

(** The same for operations on the free list, the spare entries and the owned
    ones that leave the partitions alone. *)
Lemma shape_change_pool own' fr :
  flist (ents s') fr → f_tail s' = head fr → f_head s' = last fr →
  size s' + Z.of_nat (length fr) = max_size s' →
  num_parts s' = num_parts s → length (last_ents s') = length (last_ents s) →
  table s' = table s →
  (∀ y, y ∉ own → y ∉ gfree g → y ∉ spares s → ents s' !! y = ents s !! y) →
  (∀ y, is_Some (ents s !! y) → is_Some (ents s' !! y)) →
  own ++ gfree g ++ spares s ≡ₚ own' ++ fr ++ spares s' →
  shape s' (mkGhost fr (gparts g)) own'.
Proof.
  intros Hfl E1 E2 E3 E5 E6 E7 Hag Hdom Hperm.
  assert (all_locs s' (mkGhost fr (gparts g)) own' ≡ₚ all_locs s g own) as Hall.
  { unfold all_locs. simpl.
    perm. }
  split; simpl; try done.
  - intros k p Hk. destruct (sh_chain _ _ _ Hshape k p Hk) as [Hc Ht]. rewrite E7. split; [|done].
    eapply chain_agree; [|exact Hc]. intros y Hy. apply Hag.
    + intros Ho. apply own_fresh in Ho as (_&_&Ho). by apply (Ho k p).
    + by destruct (part_fresh k p y Hk Hy).
    + by destruct (part_fresh k p y Hk Hy) as (_&?&_).
  - rewrite E5. apply Hshape.
  - rewrite E6. apply Hshape.
  - rewrite Hall. apply Hshape.
  - intros y. rewrite Hall. intros Hy. apply Hdom. by apply Hshape.
Qed.
End change.

(** *** Allocation and release *)

Lemma head_last_singleton (l : list nat) x : NoDup (x :: l) → last (x :: l) = Some x ↔ l = [].
Proof.
  intros Hnd. split; [|by intros ->]. destruct l as [|y l _] using rev_ind; [done|].
  change (x :: l ++ [y]) with ((x :: l) ++ [y]). rewrite last_snoc. intros [= ->].
  apply NoDup_cons in Hnd as [Hx _]. destruct Hx. apply elem_of_app. right. by left.
Qed.

Lemma free_nodup s g own : shape s g own → NoDup (own ++ gfree g).
Proof.
  intros H. pose proof (sh_nodup _ _ _ H) as Hnd. unfold all_locs in Hnd.
  rewrite app_assoc in Hnd. by apply NoDup_app in Hnd as (?&_).
Qed.

(** What an operation on the pool leaves alone. *)
Definition same_lists (s s' : TSB) : Prop :=
  table s' = table s ∧ counts s' = counts s ∧ (∀ c, get_cur s' c = get_cur s c)
  ∧ num_parts s' = num_parts s ∧ freed s' = freed s ∧ shouldFree s' = shouldFree s.

Definition is_fresh (e : TSB_Entry) : Prop :=
  prev e = None ∧ next e = None ∧ dmask e = -1 ∧ seqnum e = -1.

Lemma is_Some_insert (h : gmap nat TSB_Entry) x e y : is_Some (h !! y) → is_Some (<[x:=e]> h !! y).
Proof. intros H. destruct (decide (x = y)) as [->|]; [by rewrite lookup_insert_eq|by rewrite lookup_insert_ne]. Qed.

Lemma alloc_entry_None s g own : shape s g own → gfree g = [] → alloc_entry s = Ok (None, s).
Proof. intros H Hf. unfold alloc_entry. by rewrite (sh_ftail _ _ _ H), Hf. Qed.

Lemma alloc_entry_Some s g own x fr :
  shape s g own → gfree g = x :: fr →
  ∃ s' e, alloc_entry s = Ok (Some x, s') ∧ shape s' (mkGhost fr (gparts g)) (x :: own)
    ∧ same_lists s s' ∧ last_ents s' = last_ents s ∧ ents s' !! x = Some e ∧ is_fresh e.
Proof.
  intros H Hf. pose proof (sh_free _ _ _ H) as Hfl. pose proof (sh_ftail _ _ _ H) as Ht.
  pose proof (sh_fhead _ _ _ H) as Hh. pose proof (sh_size _ _ _ H) as Hsz.
  pose proof (free_nodup _ _ _ H) as Hnd. rewrite Hf in Hfl, Ht, Hh, Hsz, Hnd.
  apply NoDup_app in Hnd as (_ & _ & Hnd).
  destruct Hfl as [(e & He & Hn) Hfl].
  exists (with_ents (with_size (with_free s (last fr) (head fr)) (size s + 1))
            (<[x := fresh e]> (ents s))), (fresh e).
  split; [|split; [|split; [|split; [|split]]]]; try done.
  - unfold alloc_entry. rewrite Ht. simpl. rewrite Hh.
    destruct (decide (last (x :: fr) = Some x)) as [Hl|Hl].
    + apply head_last_singleton in Hl as ->; [|done]. simpl. by rewrite He.
    + rewrite He. simpl. rewrite He. simpl. rewrite Hn.
      destruct fr as [|y fr]; [done|]. by rewrite last_cons_cons.
  - apply NoDup_cons in Hnd as [Hx Hnd].
    apply (shape_change_pool s _ g own H); simpl; try done.
    + by apply flist_frame.
    + simpl in Hsz. lia.
    + intros y _ Hy _. rewrite Hf in Hy. apply not_elem_of_cons in Hy as [Hy _].
      by rewrite lookup_insert_ne.
    + intros y. apply is_Some_insert.
    + rewrite Hf. change (spares (with_ents _ _)) with (spares s). perm.
  - simpl. apply lookup_insert_eq.
Qed.

Lemma spares_insert_None (le : list (option nat)) k x :
  le !! k = Some (Some x) → omap id le ≡ₚ x :: omap id (<[k := None]> le).
Proof.
  revert k. induction le as [|o le IH]; intros [|k]; simpl; try done.
  - by intros [= ->].
  - intros Hk. destruct o as [y|]; simpl; rewrite (IH k Hk) at 1; [|done].
    constructor.
Qed.

Lemma spares_insert_Some (le : list (option nat)) k x :
  le !! k = Some None → omap id (<[k := Some x]> le) ≡ₚ x :: omap id le.
Proof.
  revert k. induction le as [|o le IH]; intros [|k]; simpl; try done.
  - by intros [= ->].
  - intros Hk. destruct o as [y|]; simpl; rewrite (IH k Hk) at 1; [|done].
    constructor.
Qed.

(** A new entry can be had from the pool or from the partition's spare. *)
Definition has_room (s : TSB) (g : ghost) (k : nat) : Prop :=
  gfree g ≠ [] ∨ ∃ x, last_ents s !! k = Some (Some x).

#[export] Instance has_room_dec s g k : Decision (has_room s g k).
Proof.
  unfold has_room. destruct (gfree g) as [|y fr]; [|left; by left].
  destruct (last_ents s !! k) as [[x|]|].
  - left. right. by exists x.
  - right. intros [?|[??]]; done.
  - right. intros [?|[??]]; done.
Defined.

Lemma last_cell s g own k : shape s g own → (k < length (gparts g))%nat → is_Some (last_ents s !! k).
Proof. intros H Hk. apply lookup_lt_is_Some. by rewrite (sh_last _ _ _ H). Qed.

Lemma alloc_w_last_None s g own k :
  shape s g own → (k < length (gparts g))%nat → ¬ has_room s g k →
  alloc_entry_w_last s k = Ok (None, s).
Proof.
  intros H Hk Hr. unfold alloc_entry_w_last.
  rewrite (alloc_entry_None s g own) by (done || (unfold has_room in Hr; destruct (gfree g); naive_solver)).
  simpl. unfold cell. destruct (last_cell _ _ _ k H Hk) as [o Ho]. rewrite Ho. simpl.
  destruct o as [x|]; [|done]. destruct Hr. right. by exists x.
Qed.

Lemma alloc_w_last_Some s g own k :
  shape s g own → (k < length (gparts g))%nat → has_room s g k →
  ∃ x s' fr e, alloc_entry_w_last s k = Ok (Some x, s') ∧ shape s' (mkGhost fr (gparts g)) (x :: own)
    ∧ same_lists s s' ∧ ents s' !! x = Some e ∧ is_fresh e.
Proof.
  intros H Hk Hr. unfold alloc_entry_w_last. destruct (gfree g) as [|y fr] eqn:Hf.
  - destruct Hr as [Hr|[x Hx]]; [by rewrite Hf in Hr|].
    rewrite (alloc_entry_None s g own) by done. simpl. unfold cell. rewrite Hx. simpl.
    assert (is_Some (ents s !! x)) as [e He].
    { apply (sh_dom _ _ _ H). unfold all_locs, spares. rewrite (spares_insert_None _ _ _ Hx).
      rewrite !elem_of_app. right. right. right. by left. }
    rewrite He. simpl. eexists x, _, [], (fresh e).
    split; [done|]. split; [|split; [done|split; [simpl; apply lookup_insert_eq|done]]].
    apply (shape_change_pool s _ g own H); simpl; try done.
    + rewrite (sh_ftail _ _ _ H). by rewrite Hf.
    + rewrite (sh_fhead _ _ _ H). by rewrite Hf.
    + rewrite <- (sh_size _ _ _ H). by rewrite Hf.
    + apply length_insert.
    + intros z _ _ Hz. rewrite lookup_insert_ne; [done|]. intros ->. apply Hz.
      unfold spares. rewrite (spares_insert_None _ _ _ Hx). by left.
    + intros z. apply is_Some_insert.
    + rewrite Hf. unfold spares. simpl. pose proof (spares_insert_None _ _ _ Hx). perm.
  - destruct (alloc_entry_Some s g own y fr H Hf) as (s' & e & Ha & Hs & Hsame & Hl & He & Hfr).
    rewrite Ha. simpl. by exists y, s', fr, e.
Qed.

Lemma own_dom s g own x : shape s g own → x ∈ own → is_Some (ents s !! x).
Proof. intros H Hx. apply (sh_dom _ _ _ H). unfold all_locs. rewrite elem_of_app. by left. Qed.

Lemma free_entry_ok s g own x :
  shape s g (x :: own) →
  ∃ s', free_entry s (Some x) = Ok s' ∧ shape s' (mkGhost (x :: gfree g) (gparts g)) own
    ∧ same_lists s s' ∧ last_ents s' = last_ents s.
Proof.
  intros H. destruct (own_dom _ _ _ x H) as [e He]; [by left|].
  destruct (own_fresh s g _ H x) as (Hxf & Hxs & Hxp); [by left|].
  unfold free_entry. simpl. rewrite He. simpl. eexists. split; [done|].
  split; [|by destruct (f_head s)].
  pose proof (sh_fhead _ _ _ H) as Hh. pose proof (sh_ftail _ _ _ H) as Ht.
  pose proof (sh_size _ _ _ H) as Hsz.
  apply (shape_change_pool s _ g _ H); simpl.
  - destruct (f_head s); simpl; (split; [exists (with_next e (f_tail s));
      by rewrite lookup_insert_eq|by apply flist_frame, (sh_free _ _ _ H)]).
  - by destruct (f_head s).
  - destruct (gfree g) as [|y fr] eqn:Hf; simpl in Hh; rewrite Hh; [done|].
    rewrite last_cons_cons. destruct (last (y :: fr)) as [z|] eqn:Hl; [|by apply last_None in Hl].
    simpl. congruence.
  - destruct (f_head s); simpl; lia.
  - by destruct (f_head s).
  - by destruct (f_head s).
  - by destruct (f_head s).
  - intros y Hy _ _. apply not_elem_of_cons in Hy as [Hy _].
    destruct (f_head s); simpl; by rewrite lookup_insert_ne.
  - intros y Hy. destruct (f_head s); simpl; by apply is_Some_insert.
  - unfold spares. destruct (f_head s); simpl; perm.
Qed.

Lemma free_w_last_ok s g own x k :
  shape s g (x :: own) → (k < length (gparts g))%nat →
  ∃ s' fr, free_entry_w_last s (Some x) k = Ok s' ∧ shape s' (mkGhost fr (gparts g)) own
    ∧ same_lists s s'.
Proof.
  intros H Hk. unfold free_entry_w_last, cell.
  destruct (last_cell _ _ _ k H Hk) as [o Ho]. rewrite Ho. simpl. destruct o as [y|].
  - destruct (free_entry_ok s g own x H) as (s' & ? & ? & ? & ?). by exists s', (x :: gfree g).
  - eexists _, (gfree g). split; [done|]. split; [|done].
    apply (shape_change_pool s _ g _ H); simpl; try done; try apply H.
    + apply length_insert.
    + unfold spares. simpl. pose proof (spares_insert_Some _ _ x Ho). perm.
Qed.

(** *** Entering, changing and unlinking an entry of a partition *)

Definition set_part (g : ghost) (k : nat) (p : part) : ghost := mkGhost (gfree g) (<[k:=p]> (gparts g)).

Lemma table_self s g own k p :
  shape s g own → gparts g !! k = Some p → <[k := Some p.2]> (table s) = table s.
Proof. intros H Hk. apply list_insert_id. by apply (sh_chain _ _ _ H k p). Qed.

Lemma push_entry_ok s g own x e k l t n r seq mask :
  shape s g (x :: own) → gparts g !! k = Some (l, t) → counts s !! k = Some n →
  ents s !! x = Some e → is_fresh e → 0 <= mask →
  ∃ s', push_entry s k (Some x) (fill_with r seq mask) = Ok s'
    ∧ shape s' (set_part g k (l ++ [(t, (seq, mask, r))], x)) own
    ∧ counts s' = <[k := n + 1]> (counts s) ∧ (∀ c, get_cur s' c = get_cur s c)
    ∧ freed s' = freed s ∧ last_ents s' = last_ents s.
Proof.
  intros H Hk Hn He (Hp & Hnx & Hd & Hq) Hm.
  destruct (sh_chain _ _ _ H k _ Hk) as [[Hdf (te & Hte & Htp & Htn & Htd & Htq)] Htb].
  simpl in Hdf, Hte, Htp, Htb.
  destruct (own_fresh s g _ H x) as (_ & _ & Hx); [by left|]. specialize (Hx k _ Hk).
  unfold locs in Hx. simpl in Hx. apply not_elem_of_app in Hx as [Hxl Hxt].
  rewrite list_elem_of_singleton in Hxt.
  pose proof (part_nodup s g _ H k _ Hk) as Hnd. unfold locs in Hnd. simpl in Hnd.
  apply NoDup_app in Hnd as (_ & Hnd & _).
  assert (t ∉ ids l) as Htl. { intros Ht. apply (Hnd t Ht). by left. }
  unfold push_entry, cell. rewrite Htb. simpl. rewrite Hte. simpl.
  rewrite lookup_insert_ne, He by done. simpl. rewrite Hn. simpl.
  eexists. split; [done|]. split; [|by repeat split; try (intros []; done)].
  apply (shape_change_part s _ g (x :: own) H own k (l, t)); simpl; try done.
  - intros y Hy1 Hy2. apply not_elem_of_cons in Hy1 as [Hy1 _].
    unfold locs in Hy2. simpl in Hy2. rewrite not_elem_of_app, list_elem_of_singleton in Hy2.
    destruct Hy2 as [_ Hy2]. by rewrite !lookup_insert_ne.
  - intros y Hy. by do 2 apply is_Some_insert.
  - split; simpl.
    + apply dfrag_app. split; [by do 2 (apply dfrag_frame; [done|])|]. simpl. split; [|done].
      exists (with_next (fill_with r seq mask te) (Some x)).
      rewrite lookup_insert_ne, lookup_insert_eq by done. by rewrite <- Htp.
    + rewrite lastp_app. simpl. exists (with_prev e (Some t)). by rewrite lookup_insert_eq.
  - unfold locs, ids. simpl. rewrite fmap_app. simpl. perm.
Qed.

(** Replacing the contents of an entry in place. *)
Lemma set_item_ok s g own k l1 x d l2 t e e' :
  shape s g own → gparts g !! k = Some (l1 ++ (x, d) :: l2, t) → ents s !! x = Some e →
  prev e' = prev e → next e' = next e → 0 <= dmask e' →
  shape (with_ents s (<[x := e']> (ents s)))
    (set_part g k (l1 ++ (x, item_of e') :: l2, t)) own.
Proof.
  intros H Hk He Hp Hn Hd. pose proof (part_nodup s g _ H k _ Hk) as Hnd.
  unfold locs, ids in Hnd. simpl in Hnd. rewrite fmap_app, fmap_cons in Hnd. simpl in Hnd.
  destruct (sh_chain _ _ _ H k _ Hk) as [[Hdf Hse] Htb]. simpl in Hdf, Hse, Htb.
  apply NoDup_app in Hnd as (Hnd & Hdt & _). apply NoDup_app in Hnd as (_ & Hd1 & Hnd).
  apply NoDup_cons in Hnd as [Hx2 _].
  assert (x ∉ ids l1) as Hx1. { intros Hx. apply (Hd1 x Hx). by left. }
  assert (x ≠ t) as Hxt. { intros ->. apply (Hdt t); [|by left]. apply elem_of_app. right. by left. }
  apply (shape_change_part s _ g own H own k (l1 ++ (x, d) :: l2, t)); simpl; try done.
  - intros y _ Hy. rewrite lookup_insert_ne; [done|]. intros ->. apply Hy. unfold locs, ids. simpl.
    rewrite fmap_app, fmap_cons, !elem_of_app. left. right. by left.
  - intros y. apply is_Some_insert.
  - split; simpl; [by eapply dfrag_set_item|]. apply sentinel_frame; [done|].
    rewrite lastp_app in Hse |- *. done.
  - by rewrite (list_insert_id (table s) k (Some t)).
  - unfold locs, ids. simpl. rewrite !fmap_app, !fmap_cons. done.
Qed.

(** The entry in front of [x] is made to point past it, then the one behind. *)
Lemma unlink_left h l1 x d l2 t e :
  NoDup (locs (l1 ++ (x, d) :: l2, t)) → chain h (l1 ++ (x, d) :: l2, t) → h !! x = Some e →
  ∃ h1, match prev e with
        | Some p => ∃ pe, h !! p = Some pe ∧ h1 = <[p := with_next pe (next e)]> h
        | None => h1 = h
        end
    ∧ h1 !! x = Some e ∧ next e = Some (first l2 t) ∧ prev e = lastp None l1
    ∧ dfrag h1 None l1 (first l2 t) ∧ dfrag h1 (Some x) l2 t ∧ sentinel h1 (lastp (Some x) l2) t
    ∧ (∀ y, y ∉ locs (l1 ++ (x, d) :: l2, t) → h1 !! y = h !! y)
    ∧ (∀ y, is_Some (h !! y) → is_Some (h1 !! y)).
Proof.
  intros Hnd [Hdf Hse] He. simpl in Hdf, Hse. apply dfrag_app in Hdf as [H1 [(e0 & He0 & Hp & Hn & _) H2]].
  rewrite He in He0. injection He0 as <-. rewrite lastp_app in Hse. simpl in Hse, Hn.
  rewrite Hp. destruct (lastp_cases None l1) as [[Hl ->]|(l' & [p dp] & -> & Hl)].
  { exists h. simpl. done. }
  rewrite Hl, Hn. simpl in *.
  unfold locs, ids in Hnd. simpl in Hnd. rewrite !fmap_app in Hnd. simpl in Hnd.
  assert (p ∉ ids l' ∧ p ≠ x ∧ p ∉ ids l2 ∧ p ≠ t) as (N1 & N2 & N3 & N4).
  { rewrite <- !app_assoc in Hnd. simpl in Hnd.
    apply NoDup_app in Hnd as (_ & Hd & Hnd). apply NoDup_cons in Hnd as [Hx _].
    rewrite not_elem_of_cons, not_elem_of_app, list_elem_of_singleton in Hx.
    destruct Hx as (?&?&?). repeat split; try done. intros Hin. apply (Hd p Hin). by left. }
  assert (is_Some (h !! p)) as [pe Hpe].
  { apply dfrag_app in H1 as [_ [(pe & ? & _) _]]. by exists pe. }
  exists (<[p := with_next pe (Some (first l2 t))]> h). split; [by exists pe|].
  split; [by rewrite lookup_insert_ne|]. split; [done|]. split; [done|].
  split; [eapply dfrag_set_next; done|]. split; [by apply dfrag_frame|].
  split; [by apply sentinel_frame|]. split; [|intros y; apply is_Some_insert].
  intros y Hy. rewrite lookup_insert_ne; [done|]. intros ->. apply Hy. unfold locs, ids. simpl.
  rewrite !fmap_app, !elem_of_app. left. left. right. by left.
Qed.

Lemma unlink_right h l1 x l2 t :
  NoDup (locs (l1 ++ l2, t)) →
  dfrag h None l1 (first l2 t) → dfrag h (Some x) l2 t → sentinel h (lastp (Some x) l2) t →
  ∃ ne, h !! first l2 t = Some ne
    ∧ chain (<[first l2 t := with_prev ne (lastp None l1)]> h) (l1 ++ l2, t)
    ∧ first l2 t ∈ locs (l1 ++ l2, t).
Proof.
  intros Hnd H1 H2 Hse. unfold chain. simpl. rewrite lastp_app.
  unfold locs, ids in *. simpl in *. rewrite fmap_app in *.
  destruct l2 as [|[n dn] l2]; simpl in *.
  - rewrite !app_nil_r in *. apply NoDup_app in Hnd as (_ & Hd & _).
    destruct Hse as (te & Hte & Hp & Hr). exists te. split; [done|]. split; [|apply elem_of_app; right; by left].
    split; [|exists (with_prev te (lastp None l1)); by rewrite lookup_insert_eq].
    apply dfrag_frame; [|done]. intros Hin. apply (Hd t Hin). by left.
  - destruct H2 as [(ne & Hne & Hnp & Hnn & Hi & Hdm) H2]. exists ne. split; [done|].
    rewrite <- !app_assoc in Hnd. simpl in Hnd. apply NoDup_app in Hnd as (_ & Hd & Hnd).
    apply NoDup_cons in Hnd as [Hn _]. rewrite not_elem_of_app, list_elem_of_singleton in Hn.
    destruct Hn as [Hn2 Hnt].
    split; [|rewrite !elem_of_app; left; right; by left]. split; [|by apply sentinel_frame].
    apply dfrag_app. split.
    + apply dfrag_frame; [|done]. intros Hin. apply (Hd n Hin). by left.
    + simpl. split; [|by apply dfrag_frame]. exists (with_prev ne (lastp None l1)).
      by rewrite lookup_insert_eq.
Qed.

Lemma unlink_ok s g own k l1 x d l2 t :
  shape s g own → gparts g !! k = Some (l1 ++ (x, d) :: l2, t) →
  ∃ s', unlink s (Some x) = Ok s' ∧ shape s' (set_part g k (l1 ++ l2, t)) (x :: own)
    ∧ same_lists s s' ∧ last_ents s' = last_ents s.
Proof.
  intros H Hk. destruct (sh_chain _ _ _ H k _ Hk) as [Hch Htb].
  pose proof (part_nodup s g _ H k _ Hk) as Hnd.
  assert (locs (l1 ++ (x, d) :: l2, t) ≡ₚ x :: locs (l1 ++ l2, t)) as Hlp.
  { unfold locs, ids. simpl. rewrite !fmap_app, fmap_cons. simpl. perm. }
  assert (NoDup (locs (l1 ++ l2, t))) as Hnd'.
  { rewrite Hlp in Hnd. by apply NoDup_cons in Hnd as [_ ?]. }
  assert (is_Some (ents s !! x)) as [e He].
  { destruct Hch as [Hdf _]. simpl in Hdf. apply dfrag_app in Hdf as [_ [(e & ? & _) _]]. by exists e. }
  destruct (unlink_left (ents s) l1 x d l2 t e Hnd Hch He)
    as (h1 & Hm & He1 & Hn & Hp & Hd1 & Hd2 & Hse & Hag & Hdom).
  destruct (unlink_right h1 l1 x l2 t Hnd' Hd1 Hd2 Hse) as (ne & Hne & Hch' & Hin).
  set (s' := with_ents s (<[first l2 t := with_prev ne (prev e)]> h1)).
  exists s'. split.
  - unfold unlink, s'. simpl. rewrite He. simpl. rewrite Hn in Hm |- *. destruct (prev e) as [p|] eqn:Hpv.
    + destruct Hm as (pe & Hpe & ->). rewrite Hpe. simpl. rewrite He1. simpl. rewrite Hn, Hne, Hpv. done.
    + subst h1. simpl. rewrite He. simpl. rewrite Hn, Hne, Hpv. done.
  - split; [|done].
    apply (shape_change_part s _ g own H (x :: own) k (l1 ++ (x, d) :: l2, t)); simpl; try done.
    + intros y _ Hy. rewrite lookup_insert_ne; [by apply Hag|]. intros <-. apply Hy.
      rewrite Hlp. by right.
    + intros y Hy. by apply is_Some_insert, Hdom.
    + by rewrite Hp.
    + by rewrite (list_insert_id (table s) k (Some t)).
    + perm.
Qed.

(** The tuple that goes back to the allocator with an entry. *)
Definition dropped (sf : bool) (d : item) : list Z :=
  if decide (sf = true ∧ r_type d.2 = RESULT_HEAPTUPLE ∧ r_data d.2 ≠ 0) then [r_data d.2] else [].

Lemma dropped_yes d : r_type d.2 = RESULT_HEAPTUPLE ∧ r_data d.2 ≠ 0 → dropped true d = [r_data d.2].
Proof. intros ?. unfold dropped. by rewrite decide_True. Qed.

Lemma dropped_no sf d :
  ¬ (sf = true ∧ r_type d.2 = RESULT_HEAPTUPLE ∧ r_data d.2 ≠ 0) → dropped sf d = [].
Proof. intros ?. unfold dropped. by rewrite decide_False. Qed.

Lemma dfrag_lookup h pv l1 x d l2 nx :
  dfrag h pv (l1 ++ (x, d) :: l2) nx →
  ∃ e, h !! x = Some e ∧ item_of e = d ∧ 0 <= dmask e ∧ next e = Some (first l2 nx)
    ∧ prev e = lastp pv l1.
Proof.
  intros H. apply dfrag_app in H as [_ [(e & He & Hp & Hn & Hi & Hd) _]].
  exists e. by repeat split.
Qed.

Lemma chain_lookup s g own k l1 x d l2 t :
  shape s g own → gparts g !! k = Some (l1 ++ (x, d) :: l2, t) →
  ∃ e, ents s !! x = Some e ∧ item_of e = d ∧ 0 <= dmask e ∧ next e = Some (first l2 t).
Proof.
  intros H Hk. destruct (sh_chain _ _ _ H k _ Hk) as [[Hdf _] _]. simpl in Hdf.
  destruct (dfrag_lookup _ _ _ _ _ _ _ Hdf) as (e & ? & ? & ? & ? & _). by exists e.
Qed.

Lemma chain_sentinel s g own k l t :
  shape s g own → gparts g !! k = Some (l, t) →
  ∃ e, ents s !! t = Some e ∧ dmask e = -1 ∧ next e = None ∧ seqnum e = -1.
Proof.
  intros H Hk. destruct (sh_chain _ _ _ H k _ Hk) as [[_ (e & He & ? & ? & ? & ?)] _]. by exists e.
Qed.

Lemma drop_tuple_ok s g own k l1 x d l2 t :
  shape s g own → gparts g !! k = Some (l1 ++ (x, d) :: l2, t) →
  ∃ s' d', drop_tuple s (Some x) = Ok s' ∧ shape s' (set_part g k (l1 ++ (x, d') :: l2, t)) own
    ∧ table s' = table s ∧ counts s' = counts s ∧ (∀ c, get_cur s' c = get_cur s c)
    ∧ freed s' = freed s ++ dropped (shouldFree s) d ∧ shouldFree s' = shouldFree s.
Proof.
  intros H Hk. destruct (chain_lookup _ _ _ _ _ _ _ _ _ H Hk) as (e & He & Hi & Hd & Hn).
  unfold drop_tuple. simpl. rewrite He. simpl.
  assert (d.2 = rtup e) as Hr by (by rewrite <- Hi).
  destruct (decide (r_type (rtup e) = RESULT_HEAPTUPLE ∧ r_data (rtup e) ≠ 0)) as [Hh|Hh].
  - pose (e' := with_rtup e (mkResult (r_type (rtup e)) 0)).
    pose proof (set_item_ok s g own k l1 x d l2 t e e' H Hk He eq_refl eq_refl Hd) as Hs.
    destruct (shouldFree s) eqn:Hsf; simpl; rewrite He; simpl.
    + eexists _, (item_of e'). split; [done|]. split; [by destruct Hs; split|].
      rewrite dropped_yes by (by rewrite Hr). by rewrite Hr.
    + eexists _, (item_of e'). split; [done|]. split; [by destruct Hs; split|].
      rewrite dropped_no by naive_solver. by rewrite app_nil_r.
  - exists s, d. split; [done|]. rewrite dropped_no by (rewrite Hr; tauto). rewrite app_nil_r.
    split; [|done]. unfold set_part. rewrite list_insert_id by done. by destruct g.
Qed.

Lemma del_entry_ok s g k l1 x d l2 t :
  shape s g [] → gparts g !! k = Some (l1 ++ (x, d) :: l2, t) →
  counts s !! k = Some (Z.of_nat (length (l1 ++ (x, d) :: l2))) →
  ∃ s' fr, del_entry s k (Some x) = Ok s'
    ∧ shape s' (mkGhost fr (<[k := (l1 ++ l2, t)]> (gparts g))) []
    ∧ counts s' = <[k := Z.of_nat (length (l1 ++ l2))]> (counts s)
    ∧ (∀ c, get_cur s' c = get_cur s c)
    ∧ freed s' = freed s ++ dropped (shouldFree s) d ∧ shouldFree s' = shouldFree s.
Proof.
  intros H Hk Hc. assert (k < length (gparts g))%nat as Hlt by (by eapply lookup_lt_Some).
  destruct (drop_tuple_ok _ _ _ _ _ _ _ _ _ H Hk) as (s1 & d' & E1 & H1 & _ & C1 & U1 & F1 & S1).
  assert (gparts (set_part g k (l1 ++ (x, d') :: l2, t)) !! k = Some (l1 ++ (x, d') :: l2, t)) as Hk1.
  { simpl. by apply list_lookup_insert_eq. }
  destruct (unlink_ok _ _ _ _ _ _ _ _ _ H1 Hk1) as (s2 & E2 & H2 & (_ & C2 & U2 & _ & F2 & S2) & _).
  destruct (free_w_last_ok _ _ _ _ k H2) as (s3 & fr & E3 & H3 & (_ & C3 & U3 & _ & F3 & S3)).
  { simpl. by rewrite !length_insert. }
  unfold del_entry. rewrite E1. simpl. rewrite E2. simpl. rewrite E3. simpl.
  unfold cell. rewrite C3, C2, C1, Hc. simpl. rewrite !length_app. simpl.
  destruct (_ <? 0) eqn:Hneg; [apply Z.ltb_lt in Hneg; lia|].
  eexists _, fr. split; [done|]. split.
  - simpl in H3. rewrite list_insert_insert_eq in H3. by destruct H3; split.
  - split; [simpl; do 2 f_equal; lia|]. split; [intros c|split; simpl; congruence].
    transitivity (get_cur s3 c); [by destruct c|]. by rewrite U3, U2.
Qed.

(** *** Acknowledgement

    What an acknowledgement of [seqno] does to the entries from the cursor on:
    it passes the longest prefix of entries with a smaller or equal number,
    marks each, hands the tuple of the slot to the one with that number, and
    removes those that every party has now acknowledged. *)
Definition takes_slot (sl : option slot) (seqno : Z) (d : item) : bool :=
  (d.1.1 =? seqno) && negb (TupIsNull sl).

Definition ack_item (sl : option slot) (seqno mask : Z) (d : item) : item :=
  (d.1.1, Z.lor d.1.2 mask,
   if takes_slot sl seqno d then mkResult RESULT_HEAPTUPLE (slot_val sl) else d.2).

Definition acked_by_all (fmask : Z) (d : item) : bool := Z.land d.1.2 fmask =? fmask.

Record scan : Type := mkScan {
  sc_kept : list (nat * item);    (* passed and kept *)
  sc_rest : list (nat * item);    (* not passed *)
  sc_slot : option slot;
  sc_found : bool;
  sc_freed : list Z
}.

Fixpoint ack_scan (sf : bool) (sl : option slot) (seqno mask fmask : Z)
    (rest : list (nat * item)) : scan :=
  match rest with
  | [] => mkScan [] [] sl false []
  | (x, d) :: rest' =>
      if d.1.1 <=? seqno then
        let d' := ack_item sl seqno mask d in
        let r := ack_scan sf (if takes_slot sl seqno d then clear_slot sl else sl)
                   seqno mask fmask rest' in
        if acked_by_all fmask d'
        then mkScan (sc_kept r) (sc_rest r) (sc_slot r) ((d.1.1 =? seqno) || sc_found r)
               (dropped sf d' ++ sc_freed r)
        else mkScan ((x, d') :: sc_kept r) (sc_rest r) (sc_slot r)
               ((d.1.1 =? seqno) || sc_found r) (sc_freed r)
      else mkScan [] rest sl false []
  end.

Lemma get_with_cur s c l c' : get_cur (with_cur s c l) c' = if decide (c = c') then l else get_cur s c'.
Proof. by destruct c, c'. Qed.

Lemma get_with_cur_eq s c l : get_cur (with_cur s c l) c = l.
Proof. by destruct c. Qed.

Lemma with_cur_fields s c l :
  ents (with_cur s c l) = ents s ∧ counts (with_cur s c l) = counts s
  ∧ freed (with_cur s c l) = freed s ∧ shouldFree (with_cur s c l) = shouldFree s
  ∧ last_ents (with_cur s c l) = last_ents s ∧ table (with_cur s c l) = table s.
Proof. by destruct c. Qed.

Lemma shape_with_cur s g own c l : shape s g own → shape (with_cur s c l) g own.
Proof. intros H. destruct c, H; by split. Qed.

Lemma chain_fuel_enough s g own k p : shape s g own → gparts g !! k = Some p →
  (length p.1 < chain_fuel s)%nat.
Proof.
  intros H Hk. pose proof (part_nodup _ _ _ H k p Hk) as Hnd.
  assert (list_to_set (C := gset nat) (locs p) ⊆ dom (ents s)) as Hsub.
  { intros y. rewrite elem_of_list_to_set, elem_of_dom. intros Hy. apply (sh_dom _ _ _ H).
    unfold all_locs. rewrite (parts_locs _ k p Hk), !elem_of_app. tauto. }
  apply subseteq_size in Hsub. rewrite size_list_to_set in Hsub by done.
  rewrite size_dom in Hsub. unfold locs, ids in Hsub. rewrite length_app, length_fmap in Hsub.
  simpl in Hsub. unfold chain_fuel. lia.
Qed.

(** Partition [k] holds [pre ++ rest] and cursor [c] stands between the two. *)
Record at_cur (s : TSB) (g : ghost) (k : nat) (c : cursor) (pre rest : list (nat * item)) (t : nat)
    : Prop := {
  ac_shape : shape s g [];
  ac_part : gparts g !! k = Some (pre ++ rest, t);
  ac_count : counts s !! k = Some (Z.of_nat (length (pre ++ rest)));
  ac_cur : get_cur s c !! k = Some (Some (first rest t))
}.

(** Everything else an acknowledgement changes, and what it does not. *)
Record moved (s s' : TSB) (k : nat) (c : cursor) (n : Z) (pos : nat) (fr : list Z) : Prop := {
  mv_counts : counts s' = <[k := n]> (counts s);
  mv_cur : get_cur s' c = <[k := Some pos]> (get_cur s c);
  mv_others : ∀ c', c' ≠ c → get_cur s' c' = get_cur s c';
  mv_freed : freed s' = freed s ++ fr;
  mv_sf : shouldFree s' = shouldFree s
}.

Lemma moved_trans s1 s2 s3 k c n1 n2 p1 p2 f1 f2 :
  moved s1 s2 k c n1 p1 f1 → moved s2 s3 k c n2 p2 f2 → moved s1 s3 k c n2 p2 (f1 ++ f2).
Proof.
  intros [A1 A2 A3 A4 A5] [B1 B2 B3 B4 B5]. split.
  - by rewrite B1, A1, list_insert_insert_eq.
  - by rewrite B2, A2, list_insert_insert_eq.
  - intros c' Hc. rewrite B3, A3 by done. done.
  - by rewrite B4, A4, app_assoc.
  - congruence.
Qed.

Lemma moved_refl s g k c pre rest t :
  at_cur s g k c pre rest t → moved s s k c (Z.of_nat (length (pre ++ rest))) (first rest t) [].
Proof.
  intros [_ _ Hc Hp]. split; try done; [by rewrite list_insert_id|by rewrite list_insert_id|].
  by rewrite app_nil_r.
Qed.

(** One round of the loop that passes an entry. *)
Definition ack_entry (sl : option slot) (seqno mask : Z) (e : TSB_Entry) : TSB_Entry :=
  let e1 := if (seqnum e =? seqno) && negb (TupIsNull sl)
            then with_rtup e (mkResult RESULT_HEAPTUPLE (slot_val sl)) else e in
  with_dmask e1 (Z.lor (dmask e1) mask).

Lemma ack_entry_item sl seqno mask e :
  item_of (ack_entry sl seqno mask e) = ack_item sl seqno mask (item_of e)
  ∧ prev (ack_entry sl seqno mask e) = prev e ∧ next (ack_entry sl seqno mask e) = next e
  ∧ dmask (ack_entry sl seqno mask e) = Z.lor (dmask e) mask.
Proof. unfold ack_entry, ack_item, takes_slot. simpl. by destruct (_ && _). Qed.

Definition passed (fmask : Z) (x : nat) (d : item) : list (nat * item) :=
  if acked_by_all fmask d then [] else [(x, d)].

(** Marking the entry at the cursor and moving the cursor past it. *)
Lemma ack_mark s g k c pre x d rest t sl seqno mask e :
  at_cur s g k c pre ((x, d) :: rest) t → ents s !! x = Some e → 0 <= mask →
  let e2 := ack_entry sl seqno mask e in
  let d' := ack_item sl seqno mask d in
  let tsb1 := with_ents s (<[x := e2]> (ents s)) in
  let tsb2 := with_cur tsb1 c (<[k := next e2]> (get_cur tsb1 c)) in
  item_of e2 = d' ∧ at_cur tsb2 (set_part g k (pre ++ (x, d') :: rest, t)) k c (pre ++ [(x, d')]) rest t
  ∧ moved s tsb2 k c (Z.of_nat (length (pre ++ (x, d') :: rest))) (first rest t) [].
Proof.
  intros [Hs Hk Hc Hp] He Hm e2 d' tsb1 tsb2.
  destruct (chain_lookup _ _ _ _ _ _ _ _ _ Hs Hk) as (e0 & He0 & Hi & Hd & Hn).
  rewrite He in He0. injection He0 as <-.
  destruct (ack_entry_item sl seqno mask e) as (Hi2 & Hp2 & Hn2 & Hd2).
  fold e2 in Hi2, Hp2, Hn2, Hd2. rewrite Hi in Hi2. fold d' in Hi2. split; [done|].
  assert (0 <= dmask e2) as Hd2' by (rewrite Hd2; apply Z.lor_nonneg; lia).
  pose proof (set_item_ok s g [] k pre x d rest t e e2 Hs Hk He Hp2 Hn2 Hd2') as Hs1.
  rewrite Hi2 in Hs1. fold tsb1 in Hs1.
  apply (shape_with_cur _ _ _ c (<[k:=next e2]> (get_cur tsb1 c))) in Hs1. fold tsb2 in Hs1.
  assert (get_cur tsb2 c = <[k:=Some (first rest t)]> (get_cur s c)) as Hg.
  { unfold tsb2. rewrite get_with_cur_eq, Hn2, Hn. by destruct c. }
  assert (counts tsb2 = counts s ∧ freed tsb2 = freed s ∧ shouldFree tsb2 = shouldFree s)
    as (Hcs & Hfr & Hsf) by (unfold tsb2; by destruct c).
  assert (counts s !! k = Some (Z.of_nat (length (pre ++ (x, d') :: rest)))) as Hc'.
  { rewrite Hc, !length_app. done. }
  split; split; rewrite <- ?app_assoc; simpl; try done.
  - apply list_lookup_insert_eq. by eapply lookup_lt_Some.
  - by rewrite Hcs.
  - rewrite Hg. apply list_lookup_insert_eq. by eapply lookup_lt_Some.
  - by rewrite Hcs, list_insert_id.
  - intros c' Hne. unfold tsb2. rewrite get_with_cur, decide_False by done. by destruct c'.
  - by rewrite Hfr, app_nil_r.
Qed.

(** Deleting the entry just passed. *)
Lemma ack_delete s g k c pre x d rest t :
  at_cur s g k c (pre ++ [(x, d)]) rest t →
  ∃ s' g', del_entry s k (Some x) = Ok s' ∧ at_cur s' g' k c pre rest t
    ∧ gparts g' = <[k := (pre ++ rest, t)]> (gparts g)
    ∧ moved s s' k c (Z.of_nat (length (pre ++ rest))) (first rest t) (dropped (shouldFree s) d).
Proof.
  intros [Hs Hk Hc Hp]. rewrite <- app_assoc in Hk, Hc. simpl in Hk, Hc.
  destruct (del_entry_ok s g k pre x d rest t Hs Hk Hc) as (s' & fr & E & Hs' & C' & U' & F' & S').
  exists s', (mkGhost fr (<[k:=(pre ++ rest, t)]> (gparts g))).
  split; [done|]. split; [|split; [done|]]; split; try done.
  - simpl. apply list_lookup_insert_eq. by eapply lookup_lt_Some.
  - rewrite C'. apply list_lookup_insert_eq. by eapply lookup_lt_Some.
  - by rewrite U'.
  - by rewrite U', list_insert_id.
Qed.

Lemma ack_round s g k c pre x d rest t sl seqno mask fmask e :
  at_cur s g k c pre ((x, d) :: rest) t → ents s !! x = Some e → 0 <= mask →
  let e2 := ack_entry sl seqno mask e in
  let d' := ack_item sl seqno mask d in
  let tsb1 := with_ents s (<[x := e2]> (ents s)) in
  let tsb2 := with_cur tsb1 c (<[k := next e2]> (get_cur tsb1 c)) in
  ∃ s' g', (if Z.land (dmask e2) fmask =? fmask then del_entry tsb2 k (Some x) else Ok tsb2) = Ok s'
    ∧ at_cur s' g' k c (pre ++ passed fmask x d') rest t
    ∧ gparts g' = <[k := (pre ++ passed fmask x d' ++ rest, t)]> (gparts g)
    ∧ moved s s' k c (Z.of_nat (length (pre ++ passed fmask x d' ++ rest))) (first rest t)
        (if acked_by_all fmask d' then dropped (shouldFree s) d' else []).
Proof.
  intros Hat He Hm e2 d' tsb1 tsb2.
  destruct (ack_mark s g k c pre x d rest t sl seqno mask e Hat He Hm) as (Hi & Hat2 & Hmv).
  fold e2 d' tsb1 tsb2 in Hi, Hat2, Hmv.
  assert (Z.land (dmask e2) fmask =? fmask = acked_by_all fmask d') as ->.
  { unfold acked_by_all. by rewrite <- Hi. }
  unfold passed. destruct (acked_by_all fmask d'); simpl.
  - destruct (ack_delete _ _ _ _ _ _ _ _ _ Hat2) as (s' & g' & E & Hat' & Hg' & Hmv').
    exists s', g'. rewrite app_nil_r. split; [done|]. split; [done|].
    split; [rewrite Hg'; apply list_insert_insert_eq|].
    rewrite (mv_sf _ _ _ _ _ _ _ Hmv) in Hmv'. apply (moved_trans _ _ _ _ _ _ _ _ _ _ _ Hmv Hmv').
  - by exists tsb2, (set_part g k (pre ++ (x, d') :: rest, t)).
Qed.

Lemma ack_loop_ok rest s g k c pre t sl seqno mask fmask found fuel :
  at_cur s g k c pre rest t → 0 <= mask → (length rest < fuel)%nat →
  let r := ack_scan (shouldFree s) sl seqno mask fmask rest in
  ∃ s' g', ack_loop fuel s sl seqno k c mask fmask found = Ok (s', sc_slot r, found || sc_found r)
    ∧ at_cur s' g' k c (pre ++ sc_kept r) (sc_rest r) t
    ∧ gparts g' = <[k := (pre ++ sc_kept r ++ sc_rest r, t)]> (gparts g)
    ∧ moved s s' k c (Z.of_nat (length (pre ++ sc_kept r ++ sc_rest r)))
        (first (sc_rest r) t) (sc_freed r).
Proof.
  revert s g pre sl found fuel. induction rest as [|[x d] rest IH];
    intros s g pre sl found fuel Hat Hm Hfu; (destruct fuel as [|fuel]; [simpl in Hfu; lia|]).
  - simpl. unfold cell. rewrite (ac_cur _ _ _ _ _ _ _ Hat). simpl.
    destruct (chain_sentinel s g [] k _ t (ac_shape _ _ _ _ _ _ _ Hat) (ac_part _ _ _ _ _ _ _ Hat))
      as (e & He & Hd & _).
    rewrite He. simpl. rewrite Hd. simpl. exists s, g. rewrite orb_false_r.
    pose proof (moved_refl _ _ _ _ _ _ _ Hat) as Hmv. simpl in Hmv.
    split; [done|]. split; [by rewrite app_nil_r|].
    split; [by rewrite list_insert_id by apply Hat|done].
  - destruct (chain_lookup s g [] k _ x d rest t (ac_shape _ _ _ _ _ _ _ Hat) (ac_part _ _ _ _ _ _ _ Hat))
      as (e & He & Hi & Hd & Hn).
    simpl ack_loop. unfold cell. rewrite (ac_cur _ _ _ _ _ _ _ Hat). simpl. rewrite He. simpl.
    rewrite (proj2 (Z.leb_le 0 (dmask e))) by done. simpl.
    assert (seqnum e = d.1.1) as Hq by (by rewrite <- Hi). rewrite Hq.
    destruct (d.1.1 <=? seqno) eqn:Hle; simpl.
    + rewrite <- Hq. rewrite ?He. simpl. fold (ack_entry sl seqno mask e).
      destruct (ack_round s g k c pre x d rest t sl seqno mask fmask e Hat He Hm)
        as (s1 & g1 & E1 & Hat1 & Hg1 & Hmv1).
      simpl in E1. rewrite E1. simpl. simpl in Hfu.
      destruct (IH s1 g1 (pre ++ passed fmask x (ack_item sl seqno mask d))
                  (if takes_slot sl seqno d then clear_slot sl else sl)
                  (found || (d.1.1 =? seqno)) fuel Hat1 Hm ltac:(lia)) as (s2 & g2 & E2 & Hat2 & Hg2 & Hmv2).
      rewrite Hq. unfold takes_slot in E2 at 1. rewrite E2.
      rewrite (mv_sf _ _ _ _ _ _ _ Hmv1) in *.
      pose proof (moved_trans _ _ _ _ _ _ _ _ _ _ _ Hmv1 Hmv2) as Hmv.
      rewrite Hg1, list_insert_insert_eq in Hg2. rewrite <- orb_assoc.
      exists s2, g2. unfold passed in *.
      destruct (acked_by_all fmask _); simpl; rewrite ?app_nil_r, <- ?app_assoc in *; done.
    + exists s, g. rewrite orb_false_r, app_nil_r.
      split; [done|]. split; [done|].
      split; [by rewrite list_insert_id by apply Hat|apply (moved_refl _ _ _ _ _ _ _ Hat)].
Qed.

End TSBRep.
