(* ===== verification/TsbInit.v ===== *)
(** * Construction of the skew buffer

    [init_TSB] of [src/src/backend/executor/tsb.c] establishes the invariant of
    [TsbRep]: all partitions empty, every cursor at its sentinel, [max] entries
    in the pool, one spare entry per partition. *)

From S2P Require Import Prelude Tsb TsbRep.

Module TSBInit.
Import TSBuf TSBRep.
Local Open Scope Z_scope.

(** While the loop runs, [num_parts] already has its final value. *)
Definition with_num (s : TSB) (n : Z) : TSB :=
  mkTSB (max_size s) (size s) n (counts s) (table s) (prod_ack s) (prim_ack s) (sec_ack s)
    (p_head s) (s_head s) (f_head s) (f_tail s) (last_ents s) (shouldFree s) (ents s) (freed s).

Lemma alloc_with_num s n x s' :
  alloc_entry (with_num s n) = Ok (Some x, s') → alloc_entry s = Ok (Some x, with_num s' (num_parts s)).
Proof.
  unfold alloc_entry. simpl. destruct (f_tail s) as [t|]; [|done].
  case_decide; simpl; [|destruct (ents s !! t) as [e|]; simpl; [|done]];
    (destruct (ents s !! t) as [e'|]; simpl; [|done]); intros [= <- <-]; done.
Qed.

(** Adding an empty partition whose sentinel is the owned entry. *)
Lemma shape_new_part s g s' x y :
  shape s g [x] → length (table s) = length (gparts g) →
  (∃ e, ents s !! x = Some e ∧ is_fresh e) → y ∉ all_locs s g [x] → is_Some (ents s !! y) →
  ents s' = ents s → f_tail s' = f_tail s → f_head s' = f_head s → size s' = size s →
  max_size s' = max_size s → table s' = table s ++ [Some x] → last_ents s' = last_ents s ++ [Some y] →
  num_parts s' = num_parts s + 1 →
  shape s' (mkGhost (gfree g) (gparts g ++ [([], x)])) [].
Proof.
  intros H Hlt (e & He & Hp & Hn & Hd & Hq) Hy Hye E1 E2 E3 E4 E5 E6 E7 E8.
  assert (all_locs s' (mkGhost (gfree g) (gparts g ++ [([], x)])) [] ≡ₚ y :: all_locs s g [x]) as Hall.
  { unfold all_locs, spares. simpl. rewrite E7, omap_app, fmap_app, concat_app. simpl.
    rewrite ?app_nil_r. perm. }
  split; simpl; rewrite ?E1, ?E2, ?E3, ?E4, ?E5; try apply H.
  - intros k p Hk. apply lookup_app_Some in Hk as [Hk|[Hge Hk]].
    + destruct (sh_chain _ _ _ H k p Hk) as [? Ht]. split; [done|]. rewrite E6.
      apply lookup_app_l_Some. done.
    + apply list_lookup_singleton_Some in Hk as [Hk <-]. split.
      * split; [done|]. by exists e.
      * rewrite E6, lookup_app_r by lia. by replace (k - length (table s))%nat with 0%nat by lia.
  - rewrite E8, (sh_num _ _ _ H), length_app. simpl. lia.
  - rewrite E7, !length_app, (sh_last _ _ _ H). done.
  - rewrite Hall. apply NoDup_cons. split; [done|apply H].
  - intros z. rewrite Hall. intros [->|Hz]%elem_of_cons; [done|by apply (sh_dom _ _ _ H)].
Qed.

Section init.
Context (garbage : nat → TSB_Entry) (nparts max m : nat).
Context (Hm : m = (max + nparts)%nat) (Hpos : (0 < m)%nat).

(** The pool after [j] sentinels were taken from it. *)
Definition pool_left (j : nat) : list nat := reverse (seq 0 (m - j)).

Definition tail_of (i : nat) : nat := (m - 1 - i)%nat.

Record filled (j : nat) (s : TSB) (g : ghost) : Prop := {
  fi_shape : shape (with_num s (Z.of_nat j)) g [];
  fi_free : gfree g = pool_left j;
  fi_parts : gparts g = (λ i, ([], tail_of i)) <$> seq 0 j;
  fi_table : table s = (λ i, Some (tail_of i)) <$> seq 0 j;
  fi_cur : ∀ c, get_cur s c = table s;
  fi_counts : counts s = replicate j 0;
  fi_last : last_ents s = (λ i, Some (m + i)%nat) <$> seq 0 j;
  fi_num : num_parts s = Z.of_nat nparts;
  fi_freed : freed s = [];
  fi_spare : ∀ i, (i < nparts)%nat → is_Some (ents s !! (m + i)%nat)
}.

Lemma pool_lookup i : (i < m + nparts)%nat →
  pool garbage m nparts !! i =
  Some (if decide (i < m)%nat
        then with_next (garbage i) (if decide (i = 0%nat) then None else Some (i - 1)%nat)
        else garbage i).
Proof.
  intros Hi. unfold pool. apply elem_of_list_to_map_1.
  - rewrite <- list_fmap_compose. simpl. rewrite list_fmap_id. apply NoDup_seq.
  - apply list_elem_of_fmap. exists i. split; [done|]. apply elem_of_seq. lia.
Qed.

Lemma pool_flist j : (j <= m)%nat → flist (pool garbage m nparts) (reverse (seq 0 j)).
Proof.
  induction j as [|j IH]; intros Hj; [done|].
  rewrite seq_S, reverse_app. simpl. split; [|apply IH; lia].
  eexists. split; [apply pool_lookup; lia|]. rewrite decide_True by lia. simpl.
  destruct j as [|j]; [done|]. rewrite seq_S, reverse_app. simpl. by rewrite Nat.sub_0_r.
Qed.

Lemma init_start :
  filled 0 (mkTSB (Z.of_nat m) 0 (Z.of_nat nparts) [] [] [] [] [] [] []
             (Some 0%nat) (Some (m - 1)%nat) [] true (pool garbage m nparts) [])
    (mkGhost (pool_left 0) []).
Proof.
  split; try done; [|by intros []|].
  - unfold pool_left. rewrite Nat.sub_0_r. split; simpl; try done.
    + by apply pool_flist.
    + destruct m as [|m']; [lia|]. rewrite seq_S, reverse_app. simpl. f_equal. lia.
    + destruct m as [|m']; [lia|]. simpl. by rewrite reverse_cons, last_snoc.
    + by rewrite length_reverse, length_seq.
    + unfold all_locs, spares. simpl. rewrite !app_nil_r, reverse_Permutation. apply NoDup_seq.
    + intros y. unfold all_locs, spares. simpl. rewrite !app_nil_r, elem_of_reverse, elem_of_seq.
      intros Hy. eexists. apply pool_lookup. lia.
  - intros i Hi. simpl. eexists. apply pool_lookup. lia.
Qed.

Lemma fmap_seq_S {A} (f : nat → A) j : f <$> seq 0 (S j) = (f <$> seq 0 j) ++ [f j].
Proof. by rewrite seq_S, fmap_app. Qed.

Lemma init_step j s g : (j < nparts)%nat → filled j s g →
  ∃ s' g', init_part m j (Ok s) = Ok s' ∧ filled (S j) s' g'.
Proof.
  intros Hj [Hs Hf Hp Ht Hc Hn Hl Hnum Hfr Hsp].
  assert (gfree g = tail_of j :: pool_left (S j)) as Hf'.
  { rewrite Hf. unfold pool_left, tail_of. replace (m - j)%nat with (S (m - 1 - j)) by lia.
    rewrite seq_S, reverse_app. simpl. f_equal. f_equal. f_equal. lia. }
  destruct (alloc_entry_Some _ _ _ _ _ Hs Hf') as (s1 & e & E & H1 & (T1 & C1 & U1 & N1 & F1 & S1) & L1 & He & Hfre).
  pose proof E as E'. unfold init_part. apply alloc_with_num in E. simpl. rewrite E. simpl.
  assert (∀ i, (i < nparts)%nat → is_Some (ents s1 !! (m + i)%nat)) as Hsp1.
  { intros i Hi. unfold alloc_entry in E'. simpl in E'. cinv. destruct (f_tail s) as [t|]; [|done].
    cinv. case_decide; cinv; simpl in *; simplify_eq; simpl; by apply is_Some_insert, Hsp. }
  eexists _, (mkGhost (pool_left (S j)) (gparts g ++ [([], tail_of j)])). split; [done|].
  simpl in T1, C1, N1, F1, L1.
  pose proof (U1 ProdAck) as U2. pose proof (U1 PrimAck) as U3. pose proof (U1 SecAck) as U4.
  pose proof (U1 PHead) as U5. pose proof (U1 SHead) as U6.
  pose proof (Hc ProdAck) as V2. pose proof (Hc PrimAck) as V3. pose proof (Hc SecAck) as V4.
  pose proof (Hc PHead) as V5. pose proof (Hc SHead) as V6. simpl in *.
  split; simpl; try done.
  - eapply (shape_new_part s1 (mkGhost (pool_left (S j)) (gparts g)) _ (tail_of j) (m + j)%nat);
      simpl; try done.
    + rewrite T1, Ht, Hp, !length_fmap. done.
    + by exists e.
    + unfold all_locs, spares. simpl. rewrite L1, Hl, Hp.
      rewrite not_elem_of_cons, !not_elem_of_app. unfold pool_left, tail_of.
      rewrite elem_of_reverse, elem_of_seq. split; [lia|]. split; [lia|]. split.
      * rewrite <- list_fmap_compose, list_elem_of_In, in_concat. intros (l & Hin & Hx).
        apply list_elem_of_In, list_elem_of_fmap in Hin as (i & -> & _). simpl in Hx. lia.
      * rewrite list_elem_of_omap. intros (o & Ho & Hid). apply list_elem_of_fmap in Ho as (i & -> & Hin).
        injection Hid as Hid. apply elem_of_seq in Hin. lia.
    + by apply Hsp1.
    + rewrite N1. lia.
  - rewrite Hp. symmetry. apply (fmap_seq_S (λ i, ([], tail_of i)) j).
  - rewrite T1, Ht. symmetry. apply (fmap_seq_S (λ i, Some (tail_of i)) j).
  - intros []; simpl; congruence.
  - rewrite C1, Hn. by rewrite <- replicate_cons_app.
  - rewrite L1, Hl. symmetry. apply (fmap_seq_S (λ i, Some (m + i)%nat) j).
  - congruence.
Qed.
End init.

Lemma init_ok garbage nparts max : (0 < max + nparts)%nat →
  ∃ s g, init_TSB garbage nparts max = Ok s ∧ filled nparts (max + nparts) nparts s g.
Proof.
  intros Hpos. unfold init_TSB. rewrite decide_False by lia.
  assert (∀ j, (j <= nparts)%nat → ∃ s g,
    for_loop j (init_part (max + nparts))
      (Ok (mkTSB (Z.of_nat (max + nparts)) 0 (Z.of_nat nparts) [] [] [] [] [] [] []
             (Some 0%nat) (Some (max + nparts - 1)%nat) [] true
             (pool garbage (max + nparts) nparts) [])) = Ok s
    ∧ filled nparts (max + nparts) j s g) as Hloop; [|by apply Hloop].
  induction j as [|j IH]; intros Hj; simpl.
  - eexists _, _. split; [done|]. by apply (init_start garbage nparts max).
  - destruct IH as (s & g & E & Hf); [lia|]. rewrite E.
    apply (init_step nparts max (max + nparts) eq_refl Hpos j s g); [lia|done].
Qed.

(** What [filled] says at the end of the loop. *)
Lemma filled_inv nparts m s g : filled nparts m nparts s g → inv s g.
Proof.
  intros [Hs Hf Hp Ht Hc Hn Hl Hnum Hfr Hsp]. split; [|split].
  - destruct Hs; split; try done. simpl in *. congruence.
  - intros k p. rewrite Hp, Hn, list_lookup_fmap. intros Hk.
    destruct (seq 0 nparts !! k) as [i|] eqn:Hi; simplify_eq/=. apply lookup_seq in Hi as [-> Hlt].
    by apply lookup_replicate.
  - intros c k p. rewrite Hp, Hc, Ht, !list_lookup_fmap. intros Hk.
    destruct (seq 0 nparts !! k) as [i|] eqn:Hi; simplify_eq/=. exists (tail_of m i).
    split; [done|]. by left.
Qed.

(** A freshly built skew buffer satisfies the invariant for any leftover
    contents of its memory: every partition is empty, every cursor has nothing
    pending, exactly [max] entries are in the pool, every partition has its
    spare entry, and no tuple was freed. *)
Theorem init_TSB_establishes garbage nparts max :
  (0 < max + nparts)%nat →
  ∃ s g, init_TSB garbage nparts max = Ok s ∧ inv s g
    ∧ num_parts s = Z.of_nat nparts ∧ length (gparts g) = nparts
    ∧ (∀ k p, gparts g !! k = Some p → p.1 = [] ∧ ∀ c, get_cur s c !! k = Some (Some p.2))
    ∧ length (gfree g) = max ∧ length (spares s) = nparts ∧ freed s = [].
Proof.
  intros Hpos. destruct (init_ok garbage nparts max Hpos) as (s & g & E & Hfi).
  exists s, g. split; [done|]. split; [by eapply filled_inv|].
  destruct Hfi as [Hs Hf Hp Ht Hc Hn Hl Hnum Hfr Hsp]. split; [done|].
  split; [by rewrite Hp, length_fmap, length_seq|]. split.
  - intros k p. rewrite Hp, list_lookup_fmap. intros Hk.
    destruct (seq 0 nparts !! k) as [i|] eqn:Hi; simplify_eq/=. split; [done|].
    intros c. by rewrite Hc, Ht, list_lookup_fmap, Hi.
  - split; [rewrite Hf; unfold pool_left; rewrite length_reverse, length_seq; lia|]. split; [|done].
    unfold spares. rewrite Hl. generalize (max + nparts)%nat, 0%nat. clear. intros m.
    induction nparts as [|n IH]; intros b; simpl; [done|]. f_equal. apply IH.
Qed.

Lemma init_TSB_establishes_witness :
  ∃ s g, init_TSB (λ _, mkEntry None None 7 7 (mkResult RESULT_DONE 9) 7) 2 3 = Ok s ∧ inv s g
    ∧ num_parts s = 2 ∧ length (gparts g) = 2%nat
    ∧ (∀ k p, gparts g !! k = Some p → p.1 = [] ∧ ∀ c, get_cur s c !! k = Some (Some p.2))
    ∧ length (gfree g) = 3%nat ∧ length (spares s) = 2%nat ∧ freed s = [].
Proof.
  apply (init_TSB_establishes (λ _, mkEntry None None 7 7 (mkResult RESULT_DONE 9) 7) 2 3). lia.
Defined.

End TSBInit.
