(* ===== verification/TsbSpec.v ===== *)
(** * Correctness of the transient skew buffer

    Properties of the operations of [src/src/backend/executor/tsb.c] against the
    lists they maintain: construction, appending, reading and advancing the
    heads, acknowledging, resetting, and permuting partitions. *)

From S2P Require Import Prelude Tsb TsbRep TsbInit.

Module TSBSpec.
Import TSBuf TSBRep TSBInit.
Local Open Scope Z_scope.

(** ** What a reader of a partition sees

    [from x l] are the items from location [x] on; [pending s g c k] those that
    cursor [c] of partition [k] has in front of it. *)
Fixpoint from (x : nat) (l : list (nat * item)) : list item :=
  match l with
  | [] => []
  | (y, d) :: l' => if decide (y = x) then d :: l'.*2 else from x l'
  end.

Definition contents (g : ghost) (k : nat) : option (list item) := (λ p : part, p.1.*2) <$> gparts g !! k.

Definition pending (s : TSB) (g : ghost) (c : cursor) (k : nat) : option (list item) :=
  match gparts g !! k, get_cur s c !! k with
  | Some p, Some (Some x) => Some (from x p.1)
  | _, _ => None
  end.

Lemma pending_eq s g c k (p : part) x :
  gparts g !! k = Some p → get_cur s c !! k = Some (Some x) → pending s g c k = Some (from x p.1).
Proof. unfold pending. by intros -> ->. Qed.

Lemma from_notin x l : x ∉ ids l → from x l = [].
Proof.
  unfold ids. induction l as [|[y d] l IH]; simpl; [done|]. rewrite not_elem_of_cons. intros [Hne Hx].
  rewrite decide_False by done. by apply IH.
Qed.

Lemma from_split x d l1 l2 : x ∉ ids l1 → from x (l1 ++ (x, d) :: l2) = d :: l2.*2.
Proof.
  unfold ids. induction l1 as [|[y d'] l IH]; simpl; [by rewrite decide_True|].
  rewrite not_elem_of_cons. intros [Hne Hx]. rewrite decide_False by done. by apply IH.
Qed.

Lemma from_snoc x t d l : x ∈ ids l ++ [t] → from x (l ++ [(t, d)]) = from x l ++ [d].
Proof.
  unfold ids. induction l as [|[y d'] l IH]; simpl.
  - intros ->%list_elem_of_singleton. by rewrite decide_True.
  - case_decide as Hy; [intros _; by rewrite fmap_app|]. intros [Hxy|Hin]%elem_of_cons; [by destruct Hy|]. by apply IH.
Qed.

(** Where a cursor stands splits the partition. *)
Lemma locate (l : list (nat * item)) t x : x ∈ locs (l, t) →
  ∃ pre rest, l = pre ++ rest ∧ x = first rest t ∧ x ∉ ids pre.
Proof.
  unfold locs, ids. simpl. induction l as [|[y d] l IH]; simpl.
  - intros ->%list_elem_of_singleton. exists [], []. split; [done|]. split; [done|]. apply not_elem_of_nil.
  - intros Hx. destruct (decide (x = y)) as [->|Hne].
    + exists [], ((y, d) :: l). split; [done|]. split; [done|]. apply not_elem_of_nil.
    + apply elem_of_cons in Hx as [?|Hx]; [done|]. destruct (IH Hx) as (pre & rest & -> & -> & Hn).
      exists ((y, d) :: pre), rest. split; [done|]. split; [done|]. simpl. by apply not_elem_of_cons.
Qed.

Lemma from_first pre rest t : NoDup (locs (pre ++ rest, t)) → from (first rest t) (pre ++ rest) = rest.*2.
Proof.
  unfold locs, ids. simpl. rewrite fmap_app. intros Hnd. destruct rest as [|[y d] rest]; simpl in *.
  - rewrite !app_nil_r in *. apply from_notin. apply NoDup_app in Hnd as (_ & Hd & _).
    intros Hin. apply (Hd t Hin). by left.
  - apply from_split. rewrite <- app_assoc in Hnd. apply NoDup_app in Hnd as (_ & Hd & _).
    intros Hin. apply (Hd y Hin). by left.
Qed.

(** Every cursor of a valid partition has a position. *)
Lemma inv_at s g c k p : inv s g → gparts g !! k = Some p →
  ∃ pre rest, p.1 = pre ++ rest ∧ at_cur s g k c pre rest p.2 ∧ pending s g c k = Some rest.*2.
Proof.
  intros (Hs & Hc & Hu) Hk. destruct (Hu c k p Hk) as (x & Hx & Hin). destruct p as [l t].
  destruct (locate l t x Hin) as (pre & rest & -> & -> & Hn). exists pre, rest. simpl.
  split; [done|]. split; [split; try done; by apply Hc in Hk|].
  rewrite (pending_eq s g c k _ _ Hk Hx). simpl.
  by rewrite from_first by (by apply (part_nodup s g [] Hs k)).
Qed.

(** ** Appending *)

(** A step on partition [k] that leaves the other partitions and all cursors. *)
Definition others_kept (s s' : TSB) (g g' : ghost) (k : nat) : Prop :=
  ∀ j, j ≠ k → contents g' j = contents g j ∧ ∀ c, pending s' g' c j = pending s g c j.

Lemma contents_insert fr L k p : (k < length L)%nat → contents (mkGhost fr (<[k:=p]> L)) k = Some p.1.*2.
Proof. intros. unfold contents. simpl. by rewrite list_lookup_insert_eq. Qed.

Lemma others_kept_insert s s' g g' k p :
  gparts g' = <[k:=p]> (gparts g) → (∀ c j, j ≠ k → get_cur s' c !! j = get_cur s c !! j) →
  others_kept s s' g g' k.
Proof.
  intros Hg Hc j Hj. unfold contents, pending. rewrite Hg, list_lookup_insert_ne by done.
  split; [done|]. intros c. by rewrite (Hc c j Hj), ?list_lookup_insert_ne by done.
Qed.

(** Filling the sentinel with a fresh entry behind it. *)
Lemma push_inv s g x e k l t fr r seq mask s1 :
  inv s g → gparts g !! k = Some (l, t) → shape s1 (mkGhost fr (gparts g)) [x] → same_lists s s1 →
  ents s1 !! x = Some e → is_fresh e → 0 <= mask →
  ∃ s2, push_entry s1 k (Some x) (fill_with r seq mask) = Ok s2
    ∧ let g2 := mkGhost fr (<[k := (l ++ [(t, (seq, mask, r))], x)]> (gparts g)) in
      inv s2 g2 ∧ (∀ c, get_cur s2 c = get_cur s c) ∧ freed s2 = freed s
    ∧ contents g2 k = Some (l.*2 ++ [(seq, mask, r)])
    ∧ (∀ c, pending s2 g2 c k = (λ q, q ++ [(seq, mask, r)]) <$> pending s g c k)
    ∧ others_kept s s2 g g2 k.
Proof.
  intros (Hs & Hc & Hu) Hk H1 (Ht & Hct & Hcu & _ & Hfr & _) He Hf Hm.
  assert (k < length (gparts g))%nat as Hlt by (by eapply lookup_lt_Some).
  destruct (push_entry_ok s1 _ [] x e k l t (Z.of_nat (length l)) r seq mask H1 Hk) as
    (s2 & E & H2 & C2 & U2 & F2 & _); [rewrite Hct; by apply Hc in Hk|done|done|done|].
  exists s2. split; [done|]. intros g2. simpl in H2. rewrite Hct in C2.
  assert (∀ c, get_cur s2 c = get_cur s c) as Hcur by (intros c; by rewrite U2).
  split; [split; [done|split]|split; [done|]].
  - intros j p. simpl. rewrite C2. destruct (decide (j = k)) as [->|Hj].
    + rewrite !list_lookup_insert_eq by (done || (eapply lookup_lt_Some; by apply (Hc k))).
      intros [= <-]. simpl. rewrite length_app. simpl. f_equal. lia.
    + rewrite !list_lookup_insert_ne by done. apply Hc.
  - intros c j p. rewrite Hcur. simpl. destruct (decide (j = k)) as [->|Hj].
    + rewrite list_lookup_insert_eq by done. intros [= <-].
      destruct (Hu c k _ Hk) as (y & Hy & Hin). exists y. split; [done|].
      unfold locs, ids in *. simpl in *. rewrite fmap_app. apply elem_of_app. by left.
    + rewrite list_lookup_insert_ne by done. apply Hu.
  - split; [congruence|]. split; [unfold g2; rewrite contents_insert by done; simpl; by rewrite fmap_app|]. split.
    + intros c. destruct (Hu c k _ Hk) as (y & Hy & Hin).
      rewrite (pending_eq s g c k _ y Hk Hy). simpl in *. rewrite <- (from_snoc y t) by done.
      apply (pending_eq s2 g2 c k (l ++ [(t, (seq, mask, r))], x) y); [|by rewrite Hcur].
      by apply list_lookup_insert_eq.
    + eapply others_kept_insert; [done|]. intros c j _. by rewrite Hcur.
Qed.

(** C19: [append_result_TSB] refuses exactly when the pool is empty and the
    partition's spare entry is used up, and then changes nothing.  Otherwise it
    answers true, keeps the invariant, adds the result with its number and mask
    at the end of its partition, and every cursor of the partition, wherever it
    stands, sees it behind what it saw before; other partitions are untouched. *)
Theorem append_result_TSB_fifo s g k p r seq mask :
  inv s g → gparts g !! k = Some p → 0 <= mask →
  if decide (has_room s g k) then
    ∃ s' g', append_result_TSB s r seq mask k = Ok (true, s') ∧ inv s' g'
      ∧ contents g' k = Some (p.1.*2 ++ [(seq, mask, r)])
      ∧ (∀ c, pending s' g' c k = (λ q, q ++ [(seq, mask, r)]) <$> pending s g c k)
      ∧ others_kept s s' g g' k ∧ freed s' = freed s
  else append_result_TSB s r seq mask k = Ok (false, s).
Proof.
  intros Hi Hk Hm. assert (k < length (gparts g))%nat as Hlt by (by eapply lookup_lt_Some).
  unfold append_result_TSB. destruct p as [l t]. case_decide as Hr.
  - destruct (alloc_w_last_Some s g [] k (proj1 Hi) Hlt Hr) as (x & s1 & fr & e & E & H1 & Hsm & He & Hf).
    destruct (push_inv s g x e k l t fr r seq mask s1 Hi Hk H1 Hsm He Hf Hm)
      as (s2 & E2 & Hi2 & Hcu & Hfr & Hct & Hpe & Hot).
    rewrite E. simpl. rewrite E2. simpl. eexists s2, _. exact (conj eq_refl (conj Hi2 (conj Hct (conj Hpe (conj Hot Hfr))))).
  - by rewrite (alloc_w_last_None s g [] k (proj1 Hi) Hlt Hr).
Qed.

(** [insert_marker_end_TSB] is refused exactly when the pool is empty (the
    spare entry is kept for results); otherwise the marker goes behind all
    entries of the partition with the punctuation number and the PRODUCED mark. *)
Theorem insert_marker_end_TSB_fifo s g k p r :
  inv s g → gparts g !! k = Some p →
  if decide (gfree g = []) then insert_marker_end_TSB s r k = Ok (false, s)
  else ∃ s' g', insert_marker_end_TSB s r k = Ok (true, s') ∧ inv s' g'
    ∧ contents g' k = Some (p.1.*2 ++ [(PUNCTUATION, TSB_PRODUCED, r)])
    ∧ (∀ c, pending s' g' c k = (λ q, q ++ [(PUNCTUATION, TSB_PRODUCED, r)]) <$> pending s g c k)
    ∧ others_kept s s' g g' k ∧ freed s' = freed s.
Proof.
  intros Hi Hk. unfold insert_marker_end_TSB. destruct p as [l t]. case_decide as Hr.
  - by rewrite (alloc_entry_None s g [] (proj1 Hi) Hr).
  - destruct (gfree g) as [|x fr] eqn:Hf0; [done|].
    destruct (alloc_entry_Some s g [] x fr (proj1 Hi) Hf0) as (s1 & e & E & H1 & Hsm & _ & He & Hf).
    destruct (push_inv s g x e k l t fr r PUNCTUATION TSB_PRODUCED s1 Hi Hk H1 Hsm He Hf ltac:(done))
      as (s2 & E2 & Hi2 & Hcu & Hfr & Hct & Hpe & Hot).
    rewrite E. simpl. rewrite E2. simpl. eexists s2, _. exact (conj eq_refl (conj Hi2 (conj Hct (conj Hpe (conj Hot Hfr))))).
Qed.

(** ** Reading *)

Lemma with_cur_inv s g c k p x :
  inv s g → gparts g !! k = Some p → x ∈ locs p →
  inv (with_cur s c (<[k := Some x]> (get_cur s c))) g.
Proof.
  intros (Hs & Hc & Hu) Hk Hx. split; [by apply shape_with_cur|]. split.
  - intros j q Hj. destruct (with_cur_fields s c (<[k:=Some x]> (get_cur s c))) as (_ & -> & _).
    by apply Hc.
  - intros c' j q Hj. rewrite get_with_cur. case_decide as E; [subst c'|by apply Hu].
    destruct (decide (j = k)) as [->|Hne].
    + destruct (Hu c k q Hj) as (y & Hy & _). exists x.
      rewrite list_lookup_insert_eq by (by eapply lookup_lt_Some). split; [done|congruence].
    + rewrite list_lookup_insert_ne by done. by apply Hu.
Qed.

Lemma pending_with_cur s g c k pre rest t :
  shape s g [] → gparts g !! k = Some (pre ++ rest, t) → (k < length (get_cur s c))%nat →
  let s' := with_cur s c (<[k := Some (first rest t)]> (get_cur s c)) in
  pending s' g c k = Some rest.*2
  ∧ (∀ c' j, (c', j) ≠ (c, k) → pending s' g c' j = pending s g c' j).
Proof.
  intros Hs Hk Hlt s'. split.
  - rewrite (pending_eq s' g c k _ (first rest t) Hk).
    + simpl. by rewrite from_first by (by apply (part_nodup s g [] Hs k)).
    + unfold s'. rewrite get_with_cur_eq. by apply list_lookup_insert_eq.
  - intros c' j Hne. unfold pending, s'. rewrite get_with_cur. case_decide as E; [subst c'|done].
    rewrite list_lookup_insert_ne; [done|congruence].
Qed.

(** Through its head cursor a replica reads its partition as a queue: on an
    empty rest [get_head_TSB_r] leaves the result alone and [advance_head_TSB]
    does nothing; otherwise the first pending result is returned, and advancing
    removes exactly it from what this head has pending and from nothing else. *)
Theorem head_TSB_fifo s g k p r mask c :
  inv s g → gparts g !! k = Some p → head_cursor mask = Some c →
  match pending s g c k with
  | Some [] => get_head_TSB_r s r k mask = Ok r ∧ advance_head_TSB s k mask = Ok s
  | Some (d :: ds) =>
      get_head_TSB_r s r k mask = Ok d.2
      ∧ (∀ sl, get_head_TSB s sl k mask = Ok (mkSlot (r_data d.2) false))
      ∧ ∃ s', advance_head_TSB s k mask = Ok s' ∧ inv s' g
          ∧ pending s' g c k = Some ds
          ∧ (∀ c' j, (c', j) ≠ (c, k) → pending s' g c' j = pending s g c' j)
  | None => False
  end.
Proof.
  intros Hi Hk Hm. destruct (inv_at s g c k p Hi Hk) as (pre & rest & Hp & [Hs Hpt Hct Hcu] & ->).
  unfold get_head_TSB_r, get_head_TSB, advance_head_TSB, part_empty, cell. rewrite Hm, Hcu. simpl.
  destruct rest as [|[x d] rest]; simpl in *.
  - destruct (chain_sentinel s g [] k _ _ Hs Hpt) as (e & He & Hd & _).
    rewrite He. simpl. by rewrite Hd.
  - destruct (chain_lookup s g [] k _ _ _ _ _ Hs Hpt) as (e & He & Hit & Hd & Hn).
    assert (dmask e <? 0 = false) as Hb by (apply Z.ltb_ge; lia).
    rewrite He. simpl. rewrite Hb. simpl. rewrite ?He. simpl. rewrite Hn.
    assert (rtup e = d.2) as -> by (by rewrite <- Hit). split; [done|]. split; [done|].
    assert ((pre ++ [(x, d)]) ++ rest = pre ++ (x, d) :: rest) as Happ by by rewrite <- app_assoc.
    eexists. split; [done|]. split.
    + apply (with_cur_inv s g c k p); [done|done|]. unfold locs, ids. rewrite Hp.
      rewrite fmap_app, fmap_cons. destruct rest as [|[y dy] rest]; simpl; rewrite !elem_of_app.
      * right. by left.
      * left. right. right. by left.
    + apply (pending_with_cur s g c k (pre ++ [(x, d)]) rest p.2); [done| |by eapply lookup_lt_Some].
      by rewrite Happ.
Qed.

(** ** Acknowledging *)

Lemma ack_cursor_nonneg mask c : ack_cursor mask = Some c → 0 <= mask.
Proof.
  unfold ack_cursor, TSB_PRODUCED, TSB_PRIMARY, TSB_SECONDARY.
  destruct (mask =? 1) eqn:E1; [lia|]. destruct (mask =? 2) eqn:E2; [lia|].
  destruct (mask =? 4) eqn:E4; [lia|done].
Qed.

(** A move of one cursor of one partition keeps the invariant when the other
    cursors of that partition do not stand on a removed entry. *)
Lemma moved_inv s s' g g' k c pre rest t n fr :
  inv s g → at_cur s' g' k c pre rest t → gparts g' = <[k := (pre ++ rest, t)]> (gparts g) →
  moved s s' k c n (first rest t) fr →
  (∀ c' x, c' ≠ c → get_cur s c' !! k = Some (Some x) → x ∈ locs (pre ++ rest, t)) → inv s' g'.
Proof.
  intros (Hs & Hc & Hu) [Hs' Hk' Hc' Hp'] Hg [M1 M2 M3 _ _] Hsurv. split; [done|].
  assert (∀ j, j ≠ k → gparts g' !! j = gparts g !! j) as Hoth.
  { intros j Hj. rewrite Hg. by rewrite list_lookup_insert_ne. }
  assert (first rest t ∈ locs (pre ++ rest, t)) as Hin.
  { unfold locs, ids. simpl. rewrite fmap_app, !elem_of_app. destruct rest as [|[y d] rest]; simpl.
    - right. by left.
    - left. right. by left. }
  split.
  - intros j p Hj. destruct (decide (j = k)) as [->|Hne]; [replace p with (pre ++ rest, t) by congruence; done|].
    rewrite Hoth in Hj by done. rewrite M1, list_lookup_insert_ne by done. by apply Hc.
  - intros c' j p Hj. destruct (decide (j = k)) as [->|Hne].
    + assert (p = (pre ++ rest, t)) as -> by congruence.
      destruct (decide (c' = c)) as [->|Hcc]; [by exists (first rest t)|].
      rewrite M3 by done. assert (is_Some (gparts g !! k)) as [q Hq].
      { apply lookup_lt_is_Some. erewrite <- (length_insert _ k). rewrite <- Hg. by eapply lookup_lt_Some. }
      destruct (Hu c' k q Hq) as (x & Hx & _). exists x. split; [done|]. by apply (Hsurv c').
    + rewrite Hoth in Hj by done. destruct (Hu c' j p Hj) as (x & Hx & Hxin). exists x. split; [|done].
      destruct (decide (c' = c)) as [->|Hcc]; [by rewrite M2, list_lookup_insert_ne|by rewrite M3].
Qed.

(** Appending the entry that the acknowledgement did not find. *)
Lemma put_ack_append s1 g1 k c l t sl seqno mask :
  inv s1 g1 → at_cur s1 g1 k c l [] t → ack_cursor mask = Some c →
  let d := (seqno, mask, mkResult RESULT_HEAPTUPLE (slot_val sl)) in
  let add :=
    let! (tentry, tsb2) := alloc_entry_w_last s1 k in
    match tentry with
    | None => Ok (false, tsb2, sl)
    | Some _ =>
        let! tsb3 := push_entry tsb2 k tentry (fill_with (mkResult RESULT_HEAPTUPLE (slot_val sl)) seqno mask) in
        let! cur' := cell (get_cur tsb3 c) k in
        let! e' := load tsb3 cur' in
        Ok (true, with_cur tsb3 c (<[k := next e']> (get_cur tsb3 c)), clear_slot sl)
    end in
  if decide (has_room s1 g1 k)
  then ∃ s2 g2, add = Ok (true, s2, clear_slot sl) ∧ inv s2 g2 ∧ contents g2 k = Some (l.*2 ++ [d])
         ∧ pending s2 g2 c k = Some []
         ∧ (∀ c', c' ≠ c → pending s2 g2 c' k = (λ q, q ++ [d]) <$> pending s1 g1 c' k)
         ∧ others_kept s1 s2 g1 g2 k ∧ freed s2 = freed s1 ∧ (∀ c', c' ≠ c → get_cur s2 c' = get_cur s1 c')
  else add = Ok (false, s1, sl).
Proof.
  intros Hi [Hs Hk Hct Hcu] Ha d add. unfold add. pose proof (ack_cursor_nonneg _ _ Ha) as Hm.
  rewrite app_nil_r in Hk. assert (k < length (gparts g1))%nat as Hlt by (by eapply lookup_lt_Some).
  case_decide as Hr; [|by rewrite (alloc_w_last_None s1 g1 [] k Hs Hlt Hr)].
  destruct (alloc_w_last_Some s1 g1 [] k Hs Hlt Hr) as (x & s2 & fr & e & E & H1 & Hsm & He & Hf).
  destruct (push_inv s1 g1 x e k l t fr (mkResult RESULT_HEAPTUPLE (slot_val sl)) seqno mask s2
              Hi Hk H1 Hsm He Hf Hm) as (s3 & E3 & Hi3 & Hcu3 & Hfr3 & Hct3 & Hpe3 & Ho3).
  rewrite E. simpl. rewrite E3. simpl. unfold cell. rewrite Hcu3, Hcu. simpl.
  set (g3 := mkGhost fr (<[k := _]> _)) in *.
  assert (gparts g3 !! k = Some (l ++ [(t, d)], x)) as Hk3 by (by apply list_lookup_insert_eq).
  destruct (chain_lookup s3 g3 [] k l t d [] x (proj1 Hi3) Hk3) as (e' & He' & _ & _ & Hn').
  rewrite He'. simpl. rewrite Hn', <- Hcu3. simpl.
  eexists _, g3. split; [done|].
  assert (k < length (get_cur s3 c))%nat as Hlc by (rewrite Hcu3; by eapply lookup_lt_Some).
  destruct (pending_with_cur s3 g3 c k (l ++ [(t, d)]) [] x (proj1 Hi3)) as [Hp1 Hp2];
    [by rewrite app_nil_r|done|].
  split; [|split; [done|split; [done|split; [|split; [|split]]]]].
  - apply (with_cur_inv s3 g3 c k _ x Hi3 Hk3). apply elem_of_app. right. by left.
  - intros c' Hc'. rewrite Hp2 by congruence. apply Hpe3.
  - intros j Hj. destruct (Ho3 j Hj) as [Hc1 Hc2]. split; [done|]. intros c'. rewrite Hp2 by congruence. apply Hc2.
  - destruct (with_cur_fields s3 c (<[k:=Some x]> (get_cur s3 c))) as (_ & _ & -> & _). exact Hfr3.
  - intros c' Hc'. rewrite get_with_cur, decide_False by done. apply Hcu3.
Qed.

(** C8: [put_ack_TSB] implements the acknowledgement [ack_scan] of the entries
    in front of its cursor: the loop ends, the passed entries are marked, those
    every party has acknowledged leave the partition and their tuples are freed,
    and the cursor stands before the first entry that was not passed.  If no
    entry had the number and the cursor reached the end, an entry for it is
    appended and passed (refused without room), which the other cursors of the
    partition see behind what they saw before.  No other cursor moves, and the
    other partitions keep their contents and what their cursors see.  This
    assumes what the code does not look at: that no other cursor of the partition
    stands on an entry that is removed, since it would be left dangling. *)
Theorem put_ack_TSB_spec s g k c pre rest t sl seqno mask fmask :
  inv s g → ack_cursor mask = Some c → gparts g !! k = Some (pre ++ rest, t) →
  get_cur s c !! k = Some (Some (first rest t)) →
  let r := ack_scan (shouldFree s) sl seqno mask fmask rest in
  let d := (seqno, mask, mkResult RESULT_HEAPTUPLE (slot_val (sc_slot r))) in
  (∀ c' x, c' ≠ c → get_cur s c' !! k = Some (Some x) →
     x ∈ locs (pre ++ sc_kept r ++ sc_rest r, t)) →
  ∃ s1 g1, inv s1 g1 ∧ gparts g1 = <[k := (pre ++ sc_kept r ++ sc_rest r, t)]> (gparts g)
    ∧ freed s1 = freed s ++ sc_freed r ∧ pending s1 g1 c k = Some (sc_rest r).*2
    ∧ others_kept s s1 g g1 k ∧ (∀ c', c' ≠ c → get_cur s1 c' = get_cur s c')
    ∧ match sc_rest r, sc_found r with
      | [], false =>
          if decide (has_room s1 g1 k) then
            ∃ s2 g2, put_ack_TSB s sl seqno k mask fmask = Ok (true, s2, clear_slot (sc_slot r))
              ∧ inv s2 g2 ∧ contents g2 k = Some ((pre ++ sc_kept r).*2 ++ [d])
              ∧ pending s2 g2 c k = Some []
              ∧ (∀ c', c' ≠ c → pending s2 g2 c' k = (λ q, q ++ [d]) <$> pending s1 g1 c' k)
              ∧ others_kept s1 s2 g1 g2 k ∧ freed s2 = freed s1 ∧ (∀ c', c' ≠ c → get_cur s2 c' = get_cur s1 c')
          else put_ack_TSB s sl seqno k mask fmask = Ok (false, s1, sc_slot r)
      | _, _ => put_ack_TSB s sl seqno k mask fmask = Ok (true, s1, sc_slot r)
      end.
Proof.
  intros Hi Ha Hk Hcu r d Hsurv. pose proof (ack_cursor_nonneg _ _ Ha) as Hm.
  assert (at_cur s g k c pre rest t) as Hat.
  { split; [apply Hi|done|by destruct Hi as (_ & Hc & _); apply Hc in Hk|done]. }
  pose proof (chain_fuel_enough s g [] k _ (proj1 Hi) Hk) as Hfu. simpl in Hfu. rewrite length_app in Hfu.
  destruct (ack_loop_ok rest s g k c pre t sl seqno mask fmask false (chain_fuel s) Hat Hm ltac:(lia))
    as (s1 & g1 & E1 & Hat1 & Hg1 & Hmv). fold r in E1, Hat1, Hg1, Hmv.
  assert (inv s1 g1) as Hi1.
  { rewrite app_assoc in Hg1. apply (moved_inv s s1 g g1 k c _ _ t _ _ Hi Hat1 Hg1 Hmv).
    by rewrite <- app_assoc. }
  exists s1, g1. split; [done|]. split; [done|]. split; [apply Hmv|].
  pose proof Hat1 as [Hs1 Hk1 Hc1 Hu1]. split.
  { rewrite (pending_eq s1 g1 c k _ _ Hk1 Hu1). simpl.
    by rewrite from_first by (by apply (part_nodup s1 g1 [] Hs1 k)). }
  split.
  { eapply others_kept_insert; [exact Hg1|]. intros c' j Hj. destruct (decide (c' = c)) as [->|Hc'].
    - by rewrite (mv_cur _ _ _ _ _ _ _ Hmv), list_lookup_insert_ne by done.
    - by rewrite (mv_others _ _ _ _ _ _ _ Hmv c' Hc'). }
  split; [apply Hmv|].
  unfold put_ack_TSB. rewrite Ha, E1. simpl. unfold cell. rewrite Hu1. simpl.
  destruct (sc_rest r) as [|[x d'] rs] eqn:Hrs; simpl.
  - destruct (chain_sentinel s1 g1 [] k _ t Hs1 Hk1) as (e & He & Hd & _). rewrite He. simpl.
    rewrite Hd. simpl. destruct (sc_found r) eqn:Hf; simpl; [done|].
    apply (put_ack_append s1 g1 k c _ t _ _ _ Hi1 Hat1 Ha).
  - destruct (chain_lookup s1 g1 [] k _ x d' rs t Hs1 Hk1) as (e & He & _ & Hd & _). rewrite He. simpl.
    by rewrite (proj2 (Z.ltb_ge (dmask e) 0)).
Qed.

(** ** Acknowledging everything *)

Definition mark (mask : Z) (d : item) : item := (d.1.1, Z.lor d.1.2 mask, d.2).

(** The entries that stay when all of [l] is acknowledged, and the tuples freed
    with the others. *)
Definition mark_all (mask fmask : Z) (l : list (nat * item)) : list (nat * item) :=
  omap (λ xd, if acked_by_all fmask (mark mask xd.2) then None else Some (xd.1, mark mask xd.2)) l.

Definition freed_all (sf : bool) (mask fmask : Z) (l : list (nat * item)) : list Z :=
  concat ((λ xd, if acked_by_all fmask (mark mask xd.2) then dropped sf (mark mask xd.2) else []) <$> l).

(** Without a slot an acknowledgement marks a prefix, which contains the first
    entry when it has the acknowledged number. *)
Lemma ack_scan_no_slot sf q mask fmask rest :
  ∃ l1 l2, rest = l1 ++ l2
    ∧ (let r := ack_scan sf None q mask fmask rest in
       sc_kept r = mark_all mask fmask l1 ∧ sc_rest r = l2 ∧ sc_slot r = None
       ∧ sc_freed r = freed_all sf mask fmask l1
       ∧ (∀ x d rest', rest = (x, d) :: rest' → d.1.1 = q → l1 ≠ [] ∧ sc_found r = true)).
Proof.
  induction rest as [|[x d] rest IH]; [by exists [], []|].
  destruct IH as (l1 & l2 & -> & Hk & Hr & Hs & Hf & _). simpl.
  destruct (d.1.1 <=? q) eqn:Hle.
  - exists ((x, d) :: l1), l2. split; [done|].
    assert (takes_slot None q d = false) as Ht by (unfold takes_slot; simpl; apply andb_false_r).
    assert (ack_item None q mask d = mark mask d) as -> by (unfold ack_item; by rewrite Ht).
    rewrite Ht. simpl.
    destruct (acked_by_all fmask (mark mask d)) eqn:Ha; simpl; unfold mark_all, freed_all in *;
      simpl; rewrite Ha, Hk, Hr, Hs, Hf; (split; [done|]; split; [done|]; split; [done|]; split; [done|]);
      intros ? ? ? [= -> -> ->] <-; split; [done|by rewrite Z.eqb_refl|done|by rewrite Z.eqb_refl].
  - exists [], ((x, d) :: l1 ++ l2). split; [done|]. split; [done|]. split; [done|].
    split; [done|]. split; [done|]. intros ? ? ? [= -> -> ->] <-. apply Z.leb_gt in Hle. lia.
Qed.

Lemma mark_all_app mask fmask l1 l2 :
  mark_all mask fmask (l1 ++ l2) = mark_all mask fmask l1 ++ mark_all mask fmask l2.
Proof. apply omap_app. Qed.

Lemma freed_all_app sf mask fmask l1 l2 :
  freed_all sf mask fmask (l1 ++ l2) = freed_all sf mask fmask l1 ++ freed_all sf mask fmask l2.
Proof. unfold freed_all. by rewrite fmap_app, concat_app. Qed.

(** Acknowledging the first unacknowledged number passes that entry and appends
    nothing. *)
Lemma put_ack_progress s g k c pre x d rest t mask fmask :
  at_cur s g k c pre ((x, d) :: rest) t → ack_cursor mask = Some c →
  ∃ s' g' l1 l2, put_ack_TSB s None d.1.1 k mask fmask = Ok (true, s', None)
    ∧ (x, d) :: rest = l1 ++ l2 ∧ l1 ≠ []
    ∧ at_cur s' g' k c (pre ++ mark_all mask fmask l1) l2 t
    ∧ gparts g' = <[k := (pre ++ mark_all mask fmask l1 ++ l2, t)]> (gparts g)
    ∧ moved s s' k c (Z.of_nat (length (pre ++ mark_all mask fmask l1 ++ l2))) (first l2 t)
        (freed_all (shouldFree s) mask fmask l1).
Proof.
  intros Hat Ha. pose proof (ack_cursor_nonneg _ _ Ha) as Hm.
  pose proof (chain_fuel_enough s g [] k _ (ac_shape _ _ _ _ _ _ _ Hat) (ac_part _ _ _ _ _ _ _ Hat)) as Hfu.
  simpl in Hfu. rewrite length_app in Hfu.
  destruct (ack_loop_ok _ s g k c pre t None d.1.1 mask fmask false (chain_fuel s) Hat Hm ltac:(lia))
    as (s1 & g1 & E1 & Hat1 & Hg1 & Hmv).
  destruct (ack_scan_no_slot (shouldFree s) d.1.1 mask fmask ((x, d) :: rest))
    as (l1 & l2 & Heq & Hk & Hr & Hs & Hf & Hfirst).
  destruct (Hfirst x d rest eq_refl eq_refl) as [Hne Hfound].
  rewrite Hk, Hr in Hat1. rewrite Hk, Hr in Hg1. rewrite Hk, Hr, Hf in Hmv. rewrite Hs, Hfound in E1.
  exists s1, g1, l1, l2. split; [|exact (conj Heq (conj Hne (conj Hat1 (conj Hg1 Hmv))))].
  unfold put_ack_TSB. rewrite Ha, E1. simpl. unfold cell. rewrite (ac_cur _ _ _ _ _ _ _ Hat1). simpl.
  assert (is_Some (ents s1 !! first l2 t)) as [e He].
  { destruct l2 as [|[y d'] l2].
    - destruct (chain_sentinel s1 g1 [] k _ _ (ac_shape _ _ _ _ _ _ _ Hat1) (ac_part _ _ _ _ _ _ _ Hat1))
        as (e & He & _). by exists e.
    - destruct (chain_lookup s1 g1 [] k _ _ _ _ _ (ac_shape _ _ _ _ _ _ _ Hat1) (ac_part _ _ _ _ _ _ _ Hat1))
        as (e & He & _). by exists e. }
  rewrite He. simpl. by rewrite andb_false_r.
Qed.

Lemma unack_seqno s g k c pre rest t mask :
  at_cur s g k c pre rest t → ack_cursor mask = Some c →
  get_unack_seqno_TSB s k mask = Ok (match rest with [] => -1 | (_, d) :: _ => d.1.1 end).
Proof.
  intros [Hs Hk Hct Hcu] Ha. unfold get_unack_seqno_TSB, cell. rewrite Ha, Hcu. simpl.
  destruct rest as [|[x d] rest].
  - destruct (chain_sentinel s g [] k _ _ Hs Hk) as (e & He & Hd & _). simpl. rewrite He. simpl.
    by rewrite Hd.
  - destruct (chain_lookup s g [] k _ _ _ _ _ Hs Hk) as (e & He & <- & Hd & _). simpl. rewrite He. simpl.
    by rewrite (proj2 (Z.ltb_ge (dmask e) 0)).
Qed.

Lemma ack_all_loop_ok fuel s g k c pre rest t mask fmask :
  at_cur s g k c pre rest t → ack_cursor mask = Some c → Forall (λ xd, xd.2.1.1 ≠ -1) rest →
  (length rest <= fuel)%nat →
  ∃ s' g', ack_all_loop fuel s (match rest with [] => -1 | (_, d) :: _ => d.1.1 end) k mask fmask = Ok s'
    ∧ at_cur s' g' k c (pre ++ mark_all mask fmask rest) [] t
    ∧ gparts g' = <[k := (pre ++ mark_all mask fmask rest, t)]> (gparts g)
    ∧ moved s s' k c (Z.of_nat (length (pre ++ mark_all mask fmask rest))) t
        (freed_all (shouldFree s) mask fmask rest).
Proof.
  revert s g pre rest. induction fuel as [|fuel IH]; intros s g pre rest Hat Ha Hq Hfu;
    (destruct rest as [|[x d] rest];
      [exists s, g; pose proof (moved_refl _ _ _ _ _ _ _ Hat) as Hmv; simpl in *; rewrite !app_nil_r in *;
       split; [done|]; split; [done|]; split; [|done];
       rewrite list_insert_id; [done|]; rewrite (ac_part _ _ _ _ _ _ _ Hat), app_nil_r; done|]);
    [simpl in Hfu; lia|].
  destruct (put_ack_progress _ _ _ _ _ _ _ _ _ mask fmask Hat Ha)
    as (s1 & g1 & l1 & l2 & E1 & Heq & Hne & Hat1 & Hg1 & Hmv1).
  rewrite Heq in Hq. apply Forall_app in Hq as [Hq1 Hq2].
  assert (length l2 <= fuel)%nat as Hlen.
  { assert (length ((x, d) :: rest) = length (l1 ++ l2)) as Hl by (by rewrite Heq).
    rewrite length_app in Hl. simpl in Hl, Hfu. destruct l1; [done|]. simpl in Hl. lia. }
  destruct (IH s1 g1 _ l2 Hat1 Ha Hq2 Hlen) as (s2 & g2 & E2 & Hat2 & Hg2 & Hmv2).
  rewrite <- app_assoc, <- mark_all_app, <- Heq in Hat2, Hg2, Hmv2.
  pose proof (moved_trans _ _ _ _ _ _ _ _ _ _ _ Hmv1 Hmv2) as Hmv.
  rewrite (mv_sf _ _ _ _ _ _ _ Hmv1), <- freed_all_app, <- Heq in Hmv.
  exists s2, g2. split; [|split; [done|split; [|done]]].
  - simpl. destruct (d.1.1 =? -1) eqn:Hd.
    + apply Z.eqb_eq in Hd. destruct l1 as [|y l1]; [done|]. injection Heq as <- ->.
      apply Forall_cons in Hq1 as [Hq1 _]. done.
    + rewrite E1. simpl. by rewrite (unack_seqno _ _ _ _ _ _ _ _ Hat1 Ha).
  - by rewrite Hg2, Hg1, list_insert_insert_eq.
Qed.

(** C32: When no pending entry carries the reserved number -1, [ack_all_TSB] ends
    for any partition: it acknowledges every entry from its cursor on, those
    that all parties now have leave the partition and their tuples are freed,
    the rest stay in order with the mark added, and both the ack cursor and the
    head of that replica end up at the sentinel (also when the head stood on an
    entry that was removed). *)
Theorem ack_all_TSB_spec s g k pre rest t mask fmask c h :
  at_cur s g k c pre rest t → ack_cursor mask = Some c → head_cursor mask = Some h →
  is_Some (get_cur s h !! k) → Forall (λ xd, xd.2.1.1 ≠ -1) rest →
  ∃ s' g', ack_all_TSB s k mask fmask = Ok s' ∧ shape s' g' []
    ∧ gparts g' = <[k := (pre ++ mark_all mask fmask rest, t)]> (gparts g)
    ∧ counts s' !! k = Some (Z.of_nat (length (pre ++ mark_all mask fmask rest)))
    ∧ get_cur s' c !! k = Some (Some t) ∧ get_cur s' h !! k = Some (Some t)
    ∧ freed s' = freed s ++ freed_all (shouldFree s) mask fmask rest.
Proof.
  intros Hat Ha Hh Hhk Hq. unfold ack_all_TSB. rewrite (unack_seqno _ _ _ _ _ _ _ _ Hat Ha). cbn [cbind].
  pose proof (chain_fuel_enough s g [] k _ (ac_shape _ _ _ _ _ _ _ Hat) (ac_part _ _ _ _ _ _ _ Hat)) as Hfu.
  simpl in Hfu. rewrite length_app in Hfu.
  destruct (ack_all_loop_ok (chain_fuel s) s g k c pre rest t mask fmask Hat Ha Hq ltac:(lia))
    as (s1 & g1 & E1 & Hat1 & Hg1 & Hmv). rewrite E1. simpl.
  assert (reset_head_TSB s1 k mask = copy_cur s1 k h c ∧ c ≠ h) as [-> Hch].
  { revert Ha Hh. unfold ack_cursor, head_cursor, reset_head_TSB, TSB_PRODUCED, TSB_PRIMARY, TSB_SECONDARY.
    destruct (mask =? 1) eqn:H1; [apply Z.eqb_eq in H1 as ->; done|].
    destruct (mask =? 2); [by intros [= <-] [= <-]|]. destruct (mask =? 4); [by intros [= <-] [= <-]|done]. }
  destruct Hat1 as [Hs1 Hk1 Hc1 Hu1]. rewrite app_nil_r in Hk1, Hc1.
  rewrite <- (mv_others _ _ _ _ _ _ _ Hmv h (not_eq_sym Hch)) in Hhk. destruct Hhk as [y Hy].
  unfold copy_cur, cell. rewrite Hu1, Hy. simpl.
  destruct (with_cur_fields s1 h (<[k:=Some t]> (get_cur s1 h))) as (_ & Fc & Ff & _).
  eexists _, g1. split; [done|]. split; [by apply shape_with_cur|]. split; [done|].
  rewrite Fc, Ff, get_with_cur_eq, get_with_cur, decide_False by done.
  split; [done|]. split; [done|]. split; [|apply Hmv].
  apply list_lookup_insert_eq. by eapply lookup_lt_Some.
Qed.

(** ** Resetting a failed replica *)

Definition unmark (mask : Z) (d : item) : item := (d.1.1, Z.land d.1.2 (Z.lnot mask), d.2).
Definition unmark_all (mask : Z) (l : list (nat * item)) : list (nat * item) :=
  (λ xd, (xd.1, unmark mask xd.2)) <$> l.

Lemma unmark_loop_ok rest fuel s g k pre t mask :
  shape s g [] → gparts g !! k = Some (pre ++ rest, t) → (length rest < fuel)%nat →
  ∃ s' h, unmark_loop fuel s (Some (first rest t)) mask = Ok s' ∧ s' = with_ents s h
    ∧ shape s' (set_part g k (pre ++ unmark_all mask rest, t)) [].
Proof.
  revert s g pre fuel. induction rest as [|[x d] rest IH]; intros s g pre fuel Hs Hk Hfu;
    (destruct fuel as [|fuel]; [simpl in Hfu; lia|]); simpl.
  - destruct (chain_sentinel s g [] k _ _ Hs Hk) as (e & He & Hd & _). rewrite He. simpl. rewrite Hd. simpl.
    exists s, (ents s). split; [done|]. split; [by destruct s|]. unfold set_part.
    rewrite list_insert_id by done. by destruct g.
  - destruct (chain_lookup s g [] k _ _ _ _ _ Hs Hk) as (e & He & Hi & Hd & Hn). rewrite He. simpl.
    rewrite (proj2 (Z.eqb_neq (dmask e) (-1))) by lia. simpl. rewrite ?He. simpl. rewrite Hn. simpl.
    set (e' := with_dmask e (Z.land (dmask e) (Z.lnot mask))).
    assert (0 <= dmask e') as Hd' by (apply Z.land_nonneg; by left).
    pose proof (set_item_ok s g [] k pre x d rest t e e' Hs Hk He eq_refl eq_refl Hd') as Hs1.
    assert (item_of e' = unmark mask d) as Hit by (by rewrite <- Hi).
    rewrite Hit in Hs1. simpl in Hfu.
    assert ((pre ++ [(x, unmark mask d)]) ++ rest = pre ++ (x, unmark mask d) :: rest) as Happ
      by by rewrite <- app_assoc.
    destruct (IH _ _ (pre ++ [(x, unmark mask d)]) fuel Hs1) as (s' & h & E & -> & Hs'); [|lia|].
    + simpl. rewrite Happ. apply list_lookup_insert_eq. by eapply lookup_lt_Some.
    + eexists _, h. split; [exact E|]. split; [done|].
      unfold set_part in Hs'. simpl in Hs'. rewrite list_insert_insert_eq, <- app_assoc in Hs'. done.
Qed.

(** Which cursors a reset touches: the replica's own ack and head, and the ack
    cursor of the other replica. *)
Definition reset_of (mask : Z) : option (cursor * cursor * cursor) :=
  if mask =? TSB_PRIMARY then Some (PrimAck, PHead, SecAck)
  else if mask =? TSB_SECONDARY then Some (SecAck, SHead, PrimAck)
  else None.

Lemma ids_unmark mask l : ids (unmark_all mask l) = ids l.
Proof. unfold ids, unmark_all. by rewrite <- list_fmap_compose. Qed.

Lemma length_unmark mask l : length (unmark_all mask l) = length l.
Proof. apply length_fmap. Qed.

Lemma first_unmark mask l t : first (unmark_all mask l) t = first l t.
Proof. by destruct l. Qed.

Lemma get_cur_with_ents s h c : get_cur (with_ents s h) c = get_cur s c.
Proof. by destruct c. Qed.

(** Unmarking keeps every location, hence counts and cursors. *)
Lemma unmark_inv s h g k pre rest t mask :
  inv s g → gparts g !! k = Some (pre ++ rest, t) →
  shape (with_ents s h) (set_part g k (pre ++ unmark_all mask rest, t)) [] →
  inv (with_ents s h) (set_part g k (pre ++ unmark_all mask rest, t)).
Proof.
  intros (Hs & Hc & Hu) Hk Hsh. assert (k < length (gparts g))%nat as Hlt by (by eapply lookup_lt_Some).
  split; [done|]. split.
  - intros j p. simpl. destruct (decide (j = k)) as [->|Hne].
    + rewrite list_lookup_insert_eq by done. intros [= <-]. simpl.
      rewrite (Hc k _ Hk). simpl. by rewrite !length_app, length_unmark.
    + rewrite list_lookup_insert_ne by done. apply Hc.
  - intros c j p. simpl. destruct (decide (j = k)) as [->|Hne].
    + rewrite list_lookup_insert_eq by done. intros [= <-].
      destruct (Hu c k _ Hk) as (x & Hx & Hin). exists x. split; [by destruct c|].
      unfold locs, ids in *. simpl in *. rewrite fmap_app in *.
      change ((unmark_all mask rest).*1) with (ids (unmark_all mask rest)). by rewrite ids_unmark.
    + rewrite list_lookup_insert_ne by done. rewrite get_cur_with_ents. apply Hu.
Qed.

Lemma reset_steps s k mask ack hd other :
  reset_of mask = Some (ack, hd, other) →
  ack ≠ hd ∧ reset_cursors_TSB s k mask =
    (let! s1 := copy_cur s k ack other in
     let! entry := cell (get_cur s1 ack) k in
     let! s2 := unmark_loop (chain_fuel s1) s1 entry mask in
     copy_cur s2 k hd ack).
Proof.
  unfold reset_of. destruct (mask =? TSB_PRIMARY) eqn:E1; [apply Z.eqb_eq in E1|].
  - by intros [= <- <- <-]; subst mask.
  - destruct (mask =? TSB_SECONDARY) eqn:E2; [apply Z.eqb_eq in E2|done].
    by intros [= <- <- <-]; subst mask.
Qed.

Lemma copy_cur_ok s k dst src x y :
  get_cur s src !! k = Some x → get_cur s dst !! k = Some y →
  copy_cur s k dst src = Ok (with_cur s dst (<[k := x]> (get_cur s dst))).
Proof. intros Hx Hy. unfold copy_cur, cell. rewrite Hx. simpl. by rewrite Hy. Qed.

Lemma first_in_locs pre rest t : first rest t ∈ locs (pre ++ rest, t).
Proof.
  unfold locs, ids. simpl. rewrite fmap_app, !elem_of_app. destruct rest as [|[y d] rest]; simpl.
  - right. by left.
  - left. right. by left.
Qed.

(** C22: [reset_cursors_TSB] prepares a replica to be fed again from where the
    other one is: its ack cursor and its head both move to the other replica's
    ack cursor, its mark is taken off every entry from there on, no entry is
    lost, and the invariant is kept. *)
Theorem reset_cursors_TSB_spec s g k pre rest t mask ack hd other :
  inv s g → reset_of mask = Some (ack, hd, other) → gparts g !! k = Some (pre ++ rest, t) →
  get_cur s other !! k = Some (Some (first rest t)) →
  ∃ s' g', reset_cursors_TSB s k mask = Ok s' ∧ inv s' g'
    ∧ gparts g' = <[k := (pre ++ unmark_all mask rest, t)]> (gparts g)
    ∧ pending s' g' ack k = Some (unmark_all mask rest).*2
    ∧ pending s' g' hd k = Some (unmark_all mask rest).*2.
Proof.
  intros Hi Hm Hk Hcu. destruct (reset_steps s k mask ack hd other Hm) as [Hne ->].
  destruct (proj2 (proj2 Hi) ack k _ Hk) as (xa & Hxa & _).
  rewrite (copy_cur_ok s k ack other _ _ Hcu Hxa). cbn [cbind].
  set (s1 := with_cur s ack (<[k := Some (first rest t)]> (get_cur s ack))).
  assert (inv s1 g) as Hi1 by (apply (with_cur_inv s g ack k _ _ Hi Hk), first_in_locs).
  assert (get_cur s1 ack !! k = Some (Some (first rest t))) as Ha1.
  { unfold s1. rewrite get_with_cur_eq. apply list_lookup_insert_eq. by eapply lookup_lt_Some. }
  unfold cell. rewrite Ha1. cbn [access cbind].
  pose proof (chain_fuel_enough s1 g [] k _ (proj1 Hi1) Hk) as Hfu. simpl in Hfu. rewrite length_app in Hfu.
  destruct (unmark_loop_ok rest (chain_fuel s1) s1 g k pre t mask (proj1 Hi1) Hk ltac:(lia))
    as (s2' & h & E2 & Hs2' & Hs2). rewrite E2. cbn [cbind]. subst s2'.
  pose proof (unmark_inv s1 h g k pre rest t mask Hi1 Hk Hs2) as Hi2.
  set (g2 := set_part g k (pre ++ unmark_all mask rest, t)) in *. set (s2 := with_ents s1 h) in *.
  assert (gparts g2 !! k = Some (pre ++ unmark_all mask rest, t)) as Hk2.
  { apply list_lookup_insert_eq. by eapply lookup_lt_Some. }
  destruct (proj2 (proj2 Hi2) hd k _ Hk2) as (xh & Hxh & _).
  assert (get_cur s2 ack !! k = Some (Some (first (unmark_all mask rest) t))) as Ha2.
  { unfold s2. by rewrite get_cur_with_ents, first_unmark. }
  rewrite (copy_cur_ok s2 k hd ack _ _ Ha2 Hxh). eexists _, g2. split; [done|].
  destruct (pending_with_cur s2 g2 hd k pre (unmark_all mask rest) t (proj1 Hi2) Hk2) as [Hp1 Hp2];
    [by eapply lookup_lt_Some|].
  split; [apply (with_cur_inv s2 g2 hd k _ _ Hi2 Hk2), first_in_locs|].
  split; [done|]. split; [|done].
  rewrite Hp2 by congruence. rewrite (pending_eq s2 g2 ack k _ _ Hk2 Ha2). simpl.
  by rewrite from_first by (by apply (part_nodup s2 g2 [] (proj1 Hi2) k)).
Qed.

(** ** A buffer to try the theorems on: one partition with room for two
    results, one of which (number 5, produced) was appended. *)
Definition demo_result : result := mkResult RESULT_HEAPTUPLE 77.
Definition demo_item : item := (5, TSB_PRODUCED, demo_result).

Lemma demo_buffer : ∃ s g x t,
  inv s g ∧ gparts g !! 0%nat = Some ([(x, demo_item)], t) ∧ gfree g ≠ []
  ∧ (∀ c, get_cur s c !! 0%nat = Some (Some x)).
Proof.
  destruct (init_ok (λ _, mkEntry None None 0 0 demo_result 0) 1 2 ltac:(lia)) as (s & g & _ & Hf).
  pose proof (filled_inv _ _ _ _ Hf) as Hi. destruct Hf as [_ Hf Hp Ht Hc _ _ _ _ _].
  destruct (alloc_entry_Some s g [] 1%nat [0%nat] (proj1 Hi) Hf) as (s1 & e & _ & H1 & Hsm & _ & He & Hfr).
  assert (gparts g !! 0%nat = Some ([], 2%nat)) as Hk by (by rewrite Hp).
  destruct (push_inv s g 1%nat e 0 [] 2%nat [0%nat] demo_result 5 TSB_PRODUCED s1 Hi Hk H1 Hsm He Hfr ltac:(done))
    as (s2 & _ & Hi2 & Hcu & _ & _ & _ & _).
  eexists s2, _, 2%nat, 1%nat. split; [exact Hi2|]. split; [by rewrite Hp|]. split; [done|].
  intros c. by rewrite Hcu, Hc, Ht.
Qed.

Lemma append_result_TSB_fifo_witness : ∃ s g, inv s g ∧ ∃ s' g',
  append_result_TSB s demo_result 6 TSB_PRODUCED 0 = Ok (true, s') ∧ inv s' g'
  ∧ contents g' 0 = Some [demo_item; (6, TSB_PRODUCED, demo_result)].
Proof.
  destruct demo_buffer as (s & g & x & t & Hi & Hk & Hf & Hc). exists s, g. split; [done|].
  pose proof (append_result_TSB_fifo s g 0 _ demo_result 6 TSB_PRODUCED Hi Hk ltac:(done)) as H.
  rewrite decide_True in H by (by left). destruct H as (s' & g' & H1 & H2 & H3 & _).
  by exists s', g'.
Defined.

Lemma insert_marker_end_TSB_fifo_witness : ∃ s g, inv s g ∧ ∃ s' g',
  insert_marker_end_TSB s demo_result 0 = Ok (true, s') ∧ inv s' g'
  ∧ contents g' 0 = Some [demo_item; (PUNCTUATION, TSB_PRODUCED, demo_result)].
Proof.
  destruct demo_buffer as (s & g & x & t & Hi & Hk & Hf & Hc). exists s, g. split; [done|].
  pose proof (insert_marker_end_TSB_fifo s g 0 _ demo_result Hi Hk) as H.
  rewrite decide_False in H by done. destruct H as (s' & g' & H1 & H2 & H3 & _).
  by exists s', g'.
Defined.

Lemma head_TSB_fifo_witness : ∃ s g, inv s g ∧
  get_head_TSB_r s (mkResult RESULT_DONE 0) 0 TSB_PRIMARY = Ok demo_result
  ∧ ∃ s', advance_head_TSB s 0 TSB_PRIMARY = Ok s' ∧ inv s' g ∧ pending s' g PHead 0 = Some [].
Proof.
  destruct demo_buffer as (s & g & x & t & Hi & Hk & Hf & Hc). exists s, g. split; [done|].
  pose proof (head_TSB_fifo s g 0 _ (mkResult RESULT_DONE 0) TSB_PRIMARY PHead Hi Hk eq_refl) as H.
  rewrite (pending_eq s g PHead 0 _ x Hk (Hc PHead)) in H. simpl in H. rewrite decide_True in H by done.
  destruct H as (H1 & _ & s' & H2 & H3 & H4 & _). split; [done|]. by exists s'.
Defined.

Lemma put_ack_TSB_spec_witness : ∃ s g, inv s g ∧ ∃ s1 g1,
  put_ack_TSB s None 5 0 TSB_PRIMARY 7 = Ok (true, s1, None) ∧ inv s1 g1
  ∧ contents g1 0 = Some [(5, 3, demo_result)] ∧ pending s1 g1 PrimAck 0 = Some [].
Proof.
  destruct demo_buffer as (s & g & x & t & Hi & Hk & Hf & Hc). exists s, g. split; [done|].
  destruct (put_ack_TSB_spec s g 0 PrimAck [] [(x, demo_item)] t None 5 TSB_PRIMARY 7 Hi eq_refl Hk (Hc _))
    as (s1 & g1 & H1 & H2 & H3 & H4 & _ & _ & H5).
  - intros c' y _ Hy. rewrite Hc in Hy. injection Hy as <-. by left.
  - exists s1, g1. split; [exact H5|]. split; [done|]. split; [|exact H4].
    unfold contents. rewrite H2, list_lookup_insert_eq; [done|]. by eapply lookup_lt_Some.
Defined.

Lemma ack_all_TSB_spec_witness : ∃ s g, inv s g ∧ ∃ s' g',
  ack_all_TSB s 0 TSB_PRIMARY 3 = Ok s' ∧ shape s' g' [] ∧ counts s' !! 0%nat = Some 0
  ∧ freed s' = freed s ++ freed_all (shouldFree s) TSB_PRIMARY 3 [(0%nat, demo_item)].
Proof.
  destruct demo_buffer as (s & g & x & t & Hi & Hk & Hf & Hc). exists s, g. split; [done|].
  destruct (ack_all_TSB_spec s g 0 [] [(x, demo_item)] t TSB_PRIMARY 3 PrimAck PHead)
    as (s' & g' & H1 & H2 & H3 & H4 & _ & _ & H7).
  - destruct Hi as (? & Hct & _). split; [done|done|by apply Hct in Hk|apply Hc].
  - reflexivity.
  - reflexivity.
  - by rewrite Hc.
  - by repeat constructor.
  - by exists s', g'.
Defined.

Lemma reset_cursors_TSB_spec_witness : ∃ s g, inv s g ∧ ∃ s' g',
  reset_cursors_TSB s 0 TSB_SECONDARY = Ok s' ∧ inv s' g' ∧ pending s' g' SHead 0 = Some [demo_item].
Proof.
  destruct demo_buffer as (s & g & x & t & Hi & Hk & Hf & Hc). exists s, g. split; [done|].
  destruct (reset_cursors_TSB_spec s g 0 [] [(x, demo_item)] t TSB_SECONDARY SecAck SHead PrimAck Hi
              eq_refl Hk (Hc _)) as (s' & g' & H1 & H2 & _ & _ & H5).
  by exists s', g'.
Defined.

End TSBSpec.
