(* ===== verification/TsbPerm.v ===== *)
(** * Permuting the partitions of a skew buffer

    [permute_tsb_parts] of [src/src/backend/executor/tsb.c] reorders the
    partitions in place by following the cycles of the permutation, swapping
    two partitions at a time and tracking where each came from.  The theorem
    says that it ends and puts every partition where the permutation sends it. *)

From S2P Require Import Prelude Tsb.

Module TSBPerm.
Import TSBuf.

(** Everything the buffer keeps for one partition. *)
Record row : Type := mkRow {
  row_count : option Z;
  row_tail : option (option nat);
  row_prod : option (option nat);
  row_prim : option (option nat);
  row_sec : option (option nat);
  row_phead : option (option nat);
  row_shead : option (option nat);
  row_spare : option (option nat)
}.

Definition row_of (s : TSB) (k : nat) : row :=
  mkRow (counts s !! k) (table s !! k) (prod_ack s !! k) (prim_ack s !! k) (sec_ack s !! k)
    (p_head s !! k) (s_head s !! k) (last_ents s !! k).

(** Every per-partition array has [n] cells. *)
Definition arrays (s : TSB) (n : nat) : Prop :=
  length (counts s) = n ∧ length (table s) = n ∧ length (prod_ack s) = n
  ∧ length (prim_ack s) = n ∧ length (sec_ack s) = n ∧ length (p_head s) = n
  ∧ length (s_head s) = n ∧ length (last_ents s) = n.

(** What does not belong to a partition. *)
Definition globals (s : TSB) :=
  (max_size s, size s, num_parts s, f_head s, f_tail s, shouldFree s, ents s, freed s).

Lemma swap_cells_Ok {A} (l : list A) a b n :
  length l = n → a < n → b < n →
  ∃ l', swap_cells l a b = Ok l' ∧ length l' = n
    ∧ ∀ k, l' !! k = if decide (k = b) then l !! a else if decide (k = a) then l !! b else l !! k.
Proof.
  intros Hl Ha Hb. subst n. unfold swap_cells, cell.
  destruct (lookup_lt_is_Some_2 l a Ha) as [x Hx]. destruct (lookup_lt_is_Some_2 l b Hb) as [y Hy].
  rewrite Hx, Hy. simpl. eexists. split; [done|]. split; [by rewrite !length_insert|].
  intros k. destruct (decide (k = b)) as [->|Hkb].
  - apply list_lookup_insert_eq. by rewrite length_insert.
  - rewrite list_lookup_insert_ne by done. destruct (decide (k = a)) as [->|Hka].
    + by apply list_lookup_insert_eq.
    + by apply list_lookup_insert_ne.
Qed.

Lemma swap_part_Ok s a b n :
  arrays s n → a < n → b < n →
  ∃ s', swap_tsb_part s a b = Ok s' ∧ arrays s' n ∧ globals s' = globals s
    ∧ ∀ k, row_of s' k = if decide (k = b) then row_of s a
                         else if decide (k = a) then row_of s b else row_of s k.
Proof.
  intros (L1 & L2 & L3 & L4 & L5 & L6 & L7 & L8) Ha Hb.
  destruct (swap_cells_Ok _ a b n L1 Ha Hb) as (l1 & E1 & N1 & F1).
  destruct (swap_cells_Ok _ a b n L2 Ha Hb) as (l2 & E2 & N2 & F2).
  destruct (swap_cells_Ok _ a b n L3 Ha Hb) as (l3 & E3 & N3 & F3).
  destruct (swap_cells_Ok _ a b n L4 Ha Hb) as (l4 & E4 & N4 & F4).
  destruct (swap_cells_Ok _ a b n L5 Ha Hb) as (l5 & E5 & N5 & F5).
  destruct (swap_cells_Ok _ a b n L6 Ha Hb) as (l6 & E6 & N6 & F6).
  destruct (swap_cells_Ok _ a b n L7 Ha Hb) as (l7 & E7 & N7 & F7).
  destruct (swap_cells_Ok _ a b n L8 Ha Hb) as (l8 & E8 & N8 & F8).
  unfold swap_tsb_part. rewrite E1. simpl. rewrite E2. simpl. rewrite E3. simpl. rewrite E4. simpl.
  rewrite E5. simpl. rewrite E6. simpl. rewrite E7. simpl. rewrite E8. simpl.
  eexists. split; [done|]. split; [done|]. split; [done|]. intros k. unfold row_of. simpl.
  rewrite F1, F2, F3, F4, F5, F6, F7, F8. by repeat case_decide.
Qed.

Section cycle.
Context (s0 : TSB) (n : nat) (perm_map : list nat).
Context (Hperm : perm_map ≡ₚ seq 0 n).

(** [cur !! k] is the original index of the partition now at [k]. *)
Record tracks (s : TSB) (cur : list nat) : Prop := {
  tr_arrays : arrays s n;
  tr_globals : globals s = globals s0;
  tr_cur : cur ≡ₚ seq 0 n;
  tr_row : ∀ k c, cur !! k = Some c → row_of s k = row_of s0 c
}.

(** Position [k] does not hold what the permutation sends there. *)
Definition misplaced (cur : list nat) (k : nat) : Prop := cur !! k ≫= (λ c, perm_map !! c) ≠ Some k.
#[local] Instance misplaced_dec cur k : Decision (misplaced cur k).
Proof. unfold misplaced. solve_decision. Defined.

Definition wrong (cur : list nat) : gset nat := filter (misplaced cur) (set_seq 0 n).

Lemma seq_index l i x : l ≡ₚ seq 0 n → l !! i = Some x → x < n ∧ i < n.
Proof.
  intros Hl Hi. assert (length l = n) as Hlen by (rewrite Hl; apply length_seq).
  split; [|rewrite <- Hlen; by eapply lookup_lt_Some].
  apply list_elem_of_lookup_2 in Hi. rewrite Hl in Hi. apply elem_of_seq in Hi. lia.
Qed.

Lemma seq_total l i : l ≡ₚ seq 0 n → i < n → is_Some (l !! i).
Proof. intros Hl Hi. apply lookup_lt_is_Some. rewrite Hl, length_seq. done. Qed.

Lemma seq_inj l i j x : l ≡ₚ seq 0 n → l !! i = Some x → l !! j = Some x → i = j.
Proof. intros Hl. apply NoDup_lookup. rewrite Hl. apply NoDup_seq. Qed.

Lemma swap_perm (cur cur' : list nat) a b :
  a < length cur → b < length cur → length cur' = length cur →
  (∀ k, cur' !! k = if decide (k = b) then cur !! a else if decide (k = a) then cur !! b else cur !! k) →
  cur' ≡ₚ cur.
Proof.
  intros Ha Hb Hlen Hk. apply Permutation_inj. split; [done|].
  exists (λ k, if decide (k = b) then a else if decide (k = a) then b else k). split.
  - intros x y. repeat case_decide; congruence.
  - intros k. rewrite Hk. by repeat case_decide.
Qed.

(** One swap puts a partition in its place and disturbs none that was there. *)
Lemma wrong_decreases cur cur' i ci d :
  cur ≡ₚ seq 0 n → cur !! i = Some ci → perm_map !! ci = Some d → i ≠ d →
  (∀ k, cur' !! k = if decide (k = d) then cur !! i else if decide (k = i) then cur !! d else cur !! k) →
  (∀ k, k ∉ wrong cur → k ∉ wrong cur') ∧ base.size (wrong cur') < base.size (wrong cur).
Proof.
  intros Hcur Hi Hd Hne Hk.
  assert (i < n ∧ d < n) as [Hin Hdn].
  { split; [by eapply seq_index|by apply (seq_index perm_map ci)]. }
  assert (wrong cur' ⊆ wrong cur) as Hsub.
  { intros k. unfold wrong. rewrite !elem_of_filter. intros [Hm Hs]. split; [|done].
    unfold misplaced in *. rewrite Hk in Hm. destruct (decide (k = d)) as [->|Hkd].
    - rewrite Hi in Hm. simpl in Hm. congruence.
    - destruct (decide (k = i)) as [->|Hki]; [|done]. rewrite Hi. simpl. congruence. }
  split; [intros k Hn Hin'; by apply Hn, Hsub|].
  apply subset_size. split; [done|]. intros Hsup.
  assert (d ∈ wrong cur) as Hdw.
  { unfold wrong. rewrite elem_of_filter. split; [|apply elem_of_set_seq; lia].
    unfold misplaced. destruct (seq_total cur d Hcur Hdn) as [cd Hcd]. rewrite Hcd. simpl.
    intros Hcd'. assert (cd = ci) as -> by (by apply (seq_inj perm_map _ _ d)).
    apply Hne. by apply (seq_inj cur _ _ ci). }
  apply Hsup in Hdw. unfold wrong in Hdw. apply elem_of_filter in Hdw as [Hm _].
  unfold misplaced in Hm. rewrite Hk, decide_True, Hi in Hm by done. simpl in Hm. congruence.
Qed.

Lemma permute_while_ok fuel s cur i :
  tracks s cur → i < n → base.size (wrong cur) <= fuel →
  ∃ s' cur', permute_while fuel s perm_map cur i = Ok (s', cur') ∧ tracks s' cur'
    ∧ (∀ k, k ∉ wrong cur → k ∉ wrong cur') ∧ i ∉ wrong cur'.
Proof.
  revert s cur. induction fuel as [|fuel IH]; intros s cur [Ha Hg Hc Hr] Hi Hf;
    destruct (seq_total cur i Hc Hi) as [ci Hci];
    destruct (seq_total perm_map ci Hperm (proj1 (seq_index cur i ci Hc Hci))) as [d Hd];
    simpl; unfold cell; rewrite Hci; simpl; rewrite Hd; simpl.
  - assert (i ∉ wrong cur) as Hiw.
    { intros Hiw. assert (wrong cur = ∅) as E by (apply leibniz_equiv, size_empty_inv; lia).
      rewrite E in Hiw. by apply not_elem_of_empty in Hiw. }
    destruct (decide (i = d)) as [->|Hne]; [by exists s, cur|]. destruct Hiw.
    unfold wrong. rewrite elem_of_filter. split; [|apply elem_of_set_seq; lia].
    unfold misplaced. rewrite Hci. simpl. congruence.
  - destruct (decide (i = d)) as [->|Hne].
    + exists s, cur. split; [done|]. split; [done|]. split; [done|]. unfold wrong.
      rewrite elem_of_filter. unfold misplaced. rewrite Hci. simpl. rewrite Hd. naive_solver.
    + assert (d < n) as Hdn by (by apply (seq_index perm_map ci)).
      assert (length cur = n) as Hlen by (rewrite Hc; apply length_seq).
      destruct (swap_part_Ok s i d n Ha Hi Hdn) as (s1 & E1 & Ha1 & Hg1 & Hr1).
      destruct (swap_cells_Ok cur i d n Hlen Hi Hdn) as (cur1 & E2 & Hlen1 & Hc1).
      rewrite E1. simpl. rewrite E2. simpl.
      destruct (wrong_decreases cur cur1 i ci d Hc Hci Hd Hne Hc1) as [Hkeep Hdec].
      destruct (IH s1 cur1) as (s2 & cur2 & E3 & Ht & Hk & Hw); [|done|lia|].
      * split; [done|congruence| |].
        -- rewrite (swap_perm cur cur1 i d); [done| | |by rewrite Hlen1|done]; lia.
        -- intros k c. rewrite Hc1, Hr1. by repeat case_decide; apply Hr.
      * exists s2, cur2. split; [done|]. split; [done|]. split; [|done]. auto.
Qed.

Lemma permute_loop_ok j s :
  j <= n → tracks s (seq 0 n) →
  ∃ s' cur', for_loop j (λ i st, let! (t, curr_idx) := st in permute_while n t perm_map curr_idx i)
               (Ok (s, seq 0 n)) = Ok (s', cur') ∧ tracks s' cur' ∧ ∀ k, k < j → k ∉ wrong cur'.
Proof.
  intros Hj Ht. induction j as [|j IH]; simpl.
  - exists s, (seq 0 n). split; [done|]. split; [done|]. lia.
  - destruct IH as (s1 & cur1 & E1 & Ht1 & Hw1); [lia|]. rewrite E1. simpl.
    destruct (permute_while_ok n s1 cur1 j Ht1) as (s2 & cur2 & E2 & Ht2 & Hk & Hw); [lia| |].
    + rewrite <- (size_set_seq (C := gset nat) 0 n). apply subseteq_size.
      intros k. unfold wrong. by rewrite elem_of_filter; intros [_ ?].
    + exists s2, cur2. split; [done|]. split; [done|]. intros k Hlt.
      destruct (decide (k = j)) as [->|]; [done|]. apply Hk, Hw1. lia.
Qed.
End cycle.

(** For any permutation of the partitions, [permute_tsb_parts] ends, moves
    the partition at [i] to [perm_map[i]] with all its cursors, its count and its
    spare entry, and changes neither the entries nor the free list. *)
Theorem permute_tsb_parts_correct s n perm_map :
  arrays s n → num_parts s = Z.of_nat n → perm_map ≡ₚ seq 0 n →
  ∃ s', permute_tsb_parts s perm_map = Ok s' ∧ arrays s' n ∧ globals s' = globals s
    ∧ ∀ i d, perm_map !! i = Some d → row_of s' d = row_of s i.
Proof.
  intros Ha Hn Hp. unfold permute_tsb_parts. rewrite Hn, Nat2Z.id.
  assert (tracks s n s (seq 0 n)) as Ht.
  { split; [done|done|done|]. intros k c Hk. apply lookup_seq in Hk as [-> _]. done. }
  destruct (permute_loop_ok s n perm_map Hp n s ltac:(done) Ht) as (s' & cur & E & [Ha' Hg' Hc' Hr'] & Hw).
  rewrite E. simpl. exists s'. split; [done|]. split; [done|]. split; [done|].
  intros i d Hi. assert (d < n) as Hd by apply (seq_index n perm_map i d Hp Hi).
  specialize (Hw d Hd). destruct (seq_total n cur d Hc' Hd) as [c Hc].
  rewrite (Hr' d c Hc). f_equal. destruct (decide (c = i)) as [|Hne]; [done|]. destruct Hw.
  unfold wrong. rewrite elem_of_filter. split; [|apply elem_of_set_seq; lia].
  unfold misplaced. rewrite Hc. simpl. intros Hcd. apply Hne. by apply (seq_inj n perm_map c i d).
Qed.

(** Three partitions sent round a cycle. *)
Definition demo_entry : TSB_Entry := mkEntry None None 0 0 (mkResult RESULT_DONE 0) 0.
Definition demo_rows : TSB :=
  mkTSB 6 3 3 [10; 11; 12]%Z [Some 0; Some 1; Some 2] [Some 0; Some 1; Some 2]
    [Some 0; Some 1; Some 2] [Some 0; Some 1; Some 2] [Some 0; Some 1; Some 2]
    [Some 0; Some 1; Some 2] (Some 3) (Some 5) [Some 6; None; Some 8] true
    (list_to_map ((λ i, (i, demo_entry)) <$> seq 0 9)) [].

Lemma permute_tsb_parts_correct_witness :
  ∃ s', permute_tsb_parts demo_rows [1; 2; 0] = Ok s' ∧ arrays s' 3 ∧ globals s' = globals demo_rows
    ∧ ∀ i d, [1; 2; 0] !! i = Some d → row_of s' d = row_of demo_rows i.
Proof.
  apply (permute_tsb_parts_correct demo_rows 3 [1; 2; 0]).
  - repeat split.
  - reflexivity.
  - apply (Permutation_app_comm [1; 2] [0]).
Defined.

End TSBPerm.
