(* ===== verification/Fifo.v ===== *)
(** * The queue interface

    What the components that pass elements through a queue rely on: a state
    that holds a list, an enqueue that appends or refuses, a dequeue that takes
    the first element or finds none.  The theorem at the end is proved against
    the interface only: whatever the interleaving of the two operations, what
    comes out is what was accepted, in order, and nothing is lost. *)

From S2P Require Import Prelude.

Class Fifo (Q T : Type) : Type := {
  fifo_enq : Q → T → cres (bool * Q);
  fifo_deq : Q → cres (option T * Q)
}.

(** [holds q l]: the queue holds [l]; [fit q x]: values that may be offered to
    it; the set of those does not change. *)
Class FifoLaws (Q T : Type) `{Fifo Q T} (holds : Q → list T → Prop) (fit : Q → T → Prop) : Prop := {
  fifo_enq_law : ∀ q l x, holds q l → fit q x →
    ∃ b q', fifo_enq q x = Ok (b, q') ∧ holds q' (if b : bool then l ++ [x] else l)
      ∧ ∀ y, fit q y → fit q' y;
  fifo_deq_law : ∀ q l, holds q l →
    ∃ q', fifo_deq q = Ok (head l, q') ∧ holds q' (tail l) ∧ ∀ y, fit q y → fit q' y
}.

Section traces.
Context {Q T : Type} `{Fifo Q T}.

Inductive op : Type := Enq (x : T) | Deq.

(** Runs a sequence of operations; collects what was accepted and what came out. *)
Fixpoint run (ops : list op) (q : Q) : cres (list T * list T * Q) :=
  match ops with
  | [] => Ok ([], [], q)
  | Enq x :: ops' =>
      let! (b, q1) := fifo_enq q x in
      let! (ins, outs, q2) := run ops' q1 in
      Ok (if b then x :: ins else ins, outs, q2)
  | Deq :: ops' =>
      let! (o, q1) := fifo_deq q in
      let! (ins, outs, q2) := run ops' q1 in
      Ok (ins, option_list o ++ outs, q2)
  end.

Context {holds : Q → list T → Prop} {fit : Q → T → Prop} `{!FifoLaws Q T holds fit}.

Definition offered (q : Q) (o : op) : Prop :=
  match o with
  | Enq x => fit q x
  | Deq => True
  end.

Lemma offered_mono q q' ops :
  (∀ y, fit q y → fit q' y) → Forall (offered q) ops → Forall (offered q') ops.
Proof. intros Hf Ho. eapply Forall_impl; [done|]. intros [x|]; simpl; auto. Qed.

Lemma run_ok ops q l :
  holds q l → Forall (offered q) ops →
  ∃ ins outs q' l', run ops q = Ok (ins, outs, q') ∧ holds q' l' ∧ l ++ ins = outs ++ l'.
Proof.
  revert q l. induction ops as [|[x|] ops IH]; intros q l Hh Ho; simpl.
  - exists [], [], q, l. by rewrite app_nil_r.
  - apply Forall_cons in Ho as [Hx Ho]. destruct (fifo_enq_law q l x Hh Hx) as (b & q1 & E & Hh1 & Hf).
    destruct (IH q1 _ Hh1 (offered_mono _ _ _ Hf Ho)) as (ins & outs & q2 & l' & E2 & Hh2 & Heq).
    rewrite E. simpl. rewrite E2. simpl. eexists _, outs, q2, l'. split; [done|]. split; [done|].
    rewrite <- Heq. destruct b; [|done]. by rewrite <- app_assoc.
  - apply Forall_cons in Ho as [_ Ho]. destruct (fifo_deq_law q l Hh) as (q1 & E & Hh1 & Hf).
    destruct (IH q1 _ Hh1 (offered_mono _ _ _ Hf Ho)) as (ins & outs & q2 & l' & E2 & Hh2 & Heq).
    rewrite E. simpl. rewrite E2. simpl. eexists ins, _, q2, l'. split; [done|]. split; [done|].
    destruct l as [|y l]; simpl in *; [done|]. by rewrite Heq.
Qed.
End traces.
Arguments op : clear implicits.
