(* ===== verification/ResultQ.v ===== *)
(** * The shared element queue ([src/src/backend/rqueue/resultq.c], [resultq.h])

    A queue of variable-length elements in one block of memory: the [Queue]
    header and behind it a ring of bytes.  Elements are written by a serializer
    between a check word with a length and five bytes of padding; the space
    left over at the end of the block when an element does not fit there is
    fenced off by [wall].

    Pointers are addresses (integers) and the ring is the list of its bytes;
    [addr] is where the header lives, so that a queue received from another
    process, whose pointers still are those of the sender, can be described.
    A write outside the ring is [Undefined].  The lock functions of a queue are
    those of one of the three kinds the code can make; a wait that would need
    another process is [Blocks].  [avgfree] is a double, computed with the
    Standard Library's [spec_float]. *)

From Stdlib Require Import Floats.SpecFloat.
From S2P Require Import Prelude.

Module RQ.
Local Open Scope Z_scope.

(** ** Bytes *)

(** Little-endian bytes of a [n]-byte unsigned integer, and back. *)
Fixpoint le_bytes (n : nat) (x : Z) : list Z :=
  match n with
  | O => []
  | S n' => x mod 256 :: le_bytes n' (x / 256)
  end.

Fixpoint le_value (bs : list Z) : Z :=
  match bs with
  | [] => 0
  | b :: bs' => b + 256 * le_value bs'
  end.

Definition poke (b : list Z) (off : Z) (bs : list Z) : cres (list Z) :=
  if (0 <=? off) && (off + Z.of_nat (length bs) <=? Z.of_nat (length b))
  then Ok (take (Z.to_nat off) b ++ bs ++ drop (Z.to_nat off + length bs) b)
  else Fail Undefined.

Definition peek (b : list Z) (off : Z) (n : nat) : cres (list Z) :=
  if (0 <=? off) && (off + Z.of_nat n <=? Z.of_nat (length b))
  then Ok (take n (drop (Z.to_nat off) b))
  else Fail Undefined.

Definition memset (b : list Z) (off v n : Z) : cres (list Z) :=
  if n <? 0 then Fail Undefined else poke b off (replicate (Z.to_nat n) v).

(** ** Locks *)

Inductive queue_lock : Type :=
  | NoLock
  | SpinLock (held : bool)
  | SemLock (empty full mutex : Z).

Definition IsSemaphoreLock (ql : queue_lock) : bool :=
  match ql with
  | SemLock _ _ _ => true
  | _ => false
  end.

(** [TCQSemaphoreLock]/[TCQSemaphoreTryLock]: the answer and the new value. *)
Definition sem_down (trylock : bool) (v : Z) : cres (bool * Z) :=
  if 0 <? v then Ok (true, v - 1) else if trylock then Ok (false, v) else Fail Blocks.

Definition mutex_lock (ql : queue_lock) : cres queue_lock :=
  match ql with
  | NoLock => Ok NoLock
  | SpinLock held => if held then Fail Blocks else Ok (SpinLock true)
  | SemLock e f m => let! (_, m') := sem_down false m in Ok (SemLock e f m')
  end.

Definition mutex_unlock (ql : queue_lock) : queue_lock :=
  match ql with
  | NoLock => NoLock
  | SpinLock _ => SpinLock false
  | SemLock e f m => SemLock e f (m + 1)
  end.

(** The function pointers of the counting operations are only set for
    semaphore locks. *)
Definition empty_up (ql : queue_lock) (trylock : bool) : cres (bool * queue_lock) :=
  match ql with
  | SemLock e f m => Ok (true, SemLock (e + 1) f m)
  | _ => Fail Undefined
  end.

Definition empty_down (ql : queue_lock) (trylock : bool) : cres (bool * queue_lock) :=
  match ql with
  | SemLock e f m => let! (r, e') := sem_down trylock e in Ok (r, SemLock e' f m)
  | _ => Fail Undefined
  end.

Definition full_up (ql : queue_lock) (trylock : bool) : cres (bool * queue_lock) :=
  match ql with
  | SemLock e f m => Ok (true, SemLock e (f + 1) m)
  | _ => Fail Undefined
  end.

Definition full_down (ql : queue_lock) (trylock : bool) : cres (bool * queue_lock) :=
  match ql with
  | SemLock e f m => let! (r, f') := sem_down trylock f in Ok (r, SemLock e f' m)
  | _ => Fail Undefined
  end.

Definition make_lock_sem (empties : Z) : queue_lock := SemLock empties 0 1.
Definition make_lock_sl : queue_lock := SpinLock false.
Definition make_lock_nolock : queue_lock := NoLock.

(** ** The queue *)

Record Queue : Type := mkQueue {
  addr : Z;
  size : Z;
  qid : Z;
  start : Z;
  end_ : Z;
  head : Z;
  tail : Z;
  wall : Z;
  ql : queue_lock;
  bytesfree : Z;
  numelts : Z;
  avgfree : spec_float;
  numcalls : Z;
  buf : list Z
}.

Definition with_lock (q : Queue) (x : queue_lock) : Queue :=
  mkQueue (addr q) (size q) (qid q) (start q) (end_ q) (head q) (tail q) (wall q) x
    (bytesfree q) (numelts q) (avgfree q) (numcalls q) (buf q).
Definition with_wall (q : Queue) (x : Z) : Queue :=
  mkQueue (addr q) (size q) (qid q) (start q) (end_ q) (head q) (tail q) x (ql q)
    (bytesfree q) (numelts q) (avgfree q) (numcalls q) (buf q).
Definition with_head (q : Queue) (x : Z) : Queue :=
  mkQueue (addr q) (size q) (qid q) (start q) (end_ q) x (tail q) (wall q) (ql q)
    (bytesfree q) (numelts q) (avgfree q) (numcalls q) (buf q).
Definition with_tail (q : Queue) (x : Z) : Queue :=
  mkQueue (addr q) (size q) (qid q) (start q) (end_ q) (head q) x (wall q) (ql q)
    (bytesfree q) (numelts q) (avgfree q) (numcalls q) (buf q).
Definition with_buf (q : Queue) (x : list Z) : Queue :=
  mkQueue (addr q) (size q) (qid q) (start q) (end_ q) (head q) (tail q) (wall q) (ql q)
    (bytesfree q) (numelts q) (avgfree q) (numcalls q) x.
(** The fields that count: [bytesfree], [numelts], [avgfree] and [numcalls]. *)
Definition with_stats (q : Queue) (b n : Z) (a : spec_float) (c : Z) : Queue :=
  mkQueue (addr q) (size q) (qid q) (start q) (end_ q) (head q) (tail q) (wall q) (ql q)
    b n a c (buf q).
Definition with_ptrs (q : Queue) (s e h t w : Z) : Queue :=
  mkQueue (addr q) (size q) (qid q) s e h t w (ql q)
    (bytesfree q) (numelts q) (avgfree q) (numcalls q) (buf q).

Definition QHDRSZ : Z := 8.
Definition ELTCHECK : Z := 0xccabbaee.
Definition PADSIZE : Z := 5.
Definition PAD : Z := 0x3f.
Definition MAXELTEST : Z := 16383.
Definition MINELTEST : Z := 5.
Definition sizeof_Queue : Z := 80.
Definition MaxAllocSize : Z := 0x3fffffff.
Definition VARATT_MASK_SIZE : Z := 0x3fffffff.

Definition VQSPACETOEND (ptr : Z) (q : Queue) : Z := end_ q - ptr.
Definition QEMPTY (q : Queue) : bool := bytesfree q =? VQSPACETOEND (start q) q.
Definition QFREESPACE (q : Queue) : Z := bytesfree q - (end_ q - wall q).
Definition QFULL (q : Queue) : bool := QFREESPACE q =? 0.

(** The position in the ring of an address: the ring starts behind the header. *)
Definition off (q : Queue) (p : Z) : Z := p - (addr q + sizeof_Queue).

(** Conversion of an int to double, and the arithmetic of [avgfree]. *)
Definition dbl (z : Z) : spec_float := binary_normalize 53 1024 z 0 false.
Definition avg_update (calls bytes : Z) (a : spec_float) : spec_float :=
  SFdiv 53 1024 (SFadd 53 1024 (SFmul 53 1024 (dbl calls) a) (dbl bytes)) (dbl (calls + 1)).

(** ** Serializers

    [serialize] gives the bytes it writes at its destination; [deserialize]
    reads from the memory that starts at its source. *)
Class Serializer (T : Type) : Type := {
  determineSize : T → Z;
  serialize : T → list Z;
  deserialize : list Z → option T
}.

(** What a queue needs from a serializer, on the values it is used for. *)
Class SerializerOk (T : Type) `{Serializer T} (valid : T → Prop) : Prop := {
  ser_size : ∀ x, valid x → Z.of_nat (length (serialize x)) = determineSize x;
  ser_round : ∀ x rest, valid x → deserialize (serialize x ++ rest) = Some x
}.

(** ** Construction *)

Definition clear_queue (q : Queue) : cres Queue :=
  let! l := mutex_lock (ql q) in
  let q1 := with_lock q l in
  let q2 := with_ptrs q1 (start q1) (end_ q1) (start q1) (start q1) (end_ q1) in
  let q3 := with_stats q2 (VQSPACETOEND (start q2) q2) 0 (dbl 0) 0 in
  let eltest := bytesfree q3 / QHDRSZ in
  let eltest' := if MAXELTEST <? eltest then MAXELTEST - 1 else eltest in
  let q4 := match ql q3 with
            | SemLock _ _ m => with_lock q3 (SemLock eltest' 0 m)
            | _ => q3
            end in
  Ok (with_lock q4 (mutex_unlock (ql q4))).

(** The comparison is between a 64-bit difference and an unsigned size. *)
Definition check_capacity (q : Queue) (sz : Z) : cres (bool * Queue) :=
  let! l := mutex_lock (ql q) in
  let ret := wrap 64 (sz + QHDRSZ) <=? wrap 64 (QFREESPACE q) in
  Ok (ret, with_lock q (mutex_unlock l)).

(** [at_addr] is where [palloc] puts the queue; [lock] the lock passed, if any. *)
Definition make_queue (at_addr : Z) (lock : option queue_lock) (sz : Z) : cres (option Queue) :=
  let eltest := sz / QHDRSZ in
  if wrap 64 sz <? sizeof_Queue then Ok None
  else if MaxAllocSize <? wrap 64 sz then Fail (Elog "MemoryContextAlloc: invalid request size")
  else
    let eltest1 := if MAXELTEST <? eltest then MAXELTEST - 1 else eltest in
    let s := at_addr + sizeof_Queue in
    let e := at_addr + sz in
    let eltest2 := if eltest1 <? MINELTEST then MINELTEST else eltest1 in
    let l := match lock with
             | Some l => l
             | None => make_lock_sem eltest2
             end in
    Ok (Some (mkQueue at_addr sz 0 s e s s e l (e - s) 0 (dbl 0) 0
                (replicate (Z.to_nat (sz - sizeof_Queue)) 0))).

(** ** Elements *)

Section elements.
Context {T : Type} `{Serializer T}.

(** Writing the element at the tail. *)
Definition put_elt (q : Queue) (data : T) (eltsize : Z) : cres Queue :=
  let o := off q (tail q) in
  let! b1 := poke (buf q) o (le_bytes 4 ELTCHECK) in
  let! b2 := poke b1 (o + 4) (le_bytes 4 eltsize) in
  let! b3 := memset b2 (o + QHDRSZ) PAD (eltsize - QHDRSZ) in
  let! b4 := poke b3 (o + QHDRSZ) (serialize data) in
  let q1 := with_tail (with_buf q b4) (tail q + eltsize) in
  let q2 := with_stats q1 (bytesfree q1 - eltsize) (numelts q1 + 1)
              (avg_update (numcalls q1) (bytesfree q1) (avgfree q1)) (numcalls q1 + 1) in
  if bytesfree q2 <? 0 then Fail (Elog "RESULTQ: q->bytesfree is negative !!!!!!!!") else Ok q2.

(** The branch taken when the tail is not below the head: [None] is the early
    return of a full queue. *)
Definition find_space (q : Queue) (eltsize spacetoend : Z) : cres (Queue * option Z) :=
  if tail q <? head q then Ok (q, Some (head q - tail q))
  else
    let! (q1, space1, qfull) :=
      if spacetoend <? eltsize then
        let! b := memset (buf q) (off q (tail q)) 0xff spacetoend in
        let q1 := with_tail (with_wall (with_buf q b) (tail q)) (start q) in
        Ok (q1, VQSPACETOEND (tail q1) q1, QFULL q1)
      else Ok (q, spacetoend, false) in
    if qfull : bool then Ok (q1, None)
    else if tail q1 <? head q1 then Ok (q1, Some (head q1 - tail q1))
    else Ok (q1, Some space1).

Definition enqueue_elt (q : Queue) (data : T) : cres (bool * Queue) :=
  let eltsize := determineSize data + QHDRSZ + PADSIZE in
  let spacetoend := VQSPACETOEND (tail q) q in
  if QFULL q then Ok (false, q)
  else
    let q1 := if wall q <=? tail q then with_wall q (end_ q) else q in
    let! (q2, spaceavail) := find_space q1 eltsize spacetoend in
    match spaceavail with
    | None => Ok (false, q2)
    | Some s =>
        if s <? eltsize then Ok (false, q2)
        else let! q3 := put_elt q2 data eltsize in Ok (true, q3)
    end.

Definition dequeue_elt (q : Queue) : cres (option T * Queue) :=
  if bytesfree q =? VQSPACETOEND (start q) q then Ok (None, q)
  else if wall q <? head q then Fail (Elog "RESULTQ: q->head is past the wall")
  else
    let q1 := if head q =? wall q then with_wall (with_head q (start q)) (end_ q) else q in
    let o := off q1 (head q1) in
    let! len := peek (buf q1) (o + 4) 4 in
    let eltsize := Z.land (le_value len) VARATT_MASK_SIZE in
    let! chk := peek (buf q1) o 4 in
    if negb (le_value chk =? ELTCHECK)
    then Fail (Elog "RESULTQ: dequeue found an invalid element in the queue")
    else
      let! data := access (deserialize (drop (Z.to_nat (o + QHDRSZ)) (buf q1))) in
      let! b := memset (buf q1) o 0 eltsize in
      let q2 := with_head (with_buf q1 b) (head q1 + eltsize) in
      Ok (Some data, with_stats q2 (bytesfree q2 + eltsize) (numelts q2 - 1) (avgfree q2) (numcalls q2)).

(** ** The external interface *)

Fixpoint enqueue_loop (tries : nat) (q : Queue) (data : T) (isBlocking : bool)
    : cres (bool * Queue) :=
  match tries with
  | O => Ok (false, q)
  | S tries' =>
      let! l1 := if IsSemaphoreLock (ql q)
                 then let! (_, l) := empty_down (ql q) (negb isBlocking) in Ok l
                 else Ok (ql q) in
      let! l2 := mutex_lock l1 in
      let! (ret, q1) := enqueue_elt (with_lock q l2) data in
      let breakout := QEMPTY q1 in
      let q2 := with_lock q1 (mutex_unlock (ql q1)) in
      let! l3 := if ret && IsSemaphoreLock (ql q2)
                 then let! (_, l) := full_up (ql q2) (negb isBlocking) in Ok l
                 else Ok (ql q2) in
      let q3 := with_lock q2 l3 in
      if negb isBlocking then Ok (ret, q3)
      else if breakout || ret then Ok (ret, q3)
      else enqueue_loop tries' q3 data isBlocking
  end.

Definition enqueue (q : Queue) (data : T) (isBlocking : bool) : cres (bool * Queue) :=
  let tries := (end_ q - start q) / QHDRSZ in
  let! _ := cassert (0 <? tries) in
  enqueue_loop (Z.to_nat tries) q data isBlocking.

Definition dequeue (q : Queue) (isBlocking : bool) : cres (option T * Queue) :=
  let! l1 := if IsSemaphoreLock (ql q)
             then let! (_, l) := full_down (ql q) (negb isBlocking) in Ok l
             else Ok (ql q) in
  let! l2 := mutex_lock l1 in
  let! (ret, q1) := dequeue_elt (with_lock q l2) in
  let q2 := with_lock q1 (mutex_unlock (ql q1)) in
  let! l3 := match ret with
             | Some _ => if IsSemaphoreLock (ql q2)
                         then let! (_, l) := empty_up (ql q2) (negb isBlocking) in Ok l
                         else Ok (ql q2)
             | None => Ok (ql q2)
             end in
  Ok (ret, with_lock q2 l3).
End elements.

(** ** A queue that arrived from another process

    The header was copied with the pointers of the sender; [addr] is where it is
    now. *)
Definition swizzle_queue_ptrs (q : Queue) : cres Queue :=
  let q0 := with_lock q make_lock_nolock in
  let o_start := start q0 in
  let s := addr q0 + sizeof_Queue in
  let q1 := with_ptrs q0 s ((end_ q0 - o_start) + s) ((head q0 - o_start) + s)
              ((tail q0 - o_start) + s) ((wall q0 - o_start) + s) in
  let q2 := if head q1 =? wall q1 then with_head q1 (start q1) else q1 in
  if tail q2 =? head q2 then
    if QEMPTY q2 || QFULL q2 then Ok q2 else Fail AssertFail
  else
    let my_free := if tail q2 <? head q2
                   then (wall q2 - head q2) + (tail q2 - start q2)
                   else (wall q2 - tail q2) + (head q2 - start q2) in
    let! _ := cassert (bytesfree q2 =? my_free) in Ok q2.

End RQ.
