(* ===== verification/ResultQSpec.v ===== *)
(** * Correctness of the shared element queue

    The ring of [src/src/backend/rqueue/resultq.c] holds a list of elements:
    enqueueing appends or refuses, dequeueing takes the first, whatever the
    serializer, as long as it meets [SerializerOk]. *)

From Stdlib Require Import Floats.SpecFloat.
From S2P Require Import Prelude ResultQ.

Module RQSpec.
Import RQ.
Local Open Scope Z_scope.

(** ** Bytes *)

Lemma length_le_bytes n x : length (le_bytes n x) = n.
Proof. revert x. induction n as [|n IH]; intros x; simpl; [done|]. by rewrite IH. Qed.

Lemma le_round n x : 0 <= x < 256 ^ Z.of_nat n → le_value (le_bytes n x) = x.
Proof.
  revert x. induction n as [|n IH]; intros x Hx; [simpl in *; lia|].
  rewrite Nat2Z.inj_succ, Z.pow_succ_r in Hx by lia. simpl. rewrite IH.
  - rewrite Z.add_comm. symmetry. apply Z.div_mod. lia.
  - split; [apply Z.div_pos; lia|]. apply Z.div_lt_upper_bound; lia.
Qed.

Lemma poke_app a b c bs o :
  o = Z.of_nat (length a) → length b = length bs →
  poke (a ++ b ++ c) o bs = Ok (a ++ bs ++ c).
Proof.
  intros -> Hb. unfold poke. rewrite !length_app.
  rewrite (proj2 (andb_true_iff _ _)) by (split; apply Z.leb_le; lia).
  rewrite Nat2Z.id, take_app_length. do 3 f_equal.
  rewrite app_assoc, drop_app_length'; [done|]. rewrite length_app. lia.
Qed.

Lemma memset_app a b c o v n :
  o = Z.of_nat (length a) → Z.of_nat (length b) = n →
  memset (a ++ b ++ c) o v n = Ok (a ++ replicate (length b) v ++ c).
Proof.
  intros Ho <-. unfold memset. rewrite (proj2 (Z.ltb_ge _ _)) by lia. rewrite Nat2Z.id.
  apply poke_app; [done|]. by rewrite length_replicate.
Qed.

Lemma peek_app a b c o n :
  o = Z.of_nat (length a) → length b = n → peek (a ++ b ++ c) o n = Ok b.
Proof.
  intros -> <-. unfold peek. rewrite !length_app.
  rewrite (proj2 (andb_true_iff _ _)) by (split; apply Z.leb_le; lia).
  by rewrite Nat2Z.id, drop_app_length, take_app_length.
Qed.

(** ** What a ring holds *)

(** Reads the fields of an updated queue. *)
Ltac qsimpl :=
  cbn [addr size qid start end_ head tail wall ql bytesfree numelts avgfree numcalls buf
       with_lock with_wall with_head with_tail with_buf with_stats with_ptrs] in *.

Section ring.
Context {T : Type} `{SerializerOk T valid}.

Definition esize (x : T) : Z := determineSize x + QHDRSZ + PADSIZE.

Definition enc (x : T) : list Z :=
  le_bytes 4 ELTCHECK ++ le_bytes 4 (esize x) ++ serialize x ++ replicate 5 PAD.

Definition cat (l : list T) : list Z := concat (enc <$> l).

Lemma length_enc x : valid x → Z.of_nat (length (enc x)) = esize x.
Proof.
  intros Hx. unfold enc. rewrite !length_app, !length_le_bytes, length_replicate.
  unfold esize, QHDRSZ, PADSIZE. rewrite <- (ser_size x Hx). lia.
Qed.

Lemma cat_app l1 l2 : cat (l1 ++ l2) = cat l1 ++ cat l2.
Proof. unfold cat. by rewrite fmap_app, concat_app. Qed.

Lemma cat_snoc l x : cat (l ++ [x]) = cat l ++ enc x.
Proof. rewrite cat_app. unfold cat at 2. simpl. by rewrite app_nil_r. Qed.

Lemma cat_cons x l : cat (x :: l) = enc x ++ cat l.
Proof. done. Qed.

(** Length of a byte list, as the code's integers see it. *)
Definition len (b : list Z) : Z := Z.of_nat (length b).

Lemma len_app a b : len (a ++ b) = len a + len b.
Proof. unfold len. rewrite length_app. lia. Qed.

Lemma len_nonneg b : 0 <= len b.
Proof. unfold len. lia. Qed.

Lemma len_cat_pos l : 0 < len (cat l) ↔ l ≠ [].
Proof.
  destruct l as [|x l]; [done|]. split; [done|]. intros _. rewrite cat_cons, len_app.
  pose proof (len_nonneg (cat l)). unfold enc. rewrite !len_app.
  unfold len at 1. rewrite length_le_bytes. pose proof (len_nonneg (le_bytes 4 (esize x))).
  pose proof (len_nonneg (serialize x)). pose proof (len_nonneg (replicate 5 PAD)). lia.
Qed.

(** The block: the ring is right behind the header. *)
Record block (q : Queue) : Prop := {
  bl_start : start q = addr q + sizeof_Queue;
  bl_end : end_ q = start q + len (buf q);
  bl_size : len (buf q) < 2 ^ 30
}.

(** Elements in one piece, or in two with the second one at the front. *)
Inductive rep (q : Queue) (l : list T) : Prop :=
  | rep_flat pre post :
      buf q = pre ++ cat l ++ post →
      head q = start q + len pre → tail q = head q + len (cat l) → wall q = end_ q →
      bytesfree q = len (buf q) - len (cat l) → rep q l
  | rep_wrapped l1 l2 gap post :
      l = l1 ++ l2 → buf q = cat l2 ++ gap ++ cat l1 ++ post →
      tail q = start q + len (cat l2) → head q = tail q + len gap →
      wall q = head q + len (cat l1) → start q < wall q →
      bytesfree q = len (buf q) - len (cat l1) - len (cat l2) → rep q l.

Record ring (q : Queue) (l : list T) : Prop := {
  ri_block : block q;
  ri_rep : rep q l;
  ri_num : numelts q = Z.of_nat (length l);
  ri_valid : Forall valid l
}.

Lemma put_elt_ok q x a old c :
  block q → valid x → buf q = a ++ old ++ c → tail q = start q + len a →
  len old = esize x → esize x <= bytesfree q →
  ∃ q', put_elt q x (esize x) = Ok q' ∧ buf q' = a ++ enc x ++ c
    ∧ tail q' = tail q + esize x ∧ head q' = head q ∧ wall q' = wall q ∧ start q' = start q
    ∧ end_ q' = end_ q ∧ addr q' = addr q ∧ ql q' = ql q
    ∧ bytesfree q' = bytesfree q - esize x ∧ numelts q' = numelts q + 1.
Proof.
  intros [B1 B2 B3] Hx Hb Ht Ho Hf. pose proof (length_enc x Hx) as Hl.
  pose proof (ser_size x Hx) as Hs.
  assert (off q (tail q) = len a) as Hoff by (unfold off; lia).
  assert (∃ o1 o2 o3 o4, old = o1 ++ o2 ++ o3 ++ o4 ∧ length o1 = 4%nat ∧ length o2 = 4%nat
            ∧ length o3 = length (serialize x) ∧ length o4 = 5%nat) as (o1 & o2 & o3 & o4 & -> & L1 & L2 & L3 & L4).
  { exists (take 4 old), (take 4 (drop 4 old)), (take (length (serialize x)) (drop 8 old)),
      (drop (length (serialize x)) (drop 8 old)).
    unfold esize, QHDRSZ, PADSIZE, len in Ho.
    rewrite !length_take, !length_drop. repeat split; try lia.
    rewrite (take_drop (length (serialize x)) (drop 8 old)).
    change 8%nat with (4 + 4)%nat. by rewrite <- drop_drop, !take_drop. }
  unfold put_elt. rewrite Hoff, Hb. rewrite <- !app_assoc.
  rewrite (poke_app a o1) by (done || by rewrite length_le_bytes). cbn [cbind].
  rewrite (app_assoc a), (poke_app (a ++ _) o2) by (by rewrite ?length_app, ?length_le_bytes; unfold len; lia).
  cbn [cbind]. rewrite !app_assoc. rewrite <- (app_assoc _ o3), <- (app_assoc _ (o3 ++ o4)).
  rewrite (memset_app _ (o3 ++ o4)); cycle 1.
  { rewrite !length_app, !length_le_bytes. unfold len, QHDRSZ. lia. }
  { rewrite length_app. unfold esize, QHDRSZ, PADSIZE in *. lia. }
  cbn [cbind]. rewrite length_app, replicate_add, <- !app_assoc.
  do 2 rewrite app_assoc. rewrite (poke_app _ (replicate (length o3) PAD)); cycle 1.
  { rewrite !length_app, !length_le_bytes. unfold len, QHDRSZ. lia. }
  { by rewrite length_replicate. }
  cbn [cbind]. simpl. rewrite (proj2 (Z.ltb_ge _ _)) by lia.
  eexists. split; [done|]. simpl. split; [|done]. unfold enc. by rewrite L4, <- !app_assoc.
Qed.
Lemma esize_pos x : valid x → 13 <= esize x.
Proof. intros Hx. pose proof (ser_size x Hx). unfold esize, QHDRSZ, PADSIZE. lia. Qed.

Lemma split_len (b : list Z) n : 0 <= n <= len b → ∃ b1 b2, b = b1 ++ b2 ∧ len b1 = n.
Proof.
  intros Hn. exists (take (Z.to_nat n) b), (drop (Z.to_nat n) b). rewrite take_drop. split; [done|].
  unfold len in *. rewrite length_take. lia.
Qed.

(** The state fields an element operation keeps. *)
Definition same_block (q q' : Queue) : Prop :=
  addr q' = addr q ∧ start q' = start q ∧ end_ q' = end_ q ∧ len (buf q') = len (buf q) ∧ ql q' = ql q.

Lemma block_same q q' : block q → same_block q q' → block q'.
Proof. intros [? ? ?] (? & ? & ? & ? & ?). split; congruence. Qed.

(** Writing behind the elements, in the flat and in the wrapped layout. *)
Lemma put_flat q l x pre post :
  block q → valid x →
  buf q = pre ++ cat l ++ post → head q = start q + len pre → tail q = head q + len (cat l) →
  wall q = end_ q → bytesfree q = len (buf q) - len (cat l) → esize x <= len post →
  ∃ q', put_elt q x (esize x) = Ok q' ∧ rep q' (l ++ [x]) ∧ numelts q' = numelts q + 1 ∧ same_block q q'.
Proof.
  intros Hbl Hx Hb Hh Ht Hw Hf He. pose proof (esize_pos x Hx).
  destruct (split_len post (esize x)) as (old & c & -> & Ho); [lia|].
  assert (esize x <= bytesfree q) as Hfree.
  { rewrite Hf, Hb, !len_app. pose proof (len_nonneg pre). pose proof (len_nonneg c). lia. }
  destruct (put_elt_ok q x (pre ++ cat l) old c) as (q' & E & B & Tl & Hd & W & S & En & A & L & F & N);
    try done; [by rewrite <- app_assoc|rewrite len_app; lia|].
  assert (len (enc x) = esize x) as Hl by (by apply length_enc).
  exists q'. split; [done|]. split; [|split; [done|]].
  - apply (rep_flat _ _ pre c).
    + by rewrite B, cat_snoc, <- !app_assoc.
    + congruence.
    + rewrite cat_snoc, len_app. lia.
    + congruence.
    + rewrite F, B, Hf, Hb, cat_snoc, !len_app. lia.
  - split; [done|]. split; [done|]. split; [done|]. split; [|done]. rewrite B, Hb, !len_app. lia.
Qed.

Lemma put_wrapped q l1 l2 x gap post :
  block q → valid x →
  buf q = cat l2 ++ gap ++ cat l1 ++ post → tail q = start q + len (cat l2) →
  head q = tail q + len gap → wall q = head q + len (cat l1) → start q < wall q →
  bytesfree q = len (buf q) - len (cat l1) - len (cat l2) → esize x <= len gap →
  ∃ q', put_elt q x (esize x) = Ok q' ∧ rep q' ((l1 ++ l2) ++ [x]) ∧ numelts q' = numelts q + 1
    ∧ same_block q q'.
Proof.
  intros Hbl Hx Hb Ht Hh Hw Hsw Hf He. pose proof (esize_pos x Hx).
  destruct (split_len gap (esize x)) as (old & c & -> & Ho); [lia|].
  assert (esize x <= bytesfree q) as Hfree.
  { rewrite Hf, Hb, !len_app. pose proof (len_nonneg post). pose proof (len_nonneg c). lia. }
  destruct (put_elt_ok q x (cat l2) old (c ++ cat l1 ++ post))
    as (q' & E & B & Tl & Hd & W & S & En & A & L & F & N); try done; [by rewrite Hb, <- !app_assoc|].
  assert (len (enc x) = esize x) as Hl by (by apply length_enc).
  rewrite len_app in Hh.
  exists q'. split; [done|]. split; [|split; [done|]].
  - apply (rep_wrapped _ _ l1 (l2 ++ [x]) c post).
    + by rewrite app_assoc.
    + by rewrite B, cat_snoc, <- !app_assoc.
    + rewrite cat_snoc, len_app. lia.
    + lia.
    + lia.
    + lia.
    + rewrite F, B, Hf, Hb, cat_snoc, !len_app. lia.
  - split; [done|]. split; [done|]. split; [done|]. split; [|done]. rewrite B, Hb, !len_app. lia.
Qed.

(** When an element is taken: in the room before the head of a wrapped queue,
    at the end of a flat one, or at the front once it wraps. *)
Definition fits (q : Queue) (x : T) : bool :=
  negb (QFULL q) &&
  if tail q <? head q then esize x <=? head q - tail q
  else (esize x <=? end_ q - tail q) || (esize x <=? head q - start q).

Definition enqueued (q : Queue) (l : list T) (x : T) : Prop :=
  ∃ q', enqueue_elt q x = Ok (fits q x, q') ∧ same_block q q'
    ∧ rep q' (if fits q x then l ++ [x] else l)
    ∧ numelts q' = if fits q x then numelts q + 1 else numelts q.

Lemma enqueue_refuse_full q l x : rep q l → QFULL q = true → enqueued q l x.
Proof.
  intros Hr Hq. exists q. unfold enqueue_elt, fits. rewrite Hq. simpl.
  split; [done|]. split; [done|]. done.
Qed.

Lemma enqueue_wrapped q l1 l2 x gap post :
  block q → valid x →
  buf q = cat l2 ++ gap ++ cat l1 ++ post → tail q = start q + len (cat l2) →
  head q = tail q + len gap → wall q = head q + len (cat l1) → start q < wall q →
  bytesfree q = len (buf q) - len (cat l1) - len (cat l2) → enqueued q (l1 ++ l2) x.
Proof.
  intros Hbl Hx Hb Ht Hh Hw Hsw Hf. assert (rep q (l1 ++ l2)) as Hr by (by eapply rep_wrapped).
  destruct (QFULL q) eqn:HQ; [by apply enqueue_refuse_full|].
  assert (tail q < head q) as Hlt.
  { unfold QFULL, QFREESPACE in HQ. apply Z.eqb_neq in HQ.
    destruct Hbl as [_ He _]. pose proof (len_nonneg gap). rewrite Hb, !len_app in Hf, He. lia. }
  pose proof (len_nonneg (cat l1)).
  assert (wall q <=? tail q = false) as Hwt by (apply Z.leb_gt; lia).
  unfold enqueued, enqueue_elt, find_space, fits. rewrite HQ, Hwt.
  rewrite (proj2 (Z.ltb_lt _ _) Hlt). simpl. fold (esize x).
  destruct (Z.ltb_spec (head q - tail q) (esize x)) as [Hno|Hyes].
  - rewrite (proj2 (Z.leb_gt _ _) Hno). exists q. by split.
  - rewrite (proj2 (Z.leb_le _ _) Hyes).
    destruct (put_wrapped q l1 l2 x gap post) as (q' & E & R & N & S); try done; [lia|].
    rewrite E. simpl. by exists q'.
Qed.

Lemma enqueue_flat_wraps q l x pre post :
  block q → valid x → QFULL q = false → esize x <= len (buf q) →
  buf q = pre ++ cat l ++ post → head q = start q + len pre → tail q = head q + len (cat l) →
  wall q = end_ q → bytesfree q = len (buf q) - len (cat l) → len post < esize x → enqueued q l x.
Proof.
  intros Hbl Hx HQ Hfit Hb Hh Ht Hw Hf Hp. pose proof (esize_pos x Hx).
  pose proof (len_nonneg (cat l)). pose proof (len_nonneg pre).
  pose proof (bl_start q Hbl) as B1. pose proof (bl_end q Hbl) as B2.
  assert (end_ q - tail q = len post) as Hend by (rewrite B2, Hb, !len_app; lia).
  assert ((if wall q <=? tail q then with_wall q (end_ q) else q) = q) as Hq.
  { rewrite <- Hw. destruct (_ <=? _); [by destruct q|done]. }
  assert (tail q <? head q = false) as Hth by (apply Z.ltb_ge; lia).
  unfold enqueued, enqueue_elt, find_space, VQSPACETOEND, fits. fold (esize x).
  rewrite HQ, Hq, Hth, Hend, (proj2 (Z.ltb_lt _ _) Hp). rewrite (proj2 (Z.leb_gt _ _) Hp). simpl.
  assert (memset (buf q) (off q (tail q)) 255 (len post)
          = Ok (pre ++ cat l ++ replicate (length post) 255)) as ->.
  { rewrite Hb. rewrite app_assoc, <- (app_nil_r post) at 1. rewrite (memset_app (pre ++ cat l) post []).
    - by rewrite app_nil_r, <- app_assoc.
    - unfold off. fold (len (pre ++ cat l)). rewrite len_app. lia.
    - done. }
  cbn [cbind]. set (q1 := with_tail _ _).
  assert (len (replicate (length post) 255) = len post) as Hrep by (unfold len; by rewrite length_replicate).
  assert (block q1) as Hbl1.
  { split; simpl; [done| |]; rewrite !len_app, Hrep; rewrite Hb, !len_app in B2.
    - lia.
    - destruct Hbl as [_ _ B3]. rewrite Hb, !len_app in B3. lia. }
  assert (same_block q q1) as Hsb.
  { repeat split. simpl. rewrite Hb, !len_app. lia. }
  assert (start q < tail q) as Hst by (rewrite Hb, !len_app in Hfit; lia).
  assert (QFULL q1 = (head q =? start q)) as ->.
  { unfold QFULL, QFREESPACE. simpl. rewrite Hf, Hb, !len_app. rewrite Hb, !len_app in B2.
    destruct (Z.eqb_spec (head q) (start q)); apply Z.eqb_eq || apply Z.eqb_neq; lia. }
  assert (len (cat []) = 0) as Hnil by done.
  assert (rep q1 (l ++ [])) as Hr1.
  { apply (rep_wrapped _ _ l [] pre (replicate (length post) 255)); simpl; try done; try lia.
    rewrite Hf, Hb, !len_app, Hrep. lia. }
  rewrite app_nil_r in Hr1.
  destruct (Z.eqb_spec (head q) (start q)) as [Heq|Hne]; cbn [cbind].
  - rewrite (proj2 (Z.leb_gt (esize x) (head q - start q))) by lia. exists q1. by split.
  - assert (start q < head q) as Hsh by lia.
    change (tail q1) with (start q). change (head q1) with (head q).
    rewrite (proj2 (Z.ltb_lt _ _) Hsh). cbn [cbind].
    destruct (Z.ltb_spec (head q - start q) (esize x)) as [Hno|Hyes].
    + rewrite (proj2 (Z.leb_gt _ _) Hno). exists q1. by split.
    + rewrite (proj2 (Z.leb_le _ _) Hyes).
      destruct (put_wrapped q1 l [] x pre (replicate (length post) 255)) as (q' & E & R & N & S);
        simpl; try done; try lia.
      * rewrite Hf, Hb, !len_app, Hrep. lia.
      * rewrite E. simpl. rewrite app_nil_r in R. exists q'. split; [done|]. split; [|done].
        destruct Hsb as (? & ? & ? & ? & ?), S as (? & ? & ? & ? & ?). repeat split; congruence.
Qed.

Lemma enqueue_flat q l x pre post :
  block q → valid x → esize x <= len (buf q) →
  buf q = pre ++ cat l ++ post → head q = start q + len pre → tail q = head q + len (cat l) →
  wall q = end_ q → bytesfree q = len (buf q) - len (cat l) → enqueued q l x.
Proof.
  intros Hbl Hx Hfit Hb Hh Ht Hw Hf. assert (rep q l) as Hr by (by eapply rep_flat).
  destruct (QFULL q) eqn:HQ; [by apply enqueue_refuse_full|].
  destruct (Z_lt_ge_dec (len post) (esize x)) as [Hlt|Hge]; [by eapply enqueue_flat_wraps|].
  pose proof (len_nonneg (cat l)). pose proof (bl_end q Hbl) as B2.
  assert (end_ q - tail q = len post) as Hend by (rewrite B2, Hb, !len_app; lia).
  assert ((if wall q <=? tail q then with_wall q (end_ q) else q) = q) as Hq.
  { rewrite <- Hw. destruct (_ <=? _); [by destruct q|done]. }
  unfold enqueued, enqueue_elt, find_space, VQSPACETOEND, fits. fold (esize x).
  rewrite HQ, Hq, Hend. rewrite (proj2 (Z.ltb_ge (tail q) (head q))) by lia.
  rewrite (proj2 (Z.ltb_ge (len post) (esize x))) by lia. cbn [cbind].
  rewrite (proj2 (Z.ltb_ge (tail q) (head q))) by lia. cbn [cbind].
  rewrite (proj2 (Z.ltb_ge (len post) (esize x))) by lia.
  rewrite (proj2 (Z.leb_le (esize x) (len post))) by lia. simpl.
  destruct (put_flat q l x pre post) as (q' & E & R & N & S); try done; [lia|].
  rewrite E. simpl. by exists q'.
Qed.

Lemma enqueue_elt_ok q l x : ring q l → valid x → esize x <= len (buf q) → enqueued q l x.
Proof.
  intros [Hbl Hr _ _] Hx Hf. destruct Hr as [pre post|l1 l2 gap post -> ].
  - by eapply enqueue_flat.
  - by eapply enqueue_wrapped.
Qed.
(** Reading the element at the head and blanking it. *)
Lemma take_elt q x a c :
  block q → valid x → buf q = a ++ enc x ++ c → head q = start q + len a →
  bytesfree q ≠ end_ q - start q → head q ≤ wall q →
  (head q =? wall q) = false →
  dequeue_elt q = Ok (Some x,
    with_stats (with_head (with_buf q (a ++ replicate (length (enc x)) 0 ++ c)) (head q + esize x))
      (bytesfree q + esize x) (numelts q - 1) (avgfree q) (numcalls q)).
Proof.
  intros [B1 B2 B3] Hx Hb Hh Hf Hw Hhw. pose proof (length_enc x Hx) as Hl. pose proof (esize_pos x Hx).
  assert (esize x < 2 ^ 30) as Hsmall.
  { rewrite Hb, !len_app in B3. pose proof (len_nonneg a). pose proof (len_nonneg c). unfold len in *. lia. }
  assert (off q (head q) = len a) as Ho by (unfold off; lia).
  unfold dequeue_elt, VQSPACETOEND. rewrite (proj2 (Z.eqb_neq _ _) Hf).
  rewrite (proj2 (Z.ltb_ge (wall q) (head q))) by lia. rewrite Hhw, Ho, Hb.
  assert (peek (a ++ enc x ++ c) (len a + 4) 4 = Ok (le_bytes 4 (esize x))) as ->.
  { unfold enc. rewrite <- !app_assoc, app_assoc. apply peek_app; [|apply length_le_bytes].
    rewrite length_app, length_le_bytes. unfold len. lia. }
  cbn [cbind].
  assert (peek (a ++ enc x ++ c) (len a) 4 = Ok (le_bytes 4 ELTCHECK)) as ->.
  { unfold enc. rewrite <- !app_assoc. apply peek_app; [done|apply length_le_bytes]. }
  cbn [cbind]. rewrite (le_round 4 ELTCHECK) by done. cbn [negb Z.eqb].
  rewrite (le_round 4 (esize x)) by (simpl; lia).
  change VARATT_MASK_SIZE with (Z.ones 30). rewrite Z.land_ones, Z.mod_small by lia.
  replace (ELTCHECK =? ELTCHECK) with true by done. cbn [negb].
  assert (deserialize (drop (Z.to_nat (len a + QHDRSZ)) (a ++ enc x ++ c)) = Some x) as ->.
  { rewrite drop_app_ge by (unfold len, QHDRSZ; lia).
    replace (Z.to_nat (len a + QHDRSZ) - length a)%nat with (length (le_bytes 4 ELTCHECK ++ le_bytes 4 (esize x)))
      by (rewrite length_app, !length_le_bytes; unfold len, QHDRSZ; lia).
    unfold enc. rewrite <- !app_assoc, (app_assoc (le_bytes 4 ELTCHECK)), drop_app_length.
    by apply ser_round. }
  cbn [access cbind]. rewrite (memset_app a (enc x) c) by (done || by apply length_enc). done.
Qed.

Lemma dequeue_empty q : rep q [] → block q → dequeue_elt q = Ok (None, q).
Proof.
  intros Hr [B1 B2 B3]. unfold dequeue_elt, VQSPACETOEND.
  assert (len (cat []) = 0) as Hnil by done.
  destruct Hr as [pre post Hb Hh Ht Hw Hf|l1 l2 gap post Hl Hb Ht Hh Hw Hsw Hf].
  - by rewrite (proj2 (Z.eqb_eq _ _)) by lia.
  - destruct l1, l2; try done. by rewrite (proj2 (Z.eqb_eq _ _)) by lia.
Qed.

Definition dequeued (q : Queue) (x : T) (l : list T) : Prop :=
  ∃ q', dequeue_elt q = Ok (Some x, q') ∧ same_block q q' ∧ rep q' l
    ∧ numelts q' = numelts q - 1 ∧ bytesfree q' = bytesfree q + esize x.

Lemma len_blank x : len (replicate (length (enc x)) 0) = len (enc x).
Proof. unfold len. by rewrite length_replicate. Qed.

Lemma dequeue_flat q x l pre post :
  block q → valid x → buf q = pre ++ cat (x :: l) ++ post →
  head q = start q + len pre → tail q = head q + len (cat (x :: l)) → wall q = end_ q →
  bytesfree q = len (buf q) - len (cat (x :: l)) → dequeued q x l.
Proof.
  intros Hbl Hx Hb Hh Ht Hw Hf. rewrite cat_cons in *. rewrite len_app in *.
  pose proof (esize_pos x Hx). pose proof (len_nonneg (cat l)). pose proof (len_nonneg post).
  assert (len (enc x) = esize x) as Hl by (by apply length_enc).
  pose proof (bl_end q Hbl) as B2.
  assert (head q < wall q) as Hhw by (rewrite Hw, B2, Hb, !len_app; lia).
  eexists. split; [apply (take_elt q x pre (cat l ++ post)); try done; try lia|].
  - by rewrite Hb, <- app_assoc.
  - split; [|split; [|done]].
    + repeat split. qsimpl. rewrite Hb, !len_app, len_blank. lia.
    + apply (rep_flat _ _ (pre ++ replicate (length (enc x)) 0) post); qsimpl.
      * by rewrite <- app_assoc.
      * rewrite len_app, len_blank. lia.
      * lia.
      * done.
      * rewrite Hf, Hb, !len_app, len_blank. lia.
Qed.

Lemma dequeue_wrapped q x l1 l2 gap post :
  block q → valid x → buf q = cat l2 ++ gap ++ cat (x :: l1) ++ post →
  tail q = start q + len (cat l2) → head q = tail q + len gap →
  wall q = head q + len (cat (x :: l1)) → bytesfree q = len (buf q) - len (cat (x :: l1)) - len (cat l2) →
  dequeued q x (l1 ++ l2).
Proof.
  intros Hbl Hx Hb Ht Hh Hw Hf. rewrite cat_cons in *. rewrite len_app in *.
  pose proof (esize_pos x Hx). pose proof (len_nonneg (cat l1)). pose proof (len_nonneg (cat l2)).
  pose proof (len_nonneg gap).
  assert (len (enc x) = esize x) as Hl by (by apply length_enc).
  pose proof (bl_end q Hbl) as B2.
  eexists. split; [apply (take_elt q x (cat l2 ++ gap) (cat l1 ++ post)); try done; try lia|].
  - by rewrite Hb, <- !app_assoc.
  - rewrite len_app. lia.
  - split; [|split; [|done]].
    + repeat split. qsimpl. rewrite Hb, !len_app, len_blank. lia.
    + apply (rep_wrapped _ _ l1 l2 (gap ++ replicate (length (enc x)) 0) post); qsimpl; try done; try lia.
      * by rewrite <- !app_assoc.
      * rewrite len_app, len_blank. lia.
      * rewrite Hf, Hb, !len_app, len_blank. lia.
Qed.

(** A wrapped queue whose first piece is used up: the head goes back to the
    start and the layout is flat again. *)
Lemma dequeue_rewind q : head q = wall q → bytesfree q ≠ end_ q - start q → start q < end_ q →
  dequeue_elt q = dequeue_elt (with_wall (with_head q (start q)) (end_ q)).
Proof.
  intros Hh Hb Hlt. unfold dequeue_elt, VQSPACETOEND. qsimpl.
  rewrite (proj2 (Z.eqb_neq _ _) Hb), Hh, Z.ltb_irrefl, Z.eqb_refl.
  rewrite (proj2 (Z.ltb_ge (end_ q) (start q))) by lia.
  rewrite (proj2 (Z.eqb_neq (start q) (end_ q))) by lia. done.
Qed.

Lemma dequeue_elt_ok q x l : ring q (x :: l) → dequeued q x l.
Proof.
  intros [Hbl Hr _ Hv]. apply Forall_cons in Hv as [Hx _].
  destruct Hr as [pre post Hb Hh Ht Hw Hf|l1 l2 gap post Hl Hb Ht Hh Hw Hsw Hf].
  - by eapply dequeue_flat.
  - destruct l1 as [|y l1].
    + simpl in Hl. subst l2. pose proof (esize_pos x Hx). pose proof (bl_end q Hbl) as B2.
      assert (len (cat []) = 0) as Hnil by done. rewrite Hnil in *.
      assert (0 < len (cat (x :: l))) as Hpos by (by apply len_cat_pos).
      pose proof (len_nonneg gap). pose proof (len_nonneg post).
      assert (len (cat (x :: l)) <= len (buf q)) as Hle.
      { rewrite Hb, !len_app, Hnil. lia. }
      destruct (dequeue_flat (with_wall (with_head q (start q)) (end_ q)) x l [] (gap ++ post))
        as (q' & E & S & R & N & F); qsimpl; try done.
      * destruct Hbl. by split.
      * change (len []) with 0. lia.
      * lia.
      * exists q'. split; [|by destruct S as (? & ? & ? & ? & ?)].
        rewrite <- E. apply dequeue_rewind; lia.
    + simpl in Hl. injection Hl as <- ->. by eapply dequeue_wrapped.
Qed.

(** ** The ring as a queue of elements *)

(** C21: [enqueue_elt] on a ring that holds [l], for any element that is not
    larger than the whole ring: it writes inside the ring and never stops with
    an error; it answers true exactly when the element fits where the code puts
    it (before the head when wrapped, at the end, or at the front after
    wrapping), and then the ring holds [l] and the element; otherwise it still
    holds [l]. *)
Theorem enqueue_elt_refines q l x :
  ring q l → valid x → esize x <= len (buf q) →
  ∃ q', enqueue_elt q x = Ok (fits q x, q') ∧ ring q' (if fits q x then l ++ [x] else l)
    ∧ same_block q q'.
Proof.
  intros Hr Hx Hs. destruct (enqueue_elt_ok q l x Hr Hx Hs) as (q' & E & S & R & N).
  exists q'. split; [done|]. split; [|done]. destruct Hr as [Hbl _ Hn Hv].
  split; [by eapply block_same|done| |].
  - rewrite N, Hn. destruct (fits q x); [|done]. rewrite length_app. simpl. lia.
  - destruct (fits q x); [|done]. apply Forall_app. split; [done|]. by constructor.
Qed.

(** [dequeue_elt] answers false on a ring that holds nothing and leaves it;
    otherwise it returns the first element, as it was enqueued, and the ring
    holds the others.  The checks for a damaged queue never fire. *)
Theorem dequeue_elt_refines q l :
  ring q l →
  match l with
  | [] => dequeue_elt q = Ok (None, q)
  | x :: l' => ∃ q', dequeue_elt q = Ok (Some x, q') ∧ ring q' l' ∧ same_block q q'
                 ∧ bytesfree q' = bytesfree q + esize x
  end.
Proof.
  intros Hr. destruct l as [|x l].
  - destruct Hr as [Hbl Hr _ _]. by apply dequeue_empty.
  - destruct (dequeue_elt_ok q x l Hr) as (q' & E & S & R & N & F). exists q'.
    split; [done|]. split; [|done]. destruct Hr as [Hbl _ Hn Hv].
    split; [by eapply block_same|done| |by apply Forall_cons in Hv as [_ ?]].
    rewrite N, Hn. simpl. lia.
Qed.
End ring.

Arguments ring {T _} valid q l.

End RQSpec.
