(* ===== verification/ResultQFifo.v ===== *)
(** * The locked interface of the element queue

    [enqueue] and [dequeue] of [resultq.c], with each kind of lock, implement
    the interface [Fifo]; construction and reset; the limits of the design. *)

From Stdlib Require Import Floats.SpecFloat.
From S2P Require Import Prelude Fifo ResultQ ResultQSpec.

Module RQFifo.
Import RQ RQSpec.
Local Open Scope Z_scope.

(** A lock nobody holds; the [full] semaphore counts the elements. *)
Definition idle (l : queue_lock) (n : nat) : Prop :=
  match l with
  | NoLock => True
  | SpinLock held => held = false
  | SemLock e f m => 0 <= e ∧ f = Z.of_nat n ∧ m = 1
  end.

Section locked.
Context {T : Type} `{SerializerOk T valid}.

Definition queue_ok (q : Queue) (l : list T) : Prop := ring valid q l ∧ idle (ql q) (length l).

(** Elements the ring could hold if it were empty. *)
Definition small (q : Queue) (x : T) : Prop := valid x ∧ esize x <= len (buf q).

Lemma ring_with_lock q l k : ring valid q l → ring valid (with_lock q k) l.
Proof.
  intros [[B1 B2 B3] Hr Hn Hv]. split; [by split| |done|done].
  destruct Hr as [pre post|l1 l2 gap post].
  - by eapply (rep_flat _ _ pre post).
  - by eapply (rep_wrapped _ _ l1 l2 gap post).
Qed.

(** Taking the mutex of an idle lock, after a count went down. *)
Lemma lock_idle k n : idle k n → ∃ k', mutex_lock k = Ok k' ∧ mutex_unlock k' = k.
Proof.
  destruct k as [|held|e f m]; simpl.
  - by exists NoLock.
  - intros ->. by exists (SpinLock true).
  - intros (_ & _ & ->). by exists (SemLock e f 0).
Qed.

Lemma enqueue_nonblocking q l x : queue_ok q l → small q x →
  ∃ q', enqueue q x false = Ok (fits q x, q') ∧ queue_ok q' (if fits q x then l ++ [x] else l)
    ∧ len (buf q') = len (buf q).
Proof.
  intros [Hr Hi] [Hx Hs]. pose proof (esize_pos x Hx) as Hp.
  pose proof (bl_end q (ri_block _ _ Hr)) as Hend. unfold enqueue.
  assert (1 <= (end_ q - start q) / QHDRSZ) as Ht by (apply Z.div_le_lower_bound; unfold QHDRSZ; lia).
  unfold cassert. rewrite (proj2 (Z.ltb_lt 0 _)) by lia. cbn [cbind].
  destruct (Z.to_nat ((end_ q - start q) / QHDRSZ)) as [|n] eqn:Hn; [lia|]. cbn [enqueue_loop negb].
  (* the count of empty slots goes down if it can *)
  assert (∃ l1, (if IsSemaphoreLock (ql q) then let! (_, l) := empty_down (ql q) true in Ok l else Ok (ql q)) = Ok l1
            ∧ idle l1 (length l) ∧ IsSemaphoreLock l1 = IsSemaphoreLock (ql q)) as (l1 & -> & Hi1 & Hsem).
  { destruct (ql q) as [|held|e f m]; simpl in *; [by exists NoLock|by exists (SpinLock held)|].
    destruct Hi as (He & -> & ->). unfold sem_down. destruct (Z.ltb_spec 0 e); simpl;
      eexists; split; try done; simpl; repeat split; lia. }
  cbn [cbind]. destruct (lock_idle l1 _ Hi1) as (l2 & E2 & Hu). rewrite E2. cbn [cbind].
  destruct (enqueue_elt_ok (with_lock q l2) l x (ring_with_lock _ _ _ Hr) Hx Hs)
    as (q1 & E1 & (A & S & En & Lb & Lq) & R & N).
  change (fits (with_lock q l2) x) with (fits q x) in *. rewrite E1. cbn [cbind]. qsimpl.
  rewrite Lq, Hu.
  assert (block q1) as Hb1.
  { eapply block_same; [apply (ri_block _ _ (ring_with_lock _ _ l2 Hr))|]. by repeat split. }
  assert (ring valid q1 (if fits q x then l ++ [x] else l)) as Hr1.
  { destruct Hr as [_ _ Hnum Hv]. split; [done|done| |].
    - rewrite N, Hnum. destruct (fits q x); [|done]. rewrite length_app. simpl. lia.
    - destruct (fits q x); [|done]. apply Forall_app. split; [done|]. by constructor. }
  destruct (fits q x); cbn [andb].
  - destruct l1 as [|held|e f m]; simpl; eexists; (split; [done|]); (split; [|done]);
      (split; [by apply (ring_with_lock q1)|]); simpl in *; [done|done|].
    rewrite length_app. simpl. split; [|split]; lia.
  - eexists. split; [done|]. split; [|done]. split; [by apply (ring_with_lock q1)|done].
Qed.

Lemma dequeue_nonblocking q l : queue_ok q l →
  ∃ q', dequeue q false = Ok (hd_error l, q') ∧ queue_ok q' (tl l) ∧ len (buf q') = len (buf q).
Proof.
  intros [Hr Hi]. unfold dequeue. cbn [negb].
  assert (∃ l1, (if IsSemaphoreLock (ql q) then let! (_, l) := full_down (ql q) true in Ok l else Ok (ql q)) = Ok l1
            ∧ idle l1 (length (tl l))) as (l1 & -> & Hi1).
  { destruct (ql q) as [|held|e f m]; simpl in *; [by exists NoLock|by exists (SpinLock held)|].
    destruct Hi as (He & -> & ->). unfold sem_down. destruct l as [|y l]; simpl;
      eexists; split; try done; simpl; repeat split; lia. }
  cbn [cbind]. destruct (lock_idle l1 _ Hi1) as (l2 & E2 & Hu). rewrite E2. cbn [cbind].
  pose proof (ring_with_lock q l l2 Hr) as Hr2. destruct l as [|y l].
  - rewrite (dequeue_empty (with_lock q l2)) by apply Hr2. cbn [cbind]. qsimpl. rewrite Hu.
    eexists. split; [done|]. split; [|done]. split; [by apply (ring_with_lock q)|done].
  - destruct (dequeue_elt_ok _ y l Hr2) as (q1 & E1 & (A & S & En & Lb & Lq) & R & N & F).
    rewrite E1. cbn [cbind]. qsimpl. rewrite Lq, Hu.
    assert (ring valid q1 l) as Hr1.
    { destruct Hr2 as [Hb _ Hnum Hv]. qsimpl. split; [|done| |by apply Forall_cons in Hv as [_ ?]].
      - eapply block_same; [apply Hb|]. by repeat split.
      - rewrite N, Hnum. simpl. lia. }
    destruct l1 as [|held|e f m]; simpl; eexists; (split; [done|]); (split; [|done]);
      (split; [by apply (ring_with_lock q1)|]); simpl in *; [done|done|].
    split; [|split]; lia.
Qed.

#[export] Instance ResultQ_Fifo : Fifo Queue T := {
  fifo_enq q x := enqueue q x false;
  fifo_deq q := dequeue q false
}.

#[export] Instance ResultQ_FifoLaws : FifoLaws Queue T queue_ok small.
Proof.
  split.
  - intros q l x Hq Hx. destruct (enqueue_nonblocking q l x Hq Hx) as (q' & E & Hq' & Hl).
    exists (fits q x), q'. split; [done|]. split; [done|]. intros y [Hv Hy]. split; [done|]. by rewrite Hl.
  - intros q l Hq. destruct (dequeue_nonblocking q l Hq) as (q' & E & Hq' & Hl).
    exists q'. split; [done|]. split; [done|]. intros y [Hv Hy]. split; [done|]. by rewrite Hl.
Qed.
(** ** Construction *)

Lemma make_queue_ring a lock sz : 80 <= sz <= MaxAllocSize →
  ∃ q, make_queue a lock sz = Ok (Some q) ∧ ring valid q [] ∧ len (buf q) = sz - 80
    ∧ head q = start q ∧ tail q = start q ∧ wall q = end_ q ∧ bytesfree q = len (buf q)
    ∧ (match lock with Some k => ql q = k | None => ∃ e, 0 <= e ∧ ql q = SemLock e 0 1 end).
Proof.
  intros Hsz. unfold make_queue. unfold wrap, MaxAllocSize in *.
  rewrite (Z.mod_small sz) by lia.
  rewrite (proj2 (Z.ltb_ge sz sizeof_Queue)) by (unfold sizeof_Queue; lia).
  rewrite (proj2 (Z.ltb_ge 1073741823 sz)) by lia. eexists. split; [done|]. qsimpl.
  assert (len (replicate (Z.to_nat (sz - sizeof_Queue)) 0) = sz - 80) as Hl.
  { unfold len. rewrite length_replicate. unfold sizeof_Queue. lia. }
  split; [|split; [done|]].
  - split; qsimpl; [split; qsimpl; rewrite ?Hl; unfold sizeof_Queue; lia| |done|by constructor].
    apply (rep_flat _ _ [] (replicate (Z.to_nat (sz - sizeof_Queue)) 0)); qsimpl; rewrite ?Hl.
    + done.
    + change (len []) with 0. lia.
    + change (len (cat [])) with 0. lia.
    + done.
    + change (len (cat [])) with 0. unfold sizeof_Queue. lia.
  - rewrite Hl. split; [done|]. split; [done|]. split; [done|]. split; [unfold sizeof_Queue; lia|].
    destruct lock as [k|]; [done|]. unfold make_lock_sem. eexists. split; [|done].
    destruct (_ <? MINELTEST) eqn:E; [done|]. apply Z.ltb_ge in E. unfold MINELTEST in E. lia.
Qed.

(** [make_queue] with enough room for its header returns a queue that holds
    nothing, with a lock nobody holds, the given one or a fresh semaphore lock;
    a smaller size gives no queue, and a size palloc refuses stops with its
    error. *)
Theorem make_queue_spec a lock sz :
  0 <= sz < 2 ^ 31 → (∀ k, lock = Some k → idle k 0) →
  if sz <? 80 then make_queue a lock sz = Ok None
  else if MaxAllocSize <? sz
  then make_queue a lock sz = Fail (Elog "MemoryContextAlloc: invalid request size")
  else ∃ q, make_queue a lock sz = Ok (Some q) ∧ queue_ok q [] ∧ len (buf q) = sz - 80.
Proof.
  intros Hsz Hk. destruct (Z.ltb_spec sz 80) as [Hlt|Hge].
  - unfold make_queue, wrap. rewrite Z.mod_small by lia.
    by rewrite (proj2 (Z.ltb_lt sz sizeof_Queue)) by (unfold sizeof_Queue; lia).
  - destruct (Z.ltb_spec MaxAllocSize sz) as [Hbig|Hok].
    + unfold make_queue, wrap. rewrite Z.mod_small by lia.
      rewrite (proj2 (Z.ltb_ge sz sizeof_Queue)) by (unfold sizeof_Queue; lia).
      by rewrite (proj2 (Z.ltb_lt MaxAllocSize sz) Hbig).
    + destruct (make_queue_ring a lock sz) as (q & E & Hr & Hl & _ & _ & _ & _ & Hq); [lia|].
      exists q. split; [done|]. split; [|done]. split; [done|]. destruct lock as [k|].
      * rewrite Hq. by apply Hk.
      * destruct Hq as (e & He & ->). simpl. lia.
Qed.

(** C13: Every sequence of non-blocking [enqueue]s and [dequeue]s on a queue that
    [make_queue] built runs without error, with any of the lock kinds: what
    comes out is what was accepted, in order and unchanged, and what is left in
    the queue at the end is the rest. *)
Theorem resultq_trace a lock sz ops :
  80 <= sz <= MaxAllocSize → (∀ k, lock = Some k → idle k 0) →
  Forall (λ o, match o with Enq x => valid x ∧ esize x <= sz - 80 | Deq => True end) ops →
  ∃ q0 ins outs q l, make_queue a lock sz = Ok (Some q0) ∧ run ops q0 = Ok (ins, outs, q)
    ∧ ins = outs ++ l ∧ queue_ok q l.
Proof.
  intros Hsz Hk Ho. destruct (make_queue_ring a lock sz Hsz) as (q & E & Hr & Hl & _ & _ & _ & _ & Hq).
  assert (queue_ok q []) as Hok.
  { split; [done|]. destruct lock as [k|]; [rewrite Hq; by apply Hk|].
    destruct Hq as (e & He & ->). simpl. lia. }
  destruct (run_ok ops q [] Hok) as (ins & outs & q' & l & Er & Hh & Heq).
  - eapply Forall_impl; [done|]. intros [x|]; [|done]. intros [Hv Hx]. split; [done|]. by rewrite Hl.
  - by exists q, ins, outs, q', l.
Qed.

Lemma clear_queue_ok q l :
  queue_ok q l → ∃ q', clear_queue q = Ok q' ∧ queue_ok q' [] ∧ same_block q (with_lock q' (ql q))
    ∧ bytesfree q' = len (buf q) ∧ numelts q' = 0 ∧ numcalls q' = 0
    ∧ head q' = start q' ∧ tail q' = start q' ∧ wall q' = end_ q'.
Proof.
  intros [Hr Hi]. unfold clear_queue. destruct (lock_idle _ _ Hi) as (k & E & Hu). rewrite E. cbn [cbind].
  pose proof (ri_block _ _ Hr) as [B1 B2 B3]. set (q3 := with_stats _ _ _ _ _).
  assert (ring valid q3 []) as Hr3.
  { split; [by split| |done|by constructor]. apply (rep_flat _ _ [] (buf q)); unfold q3; qsimpl; try done.
    - change (len []) with 0. lia.
    - change (len (cat [])) with 0. lia.
    - change (len (cat [])) with 0. unfold VQSPACETOEND. qsimpl. lia. }
  eexists. split; [done|].
  assert (∀ k', queue_ok (with_lock q3 k') [] ↔ idle k' 0) as Hq.
  { intros k'. split; [by intros [_ ?]|]. intros Hk. split; [by apply ring_with_lock|done]. }
  assert (bytesfree q3 = len (buf q)) as Hb by (unfold q3, VQSPACETOEND; qsimpl; lia).
  destruct k as [|held|e f m]; simpl in Hu; rewrite <- Hu in Hi; unfold q3 in *; qsimpl.
  - split; [by apply Hq|]. by repeat split.
  - split; [by apply Hq|]. by repeat split.
  - split; [apply Hq; simpl in Hi |- *|by repeat split]. split; [|split; [done|lia]].
    rewrite Hb. destruct (_ <? _); [unfold MAXELTEST; lia|]. apply Z.div_pos; [apply len_nonneg|done].
Qed.

(** [clear_queue] empties a queue whatever it holds, resets its counts, and
    makes the whole ring available: any element the ring has room for is
    accepted next. *)
Theorem clear_queue_spec q l :
  queue_ok q l → ∃ q', clear_queue q = Ok q' ∧ queue_ok q' [] ∧ same_block q (with_lock q' (ql q))
    ∧ numelts q' = 0 ∧ numcalls q' = 0
    ∧ ∀ x, small q x → ∃ q'', enqueue q' x false = Ok (true, q'') ∧ queue_ok q'' [x].
Proof.
  intros Hq. destruct (clear_queue_ok q l Hq) as (q' & E & Hq' & Hs & Hf & Hn & Hc & Hh & Ht & Hw).
  exists q'. split_and!; try done. intros x [Hx Hsm]. pose proof (esize_pos x Hx).
  destruct Hs as (_ & _ & _ & Hl & _). qsimpl. pose proof (bl_end q' (ri_block _ _ (proj1 Hq'))) as He.
  destruct (enqueue_nonblocking q' [] x Hq') as (q'' & E' & Hq'' & _); [split; [done|lia]|].
  assert (fits q' x = true) as Hfit.
  { unfold fits, QFULL, QFREESPACE. rewrite Hf, Hw, Ht, Hh.
    rewrite (proj2 (Z.eqb_neq _ 0)) by lia. rewrite Z.ltb_irrefl.
    by rewrite (proj2 (Z.leb_le (esize x) (end_ q' - start q'))) by lia. }
  rewrite Hfit in *. by exists q''.
Qed.

(** ** The limits of the design *)

(** C40: On a queue as [make_queue] leaves it, an element up to five bytes larger
    than the ring can take passes [check_capacity], is refused by [enqueue_elt],
    and leaves the queue unable to take any element at all, although it is empty
    and every dequeue finds nothing. *)
Theorem oversized_element_wedges a lock sz x :
  80 < sz <= MaxAllocSize → (∀ k, lock = Some k → idle k 0) → valid x →
  sz - 80 < esize x <= sz - 80 + PADSIZE →
  ∃ q q1, make_queue a lock sz = Ok (Some q)
    ∧ check_capacity q (determineSize x) = Ok (true, q)
    ∧ enqueue_elt q x = Ok (false, q1) ∧ QEMPTY q1 = true
    ∧ ∀ y : T, enqueue_elt q1 y = Ok (false, q1) ∧ dequeue_elt (T := T) q1 = Ok (None, q1).
Proof.
  intros Hsz Hk Hx He. destruct (make_queue_ring a lock sz ltac:(lia)) as (q & E & Hr & Hl & Hh & Ht & Hw & Hf & Hq).
  pose proof (ri_block _ _ Hr) as [B1 B2 B3].
  set (q1 := with_tail (with_wall (with_buf q (replicate (length (buf q)) 255)) (tail q)) (start q)).
  assert (idle (ql q) 0) as Hi.
  { destruct lock as [k|]; [rewrite Hq; by apply Hk|]. destruct Hq as (e & ? & ->). simpl. lia. }
  exists q, q1. split; [done|]. split; [|split; [|split]].
  - unfold check_capacity. destruct (lock_idle _ _ Hi) as (k & -> & Hu). cbn [cbind].
    rewrite Hu. unfold QFREESPACE, wrap, MaxAllocSize in *. pose proof (ser_size x Hx).
    unfold esize, PADSIZE in He. unfold QHDRSZ in *.
    rewrite !Z.mod_small by lia. rewrite (proj2 (Z.leb_le _ _)) by lia. by destruct q.
  - unfold enqueue_elt, find_space, QFULL, QFREESPACE, VQSPACETOEND. fold (esize x).
    pose proof (esize_pos x Hx).
    rewrite Hw, Hf, Ht, Hl. replace (sz - 80 - (end_ q - end_ q)) with (sz - 80) by lia.
    rewrite (proj2 (Z.eqb_neq (sz - 80) 0)) by lia.
    rewrite (proj2 (Z.leb_gt (end_ q) (start q))) by lia. rewrite Hh, Ht, Z.ltb_irrefl.
    rewrite (proj2 (Z.ltb_lt (end_ q - start q) (esize x))) by lia.
    rewrite <- (app_nil_r (buf q)) at 1. rewrite (memset_app [] (buf q) []).
    + cbn [cbind]. qsimpl. rewrite Hf, Hl.
      replace (sz - 80 - (end_ q - start q)) with 0 by lia. cbn [cbind Z.eqb].
      unfold q1. by rewrite Ht, app_nil_r.
    + unfold off. simpl. lia.
    + fold (len (buf q)). lia.
  - unfold QEMPTY, VQSPACETOEND, q1. qsimpl. apply Z.eqb_eq. lia.
  - intros y. split.
    + unfold enqueue_elt, QFULL, QFREESPACE, q1. qsimpl. by rewrite (proj2 (Z.eqb_eq _ 0)) by lia.
    + unfold dequeue_elt, VQSPACETOEND, q1. qsimpl. by rewrite (proj2 (Z.eqb_eq _ _)) by lia.
Qed.

(** ** Moving a queue *)

(** A copy of the block at another address, pointers as they were. *)
Definition moved_to (q : Queue) (a : Z) : Queue :=
  mkQueue a (size q) (qid q) (start q) (end_ q) (head q) (tail q) (wall q) (ql q)
    (bytesfree q) (numelts q) (avgfree q) (numcalls q) (buf q).

Lemma swizzle_ok q l a :
  ring valid q l → head q = start q → 0 < len (buf q) →
  ∃ q', swizzle_queue_ptrs (moved_to q a) = Ok q' ∧ ring valid q' l
    ∧ start q' = a + sizeof_Queue ∧ addr q' = a ∧ ql q' = NoLock.
Proof.
  intros [Hbl Hr Hn Hv] Hh Hpos. pose proof Hbl as [B1 B2 B3].
  unfold swizzle_queue_ptrs, moved_to, QEMPTY, QFULL, QFREESPACE, VQSPACETOEND. qsimpl.
  assert (len (cat []) = 0) as Hnil by done.
  set (q' := with_ptrs (with_lock (moved_to q a) NoLock) (a + sizeof_Queue)
               (end_ q - start q + (a + sizeof_Queue)) (head q - start q + (a + sizeof_Queue))
               (tail q - start q + (a + sizeof_Queue)) (wall q - start q + (a + sizeof_Queue))).
  destruct Hr as [pre post Hb Hhd Ht Hw Hf|l1 l2 gap post -> Hb Ht Hhd Hw Hsw Hf].
  - assert (pre = []) as -> by (apply nil_length_inv; unfold len in Hhd; lia).
    pose proof (len_nonneg (cat l)).
    rewrite (proj2 (Z.eqb_neq (head q - start q + (a + sizeof_Queue)) _)) by lia. qsimpl.
    assert (ring valid q' l) as Hr'.
    { split; [split; unfold q', moved_to; qsimpl; lia| |done|done].
      apply (rep_flat _ _ [] post); unfold q', moved_to; qsimpl; try done; try lia. }
    destruct (Z.eqb_spec (tail q - start q + (a + sizeof_Queue)) (head q - start q + (a + sizeof_Queue))) as [Heq|Hne].
    + rewrite (proj2 (Z.eqb_eq (bytesfree q) _)) by lia. by exists q'.
    + rewrite (proj2 (Z.ltb_ge _ _)) by lia. rewrite (proj2 (Z.eqb_eq (bytesfree q) _)) by lia.
      by exists q'.
  - assert (gap = []) as -> by (apply nil_length_inv; unfold len in *; lia).
    change (len []) with 0 in *.
    assert (len (cat l2) = 0) as Hc2 by (unfold len in *; simpl in *; lia).
    rewrite (proj2 (Z.eqb_neq (head q - start q + (a + sizeof_Queue)) _)) by lia. qsimpl.
    rewrite (proj2 (Z.eqb_eq (tail q - start q + (a + sizeof_Queue)) _)) by (rewrite Hhd; change (len []) with 0; lia).
    rewrite (proj2 (Z.eqb_eq (_ - (_ - _)) 0)) by lia. rewrite orb_true_r.
    exists q'. split; [done|]. split; [|done].
    split; [split; unfold q', moved_to; qsimpl; lia| |done|done].
    apply (rep_wrapped _ _ l1 l2 [] post); unfold q', moved_to; qsimpl; try done; change (len []) with 0; lia.
Qed.

(** A queue that was only filled since it was last empty (its head is at the
    start) can be copied to any address and swizzled: the integrity check
    passes, the pointers are those of the copy, it holds the same elements, and
    a dequeue takes the first of them. *)
Theorem swizzle_preserves q l a :
  ring valid q l → head q = start q → 0 < len (buf q) →
  ∃ q', swizzle_queue_ptrs (moved_to q a) = Ok q' ∧ ring valid q' l
    ∧ start q' = a + sizeof_Queue ∧ addr q' = a ∧ ql q' = NoLock
    ∧ ∃ q'', dequeue q' false = Ok (hd_error l, q'') ∧ ring valid q'' (tl l).
Proof.
  intros Hr Hh Hpos. destruct (swizzle_ok q l a Hr Hh Hpos) as (q' & E & Hr' & Hs & Ha & Hl).
  exists q'. split_and!; try done.
  destruct (dequeue_nonblocking q' l) as (q'' & E' & [Hr'' _] & _); [split; [done|by rewrite Hl]|].
  by exists q''.
Qed.

(** The integrity check of [swizzle_queue_ptrs] takes the used bytes of a
    wrapped queue for the free ones: a sound queue that has wrapped stops it,
    unless it happens to be exactly half full. *)
Theorem swizzle_rejects_wrapped q l a :
  ring valid q l → tail q < head q → head q < wall q →
  2 * (len (buf q) - bytesfree q) ≠ len (buf q) →
  swizzle_queue_ptrs (moved_to q a) = Fail AssertFail.
Proof.
  intros [Hbl Hr Hn Hv] Hth Hhw Hhalf. pose proof Hbl as [B1 B2 B3].
  unfold swizzle_queue_ptrs, moved_to. qsimpl.
  destruct Hr as [pre post Hb Hhd Ht Hw Hf|l1 l2 gap post -> Hb Ht Hhd Hw Hsw Hf].
  - pose proof (len_nonneg (cat l)). lia.
  - rewrite (proj2 (Z.eqb_neq (head q - start q + (a + sizeof_Queue)) _)) by lia. qsimpl.
    rewrite (proj2 (Z.eqb_neq (tail q - start q + (a + sizeof_Queue)) _)) by lia.
    rewrite (proj2 (Z.ltb_lt (tail q - start q + (a + sizeof_Queue)) _)) by lia.
    by rewrite (proj2 (Z.eqb_neq (bytesfree q) _)) by lia.
Qed.
End locked.
End RQFifo.
