(* ===== verification/Serializers.v ===== *)
(** * The serializers of the queues

    [result_serializer] and [tuple_serializer] of
    [src/src/backend/rqueue/rqdest.c], and the structure copies of [planq.c] and
    [controlq.c].  A heap tuple is the bytes of its data ([t_len] is their
    number), a varlena is its bytes with the length word in front, a structure
    that is copied whole is its bytes. *)

From Stdlib Require Import Floats.SpecFloat.
From S2P Require Import Prelude Fifo ResultQ ResultQSpec ResultQFifo.

Module Ser.
Import RQ RQSpec RQFifo.
Local Open Scope Z_scope.

(** ** Heap tuples *)

Record HeapTuple : Type := mkTuple { t_data : list Z }.
Definition t_len (t : HeapTuple) : Z := Z.of_nat (length (t_data t)).

Definition heaptuple_determineSize (t : HeapTuple) : Z := t_len t + 4.

Definition heaptuple_serialize (t : HeapTuple) : list Z :=
  le_bytes 4 (t_len t) ++ (if 0 <? t_len t then t_data t else []).

Definition heaptuple_deserialize (src : list Z) : option HeapTuple :=
  if Z.of_nat (length src) <? 4 then None
  else
    let len := le_value (take 4 src) in
    if 0 <? len then
      if Z.of_nat (length (drop 4 src)) <? len then None
      else Some (mkTuple (take (Z.to_nat len) (drop 4 src)))
    else Some (mkTuple []).

(** [t_len] is a 32-bit unsigned number. *)
Definition tuple_ok (t : HeapTuple) : Prop := t_len t < 2 ^ 32.

(** ** Varlena values *)

Definition varlena_determineSize (v : list Z) : Z :=
  Z.land (le_value (take 4 v)) VARATT_MASK_SIZE.

Definition varlena_serialize (v : list Z) : list Z := take (Z.to_nat (varlena_determineSize v)) v.

Definition varlena_deserialize (src : list Z) : option (list Z) :=
  if Z.of_nat (length src) <? 4 then None
  else
    let size := varlena_determineSize src in
    if Z.of_nat (length src) <? size then None else Some (take (Z.to_nat size) src).

(** The length word says how long the value is. *)
Definition varlena_ok (v : list Z) : Prop :=
  (4 <= length v)%nat ∧ varlena_determineSize v = Z.of_nat (length v).

(** ** Results *)

Inductive result : Type :=
  | RESULT_DONE
  | RESULT_ERROR (error : list Z)
  | RESULT_HEAPTUPLE (tuple : HeapTuple)
  | RESULT_FPRODSYNC (info : Z)
  | RESULT_FCONSSYNC
  | RESULT_FPRODALIVE (info : Z)
  | RESULT_PAUSEACK.

(** The values of the enumeration [ResultType]. *)
Definition type_code (r : result) : Z :=
  match r with
  | RESULT_DONE => 199 | RESULT_ERROR _ => 200 | RESULT_HEAPTUPLE _ => 201
  | RESULT_FPRODSYNC _ => 202 | RESULT_FCONSSYNC => 203 | RESULT_FPRODALIVE _ => 204
  | RESULT_PAUSEACK => 205
  end.

Definition result_determineSize (r : result) : Z :=
  4 + match r with
      | RESULT_HEAPTUPLE t => heaptuple_determineSize t
      | RESULT_ERROR v => varlena_determineSize v
      | RESULT_FPRODSYNC _ | RESULT_FPRODALIVE _ => 4
      | RESULT_PAUSEACK | RESULT_FCONSSYNC | RESULT_DONE => 0
      end.

Definition result_serialize (r : result) : list Z :=
  le_bytes 4 (type_code r) ++
  match r with
  | RESULT_HEAPTUPLE t => heaptuple_serialize t
  | RESULT_ERROR v => varlena_serialize v
  | RESULT_FPRODSYNC info | RESULT_FPRODALIVE info => le_bytes 4 (wrap 32 info)
  | RESULT_PAUSEACK | RESULT_FCONSSYNC | RESULT_DONE => []
  end.

(** A 32-bit word read as a signed int. *)
Definition to_int32 (x : Z) : Z := if x <? 2 ^ 31 then x else x - 2 ^ 32.

Definition read_int (src : list Z) : option Z :=
  if Z.of_nat (length src) <? 4 then None else Some (to_int32 (le_value (take 4 src))).

Definition result_deserialize (src : list Z) : option result :=
  if Z.of_nat (length src) <? 4 then None
  else
    let body := drop 4 src in
    let type := le_value (take 4 src) in
    if type =? 201 then RESULT_HEAPTUPLE <$> heaptuple_deserialize body
    else if type =? 200 then RESULT_ERROR <$> varlena_deserialize body
    else if type =? 202 then RESULT_FPRODSYNC <$> read_int body
    else if type =? 204 then RESULT_FPRODALIVE <$> read_int body
    else if type =? 205 then Some RESULT_PAUSEACK
    else if type =? 203 then Some RESULT_FCONSSYNC
    else if type =? 199 then Some RESULT_DONE
    else None.

Definition result_ok (r : result) : Prop :=
  match r with
  | RESULT_HEAPTUPLE t => tuple_ok t
  | RESULT_ERROR v => varlena_ok v
  | RESULT_FPRODSYNC info | RESULT_FPRODALIVE info => - 2 ^ 31 <= info < 2 ^ 31
  | _ => True
  end.

(** ** Structures that are copied whole *)

Record planqentry : Type := mkPlanq { planq_bytes : list Z }.
Record Controlqentry : Type := mkControlq { controlq_bytes : list Z }.

Definition sizeof_planqentry : nat := 56.
Definition sizeof_Controlqentry : nat := 48.

Definition struct_read {A : Type} (mk : list Z → A) (n : nat) (src : list Z) : option A :=
  if decide (length src < n)%nat then None else Some (mk (take n src)).

Definition planqentry_determineSize (p : planqentry) : Z := Z.of_nat sizeof_planqentry.
Definition planqentry_serialize (p : planqentry) : list Z := take sizeof_planqentry (planq_bytes p).
Definition planqentry_deserialize (src : list Z) : option planqentry :=
  struct_read mkPlanq sizeof_planqentry src.

Definition controlqentry_determineSize (p : Controlqentry) : Z := Z.of_nat sizeof_Controlqentry.
Definition controlqentry_serialize (p : Controlqentry) : list Z :=
  take sizeof_Controlqentry (controlq_bytes p).
Definition controlqentry_deserialize (src : list Z) : option Controlqentry :=
  struct_read mkControlq sizeof_Controlqentry src.

Definition planq_ok (p : planqentry) : Prop := length (planq_bytes p) = sizeof_planqentry.
Definition controlq_ok (p : Controlqentry) : Prop := length (controlq_bytes p) = sizeof_Controlqentry.

(** ** The instances *)

#[export] Instance tuple_serializer : Serializer HeapTuple := {
  determineSize := heaptuple_determineSize;
  serialize := heaptuple_serialize;
  deserialize := heaptuple_deserialize
}.
#[export] Instance result_serializer : Serializer result := {
  determineSize := result_determineSize;
  serialize := result_serialize;
  deserialize := result_deserialize
}.
#[export] Instance planqentry_serializer : Serializer planqentry := {
  determineSize := planqentry_determineSize;
  serialize := planqentry_serialize;
  deserialize := planqentry_deserialize
}.
#[export] Instance controlqentry_serializer : Serializer Controlqentry := {
  determineSize := controlqentry_determineSize;
  serialize := controlqentry_serialize;
  deserialize := controlqentry_deserialize
}.

(** ** Round trips *)

Ltac ser_methods :=
  cbn [serialize determineSize deserialize tuple_serializer result_serializer
       planqentry_serializer controlqentry_serializer].

Lemma take_le n x rest : take n (le_bytes n x ++ rest) = le_bytes n x.
Proof. apply take_app_length'. by rewrite length_le_bytes. Qed.

Lemma drop_le n x rest : drop n (le_bytes n x ++ rest) = rest.
Proof. apply drop_app_length'. by rewrite length_le_bytes. Qed.

Lemma len_le4 x rest : (Z.of_nat (length (le_bytes 4 x ++ rest)) <? 4) = false.
Proof. apply Z.ltb_ge. rewrite length_app, length_le_bytes. lia. Qed.

Lemma tuple_data t : (if 0 <? t_len t then t_data t else []) = t_data t.
Proof.
  destruct (Z.ltb_spec 0 (t_len t)) as [|Hle]; [done|]. unfold t_len in Hle.
  by destruct (t_data t); [|simpl in Hle; lia].
Qed.

Lemma tuple_size t : Z.of_nat (length (heaptuple_serialize t)) = heaptuple_determineSize t.
Proof.
  unfold heaptuple_serialize, heaptuple_determineSize.
  rewrite tuple_data, length_app, length_le_bytes. unfold t_len. lia.
Qed.

Lemma tuple_round t rest : tuple_ok t → heaptuple_deserialize (heaptuple_serialize t ++ rest) = Some t.
Proof.
  intros Ht. unfold heaptuple_serialize, heaptuple_deserialize, tuple_ok in *.
  rewrite tuple_data, <- app_assoc, len_le4, take_le, drop_le.
  assert (0 <= t_len t) by (unfold t_len; lia).
  rewrite le_round by (change (256 ^ Z.of_nat 4) with (2 ^ 32); lia).
  destruct (Z.ltb_spec 0 (t_len t)) as [Hpos|Hle].
  - rewrite length_app. rewrite (proj2 (Z.ltb_ge _ _)) by (unfold t_len; lia).
    unfold t_len. rewrite Nat2Z.id, take_app_length. by destruct t.
  - destruct t as [[|b d]]; unfold t_len in *; simpl in *; [done|lia].
Qed.

#[export] Instance tuple_serializer_ok : SerializerOk HeapTuple tuple_ok.
Proof. split; [intros t _; apply tuple_size|intros t rest; apply tuple_round]. Qed.

Lemma varlena_app v rest : (4 <= length v)%nat →
  varlena_determineSize (v ++ rest) = varlena_determineSize v.
Proof. intros Hl. unfold varlena_determineSize. by rewrite take_app_le. Qed.

Lemma varlena_round v rest : varlena_ok v →
  varlena_serialize v = v ∧ varlena_deserialize (v ++ rest) = Some v.
Proof.
  intros [Hl Hs]. unfold varlena_serialize, varlena_deserialize. rewrite varlena_app, Hs by done.
  rewrite Nat2Z.id, firstn_all, length_app. split; [done|].
  rewrite (proj2 (Z.ltb_ge _ 4)) by lia. rewrite (proj2 (Z.ltb_ge _ _)) by lia.
  by rewrite take_app_length.
Qed.

Lemma read_int_round i rest : - 2 ^ 31 <= i < 2 ^ 31 → read_int (le_bytes 4 (wrap 32 i) ++ rest) = Some i.
Proof.
  intros Hi. unfold read_int, wrap, to_int32. rewrite len_le4, take_le.
  rewrite le_round by (change (256 ^ Z.of_nat 4) with (2 ^ 32); apply Z.mod_pos_bound; lia). f_equal.
  destruct (Z_lt_ge_dec i 0) as [Hneg|Hpos].
  - rewrite <- (Z_mod_plus_full i 1), Z.mod_small by lia.
    rewrite (proj2 (Z.ltb_ge _ _)) by lia. lia.
  - rewrite Z.mod_small by lia. by rewrite (proj2 (Z.ltb_lt _ _)) by lia.
Qed.

#[export] Instance result_serializer_ok : SerializerOk result result_ok.
Proof.
  split.
  - intros r Hr. ser_methods. unfold result_serialize, result_determineSize. rewrite length_app, length_le_bytes.
    destruct r as [|v|t|i| |i|]; simpl in Hr; try (rewrite ?length_le_bytes; simpl; lia).
    + destruct (varlena_round v [] Hr) as [-> _]. destruct Hr as [_ ->]. lia.
    + pose proof (tuple_size t). lia.
  - intros r rest Hr. ser_methods. unfold result_serialize, result_deserialize.
    rewrite <- app_assoc, len_le4, take_le, drop_le.
    rewrite le_round by (by destruct r).
    destruct r as [|v|t|i| |i|]; cbn [type_code Z.eqb Pos.eqb result_ok] in *; try done.
    + by rewrite (proj1 (varlena_round v rest Hr)), (proj2 (varlena_round v rest Hr)).
    + by rewrite (tuple_round t rest Hr).
    + by rewrite (read_int_round i rest Hr).
    + by rewrite (read_int_round i rest Hr).
Qed.

Lemma struct_round {A} (mk : list Z → A) (b rest : list Z) : struct_read mk (length b) (take (length b) b ++ rest) = Some (mk b).
Proof.
  unfold struct_read. rewrite firstn_all, length_app, decide_False by lia. by rewrite take_app_length.
Qed.

#[export] Instance planqentry_serializer_ok : SerializerOk planqentry planq_ok.
Proof.
  split.
  - intros [b] Hb. unfold planq_ok in Hb. ser_methods. unfold planqentry_serialize. simpl in *.
    rewrite length_take. unfold planqentry_determineSize. lia.
  - intros [b] rest Hb. unfold planq_ok in Hb. ser_methods.
    unfold planqentry_deserialize, planqentry_serialize. cbn [planq_bytes] in *.
    rewrite <- Hb. apply struct_round.
Qed.

#[export] Instance controlqentry_serializer_ok : SerializerOk Controlqentry controlq_ok.
Proof.
  split.
  - intros [b] Hb. unfold controlq_ok in Hb. ser_methods. unfold controlqentry_serialize. simpl in *.
    rewrite length_take. unfold controlqentry_determineSize. lia.
  - intros [b] rest Hb. unfold controlq_ok in Hb. ser_methods.
    unfold controlqentry_deserialize, controlqentry_serialize. cbn [controlq_bytes] in *.
    rewrite <- Hb. apply struct_round.
Qed.

(** For every kind of result, the bytes [result_serialize] writes are as many
    as [result_determineSize] says, and [result_deserialize] reads the result
    back from them whatever follows in memory. *)
Theorem result_roundtrip (r : result) (rest : list Z) :
  result_ok r →
  Z.of_nat (length (result_serialize r)) = result_determineSize r
  ∧ result_deserialize (result_serialize r ++ rest) = Some r.
Proof. intros Hr. split; [exact (ser_size r Hr)|exact (ser_round r rest Hr)]. Qed.

Lemma result_roundtrip_witness :
  Z.of_nat (length (result_serialize (RESULT_HEAPTUPLE (mkTuple [1; 2; 3])))) = 11
  ∧ result_deserialize (result_serialize (RESULT_HEAPTUPLE (mkTuple [1; 2; 3])) ++ [63; 63])
    = Some (RESULT_HEAPTUPLE (mkTuple [1; 2; 3])).
Proof. apply (result_roundtrip (RESULT_HEAPTUPLE (mkTuple [1; 2; 3])) [63; 63]). reflexivity. Defined.

End Ser.
