(* ===== verification/QueueDemo.v ===== *)
(** * The element queue at work

    The theorems on the element queue are for any serializer; here they are
    applied with the serializer of results to a queue of 200 bytes, whose ring
    has room for 120. *)

From Stdlib Require Import Floats.SpecFloat.
From S2P Require Import Prelude Fifo ResultQ ResultQSpec ResultQFifo Serializers.

Module QDemo.
Import RQ RQSpec RQFifo Ser.
Local Open Scope Z_scope.

Definition res (bs : list Z) : result := RESULT_HEAPTUPLE (mkTuple bs).
Definition big : result := res (replicate 100 7).

Lemma res_ok bs : (length bs < 1000)%nat → result_ok (res bs).
Proof. intros H. unfold res, result_ok, tuple_ok, t_len. simpl. lia. Qed.

Lemma demo_ring lock : ∃ q, make_queue 4096 lock 200 = Ok (Some q) ∧ ring result_ok q []
  ∧ len (buf q) = 120 ∧ (∀ k, lock = Some k → ql q = k) ∧ head q = start q.
Proof.
  destruct (make_queue_ring (valid := result_ok) 4096 lock 200) as (q & E & R & L & H & _ & _ & _ & Q);
    [unfold MaxAllocSize; lia|].
  exists q. split; [done|]. split; [done|]. split; [lia|]. split; [|done]. by intros k ->.
Qed.

(** The same queue written out, and single steps on it. *)
Definition q0 : Queue :=
  mkQueue 4096 200 0 4176 4296 4176 4176 4296 NoLock 120 0 (S754_zero false) 0 (replicate 120 0).

Lemma q0_ring : ring result_ok q0 [].
Proof.
  destruct (demo_ring (Some NoLock)) as (q & E & R & _).
  assert (make_queue 4096 (Some NoLock) 200 = Ok (Some q0)) as E' by (vm_compute; reflexivity).
  rewrite E' in E. by injection E as <-.
Qed.

Definition push (q : Queue) (x : result) : Queue :=
  match enqueue_elt q x with
  | Ok (_, q') => q'
  | Fail _ => q
  end.
Definition pop (q : Queue) : Queue :=
  match dequeue_elt (T := result) q with
  | Ok (_, q') => q'
  | Fail _ => q
  end.

Lemma push_ring q l x : ring result_ok q l → result_ok x → esize x <= len (buf q) → fits q x = true →
  ring result_ok (push q x) (l ++ [x]).
Proof.
  intros Hr Hx Hs Hf. destruct (enqueue_elt_ok q l x Hr Hx Hs) as (q' & E & S & R & N).
  unfold push. rewrite E. rewrite Hf in R, N. destruct Hr as [Hb _ Hn Hv].
  split; [by eapply block_same|done| |].
  - rewrite N, Hn, length_app. simpl. lia.
  - apply Forall_app. split; [done|]. by constructor.
Qed.

Lemma pop_ring q x l : ring result_ok q (x :: l) → ring result_ok (pop q) l.
Proof.
  intros Hr. destruct (dequeue_elt_ok q x l Hr) as (q' & E & S & R & N & F). unfold pop. rewrite E.
  destruct Hr as [Hb _ Hn Hv]. split; [by eapply block_same|done| |by apply Forall_cons in Hv as [_ ?]].
  rewrite N, Hn. simpl. lia.
Qed.

Lemma enqueue_elt_refines_witness :
  ∃ q', enqueue_elt q0 (res [1; 2]) = Ok (true, q') ∧ ring result_ok q' [res [1; 2]] ∧ same_block q0 q'.
Proof.
  apply (enqueue_elt_refines q0 [] (res [1; 2]) q0_ring (res_ok [1; 2] ltac:(simpl; lia))).
  vm_compute. discriminate.
Defined.

Lemma dequeue_elt_refines_witness : ∃ q, ring result_ok q [] ∧ dequeue_elt (T := result) q = Ok (None, q).
Proof.
  destruct (demo_ring (Some NoLock)) as (q & E & R & L & _ & H). exists q. split; [done|].
  exact (dequeue_elt_refines q [] R).
Defined.

Lemma make_queue_spec_witness : ∃ q, make_queue 4096 None 200 = Ok (Some q)
  ∧ queue_ok (valid := result_ok) q [] ∧ len (buf q) = 120.
Proof. apply (make_queue_spec (valid := result_ok) 4096 None 200); [lia|done]. Defined.

Definition demo_ops : list (op result) :=
  [Enq (res [1]); Deq; Enq (res (replicate 60 7)); Enq (res [2; 3]); Deq; Enq (res [2; 3]); Deq; Deq].

Lemma resultq_trace_witness :
  ∃ q0 ins outs q l, make_queue 4096 (Some (SpinLock false)) 200 = Ok (Some q0)
    ∧ run demo_ops q0 = Ok (ins, outs, q) ∧ ins = outs ++ l ∧ queue_ok (valid := result_ok) q l.
Proof.
  apply (resultq_trace (valid := result_ok) 4096 (Some (SpinLock false)) 200 demo_ops).
  - unfold MaxAllocSize. lia.
  - by intros k [= <-].
  - unfold demo_ops. repeat (apply Forall_cons; split); try exact I; try by apply Forall_nil.
    all: split; [apply res_ok; simpl; lia|vm_compute; discriminate].
Defined.

Lemma clear_queue_spec_witness : ∃ q q', queue_ok (valid := result_ok) q []
  ∧ clear_queue q = Ok q' ∧ queue_ok (valid := result_ok) q' [] ∧ numelts q' = 0.
Proof.
  destruct (demo_ring (Some NoLock)) as (q & E & R & L & Q & H).
  assert (queue_ok (valid := result_ok) q []) as Hq by (split; [done|by rewrite (Q NoLock)]).
  destruct (clear_queue_spec q [] Hq) as (q' & C & Hq' & _ & N & _). exists q, q'.
  split; [done|]. split; [done|]. by split.
Defined.

Lemma oversized_element_wedges_witness :
  ∃ q q1, make_queue 4096 (Some NoLock) 200 = Ok (Some q)
    ∧ check_capacity q (determineSize (res (replicate 100 7))) = Ok (true, q)
    ∧ enqueue_elt q (res (replicate 100 7)) = Ok (false, q1) ∧ QEMPTY q1 = true
    ∧ ∀ y : result, enqueue_elt q1 y = Ok (false, q1) ∧ dequeue_elt (T := result) q1 = Ok (None, q1).
Proof.
  apply (oversized_element_wedges (valid := result_ok) 4096 (Some NoLock) 200 big).
  - unfold MaxAllocSize. lia.
  - by intros k [= <-].
  - apply res_ok. simpl. lia.
  - vm_compute. split; [reflexivity|discriminate].
Defined.

Lemma swizzle_preserves_witness : ∃ q q', ring result_ok q []
  ∧ swizzle_queue_ptrs (moved_to q 9000) = Ok q' ∧ ring result_ok q' [] ∧ start q' = 9080.
Proof.
  destruct (demo_ring None) as (q & E & R & L & _ & H).
  destruct (swizzle_preserves q [] 9000 R H) as (q' & S & R' & St & _); [lia|].
  by exists q, q'.
Defined.

(** Two elements in, one out, one in: the third goes to the front. *)
Definition wrapped : Queue :=
  push (pop (push (push q0 (res (replicate 30 1))) (res (replicate 23 2)))) (res (replicate 23 3)).

Lemma wrapped_ring : ring result_ok wrapped [res (replicate 23 2); res (replicate 23 3)].
Proof.
  apply (push_ring _ [_]).
  - apply (pop_ring _ (res (replicate 30 1))). apply (push_ring _ [_]).
    + apply (push_ring _ []); [apply q0_ring|apply res_ok; simpl; lia|vm_compute; discriminate|reflexivity].
    + apply res_ok. simpl. lia.
    + vm_compute. discriminate.
    + vm_compute. reflexivity.
  - apply res_ok. simpl. lia.
  - vm_compute. discriminate.
  - vm_compute. reflexivity.
Qed.

Lemma swizzle_rejects_wrapped_witness :
  ring result_ok wrapped [res (replicate 23 2); res (replicate 23 3)]
  ∧ swizzle_queue_ptrs (moved_to wrapped 9000) = Fail AssertFail.
Proof.
  split; [apply wrapped_ring|].
  apply (swizzle_rejects_wrapped wrapped _ 9000 wrapped_ring); vm_compute; [reflexivity|reflexivity|discriminate].
Defined.

End QDemo.
