(* ===== verification/RqDest.v ===== *)
(** * Result queues and delivery ([src/src/backend/rqueue/rqdest.c])

    One queue per client query: allocation through a bitmap, the iterator over
    the queues a tuple goes to, and [resultqdest], which sends one tuple to all
    of them (and, for a recursive query, back to the scan that reads its
    output).  Delivery only uses the interface [Fifo] of a queue.  What the eddy
    does to a tuple ([EddyExecProject]) is a parameter; the relations fed by
    recursive queries are a table of the eddy, as in the code. *)

From Stdlib Require Import Floats.SpecFloat.
From S2P Require Import Prelude BitArray Fifo ResultQ ResultQSpec ResultQFifo Serializers QueueDemo.

Module RqD.
Import Bit RQ Ser.

(** ** The queue table *)

Record qtable (Q : Type) : Type := mkTable {
  numResultQueues : nat;
  bitmap : BitArray;
  queues : list (option Q);
  qinit : list bool
}.
Arguments mkTable {Q}.
Arguments numResultQueues {Q}.
Arguments bitmap {Q}.
Arguments queues {Q}.
Arguments qinit {Q}.

Section table.
Context {Q : Type}.

Definition with_bitmap (t : qtable Q) (b : BitArray) : qtable Q :=
  mkTable (numResultQueues t) b (queues t) (qinit t).
Definition with_queue (t : qtable Q) (i : nat) (q : Q) : qtable Q :=
  mkTable (numResultQueues t) (bitmap t) (<[i := Some q]> (queues t)) (qinit t).

(** The first queue whose bit is clear is taken. *)
Definition AllocQueue (t : qtable Q) : cres (nat * qtable Q) :=
  match find_lt (numResultQueues t) (λ qno, negb (BitArrayBitIsSet (bitmap t) qno)) with
  | Some qno => Ok (qno, with_bitmap t (BitArraySetBit (bitmap t) qno))
  | None => Fail (Elog "Out of result queues")
  end.

Definition FreeQueue (t : qtable Q) (qno : nat) : cres (qtable Q) :=
  let! _ := cassert (bool_decide (qno < numResultQueues t)) in
  Ok (with_bitmap t (BitArrayClearBit (bitmap t) qno)).

(** The pointer of an initialized queue; a NULL pointer among them is a queue
    that could not be made. *)
Definition GetQueue (t : qtable Q) (qno : nat) : cres (option Q) :=
  if decide (qno < numResultQueues t) then
    let! i := access (qinit t !! qno) in
    if i : bool then access (queues t !! qno)
    else Fail (Elog "result queue is not allocated")
  else Fail (Elog "result queue is not allocated").

(** ** The iterator: [None] is the null pointer. *)
Definition QueueSelectionIterIncr (n qno : nat) : option nat :=
  if decide (S qno = n) then None else Some (S qno).

Fixpoint QueueSelectionIterFindNext (fuel n : nat) (qno : option nat) (b : BitArray)
    : cres (option nat) :=
  match qno with
  | None => Ok None
  | Some i =>
      if BitArrayBitIsSet b i then Ok (Some i)
      else match fuel with
           | O => Fail Diverge
           | S fuel' => QueueSelectionIterFindNext fuel' n (QueueSelectionIterIncr n i) b
           end
  end.
End table.

(** ** Construction and release of all queues *)

(** [place i] is where the allocator puts queue [i]. *)
Definition create_one (place : nat → Z) (sz : Z) (i : nat) (st : cres (qtable Queue)) : cres (qtable Queue) :=
  let! t := st in
  let! done := access (qinit t !! i) in
  if done : bool then Ok t
  else
    let! q := make_queue (place i) None sz in
    Ok (mkTable (numResultQueues t) (bitmap t) (<[i := q]> (queues t)) (<[i := true]> (qinit t))).

Definition CreateResultQueues (place : nat → Z) (tcqresultqsize : Z) (t : qtable Queue) : cres (qtable Queue) :=
  for_loop (numResultQueues t) (create_one place tcqresultqsize) (Ok t).

Definition DeallocateResultQueues (plumbing : bool) (t : qtable Queue) : qtable Queue :=
  if plumbing then
    for_loop (numResultQueues t)
      (λ (i : nat) (t : qtable Queue), if (qinit t !!! i : bool)
              then mkTable (numResultQueues t) (bitmap t) (<[i := None]> (queues t)) (<[i := false]> (qinit t))
              else t) t
  else t.

(** ** Delivery *)

Definition InvalidOid : Z := 0.

Section delivery.
Context {Q IHT : Type} `{Fifo Q result}.

(** A source of the eddy: a scan module over a relation, with the queue of
    results fed back to it, or something else. *)
Inductive source : Type :=
  | ScanModule (realSourceOid : Z) (recurseResult : Q) (isRecursivelyFed : bool)
  | OtherSource.

Record Eddy : Type := mkEddy {
  recursiveQueryFeedback : list Z;
  sources : list (option source)
}.

(** The intermediate tuples of the eddy. *)
Context (isAggTuple : IHT → bool) (t_base_tuple0 : IHT → HeapTuple).
Context (EddyExecProject : Eddy → IHT → nat → HeapTuple).

(** What arrives: the end marker, a tuple, or an intermediate tuple. *)
Inductive input : Type :=
  | NoTuple
  | PlainTuple (t : HeapTuple)
  | EddyTuple (iht : IHT).

Definition GetRecurseRelation (e : Eddy) (qno : nat) : cres Z := access (recursiveQueryFeedback e !! qno).

Definition IsOutputQuery (e : option Eddy) (qno : nat) : cres bool :=
  let! e' := access e in
  let! oid := access (recursiveQueryFeedback e' !! qno) in
  Ok (oid =? InvalidOid)%Z.

Definition InsertRecursiveResults (q : Q) (t : HeapTuple) : cres Q :=
  let! (_, q') := fifo_enq q (RESULT_HEAPTUPLE t) in Ok q'.

(** The search of the sources for the scan modules of relation [oid]. *)
Fixpoint feed_sources (l : list (option source)) (oid : Z) (t : HeapTuple) : cres (list (option source)) :=
  match l with
  | [] => Ok []
  | Some (ScanModule o q fed) :: l' =>
      let! s := if (o =? oid)%Z
                then let! q' := InsertRecursiveResults q t in Ok (ScanModule o q' true)
                else Ok (ScanModule o q fed) in
      let! r := feed_sources l' oid t in
      Ok (Some s :: r)
  | s :: l' => let! r := feed_sources l' oid t in Ok (s :: r)
  end.

(** The tuple sent for query [qno], and the eddy after recursion. *)
Definition output_tuple (e : option Eddy) (inp : input) (qno : nat) : cres (HeapTuple * option Eddy) :=
  match inp, e with
  | NoTuple, _ => Ok (mkTuple [], e)
  | EddyTuple iht, Some ed =>
      let out := if isAggTuple iht then t_base_tuple0 iht else EddyExecProject ed iht qno in
      let! oid := GetRecurseRelation ed qno in
      if (oid =? InvalidOid)%Z then Ok (out, e)
      else let! s := feed_sources (sources ed) oid out in
           Ok (out, Some (mkEddy (recursiveQueryFeedback ed) s))
  | PlainTuple t, None => Ok (t, e)
  | _, _ => Fail Undefined
  end.

(** Enqueue, and once more after giving up the processor. *)
Definition enqueue_twice (q : Q) (r : result) : cres (bool * Q) :=
  let! (ret, q1) := fifo_enq q r in
  if ret : bool then Ok (true, q1) else fifo_enq q1 r.

Definition deliver_one (t : qtable Q) (e : option Eddy) (inp : input) (qno : nat)
    : cres (qtable Q * option Eddy) :=
  let! q := GetQueue t qno in
  let! (out, e1) := output_tuple e inp qno in
  let! isout := IsOutputQuery e1 qno in
  if isout : bool then
    let! q' := access q in
    let! (_, q2) := enqueue_twice q' (RESULT_HEAPTUPLE out) in
    Ok (with_queue t qno q2, e1)
  else Ok (t, e1).

Fixpoint deliver_loop (fuel : nat) (t : qtable Q) (e : option Eddy) (inp : input) (where_ : BitArray)
    (qnop : option nat) : cres (qtable Q * option Eddy) :=
  let n := numResultQueues t in
  let! next := QueueSelectionIterFindNext n n qnop where_ in
  match next with
  | None => Ok (t, e)
  | Some qno =>
      match fuel with
      | O => Fail Diverge
      | S fuel' =>
          let! (t1, e1) := deliver_one t e inp qno in
          deliver_loop fuel' t1 e1 inp where_ (QueueSelectionIterIncr n qno)
      end
  end.

Definition resultqdest (t : qtable Q) (e : option Eddy) (inp : input) (UseCQEddy : bool)
    (whereToSendOutput : BitArray) : cres (qtable Q * option Eddy) :=
  let w := if UseCQEddy then whereToSendOutput
           else BitArraySetBit (BitArrayClearAll whereToSendOutput (numResultQueues t)) 0 in
  deliver_loop (numResultQueues t) t e inp w (Some 0).
End delivery.
Arguments source : clear implicits.
Arguments Eddy : clear implicits.
Arguments input : clear implicits.

(** ** Properties *)

Section alloc.
Context {Q : Type}.

(** The result-queue table hands out queues as a set: [AllocQueue] takes the
    smallest free number and marks exactly it used, fails only when all are
    used, and [FreeQueue] makes exactly its number free again. *)
Theorem AllocQueue_least (t : qtable Q) :
  wf (numResultQueues t) (bitmap t) →
  match AllocQueue t with
  | Ok (qno, t') =>
      qno < numResultQueues t ∧ qno ∉ bits_of (numResultQueues t) (bitmap t)
      ∧ (∀ j, j < qno → j ∈ bits_of (numResultQueues t) (bitmap t))
      ∧ bits_of (numResultQueues t) (bitmap t') = {[qno]} ∪ bits_of (numResultQueues t) (bitmap t)
      ∧ wf (numResultQueues t) (bitmap t') ∧ queues t' = queues t
      ∧ (∃ t'', FreeQueue t' qno = Ok t''
          ∧ bits_of (numResultQueues t) (bitmap t'') = bits_of (numResultQueues t) (bitmap t))
  | Fail e => e = Elog "Out of result queues"
      ∧ bits_of (numResultQueues t) (bitmap t) = below (numResultQueues t)
  end.
Proof.
  intros Hw. unfold AllocQueue. destruct (find_lt _ _) as [qno|] eqn:E.
  - apply find_lt_Some in E as (Hlt & Hb & Hmin). apply negb_true_iff in Hb.
    assert (qno ∉ bits_of (numResultQueues t) (bitmap t)) as Hn.
    { rewrite elem_of_bits_of. intros [_ ?]. congruence. }
    assert (bits_of (numResultQueues t) (BitArraySetBit (bitmap t) qno)
            = {[qno]} ∪ bits_of (numResultQueues t) (bitmap t)) as Hset by (by apply SetBit_set).
    assert (wf (numResultQueues t) (BitArraySetBit (bitmap t) qno)) as Hw' by (by apply SetBit_wf).
    split; [done|]. split; [done|]. split; [|split; [done|split; [done|split; [done|]]]].
    + intros j Hj. apply elem_of_bits_of. split; [lia|]. by apply negb_false_iff, Hmin.
    + unfold FreeQueue. simpl. rewrite bool_decide_true by done. simpl. eexists. split; [done|].
      simpl. rewrite ClearBit_set, Hset by done. set_solver.
  - split; [done|]. apply set_eq. intros j. rewrite elem_of_bits_of, elem_of_below.
    split; [tauto|]. intros Hj. split; [done|]. apply find_lt_None with (j := j) in E; [|done].
    by apply negb_false_iff.
Qed.
End alloc.

Lemma AllocQueue_least_witness :
  match AllocQueue (mkTable (Q := Queue) 8 [Z.of_nat 224] [] []) with
  | Ok (qno, t') => qno = 3 ∧ 0 ∈ bits_of 8 (bitmap t')
  | Fail _ => False
  end.
Proof.
  pose proof (AllocQueue_least (mkTable (Q := Queue) 8 [Z.of_nat 224] [] [])) as H.
  assert (wf 8 [Z.of_nat 224]) as Hw by (split; [reflexivity|by repeat constructor]).
  specialize (H Hw). vm_compute (AllocQueue _) in H |- *. destruct H as (_ & _ & Hlow & Hset & _).
  cbn [numResultQueues bitmap] in *.
  split; [reflexivity|]. rewrite Hset. apply elem_of_union. right. apply Hlow. lia.
Defined.

(** The iterator finds the next set bit. *)
Lemma FindNext_ok fuel n i b : i < n → n - i <= fuel →
  match find_lt (n - i) (λ d, BitArrayBitIsSet b (i + d)) with
  | Some d => QueueSelectionIterFindNext fuel n (Some i) b = Ok (Some (i + d))
  | None => QueueSelectionIterFindNext fuel n (Some i) b = Ok None
  end.
Proof.
  revert i. induction fuel as [|fuel IH]; intros i Hi Hf.
  - lia.
  - simpl. destruct (BitArrayBitIsSet b i) eqn:Hb.
    + assert (find_lt (n - i) (λ d, BitArrayBitIsSet b (i + d)) = Some 0) as ->; [|by rewrite Nat.add_0_r].
      apply find_lt_Some. rewrite Nat.add_0_r. split; [lia|]. split; [done|]. lia.
    + unfold QueueSelectionIterIncr. destruct (decide (S i = n)) as [Hn|Hn].
      * replace (n - i) with 1 by lia. simpl. rewrite Nat.add_0_r, Hb. by destruct fuel.
      * specialize (IH (S i) ltac:(lia) ltac:(lia)).
        destruct (find_lt (n - S i) (λ d, BitArrayBitIsSet b (S i + d))) as [d|] eqn:E.
        -- apply find_lt_Some in E as (Hd & Hbd & Hmin).
           assert (find_lt (n - i) (λ d, BitArrayBitIsSet b (i + d)) = Some (S d)) as ->.
           { apply find_lt_Some. split; [lia|]. split; [by rewrite Nat.add_succ_r|].
             intros [|j] Hj; [by rewrite Nat.add_0_r|]. rewrite Nat.add_succ_r. apply Hmin. lia. }
           by rewrite Nat.add_succ_r.
        -- assert (find_lt (n - i) (λ d, BitArrayBitIsSet b (i + d)) = None) as ->; [|done].
           apply find_lt_None. intros [|j] Hj; [by rewrite Nat.add_0_r|].
           rewrite Nat.add_succ_r. apply (proj1 (find_lt_None _ _) E). lia.
Qed.

Section deliver.
Context {Q IHT : Type} `{Fifo Q result} {holds : Q → list result → Prop} {fit : Q → result → Prop}.
Context `{!FifoLaws Q result holds fit}.
Context (isAggTuple : IHT → bool) (t_base_tuple0 : IHT → HeapTuple).
Context (EddyExecProject : Eddy Q → IHT → nat → HeapTuple).
Context (e : Eddy Q) (inp : input IHT) (n : nat) (w : BitArray).

(** What query [i] is sent: the empty tuple at the end of the stream. *)
Definition sent (i : nat) : result :=
  RESULT_HEAPTUPLE
    match inp with
    | EddyTuple iht => if isAggTuple iht then t_base_tuple0 iht else EddyExecProject e iht i
    | _ => mkTuple []
    end.

(** No query feeds its output back, and the tuple is one of an eddy. *)
Definition plain_eddy : Prop :=
  (∀ i, i < n → recursiveQueryFeedback e !! i = Some InvalidOid)
  ∧ match inp with PlainTuple _ => False | _ => True end.

(** Queue [i] of the table holds [l] and may be offered what is sent. *)
Definition queue_at (t : qtable Q) (i : nat) (l : list result) : Prop :=
  qinit t !! i = Some true ∧ ∃ q, queues t !! i = Some (Some q) ∧ holds q l ∧ fit q (sent i).

(** Queue [q], which held [l], has become [q'] by being offered [r]: once when it
    took it, else once more, and only a second refusal leaves [r] out. *)
Definition offered_to (q : Q) (l : list result) (r : result) (q' : Q) : Prop :=
  (fifo_enq q r = Ok (true, q') ∧ holds q' (l ++ [r]))
  ∨ ∃ q1, fifo_enq q r = Ok (false, q1) ∧ holds q1 l
      ∧ ((fifo_enq q1 r = Ok (true, q') ∧ holds q' (l ++ [r])) ∨ (fifo_enq q1 r = Ok (false, q') ∧ holds q' l)).

Lemma enqueue_twice_ok q l r : holds q l → fit q r → ∃ b q', enqueue_twice q r = Ok (b, q') ∧ offered_to q l r q'.
Proof.
  intros Hh Hf. unfold enqueue_twice, offered_to. destruct (fifo_enq_law q l r Hh Hf) as (b & q1 & E & Hh1 & Hf1).
  rewrite E. simpl. destruct b.
  - exists true, q1. auto.
  - destruct (fifo_enq_law q1 l r Hh1 (Hf1 r Hf)) as (b & q2 & E2 & Hh2 & Hf2). rewrite E2.
    exists b, q2. split; [done|]. right. exists q1. split; [done|]. split; [done|]. destruct b; auto.
Qed.

Lemma deliver_one_ok t i l : plain_eddy → numResultQueues t = n → i < n → queue_at t i l →
  ∃ q q', deliver_one isAggTuple t_base_tuple0 EddyExecProject t (Some e) inp i
          = Ok (with_queue t i q', Some e)
    ∧ queues t !! i = Some (Some q) ∧ offered_to q l (sent i) q'.
Proof.
  intros [Hrec Hinp] Hn Hi (Hinit & q & Hq & Hh & Hf). unfold deliver_one, GetQueue.
  rewrite decide_True by lia. rewrite Hinit. simpl. rewrite Hq. simpl.
  assert (output_tuple isAggTuple t_base_tuple0 EddyExecProject (Some e) inp i
          = Ok (match sent i with RESULT_HEAPTUPLE t => t | _ => mkTuple [] end, Some e)) as ->.
  { unfold output_tuple, GetRecurseRelation, sent. destruct inp; [done|done|]. by rewrite (Hrec i Hi). }
  cbn [cbind]. unfold IsOutputQuery. simpl. rewrite (Hrec i Hi). simpl.
  destruct (enqueue_twice_ok q l (sent i) Hh Hf) as (b & q' & E & Hh').
  unfold sent in E, Hh' |- *. rewrite E. simpl. by exists q, q'.
Qed.

(** The loop from queue [i] on. *)
Lemma deliver_loop_ok fuel t i (L : nat → list result) :
  plain_eddy → numResultQueues t = n → i < n → n - i <= fuel → length (queues t) = n →
  (∀ j, i <= j < n → queue_at t j (L j)) →
  ∃ t', deliver_loop isAggTuple t_base_tuple0 EddyExecProject fuel t (Some e) inp w (Some i) = Ok (t', Some e)
    ∧ ∀ j, if BitArrayBitIsSet w j && bool_decide (i <= j < n)
           then ∃ q q', queues t !! j = Some (Some q) ∧ queues t' !! j = Some (Some q') ∧ offered_to q (L j) (sent j) q'
           else queues t' !! j = queues t !! j.
Proof.
  revert t i. induction fuel as [|fuel IH]; intros t i Hp Hn Hi Hf Hlen Hq; [lia|].
  cbn [deliver_loop]. rewrite Hn. pose proof (FindNext_ok n n i w Hi ltac:(lia)) as Hnext.
  destruct (find_lt (n - i) _) as [d|] eqn:E; rewrite Hnext; cbn [cbind].
  - apply find_lt_Some in E as (Hd & Hbd & Hmin).
    destruct (deliver_one_ok t (i + d) (L (i + d)) Hp Hn) as (q & q' & E1 & Hq0 & Hh); [lia|apply Hq; lia|].
    rewrite E1. cbn [cbind]. set (t1 := with_queue t (i + d) q').
    assert (∀ j, j ≠ i + d → queues t1 !! j = queues t !! j) as Hoth.
    { intros j Hj. simpl. by apply list_lookup_insert_ne. }
    assert (queues t1 !! (i + d) = Some (Some q')) as Hat.
    { simpl. apply list_lookup_insert_eq. lia. }
    unfold QueueSelectionIterIncr. destruct (decide (S (i + d) = n)) as [Hlast|Hmore].
    + exists t1. split; [destruct fuel; simpl; rewrite Hn; by destruct n|].
      intros j. destruct (decide (j = i + d)) as [->|Hj].
      * rewrite Hbd, bool_decide_true by lia. simpl. by exists q, q'.
      * destruct (BitArrayBitIsSet w j && bool_decide (i <= j < n)) eqn:Hsel; [|by apply Hoth].
        apply andb_true_iff in Hsel as [Hs Hr]. apply bool_decide_eq_true in Hr.
        specialize (Hmin (j - i) ltac:(lia)). replace (i + (j - i)) with j in Hmin by lia. congruence.
    + destruct (IH t1 (S (i + d)) Hp) as (t' & E2 & Hres); [done|lia|lia|simpl; by rewrite length_insert| |].
      { intros j Hj. destruct (Hq j ltac:(lia)) as (Hin & qj & Hqj & Hhj). split; [done|].
        exists qj. by rewrite Hoth by lia. }
      exists t'. split; [exact E2|]. intros j. specialize (Hres j).
      destruct (decide (S (i + d) <= j < n)) as [Hr|Hr].
      * rewrite bool_decide_true in Hres by done. rewrite bool_decide_true by lia.
        rewrite Hoth in Hres by lia. by destruct (BitArrayBitIsSet w j).
      * rewrite bool_decide_false, andb_false_r in Hres by done.
        destruct (decide (j = i + d)) as [->|Hj].
        { rewrite Hbd, bool_decide_true by lia. simpl. rewrite Hres. by exists q, q'. }
        destruct (BitArrayBitIsSet w j && bool_decide (i <= j < n)) eqn:Hsel;
          [|rewrite Hres; by apply Hoth].
        apply andb_true_iff in Hsel as [Hs Hb]. apply bool_decide_eq_true in Hb.
        specialize (Hmin (j - i) ltac:(lia)). replace (i + (j - i)) with j in Hmin by lia. congruence.
  - exists t. split; [done|]. intros j.
    destruct (BitArrayBitIsSet w j && bool_decide (i <= j < n)) eqn:Hsel; [|done].
    apply andb_true_iff in Hsel as [Hs Hr]. apply bool_decide_eq_true in Hr.
    pose proof (proj1 (find_lt_None _ _) E (j - i) ltac:(lia)) as Hc. simpl in Hc.
    replace (i + (j - i)) with j in Hc by lia. congruence.
Qed.

(** C16: [resultqdest] ends and offers the tuple to exactly the queues whose bits
    are set.  Each of them is as its own enqueue leaves it: when it takes the
    tuple, the result is behind what it held, once; when it refuses, it is
    offered the tuple a second time, and the tuple is dropped only when it
    refuses again.  Every other queue is left alone.  (This is the case of an
    eddy none of whose queries feeds its output back; the result is the
    projection of the tuple for the query, and empty at the end of a stream.) *)
Theorem resultqdest_delivers t (L : nat → list result) :
  plain_eddy → numResultQueues t = n → 0 < n → length (queues t) = n →
  (∀ j, j < n → queue_at t j (L j)) →
  ∃ t', resultqdest isAggTuple t_base_tuple0 EddyExecProject t (Some e) inp true w = Ok (t', Some e)
    ∧ ∀ j, j < n →
        if BitArrayBitIsSet w j
        then ∃ q q', queues t !! j = Some (Some q) ∧ queues t' !! j = Some (Some q') ∧ offered_to q (L j) (sent j) q'
        else queues t' !! j = queues t !! j.
Proof.
  intros Hp Hn Hpos Hlen Hq. unfold resultqdest. rewrite Hn.
  destruct (deliver_loop_ok n t 0 L Hp Hn Hpos ltac:(lia) Hlen) as (t' & E & Hres); [intros; apply Hq; lia|].
  exists t'. split; [done|]. intros j Hj. specialize (Hres j).
  rewrite bool_decide_true in Hres by lia. by rewrite andb_true_r in Hres.
Qed.
End deliver.

(** Without an eddy, which is how [resultqdest_create_DR] leaves a receiver,
    delivery reads the table of recursive queries through the null pointer as
    soon as there is a tuple and a queue to send it to. *)
Theorem resultqdest_without_eddy {Q IHT} `{Fifo Q result} isAgg base proj (t : qtable Q) x w qp :
  wf (numResultQueues t) w → 0 < numResultQueues t →
  qinit t !! 0 = Some true → queues t !! 0 = Some qp →
  resultqdest (IHT := IHT) isAgg base proj t None (PlainTuple x) false w = Fail Undefined.
Proof.
  intros Hw Hn Hi Hq. unfold resultqdest. destruct (numResultQueues t) as [|n] eqn:En; [lia|].
  assert (BitArrayBitIsSet (BitArraySetBit (BitArrayClearAll w (S n)) 0) 0 = true) as Hb.
  { rewrite SetBit_bit; [by rewrite bool_decide_true|]. eapply wf_index; [by apply ClearAll_wf|lia]. }
  cbn [deliver_loop]. rewrite En. cbn [QueueSelectionIterFindNext]. rewrite Hb. cbn [cbind].
  unfold deliver_one, GetQueue. rewrite decide_True by lia. rewrite Hi. simpl. by rewrite Hq.
Qed.

Import RQSpec RQFifo QDemo.

(** Two empty queues and an end-of-stream marker for the first of them. *)
Definition demo_table : qtable Queue := mkTable 2 [Z.of_nat 192] [Some q0; Some q0] [true; true].
Definition demo_eddy : Eddy Queue := mkEddy [0%Z; 0%Z] [].

Lemma resultqdest_delivers_witness :
  ∃ t', resultqdest (IHT := unit) (λ _, false) (λ _, mkTuple []) (λ _ _ _, mkTuple [])
          demo_table (Some demo_eddy) NoTuple true [Z.of_nat 128] = Ok (t', Some demo_eddy)
    ∧ ∃ q', queues t' !! 0 = Some (Some q') ∧ fifo_enq q0 (RESULT_HEAPTUPLE (mkTuple [])) = Ok (true, q')
        ∧ queue_ok (valid := result_ok) q' [RESULT_HEAPTUPLE (mkTuple [])].
Proof.
  destruct (resultqdest_delivers (IHT := unit) (holds := queue_ok (valid := result_ok))
              (fit := small (valid := result_ok)) (λ _, false)
              (λ _, mkTuple []) (λ _ _ _, mkTuple []) demo_eddy NoTuple 2 [Z.of_nat 128] demo_table (λ _, []))
    as (t' & E & Hres).
  - split; [|exact I]. by intros [|[|i]] Hi; [reflexivity|reflexivity|lia].
  - reflexivity.
  - lia.
  - reflexivity.
  - assert (queue_ok (valid := result_ok) q0 []) as Hq by (split; [apply q0_ring|exact I]).
    assert (small (valid := result_ok) q0 (RESULT_HEAPTUPLE (mkTuple []))) as Hs.
    { split; [reflexivity|vm_compute; discriminate]. }
    intros [|[|j]] Hj; [split; [reflexivity|by exists q0]|split; [reflexivity|by exists q0]|lia].
  - exists t'. split; [exact E|]. destruct (Hres 0 ltac:(lia)) as (q & q' & Hq & Hq' & Hor). exists q'. split; [exact Hq'|].
    injection Hq as <-. destruct Hor as [[E1 Hh]|(q1 & E1 & _)]; [by split|]. vm_compute in E1. discriminate.
Defined.

Lemma resultqdest_without_eddy_witness :
  resultqdest (IHT := unit) (λ _, false) (λ _, mkTuple []) (λ _ _ _, mkTuple [])
    demo_table None (PlainTuple (mkTuple [1%Z])) false [Z.of_nat 0] = Fail Undefined.
Proof.
  apply (resultqdest_without_eddy (λ _, false) (λ _, mkTuple []) (λ _ _ _, mkTuple []) demo_table
           (mkTuple [1%Z]) [Z.of_nat 0] (Some q0)); try reflexivity.
  - split; [reflexivity|by repeat constructor].
  - simpl. lia.
Defined.

End RqD.
