(* ===== verification/IngresQ.v ===== *)
(** * The table of ingress queues ([src/src/backend/rqueue/ingresq.c])

    Streams share queues by name: [allocIngresQ] makes a queue or takes another
    reference to one, [freeIngresQ] gives a reference back.  The table is a set
    of arrays under one spin lock; acquiring a lock that is held is [Blocks]. *)

From Stdlib Require Import Floats.SpecFloat.
From S2P Require Import Prelude Fifo ResultQ ResultQSpec ResultQFifo Serializers.

Module InQ.
Import RQ RQFifo Ser.

Definition NUM_INGRES_QUEUES : nat := 64.
Definition DEF_INGRES_QSIZE : Z := (1024 * 100)%Z.

Section ingres.
Context {TupleDesc : Type}.

Record ingres : Type := mkIngres {
  Init : list (option string);      (* the names, NULL where unused *)
  Queues : list (option Queue);
  RefCount : list Z;
  TDesc : list (option TupleDesc);
  held : bool                       (* p_qp_spinlock *)
}.

Definition with_held (s : ingres) (b : bool) : ingres :=
  mkIngres (Init s) (Queues s) (RefCount s) (TDesc s) b.
Definition with_ref (s : ingres) (l : list Z) : ingres :=
  mkIngres (Init s) (Queues s) l (TDesc s) (held s).
Definition with_slot (s : ingres) (i : nat) (name : option string) (q : option Queue) : ingres :=
  mkIngres (<[i := name]> (Init s)) (<[i := q]> (Queues s)) (RefCount s) (TDesc s) (held s).

Definition SpinLockAcquire (s : ingres) : cres ingres :=
  if held s then Fail Blocks else Ok (with_held s true).
Definition SpinLockRelease (s : ingres) : ingres := with_held s false.

(** [strcmp] with a null pointer is undefined. *)
Definition same_name (name : string) (slot : option string) : cres bool :=
  match slot with
  | Some n => Ok (bool_decide (name = n))
  | None => Fail Undefined
  end.

Definition getIngresQ (s : ingres) (idx : nat) : cres (option Queue * ingres) :=
  let! s1 := SpinLockAcquire s in
  let! q := access (Queues s1 !! idx) in
  Ok (q, SpinLockRelease s1).

(** The loop of [getIngresQ_byName]: [n] slots are left from [i] on. *)
Fixpoint by_name (s : ingres) (name : string) (i n : nat) : cres (option Queue) :=
  match n with
  | O => Ok None
  | S n' =>
      let! slot := access (Init s !! i) in
      let! eq := same_name name slot in
      if eq : bool then
        let! q := access (Queues s !! i) in
        match q with
        | Some _ => Ok q
        | None => by_name s name (S i) n'
        end
      else by_name s name (S i) n'
  end.

Definition getIngresQ_byName (s : ingres) (name : string) : cres (option Queue * ingres) :=
  let! s1 := SpinLockAcquire s in
  let! q := by_name s1 name 0 NUM_INGRES_QUEUES in
  Ok (q, SpinLockRelease s1).

Definition getTupleDesc (s : ingres) (idx : nat) : cres (option TupleDesc * ingres) :=
  let! s1 := SpinLockAcquire s in
  let! d := access (TDesc s1 !! idx) in
  Ok (d, SpinLockRelease s1).

Definition setTupleDesc (s : ingres) (idx : nat) (d : option TupleDesc) : cres ingres :=
  let! s1 := SpinLockAcquire s in
  let! _ := access (TDesc s1 !! idx) in
  Ok (SpinLockRelease (mkIngres (Init s1) (Queues s1) (RefCount s1) (<[idx := d]> (TDesc s1)) (held s1))).

(** The counters are [int]s of 32 bits; a sum outside of them is undefined. *)
Definition INT_MAX : Z := (2 ^ 31 - 1)%Z.
Definition int_sum (c amt : Z) : cres Z :=
  if decide (- INT_MAX - 1 <= c + amt <= INT_MAX)%Z then Ok (c + amt)%Z else Fail Undefined.

Definition adjustRefCount (s : ingres) (qidx : nat) (amt : Z) : cres (Z * ingres) :=
  let! c := access (RefCount s !! qidx) in
  let! ret := int_sum c amt in
  Ok (ret, with_ref s (<[qidx := ret]> (RefCount s))).

Definition getIngresQueueRefCount (s : ingres) (qidx : nat) : cres (Z * ingres) :=
  let! s1 := SpinLockAcquire s in
  let! c := access (RefCount s1 !! qidx) in
  Ok (c, SpinLockRelease s1).

(** The loop of [allocIngresQ]; [place] is where the allocator puts a queue. *)
Fixpoint alloc_loop (place : nat → Z) (s : ingres) (size : Z) (name : string) (i n : nat)
    : cres (option nat * ingres) :=
  match n with
  | O => Ok (None, s)
  | S n' =>
      let! slot := access (Init s !! i) in
      match slot with
      | None =>
          let! q := make_queue (place i) (Some make_lock_sl) size in
          let s1 := with_slot s i (Some name) q in
          let! (c, s2) := adjustRefCount s1 i 1 in
          let! _ := cassert (c =? 1)%Z in
          Ok (Some i, s2)
      | Some n0 =>
          if decide (name = n0) then let! (_, s1) := adjustRefCount s i 1 in Ok (Some i, s1)
          else alloc_loop place s size name (S i) n'
      end
  end.

(** [None] is the index -1. *)
Definition allocIngresQ (place : nat → Z) (s : ingres) (size : Z) (name : string)
    : cres (option nat * ingres) :=
  let size' := if (size =? 0)%Z then DEF_INGRES_QSIZE else size in
  let! s1 := SpinLockAcquire s in
  let! (res, s2) := alloc_loop place s1 size' name 0 NUM_INGRES_QUEUES in
  Ok (res, SpinLockRelease s2).

(** The lock is released inside the conditional. *)
Definition freeIngresQ (s : ingres) (idx : nat) : cres ingres :=
  let! s1 := SpinLockAcquire s in
  let! slot := access (Init s1 !! idx) in
  match slot with
  | Some _ =>
      let! (c, s2) := adjustRefCount s1 idx (-1) in
      let! s3 := if (c =? 0)%Z
                 then let! q := access (Queues s2 !! idx) in
                      match q with
                      | Some _ => Ok (with_slot s2 idx None None)
                      | None => Fail Undefined
                      end
                 else Ok s2 in
      Ok (SpinLockRelease s3)
  | None => Ok s1
  end.

(** [heap_formtuple] makes the tuple. *)
Definition IngresQInsertTuple (inq : Queue) (tuple : HeapTuple) : cres Queue :=
  let! (_, q) := enqueue inq (RESULT_HEAPTUPLE tuple) false in Ok q.

(** ** The invariant of the table *)

(** An unused slot has no references, a used one has a name, a queue and at
    least one reference, as many as an [int] counts. *)
Definition slot_ok (s : ingres) (i : nat) : Prop :=
  match Init s !! i, Queues s !! i, RefCount s !! i with
  | Some None, Some _, Some c => c = 0%Z
  | Some (Some _), Some (Some _), Some c => (0 < c <= INT_MAX)%Z
  | _, _, _ => False
  end.

Definition table_ok (s : ingres) : Prop :=
  held s = false ∧ ∀ i, i < NUM_INGRES_QUEUES → slot_ok s i.

(** The slot the search stops at: the first that is unused or has the name. *)
Definition stops (s : ingres) (name : string) (i : nat) : bool :=
  match Init s !! i with
  | Some None => true
  | Some (Some n) => bool_decide (name = n)
  | None => false
  end.

(** Slot [i] has the name and can take no more references. *)
Definition exhausted (s : ingres) (i : nat) : Prop := RefCount s !! i = Some INT_MAX.
#[global] Instance exhausted_dec s i : Decision (exhausted s i).
Proof. unfold exhausted. apply _. Defined.

(** Slot [i] after one more reference was taken to it under [name]. *)
Definition taken (s s' : ingres) (name : string) (i : nat) : Prop :=
  held s' = false ∧ Init s' !! i = Some (Some name) ∧ slot_ok s' i
  ∧ RefCount s' !! i = (λ c, (c + 1)%Z) <$> RefCount s !! i
  ∧ ∀ j, j ≠ i → Init s' !! j = Init s !! j ∧ Queues s' !! j = Queues s !! j
                 ∧ RefCount s' !! j = RefCount s !! j.

Lemma slot_ok_others s s' i :
  Init s' !! i = Init s !! i → Queues s' !! i = Queues s !! i → RefCount s' !! i = RefCount s !! i →
  slot_ok s i → slot_ok s' i.
Proof. unfold slot_ok. by intros -> -> ->. Qed.

Lemma taken_ok s s' name i : table_ok s → taken s s' name i → table_ok s'.
Proof.
  intros [_ Hs] (Hh & _ & Hi & _ & Ho). split; [done|]. intros j Hj.
  destruct (decide (j = i)) as [->|Hne]; [done|]. destruct (Ho j Hne) as (E1 & E2 & E3).
  by apply (slot_ok_others s); [..|apply Hs].
Qed.

Lemma alloc_loop_ok place s sz name i n :
  (80 <= sz <= MaxAllocSize)%Z → (∀ j, i <= j < i + n → slot_ok s j) →
  match find_lt n (λ d, stops s name (i + d)) with
  | Some d => if decide (exhausted s (i + d)) then alloc_loop place s sz name i n = Fail Undefined
              else ∃ s', alloc_loop place s sz name i n = Ok (Some (i + d), s')
                ∧ taken s (SpinLockRelease s') name (i + d)
  | None => alloc_loop place s sz name i n = Ok (None, s)
  end.
Proof.
  intros Hsz. revert i. induction n as [|n IH]; intros i Hs; [done|].
  pose proof (Hs i ltac:(lia)) as Hi. unfold slot_ok in Hi.
  destruct (Init s !! i) as [slot|] eqn:E1; [|done].
  destruct (Queues s !! i) as [q|] eqn:E2; [|by destruct slot].
  destruct (RefCount s !! i) as [c|] eqn:E3; [|by destruct slot, q].
  assert (i < length (Init s) ∧ i < length (Queues s) ∧ i < length (RefCount s)) as (L1 & L2 & L3)
    by (by repeat split; eapply lookup_lt_Some).
  destruct (stops s name i) eqn:Hst; unfold stops in Hst; rewrite E1 in Hst.
  - assert (find_lt (S n) (λ d, stops s name (i + d)) = Some 0) as ->.
    { apply find_lt_Some. split; [lia|]. split; [|lia]. unfold stops. rewrite Nat.add_0_r, E1. done. }
    rewrite Nat.add_0_r. cbn [alloc_loop]. rewrite E1. cbn [access cbind]. assert (exhausted s i ↔ c = INT_MAX) as Hex by (unfold exhausted; rewrite E3; naive_solver). destruct slot as [n0|].
    + apply bool_decide_eq_true in Hst. rewrite (decide_True (P := name = n0)) by done. unfold adjustRefCount. rewrite E3. cbn [access cbind].
      destruct q as [q|]; [|done]. unfold int_sum. case_decide as Hmax.
      { apply Hex in Hmax as ->. by rewrite decide_False by lia. }
      rewrite Hex in Hmax. rewrite decide_True by lia. cbn [cbind].
      eexists. split; [done|]. split; [done|]. simpl. split; [congruence|].
      split; [|split; [rewrite list_lookup_insert_eq by done; by rewrite E3|]].
      * unfold slot_ok. simpl. rewrite E1, E2, list_lookup_insert_eq by done. lia.
      * intros j Hj. by rewrite list_lookup_insert_ne.
    + destruct (make_queue_ring (T := result) (valid := result_ok) (place i) (Some make_lock_sl) sz Hsz)
        as (q' & Eq & _). rewrite Eq. unfold adjustRefCount. simpl. rewrite E3. simpl. subst c. rewrite decide_False by (by rewrite Hex). simpl.
      eexists. split; [done|]. split; [done|]. simpl. rewrite !list_lookup_insert_eq by done.
      split; [done|]. split; [|split; [by rewrite E3|]].
      * unfold slot_ok. simpl. rewrite !list_lookup_insert_eq by done. done.
      * intros j Hj. by rewrite !list_lookup_insert_ne.
  - destruct slot as [n0|]; [|done]. apply bool_decide_eq_false in Hst.
    cbn [alloc_loop]. rewrite E1. cbn [access cbind]. rewrite decide_False by done.
    specialize (IH (S i) ltac:(intros; apply Hs; lia)).
    assert (∀ d, stops s name (i + S d) = stops s name (S i + d)) as Hsh
      by (intros d; by rewrite Nat.add_succ_r).
    destruct (find_lt n (λ d, stops s name (S i + d))) as [d|] eqn:E.
    + apply find_lt_Some in E as (Hd & Hb & Hmin).
      assert (find_lt (S n) (λ d, stops s name (i + d)) = Some (S d)) as ->.
      { apply find_lt_Some. split; [lia|]. split; [by rewrite Hsh|]. intros [|j] Hj.
        - rewrite Nat.add_0_r. unfold stops. rewrite E1. by apply bool_decide_eq_false.
        - rewrite Hsh. apply Hmin. lia. }
      by rewrite Nat.add_succ_r.
    + assert (find_lt (S n) (λ d, stops s name (i + d)) = None) as ->; [|done].
      apply find_lt_None. intros [|j] Hj.
      * rewrite Nat.add_0_r. unfold stops. rewrite E1. by apply bool_decide_eq_false.
      * rewrite Hsh. apply (proj1 (find_lt_None _ _) E). lia.
Qed.

(** C33: On a sound table [allocIngresQ] stops at the first slot that is unused
    or already has the name, takes a reference to it (making the queue when the
    slot was unused), leaves the other slots and the table sound; without such a
    slot it answers -1 and changes nothing.  The counter is an [int]: the
    reference after [INT_MAX] overflows, which C leaves undefined.  An unused slot
    before the one that has the name is taken, against the comment of the
    function, so that there are two queues of the name then. *)
Theorem allocIngresQ_spec place s size name :
  table_ok s → (size = 0 ∨ 80 <= size <= MaxAllocSize)%Z →
  match find_lt NUM_INGRES_QUEUES (stops s name) with
  | Some i =>
      if decide (exhausted s i) then allocIngresQ place s size name = Fail Undefined
      else ∃ s', allocIngresQ place s size name = Ok (Some i, s') ∧ taken s s' name i ∧ table_ok s'
  | None => allocIngresQ place s size name = Ok (None, s)
  end.
Proof.
  intros Hok Hsz. pose proof Hok as [Hh Hs]. unfold allocIngresQ, SpinLockAcquire. rewrite Hh. cbn [cbind].
  pose proof (alloc_loop_ok place (with_held s true)
    (if (size =? 0)%Z then DEF_INGRES_QSIZE else size) name 0 NUM_INGRES_QUEUES) as Hl.
  assert ((80 <= (if (size =? 0)%Z then DEF_INGRES_QSIZE else size) <= MaxAllocSize)%Z) as Hsz'.
  { destruct (Z.eqb_spec size 0); [done|]. lia. }
  specialize (Hl Hsz' ltac:(intros; apply (Hs j); lia)). simpl plus in Hl.
  change (stops (with_held s true) name) with (stops s name) in Hl.
  destruct (find_lt NUM_INGRES_QUEUES _) as [d|].
  - destruct (decide (exhausted s d)) as [Hx|Hx]; [rewrite (decide_True (P := exhausted (with_held s true) d)) in Hl by exact Hx; by rewrite Hl|].
    rewrite (decide_False (P := exhausted (with_held s true) d)) in Hl by exact Hx.
    destruct Hl as (s' & E & Ht). rewrite E. cbn [cbind]. exists (SpinLockRelease s').
    split; [done|]. assert (taken s (SpinLockRelease s') name d) as Ht' by exact Ht.
    split; [done|]. by eapply taken_ok.
  - rewrite Hl. cbn [cbind]. unfold SpinLockRelease. do 2 f_equal. destruct s. simpl in *. by subst.
Qed.

(** [freeIngresQ] of a used slot gives one reference back, keeps the table
    sound, and unmakes the slot exactly when it was the last reference. *)
Theorem freeIngresQ_spec s idx name :
  table_ok s → idx < NUM_INGRES_QUEUES → Init s !! idx = Some (Some name) →
  ∃ s', freeIngresQ s idx = Ok s' ∧ table_ok s'
    ∧ RefCount s' !! idx = (λ c, (c - 1)%Z) <$> RefCount s !! idx
    ∧ Init s' !! idx = Some (if decide (RefCount s !! idx = Some 1%Z) then None else Some name).
Proof.
  intros [Hh Hs] Hi Hn. pose proof (Hs idx Hi) as Hidx. unfold slot_ok in Hidx. rewrite Hn in Hidx.
  destruct (Queues s !! idx) as [[q|]|] eqn:E2; try done.
  destruct (RefCount s !! idx) as [c|] eqn:E3; [|done].
  assert (idx < length (Init s) ∧ idx < length (Queues s) ∧ idx < length (RefCount s)) as (L1 & L2 & L3)
    by (by repeat split; eapply lookup_lt_Some).
  unfold freeIngresQ, SpinLockAcquire, adjustRefCount. rewrite Hh. simpl. rewrite Hn. simpl. rewrite E3. unfold int_sum. simpl. rewrite decide_True by lia. simpl.
  assert (∀ s', Init s' !! idx = Some (if decide (Some c = Some 1%Z) then None else Some name) →
            (∃ qq, Queues s' !! idx = Some qq ∧ (c ≠ 1%Z → qq = Some q)) → RefCount s' !! idx = Some (c + -1)%Z →
            (∀ j, j ≠ idx → Init s' !! j = Init s !! j ∧ Queues s' !! j = Queues s !! j
                            ∧ RefCount s' !! j = RefCount s !! j) → held s' = false → table_ok s') as Hok.
  { intros s' H1 (qq & H2 & Hqq) H3 H4 H5. split; [done|]. intros j Hj. destruct (decide (j = idx)) as [->|Hne].
    - unfold slot_ok. rewrite H1, H2, H3. destruct (decide (Some c = Some 1%Z)) as [Hc|Hc].
      + injection Hc as ->. done.
      + rewrite Hqq by congruence. destruct (decide (c = 1%Z)); [congruence|lia].
    - destruct (H4 j Hne) as (? & ? & ?). by apply (slot_ok_others s); [..|apply Hs]. }
  destruct (Z.eqb_spec (c + -1) 0) as [Hc|Hc].
  - rewrite E2. simpl. assert (c = 1%Z) as -> by lia. eexists. split; [done|].
    split; [apply Hok; simpl|split; simpl].
    + by rewrite list_lookup_insert_eq.
    + exists None. by rewrite list_lookup_insert_eq.
    + by rewrite list_lookup_insert_eq.
    + intros j Hj. by rewrite !list_lookup_insert_ne.
    + done.
    + by rewrite list_lookup_insert_eq.
    + by rewrite list_lookup_insert_eq.
  - assert (Some c ≠ Some 1%Z) as Hc1 by (intros [= ->]; lia). eexists. split; [done|].
    split; [apply Hok; simpl|split; simpl].
    + by rewrite decide_False.
    + exists (Some q). done.
    + by rewrite list_lookup_insert_eq.
    + intros j Hj. by rewrite list_lookup_insert_ne.
    + done.
    + by rewrite list_lookup_insert_eq.
    + by rewrite decide_False.
Qed.
(** When an unused slot comes before the one that has the name,
    [allocIngresQ] makes a second queue of the same name instead of sharing the
    existing one. *)
Theorem allocIngresQ_duplicates place s name i j :
  table_ok s → i < j < NUM_INGRES_QUEUES → Init s !! i = Some None → Init s !! j = Some (Some name) →
  (∀ k, k < i → stops s name k = false) →
  ∃ s', allocIngresQ place s 0 name = Ok (Some i, s')
    ∧ Init s' !! i = Some (Some name) ∧ Init s' !! j = Some (Some name)
    ∧ RefCount s' !! j = RefCount s !! j.
Proof.
  intros [Hh Hs] Hij Hi Hj Hk. unfold allocIngresQ, SpinLockAcquire. rewrite Hh. cbn [cbind].
  pose proof (alloc_loop_ok place (with_held s true) DEF_INGRES_QSIZE name 0 NUM_INGRES_QUEUES
    ltac:(unfold DEF_INGRES_QSIZE, MaxAllocSize; lia) ltac:(intros; apply (Hs j0); lia)) as Hl.
  simpl plus in Hl. change (stops (with_held s true) name) with (stops s name) in Hl.
  assert (find_lt NUM_INGRES_QUEUES (λ d, stops s name d) = Some i) as E.
  { apply find_lt_Some. split; [lia|]. split; [|done]. unfold stops. by rewrite Hi. }
  rewrite E in Hl. rewrite decide_False in Hl.
  2:{ intros Hx. specialize (Hs i ltac:(lia)). unfold slot_ok in Hs. rewrite Hi in Hs. change (RefCount s !! i = Some INT_MAX) in Hx. rewrite Hx in Hs. by destruct (Queues s !! i). }
  destruct Hl as (s' & El & (_ & Hn & _ & _ & Ho)). exists (SpinLockRelease s').
  split; [change (if (0 =? 0)%Z then DEF_INGRES_QSIZE else 0%Z) with DEF_INGRES_QSIZE; by rewrite El|].
  split; [done|]. destruct (Ho j ltac:(lia)) as (E1 & _ & E3).
  rewrite E1, E3. done.
Qed.

(** [freeIngresQ] of a slot that is not in use returns with the table's lock
    held: every later operation on the table waits forever. *)
Theorem freeIngresQ_unused_keeps_lock s idx :
  table_ok s → idx < NUM_INGRES_QUEUES → Init s !! idx = Some None →
  ∃ s', freeIngresQ s idx = Ok s' ∧ ∀ place sz name i,
    allocIngresQ place s' sz name = Fail Blocks ∧ getIngresQ s' i = Fail Blocks
    ∧ freeIngresQ s' i = Fail Blocks ∧ getIngresQueueRefCount s' i = Fail Blocks.
Proof.
  intros [Hh _] _ Hi. unfold freeIngresQ at 1, SpinLockAcquire. rewrite Hh. simpl. rewrite Hi. simpl.
  eexists. split; [done|]. intros. by repeat split.
Qed.

(** [getIngresQ_byName] compares names from the first slot on, and a slot
    that is not in use stops it with a read through a null pointer, even when a
    later slot has the name. *)
Theorem getIngresQ_byName_null s name :
  table_ok s → Init s !! 0 = Some None → getIngresQ_byName s name = Fail Undefined.
Proof.
  intros [Hh _] Hi. unfold getIngresQ_byName, SpinLockAcquire. rewrite Hh. cbn [cbind].
  change NUM_INGRES_QUEUES with (S 63). generalize 63. intros m. cbn [by_name with_held Init].
  by rewrite Hi.
Qed.
End ingres.
Arguments ingres : clear implicits.

(** ** A table in which slot 0 was freed and slot 1 is the stream b *)
Definition empty_table : ingres unit :=
  mkIngres (replicate 64 None) (replicate 64 None) (replicate 64 0%Z) (replicate 64 None) false.

Definition get {A B} (d : B) (r : cres (A * B)) : B := match r with Ok (_, b) => b | Fail _ => d end.
Definition two_streams : ingres unit :=
  get empty_table (allocIngresQ (λ _, 0%Z) (get empty_table (allocIngresQ (λ _, 0%Z) empty_table 200 "a")) 200 "b").
Definition hole : ingres unit := match freeIngresQ two_streams 0 with Ok s => s | Fail _ => empty_table end.

(** All slots of a table checked by computation. *)
Definition slot_okb (s : ingres unit) (i : nat) : bool :=
  match Init s !! i, Queues s !! i, RefCount s !! i with
  | Some None, Some _, Some c => (c =? 0)%Z
  | Some (Some _), Some (Some _), Some c => (0 <? c)%Z && (c <=? INT_MAX)%Z
  | _, _, _ => false
  end.

Lemma table_okb s : held s = false → for_all 64 (slot_okb s) = true → table_ok s.
Proof.
  intros Hh Hf. split; [done|]. intros i Hi. apply (proj1 (for_all_true 64 _) Hf) in Hi.
  unfold slot_okb in Hi. unfold slot_ok.
  destruct (Init s !! i) as [[?|]|], (Queues s !! i) as [[?|]|], (RefCount s !! i) as [?|]; try done; lia.
Qed.

Lemma two_streams_ok : table_ok two_streams.
Proof. apply table_okb; vm_compute; reflexivity. Qed.

Lemma hole_ok : table_ok hole.
Proof. apply table_okb; vm_compute; reflexivity. Qed.

Lemma allocIngresQ_spec_witness :
  ∃ s', allocIngresQ (λ _, 0%Z) two_streams 0 "b" = Ok (Some 1, s') ∧ taken two_streams s' "b" 1 ∧ table_ok s'.
Proof.
  pose proof (allocIngresQ_spec (λ _, 0%Z) two_streams 0 "b" two_streams_ok ltac:(lia)) as H.
  vm_compute (find_lt _ _) in H. exact H.
Defined.

Lemma freeIngresQ_spec_witness : ∃ s', freeIngresQ two_streams 0 = Ok s' ∧ table_ok s' ∧ Init s' !! 0 = Some None.
Proof.
  destruct (freeIngresQ_spec two_streams 0 "a" two_streams_ok) as (s' & H1 & H2 & _ & H4).
  - unfold NUM_INGRES_QUEUES. lia.
  - vm_compute. reflexivity.
  - exists s'. split; [exact H1|]. split; [exact H2|]. exact H4.
Defined.

Lemma allocIngresQ_duplicates_witness : ∃ s', allocIngresQ (λ _, 0%Z) hole 0 "b" = Ok (Some 0, s')
  ∧ Init s' !! 0 = Some (Some "b") ∧ Init s' !! 1 = Some (Some "b") ∧ RefCount s' !! 1 = RefCount hole !! 1.
Proof.
  apply (allocIngresQ_duplicates (λ _, 0%Z) hole "b" 0 1 hole_ok).
  - unfold NUM_INGRES_QUEUES. lia.
  - vm_compute. reflexivity.
  - vm_compute. reflexivity.
  - lia.
Defined.

Lemma freeIngresQ_unused_keeps_lock_witness :
  ∃ s', freeIngresQ hole 0 = Ok s' ∧ getIngresQ s' 1 = Fail Blocks.
Proof.
  destruct (freeIngresQ_unused_keeps_lock hole 0 hole_ok) as (s' & H1 & H2).
  - unfold NUM_INGRES_QUEUES. lia.
  - vm_compute. reflexivity.
  - exists s'. split; [exact H1|]. apply (H2 (λ _, 0%Z) 0%Z "" 1).
Defined.

Lemma getIngresQ_byName_null_witness : getIngresQ_byName hole "b" = Fail Undefined.
Proof. apply (getIngresQ_byName_null hole "b" hole_ok). vm_compute. reflexivity. Defined.

End InQ.
