(* ===== verification/QueueImage.v ===== *)
(** * The memory image of an element queue

    [resultq.c] sends a queue over a socket as the bytes of its block: the
    [Queue] structure and behind it the ring.  This file gives the image of a
    queue and reads it back.  The layout is that of the structure in
    [src/src/include/rqueue/resultq.h] on a little-endian machine with 8-byte
    pointers: 80 bytes, the last four of them padding. *)

From Stdlib Require Import Floats.SpecFloat.
From S2P Require Import Prelude ResultQ ResultQSpec ResultQFifo Serializers.

Module QImg.
Import RQ RQSpec RQFifo Ser.
Local Open Scope Z_scope.

(** ** Doubles

    The 64 bits of a double: sign, eleven bits of exponent, 52 of fraction. *)
Definition sign_bit (s : bool) : Z := if s then 2 ^ 63 else 0.

Definition double_bits (x : spec_float) : Z :=
  match x with
  | S754_zero s => sign_bit s
  | S754_infinity s => sign_bit s + 2047 * 2 ^ 52
  | S754_nan => 2047 * 2 ^ 52 + 2 ^ 51
  | S754_finite s m e =>
      sign_bit s + (if Z.pos m <? 2 ^ 52 then Z.pos m else (e + 1075) * 2 ^ 52 + (Z.pos m - 2 ^ 52))
  end.

Definition bits_double (b : Z) : spec_float :=
  let s := 2 ^ 63 <=? b in
  let r := if s then b - 2 ^ 63 else b in
  let ex := r / 2 ^ 52 in
  let fr := r mod 2 ^ 52 in
  if ex =? 2047 then (if fr =? 0 then S754_infinity s else S754_nan)
  else if ex =? 0 then match fr with Z.pos m => S754_finite s m (-1074) | _ => S754_zero s end
  else match fr + 2 ^ 52 with Z.pos m => S754_finite s m (ex - 1075) | _ => S754_nan end.

Definition is_double (x : spec_float) : Prop := valid_binary 53 1024 x = true.

(** A finite double is subnormal, or its mantissa has 53 bits. *)
Lemma finite_cases m e : bounded 53 1024 m e = true →
  (e = -1074 ∧ Z.pos m < 2 ^ 52) ∨ (2 ^ 52 <= Z.pos m < 2 ^ 53 ∧ -1074 <= e <= 971).
Proof.
  unfold bounded, canonical_mantissa, fexp, emin. intros H. apply andb_true_iff in H as [Hc He].
  apply Z.eqb_eq in Hc. apply Z.leb_le in He.
  assert (digits2_pos m = Pos.size m) as Hd by (clear; induction m; simpl; congruence).
  rewrite Hd in Hc. pose proof (Pos.size_gt m) as Hg. pose proof (Pos.size_le m) as Hl.
  apply Pos2Z.pos_lt_pos in Hg. apply Pos2Z.pos_le_pos in Hl.
  rewrite Pos2Z.inj_pow in Hg, Hl. change (Z.pos m~0) with (2 * Z.pos m) in Hl.
  remember (Z.pos (Pos.size m)) as d eqn:Ed. assert (0 < d) by lia. clear Hd.
  destruct (Z_lt_ge_dec d 53) as [Hlt|Hge].
  - left. split; [lia|]. assert (2 ^ d <= 2 ^ 52) by (apply Z.pow_le_mono_r; lia). lia.
  - right. assert (d = 53) as -> by lia. lia.
Qed.

Lemma sign_split s r : 0 <= r < 2 ^ 63 →
  (2 ^ 63 <=? sign_bit s + r) = s ∧ (if s then sign_bit s + r - 2 ^ 63 else sign_bit s + r) = r.
Proof.
  intros Hr. destruct s; simpl sign_bit.
  - split; [apply Z.leb_le; lia|lia].
  - split; [apply Z.leb_gt; lia|lia].
Qed.

(** Reading an unsigned exponent and a fraction. *)
Lemma bits_double_parts s ex fr : 0 <= ex < 2048 → 0 <= fr < 2 ^ 52 →
  bits_double (sign_bit s + (ex * 2 ^ 52 + fr)) =
    if ex =? 2047 then (if fr =? 0 then S754_infinity s else S754_nan)
    else if ex =? 0 then match fr with Z.pos m => S754_finite s m (-1074) | _ => S754_zero s end
    else match fr + 2 ^ 52 with Z.pos m => S754_finite s m (ex - 1075) | _ => S754_nan end.
Proof.
  intros He Hf. unfold bits_double. destruct (sign_split s (ex * 2 ^ 52 + fr)) as [Hs Hr]; [lia|].
  rewrite Hs. rewrite Hr.
  rewrite Z.div_add_l, (Z.div_small fr), Z.add_0_r by lia.
  rewrite (Z.add_comm (ex * 2 ^ 52)), Z_mod_plus_full, Z.mod_small by lia. done.
Qed.

Lemma double_round x : is_double x → bits_double (double_bits x) = x ∧ 0 <= double_bits x < 2 ^ 64.
Proof.
  destruct x as [s|s| |s m e]; intros Hx.
  - by destruct s.
  - by destruct s.
  - done.
  - unfold is_double in Hx. simpl in Hx. unfold double_bits.
    destruct (finite_cases m e Hx) as [[-> Hm]|[Hm He]].
    + rewrite (proj2 (Z.ltb_lt _ _)) by lia. split; [|destruct s; simpl sign_bit; lia].
      replace (Z.pos m) with (0 * 2 ^ 52 + Z.pos m) by lia. rewrite bits_double_parts by lia. done.
    + rewrite (proj2 (Z.ltb_ge _ _)) by lia. split; [|destruct s; simpl sign_bit; lia].
      rewrite bits_double_parts by lia.
      rewrite (proj2 (Z.eqb_neq _ _)) by lia. rewrite (proj2 (Z.eqb_neq _ _)) by lia.
      replace (Z.pos m - 2 ^ 52 + 2 ^ 52) with (Z.pos m) by lia. f_equal. lia.
Qed.

(** ** The block

    [lock_ptr] is the address of the lock structure: the receiver overwrites it
    before use. *)
Section image.
Context (lock_ptr : queue_lock → Z).

Definition image (q : Queue) : list Z :=
  le_bytes 4 (size q) ++ le_bytes 4 (qid q) ++ le_bytes 8 (start q) ++ le_bytes 8 (end_ q)
  ++ le_bytes 8 (head q) ++ le_bytes 8 (tail q) ++ le_bytes 8 (wall q) ++ le_bytes 8 (lock_ptr (ql q))
  ++ le_bytes 4 (bytesfree q) ++ le_bytes 4 (numelts q) ++ le_bytes 8 (double_bits (avgfree q))
  ++ le_bytes 4 (numcalls q) ++ le_bytes 4 0 ++ buf q.

(** The field of [n] bytes at offset [o]. *)
Definition field (o n : nat) (b : list Z) : Z := le_value (take n (drop o b)).

(** The queue whose block at address [a] has the bytes [b]; its lock is not
    known here. *)
Definition of_image (a : Z) (b : list Z) : Queue :=
  mkQueue a (to_int32 (field 0 4 b)) (to_int32 (field 4 4 b)) (field 8 8 b) (field 16 8 b)
    (field 24 8 b) (field 32 8 b) (field 40 8 b) NoLock (to_int32 (field 56 4 b)) (to_int32 (field 60 4 b))
    (bits_double (field 64 8 b)) (to_int32 (field 72 4 b)) (drop 80 b).

(** The values fit their fields, and [size] is the length of the block. *)
Record image_ok (q : Queue) : Prop := {
  im_size : size q = sizeof_Queue + len (buf q);
  im_int : Forall (λ x, 0 <= x < 2 ^ 31) [size q; qid q; bytesfree q; numelts q; numcalls q];
  im_ptr : Forall (λ x, 0 <= x < 2 ^ 64) [start q; end_ q; head q; tail q; wall q];
  im_avg : is_double (avgfree q)
}.

Lemma length_image q : image_ok q → len (image q) = size q.
Proof.
  intros [Hs _ _ _]. rewrite Hs. unfold image. rewrite !len_app. unfold len.
  rewrite !length_le_bytes. unfold sizeof_Queue. lia.
Qed.

Lemma int_field x : 0 <= x < 2 ^ 31 → to_int32 (le_value (le_bytes 4 x)) = x.
Proof.
  intros Hx. rewrite le_round by (change (256 ^ Z.of_nat 4) with (2 ^ 32); lia).
  unfold to_int32. by rewrite (proj2 (Z.ltb_lt _ _)) by lia.
Qed.

Lemma ptr_field x : 0 <= x < 2 ^ 64 → le_value (le_bytes 8 x) = x.
Proof. intros Hx. apply le_round. change (256 ^ Z.of_nat 8) with (2 ^ 64). lia. Qed.

Lemma of_image_image a q : image_ok q → of_image a (image q) = with_lock (moved_to q a) NoLock.
Proof.
  intros [_ Hi Hp Hd]. unfold of_image, moved_to, with_lock, field. qsimpl.
  change (take 4 (drop 0 (image q))) with (le_bytes 4 (size q)).
  change (take 4 (drop 4 (image q))) with (le_bytes 4 (qid q)).
  change (take 8 (drop 8 (image q))) with (le_bytes 8 (start q)).
  change (take 8 (drop 16 (image q))) with (le_bytes 8 (end_ q)).
  change (take 8 (drop 24 (image q))) with (le_bytes 8 (head q)).
  change (take 8 (drop 32 (image q))) with (le_bytes 8 (tail q)).
  change (take 8 (drop 40 (image q))) with (le_bytes 8 (wall q)).
  change (take 4 (drop 56 (image q))) with (le_bytes 4 (bytesfree q)).
  change (take 4 (drop 60 (image q))) with (le_bytes 4 (numelts q)).
  change (take 8 (drop 64 (image q))) with (le_bytes 8 (double_bits (avgfree q))).
  change (take 4 (drop 72 (image q))) with (le_bytes 4 (numcalls q)).
  change (drop 80 (image q)) with (buf q).
  repeat match goal with H : Forall _ (_ :: _) |- _ => apply Forall_cons in H as [? H] end.
  destruct (double_round _ Hd) as [Hr Hb].
  rewrite !int_field, !ptr_field by done. by rewrite Hr.
Qed.

(** The first four bytes are the size. *)
Lemma image_size q : image_ok q → take 4 (image q) = le_bytes 4 (size q).
Proof. done. Qed.
End image.
End QImg.
