(* ===== verification/QueueXfer.v ===== *)
(** * Sending an element queue over a socket

    [send_queue], [receive_queue] and [newQueueComm] of
    [src/src/backend/rqueue/resultq.c], with [reset_qcomm] and
    [queue_comm_flush] of [src/src/backend/telegraphcq/fluxroutines.c].

    A call of [write] or [read] moves some of the bytes it was asked for, or
    fails; what the operating system does is given as a list of answers.  The
    bytes written are what the other side reads.  The return values are those
    of the code; a comm whose block is complete holds a [Queue], one that is
    being received the bytes it has so far.  A list of answers that ends before
    a blocking call is done is [Blocks]: the call waits for another answer. *)

From Stdlib Require Import Floats.SpecFloat.
From S2P Require Import Prelude Fifo ResultQ ResultQSpec ResultQFifo Serializers QueueImage.

Module QX.
Import RQ RQSpec RQFifo Ser QImg.
Local Open Scope Z_scope.

(** [Moves k]: at most [k] bytes are moved; [Errs retry]: the call fails, with
    [EAGAIN] or [EINTR] if [retry]. *)
Inductive io : Type :=
  | Moves (k : nat)
  | Errs (retry : bool).

Inductive qmem : Type :=
  | Typed (q : Queue)
  | Raw (a : Z) (bytes : list Z).

Record QueueComm : Type := mkComm {
  queue : option qmem;
  pos : Z;
  csize : Z;
  done : bool
}.

Section socket.
Context (lock_ptr : queue_lock → Z).
(** Where [palloc] puts a block of a size, and what is in it. *)
Context (palloc_at : Z → Z) (garbage : nat → Z).

Definition mem_addr (m : qmem) : Z := match m with Typed q => addr q | Raw a _ => a end.
Definition mem_bytes (m : qmem) : list Z := match m with Typed q => image lock_ptr q | Raw _ b => b end.

(** [queue->size] *)
Definition mem_size (m : qmem) : cres Z :=
  match m with
  | Typed q => Ok (size q)
  | Raw _ b => let! s := peek b 0 4 in Ok (to_int32 (le_value s))
  end.

Definition newQueueComm (q : option Queue) : QueueComm :=
  match q with
  | Some q => mkComm (Some (Typed q)) 0 (size q) true
  | None => mkComm None 0 0 false
  end.

Definition reset_qcomm (qc : QueueComm) : QueueComm := mkComm None 0 (-1) false.

Definition queue_comm_flush (qc : QueueComm) : QueueComm :=
  if done qc then mkComm (queue qc) 0 (csize qc) false else qc.

(** The bytes a [write] of [data] puts on the wire. *)
Definition moved (k : nat) (data : list Z) : list Z := take k data.

(** [clear_queue] follows the lock pointer of the block. *)
Definition finish_send (qc : QueueComm) (m : qmem) : cres QueueComm :=
  match m with
  | Typed q => let! q' := clear_queue q in Ok (mkComm (Some (Typed q')) (pos qc) (csize qc) true)
  | Raw _ _ => Fail Undefined
  end.

(** [dummy = 59; while (bread < 1) bread = write(sockfd, &dummy, 1);], compiled in
    by [RESULTQ_DEBUG]: any answer that moves nothing makes it try again. *)
Definition trailer : Z := 59.
Fixpoint write_trailer (rs : list io) : cres (list io) :=
  match rs with
  | [] => Fail Blocks
  | Moves (S _) :: rs' => Ok rs'
  | _ :: rs' => write_trailer rs'
  end.

(** The answer of one [write]; with no answer left, [EAGAIN]. *)
Definition next_answer (rs : list io) : io * list io :=
  match rs with
  | [] => (Errs true, [])
  | r :: rs' => (r, rs')
  end.

Definition send_queue_nb (qc : QueueComm) (rs : list io) : cres (Z * QueueComm * list Z * list io) :=
  let! m := access (queue qc) in
  let! sz := mem_size m in
  let qc1 := mkComm (queue qc) (pos qc) sz (done qc) in
  if pos qc <? sz then
    let! data := peek (mem_bytes m) (pos qc) (Z.to_nat (sz - pos qc)) in
    let '(r, rs') := next_answer rs in
    match r with
    | Moves k =>
        let out := moved k data in
        Ok (len out, mkComm (queue qc) (pos qc + len out) sz (done qc), out, rs')
    | Errs retry => Ok (if retry : bool then 1 else -1, qc1, [], rs')
    end
  else
    let! rs' := write_trailer rs in
    let! qc2 := finish_send qc1 m in
    Ok (1, qc2, [trailer], rs').

(** The loop of [send_queue_b] and what is behind it. *)
Fixpoint send_queue_b (qc : QueueComm) (rs : list io) : cres (Z * QueueComm * list Z * list io) :=
  let! m := access (queue qc) in
  let! sz := mem_size m in
  let qc1 := mkComm (queue qc) (pos qc) sz (done qc) in
  if pos qc <? sz then
    let! data := peek (mem_bytes m) (pos qc) (Z.to_nat (sz - pos qc)) in
    match rs with
    | [] => Fail Blocks
    | Moves k :: rs' =>
        let out := moved k data in
        let! (r, qc2, out', rs2) := send_queue_b (mkComm (queue qc) (pos qc + len out) sz (done qc)) rs' in
        Ok (r, qc2, out ++ out', rs2)
    | Errs _ :: rs' => Ok (-1, qc1, [], rs')
    end
  else let! qc2 := finish_send qc1 m in Ok (1, qc2, [], rs).

Definition send_queue (qc : QueueComm) (isBlocking : bool) (rs : list io)
    : cres (Z * QueueComm * list Z * list io) :=
  if isBlocking then send_queue_b qc rs else send_queue_nb qc rs.

(** ** Receiving *)

(** The socket: bytes on the wire, and the answers to come; no answer left is
    [EAGAIN]. *)
Definition try_read (n : Z) (wire : list Z) (rs : list io) : (bool + list Z) * list Z * list io :=
  match rs with
  | [] => (inl true, wire, [])
  | Errs retry :: rs' => (inl retry, wire, rs')
  | Moves k :: rs' =>
      let d := take (min k (Z.to_nat n)) wire in
      (inr d, drop (length d) wire, rs')
  end.

Definition palloc (sz : Z) : cres qmem :=
  if MaxAllocSize <? wrap 64 sz then Fail (Elog "MemoryContextAlloc: invalid request size")
  else Ok (Raw (palloc_at sz) (garbage <$> seq 0 (Z.to_nat sz))).

(** The block to receive into: allocated anew when there is none or when its
    size is another; then [queue->size = size]. *)
Definition place (qc : QueueComm) : cres QueueComm :=
  let! m := match queue qc with
            | None => palloc (csize qc)
            | Some m => let! s := mem_size m in if s =? csize qc then Ok m else palloc (csize qc)
            end in
  let! b := poke (mem_bytes m) 0 (le_bytes 4 (wrap 32 (csize qc))) in
  Ok (mkComm (Some (Raw (mem_addr m) b)) (pos qc) (csize qc) (done qc)).

(** Bytes that arrive for [size], an int at whose byte [pos] they are stored. *)
Definition store_size (qc : QueueComm) (d : list Z) : cres QueueComm :=
  let! b := poke (le_bytes 4 (wrap 32 (csize qc))) (pos qc) d in
  Ok (mkComm (queue qc) (pos qc + len d) (to_int32 (le_value b)) (done qc)).

Definition store_block (qc : QueueComm) (d : list Z) : cres QueueComm :=
  let! m := access (queue qc) in
  let! b := poke (mem_bytes m) (pos qc) d in
  Ok (mkComm (Some (Raw (mem_addr m) b)) (pos qc + len d) (csize qc) (done qc)).

(** [swizzle_queue_ptrs(qc->queue); qc->done = true]; a block shorter than the
    structure does not have its fields. *)
Definition finish_receive (qc : QueueComm) : cres QueueComm :=
  let! m := access (queue qc) in
  if len (mem_bytes m) <? sizeof_Queue then Fail Undefined
  else
    let! q := swizzle_queue_ptrs (of_image (mem_addr m) (mem_bytes m)) in
    Ok (mkComm (Some (Typed q)) (pos qc) (csize qc) true).

(** [dummy = -59; while (bread < 1) bread = read(sockfd, &dummy, 1);] *)
Fixpoint read_trailer (wire : list Z) (rs : list io) : cres (Z * list Z * list io) :=
  match rs with
  | [] => Fail Blocks
  | Moves (S _) :: rs' =>
      match wire with
      | b :: wire' => Ok (b, wire', rs')
      | [] => read_trailer wire rs'
      end
  | _ :: rs' => read_trailer wire rs'
  end.

(** What comes when all bytes of the block are there. *)
Definition complete (qc : QueueComm) (wire : list Z) (rs : list io)
    : cres (Z * QueueComm * list Z * list io) :=
  let! (dummy, wire', rs') := read_trailer wire rs in
  let! _ := cassert (dummy =? trailer) in
  let! qc' := finish_receive qc in
  Ok (1, qc', wire', rs').

(** What comes after the size; [bread] is what the last read answered. *)
Definition receive_rest (qc : QueueComm) (bread : Z) (wire : list Z) (rs : list io)
    : cres (Z * QueueComm * list Z * list io) :=
  let! qc2 := place qc in
  if pos qc2 <? csize qc2 then
    let '(a, wire', rs') := try_read (csize qc2 - pos qc2) wire rs in
    match a with
    | inl retry => Ok (if retry then 1 else -1, qc2, wire', rs')
    | inr d =>
        let! qc3 := store_block qc2 d in
        if pos qc3 <? csize qc3 then Ok (len d, qc3, wire', rs')
        else complete qc3 wire' rs'
    end
  else
    let qc3 := mkComm (queue qc2) (pos qc2 + bread) (csize qc2) (done qc2) in
    if pos qc3 <? csize qc3 then Ok (bread, qc3, wire, rs)
    else complete qc3 wire rs.

Definition receive_queue_nb (qc : QueueComm) (wire : list Z) (rs : list io)
    : cres (Z * QueueComm * list Z * list io) :=
  if pos qc <? 4 then
    let '(a, wire', rs') := try_read (4 - pos qc) wire rs in
    match a with
    | inl retry => Ok (if retry then 1 else -1, qc, wire', rs')
    | inr d =>
        let! qc1 := store_size qc d in
        if pos qc1 <? 4 then Ok (len d, qc1, wire', rs')
        else receive_rest qc1 (len d) wire' rs'
    end
  else receive_rest qc 0 wire rs.

(** The two loops of [receive_queue_b]; the answer is false when a read failed,
    which makes the function return. *)
Fixpoint size_loop (qc : QueueComm) (wire : list Z) (rs : list io)
    : cres (bool * QueueComm * list Z * list io) :=
  if pos qc <? 4 then
    match rs with
    | [] => Fail Blocks
    | Errs _ :: rs' => Ok (false, qc, wire, rs')
    | Moves k :: rs' =>
        let d := take (min k (Z.to_nat (4 - pos qc))) wire in
        let! qc1 := store_size qc d in
        size_loop qc1 (drop (length d) wire) rs'
    end
  else Ok (true, qc, wire, rs).

Fixpoint block_loop (qc : QueueComm) (wire : list Z) (rs : list io)
    : cres (bool * QueueComm * list Z * list io) :=
  if pos qc <? csize qc then
    match rs with
    | [] => Fail Blocks
    | Errs _ :: rs' => Ok (false, qc, wire, rs')
    | Moves k :: rs' =>
        let d := take (min k (Z.to_nat (csize qc - pos qc))) wire in
        let! qc1 := store_block qc d in
        block_loop qc1 (drop (length d) wire) rs'
    end
  else Ok (true, qc, wire, rs).

Definition receive_queue_b (qc : QueueComm) (wire : list Z) (rs : list io)
    : cres (Z * QueueComm * list Z * list io) :=
  let! (ok1, qc1, wire1, rs1) := size_loop (mkComm (queue qc) 0 (csize qc) (done qc)) wire rs in
  if negb ok1 then Ok (-1, qc1, wire1, rs1)
  else
    let! qc2 := place qc1 in
    let! (ok2, qc3, wire2, rs2) := block_loop qc2 wire1 rs1 in
    if negb ok2 then Ok (-1, qc3, wire2, rs2)
    else let! qc4 := finish_receive qc3 in Ok (1, qc4, wire2, rs2).

Definition receive_queue (qc : QueueComm) (isBlocking : bool) (wire : list Z) (rs : list io)
    : cres (Z * QueueComm * list Z * list io) :=
  if isBlocking then receive_queue_b qc wire rs else receive_queue_nb qc wire rs.

(** ** Repeated calls

    The callers come back while the comm is not done. *)
Fixpoint send_all (calls : nat) (qc : QueueComm) (rs : list io) : cres (QueueComm * list Z * list io) :=
  if done qc then Ok (qc, [], rs)
  else match calls with
       | O => Ok (qc, [], rs)
       | S calls' =>
           let! (_, qc1, out, rs1) := send_queue_nb qc rs in
           let! (qc2, out', rs2) := send_all calls' qc1 rs1 in
           Ok (qc2, out ++ out', rs2)
       end.

Fixpoint recv_all (calls : nat) (qc : QueueComm) (wire : list Z) (rs : list io)
    : cres (QueueComm * list Z * list io) :=
  if done qc then Ok (qc, wire, rs)
  else match calls with
       | O => Ok (qc, wire, rs)
       | S calls' =>
           let! (_, qc1, wire1, rs1) := receive_queue_nb qc wire rs in
           recv_all calls' qc1 wire1 rs1
       end.
End socket.
End QX.
