(* ===== verification/QueueXferSpec.v ===== *)
(** * A queue crosses a socket

    However the operating system splits the writes and the reads, what is sent
    is the image of the queue and what is received is a queue with the same
    elements. *)

From Stdlib Require Import Floats.SpecFloat.
From S2P Require Import Prelude Fifo ResultQ ResultQSpec ResultQFifo Serializers QueueDemo QueueImage QueueXfer.

Module QXSpec.
Import RQ RQSpec RQFifo Ser QImg QX.
Local Open Scope Z_scope.

(** An answer that moves something. *)
Definition moving (r : io) : bool := match r with Moves (S _) => true | _ => false end.
Definition moves (rs : list io) : Z := Z.of_nat (length (filter (λ r, moving r = true) rs)).

Lemma moves_cons r rs : moves (r :: rs) = (if moving r then 1 else 0) + moves rs.
Proof.
  unfold moves. destruct (moving r) eqn:E.
  - rewrite filter_cons_True by done. simpl. lia.
  - rewrite filter_cons_False by congruence. lia.
Qed.

(** ** Byte lists *)

Lemma peek_from b p n : 0 <= p → p + n = len b → 0 <= n → peek b p (Z.to_nat n) = Ok (drop (Z.to_nat p) b).
Proof.
  intros Hp Hn Hn0. unfold peek, len in *.
  rewrite (proj2 (andb_true_iff _ _)) by (split; apply Z.leb_le; lia).
  rewrite take_ge; [done|]. rewrite length_drop. lia.
Qed.

Lemma le_bytes_value b : Forall is_byte b → le_bytes (length b) (le_value b) = b.
Proof.
  induction 1 as [|x b Hx Hb IH]; [done|]. simpl. unfold is_byte in Hx.
  rewrite (Z.mul_comm 256), Z_mod_plus_full, Z.mod_small by lia.
  rewrite Z.div_add, Z.div_small, Z.add_0_l by lia. by rewrite IH.
Qed.

Lemma le_value_bound b : Forall is_byte b → 0 <= le_value b < 256 ^ len b.
Proof.
  induction 1 as [|x b Hx Hb IH]; [done|]. unfold len in *. simpl length. simpl le_value. unfold is_byte in Hx.
  rewrite Nat2Z.inj_succ, Z.pow_succ_r by lia. lia.
Qed.

Lemma le_bytes_bytes n x : Forall is_byte (le_bytes n x).
Proof.
  revert x. induction n as [|n IH]; intros x; simpl; constructor; [|done].
  unfold is_byte. pose proof (Z.mod_pos_bound x 256). lia.
Qed.

(** Four bytes read as an int keep their pattern. *)
Lemma int_pattern b : Forall is_byte b → length b = 4%nat → le_bytes 4 (wrap 32 (to_int32 (le_value b))) = b.
Proof.
  intros Hb Hl. pose proof (le_value_bound b Hb) as Hv. unfold len in Hv. rewrite Hl in Hv.
  change (256 ^ Z.of_nat 4) with (2 ^ 32) in Hv.
  assert (wrap 32 (to_int32 (le_value b)) = le_value b) as ->.
  { unfold wrap, to_int32. destruct (Z.ltb_spec (le_value b) (2 ^ 31)); [by apply Z.mod_small; lia|].
    replace (le_value b - 2 ^ 32) with (le_value b + -1 * 2 ^ 32) by lia.
    rewrite Z_mod_plus_full. apply Z.mod_small. lia. }
  rewrite <- Hl. by apply le_bytes_value.
Qed.

(** Bytes written at the end of what is right so far. *)
Lemma poke_prefix b img d p :
  0 <= p → p + len d <= len b →
  take (Z.to_nat p) b = take (Z.to_nat p) img → d = take (length d) (drop (Z.to_nat p) img) →
  ∃ b', poke b p d = Ok b' ∧ len b' = len b ∧ take (Z.to_nat (p + len d)) b' = take (Z.to_nat (p + len d)) img.
Proof.
  intros Hp Hl Hb Hd. unfold poke, len in *.
  rewrite (proj2 (andb_true_iff _ _)) by (split; apply Z.leb_le; lia). eexists. split; [done|].
  split.
  - rewrite !length_app, length_take, length_drop. lia.
  - rewrite app_assoc. replace (Z.to_nat (p + Z.of_nat (length d))) with (Z.to_nat p + length d)%nat by lia.
    rewrite take_app_length'.
    + rewrite Hb, Hd at 1. by rewrite take_take_drop.
    + rewrite length_app, length_take. lia.
Qed.

Lemma poke_bytes b p d b' : Forall is_byte b → Forall is_byte d → poke b p d = Ok b' → Forall is_byte b'.
Proof.
  intros Hb Hd E. unfold poke in E. destruct (_ && _); [|done]. injection E as <-.
  repeat apply Forall_app_2; [by apply Forall_take|done|by apply Forall_drop].
Qed.

(** What a read takes from a wire that carries [rest] and has not yet got
    [later]. *)
Lemma cut_prefix {A : Type} (d w rest tl : list A) :
  d ++ w = rest ++ tl → (length d <= length rest)%nat →
  d = take (length d) rest ∧ w = drop (length d) rest ++ tl.
Proof.
  intros Hw Hl. split.
  - rewrite <- (take_app_length d w) at 1. by rewrite Hw, take_app_le.
  - rewrite <- (drop_app_length d w) at 1. by rewrite Hw, drop_app_le.
Qed.

Lemma read_step (wire later rest tl : list Z) j :
  (j <= length rest)%nat → wire ++ later = rest ++ tl →
  let d := take j wire in
  d = take (length d) rest ∧ drop (length d) wire ++ later = drop (length d) rest ++ tl
  ∧ (length d <= j)%nat ∧ (later = [] → (0 < j)%nat → (0 < length d)%nat).
Proof.
  intros Hj Hw d. assert (length d <= j)%nat as Hd by (unfold d; rewrite length_take; lia).
  assert (drop (length d) wire = drop j wire) as Hdrop.
  { unfold d. rewrite length_take. destruct (Nat.le_gt_cases j (length wire)); [by rewrite Nat.min_l|].
    rewrite Nat.min_r, !drop_ge by lia. done. }
  destruct (cut_prefix d (drop j wire ++ later) rest tl) as [H1 H2]; [|lia|].
  { rewrite app_assoc. unfold d. by rewrite take_drop. }
  split; [done|]. split; [by rewrite Hdrop|]. split; [done|]. intros -> Hj0.
  rewrite app_nil_r in Hw. unfold d. rewrite length_take, Hw, length_app. lia.
Qed.

Section transfer.
Context {T : Type} `{SerializerOk T valid}.
Context (lock_ptr : queue_lock → Z) (palloc_at : Z → Z) (garbage : nat → Z).
Context (q : Queue) (l : list T).
Context (Hring : ring valid q l) (Himage : image_ok q).

Local Abbreviation img := (image lock_ptr q).
Local Abbreviation sz := (size q).
Local Abbreviation send_all := (send_all lock_ptr).
Local Abbreviation send_queue_nb := (send_queue_nb lock_ptr).

Lemma img_len : len img = sz.
Proof. by apply length_image. Qed.

Lemma sz_bounds : 80 <= sz < 2 ^ 31.
Proof.
  pose proof (im_size q Himage) as Hs. pose proof (im_int q Himage) as Hi. apply Forall_cons in Hi as [? _].
  unfold sizeof_Queue in Hs. pose proof (len_nonneg (buf q)). lia.
Qed.

(** ** Sending *)

Lemma send_step p c rs : 0 <= p < sz →
  send_queue_nb (mkComm (Some (Typed q)) p c false) rs =
    match (next_answer rs).1 with
    | Moves k => let out := take k (drop (Z.to_nat p) img) in
                 Ok (len out, mkComm (Some (Typed q)) (p + len out) sz false, out, (next_answer rs).2)
    | Errs retry => Ok (if retry : bool then 1 else -1, mkComm (Some (Typed q)) p sz false, [], (next_answer rs).2)
    end.
Proof.
  intros Hp. unfold QX.send_queue_nb, moved. cbn [queue pos done access cbind mem_size mem_bytes].
  rewrite (proj2 (Z.ltb_lt p sz)) by lia. pose proof img_len.
  rewrite peek_from by lia. cbn [cbind]. by destruct (next_answer rs) as [[k|retry] rs'].
Qed.

Lemma send_last c rs q' : clear_queue q = Ok q' →
  send_queue_nb (mkComm (Some (Typed q)) sz c false) rs =
    let! rs' := write_trailer rs in Ok (1, mkComm (Some (Typed q')) sz sz true, [trailer], rs').
Proof.
  intros E. unfold QX.send_queue_nb. cbn [queue pos done access cbind mem_size mem_bytes].
  rewrite Z.ltb_irrefl. unfold finish_send. by rewrite E.
Qed.

Lemma write_trailer_cases rs : write_trailer rs = Fail Blocks ∨ ∃ rs', write_trailer rs = Ok rs'.
Proof. induction rs as [|[[|k]|e] rs IH]; simpl; eauto. Qed.

(** Done: the image and the trailer are out, the queue is cleared; not done: a
    part of them. *)
Definition sent (p : Z) (qc : QueueComm) (out : list Z) (q' : Queue) : Prop :=
  ∃ later, out ++ later = drop (Z.to_nat p) img ++ [trailer]
    ∧ if done qc then later = [] ∧ queue qc = Some (Typed q') else queue qc = Some (Typed q).

Lemma cut_image p k : 0 <= p → 
  let d := take k (drop (Z.to_nat p) img) in
  drop (Z.to_nat p) img = d ++ drop (Z.to_nat (p + len d)) img.
Proof.
  intros Hp d. unfold len. rewrite Z2Nat.inj_add, Nat2Z.id, <- drop_drop by lia.
  symmetry. rewrite <- (take_drop (length d) (drop (Z.to_nat p) img)) at 2. f_equal.
  unfold d. rewrite length_take. destruct (Nat.le_gt_cases k (length (drop (Z.to_nat p) img)));
    [by rewrite Nat.min_l|by rewrite Nat.min_r, !take_ge by lia].
Qed.

(** Answers that all move something, at least [n] of them. *)
Definition quick (n : Z) (rs : list io) : Prop := Forall (λ r, moving r = true) rs ∧ n <= Z.of_nat (length rs).

Lemma quick_cons n r rs : quick n (r :: rs) → moving r = true ∧ quick (n - 1) rs.
Proof. intros [Hf Hl]. apply Forall_cons in Hf as [? ?]. simpl in Hl. split; [done|]. split; [done|lia]. Qed.

Lemma send_all_ok q' calls rs p c : clear_queue q = Ok q' → 0 <= p <= sz →
  match send_all calls (mkComm (Some (Typed q)) p c false) rs with
  | Fail e => e = Blocks ∧ ¬ quick (sz - p + 1) rs
  | Ok (qc, out, rs') => sent p qc out q' ∧ (quick (sz - p + 1) rs → sz - p < Z.of_nat calls → done qc = true)
  end.
Proof.
  intros E. revert p c rs. induction calls as [|calls IH]; intros p c rs Hp; cbn [QX.send_all done].
  { split; [|lia]. exists (drop (Z.to_nat p) img ++ [trailer]). done. }
  destruct (decide (p = sz)) as [->|Hne].
  { rewrite (send_last c rs q' E). destruct (write_trailer_cases rs) as [Hw|[rs' Hw]]; rewrite Hw; cbn [cbind].
    - split; [done|]. intros Hq. destruct rs as [|r rs]; [destruct Hq; simpl in *; lia|].
      apply quick_cons in Hq as [Hr _]. destruct r as [[|k]|]; done.
    - destruct calls; simpl; (split; [|done]); exists []; (split; [|done]);
        rewrite drop_ge by (pose proof img_len; unfold len in *; lia); done. }
  rewrite send_step by lia. pose proof img_len as Hl. destruct (next_answer rs) as [[k|retry] rs1] eqn:En; cbn [fst snd].
  - pose proof (cut_image p k ltac:(lia)) as Hsplit. set (d := take k (drop (Z.to_nat p) img)) in *. cbn [cbind].
    assert (Z.of_nat (length d) = Z.min (Z.of_nat k) (sz - p)) as Hd.
    { unfold d. rewrite length_take, length_drop. unfold len in Hl. lia. }
    assert (quick (sz - p + 1) rs → 0 < Z.of_nat k ∧ quick (sz - (p + len d) + 1) rs1) as Hquick.
    { destruct rs as [|r rs]; [by intros [_ ?]; simpl in *; lia|]. simpl in En. injection En as -> ->.
      intros [Hr [Hf Hn]]%quick_cons. destruct k; [done|]. split; [lia|]. split; [done|]. unfold len. lia. }
    specialize (IH (p + len d) sz rs1 ltac:(unfold len; lia)).
    destruct (send_all calls _ rs1) as [[[qc out] rs2]|e]; cbn [cbind].
    + destruct IH as [(later & Hs & Hdone) Hm]. split.
      * exists later. split; [by rewrite <- app_assoc, Hs, Hsplit, <- app_assoc|done].
      * intros Hq Hc. destruct (Hquick Hq) as [Hk Hq']. apply Hm; [done|]. unfold len. lia.
    + destruct IH as [-> Hn]. split; [done|]. intros Hq. by apply Hn, Hquick.
  - cbn [cbind]. specialize (IH p sz rs1 Hp). assert (¬ quick (sz - p + 1) rs) as Hno.
    { destruct rs as [|r rs]; [intros [_ ?]; simpl in *; lia|]. simpl in En. injection En as -> ->. by intros [? _]%quick_cons. }
    destruct (send_all calls _ rs1) as [[[qc out] rs2]|e]; cbn [cbind]; [|by destruct IH as [-> _]].
    destruct IH as [Hs _]. split; [exact Hs|]. by intros ?%Hno.
Qed.

(** ** Receiving *)

Context (Hpos : 0 < len (buf q)) (Hhead : head q = start q) (Hmax : sz <= MaxAllocSize).

Local Abbreviation place := (place lock_ptr palloc_at garbage).

(** The block a comm starts with is as long as it says, or there is none. *)
Definition slot_ok (m : option qmem) : Prop :=
  match m with
  | None => True
  | Some m => mem_size m = Ok (len (mem_bytes lock_ptr m))
  end.

Lemma img_size : take 4 img = le_bytes 4 (wrap 32 sz).
Proof. rewrite image_size by done. unfold wrap. rewrite Z.mod_small by (pose proof sz_bounds; lia). done. Qed.

(** The first bytes of the size are there. *)
Definition size_part (p c : Z) : Prop :=
  take (Z.to_nat p) (le_bytes 4 (wrap 32 c)) = take (Z.to_nat p) img.

Lemma size_part_full c : 
  size_part 4 c → (∃ b, c = to_int32 (le_value b) ∧ Forall is_byte b ∧ length b = 4%nat) → c = sz.
Proof.
  unfold size_part. change (Z.to_nat 4) with 4%nat. rewrite img_size. intros Hs (b & -> & Hb & Hl).
  rewrite (int_pattern b Hb Hl) in Hs. rewrite take_ge in Hs by lia.
  rewrite Hs. unfold wrap. rewrite Z.mod_small by (pose proof sz_bounds; lia). apply int_field.
  pose proof sz_bounds. lia.
Qed.

Lemma store_size_ok qc d :
  done qc = false → 0 <= pos qc → size_part (pos qc) (csize qc) → pos qc + len d <= 4 →
  d = take (length d) (drop (Z.to_nat (pos qc)) img) →
  ∃ c, store_size qc d = Ok (mkComm (queue qc) (pos qc + len d) c false) ∧ size_part (pos qc + len d) c
    ∧ (pos qc + len d = 4 → c = sz).
Proof.
  intros Hd Hp Hs Hl Heq. destruct qc as [m p c dn]. cbn [queue pos csize done] in *. subst dn.
  destruct (poke_prefix (le_bytes 4 (wrap 32 c)) img d p) as (b & E & Hlb & Hb); [done|unfold len at 2; rewrite length_le_bytes; lia|done|done|].
  assert (length b = 4%nat) as Hlb4 by (unfold len in Hlb; rewrite length_le_bytes in Hlb; lia).
  assert (Forall is_byte d) as Hdb.
  { assert (d = drop (Z.to_nat p) (take (Z.to_nat p + length d) (take 4 img))) as ->.
    { rewrite take_take, Nat.min_l by (unfold len in Hl; lia). by rewrite Heq at 1; rewrite take_drop_commute. }
    rewrite img_size. apply Forall_drop, Forall_take, le_bytes_bytes. }
  assert (Forall is_byte b) as Hbb.
  { eapply poke_bytes; [apply le_bytes_bytes|done|done]. }
  unfold store_size. cbn [queue pos csize done]. rewrite E. cbn [cbind]. eexists. split; [done|].
  assert (size_part (p + len d) (to_int32 (le_value b))) as Hsp by (unfold size_part; by rewrite int_pattern).
  split; [done|]. intros H4. apply size_part_full; [by rewrite <- H4|by exists b].
Qed.

(** The block is there, and what has arrived is right. *)
Definition block_part (p : Z) (a : Z) (b : list Z) : Prop :=
  len b = sz ∧ take (Z.to_nat p) b = take (Z.to_nat p) img.

(** Storing the size again in a block that has it changes nothing. *)
Lemma poke_size b : take 4 b = take 4 img → 4 <= len b → poke b 0 (le_bytes 4 (wrap 32 sz)) = Ok b.
Proof.
  intros Hb Hl. unfold poke, len in *. rewrite length_le_bytes.
  rewrite (proj2 (andb_true_iff _ _)) by (split; apply Z.leb_le; lia).
  rewrite <- img_size, <- Hb. change (Z.to_nat 0) with 0%nat. rewrite take_0, app_nil_l. by rewrite take_drop.
Qed.

Lemma palloc_ok : ∃ b, palloc palloc_at garbage sz = Ok (Raw (palloc_at sz) b) ∧ len b = sz.
Proof.
  unfold palloc, wrap. pose proof sz_bounds. rewrite Z.mod_small by lia.
  rewrite (proj2 (Z.ltb_ge _ _)) by lia. eexists. split; [done|].
  unfold len. rewrite length_fmap, length_seq. lia.
Qed.

(** A block of the right size gets its size field. *)
Lemma place_start m b : len (mem_bytes lock_ptr m) = sz → poke (mem_bytes lock_ptr m) 0 (le_bytes 4 (wrap 32 sz)) = Ok b →
  block_part 4 (mem_addr m) b.
Proof.
  intros Hl E. destruct (poke_prefix (mem_bytes lock_ptr m) img (le_bytes 4 (wrap 32 sz)) 0) as (b' & E' & Hlb & Hb);
    [done|unfold len at 1; rewrite length_le_bytes; pose proof sz_bounds; lia|done| |].
  - rewrite length_le_bytes. change (drop (Z.to_nat 0) img) with img. by rewrite img_size.
  - rewrite E in E'. injection E' as <-. split; [lia|]. by replace (0 + len (le_bytes 4 (wrap 32 sz))) with 4 in Hb.
Qed.

Lemma place_fresh m p d : slot_ok m →
  ∃ a b, place (mkComm m p sz d) = Ok (mkComm (Some (Raw a b)) p sz d) ∧ block_part 4 a b.
Proof.
  intros Hm. unfold QX.place. cbn [queue pos csize done].
  assert (∃ m', match m with
    | None => palloc palloc_at garbage sz
    | Some m => let! s := mem_size m in if s =? sz then Ok m else palloc palloc_at garbage sz
    end = Ok m' ∧ len (mem_bytes lock_ptr m') = sz) as (m' & -> & Hl).
  { destruct palloc_ok as (b & Ep & Hb). destruct m as [m|]; [|by eexists].
    simpl in Hm. rewrite Hm. cbn [cbind]. destruct (Z.eqb_spec (len (mem_bytes lock_ptr m)) sz); [by exists m|by eexists]. }
  cbn [cbind]. destruct (poke_prefix (mem_bytes lock_ptr m') img (le_bytes 4 (wrap 32 sz)) 0) as (b & E & _);
    [done|unfold len at 1; rewrite length_le_bytes; pose proof sz_bounds; lia|done| |].
  - rewrite length_le_bytes. change (drop (Z.to_nat 0) img) with img. by rewrite img_size.
  - rewrite E. cbn [cbind]. eexists _, b. split; [done|]. by eapply place_start.
Qed.

Lemma prefix_four p (b : list Z) : 4 <= p → take (Z.to_nat p) b = take (Z.to_nat p) img → take 4 b = take 4 img.
Proof.
  intros Hp Hb. apply (f_equal (take 4)) in Hb. by rewrite !take_take, !Nat.min_l in Hb by lia.
Qed.

Lemma place_again a b p d : 4 <= p → block_part p a b →
  place (mkComm (Some (Raw a b)) p sz d) = Ok (mkComm (Some (Raw a b)) p sz d).
Proof.
  intros Hp [Hl Hb]. pose proof (prefix_four p b Hp Hb) as H4. pose proof sz_bounds.
  unfold QX.place. cbn [queue pos csize done mem_size mem_bytes mem_addr].
  assert (peek b 0 4 = Ok (take 4 b)) as ->.
  { unfold peek, len in *. by rewrite (proj2 (andb_true_iff _ _)) by (split; apply Z.leb_le; lia). }
  cbn [cbind]. rewrite H4, image_size, int_field, Z.eqb_refl by (done || lia). cbn [cbind mem_bytes].
  by rewrite poke_size by (done || lia).
Qed.

Lemma store_block_ok a b p d c dn : 0 <= p → p + len d <= sz → block_part p a b →
  d = take (length d) (drop (Z.to_nat p) img) →
  ∃ b', store_block lock_ptr (mkComm (Some (Raw a b)) p c dn) d = Ok (mkComm (Some (Raw a b')) (p + len d) c dn)
    ∧ block_part (p + len d) a b'.
Proof.
  intros Hp Hl [Hlb Hb] Hd. destruct (poke_prefix b img d p) as (b' & E & Hlb' & Hb'); [done|lia|done|done|].
  exists b'. unfold store_block. cbn [queue pos csize done access cbind mem_bytes mem_addr]. rewrite E.
  split; [done|]. split; [lia|done].
Qed.

(** A queue with the elements of the sender's. *)
Definition received (qc : QueueComm) : Prop :=
  done qc = true ∧ ∃ q', queue qc = Some (Typed q') ∧ ring valid q' l ∧ ql q' = NoLock
    ∧ start q' = addr q' + sizeof_Queue.

Lemma finish_ok a b dn : block_part sz a b →
  ∃ qc, finish_receive lock_ptr (mkComm (Some (Raw a b)) sz sz dn) = Ok qc ∧ received qc.
Proof.
  intros [Hl Hb]. pose proof img_len as Hi. pose proof sz_bounds.
  rewrite !take_ge in Hb by (unfold len in *; lia). subst b.
  unfold finish_receive. cbn [queue pos csize done access cbind mem_bytes mem_addr].
  rewrite (proj2 (Z.ltb_ge _ _)) by (unfold sizeof_Queue; lia).
  rewrite of_image_image by done.
  change (swizzle_queue_ptrs (with_lock (moved_to q a) NoLock)) with (swizzle_queue_ptrs (moved_to q a)).
  destruct (swizzle_ok q l a Hring Hhead Hpos) as (q' & -> & Hr & Hs & Ha & Hq). cbn [cbind].
  eexists. split; [done|]. split; [done|]. exists q'. split_and!; try done. by rewrite Ha.
Qed.

(** ** Calls of [receive_queue_nb] *)

Local Abbreviation receive_queue_nb := (receive_queue_nb lock_ptr palloc_at garbage).
Local Abbreviation receive_rest := (receive_rest lock_ptr palloc_at garbage).
Local Abbreviation rest p := (drop (Z.to_nat p) img).

Lemma rest_len p : 0 <= p <= sz → Z.of_nat (length (rest p)) = sz - p.
Proof. intros Hp. pose proof img_len. unfold len in *. rewrite length_drop. lia. Qed.

Lemma rest_add p n : 0 <= p → drop n (rest p) = rest (p + Z.of_nat n).
Proof. intros Hp. rewrite drop_drop. f_equal. lia. Qed.

(** The comm of an unfinished reception of which [p] bytes have arrived. *)
Inductive receiving (p : Z) (qc : QueueComm) : Prop :=
  | in_size : done qc = false → pos qc = p → 0 <= p < 4 → slot_ok (queue qc) →
      size_part p (csize qc) → receiving p qc
  | in_block a b : qc = mkComm (Some (Raw a b)) p sz false → 4 <= p < sz → block_part p a b →
      receiving p qc.

(** After [p] bytes: more of them, or all; [later] has not been sent yet, [more]
    is what follows the trailer on the wire. *)
Definition went_on (p : Z) (fast : Prop) (later more : list Z) (qc : QueueComm) (wire : list Z) : Prop :=
  (∃ p', receiving p' qc ∧ wire ++ later = rest p' ++ trailer :: more ∧ p <= p' ∧ (fast → p < p'))
  ∨ (received qc ∧ wire ++ later = more).

(** The outcome of a call that sees the answers [rs] and uses at most [k] of
    them if they are all good. *)
Definition outcome (p : Z) (k : nat) (rs : list io) (later more : list Z)
    (res : cres (Z * QueueComm * list Z * list io)) : Prop :=
  let fast := later = [] ∧ quick (Z.of_nat k) rs in
  match res with
  | Fail e => e = Blocks ∧ ¬ fast
  | Ok (_, qc, wire, rs') => went_on p fast later more qc wire ∧ (fast → ∃ n, (n <= k)%nat ∧ rs' = drop n rs)
  end.

(** The part of a read that is the same in all loops. *)
Lemma read_bytes p n k wire later more : 0 <= p → 0 < n → p + n <= sz → wire ++ later = rest p ++ more →
  let d := take (min k (Z.to_nat n)) wire in
  d = take (length d) (rest p) ∧ drop (length d) wire ++ later = rest (p + len d) ++ more ∧ len d <= n
  ∧ (later = [] → (0 < k)%nat → 0 < len d).
Proof.
  intros Hp Hn Hpn Hw d. pose proof (rest_len p ltac:(lia)) as Hl.
  destruct (read_step wire later (rest p) more (min k (Z.to_nat n))) as (H1 & H2 & H3 & H4); [lia|done|].
  fold d in H1, H2, H3, H4. split; [done|]. split; [by rewrite H2, rest_add|]. unfold len.
  split; [lia|]. intros E Hk. specialize (H4 E ltac:(lia)). lia.
Qed.

Lemma moving_pos k : moving (Moves k) = true → (0 < k)%nat.
Proof. destruct k; [done|lia]. Qed.

Lemma read_trailer_ok wire rs later more : wire ++ later = trailer :: more →
  match read_trailer wire rs with
  | Fail e => e = Blocks ∧ ¬ (later = [] ∧ quick 1 rs)
  | Ok (d, wire', rs') => d = trailer ∧ wire' ++ later = more ∧ (quick 1 rs → later = [] → rs' = drop 1 rs)
  end.
Proof.
  intros Hw. induction rs as [|r rs IH]; simpl.
  { split; [done|]. intros [_ [_ ?]]. simpl in *. lia. }
  assert (∀ r, moving r = false → match read_trailer wire rs with
    | Fail e => e = Blocks ∧ ¬ (later = [] ∧ quick 1 (r :: rs))
    | Ok (d, wire', rs') => d = trailer ∧ wire' ++ later = more ∧ (quick 1 (r :: rs) → later = [] → rs' = drop 1 (r :: rs))
    end) as Hskip.
  { intros r0 Hr. destruct (read_trailer wire rs) as [[[d w] rs']|e].
    - destruct IH as (-> & Hw' & _). split; [done|]. split; [done|]. intros [Hm _]%quick_cons. congruence.
    - destruct IH as [-> _]. split; [done|]. intros [_ [Hm _]%quick_cons]. congruence. }
  destruct r as [[|k]|retry]; [by apply Hskip| |by apply Hskip].
  destruct wire as [|x wire].
  - destruct (read_trailer [] rs) as [[[d w] rs']|e].
    + destruct IH as (-> & Hw' & _). split; [done|]. split; [done|]. intros _ ->. done.
    + destruct IH as [-> _]. split; [done|]. by intros [-> _].
  - injection Hw as -> Hw. done.
Qed.

Lemma complete_ok a b wire rs later more p : block_part sz a b → wire ++ later = trailer :: more →
  outcome p 1 rs later more (complete lock_ptr (mkComm (Some (Raw a b)) sz sz false) wire rs).
Proof.
  intros Hb Hw. unfold complete, outcome. pose proof (read_trailer_ok wire rs later more Hw) as Hr.
  destruct (read_trailer wire rs) as [[[d w] rs']|e]; cbn [cbind].
  - destruct Hr as (-> & Hw' & Hq). rewrite Z.eqb_refl. cbn [cassert cbind].
    destruct (finish_ok a b false Hb) as (qc & -> & Hrec). cbn [cbind]. split; [by right|].
    intros [El Hf]. exists 1%nat. split; [lia|]. by apply Hq.
  - destruct Hr as [-> Hn]. split; [done|]. intros [El Hf]. by apply Hn.
Qed.

(** One answer more has been used before. *)
Lemma outcome_step p p' k r rs later more res : p < p' ∨ moving r = false ∨ later ≠ [] → p <= p' →
  outcome p' k rs later more res → outcome p (S k) (r :: rs) later more res.
Proof.
  intros Hadv Hle Ho. unfold outcome in *.
  assert (later = [] ∧ quick (Z.of_nat (S k)) (r :: rs) → later = [] ∧ quick (Z.of_nat k) rs ∧ p < p') as Hq.
  { intros [El [Hm [Hf Hn]]%quick_cons]. split; [done|]. split; [split; [done|lia]|]. naive_solver congruence. }
  destruct res as [[[[x qc] wire] rs']|e].
  - destruct Ho as [Hgo Hrs]. split.
    + destruct Hgo as [(p2 & Hr & Hw & Hle2 & Hf)|Hr]; [left|by right]. exists p2. split_and!; try done; [lia|].
      intros Hfast. destruct (Hq Hfast) as (? & ? & ?). lia.
    + intros Hfast. destruct (Hq Hfast) as (El & Hf & _). destruct Hrs as (n & Hn & ->); [done|].
      exists (S n). split; [lia|done].
  - destruct Ho as [-> Hn]. split; [done|]. intros Hfast. destruct (Hq Hfast) as (? & ? & _). by apply Hn.
Qed.

(** A call that stops with bytes missing. *)
Lemma outcome_wait p p' k r rs later more x qc wire :
  receiving p' qc → wire ++ later = rest p' ++ trailer :: more → p <= p' → (later = [] → moving r = true → p < p') →
  outcome p (S k) (r :: rs) later more (Ok (x, qc, wire, rs)).
Proof.
  intros Hr Hw Hle Hf. split.
  - left. exists p'. split_and!; try done. intros [El [Hm _]%quick_cons]. auto.
  - intros _. exists 1%nat. split; [lia|done].
Qed.

Lemma outcome_none p k later more x qc wire :
  receiving p qc → wire ++ later = rest p ++ trailer :: more → outcome p (S k) [] later more (Ok (x, qc, wire, [])).
Proof.
  intros Hr Hw. split; [|intros [_ [_ ?]]; simpl in *; lia]. left. exists p. split_and!; try done.
  intros [_ [_ ?]]; simpl in *; lia.
Qed.

Lemma rest_all : rest sz = [].
Proof. apply drop_ge. pose proof img_len. unfold len in *. lia. Qed.

(** From the moment the size is known. *)
Lemma receive_rest_ok p qc br wire rs later more :
  (∃ m, qc = mkComm m p sz false ∧ ((p = 4 ∧ slot_ok m) ∨ ∃ a b, m = Some (Raw a b) ∧ block_part p a b)) →
  4 <= p < sz → wire ++ later = rest p ++ trailer :: more →
  outcome p 2 rs later more (receive_rest qc br wire rs).
Proof.
  intros (m & -> & Hm) Hp Hw.
  assert (∃ a b, place (mkComm m p sz false) = Ok (mkComm (Some (Raw a b)) p sz false) ∧ block_part p a b)
    as (a & b & E & Hb).
  { destruct Hm as [[-> Hm]|(a & b & -> & Hb)]; [by apply place_fresh|]. exists a, b. split; [|done].
    apply place_again; [lia|done]. }
  unfold QX.receive_rest. rewrite E. cbn [cbind pos csize]. rewrite (proj2 (Z.ltb_lt p sz)) by lia.
  assert (receiving p (mkComm (Some (Raw a b)) p sz false)) as Hrec by (by eapply in_block).
  unfold try_read. destruct rs as [|[k|retry] rs].
  - by apply outcome_none.
  - destruct (read_bytes p (sz - p) k wire later (trailer :: more)) as (Hd & Hw' & Hl & Hm'); [lia|lia|lia|done|].
    set (d := take _ wire) in *. pose proof (len_nonneg d).
    destruct (store_block_ok a b p d sz false) as (b' & -> & Hb'); [lia|lia|done|done|].
    assert (later = [] → moving (Moves k) = true → p < p + len d) as Hadv.
    { intros El Hf. specialize (Hm' El (moving_pos k Hf)). lia. }
    cbn [cbind pos csize]. destruct (Z.ltb_spec (p + len d) sz) as [Hlt|Hge].
    + apply (outcome_wait p (p + len d)); [eapply in_block; [done|lia|done]|done|lia|done].
    + assert (p + len d = sz) as Heq by lia. rewrite Heq in *. rewrite rest_all in Hw'.
      apply (outcome_step p sz); [by left; lia|lia|]. by apply complete_ok.
  - by apply (outcome_wait p p).
Qed.

Lemma receive_nb_ok p qc wire rs later more : receiving p qc → wire ++ later = rest p ++ trailer :: more →
  outcome p 3 rs later more (receive_queue_nb qc wire rs).
Proof.
  intros Hq Hw. pose proof sz_bounds as Hsz. pose proof Hq as Hrec. unfold QX.receive_queue_nb.
  destruct Hq as [Hd Hp Hp4 Hs Hpart|a b -> Hp Hb].
  - rewrite Hp, (proj2 (Z.ltb_lt p 4)) by lia. unfold try_read. destruct rs as [|[k|retry] rs].
    + by apply outcome_none.
    + destruct (read_bytes p (4 - p) k wire later (trailer :: more)) as (Hd' & Hw' & Hl & Hm'); [lia|lia|lia|done|].
      set (d := take _ wire) in *. pose proof (len_nonneg d).
      destruct (store_size_ok qc d) as (c & -> & Hc & Hfull); [done|lia|by rewrite Hp|lia|by rewrite Hp|].
      rewrite Hp in *. cbn [cbind pos]. destruct (Z.ltb_spec (p + len d) 4) as [Hlt|Hge].
      * apply (outcome_wait p (p + len d)); [by apply in_size; [..|lia| |]|done|lia|].
        intros El Hf. specialize (Hm' El (moving_pos k Hf)). lia.
      * assert (p + len d = 4) as Heq by lia. rewrite Heq in *. rewrite (Hfull eq_refl).
        apply (outcome_step p 4); [by left; lia|lia|]. apply receive_rest_ok; [|lia|done].
        eexists. split; [done|]. by left.
    + by apply (outcome_wait p p).
  - cbn [pos]. rewrite (proj2 (Z.ltb_ge p 4)) by lia.
    assert (outcome p 2 rs later more (receive_rest (mkComm (Some (Raw a b)) p sz false) 0 wire rs)) as Ho.
    { apply receive_rest_ok; [|lia|done]. eexists. split; [done|]. right. by exists a, b. }
    unfold outcome in *. destruct (receive_rest _ _ _ _) as [[[[x qc] w] rs']|e].
    + destruct Ho as [Hgo Hrs]. split.
      * destruct Hgo as [(p2 & Hr & Hw2 & Hle2 & Hf)|Hr]; [left|by right]. exists p2. split_and!; try done.
        intros [El [Hf' Hn]]. apply Hf. split; [done|]. split; [done|lia].
      * intros [El [Hf' Hn]]. destruct Hrs as (n & Hle & ->); [split; [done|]; split; [done|lia]|].
        exists n. split; [lia|done].
    + destruct Ho as [-> Hno]. split; [done|]. intros [El [Hf' Hn]]. apply Hno. split; [done|]. split; [done|lia].
Qed.

(** All calls together. *)
Lemma recv_all_ok calls p qc wire rs later more : receiving p qc → wire ++ later = rest p ++ trailer :: more →
  let fast := later = [] ∧ quick (3 * Z.of_nat calls) rs ∧ sz - p <= Z.of_nat calls in
  match recv_all lock_ptr palloc_at garbage calls qc wire rs with
  | Fail e => e = Blocks ∧ ¬ fast
  | Ok (qc', wire', _) =>
      ((∃ p', receiving p' qc' ∧ wire' ++ later = rest p' ++ trailer :: more) ∨ (received qc' ∧ wire' ++ later = more))
      ∧ (fast → received qc')
  end.
Proof.
  revert p qc wire rs. induction calls as [|calls IH]; intros p qc wire rs Hq Hw fast.
  - simpl. assert (done qc = false) as -> by (by destruct Hq as [Hd|a b ->]).
    split; [left; by exists p|]. intros (_ & _ & Hle). destruct Hq as [_ _ ? _ _|a b _ ? _]; pose proof sz_bounds; lia.
  - simpl recv_all. assert (done qc = false) as -> by (by destruct Hq as [Hd|a b ->]).
    pose proof (receive_nb_ok p qc wire rs later more Hq Hw) as Ho. unfold outcome in Ho.
    assert (fast → later = [] ∧ quick (Z.of_nat 3) rs) as Hfast.
    { intros (El & [Hf Hn] & _). split; [done|]. split; [done|lia]. }
    destruct (receive_queue_nb qc wire rs) as [[[[x qc1] wire1] rs1]|e]; cbn [cbind].
    + destruct Ho as [[(p' & Hq' & Hw' & Hle & Hadv)|[Hr Hw']] Hrs].
      * specialize (IH p' qc1 wire1 rs1 Hq' Hw'). cbn zeta in IH.
        assert (fast → later = [] ∧ quick (3 * Z.of_nat calls) rs1 ∧ sz - p' <= Z.of_nat calls) as Hnext.
        { intros Hf. specialize (Hfast Hf). specialize (Hadv Hfast). destruct (Hrs Hfast) as (n & Hn & ->).
          destruct Hf as (El & [Hf Hlen] & Hc). split; [done|]. split; [|lia]. split; [by apply Forall_drop|].
          rewrite length_drop. lia. }
        destruct (recv_all _ _ _ calls qc1 wire1 rs1) as [[[qc2 w2] rs2]|e].
        -- destruct IH as [Hres Hdone]. split; [done|]. intros Hf. by apply Hdone, Hnext.
        -- destruct IH as [-> Hno]. split; [done|]. intros Hf. by apply Hno, Hnext.
      * assert (recv_all lock_ptr palloc_at garbage calls qc1 wire1 rs1 = Ok (qc1, wire1, rs1)) as ->.
        { destruct Hr as [Hd _]. destruct calls; simpl; by rewrite Hd. }
        split; [by right|]. by intros.
    + destruct Ho as [-> Hno]. split; [done|]. intros Hf. by apply Hno, Hfast.
Qed.

(** ** The blocking reception *)

(** No answer is an error. *)
Definition healthy (r : io) : Prop := match r with Moves _ => True | Errs _ => False end.

Lemma size_loop_ok rs m p c wire later more :
  Forall healthy rs → 0 <= p <= 4 → size_part p c → (p = 4 → c = sz) → wire ++ later = rest p ++ more →
  (size_loop (mkComm m p c false) wire rs = Fail Blocks ∧ (later = [] → moves rs < 4 - p))
  ∨ ∃ wire' rs', size_loop (mkComm m p c false) wire rs = Ok (true, mkComm m 4 sz false, wire', rs')
      ∧ Forall healthy rs' ∧ wire' ++ later = rest 4 ++ more ∧ (later = [] → moves rs <= moves rs' + (4 - p)).
Proof.
  intros Hh. revert p c wire. induction Hh as [|r rs Hr Hh IH]; intros p c wire Hp Hs Hc Hw; simpl.
  - destruct (Z.ltb_spec p 4); [left; split; [done|unfold moves; simpl; lia]|right].
    assert (p = 4) as -> by lia. rewrite Hc by done. do 2 eexists. split; [done|]. split; [done|].
    split; [done|]. unfold moves. simpl. lia.
  - destruct (Z.ltb_spec p 4) as [Hlt|Hge].
    + destruct r as [k|]; [|done]. pose proof sz_bounds.
      destruct (read_bytes p (4 - p) k wire later more) as (Hd & Hw' & Hl & Hm); [lia|lia|lia|done|].
      set (d := take _ wire) in *. pose proof (len_nonneg d).
      destruct (store_size_ok (mkComm m p c false) d) as (c' & -> & Hc' & Hfull); [done|simpl; lia|done|simpl; lia|done|].
      cbn [cbind pos queue] in *. rewrite moves_cons.
      assert (later = [] → (if moving (Moves k) then 1 else 0) <= len d) as Hk.
      { intros E. destruct k; simpl; [lia|]. specialize (Hm E ltac:(lia)). lia. }
      destruct (IH (p + len d) c' (drop (length d) wire)) as [[-> Hf]|(w' & rs' & -> & Hh' & Hw'' & Hf)]; [lia|done|done|done|left|right].
      * split; [done|]. intros E. specialize (Hk E). specialize (Hf E). lia.
      * exists w', rs'. split_and!; try done. intros E. specialize (Hk E). specialize (Hf E). lia.
    + right. assert (p = 4) as -> by lia. rewrite Hc by done. do 2 eexists. split; [done|].
      split; [by constructor|]. split; [done|]. lia.
Qed.

Lemma block_loop_ok rs a b p wire later more :
  Forall healthy rs → 4 <= p <= sz → block_part p a b → wire ++ later = rest p ++ more →
  (block_loop lock_ptr (mkComm (Some (Raw a b)) p sz false) wire rs = Fail Blocks ∧ (later = [] → moves rs < sz - p))
  ∨ ∃ b' wire' rs', block_loop lock_ptr (mkComm (Some (Raw a b)) p sz false) wire rs
        = Ok (true, mkComm (Some (Raw a b')) sz sz false, wire', rs')
      ∧ block_part sz a b' ∧ wire' ++ later = more.
Proof.
  intros Hh. revert p b wire. induction Hh as [|r rs Hr Hh IH]; intros p b wire Hp Hb Hw; simpl.
  - destruct (Z.ltb_spec p sz); [left; split; [done|unfold moves; simpl; lia]|right].
    assert (p = sz) as -> by lia. do 3 eexists. split; [done|]. split; [done|]. rewrite Hw.
    by rewrite drop_ge by (pose proof img_len; unfold len in *; lia).
  - destruct (Z.ltb_spec p sz) as [Hlt|Hge].
    + destruct r as [k|]; [|done].
      destruct (read_bytes p (sz - p) k wire later more) as (Hd & Hw' & Hl & Hm); [lia|lia|lia|done|].
      set (d := take _ wire) in *. pose proof (len_nonneg d).
      destruct (store_block_ok a b p d sz false) as (b' & -> & Hb'); [lia|lia|done|done|].
      cbn [cbind]. rewrite moves_cons.
      assert (later = [] → (if moving (Moves k) then 1 else 0) <= len d) as Hk.
      { intros E. destruct k; simpl; [lia|]. specialize (Hm E ltac:(lia)). lia. }
      destruct (IH (p + len d) b' (drop (length d) wire)) as [[-> Hf]|Hok]; [lia|done|done|left|by right].
      split; [done|]. intros E. specialize (Hk E). specialize (Hf E). lia.
    + right. assert (p = sz) as -> by lia. do 3 eexists. split; [done|]. split; [done|]. rewrite Hw.
      by rewrite drop_ge by (pose proof img_len; unfold len in *; lia).
Qed.

Lemma receive_b_ok m rs wire later more : slot_ok m → Forall healthy rs → wire ++ later = img ++ more →
  (receive_queue_b lock_ptr palloc_at garbage (mkComm m 0 (-1) false) wire rs = Fail Blocks
     ∧ (later = [] → moves rs < sz))
  ∨ ∃ qc wire' rs', receive_queue_b lock_ptr palloc_at garbage (mkComm m 0 (-1) false) wire rs = Ok (1, qc, wire', rs')
      ∧ received qc ∧ wire' ++ later = more.
Proof.
  intros Hm Hh Hw. unfold receive_queue_b. cbn [queue csize done]. pose proof sz_bounds as Hsz.
  destruct (size_loop_ok rs m 0 (-1) wire later more Hh) as [[-> Hf]|(w1 & rs1 & -> & Hh1 & Hw1 & Hf)];
    [lia|done|done|done|left; split; [done|intros E; specialize (Hf E); lia]|]. cbn [cbind negb].
  destruct (place_fresh m 4 false Hm) as (a & b & -> & Hb). cbn [cbind].
  destruct (block_loop_ok rs1 a b 4 w1 later more Hh1) as [[-> Hf']|(b' & w2 & rs2 & -> & Hb' & Hw2)];
    [lia|done|done|left; split; [done|intros E; specialize (Hf E); specialize (Hf' E); lia]|]. cbn [cbind negb].
  destruct (finish_ok a b' false Hb') as (qc & -> & Hq). cbn [cbind]. right. by exists qc, w2, rs2.
Qed.
End transfer.

(** ** The contract of the transfer *)
Section contract.
Context {T : Type} `{SerializerOk T valid}.
Context (lock_ptr : queue_lock → Z) (palloc_at : Z → Z) (garbage : nat → Z).

(** A queue that can be sent: it was only filled since it was last empty, and
    its block is as [make_queue] makes it. *)
Record sendable (q : Queue) (l : list T) : Prop := {
  sd_ok : queue_ok (valid := valid) q l;
  sd_image : image_ok q;
  sd_head : head q = start q;
  sd_room : 0 < len (buf q);
  sd_max : size q <= MaxAllocSize
}.

(** C23: A filled queue crosses a socket in non-blocking mode, however many bytes
    each write and each read moves and however often they fail.  Safety: when
    the sender is done its queue is empty, and a receiver that is given what has
    been sent so far can only complete when all of it has arrived, with a queue
    that holds the sender's elements.  The only way to get stuck is the loop for
    the byte behind the image.  Progress: with enough calls and answers that
    move something, both are done and nothing is left on the wire. *)
Theorem queue_crosses_socket q l n ws :
  sendable q l →
  match send_all lock_ptr n (queue_comm_flush (newQueueComm (Some q))) ws with
  | Fail e => e = Blocks
  | Ok (qs, out, _) =>
      (done qs = true → ∃ q', queue qs = Some (Typed q') ∧ queue_ok (valid := valid) q' [])
      ∧ ∀ part later rs calls, out = part ++ later →
          match recv_all lock_ptr palloc_at garbage calls (reset_qcomm qs) part rs with
          | Fail e => e = Blocks
          | Ok (qr, wire, _) => done qr = true → received (valid := valid) l qr ∧ wire = [] ∧ later = []
          end
  end
  ∧ (quick (size q + 1) ws → size q < Z.of_nat n → ∃ qs out ws',
      send_all lock_ptr n (queue_comm_flush (newQueueComm (Some q))) ws = Ok (qs, out, ws') ∧ done qs = true
      ∧ ∀ rs calls, quick (3 * Z.of_nat calls) rs → size q <= Z.of_nat calls → ∃ qr rs',
          recv_all lock_ptr palloc_at garbage calls (reset_qcomm qs) out rs = Ok (qr, [], rs')
          ∧ received (valid := valid) l qr).
Proof.
  intros [Hq Hi Hh Hp Hm]. destruct (clear_queue_ok q l Hq) as (q' & Ec & Hq' & _).
  pose proof (sz_bounds q Hi) as Hsz.
  pose proof (send_all_ok lock_ptr q Hi q' n ws 0 (size q) Ec ltac:(lia)) as Hs.
  unfold newQueueComm, queue_comm_flush. cbn [done queue csize].
  assert (∀ qs, receiving lock_ptr q 0 (reset_qcomm qs)) as Hstart by (intros qs; by apply in_size; [..|lia| |]).
  pose proof (λ qs calls, recv_all_ok lock_ptr palloc_at garbage q l (proj1 Hq) Hi Hp Hh Hm calls 0 (reset_qcomm qs)) as Hrecv.
  destruct (send_all lock_ptr n _ ws) as [[[qs out] ws']|e].
  2: { destruct Hs as [-> Hno]. split; [done|]. intros Hf _. destruct Hno. by rewrite Z.sub_0_r. }
  destruct Hs as [(left & Hw & Hdone) Hprog]. split.
  - split; [intros E; rewrite E in Hdone; exists q'; by destruct Hdone|].
    intros part later rs calls ->. rewrite <- app_assoc in Hw.
    specialize (Hrecv qs calls part rs (later ++ left) [] (Hstart qs) Hw). cbn zeta in Hrecv.
    destruct (recv_all _ _ _ calls _ part rs) as [[[qr wire] rs']|e]; [|by destruct Hrecv].
    intros Hqr. destruct Hrecv as [[(p' & Hr & _)|[Hr Hnil]] _].
    + destruct Hr as [Hf _ _ _ _|a b -> _ _]; [congruence|done].
    + split; [done|]. apply app_eq_nil in Hnil as [-> Hnil]. by apply app_eq_nil in Hnil as [-> _].
  - intros Hf Hn. rewrite Z.sub_0_r in Hprog. specialize (Hprog Hf Hn). rewrite Hprog in Hdone.
    destruct Hdone as [-> _]. exists qs, out, ws'. split; [done|]. split; [done|]. intros rs calls Hrs Hc.
    specialize (Hrecv qs calls out rs [] [] (Hstart qs) Hw). cbn zeta in Hrecv.
    assert (@nil Z = [] ∧ quick (3 * Z.of_nat calls) rs ∧ size q - 0 <= Z.of_nat calls) as Hfast by (split_and!; [done|done|lia]).
    destruct (recv_all _ _ _ calls _ out rs) as [[[qr wire] rs']|e]; [|by destruct Hrecv as [_ []]].
    destruct Hrecv as [Hres Hok]. specialize (Hok Hfast). destruct Hres as [(p' & Hr & _)|[_ Hnil]].
    + destruct Hok as [Hrd _]. destruct Hr as [Hf' _ _ _ _|a b -> _ _]; [congruence|done].
    + rewrite app_nil_r in Hnil. subst wire. by exists qr, rs'.
Qed.

(** C36: The blocking reception: when the whole image is on the wire and the reads
    move enough, it returns a queue with the sender's elements, and what follows
    the image stays on the wire.  When the peer stops before the end it never
    returns, however many reads answer that there is nothing: the code takes
    the 0 of an end of file for progress. *)
Theorem receive_queue_b_completes_or_spins q l rs wire later more :
  sendable q l → Forall healthy rs → wire ++ later = image lock_ptr q ++ more →
  if decide (later = []) then
    size q <= moves rs → ∃ qc rs', receive_queue_b lock_ptr palloc_at garbage (reset_qcomm (newQueueComm None)) wire rs
      = Ok (1, qc, more, rs') ∧ received (valid := valid) l qc
  else more = [] →
    receive_queue_b lock_ptr palloc_at garbage (reset_qcomm (newQueueComm None)) wire rs = Fail Blocks.
Proof.
  intros [Hq Hi Hh Hp Hm] Hrs Hw. unfold reset_qcomm.
  destruct (receive_b_ok lock_ptr palloc_at garbage q l (proj1 Hq) Hi Hp Hh Hm None rs wire later more)
    as [[E Hf]|(qc & wire' & rs' & E & Hr & Hw')]; [done|done|done| |].
  - destruct (decide (later = [])) as [El|]; [|done]. intros Hle. specialize (Hf El). lia.
  - destruct (decide (later = [])) as [->|Hne]; [|intros ->; by apply app_eq_nil in Hw' as [_ ?]].
    intros _. rewrite app_nil_r in Hw'. subst wire'. by exists qc, rs'.
Qed.
End contract.

(** ** A queue of 200 bytes with one result *)

Definition one : Queue := QDemo.push QDemo.q0 (QDemo.res [1; 2]).

Lemma one_sendable : sendable (valid := result_ok) one [QDemo.res [1; 2]].
Proof.
  assert (ring result_ok one [QDemo.res [1; 2]]) as Hr.
  { apply (QDemo.push_ring _ []); [apply QDemo.q0_ring|apply QDemo.res_ok; simpl; lia|vm_compute; discriminate|reflexivity]. }
  split.
  - by split.
  - split; [reflexivity| | |by vm_compute].
    + repeat (apply Forall_cons; split; [vm_compute; split; [discriminate|reflexivity]|]). by apply Forall_nil.
    + repeat (apply Forall_cons; split; [vm_compute; split; [discriminate|reflexivity]|]). by apply Forall_nil.
  - reflexivity.
  - by vm_compute.
  - vm_compute. discriminate.
Qed.

(** One byte at a time out, at most seven in. *)
Lemma queue_crosses_socket_witness :
  ∃ qs out ws' qr rs',
    send_all (λ _, 0) 201 (queue_comm_flush (newQueueComm (Some one))) (replicate 201 (Moves 1)) = Ok (qs, out, ws')
    ∧ done qs = true
    ∧ recv_all (λ _, 0) (λ _, 9000) (λ _, 0) 200 (reset_qcomm qs) out (replicate 600 (Moves 7)) = Ok (qr, [], rs')
    ∧ received (valid := result_ok) [QDemo.res [1; 2]] qr.
Proof.
  destruct (queue_crosses_socket (λ _, 0) (λ _, 9000) (λ _, 0) one [QDemo.res [1; 2]] 201 (replicate 201 (Moves 1))
              one_sendable) as [_ Hprog].
  destruct Hprog as (qs & out & ws' & Es & Hd & Hr); [split; [by apply Forall_replicate|by vm_compute]|by vm_compute|].
  destruct (Hr (replicate 600 (Moves 7)) 200%nat) as (qr & rs' & Er & Hq); [split; [by apply Forall_replicate|by vm_compute]|by vm_compute|].
  exists qs, out, ws', qr, rs'. split_and!; done.
Defined.

(** The byte that a non-blocking sender writes behind the image stays on the
    wire of a blocking receiver; a peer that stops is waited for for ever. *)
Lemma receive_queue_b_completes_or_spins_witness :
  (∃ qc rs', receive_queue_b (λ _, 0) (λ _, 9000) (λ _, 0) (reset_qcomm (newQueueComm None))
      (image (λ _, 0) one ++ [trailer]) (replicate 250 (Moves 3)) = Ok (1, qc, [trailer], rs'))
  ∧ ∀ n, receive_queue_b (λ _, 0) (λ _, 9000) (λ _, 0) (reset_qcomm (newQueueComm None))
      (take 150 (image (λ _, 0) one)) (replicate n (Moves 4096)) = Fail Blocks.
Proof.
  split.
  - destruct (receive_queue_b_completes_or_spins (valid := result_ok) (λ _, 0) (λ _, 9000) (λ _, 0) one [QDemo.res [1; 2]]
      (replicate 250 (Moves 3)) (image (λ _, 0) one ++ [trailer]) [] [trailer] one_sendable)
      as (qc & rs' & E & _); [by apply Forall_replicate|by rewrite app_nil_r|by vm_compute|by exists qc, rs'].
  - intros n. set (img := image (λ _, 0) one). assert (drop 150 img ≠ []) as Hne by (vm_compute; discriminate).
    pose proof (receive_queue_b_completes_or_spins (valid := result_ok) (λ _, 0) (λ _, 9000) (λ _, 0) one [QDemo.res [1; 2]]
      (replicate n (Moves 4096)) (take 150 img) (drop 150 img) [] one_sendable) as E.
    rewrite decide_False in E by exact Hne. apply E; [by apply Forall_replicate| |done].
    unfold img. by rewrite app_nil_r, take_drop.
Defined.
End QXSpec.
