(* ===== verification/GSFilter.v ===== *)
(** * The grouped selection filter

    [src/src/backend/executor/nodeGSFilter.c], with [add_to_ConstTree] and
    [add_to_list] of [src/src/backend/nodes/nodeFuncs.c], [add_query_to_gsf] of
    [src/src/backend/optimizer/plan/eddy.c], [lremovei] of
    [src/src/backend/nodes/list.c] and [FjordRemoveQuery] of [processNode.c].

    The filter evaluates the predicates [expr op constant] of many queries on one
    expression together.  Range predicates live in two search trees over their
    constants, one for [<] and [<=], one for [>] and [>=]; equality and
    inequality predicates in lists.

    The operators are looked up in the catalog, so they are parameters: for each
    of the four kinds, one that compares the value of the expression with a
    constant and one that compares two constants.  A null result is false, as
    [DatumGetBool] of a null datum.  [equal] on two constants is equality.
    Trees are values here: the code never shares a node between two trees. *)

From S2P Require Import Prelude BitArray.

Module GSF.
Import Bit.

Definition TCQMAXQUERIES : nat := 128.

Inductive optrtype : Type := LT_OPTR | LE_OPTR | GT_OPTR | GE_OPTR | EQ_OPTR | NE_OPTR | OTHER_OPTR.

Section gsf.
Context {V C : Type} `{EqDecision C}.

Inductive ConstTree : Type :=
  | NULL
  | CNode (c : C) (queries eqqueries : list nat) (left right : ConstTree).

Definition is_null (t : ConstTree) : bool := match t with NULL => true | _ => false end.

(** The operators of a filter: [var op const], and [const op const] for
    insertion. *)
Record opers : Type := mkOpers {
  gtoper : V → C → bool;
  ltoper : V → C → bool;
  neoper : V → C → bool;
  eqoper : V → C → bool;
  gtoperinsert : C → C → bool;
  ltoperinsert : C → C → bool;
  neoperinsert : C → C → bool;
  eqoperinsert : C → C → bool
}.

Record GSFilter : Type := mkGSF {
  ops : opers;
  ltmap : ConstTree;
  rtmap : ConstTree;
  eqmap : list ConstTree;
  nemap : list ConstTree;
  usedByQueries : list nat;
  tuplesEntered : Z;
  tuplesExited : Z;
  doneInput : bool
}.

(** Removes the first occurrence. *)
Fixpoint lremovei (elem : nat) (l : list nat) : list nat :=
  match l with
  | [] => []
  | x :: l' => if decide (elem = x) then l' else x :: lremovei elem l'
  end.

(** ** Insertion *)

Fixpoint add_to_ConstTree (ct : ConstTree) (c : C) (queryid : nat) (fcache : C → C → bool)
    (isRangeEQ : bool) : ConstTree :=
  match ct with
  | NULL =>
      if isRangeEQ then CNode c [] [queryid] NULL NULL else CNode c [queryid] [] NULL NULL
  | CNode c0 qs es l r =>
      if decide (c = c0) then
        if isRangeEQ then CNode c0 qs (queryid :: es) l r else CNode c0 (queryid :: qs) es l r
      else if fcache c0 c then CNode c0 qs es l (add_to_ConstTree r c queryid fcache isRangeEQ)
      else CNode c0 qs es (add_to_ConstTree l c queryid fcache isRangeEQ) r
  end.

(** The search of [add_to_list]: the first element for which the operator is
    true gets the query; [None] when there is none. *)
Fixpoint list_found (l : list ConstTree) (c : C) (queryid : nat) (fcache : C → C → bool)
    : cres (option (list ConstTree)) :=
  match l with
  | [] => Ok None
  | NULL :: _ => Fail Undefined
  | CNode c0 qs es lt rt :: l' =>
      if fcache c0 c then Ok (Some (CNode c0 (queryid :: qs) es lt rt :: l'))
      else let! r := list_found l' c queryid fcache in
           Ok (cons (CNode c0 qs es lt rt) <$> r)
  end.

Definition add_to_list (l : list ConstTree) (c : C) (queryid : nat) (fcache : C → C → bool)
    : cres (list ConstTree) :=
  let! r := list_found l c queryid fcache in
  match r with
  | Some l' => Ok l'
  | None => Ok (CNode c [queryid] [] NULL NULL :: l)
  end.

(** ** Removal *)

(** The cases of [RemoveNodeConstTree] in which a child takes the place. *)
Definition replace_by_child (left right : ConstTree) : option ConstTree :=
  match left, right with
  | NULL, NULL => Some NULL
  | NULL, _ => Some right
  | _, NULL => Some left
  | _, _ => None
  end.

(** The leftmost node of a tree: the node itself when it has no left child,
    otherwise the node taken out, with its children cleared, and the rest. *)
Inductive leftmost : Type :=
  | Itself
  | Removed (ret node : ConstTree).

Fixpoint FindAndRemoveLeftmostConstTree (node : ConstTree) : cres leftmost :=
  match node with
  | NULL => Fail Undefined
  | CNode c qs es lsub rsub =>
      match lsub with
      | NULL => Ok Itself
      | CNode lc lqs les ll lr =>
          match ll with
          | NULL =>
              let! rest := access (replace_by_child ll lr) in
              Ok (Removed (CNode lc lqs les NULL NULL) (CNode c qs es rest rsub))
          | CNode _ _ _ _ _ =>
              let! r := FindAndRemoveLeftmostConstTree lsub in
              match r with
              | Itself => Fail Undefined
              | Removed ret lsub' => Ok (Removed ret (CNode c qs es lsub' rsub))
              end
          end
      end
  end.

Definition RemoveNodeConstTree (node : ConstTree) : cres ConstTree :=
  match node with
  | NULL => Ok NULL
  | CNode _ _ _ lsub rsub =>
      match replace_by_child lsub rsub with
      | Some t => Ok t
      | None =>
          let! r := FindAndRemoveLeftmostConstTree rsub in
          match r, rsub with
          | Itself, CNode rc rqs res rl rr =>
              let! _ := cassert (is_null rl) in
              Ok (CNode rc rqs res lsub rr)
          | Removed (CNode rc rqs res rl rr) rsub', _ =>
              let! _ := cassert (is_null rl && is_null rr) in
              Ok (CNode rc rqs res lsub rsub')
          | _, _ => Fail Undefined
          end
      end
  end.

Fixpoint RemoveQueryConstTree (node : ConstTree) (queryid : nat) : cres ConstTree :=
  match node with
  | NULL => Ok NULL
  | CNode c qs es l r =>
      let qs' := lremovei queryid qs in
      let es' := lremovei queryid es in
      let! l' := RemoveQueryConstTree l queryid in
      let! r' := RemoveQueryConstTree r queryid in
      match qs', es' with
      | [], [] => RemoveNodeConstTree (CNode c qs' es' l' r')
      | _, _ => Ok (CNode c qs' es' l' r')
      end
  end.

(** The elements that become empty leave the list. *)
Fixpoint RemoveQueryConstList (l : list ConstTree) (queryid : nat) : cres (list ConstTree) :=
  match l with
  | [] => Ok []
  | t :: l' =>
      let! t' := RemoveQueryConstTree t queryid in
      let! r := RemoveQueryConstList l' queryid in
      Ok (if is_null t' then r else t' :: r)
  end.

(** ** Checks *)

Fixpoint verifyConstTree (ct : ConstTree) (fcn : C → C → bool) (c : option (C * bool)) : bool :=
  match ct with
  | NULL => true
  | CNode c0 _ _ l r =>
      match c with
      | Some (p, expectedReturn) => eqb (fcn p c0) expectedReturn
      | None => true
      end
      && verifyConstTree l fcn (Some (c0, false)) && verifyConstTree r fcn (Some (c0, true))
  end.

Definition set_all (failed : BitArray) (qs : list nat) : BitArray := foldl BitArraySetBit failed qs.

(** [expr] is the value of the filter's expression on the tuple. *)
Fixpoint checkConstTree (expr : V) (ct : ConstTree) (rfcache eqfcache : V → C → bool)
    (failed : BitArray) : BitArray :=
  match ct with
  | NULL => failed
  | CNode c qs es l r =>
      if rfcache expr c then checkConstTree expr l rfcache eqfcache failed
      else
        let failed1 := set_all failed qs in
        let failed2 := match es with
                       | [] => failed1
                       | _ => if eqfcache expr c then failed1 else set_all failed1 es
                       end in
        checkConstTree expr l rfcache eqfcache (checkConstTree expr r rfcache eqfcache failed2)
  end.

Fixpoint checkConstList (expr : V) (l : list ConstTree) (fcache : V → C → bool) (failed : BitArray)
    : cres BitArray :=
  match l with
  | [] => Ok failed
  | NULL :: _ => Fail Undefined
  | CNode c qs _ _ _ :: l' =>
      checkConstList expr l' fcache (if fcache expr c then failed else set_all failed qs)
  end.

(** ** The operations of the node *)

Definition with_maps (g : GSFilter) (lt rt : ConstTree) (eq ne : list ConstTree) : GSFilter :=
  mkGSF (ops g) lt rt eq ne (usedByQueries g) (tuplesEntered g) (tuplesExited g) (doneInput g).

Definition add_query_to_gsf (gsf : GSFilter) (oper : optrtype) (c : C) (queryid : nat) : cres GSFilter :=
  let o := ops gsf in
  match oper with
  | LE_OPTR =>
      let t := add_to_ConstTree (ltmap gsf) c queryid (ltoperinsert o) true in
      let! _ := cassert (verifyConstTree t (ltoperinsert o) None) in
      Ok (with_maps gsf t (rtmap gsf) (eqmap gsf) (nemap gsf))
  | LT_OPTR =>
      let t := add_to_ConstTree (ltmap gsf) c queryid (ltoperinsert o) false in
      let! _ := cassert (verifyConstTree t (ltoperinsert o) None) in
      Ok (with_maps gsf t (rtmap gsf) (eqmap gsf) (nemap gsf))
  | GE_OPTR =>
      let t := add_to_ConstTree (rtmap gsf) c queryid (gtoperinsert o) true in
      let! _ := cassert (verifyConstTree t (gtoperinsert o) None) in
      Ok (with_maps gsf (ltmap gsf) t (eqmap gsf) (nemap gsf))
  | GT_OPTR =>
      let t := add_to_ConstTree (rtmap gsf) c queryid (gtoperinsert o) false in
      let! _ := cassert (verifyConstTree t (gtoperinsert o) None) in
      Ok (with_maps gsf (ltmap gsf) t (eqmap gsf) (nemap gsf))
  | EQ_OPTR =>
      let! l := add_to_list (eqmap gsf) c queryid (eqoperinsert o) in
      Ok (with_maps gsf (ltmap gsf) (rtmap gsf) l (nemap gsf))
  | NE_OPTR =>
      let! l := add_to_list (nemap gsf) c queryid (neoperinsert o) in
      Ok (with_maps gsf (ltmap gsf) (rtmap gsf) (eqmap gsf) l)
  | OTHER_OPTR => Fail (Elog "[create_gsf] Unsupported operator type")
  end.

(** The answer tells whether the operator has no query left. *)
Definition FjordRemoveQuery (g : GSFilter) (queryid : nat) : bool * GSFilter :=
  let u := lremovei queryid (lremovei queryid (usedByQueries g)) in
  (match u with [] => true | _ => false end,
   mkGSF (ops g) (ltmap g) (rtmap g) (eqmap g) (nemap g) u (tuplesEntered g) (tuplesExited g) (doneInput g)).

(** [if (map) { map = RemoveQueryConstTree(map, queryid); Assert(...); }] *)
Definition remove_from_map (map : ConstTree) (fcn : C → C → bool) (queryid : nat) : cres ConstTree :=
  if is_null map then Ok map
  else
    let! map' := RemoveQueryConstTree map queryid in
    let! _ := cassert (verifyConstTree map' fcn None) in
    Ok map'.

Definition ProcessRemoveQueryGSF (node : GSFilter) (queryid : nat) : cres (bool * GSFilter) :=
  let o := ops node in
  let! lt := remove_from_map (ltmap node) (ltoperinsert o) queryid in
  let! rt := remove_from_map (rtmap node) (gtoperinsert o) queryid in
  let! eq := RemoveQueryConstList (eqmap node) queryid in
  let! ne := RemoveQueryConstList (nemap node) queryid in
  Ok (FjordRemoveQuery (with_maps node lt rt eq ne) queryid).

(** The tuple that comes in: the value of the expression on it, whether one of
    its base tuples is a punctuation, and the queries it is done with. *)
Record IHT : Type := mkIHT { expr_value : V; isPunct : bool; t_queriesCompleted : BitArray }.

Definition zero_bits : BitArray := replicate (BASIZE TCQMAXQUERIES) 0%Z.

(** One step of the loop over the queries: the completed set, and [alldone]. *)
Definition settle (range_failed eq_failed : BitArray) (idx : nat) (st : BitArray * bool) : BitArray * bool :=
  let '(done, alldone) := st in
  let done' := if BitArrayBitIsSet range_failed idx || BitArrayBitIsSet eq_failed idx
               then BitArraySetBit done idx else done in
  (done', if BitArrayBitIsSet done' idx then alldone else false).

(** [inp] is what dequeueing the input gave, the answer what is enqueued to the
    output. *)
Definition ProcessNextGSFilter (node : GSFilter) (inp : option IHT) : cres (GSFilter * option IHT) :=
  match inp with
  | None => Ok (node, None)
  | Some iiht =>
      let '(mkGSF o lt rt eq ne used ent ext dn) := node in
      if isPunct iiht then Ok (mkGSF o lt rt eq ne used (ent + 1) (ext + 1) dn, Some iiht)
      else
        let v := expr_value iiht in
        let rf1 := checkConstTree v lt (ltoper o) (eqoper o) zero_bits in
        let rf2 := checkConstTree v rt (gtoper o) (eqoper o) rf1 in
        let! ef1 := checkConstList v eq (eqoper o) zero_bits in
        let! ef2 := checkConstList v ne (neoper o) ef1 in
        let '(done, alldone) := for_loop TCQMAXQUERIES (settle rf2 ef2) (t_queriesCompleted iiht, true) in
        if alldone then Ok (mkGSF o lt rt eq ne used (ent + 1) ext true, None)
        else Ok (mkGSF o lt rt eq ne used (ent + 1) (ext + 1) true, Some (mkIHT v false done))
  end.
End gsf.
Arguments ConstTree : clear implicits.
Arguments GSFilter : clear implicits.
Arguments opers : clear implicits.
Arguments IHT : clear implicits.
Arguments leftmost : clear implicits.

End GSF.
