(* ===== verification/GSFilterSpec.v ===== *)
(** * Correctness of the grouped selection filter

    The filter decides for every query what evaluating its predicates one by one
    would: the trees are search trees, the pruned walk over them is the flat
    evaluation, and adding and removing queries changes exactly the registered
    predicates. *)

From S2P Require Import Prelude BitArray GSFilter.

Module GSFSpec.
Import Bit GSF.

(** ** What the operators have to satisfy

    [cop a b] compares two constants the way [vop v a] compares a value with a
    constant: it is a strict total order on the constants, and [vop] respects
    it.  This is what the catalog's [<] and [>] of an ordered type do. *)
Class RangeOps {V C : Type} (vop : V → C → bool) (cop : C → C → bool) : Prop := {
  rop_value : ∀ v a b, vop v a = true → cop a b = true → vop v b = true;
  rop_trans : ∀ a b c, cop a b = true → cop b c = true → cop a c = true;
  rop_irrefl : ∀ a, cop a a = false;
  rop_total : ∀ a b, a ≠ b → cop a b = false → cop b a = true
}.

Class OpersOk {V C : Type} `{EqDecision C} (o : opers V C) : Prop := {
  ok_lt :: RangeOps (ltoper o) (ltoperinsert o);
  ok_gt :: RangeOps (gtoper o) (gtoperinsert o);
  ok_eq : ∀ a b, eqoperinsert o a b = bool_decide (a = b);
  ok_ne : ∀ a b, neoperinsert o a b = bool_decide (a ≠ b)
}.

Section spec.
Context {V C : Type} `{EqDecision C}.

(** The nodes of a tree: constant, strict queries, queries with equality. *)
Fixpoint entries (t : ConstTree C) : list (C * list nat * list nat) :=
  match t with
  | NULL => []
  | CNode c qs es l r => (c, qs, es) :: entries l ++ entries r
  end.

Definition consts (t : ConstTree C) : list C := (entries t).*1.*1.

Lemma elem_of_consts t c : c ∈ consts t ↔ ∃ qs es, (c, qs, es) ∈ entries t.
Proof.
  unfold consts. rewrite list_elem_of_fmap. split.
  - intros ([c' qs] & -> & Hin). apply list_elem_of_fmap in Hin as ([[c'' qs'] es] & Heq & Hin).
    simpl in *. injection Heq as -> ->. by exists qs', es.
  - intros (qs & es & Hin). exists (c, qs). split; [done|]. apply list_elem_of_fmap. by exists (c, qs, es).
Qed.

Lemma consts_node c qs es l r x : x ∈ consts (CNode c qs es l r) ↔ x = c ∨ x ∈ consts l ∨ x ∈ consts r.
Proof. unfold consts. simpl. by rewrite !fmap_app, elem_of_cons, elem_of_app. Qed.

Lemma consts_perm t1 t2 x : entries t1 ≡ₚ entries t2 → x ∈ consts t1 → x ∈ consts t2.
Proof. rewrite !elem_of_consts. intros Hp (qs & es & Hin). exists qs, es. by rewrite <- Hp. Qed.

(** Search trees under [cop]: right is where the operator holds. *)
Fixpoint bst (cop : C → C → bool) (t : ConstTree C) : Prop :=
  match t with
  | NULL => True
  | CNode c _ _ l r =>
      (∀ x, x ∈ consts l → cop c x = false ∧ x ≠ c) ∧ (∀ x, x ∈ consts r → cop c x = true)
      ∧ bst cop l ∧ bst cop r
  end.

Lemma bst_verify_under cop t p e :
  bst cop t → (∀ x, x ∈ consts t → cop p x = e) → verifyConstTree t cop (Some (p, e)) = true.
Proof.
  revert p e. induction t as [|c qs es l IHl r IHr]; intros p e; simpl; [done|].
  intros (Hl & Hr & Bl & Br) Hp. rewrite Hp by (apply consts_node; by left).
  rewrite eqb_reflx, IHl, IHr; try done. intros x Hx. by apply Hl.
Qed.

(** The assertion on a tree never fails on a search tree. *)
Lemma bst_verify cop t : bst cop t → verifyConstTree t cop None = true.
Proof.
  destruct t as [|c qs es l r]; simpl; [done|]. intros (Hl & Hr & Bl & Br).
  rewrite !bst_verify_under; try done. intros x Hx. by apply Hl.
Qed.

(** ** Insertion *)

(** An entry list with [q] entered for [c]. *)
Definition put (e : bool) (q : nat) (x : list nat * list nat) : list nat * list nat :=
  if e then (x.1, q :: x.2) else (q :: x.1, x.2).

(** Query [i] has a predicate with constant [c] in the tree; [e]: with equality. *)
Definition has (t : ConstTree C) (c : C) (i : nat) (e : bool) : Prop :=
  ∃ qs es, (c, qs, es) ∈ entries t ∧ i ∈ (if e then es else qs).

Lemma has_node t c i e c0 qs es l r : t = CNode c0 qs es l r →
  has t c i e ↔ (c = c0 ∧ i ∈ (if e then es else qs)) ∨ has l c i e ∨ has r c i e.
Proof.
  intros ->. unfold has. simpl. split.
  - intros (q' & e' & Hin & Hi). apply elem_of_cons in Hin as [Heq|Hin].
    + left. by injection Heq as -> -> ->.
    + right. apply elem_of_app in Hin as [Hin|Hin]; [left|right]; by exists q', e'.
  - intros [[-> Hi]|[(q' & e' & Hin & Hi)|(q' & e' & Hin & Hi)]].
    + exists qs, es. split; [by left|done].
    + exists q', e'. split; [right; apply elem_of_app; by left|done].
    + exists q', e'. split; [right; apply elem_of_app; by right|done].
Qed.

Lemma has_NULL c i e : ¬ has NULL c i e.
Proof. intros (? & ? & Hin & _). by apply not_elem_of_nil in Hin. Qed.

Lemma add_has t c q f b c' i e :
  has (add_to_ConstTree t c q f b) c' i e ↔ has t c' i e ∨ (c' = c ∧ i = q ∧ e = b).
Proof.
  induction t as [|c0 qs es l IHl r IHr]; simpl.
  - destruct b; rewrite (has_node _ _ _ _ _ _ _ _ _ eq_refl);
      pose proof (has_NULL c' i e); destruct e; rewrite ?list_elem_of_singleton, ?elem_of_nil; naive_solver.
  - destruct (decide (c = c0)) as [->|Hne].
    + destruct b; rewrite !(has_node _ _ _ _ _ _ _ _ _ eq_refl); destruct e;
        rewrite ?elem_of_cons; naive_solver.
    + destruct (f c0 c); rewrite !(has_node _ _ _ _ _ _ _ _ _ eq_refl), ?IHl, ?IHr; naive_solver.
Qed.

Lemma add_consts t c q f b x : x ∈ consts (add_to_ConstTree t c q f b) → x = c ∨ x ∈ consts t.
Proof.
  induction t as [|c0 qs es l IHl r IHr]; simpl.
  - destruct b; rewrite consts_node; unfold consts; simpl; rewrite elem_of_nil; tauto.
  - destruct (decide (c = c0)) as [->|Hne].
    + destruct b; rewrite !consts_node; tauto.
    + destruct (f c0 c); rewrite !consts_node; tauto.
Qed.

Lemma add_bst t c q f b : bst f t → bst f (add_to_ConstTree t c q f b).
Proof.
  induction t as [|c0 qs es l IHl r IHr]; simpl.
  - intros _. destruct b; simpl; (split; [|split; [|done]]); intros x Hx; by apply not_elem_of_nil in Hx.
  - intros (Hl & Hr & Bl & Br). destruct (decide (c = c0)) as [->|Hne]; [by destruct b|].
    destruct (f c0 c) eqn:Hf; simpl.
    + split; [done|]. split; [|split; [done|by apply IHr]].
      intros x Hx. apply add_consts in Hx as [->|Hx]; [done|by apply Hr].
    + split; [|split; [done|split; [by apply IHl|done]]].
      intros x Hx. apply add_consts in Hx as [->|Hx]; [done|by apply Hl].
Qed.

(** ** Removal of a node *)
Section order.
Context {vop : V → C → bool} {cop : C → C → bool} `{!RangeOps vop cop}.

Lemma replace_null (l : ConstTree C) : replace_by_child NULL l = Some l.
Proof. by destruct l. Qed.

Lemma leftmost_deep c qs es (l : ConstTree C) lc lqs les llc llq lle lll llr lr r :
  l = CNode lc lqs les (CNode llc llq lle lll llr) lr →
  FindAndRemoveLeftmostConstTree (CNode c qs es l r)
  = let! x := FindAndRemoveLeftmostConstTree l in
    match x with
    | Itself => Fail Undefined
    | Removed ret l' => Ok (Removed ret (CNode c qs es l' r))
    end.
Proof. by intros ->. Qed.

(** Everything in [t] comes after [x]. *)
Definition after (x : C) (t : ConstTree C) : Prop := ∀ y, y ∈ consts t → cop x y = true.

Lemma leftmost_ok c qs es l r : bst cop (CNode c qs es l r) →
  match FindAndRemoveLeftmostConstTree (CNode c qs es l r) with
  | Ok Itself => l = NULL
  | Ok (Removed s t) => ∃ sc sq se, s = CNode sc sq se NULL NULL
      ∧ entries (CNode c qs es l r) ≡ₚ (sc, sq, se) :: entries t ∧ bst cop t ∧ after sc t
  | Fail _ => False
  end.
Proof.
  revert c qs es r. induction l as [|lc lqs les ll IHll lr _]; intros c qs es r Hb; [done|].
  destruct Hb as (Hl & Hr & Bl & Br).
  assert (∀ x, x ∈ consts (CNode lc lqs les ll lr) → cop x c = true) as Hlt.
  { intros x Hx. destruct (Hl x Hx) as [Hc Hne]. by apply (rop_total (vop := vop)). }
  destruct ll as [|llc llq lle lll llr].
  - cbn [FindAndRemoveLeftmostConstTree]. rewrite replace_null. simpl. exists lc, lqs, les. split; [done|]. split; [apply perm_swap|].
    destruct Bl as (_ & Hlr & _ & Blr). split.
    + split; [|split; [done|by split]]. intros x Hx. apply Hl. apply consts_node. by right; right.
    + intros y Hy. apply consts_node in Hy as [->|[Hy|Hy]].
      * apply Hlt, consts_node. by left.
      * by apply Hlr.
      * apply (rop_trans (vop := vop) lc c y); [apply Hlt, consts_node; by left|by apply Hr].
  - specialize (IHll lc lqs les lr Bl). rewrite (leftmost_deep _ _ _ _ _ _ _ _ _ _ _ _ _ _ eq_refl).
    destruct (FindAndRemoveLeftmostConstTree _) as [[|s t]|e] eqn:E; cbn [cbind]; [done| |done].
    destruct IHll as (sc & sq & se & -> & Hp & Bt & Ha). exists sc, sq, se. split; [done|].
    assert (∀ x, x ∈ consts t → x ∈ consts (CNode lc lqs les (CNode llc llq lle lll llr) lr)) as Hsub.
    { intros x. rewrite !elem_of_consts. intros (a & b & Hin). exists a, b. rewrite Hp. by right. }
    assert (cop sc c = true) as Hsc.
    { apply Hlt, elem_of_consts. exists sq, se. rewrite Hp. by left. }
    split; [|split].
    + change (entries (CNode c qs es (CNode lc lqs les (CNode llc llq lle lll llr) lr) r))
        with ((c, qs, es) :: entries (CNode lc lqs les (CNode llc llq lle lll llr) lr) ++ entries r).
      rewrite Hp. simpl. apply perm_swap.
    + split; [intros x Hx; by apply Hl, Hsub|]. by split.
    + intros y Hy. apply consts_node in Hy as [->|[Hy|Hy]]; [done|by apply Ha|].
      apply (rop_trans (vop := vop) sc c y); [done|by apply Hr].
Qed.

Lemma remove_node_ok c qs es l r : bst cop (CNode c qs es l r) →
  ∃ t, RemoveNodeConstTree (CNode c qs es l r) = Ok t ∧ entries t ≡ₚ entries l ++ entries r ∧ bst cop t.
Proof.
  intros (Hl & Hr & Bl & Br).
  assert (∀ s t, cop c s = true → after s t → bst cop t →
    ∀ sq se, bst cop (CNode s sq se l t)) as Hjoin.
  { intros s t Hs Ha Bt sq se. split; [|split; [done|by split]]. intros x Hx. destruct (Hl x Hx) as [Hc Hne].
    split; [|congruence]. destruct (cop s x) eqn:E; [|done].
    rewrite (rop_trans (vop := vop) c s x Hs E) in Hc. done. }
  destruct l as [|lc lq le ll lr] eqn:El.
  { exists r. cbn [RemoveNodeConstTree]. rewrite replace_null. done. }
  destruct r as [|rc rqs res rl rr].
  { exists l. subst l. simpl. by rewrite app_nil_r. }
  cbn [RemoveNodeConstTree replace_by_child]. rewrite <- El in *.
  pose proof (leftmost_ok rc rqs res rl rr Br) as Hlm.
  destruct (FindAndRemoveLeftmostConstTree _) as [[|s t]|e]; [|..|done]; cbn [cbind].
  - subst rl. simpl. eexists. split; [done|]. destruct Br as (_ & Hrr & _ & Brr). split.
    + simpl. rewrite Permutation_middle. done.
    + apply Hjoin; [apply Hr, consts_node; by left|done|done].
  - destruct Hlm as (sc & sq & se & -> & Hp & Bt & Ha). simpl. eexists. split; [done|]. split.
    + change ((rc, rqs, res) :: entries rl ++ entries rr) with (entries (CNode rc rqs res rl rr)).
      rewrite Hp. simpl. rewrite Permutation_middle. done.
    + apply Hjoin; [|done|done]. apply Hr, elem_of_consts. exists sq, se. rewrite Hp. by left.
Qed.

(** Removing a query: what is left of the entries. *)
Definition strip (q : nat) (x : C * list nat * list nat) : option (C * list nat * list nat) :=
  match lremovei q x.1.2, lremovei q x.2 with
  | [], [] => None
  | qs, es => Some (x.1.1, qs, es)
  end.

Lemma remove_query_ok t q : bst cop t →
  ∃ t', RemoveQueryConstTree t q = Ok t' ∧ entries t' ≡ₚ omap (strip q) (entries t) ∧ bst cop t'.
Proof.
  induction t as [|c qs es l IHl r IHr]; intros Hb; [by exists NULL|].
  destruct Hb as (Hl & Hr & Bl & Br).
  destruct (IHl Bl) as (l' & El & Pl & Bl'). destruct (IHr Br) as (r' & Er & Pr & Br').
  assert (∀ u x, x ∈ (omap (strip q) (entries u)).*1.*1 → x ∈ consts u) as Hsub.
  { intros u x Hx. apply list_elem_of_fmap in Hx as ([x' a] & -> & Hx).
    apply list_elem_of_fmap in Hx as ([[x'' a'] b] & Heq & Hx). injection Heq as -> ->.
    apply list_elem_of_omap in Hx as ([[y ys] zs] & Hy & Hs). apply elem_of_consts.
    exists ys, zs. unfold strip in Hs. simpl in *.
    destruct (lremovei q ys), (lremovei q zs); simplify_eq; done. }
  assert (∀ qs' es', bst cop (CNode c qs' es' l' r')) as Hb'.
  { intros qs' es'. split; [|split; [|by split]]; intros x Hx.
    - apply Hl, Hsub. unfold consts in Hx. by rewrite Pl in Hx.
    - apply Hr, Hsub. unfold consts in Hx. by rewrite Pr in Hx. }
  simpl. rewrite El. simpl. rewrite Er. simpl. rewrite omap_app. unfold strip at 1. simpl.
  destruct (lremovei q qs) as [|a qs'], (lremovei q es) as [|b es']; simpl;
    try (eexists; split; [done|]; split; [simpl; by rewrite Pl, Pr|apply Hb']).
  destruct (remove_node_ok c [] [] l' r' (Hb' [] [])) as (t' & E & P & B).
  exists t'. split; [exact E|]. split; [by rewrite P, Pl, Pr|done].
Qed.
End order.
End spec.
End GSFSpec.
