(* ===== verification/GSFilterNode.v ===== *)
(** * The operations of the grouped selection filter

    What [GSFilterSpec.v] shows of the search trees, put together for the node:
    the registered predicates, their evaluation, and how adding and removing a
    query changes them. *)

From S2P Require Import Prelude BitArray GSFilter GSFilterSpec.

Module GSFNode.
Import Bit GSF GSFSpec.

(** ** Sets of failed queries *)

Lemma set_all_ok n qs failed : wf n failed → (∀ i, i ∈ qs → i < n) →
  wf n (set_all failed qs)
  ∧ ∀ j, BitArrayBitIsSet (set_all failed qs) j = true ↔ BitArrayBitIsSet failed j = true ∨ j ∈ qs.
Proof.
  revert failed. induction qs as [|q qs IH]; intros failed Hw Hq; simpl.
  - split; [done|]. intros j. rewrite elem_of_nil. tauto.
  - assert (q < n) as Hqn by (apply Hq; by left).
    destruct (IH (BitArraySetBit failed q)) as [Hw' Hb]; [by apply SetBit_wf|intros; apply Hq; by right|].
    split; [exact Hw'|]. intros j. rewrite Hb, SetBit_bit by (by eapply wf_index).
    rewrite orb_true_iff, bool_decide_eq_true, elem_of_cons. naive_solver.
Qed.

Lemma zero_bits_ok : wf 128 zero_bits ∧ ∀ j, j < 128 → BitArrayBitIsSet zero_bits j = false.
Proof.
  split; [split; [done|by repeat constructor]|].
  intros j Hj. apply negb_true_iff.
  apply (proj1 (for_all_true 128 (λ j, negb (BitArrayBitIsSet zero_bits j)))); [by vm_compute|done].
Qed.

Section node.
Context {V C : Type} `{EqDecision C}.

(** ** Evaluation of a tree *)

(** Some predicate of query [i] in the tree fails on [v]. *)
Definition tree_fails (rf eqf : V → C → bool) (v : V) (t : ConstTree C) (i : nat) : Prop :=
  ∃ c e, has t c i e ∧ rf v c = false ∧ (e = true → eqf v c = false).

Lemma has_consts (t : ConstTree C) c i e : has t c i e → c ∈ consts t.
Proof. intros (qs & es & Hin & _). apply elem_of_consts. by exists qs, es. Qed.

Lemma tree_fails_node rf eqf v i c qs es (l r : ConstTree C) :
  tree_fails rf eqf v (CNode c qs es l r) i ↔
    (rf v c = false ∧ (i ∈ qs ∨ i ∈ es ∧ eqf v c = false))
    ∨ tree_fails rf eqf v l i ∨ tree_fails rf eqf v r i.
Proof.
  unfold tree_fails. split.
  - intros (c' & e & Hh & Hf & He). rewrite (has_node _ _ _ _ _ _ _ _ _ eq_refl) in Hh.
    destruct Hh as [[-> Hi]|[Hh|Hh]]; [left|right; left; eauto|right; right; eauto].
    split; [done|]. destruct e; auto.
  - intros [[Hf [Hi|[Hi He]]]|[(c' & e & Hh & Hf)|(c' & e & Hh & Hf)]].
    + exists c, false. rewrite (has_node _ _ _ _ _ _ _ _ _ eq_refl). naive_solver.
    + exists c, true. rewrite (has_node _ _ _ _ _ _ _ _ _ eq_refl). naive_solver.
    + exists c', e. rewrite (has_node _ _ _ _ _ _ _ _ _ eq_refl). naive_solver.
    + exists c', e. rewrite (has_node _ _ _ _ _ _ _ _ _ eq_refl). naive_solver.
Qed.

(** The walk that skips right subtrees finds every failing predicate. *)
Lemma checkConstTree_ok {rf : V → C → bool} {cop} `{!RangeOps rf cop} eqf v n (t : ConstTree C) failed :
  bst cop t → wf n failed → (∀ c i e, has t c i e → i < n) →
  wf n (checkConstTree v t rf eqf failed)
  ∧ ∀ i, BitArrayBitIsSet (checkConstTree v t rf eqf failed) i = true ↔
      BitArrayBitIsSet failed i = true ∨ tree_fails rf eqf v t i.
Proof.
  revert failed. induction t as [|c qs es l IHl r IHr]; intros failed Hb Hw Hid.
  { split; [done|]. intros i. simpl. unfold tree_fails. split; [by left|].
    intros [?|(c & e & Hh & _)]; [done|by apply has_NULL in Hh]. }
  destruct Hb as (Hl & Hr & Bl & Br).
  assert (∀ c' i e, has l c' i e → i < n) as Hidl.
  { intros c' i e Hh. eapply (Hid c' i e), (has_node _ _ _ _ _ _ _ _ _ eq_refl). tauto. }
  assert (∀ c' i e, has r c' i e → i < n) as Hidr.
  { intros c' i e Hh. eapply (Hid c' i e), (has_node _ _ _ _ _ _ _ _ _ eq_refl). tauto. }
  assert (∀ e i, i ∈ (if e : bool then es else qs) → i < n) as Hidc.
  { intros e i Hh. eapply (Hid c i e), (has_node _ _ _ _ _ _ _ _ _ eq_refl). tauto. }
  simpl. destruct (rf v c) eqn:Hf.
  - destruct (IHl failed Bl Hw Hidl) as [Hw' Hb']. split; [done|]. intros i.
    rewrite Hb', tree_fails_node, Hf. split; [tauto|].
    intros [?|[[? _]|[?|(c' & e & Hh & Hf' & _)]]]; [tauto|done|tauto|].
    rewrite (rop_value (cop := cop) v c c') in Hf'; [done|done|]. apply Hr. by eapply has_consts.
  - destruct (set_all_ok n qs failed Hw (Hidc false)) as [Hw1 Hb1].
    assert (wf n (match es with [] => set_all failed qs
                  | _ :: _ => if eqf v c then set_all failed qs else set_all (set_all failed qs) es end)
      ∧ ∀ i, BitArrayBitIsSet (match es with [] => set_all failed qs
                  | _ :: _ => if eqf v c then set_all failed qs else set_all (set_all failed qs) es end) i
             = true
          ↔ BitArrayBitIsSet failed i = true ∨ i ∈ qs ∨ i ∈ es ∧ eqf v c = false) as [Hw2 Hb2].
    { destruct (set_all_ok n es _ Hw1 (Hidc true)) as [Hw2 Hb2].
      destruct es as [|e0 es']; [split; [done|]; intros i; rewrite Hb1, elem_of_nil; tauto|].
      destruct (eqf v c); (split; [done|]); intros i; rewrite ?Hb2, Hb1; naive_solver. }
    destruct (IHr _ Br Hw2 Hidr) as [Hw3 Hb3]. destruct (IHl _ Bl Hw3 Hidl) as [Hw4 Hb4].
    split; [exact Hw4|]. intros i. rewrite Hb4, Hb3, Hb2, tree_fails_node, Hf. tauto.
Qed.

(** ** The lists *)

Definition leaf (t : ConstTree C) : Prop := ∃ c qs, t = CNode c qs [] NULL NULL.

Definition list_has (l : list (ConstTree C)) (c : C) (i : nat) : Prop :=
  ∃ qs, CNode c qs [] NULL NULL ∈ l ∧ i ∈ qs.

Lemma list_has_cons c qs l c' i :
  list_has (CNode c qs [] NULL NULL :: l) c' i ↔ (c' = c ∧ i ∈ qs) ∨ list_has l c' i.
Proof.
  unfold list_has. split.
  - intros (qs' & Hin & Hi). apply elem_of_cons in Hin as [Heq|Hin]; [left; by injection Heq as -> ->|eauto].
  - intros [[-> Hi]|(qs' & Hin & Hi)]; [exists qs; split; [by left|done]|exists qs'; split; [by right|done]].
Qed.

Lemma list_has_nil c i : ¬ list_has [] c i.
Proof. intros (? & Hin & _). by apply not_elem_of_nil in Hin. Qed.

Definition list_fails (f : V → C → bool) (v : V) (l : list (ConstTree C)) (i : nat) : Prop :=
  ∃ c, list_has l c i ∧ f v c = false.

Lemma list_fails_cons f v c qs l i :
  list_fails f v (CNode c qs [] NULL NULL :: l) i ↔ (i ∈ qs ∧ f v c = false) ∨ list_fails f v l i.
Proof.
  unfold list_fails. split.
  - intros (c' & Hh & Hf). apply list_has_cons in Hh as [[-> Hi]|Hh]; eauto.
  - intros [[Hi Hf]|(c' & Hh & Hf)]; [exists c|exists c']; rewrite list_has_cons; auto.
Qed.

Lemma checkConstList_ok f v n l failed :
  Forall leaf l → wf n failed → (∀ c i, list_has l c i → i < n) →
  ∃ out, checkConstList v l f failed = Ok out ∧ wf n out
    ∧ ∀ i, BitArrayBitIsSet out i = true ↔ BitArrayBitIsSet failed i = true ∨ list_fails f v l i.
Proof.
  intros Hl. revert failed. induction Hl as [|t l (c & qs & ->) Hl IH]; intros failed Hw Hid.
  { exists failed. split; [done|]. split; [done|]. intros i. split; [by left|].
    intros [?|(c & Hh & _)]; [done|by apply list_has_nil in Hh]. }
  destruct (set_all_ok n qs failed Hw) as [Hw1 Hb1].
  { intros i Hi. eapply (Hid c i), list_has_cons. by left. }
  simpl. destruct (IH (if f v c then failed else set_all failed qs)) as (out & E & Hw2 & Hb2).
  { by destruct (f v c). }
  { intros c' i Hh. eapply (Hid c' i), list_has_cons. by right. }
  exists out. split; [done|]. split; [done|]. intros i. rewrite Hb2, list_fails_cons.
  destruct (f v c) eqn:Hf; rewrite ?Hb1; [|tauto]. split; [tauto|]. intros [?|[[_ ?]|?]]; [tauto|done|tauto].
Qed.

(** ** The registered predicates *)

Definition registered (g : GSFilter V C) (op : optrtype) (c : C) (q : nat) : Prop :=
  match op with
  | LT_OPTR => has (ltmap g) c q false
  | LE_OPTR => has (ltmap g) c q true
  | GT_OPTR => has (rtmap g) c q false
  | GE_OPTR => has (rtmap g) c q true
  | EQ_OPTR => list_has (eqmap g) c q
  | NE_OPTR => list_has (nemap g) c q
  | OTHER_OPTR => False
  end.

(** [v op c] *)
Definition holds (o : opers V C) (op : optrtype) (v : V) (c : C) : bool :=
  match op with
  | LT_OPTR => ltoper o v c
  | LE_OPTR => ltoper o v c || eqoper o v c
  | GT_OPTR => gtoper o v c
  | GE_OPTR => gtoper o v c || eqoper o v c
  | EQ_OPTR => eqoper o v c
  | NE_OPTR => neoper o v c
  | OTHER_OPTR => true
  end.

(** What the operations keep. *)
Record gsf_ok (g : GSFilter V C) : Prop := {
  gsf_lt : bst (ltoperinsert (ops g)) (ltmap g);
  gsf_rt : bst (gtoperinsert (ops g)) (rtmap g);
  gsf_eq : Forall leaf (eqmap g);
  gsf_ne : Forall leaf (nemap g);
  gsf_ids : ∀ op c q, registered g op c q → q < TCQMAXQUERIES
}.

(** The query completes on [v]: one of its predicates fails. *)
Definition fails (g : GSFilter V C) (v : V) (q : nat) : Prop :=
  ∃ op c, registered g op c q ∧ holds (ops g) op v c = false.

Lemma tree_fails_alt rf eqf v (t : ConstTree C) i :
  tree_fails rf eqf v t i ↔
    (∃ c, has t c i false ∧ rf v c = false) ∨ (∃ c, has t c i true ∧ rf v c || eqf v c = false).
Proof.
  unfold tree_fails. split.
  - intros (c & e & Hh & Hr & He). destruct e; [right|left]; exists c; [|done].
    split; [done|]. rewrite Hr, He; done.
  - intros [(c & Hh & Hr)|(c & Hh & Hr)]; [by exists c, false|].
    apply orb_false_iff in Hr as [Hr He]. by exists c, true.
Qed.

Lemma fails_alt (g : GSFilter V C) v q :
  fails g v q ↔
    tree_fails (ltoper (ops g)) (eqoper (ops g)) v (ltmap g) q
    ∨ tree_fails (gtoper (ops g)) (eqoper (ops g)) v (rtmap g) q
    ∨ list_fails (eqoper (ops g)) v (eqmap g) q ∨ list_fails (neoper (ops g)) v (nemap g) q.
Proof.
  rewrite !tree_fails_alt. unfold fails, list_fails. split.
  - intros (op & c & Hh & Hf). destruct op; simpl in *; try done; eauto 8.
  - intros [[(c&?&?)|(c&?&?)]|[[(c&?&?)|(c&?&?)]|[(c&?&?)|(c&?&?)]]];
      [exists LT_OPTR|exists LE_OPTR|exists GT_OPTR|exists GE_OPTR|exists EQ_OPTR|exists NE_OPTR]; by exists c.
Qed.

#[global] Instance tree_fails_dec rf eqf v (t : ConstTree C) i : Decision (tree_fails rf eqf v t i).
Proof.
  induction t as [|c qs es l IHl r IHr].
  - right. intros (c & e & Hh & _). by apply has_NULL in Hh.
  - refine (cast_if (decide ((rf v c = false ∧ (i ∈ qs ∨ i ∈ es ∧ eqf v c = false)) ∨ tree_fails rf eqf v l i ∨ tree_fails rf eqf v r i)));
      by rewrite tree_fails_node.
Defined.

Definition leaf_fails (f : V → C → bool) (v : V) (i : nat) (t : ConstTree C) : bool :=
  match t with CNode c qs [] NULL NULL => bool_decide (i ∈ qs) && negb (f v c) | _ => false end.

#[global] Instance list_fails_dec f v (l : list (ConstTree C)) i : Decision (list_fails f v l i).
Proof.
  destruct (existsb (leaf_fails f v i) l) eqn:E; [left|right].
  - apply existsb_exists in E as ([|c qs [|] [|] [|]] & Hin%list_elem_of_In & Hf); try done.
    cbn in Hf. apply andb_true_iff in Hf as [Hi%bool_decide_eq_true Hf%negb_true_iff]. exists c. split; [by exists qs|done].
  - intros (c & (qs & Hin & Hi) & Hf). apply not_true_iff_false in E. apply E, existsb_exists. exists (CNode c qs [] NULL NULL).
    split; [by apply list_elem_of_In|]. cbn. by rewrite Hf, bool_decide_eq_true_2.
Defined.

#[global] Instance fails_dec (g : GSFilter V C) v q : Decision (fails g v q).
Proof. refine (cast_if (decide (tree_fails (ltoper (ops g)) (eqoper (ops g)) v (ltmap g) q
    ∨ tree_fails (gtoper (ops g)) (eqoper (ops g)) v (rtmap g) q
    ∨ list_fails (eqoper (ops g)) v (eqmap g) q ∨ list_fails (neoper (ops g)) v (nemap g) q))); by rewrite fails_alt. Defined.

(** The loop over the queries. *)
Lemma settle_ok rf ef done0 k : wf 128 done0 → k ≤ 128 →
  ∃ d a, for_loop k (settle rf ef) (done0, true) = (d, a) ∧ wf 128 d
    ∧ (∀ j, BitArrayBitIsSet d j = true ↔ BitArrayBitIsSet done0 j = true
          ∨ j < k ∧ (BitArrayBitIsSet rf j = true ∨ BitArrayBitIsSet ef j = true))
    ∧ (a = true ↔ ∀ j, j < k → BitArrayBitIsSet d j = true).
Proof.
  intros Hw. induction k as [|k IH]; intros Hk.
  { exists done0, true. simpl. split; [done|]. split; [done|].
    split; [intros j; split; [by left|intros [?|[? _]]; [done|lia]]|split; [intros _ j Hj; lia|done]]. }
  destruct (IH ltac:(lia)) as (d & a & E & Hwd & Hb & Ha). simpl. rewrite E. unfold settle. clear IH E.
  set (c := BitArrayBitIsSet rf k || BitArrayBitIsSet ef k).
  set (d' := if c then BitArraySetBit d k else d).
  assert (∀ j, BitArrayBitIsSet d' j = true ↔ BitArrayBitIsSet d j = true ∨ j = k ∧ c = true) as Hd.
  { intros j. subst d'. destruct c; [|naive_solver].
    rewrite SetBit_bit, orb_true_iff, bool_decide_eq_true by (eapply (wf_index 128); [done|lia]). naive_solver. }
  assert (c = true ↔ BitArrayBitIsSet rf k = true ∨ BitArrayBitIsSet ef k = true) as Hc by apply orb_true_iff.
  eexists _, _. split; [done|]. split; [subst d'; destruct c; eauto with bits|]. split.
  - intros j. rewrite Hd, Hb, Hc. split; [|intros [?|[Hj ?]]].
    + intros [[?|[? ?]]|[-> ?]]; [by left|right; split; [lia|done]|right; split; [lia|done]].
    + by left; left.
    + destruct (decide (j = k)) as [->|]; [by right|left; right; split; [lia|done]].
  - destruct (BitArrayBitIsSet d' k) eqn:Ek.
    + rewrite Ha. split; intros Hall j Hj.
      * destruct (decide (j = k)) as [->|]; [done|]. apply Hd. left. apply Hall. lia.
      * destruct (proj1 (Hd j) (Hall j ltac:(lia))) as [?|[-> _]]; [done|lia].
    + split; [done|]. intros Hall. rewrite Hall in Ek by lia. done.
Qed.

(** ** Adding a predicate *)

(** The constants of a list. *)
Definition list_const (l : list (ConstTree C)) (c : C) : Prop := ∃ qs, CNode c qs [] NULL NULL ∈ l.

Lemma list_found_ok (l : list (ConstTree C)) c q f : Forall leaf l →
  ∃ r, list_found l c q f = Ok r ∧
  match r with
  | None => ∀ c0, list_const l c0 → f c0 c = false
  | Some l' => ∃ l1 c0 qs l2, l = l1 ++ CNode c0 qs [] NULL NULL :: l2
      ∧ l' = l1 ++ CNode c0 (q :: qs) [] NULL NULL :: l2 ∧ f c0 c = true ∧ ∀ c1, list_const l1 c1 → f c1 c = false
  end.
Proof.
  induction 1 as [|t l (c0 & qs & ->) Hl (r & E & Hr)]; simpl.
  { exists None. split; [done|]. intros c0 (qs & Hin). by apply not_elem_of_nil in Hin. }
  destruct (f c0 c) eqn:Hf.
  { eexists. split; [done|]. exists [], c0, qs, l. do 3 (split; [done|]). intros c1 (qs1 & Hin). by apply not_elem_of_nil in Hin. }
  rewrite E. simpl. eexists. split; [done|]. destruct r as [l'|]; simpl.
  - destruct Hr as (l1 & c1 & qs1 & l2 & -> & -> & Hf1 & Hb).
    exists (CNode c0 qs [] NULL NULL :: l1), c1, qs1, l2. do 3 (split; [done|]). intros c2 (qs2 & Hin).
    apply elem_of_cons in Hin as [Heq|Hin]; [by injection Heq as -> _|]. apply Hb. by exists qs2.
  - intros c1 (qs1 & Hin). apply elem_of_cons in Hin as [Heq|Hin]; [by injection Heq as -> _|].
    apply Hr. by exists qs1.
Qed.

Lemma list_has_app l1 l2 c i : list_has (l1 ++ l2) c i ↔ list_has l1 c i ∨ list_has l2 c i.
Proof. unfold list_has. setoid_rewrite elem_of_app. naive_solver. Qed.

Definition list_nodup (l : list (ConstTree C)) : Prop :=
  ∀ c qs, CNode c qs [] NULL NULL ∈ l → NoDup qs.

(** What [add_to_list] does: the query is entered for one constant, the new one
    if no element answers the operator, else the first that answers it. *)
Lemma add_to_list_ok (l : list (ConstTree C)) c q f : Forall leaf l →
  ∃ l' c0, add_to_list l c q f = Ok l' ∧ Forall leaf l'
    ∧ (∀ c' i, list_has l' c' i ↔ list_has l c' i ∨ c' = c0 ∧ i = q)
    ∧ ((c0 = c ∧ ∀ c1, list_const l c1 → f c1 c = false) ∨ (f c0 c = true ∧ ∃ l1 qs l2, l = l1 ++ CNode c0 qs [] NULL NULL :: l2 ∧ ∀ c1, list_const l1 c1 → f c1 c = false))
    ∧ (list_nodup l → ¬ list_has l c0 q → list_nodup l').
Proof.
  intros Hl. unfold add_to_list. destruct (list_found_ok l c q f Hl) as (r & -> & Hr). simpl.
  destruct r as [l'|].
  - destruct Hr as (l1 & c0 & qs & l2 & -> & -> & Hf & Hbefore). exists (l1 ++ CNode c0 (q :: qs) [] NULL NULL :: l2), c0.
    apply Forall_app in Hl as [Hl1 Hl2]. inversion_clear Hl2 as [|? ? _ Hl3].
    split; [done|]. split; [apply Forall_app; split; [done|constructor; [by exists c0, (q :: qs)|done]]|].
    split; [|split].
    + intros c' i. rewrite !list_has_app, !list_has_cons, elem_of_cons. naive_solver.
    + right. split; [done|]. by exists l1, qs, l2.
    + intros Hn Hq c' qs' Hin. apply elem_of_app in Hin as [Hin|Hin];
        [apply (Hn c'), elem_of_app; by left|]. apply elem_of_cons in Hin as [Heq|Hin].
      * injection Heq as -> ->. constructor.
        -- intros Hi. apply Hq, list_has_app. right. apply list_has_cons. by left.
        -- apply (Hn c0), elem_of_app. right; by left.
      * apply (Hn c'), elem_of_app. right; by right.
  - exists (CNode c [q] [] NULL NULL :: l), c. split; [done|].
    split; [constructor; [by exists c, [q]|done]|]. split; [|split].
    + intros c' i. rewrite list_has_cons, list_elem_of_singleton. tauto.
    + by left.
    + intros Hn Hq c' qs' Hin. apply elem_of_cons in Hin as [Heq|Hin]; [|by apply (Hn c')].
      injection Heq as -> ->. apply NoDup_singleton.
Qed.

Definition tree_nodup (t : ConstTree C) : Prop :=
  ∀ c qs es, (c, qs, es) ∈ entries t → NoDup qs ∧ NoDup es.

Lemma tree_nodup_node c qs es l r :
  tree_nodup (CNode c qs es l r) ↔ (NoDup qs ∧ NoDup es) ∧ tree_nodup l ∧ tree_nodup r.
Proof.
  unfold tree_nodup. simpl. setoid_rewrite elem_of_cons. setoid_rewrite elem_of_app. split.
  - intros H. split; [apply (H c); by left|]. split; intros c' qs' es' Hin; apply (H c'); tauto.
  - intros (Hc & Hl & Hr) c' qs' es' [Heq|[Hin|Hin]]; [by injection Heq as -> -> ->|eauto|eauto].
Qed.

Lemma add_nodup (t : ConstTree C) c q f b :
  tree_nodup t → ¬ has t c q b → tree_nodup (add_to_ConstTree t c q f b).
Proof.
  induction t as [|c0 qs es l IHl r IHr]; simpl.
  - intros _ _. destruct b; rewrite tree_nodup_node;
      (split; [auto using NoDup_singleton, NoDup_nil_2|]);
      (split; intros ? ? ? Hin; by apply not_elem_of_nil in Hin).
  - rewrite tree_nodup_node, (has_node _ _ _ _ _ _ _ _ _ eq_refl). intros ([Hq He] & Hl & Hr) Hn.
    destruct (decide (c = c0)) as [->|Hne].
    + destruct b; rewrite tree_nodup_node; (split; [|done]).
      * split; [done|]. constructor; [|done]. naive_solver.
      * split; [|done]. constructor; [|done]. naive_solver.
    + destruct (f c0 c); rewrite tree_nodup_node; naive_solver.
Qed.

(** No list of queries names a query twice. *)
Definition gsf_nodup (g : GSFilter V C) : Prop :=
  tree_nodup (ltmap g) ∧ tree_nodup (rtmap g) ∧ list_nodup (eqmap g) ∧ list_nodup (nemap g).

(** [g'] has the predicates of [g] and one more. *)
Definition adds (g g' : GSFilter V C) (op : optrtype) (c : C) (q : nat) : Prop :=
  ∀ op' c' q', registered g' op' c' q' ↔ registered g op' c' q' ∨ op' = op ∧ c' = c ∧ q' = q.

Lemma adds_ids (g g' : GSFilter V C) op c q : adds g g' op c q → q < TCQMAXQUERIES →
  (∀ op c q, registered g op c q → q < TCQMAXQUERIES) →
  ∀ op c q, registered g' op c q → q < TCQMAXQUERIES.
Proof. intros Ha Hq Hid op' c' q' Hr. apply Ha in Hr as [?|(_ & _ & ->)]; eauto. Qed.

Lemma adds_ltmap (g : GSFilter V C) c q f b :
  adds g (with_maps g (add_to_ConstTree (ltmap g) c q f b) (rtmap g) (eqmap g) (nemap g))
    (if b then LE_OPTR else LT_OPTR) c q.
Proof. intros op' c' q'. destruct op', b; simpl; rewrite ?add_has; naive_solver. Qed.

Lemma adds_rtmap (g : GSFilter V C) c q f b :
  adds g (with_maps g (ltmap g) (add_to_ConstTree (rtmap g) c q f b) (eqmap g) (nemap g))
    (if b then GE_OPTR else GT_OPTR) c q.
Proof. intros op' c' q'. destruct op', b; simpl; rewrite ?add_has; naive_solver. Qed.

Lemma adds_eqmap (g : GSFilter V C) c q l : (∀ c' i, list_has l c' i ↔ list_has (eqmap g) c' i ∨ c' = c ∧ i = q) →
  adds g (with_maps g (ltmap g) (rtmap g) l (nemap g)) EQ_OPTR c q.
Proof. intros Hl op' c' q'. destruct op'; simpl; rewrite ?Hl; naive_solver. Qed.

Lemma adds_nemap (g : GSFilter V C) c q l : (∀ c' i, list_has l c' i ↔ list_has (nemap g) c' i ∨ c' = c ∧ i = q) →
  adds g (with_maps g (ltmap g) (rtmap g) (eqmap g) l) NE_OPTR c q.
Proof. intros Hl op' c' q'. destruct op'; simpl; rewrite ?Hl; naive_solver. Qed.

(** Adding a predicate succeeds, enters it for some constant [c0], and keeps the
    invariant. *)
Definition added (g : GSFilter V C) (op : optrtype) (c : C) (q : nat) (c0 : C) : Prop :=
  ∃ g', add_query_to_gsf g op c q = Ok g' ∧ ops g' = ops g ∧ usedByQueries g' = usedByQueries g
    ∧ gsf_ok g' ∧ adds g g' op c0 q ∧ (gsf_nodup g → ¬ registered g op c0 q → gsf_nodup g').

Lemma add_range_ok (g : GSFilter V C) op c q : OpersOk (ops g) → gsf_ok g → q < TCQMAXQUERIES →
  op ∈ [LT_OPTR; LE_OPTR; GT_OPTR; GE_OPTR] → added g op c q c.
Proof.
  intros Ho [Blt Brt Leq Lne Hid] Hq Hop. unfold added, add_query_to_gsf, gsf_nodup.
  pose proof (adds_ltmap g c q (ltoperinsert (ops g)) false). pose proof (adds_ltmap g c q (ltoperinsert (ops g)) true).
  pose proof (adds_rtmap g c q (gtoperinsert (ops g)) false). pose proof (adds_rtmap g c q (gtoperinsert (ops g)) true).
  set_unfold in Hop. destruct Hop as [->|[->|[->|[->|[]]]]];
    rewrite bst_verify by (by apply add_bst); cbn [cbind cassert]; eexists;
    (split; [reflexivity|]); (split; [done|]); (split; [done|]);
    (split; [constructor; [try done; by apply add_bst|try done; by apply add_bst|done|done|by eapply adds_ids]|]);
    (split; [done|]); cbn; intros (? & ? & ? & ?) ?; split_and!; auto using add_nodup.
Qed.

Lemma add_eq_ok (g : GSFilter V C) c q : OpersOk (ops g) → gsf_ok g → q < TCQMAXQUERIES → added g EQ_OPTR c q c.
Proof.
  intros Ho [Blt Brt Leq Lne Hid] Hq. unfold added, add_query_to_gsf, gsf_nodup.
  destruct (add_to_list_ok (eqmap g) c q (eqoperinsert (ops g)) Leq) as (l & c0 & -> & Hl & Hh & Hc & Hn).
  assert (c0 = c) as ->.
  { destruct Hc as [[-> _]|[Hf _]]; [done|]. rewrite ok_eq in Hf. by apply bool_decide_eq_true in Hf. }
  pose proof (adds_eqmap g c q l Hh). cbn [cbind]. eexists. split; [done|]. split; [done|]. split; [done|].
  split; [constructor; [done..|by eapply adds_ids]|]. split; [done|]. cbn. intros (?&?&?&?) ?. auto.
Qed.

(** The constant [c0] for which an inequality with [c] is entered: the first of
    the inequality list that is not [c], and [c] itself if there is none. *)
Definition ne_constant (g : GSFilter V C) (c c0 : C) : Prop :=
  (c0 = c ∧ ∀ c1, list_const (nemap g) c1 → c1 = c)
  ∨ (c0 ≠ c ∧ ∃ l1 qs l2, nemap g = l1 ++ CNode c0 qs [] NULL NULL :: l2 ∧ ∀ c1, list_const l1 c1 → c1 = c).

Lemma add_ne_ok (g : GSFilter V C) c q : OpersOk (ops g) → gsf_ok g → q < TCQMAXQUERIES →
  ∃ c0, added g NE_OPTR c q c0 ∧ ne_constant g c c0.
Proof.
  intros Ho [Blt Brt Leq Lne Hid] Hq. unfold added, add_query_to_gsf, gsf_nodup.
  destruct (add_to_list_ok (nemap g) c q (neoperinsert (ops g)) Lne) as (l & c0 & -> & Hl & Hh & Hc & Hn).
  assert (∀ c1, neoperinsert (ops g) c1 c = false → c1 = c) as Hsame.
  { intros c1 Hf. rewrite ok_ne in Hf. apply bool_decide_eq_false in Hf. by destruct (decide (c1 = c)). }
  exists c0. split.
  - pose proof (adds_nemap g c0 q l Hh). cbn [cbind]. eexists. split; [done|]. split; [done|]. split; [done|].
    split; [constructor; [done..|by eapply adds_ids]|]. split; [done|]. cbn. intros (?&?&?&?) ?. auto.
  - destruct Hc as [[-> Hf]|(Hf & l1 & qs & l2 & E & Hb)]; [left|right].
    + split; [done|]. intros c1 Hc1. by apply Hsame, Hf.
    + rewrite ok_ne in Hf. apply bool_decide_eq_true in Hf. split; [done|]. exists l1, qs, l2. split; [done|].
      intros c1 Hc1. by apply Hsame, Hb.
Qed.

Lemma ne_constant_listed g c c0 c1 : ne_constant g c c0 → list_const (nemap g) c1 → c1 ≠ c → c0 ≠ c.
Proof. intros [[-> Hall]|[? _]] Hc1 Hne; [|done]. by apply Hall in Hc1. Qed.

Lemma ne_constant_none g c c0 : ne_constant g c c0 → (∀ c1, list_const (nemap g) c1 → c1 = c) → c0 = c.
Proof.
  intros [[-> _]|(? & l1 & qs & l2 & E & _)] Hall; [done|]. apply Hall. rewrite E. exists qs. apply elem_of_app. right. by left.
Qed.

(** ** Removing a query *)

Lemma elem_of_lremovei q l i : NoDup l → i ∈ lremovei q l ↔ i ∈ l ∧ i ≠ q.
Proof.
  induction 1 as [|x l Hx Hl IH]; simpl; [rewrite elem_of_nil; tauto|].
  destruct (decide (q = x)) as [->|]; rewrite !elem_of_cons, ?IH; [|naive_solver].
  split; [|naive_solver]. intros Hi. split; [by right|]. by intros ->.
Qed.

Lemma lremovei_incl q l i : i ∈ lremovei q l → i ∈ l.
Proof.
  induction l as [|x l IH]; simpl; [done|]. destruct (decide (q = x)); rewrite ?elem_of_cons; tauto.
Qed.

Lemma NoDup_lremovei q l : NoDup l → NoDup (lremovei q l).
Proof.
  induction 1 as [|x l Hx Hl IH]; simpl; [constructor|]. destruct (decide (q = x)); [done|].
  constructor; [|done]. intros Hi. by apply lremovei_incl in Hi.
Qed.

Lemma strip_Some q (c : C) qs es x : strip q (c, qs, es) = Some x ↔
  x = (c, lremovei q qs, lremovei q es) ∧ (lremovei q qs ≠ [] ∨ lremovei q es ≠ []).
Proof. unfold strip. simpl. destruct (lremovei q qs), (lremovei q es); naive_solver. Qed.

Lemma strip_has q (t t' : ConstTree C) c i e : entries t' ≡ₚ omap (strip q) (entries t) → tree_nodup t →
  has t' c i e ↔ has t c i e ∧ i ≠ q.
Proof.
  intros Hp Hn. unfold has. split.
  - intros (qs & es & Hin & Hi). rewrite Hp, list_elem_of_omap in Hin.
    destruct Hin as ([[c0 qs0] es0] & Hin & Hs). apply strip_Some in Hs as [Heq _].
    injection Heq as -> -> ->. destruct (Hn _ _ _ Hin) as [Hnq Hne].
    destruct e; rewrite elem_of_lremovei in Hi by done; naive_solver.
  - intros [(qs & es & Hin & Hi) Hne]. destruct (Hn _ _ _ Hin) as [Hnq Hnes].
    exists (lremovei q qs), (lremovei q es). rewrite Hp, list_elem_of_omap.
    assert (i ∈ (if e then lremovei q es else lremovei q qs)) as Hi'.
    { destruct e; by apply elem_of_lremovei. }
    split; [|done]. exists (c, qs, es). split; [done|]. apply strip_Some. split; [done|].
    destruct e; [right|left]; intros E; rewrite E in Hi'; by apply not_elem_of_nil in Hi'.
Qed.

Lemma strip_nodup q (t t' : ConstTree C) : entries t' ≡ₚ omap (strip q) (entries t) → tree_nodup t → tree_nodup t'.
Proof.
  intros Hp Hn c qs es Hin. rewrite Hp, list_elem_of_omap in Hin.
  destruct Hin as ([[c0 qs0] es0] & Hin & Hs). apply strip_Some in Hs as [Heq _].
  injection Heq as -> -> ->. destruct (Hn _ _ _ Hin). auto using NoDup_lremovei.
Qed.

(** The list operation on a leaf. *)
Lemma remove_query_leaf q (c : C) qs :
  RemoveQueryConstTree (CNode c qs [] NULL NULL) q
  = Ok (match lremovei q qs with [] => NULL | qs' => CNode c qs' [] NULL NULL end).
Proof. simpl. by destruct (lremovei q qs). Qed.

Lemma remove_list_ok (l : list (ConstTree C)) q : Forall leaf l → list_nodup l →
  ∃ l', RemoveQueryConstList l q = Ok l' ∧ Forall leaf l' ∧ list_nodup l'
    ∧ ∀ c i, list_has l' c i ↔ list_has l c i ∧ i ≠ q.
Proof.
  induction 1 as [|t l (c & qs & ->) Hl IH]; intros Hn.
  { exists []. split; [done|]. split; [done|]. split; [done|]. intros c i. pose proof (list_has_nil c i). tauto. }
  destruct IH as (l' & E & Hl' & Hn' & Hh); [intros c' qs' Hin; apply (Hn c'); by right|].
  assert (NoDup qs) as Hnq by (apply (Hn c); by left).
  cbn [RemoveQueryConstList]. rewrite remove_query_leaf. cbn [cbind]. rewrite E. cbn [cbind].
  pose proof (elem_of_lremovei q qs) as Hel. pose proof (NoDup_lremovei q qs Hnq) as Hnr.
  destruct (lremovei q qs) as [|a qs'] eqn:Er; simpl.
  - exists l'. split; [done|]. split; [done|]. split; [done|]. intros c' i. rewrite Hh, list_has_cons.
    specialize (Hel i Hnq). rewrite elem_of_nil in Hel. tauto.
  - exists (CNode c (a :: qs') [] NULL NULL :: l'). split; [done|].
    split; [constructor; [by exists c, (a :: qs')|done]|]. split.
    + intros c' qs0 Hin. apply elem_of_cons in Hin as [Heq|Hin]; [by injection Heq as -> ->|by apply (Hn' c')].
    + intros c' i. rewrite !list_has_cons, Hh, (Hel i Hnq). tauto.
Qed.

(** The step of a tree map: the removal, guarded by the test for an empty tree,
    and the assertion on the result. *)
Lemma remove_tree_ok {vop : V → C → bool} {cop} `{!RangeOps vop cop} (t : ConstTree C) q : bst cop t → tree_nodup t →
  ∃ t', remove_from_map t cop q = Ok t' ∧ bst cop t' ∧ tree_nodup t' ∧ ∀ c i e, has t' c i e ↔ has t c i e ∧ i ≠ q.
Proof.
  intros Hb Hn. destruct (remove_query_ok (vop := vop) t q Hb) as (t' & E & Hp & Hb').
  exists t'. split; [|split; [done|split; [by eapply strip_nodup|intros; by eapply strip_has]]].
  unfold remove_from_map. destruct t; [exact E|]. cbn [is_null]. rewrite E. cbn [cbind]. by rewrite bst_verify.
Qed.

Lemma elem_of_removed_twice q l i : NoDup l → i ∈ lremovei q (lremovei q l) ↔ i ∈ l ∧ i ≠ q.
Proof. intros Hn. rewrite !elem_of_lremovei by auto using NoDup_lremovei. tauto. Qed.

Lemma remove_gsf_ok (g : GSFilter V C) q : OpersOk (ops g) → gsf_ok g → gsf_nodup g → NoDup (usedByQueries g) →
  ∃ b g', ProcessRemoveQueryGSF g q = Ok (b, g') ∧ ops g' = ops g ∧ gsf_ok g' ∧ gsf_nodup g'
    ∧ (∀ op c i, registered g' op c i ↔ registered g op c i ∧ i ≠ q)
    ∧ NoDup (usedByQueries g') ∧ (∀ i, i ∈ usedByQueries g' ↔ i ∈ usedByQueries g ∧ i ≠ q)
    ∧ (b = true ↔ ∀ i, i ∈ usedByQueries g → i = q).
Proof.
  intros Ho [Blt Brt Leq Lne Hid] (Nlt & Nrt & Neq & Nne) Hu. unfold ProcessRemoveQueryGSF.
  destruct (remove_tree_ok (ltmap g) q Blt Nlt) as (lt & -> & Blt' & Nlt' & Hlt).
  destruct (remove_tree_ok (rtmap g) q Brt Nrt) as (rt & -> & Brt' & Nrt' & Hrt).
  destruct (remove_list_ok (eqmap g) q Leq Neq) as (eq & Eeq & Leq' & Neq' & Heq).
  destruct (remove_list_ok (nemap g) q Lne Nne) as (ne & Ene & Lne' & Nne' & Hne).
  cbn [cbind]. rewrite Eeq. cbn [cbind]. rewrite Ene. cbn [cbind]. unfold FjordRemoveQuery. cbn.
  eexists _, _. split; [reflexivity|].
  assert (∀ op c i, match op with
    | LT_OPTR => has lt c i false | LE_OPTR => has lt c i true
    | GT_OPTR => has rt c i false | GE_OPTR => has rt c i true
    | EQ_OPTR => list_has eq c i | NE_OPTR => list_has ne c i | OTHER_OPTR => False end
    ↔ registered g op c i ∧ i ≠ q) as Hr by (intros [] c i; simpl; rewrite ?Hlt, ?Hrt, ?Heq, ?Hne; tauto).
  split; [done|]. split; [constructor; try done; intros op c i Hi; apply Hr in Hi as [Hi _]; eauto|].
  split; [done|]. split; [exact Hr|]. split; [cbn; auto using NoDup_lremovei|].
  split; [intros; cbn; by apply elem_of_removed_twice|].
  cbn. pose proof (elem_of_removed_twice q _ : ∀ i, NoDup (usedByQueries g) → _) as Hel.
  destruct (lremovei q (lremovei q (usedByQueries g))) as [|x l]; (split; [intros E|intros Hall]); try done.
  - intros i Hi. destruct (decide (i = q)); [done|]. destruct (not_elem_of_nil i). by apply Hel.
  - destruct (proj1 (Hel x Hu)) as [Hx Hne']; [by left|]. by apply Hall in Hx.
Qed.
End node.
End GSFNode.
