(* ===== verification/GSFilterThm.v ===== *)
(** * The grouped selection filter: its contract

    Evaluating the filter on a tuple completes exactly the queries one of whose
    predicates fails; adding and removing queries change the registered
    predicates as they should, except for inequality predicates. *)

From S2P Require Import Prelude BitArray GSFilter GSFilterSpec GSFilterNode.

Module GSFThm.
Import Bit GSF GSFSpec GSFNode.

Section thm.
Context {V C : Type} `{EqDecision C}.

(** The filter after a tuple: its counters and the done flag. *)
Definition counted (g : GSFilter V C) (exits : Z) (done : bool) : GSFilter V C :=
  mkGSF (ops g) (ltmap g) (rtmap g) (eqmap g) (nemap g) (usedByQueries g)
    (tuplesEntered g + 1) (tuplesExited g + exits) done.

Lemma process_unfold (g : GSFilter V C) (iht : IHT V) rf ef1 ef2 :
  let o := ops g in let v := expr_value iht in
  rf = checkConstTree v (rtmap g) (gtoper o) (eqoper o)
         (checkConstTree v (ltmap g) (ltoper o) (eqoper o) zero_bits) →
  checkConstList v (eqmap g) (eqoper o) zero_bits = Ok ef1 →
  checkConstList v (nemap g) (neoper o) ef1 = Ok ef2 →
  ProcessNextGSFilter g (Some iht)
  = if isPunct iht then Ok (counted g 1 (doneInput g), Some iht)
    else let '(done, alldone) := for_loop TCQMAXQUERIES (settle rf ef2) (t_queriesCompleted iht, true) in
         if alldone then Ok (counted g 0 true, None)
         else Ok (counted g 1 true, Some (mkIHT v false done)).
Proof.
  intros o v -> E1 E2. unfold counted, ProcessNextGSFilter. destruct g as [o' lt rt eq ne used ent ext dn].
  cbn [ops ltmap rtmap eqmap nemap usedByQueries tuplesEntered tuplesExited doneInput] in *.
  destruct (isPunct iht); [done|]. unfold o, v in E1, E2. rewrite E1. cbn [cbind]. rewrite E2. cbn [cbind].
  by rewrite Z.add_0_r.
Qed.

(** Two filters that differ in their counters and the flag only. *)
Record same_maps (g g' : GSFilter V C) : Prop := {
  same_ops : ops g' = ops g;
  same_ltmap : ltmap g' = ltmap g;
  same_rtmap : rtmap g' = rtmap g;
  same_eqmap : eqmap g' = eqmap g;
  same_nemap : nemap g' = nemap g;
  same_users : usedByQueries g' = usedByQueries g
}.

(** What the filter answers depends on its predicates only. *)
Lemma process_result (g : GSFilter V C) (iht : IHT V) :
  OpersOk (ops g) → gsf_ok g → wf TCQMAXQUERIES (t_queriesCompleted iht) →
  ∃ done', wf TCQMAXQUERIES done'
    ∧ (∀ q, q ∈ bits_of TCQMAXQUERIES done' ↔
         q ∈ bits_of TCQMAXQUERIES (t_queriesCompleted iht) ∨ fails g (expr_value iht) q)
    ∧ ∀ g', same_maps g g' → ProcessNextGSFilter g' (Some iht)
      = Ok (if isPunct iht then (counted g' 1 (doneInput g'), Some iht)
            else if decide (bits_of TCQMAXQUERIES done' = below TCQMAXQUERIES) then (counted g' 0 true, None)
            else (counted g' 1 true, Some (mkIHT (expr_value iht) false done'))).
Proof.
  intros Ho [Blt Brt Leq Lne Hid] Hw. change TCQMAXQUERIES with 128 in *.
  set (v := expr_value iht). destruct zero_bits_ok as [Hz0 Hz].
  destruct (checkConstTree_ok (eqoper (ops g)) v 128 (ltmap g) zero_bits Blt Hz0) as [W1 B1].
  { intros c i e Hh. apply (Hid (if e then LE_OPTR else LT_OPTR) c). by destruct e. }
  destruct (checkConstTree_ok (eqoper (ops g)) v 128 (rtmap g) _ Brt W1) as [W2 B2].
  { intros c i e Hh. apply (Hid (if e then GE_OPTR else GT_OPTR) c). by destruct e. }
  destruct (checkConstList_ok (eqoper (ops g)) v 128 (eqmap g) zero_bits Leq Hz0) as (ef1 & E1 & W3 & B3).
  { intros c i. apply (Hid EQ_OPTR c). }
  destruct (checkConstList_ok (neoper (ops g)) v 128 (nemap g) ef1 Lne W3) as (ef2 & E2 & W4 & B4).
  { intros c i. apply (Hid NE_OPTR c). }
  set (rf2 := checkConstTree v (rtmap g) _ _ _) in *.
  destruct (settle_ok rf2 ef2 (t_queriesCompleted iht) 128 Hw) as (d & a & Es & Wd & Bd & Ha); [lia|].
  exists d. split; [done|]. split.
  - clear Es. intros q. rewrite !elem_of_bits_of, Bd, B2, B1, B4, B3, fails_alt.
    split; [intros [Hq [?|[_ Hor]]]; [by left|right]; rewrite (Hz q Hq) in Hor; naive_solver|].
    intros [[Hq ?]|Hf]; [by split; [|left]|].
    assert (q < 128) as Hq by (apply fails_alt in Hf as (op & c & Hr & _); by eapply Hid).
    split; [done|]. right. split; [done|]. tauto.
  - intros g' [Eo El Er Ee En _].
    rewrite (process_unfold g' iht rf2 ef1 ef2); [|by rewrite Eo, El, Er|by rewrite Eo, Ee|by rewrite Eo, En].
    change TCQMAXQUERIES with 128. fold v. rewrite Es. destruct (isPunct iht); [done|].
    assert (a = true ↔ bits_of 128 d = below 128) as Ha'.
    { rewrite Ha, set_eq. split.
      - intros Hall q. rewrite elem_of_bits_of, elem_of_below. split; [tauto|auto].
      - intros Hs j Hj. by apply (elem_of_bits_of 128), Hs, elem_of_below. }
    destruct a, (decide (bits_of 128 d = below 128)) as [Hd|Hd].
    + done.
    + by destruct Hd; apply Ha'.
    + apply Ha' in Hd. done.
    + done.
Qed.

(** C15: the filter, whatever mixture of search trees and lists its predicates
    are in, adds to the completed queries of a tuple exactly those one of whose
    predicates is false on the tuple; it sends the tuple on unless all queries
    are completed then; a punctuation tuple goes through untouched. *)
Theorem ProcessNextGSFilter_evaluates (g : GSFilter V C) (iht : IHT V) :
  OpersOk (ops g) → gsf_ok g → wf TCQMAXQUERIES (t_queriesCompleted iht) →
  if isPunct iht then ProcessNextGSFilter g (Some iht) = Ok (counted g 1 (doneInput g), Some iht)
  else ∃ done', wf TCQMAXQUERIES done'
    ∧ (∀ q, q ∈ bits_of TCQMAXQUERIES done' ↔
         q ∈ bits_of TCQMAXQUERIES (t_queriesCompleted iht) ∨ fails g (expr_value iht) q)
    ∧ ProcessNextGSFilter g (Some iht)
      = Ok (if decide (bits_of TCQMAXQUERIES done' = below TCQMAXQUERIES)
            then (counted g 0 true, None)
            else (counted g 1 true, Some (mkIHT (expr_value iht) false done'))).
Proof.
  intros Ho Hg Hw. destruct (process_result g iht Ho Hg Hw) as (d & Wd & Bd & E). rewrite (E g) by done.
  destruct (isPunct iht); [done|]. by exists d.
Qed.

Lemma add_but_ne_ok (g : GSFilter V C) op c q : OpersOk (ops g) → gsf_ok g → q < TCQMAXQUERIES → op ≠ OTHER_OPTR →
  op = NE_OPTR ∨ added g op c q c.
Proof.
  intros Ho Hg Hq Hop. destruct op; [right; apply add_range_ok; auto 10 using list_elem_of_here, list_elem_of_further..| | |done].
  - right. by apply add_eq_ok.
  - by left.
Qed.

(** Registering a predicate with an operator other than inequality, or one
    of inequality while no other constant is in the inequality list, succeeds
    with its assertions, and the filter has this predicate and no other more;
    no list of queries gets a duplicate. *)
Theorem add_query_to_gsf_registers (g : GSFilter V C) op c q :
  OpersOk (ops g) → gsf_ok g → q < TCQMAXQUERIES → op ≠ OTHER_OPTR →
  (op = NE_OPTR → ∀ c1, list_const (nemap g) c1 → c1 = c) →
  ∃ g', add_query_to_gsf g op c q = Ok g' ∧ gsf_ok g' ∧ ops g' = ops g ∧ usedByQueries g' = usedByQueries g
    ∧ (∀ op' c' q', registered g' op' c' q' ↔ registered g op' c' q' ∨ op' = op ∧ c' = c ∧ q' = q)
    ∧ (gsf_nodup g → ¬ registered g op c q → gsf_nodup g').
Proof.
  intros Ho Hg Hq Hop Hne.
  assert (added g op c q c) as (g' & E & ? & ? & ? & Ha & ?).
  { destruct (add_but_ne_ok g op c q Ho Hg Hq Hop) as [->|Ha]; [|done].
    destruct (add_ne_ok g c q Ho Hg Hq) as (c0 & Ha & Hc). by rewrite (ne_constant_none _ _ _ Hc (Hne eq_refl)) in Ha. }
  exists g'. split_and!; done.
Qed.

(** As the source stands, when the inequality list has a constant other than
    the new one, the new query is registered for such an other constant, and
    the predicate it asked for is not registered: the list is searched with the
    inequality operator itself. *)
Theorem add_query_to_gsf_wrong_inequality (g : GSFilter V C) c q c1 :
  OpersOk (ops g) → gsf_ok g → q < TCQMAXQUERIES → list_const (nemap g) c1 → c1 ≠ c →
  ∃ g' c0, add_query_to_gsf g NE_OPTR c q = Ok g' ∧ c0 ≠ c
    ∧ ∀ op' c' q', registered g' op' c' q' ↔ registered g op' c' q' ∨ op' = NE_OPTR ∧ c' = c0 ∧ q' = q.
Proof.
  intros Ho Hg Hq Hc1 Hne.
  destruct (add_ne_ok g c q Ho Hg Hq) as (c0 & (g' & E & _ & _ & _ & Ha & _) & Hc).
  exists g', c0. split; [done|]. split; [|done]. by eapply ne_constant_listed.
Qed.

(** C31: removing a query from a filter whose lists have no duplicates takes out
    all its predicates and no other, keeps the trees search trees (the
    assertions hold), and answers true exactly when no other query uses the
    filter. *)
Theorem ProcessRemoveQueryGSF_removes (g : GSFilter V C) q :
  OpersOk (ops g) → gsf_ok g → gsf_nodup g → NoDup (usedByQueries g) →
  ∃ last g', ProcessRemoveQueryGSF g q = Ok (last, g') ∧ gsf_ok g' ∧ gsf_nodup g'
    ∧ (∀ op c i, registered g' op c i ↔ registered g op c i ∧ i ≠ q)
    ∧ (∀ i, i ∈ usedByQueries g' ↔ i ∈ usedByQueries g ∧ i ≠ q)
    ∧ (last = true ↔ ∀ i, i ∈ usedByQueries g → i = q).
Proof.
  intros Ho Hg Hn Hu. destruct (remove_gsf_ok g q Ho Hg Hn Hu) as (b & g' & E & ? & ? & ? & ? & ? & ? & ?).
  exists b, g'. split_and!; done.
Qed.

(** ** A filter in use

    The predicates a sequence of registrations and removals leaves. *)
Inductive action : Type :=
  | AddPred (op : optrtype) (c : C) (q : nat)
  | RemoveQ (q : nat).

Definition act (g : GSFilter V C) (a : action) : cres (GSFilter V C) :=
  match a with
  | AddPred op c q => add_query_to_gsf g op c q
  | RemoveQ q => let! r := ProcessRemoveQueryGSF g q in Ok (r.2)
  end.

Fixpoint acts (g : GSFilter V C) (l : list action) : cres (GSFilter V C) :=
  match l with
  | [] => Ok g
  | a :: l' => let! g' := act g a in acts g' l'
  end.

(** The predicates in force after [l], given those before; [l] is the history,
    latest action first. *)
Fixpoint in_force (l : list action) (op : optrtype) (c : C) (q : nat) : Prop :=
  match l with
  | [] => False
  | AddPred op' c' q' :: l' => in_force l' op c q ∨ op = op' ∧ c = c' ∧ q = q'
  | RemoveQ q' :: l' => in_force l' op c q ∧ q ≠ q'
  end.

(** Actions that make sense after the history [h]: known queries, supported
    operators other than inequality, no predicate registered twice. *)
Fixpoint sensible (h l : list action) : Prop :=
  match l with
  | [] => True
  | a :: l' =>
      match a with
      | AddPred op c q => (op ≠ NE_OPTR ∧ op ≠ OTHER_OPTR) ∧ q < TCQMAXQUERIES ∧ ¬ in_force h op c q
      | RemoveQ _ => True
      end ∧ sensible (a :: h) l'
  end.

(** What holds of the filter after the history [h]. *)
Record after_history (h : list action) (g : GSFilter V C) : Prop := {
  ah_ops : OpersOk (ops g);
  ah_ok : gsf_ok g;
  ah_nodup : gsf_nodup g;
  ah_used : NoDup (usedByQueries g);
  ah_preds : ∀ op c q, registered g op c q ↔ in_force h op c q
}.

Lemma act_step h g a : after_history h g → sensible h [a] → ∃ g', act g a = Ok g' ∧ after_history (a :: h) g'.
Proof.
  intros [Ho Hg Hn Hu Hr] [Hs _]. destruct a as [op c q|q]; simpl.
  - destruct Hs as (Hop & Hq & Hnew). rewrite <- Hr in Hnew.
    assert (added g op c q c) as (g' & E & Eo & Eu & Hg' & Ha & Hn').
    { destruct (add_but_ne_ok g op c q Ho Hg Hq (proj2 Hop)) as [->|Ha]; [by destruct Hop|done]. }
    exists g'. split; [done|]. constructor; [by rewrite Eo|done|by apply Hn'|by rewrite Eu|].
    intros op' c' q'. rewrite (Ha op' c' q'). simpl. by rewrite Hr.
  - destruct (remove_gsf_ok g q Ho Hg Hn Hu) as (b & g' & -> & Eo & Hg' & Hn' & Hr' & Hu' & _).
    exists g'. split; [done|]. constructor; [by rewrite Eo|done..|].
    intros op c i. rewrite Hr'. simpl. by rewrite Hr.
Qed.

Lemma acts_steps h g l : after_history h g → sensible h l →
  ∃ g', acts g l = Ok g' ∧ after_history (rev_append l h) g'.
Proof.
  revert h g. induction l as [|a l IH]; intros h g Hh Hs; [by exists g|]. destruct Hs as [Ha Hs].
  destruct (act_step h g a Hh) as (g' & E & Hh'); [by split|]. simpl. rewrite E. by apply IH.
Qed.

(** A filter as [create_gsf] makes it: no predicates. *)
Definition empty_gsf (o : opers V C) : GSFilter V C := mkGSF o NULL NULL [] [] [] 0 0 false.

Lemma empty_history o : OpersOk o → after_history [] (empty_gsf o).
Proof.
  intros Ho. constructor; [done| | |constructor|].
  - constructor; [done..|]. intros op c q. destruct op; simpl; try done; intros Hh.
    all: try by apply has_NULL in Hh. all: by apply list_has_nil in Hh.
  - split; [|split; [|split]]; intros ? ? **; by match goal with H : _ ∈ _ |- _ => apply not_elem_of_nil in H end.
  - intros op c q. destruct op; simpl; split; try done; intros Hh.
    all: try by apply has_NULL in Hh. all: by apply list_has_nil in Hh.
Qed.

(** C20: refinement of the abstract registry: after any sequence of sensible
    registrations and removals on an empty filter, none of which fails, the
    filter evaluates exactly the predicates in force, those registered and not
    removed since.  Sensible registrations are those with one of the operators
    other than inequality ([add_query_to_gsf_wrong_inequality]) and of a predicate
    that the query does not have in force
    ([ProcessRemoveQueryGSF_leaves_duplicates]). *)
Theorem GSFilter_refines_registry (o : opers V C) l :
  OpersOk o → sensible [] l →
  ∃ g, acts (empty_gsf o) l = Ok g ∧ gsf_ok g
    ∧ ∀ op c q, registered g op c q ↔ in_force (rev l) op c q.
Proof.
  intros Ho Hs. destruct (acts_steps [] (empty_gsf o) l (empty_history o Ho) Hs) as (g & E & [_ Hg _ _ Hr]).
  exists g. split; [done|]. split; [done|]. intros op c q. by rewrite Hr, <- rev_alt.
Qed.
End thm.

(** A predicate that a query registers twice survives its removal: each list
    gives up one occurrence of the query only, so the filter goes on failing the
    query, or a later one with its number, although the query is no longer among
    its users. *)
Theorem ProcessRemoveQueryGSF_leaves_duplicates {V C : Type} `{EqDecision C} (o : opers V C) c q :
  ∃ g, acts (empty_gsf o) [AddPred LT_OPTR c q; AddPred LT_OPTR c q; RemoveQ q] = Ok g
    ∧ registered g LT_OPTR c q ∧ q ∉ usedByQueries g.
Proof.
  simpl. destruct (decide (c = c)) as [_|?]; [|done]. simpl. unfold ProcessRemoveQueryGSF, remove_from_map. simpl.
  destruct (decide (q = q)) as [_|?]; [|done]. simpl. eexists. split; [reflexivity|]. cbn. split; [|apply not_elem_of_nil].
  rewrite (has_node _ _ _ _ _ _ _ _ _ eq_refl). left. split; [done|by left].
Qed.

(** ** A filter on integers *)

Definition zops : opers Z Z :=
  mkOpers Z.gtb Z.ltb (λ a b, negb (Z.eqb a b)) Z.eqb Z.gtb Z.ltb (λ a b, negb (Z.eqb a b)) Z.eqb.

#[global] Instance zops_ok : OpersOk zops.
Proof.
  constructor; [constructor|constructor|..]; simpl; intros *; rewrite ?Z.gtb_ltb, ?Z.ltb_lt, ?Z.ltb_ge; try lia.
  - apply eq_bool_prop_intro. rewrite bool_decide_spec. destruct (Z.eqb_spec a b); naive_solver.
  - apply eq_bool_prop_intro. rewrite bool_decide_spec. destruct (Z.eqb_spec a b); naive_solver.
Qed.

(** [x < 10] of query 1, [x <= 5] of query 2, [x = 7] of query 3, [x <> 4] of
    query 6. *)
Definition demo : GSFilter Z Z :=
  mkGSF zops (CNode 10%Z [1] [] (CNode 5%Z [] [2] NULL NULL) NULL) NULL
    [CNode 7%Z [3] [] NULL NULL] [CNode 4%Z [6] [] NULL NULL] [6; 3; 2; 1] 0 0 false.

Lemma demo_ok : gsf_ok demo.
Proof.
  assert (∀ (qs es : list nat) (c : Z) l r (P : nat → Prop), (∀ q, q ∈ qs → P q) → (∀ q, q ∈ es → P q) →
    (∀ c q e, has l c q e → P q) → (∀ c q e, has r c q e → P q) →
    ∀ c' q e, has (CNode c qs es l r) c' q e → P q) as Hnode.
  { intros qs es c l r P Hq He Hl Hr c' q e Hh. rewrite (has_node _ _ _ _ _ _ _ _ _ eq_refl) in Hh.
    destruct Hh as [[_ Hi]|[Hh|Hh]]; [destruct e|..]; eauto. }
  constructor; cbn [demo ops ltmap rtmap eqmap nemap].
  - simpl. unfold consts. simpl. set_solver by done.
  - done.
  - repeat constructor. by eexists _, _.
  - repeat constructor. by eexists _, _.
  - assert (∀ c q e, has (ltmap demo) c q e → q < TCQMAXQUERIES) as Ht.
    { unfold TCQMAXQUERIES. simpl. do 2 (try apply Hnode); try (intros * Hh; by apply has_NULL in Hh); try set_solver by lia. }
    intros op c q. destruct op; simpl; try apply Ht; try done;
      try (intros Hh; by apply has_NULL in Hh);
      intros Hh; apply list_has_cons in Hh as [[_ Hi]|Hh]; try (by apply list_has_nil in Hh);
      apply list_elem_of_singleton in Hi as ->; unfold TCQMAXQUERIES; lia.
Qed.

Lemma demo_nodup : gsf_nodup demo.
Proof.
  repeat split; try (unfold tree_nodup, list_nodup; cbn; intros; set_unfold; naive_solver eauto using NoDup_singleton, NoDup_nil_2).
Qed.

(** The value 7: only [x <= 5] of query 2 fails. *)
Lemma ProcessNextGSFilter_evaluates_witness :
  if isPunct (mkIHT 7%Z false zero_bits) then ProcessNextGSFilter demo (Some (mkIHT 7%Z false zero_bits)) = Ok (counted demo 1 (doneInput demo), Some (mkIHT 7%Z false zero_bits))
  else ∃ done', wf TCQMAXQUERIES done'
    ∧ (∀ q, q ∈ bits_of TCQMAXQUERIES done' ↔
         q ∈ bits_of TCQMAXQUERIES zero_bits ∨ fails demo 7%Z q)
    ∧ ProcessNextGSFilter demo (Some (mkIHT 7%Z false zero_bits))
      = Ok (if decide (bits_of TCQMAXQUERIES done' = below TCQMAXQUERIES)
            then (counted demo 0 true, None)
            else (counted demo 1 true, Some (mkIHT 7%Z false done'))).
Proof.
  apply (ProcessNextGSFilter_evaluates demo (mkIHT 7%Z false zero_bits));
    [apply zops_ok|apply demo_ok|apply zero_bits_ok].
Defined.

Lemma add_query_to_gsf_registers_witness :
  ∃ g', add_query_to_gsf demo GE_OPTR 3%Z 9 = Ok g' ∧ gsf_ok g' ∧ ops g' = ops demo ∧ usedByQueries g' = usedByQueries demo
    ∧ (∀ op' c' q', registered g' op' c' q' ↔ registered demo op' c' q' ∨ op' = GE_OPTR ∧ c' = 3%Z ∧ q' = 9)
    ∧ (gsf_nodup demo → ¬ registered demo GE_OPTR 3%Z 9 → gsf_nodup g').
Proof.
  apply (add_query_to_gsf_registers demo GE_OPTR 3%Z 9);
    [apply zops_ok|apply demo_ok|unfold TCQMAXQUERIES; lia|done|done].
Defined.

(** [x <> 8] of query 9 is entered as [x <> 4]. *)
Lemma add_query_to_gsf_wrong_inequality_witness :
  ∃ g' c0, add_query_to_gsf demo NE_OPTR 8%Z 9 = Ok g' ∧ c0 ≠ 8%Z
    ∧ ∀ op' c' q', registered g' op' c' q' ↔ registered demo op' c' q' ∨ op' = NE_OPTR ∧ c' = c0 ∧ q' = 9.
Proof.
  apply (add_query_to_gsf_wrong_inequality demo 8%Z 9 4%Z);
    [apply zops_ok|apply demo_ok|unfold TCQMAXQUERIES; lia|exists [6]; by apply list_elem_of_here|done].
Defined.

Lemma ProcessRemoveQueryGSF_removes_witness :
  ∃ last g', ProcessRemoveQueryGSF demo 1 = Ok (last, g') ∧ gsf_ok g' ∧ gsf_nodup g'
    ∧ (∀ op c i, registered g' op c i ↔ registered demo op c i ∧ i ≠ 1)
    ∧ (∀ i, i ∈ usedByQueries g' ↔ i ∈ usedByQueries demo ∧ i ≠ 1)
    ∧ (last = true ↔ ∀ i, i ∈ usedByQueries demo → i = 1).
Proof.
  apply (ProcessRemoveQueryGSF_removes demo 1);
    [apply zops_ok|apply demo_ok|apply demo_nodup|apply (bool_decide_eq_true_1 (NoDup [6; 3; 2; 1])); by vm_compute].
Defined.

Lemma GSFilter_refines_registry_witness :
  ∃ g, acts (empty_gsf zops) [AddPred LT_OPTR 3%Z 0; AddPred LT_OPTR 5%Z 1; RemoveQ 0; AddPred LT_OPTR 3%Z 0] = Ok g ∧ gsf_ok g
    ∧ ∀ op c q, registered g op c q
        ↔ in_force (rev [AddPred LT_OPTR 3%Z 0; AddPred LT_OPTR 5%Z 1; RemoveQ 0; AddPred LT_OPTR 3%Z 0]) op c q.
Proof.
  apply (GSFilter_refines_registry zops
           [AddPred LT_OPTR 3%Z 0; AddPred LT_OPTR 5%Z 1; RemoveQ 0; AddPred LT_OPTR 3%Z 0] zops_ok).
  simpl. unfold TCQMAXQUERIES. intuition (congruence || lia).
Defined.
End GSFThm.
