(* ===== verification/Csv.v ===== *)
(** * The CSV wrapper ([src/src/backend/utils/telegraphcq/csv.c])

    A wrapper turns the bytes of a network connection into tuples of a stream.
    The clearinghouse calls [csv_next] again and again; each call reads what is
    there into a buffer and takes at most one line out of it.

    The buffer is modelled with its contents, since the code works in place: it
    terminates columns and lines with zero bytes, and looks for the end of a
    line with [strchr], which stops at one.  Positions are natural numbers.

    Parameters: the input function of a column's type
    ([DatumFromTypeInstance], the catalog's), the value a column is bound to,
    and [overlap_ok]: whether [memcpy] moves overlapping regions, which C leaves
    undefined.  [BUFSIZE] is 100000 in the source. *)

From stdpp Require Import pretty.
From S2P Require Import Prelude.

Module CSV.

Definition NUL : Z := 0.
Definition NL : Z := 10.
Definition CR : Z := 13.
Definition SPACE : Z := 32.
Definition FILLER : Z := 84.
Definition n_char : Z := 110.

Definition bytes_of (s : string) : list Z := (λ c, Z.of_N (Ascii.N_of_ascii c)) <$> String.list_ascii_of_string s.

(** ** C strings *)

Definition lower (c : Z) : Z := if (65 <=? c)%Z && (c <=? 90)%Z then (c + 32)%Z else c.

(** [strncasecmp(a, b, n) == 0] and [strcasecmp(a, b) == 0]; the terminating zero
    bytes are not written. *)
Fixpoint strncaseeq (n : nat) (a b : list Z) : bool :=
  match n, a, b with
  | O, _, _ => true
  | S _, [], [] => true
  | S n', x :: a', y :: b' => (lower x =? lower y)%Z && strncaseeq n' a' b'
  | _, _, _ => false
  end.

Definition strcaseeq (a b : list Z) : bool := strncaseeq (S (length a)) a b.

(** Length of the prefix without a byte of [d]. *)
Fixpoint strcspn (s d : list Z) : nat :=
  match s with
  | [] => 0
  | c :: s' => if decide (c ∈ d) then 0 else S (strcspn s' d)
  end.

(** [strchr(s, newline)], as the distance. *)
Fixpoint find_newline (s : list Z) : option nat :=
  match s with
  | [] => None
  | c :: s' => if (c =? NUL)%Z then None else if (c =? NL)%Z then Some 0 else S <$> find_newline s'
  end.

Definition put (b : list Z) (i : nat) (d : list Z) : cres (list Z) :=
  if decide (i + length d ≤ length b) then Ok (take i b ++ d ++ drop (i + length d) b) else Fail Undefined.

Inductive FunctionMode : Type := MODE_INIT | MODE_NEXT | MODE_DONE | MODE_END | MODE_RESCAN.
Inductive wrapper_ts_gen_state : Type := DONT_KNOW | GENERATING | NOT_GENERATING.

(** A message of the code, or a line of the input. *)
Inductive message : Type :=
  | Text (s : string)
  | Line (l : list Z).

(** What [read] does: up to [k] bytes, [EAGAIN], or another error. *)
Inductive answer : Type :=
  | Got (k : nat)
  | Again
  | Broken.

#[export] Instance answer_eq_dec : EqDecision answer.
Proof. solve_decision. Defined.

Record csvstate : Type := mkCsv {
  buf : list Z;
  readidx : nat;
  writeidx : nat;
  tuplecount : Z;
  numrescans : Z;
  column_delimiters : list (option (list Z));
  default_delimiters : list Z;
  error_indicator : list Z;
  done_indicator : list Z
}.

Definition with_buf (s : csvstate) (b : list Z) (r w : nat) : csvstate :=
  mkCsv b r w (tuplecount s) (numrescans s) (column_delimiters s) (default_delimiters s)
    (error_indicator s) (done_indicator s).
Definition count_tuple (s : csvstate) : csvstate :=
  mkCsv (buf s) (readidx s) (writeidx s) (tuplecount s + 1) (numrescans s) (column_delimiters s)
    (default_delimiters s) (error_indicator s) (done_indicator s).

Section csv.
Context {Datum : Type}.
Context (BUFSIZE : nat) (overlap_ok : bool).
(** The value of a column and whether it is null; columns count from 1. *)
Context (DatumFromTypeInstance : nat → list Z → option Datum * bool).
Context (getBindingValueByStreamCol : nat → option (list Z)).

Record wrapperstate : Type := mkWs {
  udfstate : csvstate;
  mode : FunctionMode;
  returnTupleLength : nat;
  returnTuple : list (option Datum);
  returnTupleIsNull : list Z;
  returnTupleIsPunct : bool;
  hasTuple : bool;
  doneWithProbe : bool;
  hasBufferedData : bool;
  tsState : wrapper_ts_gen_state;
  wakeup_time : option (Z * Z);
  error_message : option message;
  connectionReady : bool;
  timeoutExpired : bool;
  fd : Z
}.

Definition with_udf (w : wrapperstate) (s : csvstate) : wrapperstate :=
  mkWs s (mode w) (returnTupleLength w) (returnTuple w) (returnTupleIsNull w) (returnTupleIsPunct w) (hasTuple w)
    (doneWithProbe w) (hasBufferedData w) (tsState w) (wakeup_time w) (error_message w) (connectionReady w)
    (timeoutExpired w) (fd w).
Definition with_row (w : wrapperstate) (r : list (option Datum)) (n : list Z) : wrapperstate :=
  mkWs (udfstate w) (mode w) (returnTupleLength w) r n (returnTupleIsPunct w) (hasTuple w) (doneWithProbe w)
    (hasBufferedData w) (tsState w) (wakeup_time w) (error_message w) (connectionReady w) (timeoutExpired w) (fd w).
Definition with_flags (w : wrapperstate) (punct has donep buffered : bool) : wrapperstate :=
  mkWs (udfstate w) (mode w) (returnTupleLength w) (returnTuple w) (returnTupleIsNull w) punct has donep buffered
    (tsState w) (wakeup_time w) (error_message w) (connectionReady w) (timeoutExpired w) (fd w).
Definition with_ts (w : wrapperstate) (t : wrapper_ts_gen_state) (wake : option (Z * Z)) : wrapperstate :=
  mkWs (udfstate w) (mode w) (returnTupleLength w) (returnTuple w) (returnTupleIsNull w) (returnTupleIsPunct w)
    (hasTuple w) (doneWithProbe w) (hasBufferedData w) t wake (error_message w) (connectionReady w)
    (timeoutExpired w) (fd w).
Definition with_error (w : wrapperstate) (m : message) : wrapperstate :=
  mkWs (udfstate w) (mode w) (returnTupleLength w) (returnTuple w) (returnTupleIsNull w) (returnTupleIsPunct w)
    (hasTuple w) (doneWithProbe w) (hasBufferedData w) (tsState w) (wakeup_time w) (Some m) (connectionReady w)
    (timeoutExpired w) (fd w).
Definition with_mode (w : wrapperstate) (m : FunctionMode) (f : Z) : wrapperstate :=
  mkWs (udfstate w) m (returnTupleLength w) (returnTuple w) (returnTupleIsNull w) (returnTupleIsPunct w)
    (hasTuple w) (doneWithProbe w) (hasBufferedData w) (tsState w) (wakeup_time w) (error_message w)
    (connectionReady w) (timeoutExpired w) f.

(** ** Timestamps *)

(** [clock] is the time of day as a timestamp. *)
Definition gen_timestamp_field (w : wrapperstate) (clock : Datum) : wrapperstate :=
  let i := returnTupleLength w - 1 in
  with_row w (<[i := Some clock]> (returnTuple w)) (<[i := SPACE]> (returnTupleIsNull w)).

Definition tuple_has_timestamp (w : wrapperstate) : cres bool :=
  let! d := access (returnTuple w !! (returnTupleLength w - 1)) in
  Ok (match d with Some _ => true | None => false end).

Definition CSV_PUNCT_INTERVAL_SEC : Z := 1.

(** [tv] is the time of [gettimeofday]. *)
Definition ask_for_punct_timeout (w : wrapperstate) (tv : Z * Z) : wrapperstate :=
  with_ts w (tsState w) (Some (tv.1 + CSV_PUNCT_INTERVAL_SEC, tv.2)%Z).

Definition gen_punct_tuple (w : wrapperstate) (clock : Datum) : cres wrapperstate :=
  let! _ := cassert (match tsState w with GENERATING => true | _ => false end) in
  let w1 := gen_timestamp_field w clock in
  Ok (with_flags (with_udf w1 (count_tuple (udfstate w1))) true true (doneWithProbe w1) (hasBufferedData w1)).

(** ** The buffer *)

Definition compact_buffer (s : csvstate) : cres csvstate :=
  let n := writeidx s - readidx s in
  if negb overlap_ok && (readidx s <? n) then Fail Undefined
  else
    let b := take n (drop (readidx s) (buf s)) ++ drop n (buf s) in
    Ok (with_buf s (take n b ++ replicate (BUFSIZE - n) FILLER ++ drop BUFSIZE b) 0 n).

(** ** A line *)

Definition column_delims (s : csvstate) (col : nat) : cres (list Z) :=
  let! d := access (column_delimiters s !! col) in
  Ok (match d with Some d => d | None => default_delimiters s end).

(** [while ((filter = strchr(colbegin, CR))) *filter = SPACE;] *)
Definition no_cr (l : list Z) : list Z := (λ c, if (c =? CR)%Z then SPACE else c) <$> l.

Definition null_mark (wasNull : bool) : Z := if wasNull then n_char else SPACE.

(** The row that is filled: the values and the null marks. *)
Abbreviation row := (list (option Datum) * list Z)%type.

Definition set_col (r : row) (col : nat) (v : option Datum * bool) : row :=
  (<[col := v.1]> r.1, <[col := null_mark v.2]> r.2).

(** The loop over the columns of the line [rest]; [out] is what the part of the
    buffer before [rest] has become, the result what all of it has. *)
Fixpoint columns (fuel n : nat) (s : csvstate) (r : row) (col : nat) (rest out : list Z)
    : cres (row * nat * list Z) :=
  match fuel with
  | O => Fail Diverge
  | S fuel' =>
      match rest with
      | [] => Ok (r, col, out)
      | _ =>
          if n <=? col then Ok (r, col, out ++ rest)
          else
            let! d := column_delims s col in
            let span := strcspn rest d in
            if decide (span = 0) then
              columns fuel' n s (set_col r col (None, true)) (S col) (drop 1 rest) (out ++ take 1 rest)
            else
              let str := no_cr (take span rest) in
              let rest' := drop (S span) rest in
              let out' := out ++ str ++ (if decide (span < length rest) then [NUL] else []) in
              match getBindingValueByStreamCol (S col) with
              | Some b =>
                  if strcaseeq str b
                  then columns fuel' n s (set_col r col (DatumFromTypeInstance (S col) str)) (S col) rest' out'
                  else
                    let r1 := set_col r col (DatumFromTypeInstance (S col) b) in
                    if decide (S col = n) then Ok (r1, S col, out' ++ rest')
                    else columns fuel' n s (set_col r1 (S col) (DatumFromTypeInstance (S (S col)) str))
                           (S (S col)) rest' out'
              | None => columns fuel' n s (set_col r col (DatumFromTypeInstance (S col) str)) (S col) rest' out'
              end
      end
  end.

(** [for (; col < returnTupleLength; col++)] *)
Fixpoint fill_nulls (k : nat) (r : row) (col : nat) : row :=
  match k with
  | O => r
  | S k' => fill_nulls k' (set_col r col (None, true)) (S col)
  end.

(** [while (readidx < writeidx && (buf[readidx] == NL || buf[readidx] == NUL))] *)
Fixpoint skip_blank (k : nat) (b : list Z) (r : nat) : nat :=
  match k with
  | O => r
  | S k' =>
      match b !! r with
      | Some c => if (c =? NL)%Z || (c =? NUL)%Z then skip_blank k' b (S r) else r
      | None => r
      end
  end.

(** The timestamp of the tuple; the answer is false when it is refused. *)
Definition stamp (w : wrapperstate) (clock : Datum) (tv : Z * Z) : cres (bool * wrapperstate) :=
  let! has0 := tuple_has_timestamp w in
  let w1 := match tsState w with
            | DONT_KNOW => if has0 : bool then w else ask_for_punct_timeout (with_ts w GENERATING (wakeup_time w)) tv
            | _ => w
            end in
  match tsState w1 with
  | GENERATING =>
      let! has := tuple_has_timestamp w1 in
      if has : bool
      then Ok (false, with_error w1 (Text "Received an explicit timestamp while generating real-time timestamps"))
      else Ok (true, gen_timestamp_field w1 clock)
  | _ =>
      let! has := tuple_has_timestamp w1 in
      if has : bool then Ok (true, w1)
      else Ok (false, with_error w1 (Text "Tuple has no timestamp, and we are not generating real-time timestamps"))
  end.

(** The line of [size] bytes at the read position.  The second answer is true
    when the function goes on behind the conditional. *)
Definition take_tuple (w : wrapperstate) (tuplesize : nat) (clock : Datum) (tv : Z * Z)
    : cres (bool * bool * wrapperstate) :=
  let s := udfstate w in
  let line := take tuplesize (drop (readidx s) (buf s)) in
  let! b1 := put (buf s) (readidx s + tuplesize) [NUL] in
  let behind := readidx s + (tuplesize + 1) in
  if strncaseeq (length (error_indicator s)) line (error_indicator s) then
    Ok (false, false, with_error (with_udf w (with_buf s b1 behind (writeidx s))) (Line line))
  else if strncaseeq (length (done_indicator s)) line (done_indicator s) then
    let w1 := with_udf w (with_buf s b1 behind (writeidx s)) in
    Ok (true, false, with_flags w1 (returnTupleIsPunct w1) (hasTuple w1) true (hasBufferedData w1))
  else
    let n := returnTupleLength w in
    let! (r, col, out) :=
      columns (S (length line)) n s (returnTuple w, returnTupleIsNull w) 0 line [] in
    let r' := fill_nulls (n - col) r col in
    let! b2 := put b1 (readidx s) out in
    let w1 := with_row (with_udf w (with_buf s b2 (readidx s) (writeidx s))) r'.1 r'.2 in
    let! (ok, w2) := stamp w1 clock tv in
    if negb ok then Ok (false, false, w2)
    else
      let r1 := skip_blank (writeidx s - behind) b2 behind in
      let w3 := with_udf w2 (count_tuple (with_buf (udfstate w2) b2 r1 (writeidx s))) in
      Ok (true, true, with_flags w3 (returnTupleIsPunct w3) true (doneWithProbe w3) (hasBufferedData w3)).

(** The part of [csv_next] that reads: [None] when it returns there. *)
Definition fill_buffer (w : wrapperstate) (a : answer) (wire : list Z)
    : cres (option bool * wrapperstate * list Z) :=
  let! s := if BUFSIZE - 50 <? writeidx (udfstate w) then compact_buffer (udfstate w) else Ok (udfstate w) in
  let w1 := with_udf w s in
  if decide (writeidx s = BUFSIZE) then Ok (None, w1, wire)
  else
    match a with
    | Got k =>
        let d := take (min k (BUFSIZE - writeidx s)) wire in
        match d with
        | [] => if negb (hasBufferedData w1) then Ok (Some true, with_mode w1 MODE_DONE (fd w1), wire)
                else Ok (None, w1, wire)
        | _ =>
            let! b := put (buf s) (writeidx s) d in
            let w2 := with_udf w1 (with_buf s b (readidx s) (writeidx s + length d)) in
            Ok (None, with_flags w2 (returnTupleIsPunct w2) (hasTuple w2) (doneWithProbe w2) true, drop (length d) wire)
        end
    | Again => Ok (None, w1, wire)
    | Broken => Ok (Some false, with_error w1 (Text "unrecoverable error on wrapper  network socket"), wire)
    end.

(** The part behind the reading. *)
Definition next_tuple (w : wrapperstate) (clock : Datum) (tv : Z * Z) : cres (bool * wrapperstate) :=
  let! (ret, goes_on, w1) :=
    if hasBufferedData w then
      let s := udfstate w in
      match find_newline (drop (readidx s) (buf s)) with
      | Some tuplesize =>
          if readidx s + tuplesize <=? writeidx s then take_tuple w tuplesize clock tv else Ok (true, true, w)
      | None => Ok (true, true, w)
      end
    else Ok (true, true, w) in
  if negb goes_on then Ok (ret, w1)
  else
    Ok (true, if decide (readidx (udfstate w1) = writeidx (udfstate w1))
              then with_flags w1 (returnTupleIsPunct w1) (hasTuple w1) (doneWithProbe w1) false else w1).

Definition csv_next (w : wrapperstate) (a : answer) (wire : list Z) (clock : Datum) (tv : Z * Z)
    : cres (bool * wrapperstate * list Z) :=
  if timeoutExpired w then
    let! w1 := gen_punct_tuple w clock in
    Ok (true, ask_for_punct_timeout w1 tv, wire)
  else
    let! (ret, w1, wire1) := if connectionReady w then fill_buffer w a wire else Ok (None, w, wire) in
    match ret with
    | Some r => Ok (r, w1, wire1)
    | None => let! (r, w2) := next_tuple w1 clock tv in Ok (r, w2, wire1)
    end.

(** ** Start and end *)

(** [get_entry]: keys are compared without case. *)
Fixpoint get_entry (key : string) (l : list (string * list Z)) : option (list Z) :=
  match l with
  | [] => None
  | (k, v) :: l' => if strcaseeq (bytes_of k) (bytes_of key) then Some v else get_entry key l'
  end.

(** [ts_last]: the last column has type TIMESTAMP; [conn] is what
    [establishConnection] gives. *)
Definition csv_init (ts_last : bool) (natts : nat) (info : list (string * list Z)) (conn : Z)
    (w : wrapperstate) : bool * wrapperstate :=
  if negb ts_last then
    (false, with_error w (Text "The last column of any stream which uses the CSV wrapper must have datatype TIMESTAMP"))
  else
    let entry_or k d := match get_entry k info with Some v => v | None => bytes_of d end in
    let s := mkCsv (replicate BUFSIZE FILLER ++ [NUL]) 0 0 0 0
               ((λ i, get_entry (String.append "DELIMITERS" (pretty i)) info) <$> seq 0 natts)
               (entry_or "DEFAULT_DELIMITERS"%string ","%string)
               (entry_or "error_indicator"%string "ERROR MESSAGE:"%string)
               (entry_or "done_indicator"%string "DONE WITH PROBE"%string) in
    let w1 := with_ts (with_flags (with_udf w s) (returnTupleIsPunct w) false (doneWithProbe w) (hasBufferedData w))
                DONT_KNOW (wakeup_time w) in
    let w2 := if (fd w1 <? 0)%Z then with_mode w1 MODE_RESCAN conn else with_mode w1 MODE_NEXT (fd w1) in
    if (fd w2 <? 0)%Z then (false, with_error w2 (Text "unable to open a connection to the wrapper server"))
    else (true, w2).

(** What is sent to the other side before the end, a DONE to a HiFi stream, and
    the wrapper; [wrote]: whether the write succeeded.  The private state is
    freed. *)
Definition csv_done (info : list (string * list Z)) (wrote : bool) (w : wrapperstate) : list Z * wrapperstate :=
  let hifi := match get_entry "HIFI_STRM_NAME" info with Some _ => true | None => false end in
  let w1 := if hifi && negb wrote then with_error w (Text "Could not sent DONE to HiFi Glue") else w in
  (if hifi then bytes_of "DONE" else [], with_mode w1 MODE_END (fd w1)).
End csv.
Arguments wrapperstate : clear implicits.
End CSV.
