(* ===== verification/CsvSpec.v ===== *)
(** * Correctness of the CSV wrapper

    However the network splits the bytes, the wrapper takes the stream apart
    into its lines and every line into the values of a row. *)

From S2P Require Import Prelude Csv.

Module CSVSpec.
Import CSV.

Section spec.
Context {Datum : Type}.
Context (BUFSIZE : nat).
Context (input : nat → list Z → option Datum * bool) (binding : nat → option (list Z)).

Local Abbreviation columns := (columns input binding).
Local Abbreviation row := (list (option Datum) * list Z)%type.

(** ** The values of a line *)

Definition delims_at (s : csvstate) (col : nat) : list Z :=
  match column_delimiters s !! col with Some (Some d) => d | _ => default_delimiters s end.

(** The values from column [col] on, without the buffer. *)
Fixpoint values (fuel n : nat) (s : csvstate) (col : nat) (rest : list Z) : list (option Datum * bool) :=
  match fuel with
  | O => []
  | S fuel' =>
      match rest with
      | [] => []
      | _ =>
          if n <=? col then []
          else
            let span := strcspn rest (delims_at s col) in
            if decide (span = 0) then (None, true) :: values fuel' n s (S col) (drop 1 rest)
            else
              let str := no_cr (take span rest) in
              let rest' := drop (S span) rest in
              match binding (S col) with
              | Some b =>
                  if strcaseeq str b then input (S col) str :: values fuel' n s (S col) rest'
                  else if decide (S col = n) then [input (S col) b]
                  else input (S col) b :: input (S (S col)) str :: values fuel' n s (S (S col)) rest'
              | None => input (S col) str :: values fuel' n s (S col) rest'
              end
      end
  end.

(** The row of a line: its values and then nulls. *)
Definition line_row (n : nat) (s : csvstate) (line : list Z) : row :=
  let v := values (S (length line)) n s 0 line in
  (v.*1 ++ replicate (n - length v) None, (null_mark <$> v.*2) ++ replicate (n - length v) n_char).

Lemma strcspn_le r d : strcspn r d ≤ length r.
Proof. induction r as [|c r IH]; simpl; [lia|]. destruct (decide (c ∈ d)); lia. Qed.

(** A row of [n] columns. *)
Definition wide (n : nat) (r : row) : Prop := length r.1 = n ∧ length r.2 = n.

Lemma set_col_wide n r col v : wide n r → wide n (set_col r col v).
Proof. intros [H1 H2]. split; simpl; by rewrite length_insert. Qed.

(** The row [r'] has the columns of [r] before [col] and then the values [v]. *)
Definition extends (r : row) (col : nat) (v : list (option Datum * bool)) (r' : row) : Prop :=
  take (col + length v) r'.1 = take col r.1 ++ v.*1 ∧ take (col + length v) r'.2 = take col r.2 ++ (null_mark <$> v.*2).

Lemma take_set {A : Type} (l : list A) i x : i < length l → take (S i) (<[i := x]> l) = take i l ++ [x].
Proof.
  intros Hi. rewrite (take_S_r _ _ x) by (by apply list_lookup_insert_eq).
  by rewrite take_insert_ge by lia.
Qed.

Lemma extends_nil r col : extends r col [] r.
Proof. by split; simpl; rewrite Nat.add_0_r, app_nil_r. Qed.

Lemma extends_cons n r col x v r' : wide n r → col < n →
  extends (set_col r col x) (S col) v r' → extends r col (x :: v) r'.
Proof.
  intros [H1 H2] Hc [E1 E2]. unfold set_col in E1, E2. cbn [fst snd] in E1, E2.
  rewrite take_set in E1 by lia. rewrite take_set in E2 by lia. split; simpl.
  - rewrite <- Nat.add_succ_comm, E1, <- app_assoc. done.
  - rewrite <- Nat.add_succ_comm, E2, <- app_assoc. done.
Qed.

(** The loop in the buffer computes the values; the bytes it leaves are as many
    as it found. *)
Lemma columns_values fuel n s r col rest out :
  length rest < fuel → wide n r → col ≤ n → length (column_delimiters s) = n →
  ∃ r' out', columns fuel n s r col rest out = Ok (r', col + length (values fuel n s col rest), out')
    ∧ wide n r' ∧ extends r col (values fuel n s col rest) r'
    ∧ length out' = length out + length rest ∧ col + length (values fuel n s col rest) ≤ n.
Proof.
  revert r col rest out. induction fuel as [|fuel IH]; intros r col rest out Hf Hw Hc Hd; [lia|].
  destruct rest as [|x rest].
  { exists r, out. simpl. rewrite Nat.add_0_r. rewrite ?Nat.add_0_r. split_and!; try done; apply extends_nil. }
  cbn [CSV.columns values]. destruct (Nat.leb_spec n col) as [Hle|Hlt].
  { exists r, (out ++ x :: rest). simpl. rewrite Nat.add_0_r.
    split_and!; try done; [apply extends_nil|by rewrite length_app]. }
  assert (column_delims s col = Ok (delims_at s col)) as ->.
  { unfold column_delims, delims_at. destruct (lookup_lt_is_Some_2 (column_delimiters s) col) as [d ->]; [lia|]. by destruct d. }
  cbn [cbind]. set (span := strcspn (x :: rest) (delims_at s col)).
  pose proof (strcspn_le (x :: rest) (delims_at s col)) as Hspan. fold span in Hspan.
  destruct (decide (span = 0)) as [Hz|Hz].
  { destruct (IH (set_col r col (None, true)) (S col) (drop 1 (x :: rest)) (out ++ take 1 (x :: rest)))
      as (r' & out' & E & Hw' & He & Hl & Hn); [rewrite length_drop; simpl in Hf |- *; lia|by apply set_col_wide|lia|done|].
    exists r', out'. rewrite E. simpl length. split; [do 3 f_equal; lia|]. split; [done|].
    split; [by eapply extends_cons|]. rewrite Hl, length_app, length_take, length_drop. simpl in Hn |- *. lia. }
  set (str := no_cr (take span (x :: rest))). set (rest' := drop (S span) (x :: rest)).
  set (out1 := out ++ str ++ _).
  assert (length out1 + length rest' = length out + S (length rest)) as Hlen.
  { unfold out1, rest', str, no_cr. rewrite !length_app, length_fmap, length_take, length_drop.
    case_decide; simpl in *; lia. }
  assert (length rest' < fuel) as Hf' by (unfold rest'; rewrite length_drop; simpl in *; lia).
  assert (∀ v, ∃ r' out', columns fuel n s (set_col r col v) (S col) rest' out1
      = Ok (r', col + S (length (values fuel n s (S col) rest')), out')
      ∧ wide n r' ∧ extends r col (v :: values fuel n s (S col) rest') r'
      ∧ length out' = length out + S (length rest) ∧ col + S (length (values fuel n s (S col) rest')) ≤ n) as Hone.
  { intros v. destruct (IH (set_col r col v) (S col) rest' out1) as (r' & out' & E & Hw' & He & Hl & Hn);
      [done|by apply set_col_wide|lia|done|]. exists r', out'. rewrite E. split; [do 3 f_equal; lia|].
    split; [done|]. split; [by eapply extends_cons|]. lia. }
  destruct (binding (S col)) as [b|]; [|apply Hone]. destruct (strcaseeq str b); [apply Hone|].
  destruct (decide (S col = n)) as [Hn|Hn].
  - eexists _, _. split; [simpl length; do 3 f_equal; lia|]. split; [by apply set_col_wide|].
    split; [eapply extends_cons; [done|done|apply extends_nil]|]. rewrite length_app. simpl. lia.
  - destruct (IH (set_col (set_col r col (input (S col) b)) (S col) (input (S (S col)) str)) (S (S col)) rest' out1)
      as (r' & out' & E & Hw' & He & Hl & Hn'); [done|by do 2 apply set_col_wide|lia|done|].
    exists r', out'. rewrite E. simpl length. split; [do 3 f_equal; lia|]. split; [done|].
    split; [|lia]. eapply extends_cons; [done|done|]. eapply extends_cons; [by apply set_col_wide|lia|done].
Qed.

Lemma fill_nulls_ok n k r col : wide n r → col + k = n →
  wide n (fill_nulls k r col) ∧ extends r col (replicate k (None, true)) (fill_nulls k r col).
Proof.
  revert r col. induction k as [|k IH]; intros r col Hw Hk; simpl.
  - split; [done|apply extends_nil].
  - destruct (IH (set_col r col (None, true)) (S col)) as [Hw' He]; [by apply set_col_wide|lia|].
    split; [done|]. eapply extends_cons; [done|lia|done].
Qed.

(** The row after the columns and the nulls. *)
Lemma row_of_line n s r line :
  wide n r → length (column_delimiters s) = n →
  ∃ r' col out, columns (S (length line)) n s r 0 line [] = Ok (r', col, out)
    ∧ length out = length line ∧ fill_nulls (n - col) r' col = line_row n s line ∧ wide n (line_row n s line).
Proof.
  intros Hw Hd. destruct (columns_values (S (length line)) n s r 0 line [] ltac:(lia) Hw ltac:(lia) Hd)
    as (r' & out & E & Hw' & [E1 E2] & Hl & Hn).
  set (v := values (S (length line)) n s 0 line) in *. simpl in E, E1, E2, Hn, Hl.
  exists r', (length v), out. split; [done|]. split; [done|].
  destruct (fill_nulls_ok n (n - length v) r' (length v) Hw' ltac:(lia)) as [[W1 W2] [F1 F2]].
  rewrite length_replicate in F1, F2. replace (length v + (n - length v)) with n in F1, F2 by lia.
  rewrite take_ge in F1 by lia. rewrite take_ge in F2 by lia. rewrite E1, fmap_replicate in F1.
  rewrite E2, !fmap_replicate in F2. simpl in F1, F2.
  assert (fill_nulls (n - length v) r' (length v) = line_row n s line) as Heq.
  { unfold line_row. fold v. destruct (fill_nulls _ _ _). simpl in *. by rewrite F1, F2. }
  split; [done|]. rewrite <- Heq. by split.
Qed.

(** ** Finding a line in the buffer *)

(** A line of the stream: not empty, without newlines and zero bytes, and neither
    of the two indicators. *)
Record line_ok (s : csvstate) (line : list Z) : Prop := {
  lo_nonempty : line ≠ [];
  lo_chars : Forall (λ c, c ≠ NL ∧ c ≠ NUL) line;
  lo_error : strncaseeq (length (error_indicator s)) line (error_indicator s) = false;
  lo_done : strncaseeq (length (done_indicator s)) line (done_indicator s) = false
}.

Definition flat (ls : list (list Z)) : list Z := concat ((λ l, l ++ [NL]) <$> ls).

Lemma flat_cons line ls : flat (line :: ls) = line ++ NL :: flat ls.
Proof. unfold flat. simpl. by rewrite <- app_assoc. Qed.

Lemma find_newline_line line rest : Forall (λ c, c ≠ NL ∧ c ≠ NUL) line →
  find_newline (line ++ NL :: rest) = Some (length line).
Proof.
  induction 1 as [|c line [H1 H2] Hl IH]; [done|]. simpl.
  rewrite (proj2 (Z.eqb_neq c NUL)), (proj2 (Z.eqb_neq c NL)) by done. by rewrite IH.
Qed.

Lemma find_newline_none part k : Forall (λ c, c ≠ NL ∧ c ≠ NUL) part →
  find_newline (part ++ replicate k FILLER ++ [NUL]) = None.
Proof.
  induction 1 as [|c part [H1 H2] Hl IH]; simpl.
  - induction k as [|k IHk]; simpl; [done|]. by rewrite IHk.
  - rewrite (proj2 (Z.eqb_neq c NUL)), (proj2 (Z.eqb_neq c NL)) by done. by rewrite IH.
Qed.

(** What is buffered of the lines to come: a part of the first, or all of it. *)
Lemma first_line pend wire line ls : Forall (λ c, c ≠ NL ∧ c ≠ NUL) line →
  pend ++ wire = flat (line :: ls) →
  (∃ x, line = pend ++ x ∧ wire = x ++ NL :: flat ls)
  ∨ (∃ pend', pend = line ++ NL :: pend' ∧ pend' ++ wire = flat ls).
Proof.
  intros Hl Hw. rewrite flat_cons in Hw.
  apply app_eq_inv in Hw as [(x & -> & Hx)|(x & -> & ->)]; [|left; by exists x].
  destruct x as [|c x]; simpl in Hx; [|right; injection Hx as <- ->; by exists x].
  left. exists []. by rewrite !app_nil_r, Hx.
Qed.

(** ** The state between two calls *)

(** The buffer: what was consumed, what is pending, filler, and the zero byte at
    the end. *)
Record buffer (s : csvstate) (pend : list Z) : Prop := {
  bf_layout : ∃ pre k, buf s = pre ++ pend ++ replicate k FILLER ++ [NUL]
    ∧ readidx s = length pre ∧ writeidx s = length pre + length pend ∧ writeidx s + k = BUFSIZE
}.

Definition ts_ok (stamped : bool) (t : wrapper_ts_gen_state) : Prop :=
  match t with
  | DONT_KNOW => True
  | GENERATING => stamped = false
  | NOT_GENERATING => False
  end.

(** The fields of the private state that never change. *)
Definition same_config (s s' : csvstate) : Prop :=
  column_delimiters s' = column_delimiters s ∧ default_delimiters s' = default_delimiters s
  ∧ error_indicator s' = error_indicator s ∧ done_indicator s' = done_indicator s.

Record idle (n : nat) (stamped : bool) (w : wrapperstate Datum) (pend : list Z) : Prop := {
  id_buffer : buffer (udfstate w) pend;
  id_buffered : hasBufferedData w = bool_decide (pend ≠ []);
  id_width : returnTupleLength w = n ∧ wide n (returnTuple w, returnTupleIsNull w) ∧ 0 < n;
  id_delims : length (column_delimiters (udfstate w)) = n;
  id_ts : ts_ok stamped (tsState w);
  id_clear : hasTuple w = false;
  id_ready : connectionReady w = true ∧ timeoutExpired w = false
}.

(** Whether a line has a timestamp, its last column. *)
Definition has_stamp (n : nat) (s : csvstate) (line : list Z) : bool :=
  match (line_row n s line).1 !! (n - 1) with Some (Some _) => true | _ => false end.

(** The row that goes out for a line at time [clock]. *)
Definition stamped_row (n : nat) (s : csvstate) (clock : Datum) (line : list Z) : row :=
  if has_stamp n s line then line_row n s line
  else set_col (line_row n s line) (n - 1) (Some clock, false).

Lemma skip_none k b r c : b !! r = Some c → c ≠ NL ∧ c ≠ NUL → skip_blank k b r = r.
Proof.
  intros Hb [H1 H2]. destruct k; simpl; [done|]. rewrite Hb.
  by rewrite (proj2 (Z.eqb_neq c NL)), (proj2 (Z.eqb_neq c NUL)) by done.
Qed.

Lemma put_app a b c d i : i = length a → length b = length d → put (a ++ b ++ c) i d = Ok (a ++ d ++ c).
Proof.
  intros -> Hb. unfold put. rewrite !length_app, decide_True by lia.
  assert (drop (length a + length d) (a ++ b ++ c) = c) as ->.
  { rewrite app_assoc, drop_app_length'; [done|]. rewrite length_app. lia. }
  by rewrite take_app_length.
Qed.

Lemma compact_ok s pend : buffer s pend →
  ∃ s', compact_buffer BUFSIZE true s = Ok s' ∧ buffer s' pend ∧ readidx s' = 0 ∧ same_config s s'
    ∧ tuplecount s' = tuplecount s.
Proof.
  intros [(pre & k & Hb & Hr & Hw & Hk)]. unfold compact_buffer. cbn [negb andb]. eexists. split; [done|].
  split; [|by repeat split]. split. exists [], (k + length pre). unfold with_buf.
  cbn [buf readidx writeidx]. rewrite Hw, Hr.
  replace (length pre + length pend - length pre) with (length pend) by lia.
  split; [|simpl; lia]. rewrite app_nil_l, Hb, drop_app_length, take_app_length.
  rewrite take_app_length. f_equal.
  rewrite (drop_app_ge pend) by lia.
  assert (drop (BUFSIZE - length pend) (drop (length pend) (pre ++ pend ++ replicate k FILLER ++ [NUL])) = [NUL]) as ->.
  { rewrite drop_drop. replace (length pend + (BUFSIZE - length pend)) with (length (pre ++ pend ++ replicate k FILLER))
      by (rewrite !length_app, length_replicate; lia).
    rewrite (app_assoc pend (replicate k FILLER)), (app_assoc pre (pend ++ replicate k FILLER)), drop_app_length; done. }
  do 2 f_equal. lia.
Qed.

(** ** Reading *)

Local Abbreviation fill_buffer := (fill_buffer BUFSIZE true).

Lemma same_config_refl s : same_config s s.
Proof. by repeat split. Qed.

Lemma same_config_trans s1 s2 s3 : same_config s1 s2 → same_config s2 s3 → same_config s1 s3.
Proof. intros (?&?&?&?) (?&?&?&?). repeat split; congruence. Qed.

Lemma compacted w pend n stamped : idle n stamped w pend →
  ∃ s, (if BUFSIZE - 50 <? writeidx (udfstate w) then compact_buffer BUFSIZE true (udfstate w) else Ok (udfstate w)) = Ok s
    ∧ buffer s pend ∧ same_config (udfstate w) s ∧ idle n stamped (with_udf w s) pend
    ∧ (writeidx s = BUFSIZE → 50 < BUFSIZE → length pend = BUFSIZE).
Proof.
  intros [Hb Hbuf Hw Hd Ht Hc Hr]. destruct (Nat.ltb_spec (BUFSIZE - 50) (writeidx (udfstate w))) as [Hlt|Hge].
  - destruct (compact_ok (udfstate w) pend Hb) as (s & -> & Hs & H0 & Hcfg & _). exists s. split; [done|].
    split; [done|]. split; [done|]. split.
    + constructor; try done. simpl. by rewrite (proj1 Hcfg).
    + destruct Hs as [(pre & k & _ & Hr0 & Hw0 & _)]. intros E _. lia.
  - exists (udfstate w). split; [done|]. split; [done|]. split; [apply same_config_refl|].
    split; [by destruct w|]. lia.
Qed.

(** Bytes stored at the write position. *)
Lemma store_ok s pend d : buffer s pend → writeidx s + length d ≤ BUFSIZE →
  ∃ b, put (buf s) (writeidx s) d = Ok b ∧ buffer (with_buf s b (readidx s) (writeidx s + length d)) (pend ++ d).
Proof.
  intros [(pre & k & Hb & Hr & Hw & Hk)] Hd. rewrite Hb.
  assert (replicate k FILLER = replicate (length d) FILLER ++ replicate (k - length d) FILLER) as Hrep.
  { rewrite <- replicate_add. f_equal. lia. }
  rewrite Hrep. rewrite <- (app_assoc (replicate (length d) FILLER)), (app_assoc pre pend).
  rewrite put_app with (d := d) by (rewrite ?length_app, ?length_replicate; lia).
  eexists. split; [done|]. split. exists pre, (k - length d). unfold with_buf. cbn [buf readidx writeidx].
  split; [by rewrite <- !app_assoc|]. split; [done|]. rewrite length_app. lia.
Qed.

Lemma take_drop_length {A : Type} m (l : list A) : l = take m l ++ drop (length (take m l)) l.
Proof.
  rewrite length_take. destruct (Nat.le_gt_cases m (length l)).
  - by rewrite Nat.min_l, take_drop by done.
  - by rewrite Nat.min_r, (take_ge l), drop_all, app_nil_r by lia.
Qed.

Lemma fill_buffer_ok n stamped w pend a wire : idle n stamped w pend → a ≠ Broken → 50 < BUFSIZE →
  ∃ r w1 wire1 d, fill_buffer w a wire = Ok (r, w1, wire1) ∧ wire = d ++ wire1
    ∧ idle n stamped w1 (pend ++ d) ∧ same_config (udfstate w) (udfstate w1)
    ∧ match r with
      | None => mode w1 = mode w ∧ (∀ k, a = Got (S k) → wire = [] ∨ d ≠ [] ∨ length pend = BUFSIZE)
                ∧ (∀ k, a = Got (S k) → wire = [] → pend ≠ [])
      | Some b => b = true ∧ mode w1 = MODE_DONE ∧ pend = [] ∧ ∃ k, a = Got k ∧ (k ≠ 0 → wire = [])
      end.
Proof.
  intros Hi Ha HB. unfold CSV.fill_buffer. destruct (compacted w pend n stamped Hi) as (s & -> & Hs & Hcfg & Hi' & Hfull).
  cbn [cbind]. pose proof (id_buffered _ _ _ _ Hi') as Hbuf.
  destruct (decide (writeidx s = BUFSIZE)) as [Hw|Hw].
  { exists None, (with_udf w s), wire, []. rewrite app_nil_r. split_and!; try done; [eauto|].
    intros k _ _ ->. specialize (Hfull Hw HB). simpl in Hfull. lia. }
  destruct a as [k| |]; [| |done].
  2: { exists None, (with_udf w s), wire, []. rewrite app_nil_r. by split_and!. }
  set (d := take (min k (BUFSIZE - writeidx s)) wire).
  assert (wire = d ++ drop (length d) wire) as Hsplit.
  { apply take_drop_length. }
  assert (length d ≤ BUFSIZE - writeidx s) as Hdl by (unfold d; rewrite length_take; lia).
  assert (writeidx s ≤ BUFSIZE) as Hwle by (destruct Hs as [(pre & k0 & _ & _ & _ & ?)]; lia).
  assert (∀ k', Got k = Got (S k') → d = [] → wire = []) as Hempty.
  { intros k' [= ->] Hd0. apply (f_equal length) in Hd0. unfold d in Hd0. rewrite length_take in Hd0.
    apply length_zero_iff_nil. cbn [length] in Hd0. lia. }
  destruct d as [|c d'] eqn:Ed.
  - rewrite Hbuf. destruct (bool_decide (pend ≠ [])) eqn:Ep; simpl.
    + apply bool_decide_eq_true in Ep. exists None, (with_udf w s), wire, []. rewrite app_nil_r.
      split_and!; try done. intros k' E. left. by apply (Hempty k').
    + apply bool_decide_eq_false in Ep. assert (pend = []) as -> by (by destruct pend; [|destruct Ep]).
      eexists (Some true), _, wire, []. split; [done|]. split; [done|]. split; [|split; [done|]].
      * by destruct Hi'.
      * split_and!; try done. exists k. split; [done|]. destruct k as [|k']; [done|]. intros _. by apply (Hempty k').
  - rewrite <- Ed in *. destruct (store_ok s pend d Hs ltac:(lia)) as (b & -> & Hb). cbn [cbind].
    eexists None, _, _, d. split; [done|]. split; [done|]. split; [|split; [|split_and!]].
    + destruct Hi'. constructor; try done. simpl. symmetry. apply bool_decide_eq_true. rewrite Ed. by destruct pend.
    + eapply same_config_trans; [done|]. by repeat split.
    + done.
    + intros k' _. right; left. by rewrite Ed.
    + intros k' _ ->. by destruct d.
Qed.
(** ** Taking a line *)

(** What the clearinghouse does with a tuple before the next call. *)
Definition consumed (w : wrapperstate Datum) : wrapperstate Datum :=
  with_flags w false false (doneWithProbe w) (hasBufferedData w).

Definition starts_line (pend : list Z) : Prop := ∀ c, pend !! 0 = Some c → c ≠ NL ∧ c ≠ NUL.

Lemma stamp_ok n stamped w s line clock tv :
  returnTupleLength w = n → 0 < n → (returnTuple w, returnTupleIsNull w) = line_row n s line →
  wide n (line_row n s line) → has_stamp n s line = stamped → ts_ok stamped (tsState w) →
  ∃ w', stamp w clock tv = Ok (true, w') ∧ (returnTuple w', returnTupleIsNull w') = stamped_row n s clock line
    ∧ ts_ok stamped (tsState w')
    ∧ ∃ t wk, w' = with_row (with_ts w t wk) (returnTuple w') (returnTupleIsNull w').
Proof.
  intros Hn H0 Hr [W1 W2] Hst Hts. unfold stamped_row. rewrite Hst.
  assert (∀ t wk, tuple_has_timestamp (with_ts w t wk) = Ok stamped) as Hhas.
  { intros t wk. unfold tuple_has_timestamp, with_ts. cbn [returnTuple returnTupleLength]. rewrite Hn.
    unfold has_stamp in Hst. rewrite <- Hr in Hst, W1. cbn [fst] in Hst, W1.
    destruct (lookup_lt_is_Some_2 (returnTuple w) (n - 1)) as [d Hd]; [lia|]. rewrite Hd in Hst |- *.
    rewrite <- Hst. by destruct d. }
  pose proof (Hhas (tsState w) (wakeup_time w)) as H1.
  replace (with_ts w (tsState w) (wakeup_time w)) with w in H1 by (by destruct w).
  assert (∀ t wk, let w2 := gen_timestamp_field (with_ts w t wk) clock in
    (returnTuple w2, returnTupleIsNull w2) = set_col (line_row n s line) (n - 1) (Some clock, false)) as Hgen.
  { intros t wk. rewrite <- Hr. unfold set_col. simpl. by rewrite Hn. }
  unfold stamp. rewrite H1. cbn [cbind]. destruct (tsState w) eqn:Et; [|simpl in Hts|done].
  - destruct stamped; rewrite ?Et.
    + rewrite H1. exists w. split; [done|]. rewrite Et. split_and!; try done.
      exists (tsState w), (wakeup_time w). by destruct w.
    + unfold ask_for_punct_timeout. cbn [tsState with_ts].
      replace (with_ts (with_ts w GENERATING (wakeup_time w)) GENERATING (Some (tv.1 + CSV_PUNCT_INTERVAL_SEC, tv.2)%Z))
        with (with_ts w GENERATING (Some (tv.1 + CSV_PUNCT_INTERVAL_SEC, tv.2)%Z)) by done.
      rewrite Hhas. cbn [cbind]. eexists. split; [done|]. split; [apply Hgen|]. split; [done|].
      by eexists _, _.
  - subst stamped. rewrite Et, H1, Hts. eexists. split; [done|].
    split; [apply (Hgen (tsState w) (wakeup_time w))|]. simpl. rewrite Et. split; [done|].
    exists (tsState w), (wakeup_time w). by destruct w.
Qed.
Lemma skip_blank_ok k b r pend suf pre : b = pre ++ pend ++ suf → r = length pre → k = length pend →
  starts_line pend → skip_blank k b r = r.
Proof.
  intros -> -> -> Hs. destruct pend as [|c pend]; [done|].
  apply (skip_none _ _ _ c); [by rewrite lookup_app_r, Nat.sub_diag by lia|by apply Hs].
Qed.

Lemma take_tuple_ok n stamped w line pend clock tv :
  idle n stamped w (line ++ NL :: pend) → line_ok (udfstate w) line → starts_line pend →
  has_stamp n (udfstate w) line = stamped →
  ∃ w', take_tuple input binding w (length line) clock tv = Ok (true, true, w')
    ∧ (returnTuple w', returnTupleIsNull w') = stamped_row n (udfstate w) clock line
    ∧ hasTuple w' = true ∧ mode w' = mode w ∧ buffer (udfstate w') pend
    ∧ same_config (udfstate w) (udfstate w') ∧ hasBufferedData w' = hasBufferedData w
    ∧ idle n stamped (with_flags w' false false (doneWithProbe w') (bool_decide (pend ≠ []))) pend.
Proof.
  intros [Hb Hbuf [Hn [Hw H0]] Hd Ht Hc Hr] [L1 L2 L3 L4] Hs Hst.
  destruct Hb as [(pre & k & Eb & Er & Ew & Ek)]. unfold take_tuple.
  rewrite Eb, Er, drop_app_length, <- (app_assoc line), take_app_length.
  change (line ++ (NL :: pend) ++ replicate k FILLER ++ [NUL])
    with (line ++ [NL] ++ (pend ++ replicate k FILLER ++ [NUL])).
  rewrite (app_assoc pre line), put_app with (d := [NUL]) by (rewrite ?length_app; done).
  cbn [cbind]. rewrite L3, L4, Hn.
  destruct (row_of_line n (udfstate w) (returnTuple w, returnTupleIsNull w) line Hw Hd)
    as (r' & col & out & -> & Hout & Hfill & Hwide). cbn [cbind]. rewrite <- (app_assoc pre line), put_app by done.
  cbn [cbind]. rewrite Hfill.
  match goal with |- context [stamp ?x clock tv] => set (w1 := x) end.
  assert ((returnTuple w1, returnTupleIsNull w1) = line_row n (udfstate w) line) as Hrow by (by destruct (line_row _ _ _)).
  destruct (stamp_ok n stamped w1 (udfstate w) line clock tv Hn H0 Hrow Hwide Hst Ht)
    as (w2 & -> & Hrow2 & Hts2 & t & wk & Hw2).
  cbn [cbind negb]. rewrite Ew. rewrite (app_assoc pre out), (app_assoc (pre ++ out) [NUL]).
  rewrite (skip_blank_ok _ _ _ pend (replicate k FILLER ++ [NUL]) ((pre ++ out) ++ [NUL]));
    [|done|by rewrite !length_app, Hout; simpl; lia|rewrite length_app; simpl; lia|done].
  assert (wide n (returnTuple w2, returnTupleIsNull w2)) as Hwide2.
  { rewrite Hrow2. unfold stamped_row. destruct (has_stamp _ _ _); [done|by apply set_col_wide]. }
  eexists. split; [done|]. split; [exact Hrow2|]. split; [done|]. rewrite Hw2.
  split; [done|].
  match goal with |- buffer ?s _ ∧ _ => assert (buffer s pend) as Hb' end.
  { split. exists ((pre ++ out) ++ [NUL]), k. split_and!; [done|..]; simpl; rewrite !length_app in *; simpl in *; lia. }
  split; [done|]. split; [by repeat split|]. split; [done|].
  split; try done. rewrite Hw2 in Hts2. exact Hts2.
Qed.
(** ** A call *)

Lemma values_config s s' fuel n col rest : same_config s s' → values fuel n s' col rest = values fuel n s col rest.
Proof.
  intros (E1 & E2 & _). assert (∀ c, delims_at s' c = delims_at s c) as Hd.
  { intros c. unfold delims_at. by rewrite E1, E2. }
  revert col rest. induction fuel as [|fuel IH]; intros col rest; [done|]. simpl. rewrite Hd.
  repeat case_match; rewrite ?IH; done.
Qed.

Lemma line_row_config s s' n line : same_config s s' → line_row n s' line = line_row n s line.
Proof. intros H. unfold line_row. by rewrite (values_config s s'). Qed.

Lemma has_stamp_config s s' n line : same_config s s' → has_stamp n s' line = has_stamp n s line.
Proof. intros H. unfold has_stamp. by rewrite (line_row_config s s'). Qed.

Lemma stamped_row_config s s' n c line : same_config s s' → stamped_row n s' c line = stamped_row n s c line.
Proof. intros H. unfold stamped_row. by rewrite (has_stamp_config s s'), (line_row_config s s'). Qed.

Lemma line_ok_config s s' line : same_config s s' → line_ok s line → line_ok s' line.
Proof. intros (_ & _ & E3 & E4) [L1 L2 L3 L4]. split; [done|done|by rewrite E3|by rewrite E4]. Qed.

(** The lines to come: each fits the buffer, and either all have a timestamp or
    none. *)
Definition lines_ok (n : nat) (stamped : bool) (s : csvstate) (ls : list (list Z)) : Prop :=
  Forall (λ l, line_ok s l ∧ has_stamp n s l = stamped ∧ length l < BUFSIZE) ls.

Lemma starts_line_ok n stamped s pend wire ls : lines_ok n stamped s ls → pend ++ wire = flat ls → starts_line pend.
Proof.
  intros Hl Hp c Hc. destruct pend as [|c' pend]; [done|]. injection Hc as ->.
  destruct Hl as [|line ls [[Hne Hch _ _] _] _]; [done|]. rewrite flat_cons in Hp.
  destruct line as [|c1 line]; [done|]. injection Hp as -> _. by inversion Hch.
Qed.

Definition row_out (w : wrapperstate Datum) : row := (returnTuple w, returnTupleIsNull w).

Lemma next_tuple_ok n stamped w s pend wire ls clock tv :
  idle n stamped w pend → same_config s (udfstate w) → lines_ok n stamped s ls → pend ++ wire = flat ls →
  ∃ w', next_tuple input binding w clock tv = Ok (true, w') ∧ mode w' = mode w ∧ same_config s (udfstate w')
    ∧ ((hasTuple w' = false ∧ idle n stamped w' pend
        ∧ (∀ line ls', ls = line :: ls' → length pend ≤ length line))
       ∨ ∃ line ls' pend', ls = line :: ls' ∧ hasTuple w' = true ∧ row_out w' = stamped_row n s clock line
         ∧ idle n stamped (consumed w') pend' ∧ pend' ++ wire = flat ls').
Proof.
  intros Hi Hcfg Hl Hp. unfold next_tuple. pose proof (id_buffered _ _ _ _ Hi) as Hbuf. rewrite Hbuf.
  destruct (id_buffer _ _ _ _ Hi) as [(pre & k & Eb & Er & Ew & Ek)].
  destruct (bool_decide (pend ≠ [])) eqn:Ep; cycle 1.
  { apply bool_decide_eq_false in Ep. assert (pend = []) as -> by (by destruct pend; [|destruct Ep]).
    cbn [cbind negb]. rewrite decide_True by (simpl in Ew; lia).
    eexists. split; [done|]. split; [done|]. split; [done|]. left.
    split; [apply (id_clear _ _ _ _ Hi)|]. split; [by destruct Hi|]. simpl. lia. }
  apply bool_decide_eq_true in Ep. destruct ls as [|line ls].
  { destruct pend; done. }
  pose proof Hl as Hl0. apply Forall_cons in Hl as [(Hok & Hst & Hlen) Hl].
  assert (drop (readidx (udfstate w)) (buf (udfstate w)) = pend ++ replicate k FILLER ++ [NUL]) as Hdrop.
  { by rewrite Eb, Er, drop_app_length. }
  destruct (first_line pend wire line ls (lo_chars _ _ Hok) Hp) as [(x & -> & ->)|(pend' & -> & Hp')].
  - rewrite Hdrop, find_newline_none by (apply (proj1 (proj1 (Forall_app _ _ _) (lo_chars _ _ Hok)))).
    cbn [cbind negb]. rewrite decide_False by (destruct pend; [done|simpl in Ew; lia]).
    exists w. split; [done|]. split; [done|]. split; [done|]. left. split; [apply (id_clear _ _ _ _ Hi)|].
    split; [done|]. intros ? ? [= <- <-]. rewrite length_app. lia.
  - rewrite Hdrop, <- app_assoc. cbn [app]. rewrite find_newline_line by apply (lo_chars _ _ Hok).
    rewrite length_app in Ew. cbn [length] in Ew.
    rewrite (proj2 (Nat.leb_le _ _)) by lia.
    destruct (take_tuple_ok n stamped w line pend' clock tv Hi) as (w' & -> & Hrow & Ht & Hm & Hb & Hc & Hbd & Hid);
      [by eapply line_ok_config|by apply (starts_line_ok n stamped s pend' wire ls)|by rewrite (has_stamp_config s)|].
    cbn [cbind negb]. rewrite (stamped_row_config s) in Hrow by done.
    assert (hasBufferedData w' = true) as Hb1 by (by rewrite Hbd, Hbuf).
    assert (same_config s (udfstate w')) as Hcfg' by (by eapply same_config_trans).
    destruct Hb as [(pre' & k' & _ & Er' & Ew' & _)].
    case_decide as Hrw.
    + assert (pend' = []) as -> by (apply length_zero_iff_nil; lia).
      eexists. split; [done|]. split; [done|]. split; [done|]. right. by exists line, ls, [].
    + assert (pend' ≠ []) as Hne by (intros ->; simpl in Ew'; lia). rewrite bool_decide_eq_true_2 in Hid by done.
      exists w'. split; [done|]. split; [done|]. split; [done|]. right. exists line, ls, pend'.
      split_and!; try done. unfold consumed. by rewrite Hb1.
Qed.
(** What [read] may answer: some bytes, none for now, but no error. *)
Definition sane (a : answer) : Prop := match a with Got k => 0 < k | Again => True | Broken => False end.

Local Abbreviation csv_next := (csv_next BUFSIZE true input binding).

Lemma csv_next_ok n stamped w s pend wire ls a clock tv :
  50 < BUFSIZE → idle n stamped w pend → same_config s (udfstate w) → lines_ok n stamped s ls →
  pend ++ wire = flat ls → sane a →
  ∃ w' wire', csv_next w a wire clock tv = Ok (true, w', wire') ∧ same_config s (udfstate w')
    ∧ ((mode w' = MODE_DONE ∧ hasTuple w' = false ∧ ls = [] ∧ wire' = [])
       ∨ (mode w' = mode w ∧ hasTuple w' = false
          ∧ (∃ pend', idle n stamped w' pend' ∧ pend' ++ wire' = flat ls)
          ∧ length wire' ≤ length wire ∧ (a ≠ Again → length wire' < length wire))
       ∨ ∃ line ls' pend', mode w' = mode w ∧ ls = line :: ls' ∧ hasTuple w' = true
          ∧ row_out w' = stamped_row n s clock line
          ∧ idle n stamped (consumed w') pend' ∧ pend' ++ wire' = flat ls' ∧ length wire' ≤ length wire).
Proof.
  intros HB Hi Hcfg Hl Hp Ha. unfold CSV.csv_next. destruct (id_ready _ _ _ _ Hi) as [-> ->].
  assert (a ≠ Broken) as Hbr by (by intros ->).
  destruct (fill_buffer_ok n stamped w pend a wire Hi Hbr HB) as (r & w1 & wire1 & d & -> & Hd & Hi1 & Hc1 & Hr).
  cbn [cbind]. assert (same_config s (udfstate w1)) as Hcfg1 by (by eapply same_config_trans).
  assert (length wire = length d + length wire1) as Hlen by (by rewrite Hd, length_app).
  destruct r as [b|].
  - destruct Hr as (-> & Hm & -> & k & -> & Hw). exists w1, wire1. split; [done|]. split; [done|]. left.
    split; [done|]. split; [apply (id_clear _ _ _ _ Hi1)|]. simpl in Hp.
    assert (wire = []) as ->.
    { apply Hw. simpl in Ha. lia. }
    destruct ls as [|line ls]; [|by rewrite flat_cons in Hp; destruct line]. split; [done|]. by destruct d, wire1.
  - destruct Hr as (Hm & Hprog & Hend).
    assert ((pend ++ d) ++ wire1 = flat ls) as Hp1 by (by rewrite <- app_assoc, <- Hd).
    destruct (next_tuple_ok n stamped w1 s (pend ++ d) wire1 ls clock tv Hi1 Hcfg1 Hl Hp1)
      as (w2 & -> & Hm2 & Hc2 & [(Ht & Hi2 & Hshort)|(line & ls' & pend' & -> & Ht & Hrow & Hi2 & Hp2)]).
    + cbn [cbind]. exists w2, wire1. split; [done|]. split; [done|]. right; left.
      split; [congruence|]. split; [done|]. split; [by exists (pend ++ d)|]. split; [lia|]. intros Hna.
      destruct a as [[|k]| |]; [simpl in Ha; lia| |done|done].
      destruct d as [|c d]; [|simpl in Hlen; lia]. exfalso. rewrite app_nil_r in *.
      destruct ls as [|line ls].
      { specialize (Hend k eq_refl). destruct pend, wire; [by apply Hend|done..]. }
      specialize (Hshort line ls eq_refl). apply Forall_cons in Hl as [(_ & _ & Hlt) _].
      destruct (Hprog k eq_refl) as [->|[?|?]]; [|done|lia].
      rewrite app_nil_r in Hp. apply (f_equal length) in Hp. rewrite flat_cons, length_app in Hp. simpl in Hp. lia.
    + cbn [cbind]. exists w2, wire1. split; [done|]. split; [done|]. right; right.
      exists line, ls', pend'. split_and!; try done; [congruence|lia].
Qed.
(** ** Overlapping copies *)

(** The call compacts the buffer, and more bytes are unread than were consumed:
    the regions of [memcpy] overlap. *)
Definition overlaps (w : wrapperstate Datum) : bool :=
  let s := udfstate w in
  negb (timeoutExpired w) && connectionReady w && (BUFSIZE - 50 <? writeidx s) && (readidx s <? writeidx s - readidx s).

(** That is the only call in which [overlap_ok] matters. *)
Lemma csv_next_overlap overlap_ok w a wire clock tv :
  CSV.csv_next BUFSIZE overlap_ok input binding w a wire clock tv
  = if negb overlap_ok && overlaps w then Fail Undefined else csv_next w a wire clock tv.
Proof.
  unfold CSV.csv_next, overlaps. destruct (timeoutExpired w); [by rewrite andb_false_r|].
  destruct (connectionReady w); [|by rewrite andb_false_r]. unfold fill_buffer. cbn [negb andb].
  destruct (BUFSIZE - 50 <? writeidx (udfstate w)); [|by rewrite andb_false_r]. unfold compact_buffer.
  by destruct overlap_ok, (readidx _ <? _).
Qed.

(** ** A whole stream *)

(** The calls of [csv_next], each with what [read] answers and the time, until
    the wrapper is done: the tuples with their times, the last wrapper and
    what was not read. *)
Fixpoint run_calls (overlap_ok : bool) (w : wrapperstate Datum) (calls : list (answer * Datum * (Z * Z))) (wire : list Z)
    : cres (list (Datum * row) * wrapperstate Datum * list Z) :=
  match calls with
  | [] => Ok ([], w, wire)
  | (a, clock, tv) :: calls' =>
      let! (ok, w1, wire1) := CSV.csv_next BUFSIZE overlap_ok input binding w a wire clock tv in
      let got := if hasTuple w1 then [(clock, row_out w1)] else [] in
      if negb ok then Ok (got, w1, wire1)
      else match mode w1 with
           | MODE_DONE => Ok (got, consumed w1, wire1)
           | _ => let! (out, w2, wire2) := run_calls overlap_ok (consumed w1) calls' wire1 in Ok (got ++ out, w2, wire2)
           end
  end.

Lemma run_calls_overlap overlap_ok calls w wire :
  run_calls overlap_ok w calls wire = run_calls true w calls wire
  ∨ overlap_ok = false ∧ run_calls overlap_ok w calls wire = Fail Undefined
    ∧ ∃ calls1 c calls2 out w1 wire1, calls = calls1 ++ c :: calls2
        ∧ run_calls overlap_ok w calls1 wire = Ok (out, w1, wire1) ∧ overlaps w1 = true.
Proof.
  revert w wire. induction calls as [|[[a clock] tv] calls IH]; intros w wire; [by left|]. cbn [run_calls].
  pose proof (csv_next_overlap overlap_ok w a wire clock tv) as E.
  destruct (negb overlap_ok && overlaps w) eqn:Eo.
  - right. apply andb_true_iff in Eo as [Eo Ew]. apply negb_true_iff in Eo as ->. rewrite E. split; [done|]. split; [done|].
    by exists [], (a, clock, tv), calls, [], w, wire.
  - rewrite E. destruct (csv_next w a wire clock tv) as [[[ok w1] wire1]|e] eqn:En; cbn [cbind]; [|by left].
    destruct ok; cbn [negb]; [|by left].
    assert (mode w1 = MODE_DONE ∨ mode w1 ≠ MODE_DONE) as [Hm|Hm] by (destruct (mode w1); (by left) || (by right)); [rewrite Hm; by left|].
    destruct (IH (consumed w1) wire1) as [->|(-> & Er & calls1 & c & calls2 & out & w2 & wire2 & -> & E1 & Ho)]; [by left|].
    right. split; [done|]. split; [rewrite Er; by destruct (mode w1)|].
    exists ((a, clock, tv) :: calls1), c, calls2, ((if hasTuple w1 then [(clock, row_out w1)] else []) ++ out), w2, wire2.
    split; [done|]. split; [|done]. cbn [run_calls]. rewrite E. cbn [cbind negb]. rewrite E1. by destruct (mode w1).
Qed.

(** The calls in which something arrives, the end of the stream included. *)
Definition moving (calls : list (answer * Datum * (Z * Z))) : nat :=
  length (filter (λ c, c.1.1 ≠ Again) calls).

Definition rows_of (n : nat) (s : csvstate) (out : list (Datum * row)) (ls : list (list Z)) : Prop :=
  Forall2 (λ o line, o.2 = stamped_row n s o.1 line) out ls.

Lemma consumed_idle n stamped w pend : idle n stamped w pend → idle n stamped (consumed w) pend.
Proof. by intros []. Qed.

Lemma run_calls_ok n stamped s calls w pend wire ls :
  50 < BUFSIZE → idle n stamped w pend → same_config s (udfstate w) → lines_ok n stamped s ls →
  pend ++ wire = flat ls → Forall (λ c, sane c.1.1) calls → mode w ≠ MODE_DONE →
  ∃ out w' wire' k, run_calls true w calls wire = Ok (out, w', wire') ∧ rows_of n s out (take k ls)
    ∧ (length wire + length ls < moving calls → mode w' = MODE_DONE ∧ length ls ≤ k ∧ wire' = []).
Proof.
  intros HB. revert w pend wire ls. induction calls as [|[[a clock] tv] calls IH]; intros w pend wire ls Hi Hcfg Hl Hp Hs Hm.
  { exists [], w, wire, 0. split; [done|]. split; [constructor|]. unfold moving. simpl. lia. }
  apply Forall_cons in Hs as [Ha Hs]. cbn [run_calls].
  destruct (csv_next_ok n stamped w s pend wire ls a clock tv HB Hi Hcfg Hl Hp Ha)
    as (w1 & wire1 & -> & Hc1 & [(Hd & Ht & -> & ->)|[(Hm1 & Ht & (pend' & Hi1 & Hp1) & Hle & Hlt)
       |(line & ls' & pend' & Hm1 & -> & Ht & Hrow & Hi1 & Hp1 & Hle)]]); cbn [cbind negb]; rewrite Ht.
  - rewrite Hd. exists [], (consumed w1), [], 0. split; [done|]. split; [constructor|]. intros _. split; [done|].
    simpl. split; [lia|done].
  - destruct (IH (consumed w1) pend' wire1 ls) as (out & w2 & wire2 & k & E & Hrows & Hdone); try done.
    { by apply consumed_idle. } { simpl. congruence. }
    exists out, w2, wire2, k. split; [|split; [done|]].
    + rewrite E. by destruct (mode w1) eqn:Em.
    + intros Hmov. apply Hdone. unfold moving in *. destruct a; [| |done].
      * specialize (Hlt ltac:(done)). rewrite filter_cons_True in Hmov by done. simpl in Hmov. lia.
      * rewrite filter_cons_False in Hmov by (simpl; tauto). lia.
  - destruct (IH (consumed w1) pend' wire1 ls') as (out & w2 & wire2 & k & E & Hrows & Hdone); try done.
    { by apply Forall_cons in Hl as [_ ?]. } { simpl. congruence. }
    exists ((clock, row_out w1) :: out), w2, wire2, (S k). split; [|split].
    + rewrite E. by destruct (mode w1) eqn:Em.
    + simpl. by constructor.
    + intros Hmov. simpl in *. destruct Hdone as (? & ? & ?); [|split_and!; [done|lia|done]].
      unfold moving in *. destruct a; [| |done].
      * rewrite filter_cons_True in Hmov by done. simpl in Hmov. lia.
      * rewrite filter_cons_False in Hmov by (simpl; tauto). lia.
Qed.

(** A wrapper state as the clearinghouse sets it up, for a stream of [n]
    columns. *)
Definition fresh (n : nat) (w : wrapperstate Datum) : Prop :=
  returnTupleLength w = n ∧ 0 < n ∧ length (returnTuple w) = n ∧ length (returnTupleIsNull w) = n
  ∧ hasBufferedData w = false ∧ returnTupleIsPunct w = false ∧ timeoutExpired w = false.

(** The state when data is there. *)
Definition ready (w : wrapperstate Datum) : wrapperstate Datum :=
  mkWs (udfstate w) (mode w) (returnTupleLength w) (returnTuple w) (returnTupleIsNull w) (returnTupleIsPunct w)
    (hasTuple w) (doneWithProbe w) (hasBufferedData w) (tsState w) (wakeup_time w) (error_message w) true
    (timeoutExpired w) (fd w).

Lemma csv_init_idle n stamped info conn w0 w :
  fresh n w0 → csv_init BUFSIZE true n info conn w0 = (true, w) →
  idle n stamped (ready w) [] ∧ mode (ready w) ≠ MODE_DONE.
Proof.
  intros (Hn & H0 & H1 & H2 & Hb & Hp & Ht) Hw. unfold csv_init in Hw. cbn [negb] in Hw.
  match goal with H : context [mkCsv ?b 0 0 0 0 ?d ?x ?y ?z] |- _ => set (s := mkCsv b 0 0 0 0 d x y z) in H end.
  assert (buffer s []) as Hbs.
  { split. exists [], BUFSIZE. unfold s. simpl. split_and!; done. }
  assert (length (column_delimiters s) = n) as Hd by (unfold s; simpl; by rewrite length_fmap, length_seq).
  cbn [fd with_ts with_flags with_udf] in Hw.
  destruct (fd w0 <? 0)%Z eqn:Ef; cbn [fd with_mode] in Hw.
  - destruct (conn <? 0)%Z; [done|]. injection Hw as <-. split; [|done]. split; try done.
  - rewrite Ef in Hw. injection Hw as <-. split; [|done]. split; try done.
Qed.

(** C10: Framing of a CSV stream.  Take lines that are not empty, contain no
    newline or zero byte, do not start with one of the two indicators and fit
    the buffer, such that all or none of them carry a timestamp.  However
    [read] splits the bytes over the calls of [csv_next], as long as it does
    not fail, the tuples that come out are the rows of the first lines, in
    order, each with the values of its columns (or the value it is bound to),
    nulls behind them, and the time of the call when the line has no timestamp;
    when enough calls bring data, all lines come out and the wrapper is done.
    Where [memcpy] may not be given overlapping regions there is one other
    outcome: a call reaches a buffer that it compacts while more bytes are
    unread than were consumed, and that copy is undefined. *)
Theorem csv_frames_lines overlap_ok n stamped info conn w0 w ls calls :
  50 < BUFSIZE → fresh n w0 → csv_init BUFSIZE true n info conn w0 = (true, w) →
  lines_ok n stamped (udfstate w) ls → Forall (λ c, sane c.1.1) calls →
  (∃ out w' wire' k, run_calls overlap_ok (ready w) calls (flat ls) = Ok (out, w', wire')
    ∧ rows_of n (udfstate w) out (take k ls)
    ∧ (length (flat ls) + length ls < moving calls → mode w' = MODE_DONE ∧ length ls ≤ k ∧ wire' = []))
  ∨ overlap_ok = false ∧ run_calls overlap_ok (ready w) calls (flat ls) = Fail Undefined
    ∧ ∃ calls1 c calls2 out w1 wire1, calls = calls1 ++ c :: calls2
        ∧ run_calls overlap_ok (ready w) calls1 (flat ls) = Ok (out, w1, wire1) ∧ overlaps w1 = true.
Proof.
  intros HB Hf Hw Hl Hs. destruct (csv_init_idle n stamped info conn w0 w Hf Hw) as [Hi Hm].
  destruct (run_calls_overlap overlap_ok calls (ready w) (flat ls)) as [->|?]; [left|by right].
  by apply (run_calls_ok n stamped (udfstate w) calls (ready w) [] (flat ls) ls HB Hi).
Qed.
End spec.

(** ** A small stream *)

(** Two columns; the values are the texts of the columns, a buffer of 60. *)
Definition text_input (_ : nat) (l : list Z) : option (list Z) * bool := (Some l, false).
Definition unbound (_ : nat) : option (list Z) := None.
Definition two_columns : wrapperstate (list Z) :=
  mkWs (mkCsv [] 0 0 0 0 [] [] [] []) MODE_INIT 2 [None; None] [SPACE; SPACE] false false false false DONT_KNOW
    None None false false 3.
Definition two_columns_open : wrapperstate (list Z) := (csv_init 60 true 2 [] 3 two_columns).2.

Lemma two_columns_ok : fresh 2 two_columns ∧ csv_init 60 true 2 [] 3 two_columns = (true, two_columns_open).
Proof. repeat split; simpl; lia. Defined.

(** The text "a", "bc" arrives in pieces of two bytes. *)
Definition two_lines : list (list Z) := [[97%Z]; [98%Z; 99%Z]].
Definition nine_calls : list (answer * list Z * (Z * Z)) :=
  (Again, [48%Z], (0%Z, 0%Z)) :: replicate 8 (Got 2, [49%Z], (1%Z, 0%Z)).

Lemma two_lines_ok : lines_ok 60 text_input unbound 2 false (udfstate two_columns_open) two_lines.
Proof.
  repeat constructor; try (by vm_compute); try (simpl; lia).
Defined.

Lemma csv_frames_lines_witness :
  50 < 60 ∧ lines_ok 60 text_input unbound 2 false (udfstate two_columns_open) two_lines
  ∧ let run := run_calls 60 text_input unbound false (ready two_columns_open) in
    (∃ out w' wire' k, run nine_calls (flat two_lines) = Ok (out, w', wire')
      ∧ rows_of text_input unbound 2 (udfstate two_columns_open) out (take k two_lines)
      ∧ (length (flat two_lines) + length two_lines < moving nine_calls →
         mode w' = MODE_DONE ∧ length two_lines ≤ k ∧ wire' = []))
    ∨ false = false ∧ run nine_calls (flat two_lines) = Fail Undefined
      ∧ ∃ calls1 c calls2 out w1 wire1, nine_calls = calls1 ++ c :: calls2
          ∧ run calls1 (flat two_lines) = Ok (out, w1, wire1) ∧ overlaps 60 w1 = true.
Proof.
  split; [lia|]. split; [exact two_lines_ok|].
  apply (csv_frames_lines 60 text_input unbound false 2 false [] 3 two_columns two_columns_open two_lines nine_calls);
    [lia|apply two_columns_ok|apply two_columns_ok|exact two_lines_ok|].
  repeat constructor; simpl; lia.
Defined.

(** The two rows that come out, and the end; no copy overlaps. *)
Example two_lines_run :
  match run_calls 60 text_input unbound false (ready two_columns_open) nine_calls (flat two_lines) with
  | Ok (out, w, wire) => (out, mode w, wire)
      = ([([49%Z], ([Some [97%Z]; Some [49%Z]], [SPACE; SPACE]));
          ([49%Z], ([Some [98%Z; 99%Z]; Some [49%Z]], [SPACE; SPACE]))], MODE_DONE, [])
  | Fail _ => False
  end.
Proof. vm_compute. reflexivity. Qed.

(** Two lines that arrive at once, the second longer than the first, do overlap. *)
Example overlapping_copy :
  run_calls 60 text_input unbound false (ready two_columns_open) [(Got 60, [49%Z], (1%Z, 0%Z)); (Got 60, [49%Z], (1%Z, 0%Z))]
    (flat [[97%Z]; replicate 50 98%Z]) = Fail Undefined.
Proof. vm_compute. reflexivity. Qed.
End CSVSpec.
