(* ===== verification/CsvSafe.v ===== *)
(** * The CSV wrapper is safe on every input

    Whatever bytes arrive, in whatever pieces, no call of [csv_next] leaves the
    buffer or fails its assertion.  The states are those the clearinghouse
    reaches by polling and by timeouts. *)

From S2P Require Import Prelude Csv CsvSpec.

Module CSVSafe.
Import CSV CSVSpec.

Section safe.
Context {Datum : Type}.
Context (BUFSIZE : nat).
Context (input : nat → list Z → option Datum * bool) (binding : nat → option (list Z)).

Local Abbreviation csv_next := (csv_next BUFSIZE true input binding).
Local Abbreviation buffer := (buffer BUFSIZE).

(** ** Bounds of the buffer *)

(** The positions are in order and inside, and behind the written bytes there is
    filler and a zero byte. *)
Definition bounded (s : csvstate) : Prop :=
  readidx s ≤ writeidx s ∧ writeidx s ≤ BUFSIZE
  ∧ drop (writeidx s) (buf s) = replicate (BUFSIZE - writeidx s) FILLER ++ [NUL] ∧ length (buf s) = S BUFSIZE.

Lemma bounded_buffer s : bounded s ↔ ∃ pend, buffer s pend.
Proof.
  split.
  - intros (H1 & H2 & H3 & H4). exists (take (writeidx s - readidx s) (drop (readidx s) (buf s))).
    split. exists (take (readidx s) (buf s)), (BUFSIZE - writeidx s). rewrite !length_take, length_drop.
    split_and!; [|lia..]. rewrite <- H3.
    replace (writeidx s) with (readidx s + (writeidx s - readidx s)) at 2 by lia.
    by rewrite <- drop_drop, take_drop, take_drop.
  - intros [pend [(pre & k & Hb & Hr & Hw & Hk)]]. split_and!; [lia|lia| |].
    + rewrite Hb, Hw, <- length_app, app_assoc, drop_app_length. do 2 f_equal. rewrite length_app. lia.
    + rewrite Hb, !length_app, length_replicate. simpl. lia.
Qed.

Lemma put_bounded s i d b r : bounded s → put (buf s) i d = Ok b → i + length d ≤ writeidx s → r ≤ writeidx s →
  bounded (with_buf s b r (writeidx s)).
Proof.
  intros (H1 & H2 & H3 & H4) Hp Hi Hr. unfold put in Hp. case_decide as Hl; [|done]. injection Hp as <-.
  split; [done|]. split; [done|]. cbn [buf with_buf writeidx]. split.
  - rewrite app_assoc, drop_app_ge by (rewrite length_app, length_take; lia).
    rewrite length_app, length_take, Nat.min_l by lia. rewrite drop_drop, <- H3. f_equal. lia.
  - rewrite !length_app, length_take, length_drop. lia.
Qed.

Lemma find_newline_lookup l t : find_newline l = Some t → l !! t = Some NL.
Proof.
  revert t. induction l as [|c l IH]; intros t; [done|]. simpl. destruct (c =? NUL)%Z; [done|].
  destruct (Z.eqb_spec c NL) as [->|_]; [by intros [= <-]|].
  destruct (find_newline l) as [t'|]; [|done]. intros [= <-]. by apply IH.
Qed.

(** A line that is found ends before the write position. *)
Lemma find_newline_bounded s t : bounded s → find_newline (drop (readidx s) (buf s)) = Some t →
  readidx s + t < writeidx s.
Proof.
  intros (H1 & H2 & H3 & H4) Hf. apply find_newline_lookup in Hf. rewrite lookup_drop in Hf.
  destruct (Nat.lt_ge_cases (readidx s + t) (writeidx s)) as [Hlt|Hge]; [done|exfalso].
  replace (readidx s + t) with (writeidx s + (readidx s + t - writeidx s)) in Hf by lia.
  rewrite <- lookup_drop, H3 in Hf. apply lookup_app_Some in Hf as [Hf|[_ Hf]].
  - apply lookup_replicate in Hf as [? _]. done.
  - by apply list_lookup_singleton_Some in Hf as [_ ?].
Qed.

Lemma skip_blank_bounded k b r w : r + k ≤ w → r ≤ skip_blank k b r ≤ w.
Proof.
  revert r. induction k as [|k IH]; intros r H; simpl; [lia|].
  destruct (b !! r) as [c|]; [|lia]. destruct (_ || _); [|lia]. specialize (IH (S r)). lia.
Qed.

Lemma bounded_ext s s' : buf s' = buf s → readidx s' = readidx s → writeidx s' = writeidx s → bounded s → bounded s'.
Proof. unfold bounded. by intros -> -> ->. Qed.

(** ** The invariant *)

(** [n] is the number of columns. *)
Record sound (n : nat) (w : wrapperstate Datum) : Prop := {
  so_bounded : bounded (udfstate w);
  so_width : returnTupleLength w = n ∧ wide n (returnTuple w, returnTupleIsNull w) ∧ 0 < n;
  so_delims : length (column_delimiters (udfstate w)) = n;
  so_timer : wakeup_time w ≠ None ∨ timeoutExpired w = true → tsState w = GENERATING
}.

Lemma has_timestamp_total n (w : wrapperstate Datum) : returnTupleLength w = n → length (returnTuple w) = n → 0 < n →
  ∃ b, tuple_has_timestamp w = Ok b.
Proof.
  intros Hn Hl H0. unfold tuple_has_timestamp. rewrite Hn.
  destruct (lookup_lt_is_Some_2 (returnTuple w) (n - 1)) as [d ->]; [lia|]. by eexists.
Qed.

Lemma stamp_safe n w clock tv : sound n w →
  ∃ ok w', stamp w clock tv = Ok (ok, w') ∧ sound n w' ∧ udfstate w' = udfstate w ∧ timeoutExpired w' = timeoutExpired w.
Proof.
  intros Hs. pose proof Hs as [Hb (Hn & [H1 H2] & H0) Hd Ht]. cbn [fst snd] in H1, H2.
  destruct (has_timestamp_total n w Hn H1 H0) as [b Hhas].
  assert (∀ t wk, tuple_has_timestamp (with_ts w t wk) = Ok b) as Hhas' by (intros; done).
  assert (∀ t wk, (wk ≠ None ∨ timeoutExpired w = true → t = GENERATING) →
    sound n (gen_timestamp_field (with_ts w t wk) clock)) as Hgen.
  { intros t wk Hwk. split; try done. split; [done|]. split; [|done]. split; simpl; by rewrite length_insert. }
  unfold stamp. rewrite Hhas. cbn [cbind]. destruct (tsState w) eqn:Et.
  - destruct b; [rewrite Et, Hhas; by eexists true, w|]. unfold ask_for_punct_timeout. cbn [tsState with_ts].
    change (tuple_has_timestamp _) with (tuple_has_timestamp w). rewrite Hhas. cbn [cbind].
    eexists _, _. split; [done|]. split; [|done].
    apply (Hgen GENERATING (Some (tv.1 + CSV_PUNCT_INTERVAL_SEC, tv.2)%Z)). done.
  - rewrite Et, Hhas. cbn [cbind]. destruct b; eexists _, _; (split; [done|]).
    + by split.
    + split; [|done]. specialize (Hgen (tsState w) (wakeup_time w)).
      replace (with_ts w (tsState w) (wakeup_time w)) with w in Hgen by (by destruct w).
      apply Hgen. by rewrite Et.
  - rewrite Et, Hhas. cbn [cbind]. destruct b; eexists _, _; (split; [done|]); (split; [|done]); [done|].
    split; try done; by rewrite <- Et in Ht.
Qed.
(** ** The parts of a call *)

Lemma sound_udf n w s : sound n w → bounded s → column_delimiters s = column_delimiters (udfstate w) → sound n (with_udf w s).
Proof. intros [Hb Hw Hd Ht] Hs Hc. split; try done. simpl. by rewrite Hc. Qed.

Lemma put_ok b i d : i + length d ≤ length b → ∃ b', put b i d = Ok b' ∧ length b' = length b.
Proof.
  intros H. unfold put. rewrite decide_True by done. eexists. split; [done|].
  rewrite !length_app, length_take, length_drop. lia.
Qed.

Lemma take_tuple_safe n w t clock tv : sound n w → readidx (udfstate w) + t < writeidx (udfstate w) →
  ∃ ok goes w', take_tuple input binding w t clock tv = Ok (ok, goes, w') ∧ sound n w'
    ∧ timeoutExpired w' = timeoutExpired w.
Proof.
  intros Hs Ht. pose proof Hs as [Hb (Hn & Hw & H0) Hd Htm]. pose proof Hb as (H1 & H2 & H3 & H4). unfold take_tuple.
  set (line := take t _). assert (length line = t) as Hline by (unfold line; rewrite length_take, length_drop; lia).
  destruct (put_ok (buf (udfstate w)) (readidx (udfstate w) + t) [NUL]) as (b1 & Hp1 & Hl1); [simpl; lia|].
  rewrite Hp1. cbn [cbind]. pose proof (put_bounded _ _ _ _ (readidx (udfstate w)) Hb Hp1 ltac:(simpl; lia) ltac:(lia)) as Hb1.
  assert (bounded (with_buf (udfstate w) b1 (readidx (udfstate w) + (t + 1)) (writeidx (udfstate w)))) as Hb1'.
  { eapply put_bounded; [done|done|simpl; lia|lia]. }
  destruct (strncaseeq _ line (error_indicator _)); [|destruct (strncaseeq _ line (done_indicator _))].
  1, 2: by eexists _, _, _.
  rewrite Hn. destruct (row_of_line input binding n (udfstate w) (returnTuple w, returnTupleIsNull w) line Hw Hd)
    as (r' & col & out & -> & Hout & Hfill & Hwide). cbn [cbind].
  destruct (put_ok b1 (readidx (udfstate w)) out) as (b2 & Hp2 & Hl2); [lia|]. rewrite Hp2. cbn [cbind].
  assert (∀ r, r ≤ writeidx (udfstate w) → bounded (with_buf (udfstate w) b2 r (writeidx (udfstate w)))) as Hb2.
  { intros r Hr. apply (put_bounded _ _ _ _ r Hb1 Hp2); [simpl; lia|done]. }
  match goal with |- context [stamp ?x clock tv] => set (w1 := x) end.
  assert (sound n w1) as Hs1.
  { split; try done; [by apply Hb2|]. split; [done|]. split; [|done]. unfold w1. rewrite Hfill. done. }
  destruct (stamp_safe n w1 clock tv Hs1) as (ok & w2 & -> & Hs2 & Hu & Hto). cbn [cbind].
  destruct ok; cbn [negb]; eexists _, _, _; (split; [done|]); (split; [|done]); [|done].
  destruct Hs2 as [_ Hw2 _ Ht2]. split; try done.
  - rewrite Hu. apply (Hb2 (skip_blank _ _ _)), skip_blank_bounded. lia.
  - by rewrite Hu.
Qed.

Lemma fill_buffer_safe n w a wire : sound n w →
  ∃ r w1 wire1, fill_buffer BUFSIZE true w a wire = Ok (r, w1, wire1) ∧ sound n w1
    ∧ timeoutExpired w1 = timeoutExpired w.
Proof.
  intros Hs. pose proof Hs as [Hb (Hn & Hw & H0) Hd Ht]. unfold fill_buffer.
  assert (∃ s, (if BUFSIZE - 50 <? writeidx (udfstate w) then compact_buffer BUFSIZE true (udfstate w) else Ok (udfstate w)) = Ok s
    ∧ bounded s ∧ column_delimiters s = column_delimiters (udfstate w)) as (s & -> & Hbs & Hc).
  { destruct (_ <? _); [|by exists (udfstate w)]. apply bounded_buffer in Hb as [pend Hb].
    destruct (compact_ok BUFSIZE _ _ Hb) as (s & -> & Hs' & _ & (Hc & _) & _). exists s. split; [done|].
    split; [apply bounded_buffer; by exists pend|done]. }
  cbn [cbind]. assert (sound n (with_udf w s)) as Hs1 by (by apply sound_udf).
  case_decide as Hf; [by eexists _, _, _|]. destruct a as [k| |].
  - set (d := take _ wire). pose proof Hbs as (H1 & H2 & H3 & H4).
    assert (writeidx s + length d ≤ BUFSIZE) as Hdl by (unfold d; rewrite length_take; lia).
    destruct d as [|c d'] eqn:Ed.
    + destruct (negb _); eexists _, _, _; (split; [done|]); (split; [|done]); [|done]. by destruct Hs1.
    + rewrite <- Ed in *. apply bounded_buffer in Hbs as [pend Hbs].
      destruct (store_ok BUFSIZE s pend d Hbs Hdl) as (b & -> & Hb'). cbn [cbind].
      eexists _, _, _. split; [done|]. split; [|done]. destruct Hs1 as [_ ? ? ?]. split; try done.
      apply bounded_buffer. by eexists.
  - by eexists _, _, _.
  - eexists _, _, _. split; [done|]. split; [|done]. by destruct Hs1.
Qed.

Lemma next_tuple_safe n w clock tv : sound n w →
  ∃ ok w', next_tuple input binding w clock tv = Ok (ok, w') ∧ sound n w' ∧ timeoutExpired w' = timeoutExpired w.
Proof.
  intros Hs. unfold next_tuple.
  match goal with |- context [cbind ?m _] => assert (∃ ok goes w', m = Ok (ok, goes, w') ∧ sound n w'
    ∧ timeoutExpired w' = timeoutExpired w) as (ok & goes & w' & -> & Hs' & Hto) end.
  { destruct (hasBufferedData w); [|by eexists _, _, _].
    destruct (find_newline _) as [t|] eqn:Hf; [|by eexists _, _, _].
    pose proof (find_newline_bounded _ _ (so_bounded _ _ Hs) Hf) as Ht.
    rewrite (proj2 (Nat.leb_le _ _)) by lia. by apply take_tuple_safe. }
  cbn [cbind]. destruct goes; cbn [negb]; eexists _, _; (split; [done|]); [|done].
  case_decide; [|done]. split; [|done]. by destruct Hs'.
Qed.

(** ** The states the clearinghouse reaches *)

(** A poll tells whether the connection is ready; when a timeout has expired the
    clearinghouse sets the flag for one call. *)
Definition polled (w : wrapperstate Datum) (rdy : bool) : wrapperstate Datum :=
  mkWs (udfstate w) (mode w) (returnTupleLength w) (returnTuple w) (returnTupleIsNull w) (returnTupleIsPunct w)
    (hasTuple w) (doneWithProbe w) (hasBufferedData w) (tsState w) (wakeup_time w) (error_message w) rdy
    (timeoutExpired w) (fd w).
Definition expired (w : wrapperstate Datum) (b : bool) (wake : option (Z * Z)) : wrapperstate Datum :=
  mkWs (udfstate w) (mode w) (returnTupleLength w) (returnTuple w) (returnTupleIsNull w) (returnTupleIsPunct w)
    (hasTuple w) (doneWithProbe w) (hasBufferedData w) (tsState w) wake (error_message w) (connectionReady w)
    b (fd w).

Inductive reachable (overlap_ok : bool) (n : nat) (info : list (string * list Z)) : wrapperstate Datum → Prop :=
  | reach_init conn w0 w : fresh n w0 → wakeup_time w0 = None →
      csv_init BUFSIZE true n info conn w0 = (true, w) → reachable overlap_ok n info w
  | reach_call w rdy a wire clock tv ok w' wire' : reachable overlap_ok n info w →
      CSV.csv_next BUFSIZE overlap_ok input binding (polled w rdy) a wire clock tv = Ok (ok, w', wire') →
      reachable overlap_ok n info (consumed w')
  | reach_timeout w a wire clock tv ok w' wire' : reachable overlap_ok n info w → wakeup_time w ≠ None →
      CSV.csv_next BUFSIZE overlap_ok input binding (expired w true None) a wire clock tv = Ok (ok, w', wire') →
      reachable overlap_ok n info (consumed (expired w' false (wakeup_time w'))).

(** What the strict [memcpy] reaches the other reaches too. *)
Lemma reachable_strict overlap_ok n info w : reachable overlap_ok n info w → reachable true n info w.
Proof.
  induction 1 as [|???????? ? _ IH E|???????? _ IH Hk E]; [by eapply reach_init| |];
    rewrite csv_next_overlap in E; (destruct (_ && _); [done|]); [by eapply reach_call|by eapply reach_timeout].
Qed.

Lemma csv_next_sound n w a wire clock tv : sound n w →
  ∃ ok w' wire', csv_next w a wire clock tv = Ok (ok, w', wire') ∧ sound n w'
    ∧ timeoutExpired w' = timeoutExpired w ∧ (timeoutExpired w = true → ok = true ∧ wire' = wire
      ∧ hasTuple w' = true ∧ returnTupleIsPunct w' = true ∧ returnTuple w' !! (n - 1) = Some (Some clock)
      ∧ buf (udfstate w') = buf (udfstate w) ∧ wakeup_time w' = Some (tv.1 + 1, tv.2)%Z).
Proof.
  intros Hs. pose proof Hs as [Hb (Hn & [H1 H2] & H0) Hd Ht]. cbn [fst snd] in H1, H2. unfold CSV.csv_next.
  destruct (timeoutExpired w) eqn:Et.
  - specialize (Ht (or_intror eq_refl)). unfold gen_punct_tuple. rewrite Ht. cbn [cassert cbind].
    eexists _, _, _. split; [done|]. split; [|split; [done|intros _]].
    + split; try done. split; [done|]. split; [|done]. split; simpl; by rewrite length_insert.
    + split_and!; try done. simpl. rewrite Hn, list_lookup_insert_eq by lia. done.
  - match goal with |- context [cbind ?m _] => assert (∃ r w1 wire1, m = Ok (r, w1, wire1) ∧ sound n w1
      ∧ timeoutExpired w1 = timeoutExpired w) as (r & w1 & wire1 & -> & Hs1 & Hto) end.
    { destruct (connectionReady w); [|by eexists _, _, _]. by apply fill_buffer_safe. }
    cbn [cbind]. destruct r as [b|]; [eexists _, _, _; split; [done|]; split; [done|]; split; [congruence|done]|].
    destruct (next_tuple_safe n w1 clock tv Hs1) as (ok & w2 & -> & Hs2 & Hto2). cbn [cbind].
    eexists _, _, _. split; [done|]. split; [done|]. split; [congruence|done].
Qed.

Lemma reachable_sound n info w : reachable true n info w → sound n w ∧ timeoutExpired w = false.
Proof.
  induction 1 as [conn w0 w Hf Hk Hw|w rdy a wire clock tv ok w' wire' _ [IH IHt] Hc
    |w a wire clock tv ok w' wire' _ [IH IHt] Hk Hc].
  - pose proof Hf as (Hn & H0 & H1 & H2 & Hb & Hp & Ht).
    destruct (csv_init_idle BUFSIZE n true info conn w0 w Hf Hw) as [[Ib Iu Iw Id It Ic [Ir Ie]] _].
    split; [|done]. split; [apply bounded_buffer; by eexists|done|done|].
    intros [Hk'|He]; [|by simpl in Ie; congruence]. exfalso. apply Hk'.
    unfold csv_init in Hw. cbn [negb] in Hw. by repeat case_match; simplify_eq/=.
  - assert (sound n (polled w rdy)) as Hs by (by destruct IH).
    destruct (csv_next_sound n _ a wire clock tv Hs) as (? & ? & ? & E & Hs' & Hto & _).
    rewrite E in Hc. injection Hc as -> -> ->. split; [by destruct Hs'|]. simpl in *. congruence.
  - assert (sound n (expired w true None)) as Hs.
    { destruct IH as [? ? ? Ht]. split; try done. intros _. apply Ht. by left. }
    destruct (csv_next_sound n _ a wire clock tv Hs) as (? & ? & ? & E & Hs' & Hto & _).
    rewrite E in Hc. injection Hc as -> -> ->. split; [|done]. destruct Hs' as [? ? ? Ht']. split; try done.
    intros _. apply Ht'. by right.
Qed.

(** C30: Safety of the CSV wrapper.  In every state the clearinghouse reaches,
    whatever bytes the network brings, in whatever pieces, with whatever errors
    of [read], with or without data, a call of [csv_next] comes back: no access
    leaves the buffer or the row, the positions stay in order and within
    [BUFSIZE], and behind the written bytes there is filler and the zero byte
    that ends every search.  The one exception is the [memcpy] of
    [compact_buffer]: where it may not be given overlapping regions, the calls
    that compact a buffer with more bytes unread than consumed are undefined,
    and no others are.  When a timeout it asked for expires, the assertion
    of [gen_punct_tuple] holds, and the call gives a punctuation tuple with the
    time, touches neither buffer nor connection and asks for the next one. *)
Theorem csv_next_safe overlap_ok n info w : reachable overlap_ok n info w →
  let csv_next := CSV.csv_next BUFSIZE overlap_ok input binding in
  (∀ rdy a wire clock tv,
     if negb overlap_ok && overlaps BUFSIZE (polled w rdy) then csv_next (polled w rdy) a wire clock tv = Fail Undefined
     else ∃ ok w' wire', csv_next (polled w rdy) a wire clock tv = Ok (ok, w', wire') ∧ bounded (udfstate w'))
  ∧ (wakeup_time w ≠ None → ∀ a wire clock tv, ∃ w',
     csv_next (expired w true None) a wire clock tv = Ok (true, w', wire) ∧ bounded (udfstate w')
     ∧ buf (udfstate w') = buf (udfstate w) ∧ hasTuple w' = true ∧ returnTupleIsPunct w' = true
     ∧ returnTuple w' !! (n - 1) = Some (Some clock) ∧ wakeup_time w' = Some (tv.1 + 1, tv.2)%Z).
Proof.
  intros Hr. apply reachable_strict, reachable_sound in Hr as [Hs Hto]. intros next. split.
  - intros rdy a wire clock tv. assert (sound n (polled w rdy)) as Hs' by (by destruct Hs).
    unfold next. rewrite csv_next_overlap. destruct (_ && _); [done|].
    destruct (csv_next_sound n _ a wire clock tv Hs') as (ok & w' & wire' & E & [Hb' _ _ _] & _ & _).
    by exists ok, w', wire'.
  - intros Hk a wire clock tv. assert (sound n (expired w true None)) as Hs'.
    { destruct Hs as [? ? ? Ht]. split; try done. intros _. apply Ht. by left. }
    destruct (csv_next_sound n _ a wire clock tv Hs') as (ok & w' & wire' & E & [Hb' _ _ _] & _ & Hx).
    destruct (Hx eq_refl) as (-> & -> & ? & ? & ? & ? & ?). exists w'. unfold next. rewrite csv_next_overlap.
    unfold overlaps. cbn [timeoutExpired expired negb andb]. by rewrite andb_false_r.
Qed.
End safe.

Lemma csv_next_safe_witness :
  reachable 60 text_input unbound false 2 [] two_columns_open
  ∧ let next := csv_next 60 false text_input unbound in
    (∀ rdy a wire clock tv,
       if overlaps 60 (polled two_columns_open rdy) then next (polled two_columns_open rdy) a wire clock tv = Fail Undefined
       else ∃ ok w' wire', next (polled two_columns_open rdy) a wire clock tv = Ok (ok, w', wire') ∧ bounded 60 (udfstate w'))
    ∧ (wakeup_time two_columns_open ≠ None → ∀ a wire clock tv, ∃ w',
       next (expired two_columns_open true None) a wire clock tv = Ok (true, w', wire)
       ∧ bounded 60 (udfstate w') ∧ buf (udfstate w') = buf (udfstate two_columns_open) ∧ hasTuple w' = true
       ∧ returnTupleIsPunct w' = true ∧ returnTuple w' !! (2 - 1) = Some (Some clock)
       ∧ wakeup_time w' = Some (tv.1 + 1, tv.2)%Z).
Proof.
  assert (reachable 60 text_input unbound false 2 [] two_columns_open) as Hr.
  { eapply reach_init; [apply two_columns_ok|reflexivity|apply two_columns_ok]. }
  split; [exact Hr|]. apply (csv_next_safe 60 text_input unbound false 2 [] two_columns_open Hr).
Defined.
End CSVSafe.
