(* ===== verification/Eddy.v ===== *)
(** * The continuous-query eddy: its state

    [src/src/backend/executor/nodeCQEddy.c], [nodeEddy.c], [nodeScanModule.c] and
    [initFromBaseTuple] of [intermediateTuple.c].

    The eddy routes every tuple through the operators of all queries.  A tuple
    carries three sets of bits: the operators it has yet to visit, those it has
    visited, and the queries that need it no more.

    Tuples in flight are passed by pointer in the code, and owned by one place
    at a time; here they are values.  The elements of the module stack are
    pointers to modules; a module is known by its position [operator] in the
    array of modules, where [add_planitem_to_eddy] puts it.  Doubles are taken
    through a class of the operations that are used, without laws; the answers
    of [random] and [drand48] are functions from the number of the call. *)

From S2P Require Import Prelude BitArray GSFilter.

Module Eddy.
Import Bit.

Definition TCQMAXQUERIES : nat := GSF.TCQMAXQUERIES.
Definition TCQMAXOPERATORS : nat := 96.
Definition TCQMAXSOURCES : nat := 64.

(** The double arithmetic of the routing policy. *)
Class Double (F : Type) : Type := {
  d_of_Z : Z → F;
  d_0_95 : F;
  dadd : F → F → F;
  dsub : F → F → F;
  dmul : F → F → F;
  ddiv : F → F → F;
  dlt : F → F → bool;
  d_geq : F → F → bool;
  d_zero : F;
  DBL_MAX : F
}.

(** ** Tuples *)

Section tuple.
Context {HT : Type}.

Record IHT : Type := mkIHT {
  t_base_tuples : list (option HT);
  t_sources : BitArray;
  t_ready : BitArray;
  t_done : BitArray;
  t_queriesCompleted : BitArray;
  isAggTuple : bool
}.

Definition with_ready (t : IHT) (r : BitArray) : IHT :=
  mkIHT (t_base_tuples t) (t_sources t) r (t_done t) (t_queriesCompleted t) (isAggTuple t).
Definition with_done (t : IHT) (d : BitArray) : IHT :=
  mkIHT (t_base_tuples t) (t_sources t) (t_ready t) d (t_queriesCompleted t) (isAggTuple t).
Definition with_completed (t : IHT) (c : BitArray) : IHT :=
  mkIHT (t_base_tuples t) (t_sources t) (t_ready t) (t_done t) c (isAggTuple t).

(** [iht] is what the record held before. *)
Definition initFromBaseTuple (iht : IHT) (ht : HT) (sourceID : nat) : IHT :=
  mkIHT (<[sourceID := Some ht]> (for_loop TCQMAXSOURCES (λ i l, <[i := None]> l) (t_base_tuples iht)))
    (BitArraySetBit (BitArrayRealClearAll (t_sources iht) TCQMAXSOURCES) sourceID)
    (BitArrayRealClearAll (t_ready iht) TCQMAXOPERATORS)
    (BitArrayRealClearAll (t_done iht) TCQMAXOPERATORS)
    (BitArraySetAll (t_queriesCompleted iht) TCQMAXQUERIES)
    false.

Definition clearCompletionBits (iht : IHT) (queryIds : list nat) : IHT :=
  with_completed iht (foldl BitArrayClearBit (t_queriesCompleted iht) queryIds).

(** [HeapTupleIsPunct] tests a flag of the tuple's header. *)
Definition ihtIsPunct (HeapTupleIsPunct : HT → bool) (iht : IHT) : bool :=
  existsb (λ o, match o with Some ht => HeapTupleIsPunct ht | None => false end) (t_base_tuples iht).
End tuple.
Arguments IHT : clear implicits.

(** ** Operators

    What the eddy uses of a module: its input and output queue
    ([FJORD_ENQ_INP_PTR], [FJORD_DEQ_OUT_PTR]), [ProcessNextNode],
    [ProcessRemoveQuery], the queries that use it, whether it is an aggregate,
    and whether it holds a tuple ([FSteMContainsTuple]). *)
Class Fjord (M HT : Type) : Type := {
  fjord_enq_inp : M → IHT HT → cres (bool * M);
  ProcessNextNode : M → cres M;
  fjord_deq_out : M → cres (option (IHT HT) * M);
  ProcessRemoveQuery : M → nat → cres (bool * M);
  fjord_usedByQueries : M → list nat;
  isFAgg : M → bool;
  FSteMContainsTuple : M → IHT HT → cres bool
}.

(** A source.  [feed] is what the scan below answers when asked for the next
    tuple: no slot, an empty one, or one with a tuple.  Sources whose columns
    are bound to those of other streams are left out, and with them probes and
    the counters of idle iterations. *)
Record ScanModule (HT F : Type) : Type := mkScan {
  sourceID : nat;
  isStream : bool;
  isDone : bool;
  haveNewTuple : bool;
  slot : option (option HT);
  currentTupleTimestamp : F;
  nodup : bool;
  isRecursivelyFed : bool;
  recurseResult : list HT;
  feed : list (option (option HT));
  tuplesScanned : Z;
  scan_usedByQueries : list nat;
  scan_output : list (IHT HT)
}.
Arguments mkScan {HT F}.
Arguments sourceID {HT F}. Arguments isStream {HT F}. Arguments isDone {HT F}.
Arguments haveNewTuple {HT F}. Arguments slot {HT F}. Arguments currentTupleTimestamp {HT F}.
Arguments nodup {HT F}. Arguments isRecursivelyFed {HT F}. Arguments recurseResult {HT F}.
Arguments feed {HT F}. Arguments tuplesScanned {HT F}. Arguments scan_usedByQueries {HT F}.
Arguments scan_output {HT F}.

(** What leaves the eddy: a tuple for the queries in a set
    ([resultqdest->pub.receiveTuple]), and the end of a query
    ([clear_queue], [FreeQueue]). *)
Inductive event (HT : Type) : Type :=
  | receiveTuple (iht : IHT HT) (whereToSendOutput : BitArray)
  | freeResultQueue (queryid : nat).
Arguments receiveTuple {HT}.
Arguments freeResultQueue {HT}.

Record EddyState (M HT F : Type) : Type := mkEddy {
  modules : list (option M);
  sources : list (option (ScanModule HT F));
  iht : option (IHT HT);
  ihtValid : bool;
  stack : list nat;
  shutdownPending : bool;
  queryIds : list nat;
  queriesToRemove : list nat;
  numqueries : Z;
  operators : list BitArray;
  sourceStems : list BitArray;
  completionMask : list BitArray;
  query_sources : list BitArray;
  weights : list F;
  current_tuples_returned : list F;
  SourceIHT_Table : list (IHT HT);
  total_base_tuples_remaining : Z;
  numTuplesProcessed : Z;
  nrandom : nat;
  ndrand : nat;
  out : list (event HT)
}.
Arguments mkEddy {M HT F}.
Arguments modules {M HT F}. Arguments sources {M HT F}. Arguments iht {M HT F}.
Arguments ihtValid {M HT F}. Arguments stack {M HT F}. Arguments shutdownPending {M HT F}.
Arguments queryIds {M HT F}. Arguments queriesToRemove {M HT F}. Arguments numqueries {M HT F}.
Arguments operators {M HT F}. Arguments sourceStems {M HT F}. Arguments completionMask {M HT F}.
Arguments query_sources {M HT F}. Arguments weights {M HT F}. Arguments current_tuples_returned {M HT F}.
Arguments SourceIHT_Table {M HT F}. Arguments total_base_tuples_remaining {M HT F}.
Arguments numTuplesProcessed {M HT F}. Arguments nrandom {M HT F}. Arguments ndrand {M HT F}.
Arguments out {M HT F}.

(** The settings of the process, and what the random number generators answer. *)
Record config (F : Type) : Type := mkConfig {
  MaxTuplesScannedBeforeQuit : Z;
  enable_smart_routing : bool;
  UseSuppressOutput : bool;
  UseTupleLineage : bool;
  random : nat → nat;
  drand48 : nat → F
}.
Arguments MaxTuplesScannedBeforeQuit {F}. Arguments enable_smart_routing {F}. Arguments UseSuppressOutput {F}.
Arguments UseTupleLineage {F}. Arguments random {F}. Arguments drand48 {F}. Arguments mkConfig {F}.

Section state.
Context {M HT F : Type}.
Local Abbreviation state := (EddyState M HT F).

Definition with_modules (st : state) (m : list (option M)) : state :=
  mkEddy m (sources st) (iht st) (ihtValid st) (stack st) (shutdownPending st) (queryIds st) (queriesToRemove st)
    (numqueries st) (operators st) (sourceStems st) (completionMask st) (query_sources st) (weights st)
    (current_tuples_returned st) (SourceIHT_Table st) (total_base_tuples_remaining st) (numTuplesProcessed st)
    (nrandom st) (ndrand st) (out st).
Definition with_sources (st : state) (s : list (option (ScanModule HT F))) : state :=
  mkEddy (modules st) s (iht st) (ihtValid st) (stack st) (shutdownPending st) (queryIds st) (queriesToRemove st)
    (numqueries st) (operators st) (sourceStems st) (completionMask st) (query_sources st) (weights st)
    (current_tuples_returned st) (SourceIHT_Table st) (total_base_tuples_remaining st) (numTuplesProcessed st)
    (nrandom st) (ndrand st) (out st).
Definition with_iht (st : state) (t : option (IHT HT)) (valid : bool) : state :=
  mkEddy (modules st) (sources st) t valid (stack st) (shutdownPending st) (queryIds st) (queriesToRemove st)
    (numqueries st) (operators st) (sourceStems st) (completionMask st) (query_sources st) (weights st)
    (current_tuples_returned st) (SourceIHT_Table st) (total_base_tuples_remaining st) (numTuplesProcessed st)
    (nrandom st) (ndrand st) (out st).
Definition with_stack (st : state) (s : list nat) : state :=
  mkEddy (modules st) (sources st) (iht st) (ihtValid st) s (shutdownPending st) (queryIds st) (queriesToRemove st)
    (numqueries st) (operators st) (sourceStems st) (completionMask st) (query_sources st) (weights st)
    (current_tuples_returned st) (SourceIHT_Table st) (total_base_tuples_remaining st) (numTuplesProcessed st)
    (nrandom st) (ndrand st) (out st).
Definition with_shutdown (st : state) : state :=
  mkEddy (modules st) (sources st) (iht st) (ihtValid st) (stack st) true (queryIds st) (queriesToRemove st)
    (numqueries st) (operators st) (sourceStems st) (completionMask st) (query_sources st) (weights st)
    (current_tuples_returned st) (SourceIHT_Table st) (total_base_tuples_remaining st) (numTuplesProcessed st)
    (nrandom st) (ndrand st) (out st).
Definition with_queries (st : state) (ids rem : list nat) (n : Z) : state :=
  mkEddy (modules st) (sources st) (iht st) (ihtValid st) (stack st) (shutdownPending st) ids rem
    n (operators st) (sourceStems st) (completionMask st) (query_sources st) (weights st)
    (current_tuples_returned st) (SourceIHT_Table st) (total_base_tuples_remaining st) (numTuplesProcessed st)
    (nrandom st) (ndrand st) (out st).
Definition with_masks (st : state) (ops stems masks qsrc : list BitArray) : state :=
  mkEddy (modules st) (sources st) (iht st) (ihtValid st) (stack st) (shutdownPending st) (queryIds st)
    (queriesToRemove st) (numqueries st) ops stems masks qsrc (weights st)
    (current_tuples_returned st) (SourceIHT_Table st) (total_base_tuples_remaining st) (numTuplesProcessed st)
    (nrandom st) (ndrand st) (out st).
Definition with_stats (st : state) (w c : list F) : state :=
  mkEddy (modules st) (sources st) (iht st) (ihtValid st) (stack st) (shutdownPending st) (queryIds st)
    (queriesToRemove st) (numqueries st) (operators st) (sourceStems st) (completionMask st) (query_sources st) w c
    (SourceIHT_Table st) (total_base_tuples_remaining st) (numTuplesProcessed st) (nrandom st) (ndrand st) (out st).
Definition with_counts (st : state) (remaining processed : Z) : state :=
  mkEddy (modules st) (sources st) (iht st) (ihtValid st) (stack st) (shutdownPending st) (queryIds st)
    (queriesToRemove st) (numqueries st) (operators st) (sourceStems st) (completionMask st) (query_sources st)
    (weights st) (current_tuples_returned st) (SourceIHT_Table st) remaining processed (nrandom st) (ndrand st) (out st).
Definition with_rnd (st : state) (r d : nat) : state :=
  mkEddy (modules st) (sources st) (iht st) (ihtValid st) (stack st) (shutdownPending st) (queryIds st)
    (queriesToRemove st) (numqueries st) (operators st) (sourceStems st) (completionMask st) (query_sources st)
    (weights st) (current_tuples_returned st) (SourceIHT_Table st) (total_base_tuples_remaining st)
    (numTuplesProcessed st) r d (out st).
Definition emit (st : state) (e : event HT) : state :=
  mkEddy (modules st) (sources st) (iht st) (ihtValid st) (stack st) (shutdownPending st) (queryIds st)
    (queriesToRemove st) (numqueries st) (operators st) (sourceStems st) (completionMask st) (query_sources st)
    (weights st) (current_tuples_returned st) (SourceIHT_Table st) (total_base_tuples_remaining st)
    (numTuplesProcessed st) (nrandom st) (ndrand st) (out st ++ [e]).

(** ** The stack of modules, its top first *)

Definition empty (st : state) : bool := match stack st with [] => true | _ => false end.

Definition push (st : state) (p : nat) : cres state :=
  let! _ := cassert (negb (length (stack st) =? TCQMAXOPERATORS)) in
  Ok (with_stack st (p :: stack st)).

Definition pop (st : state) : cres (nat * state) :=
  match stack st with
  | [] => Fail AssertFail
  | p :: s => Ok (p, with_stack st s)
  end.

Definition top (st : state) : cres nat :=
  match stack st with
  | [] => Fail AssertFail
  | p :: _ => Ok p
  end.

Definition numModules (st : state) : nat := length (modules st).
Definition numSources (st : state) : nat := length (sources st).

Definition canRemoveQuery (st : state) : bool := negb (ihtValid st) && empty st.

(** A non-null module of the array. *)
Definition get_module (st : state) (i : nat) : cres M :=
  let! o := access (modules st !! i) in access o.
Definition put_module (st : state) (i : nat) (m : M) : state := with_modules st (<[i := Some m]> (modules st)).
End state.
End Eddy.
