(* ===== verification/EddyLoop.v ===== *)
(** * The continuous-query eddy: routing and the main loop

    The part of [ExecCQEddy] that moves tuples, with dynamic routing
    ([routeCQEddy]; not the static plans and not operator precedence).
    [routeCQEddy] is modelled in two parts: which module runs next, and the
    choice of a source when there is none.  The message queues that the loop
    looks at from time to time ([processControlQ], [processPlanQ]) are left
    out: they change the set of queries between tuples. *)

From S2P Require Import Prelude BitArray GSFilter Eddy.

Module EddyLoop.
Import Bit Eddy.

Section loop.
Context {M HT F : Type} `{!Fjord M HT} `{!Double F}.
(** The timestamp column of a tuple, and two bounds for loops that need not end:
    the repeated choice of a random module and the draining of aggregates. *)
Context (get_timestamp_val : HT → F) (spins drains : nat).

Local Abbreviation state := (EddyState M HT F).
Local Abbreviation scan := (ScanModule HT F).

(** ** The choice of an operator *)

(** [while (!BitArrayBitIsSet(ready, position)) position = ...] *)
Fixpoint next_set (fuel : nat) (ready : BitArray) (position : nat) : cres nat :=
  if BitArrayBitIsSet ready position then Ok position
  else match fuel with
       | O => Fail Diverge
       | S fuel' => next_set fuel' ready ((position + 1) mod TCQMAXOPERATORS)
       end.

(** [None] is the null module. *)
Definition choose_random_module (cfg : config F) (st : state) (ready : BitArray) : cres (option nat * state) :=
  let! position := next_set TCQMAXOPERATORS ready (random cfg (nrandom st) mod TCQMAXOPERATORS) in
  let st1 := with_rnd st (S (nrandom st)) (ndrand st) in
  let! m := access (modules st !! position) in
  Ok ((λ _, position) <$> m, st1).

(** [while ((module = choose_random_module(node, ready)) == NULL);] *)
Fixpoint choose_random (fuel : nat) (cfg : config F) (st : state) (ready : BitArray) : cres (nat * state) :=
  match fuel with
  | O => Fail Diverge
  | S fuel' =>
      let! (m, st1) := choose_random_module cfg st ready in
      match m with
      | Some i => Ok (i, st1)
      | None => choose_random fuel' cfg st1 ready
      end
  end.

Definition is_live (st : state) (i : nat) : bool :=
  match modules st !! i with Some (Some _) => true | _ => false end.

(** The sum over the ready modules among [l]. *)
Fixpoint total_weight (st : state) (ready : BitArray) (l : list nat) (total_wt : F) : cres F :=
  match l with
  | [] => Ok total_wt
  | i :: l' =>
      if is_live st i && BitArrayBitIsSet ready i then
        let! w := access (weights st !! i) in
        total_weight st ready l' (dadd total_wt (ddiv (d_of_Z 1) w))
      else total_weight st ready l' total_wt
  end.

(** The first ready module among [l] where the running sum exceeds the random
    weight. *)
Fixpoint pick_weight (st : state) (ready : BitArray) (l : list nat) (cumulative_wt random_wt : F) : cres (option nat) :=
  match l with
  | [] => Ok None
  | i :: l' =>
      if is_live st i && BitArrayBitIsSet ready i then
        let! w := access (weights st !! i) in
        let c := dadd cumulative_wt (ddiv (d_of_Z 1) w) in
        if dlt random_wt c then Ok (Some i) else pick_weight st ready l' c random_wt
      else pick_weight st ready l' cumulative_wt random_wt
  end.

Definition choose_based_on_selectivity (cfg : config F) (st : state) (ready : BitArray) : cres (nat * state) :=
  let all := seq 0 (numModules st) in
  let! total_wt := total_weight st ready all d_zero in
  let random_wt := dmul (drand48 cfg (ndrand st)) total_wt in
  let st1 := with_rnd st (nrandom st) (S (ndrand st)) in
  let! m := pick_weight st1 ready all d_zero random_wt in
  match m with
  | Some i => Ok (i, st1)
  | None => choose_random spins cfg st1 ready
  end.

(** ** Statistics of the modules *)

Definition increment_current_tuples_returned (st : state) (i : nat) : cres state :=
  let! c := access (current_tuples_returned st !! i) in
  Ok (with_stats st (weights st) (<[i := dadd c (d_of_Z 1)]> (current_tuples_returned st))).

Definition update_weights (st : state) (i : nat) : cres state :=
  let! c := access (current_tuples_returned st !! i) in
  let! w := access (weights st !! i) in
  let w1 := if dlt (d_of_Z 1) c then dadd (dmul w d_0_95) (dmul (d_of_Z 5) (dsub c (d_of_Z 1))) else dmul w d_0_95 in
  let w2 := if dlt w1 (d_of_Z 1) then d_of_Z 1 else w1 in
  Ok (with_stats st (<[i := w2]> (weights st)) (<[i := d_of_Z 0]> (current_tuples_returned st))).

(** ** Routing *)

Inductive choice : Type :=
  | ToModule (i : nat) (mustEnq : bool)
  | FromSource.

(** The module on top of the stack, or a source when there is none. *)
Definition resume (st : state) : cres (choice * state) :=
  if negb (empty st) then let! p := top st in Ok (ToModule p false, st) else Ok (FromSource, st).

Definition route_module (cfg : config F) (st : state) : cres (choice * state) :=
  if ihtValid st then
    let! t := access (iht st) in
    if negb (BitArrayIsAnyCleared (t_queriesCompleted t) TCQMAXQUERIES) then resume (with_iht st (iht st) false)
    else if BitArrayIsAnySet (t_ready t) TCQMAXOPERATORS then
      let! (i, st1) := if enable_smart_routing cfg then choose_based_on_selectivity cfg st (t_ready t)
                       else choose_random spins cfg st (t_ready t) in
      let! st2 := push st1 i in
      Ok (ToModule i true, st2)
    else resume (with_iht st (iht st) false)
  else
    let! st1 := if negb (empty st) then let! (popped, st1) := pop st in update_weights st1 popped else Ok st in
    resume st1.

(** ** Output *)

(** The loop over the queries: the completed set of the tuple, the queries it
    goes to, and whether there are any. *)
Fixpoint output_queries (st : state) (done : BitArray) (ql : list nat) (acc : BitArray * BitArray * bool)
    : cres (BitArray * BitArray * bool) :=
  match ql with
  | [] => Ok acc
  | i :: ql' =>
      let '(completed, where_, need) := acc in
      let! cmask := access (completionMask st !! i) in
      let scratch := BitArrayAnd cmask done (replicate (BASIZE TCQMAXOPERATORS) 0%Z) TCQMAXOPERATORS in
      output_queries st done ql'
        (if BitArrayEqual scratch cmask TCQMAXOPERATORS && negb (BitArrayBitIsSet completed i)
         then (BitArraySetBit completed i, BitArraySetBit where_ i, true) else acc)
  end.

(** The queries of one aggregate. *)
Fixpoint deliver_to (a : M) (t : IHT HT) (qs : list nat) (where_ : BitArray) : cres (M * BitArray) :=
  match qs with
  | [] => Ok (a, where_)
  | q :: qs' =>
      if BitArrayBitIsSet where_ q then
        let! (enqsucc, a1) := fjord_enq_inp a t in
        let! a2 := ProcessNextNode a1 in
        let! _ := cassert enqsucc in
        deliver_to a2 t qs' (BitArrayClearBit where_ q)
      else deliver_to a t qs' where_
  end.

Fixpoint deliverTupleToFAgg (st : state) (t : IHT HT) (l : list nat) (where_ : BitArray) : cres (state * BitArray) :=
  match l with
  | [] => Ok (st, where_)
  | i :: l' =>
      let! o := access (modules st !! i) in
      match o with
      | Some a =>
          if isFAgg a then
            let! (a', where1) := deliver_to a t (fjord_usedByQueries a) where_ in
            deliverTupleToFAgg (put_module st i a') t l' where1
          else deliverTupleToFAgg st t l' where_
      | None => deliverTupleToFAgg st t l' where_
      end
  end.

(** The next result of an aggregate among the modules [l], with the queries it
    is for. *)
Fixpoint getFAggResult (st : state) (l : list nat) (where_ : BitArray) : cres (option (IHT HT) * state * BitArray) :=
  match l with
  | [] => Ok (None, st, where_)
  | i :: l' =>
      let! o := access (modules st !! i) in
      match o with
      | Some a =>
          if isFAgg a then
            let! (r, a1) := fjord_deq_out a in
            let! (r', a') := match r with
                             | Some t => Ok (Some t, a1)
                             | None => let! a2 := ProcessNextNode a1 in fjord_deq_out a2
                             end in
            let st1 := put_module st i a' in
            match r' with
            | None => getFAggResult st1 l' where_
            | Some t =>
                let! b := access (t_base_tuples t !! 0) in
                let! _ := cassert (match b with Some _ => true | None => false end) in
                Ok (Some t, st1,
                    foldl BitArraySetBit (BitArrayClearAll where_ TCQMAXQUERIES) (fjord_usedByQueries a'))
            end
          else getFAggResult st l' where_
      | None => getFAggResult st l' where_
      end
  end.

Definition output (cfg : config F) (st : state) (t : IHT HT) (where_ : BitArray) : state :=
  if UseSuppressOutput cfg then st else emit st (receiveTuple t where_).

Fixpoint drain_FAggs (fuel : nat) (cfg : config F) (st : state) (where_ : BitArray) : cres state :=
  match fuel with
  | O => Fail Diverge
  | S fuel' =>
      let! (r, st1, where1) := getFAggResult st (seq 0 (numModules st)) where_ in
      match r with
      | None => Ok st1
      | Some t => drain_FAggs fuel' cfg (output cfg st1 t where1) where1
      end
  end.

Definition processOutputQ (cfg : config F) (st : state) : cres state :=
  let! t := access (iht st) in
  let where0 := BitArrayClearAll (replicate (BASIZE TCQMAXQUERIES) 0%Z) TCQMAXQUERIES in
  let! (completed, where1, needToOutput) :=
    output_queries st (t_done t) (queryIds st) (t_queriesCompleted t, where0, false) in
  let t1 := with_completed t completed in
  let st1 := with_iht st (Some t1) (ihtValid st) in
  if needToOutput : bool then
    let! (st2, where2) := deliverTupleToFAgg st1 t1 (seq 0 (numModules st1)) where1 in
    drain_FAggs drains cfg (output cfg st2 t1 where2) where2
  else Ok st1.

(** ** Sources *)

(** Builds the tuple into the modules [l]; false when one of them has it. *)
Fixpoint build_into (st : state) (t : IHT HT) (stems : BitArray) (dup : bool) (l : list nat)
    : cres (bool * IHT HT * state) :=
  match l with
  | [] => Ok (true, t, st)
  | i :: l' =>
      if BitArrayBitIsSet stems i then
        let! m := get_module st i in
        let! has := if dup then FSteMContainsTuple m t else Ok false in
        if has : bool then Ok (false, t, st)
        else
          let! (_, m1) := fjord_enq_inp m t in
          let! m2 := ProcessNextNode m1 in
          build_into (put_module st i m2) (with_done t (BitArraySetBit (t_done t) i)) stems dup l'
      else build_into st t stems dup l'
  end.

Definition buildStemsNoDup (st : state) (t : IHT HT) (source : nat) (dup : bool) : cres (bool * IHT HT * state) :=
  let! stems := access (sourceStems st !! source) in
  let! (ok, t1, st1) := build_into st t stems dup (seq 0 TCQMAXOPERATORS) in
  if ok : bool then
    let! ops := access (operators st1 !! source) in
    Ok (true, with_ready t1 (BitArrayClone (t_ready t1) ops TCQMAXOPERATORS), st1)
  else Ok (false, t1, st1).

Definition IsScanModuleDone (s : scan) : bool :=
  match recurseResult s with [] => isDone s | _ => false end.

Definition with_slot (s : scan) (done_ new : bool) (sl : option (option HT)) (rec : list HT)
    (fd : list (option (option HT))) : scan :=
  mkScan (sourceID s) (isStream s) done_ new sl (currentTupleTimestamp s) (nodup s) (isRecursivelyFed s) rec fd
    (tuplesScanned s) (scan_usedByQueries s) (scan_output s).

(** [ExecProcNode] on the scan: the next answer; none when there are no more. *)
Definition getNextTupleIntoSlot (s : scan) : scan :=
  let s1 :=
    if negb (isRecursivelyFed s) then
      let sl := match feed s with [] => None | o :: _ => o end in
      with_slot s (match sl with Some (Some _) => isDone s | _ => if isStream s then isDone s else true end)
        (haveNewTuple s) sl (recurseResult s) (drop 1 (feed s))
    else match recurseResult s with
         | [] => s
         | ht :: rec => with_slot s (isDone s) (haveNewTuple s) (Some (Some ht)) rec (feed s)
         end in
  match slot s1 with
  | Some (Some _) => with_slot s1 (isDone s1) true (slot s1) (recurseResult s1) (feed s1)
  | _ => s1
  end.

Definition with_timestamp (s : scan) (ts : F) : scan :=
  mkScan (sourceID s) (isStream s) (isDone s) (haveNewTuple s) (slot s) ts (nodup s) (isRecursivelyFed s)
    (recurseResult s) (feed s) (tuplesScanned s) (scan_usedByQueries s) (scan_output s).

Definition lookAheadNextTupleTimestamp (s : scan) : cres (F * scan) :=
  if haveNewTuple s then Ok (currentTupleTimestamp s, s)
  else
    let s1 := getNextTupleIntoSlot s in
    if haveNewTuple s1 then
      let! o := access (slot s1) in
      let! ht := access o in
      let result := if isStream s1 then get_timestamp_val ht else d_zero in
      Ok (result, with_timestamp s1 result)
    else Ok (DBL_MAX, s1).

(** The loop over the sources [l]; [best] is the current minimum. *)
Fixpoint choose_source (st : state) (l : list nat) (best : option (nat * F)) : cres (option (nat * F) * state) :=
  match l with
  | [] => Ok (best, st)
  | i :: l' =>
      let! o := access (sources st !! i) in
      match o with
      | None => choose_source st l' best
      | Some s =>
          if isDone s then choose_source st l' best
          else
            let! (cur, s1) := lookAheadNextTupleTimestamp s in
            choose_source (with_sources st (<[i := Some s1]> (sources st))) l'
              (match best with
               | None => Some (i, cur)
               | Some (_, m) => if d_geq m cur then Some (i, cur) else best
               end)
      end
  end.

Definition chooseSourceTimestampOrder (st : state) : cres (nat * state) :=
  let! (best, st1) := choose_source st (seq 0 (numSources st)) None in
  match best with
  | Some (i, _) => Ok (i, st1)
  | None => Fail (Elog "chooseSourceTimestampOrder: Nothing to choose from... this is unexpected!")
  end.

Definition taken (s : scan) (o : IHT HT) : scan :=
  mkScan (sourceID s) (isStream s) (isDone s) false None (currentTupleTimestamp s) (nodup s) (isRecursivelyFed s)
    (recurseResult s) (feed s) (tuplesScanned s + 1) (scan_usedByQueries s) (scan_output s ++ [o]).

(** The source at position [k] of the array. *)
Definition ProcessNextScanModule (cfg : config F) (st : state) (k : nat) (s : scan) : cres state :=
  let put s' st' := with_sources st' (<[k := Some s']> (sources st')) in
  if IsScanModuleDone s then Ok st
  else
    let s1 := if negb (haveNewTuple s) then getNextTupleIntoSlot s else s in
    match slot s1 with
    | Some (Some ht) =>
        let! old := access (SourceIHT_Table st !! sourceID s1) in
        let oiht := initFromBaseTuple old ht (sourceID s1) in
        let! (ok, t, st1) :=
          if UseTupleLineage cfg then buildStemsNoDup st oiht (sourceID s1) (nodup s1) else Ok (true, oiht, st) in
        if negb ok then Ok (put s1 st1)
        else
          let t1 := if UseTupleLineage cfg then clearCompletionBits t (scan_usedByQueries s1) else t in
          let st2 := put (taken s1 t1) st1 in
          Ok (with_counts st2 (total_base_tuples_remaining st2 - 1) (numTuplesProcessed st2))
    | _ => Ok (put s1 st)
    end.

(** ** Removing queries *)

(** [FjordRemoveQuery] of a source. *)
Definition scan_remove (s : scan) (queryid : nat) : bool * scan :=
  let u := GSF.lremovei queryid (GSF.lremovei queryid (scan_usedByQueries s)) in
  (match u with [] => true | _ => false end,
   mkScan (sourceID s) (isStream s) (isDone s) (haveNewTuple s) (slot s) (currentTupleTimestamp s) (nodup s)
     (isRecursivelyFed s) (recurseResult s) (feed s) (tuplesScanned s) u (scan_output s)).

Fixpoint remove_from_modules (ms : list (option M)) (queryid : nat) : cres (list (option M)) :=
  match ms with
  | [] => Ok []
  | None :: ms' => let! r := remove_from_modules ms' queryid in Ok (None :: r)
  | Some m :: ms' =>
      let! (last, m') := ProcessRemoveQuery m queryid in
      let! r := remove_from_modules ms' queryid in
      Ok ((if last : bool then None else Some m') :: r)
  end.

(** One source; the bits of its operators and stems go with it. *)
Definition remove_from_source (queryid i : nat) (st : state) : state :=
  match sources st !! i with
  | Some (Some s) =>
      let '(last, s') := scan_remove s queryid in
      if last : bool then
        let clear l := <[i := BitArrayClearAll (l !!! i) TCQMAXOPERATORS]> l in
        with_masks (with_sources st (<[i := None]> (sources st))) (clear (operators st)) (clear (sourceStems st))
          (completionMask st) (query_sources st)
      else with_sources st (<[i := Some s']> (sources st))
  | _ => st
  end.

Definition remove_query (st : state) (queryid : nat) : cres state :=
  let! ms := remove_from_modules (modules st) queryid in
  let st1 := for_loop (numSources st) (remove_from_source queryid) (with_modules st ms) in
  let clear n l := <[queryid := BitArrayRealClearAll (l !!! queryid) n]> l in
  let st2 := with_masks st1 (operators st1) (sourceStems st1) (clear TCQMAXOPERATORS (completionMask st1))
               (clear TCQMAXSOURCES (query_sources st1)) in
  let st3 := emit st2 (freeResultQueue queryid) in
  Ok (with_queries st3 (GSF.lremovei queryid (queryIds st3)) (queriesToRemove st3) (numqueries st3 - 1)).

Fixpoint remove_queries (st : state) (l newQueriesToRemove : list nat) : cres state :=
  match l with
  | [] => Ok (with_queries st (queryIds st) newQueriesToRemove (numqueries st))
  | q :: l' =>
      if decide (q ∈ queryIds st) then let! st1 := remove_query st q in remove_queries st1 l' newQueriesToRemove
      else remove_queries st l' (q :: newQueriesToRemove)
  end.

Definition processQueryRemove (st : state) : cres state :=
  if negb (canRemoveQuery st) then Ok st
  else match queriesToRemove st with
       | [] => Ok st
       | l => remove_queries st l []
       end.

(** ** The loop *)

(** The choice of a source; [None] when the eddy has nothing to do. *)
Definition pick_source (cfg : config F) (st : state) : cres (option nat * state) :=
  if negb (MaxTuplesScannedBeforeQuit cfg =? -1)%Z && (total_base_tuples_remaining st <=? 0)%Z
  then Ok (None, with_shutdown st)
  else
    let! st1 := if negb (ihtValid st) then processQueryRemove st else Ok st in
    if negb (ihtValid st) && (numqueries st1 =? 0)%Z then Ok (None, st1)
    else
      let! (source, st2) := chooseSourceTimestampOrder st1 in
      let! o := access (sources st2 !! source) in
      let! _ := cassert (match o with Some _ => true | None => false end) in
      Ok (Some source, st2).

(** The tuple a module gave: its bits, the statistics, the output. *)
Definition got_tuple (cfg : config F) (st : state) (operator : option nat) (t : IHT HT) : cres state :=
  let t1 := match operator with
            | Some i => with_done (with_ready t (BitArrayClearBit (t_ready t) i)) (BitArraySetBit (t_done t) i)
            | None => t
            end in
  let st1 := with_iht st (Some t1) true in
  let! st2 := match operator with Some i => increment_current_tuples_returned st1 i | None => Ok st1 end in
  processOutputQ cfg (with_counts st2 (total_base_tuples_remaining st2) (numTuplesProcessed st2 + 1)).

Definition run_module (cfg : config F) (st : state) (i : nat) (mustEnq : bool) : cres state :=
  let! m := get_module st i in
  let! m1 := if mustEnq then let! t := access (iht st) in let! (_, m1) := fjord_enq_inp m t in Ok m1 else Ok m in
  let! m2 := ProcessNextNode m1 in
  let! (o, m3) := fjord_deq_out m2 in
  let st1 := put_module st i m3 in
  match o with
  | Some t => got_tuple cfg st1 (Some i) t
  | None => Ok (with_iht st1 (iht st1) false)
  end.

Definition deq_scan (s : scan) : option (IHT HT) * scan :=
  match scan_output s with
  | [] => (None, s)
  | t :: l => (Some t, mkScan (sourceID s) (isStream s) (isDone s) (haveNewTuple s) (slot s) (currentTupleTimestamp s)
                         (nodup s) (isRecursivelyFed s) (recurseResult s) (feed s) (tuplesScanned s)
                         (scan_usedByQueries s) l)
  end.

Definition run_source (cfg : config F) (st : state) (k : nat) : cres state :=
  let! o := access (sources st !! k) in
  let! s := access o in
  let! st1 := ProcessNextScanModule cfg st k s in
  let! o1 := access (sources st1 !! k) in
  let! s1 := access o1 in
  let '(t, s2) := deq_scan s1 in
  let st2 := with_sources st1 (<[k := Some s2]> (sources st1)) in
  match t with
  | Some t => got_tuple cfg st2 None t
  | None => Ok (with_iht st2 (iht st2) false)
  end.

(** One iteration; the routing that ends in front of the sources is a step of
    its own. *)
Definition eddy_step (cfg : config F) (st : state) : cres state :=
  let! (c, st1) := route_module cfg st in
  match c with
  | ToModule i mustEnq => run_module cfg st1 i mustEnq
  | FromSource =>
      let! (s, st2) := pick_source cfg st1 in
      match s with
      | Some k => run_source cfg st2 k
      | None => Ok st2
      end
  end.
End loop.
End EddyLoop.
