(* ===== verification/EddySpec.v ===== *)
(** * The continuous-query eddy: what routing does

    A tuple explores the operators: it is announced to the queries that are
    complete, then visits any operator it is ready for, and every tuple this
    operator answers explores in turn.  [visits] is that exploration as a
    relation, free of the stack, of the routing policy and of the queues;
    [eddy_explores] shows that the loop of the eddy implements it and ends,
    for both routing policies and whatever the random generators answer. *)

From S2P Require Import Prelude BitArray GSFilter Eddy EddyLoop.

Module EddySpec.
Import Bit Eddy EddyLoop.
#[local] Opaque bits_of below.

(** ** Bits of tuples *)

Section bits.
Context {HT : Type}.
Implicit Types t u : IHT HT.

Definition ready_of t : gset nat := bits_of 96 (t_ready t).
Definition done_of t : gset nat := bits_of 96 (t_done t).
Definition completed_of t : gset nat := bits_of 128 (t_queriesCompleted t).

Record tuple_wf t : Prop := {
  twf_ready : wf 96 (t_ready t);
  twf_done : wf 96 (t_done t);
  twf_completed : wf 128 (t_queriesCompleted t)
}.

(** The tuple as the eddy takes it from operator [i]. *)
Definition mark (i : nat) t : IHT HT :=
  with_done (with_ready t (BitArrayClearBit (t_ready t) i)) (BitArraySetBit (t_done t) i).

Lemma mark_ok i t : tuple_wf t → i < 96 →
  tuple_wf (mark i t) ∧ ready_of (mark i t) = ready_of t ∖ {[i]} ∧ done_of (mark i t) = {[i]} ∪ done_of t
  ∧ completed_of (mark i t) = completed_of t.
Proof.
  intros [Hr Hd Hc] Hi. unfold mark, ready_of, done_of, completed_of. cbn [t_ready t_done t_queriesCompleted with_done with_ready].
  rewrite ClearBit_set, SetBit_set by done.
  split; [|done]. constructor; simpl; auto using ClearBit_wf, SetBit_wf.
Qed.

(** How many operators the tuple has not seen. *)
Definition unseen t : nat := size (below 96 ∖ done_of t).

Lemma unseen_mark i t u n : {[i]} ∪ done_of t ⊆ done_of u → i < 96 → i ∉ done_of t → unseen t ≤ S n → unseen u ≤ n.
Proof.
  unfold unseen. intros Hsub Hi Hn Ht. enough (size (below 96 ∖ done_of u) < size (below 96 ∖ done_of t)) by lia.
  apply subset_size. split; [set_solver|]. intros Hs.
  assert (i ∈ below 96 ∖ done_of t) as Hin by (apply elem_of_difference; by rewrite elem_of_below).
  apply Hs, elem_of_difference in Hin as [_ Hin]. set_solver.
Qed.

Lemma unseen_pos i t : i ∉ done_of t → i < 96 → 0 < unseen t.
Proof.
  intros Hd Hi. apply Nat.neq_0_lt_0. intros Hz. unfold unseen in Hz. apply size_empty_inv in Hz. apply (not_elem_of_empty (C := gset nat) i).
  rewrite <- Hz. apply elem_of_difference. by rewrite elem_of_below.
Qed.
End bits.

(** ** The exploration *)

Section spec.
Context {M HT F : Type} `{!Fjord M HT} `{!Double F}.

(** The live operators, what each answers to a tuple, the tuples that they can
    take, and the queries with their completion masks. *)
Context (live : gset nat) (f : nat → IHT HT → list (IHT HT)) (fits : IHT HT → Prop).
Context (qids : list nat) (masks : list BitArray).

Definition cmask (q : nat) : gset nat := bits_of 96 (masks !!! q).

(** The queries that a tuple completes now. *)
Definition due (t : IHT HT) : gset nat :=
  filter (λ q, cmask q ⊆ done_of t ∧ q ∉ completed_of t) (list_to_set qids).

(** [announced t t' evs]: the tuple is sent to the queries that are due, and
    counts them as completed. *)
Inductive announced (t : IHT HT) : IHT HT → list (event HT) → Prop :=
  | announced_none : due t = ∅ → announced t t []
  | announced_some c w : due t ≠ ∅ → wf 128 c → bits_of 128 c = completed_of t ∪ due t →
      wf 128 w → bits_of 128 w = due t →
      announced t (with_completed t c) [receiveTuple (with_completed t c) w].

(** Nothing is left to do for a tuple. *)
Definition settled (t : IHT HT) : Prop := completed_of t = below 128 ∨ ready_of t = ∅.

Inductive visits : IHT HT → list (event HT) → Prop :=
  | visits_settled t : settled t → visits t []
  | visits_module t i evs : completed_of t ≠ below 128 → i ∈ ready_of t → visits_all i (f i t) evs → visits t evs
with visits_all : nat → list (IHT HT) → list (event HT) → Prop :=
  | visits_nil i : visits_all i [] []
  | visits_cons i u us u' e1 e2 e3 :
      announced (mark i u) u' e1 → visits u' e2 → visits_all i us e3 →
      visits_all i (u :: us) (e1 ++ e2 ++ e3).

(** ** What the eddy relies on *)

(** A tuple in flight: it has yet to visit live operators only, and none twice,
    and the operators can take it. *)
Record good (t : IHT HT) : Prop := {
  good_wf : tuple_wf t;
  good_live : ready_of t ⊆ live;
  good_fresh : ready_of t ## done_of t;
  good_fits : fits t
}.

(** An answer of operator [i] to [t] remembers where [t] has been, and for whom. *)
Record child (i : nat) (t u : IHT HT) : Prop := {
  child_wf : tuple_wf u;
  child_done : done_of t ⊆ done_of u;
  child_completed : completed_of t ⊆ completed_of u;
  child_live : ready_of u ⊆ live;
  child_fresh : ready_of u ∖ {[i]} ## done_of u;
  child_fits : fits (mark i u)
}.

(** After an answer of [us] has been asked for: [None] when there was none. *)
Definition rest (us : list (IHT HT)) : option (list (IHT HT)) :=
  match us with [] => None | _ :: us' => Some us' end.

(** [runs m i o]: the module [m] is operator [i]; it is idle when [o] is [None], and
    has been fed and has [p] left to answer when [o] is [Some p]. *)
Class ModuleLaws (runs : M → nat → option (list (IHT HT)) → Prop) : Prop := {
  feed_law m i t : runs m i None → good t → i ∈ ready_of t →
    ∃ b m1 m2 m3, fjord_enq_inp m t = Ok (b, m1) ∧ ProcessNextNode m1 = Ok m2
      ∧ fjord_deq_out m2 = Ok (hd_error (f i t), m3) ∧ runs m3 i (rest (f i t));
  drain_law m i p : runs m i (Some p) →
    ∃ m2 m3, ProcessNextNode m = Ok m2 ∧ fjord_deq_out m2 = Ok (hd_error p, m3) ∧ runs m3 i (rest p);
  child_law m i p t u : runs m i p → good t → i ∈ ready_of t → u ∈ f i t → child i t u;
  fits_law t c : fits t → wf 128 c → completed_of t ⊆ bits_of 128 c → fits (with_completed t c);
  no_FAgg m i p : runs m i p → isFAgg m = false
}.
End spec.

Lemma mark_good {HT} live fits i (t u : IHT HT) : child live fits i t u → i < 96 → good live fits (mark i u)
  ∧ {[i]} ∪ done_of t ⊆ done_of (mark i u).
Proof.
  intros [Hw Hd _ Hl Hf Hfit] Hi. destruct (mark_ok i u Hw Hi) as (Hw' & Er & Ed & _).
  split; [constructor; [done|rewrite Er; set_solver|rewrite Er, Ed; set_solver|done]|rewrite Ed; set_solver].
Qed.

Lemma announced_same {HT} qids masks (t t' : IHT HT) evs : announced qids masks t t' evs → tuple_wf t →
  tuple_wf t' ∧ t_ready t' = t_ready t ∧ t_done t' = t_done t ∧ completed_of t' = completed_of t ∪ due qids masks t
  ∧ t_base_tuples t' = t_base_tuples t.
Proof.
  intros H Hw. destruct H as [E|c w E Hc Ec Hww Ew].
  - rewrite E. split_and!; try done. set_solver.
  - split_and!; try done. destruct Hw. by constructor.
Qed.

Lemma announced_good {HT} qids masks live fits (t t' : IHT HT) evs :
  (∀ t c, fits t → wf 128 c → completed_of t ⊆ bits_of 128 c → fits (with_completed t c)) →
  announced qids masks t t' evs → good live fits t → good live fits t'.
Proof.
  intros Hlaw Ha [Hw Hl Hf Hfit]. destruct (announced_same _ _ _ _ _ Ha Hw) as (Hw' & Er & Ed & Ec & _).
  constructor; unfold ready_of, done_of in *; rewrite ?Er, ?Ed; try done.
  destruct Ha as [|c w _ Hc Ec' _ _]; [done|]. apply Hlaw; [done|done|]. rewrite Ec'. set_solver.
Qed.

(** ** What a query is sent *)

Section delivered.
Context {HT : Type}.
Implicit Types (evs : list (event HT)).

Definition delivered (q : nat) evs : list (list (option HT)) :=
  omap (λ ev, match ev with
              | receiveTuple u w => if decide (q ∈ bits_of 128 w) then Some (t_base_tuples u) else None
              | freeResultQueue _ => None
              end) evs.

Lemma delivered_app q e1 e2 : delivered q (e1 ++ e2) = delivered q e1 ++ delivered q e2.
Proof. unfold delivered. apply omap_app. Qed.
End delivered.
End EddySpec.
