(* ===== verification/EddyRoute.v ===== *)
(** * The continuous-query eddy: the loop implements the exploration

    The proof that [route_module] and [run_module] together perform [visits],
    by induction on the number of operators a tuple has not seen. *)

From stdpp Require Import relations.
From S2P Require Import Prelude BitArray GSFilter Eddy EddyLoop EddySpec.

Module EddyRoute.
Import Bit Eddy EddyLoop EddySpec.
#[local] Opaque bits_of below.

Section route.
Context {M HT F : Type} `{!Fjord M HT} `{!Double F}.
Local Abbreviation state := (EddyState M HT F).

(** ** The choice of an operator *)

Lemma next_set_ok fuel ready p j :
  BitArrayBitIsSet ready j = true → p < 96 → j < 96 → (if decide (p ≤ j) then j - p else j + 96 - p) ≤ fuel →
  ∃ i, next_set fuel ready p = Ok i ∧ i < 96 ∧ BitArrayBitIsSet ready i = true.
Proof.
  intros Hj. revert p. induction fuel as [|fuel IH]; intros p Hp Hj96 Hd; cbn [next_set];
    (destruct (BitArrayBitIsSet ready p) eqn:Ep; [by exists p|]).
  - case_decide; [|lia]. assert (p = j) as -> by lia. congruence.
  - assert (p ≠ j) by congruence. change TCQMAXOPERATORS with 96.
    apply IH; [by apply (Nat.mod_upper_bound (p + 1) 96)|done|]. destruct (decide (p = 95)) as [->|].
    + change ((95 + 1) mod 96) with 0. repeat case_decide; lia.
    + rewrite Nat.mod_small by lia. repeat case_decide; lia.
Qed.

Lemma is_live_Some (st : state) i : is_live st i = true ↔ ∃ m, modules st !! i = Some (Some m).
Proof. unfold is_live. destruct (modules st !! i) as [[m|]|]; naive_solver. Qed.

(** What moving a tuple never touches. *)
Record kept (st st' : state) : Prop := {
  kept_sources : sources st' = sources st;
  kept_queryIds : queryIds st' = queryIds st;
  kept_queriesToRemove : queriesToRemove st' = queriesToRemove st;
  kept_numqueries : numqueries st' = numqueries st;
  kept_operators : operators st' = operators st;
  kept_sourceStems : sourceStems st' = sourceStems st;
  kept_completionMask : completionMask st' = completionMask st;
  kept_query_sources : query_sources st' = query_sources st;
  kept_remaining : total_base_tuples_remaining st' = total_base_tuples_remaining st;
  kept_table : SourceIHT_Table st' = SourceIHT_Table st;
  kept_shutdown : shutdownPending st' = shutdownPending st;
  kept_arrays : length (weights st') = length (weights st)
    ∧ length (current_tuples_returned st') = length (current_tuples_returned st)
}.

(** A change of other fields. *)
Ltac keeps :=
  constructor; first [reflexivity|split; cbn [weights current_tuples_returned with_stats with_counts with_iht with_stack
    with_rnd put_module with_modules emit]; rewrite ?length_insert; reflexivity].

Lemma kept_refl st : kept st st.
Proof. keeps. Qed.
Lemma kept_trans st1 st2 st3 : kept st1 st2 → kept st2 st3 → kept st1 st3.
Proof. intros [] []; constructor; try congruence. destruct_and!. split; congruence. Qed.

(** The operators: [pend] is what each has left to answer. *)
Context (live : gset nat) (f : nat → IHT HT → list (IHT HT)) (fits : IHT HT → Prop).
Context (runs : M → nat → option (list (IHT HT)) → Prop) `{Hlaws : !ModuleLaws live f fits runs}.
Context (qids : list nat) (masks : list BitArray).
Context (Hmasks : ∀ q, q ∈ qids → q < 128 ∧ ∃ m, masks !! q = Some m ∧ wf 96 m).

Record inv (st : state) (pend : nat → option (list (IHT HT))) : Prop := {
  inv_modules i m : modules st !! i = Some (Some m) → i ∈ live ∧ runs m i (pend i);
  inv_live i : i ∈ live → i < 96 ∧ is_live st i = true ∧ i < length (weights st) ∧ i < length (current_tuples_returned st);
  inv_queryIds : queryIds st = qids;
  inv_masks : completionMask st = masks
}.

Lemma inv_module (st : state) pend i : inv st pend → i ∈ live → ∃ m, modules st !! i = Some (Some m) ∧ runs m i (pend i).
Proof.
  intros Hi Hl. destruct (inv_live _ _ Hi i Hl) as (_ & Hm & _). apply is_live_Some in Hm as [m Hm].
  exists m. split; [done|]. by eapply inv_modules.
Qed.

(** A change of fields the invariant does not look at. *)
Lemma inv_same st st' pend : inv st pend → modules st' = modules st → length (weights st') = length (weights st) →
  length (current_tuples_returned st') = length (current_tuples_returned st) → queryIds st' = queryIds st →
  completionMask st' = completionMask st → inv st' pend.
Proof.
  intros [H1 H2 H3 H4] E1 E2 E3 E4 E5. constructor; unfold is_live in *; rewrite ?E1, ?E2, ?E3; congruence || auto.
Qed.

(** An operator of which [p] is left now. *)
Lemma inv_put st pend i m p : inv st pend → i ∈ live → runs m i p →
  inv (put_module st i m) (λ j, if decide (j = i) then p else pend j).
Proof.
  intros Hi Hl Hr. destruct Hi as [H1 H2 H3 H4]. destruct (H2 i Hl) as (_ & Hm & _).
  apply is_live_Some in Hm as [m0 Hm]. apply lookup_lt_Some in Hm as Hlt.
  constructor; [| |done|done]; cbn [put_module modules with_modules weights current_tuples_returned].
  - intros j m' Hj. destruct (decide (j = i)) as [->|].
    + rewrite list_lookup_insert_eq in Hj by done. injection Hj as <-. done.
    + rewrite list_lookup_insert_ne in Hj by done. by apply H1.
  - intros j Hj. destruct (H2 j Hj) as (H96 & Hlj & Hlen). split; [exact H96|]. split; [|exact Hlen].
    apply is_live_Some. cbn [put_module modules with_modules]. destruct (decide (j = i)) as [->|].
    + exists m. by apply list_lookup_insert_eq.
    + rewrite list_lookup_insert_ne by done. by apply is_live_Some.
Qed.

Lemma inv_ext st pend pend' : inv st pend → (∀ j, pend j = pend' j) → inv st pend'.
Proof. intros [H1 H2 H3 H4] He. constructor; auto. intros i m Hm. rewrite <- He. by apply H1. Qed.

(** Modules chosen: ready and there. *)
Definition chosen (st : state) (ready : BitArray) (r : cres (nat * state)) : Prop :=
  ∃ i n d, r = Ok (i, with_rnd st n d) ∧ i ∈ bits_of 96 ready.

Context (cfg : config F).

Lemma choose_random_ok st pend spins ready : inv st pend → 0 < spins → bits_of 96 ready ⊆ live → bits_of 96 ready ≠ ∅ →
  chosen st ready (choose_random spins cfg st ready).
Proof.
  intros Hi Hs Hl Hne. destruct spins as [|s]; [lia|]. apply set_choose_L in Hne as [j Hj].
  apply elem_of_bits_of in Hj as Hj'. destruct Hj' as [Hj96 Hjb].
  assert (random cfg (nrandom st) mod TCQMAXOPERATORS < 96) as Hp by (by apply (Nat.mod_upper_bound _ 96)).
  destruct (next_set_ok 96 ready _ j Hjb Hp Hj96) as (i & E & Hi96 & Hib); [case_decide; lia|].
  assert (i ∈ bits_of 96 ready) as Hin by (by apply elem_of_bits_of).
  destruct (inv_module st pend i Hi (Hl i Hin)) as (m & Hm & _).
  exists i, (S (nrandom st)), (ndrand st). split; [|done].
  unfold choose_random, choose_random_module. change TCQMAXOPERATORS with 96 in E |- *. rewrite E. cbn [cbind].
  by rewrite Hm.
Qed.

Lemma total_weight_ok (st : state) ready l w : (∀ i, is_live st i = true → i < length (weights st)) →
  ∃ w', total_weight st ready l w = Ok w'.
Proof.
  intros Hw. revert w. induction l as [|i l IH]; intros w; simpl; [by eexists|].
  destruct (is_live st i) eqn:Hl; simpl; [|apply IH]. destruct (BitArrayBitIsSet ready i); [|apply IH].
  destruct (lookup_lt_is_Some_2 _ _ (Hw i Hl)) as [x ->]. apply IH.
Qed.

Lemma pick_weight_ok (st : state) ready l c w : (∀ i, is_live st i = true → i < length (weights st)) →
  ∃ o, pick_weight st ready l c w = Ok o
    ∧ ∀ i, o = Some i → is_live st i = true ∧ BitArrayBitIsSet ready i = true.
Proof.
  intros Hw. revert c. induction l as [|i l IH]; intros c; simpl; [by eexists|].
  destruct (is_live st i) eqn:Hl; simpl; [|apply IH]. destruct (BitArrayBitIsSet ready i) eqn:Hr; [|apply IH].
  destruct (lookup_lt_is_Some_2 _ _ (Hw i Hl)) as [x ->]. cbn [access cbind].
  destruct (dlt w _); [|apply IH]. eexists. split; [done|]. by intros ? [= <-].
Qed.

Lemma selectivity_ok st pend spins ready : inv st pend → 0 < spins → bits_of 96 ready ⊆ live → bits_of 96 ready ≠ ∅ →
  chosen st ready (choose_based_on_selectivity spins cfg st ready).
Proof.
  intros Hi Hs Hl Hne. unfold choose_based_on_selectivity.
  assert (∀ i, is_live st i = true → i < length (weights st) ∧ i < 96) as Hw.
  { intros i Hli. apply is_live_Some in Hli as [m Hm]. destruct (inv_modules _ _ Hi i m Hm) as [Hlv _].
    by destruct (inv_live _ _ Hi i Hlv) as (? & _ & ? & _). }
  destruct (total_weight_ok st ready (seq 0 (numModules st)) d_zero) as [w ->]; [apply Hw|]. cbn [cbind].
  destruct (pick_weight_ok (with_rnd st (nrandom st) (S (ndrand st))) ready (seq 0 (numModules st)) d_zero
    (dmul (drand48 cfg (ndrand st)) w)) as (o & -> & Ho); [apply Hw|]. cbn [cbind].
  destruct o as [i|].
  - destruct (Ho i eq_refl) as [Hli Hb]. exists i, (nrandom st), (S (ndrand st)). split; [done|].
    apply elem_of_bits_of. split; [by apply Hw|done].
  - destruct (choose_random_ok (with_rnd st (nrandom st) (S (ndrand st))) pend spins ready) as (i & n & d & -> & Hin); auto.
    { by apply (inv_same st). }
    by exists i, n, d.
Qed.

(** ** Output *)

Lemma filter_step (P : nat → Prop) `{∀ x, Decision (P x)} (C W L : gset nat) q : P q → q ∉ C →
  {[q]} ∪ W ∪ filter (λ x, P x ∧ x ∉ {[q]} ∪ C) L = W ∪ filter (λ x, P x ∧ x ∉ C) ({[q]} ∪ L).
Proof.
  intros HP HC. apply set_eq. intros x. rewrite !elem_of_union, !elem_of_filter, !elem_of_union, !elem_of_singleton.
  destruct (decide (x = q)) as [->|]; tauto.
Qed.

Lemma output_queries_ok (st : state) d ql c w need :
  completionMask st = masks → wf 96 d → (∀ q, q ∈ ql → q ∈ qids) → wf 128 c → wf 128 w →
  let new := filter (λ q, cmask masks q ⊆ bits_of 96 d ∧ q ∉ bits_of 128 c) (list_to_set ql : gset nat) in
  ∃ c' w', output_queries st d ql (c, w, need) = Ok (c', w', need || bool_decide (new ≠ ∅))
    ∧ wf 128 c' ∧ wf 128 w' ∧ bits_of 128 c' = bits_of 128 c ∪ new ∧ bits_of 128 w' = bits_of 128 w ∪ new.
Proof.
  intros Em Hd. revert c w need. induction ql as [|q ql IH]; intros c w need Hq Hc Hw; cbn zeta.
  { exists c, w. cbn [output_queries list_to_set]. rewrite bool_decide_eq_false_2 by set_solver. rewrite orb_false_r.
    split_and!; try done; set_solver. }
  destruct (Hmasks q) as (Hq128 & m & Hm & Hwm); [apply Hq; by left|].
  assert (cmask masks q = bits_of 96 m) as Ecm by (unfold cmask; by rewrite list_lookup_total_alt, Hm).
  cbn [output_queries]. rewrite Em, Hm. cbn [access cbind].
  set (scratch := BitArrayAnd _ _ _ _).
  assert (wf 96 (replicate (BASIZE TCQMAXOPERATORS) 0%Z)) as Hz by (split; [done|by repeat constructor]).
  assert (BitArrayEqual scratch m TCQMAXOPERATORS = true ↔ cmask masks q ⊆ bits_of 96 d) as He.
  { change TCQMAXOPERATORS with (8 * 12). rewrite (Equal_set 12).
    - change (8 * 12) with 96. unfold scratch, TCQMAXOPERATORS in *. rewrite And_set, Ecm by done. set_solver.
    - apply And_wf; [by destruct Hwm|done].
    - done. }
  set (new := filter _ _).
  destruct (BitArrayEqual scratch m TCQMAXOPERATORS && negb (BitArrayBitIsSet c q)) eqn:Eb.
  - apply andb_true_iff in Eb as [Eb Ec]. apply He in Eb. apply negb_true_iff in Ec.
    assert (q ∉ bits_of 128 c) as Hqc by (rewrite elem_of_bits_of; intros [_ ?]; congruence).
    destruct (IH (BitArraySetBit c q) (BitArraySetBit w q) true) as (c' & w' & E & Hc' & Hw' & Ebc & Ebw);
      [intros; apply Hq; by right|by apply SetBit_wf|by apply SetBit_wf|].
    exists c', w'. rewrite E. rewrite (SetBit_set 128 w) in Ebw by done. rewrite (SetBit_set 128 c) in Ebc, Ebw by done.
    assert (q ∈ new) as Hnew.
    { unfold new. rewrite elem_of_filter, list_to_set_cons, elem_of_union, elem_of_singleton. tauto. }
    rewrite (bool_decide_eq_true_2 (new ≠ ∅)) by (by intros E'; rewrite E' in Hnew; apply elem_of_empty in Hnew).
    rewrite orb_true_r. unfold new. rewrite list_to_set_cons.
    split_and!; [done..| |]; rewrite ?Ebc, ?Ebw; by apply (filter_step (λ q, cmask masks q ⊆ bits_of 96 d)).
  - assert (¬ (cmask masks q ⊆ bits_of 96 d ∧ q ∉ bits_of 128 c)) as Hno.
    { rewrite andb_false_iff, negb_false_iff, <- not_true_iff_false, He in Eb. intros [H1 H2].
      destruct Eb as [Eb|Eb]; [done|]. apply H2, elem_of_bits_of. done. }
    destruct (IH c w need) as (c' & w' & E & Hc' & Hw' & Ebc & Ebw); [intros; apply Hq; by right|done|done|].
    exists c', w'. assert (new = filter (λ q, cmask masks q ⊆ bits_of 96 d ∧ q ∉ bits_of 128 c) (list_to_set ql)) as ->.
    { unfold new. apply set_eq. intros x.
      rewrite !elem_of_filter, list_to_set_cons, elem_of_union, elem_of_singleton.
      destruct (decide (x = q)) as [->|]; tauto. }
    rewrite E. done.
Qed.

Lemma deliver_no_FAgg (st : state) t l w : (∀ i m, modules st !! i = Some (Some m) → isFAgg m = false) →
  (∀ i, i ∈ l → i < numModules st) → deliverTupleToFAgg st t l w = Ok (st, w).
Proof.
  intros Ha. induction l as [|i l IH]; intros Hl; simpl; [done|].
  destruct (lookup_lt_is_Some_2 (modules st) i) as [o Ho]; [apply Hl; by left|]. rewrite Ho. cbn [access cbind].
  destruct o as [m|]; [rewrite (Ha i m Ho)|]; apply IH; intros; apply Hl; by right.
Qed.

Lemma get_no_FAgg (st : state) l w : (∀ i m, modules st !! i = Some (Some m) → isFAgg m = false) →
  (∀ i, i ∈ l → i < numModules st) → getFAggResult st l w = Ok (None, st, w).
Proof.
  intros Ha. induction l as [|i l IH]; intros Hl; simpl; [done|].
  destruct (lookup_lt_is_Some_2 (modules st) i) as [o Ho]; [apply Hl; by left|]. rewrite Ho. cbn [access cbind].
  destruct o as [m|]; [rewrite (Ha i m Ho)|]; apply IH; intros; apply Hl; by right.
Qed.

(** A step within the movement of a tuple. *)
Record moved (st st' : state) (pend : nat → option (list (IHT HT))) (evs : list (event HT)) : Prop := {
  moved_inv : inv st' pend;
  moved_kept : kept st st';
  moved_out : out st' = out st ++ evs
}.

Lemma processOutputQ_ok (st : state) pend drains t : inv st pend → 0 < drains → UseSuppressOutput cfg = false →
  iht st = Some t → tuple_wf t →
  ∃ st' t' evs, processOutputQ drains cfg st = Ok st' ∧ announced qids masks t t' evs ∧ iht st' = Some t'
    ∧ ihtValid st' = ihtValid st ∧ stack st' = stack st ∧ moved st st' pend evs.
Proof.
  intros Hi Hd Hs Et [Hr Hdn Hc]. unfold processOutputQ. rewrite Et. cbn [access cbind].
  set (w0 := BitArrayClearAll _ _).
  assert (wf 128 w0) as Hw0 by (apply ClearAll_wf; split; [done|by repeat constructor]).
  assert (bits_of 128 w0 = ∅) as Ew0 by (apply ClearAll_set; split; [done|by repeat constructor]).
  destruct (output_queries_ok st (t_done t) (queryIds st) (t_queriesCompleted t) w0 false)
    as (c & w & -> & Hc' & Hw & Ec & Ew); [by apply Hi|done|by rewrite (inv_queryIds _ _ Hi)|done|done|].
  cbn [cbind]. rewrite (inv_queryIds _ _ Hi) in *. rewrite Ew0, (left_id_L ∅ _) in Ew.
  change (filter _ _) with (due qids masks t) in *. cbn [orb].
  set (st1 := with_iht st (Some (with_completed t c)) (ihtValid st)).
  assert (inv st1 pend) as Hi1 by (by apply (inv_same st)).
  assert (∀ i m, modules st !! i = Some (Some m) → isFAgg m = false) as Hfa.
  { intros i m Hm. destruct (inv_modules _ _ Hi i m Hm) as [_ Hrun]. by eapply (no_FAgg live f fits). }
  assert (∀ i, i ∈ seq 0 (numModules st) → i < numModules st) as Hseq by (intros i; rewrite elem_of_seq; lia).
  case_bool_decide as Hdue.
  - rewrite deliver_no_FAgg by done. cbn [cbind]. unfold output. rewrite Hs.
    destruct drains as [|drains]; [lia|]. cbn [drain_FAggs].
    rewrite get_no_FAgg by done. cbn [cbind].
    eexists _, _, _. split; [done|]. split; [by apply (announced_some _ _ t c w)|]. do 3 (split; [done|]).
    constructor; [by apply (inv_same st)|keeps|done].
  - rewrite Hdue, (right_id_L ∅ _) in Ec.
    apply (wf_ext 16) in Ec as ->; [|done|done].
    exists st1, t, []. split; [done|]. split; [by apply announced_none|]. split; [|do 2 (split; [done|])].
    + unfold st1. cbn. f_equal. by destruct t.
    + constructor; [done|keeps|by rewrite app_nil_r].
Qed.

Lemma eddy_moved_trans st1 st2 st3 p1 p2 e1 e2 :
  moved st1 st2 p1 e1 → moved st2 st3 p2 e2 → moved st1 st3 p2 (e1 ++ e2).
Proof.
  intros [_ K1 O1] [I2 K2 O2]. constructor; [done|by eapply kept_trans|]. by rewrite O2, O1, app_assoc.
Qed.

Lemma moved_silent (st st' : state) pend : inv st' pend → kept st st' → out st' = out st → moved st st' pend [].
Proof. intros. constructor; [done|done|by rewrite app_nil_r]. Qed.

Lemma moved_put (st : state) i m pend : inv (put_module st i m) pend → moved st (put_module st i m) pend [].
Proof. intros. apply moved_silent; [done|keeps|done]. Qed.

(** ** The steps of the loop *)

Context (spins drains : nat) (Hspins : 0 < spins) (Hdrains : 0 < drains) (Hloud : UseSuppressOutput cfg = false).

Definition resumed (st : state) : choice * state :=
  (match stack st with [] => FromSource | p :: _ => ToModule p false end, st).

Lemma resume_ok (st : state) : resume st = Ok (resumed st).
Proof. unfold resume, resumed, Eddy.empty, Eddy.top. by destruct (stack st) as [|p s]. Qed.

Definition mstep (r r' : choice * state) : Prop :=
  ∃ i e st, r.1 = ToModule i e ∧ run_module drains cfg r.2 i e = Ok st ∧ route_module spins cfg st = Ok r'.

Definition got (st : state) (i : nat) (o : option (IHT HT)) : cres state :=
  match o with Some u => got_tuple drains cfg st (Some i) u | None => Ok (with_iht st (iht st) false) end.

Definition upd (i : nat) (p : option (list (IHT HT))) (pend : nat → option (list (IHT HT))) : nat → option (list (IHT HT)) :=
  λ j, if decide (j = i) then p else pend j.

Lemma got_base_ok (st : state) pend t : inv st pend → tuple_wf t →
  ∃ st' t' evs, got_tuple drains cfg st None t = Ok st' ∧ announced qids masks t t' evs
    ∧ iht st' = Some t' ∧ ihtValid st' = true ∧ stack st' = stack st ∧ moved st st' pend evs.
Proof.
  intros Hi Ht. unfold got_tuple. cbn [cbind]. set (st1 := with_counts _ _ _).
  assert (inv st1 pend) as Hi1 by (by apply (inv_same st)).
  destruct (processOutputQ_ok st1 pend drains t) as (st' & t' & evs & E & Ha & Et & Ev & Es & Hm); try done.
  exists st', t', evs. do 5 (split; [done|]). apply (eddy_moved_trans st st1 st' pend pend [] evs); [|done].
  apply moved_silent; [done|keeps|done].
Qed.

Lemma got_tuple_ok (st : state) pend i u : inv st pend → i ∈ live → tuple_wf u →
  ∃ st' u' evs, got_tuple drains cfg st (Some i) u = Ok st' ∧ announced qids masks (mark i u) u' evs
    ∧ iht st' = Some u' ∧ ihtValid st' = true ∧ stack st' = stack st ∧ moved st st' pend evs.
Proof.
  intros Hi Hl Hu. destruct (inv_live _ _ Hi i Hl) as (Hi96 & _ & _ & Hc).
  destruct (lookup_lt_is_Some_2 _ _ Hc) as [c Ec].
  unfold got_tuple, increment_current_tuples_returned. cbn [current_tuples_returned with_iht]. rewrite Ec. cbn [access cbind].
  change (with_done _ _) with (mark i u). set (st1 := with_counts _ _ _).
  assert (inv st1 pend) as Hi1.
  { apply (inv_same st); try done. cbn. by rewrite length_insert. }
  destruct (processOutputQ_ok st1 pend drains (mark i u)) as (st' & u' & evs & E & Ha & Et & Ev & Es & Hm); try done.
  { by apply mark_ok. }
  exists st', u', evs. do 5 (split; [done|]). apply (eddy_moved_trans st st1 st' pend pend [] evs); [|done].
  apply moved_silent; [done|unfold st1; keeps|done].
Qed.

Lemma run_module_feed (st : state) pend i t : inv st pend → i ∈ live → pend i = None → iht st = Some t → good live fits t →
  i ∈ ready_of t →
  ∃ m, run_module drains cfg st i true = got (put_module st i m) i (hd_error (f i t))
    ∧ inv (put_module st i m) (upd i (rest (f i t)) pend) ∧ Forall (child live fits i t) (f i t).
Proof.
  intros Hi Hl Hp Et Hg Hr. destruct (inv_module st pend i Hi Hl) as (m & Hm & Hrun). rewrite Hp in Hrun.
  destruct (feed_law live f fits m i t Hrun Hg Hr) as (b & m1 & m2 & m3 & E1 & E2 & E3 & Hrun3).
  exists m3. unfold run_module, get_module. rewrite Hm, Et. cbn [access cbind]. rewrite E1. cbn [cbind].
  rewrite E2. cbn [cbind]. rewrite E3. cbn [cbind]. split; [done|]. split; [by apply inv_put|].
  apply Forall_forall. intros u Hu. by eapply (child_law live f fits m i None).
Qed.

Lemma run_module_drain (st : state) pend i p : inv st pend → i ∈ live → pend i = Some p →
  ∃ m, run_module drains cfg st i false = got (put_module st i m) i (hd_error p)
    ∧ inv (put_module st i m) (upd i (rest p) pend).
Proof.
  intros Hi Hl Ep. destruct (inv_module st pend i Hi Hl) as (m & Hm & Hrun).
  rewrite Ep in Hrun. destruct (drain_law live f fits m i _ Hrun) as (m2 & m3 & E2 & E3 & Hrun3).
  exists m3. unfold run_module, get_module. rewrite Hm. cbn [access cbind].
  rewrite E2. cbn [cbind]. rewrite E3. cbn [cbind]. split; [done|]. by apply inv_put.
Qed.

(** The operator on top of the stack has nothing left. *)
Lemma route_pops (st : state) pend i s : inv st pend → i ∈ live → stack st = i :: s → ihtValid st = false →
  ∃ st', route_module spins cfg st = Ok (resumed st') ∧ stack st' = s ∧ ihtValid st' = false ∧ moved st st' pend [].
Proof.
  intros Hi Hl Es Ev. destruct (inv_live _ _ Hi i Hl) as (_ & _ & Hw & Hc).
  destruct (lookup_lt_is_Some_2 _ _ Hw) as [w Ew]. destruct (lookup_lt_is_Some_2 _ _ Hc) as [c Ec].
  unfold route_module, Eddy.empty, Eddy.pop. rewrite Ev, Es. cbn [negb cbind].
  unfold update_weights. cbn [weights current_tuples_returned with_stack]. rewrite Ec, Ew. cbn [access cbind].
  rewrite resume_ok. eexists. split; [done|]. do 2 (split; [done|]).
  apply moved_silent; [|keeps|done]. apply (inv_same st); try done; cbn; by rewrite length_insert.
Qed.

(** A valid tuple that is settled is dropped; another goes to an operator. *)
Lemma route_valid (st : state) pend t : inv st pend → iht st = Some t → ihtValid st = true → good live fits t →
  NoDup (stack st) → (∀ j, j ∈ stack st → j ∈ done_of t) →
  (settled t ∧ route_module spins cfg st = Ok (resumed (with_iht st (Some t) false)))
  ∨ (completed_of t ≠ below 128 ∧ ∃ i st1, i ∈ ready_of t ∧ route_module spins cfg st = Ok (ToModule i true, st1)
      ∧ stack st1 = i :: stack st ∧ iht st1 = Some t ∧ moved st st1 pend []).
Proof.
  intros Hi Et Ev [[Hr Hd Hc] Hl Hf _] Hnd Hst. unfold route_module. rewrite Ev, Et. cbn [access cbind].
  pose proof (IsAnyCleared_set 16 _ Hc) as Hac. change (8 * 16) with 128 in Hac. fold (completed_of t) in Hac.
  pose proof (IsAnySet_set 12 _ Hr) as Has. change (8 * 12) with 96 in Has. fold (ready_of t) in Has.
  change TCQMAXQUERIES with 128. change TCQMAXOPERATORS with 96.
  destruct (BitArrayIsAnyCleared _ _); cbn [negb].
  2: { left. rewrite resume_ok. split; [|done]. left. apply dec_stable. intros Hne. by apply Hac in Hne. }
  assert (completed_of t ≠ below 128) as Hne by (by apply Hac).
  destruct (BitArrayIsAnySet _ _).
  2: { left. rewrite resume_ok. split; [|done]. right. apply dec_stable. intros Hne'. by apply Has in Hne'. }
  assert (ready_of t ≠ ∅) as Hrne by (by apply Has). right. split; [done|].
  assert (chosen st (t_ready t) (if enable_smart_routing cfg then choose_based_on_selectivity spins cfg st (t_ready t)
                                 else choose_random spins cfg st (t_ready t))) as (i & n & d & -> & Hin).
  { destruct (enable_smart_routing cfg); [by apply (selectivity_ok st pend)|by apply (choose_random_ok st pend)]. }
  cbn [cbind]. unfold push. cbn [stack with_rnd].
  assert (length (stack st) < 96) as Hlen.
  { rewrite <- (size_list_to_set (C := gset nat)) by done.
    apply Nat.lt_le_trans with (size (below 96)); [|by vm_compute].
    apply subset_size. split.
    - intros j. rewrite elem_of_list_to_set. intros Hj. by apply (bits_of_below 96 (t_done t)), Hst.
    - intros Hsub. apply (Hf i); [done|]. apply Hst. apply (elem_of_list_to_set (C := gset nat)).
      by apply Hsub, (bits_of_below 96 (t_ready t)). }
  change TCQMAXOPERATORS with 96. destruct (Nat.eqb_spec (length (stack st)) 96); [lia|]. cbn [negb cassert cbind].
  eexists i, _. split; [done|]. split; [done|]. do 2 (split; [done|]).
  apply moved_silent; [by apply (inv_same st)|keeps|done].
Qed.

(** ** The exploration, by induction on what the tuple has not seen *)

(** From [st], whose route is [r], the loop comes back to the stack [s] with
    the announcements [evs]. *)
Definition comes_back (st : state) (pend : nat → option (list (IHT HT))) (s : list nat) (evs : list (event HT)) : Prop :=
  ∃ r st', route_module spins cfg st = Ok r ∧ rtc mstep r (resumed st')
    ∧ moved st st' pend evs ∧ stack st' = s ∧ ihtValid st' = false.

Definition explores (n : nat) : Prop :=
  ∀ st t pend, inv st pend → iht st = Some t → ihtValid st = true → good live fits t →
    NoDup (stack st) → (∀ j, j ∈ stack st → j ∈ done_of t ∧ j ∈ live) →
    (∀ j, j ∈ live → j ∉ stack st → pend j = None) → unseen t ≤ n →
    ∃ evs, comes_back st pend (stack st) evs ∧ visits f qids masks t evs.

(** Operator [i], on top of the stack, has just answered the first of [us]. *)
Lemma drains_answers n i t s : explores n → i ∈ live → i < 96 → i ∉ done_of t → unseen t ≤ S n →
  NoDup (i :: s) → (∀ j, j ∈ s → j ∈ done_of t ∧ j ∈ live) →
  ∀ us st pend, inv st pend → pend i = rest us → stack st = i :: s →
    (∀ j, j ∈ live → j ∉ i :: s → pend j = None) → Forall (child live fits i t) us →
    ∃ st2 evs, got st i (hd_error us) = Ok st2 ∧ visits_all f qids masks i us evs
      ∧ ∃ st1 e1 e2, evs = e1 ++ e2 ∧ moved st st1 pend e1 ∧ st1 = st2
          ∧ comes_back st2 (upd i None pend) s e2.
Proof.
  intros IHn Hl Hi96 Hid Hu Hnd Hs us. induction us as [|u us IH]; intros st pend Hi Hp Est Hidle Hch.
  - cbn [hd_error got rest] in *.
    assert (inv (with_iht st (iht st) false) pend) as Hi1 by (by apply (inv_same st)).
    destruct (route_pops (with_iht st (iht st) false) pend i s) as (st' & Er & Es' & Ev' & Hm); try done.
    eexists _, []. split; [done|]. split; [constructor|]. eexists _, [], []. split; [done|].
    split; [apply moved_silent; [done|keeps|done]|]. split; [done|]. exists (resumed st'), st'.
    split; [done|]. split; [done|]. split; [|done]. destruct Hm as [Hm1 Hm2 Hm3]. constructor; [|done|done].
    eapply inv_ext; [exact Hm1|]. intros j. unfold upd. by case_decide; subst.
  - apply Forall_cons in Hch as [Hch Hchs]. cbn [hd_error got rest] in *.
    destruct (mark_good live fits i t u Hch Hi96) as [Hgm Hsub].
    destruct (got_tuple_ok st pend i u Hi Hl (child_wf _ _ _ _ _ Hch)) as (st2 & u' & e1 & E & Ha & Et & Ev & Es & Hm).
    destruct (announced_same _ _ _ _ _ Ha (good_wf _ _ _ Hgm)) as (_ & _ & Ed & _).
    assert (done_of u' = done_of (mark i u)) as Ed' by (unfold done_of; by rewrite Ed).
    destruct (IHn st2 u' pend) as (e2 & (r & st3 & Er & Hrtc & Hm3 & Es3 & Ev3) & Hv); try done.
    { by apply Hm. }
    { eapply announced_good; [apply (fits_law live f fits)|done..]. }
    { by rewrite Es, Est. }
    { intros j. rewrite Es, Est, elem_of_cons, Ed'. intros [->|Hj]; [split; [set_solver|done]|].
      destruct (Hs j Hj). split; [set_solver|done]. }
    { by rewrite Es, Est. }
    { apply (unseen_mark i t); [by rewrite Ed'|done..]. }
    destruct (run_module_drain st3 pend i us (moved_inv _ _ _ _ Hm3) Hl Hp) as (m & Erun & Hi4).
    destruct (IH (put_module st3 i m) (upd i (rest us) pend)) as (st5 & evs' & Eg & Hva & st5' & e3 & e4 & -> & Hm5 & -> & r' & st6 & Er6 & Hrtc6 & Hm6 & Es6 & Ev6).
    { done. } { unfold upd. by rewrite decide_True. } { cbn. by rewrite Es3, Es. }
    { intros j Hj Hnj. unfold upd. rewrite decide_False by set_solver. by apply Hidle. } { done. }
    exists st2, (e1 ++ e2 ++ e3 ++ e4). split; [done|]. split; [by econstructor|].
    exists st2, e1, (e2 ++ e3 ++ e4). split; [done|]. split; [done|]. split; [done|].
    exists r, st6. split; [done|]. split.
    { etransitivity; [exact Hrtc|]. eapply rtc_l; [|exact Hrtc6]. exists i, false, st5.
      unfold resumed. rewrite Es3, Es, Est. split; [done|]. split; [|done]. by rewrite <- Eg, <- Erun. }
    split; [|done]. apply (eddy_moved_trans _ _ _ pend _ _ _ Hm3).
    apply (eddy_moved_trans _ _ _ _ _ [] _ (moved_put _ _ _ _ Hi4)).
    apply (eddy_moved_trans _ _ _ _ _ _ _ Hm5).
    destruct Hm6 as [Hm61 Hm62 Hm63]. constructor; [|done|done]. eapply inv_ext; [exact Hm61|].
    intros j. unfold upd. by case_decide.
Qed.

Lemma explores_all n : explores n.
Proof.
  induction n as [|n IHn]; intros st t pend Hi Et Ev Hg Hnd Hst Hidle Hu.
  all: destruct (route_valid st pend t) as [[Hset Er]|(Hne & i & st1 & Hin & Er & Es & Et1 & Hm)]; try done; [by apply Hst| |].
  all: try solve [exists []; split; [|by apply visits_settled]; eexists _, _; split; [exact Er|]; split; [done|];
    split; [apply moved_silent; [by apply (inv_same st)|keeps|done]|done]].
  all: assert (i < 96 ∧ i ∉ done_of t ∧ i ∈ live) as (Hi96 & Hid & Hl) by
    (split; [by apply elem_of_below, (bits_of_below 96 (t_ready t))|split; [by intros ?; eapply (good_fresh _ _ _ Hg)|by apply (good_live _ _ _ Hg)]]).
  - exfalso. by apply (unseen_pos i t) in Hid; [lia|].
  - assert (i ∉ stack st) as Hns by (intros Hs; by apply Hid, Hst).
    destruct (run_module_feed st1 pend i t (moved_inv _ _ _ _ Hm) Hl) as (m & Erun & Hi2 & Hch); try done.
    { by apply Hidle. }
    destruct (drains_answers n i t (stack st) IHn Hl Hi96 Hid Hu) with (us := f i t) (st := put_module st1 i m)
      (pend := upd i (rest (f i t)) pend) as (st2 & evs & Eg & Hva & st2' & e1 & e2 & -> & Hm2 & -> & r & st' & Er2 & Hrtc & Hm' & Es' & Ev'); try done.
    { by apply NoDup_cons. }
    { unfold upd. by rewrite decide_True. }
    { intros j Hj Hnj. unfold upd. rewrite decide_False by set_solver. apply Hidle; set_solver. }
    exists (e1 ++ e2). split; [|by apply (visits_module _ _ _ t i)].
    eexists _, st'. split; [exact Er|]. split.
    { eapply rtc_l; [|exact Hrtc]. exists i, true, st2. split; [done|]. split; [|done]. cbn [snd]. by rewrite Erun. }
    split; [|done]. apply (eddy_moved_trans _ _ _ pend _ [] _ Hm).
    apply (eddy_moved_trans _ _ _ _ _ [] _ (moved_put _ _ _ _ Hi2)).
    apply (eddy_moved_trans _ _ _ _ _ _ _ Hm2).
    destruct Hm' as [Hm61 Hm62 Hm63]. constructor; [|done|done]. eapply inv_ext; [exact Hm61|].
    intros j. unfold upd. case_decide as E; [|done]. subst. symmetry. by apply Hidle.
Qed.

(** ** The loop *)

Context (get_timestamp_val : HT → F).

(** [n] iterations of the loop. *)
Fixpoint eddy_run (n : nat) (st : state) : cres state :=
  match n with
  | O => Ok st
  | S n' => let! st1 := eddy_step get_timestamp_val spins drains cfg st in eddy_run n' st1
  end.

Lemma mstep_run r r' : rtc mstep r r' → ∀ st, route_module spins cfg st = Ok r →
  ∃ n st', eddy_run n st = Ok st' ∧ route_module spins cfg st' = Ok r'.
Proof.
  induction 1 as [r|r r1 r' (i & e & st1 & Er & Erun & Er1) _ IH]; intros st E; [by exists 0, st|].
  destruct (IH st1 Er1) as (n & st' & En & E'). exists (S n), st'. split; [|done].
  cbn [eddy_run]. unfold eddy_step. rewrite E. cbn [cbind]. destruct r as [c st0]. cbn in Er, Erun. subst c.
  rewrite Erun. cbn [cbind]. done.
Qed.

Lemma comes_back_run (st : state) pend evs : comes_back st pend [] evs →
  ∃ n st1 st', eddy_run n st = Ok st1 ∧ route_module spins cfg st1 = Ok (FromSource, st')
    ∧ moved st st' pend evs ∧ canRemoveQuery st' = true.
Proof.
  intros (r & st' & Er & Hrtc & Hm & Es & Ev). destruct (mstep_run _ _ Hrtc st Er) as (n & st1 & En & E1).
  exists n, st1, st'. unfold resumed in E1. rewrite Es in E1. unfold canRemoveQuery, Eddy.empty. by rewrite Ev, Es.
Qed.

(** From a tuple that has just been taken, with an empty stack. *)
Lemma explores_run (st : state) t pend : inv st pend → iht st = Some t → ihtValid st = true → good live fits t →
  stack st = [] → (∀ j, j ∈ live → pend j = None) →
  ∃ evs n st1 st', visits f qids masks t evs ∧ eddy_run n st = Ok st1 ∧ route_module spins cfg st1 = Ok (FromSource, st')
    ∧ moved st st' pend evs ∧ canRemoveQuery st' = true.
Proof.
  intros Hi Et Ev Hg Es Hidle.
  destruct (explores_all (unseen t) st t pend Hi Et Ev Hg) as (evs & Hb & Hv);
    rewrite ?Es in *; [apply NoDup_nil_2|by intros j Hj%elem_of_nil|by auto|done|].
  destruct (comes_back_run _ _ _ Hb) as (n & st1 & st' & ?). by exists evs, n, st1, st'.
Qed.

(** C11: the loop of the eddy implements the exploration, and ends it: from a
    state that holds a tuple, with every operator idle, finitely many iterations
    lead to a state whose route is to take the next tuple from a source, every
    operator idle again, and what was announced to the queries meanwhile is what
    an exploration of the tuple announces.  No assertion fails (the module stack
    does not overflow) and nothing undefined is touched; this holds for both
    routing policies, whatever the random generators answer. *)
Theorem eddy_explores st t :
  inv st (λ _, None) → iht st = Some t → ihtValid st = true → good live fits t → stack st = [] →
  ∃ n st1 st' evs, eddy_run n st = Ok st1 ∧ route_module spins cfg st1 = Ok (FromSource, st')
    ∧ visits f qids masks t evs ∧ out st' = out st ++ evs
    ∧ inv st' (λ _, None) ∧ kept st st' ∧ canRemoveQuery st' = true.
Proof.
  intros Hi Et Ev Hg Es.
  destruct (explores_run st t _ Hi Et Ev Hg Es) as (evs & n & st1 & st' & Hv & En & Er & [Hi' Hk Ho] & Hc); [done|].
  by exists n, st1, st', evs.
Qed.
End route.
End EddyRoute.
