(* ===== verification/EddyGSF.v ===== *)
(** * The continuous-query eddy over grouped selection filters

    The grouped selection filter as an operator of the eddy: a tuple goes
    through an input and an output queue of pointers
    ([FJORD_DEQ_INP_PTR], [FJORD_ENQ_OUT_PTR] of [nodeFjord.h]; the queues
    themselves are [ResultQ.v], here they are bounded lists), and
    [ProcessNextGSFilter] evaluates the predicates on it.  The value of an
    expression on a tuple ([ExecEvalExpr]) is a parameter. *)

From S2P Require Import Prelude BitArray GSFilter GSFilterSpec GSFilterNode GSFilterThm Eddy EddyLoop EddySpec.

Module EddyGSF.
Import Bit Eddy EddySpec.
#[local] Opaque bits_of below.

Section gsf.
Context {V C N HT : Type} `{EqDecision C}.

(** [room] is how many tuples a queue takes. *)
Record GSFModule : Type := mkModule {
  node : N;
  filter : GSF.GSFilter V C;
  room : nat;
  input : list (IHT HT);
  output : list (IHT HT)
}.

Class Tuples : Type := {
  ExecEvalExpr : N → list (option HT) → V;
  HeapTupleIsPunct : HT → bool
}.
Context `{!Tuples}.

Definition enqueue_iht (room : nat) (q : list (IHT HT)) (t : IHT HT) : bool * list (IHT HT) :=
  if decide (length q < room) then (true, q ++ [t]) else (false, q).

Definition dequeue_iht (q : list (IHT HT)) : option (IHT HT) * list (IHT HT) :=
  match q with [] => (None, []) | t :: q' => (Some t, q') end.

(** What the filter looks at in a tuple. *)
Definition view (n : N) (t : IHT HT) : GSF.IHT V :=
  GSF.mkIHT (ExecEvalExpr n (t_base_tuples t)) (ihtIsPunct HeapTupleIsPunct t) (t_queriesCompleted t).

(** The tuple sent on is the one that came in, with more queries completed. *)
Definition process_module (m : GSFModule) : cres GSFModule :=
  let '(o, inp) := dequeue_iht (input m) in
  match o with
  | None => Ok m
  | Some t =>
      let! (g, r) := GSF.ProcessNextGSFilter (filter m) (Some (view (node m) t)) in
      Ok (mkModule (node m) g (room m) inp
            match r with
            | None => output m
            | Some v => snd (enqueue_iht (room m) (output m) (with_completed t (GSF.t_queriesCompleted v)))
            end)
  end.

#[global] Instance gsf_fjord : Fjord GSFModule HT := {|
  fjord_enq_inp m t :=
    let '(b, q) := enqueue_iht (room m) (input m) t in Ok (b, mkModule (node m) (filter m) (room m) q (output m));
  ProcessNextNode := process_module;
  fjord_deq_out m :=
    let '(o, q) := dequeue_iht (output m) in Ok (o, mkModule (node m) (filter m) (room m) (input m) q);
  ProcessRemoveQuery m q :=
    let! (last, g) := GSF.ProcessRemoveQueryGSF (filter m) q in
    Ok (last, mkModule (node m) g (room m) (input m) (output m));
  fjord_usedByQueries m := GSF.usedByQueries (filter m);
  isFAgg _ := false;
  FSteMContainsTuple _ _ := Fail Undefined
|}.

(** ** What a filter answers *)

(** A predicate of query [q] in the filter fails on the base tuples; punctuation
    fails none. *)
Definition fails_on (m : GSFModule) (t : IHT HT) (q : nat) : Prop :=
  ihtIsPunct HeapTupleIsPunct t = false
  ∧ GSFNode.fails (filter m) (ExecEvalExpr (node m) (t_base_tuples t)) q.

Definition answers (m : GSFModule) (t : IHT HT) : list (IHT HT) :=
  match GSF.ProcessNextGSFilter (filter m) (Some (view (node m) t)) with
  | Ok (_, Some v) => [with_completed t (GSF.t_queriesCompleted v)]
  | _ => []
  end.

Record module_ok (m : GSFModule) : Prop := {
  mod_opers : GSFSpec.OpersOk (GSF.ops (filter m));
  mod_gsf : GSFNode.gsf_ok (filter m);
  mod_room : 0 < room m
}.

(** The same predicates on the same expression. *)
Record same_module (m m' : GSFModule) : Prop := {
  sm_node : node m' = node m;
  sm_room : room m' = room m;
  sm_maps : GSFThm.same_maps (filter m) (filter m')
}.

Lemma same_counted (g g' : GSF.GSFilter V C) n b : GSFThm.same_maps g g' → GSFThm.same_maps g (GSFThm.counted g' n b).
Proof. intros []. by constructor. Qed.

Lemma answers_ok m t : module_ok m → wf 128 (t_queriesCompleted t) →
  ∃ c, wf 128 c ∧ (∀ q, q ∈ bits_of 128 c ↔ q ∈ completed_of t ∨ fails_on m t q)
    ∧ answers m t = (if decide (bits_of 128 c = below 128 ∧ ihtIsPunct HeapTupleIsPunct t = false) then [] else [with_completed t c])
    ∧ ∀ m', same_module m m' →
        ∃ g r, GSF.ProcessNextGSFilter (filter m') (Some (view (node m') t)) = Ok (g, r) ∧ GSFThm.same_maps (filter m) g
          ∧ match r with Some v => [with_completed t (GSF.t_queriesCompleted v)] | None => [] end = answers m t.
Proof.
  intros [Ho Hg _] Hw.
  destruct (GSFThm.process_result (filter m) (view (node m) t) Ho Hg Hw) as (d & Wd & Bd & E).
  unfold fails_on, answers in *. cbn [view GSF.isPunct GSF.expr_value GSF.t_queriesCompleted] in *.
  destruct (ihtIsPunct HeapTupleIsPunct t) eqn:Ep.
  - exists (t_queriesCompleted t). split; [done|]. split; [intros q; split; [by left|by intros [?|[? ?]]]|].
    rewrite (E (filter m)) by done. rewrite decide_False by (by intros [? ?]). split; [done|].
    intros m' [En _ Hs]. rewrite En, (E _ Hs). eexists _, _. split; [done|]. split; [by apply same_counted|done].
  - exists d. split; [done|]. change GSF.TCQMAXQUERIES with 128 in *. split.
    { intros q. rewrite Bd. split; [intros [?|?]; [by left|by right]|intros [?|[_ ?]]; [by left|by right]]. }
    rewrite (E (filter m)) by done.
    destruct (decide (bits_of 128 d = below 128)) as [Ed|Ed].
    + rewrite decide_True by done. split; [done|]. intros m' [En _ Hs]. rewrite En, (E _ Hs).
      eexists _, _. split; [done|]. split; [by apply same_counted|done].
    + rewrite decide_False by (by intros [? ?]). split; [done|]. intros m' [En _ Hs]. rewrite En, (E _ Hs).
      eexists _, _. split; [done|]. split; [by apply same_counted|done].
Qed.

(** ** The laws of an operator *)

(** A filter with the predicates of [m0] that has [p] left to answer. *)
Definition answers_next (m0 m : GSFModule) (p : option (list (IHT HT))) : Prop :=
  same_module m0 m ∧ input m = [] ∧ output m = default [] p.

Lemma filter_feed m0 m t : module_ok m0 → answers_next m0 m None → wf 128 (t_queriesCompleted t) →
  ∃ b m1 m2 m3, fjord_enq_inp m t = Ok (b, m1) ∧ process_module m1 = Ok m2
    ∧ fjord_deq_out m2 = Ok (hd_error (answers m0 t), m3) ∧ answers_next m0 m3 (rest (answers m0 t)).
Proof.
  intros Hm (Hs & Ei & Eo) Hw. destruct (answers_ok m0 t Hm Hw) as (c & _ & _ & _ & E).
  destruct (E m Hs) as (g & r & Eg & Hsm & Er). rewrite <- Er. destruct Hs as [H1 H2 _].
  assert (0 < room m) as Hr by (rewrite H2; apply Hm).
  cbn [fjord_enq_inp gsf_fjord fjord_deq_out]. unfold enqueue_iht at 1. rewrite Ei, decide_True by done.
  exists true, (mkModule (node m) (filter m) (room m) [t] (output m)). unfold process_module. cbn [input dequeue_iht filter node]. rewrite Eg. cbn [cbind output room].
  destruct r as [v|]; eexists _, (mkModule (node m) g (room m) [] []); (split; [done|]); (split; [reflexivity|]).
  all: unfold enqueue_iht; rewrite Eo, ?decide_True by done; (split; [done|]); (split; [by constructor|done]).
Qed.

Lemma filter_drain m0 m p : answers_next m0 m (Some p) →
  ∃ m3, process_module m = Ok m ∧ fjord_deq_out m = Ok (hd_error p, m3) ∧ answers_next m0 m3 (rest p).
Proof.
  intros ([H1 H2 H3] & Ei & Eo). exists (mkModule (node m) (filter m) (room m) [] (tail p)).
  unfold process_module. rewrite Ei. split; [done|]. cbn [default] in Eo. cbn [fjord_deq_out gsf_fjord]. rewrite Ei, Eo.
  split; [by destruct p|]. split; [by constructor|]. split; [done|]. by destruct p.
Qed.

(** The one answer is the tuple with more queries completed. *)
Lemma filter_answer m0 t u : module_ok m0 → wf 128 (t_queriesCompleted t) → u ∈ answers m0 t →
  ∃ c, u = with_completed t c ∧ wf 128 c ∧ ∀ q, q ∈ bits_of 128 c ↔ q ∈ completed_of t ∨ fails_on m0 t q.
Proof.
  intros Hm Hw Hu. destruct (answers_ok m0 t Hm Hw) as (c & Hc & Ec & Ea & _). rewrite Ea in Hu.
  case_decide; [by apply elem_of_nil in Hu|]. apply list_elem_of_singleton in Hu as ->. by exists c.
Qed.

Context (ms : nat → GSFModule) (live : gset nat).
Context (Hms : ∀ i, i ∈ live → module_ok (ms i)).

(** Operator [i], between two tuples. *)
Definition idles (m : GSFModule) (i : nat) (p : option (list (IHT HT))) : Prop := i ∈ live ∧ answers_next (ms i) m p.

Definition ask (i : nat) (t : IHT HT) : list (IHT HT) := answers (ms i) t.

Lemma idles_laws : ModuleLaws live ask (λ _, True) idles.
Proof.
  constructor; [| | |done|done].
  - intros m i t (Hl & Ha) [[_ _ Hw] _ _ _] _. destruct (filter_feed (ms i) m t (Hms i Hl) Ha Hw) as (b & m1 & m2 & m3 & E1 & E2 & E3 & Hr).
    by exists b, m1, m2, m3.
  - intros m i p (Hl & Ha). destruct (filter_drain (ms i) m p Ha) as (m3 & E2 & E3 & Hr). by exists m, m3.
  - intros m i p t u (Hl & _) [Hw Hlv Hf _] _ Hu.
    destruct (filter_answer (ms i) t u (Hms i Hl) (twf_completed _ Hw) Hu) as (c & -> & Hc & Ec). destruct Hw as [Hr Hd _].
    constructor; [by constructor|done|intros q Hq; apply Ec; by left|done| |done].
    intros j Hj. apply Hf. apply elem_of_difference in Hj. apply Hj.
Qed.
End gsf.
Arguments GSFModule : clear implicits.
Arguments Tuples : clear implicits.
End EddyGSF.
