(* ===== verification/EddyInv.v ===== *)
(** * The continuous-query eddy: its invariant

    A plan is well formed when every operator is a working filter, when a query
    waits for every filter that holds one of its predicates, and when it waits
    for no operator that is gone.  The eddy rests when no tuple is in flight.
    Planning a predicate, serving a tuple and removing a query keep this. *)

From S2P Require Import Prelude BitArray GSFilter GSFilterSpec GSFilterNode GSFilterThm Eddy EddyLoop EddySpec EddyGSF.

Module EddyInv.
Import Bit Eddy EddyLoop EddySpec EddyGSF.
#[local] Opaque bits_of below.

Section invariant.
Context {V C N HT F : Type} `{EqDecision C}.
Local Abbreviation module := (GSFModule V C N HT).
Local Abbreviation state := (EddyState module HT F).

Record well_planned (st : state) : Prop := {
  wp_module i m : modules st !! i = Some (Some m) → i < 96 ∧ module_ok m;
  wp_waits i m op c q : modules st !! i = Some (Some m) → GSFNode.registered (filter m) op c q →
    i ∈ cmask (completionMask st) q ∧ q ∈ GSF.usedByQueries (filter m);
  wp_live i q : q < 128 → i ∈ cmask (completionMask st) q →
    ∃ m, modules st !! i = Some (Some m) ∧ q ∈ GSF.usedByQueries (filter m);
  wp_masks q : q < 128 → ∃ m, completionMask st !! q = Some m ∧ wf 96 m;
  wp_operators src : src < 64 → ∃ o, operators st !! src = Some o ∧ wf 96 o
}.

(** No tuple in flight: an empty stack, and nothing in the queues. *)
Record resting (st : state) : Prop := {
  rs_stack : stack st = [];
  rs_queues i m : modules st !! i = Some (Some m) → input m = [] ∧ output m = [];
  rs_arrays : 96 ≤ length (weights st) ∧ 96 ≤ length (current_tuples_returned st)
}.

Lemma cmask_lookup masks q m : masks !! q = Some m → cmask masks q = bits_of 96 m.
Proof. intros E. unfold cmask. f_equal. by apply list_lookup_total_correct. Qed.

(** A bit set in one mask. *)
Lemma cmask_alter masks i q : i < 96 → (∃ m, masks !! q = Some m ∧ wf 96 m) →
  let masks' := alter (λ b, BitArraySetBit b i) q masks in
  (∃ m, masks' !! q = Some m ∧ wf 96 m ∧ bits_of 96 m = {[i]} ∪ cmask masks q)
  ∧ ∀ q', q' ≠ q → masks' !! q' = masks !! q' ∧ cmask masks' q' = cmask masks q'.
Proof.
  intros Hi (m & Em & Hm). split.
  - exists (BitArraySetBit m i). rewrite list_lookup_alter_eq, Em. split; [done|]. split; [by apply SetBit_wf|].
    by rewrite SetBit_set, (cmask_lookup masks q m).
  - intros q' Hne. assert (alter (λ b, BitArraySetBit b i) q masks !! q' = masks !! q') as E by (by apply list_lookup_alter_ne).
    split; [exact E|]. unfold cmask. f_equal. by apply list_eq_lookup_total_1.
Qed.

End invariant.
End EddyInv.
