(* ===== verification/EddyAnswer.v ===== *)
(** * The continuous-query eddy: every query gets its tuples, once

    With filters for operators, an exploration of a tuple delivers it exactly
    once to each query that wants it and none of whose predicates fails on it,
    and to no other; so does the loop of the eddy for a tuple it takes from a
    source. *)

From S2P Require Import Prelude BitArray GSFilter GSFilterSpec GSFilterNode GSFilterThm Eddy EddyLoop EddySpec EddyRoute EddyGSF.

Module EddyAnswer.
Import Bit Eddy EddyLoop EddySpec EddyRoute EddyGSF.
#[local] Opaque bits_of below.

(** ** Counting announcements *)

Section count.
Context {HT : Type}.
Implicit Types (t u : IHT HT) (evs : list (event HT)).

Definition delivers (q : nat) (e : event HT) : Prop :=
  match e with receiveTuple _ w => q ∈ bits_of 128 w | freeResultQueue _ => False end.

#[global] Instance delivers_dec q e : Decision (delivers q e).
Proof. destruct e; cbn [delivers]; apply _. Defined.

(** How many times query [q] gets a tuple. *)
Definition deliveries (q : nat) evs : nat := length (base.filter (delivers q) evs).

Lemma deliveries_app q e1 e2 : deliveries q (e1 ++ e2) = deliveries q e1 + deliveries q e2.
Proof. unfold deliveries. by rewrite filter_app, length_app. Qed.

(** Every announcement is of these base tuples. *)
Definition all_of (b : list (option HT)) evs : Prop :=
  Forall (λ e, match e with receiveTuple u _ => t_base_tuples u = b | freeResultQueue _ => False end) evs.

Context (qids : list nat) (masks : list BitArray).

Lemma elem_of_due t q : q ∈ due qids masks t ↔ q ∈ qids ∧ cmask masks q ⊆ done_of t ∧ q ∉ completed_of t.
Proof. unfold due. rewrite elem_of_filter, elem_of_list_to_set. tauto. Qed.

Lemma announced_deliveries t t' evs q : announced qids masks t t' evs →
  deliveries q evs = if decide (q ∈ due qids masks t) then 1 else 0.
Proof.
  intros [E|c w _ _ _ _ Ew]; unfold deliveries.
  - rewrite E, decide_False by apply not_elem_of_empty. done.
  - rewrite filter_cons, filter_nil. rewrite <- Ew.
    destruct (decide (delivers q _)) as [Hq|Hq]; cbn [delivers] in Hq; [by rewrite decide_True|by rewrite decide_False].
Qed.

Lemma announced_all_of t t' evs : announced qids masks t t' evs → all_of (t_base_tuples t) evs.
Proof.
  intros [E|c w _ _ _ _ _]; [constructor|]. apply Forall_singleton. done.
Qed.
End count.

(** ** Filters *)

Section answer.
Context {V C N HT : Type} `{EqDecision C} `{!Tuples V N HT}.
Context (ms : nat → GSFModule V C N HT) (live : gset nat) (qids : list nat) (masks : list BitArray).
Implicit Types t u : IHT HT.

(** A query waits for every operator that holds one of its predicates. *)
Context (Hms : ∀ i, i ∈ live → module_ok (ms i)).
Context (Hqids : ∀ q, q ∈ qids → q < 128).
Context (Hwaits : ∀ i t q, i ∈ live → q ∈ qids → fails_on (ms i) t q → i ∈ cmask masks q).

(** The query wants the tuple, and no operator it has yet to visit rejects it. *)
Definition passes t (q : nat) : Prop :=
  q ∈ qids ∧ q ∉ completed_of t ∧ ∀ i, i ∈ ready_of t → ¬ fails_on (ms i) t q.

Definition served t evs : Prop :=
  all_of (t_base_tuples t) evs
  ∧ ∀ q, deliveries q evs = 1 ∧ passes t q ∨ deliveries q evs = 0 ∧ ¬ passes t q.

(** The operators a tuple has seen or will see are enough for the queries. *)
Definition reaches t : Prop :=
  ∀ q, q ∈ qids → q ∉ completed_of t → cmask masks q ⊆ done_of t ∪ ready_of t.

(** A tuple that has been announced, and whose operators are enough for the
    queries that still want it. *)
Record tracked t : Prop := {
  tr_good : good live (λ _, True) t;
  tr_pending q : q ∈ qids → q ∉ completed_of t → ¬ cmask masks q ⊆ done_of t;
  tr_reach : reaches t
}.

Lemma fails_on_base (m : GSFModule V C N HT) t u q : t_base_tuples u = t_base_tuples t → fails_on m u q ↔ fails_on m t q.
Proof. intros E. unfold fails_on, ihtIsPunct. by rewrite E. Qed.

Lemma visits_all_nil f i evs : visits_all f qids masks i [] evs → evs = ([] : list (event HT)).
Proof. by inversion 1. Qed.

Lemma visits_all_one f i u evs : visits_all f qids masks i [u] evs →
  ∃ u' e1 e2, announced qids masks (mark i u) u' e1 ∧ visits f qids masks u' e2 ∧ evs = (e1 ++ e2 : list (event HT)).
Proof.
  inversion 1; subst. match goal with H : visits_all _ _ _ _ [] _ |- _ => apply visits_all_nil in H as -> end.
  rewrite app_nil_r. eauto 10.
Qed.

(** A tuple that is announced serves those that are due, then the others. *)
Lemma served_announced t u e1 e2 : good live (λ _, True) t → reaches t → announced qids masks t u e1 →
  (tracked u → served u e2) → served t (e1 ++ e2).
Proof.
  intros Hg Hr Ha Hsrv.
  destruct (announced_same _ _ _ _ _ Ha (good_wf _ _ _ Hg)) as (_ & Er & Ed & Ec & Eb).
  assert (ready_of u = ready_of t ∧ done_of u = done_of t) as [Rr Rd] by (unfold ready_of, done_of; by rewrite Er, Ed).
  assert (∀ q, q ∈ completed_of u ↔ q ∈ completed_of t ∨ q ∈ due qids masks t) as Hco by (intros q; by rewrite Ec, elem_of_union).
  assert (tracked u) as Htr.
  { constructor; [by eapply announced_good; [done|..]|..]; intros q Hq Hn; rewrite Hco, elem_of_due in Hn; rewrite ?Rr, Rd; [tauto|].
    apply Hr; tauto. }
  destruct (Hsrv Htr) as [Hall Hcnt]. split.
  { apply Forall_app. split; [exact (announced_all_of _ _ _ _ _ Ha)|]. by rewrite <- Eb. }
  intros q. rewrite deliveries_app, (announced_deliveries _ _ _ _ _ q Ha).
  assert (∀ j, fails_on (ms j) u q ↔ fails_on (ms j) t q) as Hfb by (intros j; by apply fails_on_base).
  destruct (decide (q ∈ due qids masks t)) as [Hd|Hd].
  - left. destruct (Hcnt q) as [[_ (_ & Hn & _)]|[-> _]]; [destruct Hn; apply Hco; tauto|]. split; [done|].
    apply elem_of_due in Hd as (Hq & Hsub & Hn). split; [done|]. split; [done|].
    intros j Hj Hfj. apply (good_fresh _ _ _ Hg j Hj), Hsub, (Hwaits j t); [by apply (good_live _ _ _ Hg)|done|done].
  - assert (passes t q ↔ passes u q) as ->; [|apply Hcnt].
    unfold passes. rewrite Rr, Hco. setoid_rewrite Hfb. tauto.
Qed.

(** One operator: the queries it rejects, and the others. *)
Lemma served_mark i t c evs : good live (λ _, True) t → i ∈ ready_of t → wf 128 c →
  (∀ q, q ∈ bits_of 128 c ↔ q ∈ completed_of t ∨ fails_on (ms i) t q) →
  served (mark i (with_completed t c)) evs → served t evs.
Proof.
  intros Hg Hi Hc Ec [Hall Hcnt]. split; [exact Hall|]. intros q.
  assert (i < 96) as Hi96 by (by apply elem_of_below, (bits_of_below 96 (t_ready t))).
  assert (tuple_wf (with_completed t c)) as Hu by (destruct Hg as [[] _ _ _]; by constructor).
  destruct (mark_ok i _ Hu Hi96) as (_ & Er & _ & Eco).
  assert (passes t q ↔ passes (mark i (with_completed t c)) q) as ->; [|apply Hcnt].
  unfold passes. rewrite Er, Eco. change (completed_of (with_completed t c)) with (bits_of 128 c).
  change (ready_of (with_completed t c)) with (ready_of t). rewrite Ec.
  assert (∀ j, fails_on (ms j) (mark i (with_completed t c)) q ↔ fails_on (ms j) t q) as Hfb by (intros j; by apply fails_on_base).
  setoid_rewrite Hfb. setoid_rewrite elem_of_difference. setoid_rewrite elem_of_singleton. split.
  - intros (Hq & Hn & Hf). split; [done|]. split; [|intros j [Hj _]; by apply Hf]. intros [?|?]; [done|by apply (Hf i)].
  - intros (Hq & Hn & Hf). split; [done|]. split; [tauto|]. intros j Hj. destruct (decide (j = i)) as [->|]; [tauto|auto].
Qed.

Lemma reaches_mark i t c : tracked t → i ∈ ready_of t → wf 128 c → completed_of t ⊆ bits_of 128 c →
  good live (λ _, True) (mark i (with_completed t c)) ∧ reaches (mark i (with_completed t c)).
Proof.
  intros [Hg _ Hr] Hi Hc Hsub.
  assert (i < 96) as Hi96 by (by apply elem_of_below, (bits_of_below 96 (t_ready t))).
  destruct Hg as [[Wr Wd Wc] Hlv Hfr _]. assert (tuple_wf (with_completed t c)) as Hu by (by constructor).
  destruct (mark_ok i _ Hu Hi96) as (Hmu & Er & Ed & Eco).
  change (done_of (with_completed t c)) with (done_of t) in Ed. change (ready_of (with_completed t c)) with (ready_of t) in Er.
  change (completed_of (with_completed t c)) with (bits_of 128 c) in Eco. split.
  - constructor; [done|rewrite Er; set_solver|rewrite Er, Ed; set_solver|done].
  - intros q Hq Hn. rewrite Eco in Hn. rewrite Ed, Er. intros j Hj.
    assert (j ∈ done_of t ∪ ready_of t) as Hj' by (apply (Hr q); [done|set_solver|done]).
    destruct (decide (j = i)) as [->|]; set_solver.
Qed.

(** An exploration serves the queries. *)
Lemma visits_served n : ∀ t evs, unseen t ≤ n → tracked t → visits (ask ms) qids masks t evs → served t evs.
Proof.
  induction n as [|n IH]; intros t evs Hn Htr Hv; inversion Hv as [? Hset|? i ? Hne Hi Hall]; subst.
  all: assert (all_of (t_base_tuples t) (@nil (event HT))) as Hnil by constructor.
  all: try (split; [done|]; intros q; right; split; [done|]; intros (Hq & Hnc & _); destruct Hset as [E|E];
    [apply Hnc; rewrite E, elem_of_below; auto
    |apply (tr_pending _ Htr q Hq Hnc); rewrite <- (right_id_L ∅ (∪) (done_of t)), <- E; by apply (tr_reach _ Htr)]).
  all: assert (i < 96) as Hi96 by (by apply elem_of_below, (bits_of_below 96 (t_ready t))).
  all: assert (i ∉ done_of t) as Hid by (intros ?; by apply (good_fresh _ _ _ (tr_good _ Htr) i)).
  { apply (unseen_pos i) in Hid; [lia|done]. }
  assert (i ∈ live) as Hil by (by apply (good_live _ _ _ (tr_good _ Htr))).
  destruct (answers_ok (ms i) t (Hms i Hil) (twf_completed _ (good_wf _ _ _ (tr_good _ Htr)))) as (c & Hc & Ec & Ea & _).
  unfold ask in Hall. rewrite Ea in Hall. case_decide as Hd.
  - apply visits_all_nil in Hall as ->. split; [done|]. intros q. right. split; [done|]. intros (Hq & Hnc & Hf).
    assert (q ∈ bits_of 128 c) as Hin by (destruct Hd as [-> _]; apply elem_of_below; auto).
    apply Ec in Hin as [?|Hfi]; [done|]. by apply (Hf i).
  - apply visits_all_one in Hall as (u' & e1 & e2 & Ha & Hv2 & ->).
    destruct (reaches_mark i t c Htr Hi Hc) as [Hg Hr]; [intros q Hq; apply Ec; by left|].
    apply (served_mark i t c); [apply Htr|done..|]. apply (served_announced _ u'); [done..|]. intros Htr'.
    apply IH; [|done|done]. destruct (announced_same _ _ _ _ _ Ha (good_wf _ _ _ Hg)) as (_ & _ & Ed & _).
    destruct (mark_ok i (with_completed t c)) as (_ & _ & Ed2 & _); [destruct (good_wf _ _ _ (tr_good _ Htr)); by constructor|done|].
    apply (unseen_mark i t); [|done..]. assert (done_of u' = {[i]} ∪ done_of t) as -> by (unfold done_of at 1; rewrite Ed; exact Ed2). done.
Qed.
End answer.
End EddyAnswer.
