(* ===== verification/EddyServe.v ===== *)
(** * The continuous-query eddy: from a source to the queries

    A tuple that the eddy takes from a source starts with the operators of the
    source to visit and with the queries of the source to serve; the loop then
    serves exactly these. *)

From S2P Require Import Prelude BitArray GSFilter GSFilterSpec GSFilterNode GSFilterThm Eddy EddyLoop EddySpec EddyRoute EddyGSF EddyInv EddyAnswer.

Module EddyServe.
Import Bit Eddy EddyLoop EddySpec EddyRoute EddyGSF EddyInv EddyAnswer.
#[local] Opaque bits_of below.

(** ** The first bits of a tuple *)

Lemma clear_bits_ok (a : BitArray) l : wf 128 a → (∀ q, q ∈ l → q < 128) →
  wf 128 (foldl BitArrayClearBit a l) ∧ bits_of 128 (foldl BitArrayClearBit a l) = bits_of 128 a ∖ list_to_set l.
Proof.
  revert a. induction l as [|q l IH]; intros a Ha Hl; cbn [foldl].
  { split; [done|]. by rewrite list_to_set_nil, difference_empty_L. }
  destruct (IH (BitArrayClearBit a q)) as [Hw E]; [apply ClearBit_wf; [apply Hl; by left|done]|intros; apply Hl; by right|].
  split; [done|]. rewrite E, ClearBit_set by (done || apply Hl; by left).
  apply set_eq. intros j. rewrite list_to_set_cons, !elem_of_difference, elem_of_union, elem_of_singleton. tauto.
Qed.

Section base.
Context {M HT F : Type} `{!Fjord M HT} `{!Double F}.
Local Abbreviation state := (EddyState M HT F).
Implicit Types (st : state) (t : IHT HT).

Lemma initFromBaseTuple_ok t ht src : tuple_wf t → let t' := initFromBaseTuple t ht src in
  tuple_wf t' ∧ ready_of t' = ∅ ∧ done_of t' = ∅ ∧ completed_of t' = below 128.
Proof.
  intros [Hr Hd Hc]. unfold ready_of, done_of, completed_of, initFromBaseTuple.
  cbn [t_ready t_done t_queriesCompleted]. change TCQMAXQUERIES with 128. change TCQMAXOPERATORS with 96.
  rewrite !RealClearAll_set, SetAll_set by done. split; [|done].
  constructor; cbn [t_ready t_done t_queriesCompleted]; auto using RealClearAll_wf, SetAll_wf.
Qed.

(** Sources without joins build nothing. *)
Lemma build_none st t stems dup (l : list nat) : bits_of 96 stems = ∅ → (∀ i, i ∈ l → i < 96) → build_into st t stems dup l = Ok (true, t, st).
Proof.
  intros He. induction l as [|i l IH]; intros Hl; cbn [build_into]; [done|].
  destruct (BitArrayBitIsSet stems i) eqn:E; [|apply IH; intros; apply Hl; by right].
  exfalso. apply (not_elem_of_empty (C := gset nat) i). rewrite <- He. apply elem_of_bits_of.
  split; [apply Hl; by left|done].
Qed.

Lemma next_slot_same (s : ScanModule HT F) : let s' := getNextTupleIntoSlot s in
  sourceID s' = sourceID s ∧ nodup s' = nodup s ∧ scan_usedByQueries s' = scan_usedByQueries s ∧ scan_output s' = scan_output s.
Proof.
  unfold getNextTupleIntoSlot. set (s1 := if negb (isRecursivelyFed s) then _ else _ : ScanModule HT F).
  assert (sourceID s1 = sourceID s ∧ nodup s1 = nodup s ∧ scan_usedByQueries s1 = scan_usedByQueries s
    ∧ scan_output s1 = scan_output s) as H.
  { unfold s1. destruct (negb _); [done|]. by destruct (recurseResult s). }
  destruct (slot s1) as [[|]|]; exact H.
Qed.

(** The scan after it has been asked, if need be. *)
Definition asked (s : ScanModule HT F) : ScanModule HT F := if negb (haveNewTuple s) then getNextTupleIntoSlot s else s.

(** Source [k] has tuple [ht] next, the operators [ops] and the state modules [stems]. *)
Record source_ready st (k : nat) (s : ScanModule HT F) (ht : HT) (old : IHT HT) (ops stems : BitArray) : Prop := {
  sr_source : sources st !! k = Some (Some s);
  sr_more : IsScanModuleDone s = false;
  sr_slot : slot (asked s) = Some (Some ht);
  sr_output : scan_output s = [];
  sr_table : SourceIHT_Table st !! sourceID s = Some old;
  sr_old : tuple_wf old;
  sr_operators : operators st !! sourceID s = Some ops;
  sr_ops : wf 96 ops;
  sr_stems : sourceStems st !! sourceID s = Some stems;
  sr_queries q : q ∈ scan_usedByQueries s → q < 128
}.

(** The tuple that the eddy starts with. *)
Definition base_tuple (s : ScanModule HT F) (ht : HT) (old : IHT HT) (ops : BitArray) : IHT HT :=
  clearCompletionBits (with_ready (initFromBaseTuple old ht (sourceID s))
    (BitArrayClone (t_ready (initFromBaseTuple old ht (sourceID s))) ops TCQMAXOPERATORS)) (scan_usedByQueries s).

Lemma started_bits t r l : let t' := clearCompletionBits (with_ready t r) l in
  t_ready t' = r ∧ t_done t' = t_done t ∧ t_queriesCompleted t' = foldl BitArrayClearBit (t_queriesCompleted t) l.
Proof. done. Qed.

Lemma base_tuple_ok st k s ht old ops stems : source_ready st k s ht old ops stems → let t := base_tuple s ht old ops in
  tuple_wf t ∧ ready_of t = bits_of 96 ops ∧ done_of t = ∅ ∧ completed_of t = below 128 ∖ list_to_set (scan_usedByQueries s).
Proof.
  intros []. destruct (initFromBaseTuple_ok old ht (sourceID s)) as ([Wr Wd Wc] & _ & Ed & Ec); [done|].
  unfold base_tuple. set (t0 := initFromBaseTuple _ _ _) in *. clearbody t0.
  destruct (started_bits t0 (BitArrayClone (t_ready t0) ops 96) (scan_usedByQueries s)) as (Br & Bd & Bc).
  destruct (clear_bits_ok _ (scan_usedByQueries s) Wc) as [Wc' Ec']; [done|].
  change TCQMAXOPERATORS with 96. cbn zeta. split; [constructor; rewrite ?Br, ?Bd, ?Bc; [apply Clone_wf; [by destruct sr_ops0|done]|done..]|].
  unfold ready_of, done_of, completed_of in *. rewrite Br, Bd, Bc, Ec', Ec, Clone_set by done. done.
Qed.

Lemma ProcessNextScanModule_ok (cfg : config F) st k s ht old ops stems :
  source_ready st k s ht old ops stems → bits_of 96 stems = ∅ → UseTupleLineage cfg = true →
  ProcessNextScanModule cfg st k s
  = Ok (with_counts (with_sources st (<[k := Some (taken (asked s) (base_tuple s ht old ops))]> (sources st)))
         (total_base_tuples_remaining st - 1) (numTuplesProcessed st)).
Proof.
  intros [] Hnj Hl. unfold ProcessNextScanModule. rewrite sr_more0. fold (asked s). rewrite sr_slot0, Hl.
  assert (sourceID (asked s) = sourceID s ∧ scan_usedByQueries (asked s) = scan_usedByQueries s) as [-> ->].
  { unfold asked. destruct (negb _); [|done]. by destruct (next_slot_same s) as (? & _ & ? & _). }
  rewrite sr_table0. cbn [access cbind]. unfold buildStemsNoDup. rewrite sr_stems0. cbn [access cbind].
  rewrite build_none by (done || intros i; rewrite elem_of_seq; change TCQMAXOPERATORS with 96; lia). cbn [cbind].
  rewrite sr_operators0. cbn [access cbind negb]. done.
Qed.

(** A source at work changes only the sources and the counters. *)
Lemma run_source_got (cfg : config F) drains st k s ht old ops stems :
  source_ready st k s ht old ops stems → bits_of 96 stems = ∅ → UseTupleLineage cfg = true →
  ∃ ss n, run_source drains cfg st k = got_tuple drains cfg (with_counts (with_sources st ss) n (numTuplesProcessed st)) None (base_tuple s ht old ops).
Proof.
  intros Hsr Hnj Hl. unfold run_source. rewrite (sr_source _ _ _ _ _ _ _ Hsr). cbn [access cbind].
  rewrite (ProcessNextScanModule_ok cfg st k s ht old ops stems Hsr Hnj Hl). cbn [cbind sources with_counts with_sources].
  rewrite list_lookup_insert_eq by (by eapply lookup_lt_Some, (sr_source _ _ _ _ _ _ _ Hsr)). cbn [access cbind].
  assert (scan_output (asked s) = []) as Ho.
  { rewrite <- (sr_output _ _ _ _ _ _ _ Hsr). unfold asked. destruct (negb _); [|done]. by destruct (next_slot_same s) as (_ & _ & _ & ?). }
  unfold deq_scan. cbn [scan_output taken]. rewrite Ho. cbn [app]. eexists _, _. reflexivity.
Qed.
End base.

(** ** The theorem *)

Section serve.
Context {V C N HT F : Type} `{EqDecision C} `{!Tuples V N HT} `{!Double F}.
Local Abbreviation state := (EddyState (GSFModule V C N HT) HT F).
Context (cfg : config F) (spins drains : nat) (get_timestamp_val : HT → F).

(** The operators of a state, and those that are there. *)
Definition live_of (st : state) : gset nat := base.filter (λ i, is_live st i = true) (below 96).

Definition module_at (none : GSFModule V C N HT) (st : state) (i : nat) : GSFModule V C N HT :=
  match modules st !! i with Some (Some m) => m | _ => none end.

Lemma elem_of_live (st : state) i : well_planned st → i ∈ live_of st ↔ ∃ m, modules st !! i = Some (Some m).
Proof.
  intros Hwp. unfold live_of. rewrite elem_of_filter, elem_of_below, is_live_Some. split; [tauto|].
  intros [m Hm]. split; [by exists m|]. by destruct (wp_module _ Hwp i m Hm).
Qed.

(** The invariant in terms of the laws of operators. *)
Lemma planned_inv (st : state) none : well_planned st → resting st →
  inv (live_of st) (idles (module_at none st) (live_of st)) (queryIds st) (completionMask st) st (λ _, None).
Proof.
  intros Hwp [_ Hq [Hw Hc]]. constructor; [| |done|done].
  - intros i m Hm. assert (i ∈ live_of st) as Hi by (apply elem_of_live; [done|by exists m]). split; [done|].
    split; [done|]. split; [|by apply (Hq i)]. unfold module_at. rewrite Hm. by constructor.
  - intros i Hi. apply elem_of_live in Hi as [m Hm]; [|done]. destruct (wp_module _ Hwp i m Hm) as [Hi _].
    split; [done|]. split; [apply is_live_Some; by exists m|]. lia.
Qed.

(** A state whose operators hold the same predicates. *)
Definition same_plan (st st' : state) : Prop :=
  queryIds st' = queryIds st ∧ completionMask st' = completionMask st ∧ operators st' = operators st
  ∧ ∀ i, match modules st !! i with
         | Some (Some m) => ∃ m', modules st' !! i = Some (Some m') ∧ same_module m m'
         | _ => ∀ m', modules st' !! i ≠ Some (Some m')
         end.

Lemma same_registered (m m' : GSFModule V C N HT) op c q : same_module m m' →
  GSFNode.registered (filter m') op c q ↔ GSFNode.registered (filter m) op c q.
Proof. intros [_ _ [Eo El Er Ee En Eu]]. destruct op; cbn; by rewrite ?El, ?Er, ?Ee, ?En. Qed.

Lemma same_module_ok (m m' : GSFModule V C N HT) : same_module m m' → module_ok m → module_ok m'.
Proof.
  intros Hs [Ho [H1 H2 H3 H4 H5] Hr]. destruct Hs as [En Er [Eo El Ert Ee Ene Eu]] eqn:Es. constructor; [by rewrite Eo| |by rewrite Er].
  constructor; rewrite ?Eo, ?El, ?Ert, ?Ee, ?Ene; try done. intros op c q Hreg. apply (H5 op c q).
  by apply (same_registered m m').
Qed.

Lemma same_plan_planned (st st' : state) : same_plan st st' → well_planned st → well_planned st'.
Proof.
  intros (_ & Em & Eo & Hms) [H1 H2 H3 H4 H5].
  assert (∀ i m', modules st' !! i = Some (Some m') → ∃ m, modules st !! i = Some (Some m) ∧ same_module m m') as Hback.
  { intros i m' Hm'. specialize (Hms i). destruct (modules st !! i) as [[m|]|]; [|by destruct (Hms m')..].
    destruct Hms as (m1 & E & Hs). exists m. split; [done|]. congruence. }
  constructor; rewrite ?Em, ?Eo; [| | |done|done].
  - intros i m' Hm'. destruct (Hback i m' Hm') as (m & Hm & Hs). destruct (H1 i m Hm). split; [done|]. by eapply same_module_ok.
  - intros i m' op c q Hm' Hr. destruct (Hback i m' Hm') as (m & Hm & Hs).
    rewrite (same_registered m m') in Hr by done. rewrite (GSFThm.same_users _ _ (sm_maps _ _ Hs)). by apply (H2 i m op c).
  - intros i q Hq Hi. destruct (H3 i q Hq Hi) as (m & Hm & Hu). specialize (Hms i). rewrite Hm in Hms.
    destruct Hms as (m' & Hm' & Hs). exists m'. split; [done|]. by rewrite (GSFThm.same_users _ _ (sm_maps _ _ Hs)).
Qed.

(** What a state of the proof is in terms of the invariant. *)
Lemma inv_rests (st st' : state) none ss n : well_planned st → resting st →
  kept (with_counts (with_sources st ss) n (numTuplesProcessed st)) st' → stack st' = [] →
  inv (live_of st) (idles (module_at none st) (live_of st)) (queryIds st) (completionMask st) st' (λ _, None) →
  same_plan st st' ∧ resting st'.
Proof.
  intros Hwp [_ _ Hlen] [_ Eq _ _ Eo _ Ec _ _ _ _ [Ew Et]] Es Hi.
  assert (∀ i m', modules st' !! i = Some (Some m') →
    ∃ m, modules st !! i = Some (Some m) ∧ same_module m m' ∧ input m' = [] ∧ output m' = []) as Hback.
  { intros i m' Hm'. destruct (inv_modules _ _ _ _ _ _ Hi i m' Hm') as (Hl & _ & Hs & Hq).
    apply elem_of_live in Hl as [m Hm]; [|done]. exists m. split; [done|]. split; [|done].
    unfold module_at in Hs. by rewrite Hm in Hs. }
  split; [split; [done|split; [done|split; [done|]]]|constructor].
  - intros i. destruct (modules st !! i) as [[m|]|] eqn:Hm;
      [|intros m' Hm'; destruct (Hback i m' Hm') as (? & ? & _); congruence..].
    assert (i ∈ live_of st) as Hl by (apply elem_of_live; [done|by exists m]).
    destruct (inv_live _ _ _ _ _ _ Hi i Hl) as (_ & Hl' & _). apply is_live_Some in Hl' as [m' Hm'].
    exists m'. split; [done|]. destruct (Hback i m' Hm') as (m1 & Hm1 & Hs & _). congruence.
  - done.
  - intros i m' Hm'. by destruct (Hback i m' Hm') as (_ & _ & _ & ?).
  - cbn [weights current_tuples_returned with_counts with_sources] in Ew, Et. lia.
Qed.

Context `{!Inhabited N}.

(** Stands for the operators that are not there. *)
Definition no_module : GSFModule V C N HT :=
  let f := λ (_ : V) (_ : C), true in let g := λ (_ _ : C), true in
  mkModule inhabitant (GSFThm.empty_gsf (GSF.mkOpers f f f f g g g g)) 1 [] [].

(** Query [q] is registered, reads source [s], and none of its predicates in the
    operators [ops] fails on the tuple; punctuation fails none. *)
Definition satisfies (st : state) (s : ScanModule HT F) (ops : BitArray) (t : IHT HT) (q : nat) : Prop :=
  q ∈ queryIds st ∧ q ∈ scan_usedByQueries s
  ∧ (ihtIsPunct HeapTupleIsPunct t = true
     ∨ ∀ i m op c, i ∈ bits_of 96 ops → modules st !! i = Some (Some m) → GSFNode.registered (filter m) op c q →
         GSFNode.holds (GSF.ops (filter m)) op (ExecEvalExpr (node m) (t_base_tuples t)) c = true).

(** A base tuple passes when every predicate holds. *)
Lemma satisfies_passes (st : state) k s ht old ops stems q : well_planned st → (∀ q, q ∈ queryIds st → q < 128) →
  source_ready st k s ht old ops stems → (∀ i, i ∈ bits_of 96 ops → is_live st i = true) →
  satisfies st s ops (base_tuple s ht old ops) q ↔ passes (module_at no_module st) (queryIds st) (base_tuple s ht old ops) q.
Proof.
  intros Hwp Hq128 Hsr Hlive. destruct (base_tuple_ok _ _ _ _ _ _ _ Hsr) as (_ & Er & _ & Ec).
  set (t := base_tuple s ht old ops) in *. unfold satisfies, passes, fails_on, GSFNode.fails.
  rewrite Ec, Er, elem_of_difference, elem_of_below, elem_of_list_to_set.
  assert (∀ i m, modules st !! i = Some (Some m) → module_at no_module st i = m) as Hat by (intros i m Hm; unfold module_at; by rewrite Hm).
  split; intros (Hq & Hu & Hh); (split; [done|]).
  - split; [tauto|]. intros i Hin (Hp & op & c & Hreg & Hf). destruct Hh as [Hh|Hh]; [congruence|].
    destruct (proj1 (is_live_Some st i) (Hlive i Hin)) as [m Hm]. rewrite (Hat i m Hm) in Hreg, Hf.
    by rewrite (Hh i m op c Hin Hm Hreg) in Hf.
  - split; [apply dec_stable; intros Hnu; apply Hu; split; [by apply Hq128|done]|].
    destruct (ihtIsPunct HeapTupleIsPunct t) eqn:Hp; [by left|right]. intros i m op c Hin Hm Hreg.
    destruct (GSFNode.holds _ _ _ _) eqn:Hf; [done|]. destruct (Hh i Hin). split; [done|]. rewrite (Hat i m Hm). by exists op, c.
Qed.

(** What the invariant says of the operators. *)
Lemma planned_laws (st : state) : well_planned st → (∀ q, q ∈ queryIds st → q < 128) →
  let ms := module_at no_module st in
  (∀ i, i ∈ live_of st → module_ok (ms i))
  ∧ (∀ q, q ∈ queryIds st → q < 128 ∧ ∃ m, completionMask st !! q = Some m ∧ wf 96 m)
  ∧ ∀ i t q, i ∈ live_of st → q ∈ queryIds st → fails_on (ms i) t q → i ∈ cmask (completionMask st) q.
Proof.
  intros Hwp Hq128 ms.
  assert (∀ i, i ∈ live_of st → ∃ m, modules st !! i = Some (Some m) ∧ ms i = m) as Hms.
  { intros i [m Hm]%elem_of_live; [|done]. exists m. split; [done|]. unfold ms, module_at. by rewrite Hm. }
  split; [|split].
  - intros i Hi. destruct (Hms i Hi) as (m & Hm & ->). by apply (wp_module _ Hwp i).
  - intros q Hq. split; [by apply Hq128|]. by apply (wp_masks _ Hwp), Hq128.
  - intros i t q Hi _ (_ & op & c & Hr & _). destruct (Hms i Hi) as (m & Hm & E). rewrite E in Hr.
    by apply (wp_waits _ Hwp i m op c q).
Qed.

(** C1: every query gets its tuples, once.  An eddy at rest, with a well-formed
    plan, that takes the next tuple of a source comes back to the choice of a
    source after finitely many iterations, at rest and with the same plan;
    meanwhile every query that reads the source and all of whose predicates hold
    on the tuple was sent it exactly once, every other query was sent nothing,
    and nothing but this tuple was sent.  This holds for both routing policies
    and every order in which they visit the filters; the operators of the source
    have to be there, and to be all that its queries wait for. *)
Theorem eddy_serves_tuple (st : state) k s ht old ops stems :
  well_planned st → resting st → (∀ q, q ∈ queryIds st → q < 128) →
  0 < spins → 0 < drains → UseSuppressOutput cfg = false → UseTupleLineage cfg = true →
  source_ready st k s ht old ops stems → bits_of 96 stems = ∅ → (∀ i, i ∈ bits_of 96 ops → is_live st i = true) →
  (∀ q, q ∈ queryIds st → q ∈ scan_usedByQueries s → cmask (completionMask st) q ⊆ bits_of 96 ops) →
  ∃ st0 n st1 st' evs,
    run_source drains cfg st k = Ok st0
    ∧ eddy_run cfg spins drains get_timestamp_val n st0 = Ok st1
    ∧ route_module spins cfg st1 = Ok (FromSource, st')
    ∧ same_plan st st' ∧ well_planned st' ∧ resting st' ∧ canRemoveQuery st' = true ∧ out st' = out st ++ evs
    ∧ all_of (t_base_tuples (base_tuple s ht old ops)) evs
    ∧ ∀ q, deliveries q evs = 1 ∧ satisfies st s ops (base_tuple s ht old ops) q
           ∨ deliveries q evs = 0 ∧ ¬ satisfies st s ops (base_tuple s ht old ops) q.
Proof.
  intros Hwp Hrs Hq128 Hsp Hdr Hloud Hlin Hsr Hnj Hlive Hreach.
  destruct (planned_laws st Hwp Hq128) as (Hok & Hmk & Hwt).
  set (ms := module_at no_module st) in *. set (live := live_of st) in *.
  pose proof (idles_laws ms live Hok) as Hlaws. pose proof (planned_inv st no_module Hwp Hrs) as Hi. fold ms live in Hi.
  destruct (base_tuple_ok _ _ _ _ _ _ _ Hsr) as (Wt & Er & Ed & Ec).
  pose proof (λ q, satisfies_passes st k s ht old ops stems q Hwp Hq128 Hsr Hlive) as Hsat. fold ms in Hsat.
  set (t := base_tuple s ht old ops) in *.
  assert (good live (λ _, True) t) as Hg.
  { constructor; [done|rewrite Er|rewrite Ed; apply disjoint_empty_r|done]. intros i Hin. apply elem_of_live; [done|].
    by apply is_live_Some, Hlive. }
  destruct (run_source_got cfg drains st k s ht old ops stems Hsr Hnj Hlin) as (ss & n0 & E0).
  set (stb := with_counts _ _ _) in E0.
  assert (inv live (idles ms live) (queryIds st) (completionMask st) stb (λ _, None)) as Hib by (by eapply inv_same).
  destruct (got_base_ok live (ask ms) (λ _, True) (idles ms live) (queryIds st) (completionMask st) Hmk cfg drains Hdr Hloud stb _ t Hib Wt)
    as (st0 & t' & e1 & Eg & Ha & Et & Ev & Es0 & Hm0).
  destruct (explores_run live (ask ms) (λ _, True) (idles ms live) (queryIds st) (completionMask st) Hmk cfg spins drains Hsp Hdr Hloud get_timestamp_val
    st0 t' _ (moved_inv _ _ _ _ _ _ _ _ Hm0) Et Ev (announced_good _ _ _ _ _ _ _ (λ _ _ _ _ _, I) Ha Hg)) as (e2 & n & st1 & st' & Hv & En & Er1 & Hm1 & Hc1);
    [rewrite Es0; apply Hrs|done|].
  destruct (served_announced ms live (queryIds st) (completionMask st) Hwt t t' e1 e2 Hg) as [Hall Hcnt].
  { intros q Hq Hn. rewrite Ed, Er, union_empty_l_L. apply Hreach; [done|]. rewrite Ec in Hn. apply dec_stable. intros Hnu.
    apply Hn, elem_of_difference. rewrite elem_of_below, elem_of_list_to_set. auto. }
  { done. }
  { intros Htr. by apply (visits_served ms live (queryIds st) (completionMask st) Hok Hq128 Hwt (unseen t')). }
  pose proof (eddy_moved_trans _ _ _ _ _ _ _ _ _ _ _ Hm0 Hm1) as [Hi' Hk Ho].
  assert (stack st' = []) as Est.
  { unfold canRemoveQuery, Eddy.empty in Hc1. apply andb_true_iff in Hc1 as [_ Hc1]. by destruct (stack st'). }
  destruct (inv_rests st st' no_module ss n0 Hwp Hrs Hk Est Hi') as [Hsame Hrest].
  exists st0, n, st1, st', (e1 ++ e2).
  split; [by rewrite E0|]. split; [done|]. split; [done|]. split; [done|]. split; [by apply (same_plan_planned st)|].
  split; [done|]. split; [done|]. split; [exact Ho|]. split; [exact Hall|]. intros q. rewrite Hsat. apply Hcnt.
Qed.
End serve.
End EddyServe.
