(* ===== verification/EddySource.v ===== *)
(** * The continuous-query eddy: the choice of a source

    [chooseSourceTimestampOrder] looks one tuple ahead in every source that is
    not done and takes a source whose next tuple is the oldest. *)

From S2P Require Import Prelude BitArray GSFilter Eddy EddyLoop.

Module EddySource.
Import Eddy EddyLoop.

Section source.
Context {M HT F : Type} `{!Fjord M HT} `{!Double F} (get_timestamp_val : HT → F).
Local Abbreviation state := (EddyState M HT F).
Local Abbreviation scan := (ScanModule HT F).

(** [d_geq] compares like [>=] on numbers. *)
Class GeqOrder : Prop := {
  geq_trans a b c : d_geq a b = true → d_geq b c = true → d_geq a c = true;
  geq_total a b : d_geq a b = true ∨ d_geq b a = true
}.

(** The timestamp of the tuple in the slot: zero for a table. *)
Definition tuple_stamp (s : scan) (ht : HT) : F := if isStream s then get_timestamp_val ht else d_zero.

(** A tuple that has been looked at is there, with its timestamp. *)
Definition scan_ok (s : scan) : Prop :=
  haveNewTuple s = true → ∃ ht, slot s = Some (Some ht) ∧ currentTupleTimestamp s = tuple_stamp s ht.

(** The source after the look-ahead, and the timestamp it offers. *)
Definition looked (s : scan) : scan :=
  if haveNewTuple s then s
  else let s1 := getNextTupleIntoSlot s in
       match slot s1 with
       | Some (Some ht) => with_timestamp s1 (tuple_stamp s1 ht)
       | _ => s1
       end.

Definition offers (s : scan) : F := if haveNewTuple (looked s) then currentTupleTimestamp (looked s) else DBL_MAX.

Lemma next_slot_new (s : scan) : haveNewTuple s = false →
  haveNewTuple (getNextTupleIntoSlot s) = match slot (getNextTupleIntoSlot s) with Some (Some _) => true | _ => false end.
Proof.
  intros Hn. unfold getNextTupleIntoSlot. set (s1 := if negb (isRecursivelyFed s) then _ else _ : scan).
  assert (haveNewTuple s1 = false) as Hn1.
  { unfold s1. destruct (negb _); [done|]. by destruct (recurseResult s). }
  destruct (slot s1) as [[ht|]|] eqn:Es; cbn [slot haveNewTuple with_slot]; by rewrite ?Es.
Qed.

Lemma lookAhead_ok (s : scan) : scan_ok s → lookAheadNextTupleTimestamp get_timestamp_val s = Ok (offers s, looked s).
Proof.
  intros Hs. unfold lookAheadNextTupleTimestamp, offers, looked. destruct (haveNewTuple s) eqn:Hn; [by rewrite Hn|].
  pose proof (next_slot_new s Hn) as Hnew. set (s1 := getNextTupleIntoSlot s) in *.
  destruct (slot s1) as [[ht|]|]; rewrite Hnew; cbn [access cbind haveNewTuple with_timestamp currentTupleTimestamp]; [|done..].
  by rewrite Hnew.
Qed.

(** Looking ahead keeps what is known of a source, and can be repeated. *)
Lemma looked_ok (s : scan) : scan_ok s → scan_ok (looked s).
Proof.
  unfold looked. destruct (haveNewTuple s) eqn:Hn; [done|]. intros _. pose proof (next_slot_new s Hn) as Hnew.
  set (s1 := getNextTupleIntoSlot s) in *. destruct (slot s1) as [[ht|]|] eqn:Es; intros Hh;
    cbn [haveNewTuple with_timestamp] in Hh; [by exists ht|congruence|congruence].
Qed.

(** What the sources become. *)
Definition looked_at (o : option scan) : option scan :=
  match o with Some s => if isDone s then Some s else Some (looked s) | None => None end.

Definition open (st : state) (j : nat) (s : scan) : Prop := sources st !! j = Some (Some s) ∧ isDone s = false.

(** The best among the sources looked at: the least, and one of them. *)
Definition best_of (st : state) (seen : nat → Prop) (best : option (nat * F)) : Prop :=
  match best with
  | None => ∀ j s, seen j → ¬ open st j s
  | Some (k, m) => (∃ s, seen k ∧ open st k s ∧ m = offers s) ∧ ∀ j s, seen j → open st j s → d_geq (offers s) m = true
  end.

Context `{!GeqOrder}.

Lemma geq_refl a : d_geq a a = true.
Proof. by destruct (geq_total a a). Qed.

Lemma best_of_step st seen best j s : best_of st seen best → open st j s →
  best_of st (λ i, seen i ∨ i = j)
    (match best with
     | None => Some (j, offers s)
     | Some (_, m) => if d_geq m (offers s) then Some (j, offers s) else best
     end).
Proof.
  intros Hb Ho. assert (∀ s', open st j s' → s' = s) as Hu by (intros s' [E _]; destruct Ho as [E' _]; congruence).
  destruct best as [[k m]|]; [destruct Hb as [(s0 & Hk & Hok & ->) Hmin]; destruct (d_geq _ _) eqn:E|].
  - split; [exists s; auto|]. intros i s' [Hi| ->] Hoi; [|rewrite (Hu _ Hoi); apply geq_refl].
    eapply geq_trans; [by apply (Hmin i)|done].
  - split; [exists s0; auto|]. intros i s' [Hi| ->] Hoi; [by apply (Hmin i)|].
    rewrite (Hu _ Hoi). destruct (geq_total (offers s) (offers s0)); congruence.
  - split; [exists s; auto|]. intros i s' [Hi| ->] Hoi; [by destruct (Hb i s')|]. rewrite (Hu _ Hoi). apply geq_refl.
Qed.

Lemma best_of_skip st (seen : nat → Prop) best j : best_of st seen best → (∀ s, ¬ open st j s) → best_of st (λ i, seen i ∨ i = j) best.
Proof.
  intros Hb Hn. destruct best as [[k m]|]; [destruct Hb as [(s0 & Hk & Ho) Hmin]|]; [split|].
  - exists s0. auto.
  - intros i s [Hi| ->] Hoi; [by apply (Hmin i)|by destruct (Hn s)].
  - intros i s [Hi| ->]; [by apply Hb|apply Hn].
Qed.

Lemma with_sources_twice (st : state) l l' : with_sources (with_sources st l) l' = with_sources st l'.
Proof. done. Qed.

(** The loop over the sources [i], [i+1], ...; those before have been looked at. *)
Lemma choose_source_ok (st : state) : (∀ j s, sources st !! j = Some (Some s) → scan_ok s) →
  ∀ n i best ss, i + n = numSources st → length ss = numSources st →
    (∀ j, ss !! j = if decide (j < i) then looked_at <$> sources st !! j else sources st !! j) →
    best_of st (λ j, j < i) best →
    ∃ best', choose_source get_timestamp_val (with_sources st ss) (seq i n) best
      = Ok (best', with_sources st (looked_at <$> sources st))
      ∧ best_of st (λ j, j < numSources st) best'.
Proof.
  intros Hok n. induction n as [|n IH]; intros i best ss Hi Hlen Hss Hb; cbn [seq choose_source].
  - exists best. rewrite Nat.add_0_r in Hi. subst i. split; [|done]. do 3 f_equal. apply list_eq. intros j.
    rewrite Hss, list_lookup_fmap. case_decide as Hj; [done|]. by rewrite lookup_ge_None_2 by (unfold numSources in Hj; lia).
  - assert (i < numSources st) as Hi' by lia. destruct (lookup_lt_is_Some_2 _ _ Hi') as [o Ho].
    assert (ss !! i = Some o) as Hso by (rewrite Hss, decide_False by lia; done).
    assert (∀ best', best_of st (λ j, j < i ∨ j = i) best' → best_of st (λ j, j < S i) best') as Hseen.
    { intros [[k m]|]; cbn [best_of].
      - intros [(s0 & Hk & Hopen) Hmin]. split; [exists s0; split; [lia|done]|]. intros j s Hj. apply Hmin. lia.
      - intros Hno j s Hj. apply Hno. lia. }
    assert (∀ x ss', x = looked_at o → ss' = <[i := x]> ss → ∀ j, ss' !! j
      = if decide (j < S i) then looked_at <$> sources st !! j else sources st !! j) as Hnext.
    { intros x ss' -> -> j. destruct (decide (j = i)) as [->|].
      - rewrite list_lookup_insert_eq by (rewrite Hlen; lia). rewrite decide_True by lia. by rewrite Ho.
      - rewrite list_lookup_insert_ne, Hss by done. repeat case_decide; try lia; done. }
    assert (∀ x, looked_at o = x → x = o → ∀ j, ss !! j = if decide (j < S i) then looked_at <$> sources st !! j else sources st !! j) as Hstay.
    { intros x Ex -> . apply (Hnext o); [done|]. by rewrite list_insert_id. }
    cbn [sources with_sources]. rewrite Hso. cbn [access cbind]. destruct o as [s|]; [destruct (isDone s) eqn:Ed|].
    + apply (IH (S i)); [lia|done|apply (Hstay (Some s)); [by cbn; rewrite Ed|done]|].
      apply Hseen, best_of_skip; [done|]. intros s' [E E']. rewrite Ho in E. injection E as <-. congruence.
    + rewrite lookAhead_ok by (by eapply Hok). cbn [cbind]. rewrite with_sources_twice.
      apply (IH (S i)); [lia|by rewrite length_insert|eapply Hnext; [|done]; by cbn; rewrite Ed|].
      apply Hseen. by apply best_of_step.
    + apply (IH (S i)); [lia|done|by apply (Hstay None)|].
      apply Hseen, best_of_skip; [done|]. intros s' [E _]. by rewrite Ho in E.
Qed.

(** C29: the eddy takes the tuples of its sources in timestamp order: when some
    source is not done, the source chosen is not done and offers the least
    timestamp among those that are not done (a table offers zero, a stream with
    nothing to read the greatest), no other source has lost or gained a tuple but
    the one it has been asked to look at, and nothing else of the eddy changes;
    when every source is done, the choice raises an error. *)
Theorem chooseSourceTimestampOrder_oldest (st : state) :
  (∀ j s, sources st !! j = Some (Some s) → scan_ok s) →
  (∃ k s, chooseSourceTimestampOrder get_timestamp_val st = Ok (k, with_sources st (looked_at <$> sources st))
     ∧ open st k s ∧ ∀ j s', open st j s' → d_geq (offers s') (offers s) = true)
  ∨ (∀ j s, ¬ open st j s)
    ∧ chooseSourceTimestampOrder get_timestamp_val st
      = Fail (Elog "chooseSourceTimestampOrder: Nothing to choose from... this is unexpected!").
Proof.
  intros Hok. unfold chooseSourceTimestampOrder.
  destruct (choose_source_ok st Hok (numSources st) 0 None (sources st)) as (best & E & Hb); [lia|done| |intros j s Hj; lia|].
  { intros j. by rewrite decide_False by lia. }
  assert (with_sources st (sources st) = st) as Est by (by destruct st).
  assert (∀ j s, open st j s → j < numSources st) as Hin by (intros j s [Hj _]; by eapply lookup_lt_Some).
  rewrite Est in E. rewrite E. cbn [cbind]. destruct best as [[k m]|].
  - left. destruct Hb as [(s & _ & Ho & ->) Hmin]. exists k, s. split; [done|]. split; [done|].
    intros j s' Hj. eapply Hmin; [by eapply Hin|done].
  - right. split; [|done]. intros j s Hj. by apply (Hb j s); [eapply Hin|].
Qed.
End source.
End EddySource.
