(* ===== verification/EddyPlan.v ===== *)
(** * The continuous-query eddy: planning filters

    [add_filter_to_matching_gsf], [create_gsf_in_eddy], [add_planitem_to_eddy],
    [makeGSFilter] and [setUpDependentModules] of
    [src/src/backend/optimizer/plan/eddy.c], [findPJOfromSources] of
    [nodeCQEddy.c] and [FjordAddQuery] of [processNode.c]: how the predicate of a
    new query finds its filter among the operators of the running eddy.

    Expressions have variables (of the current query level), constants and
    calls of operators, which have a number and a kind; other node types are left
    out, and so are operator precedence and the dynamic catalog.  The
    operators that the catalog gives for a type are a parameter. *)

From S2P Require Import Prelude BitArray GSFilter Eddy EddyGSF.

Module EddyPlan.
Import Bit Eddy EddyGSF.

(** ** Expressions *)

Inductive OpType : Type := OP_EXPR | FUNC_EXPR | OR_EXPR | AND_EXPR | NOT_EXPR | SUBPLAN_EXPR.

#[global] Instance OpType_eq : EqDecision OpType.
Proof. solve_decision. Defined.
#[global] Instance optrtype_eq : EqDecision GSF.optrtype.
Proof. solve_decision. Defined.

Section plan.
Context {V C HT F : Type} `{EqDecision C}.

Inductive Node : Type :=
  | Var (varno varattno : nat)
  | Const (constvalue : C) (consttype : nat)
  | Expr (opType : OpType) (opno : nat) (oper : GSF.optrtype) (args : list Node).

(** [equal], with [GrossSigmodHack] off.  What else the code compares follows from
    these: the kind of an operator from its number, the type of a variable from
    its position. *)
Fixpoint equal (a b : Node) : bool :=
  match a, b with
  | Var v1 a1, Var v2 a2 => bool_decide (v1 = v2) && bool_decide (a1 = a2)
  | Const c1 t1, Const c2 t2 => bool_decide (c1 = c2) && bool_decide (t1 = t2)
  | Expr o1 n1 p1 l1, Expr o2 n2 p2 l2 =>
      bool_decide (o1 = o2) && bool_decide (n1 = n2) && bool_decide (p1 = p2)
      && (fix equal_list (l1 l2 : list Node) : bool :=
            match l1, l2 with
            | [], [] => true
            | x1 :: l1', x2 :: l2' => equal x1 x2 && equal_list l1' l2'
            | _, _ => false
            end) l1 l2
  | _, _ => false
  end.

(** [pull_var_clause], the numbers of the variables, in order. *)
Fixpoint pull_var_clause (e : Node) : list nat :=
  match e with
  | Var v _ => [v]
  | Const _ _ => []
  | Expr _ _ _ args =>
      (fix pull_list (l : list Node) : list nat :=
         match l with [] => [] | x :: l' => pull_var_clause x ++ pull_list l' end) args
  end.

(** ** The state the planner works on

    A filter knows its expression and the type of its constants.  [pjolist] has
    the operators that wait for joins: their sources and their bits. *)
Local Abbreviation module := (GSFModule V C (Node * nat) HT).

Record PlanState : Type := mkPlan {
  eddy : EddyState module HT F;
  pjolist : list (BitArray * BitArray)
}.

(** [LookupOpersForGSF], and the room in the queues of a new operator. *)
Context (LookupOpersForGSF : Node → nat → GSF.opers V C) (fjord_room : nat).

Definition get_num_active_modules (l : list (option module)) : nat :=
  length (base.filter (λ o : option module, is_Some o) l).

(** The first hole, or the end of the array. *)
Fixpoint first_hole (l : list (option module)) : nat :=
  match l with
  | [] => 0
  | None :: _ => 0
  | Some _ :: l' => S (first_hole l')
  end.

(** The new operator's position, and the array with it. *)
Definition add_planitem_to_eddy (cur : list (option module)) (m : module) : cres (nat * list (option module)) :=
  let idx := first_hole cur in
  let! _ := cassert (get_num_active_modules cur + 1 <=? TCQMAXOPERATORS) in
  Ok (idx, if idx =? length cur then cur ++ [Some m] else <[idx := Some m]> cur).

Definition makeGSFilter (node : Node) (consttype : nat) : module :=
  mkModule (node, consttype) (GSF.mkGSF (LookupOpersForGSF node consttype) GSF.NULL GSF.NULL [] [] [] 0 0 false)
    fjord_room [] [].

Definition create_gsf_in_eddy (cur : list (option module)) (node : Node) (consttype : nat)
    : cres (nat * list (option module)) :=
  add_planitem_to_eddy cur (makeGSFilter node consttype).

(** The filter on the same expression and type. *)
Fixpoint find_gsf (l : list (option module)) (fnode : Node) (consttype : nat) : option nat :=
  match l with
  | [] => None
  | o :: l' =>
      match o with
      | Some m => if equal fnode (fst (node m)) && (consttype =? snd (node m)) then Some 0
                  else S <$> find_gsf l' fnode consttype
      | None => S <$> find_gsf l' fnode consttype
      end
  end.

Fixpoint findPJOfromSources (l : list (BitArray * BitArray)) (sources : BitArray) : option nat :=
  match l with
  | [] => None
  | (s, _) :: l' => if BitArrayEqual s sources TCQMAXSOURCES then Some 0 else S <$> findPJOfromSources l' sources
  end.

Definition set_operator (e : EddyState module HT F) (src i : nat) : EddyState module HT F :=
  with_masks e (alter (λ b, BitArraySetBit b i) src (operators e)) (sourceStems e) (completionMask e) (query_sources e).

(** An operator on one source becomes one of its operators; on several, it waits
    for their join.  Variables count from 1. *)
Fixpoint source_bits (vars : list nat) (sources : BitArray) : cres BitArray :=
  match vars with
  | [] => Ok sources
  | v :: vars' =>
      let! _ := cassert (negb (v =? 0) && (v - 1 <? TCQMAXSOURCES)) in
      source_bits vars' (BitArraySetBit sources (v - 1))
  end.

Definition setUpDependentModules (p : PlanState) (operatorid : nat) (expr : Node) : cres PlanState :=
  let fvars := pull_var_clause expr in
  let zero := BitArrayRealClearAll (replicate (BASIZE TCQMAXSOURCES) 0%Z) TCQMAXSOURCES in
  let! sources := source_bits fvars zero in
  let numsources := BitArrayNumSet sources TCQMAXSOURCES in
  let! _ := cassert (0 <? numsources) in
  if numsources =? 1 then
    let! v := access (head fvars) in Ok (mkPlan (set_operator (eddy p) (v - 1) operatorid) (pjolist p))
  else
    Ok (mkPlan (eddy p)
          match findPJOfromSources (pjolist p) sources with
          | Some k => alter (λ '(s, ready), (s, BitArraySetBit ready operatorid)) k (pjolist p)
          | None =>
              (BitArrayClone (replicate (BASIZE TCQMAXSOURCES) 0%Z) sources TCQMAXSOURCES,
               BitArraySetBit (BitArrayClearAll (replicate (BASIZE TCQMAXOPERATORS) 0%Z) TCQMAXOPERATORS) operatorid)
              :: pjolist p
          end).

Definition FjordAddQuery (g : GSF.GSFilter V C) (queryid : nat) : GSF.GSFilter V C :=
  if decide (queryid ∈ GSF.usedByQueries g) then g
  else GSF.mkGSF (GSF.ops g) (GSF.ltmap g) (GSF.rtmap g) (GSF.eqmap g) (GSF.nemap g) (queryid :: GSF.usedByQueries g)
         (GSF.tuplesEntered g) (GSF.tuplesExited g) (GSF.doneInput g).

(** The predicate enters the filter at position [i]. *)
Definition add_to_gsf (p : PlanState) (i : nat) (fnode : Node) (oper : GSF.optrtype) (c : C) (queryid : nat)
    : cres PlanState :=
  let! p1 := setUpDependentModules p i fnode in
  let! m := get_module (eddy p1) i in
  let! g := GSF.add_query_to_gsf (filter m) oper c queryid in
  let e := put_module (eddy p1) i (mkModule (node m) (FjordAddQuery g queryid) (room m) (input m) (output m)) in
  let! _ := cassert (queryid <? TCQMAXQUERIES) in
  Ok (mkPlan (with_masks e (operators e) (sourceStems e)
                (alter (λ b, BitArraySetBit b i) queryid (completionMask e)) (query_sources e)) (pjolist p1)).

(** [expr op constant] or [constant op expr]. *)
Definition filter_parts (fa1 fa2 : Node) : option (Node * C * nat) :=
  match fa2 with
  | Const c ty => Some (fa1, c, ty)
  | _ => match fa1 with Const c ty => Some (fa2, c, ty) | _ => None end
  end.

Definition add_filter_to_matching_gsf (cur : PlanState) (filterqual : Node) (queryid : nat) : cres (bool * PlanState) :=
  match filterqual with
  | Expr opType _ foper fargs =>
      if negb (bool_decide (opType = OP_EXPR)) then Ok (false, cur)
      else match fargs with
           | [fa1; fa2] =>
               match filter_parts fa1 fa2 with
               | None => Ok (false, cur)
               | Some (fnode, c, ty) =>
                   if bool_decide (foper = GSF.OTHER_OPTR) then Ok (false, cur)
                   else
                     let ms := modules (eddy cur) in
                     let! (i, ms1) := match find_gsf ms fnode ty with
                                      | Some i => Ok (i, ms)
                                      | None => create_gsf_in_eddy ms fnode ty
                                      end in
                     let! p := add_to_gsf (mkPlan (with_modules (eddy cur) ms1) (pjolist cur)) i fnode foper c queryid in
                     Ok (true, p)
               end
           | _ => Fail AssertFail
           end
  | _ => Fail AssertFail
  end.
End plan.
Arguments Node : clear implicits.
Arguments PlanState : clear implicits.
End EddyPlan.
