(* ===== verification/EddyPlanSpec.v ===== *)
(** * Planning filters: what it establishes

    Planning a predicate enters it in one filter and keeps the plan well
    formed. *)

From S2P Require Import Prelude BitArray GSFilter GSFilterSpec GSFilterNode GSFilterThm Eddy EddyLoop EddySpec EddyGSF EddyInv EddyPlan.

Module EddyPlanSpec.
Import Bit Eddy EddySpec EddyGSF EddyInv EddyPlan.
#[local] Opaque bits_of below.

Section plan.
Context {V C HT F : Type} `{EqDecision C}.
Local Abbreviation module := (GSFModule V C (Node C * nat) HT).
Local Abbreviation state := (EddyState module HT F).

(** ** Searching the operators *)

(** Induction over an expression and the arguments of its calls. *)
Lemma Node_nested_ind (P : Node C → Prop) : (∀ v a, P (Var v a)) → (∀ c t, P (Const c t)) →
  (∀ o n p l, Forall P l → P (Expr o n p l)) → ∀ e, P e.
Proof.
  intros Hv Hc He. fix IH 1. intros [v a|c t|o n p l]; [apply Hv|apply Hc|]. apply He.
  induction l as [|x l IHl]; constructor; [apply IH|exact IHl].
Qed.

Lemma equal_spec (a b : Node C) : equal a b = true ↔ a = b.
Proof.
  revert b. induction a as [v1 a1|c1 t1|o1 n1 p1 l1 IH] using Node_nested_ind;
    intros [v2 a2|c2 t2|o2 n2 p2 l2]; cbn [equal]; try (split; done).
  - rewrite andb_true_iff, !bool_decide_eq_true. naive_solver.
  - rewrite andb_true_iff, !bool_decide_eq_true. naive_solver.
  - rewrite !andb_true_iff, !bool_decide_eq_true.
    set (equal_list := fix equal_list (l1 l2 : list (Node C)) : bool := _).
    assert (∀ l2, equal_list l1 l2 = true ↔ l1 = l2) as ->; [|naive_solver].
    induction IH as [|x l1 Hx _ IHl]; intros [|y l]; cbn; try (split; done).
    rewrite andb_true_iff, Hx, IHl. naive_solver.
Qed.

Lemma find_gsf_Some (l : list (option module)) fnode ty i : find_gsf l fnode ty = Some i →
  ∃ m, l !! i = Some (Some m) ∧ node m = (fnode, ty).
Proof.
  revert i. induction l as [|o l IH]; intros i; cbn; [done|].
  assert (S <$> find_gsf l fnode ty = Some i → ∃ m, (o :: l) !! i = Some (Some m) ∧ node m = (fnode, ty)) as Hl.
  { intros (j & Hj & ->)%fmap_Some. by apply IH. }
  destruct o as [m|]; [|exact Hl]. destruct (equal fnode (node m).1 && (ty =? (node m).2)) eqn:E; [|exact Hl].
  intros [= <-]. exists m. split; [done|]. apply andb_true_iff in E as [E1 E2].
  apply equal_spec in E1. apply Nat.eqb_eq in E2. destruct (node m); simpl in *; congruence.
Qed.

Lemma find_gsf_first (l : list (option module)) fnode ty i : find_gsf l fnode ty = Some i →
  ∀ j m, j < i → l !! j = Some (Some m) → node m ≠ (fnode, ty).
Proof.
  revert i. induction l as [|o l IH]; intros i; cbn; [done|].
  assert (S <$> find_gsf l fnode ty = Some i → (∀ m, o = Some m → node m ≠ (fnode, ty)) →
    ∀ j m, j < i → (o :: l) !! j = Some (Some m) → node m ≠ (fnode, ty)) as Hl.
  { intros (k & Hk & ->)%fmap_Some Ho [|j] m Hj Hm; cbn in Hm; [injection Hm as ->; by apply Ho|]. apply (IH k Hk j); [lia|done]. }
  destruct o as [m|]; [|intros E; by apply Hl]. destruct (equal fnode (node m).1 && (ty =? (node m).2)) eqn:E.
  { intros [= <-] j m' Hj. lia. }
  intros Hi. apply Hl; [done|]. intros m' [= <-] En. rewrite En in E. cbn in E.
  by rewrite Nat.eqb_refl, andb_true_r, (proj2 (equal_spec _ _) eq_refl) in E.
Qed.

Lemma find_gsf_None (l : list (option module)) fnode ty : find_gsf l fnode ty = None →
  ∀ j m, l !! j = Some (Some m) → node m ≠ (fnode, ty).
Proof.
  induction l as [|o l IH]; intros E j m Hm; [done|]. cbn in E. destruct o as [m0|].
  - destruct (equal fnode (node m0).1 && (ty =? (node m0).2)) eqn:Eq; [done|]. apply fmap_None in E.
    destruct j as [|j]; [|by apply (IH E j)]. injection Hm as ->. intros En. rewrite En in Eq. cbn in Eq.
    by rewrite Nat.eqb_refl, andb_true_r, (proj2 (equal_spec _ _) eq_refl) in Eq.
  - apply fmap_None in E. destruct j as [|j]; [done|]. by apply (IH E j).
Qed.

(** The filter that a predicate on [fnode] with a constant of type [ty] goes to:
    the first one there is, and a new one at a free position if there is none. *)
Definition gsf_position (st : state) (fnode : Node C) (ty i : nat) : Prop :=
  ((∃ m, modules st !! i = Some (Some m) ∧ node m = (fnode, ty))
   ∧ ∀ j m, j < i → modules st !! j = Some (Some m) → node m ≠ (fnode, ty))
  ∨ ((∀ j m, modules st !! j = Some (Some m) → node m ≠ (fnode, ty)) ∧ ∀ m, modules st !! i ≠ Some (Some m)).

Lemma first_hole_ok (l : list (option module)) :
  first_hole l ≤ get_num_active_modules l ∧ (first_hole l = length l ∨ l !! first_hole l = Some None).
Proof.
  induction l as [|[m|] l [IH1 IH2]]; cbn [first_hole length]; [split; [lia|by left]| |split; [lia|by right]].
  unfold get_num_active_modules in *. rewrite filter_cons_True by done. cbn [length].
  split; [lia|]. destruct IH2 as [->|IH2]; [by left|by right].
Qed.

(** A new operator: its position was free, the others keep theirs. *)
Lemma add_planitem_ok (l : list (option module)) m : get_num_active_modules l < 96 →
  ∃ i l', add_planitem_to_eddy l m = Ok (i, l') ∧ i < 96 ∧ (∀ m', l !! i ≠ Some (Some m'))
    ∧ l' !! i = Some (Some m) ∧ ∀ j m', j ≠ i → l' !! j = Some (Some m') ↔ l !! j = Some (Some m').
Proof.
  intros Hn. destruct (first_hole_ok l) as [Hle Hh]. unfold add_planitem_to_eddy.
  change TCQMAXOPERATORS with 96. destruct (Nat.leb_spec (get_num_active_modules l + 1) 96); [|lia]. cbn [cassert cbind].
  eexists _, _. split; [done|]. split; [lia|]. destruct (Nat.eqb_spec (first_hole l) (length l)) as [E|E].
  - rewrite E. split; [intros m'; by rewrite lookup_ge_None_2|]. split.
    + by rewrite lookup_app_r, Nat.sub_diag.
    + intros j m' Hj. destruct (decide (j < length l)); [by rewrite lookup_app_l|].
      rewrite lookup_app_r, !lookup_ge_None_2 by (cbn; lia). done.
  - destruct Hh as [Hh|Hh]; [done|]. apply lookup_lt_Some in Hh as Hlt.
    split; [intros m'; by rewrite Hh|]. split; [by apply list_lookup_insert_eq|].
    intros j m' Hj. by rewrite list_lookup_insert_ne.
Qed.

(** ** Expressions on one source *)

Definition one_source (e : Node C) (src : nat) : Prop :=
  src < 64 ∧ pull_var_clause e ≠ [] ∧ ∀ v, v ∈ pull_var_clause e → v = S src.

Lemma source_bits_ok vars src b : src < 64 → (∀ v, v ∈ vars → v = S src) → wf 64 b →
  ∃ b', source_bits vars b = Ok b' ∧ wf 64 b' ∧ bits_of 64 b' = (if vars then ∅ else {[src]}) ∪ bits_of 64 b.
Proof.
  intros Hs. revert b. induction vars as [|v vars IH]; intros b Hv Hb; cbn [source_bits].
  { exists b. by rewrite union_empty_l_L. }
  assert (v = S src) as -> by (apply Hv; by left). change TCQMAXSOURCES with 64.
  replace (S src - 1) with src by lia. destruct (Nat.ltb_spec src 64); [|lia]. cbn [Nat.eqb negb andb cassert cbind].
  destruct (IH (BitArraySetBit b src)) as (b' & E & Hw & Eb); [intros; apply Hv; by right|by apply SetBit_wf|].
  exists b'. split; [done|]. split; [done|]. rewrite Eb, SetBit_set by done. destruct vars; set_solver.
Qed.

Lemma setUp_ok (p : PlanState V C HT F) i e src : one_source e src →
  setUpDependentModules p i e = Ok (mkPlan (set_operator (eddy p) src i) (pjolist p)).
Proof.
  intros (Hs & Hne & Hv). unfold setUpDependentModules.
  set (z := BitArrayRealClearAll _ _).
  assert (wf 64 (replicate (BASIZE TCQMAXSOURCES) 0%Z)) as Hz0 by (split; [done|by repeat constructor]).
  assert (wf 64 z) as Hz by (by apply RealClearAll_wf).
  assert (bits_of 64 z = ∅) as Ez by (by apply RealClearAll_set).
  destruct (source_bits_ok _ src z Hs Hv Hz) as (b & -> & Hb & Eb). cbn [cbind].
  rewrite Ez, union_empty_r_L in Eb. change TCQMAXSOURCES with 64. rewrite NumSet_size, Eb.
  destruct (pull_var_clause e) as [|v vars]; [done|]. rewrite size_singleton. cbn [Nat.ltb Nat.leb Nat.eqb cassert cbind access head].
  assert (v = S src) as -> by (apply Hv; by left). by replace (S src - 1) with src by lia.
Qed.

(** ** Adding a predicate *)

Context (LookupOpersForGSF : Node C → nat → GSF.opers V C) (fjord_room : nat).
Context (Hlookup : ∀ e ty, GSFSpec.OpersOk (LookupOpersForGSF e ty)) (Hroom : 0 < fjord_room).

Lemma new_gsf_ok fnode ty : module_ok (makeGSFilter (HT := HT) LookupOpersForGSF fjord_room fnode ty)
  ∧ ∀ op c q, ¬ GSFNode.registered (filter (makeGSFilter (HT := HT) LookupOpersForGSF fjord_room fnode ty)) op c q.
Proof.
  assert (∀ op c q, ¬ GSFNode.registered (filter (makeGSFilter (HT := HT) LookupOpersForGSF fjord_room fnode ty)) op c q) as Hn.
  { intros op c q. destruct op; simpl; try apply GSFSpec.has_NULL; try apply GSFNode.list_has_nil; tauto. }
  split; [|exact Hn]. constructor; [apply Hlookup| |done].
  constructor; cbn; [done|done|by constructor|by constructor|]. intros op c q Hr. by destruct (Hn op c q).
Qed.

(** The position of the filter: one that is there, or a new one. *)
Lemma position_ok (st : state) fnode ty : well_planned st → (get_num_active_modules (modules st) < 96) →
  ∃ i ms1 m0, match find_gsf (modules st) fnode ty with
              | Some i => Ok (i, modules st)
              | None => create_gsf_in_eddy LookupOpersForGSF fjord_room (modules st) fnode ty
              end = Ok (i, ms1)
    ∧ ms1 !! i = Some (Some m0) ∧ node m0 = (fnode, ty) ∧ well_planned (with_modules st ms1)
    ∧ (∀ j m, j ≠ i → ms1 !! j = Some (Some m) ↔ modules st !! j = Some (Some m))
    ∧ (∀ op c q, GSFNode.registered (filter m0) op c q → modules st !! i = Some (Some m0))
    ∧ (∀ m, modules st !! i = Some (Some m) → m = m0)
    ∧ (resting st → input m0 = [] ∧ output m0 = [])
    ∧ gsf_position st fnode ty i
    ∧ (GSF.nemap (filter m0) ≠ [] → modules st !! i = Some (Some m0)).
Proof.
  intros Hwp Hact. destruct (find_gsf (modules st) fnode ty) as [i|] eqn:Ef.
  { destruct (find_gsf_Some _ _ _ _ Ef) as (m0 & Hm & En). exists i, (modules st), m0.
    split; [done|]. split; [done|]. split; [done|]. split; [by destruct st|]. do 2 (split; [done|]).
    split; [intros m Hm'; rewrite Hm in Hm'; by injection Hm'|]. split; [intros Hrs; by apply (rs_queues _ Hrs i)|]. split; [|done].
    left. split; [by exists m0|]. by eapply find_gsf_first. }
  destruct (new_gsf_ok fnode ty) as [Hok Hnone].
  destruct (add_planitem_ok (modules st) (makeGSFilter LookupOpersForGSF fjord_room fnode ty) Hact)
    as (i & ms1 & E & Hi & Hfree & Hnew & Hold).
  exists i, ms1, (makeGSFilter LookupOpersForGSF fjord_room fnode ty). split; [exact E|]. split; [done|]. split; [done|].
  split; [|split; [done|split; [intros op c q Hr; by destruct (Hnone op c q)|split; [intros m Hm; by destruct (Hfree m)|split; [done|split; [|done]]]]]].
  2: { right. split; [by apply find_gsf_None|done]. }
  destruct Hwp as [H1 H2 H3 H4 H5]. constructor; cbn [modules with_modules completionMask operators]; [| | |done|done].
  - intros j m Hj. destruct (decide (j = i)) as [->|Hne]; [rewrite Hnew in Hj; by injection Hj as <-|]. apply H1. by apply Hold.
  - intros j m op c q Hj Hr. destruct (decide (j = i)) as [->|Hne].
    + rewrite Hnew in Hj. injection Hj as <-. by destruct (Hnone op c q).
    + apply (H2 j m op c q); [by apply Hold|done].
  - intros j q Hq Hj. destruct (H3 j q Hq Hj) as (m & Hm & Hu). exists m. split; [|done]. apply Hold; [|done].
    intros ->. by apply (Hfree m).
Qed.

Lemma added_any (g : GSF.GSFilter V C) op c q : GSFSpec.OpersOk (GSF.ops g) → GSFNode.gsf_ok g → q < 128 → op ≠ GSF.OTHER_OPTR →
  ∃ c0, GSFNode.added g op c q c0 ∧ if decide (op = GSF.NE_OPTR) then GSFNode.ne_constant g c c0 else c0 = c.
Proof.
  intros Ho Hg Hq Hop. case_decide as Hne; [subst op; by apply GSFNode.add_ne_ok|].
  destruct (GSFThm.add_but_ne_ok g op c q Ho Hg Hq Hop) as [->|Ha]; [done|by exists c].
Qed.

Lemma FjordAddQuery_ok (g : GSF.GSFilter V C) q : let g' := FjordAddQuery g q in
  GSF.ops g' = GSF.ops g ∧ (GSFNode.gsf_ok g → GSFNode.gsf_ok g')
  ∧ (∀ op c i, GSFNode.registered g' op c i ↔ GSFNode.registered g op c i)
  ∧ ∀ i, i ∈ GSF.usedByQueries g' ↔ i ∈ GSF.usedByQueries g ∨ i = q.
Proof.
  unfold FjordAddQuery. cbn zeta. case_decide as Hd.
  - do 3 (split; [done|]). intros i. split; [by left|]. by intros [?| ->].
  - split; [done|]. split; [intros []; by constructor|]. split; [intros []; done|].
    intros i. cbn. rewrite elem_of_cons. tauto.
Qed.

(** A predicate enters the filter at position [i]. *)
Lemma add_to_gsf_ok (p : PlanState V C HT F) i m0 e src op c q : let st := eddy p in
  well_planned st → modules st !! i = Some (Some m0) → one_source e src → q < 128 → op ≠ GSF.OTHER_OPTR →
  ∃ p' m c0, add_to_gsf p i e op c q = Ok p' ∧ well_planned (eddy p')
    ∧ modules (eddy p') !! i = Some (Some m) ∧ node m = node m0
    ∧ (∀ op' c' q', GSFNode.registered (filter m) op' c' q' ↔
         GSFNode.registered (filter m0) op' c' q' ∨ op' = op ∧ c' = c0 ∧ q' = q)
    ∧ (if decide (op = GSF.NE_OPTR) then GSFNode.ne_constant (filter m0) c c0 else c0 = c)
    ∧ (∃ o, operators (eddy p') !! src = Some o ∧ i ∈ bits_of 96 o)
    ∧ (∀ j, j ≠ i → modules (eddy p') !! j = modules st !! j)
    ∧ input m = input m0 ∧ output m = output m0 ∧ stack (eddy p') = stack st
    ∧ weights (eddy p') = weights st ∧ current_tuples_returned (eddy p') = current_tuples_returned st.
Proof.
  intros st [H1 H2 H3 H4 H5] Hm He Hq Hop. destruct (H1 i m0 Hm) as [Hi [Hop0 Hg0 Hr0]].
  unfold add_to_gsf. rewrite (setUp_ok p i e src He). cbn [cbind eddy]. unfold get_module, set_operator.
  cbn [modules with_masks]. fold st. rewrite Hm. cbn [access cbind].
  destruct (added_any (filter m0) op c q Hop0 Hg0 Hq Hop) as (c0 & (g & -> & Eo & Eu & Hg & Hadds & _) & Hc0). cbn [cbind].
  destruct (FjordAddQuery_ok g q) as (Fo & Fg & Fr & Fu).
  change TCQMAXQUERIES with 128. destruct (Nat.ltb_spec q 128); [|lia]. cbn [cassert cbind].
  set (m := mkModule _ (FjordAddQuery g q) _ _ _).
  destruct (cmask_alter (completionMask st) i q Hi (H4 q Hq)) as [(b & Eb & Hb & Bb) Hother].
  destruct He as (Hs & _). destruct (H5 src Hs) as (o & Ho & Hwo).
  assert (∀ op' c' q', GSFNode.registered (filter m) op' c' q' ↔ GSFNode.registered (filter m0) op' c' q' ∨ op' = op ∧ c' = c0 ∧ q' = q) as Hreg
    by (intros; change (filter m) with (FjordAddQuery g q); rewrite Fr; apply Hadds).
  assert (∀ j q', j ∈ cmask (alter (λ b, BitArraySetBit b i) q (completionMask st)) q' ↔
            j ∈ cmask (completionMask st) q' ∨ j = i ∧ q' = q) as Hcm.
  { intros j q'. destruct (decide (q' = q)) as [->|Hne].
    - rewrite (cmask_lookup _ _ _ Eb), Bb, elem_of_union, elem_of_singleton. tauto.
    - destruct (Hother q' Hne) as [_ ->]. tauto. }
  apply lookup_lt_Some in Hm as Hlt.
  eexists _, m, c0. split; [reflexivity|]. cbn [eddy modules operators completionMask with_masks put_module with_modules].
  fold st. split; [|split; [by apply list_lookup_insert_eq|split; [done|split; [exact Hreg|split; [exact Hc0|split]]]]].
  - constructor; cbn [modules completionMask operators with_masks put_module with_modules].
    + intros j m' Hj. destruct (decide (j = i)) as [->|Hne]; [|rewrite list_lookup_insert_ne in Hj by done; by apply H1].
      rewrite list_lookup_insert_eq in Hj by done. injection Hj as <-. split; [done|]. constructor; [|by apply Fg|done].
      cbn. by rewrite Fo, Eo.
    + intros j m' op' c' q' Hj Hr. rewrite Hcm. destruct (decide (j = i)) as [->|Hne].
      * rewrite list_lookup_insert_eq in Hj by done. injection Hj as <-. change (filter m) with (FjordAddQuery g q). rewrite Fu, Eu.
        apply Hreg in Hr as [Hr|(_ & _ & ->)]; [|tauto]. destruct (H2 i m0 op' c' q' Hm Hr). tauto.
      * rewrite list_lookup_insert_ne in Hj by done. destruct (H2 j m' op' c' q' Hj Hr). tauto.
    + intros j q' Hq' Hj. rewrite Hcm in Hj. destruct (decide (j = i)) as [->|Hne].
      * exists m. rewrite list_lookup_insert_eq by done. split; [done|]. change (filter m) with (FjordAddQuery g q). rewrite Fu, Eu.
        destruct Hj as [Hj|[_ ?]]; [|tauto]. destruct (H3 i q' Hq' Hj) as (m' & Hm' & Hu). rewrite Hm in Hm'. injection Hm' as <-. tauto.
      * rewrite list_lookup_insert_ne by done. apply H3; [done|]. tauto.
    + intros q' Hq'. destruct (decide (q' = q)) as [->|Hne]; [by exists b|]. destruct (Hother q' Hne) as [-> _]. by apply H4.
    + intros s Hs'. destruct (decide (s = src)) as [->|Hne].
      * rewrite list_lookup_alter_eq, Ho. eexists. split; [done|]. by apply SetBit_wf.
      * rewrite list_lookup_alter_ne by done. by apply H5.
  - rewrite list_lookup_alter_eq, Ho. eexists. split; [done|]. rewrite SetBit_set by done. set_solver.
  - split; [intros j Hne; by rewrite list_lookup_insert_ne|done].
Qed.

(** The constant a predicate is entered for in operator [i]: its own, but for an
    inequality where that filter has another one. *)
Definition entered_constant (st : state) (op : GSF.optrtype) (c : C) (i : nat) (c0 : C) : Prop :=
  if decide (op = GSF.NE_OPTR) then
    match modules st !! i with Some (Some m0) => GSFNode.ne_constant (filter m0) c c0 | _ => c0 = c end
  else c0 = c.

(** What planning [e op c] comes to: in the state [st'], operator [i] is the
    filter [m], with the predicate entered for the constant [c0]. *)
Definition planned (st st' : state) (e : Node C) (src : nat) (op : GSF.optrtype) (c : C) (ty q i : nat) (m : module) (c0 : C) : Prop :=
  well_planned st' ∧ gsf_position st e ty i ∧ modules st' !! i = Some (Some m) ∧ node m = (e, ty)
  ∧ (∀ op' c' q', GSFNode.registered (filter m) op' c' q' ↔
       (∃ m0, modules st !! i = Some (Some m0) ∧ GSFNode.registered (filter m0) op' c' q')
       ∨ op' = op ∧ c' = c0 ∧ q' = q)
  ∧ entered_constant st op c i c0
  ∧ (∃ o, operators st' !! src = Some o ∧ i ∈ bits_of 96 o)
  ∧ i ∈ cmask (completionMask st') q
  ∧ (∀ j m', j ≠ i → modules st' !! j = Some (Some m') ↔ modules st !! j = Some (Some m'))
  ∧ (resting st → resting st').

Lemma filter_planned (p : PlanState V C HT F) fa1 fa2 e src opno op c ty q : filter_parts fa1 fa2 = Some (e, c, ty) →
  well_planned (eddy p) → get_num_active_modules (modules (eddy p)) < 96 → one_source e src → q < 128 → op ≠ GSF.OTHER_OPTR →
  ∃ p' i m c0, add_filter_to_matching_gsf LookupOpersForGSF fjord_room p (Expr OP_EXPR opno op [fa1; fa2]) q = Ok (true, p')
    ∧ planned (eddy p) (eddy p') e src op c ty q i m c0.
Proof.
  intros Ep Hwp Hact He Hq Hop. unfold add_filter_to_matching_gsf.
  rewrite bool_decide_eq_true_2 by done. cbn [negb]. rewrite Ep, bool_decide_eq_false_2 by done.
  destruct (position_ok (eddy p) e ty Hwp Hact) as (i & ms1 & m0 & -> & Hm0 & En & Hwp1 & Hothers & Hold & Huniq & Hrest0 & Hpos & Hold'). cbn [cbind].
  destruct (add_to_gsf_ok (mkPlan (with_modules (eddy p) ms1) (pjolist p)) i m0 e src op c q Hwp1 Hm0 He Hq Hop)
    as (p' & m & c0 & -> & Hwp' & Hm & En' & Hreg & Hc0 & Hsrc & Hrest & Ein & Eout & Est & Ew & Ect). cbn [cbind].
  exists p', i, m, c0. split; [done|]. split; [done|]. split; [done|]. split; [done|]. split; [congruence|]. split.
  { intros op' c' q'. rewrite Hreg. split; (intros [Hr|Hr]; [left|by right]).
    - exists m0. split; [by apply (Hold op' c' q')|done].
    - destruct Hr as (m1 & Hm1 & Hr). by rewrite <- (Huniq m1 Hm1). }
  split.
  { unfold entered_constant. case_decide; [|done]. destruct (modules (eddy p) !! i) as [[m1|]|] eqn:E1.
    - by rewrite (Huniq m1 eq_refl).
    - apply (GSFNode.ne_constant_none _ _ _ Hc0). destruct (GSF.nemap (filter m0)) as [|t l]; [|by discriminate Hold'].
      intros c1 (qs & Hin). by apply not_elem_of_nil in Hin.
    - apply (GSFNode.ne_constant_none _ _ _ Hc0). destruct (GSF.nemap (filter m0)) as [|t l]; [|by discriminate Hold'].
      intros c1 (qs & Hin). by apply not_elem_of_nil in Hin. }
  split; [done|]. split.
  - destruct Hwp' as [_ H2 _ _ _]. apply (H2 i m op c0 q Hm). apply Hreg. by right.
  - split; [intros j m' Hne; rewrite Hrest by done; by apply Hothers|]. intros Hrs. destruct (Hrest0 Hrs) as [Ein0 Eout0].
    constructor; rewrite ?Est, ?Ew, ?Ect; [apply Hrs| |apply Hrs]. intros j m' Hj. destruct (decide (j = i)) as [->|Hne].
    + rewrite Hm in Hj. injection Hj as <-. by rewrite Ein, Eout.
    + rewrite Hrest in Hj by done. by apply (rs_queues _ Hrs j), Hothers.
Qed.

(** C27: planning a predicate [e op c] on one source, with one of the six
    operators of the filters, succeeds while there is room for an operator: the
    predicate is entered, for this query and for no other, in the first filter on
    the expression and the type of the constant, and in a new one at a free
    position if there is no such filter.  It is entered for its constant, but for
    an inequality, which is entered for the first other constant of the
    filter's inequalities where there is one.  The source sends its tuples
    to this filter, the query waits for it, the other operators stay as they
    are, and the plan stays well formed. *)
Theorem add_filter_to_matching_gsf_plans (p : PlanState V C HT F) e src opno op c ty q :
  well_planned (eddy p) → get_num_active_modules (modules (eddy p)) < 96 → one_source e src → q < 128 → op ≠ GSF.OTHER_OPTR →
  ∃ p' i m c0, add_filter_to_matching_gsf LookupOpersForGSF fjord_room p (Expr OP_EXPR opno op [e; Const c ty]) q = Ok (true, p')
    ∧ planned (eddy p) (eddy p') e src op c ty q i m c0.
Proof. by apply filter_planned. Qed.

(** C37: the operands of a predicate are not swapped together with its operator:
    [c op e], with the constant on the left, is planned as [e op c].  The query
    is denied every tuple on which [e op c] is false, whatever [c op e] is. *)
Theorem add_filter_to_matching_gsf_swaps_operands (p : PlanState V C HT F) e src opno op c ty q :
  well_planned (eddy p) → get_num_active_modules (modules (eddy p)) < 96 → one_source e src → q < 128 →
  op ≠ GSF.OTHER_OPTR → op ≠ GSF.NE_OPTR →
  ∃ p' i m, add_filter_to_matching_gsf LookupOpersForGSF fjord_room p (Expr OP_EXPR opno op [Const c ty; e]) q = Ok (true, p')
    ∧ modules (eddy p') !! i = Some (Some m) ∧ node m = (e, ty) ∧ (∃ o, operators (eddy p') !! src = Some o ∧ i ∈ bits_of 96 o)
    ∧ ∀ v, GSFNode.holds (GSF.ops (filter m)) op v c = false → GSFNode.fails (filter m) v q.
Proof.
  intros Hwp Hact He Hq Hop Hne.
  assert (filter_parts (Const c ty) e = Some (e, c, ty)) as Ep by (destruct He as (_ & He & _); by destruct e).
  destruct (filter_planned p _ _ e src opno op c ty q Ep Hwp Hact He Hq Hop)
    as (p' & i & m & c0 & E & _ & _ & Hm & En & Hreg & Hc0 & Hsrc & _).
  unfold entered_constant in Hc0. rewrite decide_False in Hc0 by done.
  exists p', i, m. do 4 (split; [done|]). intros v Hv. exists op, c. split; [|done]. apply Hreg. right. by subst c0.
Qed.
End plan.
End EddyPlanSpec.
