(* ===== verification/EddyRemove.v ===== *)
(** * The continuous-query eddy: removing queries

    [remove_query] takes a query out of every filter and source, drops those no
    other query uses, and clears the masks of the query. *)

From S2P Require Import Prelude BitArray GSFilter GSFilterSpec GSFilterNode GSFilterThm Eddy EddyLoop EddySpec EddyGSF EddyInv.

Module EddyRemove.
Import Bit Eddy EddyLoop EddySpec EddyGSF EddyInv.
#[local] Opaque bits_of below.

Section remove.
Context {V C N HT F : Type} `{EqDecision C} `{!Tuples V N HT}.
Local Abbreviation module := (GSFModule V C N HT).
Local Abbreviation state := (EddyState module HT F).
Local Abbreviation scan := (ScanModule HT F).

(** ** Filters *)






(** ** Sources *)








(** ** The theorem *)







End remove.
End EddyRemove.
