(* ===== verification/EddyDemo.v ===== *)
(** * An eddy on two filters

    Tuples of two integers, one filter per column, four queries with a
    predicate on each column: a concrete instance of the theorems on routing. *)

From S2P Require Import Prelude BitArray GSFilter GSFilterSpec GSFilterNode GSFilterThm Eddy EddyLoop EddySpec EddyRoute EddyGSF EddyInv EddyAnswer EddyServe.

Module EddyDemo.
Import Bit Eddy EddyLoop EddySpec EddyRoute EddyGSF EddyInv EddyAnswer EddyServe.

(** Integers for doubles; the demo only compares timestamps. *)
#[global] Instance Z_double : Double Z := {|
  d_of_Z z := z; d_0_95 := 1%Z; dadd := Z.add; dsub := Z.sub; dmul := Z.mul; ddiv := Z.div;
  dlt := Z.ltb; d_geq := Z.geb; d_zero := 0%Z; DBL_MAX := (2 ^ 62)%Z
|}.

(** The columns of the first base tuple; punctuation is the empty tuple. *)
#[global] Instance two_columns : Tuples Z nat (list Z) := {|
  ExecEvalExpr col b := match b with Some ht :: _ => ht !!! col | _ => 0%Z end;
  HeapTupleIsPunct ht := match ht with [] => true | _ => false end
|}.

Definition module_on (col : nat) : GSFModule Z Z nat (list Z) := mkModule col GSFThm.demo 4 [] [].

Definition two_bits : BitArray := 192%Z :: replicate 11 0%Z.
Definition no_bits (n : nat) : BitArray := replicate (BASIZE n) 0%Z.
Definition blank : IHT (list Z) :=
  mkIHT (replicate 64 None) (no_bits 64) (no_bits 96) (no_bits 96) (no_bits 128) false.

Definition scan0 : ScanModule (list Z) Z :=
  mkScan 0 true false false None 0%Z false false [] [Some (Some [7; 3]%Z); Some (Some [5; 12]%Z)] 0 [6; 3; 2; 1] [].

Definition demo_masks : list BitArray := (λ q, if decide (q ∈ [6; 3; 2; 1]) then two_bits else no_bits 96) <$> seq 0 128.

Definition eddy0 : EddyState (GSFModule Z Z nat (list Z)) (list Z) Z :=
  mkEddy [Some (module_on 0); Some (module_on 1)] [Some scan0] None false [] false [6; 3; 2; 1] [] 4
    (two_bits :: replicate 63 (no_bits 96)) [no_bits 96] demo_masks (replicate 128 (no_bits 64)) (replicate 96 1%Z) (replicate 96 0%Z)
    [blank] 0 0 0 0 [].

Definition cfg0 (smart : bool) : config Z :=
  mkConfig (-1) smart false true (λ n, n * n + 89) (λ n, Z.of_nat n).

Definition demo_live : gset nat := {[0; 1]}.

Lemma two_bits_set : bits_of 96 two_bits = demo_live.
Proof. by vm_compute. Qed.

Lemma two_bits_wf : wf 96 two_bits.
Proof. split; [done|by repeat constructor]. Qed.

Lemma no_bits_wf : wf 96 (no_bits 96).
Proof. split; [done|by repeat constructor]. Qed.

Lemma demo_query q : q ∈ [6; 3; 2; 1] → q < 128.
Proof. rewrite !elem_of_cons, elem_of_nil. lia. Qed.

Lemma demo_mask q : q < 128 → demo_masks !! q = Some (if decide (q ∈ [6; 3; 2; 1]) then two_bits else no_bits 96).
Proof. intros Hq. unfold demo_masks. rewrite list_lookup_fmap, lookup_seq_lt by done. done. Qed.

Lemma demo_cmask q : q < 128 → cmask demo_masks q = if decide (q ∈ [6; 3; 2; 1]) then demo_live else ∅.
Proof.
  intros Hq. rewrite (cmask_lookup _ _ _ (demo_mask q Hq)). case_decide; [apply two_bits_set|by vm_compute].
Qed.

Lemma demo_registered op c q : GSFNode.registered GSFThm.demo op c q → q ∈ [6; 3; 2; 1].
Proof.
  destruct op; cbn; try (intros Hh; by apply GSFSpec.has_NULL in Hh); try done; intros Hh.
  1,2: repeat (rewrite (GSFSpec.has_node _ _ _ _ _ _ _ _ _ eq_refl) in Hh; destruct Hh as [[_ Hi]|[Hh|Hh]];
    [set_solver| |by apply GSFSpec.has_NULL in Hh]); by apply GSFSpec.has_NULL in Hh.
  all: apply GSFNode.list_has_cons in Hh as [[_ Hi]|Hh]; [set_solver|by apply GSFNode.list_has_nil in Hh].
Qed.

Lemma module_on_ok col : module_ok (module_on col).
Proof. constructor; [apply GSFThm.zops_ok|apply GSFThm.demo_ok|cbn; lia]. Qed.

Lemma demo_modules i m : modules eddy0 !! i = Some (Some m) → i ∈ demo_live ∧ m = module_on i.
Proof. destruct i as [|[|i]]; intros Hm; [| |done]; injection Hm as <-; (split; [by vm_compute|done]). Qed.

Lemma demo_live_module i : i ∈ demo_live → i < 96 ∧ modules eddy0 !! i = Some (Some (module_on i)).
Proof. intros [Hi|Hi]%elem_of_union; apply elem_of_singleton in Hi as ->; (split; [lia|done]). Qed.

Lemma demo_well_planned : well_planned eddy0.
Proof.
  constructor.
  - intros i m [Hi ->]%demo_modules. split; [by apply demo_live_module|apply module_on_ok].
  - intros i m op c q [Hi ->]%demo_modules Hr. apply demo_registered in Hr. split; [|exact Hr].
    change (completionMask eddy0) with demo_masks. by rewrite demo_cmask, decide_True by (done || by apply demo_query).
  - intros i q Hq. change (completionMask eddy0) with demo_masks. rewrite demo_cmask by done.
    case_decide; [|by intros ?%elem_of_empty]. intros Hi. exists (module_on i). split; [by apply demo_live_module|done].
  - intros q Hq. eexists. split; [by apply demo_mask|]. case_decide; [apply two_bits_wf|apply no_bits_wf].
  - intros [|src] Hs; [exists two_bits; split; [done|apply two_bits_wf]|].
    exists (no_bits 96). split; [|apply no_bits_wf]. cbn [operators eddy0 lookup list_lookup]. apply lookup_replicate_2. lia.
Qed.

Lemma demo_resting : resting eddy0.
Proof.
  constructor; [done| |cbn [eddy0 weights current_tuples_returned]; by rewrite !length_replicate].
  by intros i m [_ ->]%demo_modules.
Qed.

Lemma demo_source : source_ready eddy0 0 scan0 [7; 3]%Z blank two_bits (no_bits 96).
Proof.
  constructor; try done.
  - constructor; (split; [done|by repeat constructor]).
  - split; [done|by repeat constructor].
  - exact demo_query.
Qed.

Lemma eddy_serves_tuple_witness :
  ∃ st0 n st1 st' evs,
    run_source 1 (cfg0 true) eddy0 0 = Ok st0
    ∧ eddy_run (cfg0 true) 1 1 (λ ht, ht !!! 0) n st0 = Ok st1
    ∧ route_module 1 (cfg0 true) st1 = Ok (FromSource, st')
    ∧ same_plan eddy0 st' ∧ well_planned st' ∧ resting st' ∧ canRemoveQuery st' = true ∧ out st' = out eddy0 ++ evs
    ∧ all_of (t_base_tuples (base_tuple scan0 [7; 3]%Z blank two_bits)) evs
    ∧ ∀ q, deliveries q evs = 1 ∧ satisfies eddy0 scan0 two_bits (base_tuple scan0 [7; 3]%Z blank two_bits) q
           ∨ deliveries q evs = 0 ∧ ¬ satisfies eddy0 scan0 two_bits (base_tuple scan0 [7; 3]%Z blank two_bits) q.
Proof.
  apply (eddy_serves_tuple (cfg0 true) 1 1 (λ ht, ht !!! 0) eddy0 0 scan0 [7; 3]%Z blank two_bits (no_bits 96));
    [apply demo_well_planned|apply demo_resting|exact demo_query|lia|lia|reflexivity|reflexivity|apply demo_source|by vm_compute| |].
  - intros i Hi. rewrite two_bits_set in Hi. apply is_live_Some. eexists. by apply demo_live_module.
  - intros q Hq _. change (completionMask eddy0) with demo_masks.
    by rewrite demo_cmask, decide_True, two_bits_set by (done || by apply demo_query).
Defined.

(** The same tuple, taken by the eddy. *)
Definition taken0 : IHT (list Z) := base_tuple scan0 [7; 3]%Z blank two_bits.
Definition eddy1 : EddyState (GSFModule Z Z nat (list Z)) (list Z) Z := with_iht eddy0 (Some taken0) true.

Lemma demo_inv : inv demo_live (idles module_on demo_live) [6; 3; 2; 1] demo_masks eddy1 (λ _, None).
Proof.
  constructor; [| |done|done].
  - intros i m [Hi ->]%demo_modules. split; [done|]. split; [done|by repeat constructor].
  - intros i Hi. apply demo_live_module in Hi as [Hi Hm]. split; [done|]. split; [apply is_live_Some; by eexists|].
    cbn [eddy1 eddy0 with_iht weights current_tuples_returned]. by rewrite !length_replicate.
Qed.

Lemma taken_good : good demo_live (λ _, True) taken0.
Proof.
  destruct (base_tuple_ok _ _ _ _ _ _ _ demo_source) as (Wt & Er & Ed & _).
  constructor; [exact Wt|unfold taken0; by rewrite Er, two_bits_set|unfold taken0; rewrite Ed; apply disjoint_empty_r|done].
Qed.

Lemma eddy_explores_witness :
  ∃ n st1 st' evs, eddy_run (cfg0 false) 1 1 (λ ht, ht !!! 0) n eddy1 = Ok st1
    ∧ route_module 1 (cfg0 false) st1 = Ok (FromSource, st')
    ∧ visits (ask module_on) [6; 3; 2; 1] demo_masks taken0 evs ∧ out st' = out eddy1 ++ evs
    ∧ inv demo_live (idles module_on demo_live) [6; 3; 2; 1] demo_masks st' (λ _, None) ∧ kept eddy1 st'
    ∧ canRemoveQuery st' = true.
Proof.
  pose proof (idles_laws module_on demo_live (λ i _, module_on_ok i)) as Hlaws.
  assert (∀ q, q ∈ [6; 3; 2; 1] → q < 128 ∧ ∃ m, demo_masks !! q = Some m ∧ wf 96 m) as Hmk.
  { intros q Hq%demo_query. split; [done|]. by apply (wp_masks _ demo_well_planned). }
  apply (eddy_explores demo_live (ask module_on) (λ _, True) (idles module_on demo_live) [6; 3; 2; 1] demo_masks Hmk (cfg0 false) 1 1);
    [lia|lia|reflexivity|apply demo_inv|reflexivity|reflexivity|apply taken_good|reflexivity].
Defined.

(** The column values 7 and 3: [x < 10] of query 1 and [x <> 4] of query 6 hold
    on both; [x <= 5] and [x = 7] fail on one. *)
Example demo_run :
  match run_source 1 (cfg0 true) eddy0 0 with
  | Ok st0 => match eddy_run (cfg0 true) 1 1 (λ ht, ht !!! 0) 4 st0 with
              | Ok st1 => map (λ e, match e with receiveTuple _ w => elements (bits_of 128 w) | _ => [] end) (out st1)
              | Fail _ => []
              end
  | Fail _ => []
  end = [[6; 1]].
Proof. by vm_compute. Qed.
End EddyDemo.
