(* ===== verification/EddyPlanDemo.v ===== *)
(** * Planning and removing on a small eddy

    Concrete instances of the theorems on planning, on removal and on the choice
    of a source: integers for values, constants and timestamps. *)

From S2P Require Import Prelude BitArray GSFilter GSFilterSpec GSFilterNode GSFilterThm Eddy EddyLoop EddySpec EddyGSF EddyInv EddyPlan EddyPlanSpec EddyRemove EddySource EddyDemo.

Module EddyPlanDemo.
Import Bit Eddy EddyLoop EddySpec EddyGSF EddyInv EddyPlan EddyPlanSpec EddyRemove EddySource EddyDemo.

Local Abbreviation filter_module := (GSFModule Z Z (Node Z * nat) (list Z)).

(** An eddy with the operators [ms] and the masks [masks], and nothing else. *)
Definition bare (ms : list (option filter_module)) (masks : list BitArray) : EddyState filter_module (list Z) Z :=
  mkEddy ms [] None false [] false [] [] 0 (replicate 64 (no_bits 96)) (replicate 64 (no_bits 96)) masks
    (replicate 128 (no_bits 64)) (replicate 96 1%Z) (replicate 96 0%Z) [] 0 0 0 0 [].

Lemma no_bits_set : bits_of 96 (no_bits 96) = ∅.
Proof. by vm_compute. Qed.

Lemma zero_mask q : q < 128 → cmask (replicate 128 (no_bits 96)) q = ∅.
Proof.
  intros Hq. rewrite <- no_bits_set. unfold cmask. f_equal. apply list_lookup_total_correct.
  by apply lookup_replicate_2.
Qed.

(** ** Planning on the empty eddy *)

Definition empty_plan : PlanState Z Z (list Z) Z := mkPlan (bare [] (replicate 128 (no_bits 96))) [].

Lemma empty_well_planned : well_planned (eddy empty_plan).
Proof.
  constructor; [done|done| | |].
  - intros i q Hq Hi. change (i ∈ cmask (replicate 128 (no_bits 96)) q) in Hi.
    rewrite zero_mask in Hi by done. by apply elem_of_empty in Hi.
  - intros q Hq. exists (no_bits 96). split; [by apply lookup_replicate_2|apply no_bits_wf].
  - intros src Hs. exists (no_bits 96). split; [by apply lookup_replicate_2|apply no_bits_wf].
Qed.

Lemma column_one_source : one_source (Var 1 0 : Node Z) 0.
Proof. split; [lia|]. split; [done|]. intros v Hv. by apply list_elem_of_singleton in Hv. Qed.

Lemma add_filter_to_matching_gsf_plans_witness :
  ∃ p' i m c0, add_filter_to_matching_gsf (λ _ _, GSFThm.zops) 4 empty_plan (Expr OP_EXPR 97 GSF.LT_OPTR [Var 1 0; Const 5%Z 23]) 7 = Ok (true, p')
    ∧ planned (eddy empty_plan) (eddy p') (Var 1 0) 0 GSF.LT_OPTR 5%Z 23 7 i m c0.
Proof.
  apply (add_filter_to_matching_gsf_plans (λ _ _, GSFThm.zops) 4 (λ _ _, GSFThm.zops_ok) ltac:(lia) empty_plan (Var 1 0) 0 97 GSF.LT_OPTR 5%Z 23 7);
    [apply empty_well_planned|apply Nat.ltb_lt; reflexivity|apply column_one_source|lia|discriminate].
Defined.

(** [5 < x] is planned as [x < 5]: the value 7, which satisfies it, fails. *)
Lemma add_filter_to_matching_gsf_swaps_operands_witness :
  ∃ p' i m, add_filter_to_matching_gsf (λ _ _, GSFThm.zops) 4 empty_plan (Expr OP_EXPR 97 GSF.LT_OPTR [Const 5%Z 23; Var 1 0]) 7 = Ok (true, p')
    ∧ modules (eddy p') !! i = Some (Some m) ∧ node m = (Var 1 0, 23) ∧ (∃ o, operators (eddy p') !! 0 = Some o ∧ i ∈ bits_of 96 o)
    ∧ ∀ v, GSFNode.holds (GSF.ops (filter m)) GSF.LT_OPTR v 5%Z = false → GSFNode.fails (filter m) v 7.
Proof.
  apply (add_filter_to_matching_gsf_swaps_operands (λ _ _, GSFThm.zops) 4 (λ _ _, GSFThm.zops_ok) ltac:(lia) empty_plan (Var 1 0) 0 97 GSF.LT_OPTR 5%Z 23 7);
    [apply empty_well_planned|apply Nat.ltb_lt; reflexivity|apply column_one_source|lia|discriminate|discriminate].
Defined.

(** ** Removing the only query of a filter *)






#[global] Instance plan_columns : Tuples Z (Node Z * nat) (list Z) := {|
  ExecEvalExpr n b := match n.1, b with Var _ a, Some ht :: _ => ht !!! a | _, _ => 0%Z end;
  HeapTupleIsPunct ht := match ht with [] => true | _ => false end
|}.


(** ** Two streams *)

#[global] Instance Z_geq : GeqOrder (F := Z).
Proof. constructor; cbn; intros *; rewrite ?Z.geb_le; [lia|]. destruct (Z.leb_spec b a); rewrite ?Z.geb_le; lia. Qed.

Definition stream (stamp : Z) : ScanModule (list Z) Z :=
  mkScan 0 true false false None 0%Z false false [] [Some (Some [stamp])] 0 [1] [].

Definition stream_pair : EddyState filter_module (list Z) Z := with_sources (bare [] []) [Some (stream 9); None; Some (stream 4)].

Lemma chooseSourceTimestampOrder_oldest_witness :
  (∃ k s, chooseSourceTimestampOrder (λ ht : list Z, ht !!! 0) stream_pair = Ok (k, with_sources stream_pair (looked_at (λ ht : list Z, ht !!! 0) <$> sources stream_pair))
     ∧ open stream_pair k s ∧ ∀ j s', open stream_pair j s' → d_geq (offers (λ ht : list Z, ht !!! 0) s') (offers (λ ht : list Z, ht !!! 0) s) = true)
  ∨ (∀ j s, ¬ open stream_pair j s)
    ∧ chooseSourceTimestampOrder (λ ht : list Z, ht !!! 0) stream_pair
      = Fail (Elog "chooseSourceTimestampOrder: Nothing to choose from... this is unexpected!").
Proof.
  apply (chooseSourceTimestampOrder_oldest (λ ht : list Z, ht !!! 0) stream_pair).
  intros [|[|[|j]]] s Hs; try discriminate Hs; injection Hs as <-; discriminate.
Defined.

Example older_stream_first :
  match chooseSourceTimestampOrder (λ ht : list Z, ht !!! 0) stream_pair with Ok (k, _) => Some k | Fail _ => None end = Some 2.
Proof. by vm_compute. Qed.
End EddyPlanDemo.
