(* ===== verification/Hash.v ===== *)
(** * Hashing of join keys

    [mix] and [hash_any_multiple] of [src/src/backend/access/hash/hashfunc.c]
    (Bob Jenkins' hash) and [hashFunc] of [src/src/backend/executor/nodeHash.c].

    Words of 32 bits are integers between 0 and [2^32 - 1], with the wrap-around
    written out.  A datum is the word of a by-value type or the bytes its pointer
    leads to: for a varlena the four bytes of the length word and the data, for a
    C string the bytes with the terminating zero.  [PG_DETOAST_DATUM] is left out:
    the bytes of a varlena are those of the plain value. *)

From S2P Require Import Prelude.

Module Hash.
Open Scope Z_scope.

Definition u32 (z : Z) : Z := z mod 2 ^ 32.

(** [x -= y; x -= z; x ^= s], the three statements [mix] repeats. *)
Definition sub_sub_xor (x y z s : Z) : Z := Z.lxor (u32 (u32 (x - y) - z)) s.

(** Three of the nine groups of statements; only the distances of the shifts differ. *)
Definition mix_round (n1 n2 n3 : Z) (s : Z * Z * Z) : Z * Z * Z :=
  let '(a, b, c) := s in
  let a := sub_sub_xor a b c (Z.shiftr c n1) in
  let b := sub_sub_xor b c a (u32 (Z.shiftl a n2)) in
  let c := sub_sub_xor c a b (Z.shiftr b n3) in
  (a, b, c).

Definition mix (s : Z * Z * Z) : Z * Z * Z := mix_round 3 10 15 (mix_round 12 16 5 (mix_round 13 8 13 s)).

(** Four bytes, the first one lowest. *)
Definition word (k0 k1 k2 k3 : Z) : Z :=
  u32 (k0 + u32 (Z.shiftl k1 8) + u32 (Z.shiftl k2 16) + u32 (Z.shiftl k3 24)).

(** [while (len >= 12)]: the state and the bytes that are left. *)
Fixpoint hash_blocks (k : list Z) (s : Z * Z * Z) : list Z * (Z * Z * Z) :=
  match k with
  | k0 :: k1 :: k2 :: k3 :: k4 :: k5 :: k6 :: k7 :: k8 :: k9 :: k10 :: k11 :: k' =>
      let '(a, b, c) := s in
      hash_blocks k' (mix (u32 (a + word k0 k1 k2 k3), u32 (b + word k4 k5 k6 k7), u32 (c + word k8 k9 k10 k11)))
  | _ => (k, s)
  end.

(** The cases of the switch fall through: a byte that is there is added, one that
    is not adds nothing. *)
Definition hash_any_multiple (k : list Z) (initval : Z) : Z :=
  let '(rest, (a, b, c)) := hash_blocks k (0x9e3779b9, 0x9e3779b9, initval) in
  let byte i := nth i rest 0 in
  let c := u32 (c + Z.of_nat (length k)) in
  let c := u32 (c + u32 (Z.shiftl (byte 10%nat) 24)) in
  let c := u32 (c + u32 (Z.shiftl (byte 9%nat) 16)) in
  let c := u32 (c + u32 (Z.shiftl (byte 8%nat) 8)) in
  let b := u32 (b + u32 (Z.shiftl (byte 7%nat) 24)) in
  let b := u32 (b + u32 (Z.shiftl (byte 6%nat) 16)) in
  let b := u32 (b + u32 (Z.shiftl (byte 5%nat) 8)) in
  let b := u32 (b + byte 4%nat) in
  let a := u32 (a + u32 (Z.shiftl (byte 3%nat) 24)) in
  let a := u32 (a + u32 (Z.shiftl (byte 2%nat) 16)) in
  let a := u32 (a + u32 (Z.shiftl (byte 1%nat) 8)) in
  let a := u32 (a + byte 0%nat) in
  let '(_, _, c) := mix (a, b, c) in c.

Definition hash_any (k : list Z) : Z := hash_any_multiple k 3923095.

Inductive Datum : Type :=
  | ByVal (w : Z)
  | ByRef (bytes : list Z).

#[global] Instance Datum_eq : EqDecision Datum.
Proof. solve_decision. Defined.

Fixpoint le_bytes (n : nat) (w : Z) : list Z :=
  match n with
  | O => []
  | S n' => w mod 256 :: le_bytes n' (w / 256)
  end.

(** The bytes up to the first zero, and the zero. *)
Fixpoint cstring (k : list Z) : cres (list Z) :=
  match k with
  | [] => Fail Undefined
  | x :: k' => if x =? 0 then Ok [0] else let! r := cstring k' in Ok (x :: r)
  end.

(** A block of [n] bytes that has to be there. *)
Definition block (n : nat) (k : list Z) : cres (list Z) :=
  if (length k <? n)%nat then Fail Undefined else Ok (take n k).

(** [VARSIZE]: the length word without its two flag bits. *)
Definition varsize (k : list Z) : cres Z :=
  let! h := block 4 k in Ok (Z.land (word (nth 0 h 0) (nth 1 h 0) (nth 2 h 0) (nth 3 h 0)) 0x3FFFFFFF).

Definition VARHDRSZ : Z := 4.

(** A datum of eight bytes. *)
Definition hashFunc (key : Datum) (typLen : Z) (byVal : bool) : cres Z :=
  match key with
  | ByVal w => if byVal then Ok (hash_any (le_bytes 8 w)) else Fail Undefined
  | ByRef k =>
      if byVal then Fail Undefined
      else
        let! b :=
          if 0 <? typLen then block (Z.to_nat typLen) k
          else if typLen =? -1 then
            let! n := varsize k in block (Z.to_nat (n - VARHDRSZ)) (drop 4 k)
          else if typLen =? -2 then cstring k
          else Fail (Elog "hashFunc: Invalid typLen %d") in
        Ok (hash_any b)
  end.

(** ** Words stay words *)

Lemma u32_range z : 0 <= u32 z < 2 ^ 32.
Proof. by apply Z.mod_pos_bound. Qed.

Lemma u32_id z : 0 <= z < 2 ^ 32 → u32 z = z.
Proof. by apply Z.mod_small. Qed.

Lemma lxor_word a b : 0 <= a < 2 ^ 32 → 0 <= b < 2 ^ 32 → 0 <= Z.lxor a b < 2 ^ 32.
Proof.
  intros Ha Hb. assert (Z.lxor a b = u32 (Z.lxor a b)) as ->; [|apply u32_range].
  unfold u32. rewrite <- Z.land_ones, Z.land_comm by done.
  apply Z.bits_inj'. intros n Hn. rewrite Z.land_spec, Z.lxor_spec, Z.testbit_ones_nonneg by done.
  destruct (n <? 32) eqn:E; [done|]. apply Z.ltb_ge in E.
  assert (∀ x, 0 <= x < 2 ^ 32 → Z.testbit x n = false) as H.
  { intros x Hx. rewrite <- (Z.mod_small x (2 ^ 32)) by done. by apply Z.mod_pow2_bits_high. }
  by rewrite !H.
Qed.

Lemma shiftr_word c n : 0 <= c < 2 ^ 32 → 0 <= n → 0 <= Z.shiftr c n < 2 ^ 32.
Proof.
  intros Hc Hn. rewrite Z.shiftr_div_pow2 by done. assert (0 < 2 ^ n) by (by apply Z.pow_pos_nonneg).
  split; [apply Z.div_pos; lia|]. apply Z.div_lt_upper_bound; nia.
Qed.

Definition words (s : Z * Z * Z) : Prop :=
  let '(a, b, c) := s in 0 <= a < 2 ^ 32 ∧ 0 <= b < 2 ^ 32 ∧ 0 <= c < 2 ^ 32.

Lemma sub_sub_xor_word x y z s : 0 <= s < 2 ^ 32 → 0 <= sub_sub_xor x y z s < 2 ^ 32.
Proof. intros Hs. apply lxor_word; [apply u32_range|done]. Qed.

Create HintDb words.
#[export] Hint Resolve u32_range sub_sub_xor_word shiftr_word : words.

Lemma mix_round_words n1 n2 n3 s : 0 <= n1 → 0 <= n3 → words s → words (mix_round n1 n2 n3 s).
Proof.
  destruct s as [[a b] c]. intros H1 H3 (Ha & Hb & Hc). unfold mix_round, words.
  assert (0 <= sub_sub_xor a b c (Z.shiftr c n1) < 2 ^ 32) as Ha' by auto with words.
  set (a' := sub_sub_xor a b c _) in *.
  assert (0 <= sub_sub_xor b c a' (u32 (Z.shiftl a' n2)) < 2 ^ 32) as Hb' by auto with words.
  set (b' := sub_sub_xor b c a' _) in *. auto with words.
Qed.

Lemma mix_words s : words s → words (mix s).
Proof. intros Hs. unfold mix. by repeat apply mix_round_words. Qed.

(** The inverse of one group of statements. *)
Definition xor_add_add (x y z s : Z) : Z := u32 (u32 (Z.lxor x s + z) + y).

Lemma u32_add a b : u32 (u32 a + b) = u32 (a + b).
Proof. unfold u32. by rewrite Z.add_mod_idemp_l. Qed.

Lemma u32_sub a b : u32 (u32 a - b) = u32 (a - b).
Proof. unfold u32. by rewrite Zminus_mod_idemp_l. Qed.

Lemma xor_add_add_ok x y z s : 0 <= x < 2 ^ 32 → xor_add_add (sub_sub_xor x y z s) y z s = x.
Proof.
  intros Hx. unfold xor_add_add, sub_sub_xor. rewrite Z.lxor_assoc, Z.lxor_nilpotent, Z.lxor_0_r.
  rewrite u32_sub, u32_add. replace (u32 (x - y - z) + z + y) with (u32 (x - y - z) + (z + y)) by lia.
  rewrite u32_add. replace (x - y - z + (z + y)) with x by lia. by apply u32_id.
Qed.

(** [mix_round] and [mix] run backwards. *)
Definition unmix_round (n1 n2 n3 : Z) (s : Z * Z * Z) : Z * Z * Z :=
  let '(a, b, c) := s in
  let c := xor_add_add c a b (Z.shiftr b n3) in
  let b := xor_add_add b c a (u32 (Z.shiftl a n2)) in
  let a := xor_add_add a b c (Z.shiftr c n1) in
  (a, b, c).

Definition unmix (s : Z * Z * Z) : Z * Z * Z := unmix_round 13 8 13 (unmix_round 12 16 5 (unmix_round 3 10 15 s)).

Lemma unmix_round_ok n1 n2 n3 s : words s → unmix_round n1 n2 n3 (mix_round n1 n2 n3 s) = s.
Proof.
  destruct s as [[a b] c]. intros (Ha & Hb & Hc). unfold unmix_round, mix_round.
  by rewrite !xor_add_add_ok.
Qed.

Lemma hash_any_range k : 0 <= hash_any k < 2 ^ 32.
Proof.
  unfold hash_any, hash_any_multiple.
  destruct (hash_blocks k (0x9e3779b9, 0x9e3779b9, 3923095)) as [rest [[a b] c]].
  match goal with |- context [mix ?s] => pose proof (mix_words s) as H; destruct (mix s) as [[a' b'] c'] end.
  destruct H as (_ & _ & H); [split_and!; apply u32_range|done].
Qed.

(** [hashFunc] gives a 32-bit word, whatever the key. *)
Lemma hashFunc_range key typLen byVal h : hashFunc key typLen byVal = Ok h → 0 <= h < 2 ^ 32.
Proof.
  assert (∀ k, Ok (hash_any k) = Ok h → 0 <= h < 2 ^ 32) as H by (intros k E; rewrite <- (Ok_inj _ _ E); apply hash_any_range).
  unfold hashFunc. destruct key as [w|k], byVal; try discriminate; [apply H|].
  intros (b & _ & E)%cbind_Ok. by apply (H b).
Qed.

(** The comment on [mix] says that it mixes three 32-bit values reversibly: it
    does.  On words it has an inverse, and so it is one to one and loses nothing
    of the key; every bit operation stays within 32 bits. *)
Theorem mix_reversible s : words s → words (mix s) ∧ unmix (mix s) = s.
Proof.
  intros Hs. split; [by apply mix_words|]. unfold mix, unmix.
  rewrite !unmix_round_ok; try done; repeat apply mix_round_words; done.
Qed.

Lemma mix_reversible_witness : words (1, 2, 3) ∧ mix (1, 2, 3) = (120349509, 1098030347, 3082062082)
  ∧ unmix (mix (1, 2, 3)) = (1, 2, 3).
Proof.
  assert (words (1, 2, 3)) as H by (cbn; lia). split; [exact H|]. split; [vm_compute; reflexivity|].
  apply (mix_reversible (1, 2, 3) H).
Defined.
End Hash.
