(* ===== verification/Stem.v ===== *)
(** * State modules

    [src/src/backend/executor/nodeSteM.c], and the operations on composite tuples
    of [intermediateTuple.c] that it uses.

    A SteM keeps the tuples of one source in a hash table on a key and answers
    probes: the stored tuples that match a tuple of another source, one at a
    time, each joined with it.  The table is the structure of the code: an array
    of pointers to the first node of each bucket, and nodes linked by [next].
    Locations are numbers; [allocated] is the next fresh one.

    Left out: the disk partitions, which the build switches off
    ([ENABLE_DISK_BASED] is not defined, [init_partitioning_information] puts
    every bucket into the partition in memory and nothing moves it), and with
    them [t_timestamp] and the pending probes; the statistics in [stats], which
    nothing reads; freeing memory.  Tuple slots hold their tuple. *)

From S2P Require Import Prelude BitArray Hash Eddy.

Module Stem.
Import Bit Eddy.

(** What is outside: the evaluation of the join key (no result is a null) and of
    the join clauses on a stored and a probing tuple, the type of a key, and the
    bytes of a base tuple. *)
Class StemEnv (HT N Q : Type) : Type := {
  ExecEvalKey : N → list (option HT) → option Hash.Datum;
  get_typlenbyval : N → Z * bool;
  ExecQual : Q → list (option HT) → list (option HT) → bool;
  tuple_bytes : HT → list Z
}.

Section stem.
Context {HT N Q : Type} `{!StemEnv HT N Q}.

(** ** Composite tuples *)

(** [target] is what the record held before. *)
Definition copyIntermediateHeapTuple (target source : IHT HT) : IHT HT :=
  mkIHT (t_base_tuples source)
    (BitArrayClone (t_sources target) (t_sources source) TCQMAXSOURCES)
    (BitArrayClone (t_ready target) (t_ready source) TCQMAXOPERATORS)
    (BitArrayClone (t_done target) (t_done source) TCQMAXOPERATORS)
    (BitArrayClone (t_queriesCompleted target) (t_queriesCompleted source) TCQMAXQUERIES)
    (isAggTuple source).

Fixpoint add_base_tuples (to from : list (option HT)) : cres (list (option HT)) :=
  match to, from with
  | t :: to', f :: from' =>
      let! x := match f with
                | Some h => let! _ := cassert (match t with None => true | Some _ => false end) in Ok (Some h)
                | None => Ok t
                end in
      let! r := add_base_tuples to' from' in Ok (x :: r)
  | _, _ => Ok to
  end.

Definition AddBaseTuples (iht_to iht_from : IHT HT) : cres (IHT HT) :=
  let! b := add_base_tuples (t_base_tuples iht_to) (t_base_tuples iht_from) in
  Ok (mkIHT b (BitArrayOrSelf (t_sources iht_to) (t_sources iht_from) TCQMAXSOURCES) (t_ready iht_to)
        (BitArrayOrSelf (t_done iht_to) (t_done iht_from) TCQMAXOPERATORS) (t_queriesCompleted iht_to)
        (isAggTuple iht_to)).

Definition AddBaseTuple (iht : IHT HT) (ht : HT) (sourceID : nat) : cres (IHT HT) :=
  let! o := access (t_base_tuples iht !! sourceID) in
  let! _ := cassert (match o with None => true | Some _ => false end) in
  Ok (mkIHT (<[sourceID := Some ht]> (t_base_tuples iht)) (BitArraySetBit (t_sources iht) sourceID) (t_ready iht)
        (t_done iht) (t_queriesCompleted iht) (isAggTuple iht)).

(** ** The hash table *)

Record SteMHashJoinTuple : Type := mkNode {
  next : option nat;
  bucket_no : nat;
  htup : IHT HT
}.

Record SteMHashTable : Type := mkTable {
  totalbuckets : nat;
  typLen : Z;
  typByVal : bool;
  buckets : list (option nat);
  nodes : gmap nat SteMHashJoinTuple;
  allocated : nat
}.

Record SteMState : Type := mkState {
  stemhashtable : SteMHashTable;
  sm_CurBucketNo : nat;
  sm_CurTuple : option nat;
  sm_OuterTuple : option (IHT HT);
  sm_NeedNewOuter : bool;
  sm_tempiHeapTupleData : IHT HT;
  sm_tuplesInserted : Z;
  sm_tuplesProbed : Z;
  sm_tuplesReturned : Z;
  num_inserted_tuples_per_bucket : list Z;
  oldest_tuple : option nat;
  newest_tuple : option nat;
  sm_promotion_mode : bool;
  sm_current_promoted_tuple : option nat;
  sm_tuple_before_current_promoted_tuple : option nat;
  sm_current_promoted_tuple_bucket_no : Z
}.

Record SteM : Type := mkSteM {
  innerhashkey : N;
  outerhashkey : N;
  stemclauses : Q;
  sourceBuiltOn : BitArray;
  stemstate : SteMState
}.

Definition with_state (s : SteM) (st : SteMState) : SteM :=
  mkSteM (innerhashkey s) (outerhashkey s) (stemclauses s) (sourceBuiltOn s) st.
Definition with_keys (s : SteM) (k : N) (q : Q) : SteM :=
  mkSteM (innerhashkey s) k q (sourceBuiltOn s) (stemstate s).

Definition with_table (st : SteMState) (t : SteMHashTable) : SteMState :=
  mkState t (sm_CurBucketNo st) (sm_CurTuple st) (sm_OuterTuple st) (sm_NeedNewOuter st) (sm_tempiHeapTupleData st)
    (sm_tuplesInserted st) (sm_tuplesProbed st) (sm_tuplesReturned st) (num_inserted_tuples_per_bucket st)
    (oldest_tuple st) (newest_tuple st) (sm_promotion_mode st) (sm_current_promoted_tuple st)
    (sm_tuple_before_current_promoted_tuple st) (sm_current_promoted_tuple_bucket_no st).
Definition with_inserted (st : SteMState) (n : Z) (per : list Z) (old new : option nat) : SteMState :=
  mkState (stemhashtable st) (sm_CurBucketNo st) (sm_CurTuple st) (sm_OuterTuple st) (sm_NeedNewOuter st)
    (sm_tempiHeapTupleData st) n (sm_tuplesProbed st) (sm_tuplesReturned st) per old new (sm_promotion_mode st)
    (sm_current_promoted_tuple st) (sm_tuple_before_current_promoted_tuple st) (sm_current_promoted_tuple_bucket_no st).
Definition with_probe (st : SteMState) (bno : nat) (cur : option nat) (o : option (IHT HT)) (need : bool) : SteMState :=
  mkState (stemhashtable st) bno cur o need (sm_tempiHeapTupleData st)
    (sm_tuplesInserted st) (sm_tuplesProbed st) (sm_tuplesReturned st) (num_inserted_tuples_per_bucket st)
    (oldest_tuple st) (newest_tuple st) (sm_promotion_mode st) (sm_current_promoted_tuple st)
    (sm_tuple_before_current_promoted_tuple st) (sm_current_promoted_tuple_bucket_no st).
Definition with_result (st : SteMState) (t : IHT HT) (probed returned : Z) : SteMState :=
  mkState (stemhashtable st) (sm_CurBucketNo st) (sm_CurTuple st) (sm_OuterTuple st) (sm_NeedNewOuter st) t
    (sm_tuplesInserted st) probed returned (num_inserted_tuples_per_bucket st)
    (oldest_tuple st) (newest_tuple st) (sm_promotion_mode st) (sm_current_promoted_tuple st)
    (sm_tuple_before_current_promoted_tuple st) (sm_current_promoted_tuple_bucket_no st).
Definition with_promotion (st : SteMState) (mode : bool) (cur before : option nat) (bno : Z) : SteMState :=
  mkState (stemhashtable st) (sm_CurBucketNo st) (sm_CurTuple st) (sm_OuterTuple st) (sm_NeedNewOuter st)
    (sm_tempiHeapTupleData st) (sm_tuplesInserted st) (sm_tuplesProbed st) (sm_tuplesReturned st)
    (num_inserted_tuples_per_bucket st) (oldest_tuple st) (newest_tuple st) mode cur before bno.

Definition with_buckets (t : SteMHashTable) (b : list (option nat)) (n : gmap nat SteMHashJoinTuple) (a : nat) : SteMHashTable :=
  mkTable (totalbuckets t) (typLen t) (typByVal t) b n a.

Definition ExecSteMHashTableCreate (innerkey : N) : SteMHashTable :=
  let totalbuckets := 1000 in
  let '(len, byval) := get_typlenbyval innerkey in
  mkTable totalbuckets len byval (for_loop totalbuckets (λ i l, <[i := None]> l) (replicate totalbuckets None)) ∅ 0.

(** [temp] is what the memory of the state held before. *)
Definition ExecInitSteM (node : SteM) (temp : IHT HT) : SteM :=
  let t := ExecSteMHashTableCreate (innerhashkey node) in
  with_state node
    (mkState t 0 None None true temp 0 0 0 (replicate (totalbuckets t) 0%Z) None None false None None 0).

(** ** Building *)

(** [keyval] of a null is never looked at. *)
Definition ExecSteMHashGetBucket (t : SteMHashTable) (tup : IHT HT) (hashkey : N) : cres nat :=
  match ExecEvalKey hashkey (t_base_tuples tup) with
  | None => Ok 0
  | Some keyval =>
      let! h := Hash.hashFunc keyval (typLen t) (typByVal t) in
      Ok (Z.to_nat (h mod Z.of_nat (totalbuckets t)))
  end.

(** The node's copy of the tuple.  [lineage] is [UseTupleLineage]; operator
    precedence is off. *)
Definition scrub (lineage : bool) (t : IHT HT) : IHT HT :=
  mkIHT (t_base_tuples t) (t_sources t) (BitArrayClearAll (t_ready t) TCQMAXOPERATORS)
    (BitArrayClearAll (t_done t) TCQMAXOPERATORS)
    (if negb lineage then BitArrayClearAll (t_queriesCompleted t) TCQMAXQUERIES else t_queriesCompleted t)
    (isAggTuple t).

Definition ExecSteMHashTableInsertInBucket (lineage : bool) (st : SteMState) (tup : IHT HT) (bucketno : nat)
    : cres (nat * SteMState) :=
  let t := stemhashtable st in
  let! head := access (buckets t !! bucketno) in
  let loc := allocated t in
  let t1 := with_buckets t (<[bucketno := Some loc]> (buckets t))
              (<[loc := mkNode head bucketno (scrub lineage tup)]> (nodes t)) (S loc) in
  let st1 := with_table st t1 in
  if sm_promotion_mode st1 then
    let! _ := cassert (Z.of_nat bucketno =? sm_current_promoted_tuple_bucket_no st1)%Z in
    Ok (loc, with_promotion st1 true (sm_current_promoted_tuple st1)
               match sm_tuple_before_current_promoted_tuple st1 with None => Some loc | b => b end
               (sm_current_promoted_tuple_bucket_no st1))
  else Ok (loc, st1).

Definition ExecSteMInsert (lineage : bool) (stem : SteM) (tup : IHT HT) : cres SteM :=
  let st := stemstate stem in
  let! bucketno := ExecSteMHashGetBucket (stemhashtable st) tup (innerhashkey stem) in
  let! n := access (num_inserted_tuples_per_bucket st !! bucketno) in
  let st1 := with_inserted st (sm_tuplesInserted st + 1)
               (<[bucketno := (n + 1)%Z]> (num_inserted_tuples_per_bucket st)) (oldest_tuple st) (newest_tuple st) in
  let! (inserted_tuple, st2) := ExecSteMHashTableInsertInBucket lineage st1 tup bucketno in
  Ok (with_state stem
        (with_inserted st2 (sm_tuplesInserted st2) (num_inserted_tuples_per_bucket st2)
           match oldest_tuple st2 with None => Some inserted_tuple | o => o end (Some inserted_tuple))).

(** ** Probing *)

(** The walk along a bucket, from a pointer; the fuel bounds its length. *)
Fixpoint scan_bucket (fuel : nat) (st : SteMState) (clauses : Q) (outer : IHT HT) (p : option nat)
    : cres (option (IHT HT) * SteMState) :=
  match p with
  | None => Ok (None, st)
  | Some i =>
      match fuel with
      | O => Fail Diverge
      | S fuel' =>
          let! n := access (nodes (stemhashtable st) !! i) in
          if ExecQual clauses (t_base_tuples (htup n)) (t_base_tuples outer)
          then Ok (Some (htup n), with_probe st (sm_CurBucketNo st) (Some i) (sm_OuterTuple st) (sm_NeedNewOuter st))
          else
            scan_bucket fuel'
              match next n with
              | None => with_probe st (sm_CurBucketNo st) (sm_CurTuple st) (sm_OuterTuple st) true
              | Some _ => st
              end clauses outer (next n)
      end
  end.

Definition ExecScanSteMHashBucket (st : SteMState) (clauses : Q) : cres (option (IHT HT) * SteMState) :=
  let t := stemhashtable st in
  let! p := match sm_CurTuple st with
            | None => access (buckets t !! sm_CurBucketNo st)
            | Some i => let! n := access (nodes t !! i) in Ok (next n)
            end in
  match p with
  | None => Ok (None, st)
  | Some _ => let! outer := access (sm_OuterTuple st) in scan_bucket (allocated t) st clauses outer p
  end.

Definition ExecSteMProbeGetNext (stem : SteM) : cres (option (IHT HT) * SteM) :=
  let st := stemstate stem in
  if sm_NeedNewOuter st then Ok (None, stem)
  else
    let! (curTuple, st1) := ExecScanSteMHashBucket st (stemclauses stem) in
    match curTuple with
    | None =>
        Ok (None, with_state stem (with_probe st1 (sm_CurBucketNo st1) (sm_CurTuple st1) (sm_OuterTuple st1) true))
    | Some cur =>
        let! outer := access (sm_OuterTuple st1) in
        let! returnval := AddBaseTuples (copyIntermediateHeapTuple (sm_tempiHeapTupleData st1) outer) cur in
        Ok (Some returnval,
            with_state stem (with_result st1 returnval (sm_tuplesProbed st1) (sm_tuplesReturned st1 + 1)))
    end.

Definition ExecSteMSetNewOuter (stem : SteM) (tup : IHT HT) : cres SteM :=
  let st := stemstate stem in
  let st1 := with_result st (sm_tempiHeapTupleData st) (sm_tuplesProbed st + 1) (sm_tuplesReturned st) in
  let! _ := cassert (sm_NeedNewOuter st1) in
  let! b := ExecSteMHashGetBucket (stemhashtable st1) tup (outerhashkey stem) in
  Ok (with_state stem (with_probe st1 b None (Some tup) false)).

(** ** Promotion

    In promotion mode the SteM gives its tuples back one by one; each call takes
    the tuple of the previous call out of its bucket. *)

(** The first bucket from [b] on that is not empty. *)
Fixpoint next_bucket (l : list (option nat)) (b : nat) : option (nat * nat) :=
  match l with
  | [] => None
  | Some i :: _ => Some (b, i)
  | None :: l' => next_bucket l' (S b)
  end.

Definition unlink (t : SteMHashTable) (bno : Z) (before : option nat) (old : nat) : cres (option nat * SteMHashTable) :=
  let! n := access (nodes t !! old) in
  match before with
  | None =>
      let! _ := cassert (0 <=? bno)%Z in
      let! head := access (buckets t !! Z.to_nat bno) in
      let! _ := cassert (bool_decide (head = Some old)) in
      Ok (next n, with_buckets t (<[Z.to_nat bno := next n]> (buckets t)) (nodes t) (allocated t))
  | Some b =>
      let! nb := access (nodes t !! b) in
      let! _ := cassert (bool_decide (next nb = Some old)) in
      Ok (next n, with_buckets t (buckets t) (<[b := mkNode (next n) (bucket_no nb) (htup nb)]> (nodes t)) (allocated t))
  end.

Definition ExecSteMPromoteGetNext (stem : SteM) : cres (option (IHT HT) * SteM) :=
  let st := stemstate stem in
  let bno := sm_current_promoted_tuple_bucket_no st in
  let before := sm_tuple_before_current_promoted_tuple st in
  let! (new, t1) := match sm_current_promoted_tuple st with
                    | None => let! _ := cassert (bno =? -1)%Z in Ok (None, stemhashtable st)
                    | Some old => unlink (stemhashtable st) bno before old
                    end in
  let st1 := with_table st t1 in
  let '(new1, before1, bno1) :=
    match new with
    | Some _ => (new, before, bno)
    | None =>
        match next_bucket (drop (Z.to_nat (bno + 1)) (buckets t1)) (Z.to_nat (bno + 1)) with
        | Some (b, i) => (Some i, None, Z.of_nat b)
        | None => (None, before, bno)
        end
    end in
  match new1 with
  | None => Ok (None, with_state stem (with_promotion st1 false None before1 bno1))
  | Some i =>
      let! n := access (nodes t1 !! i) in
      Ok (Some (htup n), with_state stem (with_promotion st1 (sm_promotion_mode st1) new1 before1 bno1))
  end.

Definition ExecSteM (stem : SteM) : cres (option (IHT HT) * SteM) :=
  if sm_promotion_mode (stemstate stem) then
    let! _ := cassert (sm_NeedNewOuter (stemstate stem)) in ExecSteMPromoteGetNext stem
  else ExecSteMProbeGetNext stem.

(** ** Comparing and looking up tuples *)

(** The sign of [memcmp]. *)
Fixpoint memcmp (a b : list Z) : Z :=
  match a, b with
  | x :: a', y :: b' => if (x <? y)%Z then -1 else if (y <? x)%Z then 1 else memcmp a' b'
  | _, _ => 0
  end.

(** The first base tuple of the first argument decides; longer comes first. *)
Fixpoint IHTCompare_base (l1 l2 : list (option HT)) : cres Z :=
  match l1, l2 with
  | [], _ => Fail AssertFail
  | Some h1 :: _, o2 :: _ =>
      let! h2 := match o2 with Some h => Ok h | None => Fail AssertFail end in
      let b1 := tuple_bytes h1 in
      let b2 := tuple_bytes h2 in
      Ok (if (length b1 =? length b2)%nat then memcmp b1 b2 else if (length b1 <? length b2)%nat then 1 else -1)%Z
  | None :: l1', _ :: l2' => IHTCompare_base l1' l2'
  | _, [] => Fail Undefined
  end.

Definition IHTCompare (iht1 iht2 : IHT HT) : cres Z := IHTCompare_base (t_base_tuples iht1) (t_base_tuples iht2).

Fixpoint find_equal (fuel : nat) (t : SteMHashTable) (iht : IHT HT) (p : option nat) : cres bool :=
  match p with
  | None => Ok false
  | Some i =>
      match fuel with
      | O => Fail Diverge
      | S fuel' =>
          let! n := access (nodes t !! i) in
          let! c := IHTCompare iht (htup n) in
          if (c =? 0)%Z then Ok true else find_equal fuel' t iht (next n)
      end
  end.

Definition stem_contains_tuple (stem : SteM) (iht : IHT HT) : cres bool :=
  let t := stemhashtable (stemstate stem) in
  let! bucketno := ExecSteMHashGetBucket t iht (innerhashkey stem) in
  let! p := access (buckets t !! bucketno) in
  find_equal (allocated t) t iht p.

(** The tuple that [SteMGetOldestTuple] and [SteMGetNewestTuple] lead to. *)
Definition SteMGetOldestTuple (stem : SteM) : cres (option (IHT HT)) :=
  match oldest_tuple (stemstate stem) with
  | None => Ok None
  | Some i => let! n := access (nodes (stemhashtable (stemstate stem)) !! i) in Ok (Some (htup n))
  end.

Definition SteMGetNewestTuple (stem : SteM) : cres (option (IHT HT)) :=
  match newest_tuple (stemstate stem) with
  | None => Ok None
  | Some i => let! n := access (nodes (stemhashtable (stemstate stem)) !! i) in Ok (Some (htup n))
  end.
End stem.
Arguments SteM : clear implicits.
Arguments SteMState : clear implicits.
Arguments SteMHashTable : clear implicits.
Arguments SteMHashJoinTuple : clear implicits.
End Stem.
