(* ===== verification/StemSpec.v ===== *)
(** * State modules: building and probing

    A SteM holds the tuples it was given, and a probe answers those of them that
    match, each once, joined with the probing tuple. *)

From S2P Require Import Prelude BitArray Hash Eddy EddySpec Stem.

Module StemSpec.
Import Bit Eddy EddySpec Stem.
#[local] Opaque bits_of below.

Lemma Clone_eq k res a : wf (8 * k) a → wf (8 * k) res → BitArrayClone res a (8 * k) = a.
Proof. intros Ha Hr. apply (wf_ext k); [by apply Clone_wf; [apply Ha|]|done|by apply Clone_set]. Qed.

Section composite.
Context {HT : Type}.
Implicit Types t u : IHT HT.

(** ** Joining two composite tuples *)

Record iht_wf t : Prop := {
  iw_tuple : tuple_wf t;
  iw_sources : wf 64 (t_sources t);
  iw_base : length (t_base_tuples t) = 64
}.

Definition merge (l1 l2 : list (option HT)) : list (option HT) :=
  zip_with (λ a b, match b with Some h => Some h | None => a end) l1 l2.

(** No position is taken in both. *)
Definition apart (l1 l2 : list (option HT)) : Prop := ∀ i, (∃ h, l1 !! i = Some (Some h)) → (∃ h, l2 !! i = Some (Some h)) → False.

Definition joined (outer u : IHT HT) : IHT HT :=
  mkIHT (merge (t_base_tuples outer) (t_base_tuples u)) (BitArrayOrSelf (t_sources outer) (t_sources u) 64) (t_ready outer)
    (BitArrayOrSelf (t_done outer) (t_done u) 96) (t_queriesCompleted outer) (isAggTuple outer).

Lemma add_base_tuples_ok l1 l2 : length l1 = length l2 → apart l1 l2 → add_base_tuples l1 l2 = Ok (merge l1 l2).
Proof.
  revert l2. induction l1 as [|a l1 IH]; intros [|b l2] Hl Ha; try done. cbn [add_base_tuples merge zip_with].
  assert (apart l1 l2) as Ha' by (intros i; apply (Ha (S i))).
  rewrite (IH l2); [|by injection Hl|done]. destruct b as [h|]; [|done].
  destruct a as [h'|]; [|done]. exfalso. apply (Ha 0); eauto.
Qed.

Lemma copy_eq t u : iht_wf t → iht_wf u → copyIntermediateHeapTuple t u = u.
Proof.
  intros [[Hr Hd Hc] Hs _] [[Hr' Hd' Hc'] Hs' _]. unfold copyIntermediateHeapTuple.
  change TCQMAXSOURCES with (8 * 8). change TCQMAXOPERATORS with (8 * 12). change TCQMAXQUERIES with (8 * 16).
  rewrite !Clone_eq by done. by destruct u.
Qed.

Lemma AddBaseTuples_ok t u : iht_wf t → iht_wf u → apart (t_base_tuples t) (t_base_tuples u) →
  AddBaseTuples t u = Ok (joined t u).
Proof.
  intros Ht Hu Ha. unfold AddBaseTuples. rewrite add_base_tuples_ok by (done || by rewrite !iw_base). done.
Qed.

Lemma OrSelf_wf n a b : wf n a → wf n b → wf n (BitArrayOrSelf a b n).
Proof. intros Ha Hb. rewrite OrSelf_Or. apply Or_wf; [apply Ha|apply Hb|done]. Qed.

Lemma OrSelf_set n a b : wf n a → wf n b → bits_of n (BitArrayOrSelf a b n) = bits_of n a ∪ bits_of n b.
Proof. intros Ha _. rewrite OrSelf_Or. by apply Or_set. Qed.

Lemma merge_length l1 l2 : length l1 = length l2 → length (merge l1 l2) = length l1.
Proof. intros E. unfold merge. rewrite length_zip_with. lia. Qed.

Lemma joined_wf t u : iht_wf t → iht_wf u → iht_wf (joined t u).
Proof.
  intros [[Hr Hd Hc] Hs Hb] [[Hr' Hd' Hc'] Hs' Hb']. constructor; [constructor; [done|by apply OrSelf_wf|done]|by apply OrSelf_wf|].
  cbn [t_base_tuples joined]. by rewrite merge_length; rewrite ?Hb, ?Hb'.
Qed.

Lemma scrub_wf t : iht_wf t → iht_wf (scrub true t) ∧ t_base_tuples (scrub true t) = t_base_tuples t ∧ ready_of (scrub true t) = ∅
  ∧ done_of (scrub true t) = ∅ ∧ completed_of (scrub true t) = completed_of t ∧ t_sources (scrub true t) = t_sources t.
Proof.
  intros [[Hr Hd Hc] Hs Hb]. unfold ready_of, done_of. cbn [scrub t_ready t_done t_sources t_base_tuples negb].
  change TCQMAXOPERATORS with 96. rewrite !ClearAll_set by done. split; [|done].
  constructor; [constructor; [by apply ClearAll_wf|by apply ClearAll_wf|done]|done|done].
Qed.
End composite.

Section spec.
Context {HT N Q : Type} `{!StemEnv HT N Q}.
Local Abbreviation node := (SteMHashJoinTuple HT).
Local Abbreviation table := (SteMHashTable HT).
Local Abbreviation stem := (SteM HT N Q).
Implicit Types (u : IHT HT) (s : stem).

(** ** Linked buckets *)

(** From pointer [p] run the nodes [l], which hold the tuples [ts]; [b] is the
    number they carry. *)
Inductive bucket_list (ns : gmap nat node) (b : nat) : option nat → list nat → list (IHT HT) → Prop :=
  | bl_nil : bucket_list ns b None [] []
  | bl_cons i n l ts : ns !! i = Some n → bucket_no n = b → bucket_list ns b (next n) l ts →
      bucket_list ns b (Some i) (i :: l) (htup n :: ts).

Lemma bucket_list_det ns b b' p l ts l' ts' : bucket_list ns b p l ts → bucket_list ns b' p l' ts' → l' = l ∧ ts' = ts.
Proof.
  intros H. revert l' ts'. induction H as [|i n l ts Hi Hb H IH]; intros l' ts' H'; inversion H' as [|? n' ? ? Hi' ? H2]; subst; [done|].
  simplify_eq. by destruct (IH _ _ H2) as [-> ->].
Qed.

Lemma bucket_list_length ns b p l ts : bucket_list ns b p l ts → length l = length ts.
Proof. induction 1; cbn; congruence. Qed.

Lemma bucket_list_in ns b p l ts i : bucket_list ns b p l ts → i ∈ l → ∃ n, ns !! i = Some n ∧ bucket_no n = b.
Proof. induction 1; [by intros ?%elem_of_nil|]. intros [->|?]%elem_of_cons; eauto. Qed.

(** The list from a node of it on is shorter, so a node comes once. *)
Lemma bucket_list_suffix ns b p l ts i : bucket_list ns b p l ts → i ∈ l →
  ∃ l' ts', bucket_list ns b (Some i) l' ts' ∧ length l' ≤ length l.
Proof.
  induction 1 as [|j n l ts Hj Hb H IH]; [by intros ?%elem_of_nil|]. intros [->|Hi]%elem_of_cons.
  - exists (j :: l), (htup n :: ts). split; [by constructor|done].
  - destruct (IH Hi) as (l' & ts' & ? & ?). exists l', ts'. split; [done|]. cbn. lia.
Qed.

Lemma bucket_list_NoDup ns b p l ts : bucket_list ns b p l ts → NoDup l.
Proof.
  induction 1 as [|i n l ts Hi Hb H IH]; constructor; [|done]. intros Hin.
  destruct (bucket_list_suffix _ _ _ _ _ _ H Hin) as (l' & ts' & H' & Hl).
  assert (bucket_list ns b (Some i) (i :: l) (htup n :: ts)) as H2 by (by constructor).
  destruct (bucket_list_det _ _ _ _ _ _ _ _ H2 H') as [-> _]. cbn in Hl. lia.
Qed.

(** A list does not see a node of another bucket, or a fresh one. *)
Lemma bucket_list_frame ns b p l ts i n : bucket_list ns b p l ts → i ∉ l → bucket_list (<[i := n]> ns) b p l ts.
Proof.
  induction 1 as [|j m l ts Hj Hb H IH]; intros Hi; [constructor|]. apply not_elem_of_cons in Hi as [Hne Hi].
  constructor; [by rewrite lookup_insert_ne|done|auto].
Qed.

(** The structure of a table: [c] is what each bucket holds. *)
Record rep (t : table) (c : list (list (IHT HT))) : Prop := {
  rep_size : 0 < totalbuckets t;
  rep_buckets : length (buckets t) = totalbuckets t;
  rep_contents : length c = totalbuckets t;
  rep_chains b p : buckets t !! b = Some p → ∃ l ts, c !! b = Some ts ∧ bucket_list (nodes t) b p l ts;
  rep_fresh i n : nodes t !! i = Some n → i < allocated t
}.

Lemma rep_bucket t c b : rep t c → b < totalbuckets t →
  ∃ p l ts, buckets t !! b = Some p ∧ c !! b = Some ts ∧ bucket_list (nodes t) b p l ts ∧ length l ≤ allocated t.
Proof.
  intros Hr Hb. destruct (lookup_lt_is_Some_2 (buckets t) b) as [p Hp]; [by rewrite (rep_buckets _ _ Hr)|].
  destruct (rep_chains _ _ Hr b p Hp) as (l & ts & Hc & Hl). exists p, l, ts. split; [done|]. split; [done|]. split; [done|].
  assert (l ⊆+ seq 0 (allocated t)) as Hsub; [|by apply submseteq_length in Hsub; rewrite length_seq in Hsub].
  apply NoDup_submseteq; [by eapply bucket_list_NoDup|].
  intros i Hi. apply elem_of_seq. destruct (bucket_list_in _ _ _ _ _ _ Hl Hi) as (n & Hn & _).
  pose proof (rep_fresh _ _ Hr i n Hn). lia.
Qed.

Lemma rep_insert t c b u p ts : rep t c → buckets t !! b = Some p → c !! b = Some ts →
  rep (with_buckets t (<[b := Some (allocated t)]> (buckets t)) (<[allocated t := mkNode p b u]> (nodes t)) (S (allocated t)))
    (<[b := u :: ts]> c).
Proof.
  intros [H1 H2 H3 H4 H5] Hp Hc. assert (nodes t !! allocated t = None) as Hf.
  { destruct (nodes t !! allocated t) as [n|] eqn:E; [|done]. apply H5 in E. lia. }
  assert (∀ b' p' l ts', bucket_list (nodes t) b' p' l ts' →
    bucket_list (<[allocated t := mkNode p b u]> (nodes t)) b' p' l ts') as Hfr.
  { intros b' p' l ts' Hl. apply bucket_list_frame; [done|]. intros Hin.
    destruct (bucket_list_in _ _ _ _ _ _ Hl Hin) as (n & Hn & _). congruence. }
  constructor; cbn; rewrite ?length_insert; try done.
  - intros b' p' Hp'. destruct (decide (b' = b)) as [->|Hne].
    + rewrite list_lookup_insert_eq in Hp' by (by eapply lookup_lt_Some). injection Hp' as <-.
      destruct (H4 b p Hp) as (l & ts0 & Hc0 & Hl). assert (ts0 = ts) as -> by congruence.
      exists (allocated t :: l), (u :: ts). split; [by apply list_lookup_insert_eq; eapply lookup_lt_Some|].
      apply (bl_cons _ _ _ (mkNode p b u)); [apply lookup_insert_eq|done|]. by apply Hfr.
    + rewrite list_lookup_insert_ne in Hp' by done. destruct (H4 b' p' Hp') as (l & ts' & Hc' & Hl).
      exists l, ts'. split; [by rewrite list_lookup_insert_ne|auto].
  - intros i n. destruct (decide (i = allocated t)) as [->|Hne]; [lia|]. rewrite lookup_insert_ne by done.
    intros Hi%H5. lia.
Qed.

(** ** What a SteM holds *)

(** The bucket of a tuple under a key; 0 stands for no answer. *)
Definition bucket_of (t : table) (k : N) (b : list (option HT)) : cres nat :=
  ExecSteMHashGetBucket t (mkIHT b [] [] [] [] false) k.

Lemma GetBucket_of t u k : ExecSteMHashGetBucket t u k = bucket_of t k (t_base_tuples u).
Proof. done. Qed.

Lemma bucket_of_range t k b n : 0 < totalbuckets t → bucket_of t k b = Ok n → n < totalbuckets t.
Proof.
  intros Ht. unfold bucket_of, ExecSteMHashGetBucket. cbn [t_base_tuples]. destruct (ExecEvalKey k b) as [d|].
  - intros (h & _ & E)%cbind_Ok. apply Ok_inj in E as <-.
    pose proof (Z.mod_pos_bound h (Z.of_nat (totalbuckets t))). lia.
  - intros E. apply Ok_inj in E as <-. done.
Qed.

(** [s] holds the tuples [h], the oldest first: each is in the bucket of its key,
    where the newest comes first. *)
Record holds s (h : list (IHT HT)) : Prop := {
  h_rep : ∃ c, rep (stemhashtable (stemstate s)) c
    ∧ ∀ b ts, c !! b = Some ts →
        ts = reverse (base.filter (λ u, bucket_of (stemhashtable (stemstate s)) (innerhashkey s) (t_base_tuples u) = Ok b) h);
  h_hashed u : u ∈ h → ∃ b, bucket_of (stemhashtable (stemstate s)) (innerhashkey s) (t_base_tuples u) = Ok b;
  h_counts : length (num_inserted_tuples_per_bucket (stemstate s)) = totalbuckets (stemhashtable (stemstate s));
  h_oldest : SteMGetOldestTuple s = Ok (head h);
  h_newest : SteMGetNewestTuple s = Ok (last h);
  h_mode : sm_promotion_mode (stemstate s) = false;
  h_temp : iht_wf (sm_tempiHeapTupleData (stemstate s))
}.

(** ** Building *)

(** What building leaves alone. *)
Record same_stem s s' : Prop := {
  ss_inner : innerhashkey s' = innerhashkey s;
  ss_outer : outerhashkey s' = outerhashkey s;
  ss_clauses : stemclauses s' = stemclauses s;
  ss_source : sourceBuiltOn s' = sourceBuiltOn s
}.

Lemma oldest_of s i n : oldest_tuple (stemstate s) = Some i → nodes (stemhashtable (stemstate s)) !! i = Some n →
  SteMGetOldestTuple s = Ok (Some (htup n)).
Proof. intros E En. unfold SteMGetOldestTuple. by rewrite E, En. Qed.

Lemma newest_of s i n : newest_tuple (stemstate s) = Some i → nodes (stemhashtable (stemstate s)) !! i = Some n →
  SteMGetNewestTuple s = Ok (Some (htup n)).
Proof. intros E En. unfold SteMGetNewestTuple. by rewrite E, En. Qed.

Lemma holds_insert s h u b : holds s h →
  bucket_of (stemhashtable (stemstate s)) (innerhashkey s) (t_base_tuples u) = Ok b →
  ∃ s', ExecSteMInsert true s u = Ok s' ∧ holds s' (h ++ [scrub true u]) ∧ same_stem s s'
    ∧ sm_NeedNewOuter (stemstate s') = sm_NeedNewOuter (stemstate s)
    ∧ (totalbuckets (stemhashtable (stemstate s')), typLen (stemhashtable (stemstate s')), typByVal (stemhashtable (stemstate s')))
      = (totalbuckets (stemhashtable (stemstate s)), typLen (stemhashtable (stemstate s)), typByVal (stemhashtable (stemstate s))).
Proof.
  intros [(c & Hr & Hc) Hh Hn Ho Hw Hm Ht] Hb.
  assert (b < totalbuckets (stemhashtable (stemstate s))) as Hlt by (eapply bucket_of_range; [apply Hr|done]).
  destruct (rep_bucket _ _ _ Hr Hlt) as (p & l & ts & Hp & Hcb & _ & _).
  destruct (lookup_lt_is_Some_2 (num_inserted_tuples_per_bucket (stemstate s)) b) as [k Hk]; [by rewrite Hn|].
  pose proof (rep_insert _ _ _ (scrub true u) _ _ Hr Hp Hcb) as Hr'.
  set (t := stemhashtable (stemstate s)) in *.
  set (t' := with_buckets _ _ _ _) in Hr'.
  unfold ExecSteMInsert. rewrite GetBucket_of. fold t. rewrite Hb. cbn [cbind]. rewrite Hk. cbn [access cbind].
  unfold ExecSteMHashTableInsertInBucket. cbn [stemhashtable with_inserted]. fold t. rewrite Hp. cbn [access cbind].
  fold t'. cbn [sm_promotion_mode with_table with_inserted]. rewrite Hm. cbn [cbind].
  eexists. split; [reflexivity|]. split; [|split; [by constructor|split; [done|done]]].
  assert (nodes t' !! allocated t = Some (mkNode p b (scrub true u))) as Hnew by apply lookup_insert_eq.
  constructor.
  - exists (<[b := scrub true u :: ts]> c). split; [exact Hr'|].
    intros b' ts'. cbn [stemhashtable stemstate with_state with_inserted with_table innerhashkey]. fold t'. intros Hc'.
    change (bucket_of t') with (bucket_of t).
    rewrite filter_app, reverse_app, filter_cons, filter_nil.
    cbn [t_base_tuples scrub]. destruct (decide (b' = b)) as [->|Hne].
    + rewrite list_lookup_insert_eq in Hc' by (by eapply lookup_lt_Some). injection Hc' as <-.
      rewrite decide_True by done. by rewrite (Hc _ _ Hcb).
    + rewrite list_lookup_insert_ne in Hc' by done. rewrite decide_False by congruence. by rewrite (Hc _ _ Hc').
  - intros v. cbn [stemhashtable stemstate with_state with_inserted with_table innerhashkey]. fold t'. change (bucket_of t') with (bucket_of t).
    rewrite elem_of_app, list_elem_of_singleton. intros [Hv| ->]; [by apply Hh|by exists b].
  - cbn. by rewrite length_insert.
  - destruct (oldest_tuple (stemstate s)) as [i|] eqn:Eo.
    + unfold SteMGetOldestTuple in Ho. rewrite Eo in Ho. apply cbind_Ok in Ho as (n & En & Eh).
      apply access_Ok in En. rewrite (oldest_of _ i n); [|done|].
      * injection Eh as Eh. f_equal. by destruct h.
      * cbn. rewrite lookup_insert_ne; [done|]. intros E. apply (rep_fresh _ _ Hr) in En. cbn in *. lia.
    + unfold SteMGetOldestTuple in Ho. rewrite Eo in Ho. injection Ho as Eh. destruct h; [|done].
      rewrite (oldest_of _ (allocated t) (mkNode p b (scrub true u))); [done|done|done].
  - rewrite last_snoc. apply (newest_of _ (allocated t) (mkNode p b (scrub true u))); done.
  - done.
  - done.
Qed.

(** ** Probing *)

Definition matches s t u : Prop := ExecQual (stemclauses s) (t_base_tuples u) (t_base_tuples t) = true.

#[global] Instance matches_dec s t u : Decision (matches s t u).
Proof. unfold matches. apply _. Defined.

(** A walk from a pointer finds the first match, or none. *)
Lemma scan_bucket_ok (st : SteMState HT) q (o : IHT HT) b fuel : ∀ p l ts (cur : option nat) need,
  bucket_list (nodes (stemhashtable st)) b p l ts → length l ≤ fuel →
  let st0 := with_probe st (sm_CurBucketNo st) cur (sm_OuterTuple st) need in
  match base.filter (λ u, ExecQual q (t_base_tuples u) (t_base_tuples o) = true) ts with
  | [] => ∃ need', scan_bucket fuel st0 q o p = Ok (None, with_probe st (sm_CurBucketNo st) cur (sm_OuterTuple st) need')
  | u :: us =>
      ∃ i n l' ts', nodes (stemhashtable st) !! i = Some n ∧ bucket_list (nodes (stemhashtable st)) b (next n) l' ts'
        ∧ base.filter (λ u, ExecQual q (t_base_tuples u) (t_base_tuples o) = true) ts' = us
        ∧ length l' ≤ length l ∧ (∀ v, v ∈ ts' → v ∈ ts)
        ∧ scan_bucket fuel st0 q o p = Ok (Some u, with_probe st (sm_CurBucketNo st) (Some i) (sm_OuterTuple st) need)
  end.
Proof.
  induction fuel as [|fuel IH]; intros p l ts cur need Hl Hlen; inversion Hl as [|i n l' ts' Hi Hb Hl']; subst; cbn [scan_bucket length] in *.
  1,3: rewrite filter_nil; by exists need.
  { lia. }
  rewrite filter_cons. cbn [stemhashtable with_probe]. rewrite Hi. cbn [access cbind].
  destruct (ExecQual q (t_base_tuples (htup n)) (t_base_tuples o)) eqn:E.
  - rewrite decide_True by done. exists i, n, l', ts'. split_and!; try done; [lia|]. intros v Hv. by right.
  - rewrite decide_False by done. destruct (next n) as [j|] eqn:En.
    + specialize (IH _ l' ts' cur need Hl' ltac:(lia)). cbv zeta in IH. destruct (base.filter _ ts') as [|u us]; [done|].
      destruct IH as (i' & n' & l2 & ts2 & H1 & H2 & H3 & H4 & H5 & H6). exists i', n', l2, ts2.
      split_and!; try done; [lia|]. intros v Hv. right. auto.
    + inversion Hl'; subst. rewrite filter_nil. destruct fuel; by exists true.
Qed.

(** [s] is answering the probe of [t]; [rest] is what it has yet to look at. *)
Record probing s t (rest : list (IHT HT)) : Prop := {
  pr_need : sm_NeedNewOuter (stemstate s) = false;
  pr_outer : sm_OuterTuple (stemstate s) = Some t;
  pr_mode : sm_promotion_mode (stemstate s) = false;
  pr_temp : iht_wf (sm_tempiHeapTupleData (stemstate s));
  pr_cursor : ∃ b p l, (match sm_CurTuple (stemstate s) with
                        | None => buckets (stemhashtable (stemstate s)) !! sm_CurBucketNo (stemstate s) = Some p
                        | Some i => ∃ n, nodes (stemhashtable (stemstate s)) !! i = Some n ∧ next n = p
                        end)
    ∧ bucket_list (nodes (stemhashtable (stemstate s))) b p l rest ∧ length l ≤ allocated (stemhashtable (stemstate s))
}.

(** What probing leaves alone. *)
Record same_store s s' : Prop := {
  st_keys : same_stem s s';
  st_table : stemhashtable (stemstate s') = stemhashtable (stemstate s);
  st_counts : num_inserted_tuples_per_bucket (stemstate s') = num_inserted_tuples_per_bucket (stemstate s);
  st_oldest : oldest_tuple (stemstate s') = oldest_tuple (stemstate s);
  st_newest : newest_tuple (stemstate s') = newest_tuple (stemstate s);
  st_mode : sm_promotion_mode (stemstate s') = sm_promotion_mode (stemstate s)
}.

Lemma same_stem_trans s1 s2 s3 : same_stem s1 s2 → same_stem s2 s3 → same_stem s1 s3.
Proof. intros [] []; constructor; congruence. Qed.
Lemma same_store_trans s1 s2 s3 : same_store s1 s2 → same_store s2 s3 → same_store s1 s3.
Proof. intros [H1] [H2]; constructor; try congruence. by eapply same_stem_trans. Qed.

Lemma holds_same_store s s' h : holds s h → same_store s s' → iht_wf (sm_tempiHeapTupleData (stemstate s')) → holds s' h.
Proof.
  intros [(c & Hr & Hc) Hh Hn Ho Hw Hm Ht] [[Ei _ _ _] Et Ec Eo Ew Em] Ht'.
  constructor; rewrite ?Et, ?Ei, ?Ec, ?Em; try done; [by exists c|..].
  - unfold SteMGetOldestTuple in *. by rewrite Eo, Et.
  - unfold SteMGetNewestTuple in *. by rewrite Ew, Et.
Qed.

(** The next answer. *)
Lemma ProbeGetNext_ok s t rest : probing s t rest → iht_wf t →
  (∀ u, u ∈ rest → iht_wf u ∧ (matches s t u → apart (t_base_tuples t) (t_base_tuples u))) →
  match base.filter (matches s t) rest with
  | [] => ∃ s', ExecSteM s = Ok (None, s') ∧ same_store s s' ∧ sm_NeedNewOuter (stemstate s') = true
            ∧ iht_wf (sm_tempiHeapTupleData (stemstate s'))
  | u :: us => ∃ s' rest', ExecSteM s = Ok (Some (joined t u), s') ∧ same_store s s' ∧ probing s' t rest'
            ∧ base.filter (matches s t) rest' = us ∧ (∀ v, v ∈ rest' → v ∈ rest)
  end.
Proof.
  intros [Hn Ho Hm Ht (b & p & l & Hp & Hl & Hlen)] Hwt Hrest.
  assert (ExecScanSteMHashBucket (stemstate s) (stemclauses s)
    = match p with None => Ok (None, stemstate s)
      | Some _ => scan_bucket (allocated (stemhashtable (stemstate s))) (stemstate s) (stemclauses s) t p end) as Escan.
  { unfold ExecScanSteMHashBucket. rewrite Ho. cbn [access cbind]. destruct (sm_CurTuple (stemstate s)) as [i|].
    - destruct Hp as (n & En & <-). rewrite En. cbn [access cbind]. done.
    - rewrite Hp. done. }
  assert (with_probe (stemstate s) (sm_CurBucketNo (stemstate s)) (sm_CurTuple (stemstate s)) (sm_OuterTuple (stemstate s))
    (sm_NeedNewOuter (stemstate s)) = stemstate s) as Eid by (by destruct (stemstate s)).
  pose proof (scan_bucket_ok (stemstate s) (stemclauses s) t b (allocated (stemhashtable (stemstate s))) p l rest
    (sm_CurTuple (stemstate s)) (sm_NeedNewOuter (stemstate s)) Hl Hlen) as Hscan. cbv zeta in Hscan. rewrite Eid in Hscan.
  change (λ u, ExecQual (stemclauses s) (t_base_tuples u) (t_base_tuples t) = true) with (matches s t) in Hscan.
  unfold ExecSteM, ExecSteMProbeGetNext. rewrite Hm, Hn, Escan.
  assert (∀ u, u ∈ base.filter (matches s t) rest → matches s t u ∧ u ∈ rest) as Hfil by (intros u; by rewrite list_elem_of_filter).
  destruct (base.filter (matches s t) rest) as [|u us] eqn:Ef.
  - destruct Hscan as (need' & E).
    destruct p as [j|]; [rewrite E|]; cbn [cbind]; eexists; (split; [reflexivity|]); (split; [|done]); by constructor.
  - destruct Hscan as (i & n & l' & ts' & Hi & Hl' & Ef' & Hll & Hin & E).
    destruct p as [j|]; [|inversion Hl; subst; by rewrite filter_nil in Ef]. rewrite E. cbn [cbind].
    cbn [sm_OuterTuple with_probe sm_tempiHeapTupleData]. rewrite Ho. cbn [access cbind].
    destruct (Hfil u) as [Hmu Hu]; [by left|]. destruct (Hrest u Hu) as [Hwu Ha].
    rewrite copy_eq by done. rewrite AddBaseTuples_ok by auto. cbn [cbind].
    eexists _, ts'. split; [reflexivity|]. split; [by constructor|]. split.
    + constructor; cbn; try done; [by apply joined_wf|].
      exists b, (next n), l'. split; [by exists n|]. split; [done|]. lia.
    + by split.
Qed.

(** A new probe starts at the head of the bucket of its key. *)
Lemma SetNewOuter_ok s h t b : holds s h → sm_NeedNewOuter (stemstate s) = true →
  bucket_of (stemhashtable (stemstate s)) (outerhashkey s) (t_base_tuples t) = Ok b →
  ∃ s', ExecSteMSetNewOuter s t = Ok s' ∧ same_store s s'
    ∧ probing s' t (reverse (base.filter
        (λ u, bucket_of (stemhashtable (stemstate s)) (innerhashkey s) (t_base_tuples u) = Ok b) h)).
Proof.
  intros [(c & Hr & Hc) _ _ _ _ Hm Ht] Hn Hb.
  assert (b < totalbuckets (stemhashtable (stemstate s))) as Hlt by (eapply bucket_of_range; [apply Hr|done]).
  destruct (rep_bucket _ _ _ Hr Hlt) as (p & l & ts & Hp & Hcb & Hl & Hlen).
  unfold ExecSteMSetNewOuter. cbn [sm_NeedNewOuter with_result stemhashtable]. rewrite Hn, GetBucket_of, Hb. cbn [cassert cbind].
  eexists. split; [reflexivity|]. split; [by constructor|]. rewrite <- (Hc _ _ Hcb).
  constructor; try done. exists b, p, l. done.
Qed.

(** Asking until there is no more. *)
Fixpoint probe_all (n : nat) s : cres (list (IHT HT) * stem) :=
  match n with
  | O => Fail Diverge
  | S n' =>
      let! (r, s1) := ExecSteM s in
      match r with
      | None => Ok ([], s1)
      | Some u => let! (us, s2) := probe_all n' s1 in Ok (u :: us, s2)
      end
  end.

Lemma same_store_matches s s' t u : same_store s s' → matches s' t u ↔ matches s t u.
Proof. intros [[_ _ E _] _ _ _ _ _]. unfold matches. by rewrite E. Qed.

Lemma filter_matches s s' t (l : list (IHT HT)) : same_store s s' → base.filter (matches s' t) l = base.filter (matches s t) l.
Proof. intros Hs. apply list_filter_iff. intros u. by apply same_store_matches. Qed.

Lemma probe_all_ok n : ∀ s t rest, probing s t rest → iht_wf t →
  (∀ u, u ∈ rest → iht_wf u ∧ (matches s t u → apart (t_base_tuples t) (t_base_tuples u))) →
  length (base.filter (matches s t) rest) < n →
  ∃ s', probe_all n s = Ok (joined t <$> base.filter (matches s t) rest, s') ∧ same_store s s'
    ∧ sm_NeedNewOuter (stemstate s') = true ∧ iht_wf (sm_tempiHeapTupleData (stemstate s')).
Proof.
  induction n as [|n IH]; intros s t rest Hp Hw Hr Hn; [lia|]. cbn [probe_all].
  pose proof (ProbeGetNext_ok s t rest Hp Hw Hr) as Hnext. destruct (base.filter (matches s t) rest) as [|u us] eqn:Ef.
  - destruct Hnext as (s' & E & Hs & ? & ?). rewrite E. cbn [cbind]. by exists s'.
  - destruct Hnext as (s1 & rest' & E & Hs & Hp' & Ef' & Hin). rewrite E. cbn [cbind].
    destruct (IH s1 t rest') as (s2 & E2 & Hs2 & Hn2 & Ht2); [done|done| | |].
    + intros v Hv. rewrite same_store_matches by done. by apply Hr, Hin.
    + rewrite (filter_matches s s1), Ef' by done. cbn in Hn. lia.
    + rewrite E2, (filter_matches s s1), Ef' by done. cbn [cbind]. exists s2. split; [done|].
      split; [by eapply same_store_trans|done].
Qed.

(** The tuples that match lie in one bucket. *)
Definition keys_agree s t (h : list (IHT HT)) : Prop := ∀ u, u ∈ h → matches s t u →
  bucket_of (stemhashtable (stemstate s)) (innerhashkey s) (t_base_tuples u)
  = bucket_of (stemhashtable (stemstate s)) (outerhashkey s) (t_base_tuples t).

Lemma filter_bucket s t h b : keys_agree s t h →
  bucket_of (stemhashtable (stemstate s)) (outerhashkey s) (t_base_tuples t) = Ok b →
  base.filter (matches s t) (reverse (base.filter
    (λ u, bucket_of (stemhashtable (stemstate s)) (innerhashkey s) (t_base_tuples u) = Ok b) h))
  = base.filter (matches s t) (reverse h).
Proof.
  intros Hk Hb. rewrite !filter_reverse. f_equal. rewrite list_filter_filter. unfold keys_agree in Hk.
  induction h as [|u h IH]; [done|]. rewrite !filter_cons.
  assert (base.filter (λ x, matches s t x ∧ bucket_of (stemhashtable (stemstate s)) (innerhashkey s) (t_base_tuples x) = Ok b) h
    = base.filter (matches s t) h) as E by (apply IH; intros v Hv; apply Hk; by right).
  rewrite E. destruct (decide (matches s t u)) as [Hm|Hm].
  - rewrite decide_True; [done|]. split; [done|]. rewrite <- Hb. apply Hk; [by left|done].
  - rewrite decide_False by tauto. done.
Qed.

(** A tuple the SteM can be probed with. *)
Record can_probe s t (h : list (IHT HT)) : Prop := {
  cp_wf : iht_wf t;
  cp_apart u : u ∈ h → iht_wf u ∧ (matches s t u → apart (t_base_tuples t) (t_base_tuples u));
  cp_hashed : ∃ b, bucket_of (stemhashtable (stemstate s)) (outerhashkey s) (t_base_tuples t) = Ok b;
  cp_keys : keys_agree s t h
}.

Definition answers s t (h : list (IHT HT)) : list (IHT HT) := joined t <$> base.filter (matches s t) (reverse h).

Lemma probe_ok s h t : holds s h → sm_NeedNewOuter (stemstate s) = true → can_probe s t h →
  ∃ s1 s2, ExecSteMSetNewOuter s t = Ok s1 ∧ probe_all (S (length h)) s1 = Ok (answers s t h, s2)
    ∧ same_store s s2 ∧ holds s2 h ∧ sm_NeedNewOuter (stemstate s2) = true.
Proof.
  intros Hh Hn [Hw Ha (b & Hb) Hk]. destruct (SetNewOuter_ok s h t b Hh Hn Hb) as (s1 & E1 & Hs1 & Hp).
  set (rest := reverse _) in Hp.
  assert (∀ u, u ∈ rest → u ∈ h) as Hin by (intros u; unfold rest; rewrite elem_of_reverse, list_elem_of_filter; tauto).
  assert (base.filter (matches s1 t) rest = base.filter (matches s t) (reverse h)) as Ef.
  { rewrite (filter_matches s s1) by done. by apply filter_bucket. }
  destruct (probe_all_ok (S (length h)) s1 t rest Hp Hw) as (s2 & E2 & Hs2 & Hn2 & Ht2).
  - intros u Hu. rewrite same_store_matches by done. apply Ha, Hin, Hu.
  - rewrite Ef. eapply Nat.le_lt_trans; [apply length_filter|]. rewrite length_reverse. lia.
  - rewrite Ef in E2. exists s1, s2. assert (same_store s s2) as Hs by (by eapply same_store_trans).
    split; [done|]. split; [done|]. split; [done|]. split; [by apply (holds_same_store s)|done].
Qed.

(** ** From an empty SteM *)

Lemma no_bucket_lists (t : table) n : buckets t = for_loop n (λ i l, <[i := None]> l) (replicate n None) →
  ∀ b p, buckets t !! b = Some p → b < n ∧ p = None.
Proof.
  intros E b p. rewrite E, (for_loop_fill (λ _, None)). destruct (decide (b < n)); [|rewrite lookup_replicate; intros [? ?]; lia].
  rewrite lookup_replicate_2 by done. intros [= <-]. done.
Qed.

Lemma holds_empty s (t : table) temp : iht_wf temp → 0 < totalbuckets t → nodes t = ∅ →
  buckets t = for_loop (totalbuckets t) (λ i l, <[i := None]> l) (replicate (totalbuckets t) None) →
  stemstate s = mkState t 0 None None true temp 0 0 0 (replicate (totalbuckets t) 0%Z) None None false None None 0 → holds s [].
Proof.
  intros Ht Hpos Hns Hb E. constructor; rewrite ?E; cbn; try done; [|by intros u ?%elem_of_nil|by rewrite length_replicate
    |unfold SteMGetOldestTuple; by rewrite E|unfold SteMGetNewestTuple; by rewrite E].
  exists (replicate (totalbuckets t) []). split.
  - constructor; [done|by rewrite Hb, (for_loop_fill_length (λ _, None)), length_replicate|by rewrite length_replicate| |].
    + intros b p Hp. destruct (no_bucket_lists t _ Hb b p Hp) as [Hlt ->]. exists [], [].
      split; [by apply lookup_replicate_2|constructor].
    + intros i n. rewrite Hns. by rewrite lookup_empty.
  - by intros b ts [-> _]%lookup_replicate.
Qed.

Lemma holds_init s temp : iht_wf temp → holds (ExecInitSteM s temp) [] ∧ same_stem s (ExecInitSteM s temp)
  ∧ sm_NeedNewOuter (stemstate (ExecInitSteM s temp)) = true.
Proof.
  intros Ht. unfold ExecInitSteM. set (t := ExecSteMHashTableCreate (innerhashkey s)).
  assert (0 < totalbuckets t ∧ buckets t = for_loop (totalbuckets t) (λ i l, <[i := None]> l) (replicate (totalbuckets t) None)
    ∧ nodes t = ∅) as (Hn & Hb & Hns).
  { unfold t, ExecSteMHashTableCreate. destruct (get_typlenbyval _) as [len byval]. cbn [totalbuckets buckets nodes].
    split; [apply Nat.lt_0_succ|done]. }
  clearbody t. split; [by apply (holds_empty _ t temp)|]. split; [by constructor|done].
Qed.

(** ** A SteM at work *)

(** The bucket a key gives in any SteM on the same inner key. *)
Definition key_bucket (inner k : N) (b : list (option HT)) : cres nat := bucket_of (ExecSteMHashTableCreate inner) k b.

(** [s] is a copy of [proto] at work. *)
Record like (proto s : stem) : Prop := {
  lk_inner : innerhashkey s = innerhashkey proto;
  lk_source : sourceBuiltOn s = sourceBuiltOn proto;
  lk_bucket k b : bucket_of (stemhashtable (stemstate s)) k b = key_bucket (innerhashkey proto) k b
}.

(** It holds [h] and is not answering a probe. *)
Definition idle (proto s : stem) (h : list (IHT HT)) : Prop :=
  holds s h ∧ sm_NeedNewOuter (stemstate s) = true ∧ like proto s.

Lemma idle_init proto temp : iht_wf temp → idle proto (ExecInitSteM proto temp) [].
Proof.
  intros Ht. destruct (holds_init proto temp Ht) as (Hh & [E1 _ _ E2] & Hn). split; [done|]. split; [done|].
  constructor; [done|done|]. intros k b. reflexivity.
Qed.

Lemma idle_build proto s h u b : idle proto s h → key_bucket (innerhashkey proto) (innerhashkey proto) (t_base_tuples u) = Ok b →
  ∃ s', ExecSteMInsert true s u = Ok s' ∧ idle proto s' (h ++ [scrub true u]).
Proof.
  intros (Hh & Hn & Hlk) Hb. destruct (holds_insert s h u b Hh) as (s' & E & Hh' & [Hs1 _ _ Hs4] & Hn' & Ek).
  { by rewrite (lk_bucket _ _ Hlk), (lk_inner _ _ Hlk). }
  exists s'. split; [done|]. split; [done|]. split; [congruence|]. destruct Hlk as [Hl1 Hl2 Hl3].
  constructor; [congruence|congruence|]. intros k b'. rewrite <- Hl3. unfold bucket_of, ExecSteMHashGetBucket. by injection Ek as -> -> ->.
Qed.

Lemma like_same_store proto s s' : like proto s → same_store s s' → like proto s'.
Proof. intros [H1 H2 H3] [[] Et _ _ _ _]. constructor; [congruence|congruence|]. intros k b. by rewrite Et. Qed.

Lemma idle_with_keys proto s h k q : idle proto s h → idle proto (with_keys s k q) h.
Proof.
  intros ([(c & Hr & Hc) Hh Hn Ho Hw Hm Ht] & Hnd & [H1 H2 H3]). split; [|split; [done|by constructor]].
  constructor; try done. by exists c.
Qed.

(** The stored tuples that match, the newest first, each joined with the probe. *)
Definition found (q : Q) (t : IHT HT) (h : list (IHT HT)) : list (IHT HT) :=
  joined t <$> base.filter (λ u, ExecQual q (t_base_tuples u) (t_base_tuples t) = true) (reverse h).

(** A tuple [t] that a SteM of [proto] with the tuples [h] can be probed with,
    under key [k] and clauses [q]: the key has a bucket, and the clauses hold only
    for tuples of other sources, in the same bucket. *)
Record probes (proto : stem) (k : N) (q : Q) t (h : list (IHT HT)) : Prop := {
  pb_wf : iht_wf t;
  pb_hashed : ∃ b, key_bucket (innerhashkey proto) k (t_base_tuples t) = Ok b;
  pb_stored u : u ∈ h → iht_wf u;
  pb_match u : u ∈ h → ExecQual q (t_base_tuples u) (t_base_tuples t) = true →
    apart (t_base_tuples t) (t_base_tuples u)
    ∧ key_bucket (innerhashkey proto) (innerhashkey proto) (t_base_tuples u) = key_bucket (innerhashkey proto) k (t_base_tuples t)
}.

Lemma probes_can proto s k q t h : like proto s → probes proto k q t h → can_probe (with_keys s k q) t h.
Proof.
  intros [H1 H2 H3] [Hw (b & Hb) Hst Hm]. constructor; [done| | |].
  - intros u Hu. split; [by apply Hst|]. intros Hq. by apply (Hm u Hu).
  - exists b. cbn [outerhashkey with_keys stemstate]. by rewrite H3.
  - intros u Hu Hq. cbn [outerhashkey innerhashkey with_keys stemstate]. rewrite !H3, H1. by apply (Hm u Hu).
Qed.

Lemma probe_all_mono n m s r : probe_all n s = Ok r → n ≤ m → probe_all m s = Ok r.
Proof.
  revert m s r. induction n as [|n IH]; intros m s r E Hm; [done|]. destruct m as [|m]; [lia|]. cbn [probe_all] in *.
  destruct (ExecSteM s) as [[[u|] s1]|]; cbn [cbind] in *; [|done|done].
  destruct (probe_all n s1) as [[us s2]|] eqn:E1; cbn [cbind] in E; [|done]. by rewrite (IH m s1 (us, s2)) by (done || lia).
Qed.

Lemma idle_probe proto s h k q t n : idle proto s h → probes proto k q t h → length h < n →
  ∃ s1 s2, ExecSteMSetNewOuter (with_keys s k q) t = Ok s1 ∧ probe_all n s1 = Ok (found q t h, s2) ∧ idle proto s2 h.
Proof.
  intros Hi Hp Hlen. destruct (idle_with_keys proto s h k q Hi) as (Hh & Hn & Hlk).
  destruct (probe_ok (with_keys s k q) h t Hh Hn) as (s1 & s2 & E1 & E2 & Hs & Hh2 & Hn2).
  { by apply (probes_can proto); [apply Hi|]. }
  exists s1, s2. split; [done|]. split; [by apply (probe_all_mono _ n _ _ E2); lia|]. split; [done|]. split; [done|].
  by eapply like_same_store.
Qed.

(** ** Builds and probes in any order *)

Inductive op : Type :=
  | Build (u : IHT HT)
  | Probe (k : N) (q : Q) (t : IHT HT).

(** What the SteM answers, one list for each probe; [n] bounds one answer. *)
Fixpoint run (n : nat) (ops : list op) s : cres (list (list (IHT HT)) * stem) :=
  match ops with
  | [] => Ok ([], s)
  | Build u :: ops' => let! s1 := ExecSteMInsert true s u in run n ops' s1
  | Probe k q t :: ops' =>
      let! s1 := ExecSteMSetNewOuter (with_keys s k q) t in
      let! (a, s2) := probe_all n s1 in
      let! (r, s3) := run n ops' s2 in Ok (a :: r, s3)
  end.

(** What a list of tuples answers. *)
Fixpoint list_run (ops : list op) (h : list (IHT HT)) : list (list (IHT HT)) * list (IHT HT) :=
  match ops with
  | [] => ([], h)
  | Build u :: ops' => list_run ops' (h ++ [scrub true u])
  | Probe k q t :: ops' => let '(r, h') := list_run ops' h in (found q t h :: r, h')
  end.

Definition built (ops : list op) : list (IHT HT) := omap (λ o, match o with Build u => Some u | Probe _ _ _ => None end) ops.

Lemma list_run_holds ops : ∀ h, (list_run ops h).2 = h ++ (scrub true <$> built ops).
Proof.
  induction ops as [|[u|k q t] ops IH]; intros h; cbn [list_run].
  - by rewrite app_nil_r.
  - rewrite IH, <- app_assoc. done.
  - specialize (IH h). destruct (list_run ops h) as [r h']. exact IH.
Qed.

(** Tuples that can be built and probes that can be asked, in any order. *)
Record usable (proto : stem) (ops : list op) : Prop := {
  us_built u : u ∈ built ops → iht_wf u ∧ ∃ b, key_bucket (innerhashkey proto) (innerhashkey proto) (t_base_tuples u) = Ok b;
  us_probe k q t : Probe k q t ∈ ops → probes proto k q t (scrub true <$> built ops)
}.

Lemma probes_weaken proto k q t h h' : probes proto k q t h → h' ⊆ h → probes proto k q t h'.
Proof. intros [? ? H1 H2] Hs. constructor; auto. Qed.

Lemma run_refines proto n ops : ∀ s h, idle proto s h → length h + length ops < n →
  (∀ u, u ∈ built ops → iht_wf u ∧ ∃ b, key_bucket (innerhashkey proto) (innerhashkey proto) (t_base_tuples u) = Ok b) →
  (∀ k q t, Probe k q t ∈ ops → probes proto k q t (h ++ (scrub true <$> built ops))) →
  ∃ s', run n ops s = Ok ((list_run ops h).1, s') ∧ idle proto s' (list_run ops h).2.
Proof.
  induction ops as [|o ops IH]; intros s h Hi Hn Hb Hp; cbn [run list_run length] in *; [by exists s|]. destruct o as [u|k q t].
  - destruct (Hb u) as [Hw (b & Hu)]; [by left|]. destruct (idle_build proto s h u b Hi Hu) as (s1 & E1 & Hi1). rewrite E1. cbn [cbind].
    apply IH; [done|rewrite length_app; cbn; lia|intros v Hv; apply Hb; by right|].
    intros k q t Ht. rewrite <- app_assoc. by apply Hp; right.
  - assert (probes proto k q t h) as Hpt by (eapply probes_weaken; [apply (Hp k q t); by left|set_solver]).
    destruct (idle_probe proto s h k q t n Hi Hpt) as (s1 & s2 & E1 & E2 & Hi2); [lia|]. rewrite E1. cbn [cbind]. rewrite E2. cbn [cbind].
    destruct (IH s2 h Hi2) as (s3 & E3 & Hi3); [lia|done|by intros k' q' t' Ht; apply Hp; right|]. rewrite E3. cbn [cbind].
    destruct (list_run ops h) as [r h']. by exists s3.
Qed.

(** C17: a SteM is the list of the tuples built into it.  From a fresh SteM on, whatever
    the order of builds and probes and whatever the hash function makes of the keys,
    every probe answers, one at a time and then no more, exactly the tuples built
    before it that satisfy its clauses, the newest first, each once and joined with
    the probing tuple; nothing fails, and the SteM ends holding all tuples built. *)
Theorem SteM_refines_list proto temp n ops : iht_wf temp → usable proto ops → length ops < n →
  ∃ s, run n ops (ExecInitSteM proto temp) = Ok ((list_run ops []).1, s) ∧ idle proto s (list_run ops []).2
    ∧ (list_run ops []).2 = scrub true <$> built ops.
Proof.
  intros Ht [Hb Hp] Hn. destruct (run_refines proto n ops (ExecInitSteM proto temp) []) as (s & E & Hi); [by apply idle_init|done|done|done|].
  exists s. split; [done|]. split; [done|]. apply (list_run_holds ops []).
Qed.
End spec.
End StemSpec.
