(* ===== verification/FStem.v ===== *)
(** * The state module as an operator of the eddy

    [src/src/backend/executor/nodeFSteM.c], [setReadyFromPJOList] of
    [nodeCQEddy.c], and the part of [AddWindowFSteM] that keeps the window.

    An FSteM keeps the tuples of one stream in a ring of SteMs, each for a part of
    the window, and lets a SteM go when its newest tuple has left the window.  A
    tuple of the stream is built into the last SteM; a tuple of another stream
    probes all of them, under every join key and every set of clauses that some
    query has, and is sent on afterwards for the queries that do not join.

    Lists are linked lists in the code; a pointer into one is the rest of the list
    from there.  [None] is [FSTEM_NOT_AN_INDEX], or a null pointer.  Operator
    precedence and static plans are off.  Left out: sources with bindings, counters
    that are only printed, [doneInput] (read by static plans only), memory
    contexts. *)

From S2P Require Import Prelude BitArray Hash Eddy GSFilter EddyGSF Stem.

Module FStem.
Import Bit Eddy Stem.

Definition FSTEM_NUM_SUBSTEMS : nat := 3.
Definition FSTEM_MAX_WORK_UNITS : nat := 1.
Definition FSTEM_NEXT_SS_INDEX (cur : nat) : nat := (cur + 1) mod FSTEM_NUM_SUBSTEMS.

(** Further things outside: the variables of a key, timestamps and intervals with
    the operators the catalog has for them, punctuation tuples. *)
Class FStemEnv (HT N Q TS W : Type) : Type := {
  stem_env :: StemEnv HT N Q;
  pull_var_clause : N → list nat;
  ts_accessor_value : list (option HT) → TS;
  get_timestamp_val_IHT : list (option HT) → nat → TS;
  ts_minus : TS → TS → W;
  w_div : W → nat → W;
  w_lt : W → W → bool;
  w_gt : W → W → bool;
  HeapTupleIsPunct : HT → bool;
  form_punct_tup : TS → HT;
  form_punct_tup_no_ts : HT
}.

Section fstem.
Context {HT N Q TS W : Type} `{!FStemEnv HT N Q TS W}.

Definition FSteMClauses : Type := Q * list nat.
Definition FSteMOuterHashkey : Type := N * list FSteMClauses.

(** The ring. *)
Record Ring : Type := mkRing {
  protostem : SteM HT N Q;
  substems : list (option (SteM HT N Q));
  first_ss_index : option nat;
  insert_ss_index : option nat;
  probe_ss_index : option nat
}.

(** The window sizes in [same_stem_expr], [stem_expired_expr] and on the right of
    [ts_comp_expr]; the first two are made together. *)
Record WindowExprs : Type := mkWindow {
  ts_accessor : bool;
  same_stem_expr : option W;
  stem_expired_expr : option W;
  ts_comp_expr : option W;
  window_expr_is_valid : bool
}.

Record ProbeState : Type := mkProbe {
  haveprobe : bool;
  probehasresults : bool;
  doneprobe : bool;
  currentouterhashkey : list FSteMOuterHashkey;
  currentfstemclauses : list FSteMClauses;
  punctjoin : bool;
  punctprobe : bool
}.

(** [input] and [oiht] are the scan slot and the entry of [ModuleIHT_Table]. *)
Record FSteM : Type := mkFSteM {
  ring : Ring;
  window : WindowExprs;
  probe : ProbeState;
  fstemouterhashkeys : list FSteMOuterHashkey;
  usedByQueries : list nat;
  interestedQueries : BitArray;
  operator : nat;
  last_build_ts : TS;
  input : option (IHT HT);
  oiht : IHT HT;
  unqueued_output : option (IHT HT);
  room : nat;
  inputq : list (IHT HT);
  outputq : list (IHT HT)
}.

Definition with_ring (n : FSteM) (r : Ring) : FSteM :=
  mkFSteM r (window n) (probe n) (fstemouterhashkeys n) (usedByQueries n) (interestedQueries n) (operator n)
    (last_build_ts n) (input n) (oiht n) (unqueued_output n) (room n) (inputq n) (outputq n).
Definition with_probe (n : FSteM) (p : ProbeState) : FSteM :=
  mkFSteM (ring n) (window n) p (fstemouterhashkeys n) (usedByQueries n) (interestedQueries n) (operator n)
    (last_build_ts n) (input n) (oiht n) (unqueued_output n) (room n) (inputq n) (outputq n).
Definition with_window (n : FSteM) (w : WindowExprs) : FSteM :=
  mkFSteM (ring n) w (probe n) (fstemouterhashkeys n) (usedByQueries n) (interestedQueries n) (operator n)
    (last_build_ts n) (input n) (oiht n) (unqueued_output n) (room n) (inputq n) (outputq n).
Definition with_queries (n : FSteM) (k : list FSteMOuterHashkey) (u : list nat) : FSteM :=
  mkFSteM (ring n) (window n) (probe n) k u (interestedQueries n) (operator n)
    (last_build_ts n) (input n) (oiht n) (unqueued_output n) (room n) (inputq n) (outputq n).
Definition with_last (n : FSteM) (ts : TS) : FSteM :=
  mkFSteM (ring n) (window n) (probe n) (fstemouterhashkeys n) (usedByQueries n) (interestedQueries n) (operator n)
    ts (input n) (oiht n) (unqueued_output n) (room n) (inputq n) (outputq n).
Definition with_slots (n : FSteM) (i : option (IHT HT)) (o : IHT HT) : FSteM :=
  mkFSteM (ring n) (window n) (probe n) (fstemouterhashkeys n) (usedByQueries n) (interestedQueries n) (operator n)
    (last_build_ts n) i o (unqueued_output n) (room n) (inputq n) (outputq n).
Definition with_queues (n : FSteM) (u : option (IHT HT)) (i o : list (IHT HT)) : FSteM :=
  mkFSteM (ring n) (window n) (probe n) (fstemouterhashkeys n) (usedByQueries n) (interestedQueries n) (operator n)
    (last_build_ts n) (input n) (oiht n) u (room n) i o.

Definition with_flags (n : FSteM) (have results done_ : bool) : FSteM :=
  let p := probe n in
  with_probe n (mkProbe have results done_ (currentouterhashkey p) (currentfstemclauses p) (punctjoin p) (punctprobe p)).
Definition with_keys (n : FSteM) (k : list FSteMOuterHashkey) (c : list FSteMClauses) : FSteM :=
  let p := probe n in
  with_probe n (mkProbe (haveprobe p) (probehasresults p) (doneprobe p) k c (punctjoin p) (punctprobe p)).
Definition with_punct (n : FSteM) (pj pp : bool) : FSteM :=
  let p := probe n in
  with_probe n (mkProbe (haveprobe p) (probehasresults p) (doneprobe p) (currentouterhashkey p) (currentfstemclauses p) pj pp).

(** ** The ring of SteMs *)

Definition FSteMHasSubSteMs (r : Ring) : bool := match first_ss_index r with Some _ => true | None => false end.

(** [FSTEM_SUBSTEM_PTR], where a SteM has to be. *)
Definition substem (r : Ring) (i : nat) : cres (SteM HT N Q) :=
  let! _ := cassert (i <? FSTEM_NUM_SUBSTEMS) in let! o := access (substems r !! i) in access o.

Definition put_substem (r : Ring) (i : nat) (s : option (SteM HT N Q)) : Ring :=
  mkRing (protostem r) (<[i := s]> (substems r)) (first_ss_index r) (insert_ss_index r) (probe_ss_index r).
Definition with_indexes (r : Ring) (f i p : option nat) : Ring := mkRing (protostem r) (substems r) f i p.

(** [do { ... cur = FSTEM_NEXT_SS_INDEX(cur); } while (cur != stop)] *)
Fixpoint foreach_substem (fuel : nat) (f : SteM HT N Q → cres (SteM HT N Q)) (r : Ring) (cur stop : nat) : cres Ring :=
  match fuel with
  | O => Fail Diverge
  | S fuel' =>
      let! s := substem r cur in
      let! s' := f s in
      let r' := put_substem r cur (Some s') in
      let cur' := FSTEM_NEXT_SS_INDEX cur in
      if cur' =? stop then Ok r' else foreach_substem fuel' f r' cur' stop
  end.

Definition all_substems (f : SteM HT N Q → cres (SteM HT N Q)) (r : Ring) : cres Ring :=
  let! first := access (first_ss_index r) in
  let! insert := access (insert_ss_index r) in
  foreach_substem FSTEM_NUM_SUBSTEMS f r first (FSTEM_NEXT_SS_INDEX insert).

(** [temp] is what the memory of a new state held. *)
Definition FSteMCreateNewSubstem (r : Ring) (index : nat) (temp : IHT HT) : cres Ring :=
  let! _ := cassert (index <? FSTEM_NUM_SUBSTEMS) in
  let! o := access (substems r !! index) in
  let! _ := cassert (match o with None => true | Some _ => false end) in
  Ok (put_substem r index (Some (ExecInitSteM (protostem r) temp))).

(** The two window expressions, [older] and [newer] the base tuples. *)
Definition same_stem (w : W) (older newer : list (option HT)) : bool :=
  w_lt (ts_minus (ts_accessor_value newer) (ts_accessor_value older)) (w_div w (FSTEM_NUM_SUBSTEMS - 1)).
Definition stem_expired (w : W) (older newer : list (option HT)) : bool :=
  w_gt (ts_minus (ts_accessor_value newer) (ts_accessor_value older)) w.

Definition FSteMSubSteMHasExpired (n : FSteM) (index : nat) (newest_tup : IHT HT) : cres bool :=
  let! s := substem (ring n) index in
  let! _ := cassert (window_expr_is_valid (window n)) in
  let! o := SteMGetNewestTuple s in
  match o with
  | None => Ok false
  | Some older =>
      let! w := access (stem_expired_expr (window n)) in
      Ok (stem_expired w (t_base_tuples older) (t_base_tuples newest_tup))
  end.

Definition FSteMTupleFitsInSubSteM (n : FSteM) (index : nat) (tup : IHT HT) : cres bool :=
  let! s := substem (ring n) index in
  if negb (window_expr_is_valid (window n)) then Ok true
  else
    let! o := SteMGetOldestTuple s in
    match o with
    | None => Ok true
    | Some older =>
        let! w := access (same_stem_expr (window n)) in
        Ok (same_stem w (t_base_tuples older) (t_base_tuples tup))
    end.

(** The loop that lets the oldest SteMs go. *)
Fixpoint gc_loop (fuel : nat) (n : FSteM) (next_insert_tup : IHT HT) : cres FSteM :=
  match first_ss_index (ring n) with
  | None => Ok n
  | Some f =>
      let! expired := FSteMSubSteMHasExpired n f next_insert_tup in
      if negb expired then Ok n
      else
        match fuel with
        | O => Fail Diverge
        | S fuel' =>
            let r := put_substem (ring n) f None in
            if bool_decide (insert_ss_index r = Some f)
            then gc_loop fuel' (with_flags (with_ring n (with_indexes r None None None)) false (probehasresults (probe n)) false)
                   next_insert_tup
            else
              let new_first := Some (FSTEM_NEXT_SS_INDEX f) in
              gc_loop fuel'
                (with_ring n (with_indexes r new_first (insert_ss_index r)
                                (if bool_decide (probe_ss_index r = Some f) then new_first else probe_ss_index r)))
                next_insert_tup
        end
  end.

Definition FSteMGCSubstems (n : FSteM) (next_insert_tup : IHT HT) : cres FSteM :=
  if negb (window_expr_is_valid (window n)) then Ok n else gc_loop FSTEM_NUM_SUBSTEMS n next_insert_tup.

Definition FSteMMakeSpaceForInsert (temp : IHT HT) (n : FSteM) (nexttuple : IHT HT) : cres FSteM :=
  let r := ring n in
  match insert_ss_index r with
  | None => let! r1 := FSteMCreateNewSubstem r 0 temp in Ok (with_ring n (with_indexes r1 (Some 0) (Some 0) (probe_ss_index r1)))
  | Some i =>
      let! fits := FSteMTupleFitsInSubSteM n i nexttuple in
      if negb fits then
        let new_substem_index := FSTEM_NEXT_SS_INDEX i in
        if negb (bool_decide (Some new_substem_index = first_ss_index r)) then
          let! r1 := FSteMCreateNewSubstem r new_substem_index temp in
          Ok (with_ring n (with_indexes r1 (first_ss_index r1) (Some new_substem_index) (probe_ss_index r1)))
        else Ok n
      else Ok n
  end.

Definition FSteMInsert (lineage : bool) (temp : IHT HT) (n : FSteM) (tup : IHT HT) : cres FSteM :=
  let! _ := cassert (negb (haveprobe (probe n))) in
  let! n1 := FSteMGCSubstems n tup in
  let! n2 := FSteMMakeSpaceForInsert temp n1 tup in
  let! i := access (insert_ss_index (ring n2)) in
  let! s := substem (ring n2) i in
  let! s' := ExecSteMInsert lineage s tup in
  Ok (with_ring n2 (put_substem (ring n2) i (Some s'))).

(** The SteMs from [stemno] to [last] by counting up: it does not wrap around. *)
Fixpoint contains_loop (r : Ring) (iht : IHT HT) (stemno count : nat) : cres bool :=
  match count with
  | O => Ok false
  | S count' =>
      let! s := substem r stemno in
      let! found := stem_contains_tuple s iht in
      if found : bool then Ok true else contains_loop r iht (S stemno) count'
  end.

Definition FSteMContainsTuple (n : FSteM) (iht : IHT HT) : cres bool :=
  if haveprobe (probe n) then Fail (Elog "FSteMContainsTuple called in the middle of a proble")
  else
    match first_ss_index (ring n), insert_ss_index (ring n) with
    | Some f, Some i => contains_loop (ring n) iht f (S i - f)
    | None, _ => Fail AssertFail
    | Some _, None => Ok false
    end.

(** ** Windows *)

Definition SetTimestampAccessorFSteM (n : FSteM) : FSteM :=
  let w := window n in
  with_window n (mkWindow true (same_stem_expr w) (stem_expired_expr w) (ts_comp_expr w) (window_expr_is_valid w)).

(** The comparison is made at the first call, with the window of that moment on its
    right, and never changed. *)
Definition FSteMNewWindowIsLarger (w : WindowExprs) (new_window_size : W) : bool * WindowExprs :=
  match same_stem_expr w with
  | None => (true, w)
  | Some old_window_size =>
      let right := default old_window_size (ts_comp_expr w) in
      (w_gt new_window_size right,
       mkWindow (ts_accessor w) (same_stem_expr w) (stem_expired_expr w) (Some right) (window_expr_is_valid w))
  end.

Definition AddWindowFSteM (n : FSteM) (window_size : W) : cres FSteM :=
  let w := window n in
  if negb (ts_accessor w) then Fail (Elog "(internal error) FSteM timestamp accessor not set")
  else
    let w1 := match same_stem_expr w with
              | None => mkWindow true (Some window_size) (Some window_size) (ts_comp_expr w) false
              | Some _ => w
              end in
    let '(larger, w2) := FSteMNewWindowIsLarger w1 window_size in
    let w3 := if larger : bool then mkWindow true (Some window_size) (Some window_size) (ts_comp_expr w2) (window_expr_is_valid w2) else w2 in
    Ok (with_window n (mkWindow (ts_accessor w3) (same_stem_expr w3) (stem_expired_expr w3) (ts_comp_expr w3) true)).

Definition ClearWindowFSteM (n : FSteM) : FSteM :=
  let w := window n in
  with_window n (mkWindow (ts_accessor w) (same_stem_expr w) (stem_expired_expr w) (ts_comp_expr w) false).

(** ** Probing *)

Definition FSteMSetNewOuter (n : FSteM) (tup : IHT HT) : cres FSteM :=
  let r := ring n in
  if negb (FSteMHasSubSteMs r) then Ok n
  else
    let! _ := cassert (match probe_ss_index r with None => true | Some _ => false end) in
    let! r1 := all_substems (λ s, ExecSteMSetNewOuter s tup) r in
    Ok (with_ring n (with_indexes r1 (first_ss_index r1) (insert_ss_index r1) None)).

(** Variables count from 1. *)
Fixpoint have_vars (vars : list nat) (base : list (option HT)) : cres bool :=
  match vars with
  | [] => Ok true
  | v :: vars' =>
      if v =? 0 then Fail Undefined
      else let! o := access (base !! (v - 1)) in
           match o with None => Ok false | Some _ => have_vars vars' base end
  end.

Definition can_be_applied (expr : N) (iht : IHT HT) : cres bool := have_vars (pull_var_clause expr) (t_base_tuples iht).

(** The next join key and clauses; [None] when there are no more. *)
Definition next_keys (n : FSteM) : cres (option FSteM) :=
  match currentouterhashkey (probe n) with
  | [] =>
      match fstemouterhashkeys n with
      | [] => Fail Undefined
      | (k, c) :: l => Ok (Some (with_keys n ((k, c) :: l) c))
      end
  | _ :: l =>
      match currentfstemclauses (probe n) with
      | [] => Fail Undefined
      | _ :: [] =>
          match l with
          | [] => Ok None
          | (k, c) :: l' =>
              let! _ := cassert (match c with [] => false | _ => true end) in
              Ok (Some (with_keys n ((k, c) :: l') c))
          end
      | _ :: c => Ok (Some (with_keys n (currentouterhashkey (probe n)) c))
      end
  end.

Fixpoint FSteMSetOuterTupleNext (fuel : nat) (n : FSteM) (tup : IHT HT) : cres (bool * FSteM) :=
  let! o := next_keys n in
  match o with
  | None => Ok (false, with_keys n [] [])
  | Some n1 =>
      let! (outerhashkey, _) := access (head (currentouterhashkey (probe n1))) in
      let! (stemclauses, _) := access (head (currentfstemclauses (probe n1))) in
      let! ok := can_be_applied outerhashkey tup in
      if ok : bool then
        let! r := if FSteMHasSubSteMs (ring n1)
                  then all_substems (λ s, Ok (Stem.with_keys s outerhashkey stemclauses)) (ring n1)
                  else Ok (ring n1) in
        let! n2 := FSteMSetNewOuter (with_ring n1 r) tup in
        Ok (true, n2)
      else
        match fuel with
        | O => Fail Diverge
        | S fuel' => FSteMSetOuterTupleNext fuel' n1 tup
        end
  end.

(** Enough for every key and clause of the list. *)
Definition keys_fuel (n : FSteM) : nat := sum_list_with (λ '(_, c), S (length c)) (fstemouterhashkeys n).

Fixpoint FSteMGetNextOutput (fuel : nat) (n : FSteM) : cres (option (IHT HT) * FSteM) :=
  let r := ring n in
  if negb (FSteMHasSubSteMs r) then Ok (None, n)
  else
    let! p := match probe_ss_index r with Some p => Ok p | None => access (first_ss_index r) end in
    let! s := substem r p in
    let! (probe_result, s') := ExecSteM s in
    let r1 := put_substem (with_indexes r (first_ss_index r) (insert_ss_index r) (Some p)) p (Some s') in
    match probe_result with
    | Some t => Ok (Some t, with_ring n r1)
    | None =>
        if negb (bool_decide (Some p = insert_ss_index r1)) then
          match fuel with
          | O => Fail Diverge
          | S fuel' =>
              FSteMGetNextOutput fuel'
                (with_ring n (with_indexes r1 (first_ss_index r1) (insert_ss_index r1) (Some (FSTEM_NEXT_SS_INDEX p))))
          end
        else Ok (None, with_ring n (with_indexes r1 (first_ss_index r1) (insert_ss_index r1) None))
    end.

(** [STEM_SOURCE] as an index. *)
Definition STEM_SOURCE (s : SteM HT N Q) : cres nat :=
  let z := BitArrayFirstBit (sourceBuiltOn s) TCQMAXSOURCES in
  if (z <? 0)%Z then Fail Undefined else Ok (Z.to_nat z).

(** ** What an FSteM looks at in its eddy *)

Record EddyBits : Type := mkBits {
  operators : list BitArray;
  sourceStems : list BitArray;
  eventOperators : BitArray;
  pjolist : list (BitArray * BitArray);
  UseTupleLineage : bool;
  UsePrecisionSharing : bool
}.

Definition setReadyFromPJOList (e : EddyBits) (sources ready : BitArray) : BitArray :=
  foldl (λ r '(s, b), if BitArrayContained sources s TCQMAXSOURCES then BitArrayOrSelf r b TCQMAXOPERATORS else r)
    ready (pjolist e).

(** [BitArrayClone(scratch, b); BitArrayNotSelf(scratch); BitArrayAndSelf(r, scratch)] *)
Definition remove_bits (r b : BitArray) : BitArray :=
  BitArrayAndSelf r (BitArrayNotSelf (BitArrayClone (replicate (BASIZE TCQMAXOPERATORS) 0%Z) b TCQMAXOPERATORS) TCQMAXOPERATORS)
    TCQMAXOPERATORS.

(** The stems of the sources [l] of the probing tuple. *)
Fixpoint remove_stems (stems : list BitArray) (sources : BitArray) (l : list nat) (r : BitArray) : cres BitArray :=
  match l with
  | [] => Ok r
  | i :: l' =>
      if BitArrayBitIsSet sources i then
        let! b := access (stems !! i) in remove_stems stems sources l' (remove_bits r b)
      else remove_stems stems sources l' r
  end.

(** The bits of a joined tuple [o] with the probing tuple [t]. *)
Definition join_bits (e : EddyBits) (operator sourceID : nat) (t o : IHT HT) : cres (IHT HT) :=
  let! ops := access (operators e !! sourceID) in
  let! r1 := remove_stems (sourceStems e) (t_sources t) (seq 0 TCQMAXSOURCES)
               (BitArrayOrSelf (t_ready o) ops TCQMAXOPERATORS) in
  let r2 := BitArrayClearBit (setReadyFromPJOList e (t_sources o) r1) operator in
  let! otherstems := access (sourceStems e !! sourceID) in
  let '(r3, d3) := for_loop TCQMAXOPERATORS
                     (λ i '(r, d), if BitArrayBitIsSet otherstems i then (BitArrayClearBit r i, BitArraySetBit d i) else (r, d))
                     (r2, t_done o) in
  Ok (with_done (with_ready o (remove_bits r3 (eventOperators e))) d3).

(** The queries that do not use the clauses at hand are done with a joined tuple. *)
Definition complete_others (n : FSteM) (c : BitArray) : BitArray :=
  let interested := match currentfstemclauses (probe n) with [] => [] | (_, q) :: _ => q end in
  foldl (λ c q, if bool_decide (q ∈ interested) then c else BitArraySetBit c q) c (usedByQueries n).

Definition enq_out (n : FSteM) (t : IHT HT) : bool * FSteM :=
  let '(b, q) := EddyGSF.enqueue_iht (room n) (outputq n) t in (b, with_queues n (unqueued_output n) (inputq n) q).

(** The loop that asks for the next match, under the next keys when there is none. *)
Fixpoint next_match (fuel : nat) (n : FSteM) (tup : IHT HT) : cres (option (IHT HT) * FSteM) :=
  let! (o, n1) := FSteMGetNextOutput FSTEM_NUM_SUBSTEMS n in
  match o with
  | Some t => Ok (Some t, n1)
  | None =>
      let! (more, n2) := FSteMSetOuterTupleNext (keys_fuel n1) n1 tup in
      if more : bool then
        match fuel with
        | O => Fail Diverge
        | S fuel' => next_match fuel' n2 tup
        end
      else Ok (None, n2)
  end.

(** The probe has no more matches: it is done for the queries of this operator. *)
Definition bounce (e : EddyBits) (n : FSteM) (t : IHT HT) : cres (bool * FSteM) :=
  let n1 := with_flags n (haveprobe (probe n)) (probehasresults (probe n)) true in
  if negb (UseTupleLineage e) then Ok (false, with_flags n1 false (probehasresults (probe n)) true)
  else
    let t1 := with_completed t (foldl BitArraySetBit (t_queriesCompleted t) (usedByQueries n1)) in
    let n2 := with_slots n1 (Some t1) (oiht n1) in
    if BitArrayIsAnyCleared (t_queriesCompleted t1) TCQMAXQUERIES then
      let '(enqsucc, n3) := enq_out n2 t1 in
      if enqsucc : bool then Ok (false, with_flags n3 false (probehasresults (probe n3)) true)
      else Ok (true, with_queues n3 (Some t1) (inputq n3) (outputq n3))
    else Ok (false, with_flags n2 false (probehasresults (probe n2)) true).

(** A joined tuple [o] leaves. *)
Definition send_joined (e : EddyBits) (n : FSteM) (t o : IHT HT) : cres (bool * FSteM) :=
  let n1 := with_flags n (haveprobe (probe n)) true (doneprobe (probe n)) in
  let '(n2, o1) :=
    if punctjoin (probe n1) then (with_punct n1 false true, o)
    else
      let o1 := copyIntermediateHeapTuple (oiht n1) o in
      (n1, if UseTupleLineage e then with_completed o1 (complete_others n1 (t_queriesCompleted o1)) else o1) in
  let! o2 := if UseTupleLineage e
             then let! src := STEM_SOURCE (protostem (ring n2)) in join_bits e (operator n2) src t o1
             else Ok o1 in
  let n3 := with_slots n2 (input n2) o2 in
  if negb (UseTupleLineage e) || BitArrayIsAnyCleared (t_queriesCompleted o2) TCQMAXQUERIES then
    let '(enqsucc, n4) := enq_out n3 o2 in
    if enqsucc : bool then Ok (false, n4) else Fail (Elog "Enqueue failed should never, ever, happen ..")
  else Ok (true, n3).

Definition FSteMGenerateOutputTuple (e : EddyBits) (n : FSteM) : cres (bool * FSteM) :=
  let! _ := cassert (haveprobe (probe n)) in
  let! _ := cassert (match unqueued_output n with None => true | Some _ => false end) in
  if doneprobe (probe n) then Ok (false, with_flags n false (probehasresults (probe n)) false)
  else
    let! t := access (input n) in
    if punctjoin (probe n) then
      let! src := STEM_SOURCE (protostem (ring n)) in
      let punct := if window_expr_is_valid (window n) then form_punct_tup (last_build_ts n) else form_punct_tup_no_ts in
      let! o := AddBaseTuple (copyIntermediateHeapTuple (oiht n) t) punct src in
      send_joined e (with_slots n (input n) o) t o
    else if punctprobe (probe n) then bounce e (with_punct n (punctjoin (probe n)) false) t
    else
      let! (o, n1) := next_match (keys_fuel n) n t in
      match o with
      | None => bounce e n1 t
      | Some o => send_joined e n1 t o
      end.

(** True when there is nothing more to do for this call. *)
Definition FSteMProcessInputTuple (e : EddyBits) (temp : IHT HT) (n : FSteM) : cres (bool * FSteM) :=
  let! _ := cassert (negb (haveprobe (probe n))) in
  let '(o, inp) := EddyGSF.dequeue_iht (inputq n) in
  match o with
  | None => Ok (true, n)
  | Some t =>
      let n1 := with_slots (with_queues n (unqueued_output n) inp (outputq n)) (Some t) (oiht n) in
      if BitArrayEqual (sourceBuiltOn (protostem (ring n1))) (t_sources t) TCQMAXSOURCES then
        let! n2 := FSteMInsert (UseTupleLineage e) temp n1 t in
        let! n3 := if window_expr_is_valid (window n2)
                   then let! src := STEM_SOURCE (protostem (ring n2)) in
                        Ok (with_last n2 (get_timestamp_val_IHT (t_base_tuples t) src))
                   else Ok n2 in
        Ok (true, n3)
      else
        let n2 := if ihtIsPunct HeapTupleIsPunct t then with_punct n1 true (punctprobe (probe n1)) else n1 in
        if UseTupleLineage e && UsePrecisionSharing e
           && negb (BitArrayIsAnyCleared
                      (BitArrayOr (interestedQueries n2) (t_queriesCompleted t) (replicate (BASIZE TCQMAXQUERIES) 0%Z) TCQMAXQUERIES)
                      TCQMAXQUERIES)
        then
          let '(enqsucc, n3) := enq_out n2 t in
          if enqsucc : bool then Ok (true, n3) else Ok (false, with_queues n3 (Some t) (inputq n3) (outputq n3))
        else
          let n3 := with_keys n2 [] [] in
          let! n4 := if negb (punctjoin (probe n3))
                     then let! (_, n4) := FSteMSetOuterTupleNext (keys_fuel n3) n3 t in Ok n4
                     else Ok n3 in
          Ok (false, with_flags n4 true false false)
  end.

(** [do results_exist = FSteMGenerateOutputTuple(...) while (results_exist)] *)
Fixpoint generate_loop (fuel : nat) (e : EddyBits) (n : FSteM) : cres FSteM :=
  let! (results_exist, n1) := FSteMGenerateOutputTuple e n in
  if results_exist : bool then
    match fuel with
    | O => Fail Diverge
    | S fuel' => generate_loop fuel' e n1
    end
  else Ok n1.

(** [work] rounds of the main loop; [spins] bounds the inner one. *)
Fixpoint ProcessNextFSteM (work spins : nat) (e : EddyBits) (temp : IHT HT) (n : FSteM) : cres FSteM :=
  match work with
  | O => Ok n
  | S work' =>
      let '(stuck, n1) :=
        match unqueued_output n with
        | None => (false, n)
        | Some t => let '(enqsucc, n1) := enq_out n t in
                    if enqsucc : bool then (false, with_queues n1 None (inputq n1) (outputq n1)) else (true, n1)
        end in
      if stuck then Ok n1
      else
        let! (no_inputs, n2) := if negb (haveprobe (probe n1)) then FSteMProcessInputTuple e temp n1 else Ok (false, n1) in
        if no_inputs : bool then Ok n2
        else let! n3 := generate_loop spins e n2 in ProcessNextFSteM work' spins e temp n3
  end.

(** ** Removing a query

    The first set of clauses with the query, looking through all keys. *)
Definition clauses_with (queryid : nat) (c : list FSteMClauses) : option nat :=
  fst <$> list_find (λ '(_, q), queryid ∈ q) c.

Fixpoint key_with (queryid : nat) (l : list FSteMOuterHashkey) : option (nat * nat) :=
  match l with
  | [] => None
  | (_, c) :: l' =>
      match clauses_with queryid c with
      | Some j => Some (0, j)
      | None => (λ '(i, j), (S i, j)) <$> key_with queryid l'
      end
  end.

(** The query is not in the middle of a probe, so that no current key or clause is
    the one that goes. *)
Definition ProcessRemoveQueryFSteM (n : FSteM) (queryid : nat) : cres (bool * FSteM) :=
  match key_with queryid (fstemouterhashkeys n) with
  | None => Ok (false, n)
  | Some (i, j) =>
      let! (k, c) := access (fstemouterhashkeys n !! i) in
      let! (q, iq) := access (c !! j) in
      let keys :=
        if length iq =? 1 then
          if length c =? 1 then delete i (fstemouterhashkeys n)
          else <[i := (k, delete j c)]> (fstemouterhashkeys n)
        else <[i := (k, <[j := (q, GSF.lremovei queryid iq)]> c)]> (fstemouterhashkeys n) in
      let used := GSF.lremovei queryid (GSF.lremovei queryid (usedByQueries n)) in
      Ok (match used with [] => true | _ => false end, with_queries n keys used)
  end.

(** [ProcessInitFSteM], with the queries and keys that planning gives next. *)
Definition ProcessInitFSteM (proto : SteM HT N Q) (temp : IHT HT) (keys : list FSteMOuterHashkey) (op : nat) (ts0 : TS)
    (fjord_room : nat) (iht0 : IHT HT) : cres FSteM :=
  let r := mkRing (ExecInitSteM proto temp) (replicate FSTEM_NUM_SUBSTEMS None) None None None in
  FSteMMakeSpaceForInsert temp
    (mkFSteM r (mkWindow false None None None false) (mkProbe false false false [] [] false false) keys []
       (BitArraySetAll (replicate (BASIZE TCQMAXQUERIES) 0%Z) TCQMAXQUERIES) op ts0 None iht0 None fjord_room [] [])
    iht0.
End fstem.
Arguments FSteM : clear implicits.
Arguments Ring : clear implicits.
Arguments FSteMOuterHashkey : clear implicits.
Arguments FSteMClauses : clear implicits.
End FStem.
