(* ===== verification/FStemRing.v ===== *)
(** * The ring of SteMs as a list

    The three slots of an FSteM with their two indexes, read as the list of the
    SteMs in use, the oldest first: taking one off the front, adding one at the
    end, and walking over all of them. *)

From S2P Require Import Prelude BitArray Hash Eddy EddySpec GSFilter EddyGSF Stem StemSpec FStem.

Module FStemRing.
Import Bit Eddy EddySpec Stem StemSpec FStem.
#[local] Opaque bits_of below.

Section ring.
Context {HT N Q TS W : Type} `{!FStemEnv HT N Q TS W}.
Local Abbreviation stem := (SteM HT N Q).
Local Abbreviation fstem := (FSteM HT N Q TS W).
Implicit Types (r : Ring HT N Q) (s : stem) (ss : list stem) (n : fstem).

(** ** The ring as a list *)

Definition cells (f : nat) ss : list (option stem) := (λ i, ss !! ((i + 3 - f) mod 3)) <$> seq 0 3.

Record shape r (f : nat) ss : Prop := {
  sh_first : f < 3;
  sh_length : 0 < length ss ≤ 3;
  sh_cells : substems r = cells f ss;
  sh_first_index : first_ss_index r = Some f;
  sh_insert_index : insert_ss_index r = Some ((f + length ss - 1) mod 3)
}.

(** Positions are few: every fact about them is a matter of cases. *)
Ltac ring_cases f ss :=
  let Hf := fresh in
  destruct f as [|[|[|f]]]; [..|lia];
  destruct ss as [|?s1 [|?s2 [|?s3 [|?s4 ?ss]]]]; cbn [length] in *; try lia.

Ltac position_cases j := destruct j as [|[|[|j]]]; cbn [lookup list_lookup] in *; try lia; try discriminate.

Lemma shape_substem r f ss j s : shape r f ss → ss !! j = Some s → substem r ((f + j) mod 3) = Ok s.
Proof.
  intros [Hf Hl Hc _ _] Hj. assert (j < length ss) by (by eapply lookup_lt_Some). unfold substem. rewrite Hc.
  ring_cases f ss; position_cases j; injection Hj as <-; reflexivity.
Qed.

Lemma shape_put r f ss j s s' : shape r f ss → ss !! j = Some s →
  shape (put_substem r ((f + j) mod 3) (Some s')) f (<[j := s']> ss).
Proof.
  intros [Hf Hl Hc Hi1 Hi2] Hj. assert (j < length ss) by (by eapply lookup_lt_Some).
  constructor; cbn [substems first_ss_index insert_ss_index put_substem]; rewrite ?length_insert; try done.
  rewrite Hc. ring_cases f ss; position_cases j; reflexivity.
Qed.

Lemma shape_next r f ss j : shape r f ss → j < length ss → FSTEM_NEXT_SS_INDEX ((f + j) mod 3) = (f + S j) mod 3.
Proof. intros [Hf Hl _ _ _] Hj. ring_cases f ss; position_cases j; reflexivity. Qed.

Lemma shape_last r f ss j : shape r f ss → j < length ss → (f + j) mod 3 = (f + length ss - 1) mod 3 ↔ S j = length ss.
Proof. intros [Hf Hl _ _ _] Hj. ring_cases f ss; position_cases j; cbn; split; intros; try lia; try done. Qed.

Lemma shape_indexes r f ss p : shape r f ss → shape (with_indexes r (first_ss_index r) (insert_ss_index r) p) f ss.
Proof. intros []. by constructor. Qed.

(** The do-while loop over the ring. *)
Lemma foreach_substem_ok (g : stem → cres stem) f : ∀ fuel r ss j ss', shape r f ss →
  Forall2 (λ s s', g s = Ok s') (drop j ss) ss' → j < length ss → length ss - j ≤ fuel →
  ∃ r', foreach_substem fuel g r ((f + j) mod 3) (FSTEM_NEXT_SS_INDEX ((f + length ss - 1) mod 3)) = Ok r'
    ∧ shape r' f (take j ss ++ ss') ∧ protostem r' = protostem r ∧ probe_ss_index r' = probe_ss_index r.
Proof.
  induction fuel as [|fuel IH]; intros r ss j ss' Hs Hall Hj Hfuel; [lia|]. cbn [foreach_substem].
  destruct (lookup_lt_is_Some_2 ss j Hj) as [s Es]. rewrite (shape_substem r f ss j s) by done. cbn [cbind].
  rewrite (drop_S _ _ _ Es) in Hall. apply Forall2_cons_inv_l in Hall as (s' & ss2 & Eg & Hall & ->). rewrite Eg. cbn [cbind].
  pose proof (shape_put r f ss j s s' Hs Es) as Hs'. rewrite (shape_next r f ss j) by done.
  assert (take j ss ++ s' :: ss2 = take (S j) (<[j := s']> ss) ++ ss2) as ->.
  { rewrite (take_S_r _ _ s') by (by apply list_lookup_insert_eq). rewrite take_insert_ge by done. by rewrite <- app_assoc. }
  assert (FSTEM_NEXT_SS_INDEX ((f + length ss - 1) mod 3) = (f + S (length ss - 1)) mod 3) as Estop.
  { rewrite <- (shape_next r f ss (length ss - 1)) by (done || lia). do 2 f_equal. lia. }
  destruct (decide (S j = length ss)) as [El|Hne].
  - rewrite Estop, El. replace (S (length ss - 1)) with (length ss) by lia. rewrite Nat.eqb_refl.
    assert (ss2 = []) as ->. { apply Forall2_length in Hall. rewrite length_drop in Hall. destruct ss2; [done|cbn in Hall; lia]. }
    eexists. split; [reflexivity|]. rewrite app_nil_r, take_ge by (rewrite length_insert; lia). done.
  - assert ((f + S j) mod 3 =? FSTEM_NEXT_SS_INDEX ((f + length ss - 1) mod 3) = false) as ->.
    { apply Nat.eqb_neq. rewrite Estop. destruct Hs as [Hf Hl _ _ _]. clear -Hf Hl Hj Hne. ring_cases f ss; position_cases j; cbn; lia. }
    destruct (IH (put_substem r ((f + j) mod 3) (Some s')) (<[j := s']> ss) (S j) ss2 Hs') as (r' & E & Hr & Hp & Hi);
      rewrite ?length_insert; [|lia..|].
    { rewrite drop_insert_lt by lia. done. }
    rewrite length_insert in E. exists r'. split; [exact E|]. split; [done|]. split; [by rewrite Hp|by rewrite Hi].
Qed.

Lemma all_substems_ok (g : stem → cres stem) r f ss ss' : shape r f ss → Forall2 (λ s s', g s = Ok s') ss ss' →
  ∃ r', all_substems g r = Ok r' ∧ shape r' f ss' ∧ protostem r' = protostem r ∧ probe_ss_index r' = probe_ss_index r.
Proof.
  intros Hs Hall. pose proof Hs as [Hf Hl _ E1 E2]. unfold all_substems. rewrite E1, E2. cbn [access cbind].
  assert (f = (f + 0) mod 3) as Ef by (rewrite Nat.add_0_r; by rewrite Nat.mod_small).
  pose proof (foreach_substem_ok g f FSTEM_NUM_SUBSTEMS r ss 0 ss') as H. rewrite <- Ef in H. cbn [take app] in H.
  apply H; [done|done|lia|unfold FSTEM_NUM_SUBSTEMS; lia].
Qed.

(** Opening, dropping and adding cells. *)
Lemma shape_drop_first r f s ss : shape r f (s :: ss) → ss ≠ [] →
  shape (with_indexes (put_substem r f None) (Some (FSTEM_NEXT_SS_INDEX f)) (insert_ss_index r) None) (FSTEM_NEXT_SS_INDEX f) ss
  ∧ insert_ss_index r ≠ Some f.
Proof.
  intros [Hf Hl Hc _ Hi] Hne. rewrite Hi. split.
  - constructor; cbn [substems first_ss_index insert_ss_index put_substem with_indexes]; rewrite ?Hc, ?Hi.
    + by apply Nat.mod_upper_bound.
    + destruct ss; cbn [length] in *; [done|lia].
    + destruct ss as [|s2 ss]; [done|]. clear -Hf Hl. destruct f as [|[|[|f]]]; [..|lia];
      destruct ss as [|s3 [|s4 ss]]; cbn [length] in Hl; try lia; reflexivity.
    + done.
    + destruct ss as [|s2 ss]; [done|]. clear -Hf Hl. destruct f as [|[|[|f]]]; [..|lia];
      destruct ss as [|s3 [|s4 ss]]; cbn [length] in Hl; try lia; reflexivity.
  - destruct ss as [|s2 ss]; [done|]. clear -Hf Hl. destruct f as [|[|[|f]]]; [..|lia];
    destruct ss as [|s3 [|s4 ss]]; cbn [length] in Hl; try lia; cbn; congruence.
Qed.

Lemma shape_single r f s : shape r f [s] → insert_ss_index r = Some f ∧ substems (put_substem r f None) = replicate 3 None.
Proof.
  intros [Hf Hl Hc _ Hi]. rewrite Hi. cbn [substems put_substem]. rewrite Hc.
  destruct f as [|[|[|f]]]; [..|lia]; split; reflexivity.
Qed.

Lemma shape_add r f ss s p : shape r f ss → length ss < 3 →
  let i := FSTEM_NEXT_SS_INDEX ((f + length ss - 1) mod 3) in
  Some i ≠ first_ss_index r ∧ i < 3 ∧ substems r !! i = Some None
  ∧ shape (with_indexes (put_substem r i (Some s)) (first_ss_index r) (Some i) p) f (ss ++ [s]).
Proof.
  intros [Hf Hl Hc Hi1 Hi2] Hlt i. rewrite Hi1, Hc. unfold i.
  ring_cases f ss; (split; [cbn; congruence|split; [cbn; lia|split; [reflexivity|]]]);
    (constructor; cbn [substems first_ss_index insert_ss_index put_substem with_indexes length app]; rewrite ?Hc; [lia|lia|reflexivity|done|reflexivity]).
Qed.

Lemma shape_full r f ss : shape r f ss → length ss = 3 → Some (FSTEM_NEXT_SS_INDEX ((f + length ss - 1) mod 3)) = first_ss_index r.
Proof. intros [Hf Hl _ Hi1 _] Hlen. rewrite Hi1, Hlen. destruct f as [|[|[|f]]]; [..|lia]; reflexivity. Qed.
End ring.
End FStemRing.
