(* ===== verification/FStemWindow.v ===== *)
(** * An FSteM keeps the window of its stream

    What building does to the segments of the ring, and the theorem that a tuple
    is let go only when it has left the window of the newest tuple. *)

From Stdlib Require Import Sorted.
From S2P Require Import Prelude BitArray Hash Eddy EddySpec GSFilter EddyGSF Stem StemSpec FStem FStemRing.

Module FStemWindow.
Import Bit Eddy EddySpec Stem StemSpec FStem FStemRing.
#[local] Opaque bits_of below.

Section window.
Context {HT N Q TS W : Type} `{!FStemEnv HT N Q TS W}.
Local Abbreviation stem := (SteM HT N Q).
Local Abbreviation fstem := (FSteM HT N Q TS W).
Implicit Types (r : Ring HT N Q) (s : stem) (ss : list stem) (n : fstem) (t u : IHT HT) (segs : list (list (IHT HT))).

(** ** Segments *)

Definition ring_holds r segs : Prop :=
  ∃ f ss, shape r f ss ∧ Forall2 (idle (protostem r)) ss segs ∧ probe_ss_index r = None.

Definition ring_empty r : Prop :=
  substems r = replicate 3 None ∧ first_ss_index r = None ∧ insert_ss_index r = None ∧ probe_ss_index r = None.

(** Not in the middle of a probe. *)
Definition quiet (p : ProbeState (N := N) (Q := Q)) : Prop :=
  haveprobe p = false ∧ currentouterhashkey p = [] ∧ currentfstemclauses p = [] ∧ punctjoin p = false ∧ punctprobe p = false.

(** The window in force, if any. *)
Definition window_of n (o : option W) : Prop :=
  match o with
  | Some w => window_expr_is_valid (window n) = true ∧ same_stem_expr (window n) = Some w ∧ stem_expired_expr (window n) = Some w
  | None => window_expr_is_valid (window n) = false
  end.

Definition gone (w : W) t (seg : list (IHT HT)) : bool :=
  match last seg with Some u => stem_expired w (t_base_tuples u) (t_base_tuples t) | None => false end.

Fixpoint drop_gone (w : W) t segs : list (list (IHT HT)) :=
  match segs with
  | [] => []
  | seg :: segs' => if gone w t seg then drop_gone w t segs' else segs
  end.

Definition fits_in (w : W) t (seg : list (IHT HT)) : bool :=
  match head seg with Some u => same_stem w (t_base_tuples u) (t_base_tuples t) | None => true end.

(** The segment for [t] is the last one. *)
Definition make_space (o : option W) t segs : list (list (IHT HT)) :=
  match last segs with
  | None => [[]]
  | Some seg =>
      if (match o with Some w => fits_in w t seg | None => true end) then segs
      else if length segs <? 3 then segs ++ [[]] else segs
  end.

Fixpoint add_last t segs : list (list (IHT HT)) :=
  match segs with
  | [] => []
  | [seg] => [seg ++ [scrub true t]]
  | seg :: segs' => seg :: add_last t segs'
  end.

Definition build (o : option W) t segs : list (list (IHT HT)) :=
  add_last t (make_space o t (match o with Some w => drop_gone w t segs | None => segs end)).

(** ** The code on segments *)

Lemma idle_stem_newest proto s seg : idle proto s seg → SteMGetNewestTuple s = Ok (last seg).
Proof. intros (Hh & _ & _). apply Hh. Qed.

Lemma HasExpired_ok n w t f s ss seg segs : window_of n (Some w) → shape (ring n) f (s :: ss) →
  idle (protostem (ring n)) s seg → FSteMSubSteMHasExpired n f t = Ok (gone w t seg).
Proof.
  intros (Ev & _ & Ew) Hs Hi. unfold FSteMSubSteMHasExpired.
  assert (substem (ring n) f = Ok s) as ->.
  { pose proof (shape_substem _ _ _ 0 s Hs eq_refl) as E. rewrite Nat.add_0_r, Nat.mod_small in E by apply Hs. exact E. }
  cbn [cbind]. rewrite Ev, (idle_stem_newest _ _ _ Hi). cbn [cassert cbind]. unfold gone.
  destruct (last seg) as [u|]; [|done]. by rewrite Ew.
Qed.

(** [n'] differs from [n] in the ring and in the state of the probe. *)
Definition reworks n r' p' : fstem := with_probe (with_ring n r') p'.

Lemma gc_loop_ok w t : ∀ segs fuel n, window_of n (Some w) → ring_holds (ring n) segs → quiet (probe n) → length segs ≤ fuel →
  ∃ r' p', gc_loop fuel n t = Ok (reworks n r' p') ∧ quiet p' ∧ protostem r' = protostem (ring n)
    ∧ match drop_gone w t segs with [] => ring_empty r' | l => ring_holds r' l end.
Proof.
  induction segs as [|seg segs IH]; intros fuel n Hw (f & ss & Hs & Hall & Hp) Hq Hf.
  { apply Forall2_nil_inv_r in Hall as ->. destruct Hs as [_ Hl _ _ _]. cbn in Hl. lia. }
  apply Forall2_cons_inv_r in Hall as (s & ss' & Hi & Hall & ->).
  destruct fuel as [|fuel]; cbn [length] in Hf; [lia|]. cbn [gc_loop]. rewrite (sh_first_index _ _ _ Hs).
  rewrite (HasExpired_ok n w t f s ss' seg segs Hw Hs Hi). cbn [cbind drop_gone].
  destruct (gone w t seg) eqn:Eg; cbn [negb].
  2: { exists (ring n), (probe n). split; [by destruct n|]. split; [done|]. split; [done|]. exists f, (s :: ss').
       split; [done|]. split; [by constructor|done]. }
  destruct ss' as [|s2 ss2].
  - apply Forall2_nil_inv_l in Hall as ->. destruct (shape_single _ _ _ Hs) as [Ei Ec].
    change (insert_ss_index (put_substem (ring n) f None)) with (insert_ss_index (ring n)). rewrite Ei, bool_decide_true by done.
    exists (with_indexes (put_substem (ring n) f None) None None None), (mkProbe false (probehasresults (probe n)) false
      (currentouterhashkey (probe n)) (currentfstemclauses (probe n)) (punctjoin (probe n)) (punctprobe (probe n))).
    split; [destruct fuel; reflexivity|]. destruct Hq as (? & ? & ? & ? & ?). split; [by split_and!|]. split; [done|].
    cbn [drop_gone]. split; [exact Ec|done].
  - destruct (shape_drop_first _ _ _ _ Hs) as [Hs2 Hne]; [done|].
    change (insert_ss_index (put_substem (ring n) f None)) with (insert_ss_index (ring n)). rewrite bool_decide_false by done.
    change (probe_ss_index (put_substem (ring n) f None)) with (probe_ss_index (ring n)). rewrite Hp, bool_decide_false by done.
    set (r2 := with_indexes _ _ _ _) in *.
    destruct (IH fuel (with_ring n r2)) as (r' & p' & E & Hq' & Epr & Hr'); [done|by exists (FSTEM_NEXT_SS_INDEX f), (s2 :: ss2)|done|lia|].
    exists r', p'. split; [exact E|]. split; [done|]. split; [exact Epr|]. exact Hr'.
Qed.

Lemma drop_gone_length w t segs : length (drop_gone w t segs) ≤ length segs.
Proof. induction segs as [|seg segs IH]; cbn [drop_gone length]; [done|]. destruct (gone w t seg); cbn [length]; lia. Qed.

Lemma ring_holds_length r segs : ring_holds r segs → 0 < length segs ≤ 3.
Proof. intros (f & ss & [_ Hl _ _ _] & Hall & _). apply Forall2_length in Hall. lia. Qed.

Lemma GCSubstems_ok o t segs n : window_of n o → ring_holds (ring n) segs → quiet (probe n) →
  ∃ r' p', FSteMGCSubstems n t = Ok (reworks n r' p') ∧ quiet p' ∧ protostem r' = protostem (ring n)
    ∧ match (match o with Some w => drop_gone w t segs | None => segs end) with [] => ring_empty r' | l => ring_holds r' l end.
Proof.
  intros Hw Hr Hq. pose proof (ring_holds_length _ _ Hr) as Hl. unfold FSteMGCSubstems. destruct o as [w|].
  - destruct Hw as (Ev & ? & ?). rewrite Ev. cbn [negb]. apply gc_loop_ok; [done|done|done|unfold FSTEM_NUM_SUBSTEMS; lia].
  - unfold window_of in Hw. rewrite Hw. cbn [negb]. exists (ring n), (probe n). split; [by destruct n|]. split; [done|]. split; [done|].
    destruct segs; [cbn in Hl; lia|done].
Qed.

Lemma CreateNewSubstem_ok r i temp : i < 3 → substems r !! i = Some None →
  FSteMCreateNewSubstem r i temp = Ok (put_substem r i (Some (ExecInitSteM (protostem r) temp))).
Proof.
  intros Hi E. unfold FSteMCreateNewSubstem. assert (i <? FSTEM_NUM_SUBSTEMS = true) as -> by (by apply Nat.ltb_lt).
  cbn [cassert cbind]. rewrite E. done.
Qed.

Lemma MakeSpace_empty n t temp : iht_wf temp → ring_empty (ring n) →
  ∃ r', FSteMMakeSpaceForInsert temp n t = Ok (with_ring n r') ∧ protostem r' = protostem (ring n) ∧ ring_holds r' [[]].
Proof.
  intros Ht (Ec & Ef & Ei & Ep). unfold FSteMMakeSpaceForInsert. rewrite Ei.
  rewrite CreateNewSubstem_ok by (by rewrite ?Ec; lia || reflexivity). cbn [cbind].
  eexists. split; [reflexivity|]. split; [done|]. exists 0, [ExecInitSteM (protostem (ring n)) temp]. split; [|split].
  - constructor; cbn [length substems first_ss_index insert_ss_index with_indexes put_substem]; rewrite ?Ec; [lia|lia|reflexivity..].
  - constructor; [by apply idle_init|constructor].
  - exact Ep.
Qed.

Lemma Fits_ok o t segs seg n : window_of n o → ring_holds (ring n) segs → last segs = Some seg →
  ∃ f ss s i, shape (ring n) f ss ∧ Forall2 (idle (protostem (ring n))) ss segs ∧ probe_ss_index (ring n) = None
    ∧ insert_ss_index (ring n) = Some i ∧ i = (f + (length ss - 1)) mod 3 ∧ ss !! (length ss - 1) = Some s
    ∧ idle (protostem (ring n)) s seg
    ∧ FSteMTupleFitsInSubSteM n i t = Ok (match o with Some w => fits_in w t seg | None => true end).
Proof.
  intros Hw (f & ss & Hs & Hall & Hp) Hlast. pose proof (Forall2_length _ _ _ Hall) as Hlen.
  rewrite last_lookup in Hlast. destruct (Forall2_lookup_r _ _ _ _ _ Hall Hlast) as (s & Es & Hi).
  pose proof Hs as [_ Hl _ _ Ei]. exists f, ss, s, ((f + length ss - 1) mod 3).
  assert (f + length ss - 1 = f + (length ss - 1)) as E by lia.
  rewrite <- Hlen in Es. replace (pred (length ss)) with (length ss - 1) in Es by lia.
  split; [done|]. split; [done|]. split; [done|]. split; [done|]. split; [by rewrite E|].
  rewrite E. split; [done|]. split; [done|]. unfold FSteMTupleFitsInSubSteM. rewrite (shape_substem _ _ _ _ s Hs Es). cbn [cbind].
  destruct o as [w|]; [|by rewrite Hw].
  destruct Hw as (Ev & Ew & _). rewrite Ev. cbn [negb]. destruct Hi as (Hh & _ & _). rewrite (h_oldest _ _ Hh). cbn [cbind].
  unfold fits_in. destruct (head seg) as [u|]; [|done]. by rewrite Ew.
Qed.

Lemma MakeSpace_ok o t segs n temp : iht_wf temp → window_of n o → ring_holds (ring n) segs →
  ∃ r', FSteMMakeSpaceForInsert temp n t = Ok (with_ring n r') ∧ protostem r' = protostem (ring n) ∧ ring_holds r' (make_space o t segs).
Proof.
  intros Ht Hw Hr. pose proof (ring_holds_length _ _ Hr) as Hl.
  destruct (last segs) as [seg|] eqn:El; [|apply last_None in El as ->; cbn in Hl; lia].
  destruct (Fits_ok o t segs seg n Hw Hr El) as (f & ss & s & i & Hs & Hall & Hp & Ei & -> & Es & Hi & Ef).
  pose proof (Forall2_length _ _ _ Hall) as Hlen. unfold make_space. rewrite El.
  unfold FSteMMakeSpaceForInsert. rewrite Ei, Ef. cbn [cbind].
  destruct (match o with Some w => fits_in w t seg | None => true end); cbn [negb].
  { exists (ring n). split; [by destruct n|done]. }
  pose proof (shape_add _ _ _ (ExecInitSteM (protostem (ring n)) temp) None Hs) as Hadd.
  assert (f + length ss - 1 = f + (length ss - 1)) as E by (destruct Hs as [_ ? _ _ _]; lia).
  destruct (length segs <? 3) eqn:E3.
  - apply Nat.ltb_lt in E3. destruct Hadd as (Hne & Hi3 & Ec & Hs'); [lia|]. rewrite E in *.
    rewrite bool_decide_false by done. cbn [negb]. rewrite CreateNewSubstem_ok by done. cbn [cbind].
    eexists. split; [reflexivity|]. split; [done|]. eexists f, _. split; [|split].
    + change (probe_ss_index _) with (probe_ss_index (ring n)). rewrite Hp. exact Hs'.
    + apply Forall2_app; [exact Hall|]. constructor; [by apply idle_init|constructor].
    + exact Hp.
  - apply Nat.ltb_ge in E3. assert (Some (FSTEM_NEXT_SS_INDEX ((f + (length ss - 1)) mod 3)) = first_ss_index (ring n)) as E1.
    { rewrite <- E. apply (shape_full _ _ ss); [done|lia]. }
    rewrite bool_decide_true by done. cbn [negb]. exists (ring n). split; [by destruct n|done].
Qed.

Lemma Forall2_last_add (P : stem → list (IHT HT) → Prop) ss segs s seg s' t :
  Forall2 P ss segs → ss !! (length ss - 1) = Some s → last segs = Some seg → P s' (seg ++ [scrub true t]) →
  Forall2 P (<[length ss - 1 := s']> ss) (add_last t segs).
Proof.
  intros Hall. revert s. induction Hall as [|s0 seg0 ss segs H0 Hall IH]; intros s Es El Hp; [done|].
  destruct segs as [|seg1 segs].
  - apply Forall2_nil_inv_r in Hall as ->. injection El as ->. constructor; [done|constructor].
  - apply Forall2_cons_inv_r in Hall as (s1 & ss1 & H1 & Hall' & ->).
    change (add_last t (seg0 :: seg1 :: segs)) with (seg0 :: add_last t (seg1 :: segs)). cbn [length] in *.
    replace (S (S (length ss1)) - 1) with (S (S (length ss1) - 1)) in * by lia. cbn [insert list_insert].
    constructor; [done|]. apply (IH s); [exact Es|by rewrite last_cons_cons in El|done].
Qed.

Lemma make_space_last o t segs : ∃ seg, last (make_space o t segs) = Some seg.
Proof.
  unfold make_space. destruct (last segs) as [seg|] eqn:El; [|by exists []].
  destruct (match o with Some w => fits_in w t seg | None => true end); [by exists seg|].
  destruct (_ <? 3); [|by exists seg]. exists []. by rewrite last_snoc.
Qed.

(** Building a tuple of the stream. *)
Lemma FSteMInsert_ok o segs n t temp b : iht_wf temp → window_of n o → ring_holds (ring n) segs → quiet (probe n) →
  key_bucket (innerhashkey (protostem (ring n))) (innerhashkey (protostem (ring n))) (t_base_tuples t) = Ok b →
  ∃ r' p', FSteMInsert true temp n t = Ok (reworks n r' p') ∧ quiet p' ∧ protostem r' = protostem (ring n)
    ∧ ring_holds r' (build o t segs).
Proof.
  intros Ht Hw Hr Hq Hb. unfold FSteMInsert. destruct Hq as (Eh & Hq'). rewrite Eh. cbn [negb cassert cbind].
  destruct (GCSubstems_ok o t segs n Hw Hr) as (r1 & p1 & E1 & Hq1 & Ep1 & Hr1); [by split|]. rewrite E1. cbn [cbind].
  assert (∃ r2, FSteMMakeSpaceForInsert temp (reworks n r1 p1) t = Ok (with_ring (reworks n r1 p1) r2)
    ∧ protostem r2 = protostem (ring n)
    ∧ ring_holds r2 (make_space o t (match o with Some w => drop_gone w t segs | None => segs end))) as (r2 & E2 & Ep2 & Hr2).
  { rewrite <- Ep1. destruct (match o with Some w => drop_gone w t segs | None => segs end) as [|seg1 segs1] eqn:Ed.
    - destruct (MakeSpace_empty (reworks n r1 p1) t temp Ht Hr1) as (r2 & ? & ? & ?). by exists r2.
    - apply (MakeSpace_ok o t _ (reworks n r1 p1) temp Ht Hw Hr1). }
  rewrite E2. cbn [cbind]. change (ring (with_ring (reworks n r1 p1) r2)) with r2.
  destruct (make_space_last o t (match o with Some w => drop_gone w t segs | None => segs end)) as (seg & El).
  set (segs2 := make_space _ _ _) in *.
  destruct (Fits_ok None t segs2 seg (with_window (with_ring n r2) (mkWindow false None None None false))) as
    (f & ss & s & i & Hs & Hall & Hp & Ei & -> & Es & Hi & _); [done|done|done|].
  cbn [ring with_ring with_window] in *. rewrite Ei. cbn [access cbind]. rewrite (shape_substem _ _ _ _ s Hs Es). cbn [cbind].
  destruct (idle_build _ s seg t b Hi) as (s' & E' & Hi'); [by rewrite Ep2|].
  rewrite E'. cbn [cbind]. exists (put_substem r2 ((f + (length ss - 1)) mod 3) (Some s')), p1.
  split; [done|]. split; [done|]. split; [done|]. exists f, (<[length ss - 1 := s']> ss). split; [by apply (shape_put _ _ _ _ s)|].
  split; [|done]. unfold build. fold segs2. by apply (Forall2_last_add _ _ _ s seg).
Qed.

(** ** Time *)

(** Timestamps and intervals are numbers to the operators of the catalog. *)
Class WindowLaws : Type := {
  tsv : TS → Z;
  wv : W → Z;
  minus_law a b : wv (ts_minus a b) = (tsv a - tsv b)%Z;
  lt_law a b : w_lt a b = (wv a <? wv b)%Z;
  gt_law a b : w_gt a b = (wv b <? wv a)%Z
}.
Context `{!WindowLaws}.

Definition time u : Z := tsv (ts_accessor_value (t_base_tuples u)).

Lemma stem_expired_spec w u t : stem_expired w (t_base_tuples u) (t_base_tuples t) = (wv w <? time t - time u)%Z.
Proof. unfold stem_expired. by rewrite gt_law, minus_law. Qed.

Lemma same_stem_spec w u t : same_stem w (t_base_tuples u) (t_base_tuples t) = (time t - time u <? wv (w_div w 2))%Z.
Proof. unfold same_stem. by rewrite lt_law, minus_law. Qed.

(** In order of time. *)
Definition in_order (l : list (IHT HT)) : Prop := StronglySorted (λ u v, (time u <= time v)%Z) l.

Lemma in_order_app l1 l2 : in_order (l1 ++ l2) ↔ in_order l1 ∧ in_order l2 ∧ ∀ u v, u ∈ l1 → v ∈ l2 → (time u <= time v)%Z.
Proof.
  unfold in_order. induction l1 as [|a l1 IH]; cbn [app].
  - split; [|by intros (_ & ? & _)]. intros Ho. split; [constructor|]. split; [done|]. by intros u v ?%elem_of_nil.
  - split.
    + intros [H1 H2]%StronglySorted_inv. apply IH in H1 as (H3 & H4 & H5). rewrite Forall_app in H2. destruct H2 as [H2 H6].
      split; [by constructor|]. split; [done|]. intros u v [->|Hu]%elem_of_cons Hv; [|by apply H5].
      rewrite Forall_forall in H6. by apply H6.
    + intros ([H1 H2]%StronglySorted_inv & H3 & H4). constructor.
      * apply IH. split; [done|]. split; [done|]. intros u v Hu Hv. apply H4; [by right|done].
      * apply Forall_app. split; [done|]. apply Forall_forall. intros v Hv. apply H4; [by left|done].
Qed.

Lemma in_order_last seg v u : in_order seg → last seg = Some v → u ∈ seg → (time u <= time v)%Z.
Proof.
  intros Ho El Hu. apply last_Some in El as [l ->]. apply in_order_app in Ho as (_ & _ & Ho).
  apply elem_of_app in Hu as [Hu|Hu%list_elem_of_singleton]; [|subst; lia]. apply Ho; [done|by apply list_elem_of_singleton].
Qed.

Lemma in_order_head seg v u : in_order seg → head seg = Some v → u ∈ seg → (time v <= time u)%Z.
Proof.
  destruct seg as [|a seg]; [done|]. intros [_ Ho]%StronglySorted_inv [= <-]. rewrite Forall_forall in Ho.
  intros [->|Hu]%elem_of_cons; [lia|by apply Ho].
Qed.

(** What leading segments leave behind. *)
Lemma drop_gone_suffix w t segs : ∃ pre, segs = pre ++ drop_gone w t segs ∧ Forall (λ seg, gone w t seg = true) pre
  ∧ ∀ seg, head (drop_gone w t segs) = Some seg → gone w t seg = false.
Proof.
  induction segs as [|seg segs (pre & E & Hpre & Hh)]; cbn [drop_gone]; [by exists []|].
  destruct (gone w t seg) eqn:Eg.
  - exists (seg :: pre). split; [by rewrite E at 1|]. split; [by constructor|done].
  - exists []. split; [done|]. split; [done|]. by intros seg' [= <-].
Qed.

Lemma gone_concat w t pre : in_order (concat pre) → Forall (λ seg, gone w t seg = true) pre →
  ∀ u, u ∈ concat pre → (wv w < time t - time u)%Z.
Proof.
  induction pre as [|seg pre IH]; cbn [concat]; intros Ho Hg u; [by intros ?%elem_of_nil|].
  apply in_order_app in Ho as (Ho1 & Ho2 & _). apply Forall_cons in Hg as [Eg Hg]. intros [Hu|Hu]%elem_of_app; [|by apply IH].
  unfold gone in Eg. destruct (last seg) as [v|] eqn:El; [|done]. rewrite stem_expired_spec in Eg. apply Z.ltb_lt in Eg.
  pose proof (in_order_last _ _ _ Ho1 El Hu). lia.
Qed.

Lemma concat_add_last t segs : segs ≠ [] → concat (add_last t segs) = concat segs ++ [scrub true t].
Proof.
  induction segs as [|seg segs IH]; [done|]. intros _. destruct segs as [|seg1 segs].
  - cbn [add_last concat]. by rewrite !app_nil_r.
  - change (add_last t (seg :: seg1 :: segs)) with (seg :: add_last t (seg1 :: segs)). cbn [concat].
    rewrite IH by (intros [=]). cbn [concat]. by rewrite !app_assoc.
Qed.

Lemma concat_make_space o t segs : concat (make_space o t segs) = concat segs ∧ make_space o t segs ≠ [].
Proof.
  unfold make_space. destruct (last segs) as [seg|] eqn:El.
  - assert (segs ≠ []) as Hne by (by intros ->). destruct (match o with Some w => fits_in w t seg | None => true end); [done|].
    destruct (_ <? 3); [|done]. rewrite concat_app. cbn. rewrite app_nil_r. split; [done|]. by destruct segs.
  - apply last_None in El as ->. done.
Qed.

Lemma concat_build o t segs :
  concat (build o t segs) = concat (match o with Some w => drop_gone w t segs | None => segs end) ++ [scrub true t].
Proof.
  unfold build. destruct (concat_make_space o t (match o with Some w => drop_gone w t segs | None => segs end)) as [E Hne].
  by rewrite concat_add_last, E.
Qed.

Fixpoint insert_all (temp : IHT HT) n (us : list (IHT HT)) : cres fstem :=
  match us with
  | [] => Ok n
  | u :: us' => let! n1 := FSteMInsert true temp n u in insert_all temp n1 us'
  end.

(** An FSteM that is not answering a probe, with window [o] and the segments [segs]. *)
Record at_rest n (o : option W) segs : Prop := {
  ar_window : window_of n o;
  ar_ring : ring_holds (ring n) segs;
  ar_quiet : quiet (probe n)
}.

Definition hashed n t : Prop := ∃ b, key_bucket (innerhashkey (protostem (ring n))) (innerhashkey (protostem (ring n))) (t_base_tuples t) = Ok b.

Lemma build_at_rest o segs n t temp : iht_wf temp → at_rest n o segs → hashed n t →
  ∃ n', FSteMInsert true temp n t = Ok n' ∧ at_rest n' o (build o t segs) ∧ protostem (ring n') = protostem (ring n).
Proof.
  intros Ht [Hw Hr Hq] (b & Hb). destruct (FSteMInsert_ok o segs n t temp b) as (r' & p' & E & Hq' & Ep & Hr'); [done..|].
  exists (reworks n r' p'). split; [done|]. split; [|done]. by constructor.
Qed.

(** One more tuple of the stream: what stays and what goes. *)
Lemma build_keeps w segs t : in_order (concat segs ++ [t]) → ∃ lost,
  concat segs ++ [scrub true t] = lost ++ concat (build (Some w) t segs)
  ∧ (∀ u, u ∈ lost → (wv w < time t - time u)%Z) ∧ last (concat (build (Some w) t segs)) = Some (scrub true t).
Proof.
  intros [Ho _]%in_order_app. destruct (drop_gone_suffix w t segs) as (pre & E & Hg & _). exists (concat pre).
  rewrite concat_build, last_snoc. split; [by rewrite app_assoc, <- concat_app, <- E|]. split; [|done].
  apply gone_concat; [|done]. rewrite E, concat_app in Ho. by apply in_order_app in Ho as [Ho _].
Qed.

Lemma in_order_scrub l t l' : in_order (l ++ t :: l') → in_order ((l ++ [scrub true t]) ++ l').
Proof.
  rewrite <- app_assoc. intros (H1 & H2 & H3)%in_order_app. apply StronglySorted_inv in H2 as [H2 H4].
  rewrite Forall_forall in H4. apply in_order_app. split; [done|]. split.
  - cbn [app]. constructor; [done|]. apply Forall_forall. exact H4.
  - intros u v Hu [->|Hv]%elem_of_cons; [apply (H3 u t Hu); by left|]. apply H3; [done|by right].
Qed.

Lemma in_order_tail l l' : in_order (l ++ l') → in_order l'.
Proof. by intros (_ & ? & _)%in_order_app. Qed.

(** C18: no tuple of the window is lost.  After any tuples of the stream, in the order
    of their timestamps, the FSteM holds the last of the tuples it held and was
    given, unchanged and in order, down to the newest one; every tuple that it let
    go is older than the newest one by more than the window. *)
Theorem FSteM_keeps_window temp w us : iht_wf temp → ∀ n segs v, at_rest n (Some w) segs → (∀ u, u ∈ us → hashed n u) →
  in_order (concat segs ++ us) → last us = Some v →
  ∃ n' segs' lost, insert_all temp n us = Ok n' ∧ at_rest n' (Some w) segs'
    ∧ concat segs ++ (scrub true <$> us) = lost ++ concat segs' ∧ last (concat segs') = Some (scrub true v)
    ∧ ∀ u, u ∈ lost → (wv w < time v - time u)%Z.
Proof.
  intros Ht. induction us as [|t us IH]; intros n segs v Hn Hh Ho Hv; [done|]. cbn [insert_all].
  destruct (build_at_rest (Some w) segs n t temp Ht Hn) as (n1 & E1 & Hn1 & Ep); [apply Hh; by left|]. rewrite E1. cbn [cbind].
  destruct (build_keeps w segs t) as (lost & El & Hl & Hlast).
  { rewrite cons_middle, app_assoc in Ho. by apply in_order_app in Ho as [Ho _]. }
  destruct us as [|t2 us].
  { injection Hv as <-. exists n1, (build (Some w) t segs), lost. by cbn [insert_all fmap list_fmap]. }
  apply in_order_scrub in Ho. rewrite El in Ho. rewrite <- app_assoc in Ho.
  destruct (IH n1 (build (Some w) t segs) v Hn1) as (n' & segs' & lost' & E' & Hn' & Ec & Hv' & Hl').
  - intros u Hu. unfold hashed. rewrite Ep. apply Hh. by right.
  - by apply in_order_tail in Ho.
  - done.
  - exists n', segs', (lost ++ lost'). split; [done|]. split; [done|]. split; [|split; [done|]].
    + rewrite fmap_cons, cons_middle, app_assoc, El, <- !app_assoc. by f_equal.
    + intros u [Hu|Hu]%elem_of_app; [|by apply Hl']. apply Hl in Hu. enough (time t <= time v)%Z by lia.
      apply in_order_tail, in_order_app in Ho as (_ & _ & Ho). change (time t) with (time (scrub true t)). apply Ho.
      * apply last_Some in Hlast as [l ->]. apply elem_of_app. right. by left.
      * rewrite last_cons_cons in Hv. apply last_Some in Hv as [l ->]. apply elem_of_app. right. by left.
Qed.

(** ** How old a tuple can get *)

(** A segment spans less than [h]; the first tuples of neighbours are at least [h] apart. *)
Definition narrow (h : Z) (seg : list (IHT HT)) : Prop := ∃ a, head seg = Some a ∧ ∀ u, u ∈ seg → (time u - time a < h)%Z.
Fixpoint spaced (h : Z) segs : Prop :=
  match segs with
  | [] => True
  | seg :: segs' => narrow h seg ∧ spaced h segs'
      ∧ (∀ a b seg2, head seg = Some a → head segs' = Some seg2 → head seg2 = Some b → (h <= time b - time a)%Z)
  end.

Lemma spaced_suffix h pre segs : spaced h (pre ++ segs) → spaced h segs.
Proof. induction pre as [|seg pre IH]; [done|]. intros (_ & Hs & _). by apply IH. Qed.

Lemma spaced_add_last h t segs : spaced h segs →
  (∀ seg a, last segs = Some seg → head seg = Some a → (time t - time a < h)%Z) → spaced h (add_last t segs).
Proof.
  induction segs as [|seg segs IH]; [done|]. intros ((a & Ea & Ha) & Hs & Hd) Hl. destruct segs as [|seg1 segs].
  - cbn [add_last spaced]. split; [|done]. exists a. destruct seg as [|a0 seg]; [done|]. split; [done|].
    intros u [Hu|Hu%list_elem_of_singleton]%elem_of_app; [by apply Ha|]. subst u. apply (Hl (a0 :: seg)); done.
  - change (add_last t (seg :: seg1 :: segs)) with (seg :: add_last t (seg1 :: segs)). cbn [spaced]. split; [by exists a|].
    split; [apply IH; [done|]; intros seg' a' E; apply Hl; by rewrite last_cons_cons|].
    intros a' b seg2 Ea' E2 Eb. destruct segs as [|seg3 segs].
    + injection E2 as <-. destruct Hs as [(c & Ec & _) _]. destruct seg1 as [|c' seg1]; [done|]. by eapply Hd.
    + injection E2 as <-. by eapply Hd.
Qed.

Lemma spaced_new h t segs : (0 < h)%Z → spaced h segs →
  (∀ seg a, last segs = Some seg → head seg = Some a → (h <= time t - time a)%Z) → spaced h (segs ++ [[scrub true t]]).
Proof.
  intros Hh. induction segs as [|seg segs IH]; cbn [app spaced].
  - intros _ _. split; [|done]. exists (scrub true t). split; [done|]. intros u ->%list_elem_of_singleton. lia.
  - intros ((a & Ea & Ha) & Hs & Hd) Hl. split; [by exists a|]. destruct segs as [|seg1 segs].
    + split; [by apply IH|]. intros a' b seg2 Ea' [= <-] [= <-]. by eapply (Hl seg).
    + split; [|exact Hd]. apply IH; [done|]. intros seg' a' E. apply Hl. by rewrite last_cons_cons.
Qed.

Lemma add_last_new t segs : add_last t (segs ++ [[]]) = segs ++ [[scrub true t]].
Proof. induction segs as [|seg segs IH]; [done|]. cbn [app add_last]. rewrite IH. by destruct segs. Qed.

(** With three segments a tuple always fits: what is kept spans too little for a fourth. *)
Lemma three_fit w h t segs seg : wv (w_div w 2) = h → (wv w = 2 * h)%Z → spaced h segs → length segs = 3 →
  (∀ seg1, head segs = Some seg1 → gone w t seg1 = false) → last segs = Some seg → fits_in w t seg = true.
Proof.
  intros Eh Ew Hs Hl Hg El. destruct segs as [|s1 [|s2 [|s3 [|? ?]]]]; try done. injection El as ->.
  destruct Hs as ((a & Ea & Ha) & ((b & Eb & Hb) & ((c & Ec & Hc) & _) & Hbc) & Hab).
  specialize (Hab a b s2 Ea eq_refl Eb). specialize (Hbc b c seg Eb eq_refl Ec).
  unfold fits_in. rewrite Ec, same_stem_spec, Eh. apply Z.ltb_lt.
  specialize (Hg s1 eq_refl). unfold gone in Hg. destruct (last s1) as [l|] eqn:E1; [|apply last_None in E1; by subst].
  rewrite stem_expired_spec in Hg. apply Z.ltb_ge in Hg.
  assert (l ∈ s1) as Hin by (apply last_Some in E1 as [? ->]; apply elem_of_app; right; by left). specialize (Ha l Hin). lia.
Qed.

Lemma build_spaced w h t segs : wv (w_div w 2) = h → (wv w = 2 * h)%Z → (0 < h)%Z → length segs ≤ 3 →
  segs = [[]] ∨ spaced h segs → spaced h (build (Some w) t segs)
    ∧ ∀ seg a, head (build (Some w) t segs) = Some seg → head seg = Some a → (time t - time a < wv w + h)%Z.
Proof.
  intros Eh Ew Hh Hl3 [->|Hs].
  { cbn [build drop_gone gone last make_space fits_in head add_last app]. split.
    - split; [|done]. exists (scrub true t). split; [done|]. intros u ->%list_elem_of_singleton. lia.
    - intros seg a [= <-] [= <-]. change (time (scrub true t)) with (time t). lia. }
  unfold build. destruct (drop_gone_suffix w t segs) as (pre & E & _ & Hg). pose proof (drop_gone_length w t segs) as Hd.
  set (l := drop_gone w t segs) in *. rewrite E in Hs. apply spaced_suffix in Hs. clear E.
  assert (l = [] ∨ ∃ seg1 l', l = seg1 :: l') as [->|(seg1 & l' & El)] by (destruct l; eauto).
  { cbn [make_space last add_last app]. split.
    - split; [|done]. exists (scrub true t). split; [done|]. intros u ->%list_elem_of_singleton. lia.
    - intros seg a [= <-] [= <-]. change (time (scrub true t)) with (time t). lia. }
  assert (∀ a, head seg1 = Some a → (time t - time a < wv w + h)%Z) as Hfirst.
  { intros a Ea. specialize (Hg seg1). rewrite El in Hg, Hs. specialize (Hg eq_refl). destruct Hs as ((a' & Ea' & Ha) & _).
    rewrite Ea in Ea'. injection Ea' as <-. unfold gone in Hg. destruct (last seg1) as [u|] eqn:E1; [|apply last_None in E1; by subst].
    rewrite stem_expired_spec in Hg. apply Z.ltb_ge in Hg.
    assert (u ∈ seg1) as Hin by (apply last_Some in E1 as [? ->]; apply elem_of_app; right; by left). specialize (Ha u Hin). lia. }
  destruct (last l) as [seg|] eqn:Elast; [|by apply last_None in Elast; rewrite El in Elast]. unfold make_space. rewrite Elast.
  assert (∀ a, head seg = Some a → fits_in w t seg = (time t - time a <? h)%Z) as Efit.
  { intros a Ea. unfold fits_in. by rewrite Ea, same_stem_spec, Eh. }
  destruct (fits_in w t seg) eqn:Ef.
  - split.
    + apply spaced_add_last; [done|]. intros seg' a E' Ea. rewrite Elast in E'. injection E' as <-. specialize (Efit a Ea). symmetry in Efit. by apply Z.ltb_lt in Efit.
    + intros seg' a. rewrite El. destruct l' as [|seg2 l'']; cbn [add_last head]; intros [= <-] Ea; apply Hfirst; [|done].
      rewrite El in Hs. destruct Hs as ((a' & Ea' & _) & _). by destruct seg1.
  - destruct (length l <? 3) eqn:E3.
    + rewrite add_last_new. split.
      * apply spaced_new; [done|done|]. intros seg' a E' Ea. rewrite Elast in E'. injection E' as <-. specialize (Efit a Ea). symmetry in Efit. by apply Z.ltb_ge in Efit.
      * intros seg' a. rewrite El. intros [= <-] Ea. by apply Hfirst.
    + apply Z.ltb_ge in E3 || apply Nat.ltb_ge in E3. rewrite (three_fit w h t l seg) in Ef; [done|done..|lia|done|done].
Qed.

Lemma segs_young w h t segs : wv (w_div w 2) = h → (wv w = 2 * h)%Z → (0 < h)%Z → length segs ≤ 3 →
  segs = [[]] ∨ spaced h segs → in_order (concat (build (Some w) t segs)) →
  ∀ u, u ∈ concat (build (Some w) t segs) → (time t - time u < wv w + h)%Z.
Proof.
  intros Eh Ew Hh Hl Hs Ho u Hu. destruct (build_spaced w h t segs Eh Ew Hh Hl Hs) as [Hsp Ha].
  destruct (build (Some w) t segs) as [|seg l] eqn:Eb; [by apply elem_of_nil in Hu|].
  destruct Hsp as ((a & Ea & _) & _). specialize (Ha seg a eq_refl Ea). enough (time a <= time u)%Z by lia.
  apply (in_order_head (concat (seg :: l))); [done| |done]. destruct seg as [|a' seg]; [done|exact Ea].
Qed.

Lemma spaced_narrow h segs : spaced h segs → in_order (concat segs) →
  Forall (λ seg, seg ≠ [] ∧ ∀ u u', u ∈ seg → u' ∈ seg → (Z.abs (time u - time u') < h)%Z) segs.
Proof.
  induction segs as [|seg segs IH]; cbn [spaced concat]; [constructor|]. intros ((a & Ea & Ha) & Hs & _) (Ho1 & Ho2 & _)%in_order_app.
  constructor; [|by apply IH]. split; [by intros ->|]. intros u u' Hu Hu'. pose proof (Ha u Hu). pose proof (Ha u' Hu').
  pose proof (in_order_head _ _ _ Ho1 Ea Hu). pose proof (in_order_head _ _ _ Ho1 Ea Hu'). lia.
Qed.

Lemma insert_all_spaced temp w h us : iht_wf temp → wv (w_div w 2) = h → (wv w = 2 * h)%Z → (0 < h)%Z →
  ∀ n segs v, at_rest n (Some w) segs → segs = [[]] ∨ spaced h segs → (∀ u, u ∈ us → hashed n u) →
  in_order (concat segs ++ us) → last us = Some v →
  ∃ n' segs', insert_all temp n us = Ok n' ∧ at_rest n' (Some w) segs' ∧ spaced h segs' ∧ in_order (concat segs')
    ∧ ∀ u, u ∈ concat segs' → (time v - time u < wv w + h)%Z.
Proof.
  intros Ht Eh Ew Hh. induction us as [|t us IH]; intros n segs v Hn Hs Hha Ho Hv; [done|]. cbn [insert_all].
  destruct (build_at_rest (Some w) segs n t temp Ht Hn) as (n1 & E1 & Hn1 & Ep); [apply Hha; by left|]. rewrite E1. cbn [cbind].
  assert (length segs ≤ 3) as Hl by apply (ring_holds_length _ _ (ar_ring _ _ _ Hn)).
  destruct (build_spaced w h t segs Eh Ew Hh Hl Hs) as [Hsp _].
  destruct (build_keeps w segs t) as (lost & El & _ & _).
  { rewrite cons_middle, app_assoc in Ho. by apply in_order_app in Ho as [Ho _]. }
  apply in_order_scrub in Ho. rewrite El, <- app_assoc in Ho. apply in_order_tail in Ho. destruct us as [|t2 us].
  - injection Hv as <-. rewrite app_nil_r in Ho. exists n1, (build (Some w) t segs). split; [done|]. split; [done|].
    split; [done|]. split; [done|]. by apply segs_young.
  - apply (IH n1 (build (Some w) t segs) v); [done|by right| |done|done].
    intros u Hu. unfold hashed. rewrite Ep. apply Hha. by right.
Qed.

(** C24: what an FSteM holds stays bounded by its window.  Over any stream in the order
    of its timestamps, no tuple kept is older than the newest one by one and a half
    windows, and the three segments of the ring are enough for that: a tuple that
    fits no segment always finds a free one. *)
Theorem FSteM_bounds_age temp w us : iht_wf temp → (0 < wv w)%Z → (wv w = 2 * wv (w_div w 2))%Z →
  ∀ n v, at_rest n (Some w) [[]] → (∀ u, u ∈ us → hashed n u) → in_order us → last us = Some v →
  ∃ n' segs', insert_all temp n us = Ok n' ∧ at_rest n' (Some w) segs'
    ∧ Forall (λ seg, seg ≠ [] ∧ ∀ u u', u ∈ seg → u' ∈ seg → (Z.abs (time u - time u') < wv (w_div w 2))%Z) segs'
    ∧ ∀ u, u ∈ concat segs' → (time v - time u < wv w + wv (w_div w 2))%Z.
Proof.
  intros Ht Hw Ew n v Hn Hh Ho Hv.
  destruct (insert_all_spaced temp w (wv (w_div w 2)) us Ht eq_refl Ew) with (n := n) (segs := [[]] : list (list (IHT HT))) (v := v)
    as (n' & segs' & E & Hn' & Hs & Ho' & Ha); [lia|done|by left|done|done|done|].
  exists n', segs'. split; [done|]. split; [done|]. split; [by apply spaced_narrow|done].
Qed.

(** ** A new FSteM, and its windows *)

Lemma ProcessInitFSteM_ok (proto : stem) temp keys op ts0 room iht0 : iht_wf temp →
  ∃ r, protostem r = ExecInitSteM proto temp ∧ ring_holds r [[]]
    ∧ ProcessInitFSteM proto temp keys op ts0 room iht0
      = Ok (mkFSteM r (mkWindow false None None None false) (mkProbe false false false [] [] false false) keys []
              (BitArraySetAll (replicate (BASIZE TCQMAXQUERIES) 0%Z) TCQMAXQUERIES) op ts0 None iht0 None room [] []).
Proof.
  intros Ht. unfold ProcessInitFSteM. cbv zeta. set (n := mkFSteM _ _ _ _ _ _ _ _ _ _ _ _ _ _).
  destruct (MakeSpace_empty n iht0 temp Ht) as (r' & E & Ep & Hr); [by repeat split|].
  exists r'. split; [exact Ep|]. split; [exact Hr|].
  rewrite E. reflexivity.
Qed.

(** The window in force after the windows of some queries. *)
Fixpoint add_windows n (ws : list W) : cres fstem :=
  match ws with
  | [] => Ok n
  | w :: ws' => let! n1 := AddWindowFSteM n w in add_windows n1 ws'
  end.

Definition in_force (w1 : W) (ws : list W) : W := default w1 (last (base.filter (λ w, w_gt w w1 = true) ws)).

Lemma AddWindow_larger n w1 w w2 : window n = mkWindow true (Some w) (Some w) (Some w1) true →
  ∃ n', AddWindowFSteM n w2 = Ok n'
    ∧ window n' = let v := if w_gt w2 w1 then w2 else w in mkWindow true (Some v) (Some v) (Some w1) true.
Proof.
  intros E. unfold AddWindowFSteM. rewrite E. cbn [ts_accessor negb same_stem_expr FSteMNewWindowIsLarger ts_comp_expr default from_option id].
  destruct (w_gt w2 w1); eexists; split; reflexivity.
Qed.

Lemma add_windows_ok ws : ∀ n w1 w, window n = mkWindow true (Some w) (Some w) (Some w1) true →
  ∃ n', add_windows n ws = Ok n'
    ∧ window n' = let v := default w (last (base.filter (λ w, w_gt w w1 = true) ws)) in mkWindow true (Some v) (Some v) (Some w1) true.
Proof.
  induction ws as [|w2 ws IH]; intros n w1 w E; cbn [add_windows]; [by exists n|].
  destruct (AddWindow_larger n w1 w w2 E) as (n1 & E1 & Ew1). rewrite E1. cbn [cbind]. cbv zeta in Ew1.
  destruct (IH n1 w1 _ Ew1) as (n' & En & Ew). exists n'. split; [done|]. rewrite Ew, filter_cons.
  destruct (w_gt w2 w1); [rewrite decide_True by done|rewrite decide_False by done; done].
  rewrite last_cons. by destruct (last (base.filter _ ws)).
Qed.

(** The window in force is not the largest one.  After several windows it is the
    last of those that are larger than the first: the comparison is made at the
    first call, with the window of that moment, and the window in force never takes
    its place.  So a later window can shorten the window of an earlier query. *)
Theorem AddWindowFSteM_compares_with_first n w1 ws : window n = mkWindow false None None None false →
  ∃ n', add_windows (SetTimestampAccessorFSteM n) (w1 :: ws) = Ok n' ∧ window_of n' (Some (in_force w1 ws)).
Proof.
  intros E. cbn [add_windows]. unfold AddWindowFSteM, SetTimestampAccessorFSteM. cbn [window with_window]. rewrite E.
  cbn [ts_accessor negb same_stem_expr stem_expired_expr ts_comp_expr window_expr_is_valid FSteMNewWindowIsLarger default from_option id].
  destruct (add_windows_ok ws (with_window (with_window n (mkWindow true None None None false))
    (mkWindow true (Some w1) (Some w1) (Some w1) true)) w1 w1 eq_refl) as (n' & En & Ew).
  exists n'. split; [destruct (w_gt w1 w1); exact En|]. unfold window_of. by rewrite Ew.
Qed.
End window.
End FStemWindow.
