(* ===== verification/FStemProbe.v ===== *)
(** * What an FSteM answers to a probe

    A probing tuple is matched under every pair of a join key and a set of clauses
    that can be applied to it, in the order of the lists; under each pair the ring
    gives its matches segment by segment.  Every joined tuple that some query still
    wants is an answer, and the probing tuple itself comes last, done for the
    queries of the operator. *)

From S2P Require Import Prelude BitArray Hash Eddy EddySpec GSFilter EddyGSF Stem StemSpec FStem FStemRing FStemWindow.

Module FStemProbe.
Import Bit Eddy EddySpec Stem StemSpec FStem FStemRing FStemWindow.
#[local] Opaque bits_of below.

Lemma elem_of_concat {A : Type} (l : list (list A)) x : x ∈ concat l ↔ ∃ k, k ∈ l ∧ x ∈ k.
Proof. rewrite list_elem_of_In, in_concat. by setoid_rewrite list_elem_of_In. Qed.

Section probe.
Context {HT N Q TS W : Type} `{!FStemEnv HT N Q TS W}.
Local Abbreviation stem := (SteM HT N Q).
Local Abbreviation fstem := (FSteM HT N Q TS W).
Implicit Types (r : Ring HT N Q) (s : stem) (ss : list stem) (n : fstem) (t u : IHT HT) (segs : list (list (IHT HT))).

(** ** One SteM of the ring in the middle of a probe *)

(** [s] holds [seg] and has the answers [l] left to the probe of [t]. *)
Definition answering (proto : stem) t s (seg l : list (IHT HT)) : Prop :=
  holds s seg ∧ like proto s
  ∧ ((sm_NeedNewOuter (stemstate s) = true ∧ l = [])
     ∨ ∃ rest, probing s t rest ∧ (∀ u, u ∈ rest → iht_wf u ∧ (matches s t u → apart (t_base_tuples t) (t_base_tuples u)))
         ∧ l = joined t <$> base.filter (matches s t) rest).

Lemma idle_answering proto t s seg : idle proto s seg → answering proto t s seg [].
Proof. intros (Hh & Hn & Hl). split; [done|]. split; [done|]. by left. Qed.

Lemma ExecSteM_answering proto t s seg l : iht_wf t → answering proto t s seg l →
  match l with
  | [] => ∃ s', ExecSteM s = Ok (None, s') ∧ idle proto s' seg
  | x :: l' => ∃ s', ExecSteM s = Ok (Some x, s') ∧ answering proto t s' seg l'
  end.
Proof.
  intros Ht (Hh & Hl & [[Hn ->]|(rest & Hp & Hr & ->)]).
  { exists s. split; [|done]. unfold ExecSteM, ExecSteMProbeGetNext. by rewrite (h_mode _ _ Hh), Hn. }
  pose proof (ProbeGetNext_ok s t rest Hp Ht Hr) as H. destruct (base.filter (matches s t) rest) as [|u us]; cbn [fmap list_fmap].
  - destruct H as (s' & E & Hs & Hn & Htemp). exists s'. split; [done|]. split; [by eapply holds_same_store|]. split; [done|].
    by eapply like_same_store.
  - destruct H as (s' & rest' & E & Hs & Hp' & Ef & Hin). exists s'. split; [done|].
    split; [eapply holds_same_store; [done..|by apply Hp']|]. split; [by eapply like_same_store|]. right. exists rest'.
    split; [done|]. split; [|by rewrite (filter_matches s s'), Ef].
    intros v Hv. rewrite same_store_matches by done. by apply Hr, Hin.
Qed.

Lemma SetNewOuter_answering proto s seg k q t : idle proto s seg → probes proto k q t seg →
  ∃ s', ExecSteMSetNewOuter (Stem.with_keys s k q) t = Ok s' ∧ answering proto t s' seg (found q t seg).
Proof.
  intros Hi Hp. destruct (idle_with_keys proto s seg k q Hi) as (Hh & Hn & Hl).
  destruct (probes_can proto s k q t seg) as [Hw Ha (b & Hb) Hk]; [apply Hi|done|].
  destruct (SetNewOuter_ok _ seg t b Hh Hn Hb) as (s' & E & Hs & Hp'). exists s'. split; [done|].
  split; [eapply holds_same_store; [done..|by apply Hp']|]. split; [by eapply like_same_store|]. right.
  eexists. split; [exact Hp'|]. split.
  - intros u Hu. rewrite same_store_matches by done. apply Ha. apply elem_of_reverse, list_elem_of_filter in Hu. apply Hu.
  - rewrite (filter_matches _ s') by done. by rewrite filter_bucket.
Qed.

(** ** The ring in the middle of a probe *)

(** The probe is at the SteM [p] of [ss]; those before it have been asked. *)
Definition answering_at t r segs (f : nat) ss (p : nat) (l : list (IHT HT)) : Prop :=
  shape r f ss ∧ p < length ss
  ∧ (probe_ss_index r = Some ((f + p) mod 3) ∨ p = 0 ∧ probe_ss_index r = None)
  ∧ Forall2 (idle (protostem r)) (take p ss) (take p segs)
  ∧ ∃ ls, Forall3 (answering (protostem r) t) (drop p ss) (drop p segs) ls ∧ l = concat ls.

Definition ring_answering t r segs (l : list (IHT HT)) : Prop := ∃ f ss p, answering_at t r segs f ss p l.

Lemma Forall2_take_S {A B} (P : A → B → Prop) p (l : list A) (k : list B) x y :
  Forall2 P (take p l) (take p k) → l !! p = Some x → k !! p = Some y → P x y → Forall2 P (take (S p) l) (take (S p) k).
Proof. intros H Ex Ey Hp. rewrite (take_S_r _ _ _ Ex), (take_S_r _ _ _ Ey). apply Forall2_app; [done|by constructor]. Qed.

(** The state of the SteM at [p] changes, and the probe is there. *)
Lemma shape_probe_put r f ss p s s' q : shape r f ss → ss !! p = Some s →
  shape (put_substem (with_indexes r (first_ss_index r) (insert_ss_index r) q) ((f + p) mod 3) (Some s')) f (<[p := s']> ss).
Proof. intros Hs Es. apply (shape_put _ _ _ _ s); [by apply shape_indexes|done]. Qed.

(** The SteM the probe is at answers. *)
Lemma answering_step t r segs f ss p l : iht_wf t → answering_at t r segs f ss p l →
  let r0 q := with_indexes r (first_ss_index r) (insert_ss_index r) q in
  let i := (f + p) mod 3 in
  match probe_ss_index r with Some p' => Ok p' | None => access (first_ss_index r) end = Ok i
  ∧ ∃ s, substem r i = Ok s ∧
    ((∃ x l' s', l = x :: l' ∧ ExecSteM s = Ok (Some x, s')
        ∧ ring_answering t (put_substem (r0 (Some i)) i (Some s')) segs l')
     ∨ ∃ s', ExecSteM s = Ok (None, s')
        ∧ (if decide (S p = length ss) then l = [] ∧ ring_holds (put_substem (r0 None) i (Some s')) segs
           else answering_at t (put_substem (r0 (Some ((f + S p) mod 3))) i (Some s')) segs f (<[p := s']> ss) (S p) l)).
Proof.
  intros Ht (Hs & Hp & Hpi & Hd & ls & Ha & ->) r0 i. destruct (lookup_lt_is_Some_2 ss p Hp) as [s Es].
  split. { destruct Hpi as [->|[-> ->]]; [done|]. unfold i. by rewrite (sh_first_index _ _ _ Hs), Nat.add_0_r, Nat.mod_small by apply Hs. }
  exists s. split; [by apply (shape_substem _ _ ss)|].
  rewrite (drop_S _ _ _ Es) in Ha. inversion Ha as [|? seg l0 ? segs' ls' Has Ha' Ex Ey]; subst.
  assert (segs !! p = Some seg) as Eseg by (rewrite <- (Nat.add_0_r p), <- lookup_drop, <- Ey; done).
  assert (segs' = drop (S p) segs) as -> by (rewrite (drop_S _ _ _ Eseg) in Ey; by injection Ey).
  pose proof (ExecSteM_answering _ _ _ _ _ Ht Has) as Hx. destruct l0 as [|x l0].
  - right. destruct Hx as (s' & E & Hi). exists s'. split; [done|].
    assert (Forall2 (idle (protostem r)) (take (S p) (<[p := s']> ss)) (take (S p) segs)) as Hd'.
    { apply (Forall2_take_S _ _ _ _ s' seg); [by rewrite take_insert_ge by done|by apply list_lookup_insert_eq|done|done]. }
    destruct (decide (S p = length ss)) as [El|Hne].
    + rewrite drop_ge in Ha' by lia. destruct (drop (S p) segs) as [|seg1 segs1] eqn:Hnil; [|by inversion Ha']. inversion Ha'; subst. split; [done|].
      exists f, (<[p := s']> ss). split; [by apply (shape_probe_put _ _ _ _ s)|]. split; [|done].
      rewrite take_ge in Hd' by (rewrite length_insert; lia). rewrite take_ge in Hd'; [exact Hd'|].
      enough (length (drop (S p) segs) = 0) as H0 by (rewrite length_drop in H0; lia). by rewrite Hnil.
    + split; [by apply (shape_probe_put _ _ _ _ s)|]. split; [rewrite length_insert; lia|]. split; [by left|].
      split; [done|]. exists ls'. split; [|done]. by rewrite drop_insert_lt by lia.
  - left. destruct Hx as (s' & E & Hi). exists x, (l0 ++ concat ls'), s'. split; [done|]. split; [done|].
    exists f, (<[p := s']> ss), p. split; [by apply (shape_probe_put _ _ _ _ s)|]. split; [by rewrite length_insert|].
    split; [by left|]. split; [by rewrite take_insert_ge by done|]. exists (l0 :: ls'). split; [|done].
    rewrite (drop_S _ s' p), drop_insert_lt by (lia || by apply list_lookup_insert_eq).
    rewrite (drop_S _ _ _ Eseg). by constructor.
Qed.

(** The next answer of the ring, or no more. *)
Lemma GetNextOutput_at t segs l f : iht_wf t → ∀ k fuel ss n p, answering_at t (ring n) segs f ss p l → length ss = S (p + k) → k ≤ fuel →
  ∃ r', FSteMGetNextOutput fuel n = Ok (hd_error l, with_ring n r') ∧ protostem r' = protostem (ring n)
    ∧ match l with [] => ring_holds r' segs | _ :: l' => ring_answering t r' segs l' end.
Proof.
  intros Ht. induction k as [|k IH]; intros fuel ss n p Ha Hlen Hk.
  all: destruct (answering_step t (ring n) segs f ss p l Ht Ha) as (Epi & s & Esub & Hst); pose proof Ha as (Hs & _).
  all: assert (FSteMHasSubSteMs (ring n) = true) as Hhas by (unfold FSteMHasSubSteMs; by rewrite (sh_first_index _ _ _ Hs)).
  all: set (i := (f + p) mod 3) in *.
  - assert (Some i = insert_ss_index (ring n)) as Ei.
    { rewrite (sh_insert_index _ _ _ Hs), Hlen. unfold i. do 2 f_equal. lia. }
    destruct Hst as [(x & l' & s' & -> & E & Hr)|(s' & E & Hr)].
    + eexists. split; [|split; [|exact Hr]]; [|done]. destruct fuel; cbn [FSteMGetNextOutput]; rewrite Hhas; cbn [negb];
        rewrite Epi; cbn [cbind]; rewrite Esub; cbn [cbind]; rewrite E; done.
    + rewrite decide_True in Hr by lia. destruct Hr as [-> Hr]. eexists. split; [|split; [|exact Hr]]; [|done].
      destruct fuel; cbn [FSteMGetNextOutput]; rewrite Hhas; cbn [negb]; rewrite Epi; cbn [cbind]; rewrite Esub; cbn [cbind];
        rewrite E; cbn [cbind insert_ss_index put_substem with_indexes]; rewrite bool_decide_true by done; done.
  - destruct fuel as [|fuel]; [lia|]. cbn [FSteMGetNextOutput]; rewrite Hhas; cbn [negb]; rewrite Epi; cbn [cbind]; rewrite Esub; cbn [cbind].
    destruct Hst as [(x & l' & s' & -> & E & Hr)|(s' & E & Hr)]; rewrite E; cbn [cbind insert_ss_index put_substem with_indexes].
    + eexists. split; [reflexivity|]. by split.
    + rewrite decide_False in Hr by lia. rewrite bool_decide_false.
      2: { rewrite (sh_insert_index _ _ _ Hs). intros [= H]. apply (shape_last _ _ _ _ Hs) in H; lia. }
      cbn [negb]. unfold i. rewrite (shape_next _ _ _ _ Hs) by lia.
      destruct (IH fuel _ (with_ring n (put_substem (with_indexes (ring n) (first_ss_index (ring n)) (insert_ss_index (ring n))
        (Some ((f + S p) mod 3))) i (Some s'))) (S p) Hr) as (r' & E' & Ep & Hr'); [by rewrite length_insert; lia|lia|].
      exists r'. split; [exact E'|]. split; [exact Ep|exact Hr'].
Qed.

Lemma GetNextOutput_ok t n segs l : iht_wf t → ring_answering t (ring n) segs l →
  ∃ r', FSteMGetNextOutput FSTEM_NUM_SUBSTEMS n = Ok (hd_error l, with_ring n r') ∧ protostem r' = protostem (ring n)
    ∧ match l with [] => ring_holds r' segs | _ :: l' => ring_answering t r' segs l' end.
Proof.
  intros Ht (f & ss & p & Ha). pose proof Ha as ([_ Hl _ _ _] & Hp & _).
  apply (GetNextOutput_at t segs l f Ht (length ss - S p) _ ss n p Ha); unfold FSTEM_NUM_SUBSTEMS; lia.
Qed.

(** A probe of every SteM of the ring. *)
Lemma start_probe n segs k q t : ring_holds (ring n) segs → (∀ seg, seg ∈ segs → probes (protostem (ring n)) k q t seg) →
  ∃ r1 r2, all_substems (λ s, Ok (Stem.with_keys s k q)) (ring n) = Ok r1
    ∧ FSteMSetNewOuter (with_ring n r1) t = Ok (with_ring n r2)
    ∧ protostem r2 = protostem (ring n) ∧ ring_answering t r2 segs (concat (found q t <$> segs)).
Proof.
  intros (f & ss & Hs & Hall & Hpi) Hp.
  destruct (all_substems_ok (λ s, Ok (Stem.with_keys s k q)) (ring n) f ss ((λ s, Stem.with_keys s k q) <$> ss) Hs)
    as (r1 & E1 & Hs1 & Ep1 & Ei1).
  { apply Forall2_fmap_r, Forall_Forall2_diag, Forall_true. done. }
  assert (∃ ss2, Forall2 (λ s s', ExecSteMSetNewOuter s t = Ok s') ((λ s, Stem.with_keys s k q) <$> ss) ss2
    ∧ Forall3 (answering (protostem (ring n)) t) ss2 segs (found q t <$> segs)) as (ss2 & Hset & Hans).
  { clear Hs Hpi E1 Hs1 Ep1 Ei1. induction Hall as [|s seg ss segs Hi Hall IH]; [exists []; split; constructor|].
    destruct IH as (ss2 & H1 & H2); [intros seg' Hseg; apply Hp; by right|].
    destruct (SetNewOuter_answering _ s seg k q t Hi) as (s' & E & Ha); [apply Hp; by left|].
    exists (s' :: ss2). split; constructor; done. }
  destruct (all_substems_ok (λ s, ExecSteMSetNewOuter s t) r1 f _ ss2 Hs1 Hset) as (r2 & E2 & Hs2 & Ep2 & Ei2).
  exists r1, (with_indexes r2 (first_ss_index r2) (insert_ss_index r2) None). split; [done|]. split; [|split].
  - unfold FSteMSetNewOuter, FSteMHasSubSteMs. cbn [ring with_ring]. rewrite (sh_first_index _ _ _ Hs1). cbn [negb].
    rewrite Ei1, Hpi. cbn [cassert cbind]. by rewrite E2.
  - cbn [protostem with_indexes]. congruence.
  - exists f, ss2, 0. split; [by apply shape_indexes|]. split; [apply Hs2|]. split; [by right|].
    split; [constructor|]. exists (found q t <$> segs). split; [|done].
    rewrite !drop_0. cbn [protostem with_indexes]. by rewrite Ep2, Ep1.
Qed.

(** ** Keys and clauses *)

Definition pairs (l : list (FSteMOuterHashkey N Q)) : list (N * FSteMClauses Q) := l ≫= λ '(k, c), (λ c', (k, c')) <$> c.

Lemma pairs_length n : length (pairs (fstemouterhashkeys n)) ≤ keys_fuel n.
Proof.
  unfold keys_fuel. induction (fstemouterhashkeys n) as [|[k c] l IH]; [done|]. cbn [pairs mbind list_bind sum_list_with] in *.
  rewrite length_app, length_fmap. unfold pairs in IH. lia.
Qed.

Definition applies (k : N) t : bool := match can_be_applied k t with Ok b => b | Fail _ => false end.

(** [ps] are the pairs to come after the one in use. *)
Record keys_left n (cur : option (N * FSteMClauses Q)) (ps : list (N * FSteMClauses Q)) : Prop := {
  kl_suffix : ∃ pre, pairs (fstemouterhashkeys n) = pre ++ ps;
  kl_at : match cur with
          | None => currentouterhashkey (probe n) = [] ∧ ps = pairs (fstemouterhashkeys n)
          | Some (k, c) => ∃ c0 l cs, currentouterhashkey (probe n) = (k, c0) :: l ∧ currentfstemclauses (probe n) = c :: cs
              ∧ ps = ((λ c', (k, c')) <$> cs) ++ pairs l ∧ Forall (λ '(_, c), c ≠ []) l
          end
}.

Lemma pairs_cons k c cs l : pairs ((k, c :: cs) :: l) = (k, c) :: ((λ c', (k, c')) <$> cs) ++ pairs l.
Proof. done. Qed.

Lemma next_keys_ok n cur ps : keys_left n cur ps → fstemouterhashkeys n ≠ [] → Forall (λ '(_, c), c ≠ []) (fstemouterhashkeys n) →
  match ps with
  | [] => next_keys n = Ok None
  | p :: ps' => ∃ k c, next_keys n = Ok (Some (FStem.with_keys n k c)) ∧ keys_left (FStem.with_keys n k c) (Some p) ps'
  end.
Proof.
  intros [(pre & Epre) Hat] Hne Hall.
  assert (∀ p ps' k c0 l c cs, ps = p :: ps' → p = (k, c) → ps' = ((λ c', (k, c')) <$> cs) ++ pairs l → Forall (λ '(_, c), c ≠ []) l →
    keys_left (FStem.with_keys n ((k, c0) :: l) (c :: cs)) (Some p) ps') as Hkl.
  { intros p ps' k c0 l c cs E -> E' Hl. constructor.
    - exists (pre ++ [(k, c)]). cbn [fstemouterhashkeys FStem.with_keys with_probe]. by rewrite Epre, E, <- app_assoc.
    - by exists c0, l, cs. }
  unfold next_keys. destruct cur as [[k c]|].
  - destruct Hat as (c0 & l & cs & E1 & E2 & -> & Hl). rewrite E1, E2. destruct cs as [|c2 cs]; cbn [fmap list_fmap app].
    + destruct l as [|[k2 c2] l]; [done|]. apply Forall_cons in Hl as [Hc2 Hl]. destruct c2 as [|c2 cs2]; [done|].
      rewrite pairs_cons. cbn [cassert cbind]. eexists _, _. split; [reflexivity|]. by eapply Hkl.
    + eexists _, _. split; [reflexivity|]. by eapply Hkl.
  - destruct Hat as [E1 ->]. rewrite E1. destruct (fstemouterhashkeys n) as [|[k c] l]; [done|].
    apply Forall_cons in Hall as [Hc Hl]. destruct c as [|c cs]; [done|]. rewrite pairs_cons.
    eexists _, _. split; [reflexivity|]. by eapply Hkl.
Qed.

(** [n'] is [n] with another state of the ring and of the current keys. *)
Definition moved n n' : Prop :=
  n' = FStem.with_keys (with_ring n (ring n')) (currentouterhashkey (probe n')) (currentfstemclauses (probe n'))
  ∧ protostem (ring n') = protostem (ring n).

Lemma moved_keys n k c : moved n (FStem.with_keys n k c).
Proof. split; [by destruct n|done]. Qed.
Lemma moved_ring n r' : protostem r' = protostem (ring n) → moved n (with_ring n r').
Proof. intros E. split; [by destruct n as [? ? []]|done]. Qed.
Lemma moved_chain n1 n2 n3 : moved n1 n2 → moved n2 n3 → moved n1 n3.
Proof. intros [E1 P1] [E2 P2]. split; [|congruence]. rewrite E2, E1. by destruct n1 as [? ? []]. Qed.
Lemma moved_hashkeys n n' : moved n n' → fstemouterhashkeys n' = fstemouterhashkeys n.
Proof. intros [-> _]. done. Qed.

(** What the operator needs of a probing tuple. *)
Record probe_fits n t segs : Prop := {
  pf_wf : iht_wf t;
  pf_keys : fstemouterhashkeys n ≠ [];
  pf_clauses : Forall (λ '(_, c), c ≠ []) (fstemouterhashkeys n);
  pf_vars k c : (k, c) ∈ pairs (fstemouterhashkeys n) → ∃ b, can_be_applied k t = Ok b;
  pf_probes k c seg : (k, c) ∈ pairs (fstemouterhashkeys n) → applies k t = true → seg ∈ segs →
    probes (protostem (ring n)) k c.1 t seg
}.

Lemma probe_fits_moved n n' t segs : moved n n' → probe_fits n t segs → probe_fits n' t segs.
Proof.
  intros Hm [H1 H2 H3 H4 H5]. pose proof (moved_hashkeys _ _ Hm) as E. destruct Hm as [_ Ep].
  constructor; rewrite ?E, ?Ep; done.
Qed.

(** The matches under the pairs [ps], with the clauses that gave them. *)
Definition matches_of t segs (ps : list (N * FSteMClauses Q)) : list (FSteMClauses Q * IHT HT) :=
  ps ≫= λ '(k, c), if applies k t then (λ u, (c, u)) <$> concat (found c.1 t <$> segs) else [].

Fixpoint skip t (ps : list (N * FSteMClauses Q)) : list (N * FSteMClauses Q) :=
  match ps with
  | [] => []
  | (k, c) :: ps' => if applies k t then ps else skip t ps'
  end.

Lemma matches_of_skip t segs ps : matches_of t segs ps = matches_of t segs (skip t ps).
Proof. induction ps as [|[k c] ps IH]; [done|]. cbn [skip]. destruct (applies k t) eqn:E; [done|]. cbn [matches_of mbind list_bind]. by rewrite E. Qed.

Lemma SetOuterTupleNext_ok t segs fuel : ∀ n cur ps, probe_fits n t segs → ring_holds (ring n) segs → keys_left n cur ps →
  length ps ≤ fuel →
  match skip t ps with
  | [] => ∃ n', FSteMSetOuterTupleNext fuel n t = Ok (false, n') ∧ moved n n' ∧ ring_holds (ring n') segs
            ∧ keys_left n' None (pairs (fstemouterhashkeys n)) ∧ currentfstemclauses (probe n') = []
  | (k, c) :: ps' => ∃ n', FSteMSetOuterTupleNext fuel n t = Ok (true, n') ∧ moved n n' ∧ keys_left n' (Some (k, c)) ps'
      ∧ ring_answering t (ring n') segs (concat (found c.1 t <$> segs))
  end.
Proof.
  induction fuel as [|fuel IH]; intros n cur ps Hf Hr Hk Hlen.
  all: pose proof (next_keys_ok n cur ps Hk (pf_keys _ _ _ Hf) (pf_clauses _ _ _ Hf)) as Hnext.
  all: destruct ps as [|[k c] ps]; cbn [skip length] in *; [|try lia].
  1,2: exists (FStem.with_keys n [] []); cbn [FSteMSetOuterTupleNext]; rewrite Hnext; cbn [cbind]; split; [done|];
    split; [apply moved_keys|]; split; [done|]; split; [|done]; constructor; [by exists []|done].
  destruct Hnext as (k' & c' & E & Hk'). pose proof Hk as [(pre & Epre) _].
  assert ((k, c) ∈ pairs (fstemouterhashkeys n)) as Hin by (rewrite Epre; apply elem_of_app; right; by left).
  cbn [FSteMSetOuterTupleNext]. rewrite E. cbn [cbind]. pose proof Hk' as [_ (c0 & l & cs & E1 & E2 & _)].
  rewrite E1, E2. cbn [head access cbind]. destruct c as [q iq]. destruct (pf_vars _ _ _ Hf k (q, iq) Hin) as (b & Eb).
  rewrite Eb. unfold applies. rewrite Eb. cbn [cbind]. destruct b.
  - destruct (start_probe (FStem.with_keys n k' c') segs k q t Hr) as (r1 & r2 & Er1 & Er2 & Ep & Ha).
    { intros seg Hseg. apply (pf_probes _ _ _ Hf k (q, iq)); [done| |done]. unfold applies. by rewrite Eb. }
    assert (FSteMHasSubSteMs (ring (FStem.with_keys n k' c')) = true) as ->.
    { destruct Hr as (f & ss & Hs & _). unfold FSteMHasSubSteMs. cbn [ring FStem.with_keys with_probe]. by rewrite (sh_first_index _ _ _ Hs). }
    rewrite Er1. cbn [cbind]. rewrite Er2. cbn [cbind]. eexists. split; [reflexivity|].
    split; [eapply moved_chain; [apply moved_keys|by apply moved_ring]|]. split; [|exact Ha].
    destruct Hk' as [Hs Hat]. by constructor.
  - specialize (IH (FStem.with_keys n k' c') (Some (k, (q, iq))) ps). destruct (skip t ps) as [|[k2 c2] ps2].
    + destruct IH as (n' & En & Hm & Hr' & Hk2 & Ec); [by eapply probe_fits_moved; [apply moved_keys|]|done|done|lia|].
      exists n'. split; [done|]. split; [eapply moved_chain; [apply moved_keys|done]|]. by split.
    + destruct IH as (n' & En & Hm & Hk2 & Ha); [by eapply probe_fits_moved; [apply moved_keys|]|done|done|lia|].
      exists n'. split; [done|]. split; [eapply moved_chain; [apply moved_keys|done]|]. by split.
Qed.

(** What is left of a probe. *)
Definition remaining n t segs (L : list (FSteMClauses Q * IHT HT)) : Prop :=
  ∃ cur ps, keys_left n cur ps ∧
    match cur with
    | None => ring_holds (ring n) segs ∧ L = matches_of t segs ps
    | Some (k, c) => ∃ l, ring_answering t (ring n) segs l ∧ L = ((λ u, (c, u)) <$> l) ++ matches_of t segs ps
    end.

Lemma matches_of_cons t segs k c ps : applies k t = true →
  matches_of t segs ((k, c) :: ps) = ((λ u, (c, u)) <$> concat (found c.1 t <$> segs)) ++ matches_of t segs ps.
Proof. intros E. cbn [matches_of mbind list_bind]. by rewrite E. Qed.

Lemma skip_applies t ps k c ps' : skip t ps = (k, c) :: ps' → applies k t = true ∧ length ps' < length ps.
Proof.
  induction ps as [|[k2 c2] ps IH]; [done|]. cbn [skip length]. destruct (applies k2 t) eqn:E.
  - intros [= -> -> ->]. split; [done|lia].
  - intros H. destruct (IH H). split; [done|lia].
Qed.

Lemma holds_answering t r segs : ring_holds r segs → ring_answering t r segs [].
Proof.
  intros (f & ss & Hs & Hall & Hp). exists f, ss, 0. split; [done|]. split; [apply Hs|]. split; [by right|]. split; [constructor|].
  exists ((λ _, []) <$> segs). rewrite !drop_0. split.
  - clear Hs. induction Hall; cbn [fmap list_fmap]; constructor; [by apply idle_answering|done].
  - clear Hs. induction Hall; [done|]. cbn [fmap list_fmap concat]. done.
Qed.

Lemma keys_left_ring n r' cur ps : keys_left n cur ps → keys_left (with_ring n r') cur ps.
Proof. intros [H1 H2]. by constructor. Qed.

Lemma next_match_ok t segs fuel : ∀ n cur ps l, probe_fits n t segs → keys_left n cur ps → ring_answering t (ring n) segs l →
  (cur = None → l = []) → length ps ≤ fuel →
  let L := match cur with Some (_, c) => (λ u, (c, u)) <$> l | None => [] end ++ matches_of t segs ps in
  match L with
  | [] => ∃ n', next_match fuel n t = Ok (None, n') ∧ moved n n' ∧ ring_holds (ring n') segs
            ∧ currentouterhashkey (probe n') = [] ∧ currentfstemclauses (probe n') = []
  | (c, x) :: L' => ∃ n', next_match fuel n t = Ok (Some x, n') ∧ moved n n' ∧ remaining n' t segs L'
            ∧ head (currentfstemclauses (probe n')) = Some c
  end.
Proof.
  induction fuel as [|fuel IH]; intros n cur ps l Hf Hk Hr Hc Hlen L.
  all: destruct (GetNextOutput_ok t n segs l (pf_wf _ _ _ Hf) Hr) as (r' & E & Ep & Hr').
  all: destruct l as [|x l']; cbn [hd_error] in E.
  2,4: destruct cur as [[k c]|]; [|by specialize (Hc eq_refl)]; unfold L; cbn [fmap list_fmap app next_match]; rewrite E; cbn [cbind];
    exists (with_ring n r'); split; [done|]; split; [by apply moved_ring|]; pose proof Hk as [_ (c0 & l2 & cs & _ & E2 & _)];
    split; [|by cbn; rewrite E2]; exists (Some (k, c)), ps; split; [by apply keys_left_ring|]; by exists l'.
  all: assert (L = matches_of t segs (skip t ps)) as -> by (unfold L; rewrite <- matches_of_skip; by destruct cur as [[? ?]|]).
  all: assert (length ps ≤ keys_fuel (with_ring n r')) as Hkf by
    (destruct Hk as [(pre & Epre) _]; pose proof (pairs_length n) as Hp; rewrite Epre, length_app in Hp;
     change (keys_fuel (with_ring n r')) with (keys_fuel n); lia).
  all: pose proof (SetOuterTupleNext_ok t segs (keys_fuel (with_ring n r')) (with_ring n r') cur ps
    (probe_fits_moved _ _ _ _ (moved_ring n r' Ep) Hf) Hr' (keys_left_ring _ _ _ _ Hk) Hkf) as Hset.
  all: pose proof (skip_applies t ps) as Hsk; cbn [next_match]; rewrite E; cbn [cbind].
  all: destruct (skip t ps) as [|[k c] ps'].
  1,3: destruct Hset as (n' & E' & Hm & Hrn & [_ [Hkn _]] & Ecn); rewrite E'; cbn [cbind]; exists n'; split; [done|];
    split; [by eapply moved_chain; [apply moved_ring|]|]; by split.
  { destruct (Hsk k c ps' eq_refl). lia. }
  destruct (Hsk k c ps' eq_refl) as [Hap Hlt]. destruct Hset as (n' & E' & Hm & Hk' & Ha). rewrite E'. cbn [cbind].
  assert (moved n n') as Hm' by (by eapply moved_chain; [apply moved_ring|]).
  specialize (IH n' (Some (k, c)) ps' _ (probe_fits_moved _ _ _ _ Hm' Hf) Hk' Ha ltac:(done) ltac:(lia)). cbv zeta in IH.
  rewrite matches_of_cons by done. destruct (_ ++ matches_of t segs ps') as [|[c' x] L'].
  - destruct IH as (n2 & E2 & Hm2 & Hrest). exists n2. split; [done|]. split; [by eapply moved_chain|done].
  - destruct IH as (n2 & E2 & Hm2 & Hrest). exists n2. split; [done|]. split; [by eapply moved_chain|done].
Qed.

Lemma next_match_remaining t segs n L : probe_fits n t segs → remaining n t segs L →
  match L with
  | [] => ∃ n', next_match (keys_fuel n) n t = Ok (None, n') ∧ moved n n' ∧ ring_holds (ring n') segs
            ∧ currentouterhashkey (probe n') = [] ∧ currentfstemclauses (probe n') = []
  | (c, x) :: L' => ∃ n', next_match (keys_fuel n) n t = Ok (Some x, n') ∧ moved n n' ∧ remaining n' t segs L'
            ∧ head (currentfstemclauses (probe n')) = Some c
  end.
Proof.
  intros Hf (cur & ps & Hk & Hr).
  assert (length ps ≤ keys_fuel n) as Hlen.
  { destruct Hk as [(pre & Epre) _]. pose proof (pairs_length n) as Hp. rewrite Epre, length_app in Hp. lia. }
  destruct cur as [[k c]|].
  - destruct Hr as (l & Hr & ->). by apply (next_match_ok t segs (keys_fuel n) n (Some (k, c)) ps l).
  - destruct Hr as (Hr & ->). apply (next_match_ok t segs (keys_fuel n) n None ps []); [done|done|by apply holds_answering|done|done].
Qed.
End probe.
End FStemProbe.
