(* ===== verification/FStemJoin.v ===== *)
(** * Where a joined tuple goes

    The bits that an FSteM gives a joined tuple: the operators it has yet to
    visit and has visited, and the queries that are done with it. *)

From S2P Require Import Prelude BitArray Hash Eddy EddySpec GSFilter EddyGSF Stem StemSpec FStem.

Module FStemJoin.
Import Bit Eddy EddySpec Stem StemSpec FStem.
#[local] Opaque bits_of below.

Lemma foldl_SetBit n a l : wf n a → (∀ i, i ∈ l → i < n) →
  wf n (foldl BitArraySetBit a l) ∧ bits_of n (foldl BitArraySetBit a l) = bits_of n a ∪ list_to_set l.
Proof.
  revert a. induction l as [|i l IH]; intros a Ha Hl; cbn [foldl list_to_set]; [split; [done|set_solver]|].
  destruct (IH (BitArraySetBit a i)) as [Hw E]; [apply SetBit_wf; [apply Hl; by left|done]|intros j Hj; apply Hl; by right|].
  split; [done|]. rewrite E, SetBit_set by (done || apply Hl; by left). set_solver.
Qed.

Section join.
Context {HT : Type}.
Implicit Types (t o : IHT HT) (r b : BitArray).

Lemma remove_bits_ok r b : wf 96 r → wf 96 b → wf 96 (remove_bits r b) ∧ bits_of 96 (remove_bits r b) = bits_of 96 r ∖ bits_of 96 b.
Proof.
  intros Hr Hb. unfold remove_bits. change TCQMAXOPERATORS with 96. set (z := replicate _ _).
  assert (wf 96 z) as Hz by (split; [done|by apply Forall_replicate]).
  assert (wf 96 (BitArrayClone z b 96)) as Hc by (apply Clone_wf; [apply Hb|done]).
  assert (wf 96 (BitArrayNotSelf (BitArrayClone z b 96) 96)) as Hn by (rewrite NotSelf_Not; by apply Not_wf).
  rewrite AndSelf_And. split; [apply And_wf; [apply Hr|done]|].
  rewrite And_set, NotSelf_Not, Not_set, Clone_set by done.
  pose proof (bits_of_below 96 r). set_solver.
Qed.

(** The bits of cell [i] of a table of bit arrays. *)
Definition row (n : nat) (table : list BitArray) (i : nat) : gset nat := match table !! i with Some b => bits_of n b | None => ∅ end.

Definition rows_wf (table : list BitArray) : Prop := ∀ i, i < 64 → ∃ b, table !! i = Some b ∧ wf 96 b.

Lemma remove_stems_ok stems sources l : rows_wf stems → (∀ i, i ∈ l → i < 64) → ∀ r, wf 96 r →
  ∃ r', remove_stems stems sources l r = Ok r' ∧ wf 96 r'
    ∧ ∀ x, x ∈ bits_of 96 r' ↔ x ∈ bits_of 96 r ∧ ∀ i, i ∈ l → BitArrayBitIsSet sources i = true → x ∉ row 96 stems i.
Proof.
  intros Hs. induction l as [|i l IH]; intros Hl r Hr; cbn [remove_stems].
  { exists r. split; [done|]. split; [done|]. intros x. split; [|by intros [? _]]. intros Hx. split; [done|]. by intros i ?%elem_of_nil. }
  assert (∀ j, j ∈ l → j < 64) as Hl' by (intros j Hj; apply Hl; by right).
  destruct (BitArrayBitIsSet sources i) eqn:E.
  - destruct (Hs i) as (b & Eb & Hb); [apply Hl; by left|]. rewrite Eb. cbn [access cbind].
    destruct (remove_bits_ok r b Hr Hb) as [Hw Ew]. destruct (IH Hl' _ Hw) as (r' & E' & Hw' & Hx). exists r'. split; [done|]. split; [done|].
    intros x. rewrite Hx, Ew, elem_of_difference. assert (row 96 stems i = bits_of 96 b) as Erow by (unfold row; by rewrite Eb).
    split.
    + intros [[H1 H2] H3]. split; [done|]. intros j [->|Hj]%elem_of_cons Hset; [by rewrite Erow|by apply H3].
    + intros [H1 H2]. split; [split; [done|rewrite <- Erow; apply H2; [by left|done]]|]. intros j Hj. apply H2. by right.
  - destruct (IH Hl' r Hr) as (r' & E' & Hw' & Hx). exists r'. split; [done|]. split; [done|]. intros x. rewrite Hx. split.
    + intros [H1 H2]. split; [done|]. intros j [->|Hj]%elem_of_cons Hset; [congruence|by apply H2].
    + intros [H1 H2]. split; [done|]. intros j Hj. apply H2. by right.
Qed.

(** The plan as an FSteM sees it. *)
Record eddy_wf (e : EddyBits) : Prop := {
  ew_operators : rows_wf (operators e);
  ew_stems : rows_wf (sourceStems e);
  ew_events : wf 96 (eventOperators e);
  ew_pjo s b : (s, b) ∈ pjolist e → wf 64 s ∧ wf 96 b
}.

Lemma pjo_ok l sources : wf 64 sources → (∀ s b, (s, b) ∈ l → wf 64 s ∧ wf 96 b) → ∀ r, wf 96 r →
  let r' := foldl (λ r '(s, b), if BitArrayContained sources s TCQMAXSOURCES then BitArrayOrSelf r b TCQMAXOPERATORS else r) r l in
  wf 96 r' ∧ ∀ x, x ∈ bits_of 96 r' ↔ x ∈ bits_of 96 r ∨ ∃ s b, (s, b) ∈ l ∧ bits_of 64 s ⊆ bits_of 64 sources ∧ x ∈ bits_of 96 b.
Proof.
  intros Hs. induction l as [|[s b] l IH]; intros Hl r Hr; cbn [foldl].
  { split; [done|]. intros x. split; [by left|]. intros [?|(s & b & Hin & _)]; [done|]. by apply elem_of_nil in Hin. }
  destruct (Hl s b) as [Hws Hwb]; [by left|].
  assert (∀ s' b', (s', b') ∈ l → wf 64 s' ∧ wf 96 b') as Hl' by (intros s' b' Hin; apply Hl; by right).
  assert (BitArrayContained sources s 64 = true ↔ bits_of 64 s ⊆ bits_of 64 sources) as Hc by (by apply (Contained_set 8)).
  change TCQMAXSOURCES with 64 in *. change TCQMAXOPERATORS with 96 in *.
  destruct (BitArrayContained sources s 64) eqn:E.
  - destruct (IH Hl' (BitArrayOrSelf r b 96)) as [Hw Hx]; [by apply OrSelf_wf|]. split; [done|]. intros x. rewrite Hx, OrSelf_set, elem_of_union by done.
    split.
    + intros [[?|?]|(s' & b' & Hin & ?)]; [by left| |right; exists s', b'; split; [by right|done]].
      right. exists s, b. split; [by left|]. split; [by apply Hc|done].
    + intros [?|(s' & b' & [[= -> ->]|Hin]%elem_of_cons & ?)]; [by left; left|by left; right; tauto|]. right. by exists s', b'.
  - destruct (IH Hl' r Hr) as [Hw Hx]. split; [done|]. intros x. rewrite Hx. split.
    + intros [?|(s' & b' & Hin & ?)]; [by left|]. right. exists s', b'. split; [by right|done].
    + intros [?|(s' & b' & [[= -> ->]|Hin]%elem_of_cons & Hsub & ?)]; [by left| |by right; exists s', b'].
      apply Hc in Hsub. discriminate.
Qed.

(** The loop over the other stems of the source. *)
Lemma mark_stems_ok stems r d : wf 96 r → wf 96 d →
  let '(r', d') := for_loop TCQMAXOPERATORS
                     (λ i '(r, d), if BitArrayBitIsSet stems i then (BitArrayClearBit r i, BitArraySetBit d i) else (r, d)) (r, d) in
  wf 96 r' ∧ wf 96 d' ∧ bits_of 96 r' = bits_of 96 r ∖ bits_of 96 stems ∧ bits_of 96 d' = bits_of 96 d ∪ bits_of 96 stems.
Proof.
  intros Hr Hd. pose (I := λ j '(r', d'), wf 96 r' ∧ wf 96 d'
    ∧ (∀ x, x ∈ bits_of 96 r' ↔ x ∈ bits_of 96 r ∧ ¬ (x < j ∧ BitArrayBitIsSet stems x = true))
    ∧ (∀ x, x ∈ bits_of 96 d' ↔ x ∈ bits_of 96 d ∨ (x < 96 ∧ x < j ∧ BitArrayBitIsSet stems x = true))).
  assert (I TCQMAXOPERATORS (for_loop TCQMAXOPERATORS
    (λ i '(r, d), if BitArrayBitIsSet stems i then (BitArrayClearBit r i, BitArraySetBit d i) else (r, d)) (r, d))) as H.
  { apply (for_loop_ind I).
    - split; [done|]. split; [done|]. split; intros x; [split; [intros ?; split; [done|lia]|by intros [? _]]|].
      split; [by left|]. intros [?|?]; [done|lia].
    - change TCQMAXOPERATORS with 96. intros j [r' d'] Hj (Hr' & Hd' & Er & Ed). destruct (BitArrayBitIsSet stems j) eqn:E.
      + split; [by apply ClearBit_wf|]. split; [by apply SetBit_wf|]. split; intros x.
        * rewrite ClearBit_set, elem_of_difference, Er, elem_of_singleton by done. split.
          -- intros [[H1 H2] H3]. split; [done|]. intros [H4 H5]. apply H2. split; [lia|done].
          -- intros [H1 H2]. split; [split; [done|intros [H4 H5]; apply H2; split; [lia|done]]|]. intros ->. apply H2. split; [lia|done].
        * rewrite SetBit_set, elem_of_union, Ed, elem_of_singleton by done. split.
          -- intros [->|[?|?]]; [right; split; [done|]; split; [lia|done]|by left|right; split_and!; [lia|lia|tauto]].
          -- intros [?|(H1 & H2 & H3)]; [by right; left|]. destruct (decide (x = j)) as [->|]; [by left|]. right. right. split_and!; [lia|lia|done].
      + split; [done|]. split; [done|]. split; intros x; rewrite ?Er, ?Ed.
        * split; intros [H1 H2]; (split; [done|]); intros [H4 H5]; apply H2; (split; [|done]); [|lia].
          destruct (decide (x = j)) as [->|]; [congruence|lia].
        * split; (intros [?|(H1 & H2 & H3)]; [by left|]); right; (split; [done|]); (split; [|done]); [lia|].
          destruct (decide (x = j)) as [->|]; [congruence|lia]. }
  destruct (for_loop _ _ _) as [r' d']. destruct H as (Hr' & Hd' & Er & Ed). split; [done|]. split; [done|].
  change TCQMAXOPERATORS with 96 in *. split; apply set_eq; intros x.
  - rewrite Er, elem_of_difference, elem_of_bits_of. pose proof (proj1 (elem_of_bits_of 96 r x)). rewrite elem_of_bits_of. tauto.
  - rewrite Ed, elem_of_union, !elem_of_bits_of. tauto.
Qed.

(** Where a joined tuple goes.  It is ready for the operators of the stored
    tuple's source as well as for those of the probing tuple, except for the SteMs
    of the sources that it has, the FSteM itself and the event operators; and for
    the operators that wait for a set of sources it has now.  It counts as having
    been in all SteMs of the stored tuple's source. *)
Record routed e operator src t o o' : Prop := {
  ro_base : t_base_tuples o' = t_base_tuples o;
  ro_sources : t_sources o' = t_sources o;
  ro_completed : completed_of o' = completed_of o;
  ro_done : done_of o' = done_of o ∪ row 96 (sourceStems e) src;
  ro_ready x : x ∈ ready_of o' ↔
    ((x ∈ ready_of o ∪ row 96 (operators e) src ∧ ∀ i, i ∈ bits_of 64 (t_sources t) → x ∉ row 96 (sourceStems e) i)
     ∨ ∃ s b, (s, b) ∈ pjolist e ∧ bits_of 64 s ⊆ bits_of 64 (t_sources o) ∧ x ∈ bits_of 96 b)
    ∧ x ≠ operator ∧ x ∉ row 96 (sourceStems e) src ∧ x ∉ bits_of 96 (eventOperators e)
}.

Lemma join_bits_ok e operator src t o : eddy_wf e → src < 64 → operator < 96 → iht_wf t → iht_wf o →
  ∃ o', join_bits e operator src t o = Ok o' ∧ iht_wf o' ∧ routed e operator src t o o'.
Proof.
  intros [Ho Hst Hev Hpj] Hsrc Hop [_ Hts _] [[Hr Hd Hc] Hs Hb]. unfold join_bits.
  destruct (Ho src Hsrc) as (ops & Eo & Hops). rewrite Eo. cbn [access cbind].
  destruct (remove_stems_ok (sourceStems e) (t_sources t) (seq 0 TCQMAXSOURCES) Hst) with (r := BitArrayOrSelf (t_ready o) ops TCQMAXOPERATORS)
    as (r1 & E1 & W1 & X1); [intros i Hi; apply elem_of_seq in Hi; change TCQMAXSOURCES with 64 in Hi; lia|by apply OrSelf_wf|].
  rewrite E1. cbn [cbind]. unfold setReadyFromPJOList. destruct (pjo_ok (pjolist e) (t_sources o) Hs Hpj r1 W1) as [W2 X2].
  set (r2 := foldl _ _ _) in *. destruct (Hst src Hsrc) as (stems & Es & Hstems). rewrite Es. cbn [access cbind].
  pose proof (mark_stems_ok stems (BitArrayClearBit r2 operator) (t_done o)) as Hm.
  destruct (for_loop _ _ _) as [r3 d3]. destruct Hm as (W3 & Wd & X3 & Xd); [by apply ClearBit_wf|done|].
  destruct (remove_bits_ok r3 (eventOperators e) W3 Hev) as [W4 X4]. eexists. split; [reflexivity|].
  assert (row 96 (sourceStems e) src = bits_of 96 stems) as Erow by (unfold row; by rewrite Es).
  assert (row 96 (operators e) src = bits_of 96 ops) as Erow' by (unfold row; by rewrite Eo).
  split; [constructor; [by constructor|done|done]|].
  constructor; try done; unfold done_of, ready_of; cbn [t_done t_ready with_done with_ready]; rewrite ?Xd, ?Erow, ?Erow'; [done|].
  intros x. rewrite X4, X3, ClearBit_set, !elem_of_difference, elem_of_singleton, X2, X1 by done.
  change TCQMAXOPERATORS with 96. rewrite OrSelf_set by done.
  assert ((∀ i, i ∈ seq 0 TCQMAXSOURCES → BitArrayBitIsSet (t_sources t) i = true → x ∉ row 96 (sourceStems e) i)
    ↔ ∀ i, i ∈ bits_of 64 (t_sources t) → x ∉ row 96 (sourceStems e) i) as Hi.
  { split; intros H i.
    - intros [Hi Hb']%elem_of_bits_of. apply H; [|done]. apply elem_of_seq. change TCQMAXSOURCES with 64. lia.
    - intros Hi Hb'. apply H. apply elem_of_bits_of. apply elem_of_seq in Hi. change TCQMAXSOURCES with 64 in Hi. split; [lia|done]. }
  rewrite Hi. tauto.
Qed.

(** The queries in [used] but not in [interested] are done with it. *)
Definition done_for (used interested : list nat) (c : BitArray) : BitArray :=
  foldl (λ c q, if bool_decide (q ∈ interested) then c else BitArraySetBit c q) c used.

Lemma done_for_ok used interested c : wf 128 c → (∀ q, q ∈ used → q < 128) →
  wf 128 (done_for used interested c)
  ∧ ∀ q, q ∈ bits_of 128 (done_for used interested c) ↔ q ∈ bits_of 128 c ∨ (q ∈ used ∧ q ∉ interested).
Proof.
  revert c. induction used as [|a used IH]; intros c Hc Hu; cbn [done_for foldl].
  { split; [done|]. intros q. split; [by left|]. by intros [?|[?%elem_of_nil _]]. }
  assert (∀ q, q ∈ used → q < 128) as Hu' by (intros q Hq; apply Hu; by right).
  assert (a < 128) as Ha by (apply Hu; by left). case_bool_decide as Hi.
  - destruct (IH c Hc Hu') as [Hw Hq]. split; [done|]. intros q. unfold done_for in Hq. rewrite Hq, elem_of_cons. split; [tauto|].
    intros [?|[[->|?] ?]]; [by left|done|by right].
  - destruct (IH (BitArraySetBit c a)) as [Hw Hq]; [by apply SetBit_wf|done|]. split; [done|]. intros q.
    unfold done_for in Hq. rewrite Hq, SetBit_set, elem_of_union, elem_of_singleton, elem_of_cons by done. split; [|tauto].
    intros [[->|?]|[? ?]]; tauto.
Qed.
End join.
End FStemJoin.
