(* ===== verification/FStemAnswer.v ===== *)
(** * An FSteM at work in the eddy

    The eddy gives an FSteM a probing tuple and takes its answers one by one,
    calling it once before each.  The answers are the joined tuples that some
    query still wants, in the order in which they are found, and last the probing
    tuple itself. *)

From S2P Require Import Prelude BitArray Hash Eddy EddySpec GSFilter EddyGSF Stem StemSpec FStem FStemRing FStemWindow FStemProbe FStemJoin.

Module FStemAnswer.
Import Bit Eddy EddySpec Stem StemSpec FStem FStemRing FStemWindow FStemProbe FStemJoin.
#[local] Opaque bits_of below.

Section answer.
Context {HT N Q TS W : Type} `{!FStemEnv HT N Q TS W}.
Local Abbreviation stem := (SteM HT N Q).
Local Abbreviation fstem := (FSteM HT N Q TS W).
Implicit Types (n : fstem) (e : EddyBits) (t u o : IHT HT) (segs : list (list (IHT HT))) (L : list (FSteMClauses Q * IHT HT)).

(** ** The answers *)

Definition source_of n : nat := match STEM_SOURCE (protostem (ring n)) with Ok s => s | Fail _ => 0 end.

(** Some query wants the tuple. *)
Definition wanted o : bool := BitArrayIsAnyCleared (t_queriesCompleted o) TCQMAXQUERIES.

(** The joined tuple [u], found under the clauses [c], as it leaves. *)
Definition settle n (c : FSteMClauses Q) u : IHT HT := with_completed u (done_for (usedByQueries n) c.2 (t_queriesCompleted u)).
Definition out_tuple e n t (x : FSteMClauses Q * IHT HT) : IHT HT :=
  match join_bits e (operator n) (source_of n) t (settle n x.1 x.2) with Ok o => o | Fail _ => settle n x.1 x.2 end.

Definition outs e n t L : list (IHT HT) := base.filter (λ o, wanted o = true) (out_tuple e n t <$> L).

(** The probing tuple when there are no more matches. *)
Definition probed n t : IHT HT := with_completed t (foldl BitArraySetBit (t_queriesCompleted t) (usedByQueries n)).
Definition bounced n t : list (IHT HT) := base.filter (λ o, wanted o = true) [probed n t].

(** No query of the operator wants the probe, and it is sent on as it is. *)
Definition early_out e n t : bool :=
  UsePrecisionSharing e
  && negb (BitArrayIsAnyCleared
             (BitArrayOr (interestedQueries n) (t_queriesCompleted t) (replicate (BASIZE TCQMAXQUERIES) 0%Z) TCQMAXQUERIES) TCQMAXQUERIES).

Definition fstem_answers e n t segs : list (IHT HT) :=
  if early_out e n t then [t] else outs e n t (matches_of t segs (pairs (fstemouterhashkeys n))) ++ bounced n t.

(** ** The operator in its plan *)

Record planned e n : Prop := {
  pl_eddy : eddy_wf e;
  pl_lineage : UseTupleLineage e = true;
  pl_source : ∃ src, STEM_SOURCE (protostem (ring n)) = Ok src ∧ src < 64;
  pl_operator : operator n < 96;
  pl_used q : q ∈ usedByQueries n → q < 128;
  pl_room : 0 < room n;
  pl_slot : iht_wf (oiht n);
  pl_out : unqueued_output n = None
}.

(** The same operator with other contents. *)
Record same_op n n' : Prop := {
  so_keys : fstemouterhashkeys n' = fstemouterhashkeys n;
  so_used : usedByQueries n' = usedByQueries n;
  so_interested : interestedQueries n' = interestedQueries n;
  so_operator : operator n' = operator n;
  so_room : room n' = room n;
  so_window : window n' = window n;
  so_proto : protostem (ring n') = protostem (ring n)
}.

Lemma same_op_trans n1 n2 n3 : same_op n1 n2 → same_op n2 n3 → same_op n1 n3.
Proof. intros [] []; constructor; congruence. Qed.

Lemma same_op_settle n n' c u : same_op n n' → settle n' c u = settle n c u.
Proof. intros []. unfold settle. congruence. Qed.
Lemma same_op_out e n n' t L : same_op n n' → outs e n' t L = outs e n t L.
Proof.
  intros Hs. unfold outs. f_equal. apply list_fmap_ext. intros _ [c u] _. unfold out_tuple, source_of.
  rewrite (same_op_settle n n') by done. by rewrite (so_proto _ _ Hs), (so_operator _ _ Hs).
Qed.
Lemma same_op_bounced n n' t : same_op n n' → bounced n' t = bounced n t.
Proof. intros []. unfold bounced, probed. congruence. Qed.

Lemma moved_same n n' : moved n n' → same_op n n' ∧ input n' = input n ∧ oiht n' = oiht n ∧ unqueued_output n' = unqueued_output n
  ∧ inputq n' = inputq n ∧ outputq n' = outputq n
  ∧ haveprobe (probe n') = haveprobe (probe n) ∧ doneprobe (probe n') = doneprobe (probe n)
  ∧ punctjoin (probe n') = punctjoin (probe n) ∧ punctprobe (probe n') = punctprobe (probe n).
Proof.
  intros [E Ep]. split; [constructor; try exact Ep; by rewrite E|]. rewrite E. done.
Qed.

(** Between two calls, in the middle of the probe of [t]. *)
Record busy e n t segs L : Prop := {
  bu_planned : planned e n;
  bu_fits : probe_fits n t segs;
  bu_left : remaining n t segs L;
  bu_input : input n = Some t;
  bu_inputq : inputq n = [];
  bu_have : haveprobe (probe n) = true;
  bu_done : doneprobe (probe n) = false;
  bu_punct : punctjoin (probe n) = false ∧ punctprobe (probe n) = false;
  bu_matches c u : (c, u) ∈ L → iht_wf u
}.

(** At rest, its queues apart. *)
Record resting n segs : Prop := {
  rs_ring : ring_holds (ring n) segs;
  rs_quiet : quiet (probe n);
  rs_inputq : inputq n = []
}.

Lemma out_tuple_ok e n t c u : planned e n → iht_wf t → iht_wf u →
  join_bits e (operator n) (source_of n) t (settle n c u) = Ok (out_tuple e n t (c, u)) ∧ iht_wf (out_tuple e n t (c, u))
  ∧ routed e (operator n) (source_of n) t (settle n c u) (out_tuple e n t (c, u)).
Proof.
  intros [He _ (src & Esrc & Hsrc) Hop Hused _ _ _] Ht Hu.
  assert (source_of n = src) as E by (unfold source_of; by rewrite Esrc). rewrite E.
  assert (iht_wf (settle n c u)) as Hset.
  { destruct Hu as [[Hr Hd Hc] Hs Hb]. constructor; [|done|done]. constructor; [done|done|]. by apply done_for_ok. }
  destruct (join_bits_ok e (operator n) src t (settle n c u) He Hsrc Hop Ht Hset) as (o & Eo & Ho & Hr).
  assert (out_tuple e n t (c, u) = o) as ->; [|done]. unfold out_tuple. cbn [fst snd]. by rewrite E, Eo.
Qed.

(** ** One call *)

Lemma enq_out_ok n o : outputq n = [] → 0 < room n → enq_out n o = (true, with_queues n (unqueued_output n) (inputq n) [o]).
Proof. intros E Hr. unfold enq_out, EddyGSF.enqueue_iht. rewrite E. by rewrite decide_True. Qed.

Lemma bounce_ok e n t segs : planned e n → outputq n = [] → inputq n = [] → ring_holds (ring n) segs →
  currentouterhashkey (probe n) = [] → currentfstemclauses (probe n) = [] → punctjoin (probe n) = false → punctprobe (probe n) = false →
  ∃ n', bounce e n t = Ok (false, n') ∧ same_op n n' ∧ planned e n' ∧ resting n' segs ∧ outputq n' = bounced n t.
Proof.
  intros [He Hl Hsrc Hop Hu Hr Hs Hun] Eo Ei Hri E1 E2 E3 E4. unfold bounce. rewrite Hl. cbn [negb].
  unfold bounced. rewrite filter_cons, filter_nil.
  change (with_completed t (foldl BitArraySetBit (t_queriesCompleted t) (usedByQueries (with_flags n (haveprobe (probe n)) (probehasresults (probe n)) true))))
    with (probed n t). unfold wanted. cbv zeta.
  destruct (BitArrayIsAnyCleared (t_queriesCompleted (probed n t)) TCQMAXQUERIES).
  - rewrite enq_out_ok by done. rewrite decide_True by done. eexists. split; [reflexivity|].
    split; [by constructor|]. split; [by constructor|]. split; [|done]. constructor; [done|by split_and!|done].
  - rewrite decide_False by done. eexists. split; [reflexivity|].
    split; [by constructor|]. split; [by constructor|]. split; [|done]. constructor; [done|by split_and!|done].
Qed.

Lemma send_ok e n t c u : planned e n → iht_wf t → iht_wf u → outputq n = [] → punctjoin (probe n) = false →
  head (currentfstemclauses (probe n)) = Some c →
  let o := out_tuple e n t (c, u) in
  ∃ n', send_joined e n t u = Ok (negb (wanted o), n') ∧ outputq n' = (if wanted o then [o] else [])
    ∧ n' = with_queues (with_slots (with_flags n (haveprobe (probe n)) true (doneprobe (probe n))) (input n) o)
             (unqueued_output n) (inputq n) (outputq n').
Proof.
  intros Hpl Ht Hu Eo Ep Ec o. destruct (out_tuple_ok e n t c u Hpl Ht Hu) as (Ej & _ & _). fold o in Ej.
  destruct Hpl as [He Hl (src & Esrc & Hsrc) Hop _ Hr Hslot Hun].
  assert (source_of n = src) as Es by (unfold source_of; by rewrite Esrc). rewrite Es in Ej.
  unfold send_joined. set (n1 := with_flags n _ _ _).
  change (punctjoin (probe n1)) with (punctjoin (probe n)). rewrite Ep. cbv zeta. rewrite Hl. cbn [negb orb].
  change (oiht n1) with (oiht n). rewrite copy_eq by done.
  assert (complete_others n1 (t_queriesCompleted u) = done_for (usedByQueries n) c.2 (t_queriesCompleted u)) as ->.
  { unfold complete_others. change (currentfstemclauses (probe n1)) with (currentfstemclauses (probe n)).
    destruct (currentfstemclauses (probe n)) as [|[q iq] cs]; [done|]. by injection Ec as <-. }
  fold (settle n c u). change (protostem (ring n1)) with (protostem (ring n)). rewrite Esrc. cbn [cbind].
  change (operator n1) with (operator n). rewrite Ej. cbn [cbind]. unfold wanted.
  destruct (BitArrayIsAnyCleared (t_queriesCompleted o) TCQMAXQUERIES).
  - rewrite enq_out_ok by done. eexists. split; [reflexivity|]. split; [done|]. reflexivity.
  - eexists. split; [reflexivity|]. split; [done|]. cbn [outputq with_slots with_flags FStem.with_probe n1]. by destruct n.
Qed.

Lemma GenerateOutput_ok e n t segs L : busy e n t segs L → outputq n = [] →
  match L with
  | [] => ∃ n', FSteMGenerateOutputTuple e n = Ok (false, n') ∧ same_op n n' ∧ planned e n' ∧ resting n' segs
            ∧ outputq n' = bounced n t
  | x :: L' => ∃ n', FSteMGenerateOutputTuple e n = Ok (negb (wanted (out_tuple e n t x)), n') ∧ same_op n n' ∧ busy e n' t segs L'
            ∧ outputq n' = if wanted (out_tuple e n t x) then [out_tuple e n t x] else []
  end.
Proof.
  intros [Hpl Hf Hl Ein Eiq Eh Ed [Ep1 Ep2] Hm] Eo. unfold FSteMGenerateOutputTuple.
  rewrite Eh, (pl_out _ _ Hpl). cbn [cassert cbind]. rewrite Ed, Ein. cbn [access cbind]. rewrite Ep1, Ep2.
  pose proof (next_match_remaining t segs n L Hf Hl) as Hnext. destruct L as [|[c u] L'].
  - destruct Hnext as (n1 & E1 & Hmv & Hr & Ek & Ec). rewrite E1. cbn [cbind].
    destruct (moved_same _ _ Hmv) as (Hs & Ei & Eoi & Eu & Eiq' & Eo' & Eh' & Ed' & Ep1' & Ep2').
    destruct (bounce_ok e n1 t segs) as (n2 & E2 & Hs2 & Hpl2 & Hr2 & Eo2); try done; try congruence.
    { destruct Hpl, Hs. constructor; try done; try congruence; [rewrite so_proto0|rewrite so_used0]; done. }
    exists n2. split; [done|]. split; [by eapply same_op_trans|]. split; [done|]. split; [done|].
    by rewrite Eo2, (same_op_bounced n n1).
  - destruct Hnext as (n1 & E1 & Hmv & Hrem & Ec). rewrite E1. cbn [cbind].
    destruct (moved_same _ _ Hmv) as (Hs & Ei & Eoi & Eu & Eiq' & Eo' & Eh' & Ed' & Ep1' & Ep2').
    assert (planned e n1) as Hpl1.
    { destruct Hpl, Hs. constructor; try done; try congruence; [rewrite so_proto0|rewrite so_used0]; done. }
    assert (iht_wf u) as Hu by (apply (Hm c); by left).
    destruct (send_ok e n1 t c u Hpl1 (pf_wf _ _ _ Hf) Hu) as (n2 & E2 & Eo2 & En2); [congruence|congruence|done|].
    assert (out_tuple e n1 t (c, u) = out_tuple e n t (c, u)) as Eout.
    { unfold out_tuple, source_of. cbn [fst snd]. rewrite (same_op_settle n n1) by done. by rewrite (so_proto _ _ Hs), (so_operator _ _ Hs). }
    destruct (out_tuple_ok e n1 t c u Hpl1 (pf_wf _ _ _ Hf) Hu) as (_ & Ho & _).
    rewrite Eout in *. exists n2. split; [done|].
    assert (same_op n1 n2) as Hs2 by (rewrite En2; by constructor).
    split; [by eapply same_op_trans|]. split; [|done].
    assert (probe_fits n1 t segs) as Hf1 by (by eapply probe_fits_moved).
    constructor.
    + rewrite En2. destruct Hpl1. constructor; try done; congruence.
    + rewrite En2. destruct Hf1. by constructor.
    + destruct Hrem as (cur & ps & [Hk1 Hk2] & Hcur). exists cur, ps. rewrite En2. split; [|exact Hcur].
      constructor; [exact Hk1|exact Hk2].
    + rewrite En2. cbn [input with_queues with_slots]. congruence.
    + rewrite En2. cbn [inputq with_queues with_slots]. congruence.
    + rewrite En2. cbn. congruence.
    + rewrite En2. cbn. congruence.
    + rewrite En2. cbn. by rewrite Ep1', Ep2'.
    + intros c' u' Hin. apply (Hm c'). by right.
Qed.

(** Calling until there is an answer, or no more. *)
Lemma generate_loop_ok e t segs : ∀ L fuel n, busy e n t segs L → outputq n = [] → length L ≤ fuel →
  match outs e n t L with
  | o :: os => ∃ n' L', generate_loop fuel e n = Ok n' ∧ same_op n n' ∧ busy e n' t segs L' ∧ outputq n' = [o]
                 ∧ outs e n t L' = os ∧ length L' < length L
  | [] => ∃ n', generate_loop fuel e n = Ok n' ∧ same_op n n' ∧ planned e n' ∧ resting n' segs ∧ outputq n' = bounced n t
  end.
Proof.
  induction L as [|x L IH]; intros fuel n Hb Eo Hf; pose proof (GenerateOutput_ok e n t segs _ Hb Eo) as H.
  - cbn [outs fmap list_fmap]. destruct H as (n' & E & Hrest). exists n'. split; [|done].
    destruct fuel; cbn [generate_loop]; rewrite E; done.
  - destruct H as (n1 & E & Hs & Hb1 & Eo1). unfold outs. rewrite fmap_cons, filter_cons. fold (outs e n t L).
    destruct (wanted (out_tuple e n t x)) eqn:Ew; cbn [negb] in E.
    + rewrite decide_True by done. exists n1, L. split; [|split; [done|]; split; [done|]; split; [done|]; split; [done|cbn; lia]].
      destruct fuel; cbn [generate_loop]; rewrite E; done.
    + rewrite decide_False by done. cbn [length] in Hf. destruct fuel as [|fuel]; [lia|]. cbn [generate_loop]. rewrite E. cbn [cbind].
      specialize (IH fuel n1 Hb1 Eo1 ltac:(lia)). rewrite (same_op_out e n n1) in IH by done. destruct (outs e n t L) as [|o os].
      * destruct IH as (n2 & E2 & Hs2 & Hp2 & Hr2 & Eo2). exists n2. split; [done|]. split; [by eapply same_op_trans|].
        split; [done|]. split; [done|]. by rewrite Eo2, (same_op_bounced n n1).
      * destruct IH as (n2 & L' & E2 & Hs2 & Hb2 & Eo2 & Eos & Hlen). exists n2, L'. split; [done|].
        split; [by eapply same_op_trans|]. split; [done|]. split; [done|]. rewrite (same_op_out e n n1) in Eos by done.
        split; [done|cbn; lia].
Qed.

Lemma Process_busy spins e temp n t segs L : busy e n t segs L → ProcessNextFSteM FSTEM_MAX_WORK_UNITS spins e temp n = generate_loop spins e n.
Proof.
  intros [Hpl _ _ _ _ Eh _ _ _]. unfold FSTEM_MAX_WORK_UNITS. cbn [ProcessNextFSteM]. rewrite (pl_out _ _ Hpl), Eh. cbn [negb cbind].
  by destruct (generate_loop spins e n).
Qed.

Lemma Process_resting spins e temp n segs : planned e n → resting n segs → ProcessNextFSteM FSTEM_MAX_WORK_UNITS spins e temp n = Ok n.
Proof.
  intros Hpl [_ (Eh & _) Ei]. unfold FSTEM_MAX_WORK_UNITS. cbn [ProcessNextFSteM]. rewrite (pl_out _ _ Hpl), Eh. cbn [negb].
  unfold FSteMProcessInputTuple. rewrite Eh. cbn [negb cassert cbind]. by rewrite Ei.
Qed.

(** ** The probe as the eddy asks for it

    [FJORD_ENQ_INP_PTR], then [ProcessNextNode] and [FJORD_DEQ_OUT_PTR] until there
    is nothing to take. *)
Fixpoint drain (fuel spins : nat) e (temp : IHT HT) n : cres (list (IHT HT) * fstem) :=
  match fuel with
  | O => Fail Diverge
  | S fuel' =>
      let! n1 := ProcessNextFSteM FSTEM_MAX_WORK_UNITS spins e temp n in
      match outputq n1 with
      | [] => Ok ([], n1)
      | o :: q => let! (l, n2) := drain fuel' spins e temp (with_queues n1 (unqueued_output n1) (inputq n1) q) in Ok (o :: l, n2)
      end
  end.

Definition ask_fstem (fuel spins : nat) e (temp : IHT HT) n t : cres (list (IHT HT) * fstem) :=
  drain fuel spins e temp (with_queues n (unqueued_output n) (inputq n ++ [t]) (outputq n)).

Lemma drain_S fuel spins e temp n : drain (S fuel) spins e temp n
  = let! n1 := ProcessNextFSteM FSTEM_MAX_WORK_UNITS spins e temp n in
    match outputq n1 with
    | [] => Ok ([], n1)
    | o :: q => let! (l, n2) := drain fuel spins e temp (with_queues n1 (unqueued_output n1) (inputq n1) q) in Ok (o :: l, n2)
    end.
Proof. done. Qed.

(** Taking what is in the output queue. *)
Definition taken n : fstem := with_queues n (unqueued_output n) (inputq n) [].

Lemma taken_same n : same_op n (taken n).
Proof. by constructor. Qed.
Lemma taken_planned e n : planned e n → planned e (taken n).
Proof. intros []. by constructor. Qed.
Lemma taken_resting n segs : resting n segs → resting (taken n) segs.
Proof. intros []. by constructor. Qed.
Lemma taken_busy e n t segs L : busy e n t segs L → busy e (taken n) t segs L.
Proof.
  intros [Hpl [] (cur & ps & [Hk1 Hk2] & Hcur) Hi Hiq Hh Hd Hp Hm]. constructor; try done; [by apply taken_planned|].
  exists cur, ps. split; [by constructor|done].
Qed.

(** The end of a probe. *)
Lemma drain_end k spins e temp n segs l : planned e n → resting n segs → outputq n = l → length l ≤ 1 →
  ∃ n', (match l with
         | [] => Ok ([], n)
         | o :: q => let! (l', n2) := drain (S k) spins e temp (with_queues n (unqueued_output n) (inputq n) q) in Ok (o :: l', n2)
         end) = Ok (l, n') ∧ same_op n n' ∧ planned e n' ∧ resting n' segs ∧ outputq n' = [].
Proof.
  intros Hpl Hr Eo Hl. destruct l as [|o [|? ?]]; [| |cbn in Hl; lia].
  - exists n. split; [done|]. split; [by constructor|done].
  - exists (taken n). fold (taken n). cbn [drain].
    rewrite (Process_resting spins e temp (taken n) segs) by (by apply taken_planned || by apply taken_resting).
    split; [done|]. split; [apply taken_same|]. split; [by apply taken_planned|]. by split; [apply taken_resting|].
Qed.

Lemma bounced_length n t : length (bounced n t) ≤ 1.
Proof. unfold bounced. etransitivity; [apply length_filter|done]. Qed.

Lemma drain_busy spins e temp t segs : ∀ k n L, busy e n t segs L → outputq n = [] → length L ≤ k → length L ≤ spins →
  ∃ n', drain (S (S k)) spins e temp n = Ok (outs e n t L ++ bounced n t, n') ∧ same_op n n' ∧ planned e n' ∧ resting n' segs
    ∧ outputq n' = [].
Proof.
  induction k as [|k IH]; intros n L Hb Eo Hk Hsp; pose proof (generate_loop_ok e t segs L spins n Hb Eo Hsp) as H;
    rewrite drain_S, (Process_busy spins e temp n t segs L Hb); destruct (outs e n t L) as [|o os] eqn:Eout.
  1,3: destruct H as (n1 & E1 & Hs1 & Hp1 & Hr1 & Eo1); rewrite E1; cbn [cbind app];
    rewrite Eo1; (eapply drain_end in Hr1 as (n2 & E2 & Hs2 & Hrest); [|done|done|apply bounced_length]);
    exists n2; (split; [exact E2|]); (split; [by eapply same_op_trans|done]).
  - destruct L as [|x L]; [done|]. cbn in Hk. lia.
  - destruct H as (n1 & L' & E1 & Hs1 & Hb1 & Eo1 & Eos & Hlen). rewrite E1. cbn [cbind]. rewrite Eo1. fold (taken n1).
    destruct (IH (taken n1) L') as (n2 & E2 & Hs2 & Hrest); [by apply taken_busy|done|lia|lia|].
    assert (same_op n (taken n1)) as Hs by (eapply same_op_trans; [done|apply taken_same]).
    rewrite (same_op_out e n (taken n1)), (same_op_bounced n (taken n1)), Eos in E2 by done.
    exists n2. split; [|split; [by eapply same_op_trans|done]]. by rewrite E2.
Qed.

(** ** A new probe *)

Lemma matches_in t segs ps c u : (c, u) ∈ matches_of t segs ps →
  ∃ k x seg, (k, c) ∈ ps ∧ applies k t = true ∧ seg ∈ segs ∧ x ∈ seg
    ∧ ExecQual c.1 (t_base_tuples x) (t_base_tuples t) = true ∧ u = joined t x.
Proof.
  unfold matches_of. intros ([k c'] & Hin & Hp)%list_elem_of_bind. destruct (applies k t) eqn:Ea; [|by apply elem_of_nil in Hin].
  apply list_elem_of_fmap in Hin as (u' & [= -> ->] & Hu). apply elem_of_concat in Hu as (l & Hl & Hu).
  apply list_elem_of_fmap in Hl as (seg & -> & Hseg). apply list_elem_of_fmap in Hu as (x & -> & Hx).
  apply list_elem_of_filter in Hx as [Hm Hx]. rewrite elem_of_reverse in Hx. by exists k, x, seg.
Qed.

Lemma matches_wf n t segs c u : probe_fits n t segs → (c, u) ∈ matches_of t segs (pairs (fstemouterhashkeys n)) → iht_wf u ∧ completed_of u = completed_of t.
Proof.
  intros Hf (k & x & seg & Hin & Ha & Hseg & Hx & _ & ->)%matches_in. split; [|done]. apply joined_wf; [apply (pf_wf _ _ _ Hf)|].
  apply (pb_stored _ _ _ _ _ (pf_probes _ _ _ Hf k c seg Hin Ha Hseg)), Hx.
Qed.

Lemma take_input_ok e temp n t segs : planned e n → resting n segs → outputq n = [] → probe_fits n t segs →
  BitArrayEqual (sourceBuiltOn (protostem (ring n))) (t_sources t) TCQMAXSOURCES = false → ihtIsPunct HeapTupleIsPunct t = false →
  let n0 := with_queues n (unqueued_output n) [t] [] in
  if early_out e n t
  then ∃ n', FSteMProcessInputTuple e temp n0 = Ok (true, n') ∧ same_op n n' ∧ planned e n' ∧ resting n' segs ∧ outputq n' = [t]
  else ∃ n', FSteMProcessInputTuple e temp n0 = Ok (false, n') ∧ same_op n n' ∧ outputq n' = []
         ∧ busy e n' t segs (matches_of t segs (pairs (fstemouterhashkeys n))).
Proof.
  intros Hpl [Hr (Eh & Ek & Ec & Ep1 & Ep2) Ei] Eo Hf Hsrc Hpu n0. unfold FSteMProcessInputTuple.
  change (haveprobe (probe n0)) with (haveprobe (probe n)). rewrite Eh. cbn [negb cassert cbind n0 inputq with_queues EddyGSF.dequeue_iht].
  change (protostem (ring (with_slots _ _ _))) with (protostem (ring n)). rewrite Hsrc, Hpu. cbv zeta.
  rewrite (pl_lineage _ _ Hpl). cbn [andb].
  change (interestedQueries (with_slots _ _ _)) with (interestedQueries n). fold (early_out e n t).
  destruct (early_out e n t) eqn:Eearly.
  - rewrite enq_out_ok by (done || apply (pl_room _ _ Hpl)). eexists. split; [reflexivity|]. split; [by constructor|].
    split; [by destruct Hpl|]. split; [|done]. constructor; [done|by split_and!|done].
  - set (n3 := FStem.with_keys _ [] []). change (punctjoin (probe n3)) with (punctjoin (probe n)). rewrite Ep1. cbn [negb].
    assert (same_op n n3) as Hs3 by (by constructor).
    assert (probe_fits n3 t segs) as Hf3 by (destruct Hf; by constructor).
    assert (keys_left n3 None (pairs (fstemouterhashkeys n))) as Hk3 by (constructor; [by exists []|done]).
    pose proof (SetOuterTupleNext_ok t segs (keys_fuel n3) n3 None _ Hf3 Hr Hk3 (pairs_length n)) as Hset.
    assert (∃ b n4, FSteMSetOuterTupleNext (keys_fuel n3) n3 t = Ok (b, n4) ∧ moved n3 n4
      ∧ remaining n4 t segs (matches_of t segs (pairs (fstemouterhashkeys n)))) as (b & n4 & E4 & Hm & Hrem).
    { rewrite matches_of_skip. destruct (skip t (pairs (fstemouterhashkeys n))) as [|[k c] ps] eqn:Esk.
      - destruct Hset as (n4 & E4 & Hm & Hr4 & Hk4 & _). exists false, n4. split; [done|]. split; [done|].
        exists None, (pairs (fstemouterhashkeys n)). split; [done|]. split; [done|].
        by rewrite (matches_of_skip t segs (pairs _)), Esk.
      - destruct Hset as (n4 & E4 & Hm & Hk4 & Ha4). exists true, n4. split; [done|]. split; [done|].
        exists (Some (k, c)), ps. split; [done|]. eexists. split; [exact Ha4|]. apply matches_of_cons. by apply skip_applies in Esk as [? _]. }
    rewrite E4. cbn [cbind]. eexists. split; [reflexivity|].
    destruct (moved_same _ _ Hm) as (Hs4 & Ein & Eoi & Eu & Eiq' & Eo' & Eh' & Ed' & Ep1' & Ep2').
    assert (same_op n n4) as Hs by (by eapply same_op_trans).
    split; [destruct Hs; by constructor|]. split; [exact Eo'|].
    constructor; try done.
    + destruct Hpl as [? ? Hpsrc ? Hpu' ? ? Hpn], Hs. change (oiht n3) with (oiht n) in Eoi. change (unqueued_output n3) with (unqueued_output n) in Eu.
      constructor; cbn; try done; try congruence; [by rewrite so_proto0|by rewrite so_used0].
    + eapply probe_fits_moved in Hf3; [|exact Hm]. destruct Hf3. by constructor.
    + destruct Hrem as (cur & ps & [Hk1 Hk2] & Hcur). exists cur, ps. split; [by constructor|exact Hcur].
    + cbn. by rewrite Ep1', Ep2'.
    + intros c u Hin. by apply (matches_wf n t segs c u).
Qed.

(** Asked until it has no more, the operator gives its answers and is at rest again,
    with its window as it was. *)
Lemma ask_fstem_ok e temp n t segs fuel spins : planned e n → resting n segs → outputq n = [] → probe_fits n t segs →
  BitArrayEqual (sourceBuiltOn (protostem (ring n))) (t_sources t) TCQMAXSOURCES = false → ihtIsPunct HeapTupleIsPunct t = false →
  length (matches_of t segs (pairs (fstemouterhashkeys n))) ≤ spins →
  length (matches_of t segs (pairs (fstemouterhashkeys n))) + 2 ≤ fuel →
  ∃ n', ask_fstem fuel spins e temp n t = Ok (fstem_answers e n t segs, n') ∧ same_op n n' ∧ planned e n' ∧ resting n' segs ∧ outputq n' = [].
Proof.
  intros Hpl Hr Eo Hf Hsrc Hpu Hsp Hfu. set (L := matches_of _ _ _) in *.
  pose proof (take_input_ok e temp n t segs Hpl Hr Eo Hf Hsrc Hpu) as Hin. cbv zeta in Hin.
  unfold ask_fstem, fstem_answers. rewrite (rs_inputq _ _ Hr), Eo. cbn [app]. set (n0 := with_queues _ _ _ _) in *.
  assert (unqueued_output n0 = None ∧ haveprobe (probe n0) = false) as [Eu Eh] by (split; [apply (pl_out _ _ Hpl)|apply (rs_quiet _ _ Hr)]).
  destruct fuel as [|[|fuel]]; [lia|lia|]. destruct (early_out e n t).
  - destruct Hin as (n1 & E1 & Hs1 & Hp1 & Hr1 & Eo1). rewrite drain_S. unfold FSTEM_MAX_WORK_UNITS at 1.
    cbn [ProcessNextFSteM]. rewrite Eu, Eh. cbn [negb]. rewrite E1. cbn [cbind]. rewrite Eo1.
    destruct (drain_end fuel spins e temp n1 segs [t] Hp1 Hr1 Eo1 ltac:(cbn; lia)) as (n2 & E2 & Hs2 & Hrest).
    exists n2. split; [exact E2|]. split; [by eapply same_op_trans|done].
  - destruct Hin as (n1 & E1 & Hs1 & Eo1 & Hb).
    assert (drain (S (S fuel)) spins e temp n0 = drain (S (S fuel)) spins e temp n1) as ->.
    { rewrite (drain_S _ _ _ _ n0), (drain_S _ _ _ _ n1), (Process_busy spins e temp n1 t segs _ Hb).
      unfold FSTEM_MAX_WORK_UNITS at 1. cbn [ProcessNextFSteM]. rewrite Eu, Eh. cbn [negb]. rewrite E1. cbn [cbind].
      by destruct (generate_loop spins e n1). }
    destruct (drain_busy spins e temp t segs fuel n1 L Hb Eo1 ltac:(lia) Hsp) as (n2 & E2 & Hs2 & Hrest).
    exists n2. rewrite E2, (same_op_out e n n1), (same_op_bounced n n1) by done. split; [done|]. split; [by eapply same_op_trans|done].
Qed.

(** A call with a tuple of the operator's own stream. *)
Definition give_fstem (spins : nat) e (temp : IHT HT) n t : cres fstem :=
  ProcessNextFSteM FSTEM_MAX_WORK_UNITS spins e temp (with_queues n (unqueued_output n) (inputq n ++ [t]) (outputq n)).

Lemma give_fstem_ok spins e temp n w t segs : iht_wf temp → planned e n → resting n segs → outputq n = [] → window_of n w →
  BitArrayEqual (sourceBuiltOn (protostem (ring n))) (t_sources t) TCQMAXSOURCES = true → hashed n t →
  ∃ n', give_fstem spins e temp n t = Ok n' ∧ same_op n n' ∧ planned e n' ∧ resting n' (build w t segs) ∧ outputq n' = [].
Proof.
  intros Ht Hpl [Hr Hq Ei] Eo Hw Hsrc (b & Hb). unfold give_fstem, FSTEM_MAX_WORK_UNITS. rewrite Ei, Eo. cbn [app ProcessNextFSteM].
  set (n0 := with_queues _ _ _ _). change (unqueued_output n0) with (unqueued_output n). rewrite (pl_out _ _ Hpl).
  change (haveprobe (probe n0)) with (haveprobe (probe n)). pose proof Hq as (Eh & _). rewrite Eh. cbn [negb].
  unfold FSteMProcessInputTuple. change (haveprobe (probe n0)) with (haveprobe (probe n)). rewrite Eh.
  cbn [negb cassert cbind n0 inputq with_queues EddyGSF.dequeue_iht].
  set (n1 := with_slots _ _ _). change (protostem (ring n1)) with (protostem (ring n)). rewrite Hsrc, (pl_lineage _ _ Hpl).
  destruct (FSteMInsert_ok w segs n1 t temp b Ht Hw Hr Hq Hb) as (r' & p' & E & Hq' & Ep & Hr'). rewrite E. cbn [cbind].
  assert (protostem (ring (reworks n1 r' p')) = protostem (ring n)) as Ep' by exact Ep.
  destruct Hpl as [He Hl (src & Es & Hlt) Hop Hu Hro Hsl Hun].
  assert (∃ n2, (if window_expr_is_valid (window (reworks n1 r' p'))
                 then let! src := STEM_SOURCE (protostem (ring (reworks n1 r' p'))) in
                      Ok (with_last (reworks n1 r' p') (get_timestamp_val_IHT (t_base_tuples t) src))
                 else Ok (reworks n1 r' p')) = Ok n2
    ∧ same_op n n2 ∧ planned e n2 ∧ resting n2 (build w t segs) ∧ outputq n2 = []) as (n2 & E2 & Hrest).
  { rewrite Ep', Es. cbn [cbind].
    destruct (window_expr_is_valid _); eexists; (split; [reflexivity|]); (split; [by constructor|]); (split; [|by split]);
      constructor; try done; exists src; (split; [|done]); by rewrite <- Es; f_equal. }
  rewrite E2. cbn [cbind]. by exists n2.
Qed.

(** what is sent.  A joined tuple is done for the queries that were done with the
    probe and for those of the operator that join on other clauses, and for no
    others; it goes where the plan says. *)
Theorem out_tuple_routes e n t segs c u : planned e n → probe_fits n t segs →
  (c, u) ∈ matches_of t segs (pairs (fstemouterhashkeys n)) →
  routed e (operator n) (source_of n) t (settle n c u) (out_tuple e n t (c, u))
  ∧ ∀ q, q ∈ completed_of (out_tuple e n t (c, u)) ↔ q ∈ completed_of t ∨ (q ∈ usedByQueries n ∧ q ∉ c.2).
Proof.
  intros Hpl Hf Hin. destruct (matches_wf n t segs c u Hf Hin) as [Hu Ec].
  destruct (out_tuple_ok e n t c u Hpl (pf_wf _ _ _ Hf) Hu) as (_ & _ & Hro). split; [done|]. intros q.
  rewrite (ro_completed _ _ _ _ _ _ Hro), <- Ec.
  destruct (done_for_ok (usedByQueries n) c.2 (t_queriesCompleted u)) as [_ Hq]; [apply Hu|apply (pl_used _ _ Hpl)|]. apply Hq.
Qed.

(** ** Tuples of all streams in any order *)

Inductive arrival : Type :=
  | Own (u : IHT HT)
  | Other (t : IHT HT).

(** What the operator answers, one list for each tuple of another stream. *)
Fixpoint run_fstem (fuel spins : nat) e (temp : IHT HT) n (l : list arrival) : cres (list (list (IHT HT)) * fstem) :=
  match l with
  | [] => Ok ([], n)
  | Own u :: l' => let! n1 := give_fstem spins e temp n u in run_fstem fuel spins e temp n1 l'
  | Other t :: l' =>
      let! (a, n1) := ask_fstem fuel spins e temp n t in
      let! (r, n2) := run_fstem fuel spins e temp n1 l' in Ok (a :: r, n2)
  end.

(** What a list of segments answers. *)
Fixpoint run_segs e n (w : option W) segs (l : list arrival) : list (list (IHT HT)) * list (list (IHT HT)) :=
  match l with
  | [] => ([], segs)
  | Own u :: l' => run_segs e n w (build w u segs) l'
  | Other t :: l' => let '(r, segs') := run_segs e n w segs l' in (fstem_answers e n t segs :: r, segs')
  end.

Definition own (l : list arrival) : list (IHT HT) := omap (λ a, match a with Own u => Some u | Other _ => None end) l.

(** Arrivals that the operator can take when it holds tuples of [h]. *)
Record acceptable n (h : list (IHT HT)) (l : list arrival) : Prop := {
  ac_own u : Own u ∈ l → BitArrayEqual (sourceBuiltOn (protostem (ring n))) (t_sources u) TCQMAXSOURCES = true ∧ hashed n u;
  ac_other t : Other t ∈ l → BitArrayEqual (sourceBuiltOn (protostem (ring n))) (t_sources t) TCQMAXSOURCES = false
    ∧ ihtIsPunct HeapTupleIsPunct t = false ∧ probe_fits n t [h ++ (scrub true <$> own l)]
}.

Lemma probe_fits_sub n n' t segs h : same_op n n' → probe_fits n t [h] → (∀ x, x ∈ concat segs → x ∈ h) → probe_fits n' t segs.
Proof.
  intros Hs [H1 H2 H3 H4 H5] Hsub. constructor; rewrite ?(so_keys _ _ Hs), ?(so_proto _ _ Hs); try done.
  intros k c seg Hin Ha Hseg. eapply probes_weaken; [apply (H5 k c h); [done|done|by left]|].
  intros x Hx. apply Hsub, elem_of_concat. by exists seg.
Qed.

Lemma found_length q t h : length (found q t h) ≤ length h.
Proof. unfold found. rewrite length_fmap. etransitivity; [apply length_filter|]. by rewrite length_reverse. Qed.

Lemma matches_length t segs ps : length (matches_of t segs ps) ≤ length ps * length (concat segs).
Proof.
  induction ps as [|[k c] ps IH]; [done|]. change (matches_of t segs ((k, c) :: ps))
    with ((if applies k t then (λ u, (c, u)) <$> concat (found c.1 t <$> segs) else []) ++ matches_of t segs ps).
  rewrite length_app. cbn [length]. enough (length (if applies k t then (λ u, (c, u)) <$> concat (found c.1 t <$> segs) else [])
    ≤ length (concat segs)) by lia.
  destruct (applies k t); [|cbn; lia]. rewrite length_fmap. clear IH. induction segs as [|seg segs IH]; [done|].
  cbn [fmap list_fmap concat]. rewrite !length_app. pose proof (found_length c.1 t seg). lia.
Qed.

Lemma same_op_answers e n n' t segs : same_op n n' → fstem_answers e n' t segs = fstem_answers e n t segs.
Proof.
  intros Hs. unfold fstem_answers, early_out. by rewrite (same_op_out e n n'), (same_op_bounced n n'), (so_keys _ _ Hs), (so_interested _ _ Hs) by done.
Qed.

Lemma same_op_run e n n' w l : same_op n n' → ∀ segs, run_segs e n' w segs l = run_segs e n w segs l.
Proof.
  intros Hs. induction l as [|[u|t] l IH]; intros segs; cbn [run_segs]; [done|by rewrite IH|].
  by rewrite IH, (same_op_answers e n n').
Qed.

Lemma build_in w u segs x : x ∈ concat (build w u segs) → x ∈ concat segs ∨ x = scrub true u.
Proof.
  rewrite concat_build. intros [Hx|Hx%list_elem_of_singleton]%elem_of_app; [left|by right]. destruct w as [w|]; [|done].
  destruct (drop_gone_suffix w u segs) as (pre & E & _). rewrite E, concat_app. apply elem_of_app. by right.
Qed.

Lemma build_length w u segs : length (concat (build w u segs)) ≤ S (length (concat segs)).
Proof.
  rewrite concat_build, length_app. cbn [length]. enough (length (concat (match w with Some w => drop_gone w u segs | None => segs end))
    ≤ length (concat segs)) by lia. destruct w as [w|]; [|done].
  destruct (drop_gone_suffix w u segs) as (pre & E & _). rewrite E at 2. rewrite concat_app, length_app. lia.
Qed.

Lemma run_fstem_ok e temp w h fuel spins : iht_wf temp → ∀ l n segs, planned e n → resting n segs → outputq n = [] → window_of n w →
  (∀ x, x ∈ concat segs → x ∈ h) →
  (∀ u, Own u ∈ l → scrub true u ∈ h ∧ BitArrayEqual (sourceBuiltOn (protostem (ring n))) (t_sources u) TCQMAXSOURCES = true ∧ hashed n u) →
  (∀ t, Other t ∈ l → BitArrayEqual (sourceBuiltOn (protostem (ring n))) (t_sources t) TCQMAXSOURCES = false
     ∧ ihtIsPunct HeapTupleIsPunct t = false ∧ probe_fits n t [h]) →
  length (pairs (fstemouterhashkeys n)) * (length (concat segs) + length l) ≤ spins →
  length (pairs (fstemouterhashkeys n)) * (length (concat segs) + length l) + 2 ≤ fuel →
  ∃ n', run_fstem fuel spins e temp n l = Ok ((run_segs e n w segs l).1, n') ∧ same_op n n' ∧ planned e n'
    ∧ resting n' (run_segs e n w segs l).2 ∧ outputq n' = [].
Proof.
  intros Ht. induction l as [|[u|t] l IH]; intros n segs Hpl Hr Eo Hw Hsub Hown Hoth Hsp Hfu; cbn [run_fstem run_segs].
  - exists n. split; [done|]. split; [by constructor|done].
  - destruct (Hown u) as (Huh & Hsrc & Hha); [by left|].
    destruct (give_fstem_ok spins e temp n w u segs Ht Hpl Hr Eo Hw Hsrc Hha) as (n1 & E1 & Hs & Hp1 & Hr1 & Eo1). rewrite E1. cbn [cbind].
    pose proof (build_length w u segs) as Hbl. cbn [length] in *.
    destruct (IH n1 (build w u segs) Hp1 Hr1 Eo1) as (n2 & E2 & Hs2 & Hrest); rewrite ?(so_proto _ _ Hs), ?(so_keys _ _ Hs).
    + unfold window_of. by rewrite (so_window _ _ Hs).
    + intros x [Hx| ->]%build_in; [by apply Hsub|done].
    + intros u' Hu'. unfold hashed. rewrite (so_proto _ _ Hs). apply Hown. by right.
    + intros t Hin. destruct (Hoth t) as (H1 & H2 & H3); [by right|]. split; [done|]. split; [done|].
      apply (probe_fits_sub n n1 t [h] h Hs H3). intros x. cbn [concat]. by rewrite app_nil_r.
    + etransitivity; [|exact Hsp]. apply Nat.mul_le_mono_l. lia.
    + etransitivity; [|exact Hfu]. apply Nat.add_le_mono_r, Nat.mul_le_mono_l. lia.
    + rewrite (same_op_run e n n1) in E2, Hrest by done. exists n2. split; [done|]. split; [by eapply same_op_trans|done].
  - destruct (Hoth t) as (Hsrc & Hpu & Hf); [by left|].
    pose proof (matches_length t segs (pairs (fstemouterhashkeys n))) as Hml. cbn [length] in *.
    assert (length (pairs (fstemouterhashkeys n)) * length (concat segs)
      ≤ length (pairs (fstemouterhashkeys n)) * (length (concat segs) + S (length l))) as Hmul by (apply Nat.mul_le_mono_l; lia).
    destruct (ask_fstem_ok e temp n t segs fuel spins Hpl Hr Eo) as (n1 & E1 & Hs & Hp1 & Hr1 & Eo1);
      [by apply (probe_fits_sub n n t segs h); [by constructor| |]|done|done|lia|lia|].
    rewrite E1. cbn [cbind].
    destruct (IH n1 segs Hp1 Hr1 Eo1) as (n2 & E2 & Hs2 & Hrest); rewrite ?(so_proto _ _ Hs), ?(so_keys _ _ Hs).
    + unfold window_of. by rewrite (so_window _ _ Hs).
    + done.
    + intros u' Hu'. unfold hashed. rewrite (so_proto _ _ Hs). apply Hown. by right.
    + intros t' Hin. destruct (Hoth t') as (H1 & H2 & H3); [by right|]. split; [done|]. split; [done|].
      apply (probe_fits_sub n n1 t' [h] h Hs H3). intros x. cbn [concat]. by rewrite app_nil_r.
    + etransitivity; [|exact Hsp]. apply Nat.mul_le_mono_l. lia.
    + etransitivity; [|exact Hfu]. apply Nat.add_le_mono_r, Nat.mul_le_mono_l. lia.
    + rewrite E2. cbn [cbind]. rewrite (same_op_run e n n1) in * by done. destruct (run_segs e n w segs l) as [r segs'].
      exists n2. split; [done|]. split; [by eapply same_op_trans|done].
Qed.

(** C12: an FSteM is the list of its segments.  Called as the eddy calls it, with tuples
    of its own stream to build and tuples of other streams to match, in any order,
    it fails never and answers each of the others exactly as the list of segments
    does that the tuples built so far leave: for every join key and every set of
    clauses that can be applied the joined tuples that some query wants, and last
    the tuple itself, done for the queries of the operator. *)
Theorem FSteM_refines_segments e temp w n segs l fuel spins : iht_wf temp → planned e n → resting n segs → outputq n = [] →
  window_of n w → acceptable n (concat segs) l →
  length (pairs (fstemouterhashkeys n)) * (length (concat segs) + length l) ≤ spins → spins + 2 ≤ fuel →
  ∃ n', run_fstem fuel spins e temp n l = Ok ((run_segs e n w segs l).1, n') ∧ same_op n n' ∧ planned e n'
    ∧ resting n' (run_segs e n w segs l).2 ∧ outputq n' = [].
Proof.
  intros Ht Hpl Hr Eo Hw [Hown Hoth] Hsp Hfu.
  apply (run_fstem_ok e temp w (concat segs ++ (scrub true <$> own l))); try done; [| |lia].
  - intros x Hx. apply elem_of_app. by left.
  - intros u Hu. split; [|by apply Hown]. apply elem_of_app. right. apply list_elem_of_fmap. exists u. split; [done|].
    apply list_elem_of_omap. by exists (Own u).
Qed.
End answer.
End FStemAnswer.
