(* ===== verification/FStemDemo.v ===== *)
(** * State modules on concrete tuples

    Tuples of a key and a time; the SteM is built on stream 0 and probed with
    tuples of stream 1 that have the same key. *)

From S2P Require Import Prelude BitArray Hash Eddy EddySpec GSFilter EddyGSF Stem StemSpec FStem FStemRing FStemWindow FStemProbe FStemJoin FStemAnswer.

Module FStemDemo.
Import Bit Eddy EddySpec Stem StemSpec FStem FStemRing FStemWindow FStemProbe FStemJoin FStemAnswer.

Local Abbreviation tup := (Z * Z)%type.

#[global] Instance demo_stem_env : StemEnv tup nat (nat * nat) := {|
  ExecEvalKey src b := match b !! src with Some (Some a) => Some (Hash.ByVal a.1) | _ => None end;
  get_typlenbyval _ := (8%Z, true);
  ExecQual q stored probe :=
    match stored !! q.1, probe !! q.2 with Some (Some a), Some (Some b) => (a.1 =? b.1)%Z | _, _ => false end;
  tuple_bytes a := [a.1; a.2]
|}.

#[global] Instance demo_env : FStemEnv tup nat (nat * nat) Z Z := {|
  stem_env := demo_stem_env;
  pull_var_clause src := [S src];
  ts_accessor_value b := match b !! 0 with Some (Some a) => a.2 | _ => 0%Z end;
  get_timestamp_val_IHT b src := match b !! src with Some (Some a) => a.2 | _ => 0%Z end;
  ts_minus := Z.sub;
  w_div w n := (w / Z.of_nat n)%Z;
  w_lt := Z.ltb;
  w_gt a b := Z.gtb a b;
  HeapTupleIsPunct a := (a.1 <? 0)%Z;
  form_punct_tup ts := (-1, ts)%Z;
  form_punct_tup_no_ts := (-1, 0)%Z
|}.

#[global] Instance demo_laws : WindowLaws (HT := tup) (N := nat) (Q := nat * nat) (TS := Z) (W := Z).
Proof.
  refine {| tsv := (λ z, z) : Z → Z; wv := (λ z, z) : Z → Z |}; [done|done|].
  intros a b. cbn. apply Z.gtb_ltb.
Defined.

Definition zeros (n : nat) : BitArray := replicate (BASIZE n) 0%Z.
Definition tuple (src : nat) (a : tup) : IHT tup :=
  mkIHT (<[src := Some a]> (replicate 64 None)) (BitArraySetBit (zeros 64) src) (zeros 96) (zeros 96) (zeros 128) false.
Definition blank : IHT tup := mkIHT (replicate 64 None) (zeros 64) (zeros 96) (zeros 96) (zeros 128) false.

Lemma zeros_wf n : wf n (zeros n).
Proof. split; [by unfold zeros; rewrite length_replicate|]. by apply Forall_replicate. Qed.

Lemma tuple_wf_demo src a : src < 64 → iht_wf (tuple src a).
Proof.
  intros Hs. constructor; [constructor; apply zeros_wf|apply SetBit_wf; [done|apply zeros_wf]|]. cbn [t_base_tuples tuple].
  by rewrite length_insert, length_replicate.
Qed.

Lemma blank_wf : iht_wf blank.
Proof. constructor; [constructor; apply zeros_wf|apply zeros_wf|done]. Qed.

Definition stem0 : SteM tup nat (nat * nat) :=
  mkSteM 0 1 (0, 1) (BitArraySetBit (zeros 64) 0)
    (mkState (ExecSteMHashTableCreate 0) 0 None None true blank 0 0 0 [] None None false None None 0).

Lemma demo_lookup src src' a : src < 64 → t_base_tuples (tuple src a) !! src' = if decide (src = src') then Some (Some a) else if decide (src' < 64) then Some None else None.
Proof.
  intros Hs. cbn [t_base_tuples tuple]. destruct (decide (src = src')) as [<-|Hne].
  - apply list_lookup_insert_eq. by rewrite length_replicate.
  - rewrite list_lookup_insert_ne by done. destruct (decide (src' < 64)); [by apply lookup_replicate_2|]. apply lookup_ge_None. rewrite length_replicate. lia.
Qed.

Definition demo_number (k : Z) : cres nat := key_bucket 0 0 (t_base_tuples (tuple 0 (k, 0%Z))).

Lemma demo_bucket src a : src < 64 → key_bucket 0 src (t_base_tuples (tuple src a)) = demo_number a.1.
Proof.
  intros Hs. unfold demo_number, key_bucket, bucket_of, ExecSteMHashGetBucket. cbn [t_base_tuples].
  cbn [ExecEvalKey demo_stem_env]. rewrite !demo_lookup by (done || lia). rewrite !decide_True by done. done.
Qed.

Lemma demo_number_ok k : ∃ b, demo_number k = Ok b.
Proof.
  unfold demo_number, key_bucket, bucket_of, ExecSteMHashGetBucket. cbn [t_base_tuples ExecEvalKey demo_stem_env].
  rewrite demo_lookup by lia. rewrite decide_True by done. by eexists.
Qed.

Lemma demo_probes t h : Forall (λ u, ∃ a, t_base_tuples u = t_base_tuples (tuple 0 a) ∧ iht_wf u) h → probes stem0 1 (0, 1) (tuple 1 t) h.
Proof.
  rewrite Forall_forall. intros Hh. constructor.
  - apply tuple_wf_demo; lia.
  - destruct (demo_number_ok t.1) as (b & E). exists b. change (innerhashkey stem0) with 0. by rewrite demo_bucket by lia.
  - intros u Hu. by destruct (Hh u Hu) as (a & _ & ?).
  - intros u Hu. destruct (Hh u Hu) as (a & -> & _). change (innerhashkey stem0) with 0. rewrite !demo_bucket by lia.
    cbn [ExecQual demo_stem_env fst snd]. rewrite !demo_lookup by lia. rewrite !decide_True by done. intros E%Z.eqb_eq.
    split; [|by rewrite E]. intros i (x & Hx) (y & Hy). rewrite demo_lookup in Hx, Hy by lia.
    repeat case_decide; subst; done.
Qed.

Definition demo_ops : list (op (HT := tup) (N := nat) (Q := nat * nat)) :=
  [Build (tuple 0 (5, 1)%Z); Probe 1 (0, 1) (tuple 1 (5, 7)%Z); Build (tuple 0 (6, 2)%Z); Build (tuple 0 (5, 3)%Z);
   Probe 1 (0, 1) (tuple 1 (5, 8)%Z); Probe 1 (0, 1) (tuple 1 (9, 9)%Z)].

Lemma demo_usable : usable stem0 demo_ops.
Proof.
  constructor.
  - intros u Hu. assert (∃ a, u = tuple 0 a) as (a & ->).
    { cbn in Hu. rewrite !elem_of_cons, elem_of_nil in Hu. destruct Hu as [->|[->|[->|[]]]]; by eexists. }
    split; [apply tuple_wf_demo; lia|]. change (innerhashkey stem0) with 0. rewrite demo_bucket by lia. apply demo_number_ok.
  - intros k q t Hin. assert (∃ a, (k, q, t) = (1, (0, 1), tuple 1 a)) as (a & [= -> -> ->]).
    { unfold demo_ops in Hin. rewrite !elem_of_cons, elem_of_nil in Hin.
      destruct Hin as [Hin|[Hin|[Hin|[Hin|[Hin|[Hin|[]]]]]]]; try discriminate; injection Hin as -> -> ->; by eexists. }
    apply demo_probes. cbn [built demo_ops omap list_omap fmap list_fmap].
    repeat (constructor; [eexists; split; [reflexivity|apply scrub_wf, tuple_wf_demo; lia]|]). constructor.
Qed.

Lemma SteM_refines_list_witness :
  ∃ s, run 7 demo_ops (ExecInitSteM stem0 blank) = Ok ((list_run demo_ops []).1, s) ∧ idle stem0 s (list_run demo_ops []).2
    ∧ (list_run demo_ops []).2 = scrub true <$> built demo_ops.
Proof. apply (SteM_refines_list stem0 blank 7 demo_ops); [apply blank_wf|apply demo_usable|cbn; lia]. Defined.

(** The second probe finds the two tuples with its key, the newer one first. *)
Example demo_answers : map (map t_base_tuples) (list_run demo_ops []).1
  = map (map t_base_tuples) [[joined (tuple 1 (5, 7)%Z) (tuple 0 (5, 1)%Z)];
       [joined (tuple 1 (5, 8)%Z) (tuple 0 (5, 3)%Z); joined (tuple 1 (5, 8)%Z) (tuple 0 (5, 1)%Z)]; []].
Proof. by vm_compute. Qed.

(** ** An FSteM *)

(** Two queries: the first joins on the keys, the second only reads the stream. *)
Definition demo_keys : list (FSteMOuterHashkey nat (nat * nat)) := [(1, [((0, 1), [4])])].

Definition demo_bits : EddyBits :=
  mkBits (replicate 64 (zeros 96)) (replicate 64 (zeros 96)) (zeros 96) [] true false.

(** The FSteM of stream 0 over a window of ten units of time, as operator 3. *)
Definition demo_fstem (r : Ring tup nat (nat * nat)) (w : WindowExprs (W := Z)) : FSteM tup nat (nat * nat) Z Z :=
  mkFSteM r w (mkProbe false false false [] [] false false) demo_keys [4; 9]
    (BitArraySetAll (zeros 128) 128) 3 0%Z None blank None 8 [] [].

Lemma fstem_ring : ∃ r, protostem r = ExecInitSteM stem0 blank ∧ ring_holds r [[]].
Proof. destruct (ProcessInitFSteM_ok stem0 blank demo_keys 3 0%Z 8 blank blank_wf) as (r & E & Hr & _). by exists r. Qed.

Definition ten : WindowExprs (W := Z) := mkWindow true (Some 10%Z) (Some 10%Z) (Some 10%Z) true.

Lemma demo_at_rest r : ring_holds r [[]] → at_rest (demo_fstem r ten) (Some 10%Z) [[]].
Proof. intros Hr. constructor; [done|exact Hr|done]. Qed.

Definition demo_stream : list (IHT tup) := tuple 0 <$> [(5, 1); (6, 4); (5, 7); (5, 9); (6, 14); (5, 26)]%Z.

Lemma demo_stream_hashed r w u : protostem r = ExecInitSteM stem0 blank → u ∈ demo_stream → hashed (demo_fstem r w) u.
Proof.
  intros Hp (a & -> & _)%list_elem_of_fmap. unfold hashed. cbn [ring demo_fstem]. rewrite Hp.
  change (innerhashkey (ExecInitSteM stem0 blank)) with 0. rewrite demo_bucket by lia. apply demo_number_ok.
Qed.

Lemma demo_in_order : in_order demo_stream.
Proof.
  unfold in_order, demo_stream. cbn [fmap list_fmap].
  repeat (constructor; [|repeat (constructor; [by vm_compute|]); by constructor]). constructor.
Qed.

Lemma FSteM_keeps_window_witness :
  ∃ r n' segs' lost, insert_all blank (demo_fstem r ten) demo_stream = Ok n' ∧ at_rest n' (Some 10%Z) segs'
    ∧ concat [[]] ++ (scrub true <$> demo_stream) = lost ++ concat segs' ∧ last (concat segs') = Some (scrub true (tuple 0 (5, 26)%Z))
    ∧ ∀ u, u ∈ lost → (wv 10 < time (tuple 0 (5, 26)%Z) - time u)%Z.
Proof.
  destruct fstem_ring as (r & Hp & Hr). exists r.
  apply (FSteM_keeps_window blank 10%Z demo_stream); [apply blank_wf|by apply demo_at_rest| |apply demo_in_order|done].
  intros u Hu. by apply demo_stream_hashed.
Defined.

Lemma FSteM_bounds_age_witness :
  ∃ r n' segs', insert_all blank (demo_fstem r ten) demo_stream = Ok n' ∧ at_rest n' (Some 10%Z) segs'
    ∧ Forall (λ seg, seg ≠ [] ∧ ∀ u u', u ∈ seg → u' ∈ seg → (Z.abs (time u - time u') < wv (w_div 10 2))%Z) segs'
    ∧ ∀ u, u ∈ concat segs' → (time (tuple 0 (5, 26)%Z) - time u < wv 10 + wv (w_div 10 2))%Z.
Proof.
  destruct fstem_ring as (r & Hp & Hr). exists r.
  apply (FSteM_bounds_age blank 10%Z demo_stream); [apply blank_wf|done|done|by apply demo_at_rest| |apply demo_in_order|done].
  intros u Hu. by apply demo_stream_hashed.
Defined.

Lemma AddWindowFSteM_compares_with_first_witness :
  ∃ r n', add_windows (SetTimestampAccessorFSteM (demo_fstem r (mkWindow false None None None false))) [10; 30; 20]%Z = Ok n'
    ∧ window_of n' (Some (in_force 10%Z [30; 20]%Z)) ∧ in_force 10%Z [30; 20]%Z = 20%Z.
Proof.
  destruct fstem_ring as (r & Hp & Hr). exists r.
  destruct (AddWindowFSteM_compares_with_first (demo_fstem r (mkWindow false None None None false)) 10%Z [30; 20]%Z) as (n' & E & Hw); [done|].
  exists n'. split; [exact E|]. split; [exact Hw|done].
Defined.

Definition demo_arrivals : list (arrival (HT := tup)) :=
  [Own (tuple 0 (5, 1)%Z); Own (tuple 0 (6, 4)%Z); Other (tuple 1 (5, 4)%Z); Own (tuple 0 (5, 7)%Z); Other (tuple 1 (5, 8)%Z);
   Own (tuple 0 (5, 26)%Z); Other (tuple 1 (5, 26)%Z)].

Lemma demo_planned r w : protostem r = ExecInitSteM stem0 blank → planned demo_bits (demo_fstem r w).
Proof.
  intros Hp. constructor; cbn [demo_fstem ring operator usedByQueries room oiht unqueued_output]; try done.
  - constructor; cbn [demo_bits operators sourceStems eventOperators pjolist].
    1,2: intros i Hi; exists (zeros 96); split; [by apply lookup_replicate_2|apply zeros_wf].
    + apply zeros_wf.
    + by intros s b ?%elem_of_nil.
  - exists 0. rewrite Hp. split; [by vm_compute|lia].
  - lia.
  - intros q. rewrite !elem_of_cons, elem_of_nil. lia.
  - lia.
  - apply blank_wf.
Qed.

Lemma demo_probe_fits r w a h : protostem r = ExecInitSteM stem0 blank →
  Forall (λ u, ∃ a, t_base_tuples u = t_base_tuples (tuple 0 a) ∧ iht_wf u) h → probe_fits (demo_fstem r w) (tuple 1 a) [h].
Proof.
  intros Hp Hh. constructor; cbn [demo_fstem fstemouterhashkeys ring].
  - apply tuple_wf_demo; lia.
  - done.
  - by constructor.
  - intros k c Hin. cbn in Hin. apply list_elem_of_singleton in Hin as [= -> ->]. exists true.
    unfold can_be_applied. cbn [pull_var_clause demo_env have_vars Nat.eqb]. rewrite demo_lookup by lia. done.
  - intros k c seg Hin _ ->%list_elem_of_singleton. cbn in Hin. apply list_elem_of_singleton in Hin as [= -> ->].
    rewrite Hp. destruct (demo_probes a h Hh) as [H1 H2 H3 H4]. constructor; [done|exact H2|done|exact H4].
Qed.

Lemma demo_acceptable r w : protostem r = ExecInitSteM stem0 blank → acceptable (demo_fstem r w) (concat [[]]) demo_arrivals.
Proof.
  intros Hp. constructor; cbn [demo_fstem ring]; rewrite Hp.
  - intros u Hin. assert (∃ a, u = tuple 0 a) as (a & ->).
    { unfold demo_arrivals in Hin. rewrite !elem_of_cons, elem_of_nil in Hin.
      destruct Hin as [Hin|[Hin|[Hin|[Hin|[Hin|[Hin|[Hin|[]]]]]]]]; try discriminate; injection Hin as ->; by eexists. }
    split; [by vm_compute|]. unfold hashed. cbn [demo_fstem ring]. rewrite Hp.
    change (innerhashkey (ExecInitSteM stem0 blank)) with 0. rewrite demo_bucket by lia. apply demo_number_ok.
  - intros t Hin. assert (∃ a, t = tuple 1 a ∧ (a.1 <? 0)%Z = false) as (a & -> & Ha).
    { unfold demo_arrivals in Hin. rewrite !elem_of_cons, elem_of_nil in Hin.
      destruct Hin as [Hin|[Hin|[Hin|[Hin|[Hin|[Hin|[Hin|[]]]]]]]]; try discriminate; injection Hin as ->; by eexists. }
    split; [by vm_compute|]. split; [|apply demo_probe_fits; [done|]].
    + unfold ihtIsPunct. cbn [tuple t_base_tuples replicate insert list_insert existsb HeapTupleIsPunct demo_env]. rewrite Ha. by vm_compute.
    + cbn [own demo_arrivals omap list_omap fmap list_fmap concat app].
      repeat (constructor; [eexists; split; [reflexivity|apply scrub_wf, tuple_wf_demo; lia]|]). constructor.
Qed.

Lemma fstem_resting r w : ring_holds r [[]] → FStemAnswer.resting (demo_fstem r w) [[]].
Proof. intros Hr. by constructor. Qed.

Lemma FSteM_refines_segments_witness :
  ∃ r n', run_fstem 9 7 demo_bits blank (demo_fstem r ten) demo_arrivals
      = Ok ((run_segs demo_bits (demo_fstem r ten) (Some 10%Z) [[]] demo_arrivals).1, n')
    ∧ same_op (demo_fstem r ten) n' ∧ planned demo_bits n'
    ∧ FStemAnswer.resting n' (run_segs demo_bits (demo_fstem r ten) (Some 10%Z) [[]] demo_arrivals).2 ∧ outputq n' = [].
Proof.
  destruct fstem_ring as (r & Hp & Hr). exists r.
  apply (FSteM_refines_segments demo_bits blank (Some 10%Z) (demo_fstem r ten) [[]] demo_arrivals 9 7);
    [apply blank_wf|by apply demo_planned|by apply fstem_resting|done|done|by apply demo_acceptable|cbn; lia|lia].
Defined.

(** A probe that finds the one tuple stored. *)
Lemma out_tuple_routes_witness :
  ∃ r, let n := demo_fstem r ten in let t := tuple 1 (5, 4)%Z in
    let u := joined t (scrub true (tuple 0 (5, 1)%Z)) in
    routed demo_bits (operator n) (source_of n) t (settle n ((0, 1), [4]) u) (out_tuple demo_bits n t (((0, 1), [4]), u))
    ∧ ∀ q, q ∈ completed_of (out_tuple demo_bits n t (((0, 1), [4]), u)) ↔ q ∈ completed_of t ∨ (q ∈ usedByQueries n ∧ q ∉ [4]).
Proof.
  destruct fstem_ring as (r & Hp & Hr). exists r. cbv zeta.
  apply (out_tuple_routes demo_bits (demo_fstem r ten) (tuple 1 (5, 4)%Z) [[scrub true (tuple 0 (5, 1)%Z)]] ((0, 1), [4])).
  - by apply demo_planned.
  - apply demo_probe_fits; [done|]. constructor; [|constructor]. eexists. split; [reflexivity|apply scrub_wf, tuple_wf_demo; lia].
  - assert (applies 1 (tuple 1 (5, 4)%Z) = true) as Ha by (by vm_compute). unfold matches_of. cbn [pairs demo_keys demo_fstem fstemouterhashkeys mbind list_bind fmap list_fmap app].
    rewrite Ha. unfold found. cbn [fmap list_fmap concat reverse rev_append app]. rewrite filter_cons, decide_True by (by vm_compute). by left.
Defined.
End FStemDemo.
