(* ===== verification/EddyModules.v ===== *)
(** * The continuous-query eddy over filters and state modules

    The array of modules of an eddy with both kinds of operators: grouped
    selection filters ([EddyGSF]) and FSteMs ([FStem]).  The eddy calls them
    through the same functions ([ProcessNextNode], [ProcessRemoveQuery] and
    [FjordInitialize] of [src/src/backend/executor/processNode.c] switch on the
    type of the node); here the sum of the two types is an instance of [Fjord],
    and it meets the laws of [EddySpec] for the tuples it can take. *)

From S2P Require Import Prelude BitArray GSFilter GSFilterNode Eddy EddyLoop EddySpec EddyGSF Stem StemSpec FStem FStemRing FStemWindow FStemProbe FStemJoin FStemAnswer.

Module EddyModules.
Import Bit Eddy EddySpec EddyGSF Stem StemSpec FStem FStemRing FStemWindow FStemProbe FStemJoin FStemAnswer.
#[local] Opaque bits_of below.

Section modules.
Context {V C HT N Q TS W : Type} `{EqDecision C} `{!Tuples V N HT} `{!FStemEnv HT N Q TS W}.
Local Abbreviation gsf := (GSFModule V C N HT).
Local Abbreviation fstem := (FSteM HT N Q TS W).

Inductive module : Type :=
  | AGSFilter (g : gsf)
  | AnFSteM (n : fstem).

(** What the FSteMs see of the eddy, the bound of their inner loop, and what new
    memory holds. *)
Context (e : EddyBits) (spins : nat) (temp : IHT HT).

Definition fstem_enq (n : fstem) (t : IHT HT) : bool * fstem :=
  let '(b, q) := enqueue_iht (FStem.room n) (inputq n) t in (b, with_queues n (unqueued_output n) q (outputq n)).
Definition fstem_deq (n : fstem) : option (IHT HT) * fstem :=
  let '(o, q) := dequeue_iht (outputq n) in (o, with_queues n (unqueued_output n) (inputq n) q).

#[global] Instance module_fjord : Fjord module HT := {|
  fjord_enq_inp m t :=
    match m with
    | AGSFilter g => let! (b, g') := fjord_enq_inp g t in Ok (b, AGSFilter g')
    | AnFSteM n => let '(b, n') := fstem_enq n t in Ok (b, AnFSteM n')
    end;
  ProcessNextNode m :=
    match m with
    | AGSFilter g => let! g' := ProcessNextNode g in Ok (AGSFilter g')
    | AnFSteM n => let! n' := ProcessNextFSteM FSTEM_MAX_WORK_UNITS spins e temp n in Ok (AnFSteM n')
    end;
  fjord_deq_out m :=
    match m with
    | AGSFilter g => let! (o, g') := fjord_deq_out g in Ok (o, AGSFilter g')
    | AnFSteM n => let '(o, n') := fstem_deq n in Ok (o, AnFSteM n')
    end;
  ProcessRemoveQuery m q :=
    match m with
    | AGSFilter g => let! (last, g') := ProcessRemoveQuery g q in Ok (last, AGSFilter g')
    | AnFSteM n => let! (last, n') := ProcessRemoveQueryFSteM n q in Ok (last, AnFSteM n')
    end;
  fjord_usedByQueries m :=
    match m with AGSFilter g => GSF.usedByQueries (filter g) | AnFSteM n => FStem.usedByQueries n end;
  isFAgg _ := false;
  Eddy.FSteMContainsTuple m t :=
    match m with AGSFilter _ => Fail Undefined | AnFSteM n => FStem.FSteMContainsTuple n t end
|}.

(** ** An FSteM between two calls *)

Implicit Types (n : fstem) (t u : IHT HT) (segs : list (list (IHT HT))).

(** The operator [n0] with the segments [segs], with [p] left to answer. *)
Definition fstem_left n0 segs n (p : option (list (IHT HT))) : Prop :=
  same_op n0 n ∧ planned e n ∧ outputq n = []
  ∧ match p with
    | None => resting n segs
    | Some p => (resting n segs ∧ p = [])
        ∨ ∃ t L, busy e n t segs L ∧ length L ≤ spins ∧ p = outs e n0 t L ++ bounced n0 t
    end.

Lemma deq_out n l : outputq n = l → fstem_deq n = (hd_error l, with_queues n (unqueued_output n) (inputq n) (tail l)).
Proof. intros E. unfold fstem_deq. rewrite E. by destruct l. Qed.

(** A rest of at most one answer, after which there is none. *)
Lemma last_answer n0 n segs l : same_op n0 n → planned e n → resting n segs → outputq n = l → length l ≤ 1 →
  ∃ n', fstem_deq n = (hd_error l, n') ∧ fstem_left n0 segs n' (rest l).
Proof.
  intros Hs Hpl Hr Eo Hl. destruct l as [|o [|? ?]]; [| |cbn in Hl; lia];
    (eexists; split; [by apply deq_out|]); cbn [hd_error tail].
  all: change (with_queues n (unqueued_output n) (inputq n) []) with (taken n).
  all: split; [by eapply same_op_trans; [|apply taken_same]|]; split; [by apply taken_planned|]; split; [done|].
  - by apply taken_resting.
  - left. split; [by apply taken_resting|done].
Qed.

Lemma generate_next n0 n t segs L : same_op n0 n → busy e n t segs L → outputq n = [] → length L ≤ spins →
  ∃ n1 n2, generate_loop spins e n = Ok n1 ∧ fstem_deq n1 = (hd_error (outs e n0 t L ++ bounced n0 t), n2)
    ∧ fstem_left n0 segs n2 (rest (outs e n0 t L ++ bounced n0 t)).
Proof.
  intros Hs Hb Eo Hl. pose proof (generate_loop_ok e t segs L spins n Hb Eo Hl) as H.
  rewrite (same_op_out e n0 n) in H by done. destruct (outs e n0 t L) as [|o os] eqn:Eout; cbn [app].
  - destruct H as (n1 & E1 & Hs1 & Hp1 & Hr1 & Eo1). rewrite (same_op_bounced n0 n) in Eo1 by done.
    destruct (last_answer n0 n1 segs _ (same_op_trans _ _ _ Hs Hs1) Hp1 Hr1 Eo1 (bounced_length _ _)) as (n2 & E2 & Hleft).
    by exists n1, n2.
  - destruct H as (n1 & L' & E1 & Hs1 & Hb1 & Eo1 & Eos & Hlen). exists n1, (taken n1). split; [done|]. split; [by apply deq_out in Eo1|].
    assert (same_op n0 n1) as Hs01 by (by eapply same_op_trans).
    split; [by eapply same_op_trans; [|apply taken_same]|]. split; [apply taken_planned, Hb1|]. split; [done|]. right.
    exists t, L'. split; [by apply taken_busy|]. split; [lia|]. rewrite <- Eos. by rewrite (same_op_out e n0 n).
Qed.

(** What the operator can take. *)
Record takes n0 segs t : Prop := {
  tk_fits : probe_fits n0 t segs;
  tk_other : BitArrayEqual (sourceBuiltOn (protostem (ring n0))) (t_sources t) TCQMAXSOURCES = false;
  tk_tuple : ihtIsPunct FStem.HeapTupleIsPunct t = false;
  tk_spins : length (matches_of t segs (pairs (fstemouterhashkeys n0))) ≤ spins
}.

Lemma same_op_fits n0 n t segs : same_op n0 n → probe_fits n0 t segs → probe_fits n t segs.
Proof. intros Hs [H1 H2 H3 H4 H5]. constructor; rewrite ?(so_keys _ _ Hs), ?(so_proto _ _ Hs); done. Qed.

Lemma fstem_feed n0 n segs t : fstem_left n0 segs n None → takes n0 segs t →
  ∃ b n1 n2 n3, fstem_enq n t = (b, n1) ∧ ProcessNextFSteM FSTEM_MAX_WORK_UNITS spins e temp n1 = Ok n2
    ∧ fstem_deq n2 = (hd_error (fstem_answers e n0 t segs), n3) ∧ fstem_left n0 segs n3 (rest (fstem_answers e n0 t segs)).
Proof.
  intros (Hs & Hpl & Eo & Hr) [Hf Hsrc Hpu Hsp].
  pose proof (take_input_ok e temp n t segs Hpl Hr Eo (same_op_fits _ _ _ _ Hs Hf)) as Hin.
  rewrite (so_proto _ _ Hs) in Hin. specialize (Hin Hsrc Hpu). cbv zeta in Hin. set (n1 := with_queues _ _ _ _) in Hin.
  exists true, n1. unfold fstem_enq, enqueue_iht. rewrite (rs_inputq _ _ Hr), Eo. rewrite decide_True by (apply (pl_room _ _ Hpl)).
  unfold FSTEM_MAX_WORK_UNITS. cbn [ProcessNextFSteM].
  assert (unqueued_output n1 = None ∧ haveprobe (probe n1) = false) as [Eu Eh] by (split; [apply (pl_out _ _ Hpl)|apply (rs_quiet _ _ Hr)]).
  rewrite Eu, Eh. cbn [negb]. unfold fstem_answers.
  assert (early_out e n t = early_out e n0 t) as Ee by (unfold early_out; by rewrite (so_interested _ _ Hs)). rewrite Ee in Hin.
  destruct (early_out e n0 t).
  - destruct Hin as (n2 & E2 & Hs2 & Hp2 & Hr2 & Eo2). rewrite E2. cbn [cbind].
    destruct (last_answer n0 n2 segs [t] (same_op_trans _ _ _ Hs Hs2) Hp2 Hr2 Eo2 ltac:(done)) as (n3 & E3 & Hleft).
    exists n2, n3. split; [done|]. split; [done|]. split; [done|]. exact Hleft.
  - destruct Hin as (n2 & E2 & Hs2 & Eo2 & Hb). rewrite E2. cbn [cbind]. rewrite (so_keys _ _ Hs) in Hb.
    destruct (generate_next n0 n2 t segs _ (same_op_trans _ _ _ Hs Hs2) Hb Eo2 Hsp) as (n3 & n4 & E3 & E4 & Hleft).
    exists n3, n4. split; [done|]. rewrite E3. cbn [cbind]. split; [done|]. by split.
Qed.

Lemma fstem_drain n0 n segs p : fstem_left n0 segs n (Some p) →
  ∃ n2 n3, ProcessNextFSteM FSTEM_MAX_WORK_UNITS spins e temp n = Ok n2 ∧ fstem_deq n2 = (hd_error p, n3)
    ∧ fstem_left n0 segs n3 (rest p).
Proof.
  intros (Hs & Hpl & Eo & [[Hr ->]|(t & L & Hb & Hl & ->)]).
  - rewrite (Process_resting spins e temp n segs Hpl Hr). exists n.
    destruct (last_answer n0 n segs [] Hs Hpl Hr Eo ltac:(cbn; lia)) as (n3 & E & Hleft). by exists n3.
  - rewrite (Process_busy spins e temp n t segs L Hb).
    destruct (generate_next n0 n t segs L Hs Hb Eo Hl) as (n2 & n3 & E2 & E3 & Hleft). by exists n2, n3.
Qed.

(** ** The laws *)

(** The operators as they were planned, and what the FSteMs hold. *)
Context (ms : nat → module) (contents : nat → list (list (IHT HT))) (live : gset nat).
Context (fits : IHT HT → Prop).

Definition stands (m : module) (i : nat) (p : option (list (IHT HT))) : Prop :=
  i ∈ live ∧ match ms i, m with
             | AGSFilter g0, AGSFilter g => answers_next g0 g p
             | AnFSteM n0, AnFSteM n => fstem_left n0 (contents i) n p
             | _, _ => False
             end.

Definition asked (i : nat) (t : IHT HT) : list (IHT HT) :=
  match ms i with
  | AGSFilter g => EddyGSF.answers g t
  | AnFSteM n => fstem_answers e n t (contents i)
  end.

(** What the tuples in flight have to satisfy for the operators to take them. *)
Record fitting : Prop := {
  fg_filter i g : i ∈ live → ms i = AGSFilter g → module_ok g;
  fg_takes i n t : i ∈ live → ms i = AnFSteM n → good live fits t → i ∈ ready_of t → takes n (contents i) t;
  fg_child i t u : i ∈ live → good live fits t → i ∈ ready_of t → u ∈ asked i t → child live fits i t u;
  fg_completed t c : fits t → wf 128 c → completed_of t ⊆ bits_of 128 c → fits (with_completed t c)
}.

Lemma stands_laws : fitting → ModuleLaws live asked fits stands.
Proof.
  intros Hfg. constructor; [| | |by apply fg_completed|done].
  - intros m i t (Hl & Hm) Hg Hi. unfold asked. destruct (ms i) as [g0|n0] eqn:Ei, m as [g|n]; try done; cbn [fjord_enq_inp module_fjord ProcessNextNode fjord_deq_out].
    + destruct (filter_feed g0 g t (fg_filter Hfg i g0 Hl Ei) Hm (twf_completed _ (good_wf _ _ _ Hg))) as (b & m1 & m2 & m3 & E1 & E2 & E3 & Hr).
      exists b, (AGSFilter m1), (AGSFilter m2), (AGSFilter m3). cbn [fjord_enq_inp gsf_fjord fjord_deq_out ProcessNextNode] in *.
      rewrite E1. cbn [cbind]. rewrite E2. cbn [cbind]. rewrite E3. split; [done|]. split; [done|]. split; [done|].
      split; [done|]. by rewrite Ei.
    + destruct (fstem_feed n0 n (contents i) t Hm (fg_takes Hfg i n0 t Hl Ei Hg Hi)) as (b & m1 & m2 & m3 & E1 & E2 & E3 & Hr).
      exists b, (AnFSteM m1), (AnFSteM m2), (AnFSteM m3). rewrite E1, E2. cbn [cbind]. rewrite E3. split; [done|]. split; [done|]. split; [done|].
      split; [done|]. by rewrite Ei.
  - intros m i p (Hl & Hm). destruct (ms i) as [g0|n0] eqn:Ei, m as [g|n]; try done; cbn [module_fjord ProcessNextNode fjord_deq_out].
    + destruct (filter_drain g0 g p Hm) as (m3 & E2 & E3 & Hr). exists (AGSFilter g), (AGSFilter m3).
      cbn [gsf_fjord fjord_deq_out ProcessNextNode] in *. rewrite E2. cbn [cbind]. rewrite E3. split; [done|]. split; [done|].
      split; [done|]. by rewrite Ei.
    + destruct (fstem_drain n0 n (contents i) p Hm) as (m2 & m3 & E2 & E3 & Hr). exists (AnFSteM m2), (AnFSteM m3).
      rewrite E2. cbn [cbind]. rewrite E3. split; [done|]. split; [done|]. split; [done|]. by rewrite Ei.
  - intros m i p t u (Hl & _) Hg Hi Hu. by apply (fg_child Hfg).
Qed.
End modules.
Arguments module : clear implicits.
End EddyModules.
