(* ===== verification/EddyJoin.v ===== *)
(** * The continuous-query eddy: plans with joins

    When the operators of an eddy are filters and FSteMs, and the joins of the
    queries form a graph without cycles, the tuples that travel through it stay
    such that every operator can take them: what an FSteM sends on is ready for
    operators that it has not seen, of streams that it has tuples of. *)

From S2P Require Import Prelude BitArray GSFilter GSFilterNode Eddy EddyLoop EddySpec EddyGSF Stem StemSpec FStem FStemRing FStemWindow FStemProbe FStemJoin FStemAnswer EddyModules.

Module EddyJoin.
Import Bit Eddy EddySpec EddyGSF Stem StemSpec FStem FStemRing FStemWindow FStemProbe FStemJoin FStemAnswer EddyModules.
#[local] Opaque bits_of below.

Section join.
Context {V C HT N Q TS W : Type} `{EqDecision C} `{!Tuples V N HT} `{!FStemEnv HT N Q TS W}.
Local Abbreviation module := (EddyModules.module V C HT N Q TS W).
Local Abbreviation fstem := (FSteM HT N Q TS W).
Implicit Types (n : fstem) (t u x : IHT HT).

Context (e : EddyBits) (spins : nat) (ms : nat → module) (contents : nat → list (list (IHT HT))) (live : gset nat).

(** The operators of a stream, and the FSteMs that keep it. *)
Definition ops (s : nat) : gset nat := row 96 (FStem.operators e) s.
Definition stems (s : nat) : gset nat := row 96 (FStem.sourceStems e) s.
Definition stem_on (i r : nat) : Prop := ∃ n, ms i = AnFSteM n ∧ source_of n = r.

Definition sources_of t : gset nat := bits_of 64 (t_sources t).

(** The tuples that a stream can have.  [side j s] tells on which side stream [s]
    lies when the stream of operator [j] is taken out of the join graph. *)
Context (genuine : nat → HT → Prop) (side : nat → nat → nat).

Record travels t : Prop := {
  tv_wf : iht_wf t;
  tv_in s : s ∈ sources_of t → ∃ h, t_base_tuples t !! s = Some (Some h) ∧ genuine s h;
  tv_out s h : t_base_tuples t !! s = Some (Some h) → s ∈ sources_of t;
  tv_ready i : i ∈ ready_of t → ∃ s, s ∈ sources_of t ∧ i ∈ ops s;
  tv_stem i r : i ∈ ready_of t → stem_on i r → r ∉ sources_of t;
  tv_done i : i ∈ done_of t → ∃ s, s ∈ sources_of t ∧ (i ∈ ops s ∨ i ∈ stems s);
  tv_side j d s s' : j ∈ live → stem_on j d → d ∉ sources_of t → s ∈ sources_of t → s' ∈ sources_of t → side j s = side j s'
}.

Definition alone (r : nat) (h : HT) : list (option HT) := <[r := Some h]> (replicate 64 None).

(** A tuple of stream [r] as an FSteM keeps it. *)
Record stored_as (r : nat) x (h : HT) : Prop := {
  sa_wf : iht_wf x;
  sa_base : t_base_tuples x = alone r h;
  sa_sources : sources_of x = {[r]};
  sa_done : done_of x = ∅;
  sa_genuine : genuine r h
}.

Record plan_ok : Prop := {
  po_filter i g : i ∈ live → ms i = AGSFilter g → module_ok g;
  po_fstem i n : i ∈ live → ms i = AnFSteM n → planned e n ∧ FStem.operator n = i;
  po_pjo : pjolist e = [];
  po_events s : ops s ## bits_of 96 (eventOperators e);
  po_ops s : ops s ⊆ live;
  po_stems s i : i ∈ stems s ↔ i ∈ live ∧ stem_on i s;
  po_home s s' i g : i ∈ ops s → i ∈ ops s' → ms i = AGSFilter g → s = s';
  po_other s i : i ∈ ops s → ¬ stem_on i s;
  po_step s r i j d : i ∈ ops s → stem_on i r → j ∈ live → stem_on j d → d ≠ s → d ≠ r → side j s = side j r;
  po_apart s s' j d : j ∈ ops s → j ∈ ops s' → stem_on j d → s ≠ s' → side j s ≠ side j s';
  po_contents i n x : i ∈ live → ms i = AnFSteM n → x ∈ concat (contents i) → ∃ h, stored_as (source_of n) x h;
  po_takes i n t : i ∈ live → ms i = AnFSteM n → travels t → i ∈ ready_of t → takes spins n (contents i) t
}.

(** ** Composite tuples *)

Lemma merge_alone l r h : length l = 64 → merge l (alone r h) = <[r := Some h]> l.
Proof.
  intros Hl. unfold merge, alone. apply list_eq. intros i. rewrite lookup_zip_with.
  destruct (decide (i < 64)) as [Hi|Hi].
  - destruct (lookup_lt_is_Some_2 l i) as [a Ha]; [lia|]. rewrite Ha. cbn [mbind option_bind]. destruct (decide (i = r)) as [->|Hne].
    + rewrite !list_lookup_insert_eq by (rewrite ?length_replicate; lia). done.
    + rewrite !list_lookup_insert_ne, lookup_replicate_2, Ha by done. done.
  - rewrite (lookup_ge_None_2 l) by lia. symmetry. apply lookup_ge_None_2. rewrite length_insert. lia.
Qed.

Lemma joined_ok t r x h : iht_wf t → stored_as r x h →
  t_base_tuples (joined t x) = <[r := Some h]> (t_base_tuples t) ∧ sources_of (joined t x) = sources_of t ∪ {[r]}
  ∧ ready_of (joined t x) = ready_of t ∧ done_of (joined t x) = done_of t ∧ completed_of (joined t x) = completed_of t.
Proof.
  intros [[Wr Wd Wc] Ws Hb] [[[Wr' Wd' Wc'] Ws' _] Eb Es Ed _]. split; [|split; [|split; [done|split; [|done]]]].
  - cbn [t_base_tuples joined]. by rewrite Eb, merge_alone.
  - unfold sources_of in *. cbn [t_sources joined]. by rewrite OrSelf_set, Es.
  - unfold done_of in *. cbn [t_done joined]. rewrite OrSelf_set, Ed by done. set_solver.
Qed.

Lemma source_of_ok i n : plan_ok → i ∈ live → ms i = AnFSteM n → source_of n < 64.
Proof.
  intros Hp Hi E. destruct (po_fstem Hp i n Hi E) as [[_ _ (src & Es & Hlt) _ _ _ _ _] _]. unfold source_of. by rewrite Es.
Qed.

(** ** The answers of an FSteM *)

(** An answer that joins [t] with the stored tuple [x] of stream [r], found under the clauses [c]. *)
Record joins i n t (c : FSteMClauses Q) x (h : HT) u : Prop := {
  jn_in : x ∈ concat (contents i);
  jn_pair : ∃ k, (k, c) ∈ pairs (fstemouterhashkeys n) ∧ applies k t = true;
  jn_match : ExecQual c.1 (t_base_tuples x) (t_base_tuples t) = true;
  jn_stored : stored_as (source_of n) x h;
  jn_base : t_base_tuples u = <[source_of n := Some h]> (t_base_tuples t);
  jn_sources : sources_of u = sources_of t ∪ {[source_of n]};
  jn_wf : iht_wf u;
  jn_done : done_of u = done_of t ∪ stems (source_of n);
  jn_ready j : j ∈ ready_of u ↔ (j ∈ ready_of t ∪ ops (source_of n)) ∧ (∀ s, s ∈ sources_of t → j ∉ stems s)
    ∧ j ≠ i ∧ j ∉ stems (source_of n) ∧ j ∉ bits_of 96 (eventOperators e);
  jn_completed q : q ∈ completed_of u ↔ q ∈ completed_of t ∨ (q ∈ FStem.usedByQueries n ∧ q ∉ c.2)
}.

Lemma out_tuple_joins i n t c u : plan_ok → i ∈ live → ms i = AnFSteM n → takes spins n (contents i) t →
  (c, u) ∈ matches_of t (contents i) (pairs (fstemouterhashkeys n)) →
  ∃ x h, u = joined t x ∧ joins i n t c x h (out_tuple e n t (c, u)).
Proof.
  intros Hp Hi E Ht Hin. destruct (matches_wf n t _ c u (tk_fits _ _ _ _ Ht) Hin) as [Hu Ec].
  destruct (matches_in _ _ _ _ _ Hin) as (k & x & seg & Hk & Ha & Hseg & Hx & Hmt & ->).
  assert (x ∈ concat (contents i)) as Hxc by (apply elem_of_concat; by exists seg).
  destruct (po_contents Hp i n x Hi E Hxc) as (h & Hst). destruct (po_fstem Hp i n Hi E) as [Hpl Eop].
  pose proof (pf_wf _ _ _ (tk_fits _ _ _ _ Ht)) as Hwt.
  destruct (joined_ok t _ x h Hwt Hst) as (Eb & Es & Er & Ed & Eco).
  destruct (out_tuple_ok e n t c (joined t x) Hpl Hwt Hu) as (_ & Hwo & Hro).
  exists x, h. split; [done|]. set (o := out_tuple e n t (c, joined t x)) in *.
  assert (ready_of (settle n c (joined t x)) = ready_of t) as Er' by exact Er.
  assert (done_of (settle n c (joined t x)) = done_of t) as Ed' by exact Ed.
  constructor; try done.
  - by exists k.
  - rewrite (ro_base _ _ _ _ _ _ Hro). exact Eb.
  - unfold sources_of. rewrite (ro_sources _ _ _ _ _ _ Hro). exact Es.
  - by rewrite (ro_done _ _ _ _ _ _ Hro), Ed'.
  - intros j. rewrite (ro_ready _ _ _ _ _ _ Hro j), (po_pjo Hp), Er', Eop. fold (stems (source_of n)). split.
    + intros ([[H1 H2]|(s & b & Hnil & _)] & H3 & H4 & H5); [|by apply elem_of_nil in Hnil]. by split_and!.
    + intros (H1 & H2 & H3 & H4 & H5). split_and!; [left; split; [done|]|done..]. exact H2.
  - intros q. rewrite (ro_completed _ _ _ _ _ _ Hro), <- Ec.
    destruct (done_for_ok (FStem.usedByQueries n) c.2 (t_queriesCompleted (joined t x))) as [_ Hq]; [apply Hu|apply (pl_used _ _ Hpl)|apply Hq].
Qed.

Lemma probed_ok i n t : plan_ok → i ∈ live → ms i = AnFSteM n → iht_wf t →
  iht_wf (probed n t) ∧ ∀ q, q ∈ completed_of (probed n t) ↔ q ∈ completed_of t ∨ q ∈ FStem.usedByQueries n.
Proof.
  intros Hp Hi E [[Wr Wd Wc] Ws Hb]. destruct (po_fstem Hp i n Hi E) as [Hpl _].
  destruct (foldl_SetBit 128 (t_queriesCompleted t) (FStem.usedByQueries n) Wc (pl_used _ _ Hpl)) as [Hw Eb].
  split; [by constructor|]. intros q. unfold completed_of, probed. cbn [t_queriesCompleted with_completed].
  by rewrite Eb, elem_of_union, elem_of_list_to_set.
Qed.

(** What an FSteM answers: the tuple as it came, joined tuples, and the probing tuple. *)
Lemma fstem_answer_cases i n t u : plan_ok → i ∈ live → ms i = AnFSteM n → takes spins n (contents i) t →
  u ∈ fstem_answers e n t (contents i) →
  (u = t ∧ early_out e n t = true)
  ∨ (∃ c x h, (c, joined t x) ∈ matches_of t (contents i) (pairs (fstemouterhashkeys n)) ∧ joins i n t c x h u)
  ∨ u = probed n t.
Proof.
  intros Hp Hi E Ht. unfold fstem_answers. destruct (early_out e n t); [intros ->%list_elem_of_singleton; by left|].
  right. apply elem_of_app in H as [Hu|Hu].
  - left. unfold outs in Hu. apply list_elem_of_filter in Hu as [_ ([c v] & -> & Hin)%list_elem_of_fmap].
    destruct (out_tuple_joins i n t c v Hp Hi E Ht Hin) as (x & h & -> & Hj). by exists c, x, h.
  - right. unfold bounced in Hu. apply list_elem_of_filter in Hu as [_ Hu]. by apply list_elem_of_singleton in Hu.
Qed.

(** ** Travelling on *)

(** A tuple that only has fewer operators to visit, and has visited some of them. *)
Lemma travels_same t u : travels t → iht_wf u → t_base_tuples u = t_base_tuples t → t_sources u = t_sources t →
  ready_of u ⊆ ready_of t → done_of u ⊆ done_of t ∪ ready_of t → travels u.
Proof.
  intros [H1 H2 H3 H4 H5 H6 H7] Hw Eb Es Hr Hd. assert (sources_of u = sources_of t) as E by (unfold sources_of; by rewrite Es).
  constructor; rewrite ?Eb, ?E; try done.
  - intros i Hi. apply H4, Hr, Hi.
  - intros i r Hi. apply H5, Hr, Hi.
  - intros i Hi. apply Hd, elem_of_union in Hi as [Hi|Hi]; [by apply H6|]. destruct (H4 i Hi) as (s & ? & ?). exists s. tauto.
Qed.

Lemma mark_travels i t u : travels t → i ∈ ready_of t → iht_wf u → t_base_tuples u = t_base_tuples t → t_sources u = t_sources t →
  ready_of u = ready_of t → done_of u = done_of t → travels (mark i u).
Proof.
  intros Ht Hi Hw Eb Es Er Ed. assert (i < 96) as Hi96 by (by apply elem_of_below, (bits_of_below 96 (t_ready t))).
  destruct Hw as [Hw1 Hw2 Hw3]. destruct (mark_ok i u Hw1 Hi96) as (Hmw & Emr & Emd & _).
  apply (travels_same t); [done|by constructor|done|done|rewrite Emr; set_solver|rewrite Emd; set_solver].
Qed.

Lemma travels_completed t c : travels t → wf 128 c → travels (with_completed t c).
Proof.
  intros Ht Hc. apply (travels_same t); try done; [|set_solver]. destruct (tv_wf _ Ht) as [[Hr Hd _] Hs Hb]. by constructor.
Qed.

(** A tuple that has new completed queries only. *)
Lemma child_same i t u : good live travels t → i ∈ ready_of t → iht_wf u → t_base_tuples u = t_base_tuples t → t_sources u = t_sources t →
  ready_of u = ready_of t → done_of u = done_of t → completed_of t ⊆ completed_of u → child live travels i t u.
Proof.
  intros [Hw Hl Hf Ht] Hi Hu Eb Es Er Ed Hc. constructor; try done; [apply Hu|by rewrite Ed|by rewrite Er|rewrite Er, Ed; set_solver|].
  by apply (mark_travels i t).
Qed.

(** A stored tuple's stream brings operators that have not been seen. *)
Lemma fresh_ops i n t j : plan_ok → i ∈ live → ms i = AnFSteM n → travels t → i ∈ ready_of t →
  j ∈ ops (source_of n) → (∀ s, s ∈ sources_of t → j ∉ stems s) → j ∉ stems (source_of n) → j ∉ done_of t.
Proof.
  intros Hp Hi E Ht Hr Hj Hs Hn Hd. assert (stem_on i (source_of n)) as Hon by (by exists n).
  pose proof (tv_stem _ Ht i _ Hr Hon) as Hnew. destruct (tv_done _ Ht j Hd) as (s & Hsin & [Hjs|Hjs]); [|by apply (Hs s)].
  assert (j ∈ live) as Hjl by (by apply (po_ops Hp (source_of n))). destruct (ms j) as [g|m] eqn:Ej.
  - by rewrite (po_home Hp s (source_of n) j g Hjs Hj Ej) in Hsin.
  - set (d := source_of m). assert (stem_on j d) as Hond by (by exists m).
    assert (d ∉ sources_of t) as Hdt. { intros Hin. apply (Hs d Hin), (po_stems Hp). done. }
    assert (d ≠ source_of n) as Hdn. { intros Ed. apply Hn, (po_stems Hp). by rewrite <- Ed. }
    destruct (tv_ready _ Ht i Hr) as (s0 & Hs0 & Hi0).
    apply (po_apart Hp s (source_of n) j d Hjs Hj Hond); [by intros ->|].
    rewrite (tv_side _ Ht j d s s0) by done. apply (po_step Hp s0 (source_of n) i j d); try done. by intros ->.
Qed.

Lemma child_joined i n t c x h u : plan_ok → i ∈ live → ms i = AnFSteM n → good live travels t → i ∈ ready_of t →
  joins i n t c x h u → child live travels i t u.
Proof.
  intros Hp Hi E [Hw Hl Hf Ht] Hr [_ _ _ Hst Eb Es Hwu Ed Ejr Ec]. set (r := source_of n) in *.
  assert (stem_on i r) as Hon by (by exists n). pose proof (tv_stem _ Ht i r Hr Hon) as Hnew.
  assert (i < 96) as Hi96 by (by apply elem_of_below, (bits_of_below 96 (t_ready t))).
  assert (r < 64) as Hr64 by (by apply (source_of_ok i)).
  destruct (mark_ok i u) as (Hmw & Emr & Emd & _); [apply Hwu|done|].
  assert (∀ j, j ∈ ready_of u → j ∈ ops r ∧ j ∉ done_of t ∨ j ∈ ready_of t) as Hready.
  { intros j Hj. apply Ejr in Hj as ([?|Hj]%elem_of_union & H2 & _ & H4 & _); [by right|left]. split; [done|].
    by apply (fresh_ops i n). }
  constructor.
  - apply Hwu.
  - rewrite Ed. set_solver.
  - intros q Hq. apply Ec. by left.
  - intros j Hj. apply Hready in Hj as [[Hj _]|Hj]; [by apply (po_ops Hp r)|by apply Hl].
  - intros j [Hj _]%elem_of_difference. rewrite Ed. intros [Hd|Hd]%elem_of_union; [|apply Ejr in Hj as (_ & _ & _ & Hn & _); by apply Hn].
    apply Hready in Hj as [[_ Hj]|Hj]; [done|by apply (Hf j)].
  - assert (sources_of (mark i u) = sources_of t ∪ {[r]}) as Ems by exact Es.
    assert (t_base_tuples (mark i u) = <[r := Some h]> (t_base_tuples t)) as Emb by exact Eb.
    pose proof (iw_base _ (tv_wf _ Ht)) as Hlen. destruct Hwu as [_ Hws Hwb].
    constructor; rewrite ?Ems, ?Emb.
    + by constructor.
    + intros s [Hs| ->%elem_of_singleton]%elem_of_union.
      * rewrite list_lookup_insert_ne by (by intros <-). by apply (tv_in _ Ht).
      * exists h. rewrite list_lookup_insert_eq by lia. split; [done|]. by apply (sa_genuine _ _ _ Hst).
    + intros s h'. destruct (decide (s = r)) as [->|Hne]; [set_solver|]. rewrite list_lookup_insert_ne by done.
      intros Hs%(tv_out _ Ht). set_solver.
    + intros j Hj. rewrite Emr in Hj. apply elem_of_difference in Hj as [Hj _]. apply Hready in Hj as [[Hj _]|Hj]; [exists r; set_solver|].
      destruct (tv_ready _ Ht j Hj) as (s & ? & ?). exists s. set_solver.
    + intros j d Hj Hond Hd. rewrite Emr in Hj. apply elem_of_difference in Hj as [Hj Hji]. apply Ejr in Hj as (Hj & Hns & _ & Hnr & _).
      assert (j ∈ live) as Hjl by (apply elem_of_union in Hj as [?|?]; [by apply Hl|by apply (po_ops Hp r)]).
      apply elem_of_union in Hd as [Hd| ->%elem_of_singleton]; [apply (Hns d Hd)|apply Hnr]; by apply (po_stems Hp).
    + intros j Hj. rewrite Emd, Ed in Hj. apply elem_of_union in Hj as [->%elem_of_singleton|[Hj|Hj]%elem_of_union].
      * destruct (tv_ready _ Ht i Hr) as (s & ? & ?). exists s. set_solver.
      * destruct (tv_done _ Ht j Hj) as (s & ? & ?). exists s. set_solver.
      * exists r. set_solver.
    + intros j d s s' Hj Hond Hd Hs Hs'. destruct (tv_ready _ Ht i Hr) as (s0 & Hs0 & Hi0).
      assert (∀ a, a ∈ sources_of t ∪ {[r]} → side j a = side j s0) as Hall.
      { apply not_elem_of_union in Hd as [Hd1 Hd2]. intros a [Ha| ->%elem_of_singleton]%elem_of_union; [by apply (tv_side _ Ht j d)|].
        symmetry. apply (po_step Hp s0 r i j d); try done; [by intros ->|]. intros ->. by apply Hd2, elem_of_singleton. }
      by rewrite (Hall s), (Hall s').
Qed.

(** Every operator can take what the others send on. *)
Lemma plan_fits : plan_ok → fitting e spins ms contents live travels.
Proof.
  intros Hp. constructor.
  - apply Hp.
  - intros i n t Hi E [_ _ _ Ht] Hr. by apply (po_takes Hp).
  - intros i t u Hi Hg Hr Hu. pose proof (good_fits _ _ _ Hg) as Ht. pose proof (tv_wf _ Ht) as Hw. unfold asked in Hu.
    destruct (ms i) as [g|n] eqn:E.
    + destruct (filter_answer g t u (po_filter Hp i g Hi E) (twf_completed _ (iw_tuple _ Hw)) Hu) as (c & -> & Hc & Ec).
      apply child_same; try done; [destruct Hw as [[? ? _] ? ?]; by constructor|]. intros q Hq. apply Ec. by left.
    + destruct (fstem_answer_cases i n t u Hp Hi E (po_takes Hp i n t Hi E Ht Hr) Hu) as [[-> _]|[(c & x & h & _ & Hj)| ->]].
      * by apply child_same.
      * by eapply child_joined.
      * destruct (probed_ok i n t Hp Hi E Hw) as [Hwp Hq]. apply child_same; try done. intros q ?. apply Hq. by left.
  - intros t c Ht Hc _. by apply travels_completed.
Qed.
End join.
End EddyJoin.
