(* ===== verification/EddyJoinSpec.v ===== *)
(** * The continuous-query eddy: what a join query is to get

    A query on several streams is to get, for a new tuple of one of them, all the
    combinations of it with stored tuples of the others that satisfy its join
    clauses and predicates.  Here the combinations are lists, free of operators,
    routes and tables; what a query gets is compared with them up to order. *)

From S2P Require Import Prelude BitArray Eddy EddySpec EddyAnswer.

Module EddyJoinSpec.
Import Bit Eddy EddySpec EddyAnswer.
#[local] Opaque bits_of below.

(** ** Lists *)

Lemma bind_perm {A B : Type} (f g : A → list B) l : (∀ x, x ∈ l → f x ≡ₚ g x) → l ≫= f ≡ₚ l ≫= g.
Proof.
  induction l as [|x l IH]; intros Hl; [done|]. cbn. rewrite (Hl x) by (by left). f_equiv. apply IH. intros y Hy. apply Hl. by right.
Qed.

Lemma bind_nil_all {A B : Type} (f : A → list B) l : (∀ x, x ∈ l → f x = []) → l ≫= f = [].
Proof. induction l as [|x l IH]; intros Hl; [done|]. cbn. rewrite (Hl x) by (by left). apply IH. intros y Hy. apply Hl. by right. Qed.

Lemma bind_app_perm {A B : Type} (f g : A → list B) l : (l ≫= λ x, f x ++ g x) ≡ₚ (l ≫= f) ++ (l ≫= g).
Proof. induction l as [|x l IH]; [done|]. cbn. rewrite IH. solve_Permutation. Qed.

Lemma bind_swap {A B C : Type} (f : A → B → list C) l k : (l ≫= λ x, k ≫= f x) ≡ₚ (k ≫= λ y, l ≫= λ x, f x y).
Proof.
  induction l as [|x l IH]; cbn; [by rewrite bind_nil_all|]. rewrite IH. symmetry. apply bind_app_perm.
Qed.

Lemma filter_bind {A B : Type} (P : B → Prop) `{∀ x, Decision (P x)} (f : A → list B) l :
  base.filter P (l ≫= f) = l ≫= λ x, base.filter P (f x).
Proof. induction l as [|x l IH]; [done|]. cbn. by rewrite filter_app, IH. Qed.

Lemma filter_map_bind {A B C : Type} (P : B → Prop) `{∀ x, Decision (P x)} (g : A → B) (f : B → list C) l :
  (base.filter (λ x, P (g x)) l ≫= λ x, f (g x)) = base.filter P (g <$> l) ≫= f.
Proof.
  induction l as [|x l IH]; [done|]. rewrite fmap_cons, !filter_cons. destruct (decide (P (g x))); cbn; by rewrite IH.
Qed.

Lemma filter_none {A : Type} (P : A → Prop) `{∀ x, Decision (P x)} l : (∀ x, x ∈ l → ¬ P x) → base.filter P l = [].
Proof.
  induction l as [|x l IH]; intros Hl; [done|]. rewrite filter_cons, decide_False by (apply Hl; by left). apply IH.
  intros y Hy. apply Hl. by right.
Qed.

Lemma filter_ext_in {A : Type} (P P' : A → Prop) `{∀ x, Decision (P x)} `{∀ x, Decision (P' x)} (l : list A) :
  (∀ x, x ∈ l → P x ↔ P' x) → base.filter P l = base.filter P' l.
Proof.
  induction l as [|x l IH]; intros Hl; [done|]. rewrite !filter_cons, IH by (intros y Hy; apply Hl; by right).
  pose proof (Hl x ltac:(by left)). destruct (decide (P x)), (decide (P' x)); tauto.
Qed.

(** Elements with nothing to contribute. *)
Lemma bind_filter {A B : Type} (P : A → Prop) `{∀ x, Decision (P x)} (f : A → list B) l : (∀ x, x ∈ l → ¬ P x → f x = []) →
  (base.filter P l ≫= f) = l ≫= f.
Proof.
  induction l as [|x l IH]; intros Hl; [done|]. rewrite filter_cons. destruct (decide (P x)); cbn; rewrite IH by (intros y Hy; apply Hl; by right);
    [done|]. by rewrite (Hl x) by (done || by left).
Qed.

(** ** What a query is sent *)

Section delivered.
Context {HT : Type}.
Implicit Types (t u : IHT HT) (evs : list (event HT)).

Lemma announced_delivered qids masks t t' evs q : announced qids masks t t' evs →
  delivered q evs = if decide (q ∈ due qids masks t) then [t_base_tuples t] else [].
Proof.
  intros [E|c w _ _ _ _ Ew]; unfold delivered.
  - rewrite E, decide_False by apply not_elem_of_empty. done.
  - cbn. rewrite Ew. by case_decide.
Qed.

(** ** Queries that are done with a tuple get nothing from it *)

Context (live : gset nat) (f : nat → IHT HT → list (IHT HT)) (fits : IHT HT → Prop) (qids : list nat) (masks : list BitArray).
Context (Hchild : ∀ i t u, i ∈ live → good live fits t → i ∈ ready_of t → u ∈ f i t → child live fits i t u).
Context (Hfits : ∀ t c, fits t → wf 128 c → completed_of t ⊆ bits_of 128 c → fits (with_completed t c)).

(** An answer once it has been announced. *)
Lemma announced_child i t u u' evs : i ∈ live → good live fits t → i ∈ ready_of t → u ∈ f i t →
  announced qids masks (mark i u) u' evs → good live fits u' ∧ i < 96 ∧ i ∉ done_of t
    ∧ completed_of u ⊆ completed_of u' ∧ ∀ n, unseen t ≤ S n → unseen u' ≤ n.
Proof.
  intros Hi Hg Hr Hu Ha. pose proof (Hchild i t u Hi Hg Hr Hu) as Hc.
  assert (i < 96) as Hi96 by (by apply elem_of_below, (bits_of_below 96 (t_ready t))).
  assert (i ∉ done_of t) as Hid by (intros ?; by apply (good_fresh _ _ _ Hg i)).
  destruct (mark_good live fits i t u Hc Hi96) as [Hgm Hsub].
  destruct (announced_same _ _ _ _ _ Ha (good_wf _ _ _ Hgm)) as (_ & _ & Ed & Ec & _).
  destruct (mark_ok i u (child_wf _ _ _ _ _ Hc) Hi96) as (_ & _ & _ & Ecm).
  split; [by eapply announced_good|]. split; [done|]. split; [done|]. split; [rewrite Ec, Ecm; set_solver|].
  intros n Hn. apply (unseen_mark i t); [|done..]. unfold done_of at 2. by rewrite Ed.
Qed.

Lemma visits_all_each q (G : IHT HT → list (list (option HT))) i us : ∀ evs,
  (∀ u u' e1 e2, u ∈ us → announced qids masks (mark i u) u' e1 → visits f qids masks u' e2 → delivered q (e1 ++ e2) ≡ₚ G u) →
  visits_all f qids masks i us evs → delivered q evs ≡ₚ us ≫= G.
Proof.
  induction us as [|u us IH]; intros evs HG Hv; inversion Hv; subst; [done|].
  rewrite app_assoc, delivered_app. cbn. f_equiv; [by eapply HG; [by left|..]|].
  apply IH; [|done]. intros v v' e4 e5 Hin. apply HG. by right.
Qed.

Lemma visits_dead q n : ∀ t evs, unseen t ≤ n → good live fits t → q ∈ completed_of t → visits f qids masks t evs → delivered q evs = [].
Proof.
  induction n as [|n IH]; intros t evs Hn Hg Hq Hv; inversion Hv as [|? i ? Hne Hi Hall]; subst; try done.
  { assert (i < 96) by (by apply elem_of_below, (bits_of_below 96 (t_ready t))).
    assert (i ∉ done_of t) as Hid by (intros ?; by apply (good_fresh _ _ _ Hg i)). apply (unseen_pos i) in Hid; [lia|done]. }
  assert (i ∈ live) as Hl by (by apply (good_live _ _ _ Hg)).
  apply Permutation_nil. symmetry. rewrite (visits_all_each q (λ _, []) i (f i t) evs); [by rewrite bind_nil_all| |done].
  intros u u' e1 e2 Hu Ha Hv2. destruct (announced_child i t u u' e1 Hl Hg Hi Hu Ha) as (Hg' & Hi96 & Hid & Hc & Hun).
  assert (q ∈ completed_of u) as Hqu by (by apply (child_completed _ _ _ _ _ (Hchild i t u Hl Hg Hi Hu))).
  rewrite delivered_app, (IH u' e2) by auto. rewrite app_nil_r, (announced_delivered _ _ _ _ _ q Ha), decide_False; [done|].
  rewrite elem_of_due. intros (_ & _ & Hn'). apply Hn'. destruct (mark_ok i u) as (_ & _ & _ & ->); [by apply (Hchild i t u)|done|done].
Qed.
End delivered.

(** ** Combinations of stored tuples *)

Section combos.
Context {HT : Type} (stored : nat → list HT).
Implicit Types (b : list (option HT)) (l : list nat).

(** One stored tuple for each stream in [l], added to [b] in every way. *)
Fixpoint combos l b : list (list (option HT)) :=
  match l with
  | [] => [b]
  | r :: l' => stored r ≫= λ h, combos l' (<[r := Some h]> b)
  end.

Lemma combos_perm l l' : l ≡ₚ l' → NoDup l → ∀ b, combos l b ≡ₚ combos l' b.
Proof.
  induction 1 as [|r l l' Hp IH|r1 r2 l|l1 l2 l3 H1 IH1 H2 IH2]; intros Hn b; cbn [combos].
  - done.
  - apply NoDup_cons in Hn as [_ Hn]. apply bind_perm. intros h _. by apply IH.
  - apply NoDup_cons in Hn as [Hne _]. rewrite bind_swap. apply bind_perm. intros h1 _. apply bind_perm. intros h2 _.
    rewrite list_insert_insert_ne; [done|]. set_solver.
  - rewrite IH1 by done. apply IH2. by rewrite <- H1.
Qed.

Lemma combos_other l s : s ∉ l → ∀ b b', b' ∈ combos l b → b' !! s = b !! s.
Proof.
  induction l as [|r l IH]; intros Hs b b'; cbn [combos]; [by intros ->%list_elem_of_singleton|].
  apply not_elem_of_cons in Hs as [Hne Hs]. intros (h & Hb & _)%list_elem_of_bind.
  rewrite (IH Hs _ _ Hb). by apply list_lookup_insert_ne.
Qed.

End combos.

Section query.
Context {HT : Type}.
Implicit Types (b : list (option HT)) (l : list nat).

(** A query on the streams [srcs], for a new tuple of [s0]: stream [r] is joined with
    stream [parent r] by [link r]; [accepts] are its predicates. *)
Context (s0 : nat) (srcs : gset nat) (parent : nat → nat) (link : nat → HT → HT → bool).
Context (accepts : list (option HT) → Prop) `{Haccepts : !∀ b, Decision (accepts b)}.

Definition linked b (r : nat) : Prop :=
  match b !! parent r, b !! r with
  | Some (Some hp), Some (Some h) => link r hp h = true
  | _, _ => False
  end.

#[global] Instance linked_dec b r : Decision (linked b r).
Proof. unfold linked. destruct (b !! parent r) as [[?|]|], (b !! r) as [[?|]|]; apply _. Defined.

Definition satisfied b : Prop := Forall (linked b) (elements (srcs ∖ {[s0]})) ∧ accepts b.

#[global] Instance satisfied_dec b : Decision (satisfied b).
Proof. unfold satisfied. apply _. Defined.

Lemma satisfied_alt b : satisfied b ↔ (∀ r, r ∈ srcs → r ≠ s0 → linked b r) ∧ accepts b.
Proof.
  unfold satisfied. rewrite Forall_forall. setoid_rewrite elem_of_elements. setoid_rewrite elem_of_difference.
  setoid_rewrite elem_of_singleton. naive_solver.
Qed.

Lemma elements_take (X : gset nat) r : r ∈ X → elements X ≡ₚ r :: elements (X ∖ {[r]}).
Proof. intros Hr. rewrite <- elements_union_singleton by set_solver. f_equiv. rewrite <- union_difference_singleton_L; done. Qed.

Context (stored : nat → list HT).

(** What the query is to get when the tuples of the streams [T] are chosen. *)
Definition expected (T : gset nat) b : list (list (option HT)) := base.filter satisfied (combos stored (elements (srcs ∖ T)) b).

(** Choosing one more: the joins with the tuple's stream are those that hold. *)
Lemma expected_step (T : gset nat) b r hp : r ∈ srcs → r ∉ T → r ≠ s0 → parent r ∈ T → r < length b → b !! parent r = Some (Some hp) →
  expected T b ≡ₚ base.filter (λ h, link r hp h = true) (stored r) ≫= λ h, expected (T ∪ {[r]}) (<[r := Some h]> b).
Proof.
  intros Hr HrT Hr0 HpT Hlen Hp. unfold expected.
  assert (elements (srcs ∖ T) ≡ₚ r :: elements (srcs ∖ (T ∪ {[r]}))) as Eel.
  { rewrite (elements_take (srcs ∖ T) r) by set_solver. f_equiv. f_equiv. set_solver. }
  rewrite (combos_perm _ _ _ Eel) by apply NoDup_elements. cbn [combos]. rewrite filter_bind, bind_filter; [done|].
  intros h _ Hno. apply filter_none. intros b' Hb' Hsat. apply Hno.
  apply satisfied_alt in Hsat as [Hl _]. specialize (Hl r Hr Hr0). unfold linked in Hl.
  assert (∀ s, s ∈ T ∪ {[r]} → b' !! s = <[r := Some h]> b !! s) as Hsame.
  { intros s Hs. apply (combos_other _ _ s) in Hb'; [done|]. rewrite elem_of_elements. set_solver. }
  assert (r ≠ parent r) as Hne by (by intros E; rewrite <- E in HpT).
  rewrite (Hsame r), (Hsame (parent r)) in Hl by (rewrite elem_of_union, elem_of_singleton; tauto).
  by rewrite list_lookup_insert_eq, list_lookup_insert_ne, Hp in Hl.
Qed.

(** Choosing none: the predicates have failed already. *)
Lemma expected_none (T : gset nat) b : (∀ b', (∀ s, s ∈ T → b' !! s = b !! s) → ¬ accepts b') → expected T b = [].
Proof.
  intros Hno. unfold expected. apply filter_none. intros b' Hb' [_ Ha]. apply (Hno b'); [|done].
  intros s Hs. apply (combos_other _ _ s) in Hb'; [done|]. rewrite elem_of_elements. set_solver.
Qed.

(** All chosen. *)
Lemma expected_all (T : gset nat) b : srcs ⊆ T → satisfied b → expected T b = [b].
Proof.
  intros Hs Hsat. unfold expected. assert (srcs ∖ T = ∅) as -> by set_solver. rewrite elements_empty. cbn [combos].
  by rewrite filter_cons, decide_True.
Qed.
End query.
End EddyJoinSpec.
