(* ===== verification/EddyJoinAnswer.v ===== *)
(** * The continuous-query eddy: every join query gets its combinations, once

    For a query that joins several streams, the exploration of a new tuple sends
    it exactly the combinations of [EddyJoinSpec]: every one that satisfies its
    join clauses and predicates, as often as the stored tuples have it, in
    whatever order the eddy visits filters and FSteMs. *)

From S2P Require Import Prelude BitArray GSFilter GSFilterNode Eddy EddyLoop EddySpec EddyGSF EddyAnswer Stem StemSpec FStem FStemRing FStemWindow FStemProbe FStemJoin FStemAnswer EddyModules EddyJoin EddyJoinSpec.

Module EddyJoinAnswer.
Import Bit Eddy EddySpec EddyGSF Stem StemSpec FStem FStemRing FStemWindow FStemProbe FStemJoin FStemAnswer EddyModules EddyJoin EddyJoinSpec.
#[local] Opaque bits_of below.

Section answer.
Context {V C HT N Q TS W : Type} `{EqDecision C} `{!Tuples V N HT} `{!FStemEnv HT N Q TS W}.
Local Abbreviation module := (EddyModules.module V C HT N Q TS W).
Local Abbreviation fstem := (FSteM HT N Q TS W).
Implicit Types (n : fstem) (t u x : IHT HT) (b : list (option HT)).

Context (e : EddyBits) (spins : nat) (ms : nat → module) (contents : nat → list (list (IHT HT))) (live : gset nat).
Context (genuine : nat → HT → Prop) (side : nat → nat → nat).
Context (qids : list nat) (masks : list BitArray).
Local Abbreviation ops := (ops e).
Local Abbreviation stems := (stems e).
Local Abbreviation stem_on := (stem_on ms).
Local Abbreviation travels := (travels e ms live genuine side).

(** ** A join query in its plan

    The query [q] reads the streams [srcs]; from the stream [s0] of the new tuple
    its joins lead to the others: to stream [r] from stream [parent r], through
    the operator [joiner r] which stores [stored r]. *)
Context (q s0 : nat) (srcs : gset nat) (parent depth joiner : nat → nat).
Context (stored : nat → list HT) (link : nat → HT → HT → bool).

Definition accepted b (i : nat) : Prop :=
  match ms i with
  | AGSFilter g => ¬ GSFNode.fails (filter g) (ExecEvalExpr (node g) b) q
  | AnFSteM _ => True
  end.

#[global] Instance accepted_dec b i : Decision (accepted b i).
Proof. unfold accepted. destruct (ms i); apply _. Defined.

(** None of the query's predicates in the filters of its streams fails. *)
Definition accepts b : Prop := Forall (λ s, Forall (accepted b) (elements (ops s))) (elements srcs).

#[global] Instance accepts_dec b : Decision (accepts b).
Proof. unfold accepts. apply _. Defined.

Lemma accepts_alt b : accepts b ↔ ∀ s i, s ∈ srcs → i ∈ ops s → accepted b i.
Proof.
  unfold accepts. rewrite Forall_forall. setoid_rewrite elem_of_elements. setoid_rewrite Forall_forall.
  setoid_rewrite elem_of_elements. naive_solver.
Qed.

(** The pairs of a key and clauses of an operator that the query uses on a tuple. *)
Definition used_pairs n t : list (N * FSteMClauses Q) :=
  base.filter (λ kc, applies kc.1 t = true ∧ q ∈ kc.2.2) (pairs (fstemouterhashkeys n)).

Record query_ok : Prop := {
  qo_id : q ∈ qids ∧ q < 128;
  qo_root : s0 ∈ srcs ∧ parent s0 = s0;
  qo_parent r : r ∈ srcs → r ≠ s0 → parent r ∈ srcs ∧ depth (parent r) < depth r;
  qo_joiner r : r ∈ srcs → r ≠ s0 → joiner r ∈ ops (parent r) ∧ stem_on (joiner r) r;
  qo_uses s i n : s ∈ srcs → i ∈ ops s → ms i = AnFSteM n →
    q ∈ FStem.usedByQueries n ∧ wf 128 (interestedQueries n) ∧ q ∉ bits_of 128 (interestedQueries n)
    ∧ (source_of n ∈ srcs ∧ i = joiner (source_of n) ∧ parent (source_of n) = s ∨ parent s = source_of n);
  qo_stored r : r ∈ srcs → r ≠ s0 → t_base_tuples <$> concat (contents (joiner r)) = alone r <$> stored r;
  qo_clause r n t hp : r ∈ srcs → r ≠ s0 → ms (joiner r) = AnFSteM n → travels t → sources_of t ⊆ srcs → r ∉ sources_of t →
    t_base_tuples t !! parent r = Some (Some hp) →
    ∃ k c, used_pairs n t = [(k, c)] ∧ ∀ h, h ∈ stored r → ExecQual c.1 (alone r h) (t_base_tuples t) = link r hp h;
  qo_waits r : r ∈ srcs → r ≠ s0 → ∃ i, i ∈ stems r ∧ i ∈ cmask masks q;
  qo_filters s i g t : s ∈ srcs → i ∈ ops s → ms i = AGSFilter g → fails_on g t q → i ∈ cmask masks q;
  qo_mask i : i ∈ cmask masks q → ∃ s, s ∈ srcs ∧ (i ∈ ops s ∨ i ∈ stems s);
  qo_local s i g b b' : s ∈ srcs → i ∈ ops s → ms i = AGSFilter g → b !! s = b' !! s →
    ExecEvalExpr (node g) b = ExecEvalExpr (node g) b';
  qo_tuples s h : genuine s h → EddyGSF.HeapTupleIsPunct h = false
}.

Context (Hp : plan_ok e spins ms contents live genuine side) (Hq : query_ok).

Local Abbreviation expected := (expected s0 srcs parent link accepts stored).

(** What the query is to get from a tuple that it still wants. *)
Definition expects u : list (list (option HT)) :=
  if decide (q ∈ completed_of u) then [] else expected (sources_of u) (t_base_tuples u).

(** ** A tuple on its way for the query *)

Record tracks t : Prop := {
  tk_good : good live travels t;
  tk_root : s0 ∈ sources_of t;
  tk_within : sources_of t ⊆ srcs;
  tk_closed s : s ∈ sources_of t → s ≠ s0 → parent s ∈ sources_of t;
  tk_ops s i : s ∈ sources_of t → i ∈ ops s → i ∈ ready_of t ∨ i ∈ done_of t ∨ ∃ s', s' ∈ sources_of t ∧ i ∈ stems s';
  tk_stems s : s ∈ sources_of t → stems s ⊆ done_of t;
  tk_done i r : i ∈ done_of t → stem_on i r → r ∈ sources_of t;
  tk_passed i : i ∈ done_of t → accepted (t_base_tuples t) i;
  tk_linked r : r ∈ sources_of t → r ≠ s0 → linked parent link (t_base_tuples t) r
}.

Record wants t : Prop := {
  wn_tracks : tracks t;
  wn_open : q ∉ completed_of t;
  wn_pending : ¬ cmask masks q ⊆ done_of t
}.

Lemma stem_on_fun i r r' : stem_on i r → stem_on i r' → r = r'.
Proof. intros (n & E & <-) (n' & E' & <-). congruence. Qed.

(** A filter's verdict depends on its stream's tuple only. *)
Lemma accepted_local s i b b' : s ∈ srcs → i ∈ ops s → b !! s = b' !! s → accepted b i ↔ accepted b' i.
Proof.
  intros Hs Hi E. unfold accepted. destruct (ms i) as [g|] eqn:Eg; [|done]. by rewrite (qo_local Hq s i g b b').
Qed.

Lemma accepted_fails i g t : ms i = AGSFilter g → travels t → accepted (t_base_tuples t) i ↔ ¬ fails_on g t q.
Proof.
  intros E Ht. unfold accepted, fails_on. rewrite E. enough (ihtIsPunct EddyGSF.HeapTupleIsPunct t = false) by tauto.
  unfold ihtIsPunct. apply not_true_iff_false. intros (o & Hin & Ho)%existsb_exists. destruct o as [h|]; [|done].
  apply list_elem_of_In, list_elem_of_lookup in Hin as (s & Hs). pose proof (tv_out _ _ _ _ _ _ Ht s h Hs) as Hsin.
  destruct (tv_in _ _ _ _ _ _ Ht s Hsin) as (h' & Hs' & Hg). simplify_eq. by rewrite (qo_tuples Hq s h) in Ho.
Qed.

(** When the query has been waited for, everything is there. *)
Lemma complete_all t : tracks t → cmask masks q ⊆ done_of t → expected (sources_of t) (t_base_tuples t) = [t_base_tuples t].
Proof.
  intros Ht Hm. assert (srcs ⊆ sources_of t) as Hsub.
  { intros r Hr. destruct (decide (r = s0)) as [->|Hne]; [apply (tk_root _ Ht)|].
    destruct (qo_waits Hq r Hr Hne) as (i & Hi & Him). apply (tk_done _ Ht i); [by apply Hm|]. by apply (po_stems _ _ _ _ _ _ _ Hp r i) in Hi as [_ ?]. }
  apply expected_all; [done|]. rewrite satisfied_alt. split; [intros r Hr; by apply (tk_linked _ Ht), Hsub|].
  apply accepts_alt. intros s i Hs Hi. pose proof (good_fits _ _ _ (tk_good _ Ht)) as Htr.
  destruct (ms i) as [g|n] eqn:E; [|by unfold accepted; rewrite E]. apply dec_stable. intros Hna.
  apply Hna, (tk_passed _ Ht), Hm, (qo_filters Hq s i g t Hs Hi E). apply dec_stable. intros Hnf. by apply Hna, (accepted_fails i g t).
Qed.

(** A tuple that the query wants has somewhere to go. *)
Lemma wants_unsettled t : wants t → ¬ settled t.
Proof.
  intros [Ht Ho Hpd] [Hs|Hs]; [apply Ho; rewrite Hs; apply elem_of_below, (qo_id Hq)|].
  assert (∀ k r, depth r ≤ k → r ∈ srcs → r ∈ sources_of t) as Hall.
  { induction k as [|k IH]; intros r Hk Hr; (destruct (decide (r = s0)) as [->|Hne]; [apply (tk_root _ Ht)|]);
      destruct (qo_parent Hq r Hr Hne) as [Hpr Hd]; [lia|].
    destruct (qo_joiner Hq r Hr Hne) as [Hj Hon]. destruct (tk_ops _ Ht (parent r) (joiner r)) as [Hin|[Hin|(s' & Hs' & Hin)]];
      [apply IH; [lia|done]|done|by rewrite Hs in Hin|by apply (tk_done _ Ht (joiner r))|].
    apply (po_stems _ _ _ _ _ _ _ Hp s') in Hin as [_ Hin]. by rewrite (stem_on_fun _ _ _ Hon Hin). }
  apply Hpd. intros i Hi. destruct (qo_mask Hq i Hi) as (s & Hsin & His). assert (s ∈ sources_of t) as Hst by (by apply (Hall (depth s))).
  destruct His as [His|His]; [|by apply (tk_stems _ Ht s)].
  destruct (tk_ops _ Ht s i Hst His) as [Hin|[Hin|(s' & Hs' & Hin)]]; [by rewrite Hs in Hin|done|]. by apply (tk_stems _ Ht s').
Qed.

(** ** The next tuples *)

Lemma mark_bits i u : iht_wf u → i < 96 → ready_of (mark i u) = ready_of u ∖ {[i]} ∧ done_of (mark i u) = {[i]} ∪ done_of u
  ∧ completed_of (mark i u) = completed_of u.
Proof. intros [Hw _ _] Hi. by destruct (mark_ok i u Hw Hi) as (_ & ? & ? & ?). Qed.

(** A filter lets the tuple pass. *)
Lemma tracks_filter i g t c : tracks t → i ∈ ready_of t → ms i = AGSFilter g → ¬ fails_on g t q → wf 128 c →
  good live travels (mark i (with_completed t c)) → tracks (mark i (with_completed t c)).
Proof.
  intros Ht Hi E Hf Hc Hg. pose proof (good_fits _ _ _ (tk_good _ Ht)) as Htr.
  assert (i < 96) as Hi96 by (by apply elem_of_below, (bits_of_below 96 (t_ready t))).
  destruct (mark_bits i (with_completed t c)) as (Er & Ed & _); [|done|].
  { destruct (tv_wf _ _ _ _ _ _ Htr) as [[? ? _] ? ?]. by constructor. }
  change (ready_of (with_completed t c)) with (ready_of t) in Er. change (done_of (with_completed t c)) with (done_of t) in Ed.
  destruct Ht as [Hg0 H1 H2 H3 H4 H5 H6 H7 H8]. constructor; rewrite ?Er, ?Ed; try done.
  - intros s j Hs Hj. destruct (H4 s j Hs Hj) as [Hin|[Hin|Hin]]; [|right; left; set_solver|by right; right].
    destruct (decide (j = i)) as [->|]; [right; left; set_solver|left; set_solver].
  - intros s Hs. rewrite (H5 s Hs). set_solver.
  - intros j r [->%elem_of_singleton|Hj]%elem_of_union Hon; [|by apply (H6 j)]. destruct Hon as (n & En & _). congruence.
  - intros j [->%elem_of_singleton|Hj]%elem_of_union; [|by apply H7]. by apply (accepted_fails i g t).
Qed.

(** The stream of an operator that the tuple is ready for is a new one, joined with one it has. *)
Lemma ready_joiner t i n : tracks t → i ∈ ready_of t → ms i = AnFSteM n → let r := source_of n in
  r ∈ srcs ∧ r ≠ s0 ∧ r ∉ sources_of t ∧ i = joiner r ∧ parent r ∈ sources_of t
  ∧ q ∈ FStem.usedByQueries n ∧ wf 128 (interestedQueries n) ∧ q ∉ bits_of 128 (interestedQueries n).
Proof.
  intros Ht Hi E r. pose proof (good_fits _ _ _ (tk_good _ Ht)) as Htr.
  destruct (tv_ready _ _ _ _ _ _ Htr i Hi) as (s & Hs & His). assert (s ∈ srcs) as Hss by (by apply (tk_within _ Ht)).
  assert (r ∉ sources_of t) as Hnew by (apply (tv_stem _ _ _ _ _ _ Htr i); [done|by exists n]).
  destruct (qo_uses Hq s i n Hss His E) as (Hu & Hw & Hint & Hor). fold r in Hor.
  assert (r ≠ s0) as Hr0 by (intros ->; apply Hnew, (tk_root _ Ht)).
  destruct Hor as [(Hr & Hj & Hpr)|Hps]; [by split_and!; try done; rewrite Hpr|]. exfalso.
  destruct (decide (s = s0)) as [->|Hne].
  - destruct (qo_root Hq) as [_ Hroot]. congruence.
  - apply Hnew. rewrite <- Hps. by apply (tk_closed _ Ht).
Qed.

Lemma tracks_joined i n t c x h u : tracks t → i ∈ ready_of t → i ∈ live → ms i = AnFSteM n →
  joins e contents genuine i n t c x h u → linked parent link (<[source_of n := Some h]> (t_base_tuples t)) (source_of n) →
  good live travels (mark i u) → tracks (mark i u).
Proof.
  intros Ht Hi Hl E [_ _ _ _ Eb Es Hwu Ed Ejr _] Hlk Hg. pose proof (good_fits _ _ _ (tk_good _ Ht)) as Htr.
  destruct (ready_joiner t i n Ht Hi E) as (Hr & Hr0 & Hnew & Hj & Hpr & _). set (r := source_of n) in *.
  assert (i < 96) as Hi96 by (by apply elem_of_below, (bits_of_below 96 (t_ready t))).
  destruct (mark_bits i u Hwu Hi96) as (Emr & Emd & _).
  assert (stem_on i r) as Hon by (by exists n).
  assert (sources_of (mark i u) = sources_of t ∪ {[r]}) as Ems by exact Es.
  assert (t_base_tuples (mark i u) = <[r := Some h]> (t_base_tuples t)) as Emb by exact Eb.
  assert (∀ s, s ∈ sources_of t → <[r := Some h]> (t_base_tuples t) !! s = t_base_tuples t !! s) as Hsame
    by (intros s Hs; apply list_lookup_insert_ne; by intros ->).
  destruct Ht as [Hg0 H1 H2 H3 H4 H5 H6 H7 H8].
  assert (∀ j, j ∈ stems r → stem_on j r) as Hstems by (intros j Hjs; by apply (po_stems _ _ _ _ _ _ _ Hp r j) in Hjs as [_ ?]).
  constructor; rewrite ?Emr, ?Emd, ?Ed, ?Ems, ?Emb; try done.
  - set_solver.
  - set_solver.
  - intros s [Hs| ->%elem_of_singleton]%elem_of_union Hne; [|set_solver]. apply elem_of_union. left. by apply H3.
  - intros s j Hs Hjs. destruct (decide (j = i)) as [->|Hji]; [right; left; set_solver|].
    destruct (decide (j ∈ stems r)) as [|Hnr]; [right; left; set_solver|].
    assert (j ∉ bits_of 96 (eventOperators e)) as Hev by (intros Hev; by apply (po_events _ _ _ _ _ _ _ Hp s j)).
    assert ((∃ s', s' ∈ sources_of t ∧ j ∈ stems s') ∨ ∀ s', s' ∈ sources_of t → j ∉ stems s') as [(s' & Hs' & Hjn)|Hnone].
    { destruct (decide (Exists (λ s', j ∈ stems s') (elements (sources_of t)))) as [Hex|Hno].
      - left. apply Exists_exists in Hex as (s' & Hs' & ?). exists s'. split; [by apply elem_of_elements|done].
      - right. intros s' Hs' Hjs'. apply Hno, Exists_exists. exists s'. split; [by apply elem_of_elements|done]. }
    { right. right. exists s'. set_solver. }
    apply elem_of_union in Hs as [Hs| ->%elem_of_singleton].
    + destruct (H4 s j Hs Hjs) as [Hin|[Hin|(s' & Hs' & Hin)]]; [left|right; left; set_solver|by destruct (Hnone s' Hs')].
      apply elem_of_difference. split; [apply Ejr; split_and!; try done; set_solver|set_solver].
    + left. apply elem_of_difference. split; [apply Ejr; split_and!; try done; set_solver|set_solver].
  - intros s [Hs| ->%elem_of_singleton]%elem_of_union; [rewrite (H5 s Hs)|]; set_solver.
  - intros j d Hjd Hond. apply elem_of_union. apply elem_of_union in Hjd as [->%elem_of_singleton|[Hjd|Hjd]%elem_of_union].
    + right. apply elem_of_singleton. by apply (stem_on_fun i).
    + left. by apply (H6 j).
    + right. apply elem_of_singleton. apply (stem_on_fun j); [done|by apply Hstems].
  - assert (∀ j d, stem_on j d → accepted (<[r := Some h]> (t_base_tuples t)) j) as Hstem
      by (intros j d (m & Em & _); unfold accepted; by rewrite Em).
    intros j [->%elem_of_singleton|[Hj'|Hj']%elem_of_union]%elem_of_union; [by eapply Hstem| |by eapply Hstem, Hstems].
    destruct (tv_done _ _ _ _ _ _ Htr j Hj') as (s & Hs & [Hjs|Hjs]).
    + apply (accepted_local s j _ (t_base_tuples t)); [by apply H2|done|by apply Hsame|by apply H7].
    + apply (po_stems _ _ _ _ _ _ _ Hp s j) in Hjs as [_ Hjs]. by eapply Hstem.
  - intros r' [Hr'| ->%elem_of_singleton]%elem_of_union Hne; [|done]. specialize (H8 r' Hr' Hne). unfold linked in *.
    by rewrite !Hsame by auto.
Qed.

(** ** What an operator's answers are worth *)

Lemma expects_completed u : q ∈ completed_of u → expects u = [].
Proof. intros H. unfold expects. by rewrite decide_True. Qed.

(** A filter keeps what is expected, or nothing is. *)
Lemma expects_filter i g t : tracks t → q ∉ completed_of t → i ∈ ready_of t → i ∈ live → ms i = AGSFilter g →
  EddyGSF.answers g t ≫= expects = expects t
  ∧ ∀ u, u ∈ EddyGSF.answers g t → q ∉ completed_of u → good live travels (mark i u) → tracks (mark i u).
Proof.
  intros Ht Ho Hi Hl E. pose proof (good_fits _ _ _ (tk_good _ Ht)) as Htr. pose proof (tv_wf _ _ _ _ _ _ Htr) as [[Wr Wd Wc] _ _].
  destruct (answers_ok g t (po_filter _ _ _ _ _ _ _ Hp i g Hl E) Wc) as (c & Hc & Ec & Ea & _).
  assert (fails_on g t q → expects t = []) as Hnone.
  { intros Hf. unfold expects. rewrite decide_False by done. destruct (tv_ready _ _ _ _ _ _ Htr i Hi) as (s & Hs & His).
    apply expected_none. intros b' Hb' Hacc. assert (s ∈ srcs) as Hss by (by apply (tk_within _ Ht)).
    assert (accepted b' i) as Hai by (by apply (proj1 (accepts_alt b') Hacc s)).
    apply (accepted_local s i b' (t_base_tuples t) Hss His (Hb' s Hs)) in Hai. by apply (accepted_fails i g t) in Hai. }
  rewrite Ea. case_decide as Hd.
  - split; [|by intros u ?%elem_of_nil]. cbn. symmetry. apply Hnone. assert (q ∈ bits_of 128 c) as Hin.
    { destruct Hd as [-> _]. apply elem_of_below, (qo_id Hq). } by apply Ec in Hin as [?|?].
  - split.
    + cbn. rewrite app_nil_r. destruct (decide (q ∈ bits_of 128 c)) as [Hin|Hin].
      * rewrite expects_completed by done. symmetry. apply Hnone. by apply Ec in Hin as [?|?].
      * unfold expects. rewrite decide_False by exact Hin. by rewrite decide_False.
    + intros u ->%list_elem_of_singleton Hno Hg. apply (tracks_filter i g); try done. intros Hf. apply Hno, Ec. by right.
Qed.

Lemma early_out_not n t : q ∈ FStem.usedByQueries n → wf 128 (interestedQueries n) → q ∉ bits_of 128 (interestedQueries n) →
  wf 128 (t_queriesCompleted t) → q ∉ completed_of t → early_out e n t = false.
Proof.
  intros _ Hwi Hqi Hwc Hqc. unfold early_out. apply andb_false_iff. right. apply negb_false_iff.
  set (z := replicate _ _). assert (wf 128 z) as Hz by (split; [done|by apply Forall_replicate]).
  change TCQMAXQUERIES with 128. apply (IsAnyCleared_set 16).
  - change (8 * 16) with 128. apply Or_wf; [apply Hwi|apply Hwc|done].
  - change (8 * 16) with 128. rewrite Or_set by done. intros Eb.
    assert (q ∈ below 128) as Hin by (apply elem_of_below, (qo_id Hq)). rewrite <- Eb in Hin. by apply elem_of_union in Hin as [?|?].
Qed.

(** An FSteM's answers carry the combinations with its stored tuples. *)
Lemma joined_expects i n t c x h u : tracks t → i ∈ ready_of t → i ∈ live → ms i = AnFSteM n → q ∉ completed_of t → q ∈ c.2 →
  joins e contents genuine i n t c x h u →
  expects u = expected (sources_of t ∪ {[source_of n]}) (merge (t_base_tuples t) (t_base_tuples x)).
Proof.
  intros Ht Hi Hl E Ho Hc Hj. pose proof (good_fits _ _ _ (tk_good _ Ht)) as Htr. unfold expects. rewrite decide_False.
  - rewrite (jn_sources _ _ _ _ _ _ _ _ _ _ Hj), (jn_base _ _ _ _ _ _ _ _ _ _ Hj), (sa_base _ _ _ _ (jn_stored _ _ _ _ _ _ _ _ _ _ Hj)).
    by rewrite merge_alone by apply (tv_wf _ _ _ _ _ _ Htr).
  - rewrite (jn_completed _ _ _ _ _ _ _ _ _ _ Hj). tauto.
Qed.

Lemma alone_inj r (h h' : HT) : r < 64 → alone r h = alone r h' → h = h'.
Proof.
  intros Hr E. assert (alone r h !! r = alone r h' !! r) as E' by (by rewrite E). unfold alone in E'.
  rewrite !list_lookup_insert_eq in E' by (by rewrite length_replicate). congruence.
Qed.

Lemma found_perm (k : Q) t segs : concat (found k t <$> segs)
  ≡ₚ joined t <$> base.filter (λ x, ExecQual k (t_base_tuples x) (t_base_tuples t) = true) (concat segs).
Proof.
  induction segs as [|seg segs IH]; [done|]. cbn [fmap list_fmap concat]. rewrite filter_app, fmap_app, IH. f_equiv.
  unfold found. by rewrite reverse_Permutation.
Qed.

Lemma matches_bind {B : Type} (G : FSteMClauses Q * IHT HT → list B) t segs ps :
  matches_of t segs ps ≫= G
  ≡ₚ base.filter (λ kc, applies kc.1 t = true) ps ≫= λ kc,
       base.filter (λ x, ExecQual kc.2.1 (t_base_tuples x) (t_base_tuples t) = true) (concat segs) ≫= λ x, G (kc.2, joined t x).
Proof.
  induction ps as [|[k c] ps IH]; [done|].
  change (matches_of t segs ((k, c) :: ps))
    with ((if applies k t then (λ u, (c, u)) <$> concat (found c.1 t <$> segs) else []) ++ matches_of t segs ps).
  rewrite bind_app, IH, filter_cons. cbn [fst snd]. destruct (applies k t) eqn:Ea.
  - rewrite decide_True by done. cbn [mbind list_bind]. f_equiv. rewrite list_fmap_bind, found_perm, list_fmap_bind. done.
  - rewrite decide_False by done. done.
Qed.

Lemma expects_fstem i n t : tracks t → q ∉ completed_of t → i ∈ ready_of t → i ∈ live → ms i = AnFSteM n →
  fstem_answers e n t (contents i) ≫= expects ≡ₚ expects t
  ∧ ∀ u, u ∈ fstem_answers e n t (contents i) → q ∉ completed_of u → good live travels (mark i u) → tracks (mark i u).
Proof.
  intros Ht Ho Hi Hl E. pose proof (good_fits _ _ _ (tk_good _ Ht)) as Htr. pose proof (tv_wf _ _ _ _ _ _ Htr) as Hwt.
  pose proof (po_takes _ _ _ _ _ _ _ Hp i n t Hl E Htr Hi) as Htk.
  destruct (ready_joiner t i n Ht Hi E) as (Hr & Hr0 & Hnew & Hj & Hpr & Hu & Hwi & Hint). set (r := source_of n) in *.
  assert (early_out e n t = false) as Hearly by (apply early_out_not; [done..|apply Hwt|done]).
  destruct (probed_ok e spins ms contents live genuine side i n t Hp Hl E Hwt) as [_ Hpq].
  destruct (tv_in _ _ _ _ _ _ Htr (parent r) Hpr) as (hp & Ehp & _).
  destruct (qo_clause Hq r n t hp Hr Hr0) as (k & c & Eused & Hclause); [by rewrite <- Hj|done|apply (tk_within _ Ht)|done|done|].
  assert (r < 64) as Hr64 by (by apply (source_of_ok e spins ms contents live genuine side i n)).
  assert (∀ c' x h u, q ∈ c'.2 → joins e contents genuine i n t c' x h u → c' = c ∧ h ∈ stored r ∧ link r hp h = true) as Hlink.
  { intros c' x h u Hc' Hjn. destruct (jn_pair _ _ _ _ _ _ _ _ _ _ Hjn) as (k' & Hk' & Ha').
    assert ((k', c') ∈ used_pairs n t) as Hin by (apply list_elem_of_filter; by split). rewrite Eused in Hin.
    apply list_elem_of_singleton in Hin as [= -> ->]. split; [done|].
    pose proof (jn_stored _ _ _ _ _ _ _ _ _ _ Hjn) as Hst. pose proof (sa_base _ _ _ _ Hst) as Eb. fold r in Eb.
    assert (h ∈ stored r) as Hh.
    { assert (t_base_tuples x ∈ t_base_tuples <$> concat (contents i)) as Hin by (apply list_elem_of_fmap; exists x; split; [done|apply Hjn]).
      rewrite Hj, (qo_stored Hq r Hr Hr0), Eb in Hin. apply list_elem_of_fmap in Hin as (h' & Eh & Hin). by apply alone_inj in Eh as ->. }
    split; [done|]. rewrite <- (Hclause h Hh), <- Eb. apply Hjn. }
  unfold fstem_answers. rewrite Hearly. split.
  - rewrite bind_app. assert (bounced n t ≫= expects = []) as ->.
    { apply bind_nil_all. unfold bounced. intros u [_ ->%list_elem_of_singleton]%list_elem_of_filter. apply expects_completed, Hpq. by right. }
    rewrite app_nil_r. unfold outs. set (L := matches_of _ _ _).
    assert (∀ c' u, (c', u) ∈ L → ∃ x h, u = joined t x ∧ joins e contents genuine i n t c' x h (out_tuple e n t (c', u))) as HL
      by (intros c' u Hin; by apply (out_tuple_joins e spins ms contents live genuine side)).
    assert (∀ c' u, (c', u) ∈ L → q ∉ c'.2 → expects (out_tuple e n t (c', u)) = []) as Hother.
    { intros c' u Hin Hc'. destruct (HL c' u Hin) as (x & h & _ & Hjn). apply expects_completed.
      rewrite (jn_completed _ _ _ _ _ _ _ _ _ _ Hjn). right. by split. }
    rewrite bind_filter.
    2:{ intros o ([c' u] & -> & Hin)%list_elem_of_fmap Hnw. destruct (HL c' u Hin) as (x & h & _ & Hjn). apply expects_completed.
      apply dec_stable. intros Hno. apply Hnw. unfold wanted. apply (IsAnyCleared_set 16); [apply (jn_wf _ _ _ _ _ _ _ _ _ _ Hjn)|].
      intros Eall. change (8 * 16) with 128 in Eall. apply Hno. unfold completed_of. rewrite Eall. apply elem_of_below, (qo_id Hq). }
    rewrite list_fmap_bind. unfold L. rewrite matches_bind.
    rewrite <- (bind_filter (λ kc : N * FSteMClauses Q, q ∈ kc.2.2)).
    2:{ intros [k' c'] [Ha Hin]%list_elem_of_filter Hc'. apply bind_nil_all. intros x [Hm Hx]%list_elem_of_filter. apply Hother; [|done].
      unfold L, matches_of. apply list_elem_of_bind. exists (k', c'). split; [|done]. cbn [fst snd] in *. rewrite Ha. apply list_elem_of_fmap.
      exists (joined t x). split; [done|]. rewrite found_perm. apply list_elem_of_fmap. exists x. split; [done|]. by apply list_elem_of_filter. }
    assert (base.filter (λ kc : N * FSteMClauses Q, q ∈ kc.2.2) (base.filter (λ kc, applies kc.1 t = true) (pairs (fstemouterhashkeys n)))
      = [(k, c)]) as ->.
    { rewrite <- Eused. unfold used_pairs. rewrite list_filter_filter. apply list_filter_iff. tauto. }
    cbn [mbind list_bind fst snd]. rewrite app_nil_r.
    assert (q ∈ c.2) as Hc.
    { assert ((k, c) ∈ used_pairs n t) as Hin by (rewrite Eused; by left). by apply list_elem_of_filter in Hin as [[_ ?] _]. }
    assert ((k, c) ∈ pairs (fstemouterhashkeys n) ∧ applies k t = true) as [Hkin Ha].
    { assert ((k, c) ∈ used_pairs n t) as Hin by (rewrite Eused; by left). by apply list_elem_of_filter in Hin as [[? _] ?]. }
    unfold compose. etransitivity.
    { apply (bind_perm _ (λ x, expected (sources_of t ∪ {[r]}) (merge (t_base_tuples t) (t_base_tuples x)))).
      intros x [Hm Hx]%list_elem_of_filter. assert ((c, joined t x) ∈ L) as Hin.
      { unfold L, matches_of. apply list_elem_of_bind. exists (k, c). split; [|done]. rewrite Ha. apply list_elem_of_fmap.
        exists (joined t x). split; [done|]. rewrite found_perm. apply list_elem_of_fmap. exists x. split; [done|]. by apply list_elem_of_filter. }
      destruct (HL c _ Hin) as (x' & h & Ex & Hjn). rewrite (joined_expects i n t c x' h _ Ht Hi Hl E Ho Hc Hjn). fold r.
      assert (merge (t_base_tuples t) (t_base_tuples x) = merge (t_base_tuples t) (t_base_tuples x')) as ->; [|done].
      change (t_base_tuples (joined t x) = t_base_tuples (joined t x')). by rewrite Ex. }
    set (T := sources_of t ∪ {[r]}). set (bt := t_base_tuples t). pose (P := λ bx, ExecQual c.1 bx bt = true).
    assert ((base.filter (λ x, ExecQual c.1 (t_base_tuples x) bt = true) (concat (contents i)) ≫= λ x, expected T (merge bt (t_base_tuples x)))
      = base.filter (λ bx, ExecQual c.1 bx bt = true) (t_base_tuples <$> concat (contents i)) ≫= λ bx, expected T (merge bt bx)) as ->
      by apply (filter_map_bind P (H := λ bx, bool_eq_dec _ true) t_base_tuples (λ bx, expected T (merge bt bx))).
    assert (t_base_tuples <$> concat (contents i) = alone r <$> stored r) as -> by (rewrite Hj; by apply (qo_stored Hq)).
    assert (base.filter (λ bx, ExecQual c.1 bx bt = true) (alone r <$> stored r) ≫= (λ bx, expected T (merge bt bx))
      = base.filter (λ h, ExecQual c.1 (alone r h) bt = true) (stored r) ≫= λ h, expected T (merge bt (alone r h))) as ->
      by (symmetry; apply (filter_map_bind P (H := λ bx, bool_eq_dec _ true) (alone r) (λ bx, expected T (merge bt bx)))).
    rewrite (filter_ext_in _ (λ h, link r hp h = true)) by (intros h Hh; unfold bt; by rewrite Hclause).
    unfold expects. rewrite decide_False by done. pose proof (iw_base _ Hwt) as Hlen.
    rewrite (expected_step s0 srcs parent link accepts stored (sources_of t) (t_base_tuples t) r hp) by (done || lia).
    apply bind_perm. intros h _. by rewrite merge_alone.
  - intros u Hin Hno Hg.
    destruct (fstem_answer_cases e spins ms contents live genuine side i n t u Hp Hl E Htk) as [[_ Ee]|[(c' & x & h & _ & Hjn)| ->]].
    + unfold fstem_answers. by rewrite Hearly.
    + congruence.
    + assert (q ∈ c'.2) as Hc'. { apply dec_stable. intros Hc'. apply Hno. rewrite (jn_completed _ _ _ _ _ _ _ _ _ _ Hjn). right. by split. }
      destruct (Hlink c' x h u Hc' Hjn) as (-> & _ & Hlk). apply (tracks_joined i n t c x h u); try done. fold r. unfold linked.
      assert (r ≠ parent r) as Hne by (intros Er; by rewrite <- Er in Hpr). rewrite list_lookup_insert_ne, Ehp by done. rewrite list_lookup_insert_eq; [done|].
      rewrite (iw_base _ Hwt). done.
    + destruct Hno. apply Hpq. by right.
Qed.

(** ** The exploration *)

(** A tuple that is announced is complete for the query, or goes on. *)
Lemma announced_expected k t t' e1 e2 :
  (∀ t evs, unseen t ≤ k → wants t → visits (asked e ms contents) qids masks t evs →
     delivered q evs ≡ₚ expected (sources_of t) (t_base_tuples t)) →
  tracks t → q ∉ completed_of t → announced qids masks t t' e1 → visits (asked e ms contents) qids masks t' e2 → unseen t' ≤ k →
  delivered q (e1 ++ e2) ≡ₚ expected (sources_of t) (t_base_tuples t).
Proof.
  intros IH Ht Ho Ha Hv Hk. pose proof (plan_fits e spins ms contents live genuine side Hp) as Hfg.
  pose proof (announced_good _ _ _ _ _ _ _ (fg_completed _ _ _ _ _ _ Hfg) Ha (tk_good _ Ht)) as Hg'.
  destruct (announced_same _ _ _ _ _ Ha (good_wf _ _ _ (tk_good _ Ht))) as (_ & Er' & Ed' & Ec' & Eb').
  rewrite delivered_app, (announced_delivered _ _ _ _ _ q Ha). destruct (decide (q ∈ due qids masks t)) as [Hdue|Hdue].
  - rewrite (visits_dead live (asked e ms contents) travels qids masks (fg_child _ _ _ _ _ _ Hfg) (fg_completed _ _ _ _ _ _ Hfg)
      q (unseen t') t' e2); [|done|done|rewrite Ec'; set_solver|done].
    apply EddyAnswer.elem_of_due in Hdue as (_ & Hdone & _). by rewrite (complete_all _ Ht Hdone).
  - cbn [app]. assert (sources_of t' = sources_of t) as Es' by (by destruct Ha).
    rewrite (IH t' e2); [by rewrite Es', Eb'|done| |done].
    assert (ready_of t' = ready_of t ∧ done_of t' = done_of t) as [Rr Rd] by (unfold ready_of, done_of; by rewrite Er', Ed').
    constructor.
    + destruct Ht as [H0 H1 H2 H3 H4 H5 H6 H7 H8]. constructor; rewrite ?Rr, ?Rd, ?Es', ?Eb'; done.
    + rewrite Ec'. set_solver.
    + intros Hsub. apply Hdue, EddyAnswer.elem_of_due. split; [apply (qo_id Hq)|]. by rewrite <- Rd.
Qed.

Lemma visits_expected k : ∀ t evs, unseen t ≤ k → wants t → visits (asked e ms contents) qids masks t evs →
  delivered q evs ≡ₚ expected (sources_of t) (t_base_tuples t).
Proof.
  pose proof (plan_fits e spins ms contents live genuine side Hp) as Hfg.
  induction k as [|k IH]; intros t evs Hk Hw Hv; inversion Hv as [|? i ? Hne Hi Hall]; subst; try by destruct (wants_unsettled t Hw).
  all: destruct Hw as [Ht Ho Hpd]; pose proof (tk_good _ Ht) as Hg.
  all: assert (i < 96) as Hi96 by (by apply elem_of_below, (bits_of_below 96 (t_ready t))).
  { assert (i ∉ done_of t) as Hid by (intros ?; by apply (good_fresh _ _ _ Hg i)). apply (unseen_pos i) in Hid; [lia|done]. }
  assert (i ∈ live) as Hl by (by apply (good_live _ _ _ Hg)).
  assert (asked e ms contents i t ≫= expects ≡ₚ expects t
    ∧ ∀ u, u ∈ asked e ms contents i t → q ∉ completed_of u → good live travels (mark i u) → tracks (mark i u)) as [Ebind Htr].
  { unfold asked. destruct (ms i) as [g|n] eqn:E; [|by apply expects_fstem].
    destruct (expects_filter i g t Ht Ho Hi Hl E) as [-> ?]. by split. }
  assert (expects t = expected (sources_of t) (t_base_tuples t)) as <- by (unfold expects; by rewrite decide_False). rewrite <- Ebind.
  eapply visits_all_each; [|exact Hall]. intros u u' e1 e2 Hu Ha Hv2.
  pose proof (fg_child _ _ _ _ _ _ Hfg i t u Hl Hg Hi Hu) as Hc.
  destruct (announced_child live (asked e ms contents) travels qids masks (fg_child _ _ _ _ _ _ Hfg)
    (fg_completed _ _ _ _ _ _ Hfg) i t u u' e1 Hl Hg Hi Hu Ha) as (Hg' & _ & _ & Hcu & Hun).
  destruct (mark_good live travels i t u Hc Hi96) as [Hgm _].
  destruct (mark_ok i u (child_wf _ _ _ _ _ Hc) Hi96) as (_ & _ & _ & Ecm).
  destruct (decide (q ∈ completed_of u)) as [Hqu|Hqu].
  - rewrite expects_completed, delivered_app, (announced_delivered _ _ _ _ _ q Ha) by done.
    rewrite decide_False by (rewrite EddyAnswer.elem_of_due, Ecm; tauto).
    rewrite (visits_dead live (asked e ms contents) travels qids masks (fg_child _ _ _ _ _ _ Hfg) (fg_completed _ _ _ _ _ _ Hfg)
      q (unseen u') u' e2); auto.
  - unfold expects. rewrite (decide_False (P := q ∈ completed_of u)) by done.
    apply (announced_expected k (mark i u) u' e1 e2 IH); [by apply Htr|by rewrite Ecm|done|done|by apply Hun].
Qed.
(** A new tuple, and all that comes of it. *)
Lemma new_tuple_expected t t' e1 e2 : good live travels t → sources_of t = {[s0]} → ready_of t = ops s0 → done_of t = stems s0 →
  q ∉ completed_of t → announced qids masks t t' e1 → visits (asked e ms contents) qids masks t' e2 →
  delivered q (e1 ++ e2) ≡ₚ expected {[s0]} (t_base_tuples t).
Proof.
  intros Hg Es Er Ed Ho Ha Hv. rewrite <- Es. apply (announced_expected (unseen t') t t' e1 e2); try done.
  { intros u evs. apply visits_expected. }
  assert (∀ i r, i ∈ stems s0 → stem_on i r → r = s0) as Hstems.
  { intros i r Hi Hon. apply (po_stems _ _ _ _ _ _ _ Hp s0 i) in Hi as [_ Hi]. by apply (stem_on_fun i). }
  constructor; rewrite ?Er, ?Ed, ?Es; try done.
  - by apply elem_of_singleton.
  - intros s ->%elem_of_singleton. apply (qo_root Hq).
  - by intros s ->%elem_of_singleton.
  - intros s i ->%elem_of_singleton Hi. by left.
  - by intros s ->%elem_of_singleton.
  - intros i r Hi Hon. rewrite (Hstems i r Hi Hon). by apply elem_of_singleton.
  - intros i Hi. apply (po_stems _ _ _ _ _ _ _ Hp s0 i) in Hi as [_ (n & E & _)]. unfold accepted. by rewrite E.
  - by intros r ->%elem_of_singleton.
Qed.
End answer.
End EddyJoinAnswer.
