(* ===== verification/EddyJoinServe.v ===== *)
(** * The continuous-query eddy: from a stream to the join queries

    A tuple that the eddy takes from a source is first built into the FSteMs of
    its stream ([buildStemsNoDup] of [src/src/backend/executor/nodeScanModule.c])
    and then explores the operators; every query that joins the stream with
    others is sent its combinations with what they have stored, each once. *)

From S2P Require Import Prelude BitArray GSFilter GSFilterNode Eddy EddyLoop EddySpec EddyRoute EddyGSF EddyServe Stem StemSpec FStem FStemRing FStemWindow FStemProbe FStemJoin FStemAnswer EddyModules EddyJoin EddyJoinSpec EddyJoinAnswer.

Module EddyJoinServe.
Import Bit Eddy EddyLoop EddySpec EddyRoute EddyGSF EddyServe Stem StemSpec FStem FStemRing FStemWindow FStemProbe FStemJoin FStemAnswer EddyModules EddyJoin EddyJoinSpec EddyJoinAnswer.
#[local] Opaque bits_of below.

Section serve.
Context {V C HT N Q TS W F : Type} `{EqDecision C} `{!Tuples V N HT} `{!FStemEnv HT N Q TS W} `{!Double F}.
Local Abbreviation module := (EddyModules.module V C HT N Q TS W).
Local Abbreviation fstem := (FSteM HT N Q TS W).
Local Abbreviation state := (EddyState module HT F).
Implicit Types (n : fstem) (t u : IHT HT) (st : state).

(** What the FSteMs see, the bound of their loops, and what new memory holds. *)
Context (e : EddyBits) (fspins : nat) (temp : IHT HT).
#[local] Existing Instance module_fjord.
Local Abbreviation fjord := (module_fjord e fspins temp).

(** ** Building *)

Context (windows : nat → option W) (contents : nat → list (list (IHT HT))).

(** An FSteM that can take a tuple of its stream. *)
Record can_build n i t : Prop := {
  cb_planned : planned e n;
  cb_resting : resting n (contents i);
  cb_output : outputq n = [];
  cb_window : window_of n (windows i);
  cb_source : BitArrayEqual (sourceBuiltOn (protostem (ring n))) (t_sources t) TCQMAXSOURCES = true;
  cb_hashed : hashed n t
}.

Lemma scrub_done t d : wf 96 (t_done t) → wf 96 d → scrub true (with_done t d) = scrub true t.
Proof.
  intros Ht Hd. unfold scrub. cbn [t_base_tuples t_sources t_ready t_done t_queriesCompleted isAggTuple with_done negb].
  change TCQMAXOPERATORS with (8 * 12). rewrite (wf_ext 12 (BitArrayClearAll d (8 * 12)) (BitArrayClearAll (t_done t) (8 * 12))); [done|..].
  1,2: by apply ClearAll_wf.
  change (8 * 12) with 96. by rewrite !ClearAll_set.
Qed.

Lemma build_done w t d segs : wf 96 (t_done t) → wf 96 d → build w (with_done t d) segs = build w t segs.
Proof.
  intros Ht Hd. pose proof (scrub_done t d Ht Hd) as E. unfold build.
  assert (∀ l, add_last (with_done t d) l = add_last t l) as ->.
  { induction l as [|seg l IH]; [done|]. cbn [add_last]. by rewrite E, IH. }
  f_equal. unfold make_space. assert (match w with Some w => drop_gone w (with_done t d) segs | None => segs end
    = match w with Some w => drop_gone w t segs | None => segs end) as ->; [|done].
  destruct w as [w|]; [|done]. clear. induction segs as [|seg segs IH]; [done|]. cbn [drop_gone]. by rewrite IH.
Qed.

(** The module [i] before and after the tuple [t] is built into it. *)
Definition built t (i : nat) (o o' : option (option module)) : Prop :=
  ∃ n n', o = Some (Some (AnFSteM n)) ∧ o' = Some (Some (AnFSteM n')) ∧ same_op n n' ∧ planned e n'
    ∧ resting n' (build (windows i) t (contents i)) ∧ outputq n' = [].

Lemma build_into_ok sb l : NoDup l → (∀ i, i ∈ l → i < 96) → ∀ st t, iht_wf temp → iht_wf t →
  (∀ i, i ∈ l → i ∈ bits_of 96 sb → ∃ n, modules st !! i = Some (Some (AnFSteM n)) ∧ can_build n i t) →
  ∃ ms' d, build_into (Fjord0 := fjord) st t sb false l = Ok (true, with_done t d, with_modules st ms')
    ∧ wf 96 d ∧ bits_of 96 d = done_of t ∪ (bits_of 96 sb ∩ list_to_set l)
    ∧ ∀ i, if decide (i ∈ l ∧ i ∈ bits_of 96 sb) then built t i (modules st !! i) (ms' !! i) else ms' !! i = modules st !! i.
Proof.
  intros Hnd Hl. induction l as [|i l IH]; intros st t Htemp Ht Hb; cbn [build_into].
  - exists (modules st), (t_done t). split; [by destruct t, st|]. split; [apply Ht|]. split; [set_solver|].
    intros i. rewrite decide_False; [done|]. by intros [?%elem_of_nil _].
  - apply NoDup_cons in Hnd as [Hil Hnd]. assert (i < 96) as Hi96 by (apply Hl; by left).
    assert (∀ j, j ∈ l → j < 96) as Hl' by (intros j Hj; apply Hl; by right).
    destruct (BitArrayBitIsSet sb i) eqn:Ebit.
    + assert (i ∈ bits_of 96 sb) as Hisb by (by apply elem_of_bits_of).
      destruct (Hb i) as (n & Em & [Hpl Hr Ho Hw Hsrc Hh]); [by left|done|]. unfold get_module. rewrite Em. cbn [access cbind].
      destruct (give_fstem_ok fspins e temp n (windows i) t (contents i) Htemp Hpl Hr Ho Hw Hsrc Hh) as (n' & E & Hs & Hp' & Hr' & Ho').
      unfold give_fstem in E. cbn [fjord_enq_inp ProcessNextNode module_fjord]. unfold fstem_enq, enqueue_iht.
      rewrite (rs_inputq _ _ Hr) in E |- *. rewrite decide_True by (apply (pl_room _ _ Hpl)). cbn [cbind app] in E |- *. rewrite E. cbn [cbind].
      set (t1 := with_done t _). assert (wf 96 (BitArraySetBit (t_done t) i)) as Hd1 by (apply SetBit_wf; [done|apply (iw_tuple _ Ht)]).
      assert (iht_wf t1) as Ht1 by (destruct Ht as [[? ? ?] ? ?]; by constructor).
      destruct (IH Hnd Hl' (put_module st i (AnFSteM n')) t1 Htemp Ht1) as (ms' & d & E' & Hd & Ed & Hms).
      { intros j Hj Hjs. destruct (Hb j) as (m & Ejm & [H1 H2 H3 H4 H5 H6]); [by right|done|]. exists m.
        cbn [put_module modules with_modules]. rewrite list_lookup_insert_ne by (by intros ->). split; [done|by constructor]. }
      exists ms', d. split; [rewrite E'; done|]. split; [done|]. split.
      { rewrite Ed. unfold done_of. cbn [t1 t_done with_done]. rewrite SetBit_set by (done || apply (iw_tuple _ Ht)).
        rewrite list_to_set_cons. set_solver. }
      intros j. specialize (Hms j). cbn [put_module modules with_modules] in Hms.
      destruct (decide (j = i)) as [->|Hji].
      * rewrite decide_False in Hms by tauto. rewrite decide_True by (split; [by left|done]). rewrite Hms.
        rewrite list_lookup_insert_eq by (by eapply lookup_lt_Some). by exists n, n'.
      * rewrite list_lookup_insert_ne in Hms by done. destruct (decide (j ∈ l ∧ j ∈ bits_of 96 sb)) as [Hin|Hin].
        -- rewrite decide_True by (split; [right; apply Hin|apply Hin]). destruct Hms as (m & m' & H1 & H2 & H3 & H4 & H5 & H6).
           exists m, m'. unfold t1 in H5. rewrite build_done in H5 by (done || apply (iw_tuple _ Ht)). done.
        -- rewrite decide_False; [done|]. intros [[->|?]%elem_of_cons ?]; tauto.
    + assert (i ∉ bits_of 96 sb) as Hisb by (rewrite elem_of_bits_of; intros [_ ?]; congruence).
      destruct (IH Hnd Hl' st t Htemp Ht) as (ms' & d & E' & Hd & Ed & Hms); [intros j Hj; apply Hb; by right|].
      exists ms', d. split; [done|]. split; [done|]. split; [rewrite Ed, list_to_set_cons; set_solver|].
      intros j. specialize (Hms j). destruct (decide (j ∈ l ∧ j ∈ bits_of 96 sb)) as [Hin|Hin].
      * rewrite decide_True by (split; [right; apply Hin|apply Hin]). done.
      * rewrite decide_False; [done|]. intros [[->|?]%elem_of_cons ?]; tauto.
Qed.
(** ** A new tuple *)

Lemma initFromBaseTuple_iht (old : IHT HT) (ht : HT) src : iht_wf old → src < 64 → let t := initFromBaseTuple old ht src in
  iht_wf t ∧ t_base_tuples t = alone src ht ∧ sources_of t = {[src]}.
Proof.
  intros [Hw Hs Hb] Hsrc. destruct (initFromBaseTuple_ok old ht src Hw) as (Hwf & _).
  assert (t_base_tuples (initFromBaseTuple old ht src) = alone src ht) as Eb.
  { unfold initFromBaseTuple, alone. cbn [t_base_tuples]. f_equal. change TCQMAXSOURCES with 64.
    apply list_eq. intros i. rewrite (for_loop_fill (λ _, None)). destruct (decide (i < 64)).
    - destruct (lookup_lt_is_Some_2 (t_base_tuples old) i) as [x ->]; [lia|]. by rewrite lookup_replicate_2.
    - rewrite lookup_ge_None_2 by lia. by rewrite lookup_ge_None_2 by (rewrite length_replicate; lia). }
  assert (wf 64 (BitArrayRealClearAll (t_sources old) 64)) as Hc by (by apply RealClearAll_wf).
  split; [|split; [exact Eb|]].
  - constructor; [done|cbn [initFromBaseTuple t_sources]; by apply SetBit_wf|]. rewrite Eb. unfold alone.
    by rewrite length_insert, length_replicate.
  - unfold sources_of, initFromBaseTuple. cbn [t_sources]. change TCQMAXSOURCES with 64. rewrite SetBit_set by done.
    rewrite RealClearAll_set by done. apply (right_id_L ∅ (∪)).
Qed.

(** The tuple the eddy starts with; [d] has the bits of the FSteMs it is built into. *)
Definition starting (t0 : IHT HT) (ops d : BitArray) (l : list nat) : IHT HT :=
  clearCompletionBits (with_ready (with_done t0 d) (BitArrayClone (t_ready (with_done t0 d)) ops TCQMAXOPERATORS)) l.
Definition started (s : ScanModule HT F) (ht : HT) (old : IHT HT) (ops d : BitArray) : IHT HT :=
  starting (initFromBaseTuple old ht (sourceID s)) ops d (scan_usedByQueries s).

Lemma starting_fields (t0 : IHT HT) ops d l : let t := starting t0 ops d l in
  t_ready t = BitArrayClone (t_ready t0) ops TCQMAXOPERATORS ∧ t_done t = d
  ∧ t_queriesCompleted t = foldl BitArrayClearBit (t_queriesCompleted t0) l
  ∧ t_sources t = t_sources t0 ∧ t_base_tuples t = t_base_tuples t0.
Proof. by split_and!. Qed.

Lemma run_source_builds (cfg : config F) drains st k s ht old ops sb :
  source_ready st k s ht old ops sb → nodup s = false → Eddy.UseTupleLineage cfg = true → iht_wf old → iht_wf temp → sourceID s < 64 →
  (∀ i, i ∈ bits_of 96 sb → ∃ n, modules st !! i = Some (Some (AnFSteM n)) ∧ can_build n i (initFromBaseTuple old ht (sourceID s))) →
  ∃ ms' d ss c,
    run_source (Fjord0 := fjord) drains cfg st k
    = got_tuple (Fjord0 := fjord) drains cfg (with_counts (with_sources (with_modules st ms') ss) c (numTuplesProcessed st)) None (started s ht old ops d)
    ∧ wf 96 d ∧ bits_of 96 d = bits_of 96 sb
    ∧ ∀ i, if decide (i ∈ bits_of 96 sb) then built (initFromBaseTuple old ht (sourceID s)) i (modules st !! i) (ms' !! i)
           else ms' !! i = modules st !! i.
Proof.
  intros [Hso Hmo Hsl Hou Hta Hol Hop Hwo Hst Hqs] Hnd Hl Hold Htemp Hsrc Hb. set (t0 := initFromBaseTuple old ht (sourceID s)) in *.
  destruct (initFromBaseTuple_iht old ht (sourceID s) Hold Hsrc) as (Ht0 & _). fold t0 in Ht0.
  destruct (build_into_ok sb (seq 0 96) (NoDup_seq 0 96)) with (st := st) (t := t0) as (ms' & d & E & Hd & Ed & Hms); try done.
  { intros i Hi%elem_of_seq. lia. }
  { intros i _ Hi. by apply Hb. }
  assert (sourceID (EddyServe.asked s) = sourceID s ∧ scan_usedByQueries (EddyServe.asked s) = scan_usedByQueries s ∧ nodup (EddyServe.asked s) = nodup s
    ∧ scan_output (EddyServe.asked s) = scan_output s) as (E1 & E2 & E3 & E4).
  { unfold EddyServe.asked. destruct (negb _); [|done]. by destruct (next_slot_same s) as (? & ? & ? & ?). }
  assert (ProcessNextScanModule (Fjord0 := fjord) cfg st k s
    = Ok (with_counts (with_sources (with_modules st ms') (<[k := Some (EddyLoop.taken (EddyServe.asked s) (started s ht old ops d))]> (sources st)))
         (total_base_tuples_remaining st - 1) (numTuplesProcessed st))) as Ep.
  { unfold ProcessNextScanModule. rewrite Hmo. fold (EddyServe.asked s). rewrite Hsl, Hl, E1, E2, E3, Hnd.
    rewrite Hta. cbn [access cbind]. unfold buildStemsNoDup. rewrite Hst. cbn [access cbind]. fold t0.
    change TCQMAXOPERATORS with 96 in *. rewrite E. cbn [cbind Eddy.operators with_modules]. rewrite Hop. cbn [access cbind negb].
    done. }
  exists ms', d. unfold run_source. rewrite Hso. cbn [access cbind]. rewrite Ep. cbn [cbind sources with_counts with_sources].
  rewrite list_lookup_insert_eq by (by eapply lookup_lt_Some). cbn [access cbind].
  unfold deq_scan. cbn [scan_output EddyLoop.taken]. rewrite E4, Hou. cbn [app]. eexists _, _. split; [reflexivity|].
  split; [done|]. split.
  - rewrite Ed. destruct (initFromBaseTuple_ok old ht (sourceID s) Hol) as (_ & _ & E0 & _). fold t0 in E0. rewrite E0.
    apply set_eq. intros i. rewrite elem_of_union, elem_of_intersection, elem_of_list_to_set, elem_of_seq.
    split; [intros [Hi|[? _]]; [by apply elem_of_empty in Hi|done]|]. intros Hi. right. split; [done|]. apply elem_of_bits_of in Hi as [? _]. lia.
  - intros i. specialize (Hms i). destruct (decide (i ∈ bits_of 96 sb)) as [Hi|Hi].
    + rewrite decide_True in Hms; [done|]. split; [|done]. apply elem_of_seq. apply elem_of_bits_of in Hi as [? _]. lia.
    + rewrite decide_False in Hms; [done|]. tauto.
Qed.
End serve.

(** ** The theorem *)

Section join.
Context {V C HT N Q TS W F : Type} `{EqDecision C} `{!Tuples V N HT} `{!FStemEnv HT N Q TS W} `{!Double F}.
Local Abbreviation module := (EddyModules.module V C HT N Q TS W).
Local Abbreviation state := (EddyState module HT F).
Implicit Types (t u : IHT HT) (st : state).

Context (e : EddyBits) (fspins : nat) (temp : IHT HT) (windows : nat → option W) (ms : nat → module) (live : gset nat).
Local Abbreviation fjord := (module_fjord e fspins temp).

(** The eddy at rest: every operator is the planned one, idle, and the FSteMs hold
    [contents]. *)
Record running (contents : nat → list (list (IHT HT))) st : Prop := {
  rn_stack : stack st = [];
  rn_arrays : 96 ≤ length (weights st) ∧ 96 ≤ length (current_tuples_returned st);
  rn_operators : FStem.operators e = Eddy.operators st;
  rn_stems : FStem.sourceStems e = Eddy.sourceStems st;
  rn_module i m : modules st !! i = Some (Some m) → i ∈ live ∧ stands e fspins ms contents live m i None;
  rn_live i : i ∈ live → i < 96 ∧ ∃ m, modules st !! i = Some (Some m)
}.

(** What the FSteMs with the bits [sb] hold when [t] has been built into them. *)
Definition with_built (sb : BitArray) t (contents : nat → list (list (IHT HT))) (i : nat) : list (list (IHT HT)) :=
  if decide (i ∈ bits_of 96 sb) then build (windows i) t (contents i) else contents i.

Context (cfg : config F) (spins drains : nat) (get_timestamp_val : HT → F) (genuine : nat → HT → Prop) (side : nat → nat → nat).

Lemma started_ok contents contents' (s : ScanModule HT F) ht old ops d st k sb : plan_ok e fspins ms contents' live genuine side →
  source_ready st k s ht old ops sb → iht_wf old → sourceID s < 64 → genuine (sourceID s) ht → running contents st →
  wf 96 d → bits_of 96 d = bits_of 96 sb →
  let t := started s ht old ops d in
  good live (travels e ms live genuine side) t ∧ t_base_tuples t = alone (sourceID s) ht ∧ sources_of t = {[sourceID s]}
  ∧ ready_of t = EddyJoin.ops e (sourceID s) ∧ done_of t = EddyJoin.stems e (sourceID s)
  ∧ completed_of t = below 128 ∖ list_to_set (scan_usedByQueries s).
Proof.
  intros Hp [Hso Hmo Hsl Hou Hta Hol Hop Hwo Hst Hqs] Hold Hsrc Hgen Hrn Hd Ed t.
  destruct (initFromBaseTuple_iht old ht (sourceID s) Hold Hsrc) as ([[Wr Wd Wc] Ws Wb] & Eb & Es).
  destruct (initFromBaseTuple_ok old ht (sourceID s) Hol) as (_ & _ & _ & Ec).
  set (t0 := initFromBaseTuple old ht (sourceID s)) in *. set (src := sourceID s) in *.
  assert (EddyJoin.ops e src = bits_of 96 ops) as Eops by (unfold EddyJoin.ops, row; by rewrite (rn_operators _ _ Hrn), Hop).
  assert (EddyJoin.stems e src = bits_of 96 sb) as Estems by (unfold EddyJoin.stems, row; by rewrite (rn_stems _ _ Hrn), Hst).
  destruct (clear_bits_ok _ (scan_usedByQueries s) Wc) as [Wc' Ec']; [done|].
  destruct (starting_fields t0 ops d (scan_usedByQueries s)) as (Br & Bd & Bc & Bs & Bb).
  change (starting t0 ops d (scan_usedByQueries s)) with t in Br, Bd, Bc, Bs, Bb.
  clearbody t0. clearbody t.
  change TCQMAXOPERATORS with 96 in Br.
  assert (wf 96 (BitArrayClone (t_ready t0) ops 96)) as Wcl by (apply Clone_wf; [by destruct Hwo|done]).
  assert (iht_wf t) as Hwt by (constructor; [constructor|..]; by rewrite ?Br, ?Bd, ?Bc, ?Bs, ?Bb).
  assert (ready_of t = EddyJoin.ops e src) as Er by (unfold ready_of; by rewrite Br, Clone_set).
  assert (done_of t = EddyJoin.stems e src) as Edn by (unfold done_of; by rewrite Bd, Ed).
  assert (sources_of t = {[src]}) as Esrc by (unfold sources_of; by rewrite Bs).
  assert (completed_of t = below 128 ∖ list_to_set (scan_usedByQueries s)) as Ecm by (unfold completed_of in *; by rewrite Bc, Ec', Ec).
  assert (t_base_tuples t = alone src ht) as Ebt by (by rewrite Bb).
  split; [|done]. constructor; [apply Hwt|rewrite Er; apply (po_ops _ _ _ _ _ _ _ Hp)| |].
  - rewrite Er, Edn. intros i Hi Hi'. apply (po_stems _ _ _ _ _ _ _ Hp src i) in Hi' as [_ Hi']. by apply (po_other _ _ _ _ _ _ _ Hp src i).
  - constructor; rewrite ?Er, ?Edn, ?Esrc, ?Ebt.
    + done.
    + intros i ->%elem_of_singleton. exists ht. split; [|done]. unfold alone. by rewrite list_lookup_insert_eq by (by rewrite length_replicate).
    + intros i h. unfold alone. destruct (decide (i = src)) as [->|Hne]; [set_solver|]. rewrite list_lookup_insert_ne by done.
      intros [? _]%lookup_replicate. discriminate.
    + intros i Hi. exists src. set_solver.
    + intros i r Hi Hon ->%elem_of_singleton. by apply (po_other _ _ _ _ _ _ _ Hp src i).
    + intros i Hi. exists src. set_solver.
    + intros j dd a a' _ _ _ ->%elem_of_singleton ->%elem_of_singleton. done.
Qed.
(** The eddy when the tuple has been built and taken. *)
Lemma built_inv contents st ms' ss c sb t : running contents st →
  (∀ i n, i ∈ bits_of 96 sb → ms i = AnFSteM n → window_of n (windows i)) →
  (∀ i, if decide (i ∈ bits_of 96 sb) then built e windows contents t i (modules st !! i) (ms' !! i) else ms' !! i = modules st !! i) →
  inv live (stands e fspins ms (with_built sb t contents) live) (queryIds st) (completionMask st)
    (with_counts (with_sources (with_modules st ms') ss) c (numTuplesProcessed st)) (λ _, None).
Proof.
  intros Hrn Hw Hms. constructor; [| |done|done].
  - intros i m Hm. cbn [modules with_counts with_sources with_modules] in Hm. specialize (Hms i). unfold stands, with_built.
    destruct (decide (i ∈ bits_of 96 sb)) as [Hi|Hi].
    + destruct Hms as (n & n' & E & E' & Hs & Hpl & Hr & Ho). destruct (rn_module _ _ Hrn i _ E) as [Hl [_ Hst]]. split; [done|]. split; [done|].
      assert (m = AnFSteM n') as -> by congruence. destruct (ms i) as [g|n0] eqn:E0; [done|]. destruct Hst as (Hs0 & _).
      by split_and!; [eapply same_op_trans|..].
    + rewrite Hms in Hm. by apply (rn_module _ _ Hrn).
  - intros i Hi. destruct (rn_live _ _ Hrn i Hi) as (Hi96 & m & Hm). split; [done|]. split.
    + apply is_live_Some. cbn [modules with_counts with_sources with_modules]. specialize (Hms i). case_decide.
      * destruct Hms as (n & n' & _ & E' & _). by exists (AnFSteM n').
      * exists m. by rewrite Hms.
    + destruct (rn_arrays _ _ Hrn). cbn [weights current_tuples_returned with_counts with_sources with_modules]. lia.
Qed.

(** C2: join queries get their combinations, once.  An eddy of filters and FSteMs at
    rest, whose joins have no cycle, takes the next tuple of a stream: it is built
    into the FSteMs of the stream, and after finitely many iterations the eddy is
    back at the choice of a source, at rest.  Meanwhile every query that joins the
    stream with others was sent exactly the combinations of the tuple with stored
    tuples of the other streams that satisfy its join clauses and predicates, each
    as often as it is stored, and nothing else.  This holds for both routing
    policies and every order in which they visit filters and FSteMs.

    The queries meant ([query_ok]) use every FSteM among the operators of their
    streams, each on the way from the new tuple to another of their streams or
    back.  This leaves out queries that join one stream with different partners:
    there a tuple also visits the FSteM of a query's stream that the query does not
    use, the composites made there are not closed to the query, and what it is
    sent depends on the routing. *)
Theorem eddy_serves_join_queries contents st k (s : ScanModule HT F) ht old ops sb :
  let t0 := initFromBaseTuple old ht (sourceID s) in let contents' := with_built sb t0 contents in
  running contents st → plan_ok e fspins ms contents' live genuine side → iht_wf temp →
  (∀ q, q ∈ queryIds st → q < 128 ∧ ∃ m, completionMask st !! q = Some m ∧ wf 96 m) →
  0 < spins → 0 < drains → UseSuppressOutput cfg = false → Eddy.UseTupleLineage cfg = true →
  source_ready st k s ht old ops sb → nodup s = false → iht_wf old → sourceID s < 64 → genuine (sourceID s) ht →
  (∀ i n, i ∈ bits_of 96 sb → ms i = AnFSteM n → window_of n (windows i) ∧ hashed n t0
     ∧ BitArrayEqual (sourceBuiltOn (protostem (ring n))) (t_sources t0) TCQMAXSOURCES = true) →
  ∃ st0 n st1 st' evs,
    run_source (Fjord0 := fjord) drains cfg st k = Ok st0
    ∧ eddy_run (Fjord0 := fjord) cfg spins drains get_timestamp_val n st0 = Ok st1
    ∧ route_module spins cfg st1 = Ok (FromSource, st')
    ∧ running contents' st' ∧ queryIds st' = queryIds st ∧ completionMask st' = completionMask st
    ∧ canRemoveQuery st' = true ∧ out st' = out st ++ evs
    ∧ ∀ q srcs parent depth joiner stored link, q ∈ scan_usedByQueries s →
        query_ok e ms contents' live genuine side (queryIds st) (completionMask st) q (sourceID s) srcs parent depth joiner stored link →
        delivered q evs ≡ₚ expected (sourceID s) srcs parent link (accepts e ms q srcs) stored {[sourceID s]} (alone (sourceID s) ht).
Proof.
  intros t0 contents' Hrn Hp Htemp Hmk Hsp Hdr Hloud Hlin Hsr Hnd Hold Hsrc Hgen Hown.
  pose proof (stands_laws e fspins temp ms contents' live _ (plan_fits e fspins ms contents' live genuine side Hp)) as Hlaws.
  assert (EddyJoin.stems e (sourceID s) = bits_of 96 sb) as Estems.
  { unfold EddyJoin.stems, row. by rewrite (rn_stems _ _ Hrn), (sr_stems _ _ _ _ _ _ _ Hsr). }
  destruct (run_source_builds e fspins temp windows contents cfg drains st k s ht old ops sb Hsr Hnd Hlin Hold Htemp Hsrc)
    as (ms' & d & ss & c & E0 & Wd & Ed & Hms).
  { intros i Hi. pose proof Hi as Hi'. rewrite <- Estems in Hi'. apply (po_stems _ _ _ _ _ _ _ Hp) in Hi' as [Hl (n0 & En0 & _)].
    destruct (rn_live _ _ Hrn i Hl) as (_ & m & Hm). destruct (rn_module _ _ Hrn i m Hm) as [_ [_ Hst]]. rewrite En0 in Hst.
    destruct m as [g|n]; [done|]. destruct Hst as (Hs & Hpl & Ho & Hr). exists n. split; [done|].
    destruct (Hown i n0 Hi En0) as (Hw & Hh & Hb). constructor; try done; unfold window_of, hashed; by rewrite ?(so_window _ _ Hs), ?(so_proto _ _ Hs). }
  fold t0 in Hms. set (t := started s ht old ops d) in *.
  destruct (started_ok contents contents' s ht old ops d st k sb Hp Hsr Hold Hsrc Hgen Hrn Wd Ed) as (Hg & Ebt & Est & Er & Edn & Ec).
  fold t in Hg, Ebt, Est, Er, Edn, Ec. clearbody t.
  set (stb := with_counts _ _ _) in E0.
  assert (inv live (stands e fspins ms contents' live) (queryIds st) (completionMask st) stb (λ _, None)) as Hib.
  { apply (built_inv contents); [done| |done]. intros i n Hi En. by apply Hown. }
  destruct (got_base_ok (Fjord0 := fjord) (Hlaws := Hlaws) live (asked e ms contents') _ (stands e fspins ms contents' live) (queryIds st) (completionMask st) Hmk cfg drains Hdr Hloud
    stb _ t Hib (good_wf _ _ _ Hg)) as (st0 & t' & e1 & Eg & Ha & Et & Ev & Es0 & Hm0).
  pose proof (fg_completed _ _ _ _ _ _ (plan_fits e fspins ms contents' live genuine side Hp)) as Hfl.
  destruct (explores_run (Fjord0 := fjord) (Hlaws := Hlaws) live (asked e ms contents') _ (stands e fspins ms contents' live) (queryIds st) (completionMask st) Hmk cfg spins drains
    Hsp Hdr Hloud get_timestamp_val st0 t' _ (moved_inv _ _ _ _ _ _ _ _ Hm0) Et Ev (announced_good _ _ _ _ _ _ _ Hfl Ha Hg))
    as (e2 & n & st1 & st' & Hv & En & Er1 & Hm1 & Hc1); [rewrite Es0; apply (rn_stack _ _ Hrn)|done|].
  pose proof (eddy_moved_trans _ _ _ _ _ _ _ _ _ _ _ Hm0 Hm1) as [Hi' Hk Ho].
  assert (stack st' = []) as Hst'.
  { unfold canRemoveQuery, Eddy.empty in Hc1. apply andb_true_iff in Hc1 as [_ Hc1]. by destruct (stack st'). }
  exists st0, n, st1, st', (e1 ++ e2). split; [by rewrite E0|]. split; [done|]. split; [done|]. split.
  { destruct Hk as [_ _ _ _ Ko Ks _ _ _ _ _ [Kw Kc]]. cbn [weights current_tuples_returned with_counts with_sources with_modules stb] in Kw, Kc.
    destruct (rn_arrays _ _ Hrn). constructor; [done|lia|by rewrite (rn_operators _ _ Hrn), Ko|by rewrite (rn_stems _ _ Hrn), Ks| |].
    - intros i m Hm. apply (inv_modules _ _ _ _ _ _ Hi' i m Hm).
    - intros i Hi. destruct (inv_live _ _ _ _ _ _ Hi' i Hi) as (Hi96 & Hl & _). split; [done|]. by apply is_live_Some. }
  split; [apply Hk|]. split; [apply Hk|]. split; [done|]. split; [exact Ho|].
  intros q srcs parent depth joiner stored link Hqs Hq. rewrite <- Ebt.
  apply (new_tuple_expected e fspins ms contents' live genuine side (queryIds st) (completionMask st) q (sourceID s) srcs parent depth joiner
    stored link Hp Hq t t' e1 e2); try done.
  rewrite Ec, elem_of_difference, elem_of_list_to_set. tauto.
Qed.
End join.
End EddyJoinServe.
