(* ===== verification/EddyJoinDemo.v ===== *)
(** * An eddy with a join

    Two streams of tuples of a key and a time.  Operators 0 and 1 are the FSteMs of
    streams 0 and 1, operator 2 filters the times of stream 0.  Query 1 joins the
    streams on the key and wants times of stream 0 below 10; query 3 reads stream 0
    only, and wants the time 7. *)

From S2P Require Import Prelude BitArray GSFilter GSFilterSpec GSFilterNode GSFilterThm Eddy EddyLoop EddySpec EddyRoute EddyGSF EddyInv EddyAnswer EddyServe EddyDemo Stem StemSpec FStem FStemRing FStemWindow FStemProbe FStemJoin FStemAnswer FStemDemo EddyModules EddyJoin EddyJoinSpec EddyJoinAnswer EddyJoinServe.

Module EddyJoinDemo.
Import Bit Eddy EddyLoop EddySpec EddyRoute EddyGSF EddyInv EddyServe Stem StemSpec FStem FStemRing FStemWindow FStemProbe FStemJoin FStemAnswer FStemDemo EddyModules EddyJoin EddyJoinSpec EddyJoinAnswer EddyJoinServe.
#[local] Opaque bits_of below.

Local Abbreviation tup := (Z * Z)%type.

(** The time of a tuple of stream [s]; keys below zero are punctuation. *)
#[global] Instance demo_times : Tuples Z nat tup := {|
  ExecEvalExpr s b := match b !! s with Some (Some a) => a.2 | _ => 0%Z end;
  EddyGSF.HeapTupleIsPunct a := (a.1 <? 0)%Z
|}.

Local Abbreviation module := (EddyModules.module Z Z tup nat (nat * nat) Z Z).
Local Abbreviation fstem := (FSteM tup nat (nat * nat) Z Z).

Definition bitset (n : nat) (l : list nat) : BitArray := foldl BitArraySetBit (zeros n) l.

Definition stem_of (s : nat) : SteM tup nat (nat * nat) :=
  mkSteM s (1 - s) (s, 1 - s) (bitset 64 [s])
    (mkState (ExecSteMHashTableCreate s) 0 None None true blank 0 0 0 [] None None false None None 0).

Definition table (f : nat → list nat) : list BitArray := bitset 96 ∘ f <$> seq 0 64.

Definition ops_of (s : nat) : list nat := match s with 0 => [1; 2] | 1 => [0] | _ => [] end.
Definition stems_of (s : nat) : list nat := match s with 0 => [0] | 1 => [1] | _ => [] end.
Definition join_plan : EddyBits := mkBits (table ops_of) (table stems_of) (zeros 96) [] true false.

(** The FSteM of stream [s], an operator of query 1, with the ring [r]. *)
Definition fstem_of (s : nat) (r : Ring tup nat (nat * nat)) : fstem :=
  mkFSteM r (mkWindow false None None None false) (mkProbe false false false [] [] false false)
    [(1 - s, [((s, 1 - s), [1])])] [1] (BitArrayClearBit (BitArraySetAll (zeros 128) 128) 1) s 0%Z None blank None 8 [] [].

Definition times_filter : GSFModule Z Z nat tup := mkModule 0 GSFThm.demo 4 [] [].

Definition stock : list (IHT tup) := tuple 1 <$> [(5, 2); (6, 3); (5, 4)]%Z.

Definition join_scan : ScanModule tup Z :=
  mkScan 0 true false false None 0%Z false false [] [Some (Some (5, 7)%Z)] 0 [3; 1] [].

Definition mask_of (q : nat) : list nat := match q with 1 => [0; 1; 2] | 3 => [2] | _ => [] end.
Definition join_masks : list BitArray := bitset 96 ∘ mask_of <$> seq 0 128.

Definition join_eddy (n0 n1 : fstem) : EddyState module tup Z :=
  mkEddy [Some (AnFSteM n0); Some (AnFSteM n1); Some (AGSFilter times_filter)] [Some join_scan] None false [] false [3; 1] [] 2
    (FStem.operators join_plan) (FStem.sourceStems join_plan) join_masks (replicate 128 (zeros 64))
    (replicate 96 1%Z) (replicate 96 0%Z) [blank] 0 0 0 0 [].

Definition join_cfg (smart : bool) : config Z := mkConfig (-1) smart false true (λ n, n * n + 89) (λ n, Z.of_nat n).
Local Abbreviation join_fjord := (module_fjord join_plan 4 blank).


(** ** The plan *)

Lemma zeros_bits n : bits_of n (zeros n) = ∅.
Proof.
  apply set_eq. intros i. rewrite elem_of_bits_of. split; [|by intros ?%elem_of_empty]. intros [Hn Hi]. exfalso.
  unfold BitArrayBitIsSet in Hi. enough (zeros n !!! (i / BITS_PER_BYTE) = 0%Z) as E by (rewrite E, Z.land_0_l in Hi; discriminate Hi).
  rewrite list_lookup_total_alt. unfold zeros. rewrite lookup_replicate_2; [done|]. pose proof (BASIZE_bound n).
  apply Nat.Div0.div_lt_upper_bound. unfold BITS_PER_BYTE. lia.
Qed.

Lemma bitset_ok n l : (∀ x, x ∈ l → x < n) → wf n (bitset n l) ∧ bits_of n (bitset n l) = list_to_set l.
Proof.
  unfold bitset. induction l as [|x l IH] using rev_ind; intros Hl; [split; [apply zeros_wf|apply zeros_bits]|].
  destruct IH as [Hw E]; [intros y Hy; apply Hl, elem_of_app; by left|].
  rewrite foldl_snoc, list_to_set_app_L. assert (x < n) by (apply Hl, elem_of_app; right; by left).
  split; [by apply SetBit_wf|]. rewrite SetBit_set, E by done. cbn. rewrite union_empty_r_L. apply union_comm_L.
Qed.

Lemma table_ok f : (∀ s x, x ∈ f s → x < 96) → (∀ s, 64 ≤ s → f s = []) →
  rows_wf (table f) ∧ ∀ s, row 96 (table f) s = list_to_set (f s).
Proof.
  intros Hf He. unfold table. split.
  - intros s Hs. exists (bitset 96 (f s)). split; [|by apply bitset_ok, Hf]. by rewrite list_lookup_fmap, lookup_seq_lt by lia.
  - intros s. unfold row. destruct (decide (s < 64)) as [Hs|Hs].
    + rewrite list_lookup_fmap, lookup_seq_lt by done. by apply bitset_ok, Hf.
    + rewrite lookup_ge_None_2, He by (rewrite ?length_fmap, ?length_seq; lia). done.
Qed.

Lemma lists_small s x : (x ∈ ops_of s → x < 96) ∧ (x ∈ stems_of s → x < 96) ∧ (x ∈ mask_of s → x < 96).
Proof. destruct s as [|[|[|[|s]]]]; cbn [ops_of stems_of mask_of]; rewrite ?elem_of_cons, !elem_of_nil; lia. Qed.

Lemma lists_empty s : 64 ≤ s → ops_of s = [] ∧ stems_of s = [].
Proof. intros Hs. destruct s as [|[|s]]; [lia..|done]. Qed.

Lemma join_eddy_wf : eddy_wf join_plan.
Proof.
  constructor; cbn [join_plan FStem.operators FStem.sourceStems eventOperators pjolist].
  - apply table_ok; intros s; [apply lists_small|apply lists_empty].
  - apply table_ok; intros s; [apply lists_small|apply lists_empty].
  - apply zeros_wf.
  - by intros s b ?%elem_of_nil.
Qed.

Lemma join_ops s : EddyJoin.ops join_plan s = list_to_set (ops_of s).
Proof. apply table_ok; intros ?; [apply lists_small|apply lists_empty]. Qed.
Lemma join_stems s : EddyJoin.stems join_plan s = list_to_set (stems_of s).
Proof. apply table_ok; intros ?; [apply lists_small|apply lists_empty]. Qed.

Lemma in_ops s i : i ∈ EddyJoin.ops join_plan s → s = 0 ∧ (i = 1 ∨ i = 2) ∨ s = 1 ∧ i = 0.
Proof.
  rewrite join_ops, elem_of_list_to_set. destruct s as [|[|s]]; cbn [ops_of]; rewrite ?elem_of_cons, elem_of_nil; [lia..|done].
Qed.
Lemma in_stems s i : i ∈ EddyJoin.stems join_plan s ↔ s = i ∧ i < 2.
Proof.
  rewrite join_stems, elem_of_list_to_set. destruct s as [|[|s]]; cbn [stems_of]; rewrite ?elem_of_cons, elem_of_nil; lia.
Qed.

Lemma join_mask q : q < 128 → join_masks !! q = Some (bitset 96 (mask_of q)).
Proof. intros Hq. unfold join_masks. by rewrite list_lookup_fmap, lookup_seq_lt. Qed.
Lemma join_cmask q : q < 128 → cmask join_masks q = list_to_set (mask_of q).
Proof. intros Hq. rewrite (cmask_lookup _ _ _ (join_mask q Hq)). apply bitset_ok. intros x. apply (lists_small q). Qed.

(** ** The operators *)

Section plan.
Context (r0 r1 : Ring tup nat (nat * nat)).
Context (Hr0 : protostem r0 = ExecInitSteM (stem_of 0) blank) (Hr1 : protostem r1 = ExecInitSteM (stem_of 1) blank).

Definition join_ms (i : nat) : module :=
  match i with 0 => AnFSteM (fstem_of 0 r0) | 1 => AnFSteM (fstem_of 1 r1) | _ => AGSFilter times_filter end.

(** The rings are those of the two streams. *)
Lemma join_fstem i n : join_ms i = AnFSteM n → i < 2 ∧ ∃ r, n = fstem_of i r ∧ protostem r = ExecInitSteM (stem_of i) blank.
Proof. destruct i as [|[|i]]; intros [= <-]; (split; [lia|by eexists]). Qed.

Lemma fstem_source s r : s < 2 → protostem r = ExecInitSteM (stem_of s) blank → source_of (fstem_of s r) = s.
Proof. intros Hs E. unfold source_of. cbn [fstem_of ring]. rewrite E. destruct s as [|[|?]]; [by vm_compute..|lia]. Qed.

Lemma on_stream i r : stem_on join_ms i r ↔ i < 2 ∧ r = i.
Proof.
  split.
  - intros (n & E & <-). apply join_fstem in E as (Hi & r' & -> & Hr). split; [done|by apply fstem_source].
  - intros [Hi ->]. destruct i as [|[|i]]; [| |lia]; (eexists; split; [reflexivity|by apply fstem_source]).
Qed.

Lemma fstem_planned s r : s < 2 → protostem r = ExecInitSteM (stem_of s) blank → planned join_plan (fstem_of s r).
Proof.
  intros Hs E. constructor; cbn [fstem_of ring FStem.operator FStem.usedByQueries room oiht unqueued_output]; try done.
  - apply join_eddy_wf.
  - exists s. rewrite E. split; [destruct s as [|[|?]]; [by vm_compute..|lia]|lia].
  - lia.
  - intros q ->%list_elem_of_singleton. lia.
  - lia.
  - apply blank_wf.
Qed.

(** ** What the operators can take *)

Definition true_tuple (s : nat) (h : tup) : Prop := s < 2 ∧ (h.1 <? 0)%Z = false.
Definition join_live : gset nat := list_to_set [0; 1; 2].
Definition own_side (_ s : nat) : nat := s.

Context (contents : nat → list (list (IHT tup))).
Local Abbreviation travels := (travels join_plan join_ms join_live true_tuple own_side).

Lemma alone_lookup s (h : tup) i : s < 64 → alone s h !! i = if decide (s = i) then Some (Some h) else if decide (i < 64) then Some None else None.
Proof. apply (demo_lookup s i h). Qed.

(** A tuple that has yet to visit an FSteM is one of the other stream. *)
Lemma one_stream t s : travels t → s < 2 → s ∈ sources_of t → 1 - s ∉ sources_of t →
  ∃ h, t_base_tuples t = alone s h ∧ sources_of t = {[s]} ∧ true_tuple s h.
Proof.
  intros Ht Hs Hin Hout. destruct (tv_in _ _ _ _ _ _ Ht s Hin) as (h & Hh & Hg). exists h.
  assert (∀ j, j ∈ sources_of t → j = s) as Hone.
  { intros j Hj. destruct (tv_in _ _ _ _ _ _ Ht j Hj) as (_ & _ & [Hj2 _]). destruct (decide (j = 1 - s)) as [->|]; [done|lia]. }
  split; [|split; [apply set_eq; intros j; rewrite elem_of_singleton; split; [apply Hone|by intros ->]|done]].
  pose proof (iw_base _ (tv_wf _ _ _ _ _ _ Ht)) as Hl. apply list_eq. intros j. rewrite alone_lookup by lia.
  case_decide as Hj; [by subst|]. case_decide as Hj2; [|by apply lookup_ge_None_2; lia].
  destruct (lookup_lt_is_Some_2 (t_base_tuples t) j) as [[x|] Hx]; [lia| |done]. exfalso. apply Hj. symmetry. apply Hone.
  by apply (tv_out _ _ _ _ _ _ Ht j x).
Qed.

Lemma alone_bucket k s (h : tup) : s < 64 → key_bucket k s (alone s h) = demo_number h.1.
Proof. apply (demo_bucket s h). Qed.

Lemma alone_punct s (h : tup) t : t_base_tuples t = alone s h → s < 64 → (h.1 <? 0)%Z = false → ihtIsPunct FStem.HeapTupleIsPunct t = false.
Proof.
  intros E Hs Hh. unfold ihtIsPunct. rewrite E. apply not_true_iff_false. intros (o & Hin & Ho)%existsb_exists.
  apply list_elem_of_In, list_elem_of_lookup in Hin as (j & Hj). rewrite alone_lookup in Hj by done. repeat case_decide; simplify_eq.
  cbn in Ho. congruence.
Qed.

(** What an FSteM of the plan holds. *)
Definition holds_stream (s : nat) : Prop := (∀ x, x ∈ concat (contents s) → ∃ h, stored_as true_tuple s x h) ∧ length (concat (contents s)) ≤ 4.

Lemma join_probes i t h seg r : i < 2 → protostem r = ExecInitSteM (stem_of i) blank → iht_wf t → t_base_tuples t = alone (1 - i) h →
  (∀ x, x ∈ seg → ∃ a, stored_as true_tuple i x a) → probes (protostem r) (1 - i) (i, 1 - i) t seg.
Proof.
  intros Hi E Ht Eb Hseg. rewrite E. constructor; [done| | |].
  - rewrite Eb. change (innerhashkey _) with i. rewrite alone_bucket by lia. apply demo_number_ok.
  - intros x Hx. destruct (Hseg x Hx) as (a & Ha). apply (sa_wf _ _ _ _ Ha).
  - intros x Hx. destruct (Hseg x Hx) as (a & Ha). rewrite (sa_base _ _ _ _ Ha), Eb. change (innerhashkey _) with i.
    rewrite !alone_bucket by lia. cbn [ExecQual demo_env stem_env demo_stem_env fst snd]. rewrite !alone_lookup by lia.
    rewrite !decide_True by done. intros Hk%Z.eqb_eq. split; [|by rewrite Hk].
    intros j (y & Hy) (z & Hz). rewrite alone_lookup in Hy, Hz by lia. repeat case_decide; simplify_eq. lia.
Qed.

Lemma join_takes i n t : join_ms i = AnFSteM n → holds_stream i → travels t → i ∈ ready_of t → takes 4 n (contents i) t.
Proof.
  intros En [Hh Hlen] Ht Hr. destruct (join_fstem i n En) as (Hi & r & -> & E).
  destruct (tv_ready _ _ _ _ _ _ Ht i Hr) as (s & Hs & Hops). assert (s = 1 - i) as -> by (apply in_ops in Hops; lia).
  assert (i ∉ sources_of t) as Hnew by (apply (tv_stem _ _ _ _ _ _ Ht i); [done|by apply on_stream]).
  destruct (one_stream t (1 - i) Ht) as (h & Eb & Es & [Hg Hp]); [lia|done|by replace (1 - (1 - i)) with i by lia|].
  pose proof (tv_wf _ _ _ _ _ _ Ht) as Hw. constructor.
  - constructor; cbn [fstem_of fstemouterhashkeys ring]; [done|done|by repeat constructor| |].
    + intros k c Hin. cbn in Hin. apply list_elem_of_singleton in Hin as [= -> ->]. exists true.
      unfold can_be_applied. cbn [pull_var_clause demo_env have_vars Nat.eqb]. rewrite Eb, alone_lookup, decide_True by lia. done.
    + intros k c seg Hin _ Hseg. cbn in Hin. apply list_elem_of_singleton in Hin as [= -> ->].
      apply (join_probes i t h); [done..|]. intros x Hx. apply Hh. apply list_elem_of_In, in_concat.
      exists seg. by rewrite <- !list_elem_of_In.
  - cbn [fstem_of ring]. rewrite E. apply not_true_iff_false. change TCQMAXSOURCES with (8 * 8). rewrite (Equal_set 8).
    2-3: first [apply (iw_sources _ Hw)|apply (bitset_ok 64); intros x ->%list_elem_of_singleton; lia].
    change (8 * 8) with 64. fold (sources_of t). rewrite Es. change (sourceBuiltOn _) with (bitset 64 [i]).
    rewrite (proj2 (bitset_ok 64 [i] ltac:(intros x ->%list_elem_of_singleton; lia))). cbn. intros Heq.
    assert (i ∈ ({[1 - i]} : gset nat)) as ?%elem_of_singleton by (rewrite <- Heq; set_solver). lia.
  - apply (alone_punct (1 - i) h); [done|lia|done].
  - etransitivity; [apply matches_length|]. cbn [fstem_of fstemouterhashkeys pairs mbind list_bind fmap list_fmap app length]. lia.
Qed.

Lemma join_plan_ok : (∀ s, s < 2 → holds_stream s) → plan_ok join_plan 4 join_ms contents join_live true_tuple own_side.
Proof.
  intros Hh. constructor.
  - intros i g _ E. assert (g = times_filter) as -> by (destruct i as [|[|i]]; [discriminate E..|by injection E]).
    constructor; [apply GSFThm.zops_ok|apply GSFThm.demo_ok|cbn; lia].
  - intros i n _ (Hi & r & -> & E)%join_fstem. split; [by apply fstem_planned|done].
  - done.
  - intros s i _ Hi. change (eventOperators join_plan) with (zeros 96) in Hi. rewrite zeros_bits in Hi. by apply elem_of_empty in Hi.
  - intros s i Hi%in_ops. unfold join_live. rewrite elem_of_list_to_set, !elem_of_cons. lia.
  - intros s i. rewrite in_stems, on_stream. unfold join_live. rewrite elem_of_list_to_set, !elem_of_cons, elem_of_nil. lia.
  - intros s s' i g H1%in_ops H2%in_ops E. destruct i as [|[|i]]; [done..|lia].
  - intros s i H1%in_ops H2%on_stream. lia.
  - intros s r i j d H1%in_ops H2%on_stream _ H3%on_stream. lia.
  - intros s s' j d H1%in_ops H2%in_ops H3%on_stream. lia.
  - intros i n x _ (Hi & r & -> & E)%join_fstem Hx. rewrite fstem_source by done. by apply Hh.
  - intros i n t Hl En Ht Hr. apply join_takes; try done. apply Hh. by apply join_fstem in En as [? _].
Qed.
End plan.

(** ** The eddy *)

Lemma scrub_stored s h t : iht_wf t → t_base_tuples t = alone s h → sources_of t = {[s]} → true_tuple s h → stored_as true_tuple s (scrub true t) h.
Proof. intros Hw Eb Es Hg. destruct (scrub_wf t Hw) as (Hws & Eb' & _ & Ed & _ & Es'). constructor; [done|congruence| |done..]. unfold sources_of. by rewrite Es'. Qed.

Lemma tuple_sources s (a : tup) : s < 64 → sources_of (tuple s a) = {[s]}.
Proof. intros Hs. destruct (bitset_ok 64 [s]) as [_ E]; [by intros x ->%list_elem_of_singleton|]. change (sources_of (tuple s a)) with (bits_of 64 (bitset 64 [s])). rewrite E. cbn. set_solver. Qed.

(** The tuples [us] of its stream given to an FSteM. *)
Lemma give_all s us : s < 2 → (∀ u, u ∈ us → ∃ a, u = tuple s a) → ∀ n segs r, protostem r = ExecInitSteM (stem_of s) blank →
  same_op (fstem_of s r) n → planned join_plan n → FStemAnswer.resting n segs → outputq n = [] →
  ∃ n', foldl (λ m u, let! n := m in give_fstem 4 join_plan blank n u) (Ok n) us = Ok n' ∧ same_op (fstem_of s r) n' ∧ planned join_plan n'
    ∧ FStemAnswer.resting n' (foldl (λ segs u, build None u segs) segs us) ∧ outputq n' = [].
Proof.
  intros Hs. induction us as [|u us IH]; intros Hus n segs r Er Hsame Hpl Hr Ho; cbn [foldl cbind]; [by exists n|].
  destruct (Hus u) as (a & ->); [by left|].
  assert (protostem (ring n) = ExecInitSteM (stem_of s) blank) as Ep by (by rewrite (so_proto _ _ Hsame)).
  destruct (give_fstem_ok 4 join_plan blank n None (tuple s a) segs blank_wf Hpl Hr Ho) as (n1 & E1 & Hs1 & Hp1 & Hr1 & Ho1).
  - unfold window_of. by rewrite (so_window _ _ Hsame).
  - rewrite Ep. destruct s as [|[|s]]; [by vm_compute..|lia].
  - unfold hashed. rewrite Ep. change (t_base_tuples (tuple s a)) with (alone s a). change (innerhashkey _) with s.
    rewrite alone_bucket by lia. apply demo_number_ok.
  - rewrite E1. apply (IH ltac:(intros u Hu; apply Hus; by right) n1 _ r); [done|by eapply same_op_trans|done..].
Qed.

Definition no_window (_ : nat) : option Z := None.
Definition held (i : nat) : list (list (IHT tup)) := match i with 0 => [[]] | 1 => [scrub true <$> stock] | _ => [] end.
Definition new_tuple : IHT tup := initFromBaseTuple blank (5, 7)%Z 0.
Definition held' : nat → list (list (IHT tup)) := with_built no_window (bitset 96 [0]) new_tuple held.

Lemma join_stem_bits : bits_of 96 (bitset 96 [0]) = {[0]}.
Proof. destruct (bitset_ok 96 [0]) as [_ ->]; [intros x ->%list_elem_of_singleton; lia|]. cbn. set_solver. Qed.

Lemma held_0 : held' 0 = [[scrub true new_tuple]].
Proof. unfold held', with_built. rewrite join_stem_bits, decide_True by set_solver. reflexivity. Qed.
Lemma held_other i : i ≠ 0 → held' i = held i.
Proof. intros Hi. unfold held', with_built. rewrite join_stem_bits, decide_False by set_solver. done. Qed.

Lemma held_stream s : s < 2 → holds_stream held' s.
Proof.
  intros Hs. destruct s as [|[|s]]; [| |lia].
  - unfold holds_stream. rewrite held_0. split; [|cbn; lia]. intros x ->%list_elem_of_singleton. exists (5, 7)%Z.
    destruct (initFromBaseTuple_iht blank (5, 7)%Z 0 blank_wf) as (Hw & Eb & Es); [lia|]. apply scrub_stored; [done..|]. split; [lia|done].
  - unfold holds_stream. rewrite held_other by done. split; [|cbn; lia]. cbn [held concat]. rewrite app_nil_r.
    intros x (u & -> & (a & -> & Ha)%list_elem_of_fmap)%list_elem_of_fmap. exists a. apply scrub_stored.
    + apply tuple_wf_demo; lia.
    + done.
    + by apply tuple_sources; lia.
    + split; [lia|]. rewrite !elem_of_cons, elem_of_nil in Ha. by destruct Ha as [->|[->|[->|[]]]].
Qed.

(** ** The join query *)

Definition join_stored (r : nat) : list tup := match r with 1 => [(5, 2); (6, 3); (5, 4)]%Z | _ => [] end.
Definition same_key (_ : nat) (a b : tup) : bool := (b.1 =? a.1)%Z.
Definition join_srcs : gset nat := {[0; 1]}.

Lemma in_srcs s : s ∈ join_srcs ↔ s < 2.
Proof. unfold join_srcs. rewrite elem_of_union, !elem_of_singleton. lia. Qed.

Lemma join_query r0 r1 : protostem r0 = ExecInitSteM (stem_of 0) blank → protostem r1 = ExecInitSteM (stem_of 1) blank →
  query_ok join_plan (join_ms r0 r1) held' join_live true_tuple own_side [3; 1] join_masks 1 0 join_srcs
    (λ _, 0) (λ r, r) (λ _, 1) join_stored same_key.
Proof.
  intros Hr0 Hr1. constructor.
  - split; [set_solver|lia].
  - split; [apply in_srcs; lia|done].
  - intros r. rewrite !in_srcs. lia.
  - intros r Hr Hne. apply in_srcs in Hr. assert (r = 1) as -> by lia. split; [rewrite join_ops; set_solver|]. by apply on_stream.
  - intros s i n _ Hi En. destruct (join_fstem r0 r1 Hr0 Hr1 i n En) as (Hi2 & r & -> & E). rewrite fstem_source by done.
    cbn [fstem_of FStem.usedByQueries interestedQueries]. assert (wf 128 (BitArraySetAll (zeros 128) 128)) as Hw by apply SetAll_wf, zeros_wf.
    split; [by left|]. split; [apply ClearBit_wf; [lia|exact Hw]|]. split; [rewrite ClearBit_set by (done || lia); intros [_ Hn]%elem_of_difference; by apply Hn, elem_of_singleton|].
    rewrite in_srcs. apply in_ops in Hi. lia.
  - intros r Hr Hne. apply in_srcs in Hr. assert (r = 1) as -> by lia. by rewrite held_other.
  - intros r n t hp Hr Hne En Ht _ _ Hhp. apply in_srcs in Hr. assert (r = 1) as -> by lia. injection En as <-.
    exists 0, ((1, 0), [1]). unfold used_pairs. cbn [fstem_of fstemouterhashkeys pairs mbind list_bind fmap list_fmap app Nat.sub].
    assert (applies 0 t = true) as Ha by (unfold applies, can_be_applied; cbn [pull_var_clause demo_env have_vars Nat.eqb Nat.sub]; by rewrite Hhp).
    rewrite filter_cons, decide_True by (split; [exact Ha|by left]). split; [done|]. intros h _.
    cbn [ExecQual demo_env stem_env demo_stem_env fst snd]. rewrite Hhp, alone_lookup, decide_True by lia. done.
  - intros r Hr Hne. apply in_srcs in Hr. assert (r = 1) as -> by lia. exists 1. rewrite in_stems, join_cmask by lia. split; [lia|set_solver].
  - intros s i g t _ Hi _ _. rewrite join_cmask by lia. apply in_ops in Hi. rewrite elem_of_list_to_set. cbn [mask_of]. rewrite !elem_of_cons. lia.
  - intros i. rewrite join_cmask by lia. rewrite elem_of_list_to_set. cbn [mask_of]. rewrite !elem_of_cons, elem_of_nil.
    intros [->|[->|[->|[]]]]; [exists 0|exists 1|exists 0]; rewrite in_srcs, in_stems, join_ops; (split; [lia|]); set_solver by lia.
  - intros s i g b b' _ Hi E Eb. apply in_ops in Hi as [[-> Hi]|[-> ->]]; [|done]. destruct i as [|[|i]]; [done..|]. injection E as <-.
    cbn [times_filter node ExecEvalExpr demo_times]. by rewrite Eb.
  - by intros s h [_ Hh].
Qed.

Lemma join_running r0 r1 n0 n1 : protostem r0 = ExecInitSteM (stem_of 0) blank → protostem r1 = ExecInitSteM (stem_of 1) blank →
  (∀ s n, s < 2 → n = (if decide (s = 0) then n0 else n1) → let r := if decide (s = 0) then r0 else r1 in
     same_op (fstem_of s r) n ∧ planned join_plan n ∧ FStemAnswer.resting n (held s) ∧ outputq n = []) →
  running join_plan 4 (join_ms r0 r1) join_live held (join_eddy n0 n1).
Proof.
  intros Hr0 Hr1 Hn. constructor; try done.
  - intros i m Hm. destruct i as [|[|[|i]]]; [| | |done]; injection Hm as <-; (split; [set_solver|split; [set_solver|]]).
    + destruct (Hn 0 n0) as (H1 & H2 & H3 & H4); [lia|done|]. done.
    + destruct (Hn 1 n1) as (H1 & H2 & H3 & H4); [lia|done|]. done.
    + by repeat split.
  - intros i. unfold join_live. rewrite elem_of_list_to_set, !elem_of_cons, elem_of_nil. intros Hi. split; [lia|].
    destruct Hi as [->|[->|[->|[]]]]; by eexists.
Qed.

Lemma join_source n0 n1 : source_ready (join_eddy n0 n1) 0 join_scan (5, 7)%Z blank (bitset 96 [1; 2]) (bitset 96 [0]).
Proof.
  constructor; try done.
  - apply blank_wf.
  - apply (bitset_ok 96). intros x. apply (lists_small 0).
  - change (scan_usedByQueries join_scan) with [3; 1]. intros q. rewrite !elem_of_cons, elem_of_nil. lia.
Qed.

(** Two of the three stored tuples have the key of the new one. *)
Lemma join_expected r0 r1 : expected 0 join_srcs (λ _, 0) same_key (accepts join_plan (join_ms r0 r1) 1 join_srcs) join_stored {[0]} (alone 0 (5, 7)%Z)
  = (λ a, <[1 := Some a]> (alone 0 (5, 7)%Z)) <$> [(5, 2); (5, 4)]%Z.
Proof. by vm_compute. Qed.

Lemma eddy_serves_join_queries_witness :
  ∃ r0 r1 n0 n1 st0 n st1 st' evs,
    run_source (Fjord0 := module_fjord join_plan 4 blank) 2 (join_cfg true) (join_eddy n0 n1) 0 = Ok st0
    ∧ eddy_run (Fjord0 := module_fjord join_plan 4 blank) (join_cfg true) 9 2 (λ a, a.2) n st0 = Ok st1
    ∧ route_module 9 (join_cfg true) st1 = Ok (FromSource, st')
    ∧ running join_plan 4 (join_ms r0 r1) join_live held' st' ∧ queryIds st' = [3; 1] ∧ completionMask st' = join_masks
    ∧ canRemoveQuery st' = true ∧ out st' = evs
    ∧ delivered 1 evs ≡ₚ (λ a, <[1 := Some a]> (alone 0 (5, 7)%Z)) <$> [(5, 2); (5, 4)]%Z.
Proof.
  destruct (ProcessInitFSteM_ok (stem_of 0) blank [] 0 0%Z 8 blank blank_wf) as (r0 & E0 & Hh0 & _).
  destruct (ProcessInitFSteM_ok (stem_of 1) blank [] 1 0%Z 8 blank blank_wf) as (r1 & E1 & Hh1 & _).
  destruct (give_all 1 stock) with (n := fstem_of 1 r1) (segs := [[]] : list (list (IHT tup))) (r := r1) as (n1 & _ & Hs1 & Hp1 & Hr1 & Ho1);
    [lia|intros u (a & -> & _)%list_elem_of_fmap; by exists a|done|done|apply fstem_planned; [lia|done]|by constructor|done|].
  exists r0, r1, (fstem_of 0 r0), n1.
  destruct (eddy_serves_join_queries join_plan 4 blank no_window (join_ms r0 r1) join_live (join_cfg true) 9 2 (λ a, a.2) true_tuple own_side
    held (join_eddy (fstem_of 0 r0) n1) 0 join_scan (5, 7)%Z blank (bitset 96 [1; 2]) (bitset 96 [0]))
    as (st0 & n & st1 & st' & evs & H1 & H2 & H3 & H4 & H5 & H6 & H7 & H8 & Hq).
  - apply join_running; [done..|]. intros s n Hs ->. destruct s as [|[|s]]; [| |lia]; cbn.
    + split; [done|]. split; [apply fstem_planned; [lia|done]|]. split; [by constructor|done].
    + done.
  - apply join_plan_ok; [done..|exact held_stream].
  - apply blank_wf.
  - intros q Hq. change (queryIds _) with [3; 1] in Hq. assert (q < 128) as Hq' by (rewrite !elem_of_cons, elem_of_nil in Hq; lia). split; [done|].
    eexists. split; [by apply join_mask|]. apply (bitset_ok 96). intros x. apply (lists_small q).
  - lia.
  - lia.
  - done.
  - done.
  - apply join_source.
  - done.
  - apply blank_wf.
  - cbn; lia.
  - split; [cbn; lia|done].
  - intros i n Hi En. rewrite join_stem_bits in Hi. apply elem_of_singleton in Hi as ->. injection En as <-.
    split; [done|]. destruct (initFromBaseTuple_iht blank (5, 7)%Z 0 blank_wf) as (Hw & Eb & Es); [lia|]. split.
    + unfold hashed. cbn [fstem_of ring]. rewrite E0. change (innerhashkey _) with 0. change (sourceID join_scan) with 0.
      rewrite Eb, alone_bucket by lia. apply demo_number_ok.
    + cbn [fstem_of ring]. rewrite E0. by vm_compute.
  - exists st0, n, st1, st', evs. do 8 (split; [done|]). rewrite <- (join_expected r0 r1).
    apply (Hq 1 join_srcs (λ _, 0) (λ r, r) (λ _, 1) join_stored same_key); [set_solver|by apply join_query].
Defined.

(** ** What the other query gets *)

Definition stem0_empty : cres fstem :=
  let! n := ProcessInitFSteM (stem_of 0) blank [] 0 0%Z 8 blank in Ok (fstem_of 0 (ring n)).
Definition stem1_full : cres fstem :=
  let! n := ProcessInitFSteM (stem_of 1) blank [] 1 0%Z 8 blank in
  foldl (λ r t, let! n := r in give_fstem 4 join_plan blank n t) (Ok (fstem_of 1 (ring n))) stock.

(** The tuples of streams 0 and 1 that the queries [qs] have been sent when the
    next tuple of stream 0 is through. *)
Definition sent (smart : bool) (qs : list nat) : cres (list (list (list (option tup)))) :=
  let! n0 := stem0_empty in
  let! n1 := stem1_full in
  let! st := run_source (Fjord0 := module_fjord join_plan 4 blank) 2 (join_cfg smart) (join_eddy n0 n1) 0 in
  let! st1 := eddy_run (Fjord0 := module_fjord join_plan 4 blank) (join_cfg smart) 9 2 (λ a, a.2) 9 st in
  Ok ((λ q, take 2 <$> delivered q (out st1)) <$> qs).

(** a query without joins gets the combinations of another query's join.  An
    FSteM closes the joined tuples for the queries that use it and do not have the
    join clause, but a query that does not use the FSteM at all stays open on them.
    Query 3 only filters stream 0; of the one new tuple it is sent three copies,
    two of them joined with tuples of stream 1 for query 1. *)
Theorem filter_query_gets_joined_tuples smart :
  sent smart [1; 3] = Ok
    [[[Some (5, 7)%Z; Some (5, 4)%Z]; [Some (5, 7)%Z; Some (5, 2)%Z]];
     [[Some (5, 7)%Z; Some (5, 4)%Z]; [Some (5, 7)%Z; Some (5, 2)%Z]; [Some (5, 7)%Z; None]]].
Proof. destruct smart; by vm_compute. Qed.
End EddyJoinDemo.
