(* ===== verification/Window.v ===== *)
(** * Windows over time

    [src/src/backend/telegraphcq/window.c] and the functions of
    [src/src/backend/utils/adt/timestamp.c] that it calls: windows given by START
    AT, RANGE BY and SLIDE BY, numbered from 1, their begin and end, the windows a
    timestamp lies in, and windows cut into slices.

    Timestamps and intervals are the integers of [--enable-integer-datetimes],
    microseconds in 64 bits; the quotients that number the windows are doubles in
    both builds, and go through the class [Double] with [d_trunc], the conversion to
    an integer.  Adding months to a timestamp needs the calendar, and is a
    parameter. *)

From S2P Require Import Prelude Eddy.

Module Window.
Import Eddy.
Local Open Scope Z_scope.

Class Truncates (F : Type) : Type := d_trunc : F → Z.
Class Calendar : Type := add_months : Z → Z → cres Z.

(** A signed integer of [w] bits, outside of which C leaves the result undefined. *)
Definition sint (w : Z) (x : Z) : cres Z := if decide (- 2 ^ (w - 1) ≤ x < 2 ^ (w - 1)) then Ok x else Fail Undefined.
Definition int32 : Z → cres Z := sint 32.
Definition int64 : Z → cres Z := sint 64.
Arguments int32 _ /.
Arguments int64 _ /.

Definition DT_NOBEGIN : Z := - 2 ^ 63.
Definition DT_NOEND : Z := 2 ^ 63 - 1.
Definition TIMESTAMP_NOT_FINITE (t : Z) : bool := (t =? DT_NOBEGIN) || (t =? DT_NOEND).

Record Interval : Type := mkInterval { month : Z; time : Z }.

Definition ts_greater_than (t1 t2 : Z) : bool := t2 <? t1.
Definition ts_geq (t1 t2 : Z) : bool := t2 <=? t1.
Definition ts_leq (t1 t2 : Z) : bool := ts_geq t2 t1.
Definition ts_equals (t1 t2 : Z) : bool := t1 =? t2.
Definition ts_max (t1 t2 : Z) : Z := if t1 <? t2 then t2 else t1.
Definition ts_min (t1 t2 : Z) : Z := if t2 <? t1 then t2 else t1.

Section window.
Context {F : Type} `{!Double F} `{!Truncates F} `{!Calendar}.

(** ** Arithmetic of timestamps and intervals *)

Definition timestamp_pl_span (t : Z) (span : Interval) : cres Z :=
  if TIMESTAMP_NOT_FINITE t then Ok t
  else
    let! t1 := if negb (month span =? 0) then add_months t (month span) else Ok t in
    int64 (t1 + time span).

Definition timestamp_mi (dt1 dt2 : Z) : cres Interval :=
  if TIMESTAMP_NOT_FINITE dt1 || TIMESTAMP_NOT_FINITE dt2 then Fail (Elog "Unable to subtract non-finite timestamps")
  else let! d := int64 (dt1 - dt2) in Ok (mkInterval 0 d).

Definition interval_to_timespan (i : Interval) : cres Z :=
  if negb (month i =? 0) then int64 (time i + month i * 30 * 86400000000) else Ok (time i).

Definition interval_div_interval (i1 i2 : Interval) : cres F :=
  let! a := interval_to_timespan i1 in
  let! b := interval_to_timespan i2 in
  Ok (ddiv (d_of_Z a) (d_of_Z b)).

Definition interval_mul (i : Interval) (factor : F) : cres Interval :=
  let! months := int64 (d_trunc (dmul (d_of_Z (month i)) factor)) in
  let m := (months + 2 ^ 31) mod 2 ^ 32 - 2 ^ 31 in
  let! t := int64 (d_trunc (dmul (d_of_Z (time i)) factor)) in
  let! t' := int64 (t + (months - m) * 30 * 86400000000) in
  Ok (mkInterval m t').

Definition interval_pl (i1 i2 : Interval) : cres Interval :=
  let! t := int64 (time i1 + time i2) in
  Ok (mkInterval (month i1 + month i2) t).

Definition ts_plus_interval (t : Z) (i : Interval) : cres Z := timestamp_pl_span t i.

(** ** Windows *)

Definition window_begin (startat : Z) (slideby : Interval) (windownum : Z) : cres Z :=
  let! i := interval_mul slideby (dsub (d_of_Z windownum) (d_of_Z 1)) in
  timestamp_pl_span startat i.

Definition window_end (startat : Z) (rangeby slideby : Interval) (windownum : Z) : cres Z :=
  let! windowstart := window_begin startat slideby windownum in
  timestamp_pl_span windowstart rangeby.

(** The window may be one too small by rounding, which is corrected. *)
Definition first_window_past (startat : Z) (rangeby slideby : Interval) (ts : Z) : cres Z :=
  let! e := timestamp_pl_span startat rangeby in
  let! d := timestamp_mi ts e in
  let! q := interval_div_interval d slideby in
  let! windownum := int32 (d_trunc (dadd (d_of_Z 2) q)) in
  let! e' := window_end startat rangeby slideby windownum in
  if ts_geq ts e' then int32 (windownum + 1) else Ok windownum.

Definition first_window_no (startat : Z) (rangeby slideby : Interval) (ts : Z) : cres Z :=
  let! w := first_window_past startat rangeby slideby ts in
  let windownum := if w <? 1 then 1 else w in
  let! b := window_begin startat slideby windownum in
  if b <=? ts then Ok windownum else Ok (-1).

Definition timestamp_past_window (ts startat : Z) (rangeby slideby : Interval) (windownum : Z) : cres bool :=
  let! e := window_end startat rangeby slideby windownum in
  Ok (negb (ts <? e)).

(** The quotient plus one, converted to an integer, is the number. *)
Definition last_window_no (startat : Z) (rangeby slideby : Interval) (ts : Z) : cres Z :=
  let! d := timestamp_mi ts startat in
  let! slidenum := interval_div_interval d slideby in
  let! windownum := int32 (d_trunc (dadd slidenum (d_of_Z 1))) in
  let! past := timestamp_past_window ts startat rangeby slideby windownum in
  if negb past then Ok windownum else Ok (-1).

(** ** The window of a stream *)

(** [tsvar] is the attribute with the timestamps. *)
Record WindowState : Type := mkWS {
  tsvar : Z;
  startAt : Z;
  rangeBy : Interval;
  slideBy : Interval;
  slices : list Interval;
  lastTSSeen : Z
}.

Fixpoint sum_slices (sum : Interval) (l : list Interval) : cres Interval :=
  match l with
  | [] => Ok sum
  | s :: l' => let! sum' := interval_pl sum s in sum_slices sum' l'
  end.

(** The strings of the window clause, converted. *)
Record WindowExpr : Type := mkWE {
  we_tsvar : Z;
  we_startat : Z;
  we_rangeby : option Interval;
  we_slideby : option Interval;
  we_slices : list Interval
}.

Definition createWindowState (we : WindowExpr) : cres WindowState :=
  match we_slices we with
  | [] =>
      let! r := access (we_rangeby we) in
      let! s := access (we_slideby we) in
      Ok (mkWS (we_tsvar we) (we_startat we) r s [] DT_NOBEGIN)
  | s1 :: rest =>
      let! _ := cassert (match we_rangeby we with None => true | Some _ => false end) in
      let! sum := sum_slices s1 rest in
      Ok (mkWS (we_tsvar we) (we_startat we) s1 sum (s1 :: rest) DT_NOBEGIN)
  end.

Definition windowStateGetFirstChange (ws : WindowState) : cres Z := ts_plus_interval (startAt ws) (rangeBy ws).

Definition windowStateGetNextSlide (ws : WindowState) (ts : Z) : cres Z :=
  let! window_num := first_window_past (startAt ws) (rangeBy ws) (slideBy ws) ts in
  let! _ := cassert (0 <? window_num) in
  window_end (startAt ws) (rangeBy ws) (slideBy ws) window_num.

Context {HT : Type}.
(** [None] is a null value. *)
Class Attributes : Type := heap_getattr : HT → Z → option Z.
Context `{!Attributes}.

Definition windowStateGetTS (ws : WindowState) (tup : HT) : cres Z :=
  match heap_getattr tup (tsvar ws) with Some t => Ok t | None => Fail AssertFail end.

Definition with_last_seen (ws : WindowState) (t : Z) : WindowState :=
  mkWS (tsvar ws) (startAt ws) (rangeBy ws) (slideBy ws) (slices ws) t.

Definition windowStateUpdateMaxTS (ws : WindowState) (tup : HT) : cres WindowState :=
  let! tuple_ts := windowStateGetTS ws tup in
  Ok (if lastTSSeen ws <? tuple_ts then with_last_seen ws tuple_ts else ws).

Definition windowStateGetMaxTS (ws : WindowState) : Z := lastTSSeen ws.

(** Birth and death; [None] where the death is not set. *)
Definition windowStateGetLifetime (ws : WindowState) (tup : HT) : cres (Z * option Z) :=
  let! ts := windowStateGetTS ws tup in
  let! first_winno := first_window_no (startAt ws) (rangeBy ws) (slideBy ws) ts in
  let! last_winno := last_window_no (startAt ws) (rangeBy ws) (slideBy ws) ts in
  if first_winno =? -1 then Ok (DT_NOEND, None)
  else
    let! birth := window_end (startAt ws) (rangeBy ws) (slideBy ws) first_winno in
    let! death := window_end (startAt ws) (rangeBy ws) (slideBy ws) (last_winno + 1) in
    Ok (birth, Some death).

(** ** Slices *)

(** [cur_slice] is the rest of the slices from the current one. *)
Record SlicedWindowState : Type := mkSWS {
  sw_slices : list Interval;
  cur_slice : list Interval;
  next_edge : Z
}.

Definition createSlicedWindowState (ws : WindowState) : cres SlicedWindowState :=
  let! first := access (head (slices ws)) in
  let! e := ts_plus_interval (startAt ws) first in
  Ok (mkSWS (slices ws) (slices ws) e).

Definition SlicedWindowAdvance (sws : SlicedWindowState) : cres SlicedWindowState :=
  let rest := match cur_slice sws with [] => [] | _ :: r => r end in
  let cur := match rest with [] => sw_slices sws | _ => rest end in
  let! slice := access (head cur) in
  let! e := ts_plus_interval (next_edge sws) slice in
  Ok (mkSWS (sw_slices sws) cur e).

(** ** Times of day

    [tv_sec], [tv_usec] and [long] have 64 bits. *)

Record timeval : Type := mkTV { tv_sec : Z; tv_usec : Z }.
Definition ONE_MILLION : Z := 1000000.

Definition tv_diff (earlier later : timeval) : cres Z :=
  let! l := int64 (tv_sec later * ONE_MILLION) in
  let! lu := int64 (l + tv_usec later) in
  let! e := int64 (tv_sec earlier * ONE_MILLION) in
  let! d := int64 (lu - e) in
  int64 (d - tv_usec earlier).

Definition tv_plus_int (src : timeval) (offset : Z) : cres timeval :=
  let! sec := int64 (tv_sec src + Z.quot offset ONE_MILLION) in
  let! usec := int64 (tv_usec src + Z.rem offset ONE_MILLION) in
  if ONE_MILLION <? usec then
    let! _ := cassert (usec <? 2 * ONE_MILLION) in
    let! usec' := int64 (usec - ONE_MILLION) in
    let! sec' := int64 (sec + 1) in
    Ok (mkTV sec' usec')
  else if usec <? 0 then
    let! _ := cassert (- ONE_MILLION <=? usec) in
    let! usec' := int64 (usec + ONE_MILLION) in
    let! sec' := int64 (sec - 1) in
    Ok (mkTV sec' usec')
  else Ok (mkTV sec usec).
End window.
Arguments Attributes : clear implicits.
End Window.
