(* ===== verification/WindowSpec.v ===== *)
(** * Windows over time: which windows a timestamp lies in

    The numbers that [first_window_no] and [last_window_no] compute with doubles
    are the first and the last window that hold a timestamp, as long as the doubles
    have room for the integers involved; a tuple is live at the ends of exactly the
    windows that hold it. *)

From S2P Require Import Prelude Eddy Window.

Module WindowSpec.
Import Eddy Window.
Local Open Scope Z_scope.

Section spec.
Context {F : Type} `{!Double F} `{!Truncates F} `{!Calendar}.

(** Doubles compute the integer part of a quotient of integers, and products of
    integers, without error while the numbers are small enough (2^50 is below the
    2^53 up to which all integers are doubles). *)
Class ExactDouble : Prop := {
  quot_up k a b : 0 ≤ k ≤ 2 → 0 < b → Z.abs a + 2 * b < 2 ^ 50 →
    d_trunc (dadd (d_of_Z k) (ddiv (d_of_Z a) (d_of_Z b))) = Z.quot (k * b + a) b;
  quot_up' k a b : 0 ≤ k ≤ 2 → 0 < b → Z.abs a + 2 * b < 2 ^ 50 →
    d_trunc (dadd (ddiv (d_of_Z a) (d_of_Z b)) (d_of_Z k)) = Z.quot (k * b + a) b;
  mul_pred a n : Z.abs n < 2 ^ 32 → Z.abs (a * (n - 1)) < 2 ^ 50 →
    d_trunc (dmul (d_of_Z a) (dsub (d_of_Z n) (d_of_Z 1))) = a * (n - 1)
}.
Context `{!ExactDouble}.

Lemma sint_ok w x : - 2 ^ (w - 1) ≤ x < 2 ^ (w - 1) → sint w x = Ok x.
Proof. intros Hx. unfold sint. by rewrite decide_True. Qed.

Lemma finite t : Z.abs t < 2 ^ 62 → TIMESTAMP_NOT_FINITE t = false.
Proof.
  intros Ht. unfold TIMESTAMP_NOT_FINITE, DT_NOBEGIN, DT_NOEND.
  apply orb_false_iff. split; apply Z.eqb_neq; lia.
Qed.

Lemma pl_span_ok t i : month i = 0 → Z.abs t < 2 ^ 61 → Z.abs (time i) < 2 ^ 61 → timestamp_pl_span t i = Ok (t + time i).
Proof.
  intros Hm Ht Hi. unfold timestamp_pl_span. rewrite finite, Hm by lia. cbn [Z.eqb negb cbind]. unfold int64. apply sint_ok. lia.
Qed.

Lemma mi_ok t1 t2 : Z.abs t1 < 2 ^ 61 → Z.abs t2 < 2 ^ 61 → timestamp_mi t1 t2 = Ok (mkInterval 0 (t1 - t2)).
Proof. intros H1 H2. unfold timestamp_mi. rewrite !finite by lia. cbn [orb]. unfold int64. rewrite sint_ok by lia. done. Qed.

Lemma mul_ok i n : month i = 0 → Z.abs n < 2 ^ 32 → Z.abs (time i * (n - 1)) < 2 ^ 50 →
  interval_mul i (dsub (d_of_Z n) (d_of_Z 1)) = Ok (mkInterval 0 (time i * (n - 1))).
Proof.
  intros Hm Hn Hb. unfold interval_mul. rewrite Hm, !mul_pred by lia. unfold int64. rewrite !Z.mul_0_l, sint_ok by lia. cbn [cbind].
  rewrite sint_ok by lia. cbn [cbind]. change ((0 + 2 ^ 31) mod 2 ^ 32 - 2 ^ 31) with 0. rewrite sint_ok by lia. cbn [cbind].
  f_equal. f_equal. lia.
Qed.

(** A window of fixed length, and the timestamps it can number: those that can be
    reached in 2^29 slides. *)
Context (start : Z) (range slide : Interval).

Record sane : Prop := {
  sn_range : month range = 0 ∧ 0 < time range < 2 ^ 46 ∧ time range < 2 ^ 29 * time slide;
  sn_slide : month slide = 0 ∧ 0 < time slide < 2 ^ 46;
  sn_start : Z.abs start < 2 ^ 46
}.

Definition within (ts : Z) : Prop := Z.abs ts < 2 ^ 47 ∧ Z.abs (ts - start) < 2 ^ 29 * time slide.

Definition wbegin (k : Z) : Z := start + time slide * (k - 1).
Definition wend (k : Z) : Z := wbegin k + time range.
Definition in_window (k ts : Z) : Prop := wbegin k ≤ ts < wend k.

Context (Hs : sane).

Definition small (k : Z) : Prop := Z.abs k < 2 ^ 32 ∧ Z.abs (time slide * (k - 1)) < 2 ^ 50.

Lemma begin_ok k : small k → window_begin start slide k = Ok (wbegin k).
Proof.
  intros [Hk Hb]. destruct Hs as [_ [Hm _] Hst]. unfold window_begin. rewrite mul_ok by done. cbn [cbind].
  rewrite pl_span_ok; cbn [month time]; [done|done|lia|lia].
Qed.

Lemma end_ok k : small k → window_end start range slide k = Ok (wend k).
Proof.
  intros Hk. pose proof Hk as [_ Hb]. destruct Hs as [(Hm & Hr & _) _ Hst]. unfold window_end. rewrite begin_ok by done. cbn [cbind].
  apply pl_span_ok; [done| |lia]. unfold wbegin. lia.
Qed.

Lemma quot_nonneg a b : 0 ≤ a → 0 < b → b * (a ÷ b) ≤ a < b * (a ÷ b + 1) ∧ 0 ≤ a ÷ b.
Proof.
  intros Ha Hb. rewrite Z.quot_div_nonneg by lia. pose proof (Z.div_mod a b ltac:(lia)). pose proof (Z.mod_pos_bound a b Hb).
  split; [nia|]. apply Z.div_pos; lia.
Qed.

Lemma quot_neg a b : a < 0 → 0 < b → b * (a ÷ b - 1) < a ≤ b * (a ÷ b) ∧ a ÷ b ≤ 0.
Proof.
  intros Ha Hb. assert (a ÷ b = - ((- a) ÷ b)) as E by (rewrite Z.quot_opp_l; lia).
  pose proof (quot_nonneg (- a) b ltac:(lia) Hb). nia.
Qed.

(** A quotient of less than [n] slides is less than [n]. *)
Lemma quot_bound a b n : 0 < b → Z.abs a < n * b → Z.abs (a ÷ b) < n ∧ Z.abs (b * (a ÷ b)) ≤ Z.abs a.
Proof.
  intros Hb Ha. destruct (Z_lt_le_dec a 0) as [Hneg|Hpos].
  - pose proof (quot_neg a b Hneg Hb). nia.
  - pose proof (quot_nonneg a b Hpos Hb). nia.
Qed.

(** The first window that ends after [ts]; numbers below 1 only when the first
    window has not ended. *)
Lemma past_ok ts : within ts →
  ∃ w, first_window_past start range slide ts = Ok w ∧ small w ∧ ts < wend w ∧ (∀ k, 1 ≤ k < w → wend k ≤ ts) ∧ (wend 0 ≤ ts → 1 ≤ w)
    ∧ w < 2 ^ 30 + 4.
Proof.
  intros [Ht Htn]. pose proof Hs as [(Hmr & Hr & Hrs) (Hms & Hsl) Hst]. unfold first_window_past.
  rewrite pl_span_ok by (done || lia). cbn [cbind]. rewrite mi_ok by lia. cbn [cbind]. unfold interval_div_interval, interval_to_timespan.
  rewrite Hms. cbn [month time Z.eqb negb cbind]. set (a := ts - (start + time range)). set (b := time slide) in *.
  rewrite quot_up by lia. set (w := (2 * b + a) ÷ b).
  destruct (quot_bound (2 * b + a) b (2 ^ 30 + 2) ltac:(lia) ltac:(lia)) as [Hw1 Hw2]. fold w in Hw1, Hw2.
  unfold int32. rewrite sint_ok by lia. cbn [cbind].
  assert (small w) as Hsm by (split; [lia|]; fold b; lia).
  rewrite end_ok by done. cbn [cbind]. unfold ts_geq, wend, wbegin. fold b.
  assert (ts < start + b * (w - 1) + time range ∧ (∀ k, 1 ≤ k < w → start + b * (k - 1) + time range ≤ ts)
    ∧ (start + b * (0 - 1) + time range ≤ ts → 1 ≤ w)) as (H1 & H2 & H3).
  { destruct (Z_lt_le_dec (2 * b + a) 0) as [Hneg|Hpos].
    - pose proof (quot_neg (2 * b + a) b Hneg ltac:(lia)) as [Hq1 Hq2]. fold w in Hq1, Hq2. split; [nia|]. split; [lia|nia].
    - pose proof (quot_nonneg (2 * b + a) b Hpos ltac:(lia)) as [Hq1 Hq2]. fold w in Hq1, Hq2. split; [nia|]. split; [|nia].
      intros k Hk. assert (b * (k + 1) ≤ b * w) by nia. nia. }
  destruct (Z.leb_spec (start + b * (w - 1) + time range) ts) as [?|_]; [lia|]. exists w. split; [done|]. split; [done|]. split; [done|]. split; [done|].
  split; [done|lia].
Qed.

Lemma wbegin_le j k : j ≤ k → wbegin j ≤ wbegin k.
Proof. intros Hjk. destruct Hs as [_ [_ Hsl] _]. unfold wbegin. nia. Qed.
Lemma wbegin_lt j k : wbegin j < wbegin k ↔ j < k.
Proof. destruct Hs as [_ [_ Hsl] _]. unfold wbegin. nia. Qed.
Lemma wend_lt j k : wend j < wend k ↔ j < k.
Proof. unfold wend. rewrite <- (wbegin_lt j k). lia. Qed.
Lemma wend_le j k : wend j ≤ wend k ↔ j ≤ k.
Proof. pose proof (wend_lt k j). lia. Qed.
Lemma wbegin_next k : wbegin (k + 1) = wbegin k + time slide.
Proof. unfold wbegin. lia. Qed.

(** What [last_window_no] gives for a timestamp in no window. *)
Definition last_outside (ts : Z) : Z :=
  let q := (time slide + (ts - start)) ÷ time slide in
  if ts <? wend q then q else -1.

Lemma last_outside_after ts : start ≤ ts → (∀ k, 1 ≤ k → ¬ in_window k ts) → last_outside ts = -1.
Proof.
  intros Hge Hno. pose proof Hs as [_ (_ & Hsl) _]. unfold last_outside.
  destruct (quot_nonneg (time slide + (ts - start)) (time slide) ltac:(lia) ltac:(lia)) as [Hq1 Hq2].
  set (q := (time slide + (ts - start)) ÷ time slide) in *. destruct (Z.ltb_spec ts (wend q)) as [Hlt|]; [|done].
  assert (1 ≤ q) as Hq by nia. destruct (Hno q Hq). split; [unfold wbegin; nia|done].
Qed.

Lemma last_outside_before ts : ts < start → last_outside ts ≤ 0.
Proof.
  intros Hlt. pose proof Hs as [_ (_ & Hsl) _]. unfold last_outside. destruct (ts <? wend _); [|lia].
  destruct (Z_lt_le_dec (time slide + (ts - start)) 0) as [Hneg|Hpos]; [by apply quot_neg; lia|].
  rewrite Z.quot_small; lia.
Qed.

Lemma numbers_ok ts : within ts →
  ∃ f l, first_window_no start range slide ts = Ok f ∧ last_window_no start range slide ts = Ok l
    ∧ ((1 ≤ f ≤ l ∧ small f ∧ small (l + 1) ∧ ∀ k, 1 ≤ k → in_window k ts ↔ f ≤ k ≤ l) ∨ (f = -1 ∧ l = last_outside ts ∧ ∀ k, 1 ≤ k → ¬ in_window k ts)).
Proof.
  intros Hts. pose proof Hts as [Ht Htn]. pose proof Hs as [(Hmr & Hr & Hrs) (Hms & Hsl) Hst].
  destruct (past_ok ts Hts) as (w & E & Hw & Hend & Hbefore & _ & _).
  set (f := if w <? 1 then 1 else w).
  assert (1 ≤ f ∧ ts < wend f ∧ ∀ k, 1 ≤ k → k < f → wend k ≤ ts) as (Hf1 & Hf2 & Hf3).
  { unfold f. destruct (Z.ltb_spec w 1); [|split; [lia|split; [done|]]; intros k ??; by apply Hbefore].
    split; [lia|]. split; [|lia]. eapply Z.lt_le_trans; [exact Hend|]. apply wend_le. lia. }
  assert (small f) as Hf by (unfold f; destruct (Z.ltb_spec w 1); [split; lia|done]).
  unfold first_window_no. rewrite E. cbn [cbind]. fold f. rewrite begin_ok by done. cbn [cbind].
  unfold last_window_no. rewrite mi_ok by lia. cbn [cbind]. unfold interval_div_interval, interval_to_timespan.
  rewrite Hms. cbn [month time Z.eqb negb cbind]. rewrite quot_up' by lia. rewrite Z.mul_1_l. set (l := (time slide + (ts - start)) ÷ time slide).
  destruct (quot_bound (time slide + (ts - start)) (time slide) (2 ^ 29 + 1) ltac:(lia) ltac:(lia)) as [Hl1 Hl2]. fold l in Hl1, Hl2.
  unfold int32. rewrite sint_ok by lia. cbn [cbind]. assert (small l) as Hl by (split; lia).
  unfold timestamp_past_window. rewrite end_ok by done. cbn [cbind]. rewrite negb_involutive.
  destruct (Z.leb_spec (wbegin f) ts) as [Hb|Hb].
  - assert (0 ≤ time slide + (ts - start)) as Hpos by (unfold wbegin in Hb; nia).
    destruct (quot_nonneg _ (time slide) Hpos ltac:(lia)) as [Hq1 Hq2]. fold l in Hq1, Hq2.
    assert (wbegin l ≤ ts < wbegin (l + 1)) as [Hlb1 Hlb2] by (unfold wbegin; nia).
    assert (f ≤ l) as Hfl by (pose proof (wbegin_lt l f); pose proof (wbegin_le (l + 1) f); lia).
    assert (ts < wend l) as Hle by (pose proof (wend_le f l); lia). destruct (Z.ltb_spec ts (wend l)); [|lia].
    exists f, l. split; [done|]. split; [done|]. left. split; [done|]. split; [done|].
    split; [split; nia|]. intros k Hk. unfold in_window. split.
    + intros [Ha1 Ha2]. split; [|pose proof (wbegin_le (l + 1) k); lia]. destruct (Z_lt_le_dec k f) as [Hlt|]; [|done].
      specialize (Hf3 k Hk Hlt). lia.
    + intros [Ha1 Ha2]. split; [pose proof (wbegin_le k l); lia|]. pose proof (wend_le f k). lia.
  - exists (-1), (if ts <? wend l then l else -1). split; [done|]. split; [by destruct (ts <? wend l)|]. right. split; [done|].
    split; [done|]. intros k Hk [Ha1 Ha2]. destruct (Z_lt_le_dec k f) as [Hlt|Hge]; [specialize (Hf3 k Hk Hlt); lia|].
    pose proof (wbegin_le f k Hge). lia.
Qed.

(** C25: the window numbers.  For a timestamp within reach of the start (2^29 slides,
    and 2^47 microseconds), [first_window_no] and [last_window_no] return the least
    and the greatest window, from 1, with begin <= timestamp < end.  When no window
    holds the timestamp, the first number is -1; the last is -1 too where the
    timestamp lies between two windows, but before the start of the stream it is
    the number of slides rounded towards zero, 0 or less, unless a "window 0" of
    that number has passed.  Nothing overflows. *)
Theorem window_numbers ts : within ts →
  ∃ f l, first_window_no start range slide ts = Ok f ∧ last_window_no start range slide ts = Ok l
    ∧ ((1 ≤ f ∧ ∀ k, 1 ≤ k → in_window k ts ↔ f ≤ k ≤ l)
       ∨ (f = -1 ∧ (start ≤ ts → l = -1) ∧ (ts < start → l ≤ 0 ∧ l = last_outside ts) ∧ ∀ k, 1 ≤ k → ¬ in_window k ts)).
Proof.
  intros Hts. destruct (numbers_ok ts Hts) as (f & l & E1 & E2 & Hor). exists f, l. split; [done|]. split; [done|].
  destruct Hor as [(Hf & _ & _ & Hk)|(Hf & Hl & Hk)]; [left; split; [lia|done]|right]. split; [done|].
  split; [intros Hge; rewrite Hl; by apply last_outside_after|]. split; [|done]. intros Hlt. split; [|done]. rewrite Hl.
  by apply last_outside_before.
Qed.

(** The next end of a window after [ts]. *)
Lemma next_end_ok ts : within ts → wend 0 ≤ ts →
  ∃ w e, first_window_past start range slide ts = Ok w ∧ 0 < w ∧ window_end start range slide w = Ok e ∧ e = wend w ∧ ts < e
    ∧ ∀ k, 1 ≤ k → ts < wend k → e ≤ wend k.
Proof.
  intros Hts Hz. destruct (past_ok ts Hts) as (w & E & Hw & Hend & Hbefore & Hpos & _). specialize (Hpos Hz).
  exists w, (wend w). split; [done|]. split; [lia|]. split; [by apply end_ok|]. split; [done|]. split; [done|].
  intros k Hk Hlt. apply wend_le. destruct (Z_lt_le_dec k w) as [Hkw|]; [|done]. specialize (Hbefore k (conj Hk Hkw)). lia.
Qed.
End spec.

(** ** The windows of a stream *)

Section stream.
Context {F : Type} `{!Double F} `{!Truncates F} `{!Calendar} `{!ExactDouble (F := F)} {HT : Type} `{!Attributes HT}.
Implicit Types (ws : WindowState) (tup : HT).

Definition ws_sane ws : Prop := sane (startAt ws) (rangeBy ws) (slideBy ws).
Definition ws_within ws (ts : Z) : Prop := within (startAt ws) (slideBy ws) ts.
Definition window_ends ws (k : Z) : Z := wend (startAt ws) (rangeBy ws) (slideBy ws) k.
Definition window_begins ws (k : Z) : Z := wbegin (startAt ws) (slideBy ws) k.
Definition window_has ws (k ts : Z) : Prop := in_window (startAt ws) (rangeBy ws) (slideBy ws) k ts.

Lemma lifetime_ok ws tup ts : ws_sane ws → heap_getattr tup (tsvar ws) = Some ts → ws_within ws ts →
  ∃ b d, windowStateGetLifetime ws tup = Ok (b, d)
    ∧ ((∃ f l, 1 ≤ f ≤ l ∧ b = window_ends ws f ∧ d = Some (window_ends ws (l + 1)) ∧ ∀ k, 1 ≤ k → window_has ws k ts ↔ f ≤ k ≤ l)
       ∨ (b = DT_NOEND ∧ d = None ∧ ∀ k, 1 ≤ k → ¬ window_has ws k ts)).
Proof.
  intros Hs Hts Hw. unfold windowStateGetLifetime, windowStateGetTS. rewrite Hts. cbn [cbind].
  destruct (numbers_ok _ _ _ Hs ts Hw) as (f & l & -> & -> & Hor). cbn [cbind].
  destruct Hor as [(Hf & Hsf & Hsl & Hk)|(-> & _ & Hk)].
  - destruct (Z.eqb_spec f (-1)); [lia|]. rewrite !(end_ok _ _ _ Hs) by done. cbn [cbind]. eexists _, _. split; [done|]. left.
    by exists f, l.
  - eexists _, _. split; [done|]. by right.
Qed.

(** C26: a tuple is live at the end of exactly the windows that have it.  With the
    birth and death that [windowStateGetLifetime] computes for a timestamp within
    reach, birth <= end of window k < death holds for those windows k >= 1 whose
    begin <= timestamp < end, and for no other; a timestamp in no window gets the
    birth "never". *)
Theorem live_at_window_ends ws tup ts : ws_sane ws → heap_getattr tup (tsvar ws) = Some ts → ws_within ws ts →
  ∃ b d, windowStateGetLifetime ws tup = Ok (b, d)
    ∧ ((∃ d', d = Some d' ∧ ∀ k, 1 ≤ k → window_has ws k ts ↔ b ≤ window_ends ws k < d')
       ∨ (b = DT_NOEND ∧ ∀ k, 1 ≤ k → ¬ window_has ws k ts)).
Proof.
  intros Hs Hts Hw. destruct (lifetime_ok ws tup ts Hs Hts Hw) as (b & d & E & Hor). exists b, d. split; [done|].
  destruct Hor as [(f & l & Hf & -> & -> & Hk)|(-> & -> & Hk)]; [|by right]. left. eexists. split; [done|]. intros k Hk1.
  rewrite Hk by done. unfold window_ends. rewrite (wend_le _ _ _ Hs), (wend_lt _ _ _ Hs). lia.
Qed.

Lemma next_slide_ok ws ts : ws_sane ws → ws_within ws ts → window_ends ws 0 ≤ ts →
  ∃ k, windowStateGetNextSlide ws ts = Ok (window_ends ws k) ∧ 1 ≤ k ∧ ts < window_ends ws k
    ∧ ∀ j, 1 ≤ j → ts < window_ends ws j → window_ends ws k ≤ window_ends ws j.
Proof.
  intros Hs Hw Hz. destruct (next_end_ok _ _ _ Hs ts Hw Hz) as (k & e & E & Hk & Ee & -> & Hlt & Hleast). exists k.
  unfold windowStateGetNextSlide. rewrite E. cbn [cbind]. rewrite (proj2 (Z.ltb_lt 0 k) Hk). cbn [cassert cbind]. rewrite Ee.
  split; [done|]. split; [lia|]. by split.
Qed.
End stream.

(** ** Times of day *)

Section times.
Implicit Types (tv : timeval).

Lemma int64_ok x : - 2 ^ 63 ≤ x < 2 ^ 63 → int64 x = Ok x.
Proof. apply (sint_ok 64). Qed.

Lemma tv_diff_ok tv tv' (d : Z) :
  0 ≤ tv_usec tv ≤ ONE_MILLION → 0 ≤ tv_usec tv' ≤ ONE_MILLION → Z.abs (tv_sec tv) < 2 ^ 42 → Z.abs d < 2 ^ 62 →
  tv_sec tv' * ONE_MILLION + tv_usec tv' = tv_sec tv * ONE_MILLION + tv_usec tv + d → tv_diff tv tv' = Ok d.
Proof.
  unfold tv_diff, ONE_MILLION. intros Hu Hu' Hsec Hd E. rewrite !int64_ok by lia. cbn [cbind]. rewrite int64_ok by lia. cbn [cbind].
  rewrite int64_ok by lia. cbn [cbind]. rewrite int64_ok by lia. f_equal. lia.
Qed.

(** C38: an offset added to a time of day is the difference of the two times.  For
    a normal time of less than 2^42 seconds on either side of 1970 and an offset of
    less than 2^62 microseconds, forwards or back, no operation on 64-bit integers
    overflows, [tv_plus_int] succeeds, and [tv_diff] gives the offset back; the
    result is normal but for one case, in which the microseconds are a whole
    million that is not carried. *)
Theorem tv_plus_int_diff tv (offset : Z) :
  0 ≤ tv_usec tv < ONE_MILLION → Z.abs (tv_sec tv) < 2 ^ 42 → Z.abs offset < 2 ^ 62 →
  ∃ tv', tv_plus_int tv offset = Ok tv' ∧ tv_diff tv tv' = Ok offset
    ∧ (0 ≤ tv_usec tv' < ONE_MILLION ∨ tv_usec tv' = ONE_MILLION ∧ tv_usec tv + Z.rem offset ONE_MILLION = ONE_MILLION).
Proof.
  intros Htv Hsec Hoff. unfold tv_plus_int. pose proof (Z.quot_rem' offset ONE_MILLION) as Hq.
  pose proof (Z.rem_bound_abs offset ONE_MILLION ltac:(done)) as Hr. unfold ONE_MILLION in *.
  set (qu := offset ÷ 1000000) in *. set (re := Z.rem offset 1000000) in *. rewrite !int64_ok by lia. cbn [cbind].
  destruct (Z.ltb_spec 1000000 (tv_usec tv + re)).
  - rewrite (proj2 (Z.ltb_lt _ _)) by lia. cbn [cassert cbind]. rewrite !int64_ok by lia. cbn [cbind].
    eexists. split; [done|]. split; [apply tv_diff_ok|]; cbn [tv_sec tv_usec]; unfold ONE_MILLION; lia.
  - destruct (Z.ltb_spec (tv_usec tv + re) 0).
    + rewrite (proj2 (Z.leb_le _ _)) by lia. cbn [cassert cbind]. rewrite !int64_ok by lia. cbn [cbind].
      eexists. split; [done|]. split; [apply tv_diff_ok|]; cbn [tv_sec tv_usec]; unfold ONE_MILLION; lia.
    + eexists. split; [done|]. split; [apply tv_diff_ok|]; cbn [tv_sec tv_usec]; unfold ONE_MILLION; lia.
Qed.
End times.
End WindowSpec.
