(* ===== verification/FAgg.v ===== *)
(** * Windowed aggregates

    [src/src/backend/executor/nodeFAgg.c]: the operator that feeds the tuples of
    each window to an aggregation plan.

    A tuple that arrives is filed under the time it becomes live and under the time
    it dies; when the current time, the least of the highest timestamps seen on the
    streams, reaches the next end of a window, the window slides there: dead tuples
    leave the list of live ones, new ones join it, and the plan is run on the list.
    A second mode cuts the time axis into slices instead.

    The nodes of the lists are shared between an activation group or the list of
    live tuples and a deactivation group, so they are locations of a heap.  The
    groups themselves have one owner and are lists of a time and the group's
    pointers.  The aggregation plan is PostgreSQL's executor and is a parameter:
    at each step it asks for a tuple, through [ExecFAgg], or returns a result. *)

From S2P Require Import Prelude BitArray GSFilter Eddy EddyGSF Window.

Module FAgg.
Import Bit Eddy Window.
Local Open Scope Z_scope.

(** A tuple descriptor: name and type of each attribute, and the number of the
    timestamp attribute, from 0, in its constraints; -1 when there is none. *)
Record TupleDesc : Type := mkTD { attrs : list (string * Z); constr : option Z }.

Inductive demand (HT P : Type) : Type :=
  | Pull (k : option HT → P)
  | Return (r : option (HT * TupleDesc)) (p : P).
Arguments Pull {HT P}.
Arguments Return {HT P}.

(** [agg_step] is given the time that the aggregate [wtime] answers.
    [uninitialized] is what a local variable holds that was not assigned. *)
Class FAggEnv (HT P : Type) : Type := {
  EddyExecProject : IHT HT → nat → HT;
  agg_step : Z → P → demand HT P;
  ExecReScan : P → P;
  form_punct_tup : TupleDesc → Z → HT;
  form_punct_tup_no_ts : TupleDesc → HT;
  uninitialized : Z
}.

Inductive FAS_state : Type :=
  | FAS_NOT_INITIALIZED
  | FAS_NO_WINDOW_EXPR
  | FAS_BEFORE_START
  | FAS_READING
  | FAS_RUNNING_AGG
  | FAS_FINISHING_AGG
  | FAS_PUNCTUATING
  | FAS_DONE.

#[global] Instance FAS_state_eq : EqDecision FAS_state.
Proof. solve_decision. Defined.

(** ** The lists of tuples *)

Section lists.
Context {HT : Type}.

Record TupleList : Type := mkTup { tuple : HT; next : option nat; prev : option nat }.

(** [tl_heap] has the nodes, below [tl_fresh]. *)
Record Lists : Type := mkLists {
  tl_heap : gmap nat TupleList;
  tl_fresh : nat;
  live_tuples_head : option nat;
  live_tuples_tail : option nat;
  live_tuples_cur : option nat;
  activation_groups : list (Z * (option nat * option nat));
  deactivation_groups : list (Z * list nat)
}.

Definition with_heap (l : Lists) (h : gmap nat TupleList) : Lists :=
  mkLists h (tl_fresh l) (live_tuples_head l) (live_tuples_tail l) (live_tuples_cur l) (activation_groups l) (deactivation_groups l).
Definition with_live (l : Lists) (hd tl : option nat) : Lists :=
  mkLists (tl_heap l) (tl_fresh l) hd tl (live_tuples_cur l) (activation_groups l) (deactivation_groups l).
Definition with_cur (l : Lists) (cur : option nat) : Lists :=
  mkLists (tl_heap l) (tl_fresh l) (live_tuples_head l) (live_tuples_tail l) cur (activation_groups l) (deactivation_groups l).
Definition with_groups (l : Lists) (a : list (Z * (option nat * option nat))) (d : list (Z * list nat)) : Lists :=
  mkLists (tl_heap l) (tl_fresh l) (live_tuples_head l) (live_tuples_tail l) (live_tuples_cur l) a d.

Definition set_next (l : Lists) (p : nat) (v : option nat) : cres Lists :=
  let! n := access (tl_heap l !! p) in Ok (with_heap l (<[p := mkTup (tuple n) v (prev n)]> (tl_heap l))).
Definition set_prev (l : Lists) (p : nat) (v : option nat) : cres Lists :=
  let! n := access (tl_heap l !! p) in Ok (with_heap l (<[p := mkTup (tuple n) (next n) v]> (tl_heap l))).

Definition make_tuple_list_node (l : Lists) (tup : HT) : nat * Lists :=
  (tl_fresh l, mkLists (<[tl_fresh l := mkTup tup None None]> (tl_heap l)) (S (tl_fresh l)) (live_tuples_head l) (live_tuples_tail l)
     (live_tuples_cur l) (activation_groups l) (deactivation_groups l)).

Definition destroy_tuple_list_node (l : Lists) (p : nat) : cres Lists :=
  let! _ := access (tl_heap l !! p) in Ok (with_heap l (delete p (tl_heap l))).

(** The groups with one for [thetime], and its position. *)
Fixpoint get_group_for_ts {X : Type} (groups : list (Z * X)) (thetime : Z) (empty : X) : list (Z * X) * nat :=
  match groups with
  | [] => ([(thetime, empty)], 0%nat)
  | (u, x) :: rest =>
      if ts_greater_than thetime u then let '(g, i) := get_group_for_ts rest thetime empty in ((u, x) :: g, S i)
      else if ts_equals thetime u then (groups, 0%nat)
      else ((thetime, empty) :: groups, 0%nat)
  end.

Definition add_to_activation_group (l : Lists) (elem : nat) (birth_time : Z) : cres Lists :=
  let '(groups, i) := get_group_for_ts (activation_groups l) birth_time (None, None) in
  let! l1 := set_next (with_groups l groups (deactivation_groups l)) elem None in
  let! (_, (hd, tl)) := access (groups !! i) in
  let! (hd', l2) :=
    match hd with
    | None => Ok (Some elem, l1)
    | Some _ =>
        match tl with
        | None => Fail AssertFail
        | Some t => let! l2 := set_next l1 t (Some elem) in Ok (hd, l2)
        end
    end in
  Ok (with_groups l2 (alter (λ g, (g.1, (hd', Some elem))) i groups) (deactivation_groups l2)).

Definition add_to_deactivation_group (l : Lists) (elem : nat) (death_time : Z) : Lists :=
  let '(groups, i) := get_group_for_ts (deactivation_groups l) death_time [] in
  with_groups l (activation_groups l) (alter (λ g, (g.1, elem :: g.2)) i groups).

Definition add_to_live_list (l : Lists) (elem : nat) : cres Lists :=
  let! l1 :=
    match live_tuples_head l with
    | None => set_prev (with_live l (Some elem) (live_tuples_tail l)) elem None
    | Some _ =>
        let! t := access (live_tuples_tail l) in
        let! l1 := set_next l t (Some elem) in
        set_prev l1 elem (Some t)
    end in
  set_next (with_live l1 (live_tuples_head l1) (Some elem)) elem None.

Definition remove_from_live_list (l : Lists) (elem : nat) : cres Lists :=
  let! n := access (tl_heap l !! elem) in
  let l1 := with_live l (if decide (live_tuples_head l = Some elem) then next n else live_tuples_head l)
                        (if decide (live_tuples_tail l = Some elem) then prev n else live_tuples_tail l) in
  let! l2 := match prev n with Some p => set_next l1 p (next n) | None => Ok l1 end in
  match next n with Some q => set_prev l2 q (prev n) | None => Ok l2 end.

Fixpoint remove_dead (l : Lists) (tups : list nat) : cres Lists :=
  match tups with
  | [] => Ok l
  | elem :: rest =>
      let! l1 := remove_from_live_list l elem in
      let! l2 := destroy_tuple_list_node l1 elem in
      remove_dead l2 rest
  end.

Fixpoint add_born (fuel : nat) (l : Lists) (ptr : option nat) : cres Lists :=
  match ptr with
  | None => Ok l
  | Some p =>
      match fuel with
      | O => Fail Diverge
      | S fuel' =>
          let! n := access (tl_heap l !! p) in
          let! l1 := add_to_live_list l p in
          add_born fuel' l1 (next n)
      end
  end.

(** The first group, when it is for [thetime]; no group may be for an earlier time. *)
Definition first_group {X : Type} (groups : list (Z * X)) (thetime : Z) : cres (option X) :=
  match groups with
  | [] => Ok None
  | (u, x) :: _ =>
      if negb (ts_equals u thetime) then let! _ := cassert (ts_greater_than u thetime) in Ok None
      else Ok (Some x)
  end.

(** The part of [advance_window] on the lists. *)
Definition advance_lists (l : Lists) (slide : Z) : cres Lists :=
  let! born := first_group (activation_groups l) slide in
  let! dead := first_group (deactivation_groups l) slide in
  let! l1 :=
    match dead with
    | Some tups =>
        let! l1 := remove_dead l tups in Ok (with_groups l1 (activation_groups l1) (tail (deactivation_groups l)))
    | None => Ok l
    end in
  match born with
  | Some (hd, _) =>
      let! l2 := add_born (tl_fresh l1) l1 hd in Ok (with_groups l2 (tail (activation_groups l)) (deactivation_groups l2))
  | None => Ok l1
  end.
End lists.
Arguments TupleList : clear implicits.
Arguments Lists : clear implicits.

(** ** The timestamp column of the results *)

Definition lower (c : Ascii.ascii) : Ascii.ascii :=
  let n := Ascii.nat_of_ascii c in if decide (65 ≤ n ≤ 90)%nat then Ascii.ascii_of_nat (n + 32) else c.
Fixpoint lowercase (s : string) : string :=
  match s with EmptyString => EmptyString | String c s' => String (lower c) (lowercase s') end.

(** [strncasecmp] of the name with a name in lower case. *)
Definition is_called (name : string) (a : string * Z) : bool := String.eqb (lowercase a.1) name.
Definition TIMESTAMPOID : Z := 1114.

Fixpoint first_attr (p : string * Z → bool) (i : Z) (l : list (string * Z)) : option Z :=
  match l with
  | [] => None
  | a :: l' => if p a then Some i else first_attr p (i + 1) l'
  end.
Fixpoint last_attr (p : string * Z → bool) (i : Z) (l : list (string * Z)) : option Z :=
  match l with
  | [] => None
  | a :: l' => match last_attr p (i + 1) l' with Some j => Some j | None => if p a then Some i else None end
  end.

Definition fix_tdesc_timestampcol (desc : TupleDesc) : TupleDesc :=
  match constr desc with
  | Some _ => desc
  | None =>
      mkTD (attrs desc)
        (Some (match first_attr (is_called "tcqtime") 0 (attrs desc) with
               | Some i => i
               | None =>
                   match first_attr (is_called "wtime") 0 (attrs desc) with
                   | Some i => i
                   | None =>
                       match last_attr (λ a, a.2 =? TIMESTAMPOID) 0 (attrs desc) with
                       | Some i => i
                       | None => -1
                       end
                   end
               end))
  end.

(** ** The operator *)

Section fagg.
Context {F HT P : Type} `{!Double F} `{!Truncates F} `{!Calendar} `{!Attributes HT} `{!FAggEnv HT P}.

(** The windows and the clock that the tuples drive. *)
Record Clock : Type := mkClock {
  window_states : list WindowState;
  current_time : Z;
  last_slide_time : Z;
  next_slide_time : Z;
  latest_slide_time : Z;
  wtime : Z
}.

(** [oiht] is the entry of [ModuleIHT_Table]; [faggstate] is kept in place. *)
Record FAgg : Type := mkFAgg {
  usedByQueries : list nat;
  room : nat;
  inputq : list (IHT HT);
  outputq : list (IHT HT);
  total_entered : Z;
  total_exited : Z;
  output_tdesc : option TupleDesc;
  clock : Clock;
  lists : Lists HT;
  slicedAgg : bool;
  state : FAS_state;
  swstate : option SlicedWindowState;
  pending : list HT;
  aggPlan : P;
  oiht : IHT HT
}.

Definition with_clock (a : FAgg) (c : Clock) : FAgg :=
  mkFAgg (usedByQueries a) (room a) (inputq a) (outputq a) (total_entered a) (total_exited a) (output_tdesc a) c (lists a) (slicedAgg a)
    (state a) (swstate a) (pending a) (aggPlan a) (oiht a).
Definition with_lists (a : FAgg) (l : Lists HT) : FAgg :=
  mkFAgg (usedByQueries a) (room a) (inputq a) (outputq a) (total_entered a) (total_exited a) (output_tdesc a) (clock a) l (slicedAgg a)
    (state a) (swstate a) (pending a) (aggPlan a) (oiht a).
Definition with_state (a : FAgg) (s : FAS_state) : FAgg :=
  mkFAgg (usedByQueries a) (room a) (inputq a) (outputq a) (total_entered a) (total_exited a) (output_tdesc a) (clock a) (lists a) (slicedAgg a)
    s (swstate a) (pending a) (aggPlan a) (oiht a).
Definition with_plan (a : FAgg) (p : P) : FAgg :=
  mkFAgg (usedByQueries a) (room a) (inputq a) (outputq a) (total_entered a) (total_exited a) (output_tdesc a) (clock a) (lists a) (slicedAgg a)
    (state a) (swstate a) (pending a) p (oiht a).
Definition with_queues (a : FAgg) (inp out : list (IHT HT)) (entered exited : Z) : FAgg :=
  mkFAgg (usedByQueries a) (room a) inp out entered exited (output_tdesc a) (clock a) (lists a) (slicedAgg a)
    (state a) (swstate a) (pending a) (aggPlan a) (oiht a).
Definition with_tdesc (a : FAgg) (td : option TupleDesc) (o : IHT HT) : FAgg :=
  mkFAgg (usedByQueries a) (room a) (inputq a) (outputq a) (total_entered a) (total_exited a) td (clock a) (lists a) (slicedAgg a)
    (state a) (swstate a) (pending a) (aggPlan a) o.
Definition with_slices (a : FAgg) (sws : option SlicedWindowState) (pend : list HT) : FAgg :=
  mkFAgg (usedByQueries a) (room a) (inputq a) (outputq a) (total_entered a) (total_exited a) (output_tdesc a) (clock a) (lists a) (slicedAgg a)
    (state a) sws pend (aggPlan a) (oiht a).
Definition with_used (a : FAgg) (u : list nat) : FAgg :=
  mkFAgg u (room a) (inputq a) (outputq a) (total_entered a) (total_exited a) (output_tdesc a) (clock a) (lists a) (slicedAgg a)
    (state a) (swstate a) (pending a) (aggPlan a) (oiht a).

Definition set_times (c : Clock) (cur last nxt latest w : Z) : Clock := mkClock (window_states c) cur last nxt latest w.
Definition set_windows (c : Clock) (ws : list WindowState) (cur : Z) : Clock :=
  mkClock ws cur (last_slide_time c) (next_slide_time c) (latest_slide_time c) (wtime c).

(** Initialised, before the windows are known. *)
Definition ProcessInitFAgg (used : list nat) (fjord_room : nat) (plan : P) (o : IHT HT) : FAgg :=
  mkFAgg used fjord_room [] [] 0 0 None (mkClock [] DT_NOBEGIN 0 0 0 0) (mkLists ∅ 0 None None None [] []) false FAS_NO_WINDOW_EXPR None []
    plan o.

(** *** Windows *)

Fixpoint create_windows (wes : list WindowExpr) (acc : list WindowState) (sliced : bool) : cres (list WindowState * bool) :=
  match wes with
  | [] => Ok (acc, sliced)
  | we :: wes' =>
      let! ws := createWindowState we in
      create_windows wes' (ws :: acc) (match we_slices we with [] => sliced | _ => true end)
  end.

Fixpoint first_changes (wsl : list WindowState) (c : Clock) : cres Clock :=
  match wsl with
  | [] => Ok c
  | ws :: wsl' =>
      let! f := windowStateGetFirstChange ws in
      let nxt := ts_min (next_slide_time c) f in
      first_changes wsl' (set_times c (current_time c) (ts_min (last_slide_time c) (startAt ws)) nxt (ts_max nxt f) nxt)
  end.

Definition FAggAddWindowExprs (a : FAgg) (windowExprs : list WindowExpr) : cres FAgg :=
  let! _ := cassert (bool_decide (state a = FAS_NO_WINDOW_EXPR)) in
  let! _ := cassert (match window_states (clock a) with [] => true | _ => false end) in
  let! _ := cassert (match windowExprs with [] => false | _ => true end) in
  let! (wss, sliced) := create_windows windowExprs [] false in
  let a1 := mkFAgg (usedByQueries a) (room a) (inputq a) (outputq a) (total_entered a) (total_exited a) (output_tdesc a)
              (set_windows (clock a) wss (current_time (clock a))) (lists a) sliced (state a) (swstate a) (pending a) (aggPlan a) (oiht a) in
  if sliced then
    let! ws := access (head wss) in
    let! _ := cassert (match wss with [_] => true | _ => false end) in
    let! sws := createSlicedWindowState ws in
    let c := clock a1 in
    Ok (with_clock (with_slices (with_state a1 FAS_BEFORE_START) (Some sws) (pending a1))
          (set_times c (current_time c) (last_slide_time c) (next_edge sws) (latest_slide_time c) (wtime c)))
  else
    let c := clock a1 in
    let! c1 := first_changes wss (set_times c (current_time c) DT_NOEND DT_NOEND DT_NOBEGIN (wtime c)) in
    let! _ := cassert (negb (next_slide_time c1 =? DT_NOEND)) in
    let! _ := cassert (negb (last_slide_time c1 =? DT_NOEND)) in
    let! _ := cassert (negb (latest_slide_time c1 =? DT_NOBEGIN)) in
    Ok (with_state (with_clock a1 c1) FAS_READING).

(** *** New tuples *)

(** From the latest birth to the earliest death over the windows. *)
Fixpoint lifetime (wsl : list WindowState) (tup : HT) (birth death : Z) : cres (Z * Z) :=
  match wsl with
  | [] => Ok (birth, death)
  | ws :: wsl' =>
      let! (b, d) := windowStateGetLifetime ws tup in
      lifetime wsl' tup (ts_max birth b) (ts_min death (default uninitialized d))
  end.

Fixpoint update_max (wsl : list WindowState) (tup : HT) (new_current_time : Z) : cres (list WindowState * Z) :=
  match wsl with
  | [] => Ok ([], new_current_time)
  | ws :: wsl' =>
      let! ws1 := windowStateUpdateMaxTS ws tup in
      let! (wsl1, t) := update_max wsl' tup (ts_min new_current_time (windowStateGetMaxTS ws1)) in
      Ok (ws1 :: wsl1, t)
  end.

(** Files the tuple under its birth and its death, when it has a life to come. *)
Definition file_tuple (l : Lists HT) (tup : HT) (birth death last_slide : Z) : cres (Lists HT) :=
  if (birth =? DT_NOEND) || ts_geq birth death then Ok l
  else if ts_leq death last_slide && negb (last_slide =? DT_NOBEGIN) then Ok l
  else
    let '(elem, l1) := make_tuple_list_node l tup in
    let! l2 := add_to_activation_group l1 elem birth in
    Ok (add_to_deactivation_group l2 elem death).

Definition add_new_tuple_range_slide (a : FAgg) (iiht : IHT HT) : cres FAgg :=
  let! q := access (head (usedByQueries a)) in
  let inputTuple := EddyExecProject iiht q in
  let a1 := with_queues a (inputq a) (outputq a) (total_entered a + 1) (total_exited a) in
  let c := clock a1 in
  let! (birth, death) := lifetime (window_states c) inputTuple DT_NOBEGIN DT_NOEND in
  let! l := file_tuple (lists a1) inputTuple birth death (last_slide_time c) in
  let! (wsl, new_current_time) := update_max (window_states c) inputTuple DT_NOEND in
  let! _ := cassert (negb (new_current_time =? DT_NOEND)) in
  Ok (with_clock (with_lists a1 l) (set_windows c wsl (ts_max (current_time c) new_current_time))).

(** *** Sliding *)

Fixpoint next_slides (wsl : list WindowState) (ts slide latest : Z) : cres (Z * Z) :=
  match wsl with
  | [] => Ok (slide, latest)
  | ws :: wsl' =>
      let! nextslide := windowStateGetNextSlide ws ts in
      next_slides wsl' ts (ts_min slide nextslide) (ts_max latest nextslide)
  end.

Definition advance_window (a : FAgg) : cres FAgg :=
  let c := clock a in
  let! l := advance_lists (lists a) (next_slide_time c) in
  let! (new_slide, new_latest) := next_slides (window_states c) (next_slide_time c) DT_NOEND DT_NOBEGIN in
  let! _ := cassert (ts_greater_than new_slide (next_slide_time c)) in
  Ok (with_clock (with_lists a l) (set_times c (current_time c) (next_slide_time c) new_slide new_latest (wtime c))).

(** *** The aggregation plan *)

(** The callback with which the plan fetches the live tuples. *)
Definition ExecFAgg (a : FAgg) : cres (option HT * FAgg) :=
  let! _ := cassert (bool_decide (state a = FAS_RUNNING_AGG)) in
  match live_tuples_cur (lists a) with
  | None => Ok (None, with_state a FAS_FINISHING_AGG)
  | Some p =>
      let! n := access (tl_heap (lists a) !! p) in
      Ok (Some (tuple n), with_lists a (with_cur (lists a) (next n)))
  end.

Fixpoint ExecProcNode (fuel : nat) (a : FAgg) : cres (option (HT * TupleDesc) * FAgg) :=
  match agg_step (wtime (clock a)) (aggPlan a) with
  | Return r p => Ok (r, with_plan a p)
  | Pull k =>
      match fuel with
      | O => Fail Diverge
      | S fuel' => let! (o, a1) := ExecFAgg a in ExecProcNode fuel' (with_plan a1 (k o))
      end
  end.

Definition reset_agg_tree (a : FAgg) : FAgg := with_plan a (ExecReScan (aggPlan a)).

(** Makes a tuple of the result and puts it into the output queue. *)
Definition send_result (a : FAgg) (td : TupleDesc) (ht : HT) (exited : Z) : cres FAgg :=
  let o0 := initFromBaseTuple (oiht a) ht 0 in
  let o := mkIHT (t_base_tuples o0) (t_sources o0) (t_ready o0) (t_done o0) (t_queriesCompleted o0) true in
  let a1 := with_tdesc a (Some td) o in
  let '(enqsucc, q) := EddyGSF.enqueue_iht (room a1) (outputq a1) o in
  if enqsucc : bool then Ok (with_queues a1 (inputq a1) q (total_entered a1) exited) else Fail (Elog "IHT did not enqueue").

(** Some plans end with a null tuple in place of no slot; both are [None] here. *)
Definition FAggScheduleAggPlan (fuel : nat) (a : FAgg) : cres FAgg :=
  let! (r, a1) := ExecProcNode fuel a in
  match r with
  | Some (ht, desc) =>
      let td := match output_tdesc a1 with Some td => td | None => fix_tdesc_timestampcol desc end in
      send_result a1 td ht (total_exited a1 + 1)
  | None =>
      let! _ := cassert (bool_decide (state a1 = FAS_FINISHING_AGG)) in
      match output_tdesc a1 with
      | None => Ok (with_state (reset_agg_tree a1) FAS_READING)
      | Some td =>
          let! ts_attrnum := access (constr td) in
          let punct := if 0 <? ts_attrnum then form_punct_tup td (next_slide_time (clock a1)) else form_punct_tup_no_ts td in
          let! a2 := send_result a1 td punct (total_exited a1) in
          Ok (with_state a2 FAS_PUNCTUATING)
      end
  end.

(** Every node is asked for once, and then the end. *)
Definition plan_fuel (a : FAgg) : nat := S (S (tl_fresh (lists a))).

Definition ProcessNextFAggRangeSlide (a : FAgg) : cres FAgg :=
  let! _ := cassert (bool_decide (state a ∈ [FAS_READING; FAS_RUNNING_AGG; FAS_FINISHING_AGG; FAS_PUNCTUATING])) in
  let '(o, inp) := EddyGSF.dequeue_iht (inputq a) in
  let a0 := with_queues a inp (outputq a) (total_entered a) (total_exited a) in
  let! a1 := match o with Some iiht => add_new_tuple_range_slide a0 iiht | None => Ok a0 end in
  match state a1 with
  | FAS_READING =>
      let c := clock a1 in
      if ts_geq (current_time c) (next_slide_time c) then
        let! a2 := advance_window (with_clock a1 (set_times c (current_time c) (last_slide_time c) (next_slide_time c) (latest_slide_time c) (next_slide_time c))) in
        let a3 := with_state a2 FAS_RUNNING_AGG in
        let a4 := with_lists a3 (with_cur (lists a3) (live_tuples_head (lists a3))) in
        FAggScheduleAggPlan (plan_fuel a4) a4
      else Ok a1
  | FAS_RUNNING_AGG | FAS_FINISHING_AGG => FAggScheduleAggPlan (plan_fuel a1) a1
  | FAS_PUNCTUATING => Ok (with_state (reset_agg_tree a1) FAS_READING)
  | _ => Fail (Elog "FAgg: Invalid node state")
  end.

(** ** Slices *)

(** The tuple to file next: the first of the pending ones when there are any. *)
Definition take_pending (pend : list HT) (new : option HT) : cres (HT * bool * list HT) :=
  match pend with
  | [] => let! t := access new in Ok (t, false, [])
  | first :: rest => Ok (first, true, match new with Some t => rest ++ [t] | None => rest end)
  end.

Definition add_new_tuple_slices (a : FAgg) (iiht : option (IHT HT)) : cres FAgg :=
  let! (new, a1) :=
    match iiht with
    | Some t => let! q := access (head (usedByQueries a)) in
                Ok (Some (EddyExecProject t q), with_queues a (inputq a) (outputq a) (total_entered a + 1) (total_exited a))
    | None => let! _ := cassert (match pending a with [] => false | _ => true end) in Ok (None, a)
    end in
  let! (tup, inaggcxt, pend) := take_pending (pending a1) new in
  let! ws := access (head (window_states (clock a1))) in
  let! sws := access (swstate a1) in
  let a2 := with_slices a1 (Some sws) pend in
  let! ts := windowStateGetTS ws tup in
  let a3 := if bool_decide (state a2 = FAS_BEFORE_START) && ts_geq ts (startAt ws) then with_state a2 FAS_READING else a2 in
  if decide (state a3 = FAS_BEFORE_START) then
    let! _ := cassert (match pending a3 with [] => false | _ => true end) in Ok a3
  else if ts_geq ts (next_edge sws) then
    let c := clock a3 in
    let! sws1 := SlicedWindowAdvance sws in
    let c1 := set_times c (current_time c) (last_slide_time c) (next_edge sws1) (latest_slide_time c) (next_edge sws) in
    let l := with_cur (lists a3) (live_tuples_head (lists a3)) in
    Ok (with_slices (with_state (with_lists (with_clock a3 c1) l) FAS_RUNNING_AGG) (Some sws1)
          (if inaggcxt : bool then tup :: pending a3 else pending a3 ++ [tup]))
  else
    let '(elem, l1) := make_tuple_list_node (lists a3) tup in
    let! l2 := add_to_live_list l1 elem in
    Ok (with_lists a3 l2).

(** The reset of the context that has the nodes frees them all. *)
Definition drop_live (l : Lists HT) : Lists HT :=
  mkLists ∅ (tl_fresh l) None None None (activation_groups l) (deactivation_groups l).

Definition ProcessNextFAggSlices (a : FAgg) : cres FAgg :=
  let! _ := cassert (bool_decide (state a ∈ [FAS_BEFORE_START; FAS_READING; FAS_RUNNING_AGG; FAS_FINISHING_AGG; FAS_PUNCTUATING])) in
  let '(o, inp) := EddyGSF.dequeue_iht (inputq a) in
  let a0 := with_queues a inp (outputq a) (total_entered a) (total_exited a) in
  let! a1 := match o with Some iiht => add_new_tuple_slices a0 (Some iiht) | None => Ok a0 end in
  match state a1 with
  | FAS_BEFORE_START | FAS_READING =>
      let! a2 := match o, pending a1 with
                 | None, _ :: _ => add_new_tuple_slices a1 None
                 | _, _ => Ok a1
                 end in
      if decide (state a2 = FAS_RUNNING_AGG) then FAggScheduleAggPlan (plan_fuel a2) a2 else Ok a2
  | FAS_RUNNING_AGG | FAS_FINISHING_AGG => FAggScheduleAggPlan (plan_fuel a1) a1
  | FAS_PUNCTUATING => Ok (with_lists (with_state (reset_agg_tree a1) FAS_READING) (drop_live (lists a1)))
  | _ => Fail (Elog "FAgg: Invalid node state")
  end.

(** ** Dispatch *)

Definition ProcessNextFAgg (a : FAgg) : cres FAgg :=
  if slicedAgg a then ProcessNextFAggSlices a else ProcessNextFAggRangeSlide a.

Definition ProcessRemoveQueryFAgg (a : FAgg) (queryid : nat) : bool * FAgg :=
  let u := GSF.lremovei queryid (GSF.lremovei queryid (usedByQueries a)) in
  (match u with [] => true | _ => false end, with_used a u).
End fagg.
Arguments Clock : clear implicits.
Arguments FAgg : clear implicits.
End FAgg.
