(* ===== verification/FAggEddy.v ===== *)
(** * The continuous-query eddy with aggregates

    An FAgg is an operator of the eddy that is not routed to: the eddy hands it the
    tuples that are ready for its queries ([deliverTupleToFAgg] of [EddyLoop]) and
    fetches its results ([getFAggResult], [drain_FAggs]).  Here it is made an instance
    of [Fjord], beside any other operators, and the calls of the eddy are reduced to
    calls of the one FAgg that there is. *)

From S2P Require Import Prelude BitArray GSFilter Eddy EddyLoop EddyGSF Window FAgg.

Module FAggEddy.
Import Bit Eddy EddyLoop Window FAgg.

Section eddy.
Context {F HT P O : Type} `{!Double F} `{!Truncates F} `{!Calendar} `{!Attributes HT} `{!FAggEnv HT P} `{!Fjord O HT}.
Local Abbreviation fagg := (FAgg HT P).

Inductive module : Type :=
  | AnFAgg (a : fagg)
  | AnOperator (o : O).

Definition fagg_enq (a : fagg) (t : IHT HT) : bool * fagg :=
  let '(b, inp) := EddyGSF.enqueue_iht (room a) (inputq a) t in
  (b, with_queues a inp (outputq a) (total_entered a) (total_exited a)).
Definition fagg_deq (a : fagg) : option (IHT HT) * fagg :=
  let '(o, out) := EddyGSF.dequeue_iht (outputq a) in
  (o, with_queues a (inputq a) out (total_entered a) (total_exited a)).

#[global] Instance module_fjord : Fjord module HT := {|
  fjord_enq_inp m t :=
    match m with
    | AnFAgg a => let '(b, a') := fagg_enq a t in Ok (b, AnFAgg a')
    | AnOperator o => let! (b, o') := fjord_enq_inp o t in Ok (b, AnOperator o')
    end;
  ProcessNextNode m :=
    match m with
    | AnFAgg a => let! a' := ProcessNextFAgg a in Ok (AnFAgg a')
    | AnOperator o => let! o' := ProcessNextNode o in Ok (AnOperator o')
    end;
  fjord_deq_out m :=
    match m with
    | AnFAgg a => let '(t, a') := fagg_deq a in Ok (t, AnFAgg a')
    | AnOperator o => let! (t, o') := fjord_deq_out o in Ok (t, AnOperator o')
    end;
  ProcessRemoveQuery m q :=
    match m with
    | AnFAgg a => let '(last, a') := ProcessRemoveQueryFAgg a q in Ok (last, AnFAgg a')
    | AnOperator o => let! (last, o') := ProcessRemoveQuery o q in Ok (last, AnOperator o')
    end;
  fjord_usedByQueries m := match m with AnFAgg a => usedByQueries a | AnOperator o => fjord_usedByQueries o end;
  isFAgg m := match m with AnFAgg _ => true | AnOperator o => isFAgg o end;
  FSteMContainsTuple m t := match m with AnFAgg _ => Fail Undefined | AnOperator o => FSteMContainsTuple o t end
|}.

Local Abbreviation state := (EddyState module HT F).

(** ** Rounds *)

(** The loop that the eddy runs between tuples, whose output is not suppressed. *)
Definition unsuppressed (cfg : config F) : config F :=
  mkConfig (MaxTuplesScannedBeforeQuit cfg) (enable_smart_routing cfg) false (UseTupleLineage cfg) (Eddy.random cfg) (drand48 cfg).
Definition checkSlideTimeout (fuel : nat) (cfg : config F) (st : state) (whereToSendOutput : BitArray) : cres state :=
  drain_FAggs fuel (unsuppressed cfg) st whereToSendOutput.

Lemma checkSlideTimeout_drain fuel cfg st w : UseSuppressOutput cfg = false → checkSlideTimeout fuel cfg st w = drain_FAggs fuel cfg st w.
Proof. intros E. unfold checkSlideTimeout. replace (unsuppressed cfg) with cfg; [done|]. destruct cfg. cbn in E. by subst. Qed.

(** What the eddy does with a tuple that some queries are ready for. *)
Definition send_to_queries (fuel : nat) (cfg : config F) (st : state) (t : IHT HT) (whereToSendOutput : BitArray) : cres state :=
  let! (st1, where1) := deliverTupleToFAgg st t (seq 0 (numModules st)) whereToSendOutput in
  drain_FAggs fuel cfg (output cfg st1 t where1) where1.

(** Tuples and timeouts, in any order. *)
Fixpoint rounds (fuel : nat) (cfg : config F) (st : state) (arrivals : list (option (IHT HT) * BitArray)) : cres state :=
  match arrivals with
  | [] => Ok st
  | (arrival, w) :: rest =>
      let! st1 := match arrival with
                  | Some t => send_to_queries fuel cfg st t w
                  | None => checkSlideTimeout fuel cfg st w
                  end in
      rounds fuel cfg st1 rest
  end.

Lemma rounds_app fuel cfg st evs1 evs2 : rounds fuel cfg st (evs1 ++ evs2) = let! st1 := rounds fuel cfg st evs1 in rounds fuel cfg st1 evs2.
Proof.
  revert st. induction evs1 as [|[arrival w] evs1 IH]; intros st; [done|]. cbn [app rounds].
  destruct (match arrival with Some t => _ | None => _ end) as [st1|]; [apply IH|done].
Qed.

(** ** An eddy with one FAgg *)

(** The FAgg is module [k]; [st0] has the others. *)
Context (st0 : state) (k : nat).
Hypothesis Hk : k < numModules st0.
Hypothesis Hothers : ∀ i m, modules st0 !! i = Some (Some m) → i ≠ k → isFAgg m = false.

(** The eddy when the FAgg has come to [a] and the events [evs] have gone out. *)
Definition moved (a : fagg) (evs : list (event HT)) : state := put_module (foldl emit st0 evs) k (AnFAgg a).

Lemma modules_emits (st : state) evs : modules (foldl emit st evs) = modules st.
Proof. revert st. induction evs as [|e evs IH]; intros st; [done|]. cbn [foldl]. by rewrite IH. Qed.
Lemma out_emits (st : state) evs : out (foldl emit st evs) = out st ++ evs.
Proof. revert st. induction evs as [|e evs IH]; intros st; [by rewrite app_nil_r|]. cbn [foldl]. rewrite IH. cbn [out emit]. by rewrite <- app_assoc. Qed.

Lemma out_moved a evs : out (moved a evs) = out st0 ++ evs.
Proof. unfold moved. cbn [out put_module with_modules]. apply out_emits. Qed.
Lemma moved_modules a evs : modules (moved a evs) = <[k := Some (AnFAgg a)]> (modules st0).
Proof. unfold moved. cbn [modules put_module with_modules]. by rewrite modules_emits. Qed.
Lemma moved_num a evs : numModules (moved a evs) = numModules st0.
Proof. unfold numModules. by rewrite moved_modules, length_insert. Qed.

Lemma moved_with a a' evs : put_module (moved a evs) k (AnFAgg a') = moved a' evs.
Proof. unfold moved, put_module, with_modules. cbn. f_equal. by rewrite list_insert_insert_eq. Qed.
Lemma moved_emit a evs e : emit (moved a evs) e = moved a (evs ++ [e]).
Proof. unfold moved. rewrite foldl_app. done. Qed.

Lemma moved_at a evs : modules (moved a evs) !! k = Some (Some (AnFAgg a)).
Proof. rewrite moved_modules. apply list_lookup_insert_eq. exact Hk. Qed.

Definition quiet (st : state) (i : nat) : Prop := ∃ o, modules st !! i = Some o ∧ ∀ m, o = Some m → isFAgg m = false.

Lemma moved_quiet a evs i : i ≠ k → i < numModules st0 → quiet (moved a evs) i.
Proof.
  intros Hi Hlt. unfold quiet. rewrite moved_modules. rewrite list_lookup_insert_ne by congruence.
  destruct (modules st0 !! i) as [o|] eqn:E; [|apply lookup_ge_None in E; unfold numModules in Hlt; lia].
  exists o. split; [done|]. intros m ->. by apply (Hothers i).
Qed.

Lemma get_quiet (st : state) l w : Forall (quiet st) l → ∀ rest, getFAggResult st (l ++ rest) w = getFAggResult st rest w.
Proof.
  induction 1 as [|i l (o & E & Ho) _ IH]; intros rest; [done|]. cbn [app getFAggResult]. rewrite E. cbn [access cbind].
  destruct o as [m|]; [rewrite (Ho m eq_refl)|]; apply IH.
Qed.
Lemma deliver_quiet (st : state) t l w : Forall (quiet st) l → ∀ rest, deliverTupleToFAgg st t (l ++ rest) w = deliverTupleToFAgg st t rest w.
Proof.
  induction 1 as [|i l (o & E & Ho) _ IH]; intros rest; [done|]. cbn [app deliverTupleToFAgg]. rewrite E. cbn [access cbind].
  destruct o as [m|]; [rewrite (Ho m eq_refl)|]; apply IH.
Qed.

Lemma around : ∃ l1 l2, seq 0 (numModules st0) = l1 ++ k :: l2 ∧ ∀ a evs, Forall (quiet (moved a evs)) l1 ∧ Forall (quiet (moved a evs)) l2.
Proof.
  exists (seq 0 k), (seq (S k) (numModules st0 - S k)). split.
  - replace (numModules st0) with (k + (1 + (numModules st0 - S k))) by lia. rewrite seq_app. cbn [Nat.add seq]. f_equal. f_equal. f_equal. lia.
  - intros a evs. split; apply Forall_forall; intros i Hi%elem_of_seq; apply moved_quiet; lia.
Qed.

(** A result of the FAgg, which is asked for one when it has none. *)
Definition fagg_result (a : fagg) : cres (option (IHT HT) * fagg) :=
  match fagg_deq a with
  | (Some t, a1) => Ok (Some t, a1)
  | (None, a1) => let! a2 := ProcessNextFAgg a1 in Ok (fagg_deq a2)
  end.

Definition got (evs : list (event HT)) (w : BitArray) (r : cres (option (IHT HT) * fagg)) : cres (option (IHT HT) * state * BitArray) :=
  let! (o, a1) := r in
  match o with
  | None => Ok (None, moved a1 evs, w)
  | Some t =>
      let! b := access (t_base_tuples t !! 0) in
      let! _ := cassert (match b with Some _ => true | None => false end) in
      Ok (Some t, moved a1 evs, foldl BitArraySetBit (BitArrayClearAll w TCQMAXQUERIES) (usedByQueries a1))
  end.

Lemma get_moved a evs w : getFAggResult (moved a evs) (seq 0 (numModules (moved a evs))) w = got evs w (fagg_result a).
Proof.
  rewrite moved_num. destruct around as (l1 & l2 & -> & Hq). destruct (Hq a evs) as [Hq1 _]. rewrite (get_quiet _ l1 w Hq1). cbn [getFAggResult].
  rewrite moved_at. cbn [access cbind isFAgg module_fjord fjord_deq_out]. unfold got, fagg_result. destruct (fagg_deq a) as [[t|] a1]; cbn [cbind].
  - rewrite moved_with. cbn [fjord_usedByQueries module_fjord]. done.
  - cbn [ProcessNextNode module_fjord]. destruct (ProcessNextFAgg a1) as [a2|]; [|done]. cbn [cbind fjord_deq_out module_fjord].
    destruct (fagg_deq a2) as [[t|] a3]; cbn [cbind]; rewrite moved_with; [done|].
    destruct (Hq a3 evs) as [_ Hq2]. rewrite <- (app_nil_r l2). by rewrite (get_quiet _ l2 w Hq2).
Qed.

Lemma deliver_moved a evs t w q : usedByQueries a = [q] →
  deliverTupleToFAgg (moved a evs) t (seq 0 (numModules (moved a evs))) w =
  if BitArrayBitIsSet w q then
    let '(b, a1) := fagg_enq a t in
    let! a2 := ProcessNextFAgg a1 in
    let! _ := cassert b in
    Ok (moved a2 evs, BitArrayClearBit w q)
  else Ok (moved a evs, w).
Proof.
  intros Hu. rewrite moved_num. destruct around as (l1 & l2 & -> & Hq). destruct (Hq a evs) as [Hq1 _]. rewrite (deliver_quiet _ t l1 w Hq1).
  cbn [deliverTupleToFAgg]. rewrite moved_at. cbn [access cbind isFAgg module_fjord fjord_usedByQueries]. rewrite Hu. cbn [deliver_to].
  destruct (BitArrayBitIsSet w q); cbn [cbind].
  - cbn [fjord_enq_inp module_fjord]. destruct (fagg_enq a t) as [b a1]. cbn [cbind ProcessNextNode module_fjord].
    destruct (ProcessNextFAgg a1) as [a2|]; [|done]. cbn [cbind]. destruct b; [|done]. cbn [cassert cbind]. rewrite moved_with.
    destruct (Hq a2 evs) as [_ Hq2]. rewrite <- (app_nil_r l2). by rewrite (deliver_quiet _ t l2 _ Hq2).
  - rewrite moved_with. rewrite <- (app_nil_r l2). by rewrite (deliver_quiet _ t l2 w (proj2 (Hq a evs))).
Qed.
End eddy.
Arguments module : clear implicits.
End FAggEddy.
