(* ===== verification/FAggLists.v ===== *)
(** * Windowed aggregates: the lists of tuples

    The linked lists, activation groups and deactivation groups of an FAgg stand
    for two lists of tuples with their births and deaths: those that wait to become
    live, and those that live.  Filing a tuple adds it to the first; a slide takes
    the dead from the second and moves the born there, in the order they came. *)

From Stdlib Require Import Sorting.Sorted.
From S2P Require Import Prelude BitArray GSFilter Eddy EddyGSF Window FAgg.

Module FAggLists.
Import Eddy Window FAgg.

Section lists.
Context {HT : Type}.
Local Abbreviation heap := (gmap nat (TupleList HT)).
Implicit Types (h : heap) (ls : list nat) (l : Lists HT).

(** ** Chains *)

(** The nodes [ls] in the heap, linked forward. *)
Definition linked_next h ls : Prop := ∀ i p, ls !! i = Some p → ∃ n, h !! p = Some n ∧ next n = ls !! S i.
Definition linked_prev h ls : Prop := ∀ i p n, ls !! i = Some p → h !! p = Some n → prev n = match i with O => None | S j => ls !! j end.

Record chain h (hd tl : option nat) ls : Prop := {
  ch_head : hd = head ls;
  ch_tail : tl = last ls;
  ch_next : linked_next h ls
}.

Lemma linked_next_frame h h' ls : (∀ p, p ∈ ls → h' !! p = h !! p) → linked_next h ls → linked_next h' ls.
Proof. intros Hf Hl i p Hp. destruct (Hl i p Hp) as (n & E & En). exists n. split; [|done]. rewrite Hf; [done|]. by eapply list_elem_of_lookup_2. Qed.
Lemma linked_prev_frame h h' ls : (∀ p, p ∈ ls → h' !! p = h !! p) → linked_prev h ls → linked_prev h' ls.
Proof. intros Hf Hl i p n Hp En. apply (Hl i p n Hp). rewrite <- Hf; [done|]. by eapply list_elem_of_lookup_2. Qed.
Lemma tups_frame h h' hd tl ls : (∀ p, p ∈ ls → h' !! p = h !! p) → chain h hd tl ls → chain h' hd tl ls.
Proof. intros Hf [H1 H2 H3]. constructor; [done..|]. by eapply linked_next_frame. Qed.

Lemma linked_next_app h ls1 ls2 : linked_next h (ls1 ++ ls2) → linked_next h ls2.
Proof.
  intros Hl i p Hp. destruct (Hl (length ls1 + i) p) as (n & E & En); [by rewrite lookup_app_r, Nat.add_sub' by lia|].
  exists n. split; [done|]. rewrite En, lookup_app_r by lia. f_equal. lia.
Qed.

(** A node at the end. *)
Lemma linked_next_snoc h ls p n : NoDup (ls ++ [p]) → linked_next h ls → h !! p = Some n → next n = None →
  match last ls with
  | None => linked_next h (ls ++ [p])
  | Some t => ∃ m, h !! t = Some m ∧ next m = None ∧ linked_next (<[t := mkTup (tuple m) (Some p) (prev m)]> h) (ls ++ [p])
  end.
Proof.
  intros Hnd Hl En Ep. destruct ls as [|t ls _] using rev_ind; [|rewrite last_snoc].
  - intros i q Hq. destruct i as [|i]; [|done]. injection Hq as <-. by exists n.
  - destruct (Hl (length ls) t) as (m & Em & Enx); [by apply list_lookup_middle|]. exists m. split; [done|].
    split; [rewrite Enx; apply lookup_ge_None_2; rewrite length_app; cbn; lia|].
    assert (t ≠ p) as Htp by (intros ->; apply NoDup_app in Hnd as (_ & Hd & _); apply (Hd p); [apply elem_of_app; right; by left|by left]).
    intros i q Hq. destruct (decide (i < length (ls ++ [t]))) as [Hi|Hi].
    + rewrite lookup_app_l in Hq by done. destruct (decide (q = t)) as [->|Hqt].
      * rewrite lookup_insert_eq. eexists. split; [done|]. cbn [next].
        assert (i = length ls) as ->.
        { apply NoDup_app in Hnd as (Hnd & _ & _). eapply (NoDup_lookup _ _ _ t Hnd); [done|]. by apply list_lookup_middle. }
        rewrite lookup_app_r by (rewrite length_app; cbn; lia). symmetry. apply list_lookup_singleton_Some. rewrite length_app. cbn. split; [lia|done].
      * rewrite lookup_insert_ne by done. destruct (Hl i q Hq) as (k & Ek & Enk). exists k. split; [done|]. rewrite Enk.
        assert (S i < length (ls ++ [t])) as Hi'.
        { rewrite length_app in *. cbn in *. destruct (decide (i = length ls)) as [->|]; [|lia].
          rewrite list_lookup_middle in Hq by done. congruence. }
        symmetry. by apply lookup_app_l.
    + rewrite lookup_app_r in Hq by lia. apply list_lookup_singleton_Some in Hq as [Hi' ->].
      rewrite lookup_insert_ne by done. exists n. split; [done|]. rewrite Ep. symmetry. apply lookup_ge_None_2. rewrite length_app. cbn. lia.
Qed.

(** ** The list of live tuples *)

Record dll h (hd tl : option nat) ls : Prop := {
  dl_chain : chain h hd tl ls;
  dl_prev : linked_prev h ls;
  dl_nodup : NoDup ls
}.

Lemma dll_frame h h' hd tl ls : (∀ p, p ∈ ls → h' !! p = h !! p) → dll h hd tl ls → dll h' hd tl ls.
Proof. intros Hf [H1 H2 H3]. constructor; [by eapply tups_frame|by eapply linked_prev_frame|done]. Qed.

(** The same tuples in the same places. *)
Definition same_tuples h h' : Prop := ∀ p, tuple <$> h' !! p = tuple <$> h !! p.

Lemma same_tuples_trans h1 h2 h3 : same_tuples h1 h2 → same_tuples h2 h3 → same_tuples h1 h3.
Proof. intros H12 H23 p. by rewrite H23. Qed.

Lemma same_tuples_insert h p m a b : h !! p = Some m → same_tuples h (<[p := mkTup (tuple m) a b]> h).
Proof.
  intros Em q. destruct (decide (q = p)) as [->|Hq]; [by rewrite lookup_insert_eq, Em|by rewrite lookup_insert_ne].
Qed.

Lemma set_next_ok l p v n : tl_heap l !! p = Some n → set_next l p v = Ok (with_heap l (<[p := mkTup (tuple n) v (prev n)]> (tl_heap l))).
Proof. intros E. unfold set_next. by rewrite E. Qed.
Lemma set_prev_ok l p v n : tl_heap l !! p = Some n → set_prev l p v = Ok (with_heap l (<[p := mkTup (tuple n) (next n) v]> (tl_heap l))).
Proof. intros E. unfold set_prev. by rewrite E. Qed.

Definition live_dll l ls : Prop := dll (tl_heap l) (live_tuples_head l) (live_tuples_tail l) ls.

Lemma head_snoc {A} (ls : list A) p : head (ls ++ [p]) = match ls with [] => Some p | x :: _ => Some x end.
Proof. by destruct ls. Qed.

Lemma add_live_ok l ls p n : live_dll l ls → tl_heap l !! p = Some n → p ∉ ls →
  ∃ h, add_to_live_list l p = Ok (with_live (with_heap l h) (head (ls ++ [p])) (Some p)) ∧ dll h (head (ls ++ [p])) (Some p) (ls ++ [p])
    ∧ same_tuples (tl_heap l) h ∧ ∀ q, q ∉ ls ++ [p] → h !! q = tl_heap l !! q.
Proof.
  intros [[Hh Ht Hn] Hp Hnd] En Hpl. unfold add_to_live_list. rewrite Hh, Ht.
  assert (NoDup (ls ++ [p])) as Hnd' by (apply NoDup_app; split; [done|]; split; [by intros x Hx ->%list_elem_of_singleton|apply NoDup_singleton]).
  destruct ls as [|t ls _] using rev_ind.
  - cbn [head]. erewrite set_prev_ok by (cbn [tl_heap with_live]; done). cbn [cbind].
    erewrite set_next_ok by (cbn [tl_heap with_live with_heap]; by rewrite lookup_insert_eq).
    cbn [tuple next prev tl_heap with_live with_heap]. rewrite insert_insert_eq. exists (<[p := mkTup (tuple n) None None]> (tl_heap l)). split; [reflexivity|].
    split; [|split; [by apply same_tuples_insert|intros q Hq; rewrite lookup_insert_ne; [done|]; intros <-; apply Hq; by left]].
    constructor; [constructor; [done|done|]|..|done].
    + intros i q Hq. apply list_lookup_singleton_Some in Hq as [-> ->]. rewrite lookup_insert_eq. by eexists.
    + intros i q m Hq. apply list_lookup_singleton_Some in Hq as [-> ->]. rewrite lookup_insert_eq. by intros [= <-].
  - rewrite head_snoc, last_snoc in *. destruct (Hn (length ls) t) as (m & Em & Enx); [by apply list_lookup_middle|].
    assert (t ≠ p) as Htp by (intros ->; apply Hpl, elem_of_app; right; by left).
    assert (head (ls ++ [t]) = match ls with [] => Some t | x :: _ => Some x end) as Eh by apply head_snoc.
    destruct (head (ls ++ [t])) as [hd|] eqn:Ehd; [|by destruct ls]. rewrite <- Eh. cbn [access cbind].
    erewrite set_next_ok by done. cbn [cbind]. erewrite set_prev_ok by (cbn [tl_heap with_heap]; by rewrite lookup_insert_ne). cbn [cbind].
    erewrite set_next_ok by (cbn [tl_heap with_live with_heap]; by rewrite lookup_insert_eq).
    cbn [tuple next prev tl_heap with_live with_heap live_tuples_head]. rewrite insert_insert_eq.
    exists (<[p := mkTup (tuple n) None (Some t)]> (<[t := mkTup (tuple m) (Some p) (prev m)]> (tl_heap l))).
    assert (head ((ls ++ [t]) ++ [p]) = Some hd) as Ehd'.
    { rewrite head_snoc. destruct ls; cbn in *; congruence. }
    rewrite Ehd'. split; [by rewrite Hh, <- Eh|]. split; [|split].
    + pose (h1 := <[p := mkTup (tuple n) None (Some t)]> (tl_heap l)).
      pose proof (linked_next_snoc h1 (ls ++ [t]) p (mkTup (tuple n) None (Some t)) Hnd') as Hsnoc. rewrite last_snoc in Hsnoc.
      destruct Hsnoc as (m' & Em' & _ & Hl').
      { eapply linked_next_frame; [|exact Hn]. intros q Hq. unfold h1. rewrite lookup_insert_ne; [done|]. by intros <-. }
      { unfold h1. by rewrite lookup_insert_eq. }
      { done. }
      unfold h1 in Em'. rewrite lookup_insert_ne in Em' by done. assert (m' = m) as -> by congruence.
      rewrite insert_insert_ne by done. constructor; [constructor|..|done].
      * done.
      * by rewrite last_snoc.
      * exact Hl'.
      * intros i q k Hq. destruct (decide (i < length (ls ++ [t]))) as [Hi|Hi].
        -- rewrite lookup_app_l in Hq by done. assert (q ≠ p) as Hqp by (intros ->; apply Hpl; by eapply list_elem_of_lookup_2).
           intros Ek. assert (∃ k', tl_heap l !! q = Some k' ∧ prev k = prev k') as (k' & Ek' & ->).
           { destruct (decide (q = t)) as [->|Hqt].
             - rewrite lookup_insert_eq in Ek. injection Ek as <-. by exists m.
             - rewrite lookup_insert_ne, lookup_insert_ne in Ek by done. by exists k. }
           rewrite (Hp i q k' Hq Ek'). destruct i as [|i]; [done|]. symmetry. apply lookup_app_l. lia.
        -- rewrite lookup_app_r in Hq by lia. apply list_lookup_singleton_Some in Hq as [Hi' ->]. rewrite lookup_insert_ne, lookup_insert_eq by done.
           intros [= <-]. cbn [prev]. rewrite length_app in Hi, Hi'. cbn in Hi, Hi'. destruct i as [|i]; [lia|].
           assert (i = length ls) as -> by lia. rewrite lookup_app_l by (rewrite length_app; cbn; lia). by rewrite list_lookup_middle.
    + eapply same_tuples_trans; [by apply (same_tuples_insert _ t m (Some p) (prev m))|].
      apply (same_tuples_insert _ p n None (Some t)). by rewrite lookup_insert_ne.
    + intros q Hq. rewrite !lookup_insert_ne; [done|..]; intros <-; apply Hq; rewrite !elem_of_app, !list_elem_of_singleton; tauto.
Qed.

(** The heap after the node [p] between [ls1] and [ls2] has been unlinked. *)
Definition unlink h (n : TupleList HT) : heap :=
  let h1 := match prev n with Some a => alter (λ m, mkTup (tuple m) (next n) (prev m)) a h | None => h end in
  match next n with Some b => alter (λ m, mkTup (tuple m) (next m) (prev n)) b h1 | None => h1 end.

Lemma unlink_lookup h n q m : h !! q = Some m →
  unlink h n !! q = Some (mkTup (tuple m) (if decide (prev n = Some q) then next n else next m) (if decide (next n = Some q) then prev n else prev m)).
Proof.
  intros Em. unfold unlink. destruct m as [tu nx pv]. cbn [tuple next prev].
  destruct (prev n) as [a|] eqn:Ep, (next n) as [b|] eqn:En; rewrite ?lookup_alter, ?Em; repeat case_decide; simplify_eq; rewrite ?Em; done.
Qed.

Lemma unlink_frame h n q : prev n ≠ Some q → next n ≠ Some q → unlink h n !! q = h !! q.
Proof.
  intros Hp Hn. unfold unlink. destruct (prev n) as [a|], (next n) as [b|]; rewrite ?lookup_alter_ne by congruence; done.
Qed.

Lemma unlink_same h n : same_tuples h (unlink h n).
Proof.
  intros q. unfold unlink.
  destruct (prev n) as [a|], (next n) as [b|]; rewrite ?lookup_alter; repeat case_decide; simplify_eq; match goal with |- context [h !! ?x] => by destruct (h !! x) end.
Qed.

Lemma alter_insert_lookup h p f m : h !! p = Some m → alter f p h = <[p := f m]> h.
Proof. intros E. apply map_eq. intros q. destruct (decide (q = p)) as [->|]; [by rewrite lookup_alter_eq, lookup_insert_eq, E|by rewrite lookup_alter_ne, lookup_insert_ne]. Qed.

Lemma last_Some_lookup {A} (ls : list A) x : last ls = Some x → ls !! (length ls - 1) = Some x.
Proof. rewrite last_lookup. by replace (pred (length ls)) with (length ls - 1) by lia. Qed.

Lemma remove_live_ok l ls1 p ls2 n : live_dll l (ls1 ++ p :: ls2) → tl_heap l !! p = Some n →
  remove_from_live_list l p = Ok (with_live (with_heap l (unlink (tl_heap l) n)) (head (ls1 ++ ls2)) (last (ls1 ++ ls2)))
  ∧ dll (unlink (tl_heap l) n) (head (ls1 ++ ls2)) (last (ls1 ++ ls2)) (ls1 ++ ls2)
  ∧ prev n = last ls1 ∧ next n = head ls2.
Proof.
  intros [[Hh Ht Hn] Hp Hnd] En. set (ls := ls1 ++ p :: ls2) in *. set (h := tl_heap l) in *.
  assert (ls !! length ls1 = Some p) as Hat by (by apply list_lookup_middle).
  assert (next n = head ls2) as Enx.
  { destruct (Hn _ _ Hat) as (n' & En' & E'). assert (n' = n) as -> by congruence. rewrite E'. unfold ls. rewrite lookup_app_r by lia.
    replace (S (length ls1) - length ls1) with 1 by lia. by destruct ls2. }
  assert (prev n = last ls1) as Epv.
  { rewrite (Hp _ _ _ Hat En), last_lookup. destruct ls1 as [|x ls1]; [done|]. cbn [length pred]. unfold ls. by rewrite lookup_app_l by (cbn; lia). }
  assert (∀ x, x ∈ ls1 → x ≠ p) as Hn1.
  { intros x Hx ->. apply NoDup_app in Hnd as (_ & Hd & _). apply (Hd p Hx). by left. }
  assert (∀ x, x ∈ ls2 → x ≠ p) as Hn2.
  { intros x Hx ->. apply NoDup_app in Hnd as (_ & _ & Hd). by apply NoDup_cons in Hd as [? _]. }
  assert (∀ x, x ∈ ls → ∃ m, h !! x = Some m) as Hin.
  { intros x Hx. apply list_elem_of_lookup in Hx as [i Hi]. destruct (Hn i x Hi) as (m & ? & _). by exists m. }
  assert (∀ a, prev n = Some a → a ∈ ls ∧ a ∈ ls1) as Ha.
  { intros a E. rewrite Epv in E. apply last_Some_elem_of in E. split; [|done]. apply elem_of_app. by left. }
  assert (∀ b, next n = Some b → b ∈ ls ∧ b ∈ ls2) as Hb.
  { intros b E. rewrite Enx in E. apply head_Some_elem_of in E. split; [|done]. apply elem_of_app. right. by right. }
  split; [|split; [|done]].
  - unfold remove_from_live_list. fold h. rewrite En. cbn [access cbind].
    assert ((if decide (live_tuples_head l = Some p) then next n else live_tuples_head l) = head (ls1 ++ ls2)) as ->.
    { rewrite Hh. unfold ls. destruct ls1 as [|x ls1]; cbn [app head]; [by rewrite decide_True|]. rewrite decide_False; [done|]. intros [= ->]. by apply (Hn1 p); [left|]. }
    assert ((if decide (live_tuples_tail l = Some p) then prev n else live_tuples_tail l) = last (ls1 ++ ls2)) as ->.
    { rewrite Ht. unfold ls. destruct ls2 as [|y ls2 _] using rev_ind.
      - rewrite last_snoc, decide_True, app_nil_r by done. done.
      - rewrite app_comm_cons, !app_assoc, !last_snoc. rewrite decide_False; [done|]. intros [= ->].
        apply (Hn2 p); [apply elem_of_app; right; by left|done]. }
    unfold unlink. destruct (prev n) as [a|] eqn:Epn; [destruct (Ha a eq_refl) as [Hal Ha1]; destruct (Hin a Hal) as (ma & Ema)|];
      (destruct (next n) as [b|] eqn:Enn; [destruct (Hb b eq_refl) as [Hbl Hb1]; destruct (Hin b Hbl) as (mb & Emb)|]).
    + assert (a ≠ b) as Hab by (intros ->; apply NoDup_app in Hnd as (_ & Hd & _); apply (Hd b Ha1); by right).
      erewrite set_next_ok by exact Ema. cbn [cbind]. erewrite set_prev_ok by (cbn [tl_heap with_heap with_live]; by rewrite lookup_insert_ne).
      fold h. rewrite (alter_insert_lookup h a _ ma Ema). by erewrite alter_insert_lookup by (by rewrite lookup_insert_ne).
    + erewrite set_next_ok by exact Ema. cbn [cbind]. fold h. by rewrite (alter_insert_lookup h a _ ma Ema).
    + cbn [cbind]. erewrite set_prev_ok by exact Emb. fold h. by rewrite (alter_insert_lookup h b _ mb Emb).
    + cbn [cbind]. by destruct l.
  - assert (NoDup (ls1 ++ ls2)) as Hnd' by (apply (NoDup_app ls1 ls2) ; apply NoDup_app in Hnd as (H1 & H2 & H3); apply NoDup_cons in H3 as [_ H3]; split; [done|]; split; [|done]; intros x Hx ?; apply (H2 x Hx); by right).
    assert (∀ i q, (ls1 ++ ls2) !! i = Some q → ls !! (if decide (i < length ls1) then i else S i) = Some q) as Hidx.
    { intros i q Hq. unfold ls. case_decide as Hi; [by rewrite lookup_app_l in Hq |- * by done|]. rewrite lookup_app_r in Hq |- * by lia.
      by replace (S i - length ls1) with (S (i - length ls1)) by lia. }
    assert (∀ i j q, (ls1 ++ ls2) !! i = Some q → (ls1 ++ ls2) !! j = Some q → i = j) as Huniq by (intros i j q; by apply NoDup_lookup).
    assert (∀ i q, (ls1 ++ ls2) !! i = Some q → last ls1 = Some q → S i = length ls1) as Hlast.
    { intros i q Hq E. assert (length ls1 ≠ 0) as Hne by (by destruct ls1). apply last_Some_lookup in E.
      rewrite (Huniq i (length ls1 - 1) q Hq); [lia|]. by rewrite lookup_app_l by lia. }
    assert (∀ i q, (ls1 ++ ls2) !! i = Some q → head ls2 = Some q → i = length ls1) as Hfirst.
    { intros i q Hq E. apply (Huniq i (length ls1) q Hq). rewrite lookup_app_r, Nat.sub_diag by lia. by destruct ls2. }
    assert ((ls1 ++ ls2) !! length ls1 = head ls2) as Emid by (rewrite lookup_app_r, Nat.sub_diag by lia; by destruct ls2).
    constructor; [constructor; [done..|]| |done].
    + intros i q Hq. specialize (Hidx i q Hq). destruct (Hn _ _ Hidx) as (m & Em & Enm). rewrite (unlink_lookup h n q m Em).
      eexists. split; [done|]. cbn [next]. rewrite Epv, Enx, Enm. unfold ls. destruct (decide (i < length ls1)) as [Hi|Hi].
      * destruct (decide (last ls1 = Some q)) as [E|E]; [by rewrite (Hlast i q Hq E)|].
        assert (S i < length ls1) as Hi'.
        { destruct (decide (S i = length ls1)) as [E'|]; [|lia]. exfalso. apply E. rewrite last_lookup, <- E'. cbn [pred]. by rewrite lookup_app_l in Hq. }
        by rewrite !lookup_app_l by lia.
      * rewrite decide_False by (intros E; specialize (Hlast i q Hq E); lia). rewrite !lookup_app_r by lia.
        by replace (S (S i) - length ls1) with (S (S i - length ls1)) by lia.
    + intros i q m' Hq Em'. specialize (Hidx i q Hq). destruct (Hn _ _ Hidx) as (m & Em & _). rewrite (unlink_lookup h n q m Em) in Em'.
      injection Em' as <-. cbn [prev]. rewrite Enx. destruct (decide (head ls2 = Some q)) as [E|E].
      * rewrite (Hfirst i q Hq E), Epv, last_lookup. destruct ls1 as [|x ls1]; [done|]. cbn [length pred]. by rewrite lookup_app_l by (cbn; lia).
      * rewrite (Hp _ _ _ Hidx Em). unfold ls. destruct (decide (i < length ls1)) as [Hi|Hi].
        -- destruct i as [|i]; [done|]. by rewrite !lookup_app_l by lia.
        -- assert (length ls1 < i) as Hi'.
           { destruct (decide (i = length ls1)) as [E'|]; [|lia]. exfalso. apply E. by rewrite <- Emid, <- E'. }
           destruct i as [|i]; [lia|]. rewrite !lookup_app_r by lia. by replace (S i - length ls1) with (S (i - length ls1)) by lia.
Qed.

Lemma filter_none_out ls : base.filter (λ p, p ∉ []) ls = ls.
Proof. induction ls as [|x ls IH]; [done|]. rewrite filter_cons, decide_True by apply not_elem_of_nil. by rewrite IH. Qed.

Lemma filter_out_other p tups ls : p ∉ ls → base.filter (λ q, q ∉ p :: tups) ls = base.filter (λ q, q ∉ tups) ls.
Proof.
  induction ls as [|x ls IH]; [done|]. intros [Hx Hls]%not_elem_of_cons. rewrite !filter_cons, IH by done.
  destruct (decide (x ∉ p :: tups)) as [Hd|Hd], (decide (x ∉ tups)) as [He|He]; try done; exfalso; [set_solver|].
  apply Hd. apply not_elem_of_cons. by split.
Qed.

(** Removing several nodes. *)
Lemma remove_dead_ok tups : ∀ l ls, NoDup tups → (∀ p, p ∈ tups → p ∈ ls) → live_dll l ls →
  let ls' := base.filter (λ p, p ∉ tups) ls in
  ∃ h, remove_dead l tups = Ok (with_live (with_heap l h) (head ls') (last ls')) ∧ dll h (head ls') (last ls') ls'
    ∧ (∀ q, q ∈ tups → h !! q = None) ∧ (∀ q, q ∉ tups → tuple <$> h !! q = tuple <$> tl_heap l !! q)
    ∧ ∀ q, q ∉ ls → h !! q = tl_heap l !! q.
Proof.
  induction tups as [|p tups IH]; intros l ls Hnd Hin Hd; cbn [remove_dead].
  - rewrite filter_none_out.
    exists (tl_heap l). pose proof Hd as [[Hh Ht Hn] Hp Hndl].
    split; [rewrite <- Hh, <- Ht; by destruct l|]. split; [constructor; [constructor; done|done..]|]. by split; [intros q ?%elem_of_nil|].
  - apply NoDup_cons in Hnd as [Hpt Hnd]. destruct (list_elem_of_split ls p) as (ls1 & ls2 & ->); [apply Hin; by left|].
    destruct (dl_chain _ _ _ _ Hd) as [_ _ Hn]. destruct (Hn (length ls1) p) as (n & En & _); [by apply list_lookup_middle|].
    destruct (remove_live_ok l ls1 p ls2 n Hd En) as (E & Hd1 & Epv & Enx). rewrite E. cbn [cbind].
    pose proof (dl_nodup _ _ _ _ Hd) as Hndl. assert (p ∉ ls1 ++ ls2) as Hpl.
    { intros Hpl. rewrite <- Permutation_middle in Hndl. by apply NoDup_cons in Hndl as [? _]. }
    set (h1 := unlink (tl_heap l) n) in *. unfold destroy_tuple_list_node. cbn [tl_heap with_live with_heap].
    assert (∃ m, h1 !! p = Some m) as (m & Em).
    { pose proof (unlink_same (tl_heap l) n p) as Hsame. fold h1 in Hsame. rewrite En in Hsame. destruct (h1 !! p) as [m|]; [by exists m|done]. }
    rewrite Em. cbn [access cbind]. set (l2 := with_heap _ _).
    assert (live_dll l2 (ls1 ++ ls2)) as Hd2.
    { unfold live_dll, l2. cbn [tl_heap with_heap with_live live_tuples_head live_tuples_tail]. eapply dll_frame; [|exact Hd1].
      intros q Hq. by rewrite lookup_delete_ne by (by intros <-). }
    destruct (IH l2 (ls1 ++ ls2) Hnd) as (h & E2 & Hd3 & Hgone & Hsame & Hframe); [|done|].
    { intros q Hq. specialize (Hin q). rewrite <- Permutation_middle in Hin. destruct (elem_of_cons (ls1 ++ ls2) q p) as [Hc _].
      destruct Hc as [->|?]; [apply Hin; by right|done|done]. }
    assert (base.filter (λ q, q ∉ p :: tups) (ls1 ++ p :: ls2) = base.filter (λ q, q ∉ tups) (ls1 ++ ls2)) as Ef.
    { rewrite !filter_app, filter_cons, decide_False by (intros Hno; apply Hno; by left).
      rewrite elem_of_app in Hpl. by rewrite !filter_out_other by tauto. }
    rewrite Ef. exists h. rewrite E2. split; [by destruct l|]. split; [done|]. split; [|split].
    + intros q [->|Hq]%elem_of_cons; [|by apply Hgone]. rewrite Hframe by done. unfold l2. cbn [tl_heap with_heap]. by rewrite lookup_delete_eq.
    + intros q [Hqp Hq]%not_elem_of_cons. rewrite Hsame by done. unfold l2. cbn [tl_heap with_heap]. rewrite lookup_delete_ne by done.
      apply (unlink_same (tl_heap l) n q).
    + intros q Hq. assert (q ≠ p ∧ q ∉ ls1 ++ ls2) as [Hqp Hq'] by (rewrite <- Permutation_middle in Hq; by apply not_elem_of_cons in Hq).
      rewrite Hframe by done. unfold l2. cbn [tl_heap with_heap]. rewrite lookup_delete_ne by done. apply unlink_frame.
      * rewrite Epv. intros Hl%last_Some_elem_of. apply Hq', elem_of_app. by left.
      * rewrite Enx. intros Hl%head_Some_elem_of. apply Hq', elem_of_app. by right.
Qed.

(** Adding a chain of nodes at the end. *)
Lemma add_born_ok bs : ∀ fuel l ls, length bs ≤ fuel → NoDup (ls ++ bs) → live_dll l ls → linked_next (tl_heap l) bs →
  ∃ h, add_born fuel l (head bs) = Ok (with_live (with_heap l h) (head (ls ++ bs)) (last (ls ++ bs)))
    ∧ dll h (head (ls ++ bs)) (last (ls ++ bs)) (ls ++ bs) ∧ same_tuples (tl_heap l) h ∧ ∀ q, q ∉ ls ++ bs → h !! q = tl_heap l !! q.
Proof.
  induction bs as [|p bs IH]; intros fuel l ls Hf Hnd Hd Hb; cbn [add_born head].
  - rewrite app_nil_r in *. pose proof Hd as [[Hh Ht Hn] Hp Hndl]. exists (tl_heap l).
    assert (add_born fuel l None = Ok l) as -> by (by destruct fuel). split; [rewrite <- Hh, <- Ht; by destruct l|].
    split; [constructor; [constructor; done|done..]|done].
  - destruct fuel as [|fuel]; [cbn in Hf; lia|]. cbn [add_born]. destruct (Hb 0 p eq_refl) as (n & En & Enx). rewrite En. cbn [access cbind].
    rewrite cons_middle, app_assoc in Hnd |- *.
    assert (p ∉ ls) as Hpl.
    { intros Hin. apply NoDup_app in Hnd as (Hnd & _ & _). apply NoDup_app in Hnd as (_ & Hd' & _). apply (Hd' p Hin). by left. }
    destruct (add_live_ok l ls p n Hd En Hpl) as (h1 & E1 & Hd1 & Hs1 & Hf1). rewrite E1. cbn [cbind].
    assert (next n = head bs) as -> by (rewrite Enx; by destruct bs).
    destruct (IH fuel (with_live (with_heap l h1) (head (ls ++ [p])) (Some p)) (ls ++ [p])) as (h & E & Hd2 & Hs2 & Hf2).
    + cbn in Hf. lia.
    + done.
    + exact Hd1.
    + cbn [tl_heap with_heap with_live]. apply (linked_next_app _ [p]) in Hb. eapply linked_next_frame; [|exact Hb]. intros q Hq. apply Hf1.
      intros Hin. apply NoDup_app in Hnd as (_ & Hd' & _). by apply (Hd' q Hin).
    + exists h. rewrite E. split; [by destruct l|]. split; [done|]. split; [by eapply same_tuples_trans|].
      intros q Hq. rewrite Hf2 by done. cbn [tl_heap with_heap with_live]. apply Hf1. intros Hin. apply Hq, elem_of_app. by left.
Qed.

(** ** Groups *)

(** What is kept for a time, in groups sorted by time. *)
Fixpoint group_at {X : Type} (groups : list (Z * X)) (t : Z) : option X :=
  match groups with
  | [] => None
  | (u, x) :: rest => if decide (u = t) then Some x else group_at rest t
  end.

Definition sorted {X : Type} (groups : list (Z * X)) : Prop := StronglySorted Z.lt groups.*1.

Lemma group_above {X} (groups : list (Z * X)) t : Forall (Z.lt t) groups.*1 → group_at groups t = None.
Proof.
  induction groups as [|[u x] groups IH]; intros Hall; [done|]. apply Forall_cons in Hall as [Hu Hall]. cbn [group_at fst] in *.
  rewrite decide_False by lia. by apply IH.
Qed.

Lemma group_in {X} (groups : list (Z * X)) t x : group_at groups t = Some x → t ∈ groups.*1.
Proof.
  induction groups as [|[u y] groups IH]; [done|]. cbn [group_at]. destruct (decide (u = t)) as [->|]; intros Hg; [by left|right; by apply IH].
Qed.

Lemma groups_update {X} (groups : list (Z * X)) t empty (f : X → X) : sorted groups →
  let '(g, i) := get_group_for_ts groups t empty in
  let x := default empty (group_at groups t) in
  let g' := alter (λ p, (p.1, f p.2)) i g in
  g !! i = Some (t, x) ∧ sorted g' ∧ (∀ u, u ∈ g'.*1 → u = t ∨ u ∈ groups.*1)
  ∧ ∀ u, group_at g' u = if decide (u = t) then Some (f x) else group_at groups u.
Proof.
  induction groups as [|[u x] groups IH]; intros Hs; cbn [get_group_for_ts].
  - split; [done|]. split; [apply SSorted_cons; constructor|]. split; [intros u; cbn; rewrite list_elem_of_singleton; by left|].
    intros u. cbn [alter list_alter group_at default fst snd]. destruct (decide (t = u)) as [->|]; [by rewrite decide_True|by rewrite decide_False by congruence].
  - apply StronglySorted_inv in Hs as [Hs Hall]. cbn [fst] in Hall. unfold ts_greater_than, ts_equals. cbn [group_at].
    destruct (Z.ltb_spec u t) as [Hut|Hut].
    + specialize (IH Hs). destruct (get_group_for_ts groups t empty) as [g i]. destruct IH as (Hi & Hs' & Hin & Hg). rewrite decide_False by lia.
      split; [done|]. split; [|split].
      * apply SSorted_cons; [done|]. apply Forall_forall. intros v Hv. destruct (Hin v Hv) as [->|Hv']; [done|]. rewrite Forall_forall in Hall. by apply Hall.
      * intros v [->|Hv]%elem_of_cons; [right; by left|]. destruct (Hin v Hv) as [->|Hv']; [by left|right; by right].
      * intros v. cbn [alter list_alter group_at]. destruct (decide (u = v)) as [->|]; [by rewrite decide_False by lia|apply Hg].
    + destruct (Z.eqb_spec t u) as [->|Hne].
      * rewrite decide_True by done. split; [done|]. split; [by apply SSorted_cons|]. split; [by right|].
        intros v. cbn [alter list_alter group_at fst snd default]. destruct (decide (u = v)) as [->|]; [by rewrite decide_True|by rewrite decide_False by congruence].
      * assert (Forall (Z.lt t) groups.*1) as Hall' by (eapply Forall_impl; [exact Hall|cbn; lia]).
        rewrite decide_False, group_above by (done || lia). split; [done|]. split; [|split].
        -- apply SSorted_cons; [by apply SSorted_cons|]. constructor; [cbn; lia|done].
        -- intros v [->|Hv]%elem_of_cons; [by left|by right].
        -- intros v. cbn [alter list_alter group_at fst snd default]. destruct (decide (t = v)) as [->|]; [by rewrite decide_True|by rewrite (decide_False (P := v = t)) by congruence].
Qed.

(** When no group is for an earlier time, the first is found or there is none. *)
Lemma first_group_ok {X} (groups : list (Z * X)) t : sorted groups → (∀ u x, group_at groups u = Some x → (t ≤ u)%Z) →
  first_group groups t = Ok (group_at groups t)
  ∧ ∀ x, group_at groups t = Some x → sorted (tail groups) ∧ ∀ u, group_at (tail groups) u = if decide (u = t) then None else group_at groups u.
Proof.
  intros Hs Hle. destruct groups as [|[u x] groups]; [done|]. apply StronglySorted_inv in Hs as [Hs Hall]. cbn [fst] in Hall.
  assert (t ≤ u)%Z as Htu by (apply (Hle u x); cbn; by rewrite decide_True). cbn [first_group group_at tail]. unfold ts_equals, ts_greater_than.
  destruct (Z.eqb_spec u t) as [->|Hne]; cbn [negb].
  - rewrite decide_True by done. split; [done|]. intros y _. split; [done|]. intros v. destruct (decide (v = t)) as [->|].
    + by apply group_above.
    + by rewrite decide_False by congruence.
  - rewrite decide_False by done. destruct (Z.ltb_spec t u); [|lia]. cbn [cassert cbind].
    assert (group_at groups t = None) as -> by (apply group_above; eapply Forall_impl; [exact Hall|cbn; lia]). done.
Qed.

(** ** What the lists stand for *)

(** A filed tuple: its node, and the slides at which it is born and dies. *)
Record Entry : Type := mkEntry { e_loc : nat; e_tup : HT; e_birth : Z; e_death : Z }.
Implicit Types (e : Entry) (E W L : list Entry).

Definition with_time (f : Entry → Z) E (t : Z) : list Entry := base.filter (λ e, f e = t) E.
Definition without_time (f : Entry → Z) E (t : Z) : list Entry := base.filter (λ e, f e ≠ t) E.
Local Abbreviation born_at := (with_time e_birth).
Local Abbreviation dying_at := (with_time e_death).
Local Abbreviation waiting := (without_time e_birth).
Local Abbreviation alive := (without_time e_death).
Local Abbreviation locs := (fmap (M := list) e_loc).

Definition act_group h W (g : option (option nat * option nat)) (t : Z) : Prop :=
  match g with
  | Some (hd, tl) => born_at W t ≠ [] ∧ chain h hd tl (locs (born_at W t))
  | None => born_at W t = []
  end.
Definition deact_group W (g : option (list nat)) (t : Z) : Prop :=
  match g with
  | Some tups => dying_at W t ≠ [] ∧ tups ≡ₚ locs (dying_at W t)
  | None => dying_at W t = []
  end.

(** [W] wait to become live, [L] live; no other node is allocated. *)
Record rep l W L : Prop := {
  rp_nodup : NoDup (locs (W ++ L));
  rp_dom : ∀ p, p ∉ locs (W ++ L) → tl_heap l !! p = None;
  rp_tup : ∀ e, e ∈ W ++ L → tuple <$> tl_heap l !! e_loc e = Some (e_tup e) ∧ e_loc e < tl_fresh l;
  rp_live : live_dll l (locs L);
  rp_act_sorted : sorted (activation_groups l);
  rp_act : ∀ t, act_group (tl_heap l) W (group_at (activation_groups l) t) t;
  rp_deact_sorted : sorted (deactivation_groups l);
  rp_deact : ∀ t, deact_group (W ++ L) (group_at (deactivation_groups l) t) t
}.

Lemma loc_inj E e1 e2 : NoDup (locs E) → e1 ∈ E → e2 ∈ E → e_loc e1 = e_loc e2 → e1 = e2.
Proof.
  intros Hnd [i Hi]%list_elem_of_lookup [j Hj]%list_elem_of_lookup Eq. assert (i = j) as ->; [|congruence].
  eapply (NoDup_lookup (locs E)); [done|by rewrite list_lookup_fmap, Hi|by rewrite list_lookup_fmap, Hj, Eq].
Qed.

Lemma in_locs E p : p ∈ locs E ↔ ∃ e, e ∈ E ∧ e_loc e = p.
Proof. rewrite list_elem_of_fmap. split; intros (e & H1 & H2); exists e; by split. Qed.

Lemma locs_filter (Q : Entry → Prop) `{∀ e, Decision (Q e)} E p : p ∈ locs (base.filter Q E) ↔ ∃ e, e ∈ E ∧ Q e ∧ e_loc e = p.
Proof.
  rewrite in_locs. split.
  - intros (e & [? ?]%list_elem_of_filter & ?). by exists e.
  - intros (e & ? & ? & ?). exists e. split; [|done]. by apply list_elem_of_filter.
Qed.

Lemma NoDup_locs_filter (Q : Entry → Prop) `{∀ e, Decision (Q e)} E : NoDup (locs E) → NoDup (locs (base.filter Q E)).
Proof. intros Hnd. eapply sublist_NoDup; [done|apply fmap_sublist, sublist_filter]. Qed.

Lemma act_group_frame h h' W g t : (∀ p, p ∈ locs (born_at W t) → h' !! p = h !! p) → act_group h W g t → act_group h' W g t.
Proof. destruct g as [[hd tl]|]; [|done]. intros Hf [Hne Hc]. split; [done|]. by eapply tups_frame. Qed.

Lemma deact_group_perm E E' g t : E ≡ₚ E' → deact_group E g t → deact_group E' g t.
Proof.
  intros HE. unfold deact_group, with_time. destruct g as [tups|].
  - intros [Hne Ht]. split; [|by rewrite <- HE]. intros En. apply Hne, Permutation_nil. rewrite <- En. by rewrite HE.
  - intros En. apply Permutation_nil. rewrite <- En. by rewrite HE.
Qed.

Lemma rep_empty : rep (mkLists ∅ 0 None None None [] []) [] [].
Proof.
  constructor; cbn; try done.
  - constructor.
  - by intros e ?%elem_of_nil.
  - constructor; [constructor; done|done|constructor].
  - constructor.
  - constructor.
Qed.

(** *** Filing a tuple *)

Lemma with_time_app f E1 E2 t : with_time f (E1 ++ E2) t = with_time f E1 t ++ with_time f E2 t.
Proof. apply filter_app. Qed.
Lemma with_time_snoc f E e t : with_time f (E ++ [e]) t = with_time f E t ++ (if decide (f e = t) then [e] else []).
Proof. unfold with_time. by rewrite filter_app, filter_cons, filter_nil. Qed.

Lemma act_add_ok l W L e n : rep l W L → NoDup (locs (W ++ [e])) → 
  let l1 := with_heap l (<[e_loc e := n]> (tl_heap l)) in tl_heap l !! e_loc e = None →
  ∃ h a, add_to_activation_group l1 (e_loc e) (e_birth e) = Ok (with_groups (with_heap l h) a (deactivation_groups l))
    ∧ sorted a ∧ (∀ t, act_group h (W ++ [e]) (group_at a t) t) ∧ tuple <$> h !! e_loc e = Some (tuple n)
    ∧ (∀ q, q ≠ e_loc e → tuple <$> h !! q = tuple <$> tl_heap l !! q)
    ∧ ∀ q, q ∉ locs W → q ≠ e_loc e → h !! q = tl_heap l !! q.
Proof.
  intros R Hnd l1 Hnone. set (p := e_loc e) in *. set (b := e_birth e). unfold add_to_activation_group.
  pose proof (groups_update (activation_groups l) b (None, None) (λ _, (head (locs (born_at W b) ++ [p]), Some p)) (rp_act_sorted _ _ _ R)) as Hg.
  cbn [activation_groups with_heap l1]. destruct (get_group_for_ts (activation_groups l) b (None, None)) as [g i].
  destruct Hg as (Hi & Hsort & _ & Hat).
  erewrite set_next_ok by (cbn [tl_heap with_groups with_heap l1]; by rewrite lookup_insert_eq).
  cbn [cbind tl_heap with_groups with_heap l1 deactivation_groups]. rewrite insert_insert_eq, Hi. cbn [access cbind].
  set (n' := mkTup (tuple n) None (prev n)). pose (h1 := <[p := n']> (tl_heap l)).
  pose proof (rp_act _ _ _ R b) as Hb. set (ls := locs (born_at W b)) in *.
  rewrite fmap_app in Hnd. cbn [fmap list_fmap] in Hnd. fold p in Hnd.
  assert (p ∉ locs W) as HpW by (intros Hp; apply NoDup_app in Hnd as (_ & Hd & _); apply (Hd p Hp); by left).
  assert (∀ q, q ∈ ls → q ∈ locs W) as HlsW by (intros q (e' & ? & _ & <-)%locs_filter; apply in_locs; by exists e').
  assert (NoDup (ls ++ [p])) as Hnd'.
  { apply NoDup_app. split; [|split; [|apply NoDup_singleton]].
    - apply NoDup_locs_filter. by apply NoDup_app in Hnd as (? & _ & _).
    - intros q Hq ->%list_elem_of_singleton. by apply HpW, HlsW. }
  assert (∃ h, (∃ hd, head (ls ++ [p]) = Some hd ∧ (let! (hd', l2) := match (default (None, None) (group_at (activation_groups l) b)).1 with
      | None => Ok (Some p, with_heap (with_groups (with_heap l (<[p := n]> (tl_heap l))) g (deactivation_groups l)) h1)
      | Some _ => match (default (None, None) (group_at (activation_groups l) b)).2 with
                  | None => Fail AssertFail
                  | Some t => let! l2 := set_next (with_heap (with_groups (with_heap l (<[p := n]> (tl_heap l))) g (deactivation_groups l)) h1) t (Some p) in
                              Ok ((default (None, None) (group_at (activation_groups l) b)).1, l2)
                  end
      end in Ok (hd', l2)) = Ok (Some hd, with_heap (with_groups (with_heap l (<[p := n]> (tl_heap l))) g (deactivation_groups l)) h))
    ∧ linked_next h (ls ++ [p]) ∧ same_tuples h1 h ∧ ∀ q, q ∉ ls → h !! q = h1 !! q) as (h & (hd & Ehd & E) & Hl & Hsame & Hframe).
  { assert (h1 !! p = Some n') as Ep by (unfold h1; by rewrite lookup_insert_eq).
    destruct (group_at (activation_groups l) b) as [[hd tl]|] eqn:Eg; cbn [default fst snd] in *.
    - destruct Hb as [Hne [Hhd Htl Hn]]. fold ls in Hhd, Htl, Hn. assert (linked_next h1 ls) as Hn1.
      { eapply linked_next_frame; [|exact Hn]. intros q Hq. unfold h1. rewrite lookup_insert_ne; [done|]. intros <-. by apply HpW, HlsW. }
      pose proof (linked_next_snoc h1 ls p n' Hnd' Hn1 Ep eq_refl) as Hsn. rewrite head_snoc.
      destruct (last ls) as [t|] eqn:El; [|apply last_None in El; unfold ls in El; by apply fmap_nil_inv in El].
      destruct Hsn as (m & Em & _ & Hl). rewrite Htl. destruct ls as [|x ls'] eqn:Els; [done|]. rewrite Hhd. cbn [head].
      exists (<[t := mkTup (tuple m) (Some p) (prev m)]> h1). split; [exists x; split; [done|]|].
      + unfold id. cbn [fst snd]. erewrite set_next_ok by exact Em. reflexivity.
      + split; [done|]. split; [by apply same_tuples_insert|]. intros q Hq. rewrite lookup_insert_ne; [done|]. intros <-. apply Hq.
        by apply last_Some_elem_of.
    - unfold ls. rewrite Hb. exists h1. split; [exists p; split; [done|]; reflexivity|]. split; [|done].
      pose proof (linked_next_snoc h1 [] p n') as Hsn. apply Hsn; [apply NoDup_singleton|by intros ??|done|done]. }
  rewrite Ehd in *. exists h, (alter (λ g0, (g0.1, (Some hd, Some p))) i g). split.
  { destruct (default (None, None) (group_at (activation_groups l) b)) as [hd0 tl0]. cbn [fst snd] in E.
    fold h1. unfold l1. destruct hd0 as [x0|]; [destruct tl0 as [t0|]; [|done]; destruct (set_next _ _ _) as [l2|]; [|done]|]; cbn [cbind] in *.
    - by injection E as -> ->.
    - by injection E as -> ->. }
  split; [done|]. split; [|split; [|split]].
  - intros t. rewrite Hat. unfold act_group. rewrite with_time_snoc. fold b. destruct (decide (t = b)) as [->|Hne].
    + rewrite decide_True by done. split; [by destruct (born_at W b)|].
      rewrite fmap_app. fold ls. cbn [fmap list_fmap]. fold p. constructor; [done|by rewrite last_snoc|done].
    + pose proof (rp_act _ _ _ R t) as Ht. eapply act_group_frame in Ht.
      * unfold act_group in Ht. rewrite decide_False, app_nil_r by congruence. exact Ht.
      * intros q Hq. assert (q ∈ locs W) as HqW by (apply locs_filter in Hq as (e' & ? & _ & <-); apply in_locs; by exists e').
        rewrite Hframe.
        -- unfold h1. rewrite lookup_insert_ne; [done|]. by intros <-.
        -- intros Hq'. apply locs_filter in Hq as (e1 & He1 & Hb1 & <-). apply locs_filter in Hq' as (e2 & He2 & Hb2 & Eq).
           assert (e2 = e1) as -> by (eapply loc_inj; [|done..]; by apply NoDup_app in Hnd as (? & _ & _)). congruence.
  - rewrite Hsame. unfold h1. by rewrite lookup_insert_eq.
  - intros q Hq. rewrite Hsame. unfold h1. by rewrite lookup_insert_ne.
  - intros q HqW Hq. rewrite Hframe by (intros ?; by apply HqW, HlsW). unfold h1. by rewrite lookup_insert_ne.
Qed.

Lemma snoc_perm W e L : (W ++ [e]) ++ L ≡ₚ (W ++ L) ++ [e].
Proof. rewrite <- !app_assoc. f_equiv. apply Permutation_app_comm. Qed.

Lemma deact_add_ok E g e : sorted g → (∀ t, deact_group E (group_at g t) t) →
  let '(groups, i) := get_group_for_ts g (e_death e) [] in
  let g' := alter (λ p, (p.1, e_loc e :: p.2)) i groups in
  sorted g' ∧ ∀ t, deact_group (E ++ [e]) (group_at g' t) t.
Proof.
  intros Hs Hg. pose proof (groups_update g (e_death e) [] (cons (e_loc e)) Hs) as Hu.
  destruct (get_group_for_ts g (e_death e) []) as [groups i]. destruct Hu as (_ & Hs' & _ & Hat). split; [done|]. intros t. rewrite Hat.
  unfold deact_group. rewrite with_time_snoc. specialize (Hg t). destruct (decide (t = e_death e)) as [->|Hne].
  - rewrite decide_True by done. split; [by destruct (with_time _ _ _)|].
    rewrite fmap_app. cbn [fmap list_fmap]. rewrite <- Permutation_cons_append. f_equiv.
    destruct (group_at g (e_death e)); cbn in *; [apply Hg|by rewrite Hg].
  - rewrite decide_False by congruence. by rewrite app_nil_r.
Qed.

Definition node_for l tup b d : Entry := mkEntry (tl_fresh l) tup b d.

Lemma file_ok l W L tup b d : rep l W L →
  ∃ l', (let '(elem, l1) := make_tuple_list_node l tup in let! l2 := add_to_activation_group l1 elem b in Ok (add_to_deactivation_group l2 elem d)) = Ok l'
    ∧ rep l' (W ++ [node_for l tup b d]) L ∧ tl_fresh l' = S (tl_fresh l) ∧ live_tuples_cur l' = live_tuples_cur l.
Proof.
  intros R. set (e := node_for l tup b d). set (p := tl_fresh l).
  set (l0 := mkLists (tl_heap l) (S p) (live_tuples_head l) (live_tuples_tail l) (live_tuples_cur l) (activation_groups l) (deactivation_groups l)).
  assert (p ∉ locs (W ++ L)) as Hp by (intros (e' & He' & Ep)%in_locs; destruct (rp_tup _ _ _ R e' He') as [_ ?]; unfold p in Ep; lia).
  assert (rep l0 W L) as R0.
  { destruct R as [R1 R2 R3 R4 R5 R6 R7 R8]. constructor; [done|done| |done..]. intros e' He'. destruct (R3 e' He') as [? ?]. split; [done|]. cbn. unfold p. lia. }
  pose proof (rp_nodup _ _ _ R) as Hnd.
  assert (NoDup (locs ((W ++ [e]) ++ L))) as Hnd2.
  { rewrite snoc_perm, fmap_app. apply NoDup_app. split; [done|]. split; [|apply NoDup_singleton]. by intros q Hq ->%list_elem_of_singleton. }
  destruct (act_add_ok l0 W L e (mkTup tup None None) R0) as (h & a & E & Hs & Hact & Ht & Hsame & Hframe).
  { rewrite fmap_app in Hnd2. by apply NoDup_app in Hnd2 as (? & _ & _). }
  { by apply (rp_dom _ _ _ R). }
  unfold make_tuple_list_node. fold p. fold l0 in E. change (mkLists (<[p := mkTup tup None None]> (tl_heap l)) (S p) (live_tuples_head l) (live_tuples_tail l)
    (live_tuples_cur l) (activation_groups l) (deactivation_groups l)) with (with_heap l0 (<[e_loc e := mkTup tup None None]> (tl_heap l0))).
  change (add_to_activation_group ?x p b) with (add_to_activation_group x (e_loc e) (e_birth e)). rewrite E. cbn [cbind].
  pose proof (deact_add_ok (W ++ L) (deactivation_groups l) e (rp_deact_sorted _ _ _ R) (rp_deact _ _ _ R)) as Hd.
  unfold add_to_deactivation_group. change (e_death e) with d in Hd. change (e_loc e) with p in Hd.
  cbn [deactivation_groups with_groups with_heap l0]. destruct (get_group_for_ts (deactivation_groups l) d []) as [groups i]. destruct Hd as [Hds Hd].
  eexists. split; [reflexivity|]. split; [|done].
  assert (∀ q, q ∈ locs L → q ∉ locs W ∧ q ≠ p) as HL.
  { intros q Hq. rewrite fmap_app in Hnd. apply NoDup_app in Hnd as (_ & Hdis & _). split; [intros HW; by apply (Hdis q HW)|].
    intros ->. apply Hp. rewrite fmap_app. apply elem_of_app. by right. }
  constructor; cbn [tl_heap tl_fresh activation_groups deactivation_groups with_groups with_heap l0].
  - done.
  - intros q. rewrite snoc_perm, fmap_app. intros [Hq1 Hq2]%not_elem_of_app. cbn in Hq2. rewrite list_elem_of_singleton in Hq2.
    rewrite Hframe; [by apply (rp_dom _ _ _ R)| |done]. intros ?. apply Hq1. rewrite fmap_app. apply elem_of_app. by left.
  - intros e'. rewrite snoc_perm. intros [He'| ->%list_elem_of_singleton]%elem_of_app.
    + destruct (rp_tup _ _ _ R e' He') as [Et Ef]. split; [|unfold p; lia]. rewrite Hsame; [exact Et|]. intros Eq. apply Hp. apply in_locs. by exists e'.
    + split; [by rewrite Ht|]. cbn. unfold p. lia.
  - unfold live_dll. cbn. eapply dll_frame; [|exact (rp_live _ _ _ R)]. intros q Hq. destruct (HL q Hq). by apply Hframe.
  - done.
  - exact Hact.
  - done.
  - intros t. eapply deact_group_perm; [|apply Hd]. symmetry. apply snoc_perm.
Qed.

(** *** A slide *)

Lemma without_none f E t : with_time f E t = [] → without_time f E t = E.
Proof.
  unfold with_time, without_time. induction E as [|e E IH]; [done|]. rewrite !filter_cons. destruct (decide (f e = t)) as [?|Hne]; [done|].
  intros Hn. rewrite decide_True by done. by rewrite IH.
Qed.

Lemma with_none f E t : (∀ e, e ∈ E → f e ≠ t) → with_time f E t = [].
Proof.
  induction E as [|e E IH]; [done|]. intros Hall. unfold with_time. rewrite filter_cons, decide_False by (apply Hall; by left).
  apply IH. intros e' He'. apply Hall. by right.
Qed.

Lemma with_without f E t : without_time f E t ++ with_time f E t ≡ₚ E.
Proof.
  unfold with_time, without_time. induction E as [|e E IH]; [done|]. rewrite !filter_cons. destruct (decide (f e = t)) as [Ee|Ee].
  - rewrite decide_False by (intros Hn; by apply Hn). by rewrite <- Permutation_middle, IH.
  - rewrite decide_True by done. cbn [app]. by rewrite IH.
Qed.

Lemma with_without_ne f E t u : u ≠ t → with_time f (without_time f E t) u = with_time f E u.
Proof.
  intros Hne. unfold with_time, without_time. induction E as [|e E IH]; [done|]. rewrite !filter_cons. destruct (decide (f e = t)) as [Ee|Ee].
  - rewrite decide_False by (intros Hn; by apply Hn). rewrite IH. by rewrite decide_False by congruence.
  - rewrite decide_True by done. rewrite filter_cons, IH. done.
Qed.
Lemma with_without_eq f E t : with_time f (without_time f E t) t = [].
Proof. apply with_none. by intros e [? ?]%list_elem_of_filter. Qed.

Lemma with_time_nonempty f E t (Q : Z → Prop) : with_time f E t ≠ [] → (∀ e, e ∈ E → Q (f e)) → Q t.
Proof.
  intros Hne HE. destruct (with_time f E t) as [|e es] eqn:Ew; [done|]. assert (e ∈ with_time f E t) as He by (rewrite Ew; by left).
  apply list_elem_of_filter in He as [<- He]. by apply HE.
Qed.

Lemma locs_without f E t tups : NoDup (locs E) → tups ≡ₚ locs (with_time f E t) → base.filter (λ p, p ∉ tups) (locs E) = locs (without_time f E t).
Proof.
  intros Hnd Ht. assert (∀ e, e ∈ E → e_loc e ∈ tups ↔ f e = t) as Hin.
  { intros e He. rewrite Ht. unfold with_time. rewrite locs_filter. split.
    - intros (e' & He' & Hf & Eq). by rewrite <- (loc_inj E e' e Hnd He' He Eq).
    - intros Hf. by exists e. }
  clear Hnd Ht. unfold without_time. induction E as [|e E IH]; [done|]. cbn [fmap list_fmap]. rewrite !filter_cons.
  rewrite IH by (intros e' He'; apply Hin; by right). pose proof (Hin e ltac:(by left)) as He.
  destruct (decide (e_loc e ∉ tups)) as [Hd|Hd], (decide (f e ≠ t)) as [Hf|Hf]; try done; exfalso; tauto.
Qed.

Definition take_dead l (g : option (list nat)) : cres (Lists HT) :=
  match g with
  | Some tups => let! l1 := remove_dead l tups in Ok (with_groups l1 (activation_groups l1) (tail (deactivation_groups l)))
  | None => Ok l
  end.

Lemma take_dead_ok l W L t : rep l W L → (∀ e, e ∈ W → (t < e_death e)%Z) → (∀ e, e ∈ L → (t ≤ e_death e)%Z) →
  first_group (deactivation_groups l) t = Ok (group_at (deactivation_groups l) t)
  ∧ ∃ l', take_dead l (group_at (deactivation_groups l) t) = Ok l' ∧ rep l' W (alive L t) ∧ activation_groups l' = activation_groups l
      ∧ tl_fresh l' = tl_fresh l.
Proof.
  intros R HW HL. destruct (first_group_ok (deactivation_groups l) t (rp_deact_sorted _ _ _ R)) as [Efirst Htail].
  { intros u g Hg. pose proof (rp_deact _ _ _ R u) as Hu. rewrite Hg in Hu. destruct Hu as [Hne _]. eapply (with_time_nonempty _ _ _ (Z.le t) Hne).
    intros e [He|He]%elem_of_app; [specialize (HW e He); lia|by apply HL]. }
  split; [done|]. pose proof (rp_deact _ _ _ R t) as Ht. assert (dying_at (W ++ L) t = dying_at L t) as Edy.
  { rewrite with_time_app. by rewrite (with_none e_death W t) by (intros e He Eq; specialize (HW e He); lia). }
  unfold deact_group in Ht. rewrite Edy in Ht.
  destruct (group_at (deactivation_groups l) t) as [tups|] eqn:Eg; cbn [take_dead].
  2: { exists l. split; [done|]. by rewrite without_none. }
  destruct Ht as [_ Ht]. destruct (Htail tups eq_refl) as [Hts Hta]. pose proof (rp_nodup _ _ _ R) as Hnd.
  assert (NoDup (locs L)) as HndL by (rewrite fmap_app in Hnd; by apply NoDup_app in Hnd as (_ & _ & ?)).
  assert (∀ p, p ∈ tups → p ∈ locs L) as Hin.
  { intros p Hp. rewrite Ht in Hp. apply locs_filter in Hp as (e & ? & _ & <-). apply in_locs. by exists e. }
  destruct (remove_dead_ok tups l (locs L)) as (h & E & Hd & Hgone & Hsame & Hframe); [by rewrite Ht; apply NoDup_locs_filter|done|apply (rp_live _ _ _ R)|].
  rewrite (locs_without e_death L t tups HndL Ht) in E, Hd. rewrite E. cbn [cbind]. eexists. split; [reflexivity|]. split; [|done].
  assert (∀ e, e ∈ alive L t → e ∈ L) as Hal by (by intros e [_ ?]%list_elem_of_filter).
  assert (∀ q, q ∈ locs W → h !! q = tl_heap l !! q) as HfW.
  { intros q Hq. apply Hframe. intros HqL. rewrite fmap_app in Hnd. apply NoDup_app in Hnd as (_ & Hdis & _). by apply (Hdis q). }
  constructor; cbn [tl_heap tl_fresh activation_groups deactivation_groups with_groups with_heap with_live].
  - eapply sublist_NoDup; [exact Hnd|]. apply fmap_sublist, sublist_app; [done|apply sublist_filter].
  - intros p Hp. destruct (decide (p ∈ tups)) as [Hpt|Hpt]; [by apply Hgone|].
    rewrite Hframe.
    + apply (rp_dom _ _ _ R). intros (e & He & <-)%in_locs. apply Hp. apply in_locs. exists e. split; [|done]. apply elem_of_app.
      apply elem_of_app in He as [?|He]; [by left|right]. apply list_elem_of_filter. split; [|done]. intros Hdt. apply Hpt. rewrite Ht. apply locs_filter. by exists e.
    + intros (e & He & <-)%in_locs. apply Hp. apply in_locs. exists e. split; [|done]. apply elem_of_app. right. apply list_elem_of_filter. split; [|done].
      intros Hdt. apply Hpt. rewrite Ht. apply locs_filter. by exists e.
  - intros e He. assert (e ∈ W ++ L) as He' by (apply elem_of_app; apply elem_of_app in He as [?|?]; [by left|right; by apply Hal]).
    destruct (rp_tup _ _ _ R e He') as [Et Ef]. split; [|done]. rewrite Hsame; [done|]. rewrite Ht. intros (e' & He2 & Hd' & Eq)%locs_filter.
    assert (e' = e) as -> by (eapply (loc_inj (W ++ L)); [done|by apply elem_of_app; right|done|done]).
    apply elem_of_app in He as [He|He]; [specialize (HW e He); lia|]. by apply list_elem_of_filter in He as [? _].
  - exact Hd.
  - apply (rp_act_sorted _ _ _ R).
  - intros u. eapply act_group_frame; [|apply (rp_act _ _ _ R)]. intros q Hq. apply HfW. apply locs_filter in Hq as (e & ? & _ & <-). apply in_locs. by exists e.
  - done.
  - intros u. rewrite Hta. pose proof (rp_deact _ _ _ R u) as Hu. unfold deact_group. destruct (decide (u = t)) as [->|Hne].
    + apply with_none. intros e He Eq. apply elem_of_app in He as [He|He]; [specialize (HW e He); lia|]. by apply list_elem_of_filter in He as [? _].
    + assert (dying_at (W ++ alive L t) u = dying_at (W ++ L) u) as ->; [|exact Hu].
      rewrite !with_time_app. f_equal. by apply with_without_ne.
Qed.

Definition take_born l (g : option (option nat * option nat)) : cres (Lists HT) :=
  match g with
  | Some (hd, _) => let! l1 := add_born (tl_fresh l) l hd in Ok (with_groups l1 (tail (activation_groups l)) (deactivation_groups l1))
  | None => Ok l
  end.

Lemma NoDup_below (ps : list nat) n : NoDup ps → (∀ p, p ∈ ps → p < n) → length ps ≤ n.
Proof.
  intros Hnd Hlt. rewrite <- (length_seq n 0). apply NoDup_incl_length; [by apply NoDup_ListNoDup|]. intros p Hp. apply list_elem_of_In in Hp.
  apply in_seq. specialize (Hlt p Hp). lia.
Qed.

Lemma take_born_ok l W L t : rep l W L → (∀ e, e ∈ W → (t ≤ e_birth e)%Z) →
  first_group (activation_groups l) t = Ok (group_at (activation_groups l) t)
  ∧ ∃ l', take_born l (group_at (activation_groups l) t) = Ok l' ∧ rep l' (waiting W t) (L ++ born_at W t) ∧ tl_fresh l' = tl_fresh l.
Proof.
  intros R HW. destruct (first_group_ok (activation_groups l) t (rp_act_sorted _ _ _ R)) as [Efirst Htail].
  { intros u g Hg. pose proof (rp_act _ _ _ R u) as Hu. rewrite Hg in Hu. destruct g as [hd tl]. destruct Hu as [Hne _].
    eapply (with_time_nonempty _ _ _ (Z.le t) Hne). done. }
  split; [done|]. pose proof (rp_act _ _ _ R t) as Ht. destruct (group_at (activation_groups l) t) as [[hd tl]|] eqn:Eg; cbn [take_born act_group] in *.
  2: { exists l. split; [done|]. by rewrite without_none, Ht, app_nil_r. }
  destruct Ht as [_ [-> _ Hn]]. destruct (Htail _ eq_refl) as [Hts Hta]. pose proof (rp_nodup _ _ _ R) as Hnd.
  assert ((W ++ L) ≡ₚ waiting W t ++ L ++ born_at W t) as Hperm.
  { rewrite <- (with_without e_birth W t) at 1. rewrite <- app_assoc. f_equiv. apply Permutation_app_comm. }
  assert (NoDup (locs L ++ locs (born_at W t))) as Hnd'.
  { rewrite Hperm, fmap_app in Hnd. rewrite <- fmap_app. by apply NoDup_app in Hnd as (_ & _ & ?). }
  destruct (add_born_ok (locs (born_at W t)) (tl_fresh l) l (locs L)) as (h & E & Hd & Hsame & Hframe).
  { apply NoDup_below; [by apply NoDup_app in Hnd' as (_ & _ & ?)|]. intros p (e & He & _ & <-)%locs_filter. apply (rp_tup _ _ _ R). apply elem_of_app. by left. }
  { done. }
  { apply (rp_live _ _ _ R). }
  { done. }
  rewrite E. cbn [cbind]. eexists. split; [reflexivity|]. split; [|done]. rewrite <- fmap_app in Hd.
  constructor; cbn [tl_heap tl_fresh activation_groups deactivation_groups with_groups with_heap with_live].
  - by rewrite <- Hperm.
  - intros p Hp. rewrite <- Hperm in Hp. rewrite Hframe; [by apply (rp_dom _ _ _ R)|]. rewrite <- fmap_app. intros Hq. apply Hp. rewrite Hperm, fmap_app.
    apply elem_of_app. by right.
  - intros e He. rewrite <- Hperm in He. destruct (rp_tup _ _ _ R e He) as [Et Ef]. split; [|done]. by rewrite Hsame.
  - unfold live_dll. cbn. by rewrite <- fmap_app.
  - done.
  - intros u. rewrite Hta. destruct (decide (u = t)) as [->|Hne]; [apply with_without_eq|]. unfold act_group. rewrite with_without_ne by done.
    eapply act_group_frame; [|apply (rp_act _ _ _ R)]. intros q Hq. apply Hframe. rewrite <- fmap_app.
    apply locs_filter in Hq as (e & He & Hb & <-). intros (e' & He' & Eq)%in_locs.
    assert (e' = e) as ->.
    { eapply (loc_inj (W ++ L)); [done| |by apply elem_of_app; left|done]. rewrite Hperm. apply elem_of_app. by right. }
    apply elem_of_app in He' as [He'|He'].
    + rewrite fmap_app in Hnd. apply NoDup_app in Hnd as (_ & Hdis & _). apply (Hdis (e_loc e)); apply in_locs; by exists e.
    + apply list_elem_of_filter in He' as [? _]. congruence.
  - apply (rp_deact_sorted _ _ _ R).
  - intros u. eapply deact_group_perm; [exact Hperm|]. apply (rp_deact _ _ _ R).
Qed.

(** A slide at [t] removes those that die at [t] and appends those born at [t]. *)
Lemma advance_ok l W L t : rep l W L → (∀ e, e ∈ W → (t ≤ e_birth e < e_death e)%Z) → (∀ e, e ∈ L → (t ≤ e_death e)%Z) →
  ∃ l', advance_lists l t = Ok l' ∧ rep l' (waiting W t) (alive L t ++ born_at W t) ∧ tl_fresh l' = tl_fresh l.
Proof.
  intros R HW HL. destruct (take_dead_ok l W L t R) as (Efirst & l1 & E1 & R1 & Ea & Ef); [intros e He; specialize (HW e He); lia|done|].
  destruct (take_born_ok l1 W (alive L t) t R1) as (Efirst1 & l2 & E2 & R2 & Ef2); [intros e He; specialize (HW e He); lia|].
  exists l2. split; [|split; [done|congruence]]. unfold advance_lists. rewrite <- Ea, Efirst1. cbn [cbind]. rewrite Efirst. cbn [cbind].
  unfold take_dead in E1. rewrite E1. cbn [cbind]. unfold take_born in E2.
  destruct (group_at (activation_groups l1) t) as [[hd tl]|]; [|done]. done.
Qed.
End lists.
Abbreviation born_at := (with_time e_birth).
Abbreviation waiting := (without_time e_birth).
Abbreviation alive := (without_time e_death).
End FAggLists.
