(* ===== verification/FAggSpec.v ===== *)
(** * Windowed aggregates: what they answer

    At every slide, the end of a window of one of the streams, the aggregates of
    those tuples are answered that lie in the current window of every stream, the
    last one that has ended there.  [answers] is the sequence of all tuples that
    are output for the slides so far. *)

From Stdlib Require Import Sorting.Sorted.
From S2P Require Import Prelude Eddy Window WindowSpec FAgg FAggLists.

Module FAggSpec.
Import Eddy Window WindowSpec FAgg FAggLists.
Local Open Scope Z_scope.

Section spec.
Context {F : Type} `{!Double F} `{!Truncates F} `{!Calendar} `{Hexact : !ExactDouble (F := F)}.
Context {HT P : Type} `{!Attributes HT} `{Henv : !FAggEnv HT P}.
Implicit Types (ws : WindowState) (wsl : list WindowState) (x : HT) (T : list HT) (t : Z) (rdone : list Z).

(** ** Live tuples *)

Definition ts_of ws x : Z := default 0 (heap_getattr x (tsvar ws)).

(** The last window that ends at [t] or before it. *)
Definition window_at ws t : Z := (t - window_ends ws 0) / time (slideBy ws).
Definition live_in t x ws : Prop := 1 ≤ window_at ws t ∧ window_has ws (window_at ws t) (ts_of ws x).
Definition live_at wsl t x : Prop := Forall (live_in t x) wsl.

#[global] Instance window_has_dec ws k t : Decision (window_has ws k t).
Proof. unfold window_has, in_window. apply _. Defined.
#[global] Instance live_in_dec t x ws : Decision (live_in t x ws).
Proof. unfold live_in. apply _. Defined.
#[global] Instance live_at_dec wsl t x : Decision (live_at wsl t x).
Proof. unfold live_at. apply _. Defined.

Definition slide_time wsl t : Prop := ∃ ws k, ws ∈ wsl ∧ 1 ≤ k ∧ t = window_ends ws k.

(** [rdone] are the slides before [next], the latest first. *)
Record slides wsl rdone (next : Z) : Prop := {
  sl_sorted : StronglySorted (λ a b, b < a) rdone;
  sl_done t : t ∈ rdone ↔ slide_time wsl t ∧ t < next;
  sl_next : slide_time wsl next
}.

(** Live at a slide, and not at the one before. *)
Definition born_now wsl t rest x : Prop := live_at wsl t x ∧ match head rest with Some t0 => ¬ live_at wsl t0 x | None => True end.
#[global] Instance born_now_dec wsl t rest x : Decision (born_now wsl t rest x).
Proof. unfold born_now. destruct (head rest); apply _. Defined.

(** The tuples in the order of the slides at which they become live. *)
Fixpoint born_order wsl rdone T : list HT :=
  match rdone with
  | [] => []
  | t :: rest => born_order wsl rest T ++ base.filter (born_now wsl t rest) T
  end.
Definition live_tuples wsl rdone T : list HT :=
  match rdone with [] => [] | t :: _ => base.filter (live_at wsl t) (born_order wsl rdone T) end.

(** ** Answers *)

(** The results for a list of tuples that the plan of the aggregates computes. *)
Class Aggregates : Type := aggregates : Z → list HT → list (HT * TupleDesc).
Context `{Hagg : !Aggregates}.

(** The plan in state [p], before the rest of its input, or [None] after its end,
    returns these results and then ends. *)
Inductive yields (w : Z) : P → option (list HT) → list (HT * TupleDesc) → Prop :=
  | yields_pull p k x l rs : agg_step w p = Pull k → yields w (k (Some x)) (Some l) rs → yields w p (Some (x :: l)) rs
  | yields_end p k rs : agg_step w p = Pull k → yields w (k None) None rs → yields w p (Some []) rs
  | yields_return p p' i r rs : agg_step w p = Return (Some r) p' → yields w p' i rs → yields w p i (r :: rs)
  | yields_done p p' : agg_step w p = Return None p' → yields w p None [].

Definition fresh (p : P) : Prop := ∀ w l, yields w p (Some l) (aggregates w l).

(** [ExecReScan] brings the plan back to its start. *)
Class Rescans : Prop := rescan_fresh : ∀ p, fresh (ExecReScan p).

(** The results of a slide with a punctuation at the end, which has the time of the
    next slide and needs the descriptor of a result. *)
Definition punctuation (td : TupleDesc) (next : Z) : HT :=
  if 0 <? default (-1) (constr td) then form_punct_tup td next else form_punct_tup_no_ts td.
Fixpoint slide_results (td : option TupleDesc) (next : Z) (rs : list (HT * TupleDesc)) : list HT * option TupleDesc :=
  match rs with
  | [] => (match td with Some td => [punctuation td next] | None => [] end, td)
  | (ht, desc) :: rest =>
      let '(o, td') := slide_results (Some (default (fix_tdesc_timestampcol desc) td)) next rest in (ht :: o, td')
  end.

Fixpoint answers wsl rdone (next : Z) T : list HT * option TupleDesc :=
  match rdone with
  | [] => ([], None)
  | t :: rest =>
      let '(o1, td1) := answers wsl rest t T in
      let '(o2, td2) := slide_results td1 next (aggregates t (live_tuples wsl rdone T)) in
      (o1 ++ o2, td2)
  end.

(** ** The tuples that arrive *)

Definition latest_ts ws T : Z := foldl (λ m x, Z.max m (ts_of ws x)) DT_NOBEGIN T.

(** The least of the highest timestamps of the streams. *)
Definition clock_of wsl T : Z := foldr (λ ws m, Z.min (latest_ts ws T) m) DT_NOEND wsl.

(** Every stream has a timestamp, within reach of its windows. *)
Definition fits wsl x : Prop := Forall (λ ws, heap_getattr x (tsvar ws) = Some (ts_of ws x) ∧ ws_within ws (ts_of ws x)) wsl.

(** A tuple is on time when one of its timestamps is not before the clock. *)
Definition on_time wsl T : Prop :=
  Forall (fits wsl) T ∧ ∀ T1 x T2, T = T1 ++ x :: T2 → Exists (λ ws, clock_of wsl T1 ≤ ts_of ws x) wsl.

(** Windows of fixed length, of which no stream has to wait for a second window of
    another before its first ends. *)
Definition windows_ok wsl : Prop :=
  wsl ≠ [] ∧ Forall ws_sane wsl ∧ ∀ ws1 ws2, ws1 ∈ wsl → ws2 ∈ wsl → window_ends ws1 0 ≤ window_ends ws2 1.

(** ** Birth and death *)

Lemma ends_linear ws k : window_ends ws k = window_ends ws 0 + time (slideBy ws) * k.
Proof. unfold window_ends, wend, wbegin. lia. Qed.

Lemma ends_lt ws j k : ws_sane ws → window_ends ws j < window_ends ws k ↔ j < k.
Proof. intros Hs. exact (wend_lt _ (rangeBy ws) _ Hs j k). Qed.
Lemma ends_le ws j k : ws_sane ws → window_ends ws j ≤ window_ends ws k ↔ j ≤ k.
Proof. intros Hs. exact (wend_le _ (rangeBy ws) _ Hs j k). Qed.

Lemma window_at_spec ws t k : ws_sane ws → window_at ws t = k ↔ window_ends ws k ≤ t < window_ends ws (k + 1).
Proof.
  intros Hs. destruct Hs as [_ [_ Hsl] _]. unfold window_at. rewrite (ends_linear ws k), (ends_linear ws (k + 1)).
  set (b := time (slideBy ws)) in *. set (a := t - window_ends ws 0) in *. pose proof (Z.div_mod a b ltac:(lia)) as Hdm. pose proof (Z.mod_pos_bound a b ltac:(lia)).
  split; [intros <-; nia|]. intros Hk. symmetry. apply (Z.div_unique_pos a b k (a - b * k)); lia.
Qed.

Lemma window_at_end ws k : ws_sane ws → window_at ws (window_ends ws k) = k.
Proof. intros Hs. apply window_at_spec; [done|]. rewrite (ends_lt ws k (k + 1) Hs). lia. Qed.

Lemma live_in_range ws x t f l : ws_sane ws → 1 ≤ f → (∀ k, 1 ≤ k → window_has ws k (ts_of ws x) ↔ f ≤ k ≤ l) →
  live_in t x ws ↔ window_ends ws f ≤ t < window_ends ws (l + 1).
Proof.
  intros Hs Hf Hk. unfold live_in. pose proof (proj1 (window_at_spec ws t _ Hs) eq_refl) as Hw. set (k := window_at ws t) in *. split.
  - intros [H1 H2]. apply (Hk k H1) in H2. pose proof (ends_le ws f k Hs). pose proof (ends_le ws (k + 1) (l + 1) Hs). lia.
  - intros [H1 H2]. assert (f < k + 1) by (apply (ends_lt ws f (k + 1) Hs); lia). assert (k < l + 1) by (apply (ends_lt ws k (l + 1) Hs); lia).
    split; [lia|]. apply Hk; lia.
Qed.

Lemma max_Z a b : ts_max a b = Z.max a b.
Proof. unfold ts_max. destruct (Z.ltb_spec a b); lia. Qed.
Lemma min_Z a b : ts_min a b = Z.min a b.
Proof. unfold ts_min. destruct (Z.ltb_spec b a); lia. Qed.

(** The birth and death in the windows of one stream. *)
Lemma lifetime_one ws x : ws_sane ws → heap_getattr x (tsvar ws) = Some (ts_of ws x) → ws_within ws (ts_of ws x) →
  ∃ b d, windowStateGetLifetime ws x = Ok (b, d)
    ∧ ((∃ f l, 1 ≤ f ≤ l ∧ b = window_ends ws f ∧ d = Some (window_ends ws (l + 1)) ∧ ts_of ws x < b ∧ DT_NOBEGIN < b < DT_NOEND
          ∧ DT_NOBEGIN < window_ends ws (l + 1) < DT_NOEND ∧ ∀ t, live_in t x ws ↔ b ≤ t < window_ends ws (l + 1))
       ∨ (b = DT_NOEND ∧ d = None ∧ ∀ t, ¬ live_in t x ws)).
Proof.
  intros Hs Hts Hw. destruct (lifetime_ok ws x _ Hs Hts Hw) as (b & d & E & Hor). exists b, d. split; [done|].
  destruct Hor as [(f & l & Hfl & -> & -> & Hk)|(-> & -> & Hk)]; [left|right].
  - exists f, l. split; [done|]. split; [done|]. split; [done|]. destruct (proj2 (Hk f ltac:(lia)) ltac:(lia)) as [Hf1 Hf2].
    destruct (proj2 (Hk l ltac:(lia)) ltac:(lia)) as [Hl1 Hl2]. pose proof Hs as [(_ & Hr & _) [_ Hsl] Hst]. destruct Hw as [Ht Htn].
    fold (window_ends ws f) in Hf2. split; [done|]. pose proof (ends_lt ws f (l + 1) Hs).
    assert (window_ends ws (l + 1) = wbegin (startAt ws) (slideBy ws) l + time (slideBy ws) + time (rangeBy ws)) as E' by (unfold window_ends, wend, wbegin; lia).
    unfold DT_NOBEGIN, DT_NOEND. split; [lia|]. split; [lia|]. intros t. apply live_in_range; [done|lia|done].
  - split; [done|]. split; [done|]. intros t [H1 H2]. by apply (Hk _ H1).
Qed.

Definition lives wsl x (b d : Z) : Prop := slide_time wsl b ∧ slide_time wsl d ∧ ∀ t, live_at wsl t x ↔ b ≤ t < d.

Lemma lifetime_from wsl all x b0 d0 : Forall ws_sane wsl → fits wsl x → (∀ ws, ws ∈ wsl → ws ∈ all) → b0 ≤ DT_NOEND →
  ∃ b d, lifetime wsl x b0 d0 = Ok (b, d)
    ∧ ((b = DT_NOEND ∧ (b0 = DT_NOEND ∨ ∀ t, ¬ live_at wsl t x))
       ∨ ((b = b0 ∨ slide_time all b) ∧ (d = d0 ∨ slide_time all d) ∧ (b0 < DT_NOEND → b < DT_NOEND) ∧ b0 ≤ b ≤ DT_NOEND
          ∧ Forall (λ ws, ts_of ws x < b) wsl ∧ ∀ t, b0 ≤ t < d0 ∧ live_at wsl t x ↔ b ≤ t < d)).
Proof.
  revert b0 d0. induction wsl as [|ws wsl IH]; intros b0 d0 Hs Hfit Hall Hb0; cbn [lifetime].
  - exists b0, d0. split; [done|]. right. split; [by left|]. split; [by left|]. split; [done|]. split; [done|]. split; [constructor|].
    intros t. split; [by intros [? _]|]. intros ?. split; [done|constructor].
  - apply Forall_cons in Hs as [Hs1 Hs]. apply Forall_cons in Hfit as [[Hts Hw] Hfit].
    destruct (lifetime_one ws x Hs1 Hts Hw) as (b1 & d1 & E & Hor). rewrite E. cbn [cbind].
    assert (∀ ws', ws' ∈ wsl → ws' ∈ all) as Hall' by (intros ws' ?; apply Hall; by right).
    destruct Hor as [(f & l & Hfl & -> & -> & Hlt & Hb1 & Hd1 & Hlive)|(-> & -> & Hno)]; rewrite max_Z, min_Z; cbn [default].
    + destruct (IH (Z.max b0 (window_ends ws f)) (Z.min d0 (window_ends ws (l + 1))) Hs Hfit Hall' ltac:(lia)) as (b & d & E' & Hor). exists b, d.
      split; [done|]. destruct Hor as [[-> [Hb|Hn]]|(Hb & Hd & Hbd & Hb0' & Hts' & Hk)].
      * left. split; [done|]. left. lia.
      * left. split; [done|]. right. intros t Hl. apply (Hn t). by apply Forall_cons in Hl as [_ ?].
      * right. assert (slide_time all (window_ends ws f)) as Hsf by (exists ws, f; split; [apply Hall; by left|split; [lia|done]]).
        assert (slide_time all (window_ends ws (l + 1))) as Hsl by (exists ws, (l + 1); split; [apply Hall; by left|split; [lia|done]]).
        split; [|split; [|split; [|split; [|split]]]].
        -- destruct Hb as [->|?]; [|by right]. destruct (Z.max_spec b0 (window_ends ws f)) as [[_ ->]|[_ ->]]; [by right|by left].
        -- destruct Hd as [->|?]; [|by right]. destruct (Z.min_spec d0 (window_ends ws (l + 1))) as [[_ ->]|[_ ->]]; [by left|by right].
        -- intros. apply Hbd. lia.
        -- lia.
        -- constructor; [lia|done].
        -- intros t. rewrite <- Hk. unfold live_at. rewrite Forall_cons, Hlive. split; [intros (? & ? & ?); split; [lia|done]|].
           intros [? ?]. split; [lia|]. split; [lia|done].
    + destruct (IH (Z.max b0 DT_NOEND) (Z.min d0 uninitialized) Hs Hfit Hall' ltac:(lia)) as (b & d & E' & Hor). exists b, d.
      split; [done|]. left. split.
      * destruct Hor as [[-> _]|(_ & _ & _ & Hb0' & _ & _)]; [done|lia].
      * right. intros t Hl. apply Forall_cons in Hl as [Hl _]. by apply (Hno t).
Qed.

Lemma live_in_bounds ws x t : ws_sane ws → heap_getattr x (tsvar ws) = Some (ts_of ws x) → ws_within ws (ts_of ws x) → live_in t x ws →
  DT_NOBEGIN < t < DT_NOEND - 1 ∧ ts_of ws x < t.
Proof.
  intros Hs Hts Hw Hl. destruct (lifetime_one ws x Hs Hts Hw) as (b & d & _ & [(f & l & _ & _ & _ & H1 & H2 & H3 & Hk)|(_ & _ & Hno)]).
  - apply Hk in Hl. lia.
  - by destruct (Hno t).
Qed.

(** A tuple is filed at a birth and a death, between which it lives, or never lives. *)
Lemma lifetime_spec wsl x : wsl ≠ [] → Forall ws_sane wsl → fits wsl x →
  ∃ b d, lifetime wsl x DT_NOBEGIN DT_NOEND = Ok (b, d)
    ∧ ((b = DT_NOEND ∧ ∀ t, ¬ live_at wsl t x) ∨ (b < DT_NOEND ∧ lives wsl x b d ∧ Forall (λ ws, ts_of ws x < b) wsl)).
Proof.
  intros Hne Hs Hfit. destruct (lifetime_from wsl wsl x DT_NOBEGIN DT_NOEND Hs Hfit) as (b & d & E & Hor); [done|done|]. exists b, d. split; [done|].
  destruct Hor as [[-> [Hb|Hn]]|(Hb & Hd & Hbd & Hb0 & Hts & Hk)]; [done|by left|right]. specialize (Hbd eq_refl). split; [done|].
  destruct wsl as [|ws wsl]; [done|]. apply Forall_cons in Hs as [Hs1 Hs]. pose proof Hfit as [[Hts1 Hw1] _]%Forall_cons.
  assert (∀ t, live_at (ws :: wsl) t x → DT_NOBEGIN < t < DT_NOEND - 1) as Hbound.
  { intros t [Hl _]%Forall_cons. by apply (live_in_bounds ws x t). }
  assert (b ≠ DT_NOBEGIN) as Hbn.
  { apply Forall_cons in Hts as [Hts _]. destruct Hw1 as [Hw1 _]. unfold DT_NOBEGIN. lia. }
  assert (d ≠ DT_NOEND) as Hdn.
  { intros ->. destruct (proj2 (Hk (DT_NOEND - 1)) ltac:(lia)) as [_ Hl]. apply Hbound in Hl. lia. }
  split; [|done]. split; [by destruct Hb|]. split; [by destruct Hd|]. intros t. rewrite <- Hk. split; [|by intros [_ ?]].
  intros Hl. split; [|done]. apply Hbound in Hl. lia.
Qed.

(** ** Slides *)

Lemma sorted_head (r : list Z) t u : StronglySorted (λ a b, b < a) (t :: r) → u ∈ t :: r → u ≤ t.
Proof. intros [_ Hall]%StronglySorted_inv [->|Hu]%elem_of_cons; [done|]. rewrite Forall_forall in Hall. specialize (Hall u Hu). cbn in Hall. lia. Qed.

(** Nothing happens between the last slide and the next. *)
Lemma no_slide_between wsl t rest next u : slides wsl (t :: rest) next → slide_time wsl u → t < u → next ≤ u.
Proof.
  intros Hsl Hu Htu. destruct (Z_lt_le_dec u next) as [Hlt|]; [|done]. exfalso. assert (u ∈ t :: rest) as Hin by (by apply (sl_done _ _ _ Hsl)).
  pose proof (sorted_head rest t u (sl_sorted _ _ _ Hsl) Hin). lia.
Qed.
Lemma first_slide wsl next u : slides wsl [] next → slide_time wsl u → next ≤ u.
Proof.
  intros Hsl Hu. destruct (Z_lt_le_dec u next) as [Hlt|]; [|done]. exfalso. assert (u ∈ []) as Hin by (by apply (sl_done _ _ _ Hsl)).
  by apply elem_of_nil in Hin.
Qed.

Lemma slides_snoc wsl rdone next next' : slides wsl rdone next → slide_time wsl next' → next < next' →
  (∀ u, slide_time wsl u → next < u → next' ≤ u) → slides wsl (next :: rdone) next'.
Proof.
  intros Hsl Hn Hlt Hleast. constructor; [| |done].
  - constructor; [apply (sl_sorted _ _ _ Hsl)|]. apply Forall_forall. intros u Hu. cbn. by apply (sl_done _ _ _ Hsl) in Hu as [_ ?].
  - intros u. rewrite elem_of_cons, (sl_done _ _ _ Hsl). pose proof (sl_next _ _ _ Hsl) as Hsn. split.
    + intros [->|[? ?]]; [done|]. split; [done|lia].
    + intros [Hu Hlt']. destruct (Z.lt_trichotomy u next) as [?|[->|?]]; [by right|by left|]. specialize (Hleast u Hu). lia.
Qed.

Lemma slides_tail wsl t rest next : slides wsl (t :: rest) next → slides wsl rest t.
Proof.
  intros Hsl. pose proof (sl_sorted _ _ _ Hsl) as Hss. apply StronglySorted_inv in Hss as [Hss Hall]. rewrite Forall_forall in Hall. constructor; [done| |].
  - intros u. split.
    + intros Hu. destruct (proj1 (sl_done _ _ _ Hsl u)) as [? _]; [by right|]. split; [done|]. by apply Hall.
    + intros [Hu Hlt]. destruct (proj1 (sl_done _ _ _ Hsl t)) as [_ ?]; [by left|]. assert (u ∈ t :: rest) as Hin by (apply (sl_done _ _ _ Hsl); split; [done|lia]).
      apply elem_of_cons in Hin as [->|?]; [lia|done].
  - destruct (proj1 (sl_done _ _ _ Hsl t)) as [? _]; [by left|done].
Qed.

(** ** Entries and tuples *)

Definition life wsl x : option (Z * Z) :=
  match lifetime wsl x DT_NOBEGIN DT_NOEND with
  | Ok (b, d) => if decide (b ≠ DT_NOEND ∧ b < d) then Some (b, d) else None
  | _ => None
  end.

Lemma life_Some wsl x b d : windows_ok wsl → fits wsl x → life wsl x = Some (b, d) → lives wsl x b d ∧ b < d.
Proof.
  intros (Hne & Hs & _) Hfit. unfold life. destruct (lifetime_spec wsl x Hne Hs Hfit) as (b' & d' & -> & Hor).
  case_decide as Hd; [|done]. intros [= <- <-]. destruct Hd as [Hb Hbd]. destruct Hor as [[-> _]|(_ & Hl & _)]; [done|]. done.
Qed.
Lemma life_None wsl x t : windows_ok wsl → fits wsl x → life wsl x = None → ¬ live_at wsl t x.
Proof.
  intros (Hne & Hs & _) Hfit. unfold life. destruct (lifetime_spec wsl x Hne Hs Hfit) as (b & d & -> & [[-> Hno]|(Hb & (_ & _ & Hl) & _)]).
  - intros _. apply Hno.
  - case_decide as Hd; [done|]. intros _ Hlt. apply Hl in Hlt. apply Hd. lia.
Qed.

Abbreviation entry := (Entry (HT := HT)).

(** The entries of the tuples that have a life. *)
Record entries_of wsl T (E : list entry) : Prop := {
  en_tups : e_tup <$> E = base.filter (λ x, is_Some (life wsl x)) T;
  en_life e : e ∈ E → life wsl (e_tup e) = Some (e_birth e, e_death e);
  en_fits : Forall (fits wsl) T
}.

Lemma en_in wsl T E e : entries_of wsl T E → e ∈ E → e_tup e ∈ T.
Proof.
  intros HE He. assert (e_tup e ∈ e_tup <$> E) as Hin by (by apply list_elem_of_fmap_2). rewrite (en_tups _ _ _ HE) in Hin.
  by apply list_elem_of_filter in Hin as [_ ?].
Qed.

Lemma en_lives wsl T E e : windows_ok wsl → entries_of wsl T E → e ∈ E → lives wsl (e_tup e) (e_birth e) (e_death e) ∧ e_birth e < e_death e.
Proof.
  intros Hok HE He. apply life_Some; [done| |by apply (en_life _ _ _ HE)]. pose proof (en_fits _ _ _ HE) as Hf. rewrite Forall_forall in Hf.
  apply Hf. by eapply en_in.
Qed.

Lemma fmap_filter_iff {A B} (f : A → B) (Q : A → Prop) (Q' : B → Prop) `{∀ a, Decision (Q a)} `{∀ b, Decision (Q' b)} (l : list A) :
  (∀ a, a ∈ l → Q a ↔ Q' (f a)) → f <$> base.filter Q l = base.filter Q' (f <$> l).
Proof.
  induction l as [|a l IH]; intros Hl; [done|]. cbn [fmap list_fmap]. rewrite !filter_cons. specialize (IH ltac:(intros ? ?; apply Hl; by right)).
  pose proof (Hl a ltac:(by left)) as Ha. destruct (decide (Q a)), (decide (Q' (f a))); cbn [fmap list_fmap]; try (f_equal; done); try done; tauto.
Qed.

Lemma filter_sub {A} (Q Q' : A → Prop) `{∀ a, Decision (Q a)} `{∀ a, Decision (Q' a)} (l : list A) :
  (∀ a, a ∈ l → Q a → Q' a) → base.filter Q (base.filter Q' l) = base.filter Q l.
Proof.
  induction l as [|a l IH]; intros Hl; [done|]. rewrite (filter_cons Q'), (filter_cons Q). specialize (IH ltac:(intros ? ?; apply Hl; by right)).
  pose proof (Hl a ltac:(by left)) as Ha. destruct (decide (Q' a)); [rewrite filter_cons; by rewrite IH|]. rewrite IH. destruct (decide (Q a)); [tauto|done].
Qed.

(** The entries with a property are those of the tuples with it. *)
Lemma entries_filter wsl T E (Q : entry → Prop) (Q' : HT → Prop) `{∀ e, Decision (Q e)} `{∀ x, Decision (Q' x)} : entries_of wsl T E →
  (∀ e, e ∈ E → Q e ↔ Q' (e_tup e)) → (∀ x, x ∈ T → Q' x → life wsl x ≠ None) → e_tup <$> base.filter Q E = base.filter Q' T.
Proof.
  intros HE HQ Hlife. rewrite (fmap_filter_iff _ Q Q' E HQ), (en_tups _ _ _ HE). apply filter_sub. intros x Hx HQx.
  apply not_eq_None_Some. by apply Hlife.
Qed.

Fixpoint born_entries (rdone : list Z) (E : list entry) : list entry :=
  match rdone with [] => [] | t :: rest => born_entries rest E ++ with_time e_birth E t end.
Definition live_entries (rdone : list Z) (E : list entry) : list entry :=
  match rdone with [] => [] | t :: _ => base.filter (λ e, t < e_death e) (born_entries rdone E) end.

Lemma born_entries_in rdone E e : e ∈ born_entries rdone E ↔ e ∈ E ∧ e_birth e ∈ rdone.
Proof.
  induction rdone as [|t rest IH]; cbn [born_entries].
  - split; [by intros ?%elem_of_nil|by intros [_ ?%elem_of_nil]].
  - rewrite elem_of_app, IH, elem_of_cons. unfold with_time. rewrite list_elem_of_filter. tauto.
Qed.

Lemma born_entries_order wsl T E rdone next : windows_ok wsl → entries_of wsl T E → slides wsl rdone next →
  e_tup <$> born_entries rdone E = born_order wsl rdone T.
Proof.
  intros Hok HE. revert next. induction rdone as [|t rest IH]; intros next Hsl; [done|]. cbn [born_entries born_order].
  rewrite fmap_app. pose proof (slides_tail _ _ _ _ Hsl) as Hsl'. rewrite (IH t Hsl'). f_equal. unfold with_time.
  apply (entries_filter wsl); [done| |].
  - intros e He. destruct (en_lives wsl T E e Hok HE He) as [(Hb & Hd & Hl) Hbd]. unfold born_now. rewrite Hl. split.
    + intros Eb. split; [lia|]. destruct rest as [|t0 rest]; [done|]. cbn [head]. rewrite Hl. destruct (proj1 (sl_done _ _ _ Hsl' t0)) as [_ ?]; [by left|lia].
    + intros [Hlt Hn]. destruct rest as [|t0 rest]; cbn [head] in Hn.
      * pose proof (first_slide _ _ _ Hsl' Hb). lia.
      * rewrite Hl in Hn. destruct (proj1 (sl_done _ _ _ Hsl' t0)) as [_ ?]; [by left|]. pose proof (no_slide_between _ _ _ _ _ Hsl' Hb). lia.
  - intros x Hx [Hl _] Hnone. revert Hl. apply life_None; [done| |done]. pose proof (en_fits _ _ _ HE) as Hf. rewrite Forall_forall in Hf. by apply Hf.
Qed.

Lemma live_entries_tuples wsl T E rdone next : windows_ok wsl → entries_of wsl T E → slides wsl rdone next →
  e_tup <$> live_entries rdone E = live_tuples wsl rdone T.
Proof.
  intros Hok HE Hsl. destruct rdone as [|t rest]; [done|]. unfold live_entries, live_tuples. rewrite <- (born_entries_order wsl T E _ next Hok HE Hsl).
  apply fmap_filter_iff. intros e [He Hin]%born_entries_in. destruct (en_lives wsl T E e Hok HE He) as [(_ & _ & Hl) _]. rewrite Hl.
  pose proof (sorted_head rest t _ (sl_sorted _ _ _ Hsl) Hin). lia.
Qed.

(** ** A tuple that arrives *)

Lemma born_order_snoc wsl rdone T x : (∀ t, t ∈ rdone → ¬ live_at wsl t x) → born_order wsl rdone (T ++ [x]) = born_order wsl rdone T.
Proof.
  induction rdone as [|t rest IH]; intros Hx; [done|]. cbn [born_order]. rewrite IH by (intros u Hu; apply Hx; by right).
  rewrite filter_app, filter_cons, filter_nil, decide_False, app_nil_r; [done|]. intros [Hl _]. apply (Hx t); [by left|done].
Qed.

Lemma answers_snoc wsl rdone next T x : (∀ t, t ∈ rdone → ¬ live_at wsl t x) → answers wsl rdone next (T ++ [x]) = answers wsl rdone next T.
Proof.
  revert next. induction rdone as [|t rest IH]; intros next Hx; [done|]. cbn [answers]. rewrite IH by (intros u Hu; apply Hx; by right).
  unfold live_tuples. by rewrite born_order_snoc.
Qed.

Lemma latest_snoc ws T x : latest_ts ws (T ++ [x]) = Z.max (latest_ts ws T) (ts_of ws x).
Proof. unfold latest_ts. by rewrite foldl_app. Qed.

Lemma latest_in ws T : latest_ts ws T = DT_NOBEGIN ∨ ∃ x, x ∈ T ∧ latest_ts ws T = ts_of ws x.
Proof.
  induction T as [|x T IH] using rev_ind; [by left|]. rewrite latest_snoc. destruct (Z.max_spec (latest_ts ws T) (ts_of ws x)) as [[_ ->]|[_ ->]].
  - right. exists x. split; [|done]. apply elem_of_app. right. by left.
  - destruct IH as [->|(y & Hy & ->)]; [by left|]. right. exists y. split; [|done]. apply elem_of_app. by left.
Qed.

Lemma clock_le wsl T ws : ws ∈ wsl → clock_of wsl T ≤ latest_ts ws T.
Proof. induction wsl as [|ws' wsl IH]; [by intros ?%elem_of_nil|]. cbn [clock_of foldr]. intros [->|Hin]%elem_of_cons; [lia|]. specialize (IH Hin). unfold clock_of in IH. lia. Qed.

Lemma clock_mono wsl T x : clock_of wsl T ≤ clock_of wsl (T ++ [x]).
Proof. induction wsl as [|ws wsl IH]; [done|]. cbn [clock_of foldr]. rewrite latest_snoc. unfold clock_of in IH. lia. Qed.

Lemma clock_finite wsl T : wsl ≠ [] → Forall (fits wsl) T → clock_of wsl T < DT_NOEND.
Proof.
  intros Hne Hf. destruct wsl as [|ws wsl]; [done|]. pose proof (clock_le (ws :: wsl) T ws ltac:(by left)) as Hc.
  eapply Z.le_lt_trans; [exact Hc|]. destruct (latest_in ws T) as [->|(x & Hx & ->)]; [done|]. rewrite Forall_forall in Hf.
  specialize (Hf x Hx). apply Forall_cons in Hf as [[_ [Hw _]] _]. unfold DT_NOEND. lia.
Qed.

(** A tuple on time does not live at a slide that the clock has passed. *)
Lemma on_time_not_live wsl x t c : Forall ws_sane wsl → fits wsl x → Exists (λ ws, c ≤ ts_of ws x) wsl → t ≤ c → ¬ live_at wsl t x.
Proof.
  intros Hs Hf Hex Ht Hl. apply Exists_exists in Hex as (ws & Hin & Hc). unfold fits, live_at in *. rewrite Forall_forall in Hs, Hf, Hl.
  destruct (Hf ws Hin) as [Hts Hw]. destruct (live_in_bounds ws x t (Hs ws Hin) Hts Hw (Hl ws Hin)) as [_ ?]. lia.
Qed.

(** *** The next slide *)

Lemma slide_time_finite wsl t : Forall ws_sane wsl → slide_time wsl t → - 2 ^ 48 < t.
Proof.
  intros Hs (ws & k & Hin & Hk & ->). rewrite Forall_forall in Hs. pose proof (Hs ws Hin) as Hsn. pose proof Hsn as [(_ & Hr & _) [_ Hsl] Hst].
  pose proof (ends_le ws 1 k Hsn). assert (window_ends ws 1 = startAt ws + time (rangeBy ws)) by (unfold window_ends, wend, wbegin; lia). lia.
Qed.

(** A slide that the clock has reached is within reach of every stream. *)
Lemma slide_within wsl T t ws : windows_ok wsl → Forall (fits wsl) T → slide_time wsl t → t ≤ clock_of wsl T → ws ∈ wsl →
  ws_within ws t ∧ window_ends ws 0 ≤ t.
Proof.
  intros (_ & Hs & Hal) Hf Ht Hc Hin. pose proof (slide_time_finite wsl t Hs Ht) as Hfin. pose proof (clock_le wsl T ws Hin) as Hcl.
  destruct Ht as (ws' & k & Hin' & Hk & ->). rewrite Forall_forall in Hs. pose proof (Hs ws Hin) as Hsn. pose proof (Hs ws' Hin') as Hsn'.
  pose proof (Hal ws ws' Hin Hin') as H0. pose proof (ends_le ws' 1 k Hsn'). split; [|lia].
  destruct (latest_in ws T) as [E|(x & Hx & E)]; [rewrite E in Hcl; unfold DT_NOBEGIN in Hcl; lia|]. rewrite Forall_forall in Hf. specialize (Hf x Hx).
  unfold fits in Hf. rewrite Forall_forall in Hf. destruct (Hf ws Hin) as [_ [Hw1 Hw2]]. destruct Hsn as [(_ & Hr & _) [_ Hsl] Hst].
  assert (window_ends ws 0 = startAt ws - time (slideBy ws) + time (rangeBy ws)) by (unfold window_ends, wend, wbegin; lia).
  split; lia.
Qed.

Lemma next_slides_ok wsl l t acc lat : windows_ok wsl → (∀ ws, ws ∈ l → ws_sane ws ∧ ws_within ws t ∧ window_ends ws 0 ≤ t) →
  ∃ s lat', next_slides l t acc lat = Ok (s, lat') ∧ (s = acc ∨ slide_time l s ∧ t < s) ∧ s ≤ acc ∧ (l ≠ [] → s < DT_NOEND)
    ∧ ∀ u, slide_time l u → t < u → s ≤ u.
Proof.
  intros Hok. revert acc lat. induction l as [|ws l IH]; intros acc lat Hl; cbn [next_slides].
  - exists acc, lat. split; [done|]. split; [by left|]. split; [done|]. split; [done|]. by intros u (ws & k & ?%elem_of_nil & _).
  - destruct (Hl ws ltac:(by left)) as (Hs & Hw & Hz). destruct (next_slide_ok ws t Hs Hw Hz) as (k & E & Hk & Hlt & Hleast). rewrite E. cbn [cbind].
    rewrite min_Z. destruct (IH (Z.min acc (window_ends ws k)) (ts_max lat (window_ends ws k))) as (s & lat' & E' & Hor & Hle & _ & Hleast').
    { intros ws' Hin. apply Hl. by right. }
    exists s, lat'. split; [done|]. split; [|split; [lia|split]].
    + destruct Hor as [->|[(ws' & j & Hin & Hj & ->) Hlt']].
      * destruct (Z.min_spec acc (window_ends ws k)) as [[_ ->]|[_ ->]]; [by left|right]. split; [|done]. exists ws, k. split; [by left|done].
      * right. split; [|done]. exists ws', j. split; [by right|done].
    + intros _. enough (window_ends ws k < DT_NOEND) by lia. destruct Hw as [Hw1 Hw2]. pose proof Hs as [(_ & Hr & _) [_ Hsl] Hst].
      destruct (Z_lt_le_dec t (window_ends ws (k - 1))) as [Hgt|Hge].
      * destruct (decide (1 ≤ k - 1)) as [Hk1|Hk1].
        -- specialize (Hleast (k - 1) Hk1 Hgt). pose proof (ends_lt ws (k - 1) k Hs). lia.
        -- assert (k = 1) as -> by lia. unfold DT_NOEND, window_ends, wend, wbegin. lia.
      * rewrite (ends_linear ws (k - 1)) in Hge. rewrite (ends_linear ws k). unfold DT_NOEND. lia.
    + intros u (ws' & j & Hin & Hj & ->) Hu. apply elem_of_cons in Hin as [->|Hin].
      * specialize (Hleast j Hj Hu). lia.
      * apply Hleast'; [|done]. by exists ws', j.
Qed.
End spec.
Arguments Aggregates : clear implicits.
Arguments Rescans {HT P _ _}.
End FAggSpec.
