(* ===== verification/FAggStep.v ===== *)
(** * Windowed aggregates: the steps of the operator

    Running the plan on the live tuples, the filing of a tuple and a slide, each as
    a step from one set of tuples, slides and entries to the next. *)

From Stdlib Require Import Sorting.Sorted.
From S2P Require Import Prelude BitArray GSFilter Eddy EddyGSF Window WindowSpec FAgg FAggLists FAggSpec.

Module FAggStep.
Import Eddy Window WindowSpec FAgg FAggLists FAggSpec.
Local Open Scope Z_scope.

(** Two filters and one that does the work of both. *)
Lemma filter_both {A} (Q Q' Q'' : A → Prop) `{∀ a, Decision (Q a)} `{∀ a, Decision (Q' a)} `{∀ a, Decision (Q'' a)} (l : list A) :
  (∀ a, a ∈ l → Q a ∧ Q' a ↔ Q'' a) → base.filter Q (base.filter Q' l) = base.filter Q'' l.
Proof.
  induction l as [|a l IH]; intros Hl; [done|]. rewrite (filter_cons Q'), (filter_cons Q''). specialize (IH ltac:(intros ? ?; apply Hl; by right)).
  pose proof (Hl a ltac:(by left)) as Ha. destruct (decide (Q' a)); [rewrite filter_cons; destruct (decide (Q a))|];
    rewrite ?IH; destruct (decide (Q'' a)); try done; tauto.
Qed.


Section step.
Context {F : Type} `{!Double F} `{!Truncates F} `{!Calendar} `{Hexact : !ExactDouble (F := F)}.
Context {HT P : Type} `{!Attributes HT} `{Henv : !FAggEnv HT P} `{Hagg : !Aggregates HT} `{Hres : !Rescans}.
Implicit Types (a : FAgg HT P) (wsl : list WindowState) (x : HT) (T : list HT) (rdone : list Z) (rs : list (HT * TupleDesc)).

(** ** The plan *)

(** The nodes that the plan is still to be given. *)
Definition feed (l : Lists HT) (ls : list nat) (tups : list HT) : Prop :=
  linked_next (tl_heap l) ls ∧ live_tuples_cur l = head ls ∧ Forall2 (λ p x, tuple <$> tl_heap l !! p = Some x) ls tups.

Definition source a (i : option (list HT)) (fuel : nat) : Prop :=
  match i with
  | Some tups => state a = FAS_RUNNING_AGG ∧ ∃ ls, feed (lists a) ls tups ∧ (length ls < fuel)%nat
  | None => state a = FAS_FINISHING_AGG
  end.
Definition running a (fuel : nat) rs : Prop := ∃ i, source a i fuel ∧ yields (wtime (clock a)) (aggPlan a) i rs.

(** What the plan does to the operator. *)
Definition reran a a' : Prop := ∃ p c s, a' = with_state (with_lists (with_plan a p) (with_cur (lists a) c)) s.

Lemma reran_refl a : reran a a.
Proof. exists (aggPlan a), (live_tuples_cur (lists a)), (state a). destruct a as [???????? [???????]]. done. Qed.
Lemma reran_plan a a' p : reran (with_plan a p) a' → reran a a'.
Proof. intros (p' & c & s & ->). exists p', c, s. by destruct a. Qed.
Lemma reran_step a p c s a' : reran (with_plan (with_state (with_lists a (with_cur (lists a) c)) s) p) a' → reran a a'.
Proof. intros (p' & c' & s' & ->). exists p', c', s'. destruct a as [???????? [???????]]. done. Qed.

Lemma feed_next l p ls x tups : feed l (p :: ls) (x :: tups) →
  live_tuples_cur l = Some p ∧ ∃ n, tl_heap l !! p = Some n ∧ tuple n = x ∧ feed (with_cur l (next n)) ls tups.
Proof.
  intros (Hn & Hc & Hf). split; [done|]. destruct (Hn 0%nat p eq_refl) as (n & En & Enx). apply Forall2_cons in Hf as [Ex Hf]. exists n. split; [done|].
  rewrite En in Ex. injection Ex as Ex. split; [done|]. split; [|split].
  - apply (linked_next_app _ [p]). exact Hn.
  - cbn [live_tuples_cur with_cur]. rewrite Enx. by destruct ls.
  - exact Hf.
Qed.

Lemma exec_ok w p i rs : yields w p i rs → ∀ fuel a, aggPlan a = p → wtime (clock a) = w → source a i fuel →
  ∃ a', ExecProcNode fuel a = Ok (head rs, a') ∧ reran a a'
    ∧ match rs with [] => state a' = FAS_FINISHING_AGG | _ :: rs' => running a' fuel rs' end.
Proof.
  induction 1 as [p k x l rs Hp Hy IH|p k rs Hp Hy IH|p p' i r rs Hp Hy _|p p' Hp]; intros fuel a Ea Ew Hsrc.
  - destruct Hsrc as [Hst (ls & Hfeed & Hlen)]. pose proof Hfeed as (_ & _ & Hf2). apply Forall2_cons_inv_r in Hf2 as (q & ls' & _ & _ & ->).
    destruct (feed_next _ _ _ _ _ Hfeed) as (Hc & n & En & Ex & Hfeed'). destruct fuel as [|fuel]; [cbn in Hlen; lia|].
    cbn [ExecProcNode]. rewrite Ew, Ea, Hp. unfold ExecFAgg. rewrite Hst, bool_decide_true by done. cbn [cassert cbind]. rewrite Hc, En. cbn [access cbind].
    rewrite Ex. destruct (IH fuel (with_plan (with_lists a (with_cur (lists a) (next n))) (k (Some x)))) as (a' & E & Hre & Hrs).
    { done. }
    { done. }
    { split; [done|]. exists ls'. split; [exact Hfeed'|]. cbn in Hlen. lia. }
    exists a'. split; [exact E|]. split.
    + apply (reran_step a (k (Some x)) (next n) (state a)). destruct a as [???????? [???????]]. exact Hre.
    + destruct rs as [|r rs]; [done|]. destruct Hrs as (i & Hsrc & Hy'). exists i. split; [|done].
      destruct i as [tups|]; [|done]. destruct Hsrc as [? (ls2 & ? & ?)]. split; [done|]. exists ls2. split; [done|lia].
  - destruct Hsrc as [Hst (ls & Hfeed & Hlen)]. pose proof Hfeed as (_ & Hc & Hf2). apply Forall2_nil_inv_r in Hf2 as ->.
    destruct fuel as [|fuel]; [cbn in Hlen; lia|]. cbn [ExecProcNode]. rewrite Ew, Ea, Hp. unfold ExecFAgg. rewrite Hst, bool_decide_true by done.
    cbn [cassert cbind]. rewrite Hc. cbn [head cbind].
    destruct (IH fuel (with_plan (with_state a FAS_FINISHING_AGG) (k None))) as (a' & E & Hre & Hrs); [done|done|done|].
    exists a'. split; [exact E|]. split.
    + apply (reran_step a (k None) (live_tuples_cur (lists a)) FAS_FINISHING_AGG). destruct a as [???????? [???????]]. exact Hre.
    + destruct rs as [|r rs]; [done|]. destruct Hrs as (i & Hsrc & Hy'). exists i. split; [|done].
      destruct i as [tups|]; [|done]. destruct Hsrc as [? (ls2 & ? & ?)]. split; [done|]. exists ls2. split; [done|lia].
  - exists (with_plan a p'). split; [|split].
    + destruct fuel; cbn [ExecProcNode]; by rewrite Ew, Ea, Hp.
    + apply (reran_plan _ _ p'). apply reran_refl.
    + exists i. split; [exact Hsrc|]. cbn [clock with_plan aggPlan]. by rewrite Ew.
  - exists (with_plan a p'). split; [|split].
    + destruct fuel; cbn [ExecProcNode]; by rewrite Ew, Ea, Hp.
    + apply (reran_plan _ _ p'). apply reran_refl.
    + exact Hsrc.
Qed.

(** ** Sending the results *)

(** What stays the same while the results of a slide are sent. *)
Record kept a a' : Prop := {
  k_used : usedByQueries a' = usedByQueries a;
  k_room : room a' = room a;
  k_inputq : inputq a' = inputq a;
  k_clock : clock a' = clock a;
  k_lists : ∃ c, lists a' = with_cur (lists a) c;
  k_sliced : slicedAgg a' = slicedAgg a;
  k_oiht : length (t_base_tuples (oiht a')) = length (t_base_tuples (oiht a))
}.

Lemma kept_same a : kept a a.
Proof. constructor; try done. exists (live_tuples_cur (lists a)). by destruct (lists a). Qed.
Lemma kept_then a1 a2 a3 : kept a1 a2 → kept a2 a3 → kept a1 a3.
Proof.
  intros [H1 H2 H3 H4 [c1 H5] H6 H7] [G1 G2 G3 G4 [c2 G5] G6 G7]. constructor; try congruence. exists c2. rewrite G5, H5. by destruct (lists a1).
Qed.
Lemma reran_kept a a' : reran a a' → kept a a'.
Proof. intros (p & c & s & ->). constructor; try done. by exists c. Qed.
Lemma kept_fuel a a' : kept a a' → plan_fuel a' = plan_fuel a.
Proof. intros K. destruct (k_lists _ _ K) as [c E]. unfold plan_fuel. by rewrite E. Qed.

(** The operator when its output queue is empty. *)
Record ready a : Prop := {
  r_room : (0 < room a)%nat;
  r_out : outputq a = [];
  r_oiht : (0 < length (t_base_tuples (oiht a)))%nat;
  r_tdesc td : output_tdesc a = Some td → is_Some (constr td)
}.

Definition is_result (o : IHT HT) (ht : HT) : Prop := t_base_tuples o !! 0%nat = Some (Some ht).

Lemma init_length (o : IHT HT) ht : length (t_base_tuples (initFromBaseTuple o ht 0)) = length (t_base_tuples o).
Proof. cbn [t_base_tuples initFromBaseTuple]. rewrite length_insert. apply (for_loop_fill_length (λ _, None)). Qed.

(** A tuple is put into the empty output queue. *)
Lemma send_result_ok a td ht exited : ready a →
  ∃ a' o, send_result a td ht exited = Ok a' ∧ kept a a' ∧ outputq a' = [o] ∧ is_result o ht ∧ output_tdesc a' = Some td ∧ state a' = state a
    ∧ aggPlan a' = aggPlan a ∧ lists a' = lists a.
Proof.
  intros [Hroom Hout Hlen Htd]. unfold send_result, EddyGSF.enqueue_iht. cbn [outputq with_tdesc room]. rewrite Hout, decide_True by (cbn; lia).
  eexists _, _. split; [reflexivity|]. split; [|split; [reflexivity|split; [|done]]].
  - constructor; try done; cbn [lists with_queues with_tdesc oiht t_base_tuples]; [exists (live_tuples_cur (lists a)); by destruct (lists a)|apply init_length].
  - unfold is_result. cbn [t_base_tuples initFromBaseTuple]. apply list_lookup_insert_eq. by rewrite (for_loop_fill_length (λ _, None)).
Qed.

(** How far the results of a slide have been sent; [O] are the tuples still to be sent. *)
Inductive stage a : list HT → option TupleDesc → Prop :=
  | stage_reading : state a = FAS_READING → fresh (aggPlan a) → stage a [] (output_tdesc a)
  | stage_running rs : running a (plan_fuel a) rs →
      stage a (slide_results (output_tdesc a) (next_slide_time (clock a)) rs).1 (slide_results (output_tdesc a) (next_slide_time (clock a)) rs).2
  | stage_punct : state a = FAS_PUNCTUATING → stage a [] (output_tdesc a).

Definition sent a (hts : list HT) : Prop := Forall2 is_result (outputq a) hts.

Lemma fix_constr td : is_Some (constr (fix_tdesc_timestampcol td)).
Proof. unfold fix_tdesc_timestampcol. destruct (constr td) eqn:E; [by rewrite E|by eexists]. Qed.

(** One call of the plan sends one tuple, or none at the end of a slide without results so far. *)
Lemma schedule_ok a rs : ready a → running a (plan_fuel a) rs →
  ∃ a' hts O td, FAggScheduleAggPlan (plan_fuel a) a = Ok a' ∧ kept a a' ∧ sent a' hts ∧ (length hts ≤ 1)%nat ∧ stage a' O td
    ∧ slide_results (output_tdesc a) (next_slide_time (clock a)) rs = (hts ++ O, td) ∧ (∀ td, output_tdesc a' = Some td → is_Some (constr td))
    ∧ (hts = [] ↔ state a' = FAS_READING).
Proof.
  intros Hready (i & Hsrc & Hy). destruct (exec_ok _ _ _ _ Hy (plan_fuel a) a eq_refl eq_refl Hsrc) as (a1 & E & Hre & Hrs).
  unfold FAggScheduleAggPlan. rewrite E. cbn [cbind]. pose proof (reran_kept _ _ Hre) as K1. pose proof Hready as [Hroom Hout Hlen Htd].
  assert (ready a1) as Hready1.
  { destruct Hre as (p & c & s & ->). by constructor. }
  assert (output_tdesc a1 = output_tdesc a) as Etd by (by destruct Hre as (p & c & s & ->)).
  destruct rs as [|[ht desc] rs]; cbn [head].
  - rewrite Hrs, bool_decide_true by done. cbn [cassert cbind]. rewrite Etd. destruct (output_tdesc a) as [td|] eqn:Et.
    + destruct (Htd td eq_refl) as [i' Ei]. rewrite Ei. cbn [access cbind].
      destruct (send_result_ok a1 td (punctuation td (next_slide_time (clock a))) (total_exited a1) Hready1) as (a2 & o & E2 & K2 & Ho & Hr & Htd2 & _).
      unfold punctuation in E2. rewrite Ei in E2. cbn [default from_option id] in E2. unfold id in E2. rewrite (k_clock _ _ K1), E2. cbn [cbind].
      exists (with_state a2 FAS_PUNCTUATING), [punctuation td (next_slide_time (clock a))], [], (Some td).
      split; [done|]. split; [|split; [|split; [done|split; [|split; [done|split]]]]].
      * eapply kept_then; [exact K1|]. eapply kept_then; [exact K2|]. constructor; try done. exists (live_tuples_cur (lists a2)). by destruct a2 as [???????? [???????]].
      * unfold sent. cbn [outputq with_state]. rewrite Ho. by repeat constructor.
      * rewrite <- Htd2. by apply (stage_punct (with_state a2 FAS_PUNCTUATING)).
      * cbn [output_tdesc with_state]. rewrite Htd2. intros td' [= <-]. by exists i'.
      * done.
    + exists (with_state (reset_agg_tree a1) FAS_READING), [], [], None. split; [done|]. split; [|split; [|split; [cbn; lia|split; [|split; [done|split]]]]].
      * eapply kept_then; [exact K1|]. constructor; try done. exists (live_tuples_cur (lists a1)). by destruct a1 as [???????? [???????]].
      * unfold sent. cbn [outputq with_state reset_agg_tree with_plan]. rewrite (r_out _ Hready1). constructor.
      * rewrite <- Etd. apply (stage_reading (with_state (reset_agg_tree a1) FAS_READING)); [done|]. apply rescan_fresh.
      * cbn [output_tdesc with_state reset_agg_tree with_plan]. by rewrite Etd.
      * done.
  - set (td := match output_tdesc a1 with Some td => td | None => fix_tdesc_timestampcol desc end).
    destruct (send_result_ok a1 td ht (total_exited a1 + 1) Hready1) as (a2 & o & E2 & K2 & Ho & Hr & Htd2 & Hst2 & Hp2 & Hl2).
    rewrite E2. assert (default (fix_tdesc_timestampcol desc) (output_tdesc a) = td) as Ed by (unfold td; rewrite Etd; by destruct (output_tdesc a)).
    pose proof (kept_then _ _ _ K1 K2) as K. exists a2, [ht], (slide_results (Some td) (next_slide_time (clock a)) rs).1, (slide_results (Some td) (next_slide_time (clock a)) rs).2.
    split; [done|]. split; [done|]. split; [unfold sent; rewrite Ho; by repeat constructor|]. split; [done|]. split; [|split; [|split]].
    + rewrite <- Htd2, <- (k_clock _ _ K). apply stage_running. rewrite (kept_fuel _ _ K). destruct Hrs as (j & Hsrc' & Hy'). exists j.
      rewrite Hp2, (k_clock _ _ K2). split; [|done]. unfold source in *. by rewrite Hst2, Hl2.
    + cbn [slide_results]. rewrite Ed. by destruct (slide_results (Some td) (next_slide_time (clock a)) rs).
    + rewrite Htd2. intros td' [= <-]. unfold td. rewrite Etd. destruct (output_tdesc a) as [td0|]; [by apply Htd|apply fix_constr].
    + split; [done|]. rewrite Hst2. destruct Hrs as (j & Hsrc' & _). destruct j as [tups|]; [destruct Hsrc' as [-> _]|rewrite Hsrc']; done.
Qed.

(** ** The tuples and slides that an operator has seen *)

Local Abbreviation entry := (Entry (HT := HT)).
Definition waiting_entries (last : Z) (E : list entry) : list entry := base.filter (λ e, last < e_birth e) E.

Record core wsl T (E : list entry) rdone a : Prop := {
  c_mode : slicedAgg a = false;
  c_windows : window_states (clock a) = (λ ws, with_last_seen ws (latest_ts ws T)) <$> wsl;
  c_cur : current_time (clock a) = clock_of wsl T;
  c_slides : slides wsl rdone (next_slide_time (clock a));
  c_last : match rdone with [] => last_slide_time (clock a) < next_slide_time (clock a) | t :: _ => last_slide_time (clock a) = t end;
  c_done t : t ∈ rdone → t ≤ current_time (clock a);
  c_entries : entries_of wsl T E;
  c_rep : rep (lists a) (waiting_entries (last_slide_time (clock a)) E) (live_entries rdone E)
}.

Lemma rep_cur (l : Lists HT) W L c : rep (with_cur l c) W L ↔ rep l W L.
Proof. split; intros [H1 H2 H3 H4 H5 H6 H7 H8]; by constructor. Qed.

Lemma core_kept wsl T E rdone a a' : kept a a' → core wsl T E rdone a → core wsl T E rdone a'.
Proof.
  intros K [H1 H2 H3 H4 H5 H6 H7 H8]. destruct (k_lists _ _ K) as [c El]. constructor; rewrite ?(k_clock _ _ K), ?(k_sliced _ _ K), ?El; try done.
  by apply rep_cur.
Qed.

(** Slide times after the last slide are not before the next. *)
Lemma core_between wsl T E rdone a u : core wsl T E rdone a → slide_time wsl u → last_slide_time (clock a) < u → next_slide_time (clock a) ≤ u.
Proof.
  intros C Hu Hlt. pose proof (c_last _ _ _ _ _ C) as Hl. pose proof (c_slides _ _ _ _ _ C) as Hsl. destruct rdone as [|t rest].
  - by apply (first_slide wsl).
  - rewrite Hl in Hlt. by apply (no_slide_between wsl t rest).
Qed.

Lemma core_last_next wsl T E rdone a : core wsl T E rdone a → last_slide_time (clock a) < next_slide_time (clock a).
Proof.
  intros C. pose proof (c_last _ _ _ _ _ C) as Hl. destruct rdone as [|t rest]; [done|]. rewrite Hl.
  by destruct (proj1 (sl_done _ _ _ (c_slides _ _ _ _ _ C) t)) as [_ ?]; [left|].
Qed.

Lemma core_done_last wsl T E rdone a t : core wsl T E rdone a → t ∈ rdone → t ≤ last_slide_time (clock a).
Proof.
  intros C Ht. pose proof (c_last _ _ _ _ _ C) as Hl. destruct rdone as [|t0 rest]; [by apply elem_of_nil in Ht|]. rewrite Hl.
  apply (sorted_head rest); [apply (sl_sorted _ _ _ (c_slides _ _ _ _ _ C))|done].
Qed.

(** *** A tuple is filed *)

Lemma lifetime_seen wsl T x b d : lifetime ((λ ws, with_last_seen ws (latest_ts ws T)) <$> wsl) x b d = lifetime wsl x b d.
Proof.
  revert b d. induction wsl as [|ws wsl IH]; intros b d; [done|]. cbn [fmap list_fmap lifetime].
  change (windowStateGetLifetime (with_last_seen ws (latest_ts ws T)) x) with (windowStateGetLifetime ws x).
  destruct (windowStateGetLifetime ws x) as [[b' d']|]; [|done]. cbn [cbind]. apply IH.
Qed.

Lemma update_max_ok wsl T x acc : fits wsl x →
  update_max ((λ ws, with_last_seen ws (latest_ts ws T)) <$> wsl) x acc
  = Ok ((λ ws, with_last_seen ws (latest_ts ws (T ++ [x]))) <$> wsl, foldr (λ ws m, Z.min (latest_ts ws (T ++ [x])) m) acc wsl).
Proof.
  revert acc. induction wsl as [|ws wsl IH]; intros acc Hf; [done|]. apply Forall_cons in Hf as [[Hts Hw] Hf]. cbn [fmap list_fmap update_max foldr].
  unfold windowStateUpdateMaxTS, windowStateGetTS. cbn [tsvar with_last_seen]. rewrite Hts. cbn [cbind lastTSSeen with_last_seen].
  assert ((if latest_ts ws T <? ts_of ws x then with_last_seen (with_last_seen ws (latest_ts ws T)) (ts_of ws x) else with_last_seen ws (latest_ts ws T))
    = with_last_seen ws (latest_ts ws (T ++ [x]))) as ->.
  { rewrite latest_snoc. destruct (Z.ltb_spec (latest_ts ws T) (ts_of ws x)); unfold with_last_seen; cbn; f_equal; lia. }
  rewrite IH by done. cbn [cbind]. unfold windowStateGetMaxTS. cbn [lastTSSeen with_last_seen]. rewrite min_Z. f_equal. f_equal.
  clear. generalize (latest_ts ws (T ++ [x])). intros m. revert m. induction wsl as [|ws' wsl IH]; intros m; [cbn; lia|]. cbn [foldr]. rewrite IH. lia.
Qed.

Lemma born_entries_snoc rdone (E : list entry) e : e_birth e ∉ rdone → born_entries rdone (E ++ [e]) = born_entries rdone E.
Proof.
  induction rdone as [|t rest IH]; intros He; [done|]. apply not_elem_of_cons in He as [Ht He]. cbn [born_entries].
  rewrite IH by done. rewrite with_time_snoc, decide_False, app_nil_r by congruence. done.
Qed.
Lemma live_entries_snoc rdone (E : list entry) e : e_birth e ∉ rdone → live_entries rdone (E ++ [e]) = live_entries rdone E.
Proof. intros He. destruct rdone as [|t rest]; [done|]. unfold live_entries. by rewrite born_entries_snoc. Qed.

Definition on_time_at wsl T x : Prop := fits wsl x ∧ Exists (λ ws, clock_of wsl T ≤ ts_of ws x) wsl.

(** What a filed tuple leaves as it is. *)
Definition filed a a' (l : Lists HT) (c : Clock) (n : Z) : Prop :=
  a' = with_clock (with_lists (with_queues a (inputq a) (outputq a) n (total_exited a)) l) c.

Lemma file_step wsl T E rdone a x : windows_ok wsl → core wsl T E rdone a → on_time_at wsl T x →
  ∃ b d l' E', lifetime wsl x DT_NOBEGIN DT_NOEND = Ok (b, d) ∧ file_tuple (lists a) x b d (last_slide_time (clock a)) = Ok l'
    ∧ entries_of wsl (T ++ [x]) E' ∧ rep l' (waiting_entries (last_slide_time (clock a)) E') (live_entries rdone E').
Proof.
  intros Hok C [Hfit Hex]. pose proof Hok as (Hne & Hs & _). pose proof (c_entries _ _ _ _ _ C) as HE. pose proof (c_rep _ _ _ _ _ C) as R.
  destruct (lifetime_spec wsl x Hne Hs Hfit) as (b & d & El & Hor). exists b, d.
  assert (Forall (fits wsl) (T ++ [x])) as Hfits by (apply Forall_app; split; [apply (en_fits _ _ _ HE)|by constructor]).
  unfold file_tuple, ts_geq. destruct (decide (b ≠ DT_NOEND ∧ b < d)) as [[Hb Hbd]|Hno].
  - destruct Hor as [[-> _]|(Hlt & (Hsb & Hsd & Hlive) & Hts)]; [done|].
    assert (last_slide_time (clock a) < b) as Hlast.
    { pose proof (c_last _ _ _ _ _ C) as Hl. destruct rdone as [|t rest].
      - pose proof (first_slide wsl _ b (c_slides _ _ _ _ _ C) Hsb). lia.
      - rewrite Hl. pose proof (c_done _ _ _ _ _ C t ltac:(by left)) as Hd. rewrite (c_cur _ _ _ _ _ C) in Hd. apply Exists_exists in Hex as (ws & Hin & Hc).
        rewrite Forall_forall in Hts. specialize (Hts ws Hin). cbn in Hts. lia. }
    destruct (Z.eqb_spec b DT_NOEND); [done|]. destruct (Z.leb_spec d b); [lia|]. cbn [orb]. unfold ts_leq, ts_geq.
    destruct (Z.leb_spec d (last_slide_time (clock a))); [lia|]. cbn [andb].
    destruct (file_ok (lists a) _ _ x b d R) as (l' & Efile & R' & _ & _). set (e := node_for (lists a) x b d) in *.
    assert (life wsl x = Some (b, d)) as Elife by (unfold life; rewrite El; by rewrite decide_True).
    exists l', (E ++ [e]). split; [done|]. split; [exact Efile|]. split.
    + constructor; [|intros e' [He'| ->%list_elem_of_singleton]%elem_of_app; [by apply (en_life _ _ _ HE)|done]|done].
      rewrite fmap_app, (en_tups _ _ _ HE), filter_app. f_equal. cbn [fmap list_fmap]. rewrite filter_cons, filter_nil.
      change (e_tup e) with x. rewrite decide_True; [done|]. rewrite Elife. by eexists.
    + rewrite live_entries_snoc.
      * unfold waiting_entries. rewrite filter_app, filter_cons, filter_nil. change (e_birth e) with b. by rewrite decide_True.
      * change (e_birth e) with b. intros Hin. pose proof (core_done_last _ _ _ _ _ _ C Hin). lia.
  - assert ((b =? DT_NOEND) || (d <=? b) = true) as ->.
    { apply orb_true_iff. destruct (Z.eqb_spec b DT_NOEND); [by left|right]. apply Z.leb_le. destruct (Z_lt_le_dec b d); [exfalso; tauto|done]. }
    assert (life wsl x = None) as Elife by (unfold life; rewrite El; by rewrite decide_False).
    exists (lists a), E. split; [done|]. split; [done|]. split; [|done]. constructor; [|by apply (en_life _ _ _ HE)|done].
    rewrite (en_tups _ _ _ HE), filter_app, filter_cons, filter_nil, Elife, decide_False by apply is_Some_None. by rewrite app_nil_r.
Qed.

Lemma add_ok wsl T E rdone a q iiht : windows_ok wsl → core wsl T E rdone a → head (usedByQueries a) = Some q → on_time_at wsl T (EddyExecProject iiht q) →
  ∃ a' E' l c n, add_new_tuple_range_slide a iiht = Ok a' ∧ filed a a' l c n ∧ core wsl (T ++ [EddyExecProject iiht q]) E' rdone a'
    ∧ next_slide_time c = next_slide_time (clock a).
Proof.
  intros Hok C Hq Hx. set (x := EddyExecProject iiht q) in *. destruct (file_step wsl T E rdone a x Hok C Hx) as (b & d & l' & E' & El & Ef & HE' & R').
  pose proof Hx as [Hfit Hex]. unfold add_new_tuple_range_slide. rewrite Hq. cbn [access cbind]. fold x.
  cbn [clock with_queues lists]. rewrite (c_windows _ _ _ _ _ C), lifetime_seen, El. cbn [cbind]. rewrite Ef. cbn [cbind].
  rewrite update_max_ok by done. cbn [cbind]. fold (clock_of wsl (T ++ [x])). pose proof Hok as (Hne & _ & _).
  pose proof (clock_finite wsl _ Hne (en_fits _ _ _ HE')) as Hfin. rewrite (proj2 (Z.eqb_neq _ _)) by lia. cbn [negb cassert cbind].
  eexists _, E', l', _, _. split; [reflexivity|]. split; [reflexivity|]. split; [|done].
  pose proof (clock_mono wsl T x) as Hmono. pose proof C as [H1 H2 H3 H4 H5 H6 H7 H8].
  constructor; cbn [slicedAgg with_clock with_lists with_queues clock set_windows window_states current_time next_slide_time last_slide_time lists]; try done.
  - rewrite H3, max_Z. lia.
  - intros t Ht. rewrite max_Z, H3. specialize (H6 t Ht). lia.
Qed.

(** *** A slide *)

(** The entries after a slide. *)
Lemma slide_entries wsl T E rdone a : windows_ok wsl → core wsl T E rdone a →
  let next := next_slide_time (clock a) in
  waiting (waiting_entries (last_slide_time (clock a)) E) next = waiting_entries next E
  ∧ alive (live_entries rdone E) next ++ born_at (waiting_entries (last_slide_time (clock a)) E) next = live_entries (next :: rdone) E.
Proof.
  intros Hok C next. pose proof (core_last_next _ _ _ _ _ C) as Hln. fold next in Hln.
  assert (∀ e, e ∈ E → (last_slide_time (clock a) < e_birth e → next ≤ e_birth e) ∧ (last_slide_time (clock a) < e_death e → next ≤ e_death e)
    ∧ e_birth e < e_death e) as He.
  { intros e He. destruct (en_lives wsl T E e Hok (c_entries _ _ _ _ _ C) He) as [(Hb & Hd & _) Hbd].
    split; [|split; [|done]]; intros Hlt; by apply (core_between wsl T E rdone a). }
  split.
  - unfold without_time, waiting_entries. apply filter_both. intros e Hin. destruct (He e Hin) as (Hb & _ & _). lia.
  - unfold live_entries at 2. cbn [born_entries]. rewrite filter_app. f_equal.
    + unfold live_entries. pose proof (c_last _ _ _ _ _ C) as Hl. destruct rdone as [|t rest]; [done|]. unfold without_time.
      apply filter_both. intros e [Hin _]%born_entries_in. destruct (He e Hin) as (_ & Hd & _). rewrite Hl in Hd. lia.
    + unfold with_time, waiting_entries. rewrite (filter_both _ _ (λ e, e_birth e = next)).
      * symmetry. apply filter_both. intros e Hin. destruct (He e Hin) as (_ & _ & Hbd). lia.
      * intros e Hin. lia.
Qed.

Lemma slide_ok wsl T E rdone a : windows_ok wsl → core wsl T E rdone a → next_slide_time (clock a) ≤ current_time (clock a) →
  ∃ a' l c, advance_window a = Ok a' ∧ a' = with_clock (with_lists a l) c ∧ core wsl T E (next_slide_time (clock a) :: rdone) a'
    ∧ wtime c = wtime (clock a) ∧ next_slide_time (clock a) < next_slide_time c.
Proof.
  intros Hok C Hle. set (next := next_slide_time (clock a)) in *. pose proof Hok as (Hne & Hs & _).
  pose proof (c_slides _ _ _ _ _ C) as Hsl. fold next in Hsl. pose proof (core_last_next _ _ _ _ _ C) as Hln. fold next in Hln.
  destruct (slide_entries wsl T E rdone a Hok C) as [Ewait Elive]. fold next in Ewait, Elive.
  destruct (advance_ok (lists a) _ _ next (c_rep _ _ _ _ _ C)) as (l' & El & R' & _).
  { intros e [Hb He]%list_elem_of_filter. destruct (en_lives wsl T E e Hok (c_entries _ _ _ _ _ C) He) as [(Hsb & _ & _) Hbd].
    split; [|done]. by apply (core_between wsl T E rdone a). }
  { intros e He. pose proof (c_last _ _ _ _ _ C) as Hl. destruct rdone as [|t rest]; [by apply elem_of_nil in He|].
    apply list_elem_of_filter in He as [Hd [He _]%born_entries_in]. destruct (en_lives wsl T E e Hok (c_entries _ _ _ _ _ C) He) as [(_ & Hsd & _) _].
    apply (core_between wsl T E (t :: rest) a); [done|done|]. by rewrite Hl. }
  rewrite Ewait, Elive in R'. unfold advance_window. fold next. rewrite El. cbn [cbind].
  pose proof (sl_next _ _ _ Hsl) as Hsn. assert (next ≤ clock_of wsl T) as Hc by (by rewrite <- (c_cur _ _ _ _ _ C)).
  destruct (next_slides_ok wsl (window_states (clock a)) next DT_NOEND DT_NOBEGIN Hok) as (s & lat & E' & Hor & _ & Hfin & Hleast).
  { intros ws Hin. rewrite (c_windows _ _ _ _ _ C) in Hin. apply list_elem_of_fmap in Hin as (ws0 & -> & Hin).
    split; [rewrite Forall_forall in Hs; exact (Hs ws0 Hin)|].
    exact (slide_within wsl T next ws0 Hok (en_fits _ _ _ (c_entries _ _ _ _ _ C)) Hsn Hc Hin). }
  assert (∀ u, slide_time (window_states (clock a)) u ↔ slide_time wsl u) as Hsame.
  { intros u. rewrite (c_windows _ _ _ _ _ C). split.
    - intros (ws & k & Hin & Hk). apply list_elem_of_fmap in Hin as (ws0 & -> & Hin). by exists ws0, k.
    - intros (ws & k & Hin & Hk). exists (with_last_seen ws (latest_ts ws T)), k. split; [|done]. by apply (list_elem_of_fmap_2 (λ ws, with_last_seen ws (latest_ts ws T))). }
  rewrite E'. cbn [cbind]. specialize (Hfin ltac:(rewrite (c_windows _ _ _ _ _ C); by destruct wsl)).
  destruct Hor as [->|[Hs' Hlt]]; [lia|]. apply Hsame in Hs'. unfold ts_greater_than. rewrite (proj2 (Z.ltb_lt _ _)) by done. cbn [cassert cbind].
  eexists _, _, _. split; [reflexivity|]. split; [reflexivity|]. split; [|split; [done|exact Hlt]].
  pose proof C as [H1 H2 H3 H4 H5 H6 H7 H8].
  constructor; cbn [slicedAgg with_clock with_lists clock set_times window_states current_time next_slide_time last_slide_time lists]; try done.
  - apply slides_snoc; [done|done|done|]. intros u Hu. apply Hleast. by apply Hsame.
  - intros t [->|Ht]%elem_of_cons; [done|by apply H6].
Qed.

(** The plan is then run on the live tuples. *)
Lemma runs_ok wsl T E rdone a l : windows_ok wsl → core wsl T E rdone a → fresh (aggPlan a) → state a = FAS_RUNNING_AGG →
  l = with_cur (lists a) (live_tuples_head (lists a)) →
  running (with_lists a l) (plan_fuel (with_lists a l)) (aggregates (wtime (clock a)) (live_tuples wsl rdone T)).
Proof.
  intros Hok C Hfr Hst ->. pose proof (c_rep _ _ _ _ _ C) as R. exists (Some (live_tuples wsl rdone T)). split; [|apply Hfr].
  split; [done|]. exists (e_loc <$> live_entries rdone E). pose proof (rp_live _ _ _ R) as [[Hh _ Hn] _ _]. split; [split; [exact Hn|split; [exact Hh|]]|].
  - rewrite <- (live_entries_tuples wsl T E rdone _ Hok (c_entries _ _ _ _ _ C) (c_slides _ _ _ _ _ C)). apply Forall2_fmap, Forall_Forall2_diag.
    apply Forall_forall. intros e He. cbn [tl_heap with_cur lists with_lists]. apply (rp_tup _ _ _ R). apply elem_of_app. by right.
  - unfold plan_fuel. cbn [tl_fresh with_cur lists with_lists].
    assert (length (e_loc <$> live_entries rdone E) ≤ tl_fresh (lists a))%nat; [|lia]. apply NoDup_below.
    + pose proof (rp_nodup _ _ _ R) as Hnd. rewrite fmap_app in Hnd. by apply NoDup_app in Hnd as (_ & _ & ?).
    + intros p (e & He & <-)%in_locs. apply (rp_tup _ _ _ R). apply elem_of_app. by right.
Qed.
End step.
End FAggStep.
