(* ===== verification/FAggThm.v ===== *)
(** * Windowed aggregates: every window is answered

    Rounds of the eddy, in which it hands a tuple to the operator and fetches its
    results, give the answers of [FAggSpec] for the slides so far, and end; rounds
    without a tuple catch up with the clock. *)

From S2P Require Import Prelude BitArray GSFilter Eddy EddyLoop EddySpec EddyGSF Window WindowSpec FAgg FAggEddy FAggLists FAggSpec FAggStep.

Module FAggThm.
Import Bit Eddy EddyLoop EddySpec Window WindowSpec FAgg FAggEddy FAggLists FAggSpec FAggStep.
#[local] Opaque bits_of below.
Local Open Scope Z_scope.

Section thm.
Context {F : Type} `{!Double F} `{!Truncates F} `{!Calendar} `{Hexact : !ExactDouble (F := F)}.
Context {HT P Op : Type} `{!Fjord Op HT} `{!Attributes HT} `{Henv : !FAggEnv HT P} `{Hagg : !Aggregates HT} `{Hres : !Rescans}.
Implicit Types (a : FAgg HT P) (x : HT) (T : list HT) (rdone : list Z) (w : BitArray).
Local Abbreviation entry := (Entry (HT := HT)).

(** The windows of one query, and the eddy with the one FAgg, module [k], and other
    operators. *)
Context (wsl : list WindowState) (Hok : windows_ok wsl) (q : nat) (Hq : (q < 128)%nat).
Context (cfg : config F) (Hcfg : UseSuppressOutput cfg = false) (st0 : EddyState (module HT P Op) HT F) (k : nat).
Context (Hk : (k < numModules st0)%nat) (Hothers : ∀ i m, modules st0 !! i = Some (Some m) → i ≠ k → isFAgg m = false).
Local Abbreviation moved := (moved st0 k).

(** ** The operator at rest, and after a call *)

Record at_rest a T (E : list entry) rdone : Prop := {
  ar_core : core wsl T E rdone a;
  ar_state : state a = FAS_READING;
  ar_fresh : fresh (aggPlan a);
  ar_ready : ready a;
  ar_inputq : inputq a = [];
  ar_used : usedByQueries a = [q]
}.

(** A slide has been made, of which [hts] is in the queue and [O] still to be sent. *)
Record slid (td0 : option TupleDesc) (next : Z) a T (E : list entry) rdone (hts O : list HT) td : Prop := {
  sd_core : core wsl T E (next :: rdone) a;
  sd_next : next < next_slide_time (clock a);
  sd_sent : sent a hts;
  sd_one : (length hts ≤ 1)%nat;
  sd_stage : stage a O td;
  sd_emit : slide_results td0 (next_slide_time (clock a)) (aggregates next (live_tuples wsl (next :: rdone) T)) = (hts ++ O, td);
  sd_state : hts = [] ↔ state a = FAS_READING;
  sd_room : (0 < room a)%nat;
  sd_oiht : (0 < length (t_base_tuples (oiht a)))%nat;
  sd_tdesc td : output_tdesc a = Some td → is_Some (constr td);
  sd_inputq : inputq a = [];
  sd_used : usedByQueries a = [q]
}.

(** What the operator does when it reads. *)
Definition reading a : cres (FAgg HT P) :=
  let c := clock a in
  if ts_geq (current_time c) (next_slide_time c) then
    let! a2 := advance_window (with_clock a (set_times c (current_time c) (last_slide_time c) (next_slide_time c) (latest_slide_time c) (next_slide_time c))) in
    let a3 := with_state a2 FAS_RUNNING_AGG in
    let a4 := with_lists a3 (with_cur (lists a3) (live_tuples_head (lists a3))) in
    FAggScheduleAggPlan (plan_fuel a4) a4
  else Ok a.

Lemma reading_ok a T E rdone : at_rest a T E rdone →
  (reading a = Ok a ∧ clock_of wsl T < next_slide_time (clock a))
  ∨ ∃ a' hts O td, reading a = Ok a' ∧ slid (output_tdesc a) (next_slide_time (clock a)) a' T E rdone hts O td.
Proof.
  intros [C Hst Hfr Hrd Hinq Hus]. unfold reading. set (next := next_slide_time (clock a)) in *. unfold ts_geq.
  destruct (Z.leb_spec next (current_time (clock a))) as [Hle|Hgt]; [right|left; by rewrite <- (c_cur _ _ _ _ _ C)].
  set (a1 := with_clock a _). assert (core wsl T E rdone a1) as C1 by (destruct C; by constructor).
  destruct (slide_ok wsl T E rdone a1 Hok C1 Hle) as (a2 & l & c & E2 & Ea2 & C2 & Hw & Hlt). rewrite E2. cbn [cbind]. subst a2.
  set (a3 := with_state _ FAS_RUNNING_AGG). set (a4 := with_lists a3 _).
  assert (core wsl T E (next :: rdone) a3) as C3 by (destruct C2; by constructor).
  assert (core wsl T E (next :: rdone) a4) as C4.
  { destruct C3 as [H1 H2 H3 H4 H5 H6 H7 H8]. constructor; try done. by apply rep_cur. }
  pose proof (runs_ok wsl T E (next :: rdone) a3 _ Hok C3 Hfr eq_refl eq_refl) as Hrun. fold a4 in Hrun.
  assert (wtime (clock a3) = next) as Ew by exact Hw. rewrite Ew in Hrun.
  assert (ready a4) as Hrd4 by (destruct Hrd; by constructor).
  destruct (schedule_ok a4 _ Hrd4 Hrun) as (a' & hts & O & td & E' & K & Hsent & Hone & Hstage & Hemit & Htd & Hrest).
  exists a', hts, O, td. split; [exact E'|]. constructor; try done.
  - by apply (core_kept wsl T E (next :: rdone) a4).
  - by rewrite (k_clock _ _ K).
  - rewrite (k_clock _ _ K). exact Hemit.
  - rewrite (k_room _ _ K). apply (r_room _ Hrd4).
  - rewrite (k_oiht _ _ K). apply (r_oiht _ Hrd4).
  - by rewrite (k_inputq _ _ K).
  - by rewrite (k_used _ _ K).
Qed.

Lemma poll_reading a T E rdone : at_rest a T E rdone → ProcessNextFAgg a = reading a.
Proof.
  intros [C Hst Hfr Hrd Hinq Hus]. unfold ProcessNextFAgg, ProcessNextFAggRangeSlide. rewrite (c_mode _ _ _ _ _ C), Hst, bool_decide_true by set_solver.
  cbn [cassert cbind]. rewrite Hinq. cbn [EddyGSF.dequeue_iht cbind]. assert (with_queues a [] (outputq a) (total_entered a) (total_exited a) = a) as ->.
  { destruct a. cbn in *. by rewrite Hinq. }
  by rewrite Hst.
Qed.

Definition given a (iht : IHT HT) : FAgg HT P := with_queues a [iht] (outputq a) (total_entered a) (total_exited a).

Lemma deliver_reading a T E rdone iht : at_rest a T E rdone → on_time_at wsl T (EddyExecProject iht q) →
  ∃ a1 E', ProcessNextFAgg (given a iht) = reading a1 ∧ at_rest a1 (T ++ [EddyExecProject iht q]) E' rdone
    ∧ next_slide_time (clock a1) = next_slide_time (clock a) ∧ output_tdesc a1 = output_tdesc a.
Proof.
  intros [C Hst Hfr Hrd Hinq Hus] Hx. unfold ProcessNextFAgg, ProcessNextFAggRangeSlide. cbn [slicedAgg given with_queues state inputq].
  rewrite (c_mode _ _ _ _ _ C), Hst, bool_decide_true by set_solver. cbn [cassert cbind EddyGSF.dequeue_iht].
  set (a0 := with_queues (given a iht) [] _ _ _). assert (core wsl T E rdone a0) as C0 by (destruct C; by constructor).
  destruct (add_ok wsl T E rdone a0 q iht Hok C0) as (a1 & E' & l & c & n & E1 & Hfl & C1 & Hn); [by cbn; rewrite Hus|done|].
  exists a1, E'. rewrite E1. cbn [cbind]. unfold filed in Hfl. subst a1. split; [by cbn [state with_clock with_lists with_queues a0 given]; rewrite Hst|].
  split; [|done]. constructor; try done. destruct Hrd. by constructor.
Qed.

(** ** The results are fetched *)

Definition result_to (e : event HT) (ht : HT) : Prop :=
  match e with receiveTuple o w => is_result o ht ∧ bits_of 128 w = {[q]} | freeResultQueue _ => False end.

Definition emptied a : FAgg HT P := with_queues a (inputq a) [] (total_entered a) (total_exited a).

(** A result in the queue is sent to the query, and taken out. *)
Lemma get_result a w o ht : outputq a = [o] → is_result o ht → usedByQueries a = [q] → wf 128 w →
  ∃ w', (∀ evs, getFAggResult (moved a evs) (seq 0 (numModules (moved a evs))) w = Ok (Some o, moved (emptied a) evs, w'))
    ∧ wf 128 w' ∧ result_to (receiveTuple o w') ht.
Proof.
  intros Ho Hr Hu Hwf. eexists. split.
  { intros evs. rewrite (get_moved st0 k Hk Hothers). unfold fagg_result, fagg_deq. rewrite Ho. cbn [EddyGSF.dequeue_iht]. unfold got. cbn [cbind].
    unfold is_result in Hr. rewrite Hr. cbn [access cbind cassert usedByQueries with_queues]. rewrite Hu. reflexivity. }
  cbn [foldl]. assert (wf 128 (BitArrayClearAll w TCQMAXQUERIES)) as Hwf' by eauto with bits. split; [eauto with bits|]. split; [done|].
  apply set_eq. intros j. rewrite elem_of_singleton, !elem_of_bits_of.
  rewrite SetBit_bit by (by eapply wf_index). rewrite ClearAll_bit by done.
  split.
  - intros [Hj Hb]. destruct (decide (q = j)) as [->|]; [done|]. rewrite bool_decide_eq_false_2 in Hb by done.
    rewrite (bool_decide_eq_true_2 (j < TCQMAXQUERIES)%nat) in Hb by exact Hj. done.
  - intros ->. split; [done|]. by rewrite bool_decide_eq_true_2.
Qed.

Lemma emptied_kept a : kept a (emptied a).
Proof. constructor; try done. exists (live_tuples_cur (lists a)). by destruct a as [???????? [???????]]. Qed.
Lemma emptied_stage a O td : stage a O td → stage (emptied a) O td.
Proof.
  intros [Hst Hfr|rs Hrun|Hst].
  - by apply (stage_reading (emptied a)).
  - by apply (stage_running (emptied a) rs).
  - by apply (stage_punct (emptied a)).
Qed.
Lemma queues_same a inp out : inputq a = inp → outputq a = out → with_queues a inp out (total_entered a) (total_exited a) = a.
Proof. intros <- <-. by destruct a. Qed.

Lemma stage_at_reading a O td : state a = FAS_READING → stage a O td → O = [] ∧ fresh (aggPlan a) ∧ td = output_tdesc a.
Proof.
  intros Hst Hsg. destruct Hsg as [_ Hfr|rs (i & Hsrc & _)|Hst']; [done| |congruence].
  destruct i as [tups|]; [destruct Hsrc as [? _]|]; cbn in *; congruence.
Qed.

(** A call of the operator by [getFAggResult]. *)
Lemma poll_result a a' : outputq a = [] → ProcessNextFAgg a = Ok a' →
  (outputq a' = [] → fagg_result a = Ok (None, a')) ∧ ∀ o, outputq a' = [o] → fagg_result a = Ok (Some o, emptied a').
Proof.
  intros Ho E. unfold fagg_result, fagg_deq. rewrite Ho. cbn [EddyGSF.dequeue_iht]. rewrite queues_same, E by done. cbn [cbind].
  split; [intros Ho'|intros o Ho']; rewrite Ho'; cbn [EddyGSF.dequeue_iht]; [by rewrite queues_same|done].
Qed.

Lemma poll_running a rs : slicedAgg a = false → inputq a = [] → running a (plan_fuel a) rs → ProcessNextFAgg a = FAggScheduleAggPlan (plan_fuel a) a.
Proof.
  intros Hm Hi (i & Hsrc & _). unfold ProcessNextFAgg, ProcessNextFAggRangeSlide. rewrite Hm.
  assert (state a = FAS_RUNNING_AGG ∨ state a = FAS_FINISHING_AGG) as Hst by (destruct i; [left; by destruct Hsrc|by right]).
  rewrite bool_decide_true by set_solver. cbn [cassert cbind]. rewrite Hi. cbn [EddyGSF.dequeue_iht cbind]. rewrite queues_same by done.
  by destruct Hst as [->| ->].
Qed.
Lemma poll_punct a : slicedAgg a = false → inputq a = [] → state a = FAS_PUNCTUATING → ProcessNextFAgg a = Ok (with_state (reset_agg_tree a) FAS_READING).
Proof.
  intros Hm Hi Hst. unfold ProcessNextFAgg, ProcessNextFAggRangeSlide. rewrite Hm, Hst, bool_decide_true by set_solver. cbn [cassert cbind].
  rewrite Hi. cbn [EddyGSF.dequeue_iht cbind]. rewrite queues_same by done. by rewrite Hst.
Qed.

(** The loop over the results has ended. *)
Record ended a td : Prop := {
  ed_state : state a = FAS_READING;
  ed_fresh : fresh (aggPlan a);
  ed_outputq : outputq a = [];
  ed_tdesc : output_tdesc a = td;
  ed_constr td' : td = Some td' → is_Some (constr td')
}.

Lemma check_none fuel a evs w a' : fagg_result a = Ok (None, a') → drain_FAggs (S fuel) cfg (moved a evs) w = Ok (moved a' evs).
Proof. intros E. cbn [drain_FAggs]. by rewrite (get_moved st0 k Hk Hothers), E. Qed.

Lemma output_moved a evs t w : output cfg (moved a evs) t w = moved a (evs ++ [receiveTuple t w]).
Proof. unfold output. rewrite Hcfg. apply moved_emit. Qed.

(** A result that a call has produced goes out before the rest of the loop. *)
Lemma check_some fuel a evs w a' o w' : fagg_result a = Ok (Some o, emptied a') →
  getFAggResult (moved a' evs) (seq 0 (numModules (moved a' evs))) w = Ok (Some o, moved (emptied a') evs, w') → outputq a' = [o] →
  drain_FAggs (S fuel) cfg (moved a evs) w = drain_FAggs fuel cfg (moved (emptied a') (evs ++ [receiveTuple o w'])) w'.
Proof.
  intros E Eg Hout. cbn [drain_FAggs]. rewrite (get_moved st0 k Hk Hothers) in Eg |- *. rewrite E. unfold fagg_result, fagg_deq in Eg. rewrite Hout in Eg.
  cbn [EddyGSF.dequeue_iht] in Eg. change (with_queues a' (inputq a') [] (total_entered a') (total_exited a')) with (emptied a') in Eg. rewrite Eg. cbn [cbind].
  by rewrite output_moved.
Qed.

(** The loop sends all that is still to be sent for a slide, and ends. *)
Lemma loop_ok n : ∀ a O td w, (length O ≤ n)%nat → stage a O td → state a ≠ FAS_READING → ready a → slicedAgg a = false → inputq a = [] →
  usedByQueries a = [q] → wf 128 w →
  ∃ a' outs, (∀ fuel evs, (n + 1 ≤ fuel)%nat → drain_FAggs fuel cfg (moved a evs) w = Ok (moved a' (evs ++ outs))) ∧ Forall2 result_to outs O ∧ kept a a' ∧ ended a' td.
Proof.
  induction n as [n IH] using (well_founded_induction lt_wf). intros a O td w Hn Hsg Hst Hrd Hm Hi Hu Hw. pose proof (r_out _ Hrd) as Ho.
  destruct Hsg as [?|rs Hrun|Hpu]; [done| |].
  - destruct (schedule_ok a rs Hrd Hrun) as (a' & hts & O & td & E & K & Hsent & Hone & Hsg & Hemit & Htd & Hrest). rewrite Hemit. cbn [fst snd].
    rewrite <- (poll_running a rs Hm Hi Hrun) in E. destruct (poll_result a a' Ho E) as [Hnone Hsome]. rewrite Hemit in Hn. cbn [fst] in Hn.
    destruct hts as [|ht [|? ?]]; [| |cbn in Hone; lia].
    + apply Forall2_nil_inv_r in Hsent. specialize (Hnone Hsent). destruct (stage_at_reading a' O td (proj1 Hrest eq_refl) Hsg) as (-> & Hfr & ->).
      exists a', []. split; [|split; [constructor|split; [done|by constructor; [apply Hrest|..]]]].
      intros fuel evs Hfuel. destruct fuel as [|fuel]; [lia|]. rewrite app_nil_r. by apply check_none.
    + apply Forall2_cons_inv_r in Hsent as (o & ? & Hr & Hnil & Hout). apply Forall2_nil_inv_r in Hnil as ->. specialize (Hsome o Hout).
      destruct (get_result a' w o ht Hout Hr) as (w' & Eg & Hw' & Hrt); [by rewrite (k_used _ _ K)|done|].
      cbn [length app] in Hn. destruct n as [|n]; [lia|].
      destruct (IH n ltac:(lia) (emptied a') O td w') as (a2 & outs & E2 & Hf2 & K2 & Hend).
      * lia.
      * by apply emptied_stage.
      * intros Hs. by apply Hrest in Hs.
      * constructor; [cbn; rewrite (k_room _ _ K); apply (r_room _ Hrd)|done|cbn; rewrite (k_oiht _ _ K); apply (r_oiht _ Hrd)|done].
      * cbn. by rewrite (k_sliced _ _ K).
      * cbn. by rewrite (k_inputq _ _ K).
      * cbn. by rewrite (k_used _ _ K).
      * done.
      * exists a2, (receiveTuple o w' :: outs). split; [|split; [by constructor|split; [|done]]].
        -- intros fuel evs Hfuel. destruct fuel as [|fuel]; [lia|]. rewrite (check_some fuel a evs w a' o w' Hsome (Eg evs) Hout), E2 by lia.
           by rewrite <- app_assoc.
        -- eapply kept_then; [exact K|]. eapply kept_then; [apply emptied_kept|done].
  - destruct (poll_result a _ Ho (poll_punct a Hm Hi Hpu)) as [Hnone _]. specialize (Hnone Ho).
    exists (with_state (reset_agg_tree a) FAS_READING), []. split; [|split; [constructor|split]].
    + intros fuel evs Hfuel. destruct fuel as [|fuel]; [lia|]. rewrite app_nil_r. by apply check_none.
    + constructor; try done. exists (live_tuples_cur (lists a)). by destruct a as [???????? [???????]].
    + constructor; [done|apply rescan_fresh|done|done|apply (r_tdesc _ Hrd)].
Qed.

(** ** A round *)

(** The tuples sent so far are the answers. *)
Definition told a T rdone (hts : list HT) : Prop := answers wsl rdone (next_slide_time (clock a)) T = (hts, output_tdesc a).

(** A round from [a] has sent the results [outs] and left the operator at rest as
    [a'], after the slide at [next] if the clock had reached it. *)
Record rounded (a : FAgg HT P) a' T E rdone hts (outs : list (event HT)) rdone' : Prop := {
  rd_rest : at_rest a' T E rdone';
  rd_told : ∃ hts', Forall2 result_to outs hts' ∧ told a' T rdone' (hts ++ hts');
  rd_next : next_slide_time (clock a) ≤ next_slide_time (clock a');
  rd_slide : next_slide_time (clock a) ≤ clock_of wsl T → next_slide_time (clock a) < next_slide_time (clock a')
}.

Lemma slid_told td0 next a T E rdone hts O td prev a' : slid td0 next a T E rdone hts O td → answers wsl rdone next T = (prev, td0) →
  next_slide_time (clock a') = next_slide_time (clock a) → output_tdesc a' = td → told a' T (next :: rdone) (prev ++ hts ++ O).
Proof.
  intros S Hprev En Etd. unfold told. cbn [answers]. rewrite Hprev, En, (sd_emit _ _ _ _ _ _ _ _ _ S). by rewrite Etd.
Qed.

Lemma slid_rest td0 next a T E rdone O td prev : slid td0 next a T E rdone [] O td → answers wsl rdone next T = (prev, td0) →
  at_rest a T E (next :: rdone) ∧ told a T (next :: rdone) prev.
Proof.
  intros S Hprev. pose proof (proj1 (sd_state _ _ _ _ _ _ _ _ _ S) eq_refl) as Hst.
  destruct (stage_at_reading a O td Hst (sd_stage _ _ _ _ _ _ _ _ _ S)) as (-> & Hfr & ->). pose proof (sd_sent _ _ _ _ _ _ _ _ _ S) as Hs.
  apply Forall2_nil_inv_r in Hs. split; [|rewrite <- (app_nil_r prev); by apply (slid_told _ _ _ _ _ _ _ _ _ _ _ S Hprev)].
  constructor; [apply S|done|done| |apply S|apply S]. constructor; [apply S|done|apply S|apply S].
Qed.

(** The first tuple of a slide has been fetched; the loop sends the others. *)
Lemma slid_loop td0 next a T E rdone ht O td prev o w : slid td0 next a T E rdone [ht] O td → answers wsl rdone next T = (prev, td0) →
  outputq a = [o] → wf 128 w →
  ∃ n a' outs, (∀ fuel evs, (n ≤ fuel)%nat → drain_FAggs fuel cfg (moved (emptied a) evs) w = Ok (moved a' (evs ++ outs))) ∧ Forall2 result_to outs O
    ∧ at_rest a' T E (next :: rdone) ∧ told a' T (next :: rdone) (prev ++ ht :: O) ∧ next_slide_time (clock a') = next_slide_time (clock a).
Proof.
  intros S Hprev Hout Hw. destruct (loop_ok (length O) (emptied a) O td w) as (a' & outs & E2 & Hf2 & K2 & Hend); [done| | | | | | |done|].
  - apply emptied_stage, S.
  - intros Hs. by apply (sd_state _ _ _ _ _ _ _ _ _ S) in Hs.
  - constructor; [apply S|done|apply S|apply S].
  - apply (c_mode _ _ _ _ _ (sd_core _ _ _ _ _ _ _ _ _ S)).
  - apply S.
  - apply S.
  - pose proof (kept_then _ _ _ (emptied_kept a) K2) as K. exists (length O + 1)%nat, a', outs. split; [exact E2|]. split; [done|].
    split; [|split; [|by rewrite (k_clock _ _ K)]].
    + constructor; [apply (core_kept _ _ _ _ _ _ K), S|apply Hend|apply Hend| |by rewrite (k_inputq _ _ K); apply S|by rewrite (k_used _ _ K); apply S].
      constructor; [rewrite (k_room _ _ K); apply S|apply Hend|rewrite (k_oiht _ _ K); apply S|].
      rewrite (ed_tdesc _ _ Hend). apply (ed_constr _ _ Hend).
    + apply (slid_told _ _ _ _ _ _ _ _ _ _ a' S Hprev); [by rewrite (k_clock _ _ K)|apply Hend].
Qed.

(** The loop over the results, from rest. *)
Lemma settle_rest a T E rdone hts w : at_rest a T E rdone → told a T rdone hts → wf 128 w →
  ∃ n a' outs rdone', (∀ fuel evs, (n ≤ fuel)%nat → drain_FAggs fuel cfg (moved a evs) w = Ok (moved a' (evs ++ outs))) ∧ rounded a a' T E rdone hts outs rdone'.
Proof.
  intros R Htold Hw. pose proof (r_out _ (ar_ready _ _ _ _ R)) as Ho. pose proof (poll_reading a T E rdone R) as Epoll.
  destruct (reading_ok a T E rdone R) as [[Er Hlt]|(a' & hts1 & O & td & Er & S)]; rewrite Er in Epoll; destruct (poll_result a _ Ho Epoll) as [Hnone Hsome].
  - exists 1%nat, a, [], rdone. split.
    + intros fuel evs Hfuel. destruct fuel as [|fuel]; [lia|]. rewrite app_nil_r. by apply check_none, Hnone.
    + constructor; [done|exists []; split; [constructor|by rewrite app_nil_r]|done|lia].
  - pose proof (sd_next _ _ _ _ _ _ _ _ _ S) as Hnext. pose proof (sd_sent _ _ _ _ _ _ _ _ _ S) as Hsent. pose proof (sd_one _ _ _ _ _ _ _ _ _ S) as Hone.
    destruct hts1 as [|ht [|? ?]]; [| |cbn in Hone; lia].
    + destruct (slid_rest _ _ _ _ _ _ _ _ _ S Htold) as [R' Htold']. exists 1%nat, a', [], (next_slide_time (clock a) :: rdone). split.
      * intros fuel evs Hfuel. destruct fuel as [|fuel]; [lia|]. rewrite app_nil_r. apply check_none, Hnone, (r_out _ (ar_ready _ _ _ _ R')).
      * constructor; [done|exists []; split; [constructor|by rewrite app_nil_r]|lia|done].
    + apply Forall2_cons_inv_r in Hsent as (o & ? & Hr & Hnil & Hout). apply Forall2_nil_inv_r in Hnil as ->. specialize (Hsome o Hout).
      destruct (get_result a' w o ht Hout Hr (sd_used _ _ _ _ _ _ _ _ _ S) Hw) as (w' & Eg & Hw' & Hrt).
      destruct (slid_loop _ _ _ _ _ _ _ _ _ _ o w' S Htold Hout Hw') as (n & a2 & outs & E2 & Hf2 & R2 & Htold2 & En).
      exists (Datatypes.S n), a2, (receiveTuple o w' :: outs), (next_slide_time (clock a) :: rdone). split.
      * intros fuel evs Hfuel. destruct fuel as [|fuel]; [lia|]. rewrite (check_some fuel a evs w a' o w' Hsome (Eg evs) Hout), E2 by lia.
        by rewrite <- app_assoc.
      * constructor; [done|exists (ht :: O); split; [by constructor|done]|rewrite En; lia|by rewrite En].
Qed.

(** *** A tuple is handed over *)

(** The tuples that an arrival brings for the query, and what goes out besides the
    results: the tuple itself, for the other queries. *)
Definition seen1 (ev : option (IHT HT) * BitArray) : list HT :=
  match ev with
  | (Some iht, w) => if BitArrayBitIsSet w q then [EddyExecProject iht q] else []
  | (None, _) => []
  end.
Definition seen (evs : list (option (IHT HT) * BitArray)) : list HT := evs ≫= seen1.
Definition passed_on (ev : option (IHT HT) * BitArray) : list (event HT) :=
  match ev with
  | (Some iht, w) => [receiveTuple iht (if BitArrayBitIsSet w q then BitArrayClearBit w q else w)]
  | (None, _) => []
  end.

Definition one_round (fuel : nat) (st : EddyState (module HT P Op) HT F) (ev : option (IHT HT) * BitArray) : cres (EddyState (module HT P Op) HT F) :=
  match ev with (Some t, w) => send_to_queries fuel cfg st t w | (None, w) => checkSlideTimeout fuel cfg st w end.

Lemma rounded_from a a1 a' T E rdone hts outs rdone' : next_slide_time (clock a) ≤ next_slide_time (clock a1) →
  (next_slide_time (clock a) ≤ clock_of wsl T → next_slide_time (clock a) < next_slide_time (clock a1) ∨ next_slide_time (clock a) = next_slide_time (clock a1)) →
  rounded a1 a' T E rdone hts outs rdone' → rounded a a' T E rdone hts outs rdone'.
Proof.
  intros Hle Hor [R Ht Hn Hsl]. constructor; [done|done|lia|]. intros Hc. destruct (Hor Hc) as [?|E']; [lia|]. rewrite E' in *. by apply Hsl.
Qed.

Lemma told_snoc a T rdone hts x E : core wsl T E rdone a → on_time_at wsl T x → told a T rdone hts → told a (T ++ [x]) rdone hts.
Proof.
  intros C [Hf Hex] Ht. unfold told in *. rewrite answers_snoc; [done|]. intros t Hin. destruct Hok as (_ & Hs & _).
  apply (on_time_not_live wsl x t (clock_of wsl T)); [done..|]. rewrite <- (c_cur _ _ _ _ _ C). by apply (c_done _ _ _ _ _ C).
Qed.

Lemma round_ok a T E rdone hts ev : at_rest a T E rdone → told a T rdone hts → wf 128 ev.2 → Forall (on_time_at wsl T) (seen1 ev) →
  ∃ n a' E' outs rdone', (∀ fuel evs, (n ≤ fuel)%nat → one_round fuel (moved a evs) ev = Ok (moved a' (evs ++ passed_on ev ++ outs)))
    ∧ rounded a a' (T ++ seen1 ev) E' rdone hts outs rdone'.
Proof.
  intros R Htold Hw Hx. destruct ev as [[iht|] w]; cbn [fst snd one_round seen1 passed_on] in *.
  2: { rewrite app_nil_r. destruct (settle_rest a T E rdone hts w R Htold Hw) as (n & a' & outs & rdone' & E1 & Rd). exists n, a', E, outs, rdone'.
       split; [|done]. intros fuel evs Hfuel. rewrite checkSlideTimeout_drain by done. by apply E1. }
  unfold send_to_queries. destruct (BitArrayBitIsSet w q) eqn:Eq.
  2: { rewrite app_nil_r. destruct (settle_rest a T E rdone hts w R Htold Hw) as (n & a' & outs & rdone' & E1 & Rd). exists n, a', E, outs, rdone'.
       split; [|done]. intros fuel evs Hfuel. rewrite (deliver_moved st0 k Hk Hothers a evs iht w q (ar_used _ _ _ _ R)), Eq. cbn [cbind].
       rewrite output_moved, E1 by done. by rewrite <- app_assoc. }
  apply Forall_cons in Hx as [Hx _]. set (x := EddyExecProject iht q) in *.
  destruct (deliver_reading a T E rdone iht R Hx) as (a1 & E1 & Ep & R1 & En1 & Et1). fold x in R1. unfold given in Ep.
  assert (∀ evs, deliverTupleToFAgg (moved a evs) iht (seq 0 (numModules (moved a evs))) w =
    let! a2 := reading a1 in Ok (moved a2 evs, BitArrayClearBit w q)) as Edel.
  { intros evs. rewrite (deliver_moved st0 k Hk Hothers a evs iht w q (ar_used _ _ _ _ R)), Eq. unfold fagg_enq, EddyGSF.enqueue_iht.
    rewrite (ar_inputq _ _ _ _ R), decide_True by apply (r_room _ (ar_ready _ _ _ _ R)). cbn [app]. by rewrite Ep. }
  assert (told a1 (T ++ [x]) rdone hts) as Htold1.
  { unfold told. rewrite En1, Et1. apply (told_snoc a T rdone hts x E); [apply R|done|done]. }
  assert (wf 128 (BitArrayClearBit w q)) as Hw' by eauto with bits. set (w1 := BitArrayClearBit w q) in *.
  assert (∀ a2 n a' outs E' rdone', reading a1 = Ok a2 → (∀ fuel evs, (n ≤ fuel)%nat → drain_FAggs fuel cfg (moved a2 evs) w1 = Ok (moved a' (evs ++ outs))) →
    rounded a a' (T ++ [x]) E' rdone hts outs rdone' →
    ∃ n a' E' outs rdone', (∀ fuel evs, (n ≤ fuel)%nat → (let! (st1, where1) := deliverTupleToFAgg (moved a evs) iht (seq 0 (numModules (moved a evs))) w in
        drain_FAggs fuel cfg (output cfg st1 iht where1) where1) = Ok (moved a' (evs ++ [receiveTuple iht w1] ++ outs)))
      ∧ rounded a a' (T ++ [x]) E' rdone hts outs rdone') as Hfin.
  { intros a2 n a' outs E' rdone' Er Edr Rd. exists n, a', E', outs, rdone'. split; [|done]. intros fuel evs Hfuel. rewrite Edel, Er. cbn [cbind].
    rewrite output_moved, Edr by done. by rewrite <- app_assoc. }
  destruct (reading_ok a1 (T ++ [x]) E1 rdone R1) as [[Er Hlt]|(a2 & hts1 & O & td & Er & S)].
  - destruct (settle_rest a1 (T ++ [x]) E1 rdone hts w1 R1 Htold1 Hw') as (n & a' & outs & rdone' & E2 & Rd).
    apply (Hfin a1 n a' outs E1 rdone' Er E2). apply (rounded_from a a1); [by rewrite En1|right; by rewrite En1|done].
  - pose proof (sd_next _ _ _ _ _ _ _ _ _ S) as Hnext. pose proof (sd_sent _ _ _ _ _ _ _ _ _ S) as Hsent. pose proof (sd_one _ _ _ _ _ _ _ _ _ S) as Hone.
    rewrite En1 in Hnext. destruct hts1 as [|ht [|? ?]]; [| |cbn in Hone; lia].
    + destruct (slid_rest _ _ _ _ _ _ _ _ _ S Htold1) as [R2 Htold2].
      destruct (settle_rest a2 (T ++ [x]) E1 _ hts w1 R2 Htold2 Hw') as (n & a' & outs & rdone' & E2 & [Rd1 Rd2 Rd3 Rd4]).
      apply (Hfin a2 n a' outs E1 rdone' Er E2). constructor; [done|done|lia|]. intros _. lia.
    + apply Forall2_cons_inv_r in Hsent as (o & ? & Hr & Hnil & Hout). apply Forall2_nil_inv_r in Hnil as ->.
      destruct (get_result a2 w1 o ht Hout Hr (sd_used _ _ _ _ _ _ _ _ _ S) Hw') as (w' & Eg & Hw2 & Hrt).
      destruct (slid_loop _ _ _ _ _ _ _ _ _ _ o w' S Htold1 Hout Hw2) as (n & a3 & outs & E2 & Hf2 & R3 & Htold3 & En3).
      apply (Hfin a2 (Datatypes.S n) a3 (receiveTuple o w' :: outs) E1 (next_slide_time (clock a1) :: rdone) Er).
      * intros fuel evs Hfuel. destruct fuel as [|fuel]; [lia|]. cbn [drain_FAggs]. rewrite Eg. cbn [cbind]. rewrite output_moved, E2 by lia.
        by rewrite <- app_assoc.
      * constructor; [done|exists (ht :: O); split; [by constructor|done]|rewrite En3; lia|intros _; rewrite En3; lia].
Qed.

(** *** Many rounds *)

Lemma on_time_app T1 T2 x : on_time wsl (T1 ++ x :: T2) → on_time_at wsl T1 x ∧ on_time wsl ((T1 ++ [x]) ++ T2).
Proof.
  intros [Hf Ht]. rewrite <- app_assoc. split; [|done]. split; [|by apply (Ht T1 x T2)].
  apply Forall_app in Hf as [_ Hf]. by apply Forall_cons in Hf as [? _].
Qed.

(** What the queries have been sent: the results to [q], and to any other query the
    tuples that were for it. *)
Definition passed (q' : nat) (arrivals : list (option (IHT HT) * BitArray)) : list (list (option HT)) :=
  arrivals ≫= λ ev, match ev with (Some t, w) => if decide (q' ∈ bits_of 128 w) then [t_base_tuples t] else [] | (None, _) => [] end.
Definition is_answer (b : list (option HT)) (ht : HT) : Prop := b !! 0%nat = Some (Some ht).
Definition answered (evs : list (event HT)) (arrivals : list (option (IHT HT) * BitArray)) (hts : list HT) : Prop :=
  Forall2 is_answer (delivered q evs) hts ∧ ∀ q', q' ≠ q → delivered q' evs = passed q' arrivals.

Lemma answered_app e1 e2 r1 r2 h1 h2 : answered e1 r1 h1 → answered e2 r2 h2 → answered (e1 ++ e2) (r1 ++ r2) (h1 ++ h2).
Proof.
  intros [H1 H2] [G1 G2]. split; [rewrite delivered_app; by apply Forall2_app|]. intros q' Hq'. rewrite delivered_app. unfold passed.
  rewrite bind_app. by rewrite H2, G2.
Qed.

Lemma results_answered outs hts : Forall2 result_to outs hts → answered outs [] hts.
Proof.
  intros Hf. split.
  - unfold delivered. induction Hf as [|e ht outs hts He _ IH]; [constructor|]. destruct e as [o w|]; [|done]. destruct He as [Hr Hb]. cbn.
    rewrite decide_True by (rewrite Hb; by apply elem_of_singleton). by constructor.
  - intros q' Hq'. unfold delivered, passed. induction Hf as [|e ht outs hts He _ IH]; [done|]. destruct e as [o w|]; [|done]. destruct He as [Hr Hb]. cbn.
    rewrite decide_False by (rewrite Hb; by rewrite elem_of_singleton). exact IH.
Qed.

Lemma clear_own w : wf 128 w → bits_of 128 (if BitArrayBitIsSet w q then BitArrayClearBit w q else w) = bits_of 128 w ∖ {[q]}.
Proof.
  intros Hw. apply set_eq. intros j. rewrite elem_of_difference, elem_of_singleton, !elem_of_bits_of. destruct (BitArrayBitIsSet w q) eqn:E.
  - rewrite ClearBit_bit by (by eapply wf_index). destruct (decide (q = j)) as [->|Hne]; [rewrite bool_decide_eq_true_2 by done; cbn; naive_solver|].
    rewrite bool_decide_eq_false_2 by done. cbn. naive_solver.
  - split; [intros [? Hb]; split; [done|intros ->; congruence]|tauto].
Qed.

Lemma delivered_one q' (t : IHT HT) w : delivered q' [receiveTuple t w] = if decide (q' ∈ bits_of 128 w) then [t_base_tuples t] else [].
Proof. unfold delivered. cbn. by case_decide. Qed.

Lemma passed_answered ev : wf 128 ev.2 → answered (passed_on ev) [ev] [].
Proof.
  intros Hw. destruct ev as [[t|] w]; cbn [passed_on snd] in *; [|split; [constructor|done]]. pose proof (clear_own w Hw) as Hc. split.
  - rewrite delivered_one, Hc, decide_False by set_solver. constructor.
  - intros q' Hne. rewrite delivered_one, Hc. unfold passed. cbn [mbind list_bind]. rewrite app_nil_r. destruct (decide (q' ∈ bits_of 128 w)) as [Hin|Hin];
      [rewrite decide_True by set_solver|rewrite decide_False by set_solver]; done.
Qed.

Lemma rounds_ok arrivals : ∀ a T E rdone hts, at_rest a T E rdone → told a T rdone hts → Forall (λ ev, wf 128 ev.2) arrivals →
  on_time wsl (T ++ seen arrivals) →
  ∃ n a' E' outs rdone' hts', (∀ fuel evs, (n ≤ fuel)%nat → rounds fuel cfg (moved a evs) arrivals = Ok (moved a' (evs ++ outs)))
    ∧ answered outs arrivals hts' ∧ at_rest a' (T ++ seen arrivals) E' rdone' ∧ told a' (T ++ seen arrivals) rdone' (hts ++ hts').
Proof.
  induction arrivals as [|ev arrivals IH]; intros a T E rdone hts R Htold Hw Hx.
  - exists 0%nat, a, E, [], rdone, []. cbn [seen mbind list_bind] in *. rewrite !app_nil_r. split; [intros fuel evs _; by rewrite app_nil_r|].
    split; [split; [constructor|done]|]. done.
  - apply Forall_cons in Hw as [Hw1 Hw]. change (seen (ev :: arrivals)) with (seen1 ev ++ seen arrivals) in *.
    assert (Forall (on_time_at wsl T) (seen1 ev) ∧ on_time wsl ((T ++ seen1 ev) ++ seen arrivals)) as [Hx1 Hx2].
    { destruct ev as [[iht|] w]; cbn [seen1] in *; [destruct (BitArrayBitIsSet w q)|]; cbn [app] in Hx.
      - apply on_time_app in Hx as [? ?]. split; [by constructor|done].
      - rewrite app_nil_r. by split.
      - rewrite app_nil_r. by split. }
    destruct (round_ok a T E rdone hts ev R Htold Hw1 Hx1) as (n1 & a1 & E1 & outs1 & rdone1 & Er1 & [R1 (hts1 & Hf1 & Ht1) _ _]).
    destruct (IH a1 (T ++ seen1 ev) E1 rdone1 (hts ++ hts1) R1 Ht1 Hw Hx2) as (n2 & a2 & E2 & outs2 & rdone2 & hts2 & Er2 & Hf2 & R2 & Ht2).
    exists (Nat.max n1 n2), a2, E2, ((passed_on ev ++ outs1) ++ outs2), rdone2, (hts1 ++ hts2). rewrite <- app_assoc in R2, Ht2.
    split; [|split; [|split; [done|by rewrite <- app_assoc in Ht2]]].
    + intros fuel evs Hfuel. cbn [rounds]. destruct ev as [arrival w]. specialize (Er1 fuel evs ltac:(lia)). unfold one_round in Er1.
      assert ((match arrival with Some t => send_to_queries fuel cfg (moved a evs) t w | None => checkSlideTimeout fuel cfg (moved a evs) w end)
        = Ok (moved a1 (evs ++ passed_on (arrival, w) ++ outs1))) as -> by (by destruct arrival).
      cbn [cbind]. rewrite Er2 by lia. by rewrite !app_assoc.
    + change (ev :: arrivals) with ([ev] ++ arrivals). apply answered_app; [|done].
      apply (answered_app _ _ [ev] [] [] hts1); [by apply passed_answered|by apply results_answered].
Qed.

(** Rounds without tuples, until the clock is before the next slide. *)
Lemma catch_up w T E (Hw : wf 128 w) : ∀ n a rdone hts, (Z.to_nat (clock_of wsl T + 1 - next_slide_time (clock a)) ≤ n)%nat → at_rest a T E rdone →
  told a T rdone hts →
  ∃ m n a' outs rdone' hts', (∀ fuel evs, (n ≤ fuel)%nat → rounds fuel cfg (moved a evs) (replicate m (None, w)) = Ok (moved a' (evs ++ outs)))
    ∧ answered outs (replicate m (None, w)) hts' ∧ at_rest a' T E rdone' ∧ told a' T rdone' (hts ++ hts') ∧ clock_of wsl T < next_slide_time (clock a').
Proof.
  induction n as [|n IH]; intros a rdone hts Hn R Htold; (destruct (Z_lt_le_dec (clock_of wsl T) (next_slide_time (clock a))) as [Hlt|Hle];
    [exists 0%nat, 0%nat, a, [], rdone, []; split; [intros fuel evs _; by rewrite app_nil_r|]; rewrite app_nil_r; split; [split; [constructor|done]|done]|]); [lia|].
  destruct (settle_rest a T E rdone hts w R Htold Hw) as (n1 & a1 & outs1 & rdone1 & E1 & [R1 (hts1 & Hf1 & Ht1) _ Hs1]). specialize (Hs1 Hle).
  destruct (IH a1 rdone1 (hts ++ hts1)) as (m & n2 & a2 & outs2 & rdone2 & hts2 & E2 & Hf2 & R2 & Ht2 & Hlt); [lia|done|done|].
  exists (Datatypes.S m), (Nat.max n1 n2), a2, (outs1 ++ outs2), rdone2, (hts1 ++ hts2). split; [|split; [|split; [done|]]].
  - intros fuel evs Hfuel. cbn [replicate rounds]. rewrite checkSlideTimeout_drain, E1 by (done || lia). cbn [cbind]. rewrite E2 by lia. by rewrite app_assoc.
  - change (replicate (Datatypes.S m) (None, w)) with ([(None, w)] ++ replicate m (@None (IHT HT), w)). apply answered_app; [|done].
    apply (answered_app [] outs1 [(None, w)] [] [] hts1); [by apply (passed_answered (None, w))|by apply results_answered].
  - rewrite <- app_assoc in Ht2. by split.
Qed.
End thm.
End FAggThm.
