(* ===== verification/FAggAnswer.v ===== *)
(** * Windowed aggregates: the operator from its start

    The theorems: what the operator has sent after any tuples on time, that it
    catches up with the clock, that over a single stream it answers the windows one
    by one with the tuples they hold, and how a tuple that is late ends it. *)

From Stdlib Require Import Sorting.Sorted.
From S2P Require Import Prelude BitArray GSFilter Eddy EddyLoop EddySpec EddyGSF Window WindowSpec FAgg FAggEddy FAggLists FAggSpec FAggStep FAggThm.

Module FAggAnswer.
Import Bit Eddy EddyLoop EddySpec Window WindowSpec FAgg FAggEddy FAggLists FAggSpec FAggStep FAggThm.
#[local] Opaque bits_of below.
Local Open Scope Z_scope.

(** Two filters that take different elements. *)
Lemma filter_split_perm {A} (Q1 Q2 Q : A → Prop) `{∀ x, Decision (Q1 x)} `{∀ x, Decision (Q2 x)} `{∀ x, Decision (Q x)} (l : list A) :
  (∀ x, x ∈ l → Q1 x → Q2 x → False) → (∀ x, x ∈ l → Q x ↔ Q1 x ∨ Q2 x) → base.filter Q1 l ++ base.filter Q2 l ≡ₚ base.filter Q l.
Proof.
  induction l as [|x l IH]; intros Hdis Hq; [done|]. rewrite !filter_cons.
  specialize (IH ltac:(intros ? ?; apply Hdis; by right) ltac:(intros ? ?; apply Hq; by right)). pose proof (Hq x ltac:(by left)) as Hqx.
  pose proof (Hdis x ltac:(by left)) as Hdx. destruct (decide (Q1 x)) as [Hx1|Hx1].
  - rewrite decide_False, decide_True by tauto. cbn [app]. by rewrite IH.
  - destruct (decide (Q2 x)) as [Hx2|Hx2]; [|rewrite decide_False by tauto; exact IH]. rewrite decide_True by tauto. by rewrite <- IH, Permutation_middle.
Qed.

Section answer.
Context {F : Type} `{!Double F} `{!Truncates F} `{!Calendar} `{Hexact : !ExactDouble (F := F)}.
Context {HT P Op : Type} `{!Fjord Op HT} `{!Attributes HT} `{Henv : !FAggEnv HT P} `{Hagg : !Aggregates HT} `{Hres : !Rescans}.
Implicit Types (a : FAgg HT P) (x : HT) (T : list HT) (rdone : list Z) (w : BitArray) (ws : WindowState).
Local Abbreviation entry := (Entry (HT := HT)).

(** ** The start *)

Lemma create_windows_unseen wes : ∀ acc s l s', create_windows wes acc s = Ok (l, s') → Forall (λ ws, lastTSSeen ws = DT_NOBEGIN) acc →
  Forall (λ ws, lastTSSeen ws = DT_NOBEGIN) l.
Proof.
  induction wes as [|we wes IH]; intros acc s l s' E Hacc; cbn [create_windows] in E; [by injection E as <- _|].
  apply cbind_Ok in E as (ws & Ews & E). apply (IH _ _ _ _ E). constructor; [|done]. unfold createWindowState in Ews.
  destruct (we_slices we) as [|sl sls]; repeat (apply cbind_Ok in Ews as (? & _ & Ews)); by injection Ews as <-.
Qed.

Lemma first_changes_ok l : ∀ c : Clock, Forall ws_sane l →
  ∃ c', first_changes l c = Ok c' ∧ window_states c' = window_states c ∧ current_time c' = current_time c
    ∧ next_slide_time c' ≤ next_slide_time c ∧ last_slide_time c' ≤ last_slide_time c
    ∧ (next_slide_time c' = next_slide_time c ∨ ∃ ws, ws ∈ l ∧ next_slide_time c' = window_ends ws 1)
    ∧ (∀ ws, ws ∈ l → next_slide_time c' ≤ window_ends ws 1 ∧ last_slide_time c' ≤ startAt ws ∧ latest_slide_time c' ≠ DT_NOBEGIN).
Proof.
  induction l as [|ws l IH]; intros c Hs; cbn [first_changes].
  - exists c. do 4 (split; [done|]). split; [done|]. split; [by left|]. by intros ws ?%elem_of_nil.
  - apply Forall_cons in Hs as [Hs1 Hs]. pose proof Hs1 as [(Hm & Hr & _) [_ Hsl] Hst]. unfold windowStateGetFirstChange, ts_plus_interval.
    rewrite (pl_span_ok (startAt ws) (rangeBy ws)) by (done || lia). cbn [cbind].
    assert (startAt ws + time (rangeBy ws) = window_ends ws 1) as E1 by (unfold window_ends, wend, wbegin; lia). rewrite E1.
    set (c1 := set_times c _ _ _ _ _). destruct (IH c1 Hs) as (c' & Ec & Hw & Hc & Hn & Hl & Hor & Hall). exists c'.
    assert (next_slide_time c1 = Z.min (next_slide_time c) (window_ends ws 1)) as En1 by apply min_Z.
    assert (last_slide_time c1 = Z.min (last_slide_time c) (startAt ws)) as El1 by apply min_Z.
    split; [done|]. split; [done|]. split; [done|]. split; [lia|]. split; [lia|]. split.
    + destruct Hor as [E|(ws' & Hin & E)]; [|right; exists ws'; split; [by right|done]]. rewrite En1 in E.
      destruct (Z.min_spec (next_slide_time c) (window_ends ws 1)) as [[_ E']|[_ E']]; [left; lia|right]. exists ws. split; [by left|lia].
    + intros ws' Hin. apply elem_of_cons in Hin as [->|Hin].
      * split; [lia|]. split; [lia|]. destruct l as [|ws2 l]; [|destruct (Hall ws2 ltac:(by left)) as (_ & _ & ?); done].
        cbn [first_changes] in Ec. injection Ec as <-. cbn [latest_slide_time c1 set_times]. rewrite max_Z. unfold DT_NOBEGIN. lia.
      * destruct (Hall ws' Hin) as (? & ? & ?). split; [lia|]. by split.
Qed.

Lemma clock_start wsl : wsl ≠ [] → clock_of wsl [] = DT_NOBEGIN.
Proof.
  intros Hne. assert (∀ l, DT_NOBEGIN ≤ clock_of l []) as Hge.
  { intros l. induction l as [|ws l IH]; [done|]. cbn [clock_of foldr]. unfold clock_of in IH. change (latest_ts ws []) with DT_NOBEGIN. lia. }
  destruct wsl as [|ws wsl]; [done|]. cbn [clock_of foldr]. change (latest_ts ws []) with DT_NOBEGIN. specialize (Hge wsl). unfold clock_of in Hge. lia.
Qed.

(** Windows of a query, none with slices, and the operator they are given to. *)
Definition starts (wsl : list WindowState) (wes : list WindowExpr) (q r : nat) (plan : P) (o : IHT HT) : Prop :=
  windows_ok wsl ∧ (q < 128)%nat ∧ create_windows wes [] false = Ok (wsl, false) ∧ fresh plan ∧ (0 < r)%nat ∧ (0 < length (t_base_tuples o))%nat.

Lemma start_ok wsl wes q r plan o : starts wsl wes q r plan o →
  ∃ a, FAggAddWindowExprs (ProcessInitFAgg [q] r plan o) wes = Ok a ∧ at_rest wsl q a [] [] [] ∧ told wsl a [] [] [].
Proof.
  intros (Hok & Hq & Ecw & Hfr & Hr & Ho). pose proof Hok as (Hne & Hs & _). unfold FAggAddWindowExprs.
  cbn [state ProcessInitFAgg clock window_states]. rewrite bool_decide_true by done. cbn [cassert cbind].
  assert (wes ≠ []) as Hwes by (intros ->; cbn in Ecw; congruence). destruct wes as [|we wes]; [done|]. cbn [cassert cbind]. rewrite Ecw. cbn [cbind].
  set (c0 := set_windows _ _ _). set (c1 := set_times _ _ _ _ _ _).
  destruct (first_changes_ok wsl c1 Hs) as (c & Ec & Hw & Hc & Hn & Hl & Hor & Hall). rewrite Ec. cbn [cbind].
  assert (∃ ws, ws ∈ wsl ∧ next_slide_time c = window_ends ws 1) as (ws & Hin & En).
  { destruct Hor as [E|?]; [|done]. exfalso. destruct wsl as [|ws wsl']; [done|]. destruct (Hall ws ltac:(by left)) as (H1 & _). rewrite E in H1.
    apply Forall_cons in Hs as [[(_ & Hrg & _) [_ Hsl] Hst] _]. change (DT_NOEND ≤ window_ends ws 1) in H1.
    unfold DT_NOEND, window_ends, wend, wbegin in H1. lia. }
  destruct (Hall ws Hin) as (_ & Hlast & Hlat). rewrite Forall_forall in Hs. pose proof (Hs ws Hin) as [(_ & Hrg & _) [_ Hsl] Hst].
  assert (window_ends ws 1 = startAt ws + time (rangeBy ws)) as E1 by (unfold window_ends, wend, wbegin; lia).
  rewrite (proj2 (Z.eqb_neq (next_slide_time c) DT_NOEND)) by (unfold DT_NOEND; lia). cbn [negb cassert cbind].
  rewrite (proj2 (Z.eqb_neq (last_slide_time c) DT_NOEND)) by (unfold DT_NOEND; lia). cbn [negb cassert cbind].
  rewrite (proj2 (Z.eqb_neq (latest_slide_time c) DT_NOBEGIN)) by done. cbn [negb cassert cbind].
  eexists. split; [reflexivity|]. split; [|done]. constructor; cbn [state with_state aggPlan inputq usedByQueries with_clock]; try done.
  pose proof (create_windows_unseen _ _ _ _ _ Ecw ltac:(constructor)) as Hun. rewrite Forall_forall in Hun.
  constructor; cbn [slicedAgg clock with_state with_clock lists].
  - done.
  - rewrite Hw. cbn [window_states c1 c0 set_times set_windows]. rewrite <- (list_fmap_id wsl) at 1. apply list_fmap_ext. intros i ws' Hi. cbn.
    apply list_elem_of_lookup_2 in Hi. specialize (Hun ws' Hi). destruct ws'. cbn in *. by subst.
  - rewrite Hc, clock_start by done. done.
  - constructor; [constructor| |by exists ws, 1]. intros t. split; [by intros ?%elem_of_nil|]. intros [(ws' & k & Hin' & Hk & ->) Hlt].
    destruct (Hall ws' Hin') as (Hle & _). pose proof (ends_le ws' 1 k (Hs ws' Hin')). lia.
  - lia.
  - by intros t ?%elem_of_nil.
  - constructor; [done|by intros e ?%elem_of_nil|constructor].
  - apply rep_empty.
Qed.

(** ** The live tuples of a slide *)

Lemma live_between wsl x t u v : windows_ok wsl → fits wsl x → live_at wsl t x → live_at wsl v x → t ≤ u ≤ v → live_at wsl u x.
Proof.
  intros (Hne & Hs & _) Hf Ht Hv Hu. destruct (lifetime_spec wsl x Hne Hs Hf) as (b & d & _ & [[_ Hno]|(_ & (_ & _ & Hl) & _)]).
  - by destruct (Hno t).
  - apply Hl in Ht, Hv. apply Hl. lia.
Qed.

Lemma born_order_perm wsl rdone next T : windows_ok wsl → Forall (fits wsl) T → slides wsl rdone next →
  born_order wsl rdone T ≡ₚ base.filter (λ x, Exists (λ t, live_at wsl t x) rdone) T.
Proof.
  intros Hok Hf. rewrite Forall_forall in Hf. revert next. induction rdone as [|t rest IH]; intros next Hsl; cbn [born_order].
  - symmetry. clear Hf. induction T as [|x T IHT]; [done|]. rewrite filter_cons, decide_False; [done|]. by intros ?%Exists_nil.
  - pose proof (slides_tail _ _ _ _ Hsl) as Hsl'. rewrite (IH t Hsl'). apply filter_split_perm.
    + intros x Hx Hex [Hlt Hn]. apply Exists_exists in Hex as (u & Hu & Hlu). destruct rest as [|t0 rest]; [by apply elem_of_nil in Hu|]. cbn [head] in Hn.
      apply Hn, (live_between wsl x u t0 t Hok (Hf x Hx) Hlu Hlt). split; [by apply (sorted_head rest), Hu; apply (sl_sorted _ _ _ Hsl')|].
      destruct (proj1 (sl_done _ _ _ Hsl' t0)) as [_ ?]; [by left|lia].
    + intros x Hx. rewrite Exists_cons. unfold born_now. destruct rest as [|t0 rest]; cbn [head]; [tauto|].
      destruct (decide (live_at wsl t0 x)) as [Hl|Hl]; [|tauto]. split; [|tauto]. intros _. left. by left.
Qed.

(** The live tuples of a slide are those in the current window of every stream. *)
Lemma live_tuples_current wsl t rest next T : windows_ok wsl → Forall (fits wsl) T → slides wsl (t :: rest) next →
  live_tuples wsl (t :: rest) T ≡ₚ base.filter (live_at wsl t) T.
Proof.
  intros Hok Hf Hsl. unfold live_tuples. rewrite (born_order_perm wsl (t :: rest) next T Hok Hf Hsl). erewrite filter_both; [done|].
  intros x _. split; [by intros [? _]|]. intros ?. split; [done|by left].
Qed.

Lemma slides_suffix wsl r1 t r2 next : slides wsl (r1 ++ t :: r2) next → ∃ next', slides wsl (t :: r2) next'.
Proof. revert next. induction r1 as [|u r1 IH]; intros next Hsl; [by exists next|]. apply (IH u). by apply (slides_tail wsl u (r1 ++ t :: r2) next). Qed.

(** ** The theorems *)

(** An eddy whose module [k], and no other, is to be an FAgg. *)
Local Abbreviation eddy := (EddyState (module HT P Op) HT F).
Definition no_other_FAgg (st0 : EddyState (module HT P Op) HT F) (k : nat) : Prop :=
  (k < numModules st0)%nat ∧ ∀ i m, modules st0 !! i = Some (Some m) → i ≠ k → isFAgg m = false.

Lemma modules_out_moved (st0 : eddy) k (a : FAgg HT P) evs :
  out (moved st0 k a evs) = out st0 ++ evs ∧ ∀ i, i ≠ k → modules (moved st0 k a evs) !! i = modules st0 !! i.
Proof.
  split; [apply out_moved|]. intros i Hi. rewrite moved_modules. apply list_lookup_insert_ne. by intros ->.
Qed.

Context (cfg : config F) (Hcfg : UseSuppressOutput cfg = false).

Lemma caught_up wsl wes q r plan o (st0 : eddy) k (arrivals : list (option (IHT HT) * BitArray)) w :
  starts wsl wes q r plan o → no_other_FAgg st0 k → Forall (λ ev, wf 128 ev.2) arrivals → on_time wsl (seen q arrivals) → wf 128 w →
  ∀ a, at_rest wsl q a [] [] [] → told wsl a [] [] [] →
  ∃ m n evs a' E rdone hts,
    (∀ fuel, (n ≤ fuel)%nat → rounds fuel cfg (put_module st0 k (AnFAgg a)) (arrivals ++ replicate m (None, w)) = Ok (moved st0 k a' evs))
    ∧ answered q evs (arrivals ++ replicate m (None, w)) hts ∧ at_rest wsl q a' (seen q arrivals) E rdone ∧ told wsl a' (seen q arrivals) rdone hts
    ∧ clock_of wsl (seen q arrivals) < next_slide_time (clock a').
Proof.
  intros (Hok & Hq & _) [Hk Hothers] Hw Hx Hww a R Ht.
  destruct (rounds_ok wsl Hok q Hq cfg Hcfg st0 k Hk Hothers arrivals a [] [] [] [] R Ht Hw Hx) as (n1 & a1 & E1 & evs1 & rdone1 & hts1 & Er1 & Hf1 & R1 & Ht1).
  cbn [app] in R1, Ht1.
  destruct (catch_up wsl Hok q Hq cfg Hcfg st0 k Hk Hothers w (seen q arrivals) E1 Hww _ a1 rdone1 hts1 (le_n _) R1 Ht1)
    as (m & n2 & a2 & evs2 & rdone2 & hts2 & Er2 & Hf2 & R2 & Ht2 & Hlt).
  exists m, (Nat.max n1 n2), (evs1 ++ evs2), a2, E1, rdone2, (hts1 ++ hts2). split; [|split; [by apply answered_app|done]].
  intros fuel Hfuel. specialize (Er1 fuel [] ltac:(lia)). change (moved st0 k a []) with (put_module st0 k (AnFAgg (O := Op) a)) in Er1.
  rewrite rounds_app, Er1. cbn [cbind app]. by rewrite Er2 by lia.
Qed.

(** C6: at any time the operator has sent the answers to the slides so far.  Let an
    eddy with one FAgg, of windows without slices, serve any arrivals, of which those
    for its query are on time, and timeouts between them, in any order: every round
    ends, nothing fails, and the query has been sent [answers] for the window ends
    below some [next], all of which the clock has reached: for each, in order of
    time, the results of the plan on the tuples live there, and the punctuation with
    the time of the next.  The tuples live at a slide are those that lie in the
    current window of every stream.  The other queries are sent just the tuples that
    were for them, and the other operators are not touched.

    With several streams their windows have to overlap ([windows_ok], part of
    [starts]): window 0 of each ends no later than window 1 of each other.  Other
    windows, as with one START AT and slides of 1 s but ranges of 60 s and 5 s, fail
    the assertion of [windowStateGetNextSlide] at the first slide. *)
Theorem aggregates_answer_windows wsl wes q r plan o (st0 : EddyState (module HT P Op) HT F) k (arrivals : list (option (IHT HT) * BitArray)) :
  starts wsl wes q r plan o → no_other_FAgg st0 k → Forall (λ ev, wf 128 ev.2) arrivals → on_time wsl (seen q arrivals) →
  ∃ a n st evs rdone next hts,
    FAggAddWindowExprs (ProcessInitFAgg [q] r plan o) wes = Ok a
    ∧ (∀ fuel, (n ≤ fuel)%nat → rounds fuel cfg (put_module st0 k (AnFAgg a)) arrivals = Ok st)
    ∧ out st = out st0 ++ evs ∧ (∀ i, i ≠ k → modules st !! i = modules st0 !! i)
    ∧ slides wsl rdone next ∧ (∀ t, t ∈ rdone → t ≤ clock_of wsl (seen q arrivals))
    ∧ (∀ r1 t r2, rdone = r1 ++ t :: r2 → live_tuples wsl (t :: r2) (seen q arrivals) ≡ₚ base.filter (live_at wsl t) (seen q arrivals))
    ∧ hts = (answers wsl rdone next (seen q arrivals)).1
    ∧ Forall2 (λ b ht, b !! 0%nat = Some (Some ht)) (delivered q evs) hts
    ∧ ∀ q', q' ≠ q → delivered q' evs = passed q' arrivals.
Proof.
  intros Hst Heddy Hw Hx. destruct (start_ok wsl wes q r plan o Hst) as (a & Ea & R & Ht). destruct Hst as (Hok & Hq & _). pose proof Heddy as [Hk Hothers].
  destruct (rounds_ok wsl Hok q Hq cfg Hcfg st0 k Hk Hothers arrivals a [] [] [] [] R Ht Hw Hx) as (n & a' & E' & evs & rdone & hts & E & [Hf Hp] & R' & Ht').
  exists a, n, (moved st0 k a' evs), evs, rdone, (next_slide_time (clock a')), hts. split; [done|]. split; [intros fuel Hfuel; by apply (E fuel [])|].
  destruct (modules_out_moved st0 k a' evs) as [Eo Em]. split; [done|]. split; [done|].
  pose proof (ar_core _ _ _ _ _ _ R') as C. pose proof (c_slides _ _ _ _ _ C) as Hsl. split; [done|]. split; [|split; [|split; [|done]]].
  - pose proof (c_cur _ _ _ _ _ C) as Hcur. cbn [app] in Hcur. rewrite <- Hcur. apply (c_done _ _ _ _ _ C).
  - intros r1 t r2 Er. rewrite Er in Hsl. destruct (slides_suffix _ _ _ _ _ Hsl) as [next' Hsl'].
    apply (live_tuples_current wsl t r2 next'); [done|apply Hx|done].
  - unfold told in Ht'. cbn [app] in Ht'. by rewrite Ht'.
Qed.

(** C14: the operator catches up with the clock.  After any arrivals, those for the
    query of the aggregates on time, a number of timeouts brings the answers to every
    window end that the clock has reached.  As above, window 0 of each stream has to
    end no later than window 1 of each other. *)
Theorem aggregates_catch_up wsl wes q r plan o (st0 : EddyState (module HT P Op) HT F) k (arrivals : list (option (IHT HT) * BitArray)) w :
  starts wsl wes q r plan o → no_other_FAgg st0 k → Forall (λ ev, wf 128 ev.2) arrivals → on_time wsl (seen q arrivals) → wf 128 w →
  ∃ a m n st evs rdone next hts,
    FAggAddWindowExprs (ProcessInitFAgg [q] r plan o) wes = Ok a
    ∧ (∀ fuel, (n ≤ fuel)%nat → rounds fuel cfg (put_module st0 k (AnFAgg a)) (arrivals ++ replicate m (None, w)) = Ok st)
    ∧ out st = out st0 ++ evs
    ∧ slides wsl rdone next ∧ (∀ t, slide_time wsl t → t ∈ rdone ↔ t ≤ clock_of wsl (seen q arrivals))
    ∧ hts = (answers wsl rdone next (seen q arrivals)).1
    ∧ Forall2 (λ b ht, b !! 0%nat = Some (Some ht)) (delivered q evs) hts.
Proof.
  intros Hst Heddy Hw Hx Hww. destruct (start_ok wsl wes q r plan o Hst) as (a & Ea & R & Ht).
  destruct (caught_up wsl wes q r plan o st0 k arrivals w Hst Heddy Hw Hx Hww a R Ht) as (m & n & evs & a' & E' & rdone & hts & E & [Hf _] & R' & Ht' & Hlt).
  exists a, m, n, (moved st0 k a' evs), evs, rdone, (next_slide_time (clock a')), hts. split; [done|]. split; [exact E|].
  split; [apply modules_out_moved|]. pose proof (ar_core _ _ _ _ _ _ R') as C. pose proof (c_slides _ _ _ _ _ C) as Hsl. split; [done|]. split; [|split; [|done]].
  - intros t Hts. split.
    + intros Hin. rewrite <- (c_cur _ _ _ _ _ C). by apply (c_done _ _ _ _ _ C).
    + intros Hle. apply (sl_done _ _ _ Hsl). split; [done|lia].
  - unfold told in Ht'. by rewrite Ht'.
Qed.
End answer.
End FAggAnswer.
