(* ===== verification/FAggStream.v ===== *)
(** * Windowed aggregates over one stream

    With one stream whose tuples arrive in the order of their timestamps the answers
    are those of the windows 1, 2, 3 and so on, each for all tuples in the window, in
    the order in which they came. *)

From Stdlib Require Import Sorting.Sorted.
From S2P Require Import Prelude BitArray GSFilter Eddy EddyLoop EddySpec EddyGSF Window WindowSpec FAgg FAggEddy FAggLists FAggSpec FAggStep FAggThm FAggAnswer.

Module FAggStream.
Import Bit Eddy EddyLoop EddySpec Window WindowSpec FAgg FAggEddy FAggLists FAggSpec FAggStep FAggThm FAggAnswer.
#[local] Opaque bits_of below.
Local Open Scope Z_scope.

(** Two filters on a list in which the ones come before the others. *)
Lemma filter_merge {A} (R : A → A → Prop) (Q1 Q2 Q : A → Prop) `{∀ x, Decision (Q1 x)} `{∀ x, Decision (Q2 x)} `{∀ x, Decision (Q x)} (l : list A) :
  StronglySorted R l → (∀ x y, R x y → Q2 x → Q1 y → False) → (∀ x, Q1 x → Q2 x → False) → (∀ x, Q x ↔ Q1 x ∨ Q2 x) →
  base.filter Q1 l ++ base.filter Q2 l = base.filter Q l.
Proof.
  intros Hs Hord Hdis Hq. induction Hs as [|x l Hs IH Hall]; [done|]. rewrite !filter_cons. pose proof (Hq x) as Hqx. pose proof (Hdis x) as Hdx.
  destruct (decide (Q1 x)) as [Hx1|Hx1].
  - rewrite decide_False, decide_True by tauto. cbn [app]. by rewrite IH.
  - destruct (decide (Q2 x)) as [Hx2|Hx2]; [|rewrite decide_False by tauto; exact IH]. rewrite decide_True by tauto. rewrite <- IH.
    assert (base.filter Q1 l = []) as ->; [|done]. clear IH Hs. induction Hall as [|y l Hy Hall IH2]; [done|].
    rewrite filter_cons, decide_False; [done|]. intros Hy1. by apply (Hord x y).
Qed.

Section stream.
Context {F : Type} `{!Double F} `{!Truncates F} `{!Calendar} `{Hexact : !ExactDouble (F := F)}.
Context {HT P Op : Type} `{!Fjord Op HT} `{!Attributes HT} `{Henv : !FAggEnv HT P} `{Hagg : !Aggregates HT} `{Hres : !Rescans}.
Implicit Types (x : HT) (T : list HT) (rdone : list Z) (w : BitArray) (ws : WindowState) (k : nat).

Definition window_tuples ws k T : list HT := base.filter (λ x, window_has ws (Z.of_nat k) (ts_of ws x)) T.

(** The answers to the first [k] windows. *)
Fixpoint window_answers ws k T : list HT * option TupleDesc :=
  match k with
  | O => ([], None)
  | S k' =>
      let '(o1, td1) := window_answers ws k' T in
      let '(o2, td2) := slide_results td1 (window_ends ws (Z.of_nat k + 1)) (aggregates (window_ends ws (Z.of_nat k)) (window_tuples ws k T)) in
      (o1 ++ o2, td2)
  end.

(** The ends of the windows from [k] down. *)
Fixpoint ends_down ws k : list Z := match k with O => [] | S k' => window_ends ws (Z.of_nat k) :: ends_down ws k' end.

Definition in_time ws T : Prop := StronglySorted (λ x y, ts_of ws x ≤ ts_of ws y) T.

Lemma one_slide_time ws t : slide_time [ws] t ↔ ∃ k, t = window_ends ws (Z.of_nat (S k)).
Proof.
  split.
  - intros (ws' & k & ->%list_elem_of_singleton & Hk & ->). exists (Z.to_nat (k - 1)). f_equal. lia.
  - intros (k & ->). exists ws, (Z.of_nat (S k)). split; [by apply list_elem_of_singleton|]. split; [lia|done].
Qed.

Lemma one_slides ws rdone next : ws_sane ws → slides [ws] rdone next → ∃ k, rdone = ends_down ws k ∧ next = window_ends ws (Z.of_nat (S k)).
Proof.
  intros Hs. revert next. induction rdone as [|t rest IH]; intros next Hsl.
  - exists 0%nat. split; [done|]. destruct (proj1 (one_slide_time ws next) (sl_next _ _ _ Hsl)) as (k & E).
    assert (slide_time [ws] (window_ends ws (Z.of_nat 1))) as H1 by (apply one_slide_time; by exists 0%nat).
    pose proof (first_slide [ws] next _ Hsl H1) as Hle. rewrite E in Hle. apply ends_le in Hle; [|done]. rewrite E. f_equal. lia.
  - destruct (IH t (slides_tail _ _ _ _ Hsl)) as (k & Er & Et). exists (S k). split; [cbn [ends_down]; by rewrite Er, Et|].
    destruct (proj1 (one_slide_time ws next) (sl_next _ _ _ Hsl)) as (j & E).
    assert (slide_time [ws] (window_ends ws (Z.of_nat (S (S k))))) as H1 by (apply one_slide_time; by exists (S k)).
    assert (t < window_ends ws (Z.of_nat (S (S k)))) as Hlt by (rewrite Et; apply ends_lt; [done|lia]).
    pose proof (no_slide_between [ws] t rest next _ Hsl H1 Hlt) as Hle. rewrite E in Hle. apply ends_le in Hle; [|done].
    destruct (proj1 (sl_done _ _ _ Hsl t)) as [_ Htn]; [by left|]. rewrite E, Et in Htn. apply ends_lt in Htn; [|done]. rewrite E. f_equal. lia.
Qed.

(** ** The live tuples are those of the window *)

Lemma one_live ws k x : ws_sane ws → live_at [ws] (window_ends ws (Z.of_nat (S k))) x ↔ window_has ws (Z.of_nat (S k)) (ts_of ws x).
Proof.
  intros Hs. unfold live_at. rewrite Forall_singleton. unfold live_in. rewrite window_at_end by done. split; [by intros [_ ?]|intros ?; split; [lia|done]].
Qed.

(** In one of the first [k] windows. *)
Definition in_first ws k x : Prop := Exists (λ j, window_has ws (Z.of_nat j) (ts_of ws x)) (seq 1 k).
#[local] Instance in_first_dec ws k x : Decision (in_first ws k x).
Proof. unfold in_first. apply _. Defined.

Lemma in_first_S ws k x : in_first ws (S k) x ↔ in_first ws k x ∨ window_has ws (Z.of_nat (S k)) (ts_of ws x).
Proof. unfold in_first. rewrite seq_S, Exists_app, Exists_cons, Exists_nil. cbn [Nat.add]. tauto. Qed.

Lemma born_now_one ws k x : ws_sane ws → born_now [ws] (window_ends ws (Z.of_nat (S k))) (ends_down ws k) x ↔
  window_has ws (Z.of_nat (S k)) (ts_of ws x) ∧ (k = 0%nat ∨ ¬ window_has ws (Z.of_nat k) (ts_of ws x)).
Proof.
  intros Hs. unfold born_now. rewrite one_live by done. destruct k as [|k]; cbn [ends_down head]; [tauto|]. rewrite one_live by done.
  split; [tauto|]. intros [? [?|?]]; [done|tauto].
Qed.

(** A tuple new at a window is not before one of an earlier window. *)
Lemma new_is_later ws k x y : ws_sane ws → born_now [ws] (window_ends ws (Z.of_nat (S k))) (ends_down ws k) x → in_first ws k y →
  ts_of ws y < ts_of ws x.
Proof.
  intros Hs [Hx Hor]%born_now_one Hy; [|done]. apply Exists_exists in Hy as (j & Hj%elem_of_seq & Hjy). destruct Hor as [->|Hnot]; [lia|].
  destruct Hjy as [_ Hy]. destruct Hx as [Hx _]. fold (window_ends ws (Z.of_nat j)) in Hy.
  pose proof (ends_le ws (Z.of_nat j) (Z.of_nat k) Hs). destruct (Z_lt_le_dec (ts_of ws x) (window_ends ws (Z.of_nat k))) as [Hlt|]; [|lia].
  exfalso. apply Hnot. split; [|exact Hlt]. unfold wbegin in *. destruct Hs as [_ [_ Hsl] _]. nia.
Qed.

Lemma born_order_one ws k T : ws_sane ws → in_time ws T → born_order [ws] (ends_down ws k) T = base.filter (in_first ws k) T.
Proof.
  intros Hs Ht. induction k as [|k IH].
  - cbn [ends_down born_order]. symmetry. clear Ht. induction T as [|x T IHT]; [done|]. rewrite filter_cons, decide_False; [done|]. by intros ?%Exists_nil.
  - cbn [ends_down born_order]. rewrite IH. apply (filter_merge (λ x y, ts_of ws x ≤ ts_of ws y)); [done| | |].
    + intros x y Hxy Hx Hy. pose proof (new_is_later ws k x y Hs Hx Hy). lia.
    + intros x Hx1 Hx2. pose proof (new_is_later ws k x x Hs Hx2 Hx1). lia.
    + intros x. rewrite in_first_S, born_now_one by done. split; [|tauto]. intros [?|Hx]; [by left|]. destruct k as [|k]; [right; split; [done|by left]|].
      destruct (decide (window_has ws (Z.of_nat (S k)) (ts_of ws x))); [left; apply in_first_S; by right|right; split; [done|by right]].
Qed.

Lemma live_tuples_one ws k T : ws_sane ws → in_time ws T → live_tuples [ws] (ends_down ws (S k)) T = window_tuples ws (S k) T.
Proof.
  intros Hs Ht. unfold live_tuples. rewrite (born_order_one ws (S k) T Hs Ht). cbn [ends_down]. unfold window_tuples. apply filter_both.
  intros x _. rewrite one_live by done. split; [by intros [? _]|]. intros ?. split; [done|]. apply in_first_S. by right.
Qed.

Lemma answers_one ws k T : ws_sane ws → in_time ws T → answers [ws] (ends_down ws k) (window_ends ws (Z.of_nat (S k))) T = window_answers ws k T.
Proof.
  intros Hs Ht. induction k as [|k IH]; [done|]. cbn [ends_down answers window_answers]. rewrite IH. destruct (window_answers ws k T) as [o1 td1].
  change (window_ends ws (Z.of_nat (S k)) :: ends_down ws k) with (ends_down ws (S k)). rewrite live_tuples_one by done.
  by replace (Z.of_nat (S (S k))) with (Z.of_nat (S k) + 1) by lia.
Qed.

Lemma latest_sorted ws T1 x T2 : in_time ws (T1 ++ x :: T2) → DT_NOBEGIN ≤ ts_of ws x → latest_ts ws T1 ≤ ts_of ws x.
Proof.
  intros Hs Hx. destruct (latest_in ws T1) as [->|(y & Hy & ->)]; [done|]. apply list_elem_of_split in Hy as (T3 & T4 & ->).
  rewrite <- app_assoc in Hs. cbn [app] in Hs. unfold in_time in Hs. induction T3 as [|z T3 IH]; cbn [app] in Hs.
  - apply StronglySorted_inv in Hs as [_ Hall]. rewrite Forall_forall in Hall. apply Hall, elem_of_app. right. by left.
  - apply IH. by apply StronglySorted_inv in Hs as [? _].
Qed.

Lemma in_time_on_time ws T : Forall (fits [ws]) T → in_time ws T → on_time [ws] T.
Proof.
  intros Hf Hs. split; [done|]. intros T1 x T2 ->. constructor. cbn [clock_of foldr].
  assert (DT_NOBEGIN ≤ ts_of ws x) as Hx.
  { apply Forall_app in Hf as [_ Hf]. apply Forall_cons in Hf as [Hf _]. apply Forall_cons in Hf as [[_ [Hw _]] _]. unfold DT_NOBEGIN. lia. }
  pose proof (latest_sorted ws T1 x T2 Hs Hx). lia.
Qed.

Context (cfg : config F) (Hcfg : UseSuppressOutput cfg = false).

(** C4: over one stream every window is answered once, in order, with all its tuples.
    Let the tuples of a stream come to the eddy in the order of their timestamps,
    within reach of the windows of the FAgg.  After some timeouts the query has been
    sent, for each window 1, 2, ..., k that ends at the latest timestamp or before,
    the results of the aggregation plan on exactly the tuples with
    begin <= timestamp < end, in the order they came, followed, once there has been
    any result, by a punctuation with the end of the next window; and nothing
    else. *)
Theorem stream_windows_aggregated ws wes q r plan o (st0 : EddyState (module HT P Op) HT F) i (arrivals : list (option (IHT HT) * BitArray)) w :
  starts [ws] wes q r plan o → no_other_FAgg st0 i → Forall (λ ev, wf 128 ev.2) arrivals → wf 128 w →
  Forall (fits [ws]) (seen q arrivals) → in_time ws (seen q arrivals) →
  ∃ a m n k st evs,
    FAggAddWindowExprs (ProcessInitFAgg [q] r plan o) wes = Ok a
    ∧ (∀ fuel, (n ≤ fuel)%nat → rounds fuel cfg (put_module st0 i (AnFAgg a)) (arrivals ++ replicate m (None, w)) = Ok st)
    ∧ out st = out st0 ++ evs
    ∧ (∀ j, (1 ≤ j)%nat → window_ends ws (Z.of_nat j) ≤ latest_ts ws (seen q arrivals) ↔ (j ≤ k)%nat)
    ∧ Forall2 (λ b ht, b !! 0%nat = Some (Some ht)) (delivered q evs) (window_answers ws k (seen q arrivals)).1.
Proof.
  intros Hst Heddy Hw Hww Hfit Ht. pose proof Hst as ((_ & Hs & _) & _). apply Forall_cons in Hs as [Hs _].
  destruct (start_ok [ws] wes q r plan o Hst) as (a & Ea & R & Htold).
  destruct (caught_up cfg Hcfg [ws] wes q r plan o st0 i arrivals w Hst Heddy Hw (in_time_on_time _ _ Hfit Ht) Hww a R Htold)
    as (m & n & evs & a' & E' & rdone & hts & E & [Hf _] & R' & Ht' & Hlt).
  pose proof (ar_core _ _ _ _ _ _ R') as C. pose proof (c_slides _ _ _ _ _ C) as Hsl. destruct (one_slides ws _ _ Hs Hsl) as (k & Er & En).
  exists a, m, n, k, (moved st0 i a' evs), evs. split; [done|]. split; [exact E|]. split; [apply modules_out_moved|].
  assert (clock_of [ws] (seen q arrivals) = latest_ts ws (seen q arrivals)) as Ec.
  { cbn [clock_of foldr]. pose proof (clock_finite [ws] (seen q arrivals) ltac:(done) Hfit) as Hfin. cbn [clock_of foldr] in Hfin.
    assert (latest_ts ws (seen q arrivals) < DT_NOEND) by lia. lia. }
  rewrite Ec in Hlt. split.
  - intros j Hj. rewrite En in Hlt. split.
    + intros Hle. assert (window_ends ws (Z.of_nat j) < window_ends ws (Z.of_nat (S k))) as Hjk by lia. apply ends_lt in Hjk; [lia|done].
    + intros Hjk. assert (window_ends ws (Z.of_nat j) ∈ rdone) as Hin.
      { apply (sl_done _ _ _ Hsl). split; [apply one_slide_time; exists (j - 1)%nat; f_equal; lia|]. rewrite En. apply ends_lt; [done|lia]. }
      apply (c_done _ _ _ _ _ C) in Hin. rewrite (c_cur _ _ _ _ _ C), Ec in Hin. done.
  - unfold told in Ht'. rewrite En, Er, (answers_one ws k _ Hs Ht) in Ht'. rewrite Ht'. exact Hf.
Qed.
End stream.
End FAggStream.
