(* ===== verification/FAggLate.v ===== *)
(** * Windowed aggregates: a late tuple

    The comment at the head of [nodeFAgg.c] has a tuple that is already live put
    into the list of live tuples; the code puts it into an activation group all the
    same, for a time that has passed.  At the next slide the group is found to be too
    early. *)

From S2P Require Import Prelude BitArray GSFilter Eddy EddyLoop EddySpec EddyGSF Window WindowSpec FAgg FAggEddy FAggLists FAggSpec FAggStep FAggThm FAggAnswer FAggStream.

Module FAggLate.
Import Bit Eddy EddyLoop EddySpec Window WindowSpec FAgg FAggEddy FAggLists FAggSpec FAggStep FAggThm FAggAnswer FAggStream.
Local Open Scope Z_scope.

Section late.
Context {F : Type} `{!Double F} `{!Truncates F} `{!Calendar} `{Hexact : !ExactDouble (F := F)}.
Context {HT P Op : Type} `{!Fjord Op HT} `{!Attributes HT} `{Henv : !FAggEnv HT P} `{Hagg : !Aggregates HT} `{Hres : !Rescans}.
Implicit Types (a : FAgg HT P) (x : HT) (T : list HT) (w : BitArray) (ws : WindowState).
Local Abbreviation entry := (Entry (HT := HT)).

(** An operator that reads, with whatever entries it has been given. *)
Record reads wsl q a T (W L : list entry) : Prop := {
  rs_mode : slicedAgg a = false;
  rs_state : state a = FAS_READING;
  rs_room : (0 < room a)%nat;
  rs_inputq : inputq a = [];
  rs_outputq : outputq a = [];
  rs_used : usedByQueries a = [q];
  rs_windows : window_states (clock a) = (λ ws, with_last_seen ws (latest_ts ws T)) <$> wsl;
  rs_cur : current_time (clock a) = clock_of wsl T;
  rs_rep : rep (lists a) W L
}.

Lemma at_rest_reads wsl q a T E rdone : at_rest wsl q a T E rdone →
  reads wsl q a T (waiting_entries (last_slide_time (clock a)) E) (live_entries rdone E).
Proof. intros [[C1 C2 C3 C4 C5 C6 C7 C8] Hst Hfr [R1 R2 R3 R4] Hi Hu]. by constructor. Qed.

(** A tuple is added, late or not. *)
Lemma add_any wsl q a T W L iht : windows_ok wsl → reads wsl q a T W L → Forall (fits wsl) T → fits wsl (EddyExecProject iht q) →
  let x := EddyExecProject iht q in
  ∃ a' W', ProcessNextFAgg (given a iht) = reading a' ∧ reads wsl q a' (T ++ [x]) W' L ∧ (∀ e, e ∈ W → e ∈ W')
    ∧ next_slide_time (clock a') = next_slide_time (clock a) ∧ last_slide_time (clock a') = last_slide_time (clock a)
    ∧ (live_at wsl (last_slide_time (clock a)) x → ∃ e, e ∈ W' ∧ e_birth e ≤ last_slide_time (clock a)).
Proof.
  intros Hok [R1 R2 R3 R4 R5 R6 R7 R8 R9] HfT Hf x. pose proof Hok as (Hne & Hs & _).
  unfold ProcessNextFAgg, ProcessNextFAggRangeSlide. cbn [slicedAgg given with_queues state inputq].
  rewrite R1, R2, bool_decide_true by set_solver. cbn [cassert cbind EddyGSF.dequeue_iht].
  unfold add_new_tuple_range_slide. cbn [usedByQueries given with_queues]. rewrite R6. cbn [head access cbind]. fold x.
  cbn [clock with_queues lists given]. rewrite R7, lifetime_seen. destruct (lifetime_spec wsl x Hne Hs Hf) as (b & d & -> & Hor). cbn [cbind].
  assert (∃ l W', file_tuple (lists a) x b d (last_slide_time (clock a)) = Ok l ∧ rep l W' L ∧ (∀ e, e ∈ W → e ∈ W')
    ∧ (live_at wsl (last_slide_time (clock a)) x → ∃ e, e ∈ W' ∧ e_birth e ≤ last_slide_time (clock a))) as (l & W' & -> & Rl & Hin & Hlate).
  { unfold file_tuple. destruct ((b =? DT_NOEND) || ts_geq b d) eqn:Ed.
    - exists (lists a), W. do 3 (split; [done|]). intros Hl. exfalso. destruct Hor as [[_ Hno]|(Hb & (_ & _ & Hlv) & _)]; [by apply (Hno _ Hl)|].
      apply Hlv in Hl. unfold ts_geq in Ed. apply orb_true_iff in Ed as [Ed|Ed]; [apply Z.eqb_eq in Ed; lia|apply Z.leb_le in Ed; lia].
    - destruct (ts_leq d (last_slide_time (clock a)) && _) eqn:Ed2.
      + exists (lists a), W. do 3 (split; [done|]). intros Hl. exfalso. destruct Hor as [[_ Hno]|(Hb & (_ & _ & Hlv) & _)]; [by apply (Hno _ Hl)|].
        apply Hlv in Hl. apply andb_true_iff in Ed2 as [Ed2 _]. unfold ts_leq, ts_geq in Ed2. apply Z.leb_le in Ed2. lia.
      + destruct (file_ok (lists a) W L x b d R9) as (l' & El & Rl & _ & _). exists l', (W ++ [node_for (lists a) x b d]). split; [exact El|].
        split; [done|]. split; [intros e He; apply elem_of_app; by left|]. intros Hl. exists (node_for (lists a) x b d).
        split; [apply elem_of_app; right; by left|]. destruct Hor as [[_ Hno]|(Hb & (_ & _ & Hlv) & _)]; [by destruct (Hno _ Hl)|]. apply Hlv in Hl. cbn. lia. }
  cbn [cbind]. rewrite update_max_ok by done. cbn [cbind]. fold (clock_of wsl (T ++ [x])).
  pose proof (clock_finite wsl (T ++ [x]) Hne ltac:(apply Forall_app; split; [done|by constructor])) as Hfin.
  rewrite (proj2 (Z.eqb_neq _ _)) by lia. cbn [negb cassert cbind]. cbn [state with_clock with_lists with_queues given]. rewrite R2.
  eexists _, W'. split; [reflexivity|]. split; [|by repeat split]. constructor; try done.
  cbn [clock with_clock set_windows current_time]. rewrite R8, max_Z. pose proof (clock_mono wsl T x). lia.
Qed.

(** An activation group for a time that has passed stops the next slide. *)
Lemma early_group (l : Lists HT) W L t e : rep l W L → e ∈ W → e_birth e < t → first_group (activation_groups l) t = Fail AssertFail.
Proof.
  intros R He Hlt. pose proof (rp_act _ _ _ R (e_birth e)) as Ha. pose proof (rp_act_sorted _ _ _ R) as Hs.
  assert (with_time e_birth W (e_birth e) ≠ []) as Hne.
  { intros Hn. assert (e ∈ with_time e_birth W (e_birth e)) as Hin by (by apply list_elem_of_filter). rewrite Hn in Hin. by apply elem_of_nil in Hin. }
  destruct (group_at (activation_groups l) (e_birth e)) as [g|] eqn:Eg; [|done]. apply group_in in Eg.
  destruct (activation_groups l) as [|[u y] groups]; [by apply elem_of_nil in Eg|]. cbn [first_group].
  assert (u < t) as Hu.
  { cbn in Eg. apply elem_of_cons in Eg as [<-|Eg]; [done|]. apply Sorted.StronglySorted_inv in Hs as [_ Hall]. rewrite Forall_forall in Hall. specialize (Hall _ Eg). cbn in Hall. lia. }
  unfold ts_equals, ts_greater_than. rewrite (proj2 (Z.eqb_neq u t)) by lia. destruct (Z.ltb_spec t u); [lia|]. done.
Qed.

Lemma reading_stuck wsl q a T W L e : reads wsl q a T W L → e ∈ W → e_birth e < next_slide_time (clock a) → next_slide_time (clock a) ≤ clock_of wsl T →
  reading a = Fail AssertFail.
Proof.
  intros R He Hlt Hle. unfold reading, ts_geq. rewrite (rs_cur _ _ _ _ _ _ R), (proj2 (Z.leb_le _ _)) by done. unfold advance_window.
  cbn [lists with_clock clock set_times next_slide_time]. unfold advance_lists. by rewrite (early_group _ _ _ _ e (rs_rep _ _ _ _ _ _ R) He Hlt).
Qed.

Context (cfg : config F) (Hcfg : UseSuppressOutput cfg = false).

(** A tuple is handed over. *)
Lemma deliver_given (st0 : EddyState (module HT P Op) HT F) k wsl q a T W L iht w evs : no_other_FAgg st0 k → reads wsl q a T W L → BitArrayBitIsSet w q = true →
  deliverTupleToFAgg (moved st0 k a evs) iht (seq 0 (numModules (moved st0 k a evs))) w =
  let! a1 := ProcessNextFAgg (given a iht) in Ok (moved st0 k a1 evs, BitArrayClearBit w q).
Proof.
  intros [Hk Hothers] R Hb. rewrite (deliver_moved st0 k Hk Hothers a evs iht w q (rs_used _ _ _ _ _ _ R)), Hb.
  unfold fagg_enq, EddyGSF.enqueue_iht. by rewrite (rs_inputq _ _ _ _ _ _ R), decide_True by apply (rs_room _ _ _ _ _ _ R).
Qed.

(** A round that only files its tuple. *)
Lemma quiet_round (st0 : EddyState (module HT P Op) HT F) k evs wsl q a T W L iht w fuel : no_other_FAgg st0 k →
  windows_ok wsl → (q < 128)%nat → reads wsl q a T W L → Forall (fits wsl) T → fits wsl (EddyExecProject iht q) →
  BitArrayBitIsSet w q = true → clock_of wsl (T ++ [EddyExecProject iht q]) < next_slide_time (clock a) →
  ∃ a' W', send_to_queries (S fuel) cfg (moved st0 k a evs) iht w = Ok (moved st0 k a' (evs ++ [receiveTuple iht (BitArrayClearBit w q)]))
    ∧ reads wsl q a' (T ++ [EddyExecProject iht q]) W' L ∧ (∀ e, e ∈ W → e ∈ W')
    ∧ next_slide_time (clock a') = next_slide_time (clock a) ∧ last_slide_time (clock a') = last_slide_time (clock a)
    ∧ (live_at wsl (last_slide_time (clock a)) (EddyExecProject iht q) → ∃ e, e ∈ W' ∧ e_birth e ≤ last_slide_time (clock a)).
Proof.
  intros Heddy Hok Hq R HfT Hf Hb Hlt. set (x := EddyExecProject iht q) in *.
  destruct (add_any wsl q a T W L iht Hok R HfT Hf) as (a' & W' & Ep & R' & Hin & En & El & Hlate). fold x in R', Hlate. exists a', W'. split; [|done].
  unfold send_to_queries. rewrite (deliver_given st0 k wsl q a T W L iht w evs Heddy R Hb), Ep.
  assert (reading a' = Ok a') as Er.
  { unfold reading, ts_geq. rewrite (rs_cur _ _ _ _ _ _ R'), En. destruct (Z.leb_spec (next_slide_time (clock a)) (clock_of wsl (T ++ [x]))); [lia|done]. }
  rewrite Er. cbn [cbind].
  assert (ProcessNextFAgg a' = Ok a') as Epoll.
  { unfold ProcessNextFAgg, ProcessNextFAggRangeSlide. rewrite (rs_mode _ _ _ _ _ _ R'), (rs_state _ _ _ _ _ _ R'), bool_decide_true by set_solver.
    cbn [cassert cbind]. rewrite (rs_inputq _ _ _ _ _ _ R'). cbn [EddyGSF.dequeue_iht cbind].
    rewrite queues_same by (done || apply (rs_inputq _ _ _ _ _ _ R')). rewrite (rs_state _ _ _ _ _ _ R'). exact Er. }
  destruct (poll_result a' a' (rs_outputq _ _ _ _ _ _ R') Epoll) as [Hnone _]. destruct Heddy as [Hk Hothers].
  rewrite (output_moved cfg Hcfg). apply (check_none cfg st0 k Hk Hothers). apply Hnone, (rs_outputq _ _ _ _ _ _ R').
Qed.

(** C34: a tuple that is late, but not yet dead, ends the query.  Over one stream, let
    the clock be between the ends of the windows k and k+1, with the results of
    window k fetched.  A tuple of window k that only arrives now is filed under a
    birth that has passed, whatever the plan; when the next tuple lies past the end
    of window k+1, an assertion fails. *)
Theorem late_tuple_fails ws wes q r plan o (st0 : EddyState (module HT P Op) HT F) i (arrivals : list (option (IHT HT) * BitArray)) w (late next : IHT HT) (wl wn : BitArray) (k : nat) :
  let T := seen q arrivals in
  let x := EddyExecProject late q in
  let y := EddyExecProject next q in
  starts [ws] wes q r plan o → no_other_FAgg st0 i → Forall (λ ev, wf 128 ev.2) arrivals → wf 128 w → Forall (fits [ws]) T → in_time ws T →
  BitArrayBitIsSet wl q = true → BitArrayBitIsSet wn q = true → fits [ws] x → fits [ws] y →
  window_ends ws (Z.of_nat (S k)) ≤ latest_ts ws T < window_ends ws (Z.of_nat (S k) + 1) →
  window_has ws (Z.of_nat (S k)) (ts_of ws x) → window_ends ws (Z.of_nat (S k) + 1) ≤ ts_of ws y →
  ∃ a m n, FAggAddWindowExprs (ProcessInitFAgg [q] r plan o) wes = Ok a
    ∧ ∀ fuel, (n ≤ fuel)%nat →
        rounds fuel cfg (put_module st0 i (AnFAgg a)) (arrivals ++ replicate m (None, w) ++ [(Some late, wl); (Some next, wn)]) = Fail AssertFail.
Proof.
  intros T x y Hst Heddy Hw Hww Hfit Ht Hbl Hbn Hfx Hfy Hclk Hx Hy. pose proof Hst as (Hok & Hq & _). pose proof Hok as (_ & Hs & _). apply Forall_cons in Hs as [Hs _].
  destruct (start_ok [ws] wes q r plan o Hst) as (a & Ea & R & Htold).
  destruct (caught_up cfg Hcfg [ws] wes q r plan o st0 i arrivals w Hst Heddy Hw (in_time_on_time _ _ Hfit Ht) Hww a R Htold)
    as (m & n & evs & a' & E' & rdone & hts & E & _ & R' & _ & Hlt). fold T in R', Hlt.
  pose proof (ar_core _ _ _ _ _ _ R') as C. pose proof (c_slides _ _ _ _ _ C) as Hsl. destruct (one_slides ws _ _ Hs Hsl) as (j & Er & En).
  assert (∀ T', latest_ts ws T' < DT_NOEND → clock_of [ws] T' = latest_ts ws T') as Eclk by (intros T' ?; cbn [clock_of foldr]; lia).
  assert (∀ T', Forall (fits [ws]) T' → latest_ts ws T' < DT_NOEND) as Hfin.
  { intros T' Hf'. pose proof (clock_finite [ws] T' ltac:(done) Hf') as Hc. cbn [clock_of foldr] in Hc. lia. }
  rewrite Eclk in Hlt by (by apply Hfin). rewrite En in Hlt.
  assert (j = S k) as ->.
  { assert (window_ends ws (Z.of_nat (S k)) < window_ends ws (Z.of_nat (S j))) as H1 by lia. apply ends_lt in H1; [|done].
    destruct (decide (j = 0%nat)) as [->|Hj]; [lia|]. assert (window_ends ws (Z.of_nat j) ∈ rdone) as Hin.
    { apply (sl_done _ _ _ Hsl). split; [apply one_slide_time; exists (j - 1)%nat; f_equal; lia|]. rewrite En. apply ends_lt; [done|lia]. }
    apply (c_done _ _ _ _ _ C) in Hin. rewrite (c_cur _ _ _ _ _ C), Eclk in Hin by (by apply Hfin).
    assert (window_ends ws (Z.of_nat j) < window_ends ws (Z.of_nat (S k) + 1)) as H2 by lia. apply ends_lt in H2; [lia|done]. }
  assert (last_slide_time (clock a') = window_ends ws (Z.of_nat (S k))) as Elast by (pose proof (c_last _ _ _ _ _ C) as Hl; rewrite Er in Hl; exact Hl).
  replace (Z.of_nat (S (S k))) with (Z.of_nat (S k) + 1) in En, Hlt by lia.
  assert (Forall (fits [ws]) (T ++ [x])) as Hfit1 by (apply Forall_app; split; [done|by constructor]).
  assert (Forall (fits [ws]) ((T ++ [x]) ++ [y])) as Hfit2 by (apply Forall_app; split; [done|by constructor]).
  assert (clock_of [ws] (T ++ [x]) < next_slide_time (clock a')) as Hlt1.
  { rewrite Eclk by (by apply Hfin). rewrite latest_snoc, En. destruct Hx as [_ Hx]. fold (window_ends ws (Z.of_nat (S k))) in Hx. lia. }
  exists a, m, (S n). split; [done|]. intros fuel Hfuel. destruct fuel as [|fuel]; [lia|].
  destruct (quiet_round st0 i evs [ws] q a' T _ _ late wl fuel Heddy Hok Hq (at_rest_reads _ _ _ _ _ _ R') Hfit Hfx Hbl Hlt1) as (a1 & W1 & E1 & R1 & _ & En1 & El1 & Hlate).
  destruct Hlate as (e & He & Heb); [rewrite Elast; by apply one_live|]. fold x in R1.
  destruct (add_any [ws] q a1 (T ++ [x]) W1 _ next Hok R1 Hfit1 Hfy) as (a2 & W2 & Ep & R2 & Hin2 & En2 & El2 & _). fold y in R2.
  rewrite app_assoc, rounds_app, E by lia. cbn [cbind rounds]. rewrite E1. cbn [cbind]. unfold send_to_queries.
  rewrite (deliver_given st0 i [ws] q a1 _ _ _ next wn _ Heddy R1 Hbn), Ep.
  rewrite (reading_stuck [ws] q a2 _ W2 _ e R2); [done|by apply Hin2| |].
  - rewrite En2, En1, En. assert (window_ends ws (Z.of_nat (S k)) < window_ends ws (Z.of_nat (S k) + 1)) by (apply ends_lt; [done|lia]). lia.
  - rewrite En2, En1, En, Eclk by (by apply Hfin). rewrite latest_snoc. lia.
Qed.
End late.
End FAggLate.
