(* ===== verification/FAggDemo.v ===== *)
(** * Windowed aggregates: the theorems at concrete streams

    A tuple has two timestamps and a value; the plan adds the values.  The doubles
    are fractions, which meet the laws of [ExactDouble]. *)

From Stdlib Require Import QArith.QArith Sorting.Sorted.
From S2P Require Import Prelude BitArray GSFilter Eddy EddyLoop EddySpec EddyGSF Window WindowSpec FAgg FAggEddy FAggLists FAggSpec FAggStep FAggThm FAggAnswer FAggStream FAggLate.

Module FAggDemo.
Import Bit Eddy EddyLoop EddySpec Window WindowSpec FAgg FAggEddy FAggLists FAggSpec FAggStep FAggThm FAggAnswer FAggStream FAggLate.
Local Open Scope Z_scope.

(** ** Doubles *)

#[global] Instance Q_double : Double Q := {|
  d_of_Z := inject_Z; d_0_95 := 95 # 100; dadd := Qplus; dsub := Qminus; dmul := Qmult; ddiv := Qdiv;
  dlt x y := negb (Qle_bool y x); d_geq x y := Qle_bool y x; d_zero := inject_Z 0; DBL_MAX := inject_Z (2 ^ 1023)
|}.
#[global] Instance Q_truncates : Truncates Q := λ x, Z.quot (Qnum x) (Zpos (Qden x)).

#[global] Instance Q_exact : ExactDouble (F := Q).
Proof.
  constructor.
  - intros k a b _ Hb _. destruct b as [|p|p]; [lia| |lia]. unfold d_trunc, Q_truncates, dadd, ddiv, d_of_Z. cbn [Q_double].
    unfold Qdiv, Qplus, Qmult, Qinv, inject_Z. cbn [Qnum Qden]. f_equal. lia.
  - intros k a b _ Hb _. destruct b as [|p|p]; [lia| |lia]. unfold d_trunc, Q_truncates, dadd, ddiv, d_of_Z. cbn [Q_double].
    unfold Qdiv, Qplus, Qmult, Qinv, inject_Z. cbn [Qnum Qden]. rewrite Pos.mul_1_r, Pos.mul_1_l. f_equal. lia.
  - intros a n _ _. unfold d_trunc, Q_truncates, dmul, dsub, d_of_Z. cbn [Q_double].
    unfold Qminus, Qplus, Qopp, Qmult, inject_Z. cbn [Qnum Qden]. rewrite Z.quot_1_r. lia.
Qed.

#[global] Instance no_calendar : Calendar := λ t m, Fail Undefined.

(** ** Tuples and a plan *)

Definition tup : Type := list Z.
#[global] Instance tup_attributes : Attributes tup := λ x i, x !! Z.to_nat (i - 1).
Definition value (x : tup) : Z := default 0 (x !! 2%nat).

Inductive Plan : Type := Adding (s : Z) | Added (s : Z) | Over.

Definition sum_desc : TupleDesc := mkTD [("sum"%string, 20); ("wtime"%string, 1114)] None.

#[global] Instance sum_env : FAggEnv tup Plan := {|
  EddyExecProject iht q := match t_base_tuples iht !! 0%nat with Some (Some x) => x | _ => [] end;
  agg_step w p :=
    match p with
    | Adding s => Pull (λ o, match o with Some x => Adding (s + value x) | None => Added s end)
    | Added s => Return (Some ([w; s], sum_desc)) Over
    | Over => Return None Over
    end;
  ExecReScan _ := Adding 0;
  form_punct_tup _ t := [t];
  form_punct_tup_no_ts _ := [];
  uninitialized := 7
|}.

#[global] Instance sums : Aggregates tup := λ w l, [([w; foldl Z.add 0 (value <$> l)], sum_desc)].

Lemma adding_yields w l : ∀ s, yields w (Adding s) (Some l) [([w; foldl Z.add s (value <$> l)], sum_desc)].
Proof.
  induction l as [|x l IH]; intros s.
  - eapply yields_end; [reflexivity|]. eapply yields_return; [reflexivity|]. by eapply yields_done.
  - eapply yields_pull; [reflexivity|]. cbn [fmap list_fmap foldl]. apply IH.
Qed.

#[global] Instance sum_rescans : Rescans.
Proof. intros p w l. apply adding_yields. Qed.

(** ** An eddy *)

(** An operator beside the FAgg, which gives every tuple back. *)
Record Echo : Type := mkEcho { held : option (IHT tup) }.
#[global] Instance echo_fjord : Fjord Echo tup := {|
  fjord_enq_inp m t := Ok (bool_decide (held m = None), match held m with None => mkEcho (Some t) | _ => m end);
  ProcessNextNode m := Ok m;
  fjord_deq_out m := Ok (held m, mkEcho None);
  ProcessRemoveQuery m q := Ok (false, m);
  fjord_usedByQueries m := [1%nat; 2%nat];
  isFAgg m := false;
  FSteMContainsTuple m t := Fail Undefined
|}.

Definition eddy : EddyState (module tup Plan Echo) tup Q :=
  mkEddy [Some (AnOperator (mkEcho None)); None; None] [] None false [] false [1%nat; 2%nat] [] 2 [] [] [] [] [] [] [] 0 0 0 0 [].
Definition cfg : config Q := mkConfig 1 false false false (λ n, n) (λ n, inject_Z 0).

Lemma only_FAgg : no_other_FAgg eddy 1.
Proof. split; [cbn; lia|]. intros [|[|[|i]]] m E Hi; cbn in E; [|done|done|done]. by injection E as <-. Qed.

(** ** One stream *)

Definition one : WindowState := mkWS 1 0 (mkInterval 0 10) (mkInterval 0 5) [] DT_NOBEGIN.
Definition expr (ws : WindowState) : WindowExpr := mkWE (tsvar ws) (startAt ws) (Some (rangeBy ws)) (Some (slideBy ws)) [].

Definition zeros (n : nat) : BitArray := replicate (BASIZE n) 0.
Definition arrives (x : tup) : IHT tup := mkIHT [Some x] (zeros 64) (zeros 96) (zeros 96) (zeros 128) false.
Definition to_query : BitArray := BitArraySetBit (zeros 128) 1.
Definition to_both : BitArray := BitArraySetBit to_query 2.
Definition event (x : tup) : option (IHT tup) * BitArray := (Some (arrives x), to_query).
Definition event2 (x : tup) : option (IHT tup) * BitArray := (Some (arrives x), to_both).
Definition result_iht : IHT tup := mkIHT (replicate 64 None) (zeros 64) (zeros 96) (zeros 96) (zeros 128) false.

Definition stream : list (option (IHT tup) * BitArray) := [event [1; 0; 100]; event2 [6; 0; 20]; (None, to_query); event [12; 0; 3]; event [27; 0; 4000]].

Lemma cleared_wf n : wf n (zeros n).
Proof. unfold zeros. split; [apply length_replicate|apply Forall_replicate; unfold is_byte; lia]. Qed.

Lemma to_query_wf : wf 128 to_query.
Proof. apply SetBit_wf; [lia|apply cleared_wf]. Qed.
Lemma to_both_wf : wf 128 to_both.
Proof. apply SetBit_wf; [lia|apply to_query_wf]. Qed.

Lemma one_ok : windows_ok [one].
Proof.
  split; [done|]. split.
  - constructor; [|done]. constructor; cbn; lia.
  - intros ws1 ws2 ->%list_elem_of_singleton ->%list_elem_of_singleton. done.
Qed.

Lemma one_starts : starts [one] [expr one] 1 1 (Adding 0) result_iht.
Proof.
  split; [apply one_ok|]. split; [lia|]. split; [reflexivity|]. split; [|cbn; lia].
  intros w l. apply adding_yields.
Qed.

Lemma within_small ws t : startAt ws = 0 → time (slideBy ws) = 5 ∨ time (slideBy ws) = 3 → 0 ≤ t < 100 → ws_within ws t.
Proof. intros Hst Hsl Ht. unfold ws_within, within. rewrite Hst. lia. Qed.

Lemma one_fits t u v : 0 ≤ t < 100 → fits [one] [t; u; v].
Proof. intros Ht. constructor; [|constructor]. split; [done|]. apply within_small; [done|by left|exact Ht]. Qed.

Lemma stream_seen : seen 1 stream = [[1; 0; 100]; [6; 0; 20]; [12; 0; 3]; [27; 0; 4000]].
Proof. vm_compute. reflexivity. Qed.

Lemma stream_fits : Forall (fits [one]) (seen 1 stream).
Proof. rewrite stream_seen. repeat (constructor; [apply one_fits; lia|]). constructor. Qed.

Lemma stream_in_time : in_time one (seen 1 stream).
Proof. rewrite stream_seen. repeat (constructor; [|repeat (constructor; [by vm_compute|]); constructor]). constructor. Qed.

(** Windows 1 to 4 end by the time 27; the next ends at 30. *)
Lemma stream_windows_aggregated_witness : ∃ a m n k st evs,
  FAggAddWindowExprs (ProcessInitFAgg [1%nat] 1 (Adding 0) result_iht) [expr one] = Ok a
  ∧ (∀ fuel, (n ≤ fuel)%nat → rounds fuel cfg (put_module eddy 1 (AnFAgg a)) (stream ++ replicate m (None, to_query)) = Ok st)
  ∧ out st = out eddy ++ evs
  ∧ (∀ j, (1 ≤ j)%nat → window_ends one (Z.of_nat j) ≤ latest_ts one (seen 1 stream) ↔ (j ≤ k)%nat)
  ∧ Forall2 (λ b ht, b !! 0%nat = Some (Some ht)) (delivered 1 evs) (window_answers one k (seen 1 stream)).1.
Proof.
  apply (stream_windows_aggregated cfg eq_refl).
  - apply one_starts.
  - apply only_FAgg.
  - repeat (constructor; [apply to_query_wf || apply to_both_wf|]). constructor.
  - apply to_query_wf.
  - apply stream_fits.
  - apply stream_in_time.
Defined.

(** What these windows answer. *)
Example four_windows : (window_answers one 4 (seen 1 stream)).1 = [[10; 120]; [15]; [15; 23]; [20]; [20; 3]; [25]; [25; 0]; [30]].
Proof. vm_compute. reflexivity. Qed.

(** A tuple of the window [15, 25) that comes after 27, and one of the next. *)
Lemma late_tuple_fails_witness : ∃ a m n,
  FAggAddWindowExprs (ProcessInitFAgg [1%nat] 1 (Adding 0) result_iht) [expr one] = Ok a
  ∧ ∀ fuel, (n ≤ fuel)%nat →
      rounds fuel cfg (put_module eddy 1 (AnFAgg a))
        (stream ++ replicate m (None, to_query) ++ [(Some (arrives [24; 0; 9]), to_query); (Some (arrives [31; 0; 9]), to_query)]) = Fail AssertFail.
Proof.
  apply (late_tuple_fails cfg eq_refl) with (ws := one) (k := 3%nat).
  - apply one_starts.
  - apply only_FAgg.
  - repeat (constructor; [apply to_query_wf || apply to_both_wf|]). constructor.
  - apply to_query_wf.
  - apply stream_fits.
  - apply stream_in_time.
  - vm_compute. reflexivity.
  - vm_compute. reflexivity.
  - apply (one_fits 24). lia.
  - apply (one_fits 31). lia.
  - vm_compute. split; [discriminate|reflexivity].
  - vm_compute. split; [discriminate|reflexivity].
  - vm_compute. discriminate.
Defined.

(** ** Two streams *)

Definition two : WindowState := mkWS 2 0 (mkInterval 0 6) (mkInterval 0 3) [] DT_NOBEGIN.

Lemma two_ok : windows_ok [two; one].
Proof.
  split; [done|]. split.
  - constructor; [|constructor; [|done]]; constructor; cbn; lia.
  - intros ws1 ws2 [->| ->%list_elem_of_singleton]%elem_of_cons [->| ->%list_elem_of_singleton]%elem_of_cons; done.
Qed.

Lemma two_starts : starts [two; one] [expr one; expr two] 1 1 (Adding 0) result_iht.
Proof.
  split; [apply two_ok|]. split; [lia|]. split; [reflexivity|]. split; [|cbn; lia].
  intros w l. apply adding_yields.
Qed.

(** Combinations of tuples of the two streams, in the order of the later of them. *)
Definition joined : list (option (IHT tup) * BitArray) :=
  [event [1; 2; 100]; event [6; 2; 20]; event [6; 9; 7]; (None, to_query); event2 [12; 9; 3]; event [13; 15; 1]].

Lemma joined_seen : seen 1 joined = [[1; 2; 100]; [6; 2; 20]; [6; 9; 7]; [12; 9; 3]; [13; 15; 1]].
Proof. vm_compute. reflexivity. Qed.

Lemma two_fits t u v : 0 ≤ t < 100 → 0 ≤ u < 100 → fits [two; one] [t; u; v].
Proof.
  intros Ht Hu. constructor; [|constructor; [|constructor]]; (split; [done|]); apply within_small; [done|by right|exact Hu|done|by left|exact Ht].
Qed.

Lemma joined_on_time : on_time [two; one] (seen 1 joined).
Proof.
  rewrite joined_seen. split; [repeat (constructor; [apply two_fits; lia|]); constructor|].
  intros T1 x T2 E. do 5 (destruct T1 as [|? T1]; cbn in E; [injection E as <- _|injection E as <- E]; [first [apply Exists_cons_hd; vm_compute; discriminate|apply Exists_cons_tl, Exists_cons_hd; vm_compute; discriminate]|]).
  by destruct T1.
Qed.

Lemma joined_arrivals_wf : Forall (λ ev, wf 128 ev.2) joined.
Proof. repeat (constructor; [apply to_query_wf || apply to_both_wf|]). constructor. Qed.

Lemma aggregates_answer_windows_witness : ∃ a n st evs rdone next hts,
  FAggAddWindowExprs (ProcessInitFAgg [1%nat] 1 (Adding 0) result_iht) [expr one; expr two] = Ok a
  ∧ (∀ fuel, (n ≤ fuel)%nat → rounds fuel cfg (put_module eddy 1 (AnFAgg a)) joined = Ok st)
  ∧ out st = out eddy ++ evs ∧ (∀ i, i ≠ 1%nat → modules st !! i = modules eddy !! i)
  ∧ slides [two; one] rdone next ∧ (∀ t, t ∈ rdone → t ≤ clock_of [two; one] (seen 1 joined))
  ∧ (∀ r1 t r2, rdone = r1 ++ t :: r2 →
      live_tuples [two; one] (t :: r2) (seen 1 joined) ≡ₚ base.filter (live_at [two; one] t) (seen 1 joined))
  ∧ hts = (answers [two; one] rdone next (seen 1 joined)).1
  ∧ Forall2 (λ b ht, b !! 0%nat = Some (Some ht)) (delivered 1 evs) hts
  ∧ ∀ q', q' ≠ 1%nat → delivered q' evs = passed q' joined.
Proof.
  apply (aggregates_answer_windows cfg eq_refl).
  - apply two_starts.
  - apply only_FAgg.
  - apply joined_arrivals_wf.
  - apply joined_on_time.
Defined.

Lemma aggregates_catch_up_witness : ∃ a m n st evs rdone next hts,
  FAggAddWindowExprs (ProcessInitFAgg [1%nat] 1 (Adding 0) result_iht) [expr one; expr two] = Ok a
  ∧ (∀ fuel, (n ≤ fuel)%nat → rounds fuel cfg (put_module eddy 1 (AnFAgg a)) (joined ++ replicate m (None, to_query)) = Ok st)
  ∧ out st = out eddy ++ evs
  ∧ slides [two; one] rdone next ∧ (∀ t, slide_time [two; one] t → t ∈ rdone ↔ t ≤ clock_of [two; one] (seen 1 joined))
  ∧ hts = (answers [two; one] rdone next (seen 1 joined)).1
  ∧ Forall2 (λ b ht, b !! 0%nat = Some (Some ht)) (delivered 1 evs) hts.
Proof.
  apply (aggregates_catch_up cfg eq_refl).
  - apply two_starts.
  - apply only_FAgg.
  - apply joined_arrivals_wf.
  - apply joined_on_time.
  - apply to_query_wf.
Defined.

(** The slides at 6, 9, 10 and 12, before the clock of 13, and the next at 15. *)
Example joined_answers : (answers [two; one] [12; 10; 9; 6] 15 (seen 1 joined)).1
  = [[6; 0]; [9]; [9; 0]; [10]; [10; 0]; [12]; [12; 7]; [15]].
Proof. vm_compute. reflexivity. Qed.

(** ** Windows and times *)

Lemma window_numbers_witness : ∃ f l,
  first_window_no 0 (mkInterval 0 10) (mkInterval 0 5) 12 = Ok f ∧ last_window_no 0 (mkInterval 0 10) (mkInterval 0 5) 12 = Ok l
  ∧ ((1 ≤ f ∧ ∀ k, 1 ≤ k → in_window 0 (mkInterval 0 10) (mkInterval 0 5) k 12 ↔ f ≤ k ≤ l)
     ∨ (f = -1 ∧ (0 ≤ 12 → l = -1) ∧ (12 < 0 → l ≤ 0 ∧ l = last_outside 0 (mkInterval 0 10) (mkInterval 0 5) 12)
        ∧ ∀ k, 1 ≤ k → ¬ in_window 0 (mkInterval 0 10) (mkInterval 0 5) k 12)).
Proof. apply window_numbers; [constructor; cbn; lia|split; cbn; lia]. Defined.

(** Three units before the start there is no window, and the last window is 0. *)
Example last_window_before_start :
  first_window_no 0 (mkInterval 0 10) (mkInterval 0 5) (-3) = Ok (-1) ∧ last_window_no 0 (mkInterval 0 10) (mkInterval 0 5) (-3) = Ok 0.
Proof. vm_compute. by split. Qed.

Lemma live_at_window_ends_witness : ∃ b d, windowStateGetLifetime one [12; 0; 3] = Ok (b, d)
  ∧ ((∃ d', d = Some d' ∧ ∀ k, 1 ≤ k → window_has one k 12 ↔ b ≤ window_ends one k < d')
     ∨ (b = DT_NOEND ∧ ∀ k, 1 ≤ k → ¬ window_has one k 12)).
Proof. apply live_at_window_ends; [constructor; cbn; lia|reflexivity|split; cbn; lia]. Defined.

Lemma tv_plus_int_diff_witness : ∃ tv', tv_plus_int (mkTV 5 999999) 1 = Ok tv' ∧ tv_diff (mkTV 5 999999) tv' = Ok 1
  ∧ (0 ≤ tv_usec tv' < ONE_MILLION ∨ tv_usec tv' = ONE_MILLION ∧ 999999 + Z.rem 1 ONE_MILLION = ONE_MILLION).
Proof. apply (tv_plus_int_diff (mkTV 5 999999) 1); [by split|done|done]. Defined.

(** A whole million of microseconds that is not carried. *)
Example million_not_carried : tv_plus_int (mkTV 5 999999) 1 = Ok (mkTV 5 1000000).
Proof. reflexivity. Qed.

(** Streams whose windows start far apart have no next slide. *)
Example starts_far_apart :
  next_slides [one; mkWS 2 100 (mkInterval 0 10) (mkInterval 0 5) [] DT_NOBEGIN] 10 DT_NOEND DT_NOBEGIN = Fail AssertFail.
Proof. vm_compute. reflexivity. Qed.

(** Neither do streams that start together, when the ranges are too different for
    the slides: here 60 and 5 units, and slides of 1. *)
Example ranges_far_apart :
  next_slides [mkWS 1 0 (mkInterval 0 60) (mkInterval 0 1) [] DT_NOBEGIN; mkWS 2 0 (mkInterval 0 5) (mkInterval 0 1) [] DT_NOBEGIN]
    5 DT_NOEND DT_NOBEGIN = Fail AssertFail.
Proof. vm_compute. reflexivity. Qed.

(** A timestamp in the first column is attribute 0, and the punctuation goes out
    without a time. *)
Example first_column : constr (fix_tdesc_timestampcol (mkTD [("wtime"%string, 1114); ("sum"%string, 20)] None)) = Some 0.
Proof. vm_compute. reflexivity. Qed.
End FAggDemo.
