(* ===== verification/Events.v ===== *)
(** * Event aggregates

    [src/src/backend/executor/nodeFEventAgg.c]: the operator that looks for patterns
    of tuples in streams.  A pattern is a tree: its leaves are streams, its inner
    nodes say that events of the left and of the right child occur both, one after
    the other, or one without the other, within a time.  Each node has a list of the
    events it has found, from which its parent takes what it still needs; the events
    of the root are the results.

    An event points to base tuples, which the operator keeps in a cache with counts
    of the pointers to them, and frees when a count comes to zero.  Base tuples and
    the entries of the lists are therefore locations of a heap; addresses come from
    [palloc], a parameter that may give an address again once it has been freed, as
    the code compares addresses of entries.  A node of the tree is the path that
    leads to it, from the node to the root, so that its parent is the rest of the
    path. *)

From S2P Require Import Prelude BitArray GSFilter Eddy EddyGSF Stem Window.

Module Events.
Import Bit Eddy Stem Window.
Local Open Scope Z_scope.

(** ** The pattern *)

Inductive EventOperator : Type :=
  | EVENT_ANYONE
  | EVENT_BOTH
  | EVENT_FOLLOWS
  | EVENT_NOTFOLLOWS
  | EVENT_PRECEDES
  | EVENT_NOTPRECEDES.

#[global] Instance EventOperator_eq : EqDecision EventOperator.
Proof. solve_decision. Defined.

(** An event of a stream, by the number of its variable, or of two children. *)
Inductive EventExpr : Type :=
  | EVENT_SIMPLE (varno : Z)
  | EVENT_COMPLEX (event_op : EventOperator) (time_delay : Interval) (lchild rchild : EventExpr).

Inductive side : Type := LChild | RChild.
#[global] Instance side_eq : EqDecision side.
Proof. solve_decision. Defined.
#[global] Instance side_countable : Countable side.
Proof. refine (inj_countable' (λ s, match s with LChild => true | RChild => false end) (λ b, if b : bool then LChild else RChild) _). by intros []. Defined.

Abbreviation node := (list side).

Fixpoint node_at (e : EventExpr) (p : node) : option EventExpr :=
  match p with
  | [] => Some e
  | s :: q =>
      match node_at e q with
      | Some (EVENT_COMPLEX _ _ l r) => Some (match s with LChild => l | RChild => r end)
      | _ => None
      end
  end.

(** ** Events *)

(** The base tuples of [tup] are addresses. *)
Record Event : Type := mkEvent { tup : IHT nat; event_timestamp : Z }.

Record EventEntry : Type := mkEntry {
  event : Event;
  matched : list nat;
  requestedTimeout : bool;
  marked : bool
}.

(** The number of times an address has been given, and those in use. *)
Class Palloc : Type := palloc : nat → gset nat → nat.

(** A variable of a base tuple: the number of the tuple and of the attribute. *)
Abbreviation Var := (Z * Z)%type.

(** The expressions that compare an attribute of the partition in two streams, for
    each attribute; an absent one is [NULL], which evaluates to null. *)
Abbreviation ExprCube := (list (gmap (nat * nat) (Var * Var))).

(** [equal_attrs] is the equality of the types of two attributes, [None] when it
    gives null; [form_punct_tup] makes a punctuation tuple of the [i]-th source. *)
Class EventEnv (HT : Type) : Type := {
  get_timestamp_val : nat → HT → option Z;
  HeapTupleIsPunct : HT → bool;
  equal_attrs : Var → HT → Var → HT → option bool;
  form_punct_tup : nat → Z → HT
}.

Definition MAX_BASE_TUPLES_CACHED : nat := 1000.

Section events.
Context {HT : Type} `{!Calendar} `{!Palloc} `{!EventEnv HT}.

(** What the functions on events change. *)
Record Store : Type := mkStore {
  outputList : gmap node (list nat);
  entries : gmap nat EventEntry;
  base_tuples : gmap nat HT;
  baseTuplesCached : Z;
  baseTuplePointers : list (option nat);
  baseTuplePinCounts : list Z;
  timeoutRequests : list (node * Z);
  allocated : nat
}.

Definition with_out (st : Store) (o : gmap node (list nat)) : Store :=
  mkStore o (entries st) (base_tuples st) (baseTuplesCached st) (baseTuplePointers st) (baseTuplePinCounts st) (timeoutRequests st) (allocated st).
Definition with_entries (st : Store) (m : gmap nat EventEntry) (a : nat) : Store :=
  mkStore (outputList st) m (base_tuples st) (baseTuplesCached st) (baseTuplePointers st) (baseTuplePinCounts st) (timeoutRequests st) a.
Definition with_base (st : Store) (m : gmap nat HT) (a : nat) : Store :=
  mkStore (outputList st) (entries st) m (baseTuplesCached st) (baseTuplePointers st) (baseTuplePinCounts st) (timeoutRequests st) a.
Definition with_cache (st : Store) (n : Z) (ptrs : list (option nat)) (pins : list Z) : Store :=
  mkStore (outputList st) (entries st) (base_tuples st) n ptrs pins (timeoutRequests st) (allocated st).
Definition with_timeouts (st : Store) (l : list (node * Z)) : Store :=
  mkStore (outputList st) (entries st) (base_tuples st) (baseTuplesCached st) (baseTuplePointers st) (baseTuplePinCounts st) l (allocated st).

(** An absent list is [NIL]. *)
Definition get_out (st : Store) (p : node) : list nat := default [] (outputList st !! p).
Definition set_out (st : Store) (p : node) (l : list nat) : Store := with_out st (<[p := l]> (outputList st)).
Definition append_out (st : Store) (p : node) (ee : nat) : Store := set_out st p (get_out st p ++ [ee]).

Definition new_address (st : Store) : nat := palloc (allocated st) (dom (entries st) ∪ dom (base_tuples st)).

Fixpoint foreach {A S : Type} (f : A → S → cres S) (l : list A) (s : S) : cres S :=
  match l with
  | [] => Ok s
  | x :: l' => let! s' := f x s in foreach f l' s'
  end.

(** ** The cache of base tuples *)

(** [None] is -1. *)
Fixpoint position (ptrs : list (option nat)) (bt : nat) : option nat :=
  match ptrs with
  | [] => None
  | p :: ptrs' => if decide (p = Some bt) then Some 0%nat else S <$> position ptrs' bt
  end.
Definition getPositionOfBaseTuplePointer (st : Store) (bt : nat) : option nat := position (baseTuplePointers st) bt.

Definition set_pin (st : Store) (pos : nat) (n : Z) : Store :=
  with_cache st (baseTuplesCached st) (baseTuplePointers st) (<[pos := n]> (baseTuplePinCounts st)).

Definition incrementBaseTuplePinCount (bt : nat) (st : Store) : cres Store :=
  match getPositionOfBaseTuplePointer st bt with
  | None => Fail (Elog "incrementBaseTuplePinCount: No pointer in cache for this base tuple")
  | Some pos =>
      let! n := access (baseTuplePinCounts st !! pos) in
      if n <? 0 then Fail (Elog "incrementBaseTuplePinCount: This tuple has a current pin count of < 0... this is unexpected!")
      else Ok (set_pin st pos (n + 1))
  end.

Definition decrementBaseTuplePinCount (bt : nat) (st : Store) : cres Store :=
  match getPositionOfBaseTuplePointer st bt with
  | None => Fail (Elog "decrementBaseTuplePinCount: No pointer in cache for this base tuple")
  | Some pos =>
      let! n := access (baseTuplePinCounts st !! pos) in
      if n <? 1 then Fail (Elog "decrementBaseTuplePinCount: This tuple has a current pin count of < 1... this is unexpected!")
      else Ok (set_pin st pos (n - 1))
  end.

Fixpoint first_free (pins : list Z) : option nat :=
  match pins with
  | [] => None
  | n :: pins' => if n =? -1 then Some 0%nat else S <$> first_free pins'
  end.

Definition addBaseTuplePointerToCache (bt : nat) (st : Store) : cres Store :=
  match getPositionOfBaseTuplePointer st bt with
  | Some _ => Fail (Elog "addBaseTuplePointerToCache: Base tuple already in cache")
  | None =>
      match first_free (baseTuplePinCounts st) with
      | None => Fail (Elog "addBaseTuplePointerToCache: Out of cache slots for base tuple pointers... Increase the limit given by MAX_BASE_TUPLES_CACHED")
      | Some pos =>
          let n := baseTuplesCached st + 1 in
          let! _ := cassert (n <=? Z.of_nat MAX_BASE_TUPLES_CACHED) in
          Ok (with_cache st n (<[pos := Some bt]> (baseTuplePointers st)) (<[pos := 0]> (baseTuplePinCounts st)))
      end
  end.

Definition free_base_tuple (st : Store) (bt : nat) : cres Store :=
  let! _ := access (base_tuples st !! bt) in Ok (with_base st (delete bt (base_tuples st)) (allocated st)).

Definition freeAllDoneBaseTuples (st : Store) : cres Store :=
  foreach (λ pos st,
    let! n := access (baseTuplePinCounts st !! pos) in
    if n =? 0 then
      let! p := access (baseTuplePointers st !! pos) in
      let! bt := access p in
      let! st1 := free_base_tuple st bt in
      Ok (with_cache st1 (baseTuplesCached st1 - 1) (<[pos := None]> (baseTuplePointers st1)) (<[pos := -1]> (baseTuplePinCounts st1)))
    else Ok st) (seq 0 MAX_BASE_TUPLES_CACHED) st.

(** The base tuples that an event has. *)
Definition pointers (e : Event) : list nat := omap id (t_base_tuples (tup e)).

Definition incrementBaseTuplePinCountsForEvent (e : Event) (st : Store) : cres Store := foreach incrementBaseTuplePinCount (pointers e) st.
Definition decrementBaseTuplePinCountsForEvent (e : Event) (st : Store) : cres Store := foreach decrementBaseTuplePinCount (pointers e) st.
Definition addBaseTuplePointersToCacheForEvent (e : Event) (st : Store) : cres Store := foreach addBaseTuplePointerToCache (pointers e) st.

(** ** Events and entries *)

Definition CreateIntermediateHeapTuple {X : Type} : IHT X :=
  mkIHT (replicate TCQMAXSOURCES None) (replicate (BASIZE TCQMAXSOURCES) 0) (replicate (BASIZE TCQMAXOPERATORS) 0) (replicate (BASIZE TCQMAXOPERATORS) 0)
    (BitArraySetAll (replicate (BASIZE TCQMAXQUERIES) 0) TCQMAXQUERIES) false.

Fixpoint add_overlapping (to from : list (option nat)) : cres (list (option nat)) :=
  match to, from with
  | t :: to', f :: from' =>
      let! x := match f, t with
                | Some h, Some h' => let! _ := cassert (bool_decide (h = h')) in Ok t
                | Some h, None => Ok (Some h)
                | None, _ => Ok t
                end in
      let! r := add_overlapping to' from' in Ok (x :: r)
  | _, _ => Ok to
  end.

Definition AddBaseTuplesAllowingOverlap (iht_to iht_from : IHT nat) : cres (IHT nat) :=
  let! b := add_overlapping (t_base_tuples iht_to) (t_base_tuples iht_from) in
  Ok (mkIHT b (BitArrayOrSelf (t_sources iht_to) (t_sources iht_from) TCQMAXSOURCES) (t_ready iht_to)
        (BitArrayOrSelf (t_done iht_to) (t_done iht_from) TCQMAXOPERATORS) (t_queriesCompleted iht_to) (isAggTuple iht_to)).

Definition combineEvents (e1 e2 : Event) (st : Store) : cres (Event * Store) :=
  let! t1 := AddBaseTuples CreateIntermediateHeapTuple (tup e1) in
  let! t2 := AddBaseTuplesAllowingOverlap t1 (tup e2) in
  let newEvent := mkEvent t2 (ts_max (event_timestamp e1) (event_timestamp e2)) in
  let! st1 := incrementBaseTuplePinCountsForEvent newEvent st in
  Ok (newEvent, st1).

Definition replicateEvent (e : Event) (st : Store) : cres (Event * Store) :=
  let! t := AddBaseTuples CreateIntermediateHeapTuple (tup e) in
  let newEvent := mkEvent t (event_timestamp e) in
  let! st1 := incrementBaseTuplePinCountsForEvent newEvent st in
  Ok (newEvent, st1).

Definition deleteEvent (e : Event) (st : Store) : cres Store := decrementBaseTuplePinCountsForEvent e st.

Definition CreateEventEntry (e : Event) (st : Store) : nat * Store :=
  let a := new_address st in
  (a, with_entries st (<[a := mkEntry e [] false false]> (entries st)) (S (allocated st))).

Definition get_entry (st : Store) (ee : nat) : cres EventEntry := access (entries st !! ee).
Definition set_entry (st : Store) (ee : nat) (x : EventEntry) : Store := with_entries st (<[ee := x]> (entries st)) (allocated st).
Definition free_entry (st : Store) (ee : nat) : Store := with_entries st (delete ee (entries st)) (allocated st).

Definition deleteEventEntry (ee : nat) (st : Store) : cres Store :=
  let! x := get_entry st ee in
  let! st1 := deleteEvent (event x) st in
  Ok (free_entry st1 ee).

Definition deleteEventEntryButNotEvent (ee : nat) (st : Store) : cres Store :=
  let! _ := get_entry st ee in Ok (free_entry st ee).

Definition haveBeenMatched (st : Store) (ee1 ee2 : nat) : cres bool :=
  let! x1 := get_entry st ee1 in
  let! x2 := get_entry st ee2 in
  Ok (bool_decide (ee1 ∈ matched x2) || bool_decide (ee2 ∈ matched x1)).

Definition rememberMatch (st : Store) (ee1 ee2 : nat) : cres Store :=
  let! x1 := get_entry st ee1 in
  let st1 := set_entry st ee1 (mkEntry (event x1) (matched x1 ++ [ee2]) (requestedTimeout x1) (marked x1)) in
  let! x2 := get_entry st1 ee2 in
  Ok (set_entry st1 ee2 (mkEntry (event x2) (matched x2 ++ [ee1]) (requestedTimeout x2) (marked x2))).

Definition mark (st : Store) (ee : nat) : cres Store :=
  let! x := get_entry st ee in Ok (set_entry st ee (mkEntry (event x) (matched x) (requestedTimeout x) true)).

(** The two events have different tuples of one stream. *)
Definition haveSimpleEventConflict (c1 c2 : Event) : bool :=
  existsb (λ ab, match ab with (Some a, Some b) => negb (bool_decide (a = b)) | _ => false end)
    (zip (t_base_tuples (tup c1)) (t_base_tuples (tup c2))).

(** ** The partition *)

Fixpoint compare_with (var1 : Var) (rest : list Var) (m : gmap (nat * nat) (Var * Var)) : gmap (nat * nat) (Var * Var) :=
  match rest with
  | [] => m
  | var2 :: rest' =>
      let j := Z.to_nat (var1.1 - 1) in
      let k := Z.to_nat (var2.1 - 1) in
      compare_with var1 rest' (<[(k, j) := (var1, var2)]> (<[(j, k) := (var1, var2)]> m))
  end.
Fixpoint compare_all (vars : list Var) (m : gmap (nat * nat) (Var * Var)) : gmap (nat * nat) (Var * Var) :=
  match vars with
  | [] => m
  | var1 :: rest => compare_all rest (compare_with var1 rest m)
  end.
Definition initializeExprCube (var_lists : list (list Var)) : ExprCube := (λ vars, compare_all vars ∅) <$> var_lists.

(** A base tuple of the event in the slot. *)
Definition base_tuple (st : Store) (e : Event) (varno : Z) : cres HT :=
  let! p := access (t_base_tuples (tup e) !! Z.to_nat (varno - 1)) in
  let! a := access p in
  access (base_tuples st !! a).

Definition ExecEvalExpr (st : Store) (e : Event) (expr : option (Var * Var)) : cres (option bool) :=
  match expr with
  | None => Ok None
  | Some (v1, v2) =>
      let! h1 := base_tuple st e v1.1 in
      let! h2 := base_tuple st e v2.1 in
      Ok (equal_attrs v1 h1 v2 h2)
  end.

(** A loop that returns false at the first element whose test is false. *)
Fixpoint all_pass {A : Type} (f : A → cres bool) (l : list A) : cres bool :=
  match l with
  | [] => Ok true
  | x :: l' => let! b := f x in if b : bool then all_pass f l' else Ok false
  end.

Definition isPartitionConsistent (cube : ExprCube) (st : Store) (e : Event) : cres bool :=
  match cube with
  | [] => Ok true
  | _ =>
      let has i := match t_base_tuples (tup e) !! i with Some (Some _) => true | _ => false end in
      all_pass (λ i, if has i then
        all_pass (λ j, if has j then
          all_pass (λ exprs, let! v := ExecEvalExpr st e (exprs !! (i, j)) in Ok (bool_decide (v = Some true))) cube
          else Ok true) (seq (S i) (TCQMAXSOURCES - S i))
        else Ok true) (seq 0 TCQMAXSOURCES)
  end.

Definition arePartitionConsistent (cube : ExprCube) (e1 e2 : Event) (st : Store) : cres (bool * Store) :=
  let! (e, st1) := combineEvents e1 e2 st in
  let! result := isPartitionConsistent cube st1 e in
  let! st2 := deleteEvent e st1 in
  Ok (result, st2).

(** ** Expiry *)

Definition expireAllEventsFromList (l : list nat) (st : Store) : cres Store := foreach deleteEventEntry l st.

Fixpoint expireEventsFromListIntervalBased (l : list nat) (ts : Z) (i : Interval) (st : Store) : cres (list nat * Store) :=
  match l with
  | [] => Ok ([], st)
  | ee :: l' =>
      let! x := get_entry st ee in
      let! until := ts_plus_interval (event_timestamp (event x)) i in
      if ts_geq until ts then
        let! (result, st1) := expireEventsFromListIntervalBased l' ts i st in Ok (ee :: result, st1)
      else
        let! st1 := deleteEventEntry ee st in
        expireEventsFromListIntervalBased l' ts i st1
  end.

Definition expire_all (st : Store) (p : node) : cres Store :=
  let! st1 := expireAllEventsFromList (get_out st p) st in Ok (set_out st1 p []).
Definition expire_interval (st : Store) (p : node) (ts : Z) (i : Interval) : cres Store :=
  let! (l, st1) := expireEventsFromListIntervalBased (get_out st p) ts i st in Ok (set_out st1 p l).

Fixpoint expireEvents (e : EventExpr) (p : node) (ts : Z) (st : Store) : cres Store :=
  match e with
  | EVENT_SIMPLE _ => Ok st
  | EVENT_COMPLEX op time_delay lchild rchild =>
      let l := LChild :: p in
      let r := RChild :: p in
      let! st2 :=
        match op with
        | EVENT_ANYONE => Ok st
        | EVENT_BOTH => let! st1 := expire_interval st l ts time_delay in expire_interval st1 r ts time_delay
        | EVENT_FOLLOWS | EVENT_NOTFOLLOWS => let! st1 := expire_interval st l ts time_delay in expire_all st1 r
        | EVENT_PRECEDES | EVENT_NOTPRECEDES => let! st1 := expire_all st l in expire_interval st1 r ts time_delay
        end in
      let! st3 := expireEvents lchild l ts st2 in
      expireEvents rchild r ts st3
  end.

(** ** Detection *)

Definition passAdditionalBothTest (e1 e2 : Event) : bool := true.
Definition passAdditionalNotFollowsTest (e1 e2 : Event) : bool := negb (ts_equals (event_timestamp e1) (event_timestamp e2)).

(** A new event on the list of a node. *)
Definition detect (p : node) (r : Event * Store) : Store :=
  let '(ee, st1) := CreateEventEntry r.1 r.2 in append_out st1 p ee.

(** Whether two events are near enough to each other for the operator. *)
Definition in_time (op : EventOperator) (time_delay : Interval) (e1 e2 : Event) : cres bool :=
  let after a b := let! until := ts_plus_interval (event_timestamp a) time_delay in Ok (ts_geq until (event_timestamp b)) in
  match op with
  | EVENT_BOTH => let! b := after e1 e2 in if b : bool then after e2 e1 else Ok false
  | EVENT_FOLLOWS => after e1 e2
  | EVENT_PRECEDES => after e2 e1
  | _ => Ok false
  end.

(** One pair of events, for [BOTH], [FOLLOWS] and [PRECEDES]. *)
Definition match_pair (op : EventOperator) (time_delay : Interval) (p : node) (ee1 ee2 : nat) (s : bool * Store) : cres (bool * Store) :=
  let '(detected, st) := s in
  let! x1 := get_entry st ee1 in
  let! x2 := get_entry st ee2 in
  let e1 := event x1 in
  let e2 := event x2 in
  if haveSimpleEventConflict e1 e2 then Ok s
  else
    let! near := in_time op time_delay e1 e2 in
    if negb near then Ok s
    else
      let! old := match op with EVENT_PRECEDES => Ok false | _ => haveBeenMatched st ee1 ee2 end in
      if old : bool then Ok s
      else if bool_decide (op = EVENT_BOTH) && negb (passAdditionalBothTest e1 e2) then Ok s
      else
        let! r := combineEvents e1 e2 st in
        let! st2 := rememberMatch (detect p r) ee1 ee2 in
        Ok (true, st2).

Definition match_lists (op : EventOperator) (time_delay : Interval) (p : node) (l1 l2 : list nat) (st : Store) : cres (bool * Store) :=
  foreach (λ ee1, foreach (match_pair op time_delay p ee1) l2) l1 (false, st).

(** An event of the list that ends the wait of [e1]. *)
Fixpoint terminated (cube : ExprCube) (time_delay : Interval) (e1 : Event) (l2 : list nat) (st : Store) : cres (bool * Store) :=
  match l2 with
  | [] => Ok (false, st)
  | ee2 :: l2' =>
      let! x2 := get_entry st ee2 in
      let e2 := event x2 in
      if haveSimpleEventConflict e1 e2 then terminated cube time_delay e1 l2' st
      else if negb (passAdditionalNotFollowsTest e1 e2) then terminated cube time_delay e1 l2' st
      else
        let! (b, st1) := arePartitionConsistent cube e1 e2 st in
        if negb b then terminated cube time_delay e1 l2' st1
        else
          let! until := ts_plus_interval (event_timestamp e1) time_delay in
          if ts_geq until (event_timestamp e2) then Ok (true, st1) else terminated cube time_delay e1 l2' st1
  end.

Definition MakeTimeoutRequest (p : node) (ts : Z) (st : Store) : Store := with_timeouts st (timeoutRequests st ++ [(p, ts)]).

Definition not_followed (cube : ExprCube) (time_delay : Interval) (p : node) (lastTimestampSeen : Z) (l2 : list nat) (ee1 : nat) (s : bool * Store) : cres (bool * Store) :=
  let '(detected, st) := s in
  let! x1 := get_entry st ee1 in
  let e1 := event x1 in
  if marked x1 then Ok s
  else
    let! until := ts_plus_interval (event_timestamp e1) time_delay in
    let timeToStopLooking := negb (ts_geq until lastTimestampSeen) in
    let! (seenATerminatingEvent, st1) := terminated cube time_delay e1 l2 st in
    if seenATerminatingEvent : bool then let! st2 := mark st1 ee1 in Ok (detected, st2)
    else if timeToStopLooking then
      let! r := replicateEvent e1 st1 in
      let! st2 := mark (detect p r) ee1 in
      Ok (true, st2)
    else if negb (requestedTimeout x1) then
      let st2 := MakeTimeoutRequest p until st1 in
      let! x := get_entry st2 ee1 in
      Ok (detected, set_entry st2 ee1 (mkEntry (event x) (matched x) true (marked x)))
    else Ok (detected, st1).

(** An event of the list that [e1] comes too soon after. *)
Fixpoint preceded (cube : ExprCube) (time_delay : Interval) (e1 : Event) (l2 : list nat) (st : Store) : cres (bool * Store) :=
  match l2 with
  | [] => Ok (false, st)
  | ee2 :: l2' =>
      let! x2 := get_entry st ee2 in
      let e2 := event x2 in
      if haveSimpleEventConflict e1 e2 then preceded cube time_delay e1 l2' st
      else
        let! (b, st1) := arePartitionConsistent cube e1 e2 st in
        if negb b then preceded cube time_delay e1 l2' st1
        else
          let! until := ts_plus_interval (event_timestamp e2) time_delay in
          if negb (ts_geq (event_timestamp e1) until) then Ok (true, st1) else preceded cube time_delay e1 l2' st1
  end.

Definition not_preceded (cube : ExprCube) (time_delay : Interval) (p : node) (l2 : list nat) (ee1 : nat) (s : bool * Store) : cres (bool * Store) :=
  let '(detected, st) := s in
  let! x1 := get_entry st ee1 in
  let e1 := event x1 in
  if marked x1 then Ok s
  else
    let! st1 := mark st ee1 in
    let! (seenATerminatingEvent, st2) := preceded cube time_delay e1 l2 st1 in
    if seenATerminatingEvent : bool then Ok (detected, st2)
    else let! r := replicateEvent e1 st2 in Ok (true, detect p r).

(** The work at one node: whether its parent is to look at the new events. *)
Definition construct_here (cube : ExprCube) (op : EventOperator) (time_delay : Interval) (p : node) (lastTimestampSeen : Z) (st : Store) : cres (bool * Store) :=
  let l := LChild :: p in
  let r := RChild :: p in
  match op with
  | EVENT_ANYONE =>
      if bool_decide (get_out st l = []) && bool_decide (get_out st r = []) then Ok (false, st)
      else
        let st1 := set_out (set_out st p (get_out st p ++ get_out st l)) l [] in
        Ok (true, set_out (set_out st1 p (get_out st1 p ++ get_out st1 r)) r [])
  | EVENT_BOTH => match_lists op time_delay p (get_out st l) (get_out st r) st
  | EVENT_FOLLOWS =>
      let! (detected, st1) := match_lists op time_delay p (get_out st l) (get_out st r) st in
      let! st2 := expire_all st1 r in Ok (detected, st2)
  | EVENT_PRECEDES =>
      let! (detected, st1) := match_lists op time_delay p (get_out st l) (get_out st r) st in
      let! st2 := expire_all st1 l in Ok (detected, st2)
  | EVENT_NOTFOLLOWS =>
      let! (detected, st1) := foreach (not_followed cube time_delay p lastTimestampSeen (get_out st r)) (get_out st l) (false, st) in
      let! st2 := expire_all st1 r in Ok (detected, st2)
  | EVENT_NOTPRECEDES =>
      let! (detected, st1) := foreach (not_preceded cube time_delay p (get_out st r)) (get_out st l) (false, st) in
      let! st2 := expire_all st1 l in Ok (detected, st2)
  end.

Fixpoint constructComplexEvents (cube : ExprCube) (root : EventExpr) (p : node) (lastTimestampSeen : Z) (st : Store) : cres Store :=
  let! e := access (node_at root p) in
  match e with
  | EVENT_SIMPLE _ => Ok st
  | EVENT_COMPLEX op time_delay _ _ =>
      let! (detected, st1) := construct_here cube op time_delay p lastTimestampSeen st in
      match p with
      | _ :: parent => if detected : bool then constructComplexEvents cube root parent lastTimestampSeen st1 else Ok st1
      | [] => Ok st1
      end
  end.

(** ** New events *)

Definition findIndexOfSourceForSimpleEvent {X : Type} (t : IHT X) : cres Z :=
  let n := BitArrayNumSet (t_sources t) TCQMAXSOURCES in
  if (1 <? n)%nat then Fail (Elog "findIndexOfSourceForSimpleEvent: Multiple sources for this IHT... not a simple event!")
  else if (n <? 1)%nat then Fail (Elog "findIndexOfSourceForSimpleEvent: No sources for this IHT!")
  else Ok (BitArrayFirstBit (t_sources t) TCQMAXSOURCES).

Definition isRelevantSimpleEvent (varno : Z) (e : Event) : cres bool :=
  let! whichSource := findIndexOfSourceForSimpleEvent (tup e) in Ok (whichSource =? varno - 1).

Definition putSimpleEventOnOutputList (p : node) (e : Event) (st : Store) : cres Store :=
  let! r := replicateEvent e st in Ok (detect p r).

Fixpoint publishSimpleEvent (cube : ExprCube) (root : EventExpr) (e : EventExpr) (p : node) (ev : Event) (st : Store) : cres Store :=
  match e with
  | EVENT_SIMPLE varno =>
      let! relevant := isRelevantSimpleEvent varno ev in
      if relevant : bool then
        let! st1 := putSimpleEventOnOutputList p ev st in
        match p with
        | _ :: parent => constructComplexEvents cube root parent (event_timestamp ev) st1
        | [] => Ok st1
        end
      else Ok st
  | EVENT_COMPLEX _ _ lchild rchild =>
      let! st1 := publishSimpleEvent cube root lchild (LChild :: p) ev st in
      publishSimpleEvent cube root rchild (RChild :: p) ev st1
  end.

(** Copies of the base tuples. *)
Fixpoint copy_base_tuples_into_context (l : list (option HT)) (st : Store) : list (option nat) * Store :=
  match l with
  | [] => ([], st)
  | None :: l' => let '(r, st1) := copy_base_tuples_into_context l' st in (None :: r, st1)
  | Some h :: l' =>
      let a := new_address st in
      let '(r, st1) := copy_base_tuples_into_context l' (with_base st (<[a := h]> (base_tuples st)) (S (allocated st))) in
      (Some a :: r, st1)
  end.

Definition copyEventInPrivateContext (t : IHT HT) (ts : Z) (st : Store) : cres (Event * Store) :=
  let c := copyIntermediateHeapTuple CreateIntermediateHeapTuple t in
  let '(b, st1) := copy_base_tuples_into_context (t_base_tuples c) st in
  let newEvent := mkEvent (mkIHT b (t_sources c) (t_ready c) (t_done c) (t_queriesCompleted c) (isAggTuple c)) ts in
  let! st2 := addBaseTuplePointersToCacheForEvent newEvent st1 in
  let! st3 := incrementBaseTuplePinCountsForEvent newEvent st2 in
  Ok (newEvent, st3).

(** The requests are a list that grows at its end while it is gone through; those
    that are not due are left over. *)
Fixpoint service_from (fuel : nat) (cube : ExprCube) (root : EventExpr) (lastTimestampSeen : Z) (i : nat) (leftovers : list (node * Z)) (st : Store) : cres Store :=
  match timeoutRequests st !! i with
  | None => Ok (with_timeouts st leftovers)
  | Some (p, ts) =>
      match fuel with
      | O => Fail Diverge
      | S fuel' =>
          if ts_geq lastTimestampSeen ts then
            let! st1 := constructComplexEvents cube root p lastTimestampSeen st in
            service_from fuel' cube root lastTimestampSeen (S i) leftovers st1
          else service_from fuel' cube root lastTimestampSeen (S i) (leftovers ++ [(p, ts)]) st
      end
  end.
Definition ServiceTimeouts (fuel : nat) (cube : ExprCube) (root : EventExpr) (lastTimestampSeen : Z) (st : Store) : cres Store :=
  service_from fuel cube root lastTimestampSeen 0 [] st.

(** The next event of the root that is consistent with the partition. *)
Fixpoint fetch_from (cube : ExprCube) (l : list nat) (st : Store) : cres (option Event * Store) :=
  match l with
  | [] => Ok (None, st)
  | ee :: rest =>
      let st1 := set_out st [] rest in
      let! x := get_entry st1 ee in
      let! ok := isPartitionConsistent cube st1 (event x) in
      if ok : bool then let! st2 := deleteEventEntryButNotEvent ee st1 in Ok (Some (event x), st2)
      else let! st2 := deleteEventEntry ee st1 in fetch_from cube rest st2
  end.
Definition fetchNextComplexEvent (cube : ExprCube) (st : Store) : cres (option Event * Store) := fetch_from cube (get_out st []) st.

(** ** The operator *)

(** [oiht] is the entry of [ModuleIHT_Table]; [eddy_sources] gives the streams of a
    query, which the first call copies into [sources]. *)
Record FEventAgg : Type := mkFEventAgg {
  usedByQueries : list nat;
  room : nat;
  inputq : list (IHT HT);
  outputq : list (IHT HT);
  eventExpr : EventExpr;
  exprCube : ExprCube;
  queryid : option nat;
  eddy_sources : nat → BitArray;
  sources : BitArray;
  lastTupleTimestamp : Z;
  needToEmitPunct : bool;
  needToResetPunctContext : bool;
  oiht : IHT HT;
  store : Store
}.

Definition with_store (n : FEventAgg) (st : Store) : FEventAgg :=
  mkFEventAgg (usedByQueries n) (room n) (inputq n) (outputq n) (eventExpr n) (exprCube n) (queryid n) (eddy_sources n) (sources n) (lastTupleTimestamp n)
    (needToEmitPunct n) (needToResetPunctContext n) (oiht n) st.
Definition with_queues (n : FEventAgg) (inp out : list (IHT HT)) : FEventAgg :=
  mkFEventAgg (usedByQueries n) (room n) inp out (eventExpr n) (exprCube n) (queryid n) (eddy_sources n) (sources n) (lastTupleTimestamp n)
    (needToEmitPunct n) (needToResetPunctContext n) (oiht n) (store n).
Definition with_time (n : FEventAgg) (t : Z) : FEventAgg :=
  mkFEventAgg (usedByQueries n) (room n) (inputq n) (outputq n) (eventExpr n) (exprCube n) (queryid n) (eddy_sources n) (sources n) t
    (needToEmitPunct n) (needToResetPunctContext n) (oiht n) (store n).
Definition with_punct (n : FEventAgg) (emit reset : bool) : FEventAgg :=
  mkFEventAgg (usedByQueries n) (room n) (inputq n) (outputq n) (eventExpr n) (exprCube n) (queryid n) (eddy_sources n) (sources n) (lastTupleTimestamp n)
    emit reset (oiht n) (store n).
Definition with_oiht (n : FEventAgg) (o : IHT HT) : FEventAgg :=
  mkFEventAgg (usedByQueries n) (room n) (inputq n) (outputq n) (eventExpr n) (exprCube n) (queryid n) (eddy_sources n) (sources n) (lastTupleTimestamp n)
    (needToEmitPunct n) (needToResetPunctContext n) o (store n).

Definition empty_store : Store :=
  mkStore ∅ ∅ ∅ 0 (replicate MAX_BASE_TUPLES_CACHED None) (replicate MAX_BASE_TUPLES_CACHED (-1)) [] 0.

Definition ProcessInitFEventAgg (used : list nat) (fjord_room : nat) (e : EventExpr) (var_lists : list (list Var)) (srcs : nat → BitArray) (o : IHT HT) : FEventAgg :=
  mkFEventAgg used fjord_room [] [] e (initializeExprCube var_lists) None srcs (replicate (BASIZE TCQMAXSOURCES) 0) 0 false false o empty_store.

(** Whether the queue took the tuple is not looked at. *)
Definition enq_out (n : FEventAgg) (t : IHT HT) : FEventAgg := with_queues n (inputq n) (EddyGSF.enqueue_iht (room n) (outputq n) t).2.

Definition prepareOutputIHTForDelivery (o : IHT HT) (q : nat) : IHT HT :=
  mkIHT (t_base_tuples o) (t_sources o) (BitArrayClearAll (t_ready o) TCQMAXOPERATORS) (t_done o)
    (BitArrayClearBit (BitArraySetAll (t_queriesCompleted o) TCQMAXQUERIES) q) false.

Definition ClearBaseTuples (o : IHT HT) : IHT HT :=
  mkIHT (for_loop TCQMAXSOURCES (λ i l, <[i := None]> l) (t_base_tuples o)) (BitArrayRealClearAll (t_sources o) TCQMAXSOURCES)
    (BitArrayRealClearAll (t_ready o) TCQMAXOPERATORS) (BitArrayRealClearAll (t_done o) TCQMAXOPERATORS)
    (BitArraySetAll (t_queriesCompleted o) TCQMAXQUERIES) (isAggTuple o).

Definition generateOutputPunct (o : IHT HT) (srcs : BitArray) (ts : Z) : cres (IHT HT) :=
  foreach (λ i o, if BitArrayBitIsSet srcs i then AddBaseTuple o (form_punct_tup i ts) i else Ok o) (seq 0 TCQMAXSOURCES) (ClearBaseTuples o).

(** The base tuples of an event, as the other operators read them. *)
Fixpoint read_base_tuples (st : Store) (l : list (option nat)) : cres (list (option HT)) :=
  match l with
  | [] => Ok []
  | None :: l' => let! r := read_base_tuples st l' in Ok (None :: r)
  | Some a :: l' => let! h := access (base_tuples st !! a) in let! r := read_base_tuples st l' in Ok (Some h :: r)
  end.

Definition copy_result (o : IHT HT) (t : IHT nat) (st : Store) : cres (IHT HT) :=
  let! b := read_base_tuples st (t_base_tuples t) in
  Ok (copyIntermediateHeapTuple o (mkIHT b (t_sources t) (t_ready t) (t_done t) (t_queriesCompleted t) (isAggTuple t))).

Definition getSimpleEventTimestamp (t : IHT HT) : cres Z :=
  let! i := findIndexOfSourceForSimpleEvent t in
  let! o := access (t_base_tuples t !! Z.to_nat i) in
  let! h := access o in
  match get_timestamp_val (Z.to_nat i) h with Some ts => Ok ts | None => Fail AssertFail end.

(** A tuple has come: what a call does with it. *)
Definition take_tuple (fuel : nat) (n : FEventAgg) (q : nat) (t : IHT HT) : cres FEventAgg :=
  let! ts := getSimpleEventTimestamp t in
  let n1 := with_time n ts in
  let root := eventExpr n1 in
  let cube := exprCube n1 in
  let! st1 := ServiceTimeouts fuel cube root ts (store n1) in
  let done := with_completed t (BitArraySetBit (t_queriesCompleted t) q) in
  if ihtIsPunct HeapTupleIsPunct t then Ok (with_punct (enq_out (with_store n1 st1) done) true (needToResetPunctContext n1))
  else
    let! st2 := freeAllDoneBaseTuples st1 in
    let! (ev, st3) := copyEventInPrivateContext t ts st2 in
    let! st4 := expireEvents root [] ts st3 in
    let! st5 := publishSimpleEvent cube root root [] ev st4 in
    let! st6 := deleteEvent ev st5 in
    Ok (enq_out (with_store n1 st6) done).

(** No tuple has come: the next result. *)
Definition next_result (n : FEventAgg) (q : nat) : cres FEventAgg :=
  if needToEmitPunct n then
    let! o := generateOutputPunct (oiht n) (sources n) (lastTupleTimestamp n) in
    let o1 := prepareOutputIHTForDelivery o q in
    Ok (with_punct (enq_out (with_oiht n o1) o1) false true)
  else
    let! (r, st1) := fetchNextComplexEvent (exprCube n) (store n) in
    let n1 := with_store n st1 in
    match r with
    | None => Ok n1
    | Some e =>
        let! o := copy_result (oiht n1) (tup e) st1 in
        let! st2 := deleteEvent e st1 in
        let o1 := prepareOutputIHTForDelivery o q in
        Ok (enq_out (with_oiht (with_store n1 st2) o1) o1)
    end.

Definition ProcessNextFEventAgg (fuel : nat) (n : FEventAgg) : cres FEventAgg :=
  let! (q, n1) :=
    match queryid n with
    | Some q => Ok (q, n)
    | None =>
        let! _ := cassert (bool_decide (length (usedByQueries n) = 1%nat)) in
        let! q := access (head (usedByQueries n)) in
        Ok (q, mkFEventAgg (usedByQueries n) (room n) (inputq n) (outputq n) (eventExpr n) (exprCube n) (Some q) (eddy_sources n)
                 (BitArrayClone (sources n) (eddy_sources n q) TCQMAXSOURCES) (lastTupleTimestamp n)
                 (needToEmitPunct n) (needToResetPunctContext n) (oiht n) (store n))
    end in
  let n2 := if needToResetPunctContext n1 then with_punct n1 (needToEmitPunct n1) false else n1 in
  let '(o, inp) := EddyGSF.dequeue_iht (inputq n2) in
  let n3 := with_queues n2 inp (outputq n2) in
  match o with
  | Some t => take_tuple fuel n3 q t
  | None => next_result n3 q
  end.

Definition ProcessRemoveQueryFEventAgg (n : FEventAgg) (q : nat) : bool * FEventAgg :=
  let u := GSF.lremovei q (GSF.lremovei q (usedByQueries n)) in
  (match u with [] => true | _ => false end,
   mkFEventAgg u (room n) (inputq n) (outputq n) (eventExpr n) (exprCube n) (queryid n) (eddy_sources n) (sources n) (lastTupleTimestamp n)
     (needToEmitPunct n) (needToResetPunctContext n) (oiht n) (store n)).
End events.
Arguments Store : clear implicits.
Arguments FEventAgg : clear implicits.
End Events.
