(* ===== verification/EventsMem.v ===== *)
(** * Event aggregates: the counts of the base tuples

    What the operations on the cache, on events and on entries do to a store whose
    counts are right: they succeed, and the counts stay right. *)

From S2P Require Import Prelude BitArray GSFilter Eddy EddyGSF Stem Window WindowSpec Events.

Module EventsMem.
Import Bit Eddy Stem Window WindowSpec Events.
Local Open Scope Z_scope.

Section lists.
Implicit Types (L l : list nat) (bt : nat).

Definition count (bt : nat) L : nat := count_occ Nat.eq_dec L bt.
#[global] Arguments count : simpl never.

Lemma count_app bt L1 L2 : count bt (L1 ++ L2) = (count bt L1 + count bt L2)%nat.
Proof. apply count_occ_app. Qed.
Lemma count_cons bt x L : count bt (x :: L) = ((if decide (x = bt) then 1 else 0) + count bt L)%nat.
Proof. unfold count. cbn. destruct (Nat.eq_dec x bt); by case_decide. Qed.
#[global] Instance count_proper bt : Proper (Permutation ==> eq) (count bt).
Proof. intros L1 L2 H. by apply Permutation_count_occ. Qed.
Lemma count_pos bt L : bt ∈ L ↔ (0 < count bt L)%nat.
Proof. unfold count. rewrite list_elem_of_In. apply count_occ_In. Qed.
End lists.

(** The keys of a list taken out of a map. *)
Definition drop_keys {A} (l : list nat) (m : gmap nat A) : gmap nat A := foldl (λ m k, delete k m) m l.

Lemma drop_keys_lookup {A} l : ∀ (m : gmap nat A) k, drop_keys l m !! k = if decide (k ∈ l) then None else m !! k.
Proof.
  induction l as [|a l IH]; intros m k; [done|]. cbn [drop_keys foldl]. fold (drop_keys l (delete a m)). rewrite IH.
  destruct (decide (k ∈ l)); [by rewrite decide_True by (by right)|]. destruct (decide (k = a)) as [->|].
  - by rewrite decide_True, lookup_delete_eq by (by left).
  - rewrite decide_False by (rewrite elem_of_cons; tauto). by rewrite lookup_delete_ne.
Qed.

Section mem.
Context {HT : Type} `{Hcal : !Calendar} `{Hpal : !Palloc} `{Henv : !EventEnv HT}.
Implicit Types (st : Store HT) (e : Event) (L : list nat) (m : gmap nat EventEntry) (bt ee : nat).

(** ** References *)

Definition refs m : list nat := map_to_list m ≫= λ kv, pointers (event kv.2).

Lemma refs_insert m a x : m !! a = None → refs (<[a := x]> m) ≡ₚ pointers (event x) ++ refs m.
Proof. intros Ha. unfold refs. by rewrite (map_to_list_insert m a x Ha). Qed.
Lemma refs_delete m a x : m !! a = Some x → refs m ≡ₚ pointers (event x) ++ refs (delete a m).
Proof. intros Ha. rewrite <- (refs_insert (delete a m) a x) by apply lookup_delete_eq. by rewrite insert_delete_id. Qed.
Lemma refs_update m a x y : m !! a = Some x → event y = event x → refs (<[a := y]> m) ≡ₚ refs m.
Proof.
  intros Ha E. rewrite (refs_delete m a x Ha), <- insert_delete_eq, refs_insert by apply lookup_delete_eq. by rewrite E.
Qed.
Lemma elem_of_refs m bt : bt ∈ refs m ↔ ∃ a x, m !! a = Some x ∧ bt ∈ pointers (event x).
Proof.
  unfold refs. rewrite list_elem_of_bind. split.
  - intros ([a x] & Hin & Hm). apply elem_of_map_to_list in Hm. by exists a, x.
  - intros (a & x & Hm & Hin). exists (a, x). split; [done|]. by apply elem_of_map_to_list.
Qed.

Definition set_pins st pins : Store HT := with_cache st (baseTuplesCached st) (baseTuplePointers st) pins.

Definition cached st bt : Prop := Some bt ∈ baseTuplePointers st.

(** The counts are those of the references [L]. *)
Record counted L st : Prop := {
  ct_ptrs : length (baseTuplePointers st) = MAX_BASE_TUPLES_CACHED;
  ct_pins : length (baseTuplePinCounts st) = MAX_BASE_TUPLES_CACHED;
  ct_count pos o : baseTuplePointers st !! pos = Some o →
    baseTuplePinCounts st !! pos = Some (match o with Some bt => Z.of_nat (count bt L) | None => -1 end);
  ct_once i j bt : baseTuplePointers st !! i = Some (Some bt) → baseTuplePointers st !! j = Some (Some bt) → i = j;
  ct_cached bt : bt ∈ L → cached st bt;
  ct_live bt : cached st bt ↔ is_Some (base_tuples st !! bt);
  ct_number : baseTuplesCached st = Z.of_nat (length (omap id (baseTuplePointers st)))
}.

#[global] Instance counted_proper : Proper (Permutation ==> eq ==> iff) counted.
Proof.
  assert (∀ L1 L2 st, L1 ≡ₚ L2 → counted L1 st → counted L2 st) as H.
  { intros L1 L2 st HL [H1 H2 H3 H4 H5 H6 H7]. constructor; try done.
    - intros pos o Ho. rewrite (H3 pos o Ho). destruct o as [bt|]; [|done]. by rewrite HL.
    - intros bt Hb. apply H5. by rewrite HL. }
  intros L1 L2 HL st ? <-. split; apply H; by symmetry in HL || done.
Qed.

Lemma position_Some ptrs bt pos : position ptrs bt = Some pos → ptrs !! pos = Some (Some bt).
Proof.
  revert pos. induction ptrs as [|p ptrs IH]; intros pos E; [done|]. cbn in E. case_decide as Hp; [injection E as <-; by subst|].
  apply fmap_Some in E as (k & E & ->). by apply IH.
Qed.
Lemma position_cached st bt : cached st bt → ∃ pos, position (baseTuplePointers st) bt = Some pos.
Proof.
  unfold cached. generalize (baseTuplePointers st). induction l as [|p ptrs IH]; intros Hin; [by apply elem_of_nil in Hin|].
  cbn. case_decide as Hp; [by exists 0%nat|]. apply elem_of_cons in Hin as [Hin|Hin]; [by subst|]. destruct (IH Hin) as [pos ->]. by exists (S pos).
Qed.
Lemma position_None ptrs bt : position ptrs bt = None → Some bt ∉ ptrs.
Proof.
  induction ptrs as [|p ptrs IH]; intros E; [apply not_elem_of_nil|]. cbn in E. case_decide as Hp; [done|]. apply fmap_None in E.
  apply not_elem_of_cons. split; [done|by apply IH].
Qed.

(** Counts are a function of the references. *)
Lemma counted_pins L st pins : counted L st → counted L (set_pins st pins) → set_pins st pins = st.
Proof.
  intros C1 C2. assert (pins = baseTuplePinCounts st) as ->; [|by destruct st].
  apply list_eq. intros pos. destruct (baseTuplePointers st !! pos) as [o|] eqn:E.
  - rewrite (ct_count _ _ C1 pos o E). by rewrite <- (ct_count _ _ C2 pos o E).
  - apply lookup_ge_None in E. rewrite (ct_ptrs _ _ C1) in E. rewrite !lookup_ge_None_2; [done| |].
    + by rewrite (ct_pins _ _ C1).
    + pose proof (ct_pins _ _ C2) as H. cbn in H. by rewrite H.
Qed.

Lemma set_pin_counted L L' st pos bt n : counted L st → baseTuplePointers st !! pos = Some (Some bt) → n = Z.of_nat (count bt L') →
  (∀ b, b ≠ bt → count b L' = count b L) → (∀ b, b ∈ L' → cached st b) → counted L' (set_pin st pos n).
Proof.
  intros [H1 H2 H3 H4 H5 H6 H7] Hpos -> Hne Hin. unfold set_pin. constructor; cbn [with_cache baseTuplePointers baseTuplePinCounts base_tuples baseTuplesCached]; try done.
  - by rewrite length_insert.
  - intros q o Ho. destruct (decide (pos = q)) as [<-|Hq].
    + rewrite list_lookup_insert_eq; [by rewrite Hpos in Ho; injection Ho as <-|]. rewrite H2, <- H1. by eapply lookup_lt_Some.
    + rewrite list_lookup_insert_ne, (H3 q o Ho) by done. destruct o as [b|]; [|done]. f_equal. f_equal. symmetry. apply Hne. intros ->. by apply Hq, (H4 _ _ bt).
Qed.

Lemma increment_ok L st bt : counted L st → cached st bt → ∃ pins, incrementBaseTuplePinCount bt st = Ok (set_pins st pins) ∧ counted (bt :: L) (set_pins st pins).
Proof.
  intros C Hb. unfold incrementBaseTuplePinCount, getPositionOfBaseTuplePointer. destruct (position_cached st bt Hb) as [pos E]. rewrite E.
  apply position_Some in E. rewrite (ct_count _ _ C pos _ E). cbn [access cbind]. destruct (Z.ltb_spec (Z.of_nat (count bt L)) 0); [lia|].
  eexists. split; [reflexivity|]. apply (set_pin_counted L (bt :: L) st pos bt); [done|done| | |].
  - rewrite count_cons, decide_True by done. lia.
  - intros b Hne. by rewrite count_cons, decide_False by congruence.
  - intros b [->|Hin]%elem_of_cons; [done|by apply (ct_cached _ _ C)].
Qed.

Lemma decrement_ok L st bt : counted (bt :: L) st → ∃ pins, decrementBaseTuplePinCount bt st = Ok (set_pins st pins) ∧ counted L (set_pins st pins).
Proof.
  intros C. unfold decrementBaseTuplePinCount, getPositionOfBaseTuplePointer.
  destruct (position_cached st bt (ct_cached _ _ C bt ltac:(by left))) as [pos E]. rewrite E. apply position_Some in E.
  pose proof (ct_count _ _ C pos _ E) as Hp. cbn in Hp. rewrite count_cons, decide_True in Hp by done. rewrite Hp. cbn [access cbind].
  destruct (Z.ltb_spec (Z.of_nat (1 + count bt L)) 1); [lia|]. eexists. split; [reflexivity|]. apply (set_pin_counted (bt :: L) L st pos bt); [done|done|lia| |].
  - intros b Hne. by rewrite count_cons, decide_False by congruence.
  - intros b Hin. apply (ct_cached _ _ C). by right.
Qed.

Lemma set_pins_twice st p1 p2 : set_pins (set_pins st p1) p2 = set_pins st p2.
Proof. done. Qed.
Lemma set_pins_same st : set_pins st (baseTuplePinCounts st) = st.
Proof. by destruct st. Qed.

Lemma increments_ok l : ∀ L st, counted L st → (∀ b, b ∈ l → cached st b) →
  ∃ pins, foreach incrementBaseTuplePinCount l st = Ok (set_pins st pins) ∧ counted (l ++ L) (set_pins st pins).
Proof.
  induction l as [|bt l IH]; intros L st C Hl; [exists (baseTuplePinCounts st); by rewrite set_pins_same|]. cbn [foreach].
  destruct (increment_ok L st bt C (Hl bt ltac:(by left))) as (pins & -> & C1). cbn [cbind].
  destruct (IH (bt :: L) (set_pins st pins) C1) as (pins2 & -> & C2); [intros b Hb; apply (Hl b); by right|].
  exists pins2. split; [done|]. cbn [app]. by rewrite Permutation_middle.
Qed.

Lemma decrements_ok l : ∀ L st, counted (l ++ L) st → ∃ pins, foreach decrementBaseTuplePinCount l st = Ok (set_pins st pins) ∧ counted L (set_pins st pins).
Proof.
  induction l as [|bt l IH]; intros L st C; [exists (baseTuplePinCounts st); by rewrite set_pins_same|]. cbn [foreach].
  destruct (decrement_ok (l ++ L) st bt C) as (pins & -> & C1). cbn [cbind].
  destruct (IH L (set_pins st pins) C1) as (pins2 & -> & C2). by exists pins2.
Qed.

(** ** New base tuples *)

Lemma first_free_Some pins pos : first_free pins = Some pos → pins !! pos = Some (-1).
Proof.
  revert pos. induction pins as [|n pins IH]; intros pos E; [done|]. cbn in E. destruct (Z.eqb_spec n (-1)) as [->|]; [by injection E as <-|].
  apply fmap_Some in E as (k & E & ->). by apply IH.
Qed.
Lemma first_free_None pins : first_free pins = None → -1 ∉ pins.
Proof.
  induction pins as [|n pins IH]; intros E; [apply not_elem_of_nil|]. cbn in E. destruct (Z.eqb_spec n (-1)) as [->|]; [done|].
  apply fmap_None in E. apply not_elem_of_cons. split; [done|by apply IH].
Qed.

Lemma omap_id_insert (l : list (option nat)) pos o : l !! pos = Some None → length (omap id (<[pos := Some o]> l)) = S (length (omap id l)).
Proof.
  revert pos. induction l as [|p l IH]; intros [|pos] E; try done; cbn in E.
  - by injection E as ->.
  - cbn. destruct p; cbn; by rewrite IH.
Qed.
Lemma omap_id_remove (l : list (option nat)) pos o : l !! pos = Some (Some o) → length (omap id l) = S (length (omap id (<[pos := None]> l))).
Proof.
  revert pos. induction l as [|p l IH]; intros [|pos] E; try done; cbn in E.
  - by injection E as ->.
  - cbn. destruct p; cbn; by rewrite (IH pos).
Qed.

(** The base tuples in the cache. *)
Definition in_cache st : list nat := omap id (baseTuplePointers st).
Lemma elem_of_in_cache st bt : bt ∈ in_cache st ↔ cached st bt.
Proof. unfold in_cache, cached. rewrite list_elem_of_omap. split; [intros (o & Ho & E); cbn in E; by subst|intros Ho; by exists (Some bt)]. Qed.

Lemma no_free_full L st : counted L st → first_free (baseTuplePinCounts st) = None → length (in_cache st) = MAX_BASE_TUPLES_CACHED.
Proof.
  intros C E%first_free_None. rewrite <- (ct_ptrs _ _ C). assert (∀ o, o ∈ baseTuplePointers st → is_Some o) as Hall.
  { intros o (pos & Hpos)%list_elem_of_lookup. destruct o as [b|]; [done|]. exfalso. apply E. pose proof (ct_count _ _ C pos None Hpos) as Hc. by eapply list_elem_of_lookup_2. }
  unfold in_cache. revert Hall. generalize (baseTuplePointers st) as l. induction l as [|o l IH]; intros Hall; [done|]. cbn.
  destruct (Hall o ltac:(by left)) as [b ->]. cbn. f_equal. apply IH. intros o' Ho'. apply Hall. by right.
Qed.

(** A base tuple that is live but not in the cache. *)
Definition but_live L bt st : Prop := counted L (with_base st (delete bt (base_tuples st)) (allocated st)) ∧ is_Some (base_tuples st !! bt).

Lemma add_to_cache_ok L bt st : but_live L bt st → (length (in_cache st) < MAX_BASE_TUPLES_CACHED)%nat →
  ∃ n ptrs pins, addBaseTuplePointerToCache bt st = Ok (with_cache st n ptrs pins) ∧ counted L (with_cache st n ptrs pins)
    ∧ length (omap id ptrs) = S (length (in_cache st)) ∧ ∀ b, Some b ∈ ptrs ↔ b = bt ∨ cached st b.
Proof.
  intros [C Hlive] Hroom. unfold addBaseTuplePointerToCache, getPositionOfBaseTuplePointer.
  assert (¬ cached st bt) as Hnot. { intros Hc. apply (ct_live _ _ C) in Hc as [h Hc]. cbn in Hc. by rewrite lookup_delete_eq in Hc. }
  destruct (position (baseTuplePointers st) bt) as [pos|] eqn:Ep; [exfalso; apply position_Some in Ep; by apply Hnot, (list_elem_of_lookup_2 _ pos)|].
  destruct (first_free (baseTuplePinCounts st)) as [pos|] eqn:Ef; [|pose proof (no_free_full L _ C Ef) as Hfull; unfold in_cache in *; cbn in Hfull; lia].
  pose proof (ct_number _ _ C) as Hn. cbn in Hn. rewrite Hn.
  rewrite (proj2 (Z.leb_le _ _)) by (unfold in_cache in Hroom; lia). cbn [cassert cbind].
  assert (baseTuplePointers st !! pos = Some None) as Hpos.
  { apply first_free_Some in Ef. destruct (baseTuplePointers st !! pos) as [[b|]|] eqn:E; [|done|].
    - pose proof (ct_count _ _ C pos _ E) as Hc. cbn in Hc. rewrite Ef in Hc. injection Hc as Hc. lia.
    - apply lookup_ge_None in E. apply lookup_lt_Some in Ef. pose proof (ct_ptrs _ _ C) as Hp. pose proof (ct_pins _ _ C) as Hq. cbn in Hp, Hq. lia. }
  assert (bt ∉ L) as HL. { intros Hin. by apply (ct_cached _ _ C) in Hin. }
  assert (pos < length (baseTuplePointers st))%nat as Hlt by (by eapply lookup_lt_Some).
  assert (∀ b, Some b ∈ <[pos := Some bt]> (baseTuplePointers st) ↔ b = bt ∨ cached st b) as Hin.
  { intros b. unfold cached. rewrite !list_elem_of_lookup. split.
    - intros (i & Hi). destruct (decide (pos = i)) as [<-|Hne].
      + rewrite list_lookup_insert_eq in Hi by done. injection Hi as ->. by left.
      + rewrite list_lookup_insert_ne in Hi by done. right. by exists i.
    - intros [->|(i & Hi)]; [exists pos; by apply list_lookup_insert_eq|]. exists i. rewrite list_lookup_insert_ne; [done|]. intros ->. congruence. }
  eexists _, _, _. split; [reflexivity|]. split; [|split; [by apply omap_id_insert|exact Hin]].
  destruct C as [H1 H2 H3 H4 H5 H6 H7]. cbn in H1, H2, H3, H4, H7. constructor; cbn [with_cache baseTuplePointers baseTuplePinCounts base_tuples baseTuplesCached].
  - by rewrite length_insert.
  - by rewrite length_insert.
  - intros i o Hi. destruct (decide (pos = i)) as [<-|Hne].
    + rewrite list_lookup_insert_eq in Hi by done. injection Hi as <-. rewrite list_lookup_insert_eq by (rewrite H2, <- H1; done). f_equal.
      destruct (count bt L) eqn:Ec; [done|]. exfalso. apply HL, count_pos. lia.
    + rewrite list_lookup_insert_ne in Hi by done. rewrite list_lookup_insert_ne by done. by apply H3.
  - assert (∀ i, <[pos := Some bt]> (baseTuplePointers st) !! i = Some (Some bt) → i = pos) as Hself.
    { intros i Hi. destruct (decide (pos = i)) as [|Hne]; [done|]. rewrite list_lookup_insert_ne in Hi by done. exfalso. by apply Hnot, (list_elem_of_lookup_2 _ i). }
    intros i j b Hi Hj. destruct (decide (b = bt)) as [->|Hb]; [by rewrite (Hself i Hi), (Hself j Hj)|].
    destruct (decide (pos = i)) as [<-|Hne]; [rewrite list_lookup_insert_eq in Hi by done; congruence|].
    destruct (decide (pos = j)) as [<-|Hne2]; [rewrite list_lookup_insert_eq in Hj by done; congruence|].
    rewrite list_lookup_insert_ne in Hi, Hj by done. by apply (H4 i j b).
  - intros b Hb. apply Hin. right. by apply H5.
  - intros b. unfold cached. cbn. rewrite Hin. specialize (H6 b). cbn in H6. unfold cached in H6 |- *. cbn in H6. split.
    + intros [->|Hc]; [done|]. apply H6 in Hc. destruct (decide (b = bt)) as [->|]; [done|]. by rewrite lookup_delete_ne in Hc.
    + intros Hs. destruct (decide (b = bt)) as [->|]; [by left|]. right. apply H6. by rewrite lookup_delete_ne.
  - rewrite omap_id_insert by done. lia.
Qed.

(** ** Base tuples that nothing refers to *)

Record rest_same st st' : Prop := {
  rs_entries : entries st' = entries st;
  rs_out : outputList st' = outputList st;
  rs_timeouts : timeoutRequests st' = timeoutRequests st;
  rs_allocated : (allocated st ≤ allocated st')%nat
}.
Lemma rest_same_refl st : rest_same st st.
Proof. done. Qed.
Lemma rest_same_trans st1 st2 st3 : rest_same st1 st2 → rest_same st2 st3 → rest_same st1 st3.
Proof. intros [] []. constructor; [congruence..|lia]. Qed.

Definition freed_below L (i : nat) st st' : Prop :=
  counted L st' ∧ rest_same st st' ∧ base_tuples st' ⊆ base_tuples st ∧
  ∀ pos bt, (pos < i)%nat → baseTuplePointers st' !! pos = Some (Some bt) → bt ∈ L.

Lemma free_one_ok L i st st1 : (i < MAX_BASE_TUPLES_CACHED)%nat → freed_below L i st st1 →
  ∃ st2, (let! n := access (baseTuplePinCounts st1 !! i) in
    if n =? 0 then
      let! p := access (baseTuplePointers st1 !! i) in
      let! bt := access p in
      let! st2 := free_base_tuple st1 bt in
      Ok (with_cache st2 (baseTuplesCached st2 - 1) (<[i := None]> (baseTuplePointers st2)) (<[i := -1]> (baseTuplePinCounts st2)))
    else Ok st1) = Ok st2 ∧ freed_below L (S i) st st2.
Proof.
  intros Hi (C & Rs & Hsub & Hbelow). destruct (lookup_lt_is_Some_2 (baseTuplePointers st1) i) as [o Ho]; [by rewrite (ct_ptrs _ _ C)|].
  rewrite (ct_count _ _ C i o Ho). cbn [access cbind]. destruct o as [bt|].
  2: { exists st1. split; [done|]. split; [done|]. split; [done|]. split; [done|]. intros pos b Hpos Hb. apply (Hbelow pos); [|done].
       destruct (decide (pos = i)) as [->|]; [congruence|lia]. }
  destruct (Z.eqb_spec (Z.of_nat (count bt L)) 0) as [E|E].
  2: { exists st1. split; [done|]. split; [done|]. split; [done|]. split; [done|]. intros pos b Hpos Hb.
       destruct (decide (pos = i)) as [->|]; [|apply (Hbelow pos); [lia|done]]. assert (b = bt) as -> by congruence. apply count_pos. lia. }
  rewrite Ho. cbn [access cbind]. unfold free_base_tuple.
  assert (cached st1 bt) as Hc by (by apply (list_elem_of_lookup_2 _ i)). pose proof Hc as Hlive. apply (ct_live _ _ C) in Hlive as [h Hh]. rewrite Hh.
  cbn [access cbind]. eexists. split; [reflexivity|]. split; [|split; [|split]].
  - destruct C as [H1 H2 H3 H4 H5 H6 H7]. constructor; cbn.
    + by rewrite length_insert.
    + by rewrite length_insert.
    + intros j o Hj. destruct (decide (i = j)) as [<-|Hne].
      * rewrite list_lookup_insert_eq in Hj by (by eapply lookup_lt_Some). injection Hj as <-. by rewrite list_lookup_insert_eq by (rewrite H2, <- H1; by eapply lookup_lt_Some).
      * rewrite list_lookup_insert_ne in Hj by done. rewrite list_lookup_insert_ne by done. by apply H3.
    + intros j k b Hj Hk. destruct (decide (i = j)) as [<-|]; [rewrite list_lookup_insert_eq in Hj by (by eapply lookup_lt_Some); done|].
      destruct (decide (i = k)) as [<-|]; [rewrite list_lookup_insert_eq in Hk by (by eapply lookup_lt_Some); done|].
      rewrite list_lookup_insert_ne in Hj, Hk by done. by apply (H4 j k b).
    + intros b Hb. pose proof (H5 b Hb) as (j & Hj)%list_elem_of_lookup. unfold cached. cbn. apply list_elem_of_lookup. exists j.
      rewrite list_lookup_insert_ne; [done|]. intros <-. assert (b = bt) as -> by congruence. apply count_pos in Hb. lia.
    + intros b. unfold cached. cbn. rewrite list_elem_of_lookup. destruct (decide (b = bt)) as [->|Hne].
      * rewrite lookup_delete_eq. split; [|by intros []]. intros (j & Hj). exfalso. destruct (decide (i = j)) as [<-|Hij].
        -- by rewrite list_lookup_insert_eq in Hj by (by eapply lookup_lt_Some).
        -- rewrite list_lookup_insert_ne in Hj by done. by apply Hij, (H4 i j bt).
      * rewrite lookup_delete_ne by congruence. rewrite <- H6. unfold cached. rewrite list_elem_of_lookup. split; intros (j & Hj); exists j.
        -- destruct (decide (i = j)) as [<-|Hij]; [by rewrite list_lookup_insert_eq in Hj by (by eapply lookup_lt_Some)|]. by rewrite list_lookup_insert_ne in Hj.
        -- rewrite list_lookup_insert_ne; [done|]. intros <-. congruence.
    + pose proof (omap_id_remove _ i bt Ho). lia.
  - destruct Rs as [E1 E2 E3]. by constructor.
  - etrans; [apply delete_subseteq|done].
  - intros pos b Hpos. cbn. destruct (decide (i = pos)) as [<-|Hne]; [by rewrite list_lookup_insert_eq by (by eapply lookup_lt_Some)|].
    rewrite list_lookup_insert_ne by done. apply Hbelow. lia.
Qed.

Lemma foreach_seq {A} (f : nat → A → cres A) (I : nat → A → Prop) k : ∀ n s, I n s → (∀ i s, (n ≤ i < n + k)%nat → I i s → ∃ s', f i s = Ok s' ∧ I (S i) s') →
  ∃ s', foreach f (seq n k) s = Ok s' ∧ I (n + k)%nat s'.
Proof.
  induction k as [|k IH]; intros n s Hn Hstep; [exists s; by rewrite Nat.add_0_r|]. cbn [seq foreach].
  destruct (Hstep n s ltac:(lia) Hn) as (s1 & -> & H1). cbn [cbind]. destruct (IH (S n) s1 H1) as (s2 & E & H2); [intros i s' Hi; apply Hstep; lia|].
  exists s2. split; [done|]. by replace (n + S k)%nat with (S n + k)%nat by lia.
Qed.

Lemma free_all_ok L st : counted L st →
  ∃ st', freeAllDoneBaseTuples st = Ok st' ∧ counted L st' ∧ rest_same st st' ∧ base_tuples st' ⊆ base_tuples st ∧ ∀ bt, cached st' bt ↔ bt ∈ L.
Proof.
  intros C. unfold freeAllDoneBaseTuples. match goal with |- ∃ _, foreach ?f _ _ = _ ∧ _ =>
    destruct (foreach_seq f (λ i s, freed_below L i st s) MAX_BASE_TUPLES_CACHED 0%nat st) as (st' & E & (C' & Rs & Hsub & Hb)) end.
  - split; [exact C|]. split; [apply rest_same_refl|]. split; [done|]. intros pos bt Hpos. lia.
  - intros i s Hi Hs. cbn beta. destruct (free_one_ok L i st s ltac:(lia) Hs) as (s' & E' & Hs'). by exists s'.
  - exists st'. split; [exact E|]. split; [exact C'|]. split; [exact Rs|]. split; [exact Hsub|]. intros bt. split; [|apply (ct_cached _ _ C')].
    intros (pos & Hpos)%list_elem_of_lookup. apply (Hb pos); [|done]. rewrite Nat.add_0_l, <- (ct_ptrs _ _ C'). by eapply lookup_lt_Some.
Qed.

(** ** Events *)

(** The counts depend on the cache only. *)
Lemma counted_cache L st st' : counted L st → baseTuplePointers st' = baseTuplePointers st → baseTuplePinCounts st' = baseTuplePinCounts st →
  base_tuples st' = base_tuples st → baseTuplesCached st' = baseTuplesCached st → counted L st'.
Proof.
  intros [H1 H2 H3 H4 H5 H6 H7] E1 E2 E3 E4. constructor; rewrite ?E1, ?E2, ?E3, ?E4; try done; unfold cached; rewrite ?E1; [exact H5|exact H6].
Qed.

Definition ev_ok e : Prop := length (t_base_tuples (tup e)) = TCQMAXSOURCES.

Lemma add_to_none l : add_base_tuples (replicate (length l) None) l = Ok (l : list (option nat)).
Proof. induction l as [|[a|] l IH]; [done| |]; cbn [replicate length add_base_tuples]; rewrite IH; done. Qed.

Lemma add_created e : ev_ok e →
  ∃ t, AddBaseTuples CreateIntermediateHeapTuple (tup e) = Ok t ∧ t_base_tuples t = t_base_tuples (tup e).
Proof.
  intros He. unfold AddBaseTuples. cbn [t_base_tuples CreateIntermediateHeapTuple]. rewrite <- He, add_to_none. cbn [cbind]. by eexists.
Qed.

(** The base tuples of two events. *)
Definition merged {A} (l1 l2 : list (option A)) : list (option A) := zip_with (λ a b, match a with Some h => Some h | None => b end) l1 l2.

Lemma overlap_ok l1 : ∀ l2, length l1 = length l2 →
  existsb (λ ab : option nat * option nat, match ab with (Some a, Some b) => negb (bool_decide (a = b)) | _ => false end) (zip l1 l2) = false →
  add_overlapping l1 l2 = Ok (merged l1 l2).
Proof.
  induction l1 as [|a l1 IH]; intros [|b l2] Hlen Hc; try done. cbn [zip_with existsb] in Hc. apply orb_false_iff in Hc as [Hab Hc].
  cbn [add_overlapping]. rewrite (IH l2) by (done || by injection Hlen). destruct a as [x|], b as [y|]; try done.
  apply negb_false_iff in Hab. apply bool_decide_eq_true in Hab as ->. by rewrite bool_decide_eq_true_2.
Qed.

Lemma merged_in l1 : ∀ l2 bt, length l1 = length l2 → Some bt ∈ merged l1 l2 → Some bt ∈ l1 ∨ Some bt ∈ l2.
Proof.
  induction l1 as [|a l1 IH]; intros [|b l2] bt Hlen Hin; try done; [by apply elem_of_nil in Hin|]. cbn [merged zip_with] in Hin. apply elem_of_cons in Hin as [Hin|Hin].
  - destruct a as [x|]; [left|right]; rewrite Hin; by left.
  - destruct (IH l2 bt ltac:(by injection Hlen) Hin); [left|right]; by right.
Qed.

Lemma elem_of_pointers e bt : bt ∈ pointers e ↔ Some bt ∈ t_base_tuples (tup e).
Proof. unfold pointers. rewrite list_elem_of_omap. split; [intros (o & Ho & E); cbn in E; by subst|intros Ho; by exists (Some bt)]. Qed.

Definition known st e : Prop := ev_ok e ∧ ∀ bt, bt ∈ pointers e → cached st bt.

Lemma replicate_ok L st e : counted L st → known st e →
  ∃ t pins, replicateEvent e st = Ok (mkEvent t (event_timestamp e), set_pins st pins) ∧ t_base_tuples t = t_base_tuples (tup e)
    ∧ counted (pointers e ++ L) (set_pins st pins).
Proof.
  intros C [He Hk]. unfold replicateEvent. destruct (add_created e He) as (t & -> & Et). cbn [cbind]. unfold incrementBaseTuplePinCountsForEvent.
  assert (pointers (mkEvent t (event_timestamp e)) = pointers e) as -> by (unfold pointers; cbn; by rewrite Et).
  destruct (increments_ok (pointers e) L st C Hk) as (pins & -> & C'). cbn [cbind]. by exists t, pins.
Qed.

Lemma combine_ok L st e1 e2 : counted L st → known st e1 → known st e2 → haveSimpleEventConflict e1 e2 = false →
  ∃ e pins, combineEvents e1 e2 st = Ok (e, set_pins st pins) ∧ t_base_tuples (tup e) = merged (t_base_tuples (tup e1)) (t_base_tuples (tup e2))
    ∧ event_timestamp e = Z.max (event_timestamp e1) (event_timestamp e2) ∧ known st e ∧ counted (pointers e ++ L) (set_pins st pins)
    ∧ ∀ bt, bt ∈ pointers e → bt ∈ pointers e1 ∨ bt ∈ pointers e2.
Proof.
  intros C [He1 Hk1] [He2 Hk2] Hno. unfold combineEvents. destruct (add_created e1 He1) as (t & -> & Et). cbn [cbind]. unfold AddBaseTuplesAllowingOverlap. rewrite Et.
  unfold ev_ok in He1, He2. rewrite overlap_ok by (exact Hno || congruence). cbn [cbind]. set (e := mkEvent _ _).
  assert (∀ bt, bt ∈ pointers e → bt ∈ pointers e1 ∨ bt ∈ pointers e2) as Hin.
  { intros bt Hin. rewrite !elem_of_pointers in *. apply merged_in; [congruence|exact Hin]. }
  assert (known st e) as Hk.
  { split; [unfold ev_ok; cbn; unfold merged; rewrite length_zip_with; lia|]. intros bt Hb. destruct (Hin bt Hb); [by apply Hk1|by apply Hk2]. }
  destruct (increments_ok (pointers e) L st C (proj2 Hk)) as (pins & E & C'). unfold incrementBaseTuplePinCountsForEvent. rewrite E. cbn [cbind].
  exists e, pins. split; [done|]. split; [done|]. split; [|done]. cbn. unfold ts_max. destruct (Z.ltb_spec (event_timestamp e1) (event_timestamp e2)); lia.
Qed.

Lemma delete_event_ok L st e : counted (pointers e ++ L) st → ∃ pins, deleteEvent e st = Ok (set_pins st pins) ∧ counted L (set_pins st pins).
Proof. apply decrements_ok. Qed.

(** ** Entries *)

Definition Counted (held : list nat) st : Prop := counted (refs (entries st) ++ held) st.

Lemma delete_entry_ok held st ee x : Counted held st → entries st !! ee = Some x →
  ∃ pins, deleteEventEntry ee st = Ok (free_entry (set_pins st pins) ee) ∧ Counted held (free_entry (set_pins st pins) ee).
Proof.
  intros C Hx. unfold deleteEventEntry, get_entry. rewrite Hx. cbn [access cbind]. unfold Counted in C. rewrite (refs_delete _ _ _ Hx), <- app_assoc in C.
  destruct (delete_event_ok _ _ _ C) as (pins & -> & C'). cbn [cbind]. exists pins. split; [done|]. unfold Counted. by eapply counted_cache.
Qed.

Definition drop_entries l st pins : Store HT := with_entries (set_pins st pins) (drop_keys l (entries st)) (allocated st).

Lemma delete_entries_ok held l : ∀ st, Counted held st → NoDup l → (∀ ee, ee ∈ l → is_Some (entries st !! ee)) →
  ∃ pins, foreach deleteEventEntry l st = Ok (drop_entries l st pins) ∧ Counted held (drop_entries l st pins).
Proof.
  induction l as [|ee l IH]; intros st C Hnd Hl.
  - exists (baseTuplePinCounts st). assert (drop_entries [] st (baseTuplePinCounts st) = st) as -> by (by destruct st). done.
  - apply NoDup_cons in Hnd as [Hee Hnd]. destruct (Hl ee ltac:(by left)) as [x Hx]. cbn [foreach].
    destruct (delete_entry_ok held st ee x C Hx) as (pins & -> & C'). cbn [cbind].
    destruct (IH (free_entry (set_pins st pins) ee) C' Hnd) as (pins2 & -> & C2).
    + intros a Ha. cbn. rewrite lookup_delete_ne by congruence. apply Hl. by right.
    + by exists pins2.
Qed.

Lemma set_entry_counted held st ee x y : Counted held st → entries st !! ee = Some x → event y = event x → Counted held (set_entry st ee y).
Proof. intros C Hx Ey. unfold Counted. cbn. rewrite (refs_update _ _ _ _ Hx Ey). by eapply counted_cache. Qed.

Lemma free_entry_counted held st ee x : Counted held st → entries st !! ee = Some x → Counted (pointers (event x) ++ held) (free_entry st ee).
Proof.
  intros C Hx. unfold Counted in *. cbn. rewrite (refs_delete _ _ _ Hx) in C. rewrite Permutation_app_swap_app, app_assoc. by eapply counted_cache.
Qed.

(** Addresses in use are not given again. *)
Class PallocFresh : Prop := palloc_fresh n X : palloc n X ∉ X.
Context `{Hfresh : !PallocFresh}.

Lemma new_address_fresh st : entries st !! new_address st = None ∧ base_tuples st !! new_address st = None.
Proof. pose proof (palloc_fresh (allocated st) (dom (entries st) ∪ dom (base_tuples st))) as Hf. apply not_elem_of_union in Hf as [H1 H2]. by rewrite <- !not_elem_of_dom. Qed.

Definition new_entry e : EventEntry := mkEntry e [] false false.

Lemma detect_counted p held st e : counted (pointers e ++ refs (entries st) ++ held) st → Counted held (detect p (e, st)).
Proof.
  intros C. pose proof (new_address_fresh st) as [Hn _]. unfold Counted, detect. cbn. rewrite (refs_insert _ _ (new_entry e) Hn). cbn [event new_entry].
  rewrite <- app_assoc. by eapply counted_cache.
Qed.

(** ** An event has come *)

Lemma copy_none l st : (∀ o, o ∈ l → o = None) → copy_base_tuples_into_context l st = (replicate (length l) None, st).
Proof.
  induction l as [|o l IH]; intros Hl; [done|]. assert (o = None) as -> by (apply Hl; by left). cbn [copy_base_tuples_into_context length replicate].
  rewrite IH; [done|]. intros o Ho. apply Hl. by right.
Qed.

Lemma copy_one i : ∀ (l : list (option HT)) h st, l !! i = Some (Some h) → (∀ j o, l !! j = Some (Some o) → j = i) →
  copy_base_tuples_into_context l st = (<[i := Some (new_address st)]> (replicate (length l) None), with_base st (<[new_address st := h]> (base_tuples st)) (S (allocated st))).
Proof.
  induction i as [|i IH]; intros [|o l] h st Hi Hone; try done; cbn in Hi.
  - injection Hi as ->. cbn [copy_base_tuples_into_context length replicate]. rewrite copy_none; [done|].
    intros [o|] (j & Hj)%list_elem_of_lookup; [|done]. by specialize (Hone (S j) o Hj).
  - assert (o = None) as -> by (destruct o as [o|]; [by specialize (Hone 0%nat o eq_refl)|done]). cbn [copy_base_tuples_into_context length replicate].
    rewrite (IH l h st Hi); [done|]. intros j o Hj. specialize (Hone (S j) o Hj). lia.
Qed.

Lemma omap_one (i n a : nat) : (i < n)%nat → omap id (<[i := Some a]> (replicate n None)) = [a].
Proof.
  revert i. induction n as [|n IH]; intros [|i] Hi; [lia|lia| |].
  - cbn. f_equal. clear. induction n as [|n IH]; [done|exact IH].
  - cbn. apply IH. lia.
Qed.

(** The arriving tuple is cached, with the one pointer of the event. *)
Lemma copy_event_ok L st (t : IHT HT) i h ts : counted L st → (length (in_cache st) < MAX_BASE_TUPLES_CACHED)%nat →
  length (t_base_tuples t) = TCQMAXSOURCES → t_base_tuples t !! i = Some (Some h) → (∀ j o, t_base_tuples t !! j = Some (Some o) → j = i) →
  ∃ b s st', copyEventInPrivateContext t ts st = Ok (mkEvent (mkIHT b s (t_ready (copyIntermediateHeapTuple CreateIntermediateHeapTuple t))
      (t_done (copyIntermediateHeapTuple CreateIntermediateHeapTuple t)) (t_queriesCompleted (copyIntermediateHeapTuple CreateIntermediateHeapTuple t)) (isAggTuple t)) ts, st')
    ∧ b = <[i := Some (new_address st)]> (replicate TCQMAXSOURCES None) ∧ s = t_sources (copyIntermediateHeapTuple CreateIntermediateHeapTuple t)
    ∧ counted (new_address st :: L) st' ∧ rest_same st st' ∧ base_tuples st' = <[new_address st := h]> (base_tuples st).
Proof.
  intros C Hroom Hlen Hi Hone. unfold copyEventInPrivateContext. cbn [t_base_tuples copyIntermediateHeapTuple].
  rewrite (copy_one i _ h) by done. rewrite Hlen. set (st1 := with_base _ _ _). set (e := mkEvent _ _).
  assert (i < TCQMAXSOURCES)%nat as Hlt by (rewrite <- Hlen; by eapply lookup_lt_Some).
  assert (pointers e = [new_address st]) as Ep by (unfold pointers, e; cbn [tup t_base_tuples]; by apply omap_one).
  pose proof (new_address_fresh st) as [_ Hf].
  assert (but_live L (new_address st) st1) as Hb.
  { split; [|cbn; by rewrite lookup_insert_eq]. cbn. rewrite delete_insert_id by done. by eapply counted_cache. }
  unfold addBaseTuplePointersToCacheForEvent. rewrite Ep. cbn [foreach].
  destruct (add_to_cache_ok L (new_address st) st1 Hb Hroom) as (n & ptrs & pins & -> & C1 & _ & Hin). cbn [cbind]. unfold incrementBaseTuplePinCountsForEvent. rewrite Ep.
  destruct (increments_ok [new_address st] L _ C1) as (pins2 & -> & C2). { intros b ->%list_elem_of_singleton. apply Hin. by left. }
  cbn [cbind]. eexists _, _, _. split; [reflexivity|]. split; [done|]. split; [done|]. split; [exact C2|]. split; [constructor; [done..|cbn; lia]|done].
Qed.
End mem.
End EventsMem.
