(* ===== verification/EventsInv.v ===== *)
(** * Event aggregates: the invariant

    Every entry is on exactly one list, the counts are those of the events of the
    entries, and the work at a node keeps this; what it adds to the requests for
    timeouts is bounded, depth by depth, by the entries that have not made one. *)

From S2P Require Import Prelude BitArray GSFilter Eddy EddyGSF Stem Window WindowSpec Events EventsMem.

Module EventsInv.
Import Bit Eddy Stem Window WindowSpec Events EventsMem.
Local Open Scope Z_scope.

Lemma filter_agrees {A} (P Q : A → Prop) `{∀ x, Decision (P x)} `{∀ x, Decision (Q x)} (l : list A) :
  (∀ x, x ∈ l → P x ↔ Q x) → filter P l = filter Q l.
Proof.
  induction l as [|a l IH]; intros Hpq; [done|]. rewrite !filter_cons, IH by (intros x Hx; apply Hpq; by right).
  pose proof (Hpq a ltac:(by left)) as Ha. repeat case_decide; tauto || done.
Qed.

(** ** Lists by node *)

Section lists.
Implicit Types (P : node → bool) (o : gmap node (list nat)) (p : node) (l : list nat).

Definition lists_at P o : list nat := map_to_list o ≫= λ kv, if P kv.1 then kv.2 else [].
Definition out_of o p : list nat := default [] (o !! p).

Lemma lists_at_delete P o p : lists_at P o ≡ₚ (if P p then out_of o p else []) ++ lists_at P (delete p o).
Proof.
  unfold lists_at, out_of. destruct (o !! p) as [l|] eqn:E; cbn [default].
  - rewrite <- (map_to_list_delete o p l E). done.
  - rewrite delete_id by done. by destruct (P p).
Qed.
Lemma lists_at_insert P o p l : lists_at P (<[p := l]> o) ≡ₚ (if P p then l else []) ++ lists_at P (delete p o).
Proof. rewrite (lists_at_delete P (<[p := l]> o) p), delete_insert_eq. unfold out_of. by rewrite lookup_insert_eq. Qed.

Lemma out_of_in P o p ee : P p = true → ee ∈ out_of o p → ee ∈ lists_at P o.
Proof. intros HP Hin. rewrite (lists_at_delete P o p), HP. apply elem_of_app. by left. Qed.

Lemma lists_at_sub P o p l : (∀ ee, ee ∈ l → ee ∈ out_of o p) → ∀ ee, ee ∈ lists_at P (<[p := l]> o) → ee ∈ lists_at P o.
Proof.
  intros Hl ee. rewrite lists_at_insert, (lists_at_delete P o p). rewrite !elem_of_app. intros [Hin|Hin]; [left|by right].
  destruct (P p); [by apply Hl|done].
Qed.
End lists.

Definition everywhere : node → bool := λ _, true.
Definition at_depth (j : nat) : node → bool := λ p, bool_decide (length p = j).

Section inv.
Context {HT : Type} `{Hcal : !Calendar} `{Hpal : !Palloc} `{Henv : !EventEnv HT} `{Hfresh : !PallocFresh}.
Implicit Types (st : Store HT) (e : Event) (m : gmap nat EventEntry) (bt ee : nat) (p : node).

Lemma get_out_of st p : get_out st p = out_of (outputList st) p.
Proof. done. Qed.

Definition locs m : list nat := (map_to_list m).*1.
Lemma elem_of_locs m ee : ee ∈ locs m ↔ is_Some (m !! ee).
Proof.
  unfold locs. rewrite list_elem_of_fmap. split.
  - intros ([a x] & -> & Hin). apply elem_of_map_to_list in Hin. by exists x.
  - intros [x Hx]. exists (ee, x). split; [done|]. by apply elem_of_map_to_list.
Qed.
Lemma locs_insert m a x : m !! a = None → locs (<[a := x]> m) ≡ₚ a :: locs m.
Proof. intros Ha. unfold locs. by rewrite (map_to_list_insert m a x Ha). Qed.
Lemma locs_delete m a x : m !! a = Some x → locs m ≡ₚ a :: locs (delete a m).
Proof. intros Ha. rewrite <- (locs_insert (delete a m) a x) by apply lookup_delete_eq. by rewrite insert_delete_id. Qed.
Lemma locs_update m a x y : m !! a = Some x → locs (<[a := y]> m) ≡ₚ locs m.
Proof. intros Ha. rewrite (locs_delete m a x Ha), <- insert_delete_eq, locs_insert by apply lookup_delete_eq. done. Qed.
Lemma locs_NoDup m : NoDup (locs m).
Proof. apply NoDup_fst_map_to_list. Qed.
Lemma locs_drop l : ∀ m, NoDup l → (∀ ee, ee ∈ l → is_Some (m !! ee)) → locs m ≡ₚ l ++ locs (drop_keys l m).
Proof.
  induction l as [|a l IH]; intros m Hnd Hl; [done|]. apply NoDup_cons in Hnd as [Ha Hnd]. destruct (Hl a ltac:(by left)) as [x Hx].
  rewrite (locs_delete m a x Hx). cbn [app]. f_equiv. apply IH; [done|]. intros ee Hee. rewrite lookup_delete_ne by congruence. apply Hl. by right.
Qed.

(** Timestamps that a delay can be added to. *)
Definition delay_ok (i : Interval) : Prop := month i = 0 ∧ Z.abs (time i) < 2 ^ 61.
Definition time_ok (t : Z) : Prop := Z.abs t < 2 ^ 61.
Lemma plus_ok t i : time_ok t → delay_ok i → ts_plus_interval t i = Ok (t + time i).
Proof. intros Ht [Hm Hi]. by apply pl_span_ok. Qed.

Fixpoint delays_ok (ex : EventExpr) : Prop :=
  match ex with
  | EVENT_SIMPLE _ => True
  | EVENT_COMPLEX _ d l r => delay_ok d ∧ delays_ok l ∧ delays_ok r
  end.
Lemma delays_at root p ex : delays_ok root → node_at root p = Some ex → delays_ok ex.
Proof.
  intros Hr. revert ex. induction p as [|s q IH]; intros ex E; cbn in E; [by injection E as <-|].
  destruct (node_at root q) as [[|op d l r]|]; [done| |done]. specialize (IH _ eq_refl) as (_ & Hl & Hr'). injection E as <-. by destruct s.
Qed.

Context (root : EventExpr) (Hdelays : delays_ok root) (R : list nat).

(** [held] are the references of events that are on no list. *)
Record Inv (held : list nat) st : Prop := {
  iv_counted : Counted held st;
  iv_linked : lists_at everywhere (outputList st) ≡ₚ locs (entries st);
  iv_event ee x : entries st !! ee = Some x → ev_ok (event x) ∧ time_ok (event_timestamp (event x)) ∧ ∀ bt, bt ∈ pointers (event x) → bt ∈ R;
  iv_timeouts p ts : (p, ts) ∈ timeoutRequests st → is_Some (node_at root p)
}.

Lemma iv_known held st ee x : Inv held st → entries st !! ee = Some x → known st (event x).
Proof.
  intros I Hx. split; [by apply (iv_event _ _ I ee)|]. intros bt Hb. apply (ct_cached _ _ (iv_counted _ _ I)). apply elem_of_app. left.
  apply elem_of_refs. by exists ee, x.
Qed.

Lemma iv_listed held st p ee : Inv held st → ee ∈ get_out st p → is_Some (entries st !! ee).
Proof.
  intros I Hin. apply elem_of_locs. rewrite <- (iv_linked _ _ I). by apply (out_of_in everywhere _ p).
Qed.

Lemma iv_NoDup held st : Inv held st → NoDup (lists_at everywhere (outputList st)).
Proof. intros I. rewrite (iv_linked _ _ I). apply locs_NoDup. Qed.
Lemma iv_NoDup_out held st p : Inv held st → NoDup (get_out st p).
Proof. intros I. pose proof (iv_NoDup _ _ I) as Hnd. rewrite (lists_at_delete everywhere _ p) in Hnd. by apply NoDup_app in Hnd as [? _]. Qed.
Lemma iv_apart held st p q ee : Inv held st → ee ∈ get_out st p → ee ∈ get_out st q → p = q.
Proof.
  intros I Hp Hq. destruct (decide (p = q)) as [|Hne]; [done|]. exfalso. pose proof (iv_NoDup _ _ I) as Hnd. rewrite (lists_at_delete everywhere _ p) in Hnd.
  apply NoDup_app in Hnd as (_ & Hd & _). apply (Hd ee Hp). apply (out_of_in everywhere _ q); [done|]. unfold out_of. rewrite lookup_delete_ne by done. exact Hq.
Qed.

(** ** What is left to be requested *)

Definition requested m ee : bool := match m !! ee with Some x => requestedTimeout x | None => true end.
Definition unrequested m (l : list nat) : nat := length (filter (λ ee, requested m ee = false) l).

#[global] Instance unrequested_proper m : Proper (Permutation ==> eq) (unrequested m).
Proof. intros l1 l2 E. unfold unrequested. by rewrite E. Qed.
Lemma unrequested_app m l1 l2 : unrequested m (l1 ++ l2) = (unrequested m l1 + unrequested m l2)%nat.
Proof. unfold unrequested. by rewrite filter_app, length_app. Qed.
Lemma unrequested_le m m' l : (∀ ee, ee ∈ l → requested m ee = true → requested m' ee = true) → (unrequested m' l ≤ unrequested m l)%nat.
Proof.
  unfold unrequested. induction l as [|a l IH]; intros Hl; [done|]. rewrite !filter_cons.
  assert (length (filter (λ ee, requested m' ee = false) l) ≤ length (filter (λ ee, requested m ee = false) l))%nat as IH' by (apply IH; intros ee ?; apply Hl; by right).
  destruct (requested m a) eqn:E; [rewrite (Hl a) by (done || by left); done|]. rewrite (decide_True (P := false = false)) by done. case_decide; cbn [length]; lia.
Qed.

(** Requests made at a depth, and entries below it that may still make one. *)
Definition weight (j : nat) st : nat :=
  length (filter (λ r : node * Z, length r.1 = j) (timeoutRequests st)) + unrequested (entries st) (lists_at (at_depth (S j)) (outputList st)).

Definition calmer (k : nat) st st' : Prop := ∀ j, (k ≤ j)%nat → (weight j st' ≤ weight j st)%nat.

Lemma calmer_refl k st : calmer k st st.
Proof. by intros j _. Qed.
Lemma calmer_trans k st1 st2 st3 : calmer k st1 st2 → calmer k st2 st3 → calmer k st1 st3.
Proof. intros H1 H2 j Hj. specialize (H1 j Hj). specialize (H2 j Hj). lia. Qed.
Lemma calmer_weaken k k' st st' : (k ≤ k')%nat → calmer k st st' → calmer k' st st'.
Proof. intros Hk Hc j Hj. apply Hc. lia. Qed.

(** A list of which some entries are kept, and the others are gone. *)
Lemma calmer_out k st st' p l : timeoutRequests st' = timeoutRequests st → outputList st' = <[p := l]> (outputList st) →
  (∃ l', out_of (outputList st) p ≡ₚ l ++ l') → (∀ ee, requested (entries st) ee = true → requested (entries st') ee = true) → calmer k st st'.
Proof.
  intros Et Eo [l' Hl] Hr j _. unfold weight. rewrite Et, Eo. apply Nat.add_le_mono_l.
  etrans; [apply (unrequested_le (entries st)); intros ee _; apply Hr|]. rewrite lists_at_insert, (lists_at_delete _ (outputList st) p), !unrequested_app.
  destruct (at_depth (S j) p); [|lia]. rewrite Hl, unrequested_app. lia.
Qed.
Lemma calmer_entries k st st' : timeoutRequests st' = timeoutRequests st → outputList st' = outputList st →
  (∀ ee, requested (entries st) ee = true → requested (entries st') ee = true) → calmer k st st'.
Proof.
  intros Et Eo Hr j _. unfold weight. rewrite Et, Eo. apply Nat.add_le_mono_l. apply unrequested_le. intros ee _. apply Hr.
Qed.

Lemma requested_drop l m ee : requested m ee = true → requested (drop_keys l m) ee = true.
Proof. unfold requested. rewrite drop_keys_lookup. by case_decide. Qed.
Lemma requested_update m a x y ee : m !! a = Some x → (requestedTimeout x = true → requestedTimeout y = true) → requested m ee = true → requested (<[a := y]> m) ee = true.
Proof.
  unfold requested. intros Ha Hxy. destruct (decide (a = ee)) as [<-|]; [rewrite lookup_insert_eq, Ha; done|]. by rewrite lookup_insert_ne.
Qed.

(** ** Expiry *)

Lemma drop_inv held held' st p l keep pins : Inv held st → get_out st p ≡ₚ keep ++ l → Counted held' (drop_entries l st pins) →
  Inv held' (set_out (drop_entries l st pins) p keep).
Proof.
  intros I Hl C. assert (NoDup l ∧ ∀ ee, ee ∈ l → is_Some (entries st !! ee)) as [Hnd Hin].
  { split.
    - pose proof (iv_NoDup_out held st p I) as Hnd. rewrite Hl in Hnd. by apply NoDup_app in Hnd as (_ & _ & ?).
    - intros ee Hee. apply (iv_listed held st p); [done|]. rewrite Hl. apply elem_of_app. by right. }
  constructor.
  - unfold Counted in *. by eapply counted_cache.
  - cbn [outputList set_out with_out entries drop_entries with_entries set_pins with_cache].
    rewrite lists_at_insert. cbn [everywhere]. pose proof (iv_linked _ _ I) as Hk. rewrite (lists_at_delete everywhere _ p) in Hk. cbn [everywhere] in Hk.
    rewrite get_out_of in Hl. rewrite Hl in Hk. rewrite (locs_drop l _ Hnd Hin) in Hk. rewrite <- app_assoc in Hk. rewrite Permutation_app_swap_app in Hk. by apply Permutation_app_inv_l in Hk.
  - intros ee x Hx. cbn in Hx. rewrite drop_keys_lookup in Hx. case_decide; [done|]. by apply (iv_event _ _ I ee).
  - apply (iv_timeouts _ _ I).
Qed.

Lemma expire_all_ok held st p k : Inv held st →
  ∃ st', expire_all st p = Ok st' ∧ Inv held st' ∧ calmer k st st' ∧ timeoutRequests st' = timeoutRequests st
    ∧ (base_tuples st', allocated st') = (base_tuples st, allocated st)
    ∧ outputList st' = <[p := []]> (outputList st) ∧ entries st' = drop_keys (get_out st p) (entries st).
Proof.
  intros I. unfold expire_all, expireAllEventsFromList.
  destruct (delete_entries_ok held (get_out st p) st (iv_counted _ _ I)) as (pins & -> & C).
  - by apply (iv_NoDup_out held).
  - intros ee. by apply (iv_listed held).
  - cbn [cbind]. eexists. split; [reflexivity|]. split; [by eapply drop_inv|]. split; [|done].
    apply (calmer_out k _ _ p []); [done|done|by exists (get_out st p)|]. intros ee. apply requested_drop.
Qed.

Definition lasts (m : gmap nat EventEntry) (ts : Z) (i : Interval) (ee : nat) : Prop :=
  match m !! ee with Some x => ts ≤ event_timestamp (event x) + time i | None => False end.
#[global] Instance lasts_dec m ts i ee : Decision (lasts m ts i ee).
Proof. unfold lasts. destruct (m !! ee); apply _. Defined.

Lemma expire_list_ok held ts i (Hi : delay_ok i) l : ∀ st, Counted held st → NoDup l →
  (∀ ee, ee ∈ l → ∃ x, entries st !! ee = Some x ∧ time_ok (event_timestamp (event x))) →
  ∃ pins, let gone := filter (λ ee, ¬ lasts (entries st) ts i ee) l in
    expireEventsFromListIntervalBased l ts i st = Ok (filter (lasts (entries st) ts i) l, drop_entries gone st pins) ∧ Counted held (drop_entries gone st pins).
Proof.
  induction l as [|ee l IH]; intros st C Hnd Hl.
  - exists (baseTuplePinCounts st). cbn. assert (drop_entries [] st (baseTuplePinCounts st) = st) as -> by (by destruct st). done.
  - apply NoDup_cons in Hnd as [Hee Hnd]. destruct (Hl ee ltac:(by left)) as (x & Hx & Ht). cbn [expireEventsFromListIntervalBased].
    unfold get_entry. rewrite Hx. cbn [access cbind]. rewrite (plus_ok _ _ Ht Hi). cbn [cbind]. unfold ts_geq.
    assert (lasts (entries st) ts i ee ↔ ts ≤ event_timestamp (event x) + time i) as Hlast by (unfold lasts; by rewrite Hx).
    rewrite !filter_cons. destruct (Z.leb_spec ts (event_timestamp (event x) + time i)).
    + destruct (IH st C Hnd) as (pins & -> & C'); [intros a Ha; apply Hl; by right|]. cbn [cbind]. exists pins. cbn zeta.
      rewrite decide_True by (by apply Hlast). rewrite decide_False by (intros Hn; apply Hn; by apply Hlast). by split.
    + destruct (delete_entry_ok held st ee x C Hx) as (pins & -> & C1). cbn [cbind].
      destruct (IH (free_entry (set_pins st pins) ee) C1 Hnd) as (pins2 & E2 & C2).
      { intros a Ha. cbn. rewrite lookup_delete_ne by congruence. apply Hl. by right. }
      exists pins2. cbn zeta in *. rewrite E2. rewrite decide_False by (rewrite Hlast; lia). rewrite decide_True by (rewrite Hlast; lia).
      assert (∀ a, a ∈ l → lasts (entries (free_entry (set_pins st pins) ee)) ts i a ↔ lasts (entries st) ts i a) as Hsame.
      { intros a Ha. unfold lasts. cbn. by rewrite lookup_delete_ne by congruence. }
      rewrite (filter_agrees (lasts (entries (free_entry (set_pins st pins) ee)) ts i) (lasts (entries st) ts i) l) in * by done.
      rewrite (filter_agrees (λ a, ¬ lasts (entries (free_entry (set_pins st pins) ee)) ts i a) (λ a, ¬ lasts (entries st) ts i a) l) in *
        by (intros a Ha; by rewrite Hsame).
      done.
Qed.

Lemma expire_interval_ok held st p ts i k : Inv held st → delay_ok i →
  ∃ st', expire_interval st p ts i = Ok st' ∧ Inv held st' ∧ calmer k st st' ∧ timeoutRequests st' = timeoutRequests st ∧ (base_tuples st', allocated st') = (base_tuples st, allocated st)
    ∧ outputList st' = <[p := filter (lasts (entries st) ts i) (get_out st p)]> (outputList st)
    ∧ entries st' = drop_keys (filter (λ ee, ¬ lasts (entries st) ts i ee) (get_out st p)) (entries st).
Proof.
  intros I Hi. unfold expire_interval.
  destruct (expire_list_ok held ts i Hi (get_out st p) st (iv_counted _ _ I)) as (pins & E & C).
  - by apply (iv_NoDup_out held).
  - intros ee Hee. destruct (iv_listed held st p ee I Hee) as [x Hx]. exists x. split; [done|]. by apply (iv_event _ _ I ee).
  - cbn zeta in E, C. rewrite E. cbn [cbind].
    assert (get_out st p ≡ₚ filter (lasts (entries st) ts i) (get_out st p) ++ filter (λ ee, ¬ lasts (entries st) ts i ee) (get_out st p)) as Hsplit.
    { generalize (get_out st p) as l. clear. induction l as [|a l IH]; [done|]. rewrite !filter_cons. destruct (decide (lasts (entries st) ts i a)).
      - rewrite (decide_False (P := ¬ lasts (entries st) ts i a)) by tauto. cbn [app]. by rewrite <- IH.
      - rewrite (decide_True (P := ¬ lasts (entries st) ts i a)) by done. rewrite <- Permutation_middle. by rewrite <- IH. }
    eexists. split; [reflexivity|]. split; [by eapply drop_inv|]. split; [|done].
    apply (calmer_out k _ _ p (filter (lasts (entries st) ts i) (get_out st p))); [done|done|by eexists|]. intros ee. apply requested_drop.
Qed.

Lemma expire_events_ok held ts ex : ∀ p st, Inv held st → delays_ok ex →
  ∃ st', expireEvents ex p ts st = Ok st' ∧ Inv held st' ∧ calmer 0 st st' ∧ timeoutRequests st' = timeoutRequests st ∧ (base_tuples st', allocated st') = (base_tuples st, allocated st).
Proof.
  induction ex as [v|op d l IHl r IHr]; intros p st I Hd; cbn [expireEvents].
  - exists st. split; [done|]. split; [done|]. split; [apply calmer_refl|done].
  - destruct Hd as (Hd & Hl & Hr).
    assert (∃ st2, (match op with
        | EVENT_ANYONE => Ok st
        | EVENT_BOTH => let! st1 := expire_interval st (LChild :: p) ts d in expire_interval st1 (RChild :: p) ts d
        | EVENT_FOLLOWS | EVENT_NOTFOLLOWS => let! st1 := expire_interval st (LChild :: p) ts d in expire_all st1 (RChild :: p)
        | EVENT_PRECEDES | EVENT_NOTPRECEDES => let! st1 := expire_all st (LChild :: p) in expire_interval st1 (RChild :: p) ts d
        end) = Ok st2 ∧ Inv held st2 ∧ calmer 0 st st2 ∧ timeoutRequests st2 = timeoutRequests st ∧ (base_tuples st2, allocated st2) = (base_tuples st, allocated st)) as (st2 & -> & I2 & C2 & T2 & B2).
    { destruct op; [exists st; split; [done|]; split; [done|]; split; [apply calmer_refl|done]|..].
      1,2,3: destruct (expire_interval_ok held st (LChild :: p) ts d 0 I Hd) as (st1 & -> & I1 & C1 & T1 & B1 & _); cbn [cbind].
      4,5: destruct (expire_all_ok held st (LChild :: p) 0 I) as (st1 & -> & I1 & C1 & T1 & B1 & _); cbn [cbind].
      1,4,5: destruct (expire_interval_ok held st1 (RChild :: p) ts d 0 I1 Hd) as (st2 & -> & I2 & C2 & T2 & B2 & _).
      4,5: destruct (expire_all_ok held st1 (RChild :: p) 0 I1) as (st2 & -> & I2 & C2 & T2 & B2 & _).
      all: exists st2; split; [done|]; split; [done|]; split; [by eapply calmer_trans|split; congruence]. }
    cbn [cbind]. destruct (IHl (LChild :: p) st2 I2 Hl) as (st3 & -> & I3 & C3 & T3 & B3). cbn [cbind].
    destruct (IHr (RChild :: p) st3 I3 Hr) as (st4 & -> & I4 & C4 & T4 & B4). exists st4. split; [done|]. split; [done|].
    split; [by eapply calmer_trans; [exact C2|eapply calmer_trans]|split; congruence].
Qed.

(** ** A new event at a node *)

Lemma lists_at_other (P : node → bool) o p l : P p = false → lists_at P (<[p := l]> o) ≡ₚ lists_at P o.
Proof. intros HP. by rewrite lists_at_insert, (lists_at_delete P o p), HP. Qed.

(** The entry at [a] is new, and the last of the list of [p]; entries may have changed
    otherwise, but for their events. *)
Definition detected_at p st st' (a : nat) e : Prop :=
  entries st !! a = None ∧ outputList st' = <[p := get_out st p ++ [a]]> (outputList st) ∧ timeoutRequests st' = timeoutRequests st
  ∧ entries st' = <[a := new_entry e]> (entries st) ∧ base_tuples st' = base_tuples st ∧ allocated st' = S (allocated st) ∧ a = new_address st.

Lemma detect_at p st pins e : ∃ a, detected_at p st (detect p (e, set_pins st pins)) a e.
Proof. exists (new_address st). split; [apply new_address_fresh|]. done. Qed.

Lemma calmer_new k p st st' a : length p = k → lists_at everywhere (outputList st) ≡ₚ locs (entries st) → entries st !! a = None →
  outputList st' = <[p := get_out st p ++ [a]]> (outputList st) → timeoutRequests st' = timeoutRequests st →
  (∀ ee, ee ≠ a → requested (entries st) ee = true → requested (entries st') ee = true) → calmer k st st'.
Proof.
  intros Hk Hlink Ha Eo Et Hr j Hj. unfold weight. rewrite Et, Eo. apply Nat.add_le_mono_l.
  rewrite lists_at_other by (unfold at_depth; apply bool_decide_eq_false_2; lia). apply unrequested_le. intros ee Hin. apply Hr. intros ->.
  assert (a ∈ locs (entries st)) as Hl; [|apply elem_of_locs in Hl as [x Hx]; congruence]. rewrite <- Hlink. revert Hin. unfold lists_at. rewrite !list_elem_of_bind.
  intros ([q l] & Hin & Hq). exists (q, l). split; [|done]. cbn in *. revert Hin. by case_match; [|intros Hn%elem_of_nil].
Qed.

Lemma detect_inv held p st pins e : Inv held st → counted (pointers e ++ refs (entries st) ++ held) (set_pins st pins) →
  ev_ok e → time_ok (event_timestamp e) → (∀ bt, bt ∈ pointers e → bt ∈ R) → Inv held (detect p (e, set_pins st pins)).
Proof.
  intros I C He Ht HR. pose proof (new_address_fresh st) as [Hn _]. constructor.
  - by apply detect_counted.
  - destruct (detect_at p st pins e) as (a & Ha & Eo & _ & Ee & _). rewrite Eo, Ee, lists_at_insert, locs_insert by done. cbn [everywhere].
    rewrite <- (iv_linked _ _ I), (lists_at_delete everywhere (outputList st) p). cbn [everywhere].
    rewrite get_out_of, (Permutation_app_comm (out_of _ p)), <- app_assoc. done.
  - intros ee x. cbn. destruct (decide (ee = new_address st)) as [->|Hne].
    + change (new_address (set_pins st pins)) with (new_address st). rewrite lookup_insert_eq. intros [= <-]. done.
    + change (new_address (set_pins st pins)) with (new_address st). rewrite lookup_insert_ne by done. apply (iv_event _ _ I).
  - apply (iv_timeouts _ _ I).
Qed.

(** An entry changes, not its event. *)
Lemma set_entry_inv held st ee x y : Inv held st → entries st !! ee = Some x → event y = event x → Inv held (set_entry st ee y).
Proof.
  intros I Hx Ey. constructor.
  - apply (set_entry_counted held st ee x); [apply (iv_counted _ _ I)|done|done].
  - cbn. rewrite (locs_update _ _ x y Hx). apply (iv_linked _ _ I).
  - intros a z. cbn. destruct (decide (a = ee)) as [->|Hne]; [rewrite lookup_insert_eq; intros [= <-]; rewrite Ey; by apply (iv_event _ _ I ee)|].
    rewrite lookup_insert_ne by done. apply (iv_event _ _ I).
  - apply (iv_timeouts _ _ I).
Qed.

(** ** Pairs *)

Definition near (op : EventOperator) (i : Interval) e1 e2 : bool :=
  let after a b := event_timestamp b <=? event_timestamp a + time i in
  match op with
  | EVENT_BOTH => after e1 e2 && after e2 e1
  | EVENT_FOLLOWS => after e1 e2
  | EVENT_PRECEDES => after e2 e1
  | _ => false
  end.

Lemma in_time_ok op i e1 e2 : delay_ok i → time_ok (event_timestamp e1) → time_ok (event_timestamp e2) → in_time op i e1 e2 = Ok (near op i e1 e2).
Proof.
  intros Hi H1 H2. unfold in_time, near. destruct op; rewrite ?(plus_ok _ _ H1 Hi), ?(plus_ok _ _ H2 Hi); cbn [cbind]; try done. unfold ts_geq.
  by destruct (event_timestamp e2 <=? event_timestamp e1 + time i).
Qed.

Definition remembered (x : EventEntry) (ee : nat) : EventEntry := mkEntry (event x) (matched x ++ [ee]) (requestedTimeout x) (marked x).

(** The pair has been reported already; [PRECEDES] does not look. *)
Definition again (op : EventOperator) (ee1 ee2 : nat) (x1 x2 : EventEntry) : bool :=
  match op with EVENT_PRECEDES => false | _ => bool_decide (ee1 ∈ matched x2) || bool_decide (ee2 ∈ matched x1) end.

Definition fires (op : EventOperator) (i : Interval) (ee1 ee2 : nat) (x1 x2 : EventEntry) : bool :=
  negb (haveSimpleEventConflict (event x1) (event x2)) && near op i (event x1) (event x2)
  && negb (again op ee1 ee2 x1 x2).

Definition combined e e1 e2 : Prop :=
  t_base_tuples (tup e) = merged (t_base_tuples (tup e1)) (t_base_tuples (tup e2)) ∧ event_timestamp e = Z.max (event_timestamp e1) (event_timestamp e2).

Lemma match_pair_ok held op i p ee1 ee2 x1 x2 (d : bool) st : Inv held st → delay_ok i → ee1 ≠ ee2 → entries st !! ee1 = Some x1 → entries st !! ee2 = Some x2 →
  if fires op i ee1 ee2 x1 x2 then
    ∃ e a st', match_pair op i p ee1 ee2 (d, st) = Ok (true, st') ∧ Inv held st' ∧ calmer (length p) st st' ∧ combined e (event x1) (event x2)
      ∧ entries st !! a = None ∧ outputList st' = <[p := get_out st p ++ [a]]> (outputList st) ∧ timeoutRequests st' = timeoutRequests st ∧ base_tuples st' = base_tuples st
      ∧ (allocated st' = S (allocated st) ∧ a = new_address st) ∧ entries st' = <[ee2 := remembered x2 ee1]> (<[ee1 := remembered x1 ee2]> (<[a := new_entry e]> (entries st)))
  else match_pair op i p ee1 ee2 (d, st) = Ok (d, st).
Proof.
  intros I Hi Hne H1 H2. unfold match_pair, get_entry. rewrite H1, H2. cbn [access cbind].
  destruct (iv_event _ _ I _ _ H1) as (_ & Ht1 & HR1). destruct (iv_event _ _ I _ _ H2) as (_ & Ht2 & HR2). unfold fires.
  destruct (haveSimpleEventConflict (event x1) (event x2)) eqn:Hc; [done|]. rewrite (in_time_ok op i _ _ Hi Ht1 Ht2). cbn [cbind negb andb].
  destruct (near op i (event x1) (event x2)) eqn:Hn; [|done]. cbn [negb andb].
  assert (match op with EVENT_PRECEDES => Ok false | _ => haveBeenMatched st ee1 ee2 end
    = Ok (again op ee1 ee2 x1 x2)) as ->.
  { unfold haveBeenMatched, get_entry. rewrite H1, H2. cbn [access cbind]. by destruct op. }
  cbn [cbind]. destruct (again op ee1 ee2 x1 x2) eqn:Hold; cbn [negb]; [done|]. unfold passAdditionalBothTest. rewrite andb_false_r.
  destruct (combine_ok _ _ _ _ (iv_counted _ _ I) (iv_known _ _ _ _ I H1) (iv_known _ _ _ _ I H2) Hc) as (e & pins & -> & Eb & Et & [He _] & C & Hin). cbn [cbind].
  assert (Inv held (detect p (e, set_pins st pins))) as I1.
  { apply detect_inv; [done|done|done|unfold time_ok in *; rewrite Et; lia|]. intros bt Hb. destruct (Hin bt Hb); auto. }
  destruct (detect_at p st pins e) as (a & Ha & Eo & Etm & Ee & Eb' & Eal & Ea). set (st1 := detect p (e, set_pins st pins)) in *. clearbody st1.
  assert (a ≠ ee1 ∧ a ≠ ee2) as [Hne1 Hne2] by (split; intros ->; congruence).
  assert (entries st1 !! ee1 = Some x1) as H1' by (by rewrite Ee, lookup_insert_ne).
  assert (entries st1 !! ee2 = Some x2) as H2' by (by rewrite Ee, lookup_insert_ne).
  unfold rememberMatch, get_entry. rewrite H1'. cbn [access cbind]. set (st2 := set_entry st1 ee1 _).
  assert (entries st2 !! ee2 = Some x2) as H2'' by (cbn; by rewrite lookup_insert_ne).
  rewrite H2''. cbn [access cbind]. exists e, a. eexists. split; [reflexivity|].
  assert (Inv held st2) as I2 by (by apply (set_entry_inv held st1 ee1 x1)).
  split; [by apply (set_entry_inv held st2 ee2 x2)|]. split; [|split; [done|split; [done|split; [done|split; [done|split; [done|split; [done|]]]]]]].
  - apply (calmer_new _ p _ _ a); [done|apply (iv_linked _ _ I)|done|done|done|]. intros ee Hee Hr. cbn. rewrite Ee.
    apply (requested_update _ ee2 x2); [rewrite lookup_insert_ne by done; by rewrite lookup_insert_ne|done|].
    apply (requested_update _ ee1 x1); [by rewrite lookup_insert_ne|done|]. unfold requested in *. by rewrite lookup_insert_ne.
  - cbn. by rewrite Ee.
Qed.

End inv.
End EventsInv.
