(* ===== verification/EventsStep.v ===== *)
(** * Event aggregates: the work at the nodes

    Every function that a call runs succeeds on a store that is right, and leaves it
    right; the work at a node does not add to what is left to be requested at the
    node or below it. *)

From S2P Require Import Prelude BitArray GSFilter Eddy EddyGSF Stem Window WindowSpec Events EventsMem EventsInv.

Module EventsStep.
Import Bit Eddy Stem Window WindowSpec Events EventsMem EventsInv.
Local Open Scope Z_scope.

Lemma foreach_inv {A S} (f : A → S → cres S) (I : S → Prop) l : ∀ s, I s → (∀ x s, x ∈ l → I s → ∃ s', f x s = Ok s' ∧ I s') →
  ∃ s', foreach f l s = Ok s' ∧ I s'.
Proof.
  induction l as [|x l IH]; intros s Hs Hf; [by exists s|]. cbn [foreach]. destruct (Hf x s ltac:(by left) Hs) as (s1 & -> & H1). cbn [cbind].
  apply IH; [done|]. intros y s2 Hy. apply Hf. by right.
Qed.

Lemma all_pass_ok {A} (f : A → cres bool) l : (∀ x, x ∈ l → ∃ b, f x = Ok b) → ∃ b, all_pass f l = Ok b.
Proof.
  induction l as [|x l IH]; intros Hf; [by exists true|]. cbn [all_pass]. destruct (Hf x ltac:(by left)) as [b ->]. cbn [cbind].
  destruct b; [|by exists false]. apply IH. intros y Hy. apply Hf. by right.
Qed.

(** ** Partitions *)

(** A comparison of two streams reads no others. *)
Definition cube_ok (cube : ExprCube) : Prop :=
  ∀ exprs i j v1 v2, exprs ∈ cube → exprs !! (i, j) = Some (v1, v2) →
    (Z.to_nat (v1.1 - 1) = i ∨ Z.to_nat (v1.1 - 1) = j) ∧ (Z.to_nat (v2.1 - 1) = i ∨ Z.to_nat (v2.1 - 1) = j).

Definition pairs_ok (m : gmap (nat * nat) (Var * Var)) : Prop :=
  ∀ i j v1 v2, m !! (i, j) = Some (v1, v2) →
    (Z.to_nat (v1.1 - 1) = i ∨ Z.to_nat (v1.1 - 1) = j) ∧ (Z.to_nat (v2.1 - 1) = i ∨ Z.to_nat (v2.1 - 1) = j).

Lemma compare_with_ok var1 rest : ∀ m, pairs_ok m → pairs_ok (compare_with var1 rest m).
Proof.
  induction rest as [|var2 rest IH]; intros m Hm; [done|]. cbn [compare_with]. apply IH. intros i j v1 v2.
  destruct (decide ((Z.to_nat (var2.1 - 1), Z.to_nat (var1.1 - 1)) = (i, j))) as [E|E].
  - rewrite E, lookup_insert_eq. injection E as <- <-. intros [= <- <-]. by split; [right|left].
  - rewrite lookup_insert_ne by done. destruct (decide ((Z.to_nat (var1.1 - 1), Z.to_nat (var2.1 - 1)) = (i, j))) as [E2|E2].
    + rewrite E2, lookup_insert_eq. injection E2 as <- <-. intros [= <- <-]. by split; [left|right].
    + rewrite lookup_insert_ne by done. apply Hm.
Qed.
Lemma compare_all_ok vars : ∀ m, pairs_ok m → pairs_ok (compare_all vars m).
Proof. induction vars as [|v vars IH]; intros m Hm; [done|]. cbn [compare_all]. by apply IH, compare_with_ok. Qed.
Lemma initialize_cube_ok vl : cube_ok (initializeExprCube vl).
Proof.
  intros exprs i j v1 v2 (vars & -> & _)%list_elem_of_fmap. apply compare_all_ok. intros a b x y. by rewrite lookup_empty.
Qed.

Lemma child_ne (s : side) (p : node) : s :: p ≠ p.
Proof. intros E%(f_equal length). cbn in E. lia. Qed.

Section step.
Context {HT : Type} `{Hcal : !Calendar} `{Hpal : !Palloc} `{Henv : !EventEnv HT} `{Hfresh : !PallocFresh}.
Context (root : EventExpr) (Hdelays : delays_ok root) (R : list nat) (cube : ExprCube) (Hcube : cube_ok cube).
Implicit Types (st : Store HT) (e : Event) (m : gmap nat EventEntry) (bt ee : nat) (p : node).

Lemma known_live L st e bt : counted L st → known st e → bt ∈ pointers e → is_Some (base_tuples st !! bt).
Proof. intros C [_ Hk] Hb. by apply (ct_live _ _ C), Hk. Qed.

Lemma consistent_ok L st e : counted L st → known st e → ∃ b, isPartitionConsistent cube st e = Ok b.
Proof.
  intros C Hk. unfold isPartitionConsistent. destruct cube as [|c0 cubes] eqn:Ec; [by exists true|]. rewrite <- Ec in *. clear Ec.
  apply all_pass_ok. intros i _. destruct (t_base_tuples (tup e) !! i) as [[a|]|] eqn:Ei; [|by exists true..].
  apply all_pass_ok. intros j _. destruct (t_base_tuples (tup e) !! j) as [[b|]|] eqn:Ej; [|by exists true..].
  apply all_pass_ok. intros exprs Hex. unfold ExecEvalExpr. destruct (exprs !! (i, j)) as [[v1 v2]|] eqn:E; [|by eexists].
  assert (∀ v : Var, Z.to_nat (v.1 - 1) = i ∨ Z.to_nat (v.1 - 1) = j → ∃ h, base_tuple st e v.1 = Ok h) as Hv.
  { intros v Hij. unfold base_tuple. destruct Hij as [-> | ->]; [rewrite Ei|rewrite Ej]; cbn [access cbind].
    - destruct (known_live L st e a C Hk) as [h ->]; [apply elem_of_pointers; by eapply list_elem_of_lookup_2|]. by exists h.
    - destruct (known_live L st e b C Hk) as [h ->]; [apply elem_of_pointers; by eapply list_elem_of_lookup_2|]. by exists h. }
  destruct (Hcube _ _ _ _ _ Hex E) as [H1 H2]. destruct (Hv v1 H1) as [h1 ->]. cbn [cbind]. destruct (Hv v2 H2) as [h2 ->]. cbn [cbind]. by eexists.
Qed.

Lemma known_pins st pins e : known (set_pins st pins) e ↔ known st e.
Proof. done. Qed.

(** Comparing two events leaves the counts as they were. *)
Lemma are_consistent_ok L st e1 e2 : counted L st → known st e1 → known st e2 → haveSimpleEventConflict e1 e2 = false →
  ∃ b, arePartitionConsistent cube e1 e2 st = Ok (b, st).
Proof.
  intros C H1 H2 Hc. unfold arePartitionConsistent. destruct (combine_ok L st e1 e2 C H1 H2 Hc) as (e & pins & -> & _ & _ & He & C1 & _). cbn [cbind].
  destruct (consistent_ok _ (set_pins st pins) e C1 He) as [b ->]. cbn [cbind]. destruct (delete_event_ok L _ e C1) as (pins2 & -> & C2). cbn [cbind].
  rewrite set_pins_twice in *. exists b. by rewrite (counted_pins L st pins2 C C2).
Qed.

(** ** Work at a node *)

(** What a step leaves of the requests and of the base tuples. *)
Record after (k : nat) st0 st : Prop := {
  af_calm : calmer k st0 st;
  af_requests : timeoutRequests st0 `prefix_of` timeoutRequests st;
  af_base : base_tuples st = base_tuples st0
}.
Lemma after_refl k st : after k st st.
Proof. constructor; [apply calmer_refl|done|done]. Qed.
Lemma after_trans k st1 st2 st3 : after k st1 st2 → after k st2 st3 → after k st1 st3.
Proof. intros [C1 P1 B1] [C2 P2 B2]. constructor; [by eapply calmer_trans|by etrans|congruence]. Qed.
Lemma after_weaken k k' st st' : (k ≤ k')%nat → after k st st' → after k' st st'.
Proof. intros Hk [C P B]. constructor; [by eapply calmer_weaken|done|done]. Qed.

(** The node [p] is being worked at; only its own list has got longer. *)
Record Worked (held : list nat) p st0 st : Prop := {
  wk_inv : Inv root R held st;
  wk_after : after (length p) st0 st;
  wk_other q : q ≠ p → get_out st q = get_out st0 q;
  wk_kept ee x : entries st0 !! ee = Some x → ∃ y, entries st !! ee = Some y ∧ event y = event x
}.

Lemma worked_refl held p st : Inv root R held st → Worked held p st st.
Proof. intros I. constructor; [done|apply after_refl|done|]. intros ee x Hx. by exists x. Qed.

Lemma worked_entry held p st0 st ee x y : Worked held p st0 st → entries st !! ee = Some x → event y = event x →
  (requestedTimeout x = true → requestedTimeout y = true) → Worked held p st0 (set_entry st ee y).
Proof.
  intros [I A O K] Hx Ey Hr. constructor.
  - by apply (set_entry_inv root R held st ee x).
  - eapply after_trans; [exact A|]. constructor; [|done|done]. apply calmer_entries; [done|done|]. intros a Ha. by apply (requested_update _ ee x).
  - exact O.
  - intros a z Hz. destruct (K a z Hz) as (z' & Hz' & Ez). cbn. destruct (decide (a = ee)) as [->|Hne].
    + exists y. rewrite lookup_insert_eq. split; [done|]. congruence.
    + exists z'. by rewrite lookup_insert_ne.
Qed.

Lemma worked_detect held p st0 st pins e : Worked held p st0 st → counted (pointers e ++ refs (entries st) ++ held) (set_pins st pins) →
  ev_ok e → time_ok (event_timestamp e) → (∀ bt, bt ∈ pointers e → bt ∈ R) → Worked held p st0 (detect p (e, set_pins st pins)).
Proof.
  intros [I A O K] C He Ht HR. destruct (detect_at p st pins e) as (a & Ha & Eo & Et & Ee & Eb & _). constructor.
  - by apply detect_inv.
  - eapply after_trans; [exact A|]. constructor; [|by rewrite Et|done].
    apply (calmer_new _ p _ _ a); [done|by apply (iv_linked _ _ _ _ I)|done|done|done|]. intros ee Hee. rewrite Ee. unfold requested. by rewrite lookup_insert_ne.
  - intros q Hq. rewrite <- O by done. unfold get_out. rewrite Eo. by rewrite lookup_insert_ne.
  - intros b z Hz. destruct (K b z Hz) as (z' & Hz' & Ez). exists z'. rewrite Ee, lookup_insert_ne by congruence. done.
Qed.

Lemma worked_known held p st0 st ee x : Worked held p st0 st → entries st0 !! ee = Some x → known st (event x).
Proof. intros W Hx. destruct (wk_kept _ _ _ _ W ee x Hx) as (y & Hy & <-). by apply (iv_known root R held _ ee), Hy; apply W. Qed.

(** One more request at [p], by an entry of a child that had not made one. *)
Lemma worked_request held p s st0 st ee x y ts : Worked held p st0 st → is_Some (node_at root p) → entries st !! ee = Some x → event y = event x →
  requestedTimeout x = false → requestedTimeout y = true → ee ∈ get_out st (s :: p) → Worked held p st0 (set_entry (MakeTimeoutRequest p ts st) ee y).
Proof.
  intros [I A O K] Hp Hx Ey Hno Hyes Hin. assert (Inv root R held (MakeTimeoutRequest p ts st)) as I1.
  { destruct I as [I1 I2 I3 I4]. constructor; [by eapply counted_cache|exact I2|exact I3|]. intros q t. cbn. rewrite elem_of_app, list_elem_of_singleton.
    intros [Hq|[= -> ->]]; [by eapply I4|done]. }
  constructor.
  - by apply (set_entry_inv root R held _ ee x).
  - eapply after_trans; [exact A|]. constructor; [|cbn; by apply prefix_app_r|done]. intros j Hj. unfold weight. cbn. rewrite filter_app, length_app, filter_cons, filter_nil.
    pose proof (unrequested_le (entries st) (<[ee:=y]> (entries st)) (lists_at (at_depth (S j)) (outputList st))) as Hle.
    assert (∀ a, requested (entries st) a = true → requested (<[ee := y]> (entries st)) a = true) as Hr by (intros a; by apply (requested_update _ ee x)).
    case_decide as Hd; cbn [length] in *; [|specialize (Hle ltac:(auto)); lia].
    assert (ee ∈ lists_at (at_depth (S j)) (outputList st)) as Hl.
    { apply (out_of_in _ _ (s :: p)); [|exact Hin]. unfold at_depth. apply bool_decide_eq_true_2. cbn in *. lia. }
    apply elem_of_Permutation in Hl as [l Hl]. rewrite !Hl. unfold unrequested. rewrite !filter_cons.
    rewrite decide_False by (unfold requested; by rewrite lookup_insert_eq, Hyes). rewrite decide_True by (unfold requested; by rewrite Hx).
    pose proof (unrequested_le (entries st) (<[ee:=y]> (entries st)) l ltac:(auto)) as Hle2. unfold unrequested in Hle2. cbn [length]. lia.
  - exact O.
  - intros a z Hz. destruct (K a z Hz) as (z' & Hz' & Ez). cbn. destruct (decide (a = ee)) as [->|Hne].
    + exists y. rewrite lookup_insert_eq. split; [done|]. congruence.
    + exists z'. by rewrite lookup_insert_ne.
Qed.

(** ** The operators *)

Lemma worked_pair held op i p st0 st ee1 ee2 (d : bool) : Worked held p st0 st → delay_ok i → ee1 ≠ ee2 →
  is_Some (entries st0 !! ee1) → is_Some (entries st0 !! ee2) → ∃ b st', match_pair op i p ee1 ee2 (d, st) = Ok (b, st') ∧ Worked held p st0 st'.
Proof.
  intros W Hi Hne [z1 Hz1] [z2 Hz2]. destruct (wk_kept _ _ _ _ W _ _ Hz1) as (x1 & Hx1 & _). destruct (wk_kept _ _ _ _ W _ _ Hz2) as (x2 & Hx2 & _).
  pose proof (match_pair_ok root R held op i p ee1 ee2 x1 x2 d st (wk_inv _ _ _ _ W) Hi Hne Hx1 Hx2) as Hp.
  destruct (fires op i ee1 ee2 x1 x2); [|by exists d, st]. destruct Hp as (e & a & st' & -> & I' & C' & _ & Ha & Eo & Et & Eb & _ & Ee).
  exists true, st'. split; [done|]. destruct W as [I A O K]. constructor; [done| | |].
  - eapply after_trans; [exact A|]. constructor; [done|by rewrite Et|done].
  - intros q Hq. rewrite <- O by done. unfold get_out. by rewrite Eo, lookup_insert_ne.
  - intros b z Hz. destruct (K b z Hz) as (z' & Hz' & Ez). rewrite Ee. destruct (decide (b = ee2)) as [->|N2]; [|destruct (decide (b = ee1)) as [->|N1]].
    + exists (remembered x2 ee1). rewrite lookup_insert_eq. split; [done|]. cbn. congruence.
    + exists (remembered x1 ee2). rewrite lookup_insert_ne, lookup_insert_eq by done. split; [done|]. cbn. congruence.
    + exists z'. rewrite !lookup_insert_ne by congruence. done.
Qed.

Lemma children_apart held st p ee1 ee2 : Inv root R held st → ee1 ∈ get_out st (LChild :: p) → ee2 ∈ get_out st (RChild :: p) → ee1 ≠ ee2.
Proof. intros I H1 H2 ->. by pose proof (iv_apart root R held st _ _ _ I H1 H2). Qed.

Lemma match_lists_ok held op i p st : Inv root R held st → delay_ok i →
  ∃ b st', match_lists op i p (get_out st (LChild :: p)) (get_out st (RChild :: p)) st = Ok (b, st') ∧ Worked held p st st'.
Proof.
  intros I Hi. unfold match_lists.
  destruct (foreach_inv (λ ee1, foreach (match_pair op i p ee1) (get_out st (RChild :: p))) (λ s, Worked held p st s.2) (get_out st (LChild :: p)) (false, st))
    as ([b st'] & E & W); [by apply worked_refl| |by exists b, st'].
  intros ee1 s H1 Hs. apply foreach_inv; [done|]. intros ee2 [d s'] H2 W.
  destruct (worked_pair held op i p st s' ee1 ee2 d W Hi (children_apart _ _ _ _ _ I H1 H2)) as (b & st' & E & W'); [by eapply iv_listed..|].
  by exists (b, st').
Qed.

Lemma terminated_ok L st i e1 l2 : counted L st → known st e1 → time_ok (event_timestamp e1) → delay_ok i →
  (∀ ee, ee ∈ l2 → ∃ x, entries st !! ee = Some x ∧ known st (event x)) → ∃ b, terminated cube i e1 l2 st = Ok (b, st).
Proof.
  intros C H1 Ht Hi. induction l2 as [|ee2 l2 IH]; intros Hl; [by exists false|].
  destruct (Hl ee2 ltac:(by left)) as (x2 & Hx2 & H2). destruct IH as [b IH]; [intros ee Hee; apply Hl; by right|].
  cbn [terminated]. unfold get_entry. rewrite Hx2. cbn [access cbind]. destruct (haveSimpleEventConflict e1 (event x2)) eqn:Hc; [by exists b|].
  destruct (passAdditionalNotFollowsTest e1 (event x2)); cbn [negb]; [|by exists b].
  destruct (are_consistent_ok L st e1 (event x2) C H1 H2 Hc) as [c ->]. cbn [cbind]. destruct c; cbn [negb]; [|by exists b].
  rewrite (plus_ok _ _ Ht Hi). cbn [cbind]. destruct (ts_geq _ _); [by exists true|by exists b].
Qed.

Lemma preceded_ok L st i e1 l2 : counted L st → known st e1 → delay_ok i →
  (∀ ee, ee ∈ l2 → ∃ x, entries st !! ee = Some x ∧ known st (event x) ∧ time_ok (event_timestamp (event x))) → ∃ b, preceded cube i e1 l2 st = Ok (b, st).
Proof.
  intros C H1 Hi. induction l2 as [|ee2 l2 IH]; intros Hl; [by exists false|].
  destruct (Hl ee2 ltac:(by left)) as (x2 & Hx2 & H2 & Ht). destruct IH as [b IH]; [intros ee Hee; apply Hl; by right|].
  cbn [preceded]. unfold get_entry. rewrite Hx2. cbn [access cbind]. destruct (haveSimpleEventConflict e1 (event x2)) eqn:Hc; [by exists b|].
  destruct (are_consistent_ok L st e1 (event x2) C H1 H2 Hc) as [c ->]. cbn [cbind]. destruct c; cbn [negb]; [|by exists b].
  rewrite (plus_ok _ _ Ht Hi). cbn [cbind]. destruct (ts_geq _ _); cbn [negb]; [by exists b|by exists true].
Qed.

Lemma worked_lists held p st0 st ee : Worked held p st0 st → is_Some (entries st0 !! ee) →
  ∃ x, entries st !! ee = Some x ∧ known st (event x) ∧ time_ok (event_timestamp (event x)) ∧ ∀ bt, bt ∈ pointers (event x) → bt ∈ R.
Proof.
  intros W [z Hz]. destruct (wk_kept _ _ _ _ W _ _ Hz) as (x & Hx & _). exists x. split; [done|]. split; [|by apply (iv_event _ _ _ _ (wk_inv _ _ _ _ W) ee)].
  by apply (iv_known root R held _ ee), Hx; apply W.
Qed.

Lemma worked_mark held p st0 st ee : Worked held p st0 st → is_Some (entries st0 !! ee) → ∃ st', mark st ee = Ok st' ∧ Worked held p st0 st'.
Proof.
  intros W Hee. destruct (worked_lists held p st0 st ee W Hee) as (x & Hx & _). unfold mark, get_entry. rewrite Hx. cbn [access cbind].
  eexists. split; [reflexivity|]. by apply (worked_entry held p st0 st ee x).
Qed.

Lemma worked_replicate held p st0 st e : Worked held p st0 st → known st e → time_ok (event_timestamp e) → (∀ bt, bt ∈ pointers e → bt ∈ R) →
  ∃ r, replicateEvent e st = Ok r ∧ Worked held p st0 (detect p r).
Proof.
  intros W Hk Ht HR. destruct (replicate_ok _ st e (iv_counted _ _ _ _ (wk_inv _ _ _ _ W)) Hk) as (t & pins & -> & Et & C). eexists. split; [reflexivity|].
  set (e' := mkEvent t (event_timestamp e)). assert (pointers e' = pointers e) as Ep by (unfold pointers, e'; cbn; by rewrite Et).
  apply worked_detect; [done|by rewrite Ep|unfold ev_ok; cbn; rewrite Et; apply Hk|done|by rewrite Ep].
Qed.

Lemma not_followed_ok held i p ts l2 st0 st ee1 (d : bool) : Worked held p st0 st → delay_ok i → is_Some (node_at root p) →
  ee1 ∈ get_out st0 (LChild :: p) → is_Some (entries st0 !! ee1) → (∀ ee, ee ∈ l2 → is_Some (entries st0 !! ee)) →
  ∃ b st', not_followed cube i p ts l2 ee1 (d, st) = Ok (b, st') ∧ Worked held p st0 st'.
Proof.
  intros W Hi Hp Hl H1 H2. destruct (worked_lists _ _ _ _ _ W H1) as (x1 & Hx1 & Hk & Ht & HR). unfold not_followed, get_entry. rewrite Hx1. cbn [access cbind].
  destruct (marked x1); [by exists d, st|]. rewrite (plus_ok _ _ Ht Hi). cbn [cbind].
  destruct (terminated_ok _ st i (event x1) l2 (iv_counted _ _ _ _ (wk_inv _ _ _ _ W)) Hk Ht Hi) as [b ->].
  { intros ee Hee. destruct (worked_lists _ _ _ _ _ W (H2 ee Hee)) as (x & Hx & Hkx & _). by exists x. }
  cbn [cbind]. destruct b.
  - destruct (worked_mark _ _ _ _ _ W H1) as (st' & -> & W'). cbn [cbind]. by exists d, st'.
  - destruct (negb (ts_geq _ ts)).
    + destruct (worked_replicate _ _ _ _ _ W Hk Ht HR) as (r & -> & W1). cbn [cbind]. destruct (worked_mark _ _ _ _ _ W1 H1) as (st' & -> & W'). cbn [cbind]. by exists true, st'.
    + destruct (requestedTimeout x1) eqn:Er; cbn [negb]; [by exists d, st|].
      assert (entries (MakeTimeoutRequest p (event_timestamp (event x1) + time i) st) !! ee1 = Some x1) as -> by done. cbn [access cbind].
      eexists _, _. split; [reflexivity|]. apply (worked_request held p LChild st0 st ee1 x1); [done..|]. rewrite (wk_other _ _ _ _ W); [done|]. apply child_ne.
Qed.

Lemma not_preceded_ok held i p l2 st0 st ee1 (d : bool) : Worked held p st0 st → delay_ok i →
  is_Some (entries st0 !! ee1) → (∀ ee, ee ∈ l2 → is_Some (entries st0 !! ee)) →
  ∃ b st', not_preceded cube i p l2 ee1 (d, st) = Ok (b, st') ∧ Worked held p st0 st'.
Proof.
  intros W Hi H1 H2. destruct (worked_lists _ _ _ _ _ W H1) as (x1 & Hx1 & Hk & Ht & HR). unfold not_preceded, get_entry. rewrite Hx1. cbn [access cbind].
  destruct (marked x1); [by exists d, st|]. destruct (worked_mark _ _ _ _ _ W H1) as (st1 & Em & W1). rewrite Em. cbn [cbind].
  assert (known st1 (event x1)) as Hk1. { unfold mark, get_entry in Em. rewrite Hx1 in Em. cbn in Em. by injection Em as <-. }
  destruct (preceded_ok _ st1 i (event x1) l2 (iv_counted _ _ _ _ (wk_inv _ _ _ _ W1)) Hk1 Hi) as [b ->].
  { intros ee Hee. destruct (worked_lists _ _ _ _ _ W1 (H2 ee Hee)) as (x & Hx & Hkx & Htx & _). by exists x. }
  cbn [cbind]. destruct b; [by exists d, st1|]. destruct (worked_replicate _ _ _ _ _ W1 Hk1 Ht HR) as (r & -> & W2). cbn [cbind]. by exists true, (detect p r).
Qed.

Lemma after_expire_all held p q st st0 : Inv root R held st → after (length p) st0 st →
  ∃ st', expire_all st q = Ok st' ∧ Inv root R held st' ∧ after (length p) st0 st' ∧ get_out st' q = [] ∧ ∀ q', q' ≠ q → get_out st' q' = get_out st q'.
Proof.
  intros I A. destruct (expire_all_ok root R held st q (length p) I) as (st' & -> & I' & C & Et & Eb & Eo & _). exists st'. split; [done|]. split; [done|].
  split; [eapply after_trans; [exact A|]; constructor; [done|by rewrite Et|congruence]|].
  split; [unfold get_out; by rewrite Eo, lookup_insert_eq|]. intros q' Hq. unfold get_out. by rewrite Eo, lookup_insert_ne.
Qed.

(** The list of [q] is moved to the end of that of its parent. *)
Lemma move_up_ok held s p st : Inv root R held st → let st' := set_out (set_out st p (get_out st p ++ get_out st (s :: p))) (s :: p) [] in
  Inv root R held st' ∧ after (length p) st st' ∧ ∀ q, q ≠ p → q ≠ s :: p → get_out st' q = get_out st q.
Proof.
  intros I. cbn zeta. pose proof (child_ne s p) as Hne. split; [|split].
  - destruct I as [I1 I2 I3 I4]. constructor; [by eapply counted_cache| |exact I3|exact I4]. cbn. rewrite <- I2.
    rewrite (lists_at_delete everywhere (outputList st) p), lists_at_insert. cbn [everywhere]. rewrite delete_insert_ne by done.
    rewrite lists_at_insert, (lists_at_delete everywhere (delete p (outputList st)) (s :: p)). cbn [everywhere].
    rewrite !get_out_of. unfold out_of. rewrite lookup_delete_ne by done. rewrite (delete_delete _ p). cbn [app]. by rewrite <- app_assoc.
  - constructor; [|done|done]. intros j Hj. unfold weight. cbn. apply Nat.add_le_mono_l. rewrite lists_at_insert, delete_insert_ne by done.
    rewrite (lists_at_delete _ (outputList st) (s :: p)), !unrequested_app. rewrite lists_at_insert, (lists_at_delete _ (delete (s :: p) (outputList st)) p), !unrequested_app.
    assert (at_depth (S j) p = false) as -> by (apply bool_decide_eq_false_2; lia). rewrite delete_delete. destruct (at_depth (S j) (s :: p)); cbn; lia.
  - intros q Hq Hq'. unfold get_out. cbn. by rewrite !lookup_insert_ne.
Qed.

Lemma construct_here_ok held op i p ts st : Inv root R held st → delay_ok i → is_Some (node_at root p) →
  ∃ b st', construct_here cube op i p ts st = Ok (b, st') ∧ Inv root R held st' ∧ after (length p) st st'.
Proof.
  intros I Hi Hp.
  assert (∀ (f : nat → bool * Store HT → cres (bool * Store HT)) (q : node) d st0, Inv root R held st0 →
    (∀ ee s, ee ∈ get_out st (LChild :: p) → Worked held p st s.2 → ∃ b st', f ee s = Ok (b, st') ∧ Worked held p st st') → Worked held p st st0 →
    ∃ b st', (let! (detected, st1) := foreach f (get_out st (LChild :: p)) (d, st0) in let! st2 := expire_all st1 q in Ok (detected, st2)) = Ok (b, st')
      ∧ Inv root R held st' ∧ after (length p) st st') as Hloop.
  { intros f q d st0 I0 Hf W0. destruct (foreach_inv f (λ s, Worked held p st s.2) (get_out st (LChild :: p)) (d, st0) W0) as ([b st1] & -> & W).
    { intros ee s Hee Hs. destruct (Hf ee s Hee Hs) as (b & st' & E & W). by exists (b, st'). }
    cbn [cbind]. destruct (after_expire_all held p q st1 st (wk_inv _ _ _ _ W) (wk_after _ _ _ _ W)) as (st2 & -> & I2 & A2 & _). cbn [cbind]. by exists b, st2. }
  assert (∀ s ee, ee ∈ get_out st (s :: p) → is_Some (entries st !! ee)) as Hls by (intros s ee; by apply (iv_listed root R held)).
  destruct op; cbn [construct_here].
  - destruct (_ && _); [exists false, st; split; [done|]; split; [done|apply after_refl]|]. eexists _, _. split; [reflexivity|].
    destruct (move_up_ok held LChild p st I) as (I1 & A1 & _). cbn zeta in I1, A1. set (st1 := set_out (set_out st p _) _ _) in *. clearbody st1.
    destruct (move_up_ok held RChild p st1 I1) as (I2 & A2 & _). split; [exact I2|by eapply after_trans].
  - destruct (match_lists_ok held EVENT_BOTH i p st I Hi) as (b & st' & -> & W). exists b, st'. split; [done|]. split; apply W.
  - destruct (match_lists_ok held EVENT_FOLLOWS i p st I Hi) as (b & st' & -> & W). cbn [cbind].
    destruct (after_expire_all held p (RChild :: p) st' st (wk_inv _ _ _ _ W) (wk_after _ _ _ _ W)) as (st2 & -> & I2 & A2 & _). cbn [cbind]. by exists b, st2.
  - apply Hloop; [done| |by apply worked_refl]. intros ee [d s] Hee W. apply (not_followed_ok held i p ts _ st); [done|done|done|done|eauto|eauto].
  - destruct (match_lists_ok held EVENT_PRECEDES i p st I Hi) as (b & st' & -> & W). cbn [cbind].
    destruct (after_expire_all held p (LChild :: p) st' st (wk_inv _ _ _ _ W) (wk_after _ _ _ _ W)) as (st2 & -> & I2 & A2 & _). cbn [cbind]. by exists b, st2.
  - apply Hloop; [done| |by apply worked_refl]. intros ee [d s] Hee W. apply (not_preceded_ok held i p _ st); [done|done|eauto|eauto].
Qed.

Lemma node_above s q : is_Some (node_at root (s :: q)) → is_Some (node_at root q).
Proof. intros [ex E]. cbn in E. destruct (node_at root q); [by eexists|done]. Qed.

Lemma construct_ok held ts p : ∀ st, Inv root R held st → is_Some (node_at root p) →
  ∃ st', constructComplexEvents cube root p ts st = Ok st' ∧ Inv root R held st' ∧ after (length p) st st'.
Proof.
  induction p as [|s q IH]; intros st I Hp; pose proof Hp as [ex E]; cbn [constructComplexEvents]; rewrite E; cbn [access cbind].
  - destruct ex as [v|op d l r]; [exists st; split; [done|]; split; [done|apply after_refl]|].
    destruct (construct_here_ok held op d [] ts st I) as (b & st1 & -> & I1 & A1); [by apply (delays_at root [] _ Hdelays E)|done|]. cbn [cbind]. by exists st1.
  - destruct ex as [v|op d l r]; [exists st; split; [done|]; split; [done|apply after_refl]|].
    destruct (construct_here_ok held op d (s :: q) ts st I) as (b & st1 & -> & I1 & A1); [by apply (delays_at root (s :: q) _ Hdelays E)|done|]. cbn [cbind].
    destruct b; [|by exists st1]. destruct (IH st1 I1 (node_above _ _ Hp)) as (st2 & -> & I2 & A2). exists st2. split; [done|]. split; [done|].
    eapply after_trans; [exact A1|]. apply (after_weaken (length q)); [cbn; lia|done].
Qed.

(** ** A new event *)

Lemma held_known held st e : Inv root R held st → ev_ok e → (∀ bt, bt ∈ pointers e → bt ∈ held) → known st e.
Proof. intros I He Hh. split; [done|]. intros bt Hb. apply (ct_cached _ _ (iv_counted _ _ _ _ I)). apply elem_of_app. right. by apply Hh. Qed.

Lemma publish_ok held ev w ex : ∀ p st, Inv root R held st → node_at root p = Some ex → ev_ok ev → (∀ bt, bt ∈ pointers ev → bt ∈ held) →
  time_ok (event_timestamp ev) → (∀ bt, bt ∈ pointers ev → bt ∈ R) → findIndexOfSourceForSimpleEvent (tup ev) = Ok w →
  ∃ st', publishSimpleEvent cube root ex p ev st = Ok st' ∧ Inv root R held st' ∧ base_tuples st' = base_tuples st.
Proof.
  induction ex as [v|op d l IHl r IHr]; intros p st I Hp He Hh Ht HR Hw; cbn [publishSimpleEvent].
  - unfold isRelevantSimpleEvent. rewrite Hw. cbn [cbind]. destruct (w =? v - 1); [|by exists st].
    unfold putSimpleEventOnOutputList. destruct (worked_replicate held p st st ev) as (r & -> & W); [by apply worked_refl|by apply (held_known held)|done|done|]. cbn [cbind].
    destruct p as [|s q]; [exists (detect [] r); split; [done|]; split; [apply W|apply W]|].
    destruct (construct_ok held (event_timestamp ev) q (detect (s :: q) r)) as (st' & -> & I' & A'); [apply W|by apply (node_above s); eexists|].
    exists st'. split; [done|]. split; [done|]. rewrite (af_base _ _ _ A'). apply W.
  - assert (node_at root (LChild :: p) = Some l ∧ node_at root (RChild :: p) = Some r) as [Hl Hr] by (cbn; by rewrite Hp).
    destruct (IHl (LChild :: p) st I Hl He Hh Ht HR Hw) as (st1 & -> & I1 & B1). cbn [cbind].
    destruct (IHr (RChild :: p) st1 I1 Hr He Hh Ht HR Hw) as (st2 & -> & I2 & B2). exists st2. split; [done|]. split; [done|]. congruence.
Qed.
End step.
End EventsStep.
