(* ===== verification/EventsRead.v ===== *)
(** * Event aggregates: what events stand for

    The values that an event points to, what the operator says of them, and the events
    that the comparison of two lists makes, in their order. *)

From S2P Require Import Prelude BitArray GSFilter Eddy EddyGSF Stem StemSpec Window WindowSpec Events EventsMem EventsInv EventsStep.

Module EventsRead.
Import Bit Eddy Stem StemSpec Window WindowSpec Events EventsMem EventsInv EventsStep.
Local Open Scope Z_scope.

(** ** Loops *)

Lemma foreach_app {A S} (f : A → S → cres S) l1 l2 s : foreach f (l1 ++ l2) s = let! s1 := foreach f l1 s in foreach f l2 s1.
Proof. revert s. induction l1 as [|x l1 IH]; intros s; [done|]. cbn [app foreach]. destruct (f x s); cbn [cbind]; [apply IH|done]. Qed.
Lemma foreach_map {A B S} (f : B → S → cres S) (g : A → B) l s : foreach f (g <$> l) s = foreach (λ x, f (g x)) l s.
Proof. revert s. induction l as [|x l IH]; intros s; [done|]. rewrite fmap_cons. cbn [foreach]. destruct (f (g x) s); cbn [cbind]; [apply IH|done]. Qed.

Definition product {A B} (l1 : list A) (l2 : list B) : list (A * B) := l1 ≫= λ a, pair a <$> l2.
Lemma foreach_product {A B S} (f : A → B → S → cres S) l1 l2 s : foreach (λ a, foreach (f a) l2) l1 s = foreach (λ ab, f ab.1 ab.2) (product l1 l2) s.
Proof.
  revert s. induction l1 as [|a l1 IH]; intros s; [done|]. cbn [foreach]. unfold product. rewrite bind_cons, foreach_app, foreach_map.
  cbn. destruct (foreach (f a) l2 s); cbn [cbind]; [apply IH|done].
Qed.
Lemma elem_of_product {A B} (l1 : list A) (l2 : list B) a b : (a, b) ∈ product l1 l2 ↔ a ∈ l1 ∧ b ∈ l2.
Proof.
  unfold product. rewrite list_elem_of_bind. split.
  - intros (x & (y & E & Hy)%list_elem_of_fmap & Hx). injection E as -> ->. done.
  - intros [Ha Hb]. exists a. split; [|done]. apply list_elem_of_fmap. by exists b.
Qed.
Lemma product_NoDup {A B} (l1 : list A) (l2 : list B) : NoDup l1 → NoDup l2 → NoDup (product l1 l2).
Proof.
  intros H1 H2. induction l1 as [|a l1 IH]; [constructor|]. apply NoDup_cons in H1 as [Ha H1]. unfold product. rewrite bind_cons. apply NoDup_app. split; [|split; [|by apply IH]].
  - apply NoDup_fmap_2; [|done]. intros x y [=]. done.
  - intros [x y] (b & [= -> ->] & Hb)%list_elem_of_fmap Hin. fold (product l1 l2) in Hin. by apply elem_of_product in Hin as [? _].
Qed.

Lemma Forall2_in {A B} (P Q : A → B → Prop) l k : Forall2 P l k → (∀ x y, x ∈ l → P x y → Q x y) → Forall2 Q l k.
Proof. induction 1 as [|x y l k Hxy _ IH]; intros HQ; constructor; [apply HQ; [by left|done]|]. apply IH. intros a b Ha. apply HQ. by right. Qed.

Lemma all_pass_eval {A} (f : A → cres bool) (g : A → bool) l : (∀ x, x ∈ l → f x = Ok (g x)) → all_pass f l = Ok (forallb g l).
Proof.
  induction l as [|x l IH]; intros Hf; [done|]. cbn [all_pass forallb]. rewrite (Hf x) by (by left). cbn [cbind].
  destruct (g x); [|done]. cbn [andb]. apply IH. intros y Hy. apply Hf. by right.
Qed.

Section read.
Context {HT : Type} `{Hcal : !Calendar} `{Hpal : !Palloc} `{Henv : !EventEnv HT} `{Hfresh : !PallocFresh}.
Implicit Types (st : Store HT) (e : Event) (m : gmap nat EventEntry) (b : gmap nat HT) (bt ee : nat) (p : node) (vs : list (option HT)).

(** ** Values *)

Definition slot_is b (o : option nat) (v : option HT) : Prop :=
  match o, v with
  | None, None => True
  | Some a, Some h => b !! a = Some h
  | _, _ => False
  end.
Definition reads b (l : list (option nat)) vs : Prop := Forall2 (slot_is b) l vs.

Lemma reads_eval st l vs : reads (base_tuples st) l vs → read_base_tuples st l = Ok vs.
Proof.
  induction 1 as [|[a|] [h|] l vs Ha _ IH]; [done| |done|done|]; cbn [read_base_tuples]; rewrite IH; [|done]. cbn in Ha. by rewrite Ha.
Qed.
Lemma reads_length b l vs : reads b l vs → length l = length vs.
Proof. apply Forall2_length. Qed.
Lemma reads_mono b b' l vs : (∀ a, Some a ∈ l → b' !! a = b !! a) → reads b l vs → reads b' l vs.
Proof.
  intros Hb Hr. induction Hr as [|o v l vs Ho _ IH]; constructor.
  - destruct o as [a|], v as [h|]; try done. cbn in *. rewrite Hb; [done|by left].
  - apply IH. intros a Ha. apply Hb. by right.
Qed.
Lemma reads_lookup b l vs i : reads b l vs → match l !! i, vs !! i with Some o, Some v => slot_is b o v | None, None => True | _, _ => False end.
Proof. intros Hr. revert i. induction Hr as [|o v l vs Ho _ IH]; intros [|i]; cbn; try done. apply IH. Qed.
Lemma reads_merged b l1 l2 v1 v2 : reads b l1 v1 → reads b l2 v2 → reads b (merged l1 l2) (merged v1 v2).
Proof.
  intros H1. revert l2 v2. induction H1 as [|o v l1 v1 Ho _ IH]; intros l2 v2 H2; [constructor|]. destruct H2 as [|o' v' l2 v2 Ho' H2]; [constructor|].
  constructor; [|by apply IH]. destruct o, v; done.
Qed.

(** What an event says, and when. *)
Abbreviation AEvent := (list (option HT) * Z)%type.
Definition is_event b e (v : AEvent) : Prop := reads b (t_base_tuples (tup e)) v.1 ∧ event_timestamp e = v.2.
Definition holds st ee (v : AEvent) : Prop := ∃ x, entries st !! ee = Some x ∧ is_event (base_tuples st) (event x) v.

Definition join (v1 v2 : AEvent) : AEvent := (merged v1.1 v2.1, Z.max v1.2 v2.2).
Lemma is_combined b e e1 e2 v1 v2 : combined e e1 e2 → is_event b e1 v1 → is_event b e2 v2 → is_event b e (join v1 v2).
Proof. intros [E1 E2] [H1 T1] [H2 T2]. split; [rewrite E1; by apply reads_merged|]. cbn. congruence. Qed.

Lemma reads_no_conflict b e1 e2 v1 v2 : is_event b e1 v1 → is_event b e2 v2 → apart v1.1 v2.1 → haveSimpleEventConflict e1 e2 = false.
Proof.
  intros [H1 _] [H2 _]. unfold haveSimpleEventConflict. destruct v1 as [v1 t1], v2 as [v2 t2]. cbn [fst] in *. revert H1 H2.
  generalize (t_base_tuples (tup e1)) as l1, (t_base_tuples (tup e2)) as l2. intros l1 l2 H1. revert l2 v2.
  induction H1 as [|o v l1 v1 Ho _ IH]; intros l2 v2 H2 Ha; [done|]. destruct H2 as [|o' v' l2 v2 Ho' H2]; [done|]. cbn [zip_with existsb].
  rewrite (IH l2 v2 H2) by (intros i; apply (Ha (S i))). destruct o as [a|], o' as [a'|]; try done. destruct v as [h|], v' as [h'|]; try done.
  exfalso. apply (Ha 0%nat); cbn; eauto.
Qed.

(** ** Partitions *)

Definition slot vs (varno : Z) : option HT := match vs !! Z.to_nat (varno - 1) with Some o => o | None => None end.
Definition agrees (cube : ExprCube) vs : bool :=
  match cube with
  | [] => true
  | _ =>
      let has i := match vs !! i with Some (Some _) => true | _ => false end in
      forallb (λ i, if has i then
        forallb (λ j, if has j then
          forallb (λ exprs : gmap (nat * nat) (Var * Var), match exprs !! (i, j) with
            | None => false
            | Some (v1, v2) =>
                match slot vs v1.1, slot vs v2.1 with
                | Some h1, Some h2 => bool_decide (equal_attrs v1 h1 v2 h2 = Some true)
                | _, _ => false
                end
            end) cube
          else true) (seq (S i) (TCQMAXSOURCES - S i))
        else true) (seq 0 TCQMAXSOURCES)
  end.

Lemma base_tuple_eval st e vs (varno : Z) h : reads (base_tuples st) (t_base_tuples (tup e)) vs → slot vs varno = Some h → base_tuple st e varno = Ok h.
Proof.
  intros Hr. unfold slot, base_tuple. pose proof (reads_lookup _ _ _ (Z.to_nat (varno - 1)) Hr) as Hl. destruct (vs !! _) as [[h'|]|]; [|done..].
  destruct (t_base_tuples (tup e) !! _) as [[a|]|]; [|done..]. intros [= ->]. cbn in *. by rewrite Hl.
Qed.

Lemma consistent_eval cube st e vs : cube_ok cube → reads (base_tuples st) (t_base_tuples (tup e)) vs → isPartitionConsistent cube st e = Ok (agrees cube vs).
Proof.
  intros Hcube Hr. unfold isPartitionConsistent, agrees. destruct cube as [|c0 cubes] eqn:Ec; [done|]. rewrite <- Ec in *. clear Ec.
  assert (∀ i, match t_base_tuples (tup e) !! i with Some (Some _) => true | _ => false end = match vs !! i with Some (Some _) => true | _ => false end) as Hhas.
  { intros i. pose proof (reads_lookup _ _ _ i Hr) as Hl. destruct (t_base_tuples (tup e) !! i) as [[a|]|], (vs !! i) as [[h|]|]; done. }
  apply all_pass_eval. intros i _. rewrite Hhas. destruct (vs !! i) as [[hi|]|] eqn:Ei; [|done..].
  apply all_pass_eval. intros j _. rewrite Hhas. destruct (vs !! j) as [[hj|]|] eqn:Ej; [|done..].
  apply all_pass_eval. intros exprs Hex. unfold ExecEvalExpr. destruct (exprs !! (i, j)) as [[v1 v2]|] eqn:E; [|done].
  assert (∀ v : Var, Z.to_nat (v.1 - 1) = i ∨ Z.to_nat (v.1 - 1) = j → ∃ h, slot vs v.1 = Some h) as Hv.
  { intros v Hij. unfold slot. destruct Hij as [-> | ->]; [rewrite Ei|rewrite Ej]; by eexists. }
  destruct (Hcube _ _ _ _ _ Hex E) as [H1 H2]. destruct (Hv v1 H1) as [h1 S1]. destruct (Hv v2 H2) as [h2 S2].
  rewrite (base_tuple_eval st e vs _ h1 Hr S1), (base_tuple_eval st e vs _ h2 Hr S2), S1, S2. done.
Qed.

Lemma are_consistent_eval cube L st e1 e2 v1 v2 : cube_ok cube → counted L st → known st e1 → known st e2 → is_event (base_tuples st) e1 v1 → is_event (base_tuples st) e2 v2 →
  apart v1.1 v2.1 → arePartitionConsistent cube e1 e2 st = Ok (agrees cube (merged v1.1 v2.1), st).
Proof.
  intros Hcube C K1 K2 H1 H2 Ha. pose proof (reads_no_conflict _ _ _ _ _ H1 H2 Ha) as Hc.
  destruct (are_consistent_ok cube Hcube L st e1 e2 C K1 K2 Hc) as [r E]. rewrite E. do 2 f_equal. revert E. unfold arePartitionConsistent.
  destruct (combine_ok L st e1 e2 C K1 K2 Hc) as (e & pins & -> & Eb & Et & He & C1 & _). cbn [cbind].
  rewrite (consistent_eval cube (set_pins st pins) e (merged v1.1 v2.1)); [|done|]. 2: { cbn. rewrite Eb. apply reads_merged; [apply H1|apply H2]. }
  cbn [cbind]. destruct (deleteEvent e _); cbn [cbind]; [|done]. by intros [= <- _].
Qed.
End read.
Abbreviation AEvent HT := (list (option HT) * Z)%type.
End EventsRead.
