(* ===== verification/EventsThm.v ===== *)
(** * Event aggregates: the calls

    The requests for timeouts are served in finitely many steps, in which the depths
    of the requests decrease lexicographically; and a call of the operator succeeds
    and keeps the store right. *)

From S2P Require Import Prelude BitArray GSFilter Eddy EddyGSF Stem StemSpec Window WindowSpec Events EventsMem EventsInv EventsStep EventsRead.

Module EventsThm.
Import Bit Eddy Stem StemSpec Window WindowSpec Events EventsMem EventsInv EventsStep EventsRead.
Local Open Scope Z_scope.

(** ** A lexicographic order *)

Section lex.
Local Open Scope nat_scope.
Implicit Types (f g : nat → nat).

Fixpoint lex (n : nat) f g : Prop :=
  match n with
  | O => False
  | S m => f m < g m ∨ (f m = g m ∧ lex m f g)
  end.

Lemma lex_ext n f g h : (∀ j, j < n → g j = h j) → lex n f g → lex n f h.
Proof.
  induction n as [|n IH]; intros E; [done|]. cbn. rewrite (E n) by lia. intros [Hl|[He Hl]]; [by left|right]. split; [done|]. apply IH; [|done].
  intros j Hj. apply E. lia.
Qed.
Lemma lex_acc n : ∀ f, Acc (lex n) f.
Proof.
  induction n as [|n IH]; [constructor; by intros|]. intros f. remember (f n) as a eqn:Ea. revert f Ea.
  induction (lt_wf a) as [a _ IHa]. intros f Ea. revert Ea. induction (IH f) as [f _ IHf]. intros Ea.
  constructor. intros g [Hl|[He Hl]]; [apply (IHa (g n)); [lia|done]|]. apply IHf; [done|congruence].
Qed.
Lemma lex_at n k f g : k < n → (∀ j, k < j → g j ≤ f j) → g k < f k → lex n g f.
Proof.
  induction n as [|n IH]; intros Hk Hle Hlt; [lia|]. cbn. destruct (decide (k = n)) as [->|]; [by left|]. pose proof (Hle n ltac:(lia)).
  destruct (decide (g n = f n)); [right; split; [done|]; apply IH; [lia|done|done]|left; lia].
Qed.
End lex.

Fixpoint height (ex : EventExpr) : nat :=
  match ex with
  | EVENT_SIMPLE _ => 0
  | EVENT_COMPLEX _ _ l r => S (Nat.max (height l) (height r))
  end.
Lemma node_height root p : ∀ ex, node_at root p = Some ex → (length p + height ex ≤ height root)%nat.
Proof.
  induction p as [|s q IH]; intros ex E; cbn in E; [by injection E as <-|]. destruct (node_at root q) as [[|op d l r]|]; [done| |done].
  specialize (IH _ eq_refl). cbn in IH. injection E as <-. destruct s; cbn; lia.
Qed.

Section thm.
Context {HT : Type} `{Hcal : !Calendar} `{Hpal : !Palloc} `{Henv : !EventEnv HT} `{Hfresh : !PallocFresh}.
Implicit Types (st : Store HT) (e : Event) (m : gmap nat EventEntry) (bt ee : nat) (p : node) (n : FEventAgg HT) (t : IHT HT).

(** ** Timeouts *)

Section service.
Context (root : EventExpr) (Hdelays : delays_ok root) (R : list nat) (cube : ExprCube) (Hcube : cube_ok cube).

(** What is left once [i] requests have been served. *)
Definition left_of (i : nat) st (j : nat) : nat :=
  (length (filter (λ r : node * Z, length r.1 = j) (drop i (timeoutRequests st))) + unrequested (entries st) (lists_at (at_depth (S j)) (outputList st)))%nat.

Lemma left_weight i st j : weight j st = (length (filter (λ r : node * Z, length r.1 = j) (take i (timeoutRequests st))) + left_of i st j)%nat.
Proof. unfold weight, left_of. rewrite <- (take_drop i (timeoutRequests st)) at 1. rewrite filter_app, length_app. lia. Qed.

Lemma left_served i st st' p ts : timeoutRequests st !! i = Some (p, ts) → after (length p) st st' →
  (∀ j, length p < j → left_of (S i) st' j ≤ left_of i st j)%nat ∧ (left_of (S i) st' (length p) < left_of i st (length p))%nat.
Proof.
  intros Hi [C [l El] _]. assert (timeoutRequests st' !! i = Some (p, ts)) as Hi' by (rewrite El; by apply lookup_app_l_Some).
  assert (take i (timeoutRequests st') = take i (timeoutRequests st)) as Et.
  { rewrite El, take_app_le; [done|]. apply lookup_lt_Some in Hi. lia. }
  assert (∀ j, (length p ≤ j)%nat → left_of i st' j ≤ left_of i st j)%nat as Hle.
  { intros j Hj. specialize (C j Hj). rewrite !(left_weight i), Et in C. lia. }
  assert (∀ j, left_of i st' j = (if decide (length p = j) then 1 else 0) + left_of (S i) st' j)%nat as Hs.
  { intros j. unfold left_of. rewrite (drop_S _ _ _ Hi'). rewrite filter_cons. cbn. case_decide; cbn; lia. }
  split.
  - intros j Hj. specialize (Hle j ltac:(lia)). specialize (Hs j). rewrite decide_False in Hs by lia. lia.
  - specialize (Hle (length p) ltac:(lia)). specialize (Hs (length p)). rewrite decide_True in Hs by done. lia.
Qed.

Definition valid (l : list (node * Z)) : Prop := ∀ p ts, (p, ts) ∈ l → is_Some (node_at root p).

Lemma with_timeouts_inv held st l : Inv root R held st → valid l → Inv root R held (with_timeouts st l).
Proof. intros [I1 I2 I3 I4] Hl. constructor; [by eapply counted_cache|done|done|]. exact Hl. Qed.

Lemma service_from_ok held ts i leftovers st : Inv root R held st → valid leftovers → Forall (λ r, ts < r.2) leftovers →
  ∃ F st', (∀ fuel, (F ≤ fuel)%nat → service_from fuel cube root ts i leftovers st = Ok st') ∧ Inv root R held st' ∧ base_tuples st' = base_tuples st
    ∧ Forall (λ r, ts < r.2) (timeoutRequests st').
Proof.
  remember (left_of i st) as f eqn:Ef. revert i leftovers st Ef.
  induction (lex_acc (S (height root)) f) as [f _ IH]. intros i leftovers st -> I Hv Hd.
  destruct (timeoutRequests st !! i) as [[p u]|] eqn:Ei.
  2: { exists 0%nat, (with_timeouts st leftovers). split; [intros [|fuel] _; cbn [service_from]; by rewrite Ei|].
       split; [by apply with_timeouts_inv|]. by split. }
  destruct (iv_timeouts _ _ _ _ I p u) as [ex Hp]; [by eapply list_elem_of_lookup_2|]. pose proof (node_height root p ex Hp) as Hh.
  destruct (Z.leb_spec u ts) as [Hle|Hlt].
  - destruct (construct_ok root Hdelays R cube Hcube held ts p st I) as (st1 & E1 & I1 & A1); [by eexists|].
    destruct (left_served i st st1 p u Ei A1) as [H1 H2].
    destruct (IH _ (lex_at (S (height root)) (length p) _ _ ltac:(lia) H1 H2) (S i) leftovers st1 eq_refl I1 Hv Hd) as (F & st' & E & I' & B & D).
    exists (S F), st'. split; [|split; [done|split; [rewrite B; by apply A1|done]]]. intros [|fuel] HF; [lia|]. cbn [service_from]. rewrite Ei. unfold ts_geq.
    rewrite (proj2 (Z.leb_le _ _)) by done. rewrite E1. cbn [cbind]. apply E. lia.
  - destruct (left_served i st st p u Ei (after_refl _ st)) as [H1 H2].
    destruct (IH _ (lex_at (S (height root)) (length p) _ _ ltac:(lia) H1 H2) (S i) (leftovers ++ [(p, u)]) st eq_refl I) as (F & st' & E & I' & B & D).
    { intros q v. rewrite elem_of_app, list_elem_of_singleton. intros [Hq|[= -> ->]]; [by eapply Hv|by eexists]. }
    { apply Forall_app. split; [done|]. by apply Forall_singleton. }
    exists (S F), st'. split; [|by split]. intros [|fuel] HF; [lia|]. cbn [service_from]. rewrite Ei. unfold ts_geq.
    rewrite (proj2 (Z.leb_gt _ _)) by done. apply E. lia.
Qed.

Lemma service_ok held ts st : Inv root R held st →
  ∃ F st', (∀ fuel, (F ≤ fuel)%nat → ServiceTimeouts fuel cube root ts st = Ok st') ∧ Inv root R held st' ∧ base_tuples st' = base_tuples st
    ∧ Forall (λ r, ts < r.2) (timeoutRequests st').
Proof. intros I. apply service_from_ok; [done|intros p u Hin; by apply elem_of_nil in Hin|done]. Qed.

(** ** Results *)

Lemma fetch_ok held l : ∀ st, Inv root R held st → get_out st [] = l →
  ∃ r st', fetch_from cube l st = Ok (r, st') ∧ base_tuples st' = base_tuples st ∧
    match r with
    | None => Inv root R held st' ∧ get_out st' [] = []
    | Some e => Inv root R (pointers e ++ held) st' ∧ known st' e
    end.
Proof.
  induction l as [|ee rest IH]; intros st I El; [by exists None, st|]. cbn [fetch_from].
  assert (is_Some (entries st !! ee)) as [x Hx] by (apply (iv_listed root R held st []); [done|rewrite El; by left]).
  assert (get_out st [] ≡ₚ rest ++ [ee]) as Hperm by (rewrite El; apply Permutation_cons_append).
  unfold get_entry. cbn [set_out with_out entries]. rewrite Hx. cbn [access cbind]. set (st1 := set_out st [] rest).
  pose proof (iv_known root R held st ee x I Hx) as Hk.
  assert (counted (refs (entries st1) ++ held) st1) as C1 by (eapply counted_cache; [apply (iv_counted _ _ _ _ I)|done..]).
  destruct (consistent_ok cube Hcube _ st1 (event x) C1 Hk) as [b ->]. cbn [cbind]. destruct b.
  - unfold deleteEventEntryButNotEvent, get_entry. assert (entries st1 !! ee = Some x) as -> by done. cbn [access cbind].
    exists (Some (event x)), (free_entry st1 ee). split; [done|]. split; [done|]. split; [|done].
    apply (drop_inv root R held (pointers (event x) ++ held) st [] [ee] rest (baseTuplePinCounts st)); [done|done|].
    pose proof (free_entry_counted held st ee x (iv_counted _ _ _ _ I) Hx) as C2. unfold Counted in *. by eapply counted_cache.
  - destruct (delete_entry_ok held st1 ee x C1 Hx) as (pins & -> & C2). cbn [cbind].
    destruct (IH (free_entry (set_pins st1 pins) ee)) as (r & st' & E & B & Hr); [|unfold get_out; cbn; by rewrite lookup_insert_eq|by exists r, st'].
    apply (drop_inv root R held held st [] [ee] rest pins); [done|done|]. unfold Counted in *. by eapply counted_cache.
Qed.
End service.

(** ** Calls *)

(** A tuple of one stream, with a timestamp that delays can be added to. *)
Definition simple_at t (i : nat) (h : HT) (ts : Z) : Prop :=
  findIndexOfSourceForSimpleEvent t = Ok (Z.of_nat i) ∧ t_base_tuples t !! i = Some (Some h)
  ∧ (∀ j o, t_base_tuples t !! j = Some (Some o) → j = i) ∧ get_timestamp_val i h = Some ts ∧ time_ok ts.
Definition tuple_ok t : Prop := iht_wf t ∧ ∃ i h ts, simple_at t i h ts.

Lemma simple_timestamp t i h ts : simple_at t i h ts → getSimpleEventTimestamp t = Ok ts.
Proof. intros (E & Hi & _ & Ht & _). unfold getSimpleEventTimestamp. rewrite E. cbn [cbind]. rewrite Nat2Z.id, Hi. cbn [access cbind]. by rewrite Ht. Qed.

Lemma created_wf : iht_wf (CreateIntermediateHeapTuple (X := HT)).
Proof.
  assert (∀ l : list Z, forallb (λ b, (0 <=? b) && (b <? 256)) l = true → Forall is_byte l) as Hb.
  { intros l Hl. apply Forall_forall. intros b Hin. rewrite forallb_forall in Hl. specialize (Hl b (proj1 (list_elem_of_In _ _) Hin)).
    apply andb_true_iff in Hl as [H1%Z.leb_le H2%Z.ltb_lt]. done. }
  constructor; [constructor| |reflexivity]; (split; [reflexivity|apply Hb; reflexivity]).
Qed.
Lemma copy_created t : iht_wf t → copyIntermediateHeapTuple CreateIntermediateHeapTuple t = t.
Proof. apply copy_eq, created_wf. Qed.

(** A different bound on the base tuples of the events. *)
Lemma bound_inv root R R' held st : Inv root R held st → (∀ bt, bt ∈ refs (entries st) → bt ∈ R') → Inv root R' held st.
Proof.
  intros [I1 I2 I3 I4] HR. constructor; [done|done| |done]. intros ee x Hx. destruct (I3 ee x Hx) as (He & Ht & _). split; [done|]. split; [done|].
  intros bt Hb. apply HR, elem_of_refs. by exists ee, x.
Qed.
Lemma bound_refs root R held st : Inv root R held st → ∀ bt, bt ∈ refs (entries st) → bt ∈ R.
Proof. intros I bt (ee & x & Hx & Hb)%elem_of_refs. by apply (iv_event _ _ _ _ I ee x Hx). Qed.

Lemma in_cache_NoDup L st : counted L st → NoDup (in_cache st).
Proof.
  intros C. assert (∀ i j bt, baseTuplePointers st !! i = Some (Some bt) → baseTuplePointers st !! j = Some (Some bt) → i = j) as H by apply C.
  unfold in_cache. revert H. generalize (baseTuplePointers st) as l. induction l as [|o l IH]; intros H; [constructor|].
  assert (NoDup (omap id l)) as Hl by (apply IH; intros i j bt Hi Hj; by specialize (H (S i) (S j) bt Hi Hj) as [=]).
  destruct o as [a|]; cbn; [|done]. constructor; [|done]. rewrite list_elem_of_omap. intros (o & Ho & E). cbn in E. subst o.
  apply list_elem_of_lookup in Ho as [j Hj]. by specialize (H 0%nat (S j) a eq_refl Hj).
Qed.

Definition distinct (l : list nat) : nat := length (remove_dups l).
Lemma in_cache_length L st l : counted L st → (∀ bt, cached st bt → bt ∈ l) → (length (in_cache st) ≤ distinct l)%nat.
Proof.
  intros C Hl. apply submseteq_length, NoDup_submseteq; [by eapply in_cache_NoDup|]. intros bt Hb%elem_of_in_cache. by apply elem_of_remove_dups, Hl.
Qed.

Section parts.
Context (root : EventExpr) (R : list nat).

(** Nothing changes but the cache, and base tuples that no event points to. *)
Record same_lists st st' : Prop := {
  sl_out : outputList st' = outputList st;
  sl_entries : entries st' = entries st;
  sl_base bt : bt ∈ refs (entries st) → base_tuples st' !! bt = base_tuples st !! bt;
  sl_timeouts : timeoutRequests st' = timeoutRequests st;
  sl_allocated : (allocated st ≤ allocated st')%nat
}.

Lemma free_same st : Inv root R [] st → ∃ st', freeAllDoneBaseTuples st = Ok st' ∧ Inv root R [] st' ∧ same_lists st st'
  ∧ (length (in_cache st') ≤ distinct (refs (entries st')))%nat.
Proof.
  intros I. destruct (free_all_ok _ st (iv_counted _ _ _ _ I)) as (st' & -> & C & Rs & Hsub & Hc). rewrite app_nil_r in Hc.
  pose proof Rs as [Ee Eo Et Ea]. exists st'. split; [done|]. split; [|split].
  - constructor; [unfold Counted; by rewrite Ee|rewrite Eo, Ee; apply (iv_linked _ _ _ _ I)|rewrite Ee; apply (iv_event _ _ _ _ I)|rewrite Et; apply (iv_timeouts _ _ _ _ I)].
  - constructor; try done. intros bt Hb. destruct (proj1 (ct_live _ _ C bt)) as [h Hh]; [by apply Hc|]. rewrite Hh. symmetry. by eapply lookup_weaken.
  - apply (in_cache_length _ _ _ C). intros bt Hb. rewrite Ee. by apply Hc.
Qed.

Lemma copy_same st (t : IHT HT) i h ts : Inv root R [] st → (length (in_cache st) < MAX_BASE_TUPLES_CACHED)%nat → iht_wf t → simple_at t i h ts →
  ∃ a ev st', copyEventInPrivateContext t ts st = Ok (ev, st') ∧ Inv root (a :: R) [a] st' ∧ same_lists st st' ∧ pointers ev = [a] ∧ ev_ok ev
    ∧ is_event (base_tuples st') ev (<[i := Some h]> (replicate TCQMAXSOURCES None), ts) ∧ findIndexOfSourceForSimpleEvent (tup ev) = Ok (Z.of_nat i).
Proof.
  intros I Hroom Hwf (Ei & Hi & Hone & Hts & Ht).
  destruct (copy_event_ok _ st t i h ts (iv_counted _ _ _ _ I) Hroom (iw_base _ Hwf) Hi Hone) as (b & s & st' & -> & Eb & Es & C & Rs & Ebase).
  rewrite copy_created in * by done. set (ev := mkEvent _ ts). set (a := new_address st) in *.
  assert (i < TCQMAXSOURCES)%nat as Hlt by (pose proof (lookup_lt_Some _ _ _ Hi); rewrite (iw_base _ Hwf) in *; done).
  pose proof Rs as [Ee Eo Et Ea]. exists a, ev, st'. split; [done|]. split.
  { constructor.
    - unfold Counted. rewrite Ee. by rewrite <- Permutation_cons_append, <- (app_nil_r (refs _)).
    - rewrite Eo, Ee. apply (iv_linked _ _ _ _ I).
    - intros ee x. rewrite Ee. intros Hx. destruct (iv_event _ _ _ _ I ee x Hx) as (? & ? & HR). split; [done|]. split; [done|]. intros bt Hb. right. by apply HR.
    - rewrite Et. apply (iv_timeouts _ _ _ _ I). }
  split.
  { constructor; try done. intros bt Hb. rewrite Ebase, lookup_insert_ne; [done|]. intros <-. pose proof (new_address_fresh st) as [_ Hf]. fold a in Hf.
    assert (cached st a) as Hc by (apply (ct_cached _ _ (iv_counted _ _ _ _ I)); apply elem_of_app; by left). apply (ct_live _ _ (iv_counted _ _ _ _ I)) in Hc as [x Hx]. congruence. }
  assert (pointers ev = [a]) as Ep by (unfold pointers, ev; cbn [tup t_base_tuples]; subst b; by apply omap_one).
  split; [done|]. split; [unfold ev_ok, ev; cbn [tup t_base_tuples]; subst b; by rewrite length_insert, length_replicate|]. split.
  - split; [|done]. unfold ev. cbn [tup t_base_tuples fst]. subst b. apply Forall2_insert; [|cbn; rewrite Ebase; apply lookup_insert_eq].
    generalize TCQMAXSOURCES. intros k. induction k; constructor; done.
  - revert Ei. unfold findIndexOfSourceForSimpleEvent, ev. cbn [tup t_sources]. by rewrite Es.
Qed.

(** The event of an arrival is let go of. *)
Lemma release_same st ev held : Inv root R held st → pointers ev ≡ₚ held → ∃ st', deleteEvent ev st = Ok st' ∧ Inv root R [] st' ∧ same_lists st st'.
Proof.
  intros I Ep. pose proof (iv_counted _ _ _ _ I) as C. unfold Counted in C. rewrite Permutation_app_comm, <- Ep in C.
  destruct (delete_event_ok (refs (entries st)) st ev C) as (pins & E6 & C6). exists (set_pins st pins). split; [done|]. split; [|done].
  constructor; [unfold Counted; by rewrite app_nil_r|apply (iv_linked _ _ _ _ I)|apply (iv_event _ _ _ _ I)|apply (iv_timeouts _ _ _ _ I)].
Qed.
End parts.

Section call.
Context (root : EventExpr) (Hdelays : delays_ok root) (cube : ExprCube) (Hcube : cube_ok cube).

(** The events of an arrival, once the timeouts have been served. *)
Lemma arrive_ok R st t i h ts : Inv root R [] st → (distinct R < MAX_BASE_TUPLES_CACHED)%nat → iht_wf t → simple_at t i h ts →
  ∃ st', (let! st2 := freeAllDoneBaseTuples st in
    let! (ev, st3) := copyEventInPrivateContext t ts st2 in
    let! st4 := expireEvents root [] ts st3 in
    let! st5 := publishSimpleEvent cube root root [] ev st4 in
    deleteEvent ev st5) = Ok st' ∧ ∃ a, Inv root (a :: R) [] st'.
Proof.
  intros I Hroom Hwf Ht. destruct (free_same root R st I) as (st2 & -> & I2 & L2 & Hc). cbn [cbind].
  assert (distinct (refs (entries st2)) ≤ distinct R)%nat as Hle.
  { apply submseteq_length, NoDup_submseteq; [apply NoDup_remove_dups|]. intros bt. rewrite !elem_of_remove_dups. apply (bound_refs root R [] st2 I2). }
  destruct (copy_same root R st2 t i h ts I2 ltac:(lia) Hwf Ht) as (a & ev & st3 & -> & I3 & _ & Ep & He & Hv & Hidx). cbn [cbind].
  destruct (expire_events_ok root (a :: R) [a] ts root [] st3 I3 Hdelays) as (st4 & -> & I4 & _). cbn [cbind].
  destruct (publish_ok root Hdelays (a :: R) cube Hcube [a] ev (Z.of_nat i) root [] st4 I4 eq_refl He) as (st5 & -> & I5 & _).
  { by rewrite Ep. }
  { destruct Hv as [_ ->]. apply Ht. }
  { rewrite Ep. intros bt ->%list_elem_of_singleton. by left. }
  { done. }
  cbn [cbind]. destruct (release_same root (a :: R) st5 ev [a] I5) as (st6 & -> & I6 & _); [by rewrite Ep|]. exists st6. split; [done|]. by exists a.
Qed.
End call.

(** ** What a call returns *)

Lemma read_ok L st l : counted L st → (∀ bt, Some bt ∈ l → cached st bt) → ∃ b, read_base_tuples st l = Ok b ∧ length b = length l.
Proof.
  intros C. induction l as [|[a|] l IH]; intros Hl; [by exists []|..]; cbn [read_base_tuples]; (destruct IH as (b & -> & Eb); [intros bt Hb; apply Hl; by right|]).
  - destruct (proj1 (ct_live _ _ C a)) as [h ->]; [apply Hl; by left|]. cbn [access cbind]. exists (Some h :: b). cbn. by rewrite Eb.
  - cbn [cbind]. exists (None :: b). cbn. by rewrite Eb.
Qed.

Lemma copy_result_ok L st (o : IHT HT) e : counted L st → known st e → ∃ o', copy_result o (tup e) st = Ok o' ∧ length (t_base_tuples o') = TCQMAXSOURCES.
Proof.
  intros C [He Hk]. unfold copy_result. destruct (read_ok L st (t_base_tuples (tup e)) C) as (b & -> & Eb); [intros bt Hb; by apply Hk, elem_of_pointers|].
  cbn [cbind]. eexists. split; [reflexivity|]. cbn. by rewrite Eb, He.
Qed.

Lemma cleared_lookup k : ∀ l : list (option HT), (k ≤ length l)%nat →
  for_loop k (λ i l, <[i := None]> l) l = replicate k None ++ drop k l.
Proof.
  induction k as [|k IH]; intros l Hk; [by rewrite drop_0|]. cbn [for_loop]. rewrite IH by lia.
  rewrite insert_app_r_alt by (rewrite length_replicate; lia). rewrite length_replicate, Nat.sub_diag. destruct (drop k l) as [|x r] eqn:E.
  - apply (f_equal length) in E. rewrite length_drop in E. cbn in E. lia.
  - cbn [insert list_insert]. rewrite (drop_S l x k) in E by (rewrite <- (Nat.add_0_r k), <- lookup_drop, E; done). injection E as ->.
    rewrite replicate_S_end, <- app_assoc. done.
Qed.

Lemma punct_ok (o : IHT HT) srcs ts : length (t_base_tuples o) = TCQMAXSOURCES →
  ∃ o', generateOutputPunct o srcs ts = Ok o' ∧ length (t_base_tuples o') = TCQMAXSOURCES.
Proof.
  intros Ho. unfold generateOutputPunct. match goal with |- ∃ _, foreach ?f _ _ = _ ∧ _ =>
    destruct (foreach_seq f (λ k o', length (t_base_tuples o') = TCQMAXSOURCES ∧ ∀ j, (k ≤ j < TCQMAXSOURCES)%nat → t_base_tuples o' !! j = Some None)
      TCQMAXSOURCES 0%nat (ClearBaseTuples o)) as (o' & E & Hl & _) end.
  - assert (t_base_tuples (ClearBaseTuples o) = replicate TCQMAXSOURCES None) as E.
    { unfold ClearBaseTuples. cbn [t_base_tuples]. rewrite cleared_lookup by (rewrite Ho; done). by rewrite drop_ge, app_nil_r by (rewrite Ho; done). }
    rewrite E, length_replicate. split; [done|]. intros j Hj. apply lookup_replicate. split; [done|lia].
  - intros i o' Hi [Hl Hn]. destruct (BitArrayBitIsSet srcs i); [|exists o'; split; [done|]; split; [done|]; intros j Hj; apply Hn; lia].
    unfold AddBaseTuple. rewrite Hn by lia. cbn [access cbind cassert]. eexists. split; [reflexivity|]. cbn [t_base_tuples].
    rewrite length_insert. split; [done|]. intros j Hj. rewrite list_lookup_insert_ne by lia. apply Hn. lia.
  - by exists o'.
Qed.

(** An operator between calls. *)
Record events_ok n : Prop := {
  eo_query : queryid n = None → ∃ q, usedByQueries n = [q];
  eo_delays : delays_ok (eventExpr n);
  eo_cube : cube_ok (exprCube n);
  eo_input : Forall tuple_ok (inputq n);
  eo_oiht : length (t_base_tuples (oiht n)) = TCQMAXSOURCES;
  eo_store : Inv (eventExpr n) (refs (entries (store n))) [] (store n)
}.

Lemma fresh_store_ok q room ex vl srcs (o : IHT HT) : delays_ok ex → length (t_base_tuples o) = TCQMAXSOURCES → events_ok (ProcessInitFEventAgg [q] room ex vl srcs o).
Proof.
  intros He Ho. constructor; cbn; [intros _; by exists q|done|apply initialize_cube_ok|done|done|]. constructor; cbn.
  - unfold Counted. cbn. constructor; cbn [empty_store baseTuplePointers baseTuplePinCounts base_tuples baseTuplesCached].
    + by rewrite length_replicate.
    + by rewrite length_replicate.
    + intros pos x [-> Hp]%lookup_replicate. by apply lookup_replicate.
    + intros i j bt [E _]%lookup_replicate. done.
    + intros bt Hb. by apply elem_of_nil in Hb.
    + intros bt. rewrite lookup_empty. split; [|by intros []]. intros [E _]%elem_of_replicate. done.
    + assert (∀ k, omap id (replicate k (None : option nat)) = []) as -> by (induction k; done). done.
  - done.
  - intros ee x. by rewrite lookup_empty.
  - intros p ts Hin. by apply elem_of_nil in Hin.
Qed.

Lemma take_ok n q t : events_ok n → tuple_ok t → (distinct (refs (entries (store n))) < MAX_BASE_TUPLES_CACHED)%nat →
  ∃ F n', (∀ fuel, (F ≤ fuel)%nat → take_tuple fuel n q t = Ok n') ∧ events_ok n' ∧ inputq n' = inputq n.
Proof.
  intros [H1 H2 H3 H4 H5 H6] [Hwf (i & h & ts & Hs)] Hroom. unfold take_tuple. rewrite (simple_timestamp t i h ts Hs). cbn [cbind]. cbn [eventExpr exprCube store with_time].
  destruct (service_ok (eventExpr n) H2 _ (exprCube n) H3 [] ts (store n) H6) as (F & st1 & E1 & I1 & _ & _).
  assert (∀ n' st' a, Inv (eventExpr n) (a :: refs (entries (store n))) [] st' → store n' = st' → queryid n' = queryid n → usedByQueries n' = usedByQueries n →
    eventExpr n' = eventExpr n → exprCube n' = exprCube n → inputq n' = inputq n → oiht n' = oiht n → events_ok n') as Hbuild.
  { intros n' st' a I' <- E2 E3 E4 E5 E6 E7. constructor; rewrite ?E2, ?E3, ?E4, ?E5, ?E6, ?E7; try done. by eapply bound_inv. }
  exists F. destruct (ihtIsPunct HeapTupleIsPunct t).
  - eexists. split; [intros fuel HF; rewrite (E1 fuel HF); cbn [cbind]; reflexivity|]. split; [|done]. apply (Hbuild _ st1 0%nat); [|done..].
    eapply bound_inv; [exact I1|]. intros bt Hb. right. by apply (bound_refs _ _ _ _ I1).
  - destruct (arrive_ok (eventExpr n) H2 (exprCube n) H3 _ st1 t i h ts I1 Hroom Hwf Hs) as (st' & E & a & I').
    exists (enq_out (with_store (with_time n ts) st') (with_completed t (BitArraySetBit (t_queriesCompleted t) q))). split.
    + intros fuel HF. rewrite (E1 fuel HF). cbn [cbind]. clear E1. revert E.
      destruct (freeAllDoneBaseTuples st1) as [st2|?]; cbn [cbind]; [|done]. destruct (copyEventInPrivateContext t ts st2) as [[ev st3]|?]; cbn [cbind]; [|done].
      destruct (expireEvents (eventExpr n) [] ts st3) as [st4|?]; cbn [cbind]; [|done]. destruct (publishSimpleEvent _ _ _ _ ev st4) as [st5|?]; cbn [cbind]; [|done].
      by intros ->.
    + split; [|done]. by apply (Hbuild _ st' a).
Qed.

Lemma next_ok n q : events_ok n → ∃ n', next_result n q = Ok n' ∧ events_ok n' ∧ inputq n' = inputq n.
Proof.
  intros [H1 H2 H3 H4 H5 H6]. unfold next_result. destruct (needToEmitPunct n).
  - destruct (punct_ok (oiht n) (sources n) (lastTupleTimestamp n) H5) as (o' & -> & Ho). cbn [cbind]. eexists. split; [reflexivity|]. split; [|done]. by constructor.
  - destruct (fetch_ok (eventExpr n) _ (exprCube n) H3 [] (get_out (store n) []) (store n) H6 eq_refl) as (r & st' & E & _ & Hr). unfold fetchNextComplexEvent. rewrite E. cbn [cbind].
    destruct r as [e|].
    + destruct Hr as [I' Hk]. rewrite app_nil_r in I'. destruct (copy_result_ok _ st' (oiht n) e (iv_counted _ _ _ _ I') Hk) as (o' & E' & Ho). cbn [oiht with_store]. rewrite E'. cbn [cbind].
      destruct (release_same (eventExpr n) _ st' e _ I' (reflexivity _)) as (st2 & -> & I2 & _). cbn [cbind]. eexists. split; [reflexivity|]. split; [|done].
      constructor; try done. cbn. eapply bound_inv; [exact I2|]. done.
    + destruct Hr as [I' _]. eexists. split; [reflexivity|]. split; [|done]. constructor; try done. cbn. by eapply bound_inv.
Qed.

(** C7: Safety of the event operator.  On an operator whose store is right (the pin count
    of every cached base tuple is the number of pointers to it from the events of the
    entries, every entry is on exactly one list of the tree, what events point to is in
    the cache and alive, requests for timeouts are for nodes of the tree), with fewer than
    [MAX_BASE_TUPLES_CACHED] base tuples in use, a call of [ProcessNextFEventAgg] ends
    (serving the timeouts, which may make new requests, terminates), raises none of the
    errors of the code and leaves the store right: no entry or base tuple leaks, none is
    used after it has been freed. *)
Theorem event_calls_safe n : events_ok n → (distinct (refs (entries (store n))) < MAX_BASE_TUPLES_CACHED)%nat →
  ∃ F n', (∀ fuel, (F ≤ fuel)%nat → ProcessNextFEventAgg fuel n = Ok n') ∧ events_ok n' ∧ inputq n' = tail (inputq n).
Proof.
  intros Hn Hroom.
  assert (∃ q n1, (match queryid n with
    | Some q => Ok (q, n)
    | None =>
        let! _ := cassert (bool_decide (length (usedByQueries n) = 1%nat)) in
        let! q := access (head (usedByQueries n)) in
        Ok (q, mkFEventAgg (usedByQueries n) (room n) (inputq n) (outputq n) (eventExpr n) (exprCube n) (Some q) (eddy_sources n)
                 (BitArrayClone (sources n) (eddy_sources n q) TCQMAXSOURCES) (lastTupleTimestamp n)
                 (needToEmitPunct n) (needToResetPunctContext n) (oiht n) (store n))
    end) = Ok (q, n1) ∧ events_ok n1 ∧ inputq n1 = inputq n ∧ store n1 = store n) as (q & n1 & E & Hn1 & Ei & Es).
  { destruct (queryid n) as [q|] eqn:Eq; [by exists q, n|]. pose proof Hn as [H1 H2 H3 H4 H5 H6]. destruct (H1 Eq) as [q ->]. cbn. exists q. eexists. split; [reflexivity|].
    split; [|done]. by constructor. }
  unfold ProcessNextFEventAgg. rewrite E. cbn [cbind]. clear E.
  set (n2 := if needToResetPunctContext n1 then _ else n1). assert (events_ok n2 ∧ inputq n2 = inputq n ∧ store n2 = store n) as (Hn2 & Ei2 & Es2).
  { unfold n2. destruct (needToResetPunctContext n1); [|done]. split; [|done]. destruct Hn1. by constructor. }
  clearbody n2. clear n1 Hn1 Ei Es. destruct (inputq n2) as [|t inp] eqn:Et; cbn [EddyGSF.dequeue_iht].
  - destruct (next_ok (with_queues n2 [] (outputq n2)) q) as (n' & -> & Hn' & Eq); [destruct Hn2; by constructor|].
    exists 0%nat, n'. split; [done|]. split; [done|]. rewrite Eq, <- Ei2. done.
  - destruct (take_ok (with_queues n2 inp (outputq n2)) q t) as (F & n' & E & Hn' & Eq).
    + destruct Hn2 as [H1 H2 H3 H4 H5 H6]. rewrite Et in H4. apply Forall_cons in H4 as [_ H4]. by constructor.
    + destruct Hn2 as [H1 H2 H3 H4 H5 H6]. rewrite Et in H4. by apply Forall_cons in H4 as [? _].
    + cbn. by rewrite Es2.
    + exists F, n'. split; [done|]. split; [done|]. rewrite Eq, <- Ei2. done.
Qed.
End thm.
End EventsThm.
