(* ===== verification/EventsRun.v ===== *)
(** * Event aggregates: arrivals and requests for results

    The calls of an operator as its eddy makes them, one for each tuple that arrives and
    one whenever a result is asked for, in any order. *)

From S2P Require Import Prelude BitArray GSFilter Eddy EddyGSF Stem StemSpec Window WindowSpec Events EventsMem EventsInv EventsStep EventsRead EventsThm.

Module EventsRun.
Import Bit Eddy Stem StemSpec Window WindowSpec Events EventsMem EventsInv EventsStep EventsRead EventsThm.
Local Open Scope Z_scope.

Section run.
Context {HT : Type} `{Hcal : !Calendar} `{Hpal : !Palloc} `{Henv : !EventEnv HT}.
Implicit Types (st : Store HT) (e : Event) (n : FEventAgg HT) (t : IHT HT).

Inductive action : Type := Arrive (t : IHT HT) | Poll.

(** A call with the tuple on the input queue, or with none; the tuple is sent on, so the
    results are what a call without a tuple puts on the output queue. *)
Definition step (fuel : nat) (a : action) n : cres (list (IHT HT) * FEventAgg HT) :=
  let! n' := ProcessNextFEventAgg fuel (with_queues n (match a with Arrive t => [t] | Poll => [] end) []) in
  Ok (match a with Arrive _ => [] | Poll => outputq n' end, with_queues n' [] []).

Fixpoint run (fuel : nat) (acts : list action) n : cres (list (IHT HT) * FEventAgg HT) :=
  match acts with
  | [] => Ok ([], n)
  | a :: acts' =>
      let! (o, n1) := step fuel a n in
      let! (os, n2) := run fuel acts' n1 in
      Ok (o ++ os, n2)
  end.

(** What the arrival of [t] does to the store. *)
Definition arrival (fuel : nat) (cube : ExprCube) (root : EventExpr) t (ts : Z) st : cres (Store HT) :=
  let! st1 := ServiceTimeouts fuel cube root ts st in
  let! st2 := freeAllDoneBaseTuples st1 in
  let! (ev, st3) := copyEventInPrivateContext t ts st2 in
  let! st4 := expireEvents root [] ts st3 in
  let! st5 := publishSimpleEvent cube root root [] ev st4 in
  deleteEvent ev st5.

Context (root : EventExpr) (cube : ExprCube).

(** An operator that has nothing on its queues and no punctuation to send. *)
Record idle n (q : nat) st : Prop := {
  id_query : queryid n = Some q ∨ queryid n = None ∧ usedByQueries n = [q];
  id_expr : eventExpr n = root;
  id_cube : exprCube n = cube;
  id_punct : needToEmitPunct n = false;
  id_room : (0 < room n)%nat;
  id_store : store n = st
}.

Lemma init_idle q r vl srcs (o : IHT HT) : (0 < r)%nat → cube = initializeExprCube vl → idle (ProcessInitFEventAgg [q] r root vl srcs o) q empty_store.
Proof. intros Hr ->. constructor; try done. by right. Qed.

(** The first part of a call. *)
Lemma call_start n q st inp : idle n q st → ∃ n3, idle n3 q st ∧ oiht n3 = oiht n ∧ inputq n3 = tail inp ∧ outputq n3 = [] ∧
  ∀ fuel, ProcessNextFEventAgg fuel (with_queues n inp []) = match inp with t :: _ => take_tuple fuel n3 q t | [] => next_result n3 q end.
Proof.
  intros [Hq E1 E2 E3 E4 E5].
  assert (∃ n1, (match queryid (with_queues n inp []) with
    | Some q => Ok (q, with_queues n inp [])
    | None =>
        let! _ := cassert (bool_decide (length (usedByQueries (with_queues n inp [])) = 1%nat)) in
        let! q := access (head (usedByQueries (with_queues n inp []))) in
        Ok (q, mkFEventAgg (usedByQueries (with_queues n inp [])) (room (with_queues n inp [])) (inputq (with_queues n inp [])) (outputq (with_queues n inp []))
                 (eventExpr (with_queues n inp [])) (exprCube (with_queues n inp [])) (Some q) (eddy_sources (with_queues n inp []))
                 (BitArrayClone (sources (with_queues n inp [])) (eddy_sources (with_queues n inp []) q) TCQMAXSOURCES) (lastTupleTimestamp (with_queues n inp []))
                 (needToEmitPunct (with_queues n inp [])) (needToResetPunctContext (with_queues n inp [])) (oiht (with_queues n inp [])) (store (with_queues n inp [])))
    end) = Ok (q, n1) ∧ idle n1 q st ∧ oiht n1 = oiht n ∧ inputq n1 = inp ∧ outputq n1 = []) as (n1 & E & Hn1 & Eo & Ei & Eout).
  { cbn [queryid with_queues usedByQueries]. destruct Hq as [Hq|[Hq Hu]]; rewrite Hq, ?Hu; eexists; (split; [reflexivity|]; split; [constructor; cbn; [by left|done..]|done]). }
  set (n2 := if needToResetPunctContext n1 then with_punct n1 (needToEmitPunct n1) false else n1).
  assert (idle n2 q st ∧ oiht n2 = oiht n ∧ inputq n2 = inp ∧ outputq n2 = []) as (Hn2 & Eo2 & Ei2 & Eout2).
  { unfold n2. destruct (needToResetPunctContext n1); [|done]. destruct Hn1. by repeat split. }
  exists (with_queues n2 (tail inp) []). destruct Hn2. split; [by constructor|]. split; [done|]. split; [done|]. split; [done|].
  intros fuel. unfold ProcessNextFEventAgg. rewrite E. cbn [cbind]. fold n2. cbn zeta. rewrite Ei2, Eout2. by destruct inp.
Qed.

Lemma step_arrive n q st st' t ts : idle n q st → getSimpleEventTimestamp t = Ok ts → ihtIsPunct HeapTupleIsPunct t = false →
  (∃ F, ∀ fuel, (F ≤ fuel)%nat → arrival fuel cube root t ts st = Ok st') →
  ∃ F n', (∀ fuel, (F ≤ fuel)%nat → step fuel (Arrive t) n = Ok ([], n')) ∧ idle n' q st'.
Proof.
  intros Hn Hts Hp [F Ha]. destruct (call_start n q st [t] Hn) as (n3 & [Hq E1 E2 E3 E4 E5] & _ & _ & Eo & E).
  exists F, (with_queues (enq_out (with_store (with_time n3 ts) st') (with_completed t (BitArraySetBit (t_queriesCompleted t) q))) [] []).
  split; [|by constructor]. intros fuel HF. unfold step. rewrite E. unfold take_tuple. rewrite Hts. cbn [cbind]. cbn [eventExpr exprCube store with_time].
  rewrite E1, E2, E5, Hp. specialize (Ha fuel HF). unfold arrival in Ha.
  destruct (ServiceTimeouts fuel cube root ts st) as [st1|]; cbn [cbind] in *; [|done]. destruct (freeAllDoneBaseTuples st1) as [st2|]; cbn [cbind] in *; [|done].
  destruct (copyEventInPrivateContext t ts st2) as [[ev st3]|]; cbn [cbind] in *; [|done]. destruct (expireEvents root [] ts st3) as [st4|]; cbn [cbind] in *; [|done].
  destruct (publishSimpleEvent cube root root [] ev st4) as [st5|]; cbn [cbind] in *; [|done]. by rewrite Ha.
Qed.

Lemma step_poll_none n q st st' : idle n q st → fetchNextComplexEvent cube st = Ok (None, st') → ∃ n', (∀ fuel, step fuel Poll n = Ok ([], n')) ∧ idle n' q st'.
Proof.
  intros Hn Hf. destruct (call_start n q st [] Hn) as (n3 & [Hq E1 E2 E3 E4 E5] & _ & _ & Eo & E).
  exists (with_queues (with_store n3 st') [] []). split; [|by constructor]. intros fuel. unfold step. rewrite E. unfold next_result. rewrite E3, E2, E5, Hf. cbn [cbind].
  cbn [outputq with_store]. by rewrite Eo.
Qed.

(** The result is for the query only. *)
Definition result_for (q : nat) (vs : list (option HT)) (o : IHT HT) : Prop := t_base_tuples o = vs ∧ ∃ c, t_queriesCompleted o = BitArrayClearBit (BitArraySetAll c TCQMAXQUERIES) q.

Lemma step_poll_some n q st st1 st' e v : idle n q st → fetchNextComplexEvent cube st = Ok (Some e, st1) → is_event (base_tuples st1) e v → deleteEvent e st1 = Ok st' →
  ∃ o n', (∀ fuel, step fuel Poll n = Ok ([o], n')) ∧ result_for q v.1 o ∧ idle n' q st'.
Proof.
  intros Hn Hf [Hv _] Hd. destruct (call_start n q st [] Hn) as (n3 & [Hq E1 E2 E3 E4 E5] & _ & _ & Eo & E).
  assert (∃ o, copy_result (oiht n3) (tup e) st1 = Ok o ∧ t_base_tuples o = v.1) as (o & Ec & Eb).
  { unfold copy_result. rewrite (reads_eval st1 _ v.1 Hv). cbn [cbind]. by eexists. }
  exists (prepareOutputIHTForDelivery o q). eexists. split; [|split; [split; [exact Eb|by eexists]|]].
  - intros fuel. unfold step. rewrite E. unfold next_result. rewrite E3, E2, E5, Hf. cbn [cbind]. cbn [oiht with_store]. rewrite Ec. cbn [cbind]. rewrite Hd. cbn [cbind].
    unfold enq_out. cbn [outputq inputq with_queues with_oiht with_store room EddyGSF.enqueue_iht]. rewrite Eo. unfold EddyGSF.enqueue_iht. rewrite decide_True by (cbn; lia). cbn [snd app].
    reflexivity.
  - by constructor.
Qed.
End run.
#[global] Arguments action : clear implicits.

(** ** Abstract runs

    The lists of an operator as a machine over values: what an arrival makes of them, the
    events that have been found and not yet asked for, and a bound on the base tuples. *)

Class Machine (HT S : Type) : Type := {
  m_arrive : nat → HT → Z → S → S;
  m_found : S → list (AEvent HT);
  m_take : list (AEvent HT) → S → S;
  m_size : S → nat;
  m_take_found vs s : m_found (m_take vs s) = vs
}.

(** A tuple: its stream, its content and its timestamp. *)
Abbreviation tuple HT := (nat * HT * Z)%type.

Section machine.
Context {HT S : Type} `{Henv : !EventEnv HT} `{Hm : !Machine HT S} (cube : ExprCube).
Implicit Types (s : S) (v : AEvent HT) (vs : list (AEvent HT)) (l : list (option (tuple HT))).

(** The first event that is consistent with the partition, and those after it. *)
Fixpoint next_found vs : option (AEvent HT) * list (AEvent HT) :=
  match vs with
  | [] => (None, [])
  | v :: vs' => if agrees cube v.1 then (Some v, vs') else next_found vs'
  end.

(** What the requests for results get; [None] is such a request. *)
Fixpoint answers l s : list (AEvent HT) :=
  match l with
  | [] => []
  | Some (i, h, ts) :: l' => answers l' (m_arrive i h ts s)
  | None :: l' => option_list (next_found (m_found s)).1 ++ answers l' (m_take (next_found (m_found s)).2 s)
  end.
Fixpoint final l s : S :=
  match l with
  | [] => s
  | Some (i, h, ts) :: l' => final l' (m_arrive i h ts s)
  | None :: l' => final l' (m_take (next_found (m_found s)).2 s)
  end.

(** Whenever a tuple comes, fewer base tuples than the cache has places for are kept. *)
Fixpoint fits l s : bool :=
  match l with
  | [] => true
  | Some (i, h, ts) :: l' => bool_decide (m_size s < MAX_BASE_TUPLES_CACHED)%nat && fits l' (m_arrive i h ts s)
  | None :: l' => fits l' (m_take (next_found (m_found s)).2 s)
  end.

Definition agreeing vs : list (AEvent HT) := filter (λ v, agrees cube v.1) vs.
Lemma agreeing_app vs1 vs2 : agreeing (vs1 ++ vs2) = agreeing vs1 ++ agreeing vs2.
Proof. apply filter_app. Qed.

Lemma next_found_agreeing vs : agreeing vs = option_list (next_found vs).1 ++ agreeing (next_found vs).2.
Proof.
  unfold agreeing. induction vs as [|v vs IH]; [done|]. rewrite filter_cons. cbn [next_found]. destruct (agrees cube v.1); [by rewrite decide_True|]. by rewrite decide_False by (intros []).
Qed.

Lemma answers_app l1 l2 s : answers (l1 ++ l2) s = answers l1 s ++ answers l2 (final l1 s).
Proof.
  revert s. induction l1 as [|[[[i h] ts]|] l1 IH]; intros s; cbn [app answers final]; [done|apply IH|]. by rewrite IH, app_assoc.
Qed.

Lemma answers_drain k : ∀ s, (length (agreeing (m_found s)) ≤ k)%nat → answers (replicate k None) s = agreeing (m_found s).
Proof.
  induction k as [|k IH]; intros s Hk; cbn [replicate answers]; [by destruct (agreeing (m_found s)); cbn in *; [|lia]|].
  rewrite (next_found_agreeing (m_found s)) in Hk |- *. f_equal. rewrite IH; [by rewrite m_take_found|]. rewrite m_take_found.
  destruct (next_found (m_found s)) as [o vs] eqn:E. cbn [fst snd] in *.
  destruct o as [v|]; cbn in Hk; [lia|]. assert (vs = []) as ->; [|cbn; lia]. revert E. generalize (m_found s) as l. induction l as [|v l IHl]; cbn; [by intros [=]|].
  by destruct (agrees cube v.1).
Qed.

Lemma fits_drain l k : ∀ s, fits l s = true → fits (l ++ replicate k None) s = true.
Proof.
  induction l as [|[[[i h] ts]|] l IH]; intros s Hf; cbn [app fits] in *.
  - clear Hf. revert s. induction k as [|k IH]; intros s; [done|apply IH].
  - apply andb_true_iff in Hf as [H1 H2]. apply andb_true_iff. split; [done|by apply IH].
  - by apply IH.
Qed.

(** An action of the operator, and what it stands for. *)
Definition stands (a : action HT) (o : option (tuple HT)) : Prop :=
  match a, o with
  | Arrive t, Some (i, h, ts) => iht_wf t ∧ simple_at t i h ts ∧ ihtIsPunct HeapTupleIsPunct t = false
  | Poll, None => True
  | _, _ => False
  end.
End machine.

(** ** Simulation *)

Section simulation.
Context {HT S : Type} `{Hcal : !Calendar} `{Hpal : !Palloc} `{Henv : !EventEnv HT} `{Hm : !Machine HT S}.

(** The stores of an operator that a machine describes. *)
Class Simulates (root : EventExpr) (cube : ExprCube) (rep : Store HT → S → Prop) : Prop := {
  sim_arrive st s t i h ts : rep st s → (m_size s < MAX_BASE_TUPLES_CACHED)%nat → iht_wf t → simple_at t i h ts →
    ∃ F st', (∀ fuel, (F ≤ fuel)%nat → arrival fuel cube root t ts st = Ok st') ∧ rep st' (m_arrive i h ts s);
  sim_poll st s : rep st s → ∃ r st1, fetchNextComplexEvent cube st = Ok (r, st1) ∧
    match r, (next_found cube (m_found s)).1 with
    | None, None => rep st1 (m_take (next_found cube (m_found s)).2 s)
    | Some e, Some v => is_event (base_tuples st1) e v ∧ ∃ st2, deleteEvent e st1 = Ok st2 ∧ rep st2 (m_take (next_found cube (m_found s)).2 s)
    | _, _ => False
    end
}.

Context (root : EventExpr) (cube : ExprCube) (rep : Store HT → S → Prop) `{Hsim : !Simulates root cube rep}.
Implicit Types (s : S) (v : AEvent HT) (l : list (option (tuple HT))).

(** A request for a result, where [fs] are the events found. *)
Lemma poll_step n q st fs (next : Store HT → Prop) : idle root cube n q st →
  (∃ r st1, fetchNextComplexEvent cube st = Ok (r, st1) ∧
    match r, (next_found cube fs).1 with
    | None, None => next st1
    | Some e, Some v => is_event (base_tuples st1) e v ∧ ∃ st2, deleteEvent e st1 = Ok st2 ∧ next st2
    | _, _ => False
    end) →
  ∃ res st2 n1, (∀ fuel, step fuel Poll n = Ok (res, n1)) ∧ idle root cube n1 q st2 ∧ next st2
    ∧ Forall2 (λ o v, result_for q v.1 o) res (option_list (next_found cube fs).1).
Proof.
  intros Hn (r & st1 & Ef & Hres). destruct r as [e|], ((next_found cube fs).1) as [v|]; try done.
  - destruct Hres as (Hv & st2 & Ed & Hr2). destruct (step_poll_some root cube n q st st1 st2 e v Hn Ef Hv Ed) as (o & n1 & Es & Ho & Hn1).
    exists [o], st2, n1. split; [done|]. split; [done|]. split; [done|]. by constructor.
  - destruct (step_poll_none root cube n q st st1 Hn Ef) as (n1 & Es & Hn1). exists [], st1, n1. split; [done|]. split; [done|]. split; [done|constructor].
Qed.

Lemma run_simulates acts : ∀ l n q st s, idle root cube n q st → rep st s → Forall2 stands acts l → fits cube l s = true →
  ∃ F res n', (∀ fuel, (F ≤ fuel)%nat → run fuel acts n = Ok (res, n')) ∧ Forall2 (λ o v, result_for q v.1 o) res (answers cube l s).
Proof.
  induction acts as [|a acts IH]; intros l n q st s Hn Hr Hst Hf.
  { apply Forall2_nil_inv_l in Hst as ->. exists 0%nat, [], n. split; [done|constructor]. }
  apply Forall2_cons_inv_l in Hst as (o & l' & Has & Hst & ->). destruct a as [t|], o as [[[i h] ts]|]; try done; cbn [fits answers] in *.
  - destruct Has as (Hwf & Ht & Hp). apply andb_true_iff in Hf as [Hsize%bool_decide_eq_true Hf].
    destruct (sim_arrive st s t i h ts Hr Hsize Hwf Ht) as (F0 & st' & Ea & Hr').
    destruct (step_arrive root cube n q st st' t ts Hn (simple_timestamp t i h ts Ht) Hp) as (F & n1 & E1 & Hn1); [by exists F0|].
    destruct (IH l' n1 q st' _ Hn1 Hr' Hst Hf) as (F2 & res & n' & E2 & Hres). exists (Nat.max F F2), res, n'. split; [|done].
    intros fuel HF. cbn [run]. rewrite E1 by lia. cbn [cbind]. by rewrite E2 by lia.
  - destruct (poll_step n q st (m_found s) _ Hn (sim_poll st s Hr)) as (res1 & st2 & n1 & E1 & Hn1 & Hr1 & H1).
    destruct (IH l' n1 q st2 _ Hn1 Hr1 Hst Hf) as (F2 & res & n' & E2 & Hres2).
    exists F2, (res1 ++ res), n'. split; [intros fuel HF; cbn [run]; rewrite E1; cbn [cbind]; by rewrite E2 by lia|]. by apply Forall2_app.
Qed.

(** Every result has been asked for at the end. *)
Lemma run_drained acts l k n q st s vs : idle root cube n q st → rep st s → Forall2 stands acts l → fits cube l s = true →
  answers cube l s ++ agreeing cube (m_found (final cube l s)) = vs → (length vs ≤ k)%nat →
  ∃ F res n', (∀ fuel, (F ≤ fuel)%nat → run fuel (acts ++ replicate k Poll) n = Ok (res, n')) ∧ Forall2 (λ o v, result_for q v.1 o) res vs.
Proof.
  intros Hn Hr Hst Hf Hvs Hk.
  destruct (run_simulates (acts ++ replicate k Poll) (l ++ replicate k None) n q st s Hn Hr) as (F & res & n' & E & Hres).
  - apply Forall2_app; [done|]. clear. induction k; constructor; done.
  - by apply fits_drain.
  - exists F, res, n'. split; [exact E|]. rewrite answers_app in Hres. rewrite answers_drain, Hvs in Hres; [exact Hres|].
    apply (f_equal length) in Hvs. rewrite length_app in Hvs. lia.
Qed.
End simulation.
End EventsRun.
