(* ===== verification/EventsTwo.v ===== *)
(** * Event aggregates: comparing and keeping the lists of two streams

    [EventsMatch]: what [BOTH], [FOLLOWS] and [PRECEDES] add to the list of their node.
    [EventsTwo]: the lists of a pattern of two streams as lists of values. *)

From S2P Require Import Prelude BitArray GSFilter Eddy EddyGSF Stem StemSpec Window WindowSpec Events EventsMem EventsInv EventsStep EventsRead EventsThm EventsRun.

(** * Event aggregates: the comparison of two lists

    What [BOTH], [FOLLOWS] and [PRECEDES] add to the list of their node: the joined
    events of the pairs that are near enough and have not been reported, in order. *)

Module EventsMatch.
Import Bit Eddy Stem StemSpec Window WindowSpec Events EventsMem EventsInv EventsStep EventsRead EventsThm.
Local Open Scope Z_scope.

Section matching.
Context {HT : Type} `{Hcal : !Calendar} `{Hpal : !Palloc} `{Henv : !EventEnv HT} `{Hfresh : !PallocFresh}.
Context (root : EventExpr) (Hdelays : delays_ok root) (R : list nat).
Implicit Types (st : Store HT) (e : Event) (m : gmap nat EventEntry) (bt ee : nat) (p : node).

Definition fired (op : EventOperator) (i : Interval) m (ab : nat * nat) : bool :=
  match m !! ab.1, m !! ab.2 with
  | Some x1, Some x2 => fires op i ab.1 ab.2 x1 x2
  | _, _ => false
  end.

(** Addresses of the first and of the second list, each pair once. *)
Record pairs_ok m (ps : list (nat * nat)) : Prop := {
  ps_once : NoDup ps;
  ps_apart ab ab' : ab ∈ ps → ab' ∈ ps → ab.1 ≠ ab'.2;
  ps_known ab : ab ∈ ps → is_Some (m !! ab.1) ∧ is_Some (m !! ab.2)
}.

(** An entry as it is after the pairs have been looked at: the events that it has been
    matched with, and those of the pairs that fired. *)
Definition rematched (ps : list (nat * nat)) ee (x y : EventEntry) : Prop :=
  event y = event x ∧ requestedTimeout y = requestedTimeout x ∧ marked y = marked x
  ∧ ∀ c, c ∈ matched y ↔ c ∈ matched x ∨ (ee, c) ∈ ps ∨ (c, ee) ∈ ps.

Definition pair_event m m' (ab : nat * nat) (a : nat) : Prop :=
  ∃ x x1 x2, m' !! a = Some x ∧ m !! ab.1 = Some x1 ∧ m !! ab.2 = Some x2 ∧ combined (event x) (event x1) (event x2).

Definition entries_rematched (ps : list (nat * nat)) m m' : Prop := ∀ ee x, m !! ee = Some x → ∃ y, m' !! ee = Some y ∧ rematched ps ee x y.

Lemma rematched_nil m : entries_rematched [] m m.
Proof. intros ee x Hx. exists x. split; [done|]. split; [done|]. split; [done|]. split; [done|]. intros c. rewrite !elem_of_nil. tauto. Qed.
Lemma rematched_app ps1 ps2 m1 m2 m3 : entries_rematched ps1 m1 m2 → entries_rematched ps2 m2 m3 → entries_rematched (ps1 ++ ps2) m1 m3.
Proof.
  intros H1 H2 ee x Hx. destruct (H1 ee x Hx) as (y & Hy & E1 & R1 & M1 & C1). destruct (H2 ee y Hy) as (z & Hz & E2 & R2 & M2 & C2). exists z.
  split; [done|]. split; [congruence|]. split; [congruence|]. split; [congruence|]. intros c. rewrite C2, C1, !elem_of_app. tauto.
Qed.

Lemma pair_event_mono ps0 ps m0 m1 m2 m3 ab a : entries_rematched ps0 m0 m1 → entries_rematched ps m2 m3 →
  is_Some (m0 !! ab.1) → is_Some (m0 !! ab.2) → pair_event m1 m2 ab a → pair_event m0 m3 ab a.
Proof.
  intros H0 H2 [x1 E1] [x2 E2] (x & y1 & y2 & Ha & Hy1 & Hy2 & Hc). destruct (H2 a x Ha) as (z & Hz & Ez & _).
  destruct (H0 _ _ E1) as (y1' & Hy1' & Ey1 & _). destruct (H0 _ _ E2) as (y2' & Hy2' & Ey2 & _).
  exists z, x1, x2. split; [done|]. split; [done|]. split; [done|]. rewrite Ez. congruence.
Qed.

(** Another pair does not change whether a pair fires. *)
Lemma fired_same op i m m' ab ab' : entries_rematched [ab] m m' → ab ≠ ab' → ab.1 ≠ ab'.2 → ab'.1 ≠ ab.2 → is_Some (m !! ab'.1) → is_Some (m !! ab'.2) →
  fired op i m' ab' = fired op i m ab'.
Proof.
  intros H Hne N1 N2 [x1 Hx1] [x2 Hx2]. destruct (H _ _ Hx1) as (y1 & Hy1 & E1 & _ & _ & C1). destruct (H _ _ Hx2) as (y2 & Hy2 & E2 & _ & _ & C2).
  unfold fired. rewrite Hx1, Hx2, Hy1, Hy2. unfold fires. rewrite E1, E2. f_equal. f_equal. unfold again.
  destruct ab as [a b], ab' as [a' b']. cbn [fst snd] in *.
  assert (bool_decide (a' ∈ matched y2) = bool_decide (a' ∈ matched x2)) as ->.
  { apply bool_decide_ext. rewrite C2, !list_elem_of_singleton. split; [intros [?|[[= -> ->]|[= -> ->]]]; done|by left]. }
  assert (bool_decide (b' ∈ matched y1) = bool_decide (b' ∈ matched x1)) as ->; [|done].
  apply bool_decide_ext. rewrite C1, !list_elem_of_singleton. split; [intros [?|[[= -> ->]|[= -> ->]]]; done|by left].
Qed.

(** Addresses that have been given by the allocator. *)
Definition issued st (c : nat) : Prop := ∃ k X, (k < allocated st)%nat ∧ c = palloc k X.
Definition all_issued st : Prop := ∀ ee x, entries st !! ee = Some x → issued st ee ∧ ∀ c, c ∈ matched x → issued st c.

Lemma issued_mono st st' c : (allocated st ≤ allocated st')%nat → issued st c → issued st' c.
Proof. intros Hle (k & X & Hk & ->). exists k, X. split; [lia|done]. Qed.
Lemma new_issued st st' : (allocated st < allocated st')%nat → issued st' (new_address st).
Proof. intros Hlt. by exists (allocated st), (dom (entries st) ∪ dom (base_tuples st)). Qed.

Lemma pair_fires held op i p ab (d : bool) st : Inv root R held st → delay_ok i → ab.1 ≠ ab.2 → fired op i (entries st) ab = true →
  ∃ st1 a, match_pair op i p ab.1 ab.2 (d, st) = Ok (true, st1) ∧ Worked root R held p st st1 ∧ get_out st1 p = get_out st p ++ [a]
    ∧ timeoutRequests st1 = timeoutRequests st ∧ pair_event (entries st) (entries st1) ab a ∧ entries_rematched [ab] (entries st) (entries st1)
    ∧ (all_issued st → all_issued st1).
Proof.
  destruct ab as [ee1 ee2]. cbn [fst snd]. intros I Hi Hne Hf. unfold fired in Hf. cbn [fst snd] in Hf.
  destruct (entries st !! ee1) as [x1|] eqn:H1; [|done]. destruct (entries st !! ee2) as [x2|] eqn:H2; [|done].
  pose proof (match_pair_ok root R held op i p ee1 ee2 x1 x2 d st I Hi Hne H1 H2) as Hp. rewrite Hf in Hp.
  destruct Hp as (e & a & st1 & -> & I1 & C1 & Hcomb & Ha & Eo & Et & Eb & [Eal Ea] & Ee). exists st1, a. split; [done|].
  assert (entries_rematched [(ee1, ee2)] (entries st) (entries st1)) as Hre.
  { intros c z Hz. rewrite Ee. destruct (decide (c = ee2)) as [->|N2]; [|destruct (decide (c = ee1)) as [->|N1]].
    - assert (z = x2) as -> by congruence. exists (remembered x2 ee1). rewrite lookup_insert_eq. split; [done|]. split; [done|]. split; [done|]. split; [done|].
      intros c. cbn. rewrite elem_of_app, !list_elem_of_singleton. naive_solver.
    - assert (z = x1) as -> by congruence. exists (remembered x1 ee2). rewrite lookup_insert_ne, lookup_insert_eq by done. split; [done|]. split; [done|]. split; [done|].
      split; [done|]. intros c. cbn. rewrite elem_of_app, !list_elem_of_singleton. naive_solver.
    - exists z. rewrite !lookup_insert_ne by congruence. split; [done|]. split; [done|]. split; [done|]. split; [done|].
      intros b. rewrite !list_elem_of_singleton. naive_solver. }
  split.
  { constructor; [done| | |].
    - constructor; [done|by rewrite Et|done].
    - intros q Hq. unfold get_out. by rewrite Eo, lookup_insert_ne.
    - intros c z Hz. destruct (Hre c z Hz) as (y & Hy & Ey & _). by exists y. }
  split; [unfold get_out; by rewrite Eo, lookup_insert_eq|]. split; [done|]. split.
  { exists (new_entry e), x1, x2. rewrite Ee. rewrite !lookup_insert_ne, lookup_insert_eq by (intros ->; congruence). done. }
  split; [done|]. intros Hall. assert (∀ c, issued st c → issued st1 c) as Hmono by (intros c; apply issued_mono; lia).
  intros c z. rewrite Ee. destruct (decide (c = ee2)) as [->|N2]; [|destruct (decide (c = ee1)) as [->|N1]; [|destruct (decide (c = a)) as [->|N3]]].
  - rewrite lookup_insert_eq. intros [= <-]. destruct (Hall _ _ H2) as [Hc Hm]. split; [auto|]. intros b. cbn. rewrite elem_of_app, list_elem_of_singleton.
    intros [Hb| ->]; [auto|]. apply Hmono. by destruct (Hall _ _ H1).
  - rewrite lookup_insert_ne, lookup_insert_eq by done. intros [= <-]. destruct (Hall _ _ H1) as [Hc Hm]. split; [auto|]. intros b. cbn. rewrite elem_of_app, list_elem_of_singleton.
    intros [Hb| ->]; [auto|]. apply Hmono. by destruct (Hall _ _ H2).
  - rewrite !lookup_insert_ne, lookup_insert_eq by congruence. intros [= <-]. split; [subst a; apply new_issued; lia|]. intros b Hb. by apply elem_of_nil in Hb.
  - rewrite !lookup_insert_ne by congruence. intros Hz. destruct (Hall _ _ Hz) as [Hc Hm]. split; auto.
Qed.

Lemma worked_trans held p st0 st1 st2 : Worked root R held p st0 st1 → Worked root R held p st1 st2 → Worked root R held p st0 st2.
Proof.
  intros [_ A1 O1 K1] [I A2 O2 K2]. constructor; [done|by eapply after_trans| |].
  - intros q Hq. by rewrite O2, O1.
  - intros ee x Hx. destruct (K1 ee x Hx) as (y & Hy & Ey). destruct (K2 ee y Hy) as (z & Hz & Ez). exists z. split; [done|congruence].
Qed.

Lemma match_pairs_exact held op i p ps : ∀ (d : bool) st, Inv root R held st → delay_ok i → pairs_ok (entries st) ps →
  let hits := filter (fired op i (entries st)) ps in
  ∃ st' new, foreach (λ ab, match_pair op i p ab.1 ab.2) ps (d, st) = Ok (d || negb (bool_decide (hits = [])), st') ∧ Worked root R held p st st'
    ∧ get_out st' p = get_out st p ++ new ∧ timeoutRequests st' = timeoutRequests st
    ∧ Forall2 (pair_event (entries st) (entries st')) hits new ∧ entries_rematched hits (entries st) (entries st')
    ∧ (all_issued st → all_issued st').
Proof.
  induction ps as [|ab ps IH]; intros d st I Hi [Hnd Hap Hk]; cbn zeta.
  { exists st, []. rewrite filter_nil, bool_decide_eq_true_2 by done. cbn. rewrite orb_false_r, app_nil_r. split; [done|]. split; [by apply worked_refl|].
    split; [done|]. split; [done|]. split; [constructor|]. split; [apply rematched_nil|done]. }
  apply NoDup_cons in Hnd as [Hnot Hnd]. assert (ab.1 ≠ ab.2) as Hne by (apply Hap; by left). cbn [foreach]. rewrite filter_cons.
  destruct (fired op i (entries st) ab) eqn:Hf.
  - destruct (pair_fires held op i p ab d st I Hi Hne Hf) as (st1 & a & -> & W1 & O1 & T1 & P1 & M1 & A1). cbn [cbind]. rewrite decide_True by done.
    assert (∀ c, c ∈ ps → is_Some (entries st !! c.1) ∧ is_Some (entries st !! c.2)) as Hk' by (intros c Hc; apply Hk; by right).
    destruct (IH true st1 (wk_inv _ _ _ _ _ _ W1) Hi) as (st' & new & E & W & O & T & F & M & A).
    { constructor; [done|intros c c' Hc Hc'; apply Hap; by right|]. intros c Hc. destruct (Hk' c Hc) as [[y1 Hy1] [y2 Hy2]].
      destruct (M1 _ _ Hy1) as (z1 & -> & _). destruct (M1 _ _ Hy2) as (z2 & -> & _). split; by eexists. }
    assert (filter (fired op i (entries st1)) ps = filter (fired op i (entries st)) ps) as Efilt.
    { apply filter_agrees. intros c Hc. rewrite (fired_same op i (entries st) (entries st1) ab c); [done|done|by intros -> | | |by apply Hk'..]; apply Hap; by (left || right). }
    cbn zeta in E, F, M. rewrite Efilt in E, F, M. set (hits := filter (fired op i (entries st)) ps) in *. exists st', (a :: new). rewrite E, (bool_decide_eq_false_2 (ab :: hits = [])) by done. cbn [orb negb].
    rewrite orb_true_r. split; [done|]. split; [by eapply worked_trans|]. split; [by rewrite O, O1, <- app_assoc|]. split; [congruence|].
    split; [|split; [by apply (rematched_app [ab] hits _ (entries st1))|auto]]. destruct (Hk ab ltac:(by left)) as [K1 K2]. constructor.
    + by apply (pair_event_mono [] hits (entries st) (entries st) (entries st1)); [apply rematched_nil|..].
    + eapply Forall2_in; [exact F|]. intros c a' Hc HP. apply list_elem_of_filter in Hc as [_ Hc]. destruct (Hk' c Hc).
      eapply (pair_event_mono [ab] [] _ (entries st1) (entries st')); [exact M1|apply rematched_nil|done|done|exact HP].
  - assert (match_pair op i p ab.1 ab.2 (d, st) = Ok (d, st)) as ->.
    { destruct (Hk ab ltac:(by left)) as [[x1 H1] [x2 H2]]. unfold fired in Hf. rewrite H1, H2 in Hf.
      pose proof (match_pair_ok root R held op i p ab.1 ab.2 x1 x2 d st I Hi Hne H1 H2) as Hp. by rewrite Hf in Hp. }
    cbn [cbind]. rewrite decide_False by (intros Hb; done). apply IH; [done|done|]. constructor; [done| |]; intros; [apply Hap|apply Hk]; by right.
Qed.
End matching.
End EventsMatch.

(** * Event aggregates: patterns of two streams

    The lists of a pattern of two streams as lists of values: what expiry, a new event
    and the comparison of the two lists do to them. *)


Module EventsTwo.
Import Bit Eddy Stem StemSpec Window WindowSpec Events EventsMem EventsInv EventsStep EventsRead EventsThm EventsRun EventsMatch.
Local Open Scope Z_scope.

Lemma Forall2_filter_iff {A B} (P : A → B → Prop) (Q1 : A → Prop) (Q2 : B → Prop) `{∀ x, Decision (Q1 x)} `{∀ x, Decision (Q2 x)} l k :
  Forall2 P l k → (∀ x y, x ∈ l → P x y → Q1 x ↔ Q2 y) → Forall2 P (filter Q1 l) (filter Q2 k).
Proof.
  induction 1 as [|x y l k Hxy _ IH]; intros HQ; [constructor|]. rewrite !filter_cons. pose proof (HQ x y ltac:(by left) Hxy) as Hq.
  assert (Forall2 P (filter Q1 l) (filter Q2 k)) by (apply IH; intros a b Ha; apply HQ; by right).
  repeat case_decide; try tauto. by constructor.
Qed.

Lemma fmap_sublist {A B} (f : A → B) l k : l `sublist_of` k → f <$> l `sublist_of` f <$> k.
Proof. induction 1; rewrite ?fmap_cons; by constructor. Qed.

Lemma filter_sublist {A} (Q : A → Prop) `{∀ x, Decision (Q x)} l k : l `sublist_of` k → filter Q l `sublist_of` filter Q k.
Proof. induction 1; rewrite ?filter_cons; repeat case_decide; try done; by constructor. Qed.

Lemma sublist_Forall {A} (P : A → Prop) l k : l `sublist_of` k → Forall P k → Forall P l.
Proof. induction 1; intros Hk; [done|apply Forall_cons in Hk as [? ?]; constructor; auto|apply Forall_cons in Hk as [_ ?]; auto]. Qed.

(** Where one test implies the other, what passes it is a part of what passes the other,
    and all of it where they agree. *)
Lemma Forall2_filter_part {A B} (P : A → B → Prop) (Q1 : A → Prop) (Q2 : B → Prop) `{∀ x, Decision (Q1 x)} `{∀ x, Decision (Q2 x)} l k :
  Forall2 P l k → (∀ x y, x ∈ l → P x y → Q1 x → Q2 y) →
  ∃ k', k' `sublist_of` filter Q2 k ∧ Forall2 P (filter Q1 l) k' ∧ ((∀ x y, x ∈ l → P x y → Q2 y → Q1 x) → k' = filter Q2 k).
Proof.
  induction 1 as [|x y l k Hxy _ IH]; intros HQ; [exists []; split; [done|]; by split; [constructor|]|].
  destruct IH as (k' & Hsub & HF & Heq); [intros a b Ha; apply HQ; by right|]. pose proof (HQ x y ltac:(by left) Hxy) as Hq.
  rewrite !filter_cons. destruct (decide (Q1 x)) as [H1|H1].
  - rewrite decide_True by auto. exists (y :: k'). split; [by constructor|]. split; [by constructor|]. intros Hb. f_equal. apply Heq. intros a b Ha. apply Hb. by right.
  - exists k'. split; [case_decide; [by constructor|done]|]. split; [done|]. intros Hb. rewrite decide_False by (intros H2; apply H1; by apply (Hb x y); [left|..]).
    apply Heq. intros a b Ha. apply Hb. by right.
Qed.

Lemma elem_of_drop_keys {A} (l : list nat) (m : gmap nat A) k x : drop_keys l m !! k = Some x → m !! k = Some x.
Proof. rewrite drop_keys_lookup. by case_decide. Qed.

Section values.
Context {HT : Type} `{Hcal : !Calendar} `{Hpal : !Palloc} `{Henv : !EventEnv HT} `{Hfresh : !PallocFresh}.
Context (root : EventExpr) (R : list nat).
Implicit Types (st : Store HT) (e : Event) (m : gmap nat EventEntry) (bt ee : nat) (p q : node) (v : AEvent HT) (vs : list (AEvent HT)).

Definition listed st p vs : Prop := Forall2 (holds st) (get_out st p) vs.

(** Nothing is new. *)
Record only_less st st' : Prop := {
  ol_timeouts : timeoutRequests st' = timeoutRequests st;
  ol_base : base_tuples st' = base_tuples st;
  ol_allocated : allocated st' = allocated st;
  ol_entries ee x : entries st' !! ee = Some x → entries st !! ee = Some x;
  ol_lists q ee : ee ∈ get_out st' q → ee ∈ get_out st q;
  ol_kept q ee x : ee ∈ get_out st' q → entries st !! ee = Some x → entries st' !! ee = Some x
}.
Lemma only_less_refl st : only_less st st.
Proof. done. Qed.
Lemma only_less_trans st1 st2 st3 : only_less st1 st2 → only_less st2 st3 → only_less st1 st3.
Proof. intros [T1 B1 A1 E1 L1 K1] [T2 B2 A2 E2 L2 K2]. constructor; [congruence..| | |]; eauto. Qed.

Lemma listed_sub st st' q vs : get_out st' q = get_out st q → base_tuples st' = base_tuples st →
  (∀ ee x, ee ∈ get_out st q → entries st !! ee = Some x → ∃ y, entries st' !! ee = Some y ∧ event y = event x) → listed st q vs → listed st' q vs.
Proof.
  intros Eo Eb Hk Hl. unfold listed. rewrite Eo. eapply Forall2_in; [exact Hl|]. intros ee v Hin (x & Hx & Hv).
  destruct (Hk ee x Hin Hx) as (y & Hy & Ey). exists y. split; [done|]. by rewrite Ey, Eb.
Qed.

Definition stays (i : Interval) (ts : Z) v : Prop := ts ≤ v.2 + time i.
#[global] Instance stays_dec i ts v : Decision (stays i ts v).
Proof. unfold stays. apply _. Defined.

Lemma expire_interval_listed held st p vs ts i : Inv root R held st → delay_ok i → listed st p vs →
  ∃ st', expire_interval st p ts i = Ok st' ∧ Inv root R held st' ∧ only_less st st' ∧ listed st' p (filter (stays i ts) vs)
    ∧ get_out st' p = filter (lasts (entries st) ts i) (get_out st p) ∧ ∀ q, q ≠ p → get_out st' q = get_out st q.
Proof.
  intros I Hi Hl. destruct (expire_interval_ok root R held st p ts i 0 I Hi) as (st' & -> & I' & _ & Et & Eb & Eo & Ee). injection Eb as Eb Ea.
  assert (∀ q, q ≠ p → get_out st' q = get_out st q) as Hother by (intros q Hq; unfold get_out; by rewrite Eo, lookup_insert_ne).
  assert (get_out st' p = filter (lasts (entries st) ts i) (get_out st p)) as Hp by (unfold get_out at 1; by rewrite Eo, lookup_insert_eq).
  assert (∀ q ee, ee ∈ get_out st' q → ee ∈ get_out st q ∧ ee ∉ filter (λ ee, ¬ lasts (entries st) ts i ee) (get_out st p)) as Hsub.
  { intros q ee. destruct (decide (q = p)) as [->|Hq]; [rewrite Hp|rewrite Hother by done].
    - intros [Hlast Hin]%list_elem_of_filter. split; [done|]. by intros [Hn _]%list_elem_of_filter.
    - intros Hin. split; [done|]. intros [_ Hn]%list_elem_of_filter. by apply Hq, (iv_apart root R held st q p ee). }
  exists st'. split; [done|]. split; [done|]. split; [|split; [|done]].
  - constructor; [done..| | |].
    + intros ee x. rewrite Ee. apply elem_of_drop_keys.
    + intros q ee Hin. by apply Hsub.
    + intros q ee x Hin Hx. rewrite Ee, drop_keys_lookup, decide_False; [done|]. by apply (Hsub q).
  - unfold listed. rewrite Hp. eapply Forall2_in; [apply (Forall2_filter_iff (holds st)); [exact Hl|]|].
    + intros ee v _ (x & Hx & _ & Ets). unfold lasts, stays. by rewrite Hx, Ets.
    + intros ee v Hin (x & Hx & Hv). exists x. rewrite Ee, drop_keys_lookup, decide_False, Eb; [done|]. apply (Hsub p). by rewrite Hp.
Qed.

Lemma expire_all_listed held st p : Inv root R held st →
  ∃ st', expire_all st p = Ok st' ∧ Inv root R held st' ∧ only_less st st' ∧ get_out st' p = [] ∧ ∀ q, q ≠ p → get_out st' q = get_out st q.
Proof.
  intros I. destruct (expire_all_ok root R held st p 0 I) as (st' & -> & I' & _ & Et & Eb & Eo & Ee). injection Eb as Eb Ea.
  assert (∀ q, q ≠ p → get_out st' q = get_out st q) as Hother by (intros q Hq; unfold get_out; by rewrite Eo, lookup_insert_ne).
  assert (get_out st' p = []) as Hp by (unfold get_out; by rewrite Eo, lookup_insert_eq).
  exists st'. split; [done|]. split; [done|]. split; [|done].
  assert (∀ q ee, ee ∈ get_out st' q → ee ∈ get_out st q ∧ ee ∉ get_out st p) as Hsub.
  { intros q ee. destruct (decide (q = p)) as [->|Hq]; [rewrite Hp; by intros ?%elem_of_nil|rewrite Hother by done].
    intros Hin. split; [done|]. intros Hn. by apply Hq, (iv_apart root R held st q p ee). }
  constructor; [done..| | |].
  - intros ee x. rewrite Ee. apply elem_of_drop_keys.
  - intros q ee Hin. by apply Hsub.
  - intros q ee x Hin Hx. rewrite Ee, drop_keys_lookup, decide_False; [done|]. by apply (Hsub q).
Qed.

Lemma only_less_listed st st' q vs : only_less st st' → get_out st' q = get_out st q → listed st q vs → listed st' q vs.
Proof. intros L Eo. apply listed_sub; [done|apply L|]. intros ee x Hin Hx. exists x. split; [|done]. eapply (ol_kept _ _ L q); [by rewrite Eo|done]. Qed.
Lemma only_less_same st q : get_out st q = [] → listed st q [].
Proof. intros E. unfold listed. by rewrite E. Qed.

(** ** The next result *)

Lemma pop_less held st st' ee rest : Inv root R held st → get_out st [] = ee :: rest → outputList st' = <[[] := rest]> (outputList st) → entries st' = delete ee (entries st) →
  base_tuples st' = base_tuples st → timeoutRequests st' = timeoutRequests st → allocated st' = allocated st → only_less st st' ∧ get_out st' [] = rest ∧ ∀ q, q ≠ [] → get_out st' q = get_out st q.
Proof.
  intros I El Eo Ee Eb Et Ea. pose proof (iv_NoDup_out root R held st [] I) as Hnd. rewrite El in Hnd. apply NoDup_cons in Hnd as [Hnot Hnd].
  assert (∀ q, q ≠ [] → get_out st' q = get_out st q) as Hother by (intros q Hqn; unfold get_out; by rewrite Eo, lookup_insert_ne).
  assert (get_out st' [] = rest) as Hroot by (unfold get_out; by rewrite Eo, lookup_insert_eq).
  assert (∀ q a, a ∈ get_out st' q → a ∈ get_out st q ∧ a ≠ ee) as Hsub.
  { intros q a. destruct (decide (q = [])) as [->|Hqn]; [rewrite Hroot, El|rewrite Hother by done].
    - intros Hin. split; [by right|]. by intros ->.
    - intros Hin. split; [done|]. intros ->. apply Hqn, (iv_apart root R held st q [] ee); [done|done|]. rewrite El. by left. }
  split; [|done]. constructor; [done..| | |].
  - intros a x. rewrite Ee. by intros [_ ?]%lookup_delete_Some.
  - intros q a Hin. by apply Hsub.
  - intros q a x Hin Hx. rewrite Ee, lookup_delete_ne; [done|]. apply not_eq_sym. by apply (Hsub q).
Qed.

Lemma fetch_listed cube l : cube_ok cube → ∀ st fs, Inv root R [] st → listed st [] fs → get_out st [] = l →
  ∃ r st', fetch_from cube l st = Ok (r, st') ∧ only_less st st' ∧ (∀ q, q ≠ [] → get_out st' q = get_out st q) ∧ listed st' [] (next_found cube fs).2 ∧
    match r, (next_found cube fs).1 with
    | None, None => Inv root R [] st'
    | Some e, Some v => Inv root R (pointers e) st' ∧ is_event (base_tuples st') e v
    | _, _ => False
    end.
Proof.
  intros Hcube. induction l as [|ee rest IH]; intros st fs I Hf El; pose proof Hf as Hf0; unfold listed in Hf; rewrite El in Hf.
  { apply Forall2_nil_inv_l in Hf as ->. by exists None, st. }
  destruct fs as [|v vs]; [by inversion Hf|]. apply Forall2_cons in Hf as [(x & Hx & Hv) Hf]. cbn [fetch_from next_found].
  assert (get_out st [] ≡ₚ rest ++ [ee]) as Hperm by (rewrite El; apply Permutation_cons_append).
  unfold get_entry. cbn [set_out with_out entries]. rewrite Hx. cbn [access cbind]. set (st1 := set_out st [] rest).
  rewrite (consistent_eval cube st1 (event x) v.1 Hcube) by apply Hv. cbn [cbind].
  assert (∀ st', only_less st st' → get_out st' [] = rest → listed st' [] vs) as Hrest.
  { intros st' L Eo. unfold listed. rewrite Eo. eapply Forall2_in; [exact Hf|]. intros a va Ha (y & Hy & Hva). exists y. rewrite (ol_base _ _ L). split; [|done].
    apply (ol_kept _ _ L []); [by rewrite Eo|done]. }
  destruct (agrees cube v.1); cbn [fst snd].
  - unfold deleteEventEntryButNotEvent, get_entry. assert (entries st1 !! ee = Some x) as -> by done. cbn [access cbind].
    destruct (pop_less [] st (free_entry st1 ee) ee rest I El) as (L & Er & Eo); [done..|].
    exists (Some (event x)), (free_entry st1 ee). split; [done|]. split; [done|]. split; [done|]. split; [by apply Hrest|]. split; [|done].
    apply (drop_inv root R [] (pointers (event x)) st [] [ee] rest (baseTuplePinCounts st)); [done|done|].
    pose proof (free_entry_counted [] st ee x (iv_counted _ _ _ _ I) Hx) as C2. rewrite app_nil_r in C2. unfold Counted in *. by eapply counted_cache.
  - assert (counted (refs (entries st1) ++ []) st1) as C1 by (eapply counted_cache; [apply (iv_counted _ _ _ _ I)|done..]).
    destruct (delete_entry_ok [] st1 ee x C1 Hx) as (pins & -> & C2). cbn [cbind]. set (st2 := free_entry (set_pins st1 pins) ee) in *.
    destruct (pop_less [] st st2 ee rest I El) as (L & Er & Eo); [done..|].
    destruct (IH st2 vs) as (r & st' & E & L' & Eo' & Hl' & Hr); [|by apply Hrest|done|].
    + apply (drop_inv root R [] [] st [] [ee] rest pins); [done|done|]. unfold Counted in *. by eapply counted_cache.
    + exists r, st'. split; [done|]. split; [by eapply only_less_trans|]. split; [intros q Hq; by rewrite Eo', Eo|]. by split.
Qed.
End values.

Definition lnode : node := [LChild].
Definition rnode : node := [RChild].

(** ** The pattern *)

Section machine.
Context {HT : Type}.
Implicit Types (v : AEvent HT) (vs : list (AEvent HT)).

(** The events of the left and of the right stream that are kept, and those of the
    pattern that have not been asked for. *)
Record Two : Type := mkTwo { lefts : list (AEvent HT); rights : list (AEvent HT); found : list (AEvent HT) }.
Implicit Types w : Two.

Definition single (i : nat) (h : HT) (ts : Z) : AEvent HT := (<[i := Some h]> (replicate TCQMAXSOURCES None), ts).

Definition near_ts (op : EventOperator) (i : Interval) (t1 t2 : Z) : bool :=
  let after a b := b <=? a + time i in
  match op with
  | EVENT_BOTH => after t1 t2 && after t2 t1
  | EVENT_FOLLOWS => after t1 t2
  | EVENT_PRECEDES => after t2 t1
  | _ => false
  end.

(** The operators that look for pairs. *)
Definition pairs_op (op : EventOperator) : bool :=
  match op with EVENT_BOTH | EVENT_FOLLOWS | EVENT_PRECEDES => true | _ => false end.

Definition expired (op : EventOperator) (i : Interval) (ts : Z) w : Two :=
  match op with
  | EVENT_ANYONE => w
  | EVENT_BOTH => mkTwo (filter (stays i ts) (lefts w)) (filter (stays i ts) (rights w)) (found w)
  | EVENT_FOLLOWS | EVENT_NOTFOLLOWS => mkTwo (filter (stays i ts) (lefts w)) [] (found w)
  | EVENT_PRECEDES | EVENT_NOTPRECEDES => mkTwo [] (filter (stays i ts) (rights w)) (found w)
  end.

(** What is kept of the lists once they have been compared. *)
Definition settled (op : EventOperator) w : Two :=
  match op with
  | EVENT_FOLLOWS | EVENT_NOTFOLLOWS => mkTwo (lefts w) [] (found w)
  | EVENT_PRECEDES | EVENT_NOTPRECEDES => mkTwo [] (rights w) (found w)
  | _ => w
  end.

Definition left_pairs (op : EventOperator) (i : Interval) v vs : list (AEvent HT) := join v <$> filter (λ b, near_ts op i v.2 b.2) vs.
Definition right_pairs (op : EventOperator) (i : Interval) vs v : list (AEvent HT) := (λ a, join a v) <$> filter (λ a, near_ts op i a.2 v.2) vs.
End machine.
Arguments Two : clear implicits.

Section pattern.
Context {HT : Type} `{Hcal : !Calendar} `{Hpal : !Palloc} `{Henv : !EventEnv HT} `{Hfresh : !PallocFresh}.
Context (op : EventOperator) (d : Interval) (Hd : delay_ok d) (i1 i2 : nat) (Hi1 : (i1 < TCQMAXSOURCES)%nat) (Hi2 : (i2 < TCQMAXSOURCES)%nat) (Hne : i1 ≠ i2).
Context (cube : ExprCube) (Hcube : cube_ok cube).
Implicit Types (st : Store HT) (e : Event) (m : gmap nat EventEntry) (bt ee : nat) (p q : node) (v : AEvent HT) (vs : list (AEvent HT)) (w : Two HT).

Definition two_root : EventExpr := EVENT_COMPLEX op d (EVENT_SIMPLE (Z.of_nat i1 + 1)) (EVENT_SIMPLE (Z.of_nat i2 + 1)).
Lemma two_delays : delays_ok two_root.
Proof. done. Qed.

Definition of_stream (i : nat) v : Prop := ∃ h, v.1 = <[i := Some h]> (replicate TCQMAXSOURCES None).

Lemma streams_apart v1 v2 : of_stream i1 v1 → of_stream i2 v2 → apart v1.1 v2.1.
Proof.
  intros [h1 ->] [h2 ->] i [x Hx] [y Hy]. destruct (decide (i = i1)) as [->|N1].
  - rewrite list_lookup_insert_ne in Hy by done. apply lookup_replicate in Hy as [? _]. done.
  - rewrite list_lookup_insert_ne in Hx by done. apply lookup_replicate in Hx as [? _]. done.
Qed.

Record shows st w : Prop := {
  sh_left : listed st lnode (lefts w);
  sh_right : listed st rnode (rights w);
  sh_found : listed st [] (found w);
  sh_only p : p ≠ [] → p ≠ lnode → p ≠ rnode → get_out st p = [];
  sh_lefts : Forall (of_stream i1) (lefts w);
  sh_rights : Forall (of_stream i2) (rights w)
}.

(** No pair is waiting to be reported. *)
Definition quiet st : Prop := ∀ ab, ab ∈ product (get_out st lnode) (get_out st rnode) → fired op d (entries st) ab = false.

Lemma fired_less st st' ab : (∀ ee x, entries st' !! ee = Some x → entries st !! ee = Some x) → fired op d (entries st) ab = false → fired op d (entries st') ab = false.
Proof.
  intros Hs. unfold fired. destruct (entries st' !! ab.1) as [x1|] eqn:E1; [|done]. destruct (entries st' !! ab.2) as [x2|] eqn:E2; [|done].
  by rewrite (Hs _ _ E1), (Hs _ _ E2).
Qed.
Lemma quiet_less st st' : only_less st st' → quiet st → quiet st'.
Proof.
  intros [_ _ _ E L _] Hq [a b] [Ha Hb]%elem_of_product. apply (fired_less st st'); [exact E|]. apply Hq. apply elem_of_product. split; by apply L.
Qed.
Lemma issued_less st st' : only_less st st' → all_issued st → all_issued st'.
Proof.
  intros [_ _ A E _ _] Hi ee x Hx. destruct (Hi ee x (E ee x Hx)) as [H1 H2]. split; [by apply (issued_mono st); [rewrite A|]|].
  intros c Hc. apply (issued_mono st); [by rewrite A|auto].
Qed.

Lemma Forall_filter' {A} (P Q : A → Prop) `{∀ x, Decision (Q x)} (l : list A) : Forall P l → Forall P (filter Q l).
Proof. intros Hl. apply Forall_forall. intros x [_ Hx]%list_elem_of_filter. by rewrite Forall_forall in Hl; apply Hl. Qed.

Lemma only_less_empty st st' q : only_less st st' → get_out st q = [] → get_out st' q = [].
Proof. intros [_ _ _ _ L _] E. destruct (get_out st' q) as [|ee l] eqn:E'; [done|]. exfalso. assert (ee ∈ get_out st q) as Hin by (apply L; rewrite E'; by left). rewrite E in Hin. by apply elem_of_nil in Hin. Qed.

Lemma expire_shows R held st w ts : Inv two_root R held st → shows st w →
  ∃ st', expireEvents two_root [] ts st = Ok st' ∧ Inv two_root R held st' ∧ only_less st st' ∧ shows st' (expired op d ts w).
Proof.
  intros I [Hl Hr Hf Ho Fl Fr]. unfold two_root. cbn [expireEvents]. fold two_root.
  assert (∃ st', (match op with
        | EVENT_ANYONE => Ok st
        | EVENT_BOTH => let! st1 := expire_interval st lnode ts d in expire_interval st1 rnode ts d
        | EVENT_FOLLOWS | EVENT_NOTFOLLOWS => let! st1 := expire_interval st lnode ts d in expire_all st1 rnode
        | EVENT_PRECEDES | EVENT_NOTPRECEDES => let! st1 := expire_all st lnode in expire_interval st1 rnode ts d
        end) = Ok st' ∧ Inv two_root R held st' ∧ only_less st st' ∧ listed st' lnode (lefts (expired op d ts w)) ∧ listed st' rnode (rights (expired op d ts w)) ∧ listed st' [] (found w))
    as (st' & E & I' & L' & Hl' & Hr' & Hf').
  { destruct op; [by exists st|..].
    1,2,3: destruct (expire_interval_listed two_root R held st lnode (lefts w) ts d I Hd Hl) as (st1 & -> & I1 & L1 & Hl1 & _ & K1); cbn [cbind].
    4,5: destruct (expire_all_listed two_root R held st lnode I) as (st1 & -> & I1 & L1 & Hl1%only_less_same & K1); cbn [cbind].
    1,4,5: destruct (expire_interval_listed two_root R held st1 rnode (rights w) ts d I1 Hd) as (st2 & -> & I2 & L2 & Hr2 & _ & K2);
      [by apply (only_less_listed st); [|apply K1|]|].
    4,5: destruct (expire_all_listed two_root R held st1 rnode I1) as (st2 & -> & I2 & L2 & Hr2%only_less_same & K2).
    all: exists st2; split; [done|]; split; [done|]; split; [by eapply only_less_trans|]; cbn; split; [by apply (only_less_listed st1); [|apply K2|]|]; split; [done|].
    all: apply (only_less_listed st1); [done|by apply K2|]; by apply (only_less_listed st); [|apply K1|]. }
  unfold lnode, rnode in E. rewrite E. cbn [cbind]. exists st'. split; [done|]. split; [done|]. split; [done|]. constructor; [done|done| | | |].
  - by destruct op.
  - intros p P1 P2 P3. apply (only_less_empty st); [done|by apply Ho].
  - destruct op; cbn; first [done|by apply Forall_filter'|constructor].
  - destruct op; cbn; first [done|by apply Forall_filter'|constructor].
Qed.

(** ** The comparison *)

Lemma Forall2_via {A B C} (P : A → B → Prop) (Q : A → C → Prop) (S : B → C → Prop) l k1 k2 :
  Forall2 P l k1 → Forall2 Q l k2 → (∀ x y z, P x y → Q x z → S y z) → Forall2 S k1 k2.
Proof. intros HP. revert k2. induction HP as [|x y l k1 Hxy _ IH]; intros k2 HQ HS; inversion HQ; subst; constructor; eauto. Qed.

Definition hit st (ab : nat * nat) v : Prop := ∃ va vb, holds st ab.1 va ∧ holds st ab.2 vb ∧ v = join va vb.

Lemma quiet_both (hits : list (nat * nat)) st st' ab : op = EVENT_BOTH → entries_rematched hits (entries st) (entries st') →
  (fired op d (entries st) ab = true → ab ∈ hits) → is_Some (entries st !! ab.1) → is_Some (entries st !! ab.2) → fired op d (entries st') ab = false.
Proof.
  intros -> Hre Hhit [x1 Hx1] [x2 Hx2]. destruct (Hre _ _ Hx1) as (y1 & Hy1 & E1 & _ & _ & C1). destruct (Hre _ _ Hx2) as (y2 & Hy2 & E2 & _ & _ & C2).
  unfold fired in *. rewrite Hx1, Hx2 in Hhit. rewrite Hy1, Hy2. unfold fires in *. rewrite E1, E2. destruct (negb _ && _); [|done]. cbn [andb] in *. unfold again in *.
  apply negb_false_iff. destruct ab as [a b]. cbn [fst snd] in *. destruct (bool_decide (a ∈ matched x2) || bool_decide (b ∈ matched x1)) eqn:Ea.
  - apply orb_true_iff in Ea as [Ha%bool_decide_eq_true|Hb%bool_decide_eq_true]; apply orb_true_iff; [left|right]; apply bool_decide_eq_true_2; [apply C2|apply C1]; by left.
  - specialize (Hhit eq_refl). apply orb_true_iff. right. apply bool_decide_eq_true_2. apply C1. by right; left.
Qed.

Lemma lists_pairs_ok R held st : Inv two_root R held st → pairs_ok (entries st) (product (get_out st lnode) (get_out st rnode)).
Proof.
  intros I. constructor.
  - apply product_NoDup; by apply (iv_NoDup_out two_root R held).
  - intros [a b] [a' b'] [Ha _]%elem_of_product [_ Hb]%elem_of_product. by apply (children_apart two_root R held st []).
  - intros [a b] [Ha Hb]%elem_of_product. split; by eapply (iv_listed two_root R held).
Qed.

Lemma compare_shows R held st w vals : Inv two_root R held st → shows st w →
  Forall2 (hit st) (filter (fired op d (entries st)) (product (get_out st lnode) (get_out st rnode))) vals →
  ∃ b st', match_lists op d [] (get_out st lnode) (get_out st rnode) st = Ok (b, st') ∧ Inv two_root R held st'
    ∧ shows st' (mkTwo (lefts w) (rights w) (found w ++ vals)) ∧ timeoutRequests st' = timeoutRequests st ∧ base_tuples st' = base_tuples st
    ∧ (all_issued st → all_issued st') ∧ (op = EVENT_BOTH → quiet st').
Proof.
  intros I [Hl Hr Hf Ho Fl Fr] Hv. unfold match_lists. rewrite foreach_product. set (ps := product (get_out st lnode) (get_out st rnode)) in *.
  pose proof (lists_pairs_ok R held st I) as Hps. fold ps in Hps.
  destruct (match_pairs_exact two_root R held op d [] ps false st I Hd Hps) as (st' & new & -> & W & O & T & F & M & A). set (hits := filter (fired op d (entries st)) ps) in *.
  eexists _, st'. split; [reflexivity|]. split; [apply W|]. pose proof (af_base _ _ _ (wk_after _ _ _ _ _ _ W)) as B.
  assert (∀ ee v, holds st ee v → holds st' ee v) as Hholds.
  { intros ee v (x & Hx & Hx'). destruct (M ee x Hx) as (y & Hy & Ey & _). exists y. split; [done|]. by rewrite Ey, B. }
  assert (∀ q ws, q ≠ [] → listed st q ws → listed st' q ws) as Hother.
  { intros q ws Hq Hw. unfold listed. rewrite (wk_other _ _ _ _ _ _ W) by done. by eapply Forall2_impl. }
  split; [|split; [done|split; [done|split; [done|]]]].
  - constructor; cbn [lefts rights found]; [by apply Hother|by apply Hother| | |done|done].
    + unfold listed. rewrite O. apply Forall2_app; [by eapply Forall2_impl|]. eapply Forall2_via; [exact F|exact Hv|].
      intros ab a v (x & x1 & x2 & Ha & H1 & H2 & Hc) (va & vb & (z1 & Hz1 & V1) & (z2 & Hz2 & V2) & ->).
      exists x. split; [done|]. rewrite B. eapply is_combined; [exact Hc|congruence|congruence].
    + intros p P1 P2 P3. rewrite (wk_other _ _ _ _ _ _ W) by done. by apply Ho.
  - intros E ab Hab. rewrite !(wk_other _ _ _ _ _ _ W) in Hab by done. destruct (ps_known _ _ Hps ab Hab). apply (quiet_both hits st); [done|done| |done|done].
    intros Hfire. apply list_elem_of_filter. split; [by rewrite Hfire|done].
Qed.

(** One of the lists is emptied. *)
Lemma empty_shows (s : side) R held st w : Inv two_root R held st → shows st w →
  ∃ st', expire_all st [s] = Ok st' ∧ Inv two_root R held st' ∧ only_less st st'
    ∧ shows st' (match s with LChild => mkTwo [] (rights w) (found w) | RChild => mkTwo (lefts w) [] (found w) end) ∧ quiet st'.
Proof.
  intros I [Hl Hr Hf Ho Fl Fr]. destruct (expire_all_listed two_root R held st [s] I) as (st' & E & I' & L & He & K). exists st'.
  split; [done|]. split; [done|]. split; [done|]. pose proof (only_less_same st' [s] He) as Hs.
  assert (∀ q vs, q ≠ [s] → listed st q vs → listed st' q vs) as Hlisted by (intros q vs Hq; apply only_less_listed; [done|by apply K]). split.
  - constructor; try (by destruct s).
    + destruct s; cbn; [done|by apply Hlisted].
    + destruct s; cbn; [by apply Hlisted|done].
    + destruct s; cbn; by apply Hlisted.
    + intros p P1 P2 P3. apply (only_less_empty st); [done|by apply Ho].
  - intros [a b] [Ha Hb]%elem_of_product. unfold lnode, rnode in *.
    destruct s; [rewrite He in Ha; by apply elem_of_nil in Ha|rewrite He in Hb; by apply elem_of_nil in Hb].
Qed.

Lemma construct_pairs R held st w ts vals : pairs_op op = true → Inv two_root R held st → shows st w → all_issued st →
  Forall2 (hit st) (filter (fired op d (entries st)) (product (get_out st lnode) (get_out st rnode))) vals →
  ∃ st', constructComplexEvents cube two_root [] ts st = Ok st' ∧ Inv two_root R held st' ∧ shows st' (settled op (mkTwo (lefts w) (rights w) (found w ++ vals)))
    ∧ timeoutRequests st' = timeoutRequests st ∧ base_tuples st' = base_tuples st ∧ all_issued st' ∧ quiet st'.
Proof.
  intros Hop I Hs A Hv. unfold two_root. cbn [constructComplexEvents node_at access cbind]. fold two_root.
  destruct (compare_shows R held st w vals I Hs Hv) as (b & st1 & E & I1 & S1 & T1 & B1 & A1 & Q1).
  assert (∃ b' st', construct_here cube op d [] ts st = Ok (b', st') ∧ Inv two_root R held st' ∧ shows st' (settled op (mkTwo (lefts w) (rights w) (found w ++ vals)))
    ∧ timeoutRequests st' = timeoutRequests st ∧ base_tuples st' = base_tuples st ∧ all_issued st' ∧ quiet st') as (b' & st' & -> & H'); [|by exists st'].
  destruct (empty_shows RChild R held st1 _ I1 S1) as (st2 & E2 & I2 & L2 & S2 & Q2). destruct (empty_shows LChild R held st1 _ I1 S1) as (st3 & E3 & I3 & L3 & S3 & Q3).
  pose proof L2 as [T2 B2 _ _ _ _]. pose proof L3 as [T3 B3 _ _ _ _].
  assert (all_issued st2 ∧ all_issued st3) as [A2 A3] by (split; [by apply (issued_less st1); [|apply A1]..]).
  unfold construct_here. change [LChild] with lnode. change [RChild] with rnode. change [LChild] with lnode in E3. change [RChild] with rnode in E2.
  destruct op eqn:Eop; try done; rewrite E; cbn [cbind].
  - exists b, st1. split; [done|]. split; [done|]. split; [done|]. split; [done|]. split; [done|]. split; [auto|]. by apply Q1.
  - rewrite E2. cbn [cbind]. exists b, st2. split; [done|]. split; [done|]. split; [done|]. split; [congruence|]. split; [congruence|]. by split.
  - rewrite E3. cbn [cbind]. exists b, st3. split; [done|]. split; [done|]. split; [done|]. split; [congruence|]. split; [congruence|]. by split.
Qed.

(** ** A new event *)

(** No address is given twice, as far as it matters: an entry that is given the address of
    one that has been freed counts as matched with those that had been matched with that,
    except for [PRECEDES], which does not look. *)
Definition addresses_new : Prop := op ≠ EVENT_PRECEDES → ∀ k k' X X', k ≠ k' → palloc k X ≠ palloc k' X'.

(** A part of the events, in their order, and all of them if no address is given twice. *)
Definition part_of new vs : Prop := new `sublist_of` vs ∧ (addresses_new → new = vs).

Lemma part_of_app new1 new2 vs1 vs2 : part_of new1 vs1 → part_of new2 vs2 → part_of (new1 ++ new2) (vs1 ++ vs2).
Proof. intros [S1 E1] [S2 E2]. split; [by apply sublist_app|]. intros Hn. by rewrite E1, E2. Qed.

Lemma near_values b e1 e2 v1 v2 : is_event b e1 v1 → is_event b e2 v2 → near op d e1 e2 = near_ts op d v1.2 v2.2.
Proof. intros [_ <-] [_ <-]. by destruct op. Qed.

Lemma fired_values st (a1 a2 : nat) x1 x2 v1 v2 : entries st !! a1 = Some x1 → entries st !! a2 = Some x2 →
  is_event (base_tuples st) (event x1) v1 → is_event (base_tuples st) (event x2) v2 → again op a1 a2 x1 x2 = false →
  of_stream i1 v1 → of_stream i2 v2 → fired op d (entries st) (a1, a2) = near_ts op d v1.2 v2.2.
Proof.
  intros H1 H2 V1 V2 Hag S1 S2. unfold fired. cbn [fst snd]. rewrite H1, H2. unfold fires. rewrite Hag, andb_true_r.
  rewrite (reads_no_conflict _ _ _ _ _ V1 V2) by by apply streams_apart. cbn [negb andb]. by apply (near_values (base_tuples st)).
Qed.

Lemma fired_near st (a1 a2 : nat) x1 x2 v1 v2 : entries st !! a1 = Some x1 → entries st !! a2 = Some x2 →
  is_event (base_tuples st) (event x1) v1 → is_event (base_tuples st) (event x2) v2 → fired op d (entries st) (a1, a2) = true → near_ts op d v1.2 v2.2 = true.
Proof.
  intros H1 H2 V1 V2. unfold fired. cbn [fst snd]. rewrite H1, H2. unfold fires. rewrite !andb_true_iff. intros [[_ Hn] _].
  by rewrite <- (near_values (base_tuples st) _ _ _ _ V1 V2).
Qed.

Lemma again_new st b x e : addresses_new → all_issued st → entries st !! b = Some x →
  again op (new_address st) b (new_entry e) x = false ∧ again op b (new_address st) x (new_entry e) = false.
Proof.
  intros Hnew Hi Hx. assert (op = EVENT_PRECEDES ∨ new_address st ∉ matched x) as [->|Hn]; [|done|].
  { destruct (decide (op = EVENT_PRECEDES)) as [|Ho]; [by left|right]. intros Hin. destruct (Hi b x Hx) as [_ Hm]. destruct (Hm _ Hin) as (k & X & Hk & E).
    revert E. apply Hnew; [done|lia]. }
  assert (∀ c, bool_decide (c ∈ matched (new_entry e)) = false) as Hnil by (intros c; apply bool_decide_eq_false_2, not_elem_of_nil).
  unfold again. rewrite !Hnil, (bool_decide_eq_false_2 (_ ∈ matched x)) by done. by destruct op.
Qed.

Lemma filter_no_one {A} (P : A → Prop) `{∀ x, Decision (P x)} (l : list A) : (∀ x, x ∈ l → ¬ P x) → filter P l = [].
Proof. induction l as [|a l IH]; intros Hl; [done|]. rewrite filter_cons, decide_False by (apply Hl; by left). apply IH. intros x Hx. apply Hl. by right. Qed.

Lemma filter_fmap {A B} (P : B → bool) (f : A → B) (l : list A) : filter P (f <$> l) = f <$> filter (λ a, P (f a)) l.
Proof. induction l as [|a l IH]; [done|]. rewrite fmap_cons, !filter_cons, IH. by case_decide. Qed.

Lemma product_left {A B} (P : A * B → bool) (l : list A) (r : list B) a : (∀ ab, ab ∈ product l r → P ab = false) →
  filter P (product (l ++ [a]) r) = pair a <$> filter (λ b, P (a, b)) r.
Proof.
  intros Hold. unfold product. rewrite bind_app, filter_app, filter_no_one by (intros ab Hab; rewrite (Hold ab Hab); by intros []).
  change ([a] ≫= λ a, pair a <$> r) with ((pair a <$> r) ++ []). rewrite app_nil_r. apply filter_fmap.
Qed.
Lemma product_right {A B} (P : A * B → bool) (l : list A) (r : list B) b : (∀ ab, ab ∈ product l r → P ab = false) →
  filter P (product l (r ++ [b])) = (λ a, (a, b)) <$> filter (λ a, P (a, b)) l.
Proof.
  intros Hold. unfold product. induction l as [|x l IH]; [done|]. rewrite bind_cons, filter_app, fmap_app, filter_app, filter_no_one.
  2: { intros ab Hab. rewrite Hold; [by intros []|]. unfold product. rewrite bind_cons. apply elem_of_app. by left. }
  rewrite IH by (intros ab Hab; apply Hold; unfold product; rewrite bind_cons; apply elem_of_app; by right).
  rewrite filter_fmap, !filter_cons, filter_nil. by case_decide.
Qed.

(** The entry of a new event is the last of the list of its leaf. *)
Record arrived_at (s : side) st st1 e : Prop := {
  aa_base : base_tuples st1 = base_tuples st;
  aa_entries : entries st1 = <[new_address st := new_entry e]> (entries st);
  aa_new : entries st !! new_address st = None;
  aa_list : get_out st1 [s] = get_out st [s] ++ [new_address st];
  aa_other q : q ≠ [s] → get_out st1 q = get_out st q;
  aa_requests : timeoutRequests st1 = timeoutRequests st;
  aa_allocated : allocated st1 = S (allocated st)
}.

Lemma leaf_arrived rt R held s st ev v : Inv rt R held st → known st ev → is_event (base_tuples st) ev v → time_ok (event_timestamp ev) → (∀ bt, bt ∈ pointers ev → bt ∈ R) →
  ∃ st1 ev', putSimpleEventOnOutputList [s] ev st = Ok st1 ∧ Inv rt R held st1 ∧ arrived_at s st st1 ev' ∧ is_event (base_tuples st) ev' v.
Proof.
  intros I Hk Hv Hts HR. unfold putSimpleEventOnOutputList.
  destruct (replicate_ok _ st ev (iv_counted _ _ _ _ I) Hk) as (t & pins & -> & Et & C). cbn [cbind]. set (ev' := mkEvent t (event_timestamp ev)) in *.
  assert (pointers ev' = pointers ev) as Ep by (unfold pointers, ev'; cbn; by rewrite Et).
  destruct (detect_at [s] st pins ev') as (a & Ha & Eo & Etm & Ee & Eb & Eal & Ea).
  assert (Inv rt R held (detect [s] (ev', set_pins st pins))) as I1.
  { apply detect_inv; [done|by rewrite Ep|unfold ev_ok, ev'; cbn; rewrite Et; apply Hk|done|by rewrite Ep]. }
  set (st1 := detect [s] (ev', set_pins st pins)) in *. clearbody st1. subst a. exists st1, ev'. split; [done|]. split; [done|]. split.
  - constructor; try done; [unfold get_out at 1; by rewrite Eo, lookup_insert_eq|]. intros q Hq. unfold get_out. by rewrite Eo, lookup_insert_ne.
  - destruct Hv as [Hv1 Hv2]. split; [unfold ev'; cbn; by rewrite Et|done].
Qed.

Lemma new_hits_left R held st st1 w e v : pairs_op op = true → Inv two_root R held st → shows st w → quiet st → all_issued st → arrived_at LChild st st1 e → is_event (base_tuples st) e v → of_stream i1 v →
  ∃ vals, part_of vals (left_pairs op d v (rights w)) ∧ Forall2 (hit st1) (filter (fired op d (entries st1)) (product (get_out st1 lnode) (get_out st1 rnode))) vals.
Proof.
  intros Hop I [Hl Hr Hf Ho Fl Fr] Hq Hi [B E N L O _ _] Hv Hs. unfold lnode at 1. rewrite L, O by done. fold lnode. rewrite product_left.
  2: { intros [x y] Hxy. rewrite <- (Hq (x, y) Hxy). apply elem_of_product in Hxy as [Hx Hy].
    destruct (iv_listed two_root R held st _ _ I Hx) as [zx Hzx]. destruct (iv_listed two_root R held st _ _ I Hy) as [zy Hzy].
    unfold fired. cbn [fst snd]. by rewrite E, !lookup_insert_ne by congruence. }
  rewrite Forall_forall in Fr.
  assert (Forall2 (λ b vb, holds st b vb ∧ of_stream i2 vb) (get_out st rnode) (rights w)) as Hr'.
  { apply Forall2_same_length_lookup. split; [by eapply Forall2_length|]. intros k b vb Hb Hvb. split; [eapply (Forall2_lookup_lr (holds st)); [exact Hr|done|done]|]. apply Fr. by eapply list_elem_of_lookup_2. }
  destruct (Forall2_filter_part _ (λ b, fired op d (entries st1) (new_address st, b)) (λ b, near_ts op d v.2 b.2) _ _ Hr') as (k & Hsub & Hk & Hall).
  { intros b vb Hb [(x & Hx & Hvb) Hsb] Hfire%Is_true_true. apply Is_true_true. apply (fired_near st1 (new_address st) b (new_entry e) x); [..|done].
    - by rewrite E, lookup_insert_eq.
    - by rewrite E, lookup_insert_ne by congruence.
    - by rewrite B.
    - by rewrite B. }
  exists (join v <$> k). split; [split; [by apply fmap_sublist|]|].
  - intros Hnew. unfold left_pairs. rewrite Hall; [done|]. intros b vb Hb [(x & Hx & Hvb) Hsb]. rewrite (fired_values st1 (new_address st) b (new_entry e) x v vb); [done|..|done|done].
    + by rewrite E, lookup_insert_eq.
    + by rewrite E, lookup_insert_ne by congruence.
    + by rewrite B.
    + by rewrite B.
    + by apply again_new.
  - apply Forall2_fmap. eapply Forall2_impl; [exact Hk|]. intros b vb [(x & Hx & Hvb) _]. exists v, vb. cbn [fst snd]. split; [|split; [|done]].
    + exists (new_entry e). rewrite E, lookup_insert_eq, B. done.
    + exists x. rewrite E, lookup_insert_ne, B by congruence. done.
Qed.

Lemma new_hits_right R held st st1 w e v : pairs_op op = true → Inv two_root R held st → shows st w → quiet st → all_issued st → arrived_at RChild st st1 e → is_event (base_tuples st) e v → of_stream i2 v →
  ∃ vals, part_of vals (right_pairs op d (lefts w) v) ∧ Forall2 (hit st1) (filter (fired op d (entries st1)) (product (get_out st1 lnode) (get_out st1 rnode))) vals.
Proof.
  intros Hop I [Hl Hr Hf Ho Fl Fr] Hq Hi [B E N L O _ _] Hv Hs. unfold rnode at 1. rewrite L, O by done. fold rnode. rewrite product_right.
  2: { intros [x y] Hxy. rewrite <- (Hq (x, y) Hxy). apply elem_of_product in Hxy as [Hx Hy].
    destruct (iv_listed two_root R held st _ _ I Hx) as [zx Hzx]. destruct (iv_listed two_root R held st _ _ I Hy) as [zy Hzy].
    unfold fired. cbn [fst snd]. by rewrite E, !lookup_insert_ne by congruence. }
  rewrite Forall_forall in Fl.
  assert (Forall2 (λ a va, holds st a va ∧ of_stream i1 va) (get_out st lnode) (lefts w)) as Hl'.
  { apply Forall2_same_length_lookup. split; [by eapply Forall2_length|]. intros k b vb Hb Hvb. split; [eapply (Forall2_lookup_lr (holds st)); [exact Hl|done|done]|]. apply Fl. by eapply list_elem_of_lookup_2. }
  destruct (Forall2_filter_part _ (λ a, fired op d (entries st1) (a, new_address st)) (λ a, near_ts op d a.2 v.2) _ _ Hl') as (k & Hsub & Hk & Hall).
  { intros a va Ha [(x & Hx & Hva) Hsa] Hfire%Is_true_true. apply Is_true_true. apply (fired_near st1 a (new_address st) x (new_entry e)); [..|done].
    - by rewrite E, lookup_insert_ne by congruence.
    - by rewrite E, lookup_insert_eq.
    - by rewrite B.
    - by rewrite B. }
  exists ((λ a, join a v) <$> k). split; [split; [by apply fmap_sublist|]|].
  - intros Hnew. unfold right_pairs. rewrite Hall; [done|]. intros a va Ha [(x & Hx & Hva) Hsa]. rewrite (fired_values st1 a (new_address st) x (new_entry e) va v); [done|..|done|done].
    + by rewrite E, lookup_insert_ne by congruence.
    + by rewrite E, lookup_insert_eq.
    + by rewrite B.
    + by rewrite B.
    + by apply again_new.
  - apply Forall2_fmap. eapply Forall2_impl; [exact Hk|]. intros a va [(x & Hx & Hva) _]. exists va, v. cbn [fst snd]. split; [|split; [|done]].
    + exists x. rewrite E, lookup_insert_ne, B by congruence. done.
    + exists (new_entry e). rewrite E, lookup_insert_eq, B. done.
Qed.
End pattern.
End EventsTwo.
