(* ===== verification/EventsAnswer.v ===== *)
(** * Event aggregates: pairs of events of two streams

    [EventsPairs]: the calls of [BOTH], [FOLLOWS] and [PRECEDES] as steps of the lists of
    values.  [EventsAnswer]: the pairs that a query gets. *)

From Stdlib Require Import Sorting.Sorted.
From S2P Require Import Prelude BitArray GSFilter Eddy EddyGSF Stem StemSpec Window WindowSpec Events EventsMem EventsInv EventsStep EventsRead EventsThm EventsRun EventsTwo.

(** * Event aggregates: pairs of events of two streams

    [BOTH], [FOLLOWS] and [PRECEDES] over two streams: an arrival and a request for a
    result change the values of the lists as the specification says. *)

Module EventsPairs.
Import Bit Eddy Stem StemSpec Window WindowSpec Events EventsMem EventsInv EventsStep EventsRead EventsThm EventsRun EventsMatch EventsTwo.
Local Open Scope Z_scope.

Section spec.
Context {HT : Type}.
Implicit Types (w : Two HT).

(** A tuple [h] of stream [i] with timestamp [ts] has come. *)
Definition arrived (op : EventOperator) (d : Interval) (i1 i2 i : nat) (h : HT) (ts : Z) w : Two HT :=
  let w1 := expired op d ts w in
  let v := single i h ts in
  if decide (i = i1) then settled op (mkTwo (lefts w1 ++ [v]) (rights w1) (found w1 ++ left_pairs op d v (rights w1)))
  else if decide (i = i2) then settled op (mkTwo (lefts w1) (rights w1 ++ [v]) (found w1 ++ right_pairs op d (lefts w1) v))
  else w1.

(** The base tuples of an event, and at most those of the lists. *)
Definition tuples_of (v : AEvent HT) : nat := length (omap id v.1).
Definition size (w : Two HT) : nat := (length (lefts w) + length (rights w) + 2 * length (found w))%nat.

Lemma join_tuples (v1 v2 : AEvent HT) : (tuples_of (join v1 v2) ≤ tuples_of v1 + tuples_of v2)%nat.
Proof.
  unfold tuples_of, join. cbn [fst]. generalize v1.1 as l1, v2.1 as l2. induction l1 as [|a l1 IH]; intros [|b l2]; [cbn; lia|cbn; lia| |].
  - destruct a; cbn; lia.
  - specialize (IH l2). change (merged (a :: l1) (b :: l2)) with ((match a with Some h => Some h | None => b end) :: merged l1 l2).
    destruct a, b; cbn [omap list_omap id length] in *; lia.
Qed.

Lemma stream_tuples i v : (i < TCQMAXSOURCES)%nat → of_stream i v → tuples_of v = 1%nat.
Proof.
  intros Hi [h Hv]. unfold tuples_of. rewrite Hv. revert i Hi Hv. generalize TCQMAXSOURCES as k. clear. intros k i Hi _. revert i Hi.
  induction k as [|k IH]; intros [|i] Hi; [lia|lia| |].
  - cbn. f_equal. clear. induction k as [|k IH]; [done|exact IH].
  - cbn. apply IH. lia.
Qed.
End spec.

Section count.
Context {HT : Type} `{Hcal : !Calendar} `{Hpal : !Palloc} `{Henv : !EventEnv HT}.
Implicit Types (st : Store HT) (ee : nat) (p : node) (v : AEvent HT).

(** ** The base tuples in use *)


Lemma lists_at_nil o : (∀ p, out_of o p = []) → lists_at everywhere o = [].
Proof.
  intros Ho. destruct (lists_at everywhere o) as [|ee l] eqn:E; [done|]. exfalso. assert (ee ∈ lists_at everywhere o) as Hin by (rewrite E; by left).
  unfold lists_at in Hin. apply list_elem_of_bind in Hin as ([p k] & Hk & Hp). apply elem_of_map_to_list in Hp. cbn in Hk.
  specialize (Ho p). unfold out_of in Ho. rewrite Hp in Ho. cbn in Ho. subst k. by apply elem_of_nil in Hk.
Qed.

Lemma three_lists st : (∀ p, p ≠ [] → p ≠ lnode → p ≠ rnode → get_out st p = []) →
  lists_at everywhere (outputList st) ≡ₚ get_out st lnode ++ get_out st rnode ++ get_out st [].
Proof.
  intros Ho. rewrite (lists_at_delete everywhere (outputList st) lnode). rewrite (lists_at_delete everywhere _ rnode), (lists_at_delete everywhere _ []). cbn [everywhere].
  rewrite lists_at_nil, app_nil_r.
  - unfold out_of. by rewrite !lookup_delete_ne by done.
  - intros p. unfold out_of. destruct (decide (p = [])) as [->|P1]; [by rewrite lookup_delete_eq|]. rewrite lookup_delete_ne by done.
    destruct (decide (p = rnode)) as [->|P2]; [by rewrite lookup_delete_eq|]. rewrite lookup_delete_ne by done.
    destruct (decide (p = lnode)) as [->|P3]; [by rewrite lookup_delete_eq|]. rewrite lookup_delete_ne by done. by apply Ho.
Qed.

Definition entry_refs (m : gmap nat EventEntry) (ee : nat) : list nat := match m !! ee with Some x => pointers (event x) | None => [] end.
Lemma refs_locs (m : gmap nat EventEntry) : refs m = locs m ≫= entry_refs m.
Proof.
  unfold refs, locs. assert (∀ l : list (nat * EventEntry), (∀ kv, kv ∈ l → m !! kv.1 = Some kv.2) → l ≫= (λ kv, pointers (event kv.2)) = l.*1 ≫= entry_refs m) as Hl.
  { induction l as [|[a x] l IH]; intros Hin; [done|]. rewrite fmap_cons, !bind_cons. rewrite IH by (intros kv Hkv; apply Hin; by right). f_equal.
    unfold entry_refs. pose proof (Hin (a, x) ltac:(by left)) as Ha. cbn in Ha |- *. by rewrite Ha. }
  apply Hl. intros [a x] Hin. by apply elem_of_map_to_list.
Qed.

Lemma reads_count (b : gmap nat HT) l vs : reads b l vs → length (omap id l : list nat) = length (omap id vs : list HT).
Proof. induction 1 as [|[a|] [h|] l vs Ha _ IH]; cbn; try done. by rewrite IH. Qed.

Lemma listed_refs st l vs k : Forall2 (holds st) l vs → Forall (λ v, (tuples_of v ≤ k)%nat) vs → (length (l ≫= entry_refs (entries st)) ≤ k * length vs)%nat.
Proof.
  induction 1 as [|ee v l vs (x & Hx & Hr & _) _ IH]; intros Hk; [cbn; lia|]. apply Forall_cons in Hk as [Hv Hk]. specialize (IH Hk). rewrite bind_cons, length_app. cbn [length].
  assert (length (entry_refs (entries st) ee) = tuples_of v) as E; [|lia]. unfold entry_refs. rewrite Hx. by apply (reads_count (base_tuples st)).
Qed.

(** An event of a list has as many base tuples as its value. *)
Lemma lists_size rt R held st i1 i2 L1 L2 L3 k : Inv rt R held st → (∀ p, p ≠ [] → p ≠ lnode → p ≠ rnode → get_out st p = []) →
  Forall2 (holds st) (get_out st lnode) L1 → Forall2 (holds st) (get_out st rnode) L2 → Forall2 (holds st) (get_out st []) L3 →
  (i1 < TCQMAXSOURCES)%nat → (i2 < TCQMAXSOURCES)%nat → Forall (of_stream i1) L1 → Forall (of_stream i2) L2 → Forall (λ v, (tuples_of v ≤ k)%nat) L3 →
  (distinct (refs (entries st)) ≤ length L1 + length L2 + k * length L3)%nat.
Proof.
  intros I Ho Hl Hr Hf Hi1 Hi2 Fl Fr Hk. unfold distinct. transitivity (length (refs (entries st))); [apply submseteq_length, NoDup_submseteq; [apply NoDup_remove_dups|]; intros bt; by apply elem_of_remove_dups|].
  rewrite refs_locs. assert (locs (entries st) ≡ₚ get_out st lnode ++ get_out st rnode ++ get_out st []) as E by (by rewrite <- (iv_linked _ _ _ _ I), (three_lists st Ho)).
  assert (length (locs (entries st) ≫= entry_refs (entries st)) = length ((get_out st lnode ++ get_out st rnode ++ get_out st []) ≫= entry_refs (entries st))) as ->.
  { apply Permutation_length. by rewrite E. }
  rewrite !bind_app, !length_app.
  pose proof (listed_refs st _ _ 1 Hl) as H1. pose proof (listed_refs st _ _ 1 Hr) as H2. pose proof (listed_refs st _ _ k Hf Hk) as H3.
  assert (∀ i vs, (i < TCQMAXSOURCES)%nat → Forall (of_stream i) vs → Forall (λ v, (tuples_of v ≤ 1)%nat) vs) as Hone.
  { intros i vs Hi Hvs. eapply Forall_impl; [exact Hvs|]. intros v Hv. by rewrite (stream_tuples i v Hi Hv). }
  specialize (H1 (Hone i1 _ Hi1 Fl)). specialize (H2 (Hone i2 _ Hi2 Fr)). lia.
Qed.
End count.

Section pairs.
Context {HT : Type} `{Hcal : !Calendar} `{Hpal : !Palloc} `{Henv : !EventEnv HT} `{Hfresh : !PallocFresh}.
Context (op : EventOperator) (d : Interval) (Hd : delay_ok d) (i1 i2 : nat) (Hi1 : (i1 < TCQMAXSOURCES)%nat) (Hi2 : (i2 < TCQMAXSOURCES)%nat) (Hne : i1 ≠ i2).
Context (cube : ExprCube) (Hcube : cube_ok cube).
Implicit Types (st : Store HT) (e : Event) (bt ee : nat) (p q : node) (v : AEvent HT) (w : Two HT) (t : IHT HT).
Local Abbreviation root := (two_root op d i1 i2).
Local Abbreviation shows := (shows i1 i2).

Lemma shows_same st st' w : same_lists st st' → shows st w → shows st' w.
Proof.
  intros [Eo Ee Eb _ _] [Hl Hr Hf Ho Fl Fr].
  assert (∀ p, get_out st' p = get_out st p) as Hout by (intros p; unfold get_out; by rewrite Eo).
  assert (∀ p vs, listed st p vs → listed st' p vs) as Hlisted.
  { intros p vs Hp. unfold listed. rewrite Hout. eapply Forall2_impl; [exact Hp|]. intros ee v (x & Hx & Hv1 & Hv2). exists x. rewrite Ee. split; [done|]. split; [|done].
    eapply reads_mono; [|exact Hv1]. intros a Ha. apply Eb. apply elem_of_refs. exists ee, x. split; [done|]. by apply elem_of_pointers. }
  constructor; try by apply Hlisted. 2,3: done. intros p P1 P2 P3. rewrite Hout. by apply Ho.
Qed.

Lemma quiet_same st st' : same_lists st st' → quiet op d st → quiet op d st'.
Proof. intros [Eo Ee _ _ _] Hq. unfold quiet, get_out. rewrite Eo, Ee. exact Hq. Qed.
Lemma issued_same st st' : same_lists st st' → all_issued st → all_issued st'.
Proof.
  intros [_ Ee _ _ Ha] Hi ee x. rewrite Ee. intros Hx. destruct (Hi ee x Hx) as [H1 H2]. split; [by eapply issued_mono|]. intros c Hc. eapply issued_mono; [done|auto].
Qed.

Record Good R held st w : Prop := {
  gd_inv : Inv root R held st;
  gd_shows : shows st w;
  gd_quiet : quiet op d st;
  gd_issued : all_issued st;
  gd_timeouts : timeoutRequests st = []
}.

Lemma good_same R held R' held' st st' w : Good R held st w → Inv root R' held' st' → same_lists st st' → Good R' held' st' w.
Proof.
  intros [I Hs Hq Hi Ht] I' E. constructor; [done|by apply (shows_same st)|by apply (quiet_same st)|by apply (issued_same st)|by rewrite (sl_timeouts _ _ E)].
Qed.

Lemma expire_good R held st w ts : Good R held st w → ∃ st', expireEvents root [] ts st = Ok st' ∧ Good R held st' (expired op d ts w) ∧ base_tuples st' = base_tuples st.
Proof.
  intros [I Hs Hq Hi Ht]. destruct (expire_shows op d Hd i1 i2 R held st w ts I Hs) as (st' & -> & I' & L & Hs').
  exists st'. split; [done|]. split; [|apply L]. constructor; [done|done|by eapply quiet_less|by eapply issued_less|by rewrite (ol_timeouts _ _ L)].
Qed.

(** ** The event is published *)

Context (Hop : pairs_op op = true).

(** The lists [w'] have come from [w] like [full], but for some of the events found. *)
Definition grown w w' full : Prop := lefts w' = lefts full ∧ rights w' = rights full
  ∧ ∃ new vs, found w' = found w ++ new ∧ found full = found w ++ vs ∧ part_of op new vs.

Lemma grown_refl w : grown w w w.
Proof. split; [done|]. split; [done|]. exists [], []. rewrite !app_nil_r. do 2 (split; [done|]). by split. Qed.

Lemma grown_settled w l r new vs : part_of op new vs →
  grown w (settled op (mkTwo l r (found w ++ new))) (settled op (mkTwo l r (found w ++ vs))).
Proof. intros Hp. split; [by destruct op|]. split; [by destruct op|]. exists new, vs. split; [by destruct op|]. split; [by destruct op|done]. Qed.

Lemma leaf_good s R held st w ev v : Good R held st w → known st ev → is_event (base_tuples st) ev v → time_ok (event_timestamp ev) → (∀ bt, bt ∈ pointers ev → bt ∈ R) →
  of_stream (match s with LChild => i1 | RChild => i2 end) v →
  ∃ st1 ev', putSimpleEventOnOutputList [s] ev st = Ok st1 ∧ Inv root R held st1 ∧ arrived_at s st st1 ev' ∧ is_event (base_tuples st) ev' v
    ∧ shows st1 (match s with LChild => mkTwo (lefts w ++ [v]) (rights w) (found w) | RChild => mkTwo (lefts w) (rights w ++ [v]) (found w) end)
    ∧ all_issued st1 ∧ timeoutRequests st1 = [].
Proof.
  intros [I Hs Hq Hi Ht] Hk Hv Hts HR Hsv.
  destruct (leaf_arrived root R held s st ev v I Hk Hv Hts HR) as (st1 & ev' & -> & I1 & A & Hv'). exists st1, ev'. split; [done|]. split; [done|]. split; [done|]. split; [done|].
  pose proof A as [B Ee N Ea Eo Er Eal]. destruct Hs as [Hl Hr Hf Ho Fl Fr].
  assert (∀ q ws, q ≠ [s] → listed st q ws → listed st1 q ws) as D2.
  { intros q ws Hqs. apply listed_sub; [by apply Eo|done|]. intros a x _ Hx. exists x. by rewrite Ee, lookup_insert_ne by congruence. }
  assert (∀ ws, listed st [s] ws → listed st1 [s] (ws ++ [v])) as D1.
  { intros ws Hw. unfold listed. rewrite Ea. apply Forall2_app.
    - eapply Forall2_impl; [exact Hw|]. intros a u (x & Hx & Hu). exists x. by rewrite Ee, lookup_insert_ne, B by congruence.
    - constructor; [|done]. exists (new_entry ev'). by rewrite Ee, lookup_insert_eq, B. }
  split; [|split; [|congruence]].
  - constructor.
    + destruct s; cbn; [by apply D1|by apply D2].
    + destruct s; cbn; [by apply D2|by apply D1].
    + destruct s; cbn; by apply D2.
    + intros p P1 P2 P3. rewrite Eo by (destruct s; done). by apply Ho.
    + destruct s; cbn; [apply Forall_app; split; [done|by apply Forall_singleton]|done].
    + destruct s; cbn; [done|apply Forall_app; split; [done|by apply Forall_singleton]].
  - intros ee x. rewrite Ee. destruct (decide (ee = new_address st)) as [->|Hee].
    + rewrite lookup_insert_eq. intros [= <-]. split; [apply new_issued; lia|]. intros c Hc. by apply elem_of_nil in Hc.
    + rewrite lookup_insert_ne by done. intros Hx. destruct (Hi ee x Hx) as [H1 H2]. split; [by eapply issued_mono; [|exact H1]; lia|].
      intros c Hc. eapply issued_mono; [|apply H2, Hc]. lia.
Qed.

Lemma publish_complex rt o i l r p ev st : publishSimpleEvent cube rt (EVENT_COMPLEX o i l r) p ev st
  = let! st1 := publishSimpleEvent cube rt l (LChild :: p) ev st in publishSimpleEvent cube rt r (RChild :: p) ev st1.
Proof. reflexivity. Qed.

Lemma publish_good R held st w ev i h ts : Good R held st w → ev_ok ev → (∀ bt, bt ∈ pointers ev → bt ∈ held) → (∀ bt, bt ∈ pointers ev → bt ∈ R) →
  is_event (base_tuples st) ev (single i h ts) → time_ok ts → findIndexOfSourceForSimpleEvent (tup ev) = Ok (Z.of_nat i) →
  ∃ st' w', publishSimpleEvent cube root root [] ev st = Ok st' ∧ base_tuples st' = base_tuples st ∧ Good R held st' w' ∧
    grown w w' (let v := single i h ts in
      if decide (i = i1) then settled op (mkTwo (lefts w ++ [v]) (rights w) (found w ++ left_pairs op d v (rights w)))
      else if decide (i = i2) then settled op (mkTwo (lefts w) (rights w ++ [v]) (found w ++ right_pairs op d (lefts w) v))
      else w).
Proof.
  intros G He Hh HR Hv Ht Hidx. pose proof G as [I Hs Hq Hi Htm]. pose proof (held_known root R held st ev I He Hh) as Hk.
  assert (event_timestamp ev = ts) as Ets by apply Hv.
  assert (∀ (s : side) j, publishSimpleEvent cube root (EVENT_SIMPLE (Z.of_nat j + 1)) [s] ev st
    = if decide (i = j) then (let! st1 := putSimpleEventOnOutputList [s] ev st in constructComplexEvents cube root [] (event_timestamp ev) st1) else Ok st) as Hpub.
  { intros s j. cbn [publishSimpleEvent]. unfold isRelevantSimpleEvent. rewrite Hidx. cbn [cbind]. rewrite Z.add_simpl_r.
    case_decide as Hij; [subst; by rewrite Z.eqb_refl|]. by rewrite (proj2 (Z.eqb_neq _ _)) by lia. }
  assert (publishSimpleEvent cube root root [] ev st = let! st1 := publishSimpleEvent cube root (EVENT_SIMPLE (Z.of_nat i1 + 1)) [LChild] ev st in
    publishSimpleEvent cube root (EVENT_SIMPLE (Z.of_nat i2 + 1)) [RChild] ev st1) as -> by exact (publish_complex _ _ _ _ _ _ _ _). cbn zeta. rewrite Hpub.
  destruct (decide (i = i1)) as [->|N1].
  - assert (of_stream i1 (single i1 h ts)) as Hsv by (by exists h).
    destruct (leaf_good LChild R held st w ev _ G Hk Hv ltac:(by rewrite Ets) HR Hsv) as (st1 & ev' & -> & I1 & A1 & V1 & S1 & Is1 & T1). cbn [cbind].
    destruct (new_hits_left op d i1 i2 Hi1 Hi2 Hne R held st st1 w ev' _ Hop I Hs Hq Hi A1 V1 Hsv) as (vals & Hpart & Hhits).
    destruct (construct_pairs op d Hd i1 i2 cube R held st1 _ (event_timestamp ev) _ Hop I1 S1 Is1 Hhits) as (st2 & -> & I2 & S2 & T2 & B2 & Is2 & Q2). cbn [cbind].
    assert (publishSimpleEvent cube root (EVENT_SIMPLE (Z.of_nat i2 + 1)) [RChild] ev st2 = Ok st2) as ->.
    { cbn [publishSimpleEvent]. unfold isRelevantSimpleEvent. rewrite Hidx. cbn [cbind]. by rewrite (proj2 (Z.eqb_neq _ _)) by lia. }
    cbn [lefts rights found] in S2. eexists st2, _. split; [done|]. split; [rewrite B2; apply A1|]. split; [constructor; [done|exact S2|done|done|congruence]|by apply grown_settled].
  - cbn [cbind]. rewrite Hpub. destruct (decide (i = i2)) as [->|N2]; [|exists st, w; split; [done|]; split; [done|]; split; [done|apply grown_refl]].
    assert (of_stream i2 (single i2 h ts)) as Hsv by (by exists h).
    destruct (leaf_good RChild R held st w ev _ G Hk Hv ltac:(by rewrite Ets) HR Hsv) as (st1 & ev' & -> & I1 & A1 & V1 & S1 & Is1 & T1). cbn [cbind].
    destruct (new_hits_right op d i1 i2 Hi1 Hi2 Hne R held st st1 w ev' _ Hop I Hs Hq Hi A1 V1 Hsv) as (vals & Hpart & Hhits).
    destruct (construct_pairs op d Hd i1 i2 cube R held st1 _ (event_timestamp ev) _ Hop I1 S1 Is1 Hhits) as (st2 & -> & I2 & S2 & T2 & B2 & Is2 & Q2).
    cbn [lefts rights found] in S2. eexists st2, _. split; [done|]. split; [rewrite B2; apply A1|]. split; [constructor; [done|exact S2|done|done|congruence]|by apply grown_settled].
Qed.

Lemma good_size R held st w : Good R held st w → Forall (λ v, (tuples_of v ≤ 2)%nat) (found w) → (distinct (refs (entries st)) ≤ size w)%nat.
Proof.
  intros [I [Hl Hr Hf Ho Fl Fr] _ _ _] Hk.
  pose proof (lists_size root R held st i1 i2 _ _ _ 2 I Ho Hl Hr Hf Hi1 Hi2 Fl Fr Hk). unfold size. lia.
Qed.

(** ** The next result *)

Definition with_found (vs : list (AEvent HT)) w : Two HT := mkTwo (lefts w) (rights w) vs.

Lemma fetch_good R st w : Good R [] st w → ∃ r st', fetchNextComplexEvent cube st = Ok (r, st') ∧
    match r, (next_found cube (found w)).1 with
    | None, None => Good R [] st' (with_found (next_found cube (found w)).2 w)
    | Some e, Some v => Good R (pointers e) st' (with_found (next_found cube (found w)).2 w) ∧ is_event (base_tuples st') e v
    | _, _ => False
    end.
Proof.
  intros [I [Hl Hr Hf Ho Fl Fr] Hq Hi Ht]. destruct (fetch_listed root R cube (get_out st []) Hcube st (found w) I Hf eq_refl) as (r & st' & E & L & Eo & Hf' & Hres).
  exists r, st'. split; [exact E|].
  assert (∀ held, Inv root R held st' → Good R held st' (with_found (next_found cube (found w)).2 w)) as Hgood.
  { intros held I'. constructor; [done| |by eapply quiet_less|by eapply issued_less|by rewrite (ol_timeouts _ _ L)].
    constructor; cbn [lefts rights found with_found]; [by apply (only_less_listed st); [|apply Eo|]|by apply (only_less_listed st); [|apply Eo|]|done| |done|done].
    intros p P1 P2 P3. rewrite Eo by done. by apply Ho. }
  destruct r as [e|], ((next_found cube (found w)).1) as [v|]; try done; [|by apply Hgood]. destruct Hres as [I' Hv]. split; [by apply Hgood|done].
Qed.
End pairs.
End EventsPairs.

(** * Event aggregates: the pairs that a query gets

    Over two streams [BOTH], [FOLLOWS] and [PRECEDES] report pairs of their meaning, none
    twice, whenever the results are asked for, and all of them as long as no address of an
    entry is given again. *)


Module EventsAnswer.
Import Bit Eddy Stem StemSpec Window WindowSpec Events EventsMem EventsInv EventsStep EventsRead EventsThm EventsRun EventsMatch EventsTwo EventsPairs.
Local Open Scope Z_scope.

(** ** The specification *)

Section spec.
Context {HT : Type} `{!EventEnv HT}.
Implicit Types (w : Two HT) (v : AEvent HT).

Definition stream (i : nat) (past : list (tuple HT)) : list (AEvent HT) := (λ t : tuple HT, single t.1.1 t.1.2 t.2) <$> filter (λ t : tuple HT, t.1.1 = i) past.

(** The pairs that a tuple completes: with the earlier tuples of the other stream that
    are near enough to it.  [FOLLOWS] reports when the right one comes, [PRECEDES] when
    the left one does, [BOTH] in either case. *)
Definition reported (op : EventOperator) (d : Interval) (i1 i2 : nat) (past : list (tuple HT)) (t : tuple HT) : list (AEvent HT) :=
  let v := single t.1.1 t.1.2 t.2 in
  if decide (t.1.1 = i1) then match op with EVENT_FOLLOWS => [] | _ => left_pairs op d v (stream i2 past) end
  else if decide (t.1.1 = i2) then match op with EVENT_PRECEDES => [] | _ => right_pairs op d (stream i1 past) v end
  else [].

Fixpoint reports (op : EventOperator) (d : Interval) (i1 i2 : nat) (past l : list (tuple HT)) : list (AEvent HT) :=
  match l with
  | [] => []
  | t :: l' => reported op d i1 i2 past t ++ reports op d i1 i2 (past ++ [t]) l'
  end.

Definition nothing : Two HT := mkTwo [] [] [].

Fixpoint ascending (ts : Z) (l : list (tuple HT)) : Prop :=
  match l with
  | [] => True
  | t :: l' => ts ≤ t.2 ∧ ascending t.2 l'
  end.
Lemma sorted_ascending l : Sorted Z.le (snd <$> l) → ∃ ts, ascending ts l.
Proof.
  destruct l as [|t l]; [by exists 0|]. intros Hs. exists t.2. split; [lia|]. revert t Hs. induction l as [|u l IH]; intros t Hs; [done|].
  rewrite !fmap_cons in Hs. apply Sorted_inv in Hs as [Hs Hd]. apply HdRel_inv in Hd. split; [done|]. apply IH. by rewrite fmap_cons.
Qed.
End spec.

Definition two_machine {HT : Type} (op : EventOperator) (d : Interval) (i1 i2 : nat) : Machine HT (Two HT) := {|
  m_arrive := arrived op d i1 i2; m_found := found; m_take := with_found; m_size := size; m_take_found vs s := eq_refl
|}.

Section history.
Context {HT : Type} `{Henv : !EventEnv HT}.
Context (op : EventOperator) (d : Interval) (i1 i2 : nat) (Hne : i1 ≠ i2) (Hpos : 0 ≤ time d) (Hop : pairs_op op = true) (cube : ExprCube).
Implicit Types (w : Two HT) (v : AEvent HT) (vs : list (AEvent HT)) (past : list (nat * HT * Z)).
Local Abbreviation agreeing := (agreeing cube).
Local Abbreviation answers := (answers (Hm := two_machine op d i1 i2) cube).
Local Abbreviation final := (final (Hm := two_machine op d i1 i2) cube).

(** The lists are what has come and has not expired. *)
Record tracks past (ts : Z) w : Prop := {
  tr_left : lefts w = match op with EVENT_PRECEDES => [] | _ => filter (stays d ts) (stream i1 past) end;
  tr_right : rights w = match op with EVENT_FOLLOWS => [] | _ => filter (stays d ts) (stream i2 past) end
}.

Lemma stays_later ts ts' vs : ts ≤ ts' → filter (stays d ts') (filter (stays d ts) vs) = filter (stays d ts') vs.
Proof.
  intros Hle. rewrite list_filter_filter. apply filter_agrees. intros v _. unfold stays. split; [tauto|]. intros H. split; [done|lia].
Qed.
Lemma filter_implied {A} (P Q : A → Prop) `{∀ x, Decision (P x)} `{∀ x, Decision (Q x)} (l : list A) : (∀ x, Q x → P x) → filter Q (filter P l) = filter Q l.
Proof. intros Hpq. rewrite list_filter_filter. apply filter_agrees. intros x _. split; [tauto|]. intros HQ. split; [done|by apply Hpq]. Qed.

Lemma stream_snoc i past t : stream i (past ++ [t]) = stream i past ++ (if decide (t.1.1 = i) then [single t.1.1 t.1.2 t.2] else []).
Proof. unfold stream. rewrite filter_app, fmap_app, filter_cons, filter_nil. by case_decide. Qed.
Lemma kept_snoc i past t ts : ts ≤ t.2 → filter (stays d t.2) (stream i (past ++ [t]))
  = filter (stays d t.2) (filter (stays d ts) (stream i past)) ++ (if decide (t.1.1 = i) then [single t.1.1 t.1.2 t.2] else []).
Proof.
  intros Hle. rewrite stream_snoc, filter_app, stays_later by done. f_equal. case_decide; [|done]. rewrite filter_cons, filter_nil, decide_True; [done|]. unfold stays. cbn. lia.
Qed.

Lemma near_stays t1 t2 : near_ts op d t1 t2 = true → match op with EVENT_FOLLOWS => t2 ≤ t1 + time d | EVENT_PRECEDES => t1 ≤ t2 + time d | _ => t1 ≤ t2 + time d ∧ t2 ≤ t1 + time d end.
Proof. destruct op; cbn; try done; rewrite ?andb_true_iff, ?Z.leb_le; tauto. Qed.

Lemma arrived_tracks past ts w i h ts' : tracks past ts w → ts ≤ ts' →
  tracks (past ++ [(i, h, ts')]) ts' (arrived op d i1 i2 i h ts' w) ∧ found (arrived op d i1 i2 i h ts' w) = found w ++ reported op d i1 i2 past (i, h, ts').
Proof.
  intros [Hl Hr] Hle. unfold arrived, reported. cbn [fst snd].
  pose proof (kept_snoc i1 past (i, h, ts') ts Hle) as K1. pose proof (kept_snoc i2 past (i, h, ts') ts Hle) as K2. cbn [fst snd] in K1, K2.
  destruct (decide (i = i1)) as [->|N1]; [rewrite (decide_False (P := i1 = i2)) in K2 by done|destruct (decide (i = i2)) as [->|N2]]; rewrite ?app_nil_r in *.
  - split.
    + constructor; destruct op eqn:Eop; try done; cbn [expired settled lefts rights found]; rewrite ?Hl, ?Hr, ?K1, ?K2; done.
    + destruct op eqn:Eop; try done; cbn [expired settled lefts rights found]; rewrite ?Hr.
      all: first [done|f_equal]; unfold left_pairs; f_equal; rewrite stays_later by done; apply filter_implied; intros v; rewrite Is_true_true; cbn; rewrite ?andb_true_iff, !Z.leb_le; unfold stays; lia.
  - split.
    + constructor; destruct op eqn:Eop; try done; cbn [expired settled lefts rights found]; rewrite ?Hl, ?Hr, ?K1, ?K2; done.
    + destruct op eqn:Eop; try done; cbn [expired settled lefts rights found]; rewrite ?Hl.
      all: first [done|f_equal]; unfold right_pairs; f_equal; rewrite stays_later by done; apply filter_implied; intros v; rewrite Is_true_true; cbn; rewrite ?andb_true_iff, !Z.leb_le; unfold stays; lia.
  - split; [|by destruct op].
    constructor; destruct op eqn:Eop; try done; cbn [expired settled lefts rights found]; rewrite ?Hl, ?Hr, ?K1, ?K2; done.
Qed.

Lemma answers_reports l : ∀ past ts w, tracks past ts w → ascending ts (omap id l) →
  answers l w ++ agreeing (found (final l w)) = agreeing (found w) ++ agreeing (reports op d i1 i2 past (omap id l)).
Proof.
  induction l as [|[[[i h] ts']|] l IH]; intros past ts w Ht Ha; cbn [EventsRun.answers EventsRun.final]; [by rewrite app_nil_r| |].
  - change (omap id (Some (i, h, ts') :: l)) with ((i, h, ts') :: omap id l) in *. destruct Ha as [Hle Ha]. cbn [snd] in *.
    destruct (arrived_tracks past ts w i h ts' Ht Hle) as [Ht' Hf]. cbn [m_arrive two_machine]. rewrite (IH _ ts' _ Ht' Ha), Hf. cbn [reports]. by rewrite !agreeing_app, <- app_assoc.
  - change (omap id (None :: l)) with (omap id l) in *. rewrite <- app_assoc, (IH past ts _) by (done || by destruct Ht).
    rewrite (next_found_agreeing cube (found w)). cbn [m_found m_take two_machine found with_found]. by rewrite <- app_assoc.
Qed.
End history.

Section answer.
Context {HT : Type} `{Hcal : !Calendar} `{Hpal : !Palloc} `{Henv : !EventEnv HT} `{Hfresh : !PallocFresh}.
Context (op : EventOperator) (d : Interval) (Hd : delay_ok d) (i1 i2 : nat) (Hi1 : (i1 < TCQMAXSOURCES)%nat) (Hi2 : (i2 < TCQMAXSOURCES)%nat) (Hne : i1 ≠ i2).
Context (cube : ExprCube) (Hcube : cube_ok cube) (Hop : pairs_op op = true).
Implicit Types (st : Store HT) (w : Two HT) (v : AEvent HT) (t : IHT HT) (n : FEventAgg HT).
Local Abbreviation root := (two_root op d i1 i2).
Local Abbreviation Good := (Good op d i1 i2).
Local Abbreviation arrived := (arrived op d i1 i2).

Definition small w : Prop := Forall (λ v, (tuples_of v ≤ 2)%nat) (found w).

Lemma arrived_small w i h ts : Forall (of_stream i1) (lefts w) → Forall (of_stream i2) (rights w) → small w → small (arrived i h ts w).
Proof.
  intros Hl Hr Hs.
  assert (∀ j (vs : list (AEvent HT)) (P : AEvent HT → Prop) `{∀ x, Decision (P x)}, (j < TCQMAXSOURCES)%nat → Forall (of_stream j) vs → ∀ v, v ∈ filter P vs → tuples_of v = 1%nat) as Hone.
  { intros j vs P ? Hj Hvs v [_ Hv]%list_elem_of_filter. apply (stream_tuples j); [done|]. by rewrite Forall_forall in Hvs; apply Hvs. }
  assert (Forall (of_stream i1) (lefts (expired op d ts w)) ∧ Forall (of_stream i2) (rights (expired op d ts w)) ∧ found (expired op d ts w) = found w) as (Hl1 & Hr1 & Ef).
  { destruct op; cbn; repeat split; first [done|by apply Forall_filter'|constructor]. }
  unfold small, EventsPairs.arrived. destruct (decide (i = i1)) as [->|N1]; [|destruct (decide (i = i2)) as [->|N2]].
  - assert (∀ f g l, found (settled op (mkTwo (HT := HT) f g l)) = l) as -> by (intros; by destruct op). rewrite Ef. apply Forall_app. split; [done|].
    unfold left_pairs. apply Forall_fmap, Forall_forall. intros v Hv. unfold compose. etrans; [apply join_tuples|]. rewrite (Hone i2 _ _ _ Hi2 Hr1 v Hv).
    rewrite (stream_tuples i1 (single i1 h ts)); [done|done|by exists h].
  - assert (∀ f g l, found (settled op (mkTwo (HT := HT) f g l)) = l) as -> by (intros; by destruct op). rewrite Ef. apply Forall_app. split; [done|].
    unfold right_pairs. apply Forall_fmap, Forall_forall. intros v Hv. unfold compose. etrans; [apply join_tuples|]. rewrite (Hone i1 _ _ _ Hi1 Hl1 v Hv).
    rewrite (stream_tuples i2 (single i2 h ts)); [done|done|by exists h].
  - by rewrite Ef.
Qed.

Lemma arrival_good R st w t i h ts : Good R [] st w → small w → (size w < MAX_BASE_TUPLES_CACHED)%nat → iht_wf t → simple_at t i h ts →
  ∃ R' st' w', (∀ fuel, arrival fuel cube root t ts st = Ok st') ∧ Good R' [] st' w' ∧ small w' ∧ grown op w w' (arrived i h ts w).
Proof.
  intros G Hs Hsize Hwf Ht. unfold arrival.
  assert (∀ fuel, ServiceTimeouts fuel cube root ts st = Ok (with_timeouts st [])) as Hserve.
  { intros fuel. unfold ServiceTimeouts. destruct fuel; cbn [service_from]; by rewrite (gd_timeouts _ _ _ _ _ _ _ _ G). }
  assert (Good R [] (with_timeouts st []) w) as G1.
  { pose proof G as [I _ _ _ Etm]. apply (good_same op d i1 i2 R [] R [] st); [done| |by constructor; rewrite ?Etm]. apply with_timeouts_inv; [done|]. intros p u Hin. by apply elem_of_nil in Hin. }
  destruct (free_same root R _ (gd_inv _ _ _ _ _ _ _ _ G1)) as (st2 & E2 & I2 & L2 & Hc). pose proof (good_same op d i1 i2 R [] R [] _ st2 w G1 I2 L2) as G2.
  pose proof (good_size op d i1 i2 Hi1 Hi2 Hne R [] st2 w G2 Hs) as Hb.
  destruct (copy_same root R st2 t i h ts I2 ltac:(lia) Hwf Ht) as (a & ev & st3 & E3 & I3 & L3 & Ep & He & Hv & Hidx).
  pose proof (good_same op d i1 i2 R [] (a :: R) [a] _ st3 w G2 I3 L3) as G3.
  destruct (expire_good op d Hd i1 i2 (a :: R) [a] st3 w ts G3) as (st4 & E4 & G4 & B4).
  destruct (publish_good op d Hd i1 i2 Hi1 Hi2 Hne cube Hop (a :: R) [a] st4 _ ev i h ts G4 He) as (st5 & w5 & E5 & B5 & G5 & Hgrown).
  { by rewrite Ep. }
  { rewrite Ep. intros bt ->%list_elem_of_singleton. by left. }
  { by rewrite B4. }
  { apply Ht. }
  { done. }
  pose proof (gd_inv _ _ _ _ _ _ _ _ G5) as I5. destruct (release_same root (a :: R) st5 ev [a] I5) as (st6 & E6 & I6 & L6); [by rewrite Ep|].
  assert (grown op w w5 (arrived i h ts w)) as Hg.
  { assert (found (expired op d ts w) = found w) as Ef by (by destruct op). unfold grown in Hgrown. rewrite Ef in Hgrown. unfold EventsPairs.arrived.
    rewrite Ef. exact Hgrown. }
  exists (a :: R), st6, w5. split; [|split; [|split; [|exact Hg]]].
  - intros fuel. rewrite Hserve. cbn [cbind]. rewrite E2. cbn [cbind]. rewrite E3. cbn [cbind]. rewrite E4. cbn [cbind]. rewrite E5. cbn [cbind]. exact E6.
  - by apply (good_same op d i1 i2 (a :: R) [a] _ _ st5).
  - destruct Hg as (_ & _ & new & vs & En & Ev & [Hsub _]). assert (small (arrived i h ts w)) as Hfull by (apply arrived_small; [apply G|apply G|done]).
    unfold small in *. rewrite En. rewrite Ev in Hfull. apply Forall_app in Hfull as [_ Hfull]. apply Forall_app. split; [done|]. by eapply sublist_Forall.
Qed.

Definition describes st w : Prop := (∃ R, Good R [] st w) ∧ small w.

Lemma next_found_small w : small w → small (with_found (next_found cube (found w)).2 w).
Proof.
  unfold small. cbn [found with_found]. intros Hs. rewrite Forall_forall in Hs |- *. intros v Hv. apply Hs. revert Hv. generalize (found w) as vs. clear.
  induction vs as [|v' vs IH]; [done|]. cbn [next_found]. destruct (agrees cube v'.1); intros Hv; right; [exact Hv|by apply IH].
Qed.

Lemma poll_describes st w : describes st w → ∃ r st1, fetchNextComplexEvent cube st = Ok (r, st1) ∧
  match r, (next_found cube (found w)).1 with
  | None, None => describes st1 (with_found (next_found cube (found w)).2 w)
  | Some e, Some v => is_event (base_tuples st1) e v ∧ ∃ st2, deleteEvent e st1 = Ok st2 ∧ describes st2 (with_found (next_found cube (found w)).2 w)
  | _, _ => False
  end.
Proof.
  intros [[R G] Hs]. destruct (fetch_good op d i1 i2 cube Hcube R st w G) as (r & st1 & E & Hr). exists r, st1. split; [done|].
  apply next_found_small in Hs. destruct r as [e|], ((next_found cube (found w)).1) as [v|]; try done; [|split; [by exists R|done]]. destruct Hr as [G1 Hv]. split; [done|].
  destruct (release_same root R st1 e _ (gd_inv _ _ _ _ _ _ _ _ G1) (reflexivity _)) as (st2 & E6 & I6 & L6). exists st2. split; [done|]. split; [|done].
  exists R. by apply (good_same op d i1 i2 R (pointers e) _ _ st1).
Qed.

(** ** Runs *)

(** The lists [w'] are those of the machine, but for some of the events found. *)
Definition behind w' w : Prop := lefts w' = lefts w ∧ rights w' = rights w ∧ part_of op (found w') (found w).

Lemma behind_size w' w : behind w' w → (size w' ≤ size w)%nat.
Proof. intros (El & Er & [Hs _]). apply sublist_length in Hs. unfold size. rewrite El, Er. lia. Qed.

(** The lists of the streams do not depend on the events found. *)
Lemma arrived_alike w1 w2 i h ts : lefts w1 = lefts w2 → rights w1 = rights w2 →
  lefts (arrived i h ts w1) = lefts (arrived i h ts w2) ∧ rights (arrived i h ts w1) = rights (arrived i h ts w2)
  ∧ ∃ vs, found (arrived i h ts w1) = found w1 ++ vs ∧ found (arrived i h ts w2) = found w2 ++ vs.
Proof.
  destruct w1 as [L R F1], w2 as [L2 R2 F2]. cbn. intros <- <-. unfold EventsPairs.arrived.
  destruct (decide (i = i1)); [|destruct (decide (i = i2))]; destruct op; cbn; (split; [done|split; [done|]]);
    first [eexists; split; reflexivity|exists []; by rewrite !app_nil_r].
Qed.

Lemma grown_behind w' w1 w i h ts : grown op w' w1 (arrived i h ts w') → behind w' w → behind w1 (arrived i h ts w).
Proof.
  intros (El & Er & new & vs & En & Ev & Hp) (El' & Er' & Hb). destruct (arrived_alike w' w i h ts El' Er') as (Ela & Era & vs' & F1 & F2).
  rewrite F1 in Ev. apply app_inv_head in Ev as ->. split; [congruence|]. split; [congruence|]. rewrite En, F2. by apply part_of_app.
Qed.

Lemma next_found_part vs' vs : part_of op vs' vs → part_of op (next_found cube vs').2 (next_found cube vs).2.
Proof.
  intros [Hs He]. split; [|intros Hn; by rewrite He]. clear He. induction Hs as [|v l k Hs IH|v l k Hs IH]; [done| |]; cbn [next_found].
  - by destruct (agrees cube v.1).
  - destruct (agrees cube v.1); cbn [snd]; [|done]. etrans; [|exact Hs]. clear. induction l as [|u l IH]; [done|]. cbn [next_found].
    destruct (agrees cube u.1); cbn [snd]; [by apply sublist_cons|by apply sublist_cons].
Qed.

Local Abbreviation reports := (reports op d i1 i2).
Local Abbreviation answers := (answers (Hm := two_machine op d i1 i2) cube).
Local Abbreviation fits := (fits (Hm := two_machine op d i1 i2) cube).

Lemma run_pairs (Hpos : 0 ≤ time d) acts : ∀ l n q st w' w past ts, idle root cube n q st → describes st w' → behind w' w → tracks op d i1 i2 past ts w →
  ascending ts (omap id l) → Forall2 stands acts l → fits l w = true →
  ∃ F res n' vs, (∀ fuel, (F ≤ fuel)%nat → run fuel acts n = Ok (res, n')) ∧ Forall2 (λ r v, result_for q v.1 r) res vs
    ∧ vs `sublist_of` agreeing cube (found w') ++ agreeing cube (reports past (omap id l)) ∧ (addresses_new op → vs = answers l w).
Proof.
  induction acts as [|a acts IH]; intros l n q st w' w past ts Hn Hd' Hb Ht Hasc Hst Hf.
  { apply Forall2_nil_inv_l in Hst as ->. exists 0%nat, [], n, []. split; [done|]. split; [constructor|]. split; [apply sublist_nil_l|done]. }
  apply Forall2_cons_inv_l in Hst as (o & l' & Has & Hst & ->). destruct a as [t|], o as [[[i h] ts']|]; try done; cbn [EventsRun.fits EventsRun.answers] in *.
  - destruct Has as (Hwf & Hsim & Hp). apply andb_true_iff in Hf as [Hsize%bool_decide_eq_true Hf]. cbn [m_size m_arrive two_machine] in Hsize, Hf.
    change (omap id (Some (i, h, ts') :: l')) with ((i, h, ts') :: omap id l') in *. destruct Hasc as [Hle Hasc]. cbn [snd] in Hle, Hasc.
    destruct Hd' as [[R G] Hs]. pose proof (behind_size w' w Hb) as Hsz.
    destruct (arrival_good R st w' t i h ts' G Hs ltac:(lia) Hwf Hsim) as (R' & st' & w1 & Ea & G1 & Hs1 & Hg).
    destruct (arrived_tracks op d i1 i2 Hne Hpos Hop past ts w i h ts' Ht Hle) as [Ht1 Hfound].
    destruct (step_arrive root cube n q st st' t ts' Hn (simple_timestamp t i h ts' Hsim) Hp) as (F & n1 & E1 & Hn1); [by exists 0%nat|].
    destruct (IH l' n1 q st' w1 (arrived i h ts' w) _ _ Hn1 (conj (ex_intro _ R' G1) Hs1) (grown_behind w' w1 w i h ts' Hg Hb) Ht1 Hasc Hst Hf)
      as (F2 & res & n' & vs & E2 & Hres & Hsub & Hall).
    exists (Nat.max F F2), res, n', vs. split; [|split; [done|split; [|exact Hall]]].
    + intros fuel HF. cbn [run]. rewrite E1 by lia. cbn [cbind]. by rewrite E2 by lia.
    + etrans; [exact Hsub|]. cbn [EventsAnswer.reports]. rewrite agreeing_app, app_assoc. apply sublist_app; [|done].
      destruct Hg as (_ & _ & new & all & -> & Ev & [Hnew _]). destruct Hb as (El & Er & _). destruct (arrived_alike w' w i h ts' El Er) as (_ & _ & vs' & F1 & F2').
      rewrite F1 in Ev. rewrite F2' in Hfound. apply app_inv_head in Ev as ->, Hfound as ->. rewrite agreeing_app. apply sublist_app; [done|]. by apply filter_sublist.
  - change (omap id (None :: l')) with (omap id l') in *. cbn [m_found m_take two_machine] in Hf |- *.
    destruct (poll_step root cube n q st (found w') _ Hn (poll_describes st w' Hd')) as (res1 & st2 & n1 & E1 & Hn1 & Hd1 & H1).
    assert (behind (with_found (next_found cube (found w')).2 w') (with_found (next_found cube (found w)).2 w)) as Hb1.
    { destruct Hb as (El & Er & Hpart). split; [done|]. split; [done|]. by apply next_found_part. }
    destruct (IH l' n1 q st2 _ _ past ts Hn1 Hd1 Hb1 ltac:(by destruct Ht) Hasc Hst Hf) as (F2 & res & n' & vs & E2 & Hres & Hsub & Hall).
    exists F2, (res1 ++ res), n', (option_list (next_found cube (found w')).1 ++ vs). split; [|split; [by apply Forall2_app|split]].
    + intros fuel HF. cbn [run]. rewrite E1. cbn [cbind]. by rewrite E2 by lia.
    + rewrite (next_found_agreeing cube (found w')), <- app_assoc. apply sublist_app; [done|]. exact Hsub.
    + intros Hnew. rewrite (Hall Hnew). destruct Hb as (_ & _ & [_ Heq]). by rewrite (Heq Hnew).
Qed.

Lemma empty_good : Good [] [] (empty_store : Store HT) nothing.
Proof.
  pose proof (fresh_store_ok (HT := HT) 0 1 root [] (λ _, []) CreateIntermediateHeapTuple (two_delays op d Hd i1 i2) eq_refl) as Hi. constructor; [apply (eo_store _ Hi)| | |done|done].
  - constructor; cbn; try done; constructor.
  - intros [a b] [Ha _]%elem_of_product. by apply elem_of_nil in Ha.
Qed.

(** C3: What a pattern of two streams reports.  An operator for [l BOTH r], [l FOLLOWS r] or
    [l PRECEDES r] within a delay, over two different streams, gets tuples in the order of
    their timestamps, and is asked for results in between as often as one likes and at the end
    often enough, and whenever a tuple comes fewer than [MAX_BASE_TUPLES_CACHED] base tuples are
    kept.  Whatever free addresses the allocator gives, every call succeeds, and the results
    are pairs of a left tuple and an earlier or later right one (as the operator says) that are
    within the delay and consistent with the partition, no pair twice, in the order in which
    they are completed; and they are for the query only.  They are all of these pairs for
    [PRECEDES], and for the others if the allocator does not give the address of an entry again:
    an entry that is given that of a freed one counts as matched with the partners of that. *)
Theorem event_pairs_reported q room vl srcs (o : IHT HT) acts l k : cube = initializeExprCube vl → 0 ≤ time d → (0 < room)%nat →
  Forall2 stands acts l → Sorted Z.le (snd <$> omap id l) → fits l nothing = true → (length (reports [] (omap id l)) ≤ k)%nat →
  ∃ F res n' vs, (∀ fuel, (F ≤ fuel)%nat → run fuel (acts ++ replicate k Poll) (ProcessInitFEventAgg [q] room root vl srcs o) = Ok (res, n'))
    ∧ Forall2 (λ r v, result_for q v.1 r) res vs ∧ vs `sublist_of` agreeing cube (reports [] (omap id l))
    ∧ (op = EVENT_PRECEDES ∨ (∀ k k' X X', k ≠ k' → palloc k X ≠ palloc k' X') → vs = agreeing cube (reports [] (omap id l))).
Proof.
  intros Hc Hpos Hroom Hst Hsort Hfit Hk. pose proof (init_idle root cube q room vl srcs o Hroom Hc) as Hn. destruct (sorted_ascending _ Hsort) as [ts Hts].
  assert (tracks op d i1 i2 ([] : list (tuple HT)) ts nothing) as Ht by (constructor; by destruct op). set (polls := replicate k (None : option (tuple HT))).
  assert (omap id (l ++ polls) = omap id l) as Eo.
  { unfold polls. rewrite omap_app. rewrite <- (app_nil_r (omap id l)) at 2. f_equal. clear. induction k as [|k IH]; [done|exact IH]. }
  destruct (run_pairs Hpos (acts ++ replicate k Poll) (l ++ polls) _ q empty_store nothing nothing [] ts Hn) as (F & res & n' & vs & E & Hres & Hsub & Hall).
  - split; [exists []; apply empty_good|constructor].
  - split; [done|]. split; [done|]. by split.
  - done.
  - by rewrite Eo.
  - apply Forall2_app; [done|]. unfold polls. clear. induction k; by constructor.
  - by apply fits_drain.
  - exists F, res, n', vs. split; [exact E|]. split; [exact Hres|]. rewrite Eo in Hsub. split; [exact Hsub|]. intros Hcond. rewrite Hall by (intros ?; by destruct Hcond).
    pose proof (answers_reports op d i1 i2 Hne Hpos Hop cube l [] ts nothing Ht Hts) as Er. rewrite answers_app. unfold polls. rewrite answers_drain; [exact Er|].
    assert (length (agreeing cube (reports [] (omap id l))) ≤ k)%nat by (etrans; [apply length_filter|exact Hk]).
    apply (f_equal length) in Er. rewrite !length_app in Er. change (length (agreeing cube (found nothing))) with 0%nat in Er. cbn [m_found two_machine]. lia.
Qed.
End answer.
End EventsAnswer.
