(* ===== verification/EventsWait.v ===== *)
(** * Event aggregates: events without another

    [EventsNot]: the work of [NOTFOLLOWS] and [NOTPRECEDES] at an entry.  [EventsWait]: their
    calls over two streams as steps of the lists of values. *)

From S2P Require Import Prelude BitArray GSFilter Eddy EddyGSF Stem StemSpec Window WindowSpec Events EventsMem EventsInv EventsStep EventsRead EventsThm EventsRun EventsTwo EventsAnswer.

(** * Event aggregates: events without another

    [NOTFOLLOWS] and [NOTPRECEDES] over two streams: what the work at the node does to
    the entries of the left stream, with their flags, and to the requests for timeouts. *)

Module EventsNot.
Import Bit Eddy Stem StemSpec Window WindowSpec Events EventsMem EventsInv EventsStep EventsRead EventsThm EventsRun EventsMatch EventsTwo.
Local Open Scope Z_scope.

(** ** The entries of the left stream *)

Section spec.
Context {HT : Type} `{!EventEnv HT}.
Context (d : Interval) (cube : ExprCube).
Implicit Types (v : AEvent HT) (vs : list (AEvent HT)).

(** An event, whether it is done with, and whether it has requested a timeout. *)
Record Waiter : Type := mkWaiter { value : AEvent HT; is_done : bool; has_requested : bool }.
Implicit Types a : Waiter.

(** The event that ends the wait of [v]: later, within the delay, of the same partition. *)
Definition ends_wait v v2 : bool := negb (v.2 =? v2.2) && agrees cube (merged v.1 v2.1) && (v2.2 <=? v.2 + time d).
(** The event that [v] comes too soon after. *)
Definition too_soon v v2 : bool := agrees cube (merged v.1 v2.1) && (v.2 <? v2.2 + time d).

Definition waited (ts : Z) vs a : Waiter :=
  if is_done a then a
  else if existsb (ends_wait (value a)) vs then mkWaiter (value a) true (has_requested a)
  else if (value a).2 + time d <? ts then mkWaiter (value a) true (has_requested a)
  else mkWaiter (value a) false true.
Definition gives_up (ts : Z) vs a : list (AEvent HT) :=
  if is_done a || existsb (ends_wait (value a)) vs then [] else if (value a).2 + time d <? ts then [value a] else [].
Definition requests (ts : Z) vs a : list (node * Z) :=
  if is_done a || existsb (ends_wait (value a)) vs then [] else if (value a).2 + time d <? ts then []
  else if has_requested a then [] else [([], (value a).2 + time d)].
(** The same for [NOTPRECEDES], which looks at an event once. *)
Definition looked_at a : Waiter := if is_done a then a else mkWaiter (value a) true (has_requested a).
Definition comes_alone vs a : list (AEvent HT) := if is_done a || existsb (too_soon (value a)) vs then [] else [value a].
End spec.
Arguments Waiter : clear implicits.

Section evaluation.
Context {HT : Type} `{Hcal : !Calendar} `{Hpal : !Palloc} `{Henv : !EventEnv HT} `{Hfresh : !PallocFresh}.
Context (root : EventExpr) (R : list nat) (d : Interval) (Hd : delay_ok d) (cube : ExprCube) (Hcube : cube_ok cube).
Implicit Types (st : Store HT) (e : Event) (bt ee : nat) (p q : node) (v : AEvent HT) (vs : list (AEvent HT)) (a : Waiter HT).

Lemma terminated_eval L st e1 v1 l2 vs : counted L st → known st e1 → time_ok (event_timestamp e1) → is_event (base_tuples st) e1 v1 →
  Forall2 (holds st) l2 vs → (∀ ee x, ee ∈ l2 → entries st !! ee = Some x → known st (event x)) → Forall (λ v2, apart v1.1 v2.1) vs →
  terminated cube d e1 l2 st = Ok (existsb (ends_wait d cube v1) vs, st).
Proof.
  intros C K1 Ht V1. induction 1 as [|ee2 v2 l2 vs (x2 & Hx2 & V2) _ IH]; intros Hk Ha; [done|]. apply Forall_cons in Ha as [Ha12 Ha].
  specialize (IH ltac:(intros ee x Hin; apply Hk; by right) Ha). cbn [terminated existsb]. unfold get_entry. rewrite Hx2. cbn [access cbind].
  rewrite (reads_no_conflict _ _ _ _ _ V1 V2 Ha12). assert (passAdditionalNotFollowsTest e1 (event x2) = negb (v1.2 =? v2.2)) as ->.
  { unfold passAdditionalNotFollowsTest, ts_equals. destruct V1 as [_ ->], V2 as [_ ->]. done. }
  unfold ends_wait at 1. destruct (v1.2 =? v2.2); cbn [negb andb orb]; [exact IH|].
  rewrite (are_consistent_eval cube L st e1 (event x2) v1 v2); [|done|done|done|by apply (Hk ee2); [left|]|done..]. cbn [cbind].
  destruct (agrees cube (merged v1.1 v2.1)); cbn [negb andb orb]; [|exact IH]. rewrite (plus_ok _ _ Ht Hd). cbn [cbind]. unfold ts_geq.
  destruct V1 as [_ ->], V2 as [_ ->]. by destruct (v2.2 <=? v1.2 + time d).
Qed.

Lemma preceded_eval L st e1 v1 l2 vs : counted L st → known st e1 → is_event (base_tuples st) e1 v1 →
  Forall2 (holds st) l2 vs → (∀ ee x, ee ∈ l2 → entries st !! ee = Some x → known st (event x) ∧ time_ok (event_timestamp (event x))) → Forall (λ v2, apart v1.1 v2.1) vs →
  preceded cube d e1 l2 st = Ok (existsb (too_soon d cube v1) vs, st).
Proof.
  intros C K1 V1. induction 1 as [|ee2 v2 l2 vs (x2 & Hx2 & V2) _ IH]; intros Hk Ha; [done|]. apply Forall_cons in Ha as [Ha12 Ha].
  specialize (IH ltac:(intros ee x Hin; apply Hk; by right) Ha). destruct (Hk ee2 x2 ltac:(by left) Hx2) as [K2 Ht2].
  cbn [preceded existsb]. unfold get_entry. rewrite Hx2. cbn [access cbind]. rewrite (reads_no_conflict _ _ _ _ _ V1 V2 Ha12).
  rewrite (are_consistent_eval cube L st e1 (event x2) v1 v2) by done. cbn [cbind]. unfold too_soon at 1.
  destruct (agrees cube (merged v1.1 v2.1)); cbn [negb andb orb]; [|exact IH]. rewrite (plus_ok _ _ Ht2 Hd). cbn [cbind]. unfold ts_geq.
  destruct V1 as [_ ->], V2 as [_ ->]. rewrite Z.leb_antisym, negb_involutive. by destruct (v1.2 <? v2.2 + time d).
Qed.

(** An entry, with its flags. *)
Definition status st ee a : Prop :=
  ∃ x, entries st !! ee = Some x ∧ is_event (base_tuples st) (event x) (value a) ∧ marked x = is_done a ∧ requestedTimeout x = has_requested a.

Lemma status_holds st ee a : status st ee a → holds st ee (value a).
Proof. intros (x & Hx & Hv & _). by exists x. Qed.
Lemma status_same st st' ee a : base_tuples st' = base_tuples st → (∀ x, entries st !! ee = Some x → entries st' !! ee = Some x) → status st ee a → status st' ee a.
Proof. intros B E (x & Hx & Hv & Hm & Hr). exists x. rewrite B. split; [auto|done]. Qed.

(** What a step at the root for the entry [ee] does: [a] are its flags then, [fs] the events
    found, [rs] the requests. *)
Record stepped held st0 st st' ee a (fs : list (AEvent HT)) (rs : list (node * Z)) : Prop := {
  sp_worked : Worked root R held [] st0 st';
  sp_status : status st' ee a;
  sp_found : ∃ new, get_out st' [] = get_out st [] ++ new ∧ Forall2 (holds st') new fs ∧ ∀ b, b ∈ new → entries st0 !! b = None;
  sp_requests : timeoutRequests st' = timeoutRequests st ++ rs;
  sp_others ee' x : ee' ≠ ee → entries st !! ee' = Some x → entries st' !! ee' = Some x
}.

Lemma worked_base held st0 st st' : Worked root R held [] st0 st → Worked root R held [] st0 st' → base_tuples st' = base_tuples st.
Proof. intros W W'. by rewrite (af_base _ _ _ (wk_after _ _ _ _ _ _ W')), (af_base _ _ _ (wk_after _ _ _ _ _ _ W)). Qed.

Lemma stepped_nothing held st0 st ee a : Worked root R held [] st0 st → status st ee a → stepped held st0 st st ee a [] [].
Proof. intros W Hs. constructor; [done|done| |by rewrite app_nil_r|done]. exists []. rewrite app_nil_r. split; [done|]. split; [constructor|]. intros b Hb. by apply elem_of_nil in Hb. Qed.

(** The flags are set. *)
Lemma stepped_flags held st0 st ee x y a : Worked root R held [] st0 st → entries st !! ee = Some x → event y = event x →
  (requestedTimeout x = true → requestedTimeout y = true) → is_event (base_tuples st) (event x) (value a) → marked y = is_done a → requestedTimeout y = has_requested a →
  stepped held st0 st (set_entry st ee y) ee a [] [].
Proof.
  intros W Hx Ey Hr Hv Hm Hreq. constructor.
  - by apply (worked_entry root R held [] st0 st ee x).
  - exists y. cbn. rewrite lookup_insert_eq, Ey. done.
  - exists []. rewrite app_nil_r. split; [done|]. split; [constructor|]. intros b Hb. by apply elem_of_nil in Hb.
  - by rewrite app_nil_r.
  - intros ee' z Hne Hz. cbn. by rewrite lookup_insert_ne.
Qed.

(** The event is found. *)
Lemma stepped_detect held st0 st ee x a : Worked root R held [] st0 st → entries st !! ee = Some x → is_event (base_tuples st) (event x) (value a) →
  marked x = is_done a → requestedTimeout x = has_requested a → ∃ r, replicateEvent (event x) st = Ok r ∧ stepped held st0 st (detect [] r) ee a [value a] [].
Proof.
  intros W Hx Hv Hm Hreq. pose proof (wk_inv _ _ _ _ _ _ W) as I. pose proof (iv_known root R held st ee x I Hx) as Hk.
  destruct (iv_event _ _ _ _ I ee x Hx) as (_ & Ht & HR). destruct (replicate_ok _ st (event x) (iv_counted _ _ _ _ I) Hk) as (t & pins & -> & Et & C).
  set (e' := mkEvent t (event_timestamp (event x))) in *. assert (pointers e' = pointers (event x)) as Ep by (unfold pointers, e'; cbn; by rewrite Et).
  assert (Worked root R held [] st0 (detect [] (e', set_pins st pins))) as W1.
  { apply worked_detect; [done|by rewrite Ep|unfold ev_ok, e'; cbn; rewrite Et; apply Hk|done|by rewrite Ep]. }
  destruct (detect_at [] st pins e') as (b & Hb & Eo & Etm & Ee & Eb & _). eexists. split; [reflexivity|]. set (st1 := detect [] (e', set_pins st pins)) in *. clearbody st1.
  constructor.
  - done.
  - exists x. rewrite Ee, lookup_insert_ne, Eb by congruence. done.
  - exists [b]. split; [unfold get_out at 1; by rewrite Eo, lookup_insert_eq|]. split.
    + constructor; [|done]. exists (new_entry e'). rewrite Ee, lookup_insert_eq, Eb. split; [done|]. destruct Hv as [Hv1 Hv2]. split; [unfold e'; cbn; by rewrite Et|done].
    + intros c ->%list_elem_of_singleton. destruct (entries st0 !! b) as [z|] eqn:Ez; [|done]. destruct (wk_kept _ _ _ _ _ _ W b z Ez) as (z' & Hz' & _). congruence.
  - by rewrite Etm, app_nil_r.
  - intros ee' z Hne' Hz. by rewrite Ee, lookup_insert_ne by congruence.
Qed.

Lemma stepped_trans held st0 st st1 st2 ee a1 a2 fs1 fs2 rs1 rs2 : is_Some (entries st0 !! ee) → stepped held st0 st st1 ee a1 fs1 rs1 → stepped held st0 st1 st2 ee a2 fs2 rs2 →
  stepped held st0 st st2 ee a2 (fs1 ++ fs2) (rs1 ++ rs2).
Proof.
  intros [z0 H0] [W1 S1 (new1 & O1 & F1 & N1) R1 K1] [W2 S2 (new2 & O2 & F2 & N2) R2 K2]. pose proof (worked_base held st0 st1 st2 W1 W2) as B2.
  constructor; [done|done| | |auto].
  - exists (new1 ++ new2). rewrite O2, O1. split; [by rewrite app_assoc|]. split; [|intros c [Hc|Hc]%elem_of_app; auto].
    apply Forall2_app; [|done]. eapply Forall2_in; [exact F1|]. intros c v Hc (x & Hx & Hv). exists x. rewrite B2. split; [|done]. apply K2; [|done].
    intros ->. rewrite (N1 ee Hc) in H0. done.
  - rewrite R2, R1. by rewrite app_assoc.
Qed.

(** Its entry is marked afterwards. *)
Lemma stepped_found held st0 st ee x a : Worked root R held [] st0 st → is_Some (entries st0 !! ee) → entries st !! ee = Some x → is_event (base_tuples st) (event x) (value a) →
  requestedTimeout x = has_requested a → is_done a = true →
  ∃ r st', replicateEvent (event x) st = Ok r ∧ mark (detect [] r) ee = Ok st' ∧ stepped held st0 st st' ee a [value a] [].
Proof.
  intros W H0 Hx Hv Hreq Hdone. destruct (stepped_detect held st0 st ee x (mkWaiter (value a) (marked x) (has_requested a)) W Hx Hv eq_refl Hreq) as (r & -> & S).
  pose proof S as [W1 (x1 & Hx1 & Hv1 & Hm1 & Hr1) _ _ _]. eexists r, _. split; [done|]. split; [unfold mark, get_entry; rewrite Hx1; reflexivity|].
  apply (stepped_trans held st0 st (detect [] r) _ ee (mkWaiter (value a) (marked x) (has_requested a)) a [value a] [] [] []); [done|done|].
  by apply (stepped_flags held st0 (detect [] r) ee x1).
Qed.

Lemma not_followed_step held st0 st l2 vs ee a ts (dt : bool) : Worked root R held [] st0 st → ee ∈ get_out st0 lnode → is_Some (entries st0 !! ee) → is_Some (node_at root []) →
  status st ee a → Forall2 (holds st) l2 vs → Forall (λ v2, apart (value a).1 v2.1) vs →
  ∃ b st', not_followed cube d [] ts l2 ee (dt, st) = Ok (b, st') ∧ stepped held st0 st st' ee (waited d cube ts vs a) (gives_up d cube ts vs a) (requests d cube ts vs a).
Proof.
  intros W Hin H0 Hroot (x & Hx & Hv & Hm & Hr) Hl2 Hap. pose proof (wk_inv _ _ _ _ _ _ W) as I. pose proof (iv_known root R held st ee x I Hx) as Hk.
  destruct (iv_event _ _ _ _ I ee x Hx) as (_ & Ht & HR). unfold not_followed, get_entry. rewrite Hx. cbn [access cbind]. rewrite Hm.
  unfold waited, gives_up, requests. destruct (is_done a) eqn:Ed; cbn [orb]; [exists dt, st; split; [done|]; apply stepped_nothing; [done|]; exists x; by rewrite Ed|].
  rewrite (plus_ok _ _ Ht Hd). cbn [cbind]. rewrite (terminated_eval _ st (event x) (value a) l2 vs (iv_counted _ _ _ _ I)); [|done..|by intros; eapply iv_known|done].
  cbn [cbind]. destruct (existsb (ends_wait d cube (value a)) vs).
  { unfold mark, get_entry. rewrite Hx. cbn [access cbind]. eexists dt, _. split; [reflexivity|]. by apply (stepped_flags held st0 st ee x). }
  destruct Hv as [Hv1 Hv2]. rewrite Hv2. unfold ts_geq. rewrite <- Z.ltb_antisym. destruct ((value a).2 + time d <? ts) eqn:Els.
  - destruct (stepped_found held st0 st ee x (mkWaiter (value a) true (has_requested a)) W H0 Hx) as (r & st' & -> & Em & S); [by split|done..|]. cbn [cbind]. rewrite Em. cbn [cbind]. by exists true, st'.
  - rewrite Hr. destruct (has_requested a) eqn:Er; cbn [negb].
    + exists dt, st. split; [done|]. apply stepped_nothing; [done|]. by exists x.
    + assert (entries (MakeTimeoutRequest [] ((value a).2 + time d) st) !! ee = Some x) as -> by done. cbn [access cbind]. eexists dt, _. split; [reflexivity|]. constructor.
      * apply (worked_request root R held [] LChild st0 st ee x); [done..|]. by rewrite (wk_other _ _ _ _ _ _ W).
      * eexists. split; [cbn; apply lookup_insert_eq|]. by rewrite <- Hm.
      * exists []. rewrite app_nil_r. split; [done|]. split; [constructor|]. intros b Hb. by apply elem_of_nil in Hb.
      * done.
      * intros ee' z Hne Hz. cbn. by rewrite lookup_insert_ne.
Qed.

Lemma not_preceded_step held st0 st l2 vs ee a (dt : bool) : Worked root R held [] st0 st → is_Some (entries st0 !! ee) →
  status st ee a → Forall2 (holds st) l2 vs → ee ∉ l2 → Forall (λ v2, apart (value a).1 v2.1) vs →
  ∃ b st', not_preceded cube d [] l2 ee (dt, st) = Ok (b, st') ∧ stepped held st0 st st' ee (looked_at a) (comes_alone d cube vs a) [].
Proof.
  intros W H0 (x & Hx & Hv & Hm & Hr) Hl2 Hnot Hap. unfold not_preceded, get_entry, looked_at, comes_alone. rewrite Hx. cbn [access cbind]. rewrite Hm.
  destruct (is_done a) eqn:Hdone; cbn [orb]; [exists dt, st; split; [done|]; apply stepped_nothing; [done|]; exists x; by rewrite Hdone|].
  unfold mark, get_entry. rewrite Hx. cbn [access cbind]. set (x' := mkEntry _ _ _ true). set (st1 := set_entry st ee x').
  assert (stepped held st0 st st1 ee (mkWaiter (value a) true (has_requested a)) [] []) as S1 by (by apply (stepped_flags held st0 st ee x)).
  pose proof (sp_worked _ _ _ _ _ _ _ _ S1) as W1. pose proof (wk_inv _ _ _ _ _ _ W1) as I1.
  assert (entries st1 !! ee = Some x') as Hx1 by (cbn; apply lookup_insert_eq).
  rewrite (preceded_eval _ st1 (event x) (value a) l2 vs (iv_counted _ _ _ _ I1)); [|by apply (iv_known root R held st1 ee x' I1)|done| | |done].
  2: { eapply Forall2_in; [exact Hl2|]. intros c v2 Hc (x2 & Hx2 & Hv2). exists x2. split; [|done]. cbn. rewrite lookup_insert_ne; [done|]. by intros ->. }
  2: { intros c z _ Hz. split; [by apply (iv_known root R held st1 c)|]. by destruct (iv_event _ _ _ _ I1 c z Hz) as (_ & ? & _). }
  cbn [cbind]. destruct (existsb (too_soon d cube (value a)) vs); [by exists dt, st1|].
  destruct (stepped_detect held st0 st1 ee x' (mkWaiter (value a) true (has_requested a)) W1 Hx1 Hv eq_refl Hr) as (r & Er & S).
  change (event x) with (event x'). rewrite Er. cbn [cbind]. exists true, (detect [] r). split; [done|].
  by apply (stepped_trans held st0 st st1 _ ee (mkWaiter (value a) true (has_requested a)) _ [] [value a] [] []).
Qed.

(** ** The loop *)

(** The steps for the entries of a list, one after the other. *)
Lemma steps_loop held st0 l2 vs (f : nat → bool * Store HT → cres (bool * Store HT)) (next : Waiter HT → Waiter HT) (fs : Waiter HT → list (AEvent HT)) (rs : Waiter HT → list (node * Z)) :
  (∀ st ee a dt, Worked root R held [] st0 st → ee ∈ get_out st0 lnode → is_Some (entries st0 !! ee) → status st ee a → Forall2 (holds st) l2 vs → ee ∉ l2 →
    Forall (λ v2, apart (value a).1 v2.1) vs → ∃ b st', f ee (dt, st) = Ok (b, st') ∧ stepped held st0 st st' ee (next a) (fs a) (rs a)) →
  ∀ l1 ws (dt : bool) st, Worked root R held [] st0 st →
  (∀ ee, ee ∈ l1 → ee ∈ get_out st0 lnode ∧ is_Some (entries st0 !! ee)) → NoDup l1 → Forall2 (status st) l1 ws → (∀ ee, ee ∈ l2 → ee ∉ l1) → Forall2 (holds st) l2 vs →
  Forall (λ a, Forall (λ v2, apart (value a).1 v2.1) vs) ws →
  ∃ b st', foreach f l1 (dt, st) = Ok (b, st') ∧ Worked root R held [] st0 st' ∧ Forall2 (status st') l1 (next <$> ws)
    ∧ (∃ new, get_out st' [] = get_out st [] ++ new ∧ Forall2 (holds st') new (ws ≫= fs) ∧ ∀ b, b ∈ new → entries st0 !! b = None)
    ∧ timeoutRequests st' = timeoutRequests st ++ (ws ≫= rs) ∧ (∀ ee x, ee ∉ l1 → entries st !! ee = Some x → entries st' !! ee = Some x).
Proof.
  intros Hstep. induction l1 as [|ee l1 IH]; intros ws dt st W Hl1 Hnd Hst Hdis Hl2 Hap.
  { apply Forall2_nil_inv_l in Hst as ->. exists dt, st. split; [done|]. split; [done|]. split; [constructor|].
    split; [exists []; rewrite app_nil_r; split; [done|]; split; [constructor|]; intros b Hb; by apply elem_of_nil in Hb|]. cbn. by rewrite app_nil_r. }
  apply Forall2_cons_inv_l in Hst as (a & ws' & Ha & Hst & ->). apply NoDup_cons in Hnd as [Hnot Hnd]. apply Forall_cons in Hap as [Hapa Hap].
  destruct (Hl1 ee ltac:(by left)) as [Hin H0].
  destruct (Hstep st ee a dt W Hin H0 Ha Hl2 ltac:(intros Hee; apply (Hdis ee Hee); by left) Hapa) as (b1 & st1 & E1 & [W1 S1 (new1 & O1 & F1 & N1) R1 K1]). cbn [foreach]. rewrite E1. cbn [cbind].
  pose proof (worked_base held st0 st st1 W W1) as B1.
  destruct (IH ws' b1 st1 W1) as (b2 & st2 & E2 & W2 & S2 & (new2 & O2 & F2 & N2) & R2 & K2).
  { intros c Hc. apply Hl1. by right. }
  { done. }
  { eapply Forall2_in; [exact Hst|]. intros c w Hc Hw. apply (status_same st); [done| |done]. intros x. apply K1. by intros ->. }
  { intros c Hc Hc'. apply (Hdis c Hc). by right. }
  { eapply Forall2_in; [exact Hl2|]. intros c v Hc (x & Hx & Hv). exists x. rewrite B1. split; [|done]. apply K1; [|done]. intros ->. apply (Hdis ee Hc). by left. }
  { done. }
  pose proof (worked_base held st0 st1 st2 W1 W2) as B2. exists b2, st2. split; [exact E2|]. split; [done|]. split.
  { rewrite fmap_cons. constructor; [|done]. apply (status_same st1); [done| |done]. intros x. by apply K2. }
  split; [|split].
  - exists (new1 ++ new2). rewrite O2, O1, bind_cons. split; [by rewrite app_assoc|]. split.
    + apply Forall2_app; [|done]. eapply Forall2_in; [exact F1|]. intros c v Hc (x & Hx & Hv). exists x. rewrite B2. split; [|done]. apply K2; [|done].
      intros Hc'. destruct (Hl1 c ltac:(by right)) as [_ [z Hz]]. rewrite (N1 c Hc) in Hz. done.
    + intros c [Hc|Hc]%elem_of_app; auto.
  - rewrite R2, R1, bind_cons. by rewrite app_assoc.
  - intros c x Hc Hx. apply not_elem_of_cons in Hc as [Hc1 Hc2]. auto.
Qed.
End evaluation.
End EventsNot.

(** * Event aggregates: two streams without pairs

    An arrival and a request for a result, for [NOTFOLLOWS] and [NOTPRECEDES] over two
    streams, as steps of the lists of values. *)


Module EventsWait.
Import Bit Eddy Stem StemSpec Window WindowSpec Events EventsMem EventsInv EventsStep EventsRead EventsThm EventsRun EventsMatch EventsTwo EventsPairs EventsNot.
Local Open Scope Z_scope.

Section spec.
Context {HT : Type} `{!EventEnv HT}.
Context (op : EventOperator) (d : Interval) (i1 i2 : nat) (cube : ExprCube).

(** The entries of the left stream, the events of the right one that are kept, those found
    and not asked for, and the times for which timeouts have been requested. *)
Record Nots : Type := mkNots { waiters : list (Waiter HT); others : list (AEvent HT); founds : list (AEvent HT); pending : list Z }.
Implicit Types w : Nots.

(** The work at the node, when the last timestamp seen is [ts]. *)
Definition construct_nots (ts : Z) w : Nots :=
  match op with
  | EVENT_NOTFOLLOWS =>
      mkNots (waited d cube ts (others w) <$> waiters w) [] (founds w ++ (waiters w ≫= gives_up d cube ts (others w)))
        (pending w ++ (waiters w ≫= requests d cube ts (others w)).*2)
  | _ => mkNots [] (others w) (founds w ++ (waiters w ≫= comes_alone d cube (others w))) (pending w)
  end.

Definition expire_nots (ts : Z) w : Nots :=
  match op with
  | EVENT_NOTFOLLOWS => mkNots (filter (λ a, stays d ts (value a)) (waiters w)) [] (founds w) (pending w)
  | _ => mkNots [] (filter (stays d ts) (others w)) (founds w) (pending w)
  end.

(** The requests whose time has come. *)
Definition serve_nots (ts : Z) w : Nots :=
  let w1 := if existsb (λ u, u <=? ts) (pending w) then construct_nots ts w else w in
  mkNots (waiters w1) (others w1) (founds w1) (filter (λ u, ts < u) (pending w)).

Definition arrive_nots (i : nat) (h : HT) (ts : Z) w : Nots :=
  let w1 := expire_nots ts (serve_nots ts w) in
  let v := single i h ts in
  if decide (i = i1) then construct_nots ts (mkNots (waiters w1 ++ [mkWaiter v false false]) (others w1) (founds w1) (pending w1))
  else if decide (i = i2) then construct_nots ts (mkNots (waiters w1) (others w1 ++ [v]) (founds w1) (pending w1))
  else w1.

Definition take_nots (vs : list (AEvent HT)) w : Nots := mkNots (waiters w) (others w) vs (pending w).
Definition size_nots w : nat := (length (waiters w) + length (others w) + length (founds w))%nat.
End spec.
Arguments Nots : clear implicits.

Definition not_op (op : EventOperator) : bool := match op with EVENT_NOTFOLLOWS | EVENT_NOTPRECEDES => true | _ => false end.

Section nots.
Context {HT : Type} `{Hcal : !Calendar} `{Hpal : !Palloc} `{Henv : !EventEnv HT} `{Hfresh : !PallocFresh}.
Context (op : EventOperator) (d : Interval) (Hd : delay_ok d) (i1 i2 : nat) (Hi1 : (i1 < TCQMAXSOURCES)%nat) (Hi2 : (i2 < TCQMAXSOURCES)%nat) (Hne : i1 ≠ i2).
Context (cube : ExprCube) (Hcube : cube_ok cube) (Hop : not_op op = true).
Implicit Types (st : Store HT) (e : Event) (bt ee : nat) (p q : node) (v : AEvent HT) (w : Nots HT) (a : Waiter HT) (t : IHT HT).
Local Abbreviation root := (two_root op d i1 i2).

Record nshows st w : Prop := {
  ns_left : Forall2 (status st) (get_out st lnode) (waiters w);
  ns_right : listed st rnode (others w);
  ns_found : listed st [] (founds w);
  ns_only p : p ≠ [] → p ≠ lnode → p ≠ rnode → get_out st p = [];
  ns_lefts : Forall (λ a, of_stream i1 (value a)) (waiters w);
  ns_rights : Forall (of_stream i2) (others w);
  ns_requests : timeoutRequests st = pair [] <$> pending w
}.

(** The lists as they are when less is on them. *)
Lemma statuses_kept st st' (l : list nat) ws : base_tuples st' = base_tuples st → (∀ ee x, ee ∈ l → entries st !! ee = Some x → entries st' !! ee = Some x) →
  Forall2 (status st) l ws → Forall2 (status st') l ws.
Proof. intros B E Hs. eapply Forall2_in; [exact Hs|]. intros ee a Hin Ha. apply (status_same st); [done| |done]. intros x. by apply E. Qed.

Lemma nshows_same st st' w : same_lists st st' → nshows st w → nshows st' w.
Proof.
  intros [Eo Ee Eb Et _] [Hl Hr Hf Ho Fl Fr Hq].
  assert (∀ p, get_out st' p = get_out st p) as Hout by (intros p; unfold get_out; by rewrite Eo).
  assert (∀ ee x v, entries st !! ee = Some x → is_event (base_tuples st) (event x) v → is_event (base_tuples st') (event x) v) as Hev.
  { intros ee x v Hx [Hv1 Hv2]. split; [|done]. eapply reads_mono; [|exact Hv1]. intros b Hb. apply Eb. apply elem_of_refs. exists ee, x. split; [done|]. by apply elem_of_pointers. }
  assert (∀ p vs, listed st p vs → listed st' p vs) as Hlisted.
  { intros p vs Hp. unfold listed. rewrite Hout. eapply Forall2_impl; [exact Hp|]. intros ee v (x & Hx & Hv). exists x. rewrite Ee. split; [done|]. by apply (Hev ee). }
  constructor; try by apply Hlisted. 3,4: done.
  - rewrite Hout. eapply Forall2_impl; [exact Hl|]. intros ee a (x & Hx & Hv & Hm). exists x. rewrite Ee. split; [done|]. split; [by apply (Hev ee)|done].
  - intros p P1 P2 P3. rewrite Hout. by apply Ho.
  - congruence.
Qed.

Lemma empty_nots (s : side) R held st w : Inv root R held st → nshows st w →
  ∃ st', expire_all st [s] = Ok st' ∧ Inv root R held st' ∧ base_tuples st' = base_tuples st
    ∧ nshows st' (match s with LChild => mkNots [] (others w) (founds w) (pending w) | RChild => mkNots (waiters w) [] (founds w) (pending w) end).
Proof.
  intros I [Hl Hr Hf Ho Fl Fr Hq]. destruct (expire_all_listed root R held st [s] I) as (st' & E & I' & L & He & K). exists st'.
  split; [done|]. split; [done|]. split; [apply L|].
  assert (∀ q vs, q ≠ [s] → listed st q vs → listed st' q vs) as Hlisted by (intros q vs Hqs; apply only_less_listed; [done|by apply K]).
  assert (∀ p, p ≠ [] → p ≠ lnode → p ≠ rnode → get_out st' p = []) as Ho' by (intros p P1 P2 P3; apply (only_less_empty st); [done|by apply Ho]).
  assert (timeoutRequests st' = pair [] <$> pending w) as Hq' by (by rewrite (ol_timeouts _ _ L)).
  destruct s; constructor; cbn [waiters others founds pending]; try done.
  - unfold lnode. by rewrite He.
  - by apply Hlisted.
  - by apply Hlisted.
  - change lnode with [LChild]. rewrite K by done. eapply statuses_kept; [apply L| |exact Hl]. intros ee x Hin Hx. apply (ol_kept _ _ L lnode); [|done]. by rewrite K.
  - by apply only_less_same.
  - by apply Hlisted.
Qed.

(** The steps for the entries of the left list. *)
Lemma walk_nots R held st w (f : nat → bool * Store HT → cres (bool * Store HT)) (next : Waiter HT → Waiter HT) fs (rs : Waiter HT → list (node * Z)) :
  Inv root R held st → nshows st w → (∀ a, value (next a) = value a) → (∀ a r, r ∈ rs a → r.1 = []) →
  (∀ st1 ee a dt, Worked root R held [] st st1 → ee ∈ get_out st lnode → is_Some (entries st !! ee) → status st1 ee a → Forall2 (holds st1) (get_out st rnode) (others w) → ee ∉ get_out st rnode →
    Forall (λ v2, apart (value a).1 v2.1) (others w) → ∃ b st', f ee (dt, st1) = Ok (b, st') ∧ stepped root R held st st1 st' ee (next a) (fs a) (rs a)) →
  ∃ b st', foreach f (get_out st lnode) (false, st) = Ok (b, st') ∧ Inv root R held st' ∧ base_tuples st' = base_tuples st
    ∧ nshows st' (mkNots (next <$> waiters w) (others w) (founds w ++ (waiters w ≫= fs)) (pending w ++ (waiters w ≫= rs).*2)).
Proof.
  intros I [Hl Hr Hf Ho Fl Fr Hq] Hnext Hrs Hstep.
  assert (∀ ee, ee ∈ get_out st rnode → ee ∉ get_out st lnode) as Hdis by (intros ee H1 H2; by pose proof (iv_apart root R held st _ _ _ I H1 H2)).
  destruct (steps_loop root R held st (get_out st rnode) (others w) f next fs rs Hstep (get_out st lnode) (waiters w) false st) as (b & st' & E & W & S & (new & O & F & N) & T & K).
  - by apply worked_refl.
  - intros ee Hee. split; [done|]. by apply (iv_listed root R held st lnode).
  - by apply (iv_NoDup_out root R held).
  - done.
  - done.
  - done.
  - rewrite Forall_forall in Fl |- *. intros a Ha. rewrite Forall_forall in Fr |- *. intros v Hv. apply (streams_apart i1 i2 Hne); auto.
  - exists b, st'. split; [done|]. split; [apply W|]. pose proof (af_base _ _ _ (wk_after _ _ _ _ _ _ W)) as B. split; [done|].
    assert (∀ q vs, q ≠ lnode → listed st q vs → Forall2 (holds st') (get_out st q) vs) as Hlisted.
    { intros q vs Hqn Hv. eapply Forall2_in; [exact Hv|]. intros ee v Hin (x & Hx & Hx'). exists x. rewrite B. split; [|done]. apply K; [|done].
      intros Hn. by apply Hqn, (iv_apart root R held st q lnode ee). }
    constructor; cbn [waiters others founds pending].
    + by rewrite (wk_other _ _ _ _ _ _ W).
    + unfold listed. rewrite (wk_other _ _ _ _ _ _ W) by done. by apply Hlisted.
    + unfold listed. rewrite O. apply Forall2_app; [by apply Hlisted|done].
    + intros p P1 P2 P3. rewrite (wk_other _ _ _ _ _ _ W) by done. by apply Ho.
    + apply Forall_fmap. eapply Forall_impl; [exact Fl|]. intros a. unfold compose. by rewrite Hnext.
    + done.
    + rewrite T, Hq, fmap_app. f_equal. assert (∀ r, r ∈ waiters w ≫= rs → r.1 = []) as Hall by (intros r (a & Hra & _)%list_elem_of_bind; by eapply Hrs).
      revert Hall. generalize (waiters w ≫= rs) as l. induction l as [|[q u] l IH]; intros Hall; [done|]. rewrite !fmap_cons, <- IH by (intros r Hrl; apply Hall; by right).
      pose proof (Hall (q, u) ltac:(by left)) as Eq. cbn in Eq |- *. by rewrite Eq.
Qed.

Lemma two_nots : op = EVENT_NOTFOLLOWS ∨ op = EVENT_NOTPRECEDES.
Proof. destruct op; try done; [by left|by right]. Qed.

Lemma construct_nots_ok R held st w ts : Inv root R held st → nshows st w →
  ∃ st', constructComplexEvents cube root [] ts st = Ok st' ∧ Inv root R held st' ∧ base_tuples st' = base_tuples st ∧ nshows st' (construct_nots op d cube ts w).
Proof.
  intros I Hs. unfold two_root. cbn [constructComplexEvents node_at access cbind]. fold root.
  assert (∃ b st', construct_here cube op d [] ts st = Ok (b, st') ∧ Inv root R held st' ∧ base_tuples st' = base_tuples st ∧ nshows st' (construct_nots op d cube ts w)) as (b & st' & -> & H');
    [|by exists st'].
  destruct (two_nots) as [Eop|Eop].
  - assert (construct_here cube op d [] ts st = let! (detected, st1) := foreach (not_followed cube d [] ts (get_out st rnode)) (get_out st lnode) (false, st) in
      let! st2 := expire_all st1 rnode in Ok (detected, st2)) as -> by (by rewrite Eop).
    assert (construct_nots op d cube ts w = mkNots (waited d cube ts (others w) <$> waiters w) [] (founds w ++ (waiters w ≫= gives_up d cube ts (others w)))
        (pending w ++ (waiters w ≫= requests d cube ts (others w)).*2)) as -> by (by rewrite Eop).
    destruct (walk_nots R held st w (not_followed cube d [] ts (get_out st rnode)) (waited d cube ts (others w)) (gives_up d cube ts (others w)) (requests d cube ts (others w)) I Hs)
      as (b & st1 & -> & I1 & B1 & S1).
    + intros a. unfold waited. by repeat case_match.
    + intros a r. unfold requests. repeat case_match; try (by intros ?%elem_of_nil). by intros ->%list_elem_of_singleton.
    + intros st1 ee a dt W Hin H0 Ha Hl2 Hnot Hap. by apply not_followed_step.
    + cbn [cbind]. destruct (empty_nots RChild R held st1 _ I1 S1) as (st2 & E2 & I2 & B2 & S2). change [RChild] with rnode in E2. rewrite E2. cbn [cbind]. exists b, st2. split; [done|]. split; [done|]. split; [congruence|done].
  - assert (construct_here cube op d [] ts st = let! (detected, st1) := foreach (not_preceded cube d [] (get_out st rnode)) (get_out st lnode) (false, st) in
      let! st2 := expire_all st1 lnode in Ok (detected, st2)) as -> by (by rewrite Eop).
    assert (construct_nots op d cube ts w = mkNots [] (others w) (founds w ++ (waiters w ≫= comes_alone d cube (others w))) (pending w)) as -> by (by rewrite Eop).
    destruct (walk_nots R held st w (not_preceded cube d [] (get_out st rnode)) looked_at (comes_alone d cube (others w)) (λ _, []) I Hs)
      as (b & st1 & -> & I1 & B1 & S1).
    + intros a. unfold looked_at. by case_match.
    + intros a r Hr. by apply elem_of_nil in Hr.
    + intros st1 ee a dt W Hin H0 Ha Hl2 Hnot Hap. by apply not_preceded_step.
    + cbn [cbind]. destruct (empty_nots LChild R held st1 _ I1 S1) as (st2 & E2 & I2 & B2 & S2). change [LChild] with lnode in E2. rewrite E2. cbn [cbind]. exists b, st2. split; [done|]. split; [done|]. split; [congruence|].
      cbn [waiters others founds pending] in S2. assert (∀ l : list (Waiter HT), (l ≫= (λ _, [] : list (node * Z))) = []) as En by (induction l; done).
      rewrite En, app_nil_r in S2. exact S2.
Qed.

(** ** Expiry *)

Lemma expire_nots_ok R held st w ts : Inv root R held st → nshows st w →
  ∃ st', expireEvents root [] ts st = Ok st' ∧ Inv root R held st' ∧ base_tuples st' = base_tuples st ∧ nshows st' (expire_nots op d ts w).
Proof.
  intros I Hs. pose proof Hs as [Hl Hr Hf Ho Fl Fr Hq].
  destruct two_nots as [Eop|Eop].
  - assert (∀ st2, (let! st1 := expire_interval st lnode ts d in expire_all st1 rnode) = Ok st2 → expireEvents root [] ts st = Ok st2) as Heq.
    { intros st2 E. unfold two_root. rewrite Eop. cbn [expireEvents]. unfold lnode, rnode in E. by rewrite E. }
    assert (expire_nots op d ts w = mkNots (filter (λ a, stays d ts (value a)) (waiters w)) [] (founds w) (pending w)) as -> by (by rewrite Eop).
    assert (listed st lnode (value <$> waiters w)) as Hlv.
    { unfold listed. rewrite <- (list_fmap_id (get_out st lnode)). apply Forall2_fmap_2. eapply Forall2_impl; [exact Hl|]. intros ee a. apply status_holds. }
    destruct (expire_interval_listed root R held st lnode _ ts d I Hd Hlv) as (st1 & E1 & I1 & L1 & _ & Hout & K1). rewrite E1 in Heq. cbn [cbind] in Heq.
    destruct (empty_nots RChild R held st1 (mkNots (filter (λ a, stays d ts (value a)) (waiters w)) (others w) (founds w) (pending w)) I1) as (st2 & E2 & I2 & B2 & S2).
    { constructor; cbn [waiters others founds pending]; try done.
      - apply (statuses_kept st st1); [apply L1|intros ee x Hin Hx; by apply (ol_kept _ _ L1 lnode)|]. rewrite Hout. apply Forall2_filter_iff; [done|].
        intros ee a _ (x & Hx & [_ Hts] & _). unfold lasts, stays. by rewrite Hx, Hts.
      - by apply (only_less_listed st); [|apply K1|].
      - by apply (only_less_listed st); [|apply K1|].
      - intros p P1 P2 P3. apply (only_less_empty st); [done|by apply Ho].
      - by apply Forall_filter'.
      - by rewrite (ol_timeouts _ _ L1). }
    exists st2. split; [by apply Heq|]. split; [done|]. split; [rewrite B2; apply L1|done].
  - assert (∀ st2, (let! st1 := expire_all st lnode in expire_interval st1 rnode ts d) = Ok st2 → expireEvents root [] ts st = Ok st2) as Heq.
    { intros st2 E. unfold two_root. rewrite Eop. cbn [expireEvents]. unfold lnode, rnode in E. by rewrite E. }
    assert (expire_nots op d ts w = mkNots [] (filter (stays d ts) (others w)) (founds w) (pending w)) as -> by (by rewrite Eop).
    destruct (empty_nots LChild R held st w I Hs) as (st1 & E1 & I1 & B1 & S1). unfold lnode in Heq. rewrite E1 in Heq. cbn [cbind] in Heq. destruct S1 as [Hl1 Hr1 Hf1 Ho1 Fl1 Fr1 Hq1]. cbn [waiters others founds pending] in *.
    destruct (expire_interval_listed root R held st1 rnode _ ts d I1 Hd Hr1) as (st2 & E2 & I2 & L2 & Hl2 & _ & K2). exists st2. split; [by apply Heq|]. split; [done|].
    split; [rewrite (ol_base _ _ L2); done|]. constructor; cbn [waiters others founds pending].
    + rewrite K2 by done. apply (statuses_kept st1 st2); [apply L2|intros ee x Hin Hx; apply (ol_kept _ _ L2 lnode); [by rewrite K2|done]|done].
    + done.
    + by apply (only_less_listed st1); [|apply K2|].
    + intros p P1 P2 P3. apply (only_less_empty st1); [done|by apply Ho1].
    + done.
    + by apply Forall_filter'.
    + by rewrite (ol_timeouts _ _ L2).
Qed.

(** ** Timeouts *)

Definition settled_waiter a : Prop := is_done a = true ∨ has_requested a = true.

Lemma waited_twice ts a : settled_waiter a → waited d cube ts [] (waited d cube ts [] a) = waited d cube ts [] a ∧ gives_up d cube ts [] (waited d cube ts [] a) = []
  ∧ requests d cube ts [] a = [] ∧ settled_waiter (waited d cube ts [] a).
Proof.
  intros Hs. destruct a as [v dn rq]. unfold waited, gives_up, requests, settled_waiter in *. cbn [is_done has_requested value existsb] in *.
  destruct dn; cbn; [by repeat split; left|]. destruct Hs as [?|Hr]; [done|]. subst rq. destruct (v.2 + time d <? ts) eqn:E; cbn; [by repeat split; left|].
  rewrite E. by repeat split; right.
Qed.

(** Between calls the right list is empty and every waiter has made its request, or no
    requests are made. *)
Definition calm w : Prop := if decide (op = EVENT_NOTFOLLOWS) then others w = [] ∧ Forall settled_waiter (waiters w) else pending w = [].

Lemma bind_nil {A B} (f : A → list B) (l : list A) : Forall (λ x, f x = []) l → l ≫= f = [].
Proof. induction 1 as [|x l Hx _ IH]; [done|]. by rewrite bind_cons, Hx, IH. Qed.

Lemma construct_twice ts w : op = EVENT_NOTFOLLOWS → calm w → let w1 := construct_nots op d cube ts w in
  construct_nots op d cube ts w1 = w1 ∧ calm w1 ∧ pending w1 = pending w ∧ others w1 = [].
Proof.
  intros Eop Hc. unfold calm in *. rewrite decide_True in Hc by done. destruct Hc as [Ho Hs]. unfold construct_nots. rewrite Eop, decide_True by done.
  cbn [waiters others founds pending]. rewrite Ho.
  assert ((waiters w ≫= requests d cube ts []) = []) as Er by (apply bind_nil; eapply Forall_impl; [exact Hs|]; intros a Ha; by apply waited_twice).
  assert (((waited d cube ts [] <$> waiters w) ≫= gives_up d cube ts []) = []) as Eg.
  { apply bind_nil, Forall_fmap. eapply Forall_impl; [exact Hs|]. intros a Ha. by apply waited_twice. }
  assert (((waited d cube ts [] <$> waiters w) ≫= requests d cube ts []) = []) as Er2.
  { apply bind_nil, Forall_fmap. eapply Forall_impl; [exact Hs|]. intros a Ha. unfold compose. destruct (waited_twice ts a Ha) as (_ & _ & _ & Hs'). by apply waited_twice. }
  rewrite Er, Eg, Er2. cbn. rewrite !app_nil_r. split; [|split; [|done]].
  - f_equal. rewrite <- list_fmap_compose. apply list_fmap_ext. intros k a Ha. unfold compose. rewrite Forall_forall in Hs. apply waited_twice. apply Hs. by eapply list_elem_of_lookup_2.
  - split; [done|]. apply Forall_fmap. eapply Forall_impl; [exact Hs|]. intros a Ha. by apply waited_twice.
Qed.

Definition with_pending (l : list Z) w : Nots HT := mkNots (waiters w) (others w) (founds w) l.

Lemma serve_loop R ts rest : ∀ i left st w, Inv root R [] st → nshows st w → calm w → drop i (pending w) = rest →
  ∃ st', (∀ fuel, (length rest ≤ fuel)%nat → service_from fuel cube root ts i (pair [] <$> left) st = Ok st') ∧ Inv root R [] st' ∧
    nshows st' (with_pending (left ++ filter (λ u, ts < u) rest) (if existsb (λ u, u <=? ts) rest then construct_nots op d cube ts w else w)).
Proof.
  induction rest as [|u rest IH]; intros i left st w I Hs Hc Hrest.
  - exists (with_timeouts st (pair [] <$> left)). split; [|split].
    + intros fuel _. assert (timeoutRequests st !! i = None) as E.
      { rewrite (ns_requests _ _ Hs), list_lookup_fmap. apply fmap_None. rewrite <- (Nat.add_0_r i), <- lookup_drop, Hrest. done. }
      destruct fuel; cbn [service_from]; by rewrite E.
    + apply with_timeouts_inv; [done|]. intros p v (x & [= -> ->] & _)%list_elem_of_fmap. by eexists.
    + destruct Hs as [Hl Hr Hf Ho Fl Fr Hq]. cbn [existsb]. rewrite filter_nil, app_nil_r. by constructor.
  - assert (pending w !! i = Some u) as Hi by (rewrite <- (Nat.add_0_r i), <- lookup_drop, Hrest; done).
    assert (timeoutRequests st !! i = Some ([], u)) as E by (by rewrite (ns_requests _ _ Hs), list_lookup_fmap, Hi).
    assert (drop (S i) (pending w) = rest) as Hrest' by (rewrite (drop_S _ _ _ Hi) in Hrest; by injection Hrest).
    rewrite filter_cons. cbn [existsb]. destruct (Z.leb_spec u ts) as [Hle|Hlt]; cbn [orb].
    + rewrite decide_False by lia. destruct (construct_nots_ok R [] st w ts I Hs) as (st1 & E1 & I1 & _ & S1).
      assert (op = EVENT_NOTFOLLOWS) as Eop. { destruct two_nots as [|Eop]; [done|]. unfold calm in Hc. rewrite decide_False in Hc by (by rewrite Eop). by rewrite Hc in Hi. }
      destruct (construct_twice ts w Eop Hc) as (T1 & T2 & T3 & T4). cbn zeta in T1, T2, T3, T4.
      destruct (IH (S i) left st1 _ I1 S1 T2) as (st' & E' & I' & S'); [by rewrite T3|]. exists st'. split; [|split; [done|]].
      * intros [|fuel] HF; [cbn in HF; lia|]. cbn [service_from]. rewrite E. unfold ts_geq. rewrite (proj2 (Z.leb_le _ _)) by done. rewrite E1. cbn [cbind]. apply E'. cbn in HF. lia.
      * revert S'. rewrite T1. by destruct (existsb _ rest).
    + rewrite decide_True by lia. destruct (IH (S i) (left ++ [u]) st w I Hs Hc Hrest') as (st' & E' & I' & S'). exists st'. split; [|split; [done|by rewrite <- app_assoc in S']].
      intros [|fuel] HF; [cbn in HF; lia|]. cbn [service_from]. rewrite E. unfold ts_geq. rewrite (proj2 (Z.leb_gt _ _)) by lia.
      assert ((pair [] <$> left) ++ [([], u)] = pair ([] : node) <$> (left ++ [u])) as -> by (by rewrite fmap_app). apply E'. cbn in HF. lia.
Qed.

Lemma serve_nots_ok R ts st w : Inv root R [] st → nshows st w → calm w →
  ∃ F st', (∀ fuel, (F ≤ fuel)%nat → ServiceTimeouts fuel cube root ts st = Ok st') ∧ Inv root R [] st' ∧ nshows st' (serve_nots op d cube ts w).
Proof.
  intros I Hs Hc. destruct (serve_loop R ts (pending w) 0 [] st w I Hs Hc (drop_0 _)) as (st' & E & I' & S'). exists (length (pending w)), st'. by split.
Qed.

(** ** A new event *)

Lemma leaf_nots (s : side) R held st w ev v : Inv root R held st → nshows st w → known st ev → is_event (base_tuples st) ev v → time_ok (event_timestamp ev) → (∀ bt, bt ∈ pointers ev → bt ∈ R) →
  of_stream (match s with LChild => i1 | RChild => i2 end) v →
  ∃ st1, putSimpleEventOnOutputList [s] ev st = Ok st1 ∧ Inv root R held st1 ∧ base_tuples st1 = base_tuples st
    ∧ nshows st1 (match s with LChild => mkNots (waiters w ++ [mkWaiter v false false]) (others w) (founds w) (pending w) | RChild => mkNots (waiters w) (others w ++ [v]) (founds w) (pending w) end).
Proof.
  intros I [Hl Hr Hf Ho Fl Fr Hq] Hk Hv Hts HR Hsv.
  destruct (leaf_arrived root R held s st ev v I Hk Hv Hts HR) as (st1 & ev' & -> & I1 & A & Hv'). exists st1. split; [done|]. split; [done|]. split; [apply A|].
  pose proof A as [B Ee N Ea Eo Er _].
  assert (∀ ee x, entries st !! ee = Some x → entries st1 !! ee = Some x) as Hkeep by (intros ee x Hx; by rewrite Ee, lookup_insert_ne by congruence).
  assert (∀ q ws, q ≠ [s] → listed st q ws → listed st1 q ws) as D2.
  { intros q ws Hqs. apply listed_sub; [by apply Eo|done|]. intros a x _ Hx. exists x. by rewrite (Hkeep a x Hx). }
  assert (Forall2 (status st1) (get_out st lnode) (waiters w)) as Hl' by (apply (statuses_kept st st1); [done|by intros ee x _ Hx; apply Hkeep|done]).
  assert (entries st1 !! new_address st = Some (new_entry ev')) as Hnew by (by rewrite Ee, lookup_insert_eq).
  destruct s; constructor; cbn [waiters others founds pending]; try done.
  - change lnode with [LChild]. rewrite Ea. apply Forall2_app; [done|]. constructor; [|done]. exists (new_entry ev'). by rewrite Hnew, B.
  - by apply D2.
  - by apply D2.
  - intros p P1 P2 P3. rewrite Eo by done. by apply Ho.
  - apply Forall_app. split; [done|]. by apply Forall_singleton.
  - congruence.
  - by rewrite Eo.
  - unfold listed. change rnode with [RChild]. rewrite Ea. apply Forall2_app.
    + eapply Forall2_in; [exact Hr|]. intros ee u _ (x & Hx & Hu). exists x. rewrite B. split; [by apply Hkeep|done].
    + constructor; [|done]. exists (new_entry ev'). by rewrite Hnew, B.
  - by apply D2.
  - intros p P1 P2 P3. rewrite Eo by done. by apply Ho.
  - apply Forall_app. split; [done|]. by apply Forall_singleton.
  - congruence.
Qed.

Lemma publish_nots R held st w ev i h ts : Inv root R held st → nshows st w → ev_ok ev → (∀ bt, bt ∈ pointers ev → bt ∈ held) → (∀ bt, bt ∈ pointers ev → bt ∈ R) →
  is_event (base_tuples st) ev (single i h ts) → time_ok ts → findIndexOfSourceForSimpleEvent (tup ev) = Ok (Z.of_nat i) →
  ∃ st', publishSimpleEvent cube root root [] ev st = Ok st' ∧ Inv root R held st' ∧
    nshows st' (let v := single i h ts in
      if decide (i = i1) then construct_nots op d cube ts (mkNots (waiters w ++ [mkWaiter v false false]) (others w) (founds w) (pending w))
      else if decide (i = i2) then construct_nots op d cube ts (mkNots (waiters w) (others w ++ [v]) (founds w) (pending w))
      else w).
Proof.
  intros I Hs He Hh HR Hv Ht Hidx. pose proof (held_known root R held st ev I He Hh) as Hk. assert (event_timestamp ev = ts) as Ets by apply Hv.
  assert (∀ st0 (s : side) j, publishSimpleEvent cube root (EVENT_SIMPLE (Z.of_nat j + 1)) [s] ev st0
    = if decide (i = j) then (let! st1 := putSimpleEventOnOutputList [s] ev st0 in constructComplexEvents cube root [] (event_timestamp ev) st1) else Ok st0) as Hpub.
  { intros st0 s j. cbn [publishSimpleEvent]. unfold isRelevantSimpleEvent. rewrite Hidx. cbn [cbind]. rewrite Z.add_simpl_r.
    case_decide as Hij; [subst; by rewrite Z.eqb_refl|]. by rewrite (proj2 (Z.eqb_neq _ _)) by lia. }
  assert (publishSimpleEvent cube root root [] ev st = let! st1 := publishSimpleEvent cube root (EVENT_SIMPLE (Z.of_nat i1 + 1)) [LChild] ev st in
    publishSimpleEvent cube root (EVENT_SIMPLE (Z.of_nat i2 + 1)) [RChild] ev st1) as -> by exact (publish_complex cube _ _ _ _ _ _ _ _). cbn zeta. rewrite Hpub.
  destruct (decide (i = i1)) as [->|N1].
  - destruct (leaf_nots LChild R held st w ev _ I Hs Hk Hv ltac:(by rewrite Ets) HR ltac:(by exists h)) as (st1 & -> & I1 & B1 & S1). cbn [cbind]. rewrite Ets.
    destruct (construct_nots_ok R held st1 _ ts I1 S1) as (st2 & -> & I2 & _ & S2). cbn [cbind]. rewrite Hpub, decide_False by done. by exists st2.
  - cbn [cbind]. rewrite Hpub. destruct (decide (i = i2)) as [->|N2]; [|by exists st].
    destruct (leaf_nots RChild R held st w ev _ I Hs Hk Hv ltac:(by rewrite Ets) HR ltac:(by exists h)) as (st1 & -> & I1 & B1 & S1). cbn [cbind]. rewrite Ets.
    destruct (construct_nots_ok R held st1 _ ts I1 S1) as (st2 & -> & I2 & _ & S2). by exists st2.
Qed.
End nots.
End EventsWait.
