(* ===== verification/EventsAlone.v ===== *)
(** * Event aggregates: the events without another that a query gets

    [EventsHistory]: the meaning of [NOTFOLLOWS] and [NOTPRECEDES], and the lists of values
    after a history.  [EventsAlone]: what the operator reports. *)

From Stdlib Require Import Sorting.Sorted.
From S2P Require Import Prelude BitArray GSFilter Eddy EddyGSF Stem StemSpec Window WindowSpec Events EventsMem EventsInv EventsStep EventsRead EventsThm EventsRun EventsTwo EventsAnswer EventsWait.

(** * Event aggregates: events without another, as lists of values

    What [NOTFOLLOWS] and [NOTPRECEDES] mean over two streams, and that the machines of
    EventsWait compute it. *)

Module EventsHistory.
Import Bit Eddy Stem StemSpec Window WindowSpec Events EventsMem EventsInv EventsStep EventsRead EventsThm EventsRun EventsMatch EventsTwo EventsPairs EventsAnswer EventsNot EventsWait.
Local Open Scope Z_scope.

(** ** The specification *)

Section spec.
Context {HT : Type} `{!EventEnv HT}.
Context (d : Interval) (i1 i2 : nat) (cube : ExprCube).
Implicit Types (v : AEvent HT) (t u : tuple HT) (l past : list (tuple HT)).

Definition event_of t : AEvent HT := single t.1.1 t.1.2 t.2.

(** Whether the tuple [u] ends the wait of [v]. *)
Definition ended_by v u : bool := bool_decide (u.1.1 = i2) && ends_wait d cube v (event_of u).

(** The events of the left stream, each with whether a tuple after it has ended its wait. *)
Fixpoint candidates l : list (AEvent HT * bool) :=
  match l with
  | [] => []
  | t :: l' => (if decide (t.1.1 = i1) then [(event_of t, existsb (ended_by (event_of t)) l')] else []) ++ candidates l'
  end.

(** The end of a wait. *)
Definition until (c : AEvent HT * bool) : Z := c.1.2 + time d.

(** The events whose wait is over at [ts] and has not been ended. *)
Definition unfollowed (ts : Z) l : list (AEvent HT) := fst <$> filter (λ c, c.2 = false ∧ until c < ts) (candidates l).

(** What a tuple with the timestamp [ts] makes the operator report, when the one before had
    [prev]: only if the end of some wait lies between them, and then the events whose wait
    has not been ended, except those that the tuple before has found at its very end. *)
Definition given_up past (prev ts : Z) : list (AEvent HT) :=
  if existsb (λ c, (prev <? until c) && (until c <=? ts)) (candidates past)
  then fst <$> filter (λ c, c.2 = false ∧ prev ≤ until c < ts) (candidates past) else [].
Fixpoint timeouts past (prev : Z) l : list (AEvent HT) :=
  match l with
  | [] => []
  | t :: l' => given_up past prev t.2 ++ timeouts (past ++ [t]) t.2 l'
  end.

(** The last timestamp. *)
Fixpoint last_ts (ts : Z) l : Z :=
  match l with
  | [] => ts
  | t :: l' => last_ts t.2 l'
  end.

(** The events that do not come too soon after one of the right stream. *)
Definition unpreceded_one past t : list (AEvent HT) :=
  if decide (t.1.1 = i1) then if existsb (too_soon d cube (event_of t)) (stream i2 past) then [] else [event_of t] else [].
Fixpoint unpreceded past l : list (AEvent HT) :=
  match l with
  | [] => []
  | t :: l' => unpreceded_one past t ++ unpreceded (past ++ [t]) l'
  end.
End spec.

Definition nots_machine {HT : Type} `{!EventEnv HT} (op : EventOperator) (d : Interval) (i1 i2 : nat) (cube : ExprCube) : Machine HT (Nots HT) := {|
  m_arrive := arrive_nots op d i1 i2 cube; m_found := founds; m_take := take_nots; m_size := size_nots; m_take_found vs s := eq_refl
|}.

Definition no_events {HT : Type} : Nots HT := mkNots [] [] [] [].

(** ** Single events *)

Section single.
Context {HT : Type} `{Henv : !EventEnv HT} (cube : ExprCube).
Implicit Types (t : tuple HT).

Lemma single_agrees (i : nat) (h : HT) (ts : Z) : agrees cube (single i h ts).1 = true.
Proof.
  assert (∀ j h', (single i h ts).1 !! j = Some (Some h') → j = i) as Hj.
  { intros j h'. unfold single. cbn [fst]. destruct (decide (j = i)) as [|N]; [done|]. rewrite list_lookup_insert_ne by done. by intros [[=] _]%lookup_replicate. }
  revert Hj. generalize (single i h ts).1 as vs. intros vs Hj. unfold agrees. destruct cube; [done|]. apply forallb_forall. intros a Ha.
  destruct (vs !! a) as [[h1|]|] eqn:E1; try done. apply forallb_forall. intros b Hb. destruct (vs !! b) as [[h2|]|] eqn:E2; try done. exfalso.
  apply Hj in E1, E2. apply in_seq in Hb. lia.
Qed.

Lemma agreeing_events (vs : list (AEvent HT)) : (∀ v, v ∈ vs → ∃ t, v = event_of t) → agreeing cube vs = vs.
Proof.
  intros Hvs. unfold agreeing. induction vs as [|v vs IH]; [done|]. destruct (Hvs v ltac:(by left)) as [t ->]. rewrite filter_cons, decide_True.
  - by rewrite IH by (intros u Hu; apply Hvs; by right).
  - unfold event_of. by rewrite single_agrees.
Qed.
End single.

(** ** The machine of [NOTFOLLOWS] *)

Section notfollows.
Context {HT : Type} `{Henv : !EventEnv HT}.
Context (d : Interval) (i1 i2 : nat) (Hne : i1 ≠ i2) (Hpos : 0 < time d) (cube : ExprCube).
Implicit Types (w : Nots HT) (v : AEvent HT) (past l : list (tuple HT)) (c : AEvent HT * bool).
Local Abbreviation candidates := (candidates d i1 i2 cube).
Local Abbreviation until := (until d).
Local Abbreviation given_up := (given_up d i1 i2 cube).
Local Abbreviation timeouts := (timeouts d i1 i2 cube).

(** The tuple [t] comes after the event. *)
Definition mark (t : tuple HT) c : AEvent HT * bool := (c.1, c.2 || ended_by d i2 cube c.1 t).

Lemma candidates_snoc past t : candidates (past ++ [t]) = (mark t <$> candidates past) ++ (if decide (t.1.1 = i1) then [(event_of t, false)] else []).
Proof.
  induction past as [|u past IH]; cbn [app EventsHistory.candidates existsb]; [by rewrite app_nil_r|]. rewrite IH, fmap_app, app_assoc. f_equal. f_equal.
  destruct (decide (u.1.1 = i1)); [|done]. unfold mark. cbn. rewrite existsb_app. cbn. by rewrite orb_false_r.
Qed.

Lemma filter_fmap_same {A B} (P : B → Prop) (Q : A → Prop) `{∀ x, Decision (P x)} `{∀ x, Decision (Q x)} (f : A → B) (l : list A) :
  (∀ x, P (f x) ↔ Q x) → filter P (f <$> l) = f <$> filter Q l.
Proof.
  intros HPQ. induction l as [|x l IH]; [done|]. rewrite fmap_cons, !filter_cons, IH. repeat case_decide; try done; exfalso; naive_solver.
Qed.

Definition waiter_of c : Waiter HT := mkWaiter c.1 c.2 true.

Lemma bind_nothing {A B} (f : A → list B) (l : list A) : Forall (λ a, f a = []) l → l ≫= f = [].
Proof. induction 1 as [|a l Ha _ IH]; [done|]. by rewrite bind_cons, Ha, IH. Qed.

(** The state after [past], when the last timestamp is [ts]. *)
Record follows_history past (ts : Z) w : Prop := {
  fh_waiters : waiters w = waiter_of <$> filter (λ c, ts ≤ until c) (candidates past);
  fh_others : others w = [];
  fh_pending : pending w = until <$> filter (λ c, ts < until c) (candidates past)
}.

Lemma waiters_later (ts ts' : Z) past : ts ≤ ts' → filter (λ a, stays d ts' (value a)) (waiter_of <$> filter (λ c, ts ≤ until c) (candidates past)) = waiter_of <$> filter (λ c, ts' ≤ until c) (candidates past).
Proof.
  intros Hle. rewrite (filter_fmap_same _ (λ c, ts' ≤ until c)) by done. f_equal. rewrite list_filter_filter. apply filter_agrees. intros c _. lia.
Qed.

Lemma existsb_pending (ts ts' : Z) past : existsb (λ u, u <=? ts') (until <$> filter (λ c, ts < until c) (candidates past)) = existsb (λ c, (ts <? until c) && (until c <=? ts')) (candidates past).
Proof.
  induction (candidates past) as [|c cs IH]; [done|]. rewrite filter_cons. cbn [existsb]. case_decide as H.
  - rewrite fmap_cons. cbn [existsb]. rewrite IH. by rewrite (proj2 (Z.ltb_lt _ _) H).
  - rewrite IH. by rewrite (proj2 (Z.ltb_ge _ _)) by lia.
Qed.

(** Work when no event of the right stream is kept. *)
Lemma gives_up_bind (ts : Z) (cs : list (AEvent HT * bool)) : (waiter_of <$> cs) ≫= gives_up d cube ts [] = fst <$> filter (λ c, c.2 = false ∧ until c < ts) cs.
Proof.
  induction cs as [|[v b] cs IH]; [done|]. rewrite fmap_cons, bind_cons, IH, filter_cons. unfold gives_up at 1. cbn [waiter_of value is_done existsb fst snd].
  rewrite orb_false_r. unfold EventsHistory.until. cbn [fst]. destruct b; cbn [orb]; [by rewrite decide_False by (by intros [? _])|].
  destruct (v.2 + time d <? ts) eqn:E; [rewrite decide_True by (split; [done|by apply Z.ltb_lt])|rewrite decide_False by (apply Z.ltb_ge in E; lia)]; done.
Qed.
Lemma waited_stays (ts : Z) (cs : list (AEvent HT * bool)) :
  filter (λ a, stays d ts (value a)) (waited d cube ts [] <$> (waiter_of <$> cs)) = filter (λ a, stays d ts (value a)) (waiter_of <$> cs).
Proof.
  induction cs as [|[v b] cs IH]; [done|]. rewrite !fmap_cons, !filter_cons, IH.
  assert (waited d cube ts [] (waiter_of (v, b)) = if v.2 + time d <? ts then mkWaiter v true true else waiter_of (v, b)) as ->.
  { unfold waited, waiter_of. cbn. by destruct b, (v.2 + time d <? ts). }
  destruct (v.2 + time d <? ts) eqn:E; [|done]. apply Z.ltb_lt in E. by rewrite !decide_False by (unfold stays, waiter_of; cbn; lia).
Qed.

Lemma served_history past (ts ts' : Z) w : follows_history past ts w → ts ≤ ts' →
  expire_nots EVENT_NOTFOLLOWS d ts' (serve_nots EVENT_NOTFOLLOWS d cube ts' w)
  = mkNots (waiter_of <$> filter (λ c, ts' ≤ until c) (candidates past)) [] (founds w ++ given_up past ts ts') (until <$> filter (λ c, ts' < until c) (candidates past)).
Proof.
  intros [Hw Ho Hp] Hle. unfold serve_nots, expire_nots, EventsHistory.given_up. rewrite Hp, existsb_pending.
  assert (filter (λ u, ts' < u) (until <$> filter (λ c, ts < until c) (candidates past)) = until <$> filter (λ c, ts' < until c) (candidates past)) as ->.
  { rewrite (filter_fmap_same _ (λ c, ts' < until c)) by done. f_equal. rewrite list_filter_filter. apply filter_agrees. intros c _. lia. }
  destruct (existsb _ _); unfold construct_nots; cbn [waiters others founds pending]; rewrite Hw, ?Ho.
  - rewrite waited_stays, (waiters_later ts ts' past Hle), gives_up_bind. do 2 f_equal. f_equal. rewrite list_filter_filter. apply filter_agrees. intros c _. tauto.
  - by rewrite (waiters_later ts ts' past Hle), app_nil_r.
Qed.

(** Work before any wait is over. *)
Lemma construct_early (ts : Z) vs (cs : list (AEvent HT * bool)) ps fs qs : Forall (λ c, ts ≤ until c) cs → Forall (λ a, is_done a = false ∧ ts ≤ (value a).2 + time d) ps →
  construct_nots EVENT_NOTFOLLOWS d cube ts (mkNots ((waiter_of <$> cs) ++ ps) vs fs qs)
  = mkNots ((waiter_of <$> ((λ c, (c.1, c.2 || existsb (ends_wait d cube c.1) vs)) <$> cs)) ++ (waited d cube ts vs <$> ps)) [] fs (qs ++ (ps ≫= requests d cube ts vs).*2).
Proof.
  intros Hcs Hps. unfold construct_nots. cbn [waiters others founds pending]. rewrite fmap_app, !bind_app. f_equal.
  - f_equal. rewrite <- !list_fmap_compose. apply list_fmap_ext. intros k [v b] Hc%list_elem_of_lookup_2. unfold compose, waited, waiter_of. cbn.
    rewrite Forall_forall in Hcs. specialize (Hcs _ Hc). unfold EventsHistory.until in Hcs. cbn in Hcs. destruct b; [done|]. destruct (existsb _ _); [done|]. by rewrite (proj2 (Z.ltb_ge _ _)) by lia.
  - rewrite <- (app_nil_r fs) at 2. f_equal. apply app_nil.
    split; apply bind_nothing.
    + apply Forall_fmap. eapply Forall_impl; [exact Hcs|]. intros [v b] Hc. unfold compose, gives_up, waiter_of. cbn. unfold EventsHistory.until in Hc. cbn in Hc.
      rewrite (proj2 (Z.ltb_ge _ _)) by lia. by destruct (b || _).
    + eapply Forall_impl; [exact Hps|]. intros a [_ Ha]. unfold gives_up. rewrite (proj2 (Z.ltb_ge _ _)) by lia. by destruct (_ || _).
  - f_equal. f_equal. rewrite (bind_nothing _ (waiter_of <$> cs)); [done|]. apply Forall_fmap, Forall_forall. intros [v b] _. unfold compose, requests, waiter_of. cbn. by repeat case_match.
Qed.

Lemma mark_other t : t.1.1 ≠ i2 → ∀ cs : list (AEvent HT * bool), mark t <$> cs = cs.
Proof. intros Ht cs. rewrite <- (list_fmap_id cs) at 2. apply list_fmap_ext. intros k [v b] _. unfold mark, ended_by. rewrite bool_decide_eq_false_2 by done. cbn. by rewrite orb_false_r. Qed.

Lemma arrive_history past (ts ts' : Z) w i h : follows_history past ts w → ts ≤ ts' →
  follows_history (past ++ [(i, h, ts')]) ts' (arrive_nots EVENT_NOTFOLLOWS d i1 i2 cube i h ts' w) ∧ founds (arrive_nots EVENT_NOTFOLLOWS d i1 i2 cube i h ts' w) = founds w ++ given_up past ts ts'.
Proof.
  intros Hw Hle. unfold arrive_nots. rewrite (served_history past ts ts' w Hw Hle). cbn [waiters others founds pending]. set (t := (i, h, ts')).
  set (new := if decide (i = i1) then [(event_of t, false)] else []).
  assert (filter (λ c, ts' ≤ until c) (candidates (past ++ [t])) = (mark t <$> filter (λ c, ts' ≤ until c) (candidates past)) ++ filter (λ c, ts' ≤ until c) new) as E1.
  { rewrite candidates_snoc, filter_app. f_equal. by apply filter_fmap_same. }
  assert (filter (λ c, ts' < until c) (candidates (past ++ [t])) = (mark t <$> filter (λ c, ts' < until c) (candidates past)) ++ filter (λ c, ts' < until c) new) as E2.
  { rewrite candidates_snoc, filter_app. f_equal. by apply filter_fmap_same. }
  subst new.
  assert (Forall (λ c, ts' ≤ until c) (filter (λ c, ts' ≤ until c) (candidates past))) as Hall by (apply Forall_forall; intros c [Hc _]%list_elem_of_filter; done).
  assert (until (event_of t, false) = ts' + time d) as Eu by done.
  destruct (decide (i = i1)) as [Ei|N1]; [|destruct (decide (i = i2)) as [Ei|N2]].
  - rewrite (mark_other t) in E1, E2 by (cbn; congruence). rewrite filter_cons, filter_nil, decide_True in E1 by lia. rewrite filter_cons, filter_nil, decide_True in E2 by lia.
    rewrite construct_early; [|done|apply Forall_singleton; cbn; lia]. split; [|done]. constructor; cbn [waiters others pending]; [|done|].
    + rewrite E1, fmap_app. f_equal; [|].
      * f_equal. rewrite <- (list_fmap_id (filter _ _)) at 2. apply list_fmap_ext. intros k [v b] _. cbn. by rewrite orb_false_r.
      * unfold waited. cbn. by rewrite (proj2 (Z.ltb_ge _ _)) by lia.
    + rewrite E2, fmap_app. f_equal. unfold requests. cbn. rewrite app_nil_r. by rewrite (proj2 (Z.ltb_ge _ _)) by lia.
  - rewrite filter_nil, app_nil_r in E1, E2.
    pose proof (construct_early ts' [single i h ts'] (filter (λ c, ts' ≤ until c) (candidates past)) [] (founds w ++ given_up past ts ts') (until <$> filter (λ c, ts' < until c) (candidates past)) Hall ltac:(constructor)) as Hc.
    rewrite app_nil_r in Hc. cbn [app]. rewrite Hc. split; [|done]. constructor; cbn [waiters others pending]; [|done|].
    + rewrite E1. rewrite fmap_nil, app_nil_r. f_equal. apply list_fmap_ext. intros k [v b] _. unfold mark, ended_by. cbn. rewrite bool_decide_eq_true_2 by done. cbn. by rewrite orb_false_r.
    + rewrite E2, app_nil_r. rewrite <- list_fmap_compose. by apply list_fmap_ext.
  - rewrite filter_nil, app_nil_r, (mark_other t) in E1, E2 by done. split; [|done]. by constructor; cbn [waiters others pending]; rewrite ?E1, ?E2.
Qed.

Local Abbreviation agreeing := (agreeing cube).
Local Abbreviation answers := (answers (Hm := nots_machine EVENT_NOTFOLLOWS d i1 i2 cube) cube).
Local Abbreviation final := (final (Hm := nots_machine EVENT_NOTFOLLOWS d i1 i2 cube) cube).

Lemma answers_timeouts (l : list (option (tuple HT))) : ∀ past ts w, follows_history past ts w → ascending ts (omap id l) →
  answers l w ++ agreeing (founds (final l w)) = agreeing (founds w) ++ agreeing (timeouts past ts (omap id l)).
Proof.
  induction l as [|[[[i h] ts']|] l IH]; intros past ts w Ht Ha; cbn [EventsRun.answers EventsRun.final]; [by rewrite app_nil_r| |].
  - change (omap id (Some (i, h, ts') :: l)) with ((i, h, ts') :: omap id l) in *. destruct Ha as [Hle Ha]. cbn [snd] in *.
    destruct (arrive_history past ts ts' w i h Ht Hle) as [Ht' Hf]. cbn [m_arrive nots_machine]. rewrite (IH _ ts' _ Ht' Ha), Hf. cbn [EventsHistory.timeouts snd]. by rewrite !agreeing_app, <- app_assoc.
  - change (omap id (None :: l)) with (omap id l) in *. rewrite <- app_assoc, (IH past ts _) by (done || by destruct Ht).
    rewrite (next_found_agreeing cube (founds w)). cbn [m_found m_take nots_machine founds take_nots]. by rewrite <- app_assoc.
Qed.

(** ** When no tuple comes at the end of a wait *)

Lemma candidates_in c l : c ∈ candidates l → ∃ t, t ∈ l ∧ t.1.1 = i1 ∧ c.1 = event_of t.
Proof.
  induction l as [|t l IH]; cbn [EventsHistory.candidates]; [by intros ?%elem_of_nil|]. intros [Hc|Hc]%elem_of_app.
  - destruct (decide (t.1.1 = i1)) as [E|]; [|by apply elem_of_nil in Hc]. apply list_elem_of_singleton in Hc as ->. exists t. split; [by left|done].
  - destruct (IH Hc) as (u & Hu & ?). exists u. split; [by right|done].
Qed.

Lemma candidates_app past l : candidates (past ++ l) = ((λ c, (c.1, c.2 || existsb (ended_by d i2 cube c.1) l)) <$> candidates past) ++ candidates l.
Proof.
  induction past as [|u past IH]; cbn [app EventsHistory.candidates]; [done|]. rewrite IH, fmap_app, app_assoc. f_equal. f_equal.
  destruct (decide (u.1.1 = i1)); [|done]. cbn. by rewrite existsb_app.
Qed.

Lemma filter_nobody {A} (P : A → Prop) `{∀ x, Decision (P x)} (l : list A) : (∀ x, x ∈ l → ¬ P x) → filter P l = [].
Proof.
  induction l as [|x l IH]; intros Hl; [done|]. rewrite filter_cons, decide_False by (apply Hl; by left). apply IH. intros y Hy. apply Hl. by right.
Qed.

Lemma candidates_before past l (ts ts' : Z) : Forall (λ t, ts' ≤ t.2) l →
  fst <$> filter (λ c, c.2 = false ∧ ts ≤ until c < ts') (candidates (past ++ l)) = fst <$> filter (λ c, c.2 = false ∧ ts ≤ until c < ts') (candidates past).
Proof.
  intros Hl. rewrite Forall_forall in Hl. rewrite candidates_app, filter_app, fmap_app, (filter_nobody _ (candidates l)), app_nil_r.
  - induction (candidates past) as [|[v b] cs IH]; [done|]. rewrite fmap_cons, !filter_cons. cbn [fst snd].
    assert (until (v, b) < ts' → existsb (ended_by d i2 cube v) l = false) as Hnot.
    { intros Hu. destruct (existsb _ _) eqn:E; [|done]. exfalso. apply existsb_exists in E as (t & Ht%list_elem_of_In & He). specialize (Hl t Ht). unfold ended_by, ends_wait in He.
      apply andb_true_iff in He as [_ He]. apply andb_true_iff in He as [_ He%Z.leb_le]. cbn in He. unfold EventsHistory.until in Hu. cbn in Hu. lia. }
    change (until (v, b || existsb (ended_by d i2 cube v) l)) with (until (v, b)).
    destruct (decide (until (v, b) < ts')) as [Hu|Hu].
    + rewrite (Hnot Hu), orb_false_r. destruct (decide _); rewrite ?fmap_cons, IH; done.
    + rewrite !decide_False by tauto. exact IH.
  - intros c (t & Ht & _ & Ec)%candidates_in [_ [_ Hc]]. specialize (Hl t Ht). unfold EventsHistory.until in Hc. rewrite Ec in Hc. cbn in Hc. lia.
Qed.

Lemma ascending_after (ts : Z) l : ascending ts l → Forall (λ t, ts ≤ t.2) l.
Proof.
  revert ts. induction l as [|t l IH]; intros ts; [constructor|]. intros [Ht Hl]. constructor; [done|]. eapply Forall_impl; [apply (IH _ Hl)|]. cbn. lia.
Qed.

Lemma candidates_sorted (ts : Z) l : ascending ts l → StronglySorted (λ c c', until c ≤ until c') (candidates l).
Proof.
  revert ts. induction l as [|t l IH]; intros ts; cbn [EventsHistory.candidates]; [constructor|]. intros [_ Hl]. specialize (IH _ Hl). destruct (decide (t.1.1 = i1)); [|done].
  constructor; [done|]. apply Forall_forall. intros c (u & Hu & _ & Ec)%candidates_in. pose proof (ascending_after _ _ Hl) as Ha. rewrite Forall_forall in Ha. specialize (Ha u Hu).
  unfold EventsHistory.until. rewrite Ec. cbn. lia.
Qed.

(** What is found in two parts. *)
Lemma filter_parts (ta tb tc : Z) (cs : list (AEvent HT * bool)) : ta ≤ tb → tb ≤ tc → StronglySorted (λ c c', until c ≤ until c') cs →
  filter (λ c, c.2 = false ∧ ta ≤ until c < tc) cs = filter (λ c, c.2 = false ∧ ta ≤ until c < tb) cs ++ filter (λ c, c.2 = false ∧ tb ≤ until c < tc) cs.
Proof.
  intros H1 H2. induction 1 as [|c cs _ IH Hall]; [done|]. rewrite !filter_cons, IH. rewrite Forall_forall in Hall.
  destruct (decide (until c < tb)) as [Hu|Hu].
  - rewrite (decide_False (P := c.2 = false ∧ tb ≤ until c < tc)) by lia. repeat case_decide; try done; exfalso; intuition lia.
  - assert (filter (λ c, c.2 = false ∧ ta ≤ until c < tb) cs = []) as -> by (apply filter_nobody; intros c' Hc' [_ ?]; specialize (Hall c' Hc'); lia).
    rewrite (decide_False (P := c.2 = false ∧ ta ≤ until c < tb)) by lia. repeat case_decide; try done; exfalso; intuition lia.
Qed.

Lemma given_up_all past (ts ts' : Z) : (∀ c, c ∈ candidates past → until c ≠ ts) →
  given_up past ts ts' = fst <$> filter (λ c, c.2 = false ∧ ts ≤ until c < ts') (candidates past).
Proof.
  intros Hno. unfold EventsHistory.given_up. destruct (existsb _ _) eqn:E; [done|]. rewrite filter_nobody; [done|]. intros c Hc [_ Hu].
  assert (existsb (λ c, (ts <? until c) && (until c <=? ts')) (candidates past) = true); [|congruence].
  apply existsb_exists. exists c. split; [by apply list_elem_of_In|]. specialize (Hno c Hc). rewrite andb_true_iff, Z.ltb_lt, Z.leb_le. lia.
Qed.

(** No tuple comes exactly at the end of a wait. *)
Definition no_tie l : Prop := ∀ t u, t ∈ l → u ∈ l → t.1.1 = i1 → u.2 ≠ t.2 + time d.

Lemma last_ts_le (ts : Z) l : ascending ts l → ts ≤ last_ts ts l.
Proof. revert ts. induction l as [|t l IH]; intros ts; cbn; [lia|]. intros [H1 H2]. specialize (IH _ H2). lia. Qed.

Lemma timeouts_unfollowed l : ∀ past (ts t0 : Z), past = [] ∨ (∃ t, t ∈ past ∧ t.2 = ts) → ascending t0 (past ++ l) → ascending ts l → no_tie (past ++ l) →
  timeouts past ts l = fst <$> filter (λ c, c.2 = false ∧ ts ≤ until c < last_ts ts l) (candidates (past ++ l)).
Proof.
  induction l as [|t l IH]; intros past ts t0 Hlast Hall Hl Hno; cbn [EventsHistory.timeouts EventsHistory.last_ts].
  { rewrite filter_nobody; [done|]. intros c _ [_ ?]. lia. }
  destruct Hl as [Hle Hl]. rewrite given_up_all.
  - rewrite (IH (past ++ [t]) t.2 t0); [|right; exists t; split; [apply elem_of_app; right; by left|done]|by rewrite <- app_assoc|done|by rewrite <- app_assoc].
    rewrite <- app_assoc. cbn [app].
    rewrite <- (candidates_before past (t :: l)) by (constructor; [lia|by apply ascending_after]).
    rewrite <- fmap_app. f_equal. symmetry. apply filter_parts; [done|by apply last_ts_le|by apply (candidates_sorted t0)].
  - intros c (u & Hu & Hu1 & Ec)%candidates_in Hc. destruct Hlast as [->|(t' & Ht' & <-)]; [by apply elem_of_nil in Hu|].
    apply (Hno u t'); [apply elem_of_app; by left|apply elem_of_app; by left|done|]. unfold EventsHistory.until in Hc. rewrite Ec in Hc. cbn in Hc. lia.
Qed.

Lemma given_up_in past (ts ts' : Z) v : v ∈ given_up past ts ts' → ∃ t, v = event_of t.
Proof.
  unfold EventsHistory.given_up. destruct (existsb _ _); [|by intros ?%elem_of_nil]. intros (c & -> & [_ Hc]%list_elem_of_filter)%list_elem_of_fmap.
  apply candidates_in in Hc as (t & _ & _ & E). by exists t.
Qed.
Lemma timeouts_in l : ∀ past (ts : Z) v, v ∈ timeouts past ts l → ∃ t, v = event_of t.
Proof.
  induction l as [|t l IH]; intros past ts v; cbn [EventsHistory.timeouts]; [by intros ?%elem_of_nil|]. intros [Hv|Hv]%elem_of_app; [by eapply given_up_in|by eapply IH].
Qed.

Lemma all_timeouts (ts : Z) l : ascending ts l → no_tie l → timeouts [] ts l = unfollowed d i1 i2 cube (last_ts ts l) l.
Proof.
  intros Ha Hno. rewrite (timeouts_unfollowed l [] ts ts) by (try done; by left). unfold unfollowed. f_equal. apply filter_agrees.
  intros c (u & Hu & _ & Ec)%candidates_in. pose proof (ascending_after _ _ Ha) as Hall. rewrite Forall_forall in Hall. specialize (Hall u Hu).
  assert (ts ≤ until c) by (unfold EventsHistory.until; rewrite Ec; cbn; lia). tauto.
Qed.

(** ** When a tuple does *)

Lemma last_ts_app (ts : Z) l l' : last_ts ts (l ++ l') = last_ts (last_ts ts l) l'.
Proof. revert ts. induction l as [|t l IH]; intros ts; [done|]. apply IH. Qed.

Lemma ascending_app (ts : Z) l l' : ascending ts (l ++ l') → ascending ts l ∧ ascending (last_ts ts l) l'.
Proof. revert ts. induction l as [|t l IH]; intros ts; [done|]. intros [Ht Ha]. destruct (IH _ Ha). by repeat split. Qed.

Lemma ascending_until (ts : Z) l : ascending ts l → Forall (λ t, t.2 ≤ last_ts ts l) l.
Proof.
  revert ts. induction l as [|t l IH]; intros ts; [constructor|]. intros [_ Ha]. constructor; [exact (last_ts_le _ _ Ha)|exact (IH _ Ha)].
Qed.

(** Where a report comes from. *)
Lemma timeouts_elem l : ∀ past (prev : Z) v, v ∈ timeouts past prev l →
  ∃ l1 t l2, l = l1 ++ t :: l2 ∧ v ∈ given_up (past ++ l1) (last_ts prev l1) t.2.
Proof.
  induction l as [|t l IH]; intros past prev v; cbn [EventsHistory.timeouts]; [by intros ?%elem_of_nil|]. intros [Hv|Hv]%elem_of_app.
  - exists [], t, l. split; [done|]. by rewrite app_nil_r.
  - destruct (IH _ _ _ Hv) as (l1 & u & l2 & -> & Hu). exists (t :: l1), u, l2. split; [done|]. by rewrite <- app_assoc in Hu.
Qed.

Lemma given_up_elem past (prev ts : Z) v : v ∈ given_up past prev ts →
  (∃ x, x ∈ past ∧ x.1.1 = i1 ∧ v = event_of x ∧ prev ≤ x.2 + time d < ts)
  ∧ ∃ y, y ∈ past ∧ y.1.1 = i1 ∧ prev < y.2 + time d ≤ ts.
Proof.
  unfold EventsHistory.given_up. destruct (existsb _ _) eqn:E; [|by intros ?%elem_of_nil]. intros (c & -> & [[_ Hc] Hin]%list_elem_of_filter)%list_elem_of_fmap.
  apply candidates_in in Hin as (x & Hx & Hx1 & Ex). split.
  - exists x. do 3 (split; [done|]). unfold EventsHistory.until in Hc. by rewrite Ex in Hc.
  - apply existsb_exists in E as (c' & Hin'%list_elem_of_In & Hu). apply candidates_in in Hin' as (y & Hy & Hy1 & Ey). exists y. split; [done|]. split; [done|].
    rewrite andb_true_iff, Z.ltb_lt, Z.leb_le in Hu. unfold EventsHistory.until in Hu. by rewrite Ey in Hu.
Qed.

(** A tuple [u] comes at the end of waits, and the next one, [t], before the end of any
    other: no event whose wait ended at [u] is ever given up. *)
Lemma lost_timeouts (ts : Z) l1 u t l2 v : ascending ts (l1 ++ u :: t :: l2) → u.2 < t.2 →
  (∀ y, y ∈ l1 ++ [u] → y.1.1 = i1 → ¬ u.2 < y.2 + time d ≤ t.2) →
  v ∈ timeouts [] ts (l1 ++ u :: t :: l2) → ∃ x, x ∈ l1 ++ u :: t :: l2 ∧ x.1.1 = i1 ∧ v = event_of x ∧ x.2 + time d ≠ u.2.
Proof.
  intros Hasc Hlt Hno (k1 & t' & k2 & E & Hv)%timeouts_elem. cbn [app] in Hv. apply given_up_elem in Hv as [(x & Hx & Hx1 & -> & Hb) (y & Hy & Hy1 & Hyb)].
  exists x. split; [rewrite E; apply elem_of_app; by left|]. do 2 (split; [done|]). intros Ex. rewrite (cons_middle u l1), app_assoc in E, Hasc.
  apply ascending_app in Hasc as [Ha1 Ha2]. assert (last_ts ts (l1 ++ [u]) = u.2) as El by (by rewrite last_ts_app). rewrite El in Ha2.
  apply app_eq_inv in E as [(k & El1 & Ek)|(k & -> & Ek)].
  - destruct k as [|t1 k]; cbn in Ek; injection Ek as -> ->.
    + rewrite app_nil_r in El1. subst k1. rewrite El in Hyb. by apply (Hno y).
    + pose proof (ascending_until _ _ Ha1) as Hall. rewrite El, El1, Forall_app in Hall. destruct Hall as [_ [Ht1 _]%Forall_cons]. lia.
  - destruct k as [|t1 k]; cbn in Ek; injection Ek as <- E2.
    + rewrite app_nil_r in *. rewrite El in Hyb. by apply (Hno y).
    + rewrite last_ts_app, El in Hb. cbn [EventsHistory.last_ts] in Hb. destruct Ha2 as [_ Ha2]. rewrite E2 in Ha2.
      apply ascending_app in Ha2 as [Ha2 _]. pose proof (last_ts_le _ _ Ha2). lia.
Qed.

Lemma lost_unfollowed (ts : Z) l x : x ∈ l → x.1.1 = i1 → x.2 + time d < last_ts ts l → Forall (λ y, ended_by d i2 cube (event_of x) y = false) l →
  event_of x ∈ unfollowed d i1 i2 cube (last_ts ts l) l.
Proof.
  intros Hx Hx1 Hl Hno. unfold unfollowed. apply list_elem_of_fmap. exists (event_of x, false). split; [done|]. apply list_elem_of_filter. split; [by split|].
  clear Hl. induction l as [|t l IH]; [by apply elem_of_nil in Hx|]. apply Forall_cons in Hno as [_ Hno]. cbn [EventsHistory.candidates]. apply elem_of_app.
  apply elem_of_cons in Hx as [<-|Hx]; [left|right; by apply IH]. rewrite decide_True by done. apply list_elem_of_singleton. f_equal. symmetry.
  apply not_true_iff_false. intros (y & Hy%list_elem_of_In & Hend)%existsb_exists. rewrite Forall_forall in Hno. by rewrite Hno in Hend.
Qed.
End notfollows.

(** ** The machine of [NOTPRECEDES] *)

Section notprecedes.
Context {HT : Type} `{Henv : !EventEnv HT}.
Context (d : Interval) (i1 i2 : nat) (Hne : i1 ≠ i2) (Hpos : 0 ≤ time d) (cube : ExprCube).
Implicit Types (w : Nots HT) (v : AEvent HT) (past : list (tuple HT)).
Local Abbreviation unpreceded_one := (unpreceded_one d i1 i2 cube).
Local Abbreviation unpreceded := (unpreceded d i1 i2 cube).
Local Abbreviation arrive := (arrive_nots EVENT_NOTPRECEDES d i1 i2 cube).

Record precedes_history past (ts : Z) w : Prop := {
  ph_waiters : waiters w = [];
  ph_others : others w = filter (stays d ts) (stream i2 past);
  ph_pending : pending w = []
}.

Lemma too_soon_kept (ts : Z) v vs : v.2 = ts → existsb (too_soon d cube v) (filter (stays d ts) vs) = existsb (too_soon d cube v) vs.
Proof.
  intros Hv. induction vs as [|u vs IH]; [done|]. rewrite filter_cons. cbn [existsb]. case_decide as Hu; cbn [existsb]; rewrite IH; [done|].
  unfold too_soon at 2. unfold stays in Hu. rewrite (proj2 (Z.ltb_ge _ _)) by lia. by rewrite andb_false_r.
Qed.

Lemma arrive_precedes past (ts ts' : Z) w i h : precedes_history past ts w → ts ≤ ts' →
  precedes_history (past ++ [(i, h, ts')]) ts' (arrive i h ts' w) ∧ founds (arrive i h ts' w) = founds w ++ unpreceded_one past (i, h, ts').
Proof.
  intros [Hw Ho Hp] Hle. unfold arrive_nots, EventsHistory.unpreceded_one. cbn [fst snd]. unfold serve_nots. rewrite Hp. cbn [existsb]. unfold expire_nots. cbn [waiters others founds pending].
  pose proof (kept_snoc d i1 i2 Hne Hpos i2 past (i, h, ts') ts Hle) as K. cbn [fst snd] in K. rewrite Ho.
  destruct (decide (i = i1)) as [E1|N1]; [|destruct (decide (i = i2)) as [E2|N2]].
  - rewrite (decide_False (P := i = i2)) in K by congruence. rewrite app_nil_r in K. unfold construct_nots. cbn [waiters others founds pending]. split; [by constructor; rewrite ?K|].
    f_equal. cbn [app]. rewrite bind_cons, app_nil_r. unfold comes_alone. cbn [is_done value orb]. rewrite (stays_later d i1 i2 Hne ts ts') by done. by rewrite too_soon_kept.
  - unfold construct_nots. cbn [waiters others founds pending app]. split; [by constructor; cbn [others]; rewrite ?K|by cbn; rewrite !app_nil_r].
  - rewrite app_nil_r in K. split; [by constructor; rewrite ?K|]. by rewrite app_nil_r.
Qed.

Lemma unpreceded_in l : ∀ past v, v ∈ unpreceded past l → ∃ t, v = event_of t.
Proof.
  induction l as [|t l IH]; intros past v; cbn [EventsHistory.unpreceded]; [by intros ?%elem_of_nil|]. intros [Hv|Hv]%elem_of_app; [|by eapply IH].
  unfold EventsHistory.unpreceded_one in Hv. exists t. repeat case_match; try by apply elem_of_nil in Hv. by apply list_elem_of_singleton in Hv.
Qed.

Local Abbreviation agreeing := (agreeing cube).
Local Abbreviation answers := (answers (Hm := nots_machine EVENT_NOTPRECEDES d i1 i2 cube) cube).
Local Abbreviation final := (final (Hm := nots_machine EVENT_NOTPRECEDES d i1 i2 cube) cube).

Lemma answers_unpreceded (l : list (option (tuple HT))) : ∀ past ts w, precedes_history past ts w → ascending ts (omap id l) →
  answers l w ++ agreeing (founds (final l w)) = agreeing (founds w) ++ agreeing (unpreceded past (omap id l)).
Proof.
  induction l as [|[[[i h] ts']|] l IH]; intros past ts w Ht Ha; cbn [EventsRun.answers EventsRun.final]; [by rewrite app_nil_r| |].
  - change (omap id (Some (i, h, ts') :: l)) with ((i, h, ts') :: omap id l) in *. destruct Ha as [Hle Ha]. cbn [snd] in *.
    destruct (arrive_precedes past ts ts' w i h Ht Hle) as [Ht' Hf]. cbn [m_arrive nots_machine]. rewrite (IH _ ts' _ Ht' Ha), Hf. cbn [EventsHistory.unpreceded]. by rewrite !agreeing_app, <- app_assoc.
  - change (omap id (None :: l)) with (omap id l) in *. rewrite <- app_assoc, (IH past ts _) by (done || by destruct Ht).
    rewrite (next_found_agreeing cube (founds w)). cbn [m_found m_take nots_machine founds take_nots]. by rewrite <- app_assoc.
Qed.
End notprecedes.
End EventsHistory.

(** * Event aggregates: the events without another that a query gets

    Over two streams [NOTFOLLOWS] and [NOTPRECEDES] report the events of the left stream
    that no event of the right one follows or precedes within the delay, except those
    that are lost when a tuple comes exactly at the end of a wait. *)


Module EventsAlone.
Import Bit Eddy Stem StemSpec Window WindowSpec Events EventsMem EventsInv EventsStep EventsRead EventsThm EventsRun EventsMatch EventsTwo EventsPairs EventsAnswer EventsNot EventsWait EventsHistory.
Local Open Scope Z_scope.

(** ** The operator is described by the machine *)

Section answer.
Context {HT : Type} `{Hcal : !Calendar} `{Hpal : !Palloc} `{Henv : !EventEnv HT} `{Hfresh : !PallocFresh}.
Context (op : EventOperator) (d : Interval) (Hd : delay_ok d) (i1 i2 : nat) (Hi1 : (i1 < TCQMAXSOURCES)%nat) (Hi2 : (i2 < TCQMAXSOURCES)%nat) (Hne : i1 ≠ i2).
Context (cube : ExprCube) (Hcube : cube_ok cube) (Hop : not_op op = true).
Implicit Types (st : Store HT) (w : Nots HT) (v : AEvent HT) (t : IHT HT) (n : FEventAgg HT).
Local Abbreviation root := (two_root op d i1 i2).

Definition one_each w : Prop := Forall (λ v, (tuples_of v ≤ 1)%nat) (founds w).

Lemma nots_size R held st w : Inv root R held st → nshows i1 i2 st w → one_each w → (distinct (refs (entries st)) ≤ size_nots w)%nat.
Proof.
  intros I [Hl Hr Hf Ho Fl Fr _] Hk.
  assert (Forall2 (holds st) (get_out st lnode) (value <$> waiters w)) as Hlv.
  { rewrite <- (list_fmap_id (get_out st lnode)). apply Forall2_fmap_2. eapply Forall2_impl; [exact Hl|]. intros ee a. apply status_holds. }
  pose proof (lists_size root R held st i1 i2 _ _ _ 1 I Ho Hlv Hr Hf Hi1 Hi2 (proj2 (Forall_fmap _ _ _) Fl) Fr Hk) as Hb. rewrite length_fmap in Hb. unfold size_nots. lia.
Qed.

(** What is found comes from the left stream. *)
Lemma construct_one ts w : Forall (λ a, of_stream i1 (value a)) (waiters w) → one_each w → one_each (construct_nots op d cube ts w).
Proof.
  intros Hl Hf. assert (∀ (f : Waiter HT → list (AEvent HT)), (∀ a v, v ∈ f a → v = value a) → one_each (mkNots [] [] (founds w ++ (waiters w ≫= f)) [])) as Hb.
  { intros f Hfa. unfold one_each. cbn [founds]. apply Forall_app. split; [done|]. apply Forall_forall. intros v (a & Hv & Ha)%list_elem_of_bind. rewrite (Hfa a v Hv).
    rewrite Forall_forall in Hl. by rewrite (stream_tuples i1 (value a) Hi1 (Hl a Ha)). }
  unfold construct_nots. destruct op; try done; apply Hb; intros a v; unfold gives_up, comes_alone; repeat case_match; try (by intros ?%elem_of_nil); by intros ->%list_elem_of_singleton.
Qed.

Lemma value_waited ts vs a : value (waited d cube ts vs a) = value a.
Proof. unfold waited. by repeat case_match. Qed.

Lemma arrive_one i h ts w : Forall (λ a, of_stream i1 (value a)) (waiters w) → one_each w → one_each (arrive_nots op d i1 i2 cube i h ts w).
Proof.
  intros Hl Hf.
  assert (Forall (λ a, of_stream i1 (value a)) (waiters (serve_nots op d cube ts w)) ∧ one_each (serve_nots op d cube ts w)) as [Hl1 Hf1].
  { unfold serve_nots. destruct (existsb _ _); [|done]. split; [|by apply construct_one]. cbn [waiters]. unfold construct_nots. destruct op; try constructor. cbn [waiters].
    apply Forall_fmap. eapply Forall_impl; [exact Hl|]. intros a. unfold compose. by rewrite value_waited. }
  assert (Forall (λ a, of_stream i1 (value a)) (waiters (expire_nots op d ts (serve_nots op d cube ts w))) ∧ one_each (expire_nots op d ts (serve_nots op d cube ts w))) as [Hl2 Hf2].
  { unfold expire_nots. destruct op; (split; [|done]); try constructor. by apply Forall_filter'. }
  unfold arrive_nots. destruct (decide (i = i1)) as [->|N1]; [|destruct (decide (i = i2)) as [->|N2]]; [apply construct_one|apply construct_one|]; try done.
  cbn [waiters]. apply Forall_app. split; [done|]. apply Forall_singleton. by exists h.
Qed.

Lemma arrive_calm i h ts w : 0 ≤ time d → calm op w → calm op (arrive_nots op d i1 i2 cube i h ts w).
Proof.
  intros Hpos. destruct (two_nots op Hop) as [-> | ->]; unfold calm, arrive_nots, construct_nots, expire_nots, serve_nots.
  - rewrite !decide_True by done. intros [Ho Hs].
    assert (∀ ws, Forall settled_waiter ws → ∀ ts vs, Forall settled_waiter (waited d cube ts vs <$> ws)) as Hw.
    { intros ws Hws ts' vs. apply Forall_fmap. eapply Forall_impl; [exact Hws|]. intros [v dn rq] Ha. unfold compose, waited, settled_waiter in *. cbn in *. repeat case_match; cbn; tauto. }
    assert (∀ ws ts' vs, Forall settled_waiter (waited d cube ts' vs <$> ws)) as Hw2.
    { intros ws ts' vs. apply Forall_fmap, Forall_forall. intros [v dn rq] _. unfold compose, waited, settled_waiter. cbn. repeat case_match; cbn; tauto. }
    destruct (existsb _ _); cbn [waiters others]; repeat case_decide; cbn [waiters others]; (split; [done|]); try apply Hw2; apply Forall_filter'; [apply Hw2|done].
  - rewrite !decide_False by done. intros Hp. rewrite Hp. cbn. repeat case_decide; done.
Qed.

(** The stores that the machine describes. *)
Definition portrays st w : Prop := (∃ R, Inv root R [] st) ∧ nshows i1 i2 st w ∧ calm op w ∧ one_each w.

Context (Hpos : 0 ≤ time d).

Lemma arrival_nots st w t i h ts : portrays st w → (size_nots w < MAX_BASE_TUPLES_CACHED)%nat → iht_wf t → simple_at t i h ts →
  ∃ F st', (∀ fuel, (F ≤ fuel)%nat → arrival fuel cube root t ts st = Ok st') ∧ portrays st' (arrive_nots op d i1 i2 cube i h ts w).
Proof.
  intros ([R I0] & Hs & Hc & H1) Hsize Hwf Ht. unfold arrival.
  pose proof (nots_size R [] st w I0 Hs H1) as Hb. set (R0 := refs (entries st)) in *. assert (Inv root R0 [] st) as I by (by apply (bound_inv root R)).
  destruct (serve_nots_ok op d Hd i1 i2 Hi1 Hi2 Hne cube Hcube Hop R0 ts st w I Hs Hc) as (F & st1 & E1 & I1 & S1).
  destruct (free_same root R0 st1 I1) as (st2 & E2 & I2 & L2 & Hcache).
  assert (distinct (refs (entries st2)) ≤ distinct R0)%nat as Hle.
  { apply submseteq_length, NoDup_submseteq; [apply NoDup_remove_dups|]. intros bt. rewrite !elem_of_remove_dups. apply (bound_refs root R0 [] st2 I2). }
  destruct (copy_same root R0 st2 t i h ts I2 ltac:(lia) Hwf Ht) as (a & ev & st3 & E3 & I3 & L3 & Ep & He & Hv & Hidx).
  pose proof (nshows_same i1 i2 _ _ _ L3 (nshows_same i1 i2 _ _ _ L2 S1)) as S3.
  destruct (expire_nots_ok op d Hd i1 i2 Hop (a :: R0) [a] st3 _ ts I3 S3) as (st4 & E4 & I4 & B4 & S4).
  destruct (publish_nots op d Hd i1 i2 Hi1 Hi2 Hne cube Hcube Hop (a :: R0) [a] st4 _ ev i h ts I4 S4 He) as (st5 & E5 & I5 & S5).
  { by rewrite Ep. }
  { rewrite Ep. intros bt ->%list_elem_of_singleton. by left. }
  { by rewrite B4. }
  { apply Ht. }
  { done. }
  destruct (release_same root (a :: R0) st5 ev [a] I5) as (st6 & E6 & I6 & L6); [by rewrite Ep|].
  exists F, st6. split; [|split; [by exists (a :: R0)|split; [by apply (nshows_same i1 i2 st5)|split; [by apply arrive_calm|apply arrive_one; [apply Hs|done]]]]].
  intros fuel HF. rewrite E1 by done. cbn [cbind]. rewrite E2. cbn [cbind]. rewrite E3. cbn [cbind]. rewrite E4. cbn [cbind]. rewrite E5. cbn [cbind]. exact E6.
Qed.

Lemma fetch_nots R st w : Inv root R [] st → nshows i1 i2 st w → ∃ r st', fetchNextComplexEvent cube st = Ok (r, st') ∧ nshows i1 i2 st' (take_nots (next_found cube (founds w)).2 w) ∧
  match r, (next_found cube (founds w)).1 with
  | None, None => Inv root R [] st'
  | Some e, Some v => Inv root R (pointers e) st' ∧ is_event (base_tuples st') e v
  | _, _ => False
  end.
Proof.
  intros I [Hl Hr Hf Ho Fl Fr Hq]. destruct (fetch_listed root R cube (get_out st []) Hcube st (founds w) I Hf eq_refl) as (r & st' & E & L & Eo & Hf' & Hres).
  exists r, st'. split; [exact E|]. split; [|exact Hres]. constructor; cbn [waiters others founds pending take_nots]; try done.
  - rewrite Eo by done. apply (statuses_kept st st'); [apply L|intros ee x Hin Hx; apply (ol_kept _ _ L lnode); [by rewrite Eo|done]|done].
  - by apply (only_less_listed st); [|apply Eo|].
  - intros p P1 P2 P3. rewrite Eo by done. by apply Ho.
  - by rewrite (ol_timeouts _ _ L).
Qed.

#[local] Instance nots_simulates : Simulates (Hm := nots_machine op d i1 i2 cube) root cube portrays.
Proof.
  constructor.
  - intros st w t i h ts. apply arrival_nots.
  - intros st w ([R I] & Hs & Hc & H1). destruct (fetch_nots R st w I Hs) as (r & st1 & E & S1 & Hr). exists r, st1. split; [done|]. cbn [m_found m_take nots_machine].
    assert (one_each (take_nots (next_found cube (founds w)).2 w)) as Hs'.
    { unfold one_each in *. cbn [founds take_nots]. rewrite Forall_forall in H1 |- *. intros v Hv. apply H1. revert Hv. generalize (founds w) as vs. clear.
      induction vs as [|v' vs IH]; [done|]. cbn [next_found]. destruct (agrees cube v'.1); intros Hv; right; [exact Hv|by apply IH]. }
    assert (calm op (take_nots (next_found cube (founds w)).2 w)) as Hc' by done.
    destruct r as [e|], ((next_found cube (founds w)).1) as [v|]; try done; [|split; [by exists R|done]]. destruct Hr as [G1 Hv]. split; [done|].
    destruct (release_same root R st1 e _ G1 (reflexivity _)) as (st2 & E6 & I6 & L6). exists st2. split; [done|]. split; [by exists R|]. split; [by apply (nshows_same i1 i2 st1)|done].
Qed.

Lemma nothing_portrayed : portrays (empty_store : Store HT) no_events.
Proof.
  pose proof (fresh_store_ok (HT := HT) 0 1 root [] (λ _, []) CreateIntermediateHeapTuple (two_delays op d Hd i1 i2) eq_refl) as Hi. split; [exists []; apply (eo_store _ Hi)|].
  split; [constructor; cbn; try done; constructor|]. split; [unfold calm; case_decide; done|constructor].
Qed.
End answer.

(** ** The results *)

Section results.
Context {HT : Type} `{Hcal : !Calendar} `{Hpal : !Palloc} `{Henv : !EventEnv HT} `{Hfresh : !PallocFresh}.
Context (d : Interval) (Hd : delay_ok d) (i1 i2 : nat) (Hi1 : (i1 < TCQMAXSOURCES)%nat) (Hi2 : (i2 < TCQMAXSOURCES)%nat) (Hne : i1 ≠ i2).
Context (cube : ExprCube) (Hcube : cube_ok cube).

Lemma timeouts_run q room vl srcs (o : IHT HT) acts l k ts : cube = initializeExprCube vl → 0 < time d → (0 < room)%nat →
  Forall2 stands acts l → ascending ts (omap id l) → fits (Hm := nots_machine EVENT_NOTFOLLOWS d i1 i2 cube) cube l no_events = true →
  (length (timeouts d i1 i2 cube [] ts (omap id l)) ≤ k)%nat →
  ∃ F res n', (∀ fuel, (F ≤ fuel)%nat → run fuel (acts ++ replicate k Poll) (ProcessInitFEventAgg [q] room (two_root EVENT_NOTFOLLOWS d i1 i2) vl srcs o) = Ok (res, n'))
    ∧ Forall2 (λ r v, result_for q v.1 r) res (timeouts d i1 i2 cube [] ts (omap id l)).
Proof.
  intros Hc Hpos Hroom Hst Hasc Hfit Hk. assert (0 ≤ time d) as Hpos' by lia. pose proof (init_idle (two_root EVENT_NOTFOLLOWS d i1 i2) cube q room vl srcs o Hroom Hc) as Hn.
  apply (run_drained (Hm := nots_machine EVENT_NOTFOLLOWS d i1 i2 cube) _ cube _ (Hsim := nots_simulates EVENT_NOTFOLLOWS d Hd i1 i2 Hi1 Hi2 Hne cube Hcube eq_refl Hpos')
    acts l k _ q empty_store no_events (timeouts d i1 i2 cube [] ts (omap id l)) Hn); try done.
  - by apply nothing_portrayed.
  - rewrite <- (agreeing_events cube (timeouts d i1 i2 cube [] ts (omap id l))) by apply timeouts_in.
    assert (follows_history d i1 i2 cube [] ts (no_events : Nots HT)) as H0 by (constructor; reflexivity).
    exact (answers_timeouts d i1 i2 Hne Hpos cube l [] ts no_events H0 Hasc).
Qed.

(** C5: What [l NOTFOLLOWS r] reports.  An operator for it, within a delay that is not empty,
    gets tuples of several streams in the order of their timestamps, and is asked for results
    in between as often as one likes and at the end often enough.  If whenever a tuple comes
    fewer than [MAX_BASE_TUPLES_CACHED] base tuples are kept, every call succeeds and the
    results are the left events of [timeouts]: when a tuple shows that a wait is over, the
    events that no right event of the same partition has followed in time, once each.  When no
    tuple comes exactly at the end of a wait these are all the left events whose delay the
    last tuple shows to be over and that no right event has followed within it. *)
Theorem events_not_followed q room vl srcs (o : IHT HT) acts l k ts : cube = initializeExprCube vl → 0 < time d → (0 < room)%nat →
  Forall2 stands acts l → ascending ts (omap id l) → fits (Hm := nots_machine EVENT_NOTFOLLOWS d i1 i2 cube) cube l no_events = true →
  (length (timeouts d i1 i2 cube [] ts (omap id l)) ≤ k)%nat →
  ∃ F res n', (∀ fuel, (F ≤ fuel)%nat → run fuel (acts ++ replicate k Poll) (ProcessInitFEventAgg [q] room (two_root EVENT_NOTFOLLOWS d i1 i2) vl srcs o) = Ok (res, n'))
    ∧ Forall2 (λ r v, result_for q v.1 r) res (timeouts d i1 i2 cube [] ts (omap id l))
    ∧ (no_tie d i1 (omap id l) → Forall2 (λ r v, result_for q v.1 r) res (unfollowed d i1 i2 cube (last_ts ts (omap id l)) (omap id l))).
Proof.
  intros Hc Hpos Hroom Hst Hasc Hfit Hk. destruct (timeouts_run q room vl srcs o acts l k ts Hc Hpos Hroom Hst Hasc Hfit Hk) as (F & res & n' & E & Hres).
  exists F, res, n'. split; [done|]. split; [done|]. intros Hno. by rewrite <- (all_timeouts d i1 i2 Hne Hpos cube ts _ Hasc Hno).
Qed.

(** The timestamp is that of the tuple. *)
Lemma stands_time (acts : list (action HT)) (l : list (option (tuple HT))) (t : tuple HT) : Forall2 stands acts l → t ∈ omap id l → get_timestamp_val t.1.1 t.1.2 = Some t.2.
Proof.
  induction 1 as [|a x acts l Ha _ IH]; [by intros ?%elem_of_nil|]. destruct x as [[[i h] ts]|]; [|done].
  change (omap id (Some (i, h, ts) :: l)) with ((i, h, ts) :: omap id l). intros [->|Ht]%elem_of_cons; [|by apply IH].
  destruct a as [t|]; [|done]. destruct Ha as (_ & (_ & _ & _ & E & _) & _). exact E.
Qed.

Lemma event_of_tuple (t u : tuple HT) : t.1.1 = i1 → u.1.1 = i1 → (event_of t).1 = (event_of u).1 → t.1.2 = u.1.2.
Proof.
  unfold event_of, single. cbn [fst]. intros -> -> E. apply (f_equal (λ l : list (option HT), l !! i1)) in E.
  rewrite !list_lookup_insert_eq in E by (by rewrite length_replicate). by injection E.
Qed.

(** C35: Events that are lost.  Let [x] be an event of the left stream and [u] a tuple that comes
    exactly when the wait of [x] is over, and let [t], the next tuple, come later, but before
    any other wait is over (no left event up to [u] has the end of its wait after [u] and not
    after [t]).  Then [x] is never reported, whatever comes before and after and however often
    results are asked for, although no right event may have followed it and [t] shows that its
    delay is over: the request for a timeout was served at [u], when the event was not yet
    found to be alone, and at [t] the event has expired. *)
Theorem event_lost_at_deadline q room vl srcs (o : IHT HT) acts l k ts l1 u t l2 x : cube = initializeExprCube vl → 0 < time d → (0 < room)%nat →
  Forall2 stands acts l → ascending ts (omap id l) → fits (Hm := nots_machine EVENT_NOTFOLLOWS d i1 i2 cube) cube l no_events = true →
  (length (timeouts d i1 i2 cube [] ts (omap id l)) ≤ k)%nat →
  omap id l = l1 ++ u :: t :: l2 → x ∈ l1 → x.1.1 = i1 → u.2 = x.2 + time d → u.2 < t.2 →
  (∀ y, y ∈ l1 ++ [u] → y.1.1 = i1 → ¬ u.2 < y.2 + time d ≤ t.2) →
  (Forall (λ y, ended_by d i2 cube (event_of x) y = false) (omap id l) → event_of x ∈ unfollowed d i1 i2 cube (last_ts ts (omap id l)) (omap id l))
  ∧ ∃ F res n', (∀ fuel, (F ≤ fuel)%nat → run fuel (acts ++ replicate k Poll) (ProcessInitFEventAgg [q] room (two_root EVENT_NOTFOLLOWS d i1 i2) vl srcs o) = Ok (res, n'))
    ∧ Forall (λ r, t_base_tuples r ≠ (event_of x).1) res.
Proof.
  intros Hc Hpos Hroom Hst Hasc Hfit Hk El Hx Hx1 Hu Hlt Hno. assert (x ∈ omap id l) as Hxl by (rewrite El; apply elem_of_app; by left). split.
  - intros Hend. apply lost_unfollowed; [done..| |done]. rewrite <- Hu, El. rewrite El, (cons_middle u l1), app_assoc in Hasc.
    rewrite (cons_middle u l1), app_assoc, last_ts_app. cbn [EventsHistory.last_ts]. destruct (ascending_app _ _ _ Hasc) as [_ [_ Ha]]. pose proof (last_ts_le i1 i2 Hne _ _ Ha). lia.
  - destruct (timeouts_run q room vl srcs o acts l k ts Hc Hpos Hroom Hst Hasc Hfit Hk) as (F & res & n' & E & Hres). exists F, res, n'. split; [done|].
    rewrite El in Hasc, Hres. apply Forall_forall. intros r Hr Er. apply list_elem_of_lookup in Hr as [j Hj].
    destruct (Forall2_lookup_l _ _ _ _ _ Hres Hj) as (v & Hv%list_elem_of_lookup_2 & Ev & _).
    destruct (lost_timeouts d i1 i2 Hne cube ts l1 u t l2 v Hasc Hlt Hno Hv) as (y & Hy & Hy1 & -> & Hyd). apply Hyd. rewrite Hu. f_equal.
    rewrite <- El in Hy. pose proof (stands_time _ _ _ Hst Hy) as Ty. pose proof (stands_time _ _ _ Hst Hxl) as Tx. rewrite Hy1 in Ty. rewrite Hx1 in Tx.
    rewrite (event_of_tuple y x Hy1 Hx1) in Ty by congruence. congruence.
Qed.

(** C9: What [l NOTPRECEDES r] reports: under the same conditions exactly the left events that
    no earlier right event of the same partition precedes by less than the delay, in the order
    in which they come. *)
Theorem events_not_preceded q room vl srcs (o : IHT HT) acts l k ts : cube = initializeExprCube vl → 0 ≤ time d → (0 < room)%nat →
  Forall2 stands acts l → ascending ts (omap id l) → fits (Hm := nots_machine EVENT_NOTPRECEDES d i1 i2 cube) cube l no_events = true →
  (length (unpreceded d i1 i2 cube [] (omap id l)) ≤ k)%nat →
  ∃ F res n', (∀ fuel, (F ≤ fuel)%nat → run fuel (acts ++ replicate k Poll) (ProcessInitFEventAgg [q] room (two_root EVENT_NOTPRECEDES d i1 i2) vl srcs o) = Ok (res, n'))
    ∧ Forall2 (λ r v, result_for q v.1 r) res (unpreceded d i1 i2 cube [] (omap id l)).
Proof.
  intros Hc Hpos Hroom Hst Hasc Hfit Hk. pose proof (init_idle (two_root EVENT_NOTPRECEDES d i1 i2) cube q room vl srcs o Hroom Hc) as Hn.
  apply (run_drained (Hm := nots_machine EVENT_NOTPRECEDES d i1 i2 cube) _ cube _ (Hsim := nots_simulates EVENT_NOTPRECEDES d Hd i1 i2 Hi1 Hi2 Hne cube Hcube eq_refl Hpos)
    acts l k _ q empty_store no_events (unpreceded d i1 i2 cube [] (omap id l)) Hn); try done.
  - by apply nothing_portrayed.
  - rewrite <- (agreeing_events cube (unpreceded d i1 i2 cube [] (omap id l))) by apply unpreceded_in.
    assert (precedes_history d i2 [] ts (no_events : Nots HT)) as H0 by (constructor; reflexivity).
    exact (answers_unpreceded d i1 i2 Hne Hpos cube l [] ts no_events H0 Hasc).
Qed.
End results.
End EventsAlone.
