(* ===== verification/EventsDemo.v ===== *)
(** * Event aggregates on concrete streams

    An allocator that never gives an address twice, tuples of a time and a key, and runs of
    the operators on them: the theorems on events apply, and the results are the expected
    ones. *)

From Stdlib Require Import Arith.Cantor Sorting.Sorted.
From S2P Require Import Prelude BitArray GSFilter Eddy EddyGSF Stem StemSpec Window WindowSpec Events EventsMem EventsInv EventsStep EventsRead EventsThm EventsRun EventsTwo EventsAnswer EventsWait EventsAlone.

Module EventsDemo.
Import Bit GSF Eddy Stem StemSpec Window WindowSpec Events EventsMem EventsInv EventsStep EventsRead EventsThm EventsRun EventsMatch EventsTwo EventsPairs EventsAnswer EventsNot EventsWait EventsHistory EventsAlone.
Local Open Scope Z_scope.

(** ** The environment *)

(** The [n]-th address, another one when that is in use. *)
#[local] Instance bump : Palloc := λ n X, let a := Cantor.to_nat (n, 0%nat) in if decide (a ∈ X) then Cantor.to_nat (n, S (list_max (elements X))) else a.

#[local] Instance bump_fresh : PallocFresh.
Proof.
  intros n X. unfold palloc, bump. case_decide as Ha; [|done]. intros Hin.
  assert (Cantor.to_nat (n, S (list_max (elements X))) ≤ list_max (elements X))%nat as Hle.
  { pose proof (proj1 (list_max_le (elements X) (list_max (elements X))) (Nat.le_refl _)) as Hall. rewrite List.Forall_forall in Hall. apply Hall.
    apply list_elem_of_In. by apply elem_of_elements. }
  pose proof (Cantor.to_nat_spec n (S (list_max (elements X)))) as Hs. nia.
Qed.

Lemma bump_new k k' X X' : k ≠ k' → palloc k X ≠ palloc k' X'.
Proof.
  intros Hk. unfold palloc, bump. intros E. assert (∃ a b, Cantor.to_nat (k, a) = Cantor.to_nat (k', b)) as (a & b & E').
  { repeat case_decide; by eexists _, _. }
  apply Cantor.to_nat_inj in E'. congruence.
Qed.

#[local] Instance fixed_calendar : Calendar := λ t m, Fail Undefined.

(** A tuple has a time and a key; a punctuation has the key [-1]. *)
#[local] Instance keyed : EventEnv (Z * Z) := {|
  get_timestamp_val i h := Some h.1;
  HeapTupleIsPunct h := h.2 =? -1;
  equal_attrs v1 h1 v2 h2 := Some (h1.2 =? h2.2);
  form_punct_tup i ts := (ts, -1)
|}.

(** The partition is by key, in the streams 0 and 1. *)
Definition keys : list (list Var) := [[(1, 2); (2, 2)]].
Definition by_key : ExprCube := initializeExprCube keys.

Definition tuple_of (i : nat) (h : Z * Z) : IHT (Z * Z) :=
  mkIHT (<[i := Some h]> (replicate TCQMAXSOURCES None)) (BitArraySetBit (replicate (BASIZE TCQMAXSOURCES) 0) i)
    (replicate (BASIZE TCQMAXOPERATORS) 0) (replicate (BASIZE TCQMAXOPERATORS) 0) (BitArraySetAll (replicate (BASIZE TCQMAXQUERIES) 0) TCQMAXQUERIES) false.
Definition arrives (i : nat) (ts key : Z) : action (Z * Z) := Arrive (tuple_of i (ts, key)).
Definition comes (i : nat) (ts key : Z) : option (tuple (Z * Z)) := Some (i, (ts, key), ts).

Lemma tuple_stands i ts key : (i = 0%nat ∨ i = 1%nat) → time_ok ts → key ≠ -1 → stands (arrives i ts key) (comes i ts key).
Proof.
  intros Hi Ht Hk. split; [|split].
  - assert (∀ l : list Z, forallb (λ b, (0 <=? b) && (b <? 256)) l = true → Forall is_byte l) as Hb.
    { intros l Hl. apply Forall_forall. intros b Hin. rewrite forallb_forall in Hl. specialize (Hl b (proj1 (list_elem_of_In _ _) Hin)).
      apply andb_true_iff in Hl as [H1%Z.leb_le H2%Z.ltb_lt]. done. }
    constructor; [constructor| |cbn; by rewrite length_insert]; (split; [by destruct Hi as [-> | ->]|apply Hb; by destruct Hi as [-> | ->]]).
  - split; [by destruct Hi as [-> | ->]|]. split; [by destruct Hi as [-> | ->]|]. split; [|done].
    intros j o. cbn [t_base_tuples tuple_of]. destruct (decide (j = i)) as [|N]; [done|]. rewrite list_lookup_insert_ne by done. by intros [[=] _]%lookup_replicate.
  - assert ((key =? -1) = false) as E by (by apply Z.eqb_neq). unfold ihtIsPunct, tuple_of. cbn [t_base_tuples]. destruct Hi as [-> | ->]; cbn; rewrite E; done.
Qed.

Definition within (n : Z) : Interval := mkInterval 0 n.
Definition fresh_operator (e : EventExpr) : FEventAgg (Z * Z) := ProcessInitFEventAgg [3%nat] 5 e keys (λ _, []) CreateIntermediateHeapTuple.
Definition found_of (r : cres (list (IHT (Z * Z)) * FEventAgg (Z * Z))) : option (list (list (Z * Z))) :=
  match r with Ok (os, _) => Some ((λ o, omap id (t_base_tuples o)) <$> os) | _ => None end.

(** Two streams, each tuple with its time and its key. *)
Definition trace : list (action (Z * Z)) := [arrives 0 1 5; arrives 1 4 5; Poll; arrives 1 6 7; arrives 0 12 5; Poll; arrives 0 14 8; arrives 1 30 5; arrives 0 40 5].
Definition trace_means : list (option (tuple (Z * Z))) := [comes 0 1 5; comes 1 4 5; None; comes 1 6 7; comes 0 12 5; None; comes 0 14 8; comes 1 30 5; comes 0 40 5].

Example follows_found : found_of (run 10 (trace ++ replicate 4 Poll) (fresh_operator (two_root EVENT_FOLLOWS (within 10) 0 1))) = Some [[(1, 5); (4, 5)]].
Proof. vm_compute. reflexivity. Qed.
Example precedes_found : found_of (run 10 (trace ++ replicate 4 Poll) (fresh_operator (two_root EVENT_PRECEDES (within 10) 0 1))) = Some [[(12, 5); (4, 5)]; [(40, 5); (30, 5)]].
Proof. vm_compute. reflexivity. Qed.
Example notfollows_found : found_of (run 10 (trace ++ replicate 4 Poll) (fresh_operator (two_root EVENT_NOTFOLLOWS (within 10) 0 1))) = Some [[(12, 5)]; [(14, 8)]].
Proof. vm_compute. reflexivity. Qed.
Example notprecedes_found : found_of (run 10 (trace ++ replicate 4 Poll) (fresh_operator (two_root EVENT_NOTPRECEDES (within 10) 0 1))) = Some [[(1, 5)]; [(14, 8)]; [(40, 5)]].
Proof. vm_compute. reflexivity. Qed.

Ltac small := match goal with |- (_ < _)%nat => vm_compute; lia | |- (_ ≤ _)%nat => vm_compute; lia | |- _ => cbn; lia end.
Ltac stands_list := repeat (apply Forall2_cons; split; [first [exact I|apply tuple_stands; [first [by left|by right]|reflexivity|done]]|]); apply Forall2_nil; done.
Lemma trace_stands : Forall2 stands trace trace_means.
Proof. stands_list. Qed.

(** ** The theorems apply *)

Lemma event_calls_safe_witness : ∃ F n', (∀ fuel, (F ≤ fuel)%nat → ProcessNextFEventAgg fuel (with_queues (fresh_operator (two_root EVENT_FOLLOWS (within 10) 0 1)) [tuple_of 0 (1, 5)] []) = Ok n')
  ∧ events_ok n' ∧ inputq n' = [].
Proof.
  apply (event_calls_safe (with_queues (fresh_operator (two_root EVENT_FOLLOWS (within 10) 0 1)) [tuple_of 0 (1, 5)] [])).
  - destruct (tuple_stands 0 1 5) as (Hwf & Ht & _); [by left|done|done|].
    destruct (fresh_store_ok (HT := Z * Z) 3 5 (two_root EVENT_FOLLOWS (within 10) 0 1) keys (λ _, []) CreateIntermediateHeapTuple) as [H1 H2 H3 H4 H5 H6]; [split; [split; [done|reflexivity]|done]|reflexivity|].
    constructor; try done. constructor; [|constructor]. split; [exact Hwf|]. eexists _, _, _. exact Ht.
  - vm_compute. lia.
Defined.

Lemma event_pairs_reported_witness : reports EVENT_FOLLOWS (within 10) 0 1 [] (omap id trace_means) ≠ [] ∧
  ∃ F res n', (∀ fuel, (F ≤ fuel)%nat → run fuel (trace ++ replicate 4 Poll) (fresh_operator (two_root EVENT_FOLLOWS (within 10) 0 1)) = Ok (res, n'))
    ∧ Forall2 (λ r v, result_for 3 v.1 r) res (agreeing by_key (reports EVENT_FOLLOWS (within 10) 0 1 [] (omap id trace_means))).
Proof.
  split; [by vm_compute|].
  destruct (event_pairs_reported EVENT_FOLLOWS (within 10) ltac:(done) 0 1 ltac:(small) ltac:(small) ltac:(done) by_key ltac:(apply initialize_cube_ok) eq_refl
    3 5 keys (λ _, []) CreateIntermediateHeapTuple trace trace_means 4) as (F & res & n' & vs & E & Hres & _ & Hall); try done; try small.
  - apply trace_stands.
  - repeat constructor; done.
  - exists F, res, n'. split; [exact E|]. rewrite <- Hall; [exact Hres|]. right. apply bump_new.
Defined.

Lemma events_not_followed_witness : ∃ F res n', (∀ fuel, (F ≤ fuel)%nat → run fuel (trace ++ replicate 4 Poll) (fresh_operator (two_root EVENT_NOTFOLLOWS (within 10) 0 1)) = Ok (res, n'))
  ∧ Forall2 (λ r v, result_for 3 v.1 r) res (timeouts (within 10) 0 1 by_key [] 0 (omap id trace_means))
  ∧ (no_tie (within 10) 0 (omap id trace_means) → Forall2 (λ r v, result_for 3 v.1 r) res (unfollowed (within 10) 0 1 by_key (last_ts 0 (omap id trace_means)) (omap id trace_means))).
Proof.
  apply (events_not_followed (within 10)); try done; try small.
  - apply initialize_cube_ok.
  - apply trace_stands.
Defined.

Lemma events_not_preceded_witness : ∃ F res n', (∀ fuel, (F ≤ fuel)%nat → run fuel (trace ++ replicate 4 Poll) (fresh_operator (two_root EVENT_NOTPRECEDES (within 10) 0 1)) = Ok (res, n'))
  ∧ Forall2 (λ r v, result_for 3 v.1 r) res (unpreceded (within 10) 0 1 by_key [] (omap id trace_means)).
Proof.
  apply (events_not_preceded (within 10) ltac:(done) 0 1 ltac:(small) ltac:(small) ltac:(done) by_key ltac:(apply initialize_cube_ok) 3 5 keys _ _ trace trace_means 4 0); try done; try small.
  apply trace_stands.
Defined.

(** The first event is lost, although nothing follows it. *)
Lemma event_lost_at_deadline_witness : event_of (0%nat, (1, 5), 1) ∈ unfollowed (within 10) 0 1 by_key 15 [(0%nat, (1, 5), 1); (0%nat, (11, 6), 11); (1%nat, (15, 9), 15)] ∧
  ∃ F res n', (∀ fuel, (F ≤ fuel)%nat → run fuel ([arrives 0 1 5; arrives 0 11 6; arrives 1 15 9] ++ replicate 4 Poll) (fresh_operator (two_root EVENT_NOTFOLLOWS (within 10) 0 1)) = Ok (res, n'))
    ∧ Forall (λ r, t_base_tuples r ≠ (event_of (0%nat, (1, 5), 1)).1) res.
Proof.
  set (l := [(0%nat, (1, 5), 1); (0%nat, (11, 6), 11); (1%nat, (15, 9), 15)]).
  destruct (event_lost_at_deadline (within 10) ltac:(done) 0 1 ltac:(small) ltac:(small) ltac:(done) by_key ltac:(apply initialize_cube_ok) 3 5 keys (λ _, []) CreateIntermediateHeapTuple
    [arrives 0 1 5; arrives 0 11 6; arrives 1 15 9] (Some <$> l) 4 1 [(0%nat, (1, 5), 1)] (0%nat, (11, 6), 11) (1%nat, (15, 9), 15) [] (0%nat, (1, 5), 1)) as [Hin Hrun]; try done; try small.
  - stands_list.
  - by left.
  - intros y [-> | ->%list_elem_of_singleton]%elem_of_cons _; cbn; lia.
  - split; [|exact Hrun]. apply Hin. repeat constructor.
Defined.

(** ** An address that is used again *)

(** The seventh address is that of the fourth, when that has been freed. *)
Definition recycle : Palloc := λ n X, if decide (n = 6%nat ∧ 6%nat ∉ X) then 6%nat else bump n X.
Lemma recycle_fresh : PallocFresh (Hpal := recycle).
Proof. intros n X. unfold palloc, recycle. case_decide as H; [apply H|apply bump_fresh]. Qed.

(** Both pairs are reported, but the second one only if its right event is not given the address
    of the first one's, which has been freed: the left event still remembers that it has
    been matched with it. *)
Definition two_pairs : list (action (Z * Z)) := [arrives 0 1 5; arrives 1 4 5; arrives 1 6 5].
Lemma event_pair_missed :
  found_of (run 10 (two_pairs ++ replicate 3 Poll) (fresh_operator (two_root EVENT_FOLLOWS (within 10) 0 1))) = Some [[(1, 5); (4, 5)]; [(1, 5); (6, 5)]] ∧
  found_of (run (Hpal := recycle) 10 (two_pairs ++ replicate 3 Poll) (fresh_operator (two_root EVENT_FOLLOWS (within 10) 0 1))) = Some [[(1, 5); (4, 5)]].
Proof. split; vm_compute; reflexivity. Qed.
End EventsDemo.
